(* ===== verification/_CoqProject ===== *)
-Q . S2P
Prelude.v
Word32.v
FDBase.v
FDIntervals.v
FDIntervalSets.v
FDBitVector.v
Sort.v
FiniteDomain.v
FDRepr.v
FDQueries.v
FDOperators.v
FDSetOperators.v
FDDescr.v
FDTheorems.v
BitArray.v
MslBuffer.v
PrioQueues.v
PrioQueuesSpec.v
PrioQueuesOps.v
PrioQueuesTheorems.v
DgcFwrc.v
DgcFwrcTheorems.v
FSetBits.v
FSetValue.v
FSetValueSpec.v
FSetValueOps.v
FSetValueQueries.v
FSetValueTheorems.v
FSetConstraint.v
FSetOperators.v
FSetNormalize.v
FSetPropagation.v
FSetBuild.v
FSetTests.v
FSetTheorems.v
Base64.v
Feature.v
Arity.v
SRecord.v
ArityLookup.v
ArityTables.v
RecordSpec.v
RecordUpdates.v
RecordTheorems.v
Dictionary.v
DictionarySpec.v
DictionaryTables.v
DictionaryOps.v
DictionaryTheorems.v
Unify.v
UnifySpec.v
UnifySteps.v
UnifyInv.v
UnifyTermination.v
UnifyTyping.v
UnifyTheorems.v
Migratory.v
MigratorySpec.v
MigratorySteps.v
MigratoryChain.v
MigratoryEvents.v
MigratorySafety.v
MigratoryTheorems.v
Propagators.v
PropSpec.v
PropRel.v
PropDistinct.v
PropEnum.v
PropArith.v
PropTimes.v
PropMain.v
PropTheorems.v
Board.v
BoardInv.v
BoardVars.v
BoardRun.v
BoardTheorems.v
ByteData.v
ByteDataOps.v
ByteDataTheorems.v
