(* ===== verification/Prelude.v ===== *)
(** * Mozart/Oz: a verification development

    Mozart is the implementation of the multi-paradigm language Oz: a virtual machine written in
    C++ ([src/platform/emulator]) with constraint solving built in, and a distribution
    subsystem, the DSS ([src/platform/dss/src]).  This library models the parts of it
    that carry its own algorithms and can be read on their own: unification, records and their
    arities, dictionaries, the constraint domains, the propagators that work on them and the computation
    spaces that run the propagators, sorting, bit arrays, bit strings and byte strings with their marshaling,
    base64, and of the distribution subsystem the message buffers, the send queues of a connection, the
    distributed reference counting and the protocol that moves a state between sites.

    ** Parts, and where they are modelled

    - Unification ([unify.cc], [var_base.cc], [var_simple.cc], [var_readonly.cc]).  [Unify] has the
      store of tagged words, binding, casting and waking of variables to needed, and [oz_unify]
      as a loop over the targets of its [goto]s, with its stack and its trails.
      [UnifySpec] has the solutions of a store, equalities of possibly infinite trees;
      [UnifySteps] and [UnifyInv] the effect of a step and the invariants of a run;
      [UnifyTermination] the progress of a run below a rank, [UnifyTyping] well-formed stores;
      [UnifyTheorems] has the properties, and stores on which they are exercised.
    - Features, arities and records ([value.hh], [value.cc]).  [Feature] orders and hashes features,
      [Arity] has the hash table of an arity and the table of all arities, with sorting and merging
      of feature lists; [SRecord] the records and their adjunction.  [ArityLookup] and
      [ArityTables] specify lookup and sharing, [RecordSpec] and [RecordUpdates] records as finite
      maps; [RecordTheorems] has the properties.
    - Dictionaries ([dictionary.hh], [dictionary.cc]).  [Dictionary] has the hash table of nodes and
      blocks with its growing and shrinking, the builtins and the requests of a distributed
      dictionary; [DictionarySpec], [DictionaryTables] and [DictionaryOps] relate it to a
      finite map; [DictionaryTheorems] has the listings, the conversion to records and the properties.
    - Base64 ([base64.cc]): [Base64].
    - Finite domains ([fdomn.cc], [fdomn.hh], [bits.hh]).  [Word32] has the 32-bit words and the
      bit counting table; [FDBase] the bounds and the process-wide configuration ([FDEnv]: the
      mutable globals of [fdomn.cc] that [initFDs] sets, a class whose law [globals_ok] is the
      hypothesis of the theorems); [FDIntervals] and [FDBitVector] the two descriptors, with one
      definition per method; [FiniteDomain] the class [OZ_FiniteDomainImpl]: construction from
      descriptions, the operators, the queries.  [FDIntervalSets], [FDRepr], [FDQueries],
      [FDOperators], [FDSetOperators] and [FDDescr] relate them to the set a domain stands for
      ([repr x P]); [FDTheorems] has the properties.
    - Finite sets ([fset.cc], [fset.hh], the BIGFSET build).  [FSetBits] has the helpers on the words;
      [FSetValue] the class of set values, [FSetConstraint] and [FSetOperators] the class of
      constraints on sets.  Both keep the elements below 64 in two words and fall back to finite
      domains, so they call [FiniteDomain] as the code does.  [FSetValueSpec], [FSetValueOps] and
      [FSetValueQueries] specify values against sets ([good x P]); [FSetNormalize],
      [FSetPropagation], [FSetBuild] and [FSetTests] specify constraints against the sets that solve
      them ([settled c I O], [sol]); the properties are in [FSetValueTheorems] and [FSetTheorems].
    - Constraint propagators ([libfd/rel.cc], [libfd/bool.cc], [libfd/arith.cc] with [std.hh], [fdaux.hh],
      [cpi_fd.cc], [cpi_misc.cc]).  [Propagators] has in its Module [PropBase] the domains of the
      parameters, reading and leaving of parameters and the outcomes; in [RelPropagators], [BoolPropagators]
      and [ArithPropagators] one [propagate_] function per class, in [Propagate] the virtual function.
      They call the operators of [FiniteDomain].  [PropSpec] has the assignments that domains, a
      propagator and an outcome stand for, what it means that a run is [exact] and [refines] its
      domains, and the rules by which [FailOnEmpty], [leave] and [vanish] are exact; [PropRel] (with
      the Boolean propagators), [PropDistinct] (with the offsets), [PropEnum], [PropArith] and
      [PropTimes] treat the propagators, [PropMain] the consistency of the domains they leave
      and all of them together; the properties are in [PropTheorems].
    - Computation spaces ([board.cc], [suspendable.cc], [susplist.cc], [prop_int.hh], [var_fd.cc], [var_bool.cc],
      [cpi_fd.cc], [cpi_expect.cc]).  [Board] has the state of one space: the cells of its variables with
      the lists of suspended propagators, the propagators with their flags, the stack of runnable ones.
      Its Module [Suspension] has waking and the life of a propagator, [FDVar] telling, binding and
      unifying variables, [Scheduler] running, scheduling and imposing propagators, which calls
      [Propagate] and tells what it returns.  The class [LeaveOrder] is the order of evaluation that
      C++ leaves open.  [BoardInv] has the effect of waking, references between variables, the
      solutions and the invariant of a space; [BoardVars] tellings and unifications, [BoardRun] a
      run of a propagator, a round of the scheduler and imposing; [BoardTheorems] programs that
      use a space and the properties.
    - Sorting ([sort.hh]): [Sort], used by [FDDescr] for the intervals of a description.
    - Bit arrays ([bitarray.cc]): [BitArray], the class and the builtins of the language module.
    - Bit strings and byte strings ([bytedata.cc], [bytedata.hh]) and their marshaling ([marshalerBase.hh],
      [marshalerBase.cc], [mbuffer.hh], [byteBuffer.hh]).  [ByteData] has in its Modules [Marshaler] the
      encodings of numbers, strings and floats, [BitStrings] and [ByteStrings] the classes with the
      builtins and pickling, [Transfer] the sender and the receiver of a string in fragments;
      [ByteDataOps] specifies the operations, [ByteDataTheorems] the transfer, with the properties.
    - Message buffers ([msl_buffer.hh], [msl_buffer.cc], [base.hh]): [MslBuffer].
    - The message queues of a connection ([msl_prioQueues.cc], [msl_prioQueues.hh]): [PrioQueues].
      Its lists are threaded through the containers, so the model has a store of containers and
      the operations change it; [PrioQueuesSpec] and [PrioQueuesOps] are the refinement of the linked
      structures to lists, [PrioQueuesTheorems] has the properties.
    - Distributed reference counting ([dgc_fwrc.cc], [dgc_fwrc.hh]): [DgcFwrc] has the weights and
      the operations of home and remote, [DgcFwrcTheorems] the system they form: sites that copy,
      send, merge and drop references, as a step relation.

    - The migratory state protocol ([protocol_migratory.cc], [protocols.cc]): [Migratory] has the
      manager and the proxies of an entity, their handlers, and a system of sites whose connections
      deliver in order and which can crash.  [MigratorySpec] has a lock with a queue and the
      invariant that relates the system to it, [MigratorySteps] and [MigratoryChain] the effect of a
      handler on the invariant, [MigratoryEvents] that of an event and, in its Module [MigratoryLiveness], where
      deliveries come to rest, [MigratorySafety] the
      uniqueness of the token under failures; [MigratoryTheorems] has the properties.

    ** How the code is read

    A method becomes a function from the object to its result and the changed object.  A read
    or write outside an array, the use of an absent pointer and a failed assertion have no
    result ([None]), so that a theorem which gives a result also says that none of these happens.  The macros
    [AssertFD] and [AssertFS] are no assertions in this sense: [fddebug.hh] defines them as nothing, since the
    switches [DEBUG_FD_CONSTRREP] and [DEBUG_FSET_CONSTRREP] are commented out; when the check that [AssertFD] would make of an
    intersection fails is part of [intersection_correct].  A word
    is a [Z] kept in [0 .. 2^32-1] where the code treats it as a bit pattern, and a [Z] with its
    wrap-around written out ([w32]) where it counts; where a range check of the code keeps an
    [int] small the plain [Z] is used, and the theorems say the results are in range.  A result
    object that the code declares without initialising it is an argument of the operation: what it
    holds must not matter, and where it does the theorems show it.  The propagators compute some bounds
    in [double]; these are integers below [2^53] and quotients of them, and the model has the exact
    values.

    Loops over a range are [for_up] and [for_down] of this file.  Loops without an evident bound
    carry fuel and have no result without it; the fuel is computed from the data (the length
    of the array or chain, one more than the depth of a recursion, three rounds of the send queues; for the
    scheduler of a space the sum of the sizes of the domains, times one more than the number of propagators,
    plus the length of the stack)
    and the theorems give a result, which is the proof that it is enough.

    ** What the theorems show

    - Unification: the resulting store and the remaining equations have the solutions in which
      the two terms are equal, and no others ([unify_correct]); failure means that there is none
      ([unify_failure_sound]); stores stay well formed ([unify_well_formed]) and redirected
      cells are restored ([unify_restores]).  It ends where the terms have a solution of finite height
      ([unify_terminates]), but on some cyclic terms it does not ([unify_can_diverge]).
    - Records and arities: lookup by probing finds exactly the features, every arity is kept once,
      lists of features are canonical where their order is one ([arity_lists_canonical]), records behave as
      finite maps under adjunction; [arities_depend_on_order] shows an order of integers that overflows.
    - Dictionaries: every operation refines its counterpart on a finite map, sizes are bounded, the
      listings agree, and the distributed requests answer as the local builtins do but for the board that a
      change is allowed in, the board a clone belongs to and the conditional exchange at a new feature
      ([distributed_requests_agree]).
    - Base64: encoding and decoding are inverse, inside the buffers for the lengths for which that holds.
    - Finite domains: every operator returns a well-formed domain for the set operation it names
      ([intersection_correct], [union_correct], [complement_correct], [difference_correct],
      [bounds_correct], [element_correct]), queries answer for the set, descriptions round-trip, the
      representation is determined by the set up to the cases of [representation_canonical], and
      conversions between descriptors preserve it.  [emptied_domain_revives] is a defect.
    - Finite sets: values implement set algebra; [normalize_complete] says that normalisation
      decides satisfiability and draws every conclusion; [narrowing_exact] and [building_sound]
      that propagation neither loses a solution nor keeps a wrong one; the tests, the views and
      their round trip.  [value_updates_lost] and [empty_results_keep_elements] are defects.
    - Propagators: a run neither loses a solution nor keeps a wrong one, every loop ends, and
      [PROCEED] means that the constraint holds, unless certain of its variables are the same
      ([propagators_exact], which lists them with the other conditions); LessEqOff, TwiceD, SquareD, DivD, PlusD and TimesD
      leave consistent domains when they sleep ([domains_consistent]).  [entailed_wrongly] and [equal_variables_wrong] are
      examples of the cases in which this fails.
    - Computation spaces: the scheduler comes back and neither loses solutions of the space nor adds
      some, it fails only without any ([scheduler_exact]); a program that tells, unifies, imposes and
      schedules in any order ends with the solutions of all it has said ([session_exact]); when its
      scheduler is done, every propagator left sleeps on an undetermined variable and is counted, so a
      space that counts none is solved ([stable_solved]).  They hold of the propagators that stay exact when variables become equal,
      that is of all but those of [equal_variables_wrong] and their relatives: [Times], [TimesD],
      [DivD], [DivI], [TwiceD], [SquareD], [PlusD]; [Minimum] and [Maximum] may add solutions
      ([entailed_wrongly]).  [raise_forgets] is a defect: propagators that are never run again.
    - Sorting: [fastsort] returns an ordered permutation for any strict weak order; the explicit
      stack of [quicksort] never overflows.
    - Bit arrays: set algebra on the bits, errors for indices outside the bounds, lists round-trip.
    - Bit strings and byte strings: the builtins are operations of sets and of lists
      ([bitstrings_refine_sets], [bytestrings_refine_lists]), what is marshaled is read back
      ([pickling_roundtrip]), and sender and receiver of a transfer agree in every buffer
      ([transfer_exact]) but for an assertion that fails for bit strings ([bitstring_transfer_fails]).
    - Buffers: the ring refines a queue of bytes; integers round-trip; frames and reservations stay
      within bounds.
    - Queues: every operation refines its counterpart on seven lists; a waiting message of the
      upper priorities is served within a bounded number of steps, while priority 1 can starve;
      acknowledgements remove what was received, and a stale one removes too much.
    - Reference counting: the weight of all references, of those under way and of the home is
      constant ([weight_conserved]), so the home is a root exactly as long as a reference exists
      ([home_collection_exact]), for divisors of at least 2; with 1 it is not ([alpha_one_breaks]).

    - Migratory state: at most one site has the token whatever fails, and the state is the result of
      all operations in order ([migratory_exclusive]); without failures the protocol refines a fair
      lock ([migratory_fair]), every handler returns ([migratory_handles]) but for an assertion
      that can fail ([home_assertion_fails]), and every request is served: deliveries come to rest after boundedly many,
      in a state in which every suspended operation has been performed once ([migratory_serves]).  After a crash the search for the token can give up a
      token that a live site has ([token_declared_lost]).

    ** Not modelled

    The parser and the scanners are generated.  The emulator loop and the builtins need the
    registers, threads and procedures, the garbage collector raw memory.  Of the marshaler the traversal of terms and code areas and the
    text format are left out.  Of unification the
    constraint, extension and failed variables, those of outer spaces and of other sites, the
    threads that a binding wakes and the equality of extensions and set values are left out.  Of the
    propagators global variables, encapsulated parameters, the power (it computes with [pow]), sums,
    counting, scheduling and the propagators of finite sets are left out, of the computation spaces variables
    of other spaces with the trail, nonmonotonic, inactive and first-class propagators, suspended
    threads, and the queue that replaces the stack when [PROPAGATION_STACK] is not defined.  In the distribution
    subsystem the other collection algorithms, the other protocols, the moving coordinator, the connection
    state machine and the transports are planned; of the migratory protocol temporary and local
    faults, the deletion of proxies and a coordinator that moves are left out; the cipher is third-party code with its tables.  Of the modelled
    classes printing, debugging output, heap copies for the garbage collector and the one-line
    forwards of the [OZ_] classes are left out, and the fall-back without BIGFSET. *)
From Stdlib Require Export ZArith Lia ZifyBool.
From stdpp Require Export base tactics numbers option list_numbers list.

#[global] Open Scope Z_scope.

(** ** Arrays

    A C array of known extent is a list; an access outside the extent has no
    defined result, hence the option type.  [None] therefore stands for an
    undefined behaviour (or a failed [Assert]) throughout the development, and
    a theorem that an operation returns [Some] is a memory-safety statement. *)

Declare Scope carray_scope.
Delimit Scope carray_scope with carray.
#[global] Open Scope carray_scope.

Definition zlen {A} (l : list A) : Z := Z.of_nat (length l).

Definition aget {A} (l : list A) (i : Z) : option A :=
  if 0 <=? i then l !! Z.to_nat i else None.

Definition aset {A} (l : list A) (i : Z) (x : A) : option (list A) :=
  if (0 <=? i) && (i <? zlen l) then Some (<[Z.to_nat i := x]> l) else None.

Notation "a .[ i ]" := (aget a i) (at level 1, i at level 200, left associativity, format "a .[ i ]") : carray_scope.
Notation "a .[ i <- x ]" := (aset a i x) (at level 1, i at level 200, x at level 200, left associativity, format "a .[ i  <-  x ]") : carray_scope.

(** Append to an output array of [cap] slots of which [length l] are filled. *)
Definition apush {A} (cap : Z) (l : list A) (x : A) : option (list A) :=
  if zlen l <? cap then Some (l ++ [x]) else None.

(** ** Loops

    [for_up lo n body s] runs [for (i = lo; i < lo + n; i++) body];
    [for_down n body s] runs [for (i = n; i--; ) body]. *)
Fixpoint for_up {T} (lo : Z) (n : nat) (body : Z -> T -> option T) (s : T) : option T :=
  match n with
  | O => Some s
  | S n' => s' ← body lo s; for_up (lo + 1) n' body s'
  end.

Fixpoint for_down {T} (n : nat) (body : Z -> T -> option T) (s : T) : option T :=
  match n with
  | O => Some s
  | S n' => s' ← body (Z.of_nat n') s; for_down n' body s'
  end.

(** Number of integers [i] with [lo <= i < lo + n] and [P i]. *)
Fixpoint count_range (P : Z -> bool) (lo : Z) (n : nat) : Z :=
  match n with
  | O => 0
  | S n' => Z.b2z (P lo) + count_range P (lo + 1) n'
  end.

(** ** Tactics *)

(** Reflect every boolean comparison of the context and goal into [Prop]. *)
Ltac breflect :=
  repeat match goal with
  | H : andb _ _ = true |- _ => apply andb_true_iff in H; destruct H
  | H : orb _ _ = false |- _ => apply orb_false_iff in H; destruct H
  | H : negb _ = true |- _ => apply negb_true_iff in H
  | H : negb _ = false |- _ => apply negb_false_iff in H
  | H : (_ <=? _) = true |- _ => apply Z.leb_le in H
  | H : (_ <=? _) = false |- _ => apply Z.leb_gt in H
  | H : (_ <? _) = true |- _ => apply Z.ltb_lt in H
  | H : (_ <? _) = false |- _ => apply Z.ltb_ge in H
  | H : (_ =? _) = true |- _ => apply Z.eqb_eq in H
  | H : (_ =? _) = false |- _ => apply Z.eqb_neq in H
  end.

(** Case analysis on the integer comparison that blocks the goal. *)
Ltac zcase_on t :=
  match t with
  | context [Z.leb ?a ?b] => destruct (Z.leb_spec a b)
  | context [Z.ltb ?a ?b] => destruct (Z.ltb_spec a b)
  | context [Z.eqb ?a ?b] => destruct (Z.eqb_spec a b)
  end.
Ltac zcase := match goal with |- ?G => zcase_on G end.
Ltac zcases := repeat (zcase; simpl; try lia).


(** Reduce the binds of the option monad, and nothing else. *)
Ltac ored := cbn [mbind option_bind fmap option_fmap option_map].
Tactic Notation "ored" "in" hyp(H) :=
  cbn [mbind option_bind fmap option_fmap option_map] in H.

(** Split every conditional of the goal, remembering the tests. *)
Ltac ifs :=
  repeat match goal with
  | |- context [if ?b then _ else _] => let E := fresh "E" in destruct b eqn:E
  end.

(** Decide a goal made of integer comparisons. *)
Ltac zbool := repeat (zcase; try lia); simpl; try reflexivity; try lia.

(** ** Arrays: lemmas *)

Section arrays.
Context {A : Type}.
Implicit Types (l k : list A) (x y : A) (i : Z).

Lemma zlen_nonneg l : 0 <= zlen l.
Proof. unfold zlen; lia. Qed.

Lemma zlen_nil : zlen (@nil A) = 0.
Proof. done. Qed.

Lemma zlen_cons x l : zlen (x :: l) = zlen l + 1.
Proof. unfold zlen; simpl; lia. Qed.

Lemma zlen_app l k : zlen (l ++ k) = zlen l + zlen k.
Proof. unfold zlen; rewrite length_app; lia. Qed.

Lemma zlen_snoc l x : zlen (l ++ [x]) = zlen l + 1.
Proof. unfold zlen. rewrite length_app. simpl. lia. Qed.

Lemma aget_nat l (n : nat) : l.[Z.of_nat n] = l !! n.
Proof. unfold aget. destruct (Z.leb_spec 0 (Z.of_nat n)); [|lia]. by rewrite Nat2Z.id. Qed.

Lemma aget_Some l i : 0 <= i < zlen l -> exists x, l.[i] = Some x.
Proof.
  intros H. unfold aget, zlen in *. destruct (Z.leb_spec 0 i); [|lia].
  apply lookup_lt_is_Some_2. lia.
Qed.

Lemma aget_lookup l i x : l.[i] = Some x -> l !! Z.to_nat i = Some x.
Proof. unfold aget. by destruct (0 <=? i). Qed.

Lemma aget_Some_inv l i x : l.[i] = Some x -> 0 <= i < zlen l.
Proof.
  unfold aget, zlen. destruct (Z.leb_spec 0 i); [|done].
  intros ?%lookup_lt_Some. lia.
Qed.

Lemma aget_None l i : i < 0 \/ zlen l <= i -> l.[i] = None.
Proof.
  unfold aget, zlen. destruct (Z.leb_spec 0 i); [|done].
  intros ?. apply lookup_ge_None. lia.
Qed.

Lemma aset_Some l i x :
  0 <= i < zlen l -> l.[i <- x] = Some (<[Z.to_nat i := x]> l).
Proof. intros H. unfold aset. zbool. Qed.

Lemma aget_insert l i j x :
  0 <= i < zlen l ->
  (<[Z.to_nat i := x]> l).[j] = if i =? j then Some x else l.[j].
Proof.
  intros Hi. unfold aget, zlen in *. destruct (Z.leb_spec 0 j).
  - destruct (Z.eqb_spec i j) as [->|Hne].
    + apply list_lookup_insert_eq. lia.
    + apply list_lookup_insert_ne. lia.
  - destruct (Z.eqb_spec i j); [lia|done].
Qed.

Lemma zlen_insert l (n : nat) x : zlen (<[n := x]> l) = zlen l.
Proof. unfold zlen. by rewrite length_insert. Qed.

Lemma aget_ext l k : zlen l = zlen k -> (forall i, 0 <= i < zlen l -> l.[i] = k.[i]) -> l = k.
Proof.
  intros Hlen H. apply list_eq. intros n.
  destruct (decide (n < length l)%nat).
  - specialize (H (Z.of_nat n)). rewrite !aget_nat in H. apply H. unfold zlen; lia.
  - unfold zlen in Hlen. rewrite !(proj2 (lookup_ge_None _ _)); [done|lia..].
Qed.

Lemma aget_cons x l i : 0 < i -> (x :: l).[i] = l.[i - 1].
Proof.
  intros Hi. unfold aget. destruct (Z.leb_spec 0 i), (Z.leb_spec 0 (i - 1)); try lia.
  by replace (Z.to_nat i) with (S (Z.to_nat (i - 1))) by lia.
Qed.

Lemma aget_app_l l k i : i < zlen l -> (l ++ k).[i] = l.[i].
Proof.
  intros H. unfold aget, zlen in *. destruct (Z.leb_spec 0 i); [|done].
  apply lookup_app_l. lia.
Qed.

Lemma aget_app_r l k i : zlen l <= i -> (l ++ k).[i] = k.[i - zlen l].
Proof.
  intros H. unfold aget, zlen in *.
  destruct (Z.leb_spec 0 i), (Z.leb_spec 0 (i - Z.of_nat (length l))); try lia.
  rewrite lookup_app_r by lia. f_equal. lia.
Qed.

Lemma aget_middle l x k : (l ++ x :: k).[zlen l] = Some x.
Proof. rewrite aget_app_r by lia. by rewrite Z.sub_diag. Qed.

Lemma aset_middle l x y k : (l ++ x :: k).[zlen l <- y] = Some (l ++ y :: k).
Proof.
  rewrite aset_Some.
  - unfold zlen. rewrite Nat2Z.id, insert_app_r_alt by lia. by rewrite Nat.sub_diag.
  - rewrite zlen_app, zlen_cons. pose proof (zlen_nonneg l). pose proof (zlen_nonneg k). lia.
Qed.
End arrays.

#[export] Hint Resolve zlen_nonneg : core.

(** ** Array traversals *)

Section traversals.
Context {A : Type}.
Implicit Types (l : list A) (h : Z -> A) (b : Z -> list A -> option (list A)).

(** A loop that overwrites the cells [lo .. lo+n-1] one after the other; the
    value written to cell [i] depends only on what cell [i] held before. *)
Lemma for_up_cells h b lo (n : nat) l :
  0 <= lo -> lo + Z.of_nat n <= zlen l ->
  (forall i a, lo <= i < lo + Z.of_nat n -> zlen a = zlen l -> a.[i] = l.[i] -> b i a = a.[i <- h i]) ->
  exists l', for_up lo n b l = Some l' /\ zlen l' = zlen l /\
    forall j, l'.[j] = if (lo <=? j) && (j <? lo + Z.of_nat n) then Some (h j) else l.[j].
Proof.
  revert lo l. induction n as [|n IH]; intros lo l Hlo Hlen Hb; cbn [for_up].
  - exists l. split_and!; try done. intros j. zbool.
  - rewrite Hb, aset_Some by (done || lia). ored.
    destruct (IH (lo + 1) (<[Z.to_nat lo := h lo]> l)) as (l' & -> & Hl & Hj);
      [lia|rewrite zlen_insert; lia| |].
    + intros i a Hi Ha Hai. rewrite zlen_insert in Ha. apply Hb; [lia|done|].
      rewrite Hai, aget_insert by lia. destruct (Z.eqb_spec lo i); [lia|done].
    + exists l'. rewrite zlen_insert in Hl. split_and!; try done.
      intros j. rewrite Hj, aget_insert by lia. destruct (Z.eqb_spec lo j) as [->|]; zbool.
Qed.

Lemma for_down_cells h b (n : nat) l :
  Z.of_nat n <= zlen l ->
  (forall i a, 0 <= i < Z.of_nat n -> zlen a = zlen l -> a.[i] = l.[i] -> b i a = a.[i <- h i]) ->
  exists l', for_down n b l = Some l' /\ zlen l' = zlen l /\
    forall j, l'.[j] = if (0 <=? j) && (j <? Z.of_nat n) then Some (h j) else l.[j].
Proof.
  revert l. induction n as [|n IH]; intros l Hlen Hb; cbn [for_down].
  - exists l. split_and!; try done. intros j. zbool.
  - rewrite Hb, aset_Some by (done || lia). ored.
    destruct (IH (<[Z.to_nat (Z.of_nat n) := h (Z.of_nat n)]> l)) as (l' & -> & Hl & Hj);
      [rewrite zlen_insert; lia| |].
    + intros i a Hi Ha Hai. rewrite zlen_insert in Ha. apply Hb; [lia|done|].
      rewrite Hai, aget_insert by lia. destruct (Z.eqb_spec (Z.of_nat n) i); [lia|done].
    + exists l'. rewrite zlen_insert in Hl. split_and!; try done.
      intros j. rewrite Hj, aget_insert by lia.
      destruct (Z.eqb_spec (Z.of_nat n) j) as [<-|]; zbool.
Qed.

Lemma Forall_aget (P : A -> Prop) l :
  Forall P l <-> forall i x, l.[i] = Some x -> P x.
Proof.
  rewrite Forall_lookup. split.
  - unfold aget. intros H i x. destruct (0 <=? i); [apply H|done].
  - intros H n x Hx. apply (H (Z.of_nat n)). by rewrite aget_nat.
Qed.

Lemma zlen_take (n : Z) l : 0 <= n <= zlen l -> zlen (take (Z.to_nat n) l) = n.
Proof. unfold zlen. rewrite length_take. lia. Qed.

Lemma take_zlen l : take (Z.to_nat (zlen l)) l = l.
Proof. unfold zlen. rewrite Nat2Z.id. apply firstn_all. Qed.

Lemma aget_take (n : Z) l i : i < n -> (take (Z.to_nat n) l).[i] = l.[i].
Proof.
  intros Hi. unfold aget. destruct (Z.leb_spec 0 i); [|done]. apply lookup_take_lt. lia.
Qed.
End traversals.

(** ** Counting *)

Lemma count_range_ext P Q lo n :
  (forall i, lo <= i < lo + Z.of_nat n -> P i = Q i) ->
  count_range P lo n = count_range Q lo n.
Proof.
  revert lo. induction n as [|n IH]; intros lo H; simpl; [done|].
  rewrite H by lia. f_equal. apply IH. intros; apply H; lia.
Qed.

Lemma count_range_bounds P lo n : 0 <= count_range P lo n <= Z.of_nat n.
Proof.
  revert lo. induction n as [|n IH]; intros lo; simpl; [lia|].
  specialize (IH (lo + 1)). destruct (P lo); simpl; lia.
Qed.

Lemma count_range_app P lo n m :
  count_range P lo (n + m) = count_range P lo n + count_range P (lo + Z.of_nat n) m.
Proof.
  revert lo. induction n as [|n IH]; intros lo; cbn [count_range Nat.add].
  - rewrite Z.add_0_r. lia.
  - rewrite IH. replace (lo + 1 + Z.of_nat n) with (lo + Z.of_nat (S n)) by lia. lia.
Qed.

Lemma count_range_none P lo n :
  (forall i, lo <= i < lo + Z.of_nat n -> P i = false) -> count_range P lo n = 0.
Proof.
  revert lo. induction n as [|n IH]; intros lo H; simpl; [done|].
  rewrite H by lia. rewrite IH; [done|]. intros; apply H; lia.
Qed.

Lemma count_range_all P lo n :
  (forall i, lo <= i < lo + Z.of_nat n -> P i = true) -> count_range P lo n = Z.of_nat n.
Proof.
  revert lo. induction n as [|n IH]; intros lo H; simpl; [done|].
  rewrite H by lia. rewrite IH; [simpl; lia|]. intros; apply H; lia.
Qed.

Lemma count_range_zero_inv P lo n i :
  count_range P lo n = 0 -> lo <= i < lo + Z.of_nat n -> P i = false.
Proof.
  revert lo. induction n as [|n IH]; intros lo; simpl; [lia|].
  pose proof (count_range_bounds P (lo + 1) n). intros Hc Hi.
  destruct (P lo) eqn:HP; simpl in Hc; [lia|].
  destruct (Z.eq_dec i lo) as [->|]; [done|]. apply (IH (lo + 1)); lia.
Qed.

Lemma count_range_full_inv P lo n i :
  count_range P lo n = Z.of_nat n -> lo <= i < lo + Z.of_nat n -> P i = true.
Proof.
  revert lo. induction n as [|n IH]; intros lo; cbn [count_range]; [lia|].
  pose proof (count_range_bounds P (lo + 1) n). intros Hc Hi.
  destruct (P lo) eqn:HP; simpl Z.b2z in Hc; [|lia].
  destruct (Z.eq_dec i lo) as [->|]; [done|]. apply (IH (lo + 1)); lia.
Qed.

Lemma count_range_shift P lo k n :
  count_range P (lo + k) n = count_range (fun i => P (i + k)) lo n.
Proof.
  revert lo. induction n as [|n IH]; intros lo; simpl; [done|].
  rewrite <- IH. do 2 f_equal. lia.
Qed.

(** Only the elements of [a .. b] count when [P] holds nowhere else. *)
Lemma count_range_restrict P lo n a b :
  lo <= a -> a <= b + 1 -> b < lo + Z.of_nat n ->
  (forall i, lo <= i < lo + Z.of_nat n -> P i = true -> a <= i <= b) ->
  count_range P lo n = count_range P a (Z.to_nat (b - a + 1)).
Proof.
  intros Ha Hab Hb HP.
  replace n with (Z.to_nat (a - lo) + (Z.to_nat (b - a + 1) +
    Z.to_nat (lo + Z.of_nat n - (b + 1))))%nat by lia.
  rewrite !count_range_app.
  rewrite (count_range_none P lo), (count_range_none P (lo + _ + _)).
  - rewrite Z2Nat.id by lia. replace (lo + (a - lo)) with a by lia. lia.
  - intros i Hi. destruct (P i) eqn:E; [apply HP in E|]; lia.
  - intros i Hi. destruct (P i) eqn:E; [apply HP in E|]; lia.
Qed.

(** Adding one point to, or removing one point from, the counted set. *)
Lemma count_range_point P Q lo n x :
  lo <= x < lo + Z.of_nat n ->
  (forall i, i <> x -> P i = Q i) ->
  count_range P lo n - Z.b2z (P x) = count_range Q lo n - Z.b2z (Q x).
Proof.
  intros Hx HPQ.
  replace n with (Z.to_nat (x - lo) + (1 + Z.to_nat (lo + Z.of_nat n - (x + 1))))%nat by lia.
  rewrite !count_range_app. rewrite Z2Nat.id by lia.
  replace (lo + (x - lo)) with x by lia. simpl count_range at 2 5.
  rewrite (count_range_ext P Q lo), (count_range_ext P Q (x + Z.of_nat 1));
    [lia|intros; apply HPQ; lia..].
Qed.

(** ** Running a loop body as a fold *)

Lemma for_up_inv {T} (I : Z -> T -> Prop) lo n body s :
  I lo s ->
  (forall i s, lo <= i < lo + Z.of_nat n -> I i s -> exists s', body i s = Some s' /\ I (i + 1) s') ->
  exists s', for_up lo n body s = Some s' /\ I (lo + Z.of_nat n) s'.
Proof.
  revert lo s. induction n as [|n IH]; intros lo s HI Hb; simpl.
  - exists s. split; [done|]. by rewrite Z.add_0_r.
  - destruct (Hb lo s) as (s1 & -> & HI1); [lia|done|]. simpl.
    destruct (IH (lo + 1) s1) as (s' & ? & ?); [done| |].
    + intros i s2 ? ?. apply Hb; [lia|done].
    + exists s'. split; [done|]. by replace (lo + Z.of_nat (S n)) with (lo + 1 + Z.of_nat n) by lia.
Qed.

(** ** Bounded search *)

Lemma first_true (P : Z -> bool) lo (n : nat) :
  (forall i, lo <= i < lo + Z.of_nat n -> P i = false) \/
  exists k, lo <= k < lo + Z.of_nat n /\ P k = true /\ forall j, lo <= j < k -> P j = false.
Proof.
  revert lo. induction n as [|n IH]; intros lo; [left; lia|].
  destruct (P lo) eqn:E; [right; exists lo; split_and!; [lia|lia|done|lia]|].
  destruct (IH (lo + 1)) as [H|(k & Hk & HP & H)]; [left|right; exists k; split_and!; [lia|lia|done|]];
    intros j Hj; (destruct (Z.eq_dec j lo) as [->|]; [done|apply H; lia]).
Qed.

Lemma last_true (P : Z -> bool) lo (n : nat) :
  (forall i, lo <= i < lo + Z.of_nat n -> P i = false) \/
  exists k, lo <= k < lo + Z.of_nat n /\ P k = true /\
    forall j, k < j < lo + Z.of_nat n -> P j = false.
Proof.
  induction n as [|n IH]; [left; lia|].
  destruct (P (lo + Z.of_nat n)) eqn:E.
  { right. exists (lo + Z.of_nat n). split_and!; [lia|lia|done|lia]. }
  destruct IH as [H|(k & Hk & HP & H)]; [left|right; exists k; split_and!; [lia|lia|done|]];
    intros j Hj; (destruct (Z.eq_dec j (lo + Z.of_nat n)) as [->|]; [done|apply H; lia]).
Qed.
