(* ===== verification/Word32.v ===== *)
(** * 32-bit machine words and bit counting

    The words of the bit vectors of [fdomn.cc] and [bitarray.cc], and the
    population count of [bits.hh].  A C [int] that serves as a bit pattern is
    kept as its unsigned value in [0 .. 2^32-1]; [s32] is the signed reading,
    which only the arithmetic right shift needs. *)
From S2P Require Import Prelude.

(** ** Words *)

Definition is_word (w : Z) : Prop := 0 <= w < 2 ^ 32.

(** Truncation to 32 bits. *)
Definition w32 (x : Z) : Z := x mod 2 ^ 32.

(** The signed value of a pattern. *)
Definition s32 (w : Z) : Z := if w <? 2 ^ 31 then w else w - 2 ^ 32.

(** C's [<<], [>>] (arithmetic, on [int]) and [~]. *)
Definition shl32 (w k : Z) : Z := w32 (Z.shiftl w k).
Definition asr32 (w k : Z) : Z := w32 (Z.shiftr (s32 w) k).
Definition not32 (w : Z) : Z := w32 (Z.lnot w).

(** [div32], [mod32] and [word32] of [fdomn.hh]. *)
Definition div32 (n : Z) : Z := Z.shiftr n 5.
Definition mod32 (n : Z) : Z := Z.land n 0x1f.
Definition word32 (n : Z) : Z :=
  let n := n + 1 in
  if mod32 n =? 0 then div32 n else div32 n + 1.

(** [_word32] of [fdomn.cc]: the same without the increment. *)
Definition word32' (n : Z) : Z :=
  if mod32 n =? 0 then div32 n else div32 n + 1.

(** ** Tables *)

Definition toTheLowerEnd : list Z :=
  [
   0x00000001; 0x00000003; 0x00000007; 0x0000000f;
   0x0000001f; 0x0000003f; 0x0000007f; 0x000000ff;
   0x000001ff; 0x000003ff; 0x000007ff; 0x00000fff;
   0x00001fff; 0x00003fff; 0x00007fff; 0x0000ffff;
   0x0001ffff; 0x0003ffff; 0x0007ffff; 0x000fffff;
   0x001fffff; 0x003fffff; 0x007fffff; 0x00ffffff;
   0x01ffffff; 0x03ffffff; 0x07ffffff; 0x0fffffff;
   0x1fffffff; 0x3fffffff; 0x7fffffff; 0xffffffff
  ].

Definition toTheUpperEnd : list Z :=
  [
   0xffffffff; 0xfffffffe; 0xfffffffc; 0xfffffff8;
   0xfffffff0; 0xffffffe0; 0xffffffc0; 0xffffff80;
   0xffffff00; 0xfffffe00; 0xfffffc00; 0xfffff800;
   0xfffff000; 0xffffe000; 0xffffc000; 0xffff8000;
   0xffff0000; 0xfffe0000; 0xfffc0000; 0xfff80000;
   0xfff00000; 0xffe00000; 0xffc00000; 0xff800000;
   0xff000000; 0xfe000000; 0xfc000000; 0xf8000000;
   0xf0000000; 0xe0000000; 0xc0000000; 0x80000000
  ].

Definition bits_in_byte : list Z :=
  [
   0; 1; 1; 2; 1; 2; 2; 3; 1; 2; 2; 3; 2; 3; 3; 4;
   1; 2; 2; 3; 2; 3; 3; 4; 2; 3; 3; 4; 3; 4; 4; 5;
   1; 2; 2; 3; 2; 3; 3; 4; 2; 3; 3; 4; 3; 4; 4; 5;
   2; 3; 3; 4; 3; 4; 4; 5; 3; 4; 4; 5; 4; 5; 5; 6;
   1; 2; 2; 3; 2; 3; 3; 4; 2; 3; 3; 4; 3; 4; 4; 5;
   2; 3; 3; 4; 3; 4; 4; 5; 3; 4; 4; 5; 4; 5; 5; 6;
   2; 3; 3; 4; 3; 4; 4; 5; 3; 4; 4; 5; 4; 5; 5; 6;
   3; 4; 4; 5; 4; 5; 5; 6; 4; 5; 5; 6; 5; 6; 6; 7;
   1; 2; 2; 3; 2; 3; 3; 4; 2; 3; 3; 4; 3; 4; 4; 5;
   2; 3; 3; 4; 3; 4; 4; 5; 3; 4; 4; 5; 4; 5; 5; 6;
   2; 3; 3; 4; 3; 4; 4; 5; 3; 4; 4; 5; 4; 5; 5; 6;
   3; 4; 4; 5; 4; 5; 5; 6; 4; 5; 5; 6; 5; 6; 6; 7;
   2; 3; 3; 4; 3; 4; 4; 5; 3; 4; 4; 5; 4; 5; 5; 6;
   3; 4; 4; 5; 4; 5; 5; 6; 4; 5; 5; 6; 5; 6; 6; 7;
   3; 4; 4; 5; 4; 5; 5; 6; 4; 5; 5; 6; 5; 6; 6; 7;
   4; 5; 5; 6; 5; 6; 6; 7; 5; 6; 6; 7; 6; 7; 7; 8
  ].

(** [get_num_of_bits] of [bits.hh]. *)
Definition get_num_of_bits (m : Z) (ia : list Z) : option Z :=
  for_down (Z.to_nat m) (fun i s =>
    iai ← ia.[i];
    b3 ← bits_in_byte.[Z.shiftr iai 24];
    b2 ← bits_in_byte.[Z.shiftr (Z.land iai 0x00ff0000) 16];
    b1 ← bits_in_byte.[Z.shiftr (Z.land iai 0x0000ff00) 8];
    b0 ← bits_in_byte.[Z.land iai 0x000000ff];
    Some (s + (b3 + b2 + b1 + b0))) 0.

(** The set of integers a word array stands for: bit [v mod 32] of word [v / 32]. *)
Definition words_mem (ws : list Z) (v : Z) : bool :=
  match ws.[div32 v] with
  | Some w => Z.testbit w (mod32 v)
  | None => false
  end.

(** The word at an index, [0] outside the array. *)
Definition word_at (ws : list Z) (i : Z) : Z := default 0 (ws.[i]).

(** ** Lemmas on words *)

Lemma div32_div n : div32 n = n / 32.
Proof. unfold div32. by rewrite Z.shiftr_div_pow2. Qed.

Lemma mod32_mod n : mod32 n = n mod 32.
Proof. unfold mod32. change 0x1f with (Z.ones 5). by rewrite Z.land_ones. Qed.

Lemma div32_mod32 n : n = 32 * div32 n + mod32 n /\ 0 <= mod32 n < 32.
Proof. rewrite div32_div, mod32_mod. Z.div_mod_to_equations. lia. Qed.

(** Introduce the defining equation of every quotient and remainder by 32. *)
Ltac dm32 :=
  repeat match goal with
  | |- context [div32 ?n] => lazymatch goal with
      | _ : n = 32 * div32 n + _ /\ _ |- _ => fail | _ => pose proof (div32_mod32 n) end
  | |- context [mod32 ?n] => lazymatch goal with
      | _ : n = 32 * div32 n + _ /\ _ |- _ => fail | _ => pose proof (div32_mod32 n) end
  | _ : context [div32 ?n] |- _ => lazymatch goal with
      | _ : n = 32 * div32 n + _ /\ _ |- _ => fail | _ => pose proof (div32_mod32 n) end
  | _ : context [mod32 ?n] |- _ => lazymatch goal with
      | _ : n = 32 * div32 n + _ /\ _ |- _ => fail | _ => pose proof (div32_mod32 n) end
  end.

Lemma div32_word w i : 0 <= i < 32 -> div32 (32 * w + i) = w /\ mod32 (32 * w + i) = i.
Proof. intros. pose proof (div32_mod32 (32 * w + i)). lia. Qed.

(** [word32 n] is the least number of words that hold the bits [0 .. n]. *)
Lemma word32_spec n : -1 <= n -> 32 * (word32 n - 1) <= n < 32 * word32 n /\ word32 n = div32 n + 1.
Proof.
  intros Hn. unfold word32. pose proof (div32_mod32 n). pose proof (div32_mod32 (n + 1)).
  destruct (Z.eqb_spec (mod32 (n + 1)) 0); lia.
Qed.

Lemma word32'_spec n : 0 <= n -> 32 * (word32' n - 1) < n <= 32 * word32' n.
Proof.
  intros Hn. unfold word32'. pose proof (div32_mod32 n).
  destruct (Z.eqb_spec (mod32 n) 0); lia.
Qed.

Lemma is_word_w32 x : is_word (w32 x).
Proof. unfold is_word, w32. apply Z.mod_pos_bound. lia. Qed.

Lemma testbit_w32 x j : 0 <= j < 32 -> Z.testbit (w32 x) j = Z.testbit x j.
Proof. intros. unfold w32. apply Z.mod_pow2_bits_low. lia. Qed.

Lemma testbit_word_high w j : is_word w -> 32 <= j -> Z.testbit w j = false.
Proof.
  intros Hw Hj. unfold is_word in Hw. rewrite <- (Z.mod_small w (2 ^ 32)) by lia.
  apply Z.mod_pow2_bits_high. lia.
Qed.

Lemma word_ext w w' :
  is_word w -> is_word w' ->
  (forall j, 0 <= j < 32 -> Z.testbit w j = Z.testbit w' j) -> w = w'.
Proof.
  intros Hw Hw' H. apply Z.bits_inj'. intros j Hj.
  destruct (Z.lt_ge_cases j 32); [by apply H|].
  by rewrite !testbit_word_high.
Qed.

Lemma word_bound_bits w :
  0 <= w -> (forall j, 32 <= j -> Z.testbit w j = false) -> is_word w.
Proof.
  intros Hw H. replace w with (w32 w); [apply is_word_w32|].
  apply Z.bits_inj'. intros j Hj. unfold w32.
  destruct (Z.lt_ge_cases j 32); [by apply Z.mod_pow2_bits_low|].
  rewrite H by lia. apply Z.mod_pow2_bits_high. lia.
Qed.

Lemma is_word_land w x : is_word w -> is_word (Z.land w x).
Proof.
  intros Hw. apply word_bound_bits.
  - apply Z.land_nonneg. unfold is_word in Hw. lia.
  - intros j Hj. by rewrite Z.land_spec, testbit_word_high.
Qed.

Lemma is_word_lor w x : is_word w -> is_word x -> is_word (Z.lor w x).
Proof.
  intros Hw Hx. apply word_bound_bits.
  - apply Z.lor_nonneg. unfold is_word in *. lia.
  - intros j Hj. by rewrite Z.lor_spec, !testbit_word_high.
Qed.

Lemma testbit_s32 w j : is_word w -> 0 <= j -> Z.testbit (s32 w) j = Z.testbit w (Z.min j 31).
Proof.
  unfold is_word, s32. intros Hw Hj. destruct (Z.ltb_spec w (2 ^ 31)).
  - destruct (Z.lt_ge_cases j 31); [f_equal; lia|].
    rewrite Z.min_r by lia. rewrite <- (Z.mod_small w (2 ^ 31)) by lia.
    by rewrite !Z.mod_pow2_bits_high by lia.
  - replace (w - 2 ^ 32) with (Z.lnot (2 ^ 32 - 1 - w)) by (unfold Z.lnot; lia).
    rewrite Z.lnot_spec by lia.
    destruct (Z.lt_ge_cases j 31).
    + rewrite Z.min_l by lia.
      replace (2 ^ 32 - 1 - w) with (w32 (Z.lnot w)).
      * rewrite testbit_w32 by lia. rewrite Z.lnot_spec by lia. apply negb_involutive.
      * unfold w32. symmetry. apply (Z.mod_unique_pos _ _ (-1)); unfold Z.lnot; lia.
    + rewrite Z.min_r by lia.
      rewrite <- (Z.mod_small (2 ^ 32 - 1 - w) (2 ^ 31)) by lia.
      rewrite Z.mod_pow2_bits_high by lia. simpl negb. symmetry.
      apply Z.testbit_true; [lia|]. replace (w / 2 ^ 31) with 1; [done|].
      apply (Z.div_unique_pos _ _ _ (w - 2 ^ 31)); lia.
Qed.

Lemma testbit_shl32 w k j :
  0 <= k -> 0 <= j < 32 -> Z.testbit (shl32 w k) j = (k <=? j) && Z.testbit w (j - k).
Proof.
  intros Hk Hj. unfold shl32. rewrite testbit_w32 by lia. rewrite Z.shiftl_spec by lia.
  destruct (Z.leb_spec k j); simpl; [done|]. apply Z.testbit_neg_r. lia.
Qed.

Lemma testbit_asr32 w k j :
  is_word w -> 0 <= k -> 0 <= j < 32 -> Z.testbit (asr32 w k) j = Z.testbit w (Z.min (j + k) 31).
Proof.
  intros Hw Hk Hj. unfold asr32. rewrite testbit_w32 by lia. rewrite Z.shiftr_spec by lia.
  apply testbit_s32; [done|lia].
Qed.

Lemma testbit_not32 w j : 0 <= j < 32 -> Z.testbit (not32 w) j = negb (Z.testbit w j).
Proof. intros Hj. unfold not32. rewrite testbit_w32 by lia. apply Z.lnot_spec. lia. Qed.

(** The single-bit mask [1 << k]. *)
Lemma testbit_mask k j : 0 <= k < 32 -> 0 <= j < 32 -> Z.testbit (shl32 1 k) j = (j =? k).
Proof.
  intros Hk Hj. rewrite testbit_shl32 by lia.
  destruct (Z.leb_spec k j); simpl.
  - destruct (Z.eqb_spec j k) as [->|]; [by rewrite Z.sub_diag|].
    replace (j - k) with (Z.succ (j - k - 1)) by lia.
    change 1 with (2 * 0 + 1). rewrite Z.testbit_odd_succ by lia. apply Z.bits_0.
  - symmetry. apply Z.eqb_neq. lia.
Qed.

Lemma word_eq0 w : is_word w -> w = 0 <-> (forall j, 0 <= j < 32 -> Z.testbit w j = false).
Proof.
  intros Hw. split.
  - intros -> j _. apply Z.bits_0.
  - intros H. apply word_ext; [done|unfold is_word; lia|]. intros j Hj. by rewrite H, Z.bits_0.
Qed.

(** Testing a single bit: [w & (1 << k)]. *)
Lemma land_mask_eq0 w k : is_word w -> 0 <= k < 32 -> (Z.land w (shl32 1 k) =? 0) = negb (Z.testbit w k).
Proof.
  intros Hw Hk. destruct (Z.testbit w k) eqn:E; simpl.
  - apply Z.eqb_neq. intros H0.
    assert (Z.testbit (Z.land w (shl32 1 k)) k = false) as H1 by (rewrite H0; apply Z.bits_0).
    rewrite Z.land_spec, E, testbit_mask, Z.eqb_refl in H1 by lia. done.
  - apply Z.eqb_eq. apply word_eq0; [by apply is_word_land|]. intros j Hj.
    rewrite Z.land_spec, testbit_mask by lia.
    destruct (Z.eqb_spec j k) as [->|]; [by rewrite E|apply andb_false_r].
Qed.

#[export] Hint Resolve is_word_w32 is_word_land is_word_lor : core.
Lemma is_word_shl32 w k : is_word (shl32 w k). Proof. apply is_word_w32. Qed.
Lemma is_word_asr32 w k : is_word (asr32 w k). Proof. apply is_word_w32. Qed.
Lemma is_word_not32 w : is_word (not32 w). Proof. apply is_word_w32. Qed.
Lemma is_word_0 : is_word 0. Proof. unfold is_word. lia. Qed.
#[export] Hint Resolve is_word_shl32 is_word_asr32 is_word_not32 is_word_0 : core.

(** ** The tables *)

Lemma toTheLowerEnd_spec k :
  0 <= k < 32 ->
  exists w, toTheLowerEnd.[k] = Some w /\ is_word w /\
    forall j, 0 <= j < 32 -> Z.testbit w j = (j <=? k).
Proof.
  intros Hk. exists (Z.ones (k + 1)).
  assert (toTheLowerEnd = (fun k => Z.ones (k + 1)) <$> seqZ 0 32) as -> by reflexivity.
  split_and!.
  - unfold aget. rewrite (proj2 (Z.leb_le 0 k)) by lia.
    rewrite list_lookup_fmap, (proj2 (lookup_seqZ 0 32 _ k)); [done|lia].
  - unfold is_word. rewrite Z.ones_equiv.
    pose proof (Z.pow_pos_nonneg 2 (k + 1)). pose proof (Z.pow_le_mono_r 2 (k + 1) 32). lia.
  - intros j Hj. rewrite Z.testbit_ones by lia. zbool.
Qed.

Lemma toTheUpperEnd_spec k :
  0 <= k < 32 ->
  exists w, toTheUpperEnd.[k] = Some w /\ is_word w /\
    forall j, 0 <= j < 32 -> Z.testbit w j = (k <=? j).
Proof.
  intros Hk. exists (Z.ldiff (Z.ones 32) (Z.ones k)).
  assert (toTheUpperEnd = (fun k => Z.ldiff (Z.ones 32) (Z.ones k)) <$> seqZ 0 32) as -> by reflexivity.
  split_and!.
  - unfold aget. rewrite (proj2 (Z.leb_le 0 k)) by lia.
    rewrite list_lookup_fmap, (proj2 (lookup_seqZ 0 32 _ k)); [done|lia].
  - rewrite Z.ldiff_land. apply is_word_land. done.
  - intros j Hj. rewrite Z.ldiff_spec, !Z.testbit_ones by lia. zbool.
Qed.

Lemma bits_in_byte_spec b :
  0 <= b < 256 -> bits_in_byte.[b] = Some (count_range (Z.testbit b) 0 8).
Proof.
  intros Hb.
  assert (bits_in_byte = (fun b => count_range (Z.testbit b) 0 8) <$> seqZ 0 256) as ->
    by (vm_compute; reflexivity).
  unfold aget. rewrite (proj2 (Z.leb_le 0 b)) by lia.
  rewrite list_lookup_fmap, (proj2 (lookup_seqZ 0 256 _ b)); [done|lia].
Qed.

(** ** Population count *)

(** One byte of a word, as the code extracts it. *)
Lemma byte_of_word w m k :
  is_word w -> 0 <= k -> k + 8 <= 32 -> m = Z.shiftl 0xff k ->
  0 <= Z.shiftr (Z.land w m) k < 256 /\
  count_range (Z.testbit (Z.shiftr (Z.land w m) k)) 0 8 = count_range (Z.testbit w) k 8.
Proof.
  intros Hw Hk Hk8 ->.
  assert (Z.shiftr (Z.land w (Z.shiftl 0xff k)) k = Z.land (Z.shiftr w k) (Z.ones 8)) as ->.
  { rewrite Z.shiftr_land, Z.shiftr_shiftl_l by lia. by rewrite Z.sub_diag, Z.shiftl_0_r. }
  split.
  - rewrite Z.land_ones by lia. apply Z.mod_pos_bound. lia.
  - replace k with (0 + k) at 2 by lia. rewrite count_range_shift.
    apply count_range_ext. intros i Hi.
    rewrite Z.land_spec, Z.testbit_ones, Z.shiftr_spec by lia.
    rewrite (proj2 (Z.leb_le 0 i)), (proj2 (Z.ltb_lt i 8)) by lia. by rewrite andb_true_r.
Qed.

Lemma top_byte w : is_word w -> Z.shiftr w 24 = Z.shiftr (Z.land w 0xff000000) 24.
Proof.
  intros Hw. apply Z.bits_inj'. intros j Hj.
  rewrite !Z.shiftr_spec, Z.land_spec by lia.
  destruct (Z.lt_ge_cases (j + 24) 32).
  - change 0xff000000 with (Z.shiftl (Z.ones 8) 24).
    rewrite Z.shiftl_spec, Z.testbit_ones by lia. lia.
  - by rewrite testbit_word_high.
Qed.

Lemma popcount_bytes w :
  is_word w ->
  exists b3 b2 b1 b0,
    bits_in_byte.[Z.shiftr w 24] = Some b3 /\
    bits_in_byte.[Z.shiftr (Z.land w 0x00ff0000) 16] = Some b2 /\
    bits_in_byte.[Z.shiftr (Z.land w 0x0000ff00) 8] = Some b1 /\
    bits_in_byte.[Z.land w 0x000000ff] = Some b0 /\
    b3 + b2 + b1 + b0 = count_range (Z.testbit w) 0 32.
Proof.
  intros Hw. rewrite (top_byte w Hw).
  replace (Z.land w 0xff) with (Z.shiftr (Z.land w 0xff) 0) by apply Z.shiftr_0_r.
  destruct (byte_of_word w 0xff000000 24) as [L3 H3]; [done|lia|lia|done|].
  destruct (byte_of_word w 0x00ff0000 16) as [L2 H2]; [done|lia|lia|done|].
  destruct (byte_of_word w 0x0000ff00 8) as [L1 H1]; [done|lia|lia|done|].
  destruct (byte_of_word w 0x000000ff 0) as [L0 H0]; [done|lia|lia|done|].
  do 4 eexists. rewrite !bits_in_byte_spec by done. split_and!; try done.
  rewrite H3, H2, H1, H0. change 32%nat with (8 + (8 + (8 + 8)))%nat.
  rewrite !count_range_app. change (0 + Z.of_nat 8) with 8.
  change (8 + Z.of_nat 8) with 16. change (16 + Z.of_nat 8) with 24. lia.
Qed.

Lemma words_mem_word ws w i : 0 <= i < 32 ->
  words_mem ws (32 * w + i) = match ws.[w] with Some x => Z.testbit x i | None => false end.
Proof. intros Hi. unfold words_mem. by destruct (div32_word w i) as [-> ->]. Qed.

Lemma words_mem_out ws v : v < 0 \/ 32 * zlen ws <= v -> words_mem ws v = false.
Proof.
  intros Hv. unfold words_mem. pose proof (div32_mod32 v). rewrite aget_None; [done|]. lia.
Qed.

(** Two arrays of words that agree bit by bit. *)
Lemma words_mem_bits ws w x j :
  Forall is_word ws -> ws.[w] = Some x -> 0 <= j < 32 -> Z.testbit x j = words_mem ws (32 * w + j).
Proof. intros _ Hx Hj. by rewrite words_mem_word, Hx by lia. Qed.

Lemma aget_Forall {A} (P : A -> Prop) (l : list A) i x : Forall P l -> l.[i] = Some x -> P x.
Proof. rewrite Forall_aget. eauto. Qed.

Lemma words_mem_at ws v : words_mem ws v = Z.testbit (word_at ws (div32 v)) (mod32 v).
Proof. unfold words_mem, word_at. destruct (ws.[div32 v]); simpl; [done|]. by rewrite Z.bits_0. Qed.

Lemma aget_word_at ws i : 0 <= i < zlen ws -> ws.[i] = Some (word_at ws i).
Proof. intros Hi. unfold word_at. by destruct (aget_Some ws i Hi) as [x ->]. Qed.

Lemma word_at_out ws i : i < 0 \/ zlen ws <= i -> word_at ws i = 0.
Proof. intros Hi. unfold word_at. by rewrite aget_None. Qed.

Lemma is_word_at ws i : Forall is_word ws -> is_word (word_at ws i).
Proof.
  intros Hw. unfold word_at. destruct (ws.[i]) eqn:E; simpl; [by eapply aget_Forall|].
  unfold is_word. lia.
Qed.
#[export] Hint Resolve is_word_at : core.

Lemma words_ext ws ws' :
  zlen ws = zlen ws' -> (forall i, 0 <= i < zlen ws -> word_at ws i = word_at ws' i) -> ws = ws'.
Proof.
  intros Hl H. apply aget_ext; [done|]. intros i Hi. rewrite !aget_word_at by lia. by rewrite H.
Qed.

Lemma word_at_aget ws i x : ws.[i] = Some x -> word_at ws i = x.
Proof. unfold word_at. by intros ->. Qed.

(** [get_num_of_bits] counts the members of the first [m] words. *)
Lemma get_num_of_bits_spec m ia :
  Forall is_word ia -> 0 <= m <= zlen ia ->
  get_num_of_bits m ia = Some (count_range (words_mem ia) 0 (Z.to_nat (32 * m))).
Proof.
  intros Hw Hm. unfold get_num_of_bits.
  enough (forall n s, Z.of_nat n <= zlen ia ->
    for_down n (fun i s =>
      iai ← ia.[i];
      b3 ← bits_in_byte.[Z.shiftr iai 24];
      b2 ← bits_in_byte.[Z.shiftr (Z.land iai 0x00ff0000) 16];
      b1 ← bits_in_byte.[Z.shiftr (Z.land iai 0x0000ff00) 8];
      b0 ← bits_in_byte.[Z.land iai 0x000000ff];
      Some (s + (b3 + b2 + b1 + b0))) s
    = Some (s + count_range (words_mem ia) 0 (32 * n))) as H.
  { rewrite H, Z.add_0_l by lia. do 2 f_equal. lia. }
  induction n as [|n IH]; intros s Hn; cbn [for_down].
  - by rewrite Z.add_0_r.
  - destruct (aget_Some ia (Z.of_nat n)) as [w Hx]; [lia|].
    pose proof (aget_Forall _ _ _ _ Hw Hx) as Hword.
    destruct (popcount_bytes w Hword) as (b3 & b2 & b1 & b0 & E3 & E2 & E1 & E0 & Hsum).
    rewrite Hx. ored. rewrite E3. ored. rewrite E2. ored. rewrite E1. ored. rewrite E0. ored.
    rewrite IH by lia. f_equal. rewrite Hsum.
    replace (32 * S n)%nat with (32 * n + 32)%nat by lia. rewrite count_range_app.
    rewrite (count_range_shift _ 0), <- Z.add_assoc. f_equal.
    rewrite Z.add_comm. f_equal. apply count_range_ext. intros j Hj.
    replace (j + Z.of_nat (32 * n)) with (32 * Z.of_nat n + j) by lia.
    rewrite words_mem_word, Hx by lia. done.
Qed.
