(* ===== verification/FDBase.v ===== *)
(** * Finite domains: bounds, configuration, descriptions

    The constants of [fdomn.hh], the process-wide configuration set by
    [initFDs]/[reInitFDs], and the fragment of Oz terms that describes finite
    domains. *)
From S2P Require Import Prelude Word32.

Definition fd_inf : Z := 0.
Definition fd_sup : Z := 134217727 - 1.
Definition fd_full_size : Z := fd_sup + 1.

(** [i_arr_type] of [fdomn.hh]. *)
Record i_arr_type := Iv { iv_left : Z; iv_right : Z }.

#[export] Instance i_arr_type_eq_dec : EqDecision i_arr_type.
Proof. solve_decision. Defined.

(** The global variables of [fdomn.cc]: the largest number of words of a bit
    vector, its largest element, and the size of the two conversion arrays
    [fd_bv_left_conv] and [fd_bv_right_conv]. *)
Record fd_globals := FDGlobals {
  fd_bv_max_high : Z;
  fd_bv_max_elem : Z;
  fd_bv_conv_max_high : Z
}.

Definition initFDs : fd_globals :=
  let max_high := 32 in
  let max_elem := 32 * max_high - 1 in
  FDGlobals max_high max_elem (max_elem ÷ 2 + 2).

Definition reInitFDs (g : fd_globals) (threshold : Z) : fd_globals :=
  let threshold := word32' threshold in
  if (0 <=? threshold) && negb (threshold =? fd_bv_max_high g) then
    let max_elem := 32 * threshold - 1 in
    FDGlobals threshold max_elem (max_elem ÷ 2 + 2)
  else g.

(** The environment of the operations: the globals, and the contents of memory
    that has been allocated but not written yet. *)
Class FDEnv := {
  fd_env : fd_globals;
  fresh_interval : Z -> i_arr_type;
  fresh_word : Z -> Z
}.

(** Oz terms, as far as finite domain descriptions go.  The code never looks
    at the label of a tuple, and of a tuple of two or more arguments it reads the
    first two; [TOther] is any other determined term. *)
Inductive OZ_Term :=
  | TInt (n : Z)
  | TSup
  | TBool
  | TNil
  | TTuple1 (arg : OZ_Term)
  | TTuple (arg0 arg1 : OZ_Term)
  | TCons (hd tl : OZ_Term)
  | TOther.

(** [oz_pairII]. *)
Definition oz_pairII (l r : Z) : OZ_Term := TTuple (TInt l) (TInt r).

(** The element [mkListEl] appends for an interval. *)
Definition term_of_interval (e : i_arr_type) : OZ_Term :=
  if iv_left e =? iv_right e then TInt (iv_left e) else oz_pairII (iv_left e) (iv_right e).

(** [makeTaggedLTuple] of the list built by successive [mkListEl]. *)
Definition term_of_intervals (l : list i_arr_type) : OZ_Term :=
  foldr (fun e t => TCons (term_of_interval e) t) TNil l.

(** ** The configuration invariant *)

Definition globals_ok (g : fd_globals) : Prop :=
  0 <= fd_bv_max_high g /\
  fd_bv_max_elem g = 32 * fd_bv_max_high g - 1 /\
  fd_bv_conv_max_high g = fd_bv_max_elem g ÷ 2 + 2 /\
  fd_bv_max_elem g < fd_sup.

Lemma initFDs_ok : globals_ok initFDs.
Proof. unfold globals_ok, fd_sup. split_and!; vm_compute; done. Qed.

(** A bit vector of full height has fewer runs than the conversion arrays have slots. *)
Lemma conv_room g : globals_ok g -> 16 * fd_bv_max_high g + 1 <= fd_bv_conv_max_high g.
Proof.
  intros (H0 & H1 & -> & _). rewrite H1.
  destruct (Z.eq_dec (fd_bv_max_high g) 0) as [->|Hne]; [done|].
  rewrite Z.quot_div_nonneg by lia.
  pose proof (Z.div_mod (32 * fd_bv_max_high g - 1) 2).
  pose proof (Z.mod_pos_bound (32 * fd_bv_max_high g - 1) 2). lia.
Qed.

(** ** Abstract specifications of the neighbour queries

    [P] is the characteristic function of a finite set of naturals. *)

(** [r] is the greatest member below [v], or [-1]. *)
Definition is_pred (P : Z -> bool) (v r : Z) : Prop :=
  (r = -1 /\ forall w, P w = true -> v <= w) \/
  (P r = true /\ r < v /\ forall w, P w = true -> w < v -> w <= r).

(** [r] is the least member above [v], or [-1]. *)
Definition is_succ (P : Z -> bool) (v r : Z) : Prop :=
  (r = -1 /\ forall w, P w = true -> w <= v) \/
  (P r = true /\ v < r /\ forall w, P w = true -> v < w -> r <= w).

(** [r] is the first (last) member of the run of members around [v]. *)
Definition is_run_start (P : Z -> bool) (v r : Z) : Prop :=
  r <= v /\ (forall w, r <= w <= v -> P w = true) /\ P (r - 1) = false.
Definition is_run_end (P : Z -> bool) (v r : Z) : Prop :=
  v <= r /\ (forall w, v <= w <= r -> P w = true) /\ P (r + 1) = false.

(** [r] is a member nearest to [i], the smaller one on a tie. *)
Definition is_nearest (P : Z -> bool) (i r : Z) : Prop :=
  P r = true /\ forall w, P w = true -> Z.abs (i - r) <= Z.abs (i - w) /\
    (Z.abs (i - r) = Z.abs (i - w) -> r <= w).

#[export] Instance is_pred_proper : Proper (pointwise_relation Z eq ==> eq ==> eq ==> iff) is_pred.
Proof. intros P Q H v ? <- r ? <-. unfold is_pred. by setoid_rewrite H. Qed.
#[export] Instance is_succ_proper : Proper (pointwise_relation Z eq ==> eq ==> eq ==> iff) is_succ.
Proof. intros P Q H v ? <- r ? <-. unfold is_succ. by setoid_rewrite H. Qed.
