(* ===== verification/FDIntervals.v ===== *)
(** * Interval lists ([FDIntervals] of [fdomn.cc])

    An [FDIntervals] object is the list of its [high] intervals.  Index loops
    that walk two arrays in step are recursions on the unread suffixes;
    [cap] is the number of slots of the array being filled, and writing past it
    has no result. *)
From S2P Require Import Prelude Word32 FDBase.

Module FDIntervals.

(** ** Operations *)

Definition newIntervals `{FDEnv} (max_index : Z) : list i_arr_type :=
  fresh_interval <$> seqZ 0 max_index.

Definition findSize (l : list i_arr_type) : option Z :=
  s ← for_down (length l) (fun i s => e ← l.[i]; Some (s + (iv_right e - iv_left e))) 0;
  Some (s + zlen l).

Definition findMinElem (l : list i_arr_type) : option Z :=
  if zlen l =? 0 then Some (-1) else e ← l.[0]; Some (iv_left e).

Definition findMaxElem (l : list i_arr_type) : option Z :=
  if zlen l =? 0 then Some (-1) else e ← l.[zlen l - 1]; Some (iv_right e).

(** [init(l, r)] and [init(l0, r0, l1, r1)]. *)
Definition init1 (this : list i_arr_type) (l r : Z) : option (list i_arr_type) := this.[0 <- Iv l r].
Definition init2 (this : list i_arr_type) (l0 r0 l1 r1 : Z) : option (list i_arr_type) :=
  this ← this.[0 <- Iv l0 r0]; this.[1 <- Iv l1 r1].

(** [initList(list_len, list_left, list_right)]; [list_len <= high] is asserted. *)
Definition initList (this ivs : list i_arr_type) : option (list i_arr_type) :=
  if zlen ivs <=? zlen this then
    for_down (length ivs) (fun i t => e ← ivs.[i]; t.[i <- e]) this
  else None.

(** [operator =]: [high] becomes that of [iv], whose cells are copied; the room is asserted. *)
Definition assign (this iv : list i_arr_type) : option (list i_arr_type) :=
  if zlen iv <=? zlen this then Some iv else None.

(** [copy] allocates [high] intervals and copies them. *)
Definition copy `{FDEnv} (iv : list i_arr_type) : option (list i_arr_type) :=
  assign (newIntervals (zlen iv)) iv.

Fixpoint nextSmallerElem_loop (rev_l : list i_arr_type) (v : Z) : Z :=
  match rev_l with
  | [] => -1
  | e :: rest =>
      if (iv_left e <? v) && (v - 1 <=? iv_right e) then v - 1
      else if iv_right e <? v then iv_right e
      else nextSmallerElem_loop rest v
  end.

Definition nextSmallerElem (l : list i_arr_type) (v min_elem : Z) : Z :=
  if v <=? min_elem then -1 else nextSmallerElem_loop (reverse l) v.

Fixpoint nextLargerElem_loop (l : list i_arr_type) (v : Z) : Z :=
  match l with
  | [] => -1
  | e :: rest =>
      if v <? iv_left e then iv_left e
      else if (iv_left e - 2 <? v) && (v <? iv_right e) then v + 1
      else nextLargerElem_loop rest v
  end.

Definition nextLargerElem (l : list i_arr_type) (v max_elem : Z) : Z :=
  if max_elem <=? v then -1 else nextLargerElem_loop l v.

(** Binary search for the last interval whose left bound is at most [i]. *)
Fixpoint findPossibleIndexOf_loop (fuel : nat) (l : list i_arr_type) (i lo hi : Z) : option Z :=
  match fuel with
  | O => None
  | S fuel =>
      if lo <? hi then
        let mid := (lo + hi + 1) ÷ 2 in
        e ← l.[mid];
        if i <? iv_left e then findPossibleIndexOf_loop fuel l i lo (mid - 1)
        else findPossibleIndexOf_loop fuel l i mid hi
      else Some lo
  end.

Definition findPossibleIndexOf (l : list i_arr_type) (i : Z) : option Z :=
  findPossibleIndexOf_loop (S (length l)) l i 0 (zlen l - 1).

Definition isIn (l : list i_arr_type) (i : Z) : option bool :=
  index ← findPossibleIndexOf l i;
  e ← l.[index];
  Some ((iv_left e <=? i) && (i <=? iv_right e)).

Definition lowerBound (l : list i_arr_type) (v : Z) : option Z :=
  index ← findPossibleIndexOf l v; e ← l.[index]; Some (iv_left e).

Definition upperBound (l : list i_arr_type) (v : Z) : option Z :=
  index ← findPossibleIndexOf l v; e ← l.[index]; Some (iv_right e).

(** Walks to the gap that holds [i] (past the last interval it would read
    beyond the array); the left neighbour wins a tie. *)
Fixpoint midElem (l : list i_arr_type) (i : Z) : option Z :=
  match l with
  | e1 :: ((e2 :: _) as rest) =>
      if (iv_right e1 <? i) && (i <? iv_left e2) then
        let l := iv_right e1 in
        let r := iv_left e2 in
        Some (if i - l <=? r - i then l else r)
      else midElem rest i
  | _ => None
  end.

Definition getAsList (l : list i_arr_type) : OZ_Term := term_of_intervals l.

(** [operator <=]: the new contents and the new size. *)
Definition op_le (l : list i_arr_type) (leq : Z) : option (list i_arr_type * Z) :=
  index ← findPossibleIndexOf l leq;
  e ← l.[index];
  '(l, index) ←
    (if (iv_left e <=? leq) && (leq <=? iv_right e) then
       l' ← l.[index <- Iv (iv_left e) leq]; Some (l', index + 1)
     else if iv_right e <? leq then Some (l, index + 1)
     else Some (l, index));
  let l := take (Z.to_nat index) l in
  s ← findSize l;
  Some (l, s).

Definition op_ge (l : list i_arr_type) (geq : Z) : option (list i_arr_type * Z) :=
  index ← findPossibleIndexOf l geq;
  e ← l.[index];
  '(l, index) ←
    (if (iv_left e <=? geq) && (geq <=? iv_right e) then
       l' ← l.[index <- Iv geq (iv_right e)]; Some (l', index)
     else if iv_right e <? geq then Some (l, index + 1)
     else Some (l, index));
  let l := drop (Z.to_nat index) l in
  s ← findSize l;
  Some (l, s).

(** [operator -=] on an element. *)
Definition op_minus (l : list i_arr_type) (take_out : Z) : option (list i_arr_type) :=
  index ← findPossibleIndexOf l take_out;
  e ← l.[index];
  if take_out <? iv_left e then Some l
  else if iv_left e =? iv_right e then Some (delete (Z.to_nat index) l)
  else if iv_left e =? take_out then l.[index <- Iv (iv_left e + 1) (iv_right e)]
  else if iv_right e =? take_out then l.[index <- Iv (iv_left e) (iv_right e - 1)]
  else Some (take (Z.to_nat index) l
             ++ [Iv (iv_left e) (take_out - 1); Iv (take_out + 1) (iv_right e)]
             ++ drop (Z.to_nat index + 1) l).

(** [operator +=] on an element. *)
Definition op_plus (l : list i_arr_type) (put_in : Z) : option (list i_arr_type) :=
  index ← findPossibleIndexOf l put_in;
  e ← l.[index];
  let next_left_is x := match l.[index + 1] with Some n => x =? iv_left n - 1 | None => false end in
  if (iv_left e <=? put_in) && (put_in <=? iv_right e) then Some l
  else if put_in =? iv_right e + 1 then
    if next_left_is put_in then
      n ← l.[index + 1];
      l ← l.[index <- Iv (iv_left e) (iv_right n)];
      Some (delete (Z.to_nat (index + 1)) l)
    else l.[index <- Iv (iv_left e) (iv_right e + 1)]
  else if put_in =? iv_left e - 1 then l.[index <- Iv put_in (iv_right e)]
  else if next_left_is put_in then
    n ← l.[index + 1]; l.[index + 1 <- Iv (iv_left n - 1) (iv_right n)]
  else
    let index := if iv_right e <? put_in then index + 1 else index in
    Some (take (Z.to_nat index) l ++ [Iv put_in put_in] ++ drop (Z.to_nat index) l).

(** [complement]: fills the cells of [this] with the gaps of [x]. *)
Definition complement (this x : list i_arr_type) : option (list i_arr_type) :=
  x0 ← x.[0];
  '(this, c_i) ←
    (if 0 <? iv_left x0 then
       this ← this.[0 <- Iv 0 (iv_left x0 - 1)]; Some (this, 1)
     else Some (this, 0));
  '(this, c_i) ←
    for_up 0 (length x - 1) (fun i '(this, c_i) =>
      a ← x.[i]; b ← x.[i + 1];
      this ← this.[c_i <- Iv (iv_right a + 1) (iv_left b - 1)];
      Some (this, c_i + 1)) (this, c_i);
  xl ← x.[zlen x - 1];
  if iv_right xl <? fd_sup then this.[c_i <- Iv (iv_right xl + 1) fd_sup] else Some this.

(** [for (; c < high && arr[c].right <= r; c += 1);] *)
Fixpoint skip_upto (r : Z) (l : list i_arr_type) : list i_arr_type :=
  match l with
  | e :: rest => if iv_right e <=? r then skip_upto r rest else l
  | [] => []
  end.

(** The inner loop of [union_iv]: absorb every interval that touches [.. r]. *)
Fixpoint union_cont (fuel : nat) (xs ys : list i_arr_type) (r : Z)
    : option (list i_arr_type * list i_arr_type * Z) :=
  match fuel with
  | O => None
  | S fuel =>
      let try_y :=
        match ys with
        | y :: ys' =>
            if (iv_left y <=? r + 1) && (r <=? iv_right y)
            then union_cont fuel (skip_upto (iv_right y) xs) ys' (iv_right y)
            else Some (xs, ys, r)
        | [] => Some (xs, ys, r)
        end in
      match xs with
      | x :: xs' =>
          if (iv_left x <=? r + 1) && (r <=? iv_right x)
          then union_cont fuel xs' (skip_upto (iv_right x) ys) (iv_right x)
          else try_y
      | [] => try_y
      end
  end.

Fixpoint union_loop (fuel : nat) (cap : Z) (xs ys : list i_arr_type) (r : Z) (out : list i_arr_type)
    : option (list i_arr_type * list i_arr_type * Z * list i_arr_type) :=
  match fuel with
  | O => None
  | S fuel =>
      match xs, ys with
      | x :: xs', y :: ys' =>
          let '(l, r, xs, ys) :=
            if iv_left x <? iv_left y
            then (iv_left x, iv_right x, xs', skip_upto (iv_right x) ys)
            else (iv_left y, iv_right y, skip_upto (iv_right y) xs, ys') in
          '(xs, ys, r) ← union_cont (S (length xs + length ys)) xs ys r;
          let xs := skip_upto r xs in
          let ys := skip_upto r ys in
          out ← apush cap out (Iv l r);
          union_loop fuel cap xs ys r out
      | _, _ => Some (xs, ys, r, out)
      end
  end.

(** [if ((c + 1) < high && arr[c].left < r) c += 1;] *)
Definition union_skip_one (r : Z) (l : list i_arr_type) : list i_arr_type :=
  match l with
  | e :: ((_ :: _) as rest) => if iv_left e <? r then rest else l
  | _ => l
  end.

Definition union_iv (cap : Z) (x y : list i_arr_type) : option (list i_arr_type * Z) :=
  '(xs, ys, r, out) ← union_loop (S (length x + length y)) cap x y (-1) [];
  out ← foldl (fun o e => o ← o; apush cap o e) (Some out) (union_skip_one r xs);
  out ← foldl (fun o e => o ← o; apush cap o e) (Some out) (union_skip_one r ys);
  s ← findSize out;
  Some (out, s).

Fixpoint intersect_loop (fuel : nat) (cap : Z) (xs ys out : list i_arr_type)
    : option (list i_arr_type) :=
  match fuel with
  | O => None
  | S fuel =>
      match xs, ys with
      | x :: xs', y :: ys' =>
          if iv_left y <? iv_left x then
            if iv_right y <? iv_left x then intersect_loop fuel cap xs ys' out
            else if iv_right y <=? iv_right x then
              out ← apush cap out (Iv (iv_left x) (iv_right y));
              intersect_loop fuel cap xs ys' out
            else
              out ← apush cap out x;
              intersect_loop fuel cap xs' ys out
          else
            if iv_right x <? iv_left y then intersect_loop fuel cap xs' ys out
            else if iv_right x <=? iv_right y then
              out ← apush cap out (Iv (iv_left y) (iv_right x));
              intersect_loop fuel cap xs' ys out
            else
              out ← apush cap out y;
              intersect_loop fuel cap xs ys' out
      | _, _ => Some out
      end
  end.

Definition intersect_iv (cap : Z) (x y : list i_arr_type) : option (list i_arr_type * Z) :=
  out ← intersect_loop (S (length x + length y)) cap x y [];
  s ← findSize out;
  Some (out, s).

(** [for (; y_c < y.high && y.i_arr[y_c].right < l; y_c += 1);] *)
Fixpoint skip_below (l : Z) (ys : list i_arr_type) : list i_arr_type :=
  match ys with
  | y :: rest => if iv_right y <? l then skip_below l rest else ys
  | [] => []
  end.

(** The [while] loop of [subtract_iv]: cut every hole that ends before [xr];
    [l] is the left bound of the piece being written. *)
Fixpoint subtract_cut (cap : Z) (ys : list i_arr_type) (l xr : Z) (out : list i_arr_type)
    : option (list i_arr_type * Z * list i_arr_type) :=
  match ys with
  | y :: rest =>
      if iv_right y <? xr then
        out ← apush cap out (Iv l (iv_left y - 1));
        subtract_cut cap rest (iv_right y + 1) xr out
      else Some (ys, l, out)
  | [] => Some (ys, l, out)
  end.

Fixpoint subtract_loop (fuel : nat) (cap : Z) (xs ys out : list i_arr_type)
    : option (list i_arr_type * list i_arr_type) :=
  match fuel with
  | O => None
  | S fuel =>
      match xs, ys with
      | x :: xs', _ :: _ =>
          match skip_below (iv_left x) ys with
          | [] => Some (xs, out)
          | (y :: ys') as ys =>
              if (iv_left y <=? iv_left x) && (iv_right x <=? iv_right y) then
                subtract_loop fuel cap xs' ys out
              else if iv_right x <? iv_left y then
                out ← apush cap out x;
                subtract_loop fuel cap xs' ys out
              else if iv_right x <=? iv_right y then
                out ← apush cap out (Iv (iv_left x) (iv_left y - 1));
                subtract_loop fuel cap xs' ys out
              else if iv_right y <=? iv_right x then
                let '(l, ys) :=
                  if iv_left x <? iv_left y then (iv_left x, ys) else (iv_right y + 1, ys') in
                '(ys, l, out) ← subtract_cut cap ys l (iv_right x) out;
                match ys with
                | y :: _ =>
                    if iv_left y <=? iv_right x then
                      out ← apush cap out (Iv l (iv_left y - 1));
                      subtract_loop fuel cap xs' ys out
                    else
                      out ← apush cap out (Iv l (iv_right x));
                      subtract_loop fuel cap xs' ys out
                | [] =>
                    out ← apush cap out (Iv l (iv_right x));
                    subtract_loop fuel cap xs' ys out
                end
              else subtract_loop fuel cap xs ys out
          end
      | _, _ => Some (xs, out)
      end
  end.

Definition subtract_iv (cap : Z) (x y : list i_arr_type) : option (list i_arr_type * Z) :=
  '(xs, out) ← subtract_loop (S (length x)) cap x y [];
  out ← foldl (fun o e => o ← o; apush cap o e) (Some out) xs;
  s ← findSize out;
  Some (out, s).

(** ** Well-formed interval lists

    [seg lo hi l]: the intervals of [l] lie in [lo .. hi], are non-empty,
    increasing, and no two of them touch. *)
Fixpoint seg (lo hi : Z) (l : list i_arr_type) : Prop :=
  match l with
  | [] => True
  | e :: rest =>
      lo <= iv_left e /\ iv_left e <= iv_right e /\ iv_right e <= hi /\ seg (iv_right e + 2) hi rest
  end.

Definition iv_in (e : i_arr_type) (v : Z) : bool := (iv_left e <=? v) && (v <=? iv_right e).

(** The set an interval list stands for. *)
Definition mem (l : list i_arr_type) (v : Z) : bool := existsb (fun e => iv_in e v) l.

Definition total (l : list i_arr_type) : Z :=
  foldr (fun e s => iv_right e - iv_left e + 1 + s) 0 l.

(** ** Lemmas *)

Lemma seg_lo lo lo' hi l : lo' <= lo -> seg lo hi l -> seg lo' hi l.
Proof. destruct l; simpl; intuition lia. Qed.

Lemma seg_hi lo hi hi' l : hi <= hi' -> seg lo hi l -> seg lo hi' l.
Proof. intros Hh. revert lo. induction l as [|e l IH]; intros lo; simpl; [done|]. intros (? & ? & ? & ?). split_and!; auto; lia. Qed.

Lemma seg_weaken lo lo' hi hi' l : lo' <= lo -> hi <= hi' -> seg lo hi l -> seg lo' hi' l.
Proof. intros. eapply seg_lo; [done|]. by eapply seg_hi. Qed.

Lemma seg_app lo hi l1 e l2 :
  seg lo hi (l1 ++ e :: l2) <->
  seg lo (iv_left e - 2) l1 /\ lo <= iv_left e /\ iv_left e <= iv_right e /\ iv_right e <= hi
  /\ seg (iv_right e + 2) hi l2.
Proof.
  revert lo. induction l1 as [|a l1 IH]; intros lo; simpl; [tauto|].
  rewrite IH. intuition lia.
Qed.

Lemma mem_app l1 l2 v : mem (l1 ++ l2) v = mem l1 v || mem l2 v.
Proof. apply existsb_app. Qed.

Lemma mem_cons e l v : mem (e :: l) v = iv_in e v || mem l v.
Proof. done. Qed.

Lemma mem_bounds lo hi l v : seg lo hi l -> mem l v = true -> lo <= v <= hi.
Proof.
  revert lo. induction l as [|e l IH]; intros lo; simpl; [done|].
  intros (H1 & H2 & H3 & H4). unfold iv_in. intros [Hin|Hin]%orb_true_iff.
  - breflect. lia.
  - specialize (IH _ H4 Hin). lia.
Qed.

Lemma mem_out lo hi l v : seg lo hi l -> v < lo \/ hi < v -> mem l v = false.
Proof.
  intros Hs Hv. destruct (mem l v) eqn:E; [|done].
  pose proof (mem_bounds _ _ _ _ Hs E). lia.
Qed.

Lemma mem_nil v : mem [] v = false.
Proof. done. Qed.

#[global] Arguments mem : simpl never.

Lemma zlen_newIntervals `{FDEnv} n : 0 <= n -> zlen (newIntervals n) = n.
Proof. intros Hn. unfold newIntervals, zlen. rewrite length_fmap, length_seqZ. lia. Qed.

(** Overwriting every cell of an array copies the source. *)
Lemma initList_spec this ivs : zlen this = zlen ivs -> initList this ivs = Some ivs.
Proof.
  intros Hlen. unfold initList. rewrite Hlen, Z.leb_refl.
  destruct (for_down_cells (fun i => default (Iv 0 0) ivs.[i])
    (fun i t => e ← ivs.[i]; t.[i <- e]) (length ivs) this) as (l' & -> & Hl & Hj).
  - unfold zlen in *. lia.
  - intros i a Hi _ _. destruct (aget_Some ivs i) as [e He]; [unfold zlen; lia|]. rewrite He. done.
  - f_equal. apply aget_ext; [congruence|]. intros i Hi. rewrite Hj.
    destruct (aget_Some ivs i) as [e ->]; [lia|]. unfold zlen in *.
    destruct (Z.leb_spec 0 i), (Z.ltb_spec i (Z.of_nat (length ivs))); try lia. done.
Qed.

Lemma copy_spec `{FDEnv} iv : copy iv = Some iv.
Proof. unfold copy, assign. rewrite zlen_newIntervals by done. by rewrite Z.leb_refl. Qed.

(** Record, for the integer [v], what membership in each known list implies. *)
Ltac mem_facts v :=
  repeat match goal with
  | H : seg ?lo ?hi ?l |- _ =>
      lazymatch goal with
      | _ : mem l v = true -> lo <= v <= hi |- _ => fail
      | _ => pose proof (mem_bounds lo hi l v H)
      end
  end.

(** Solve an equation between membership tests at [v]. *)
Ltac solve_mem v :=
  mem_facts v;
  repeat match goal with H : forall x, mem ?l x = true -> _ |- _ => specialize (H v) end; rewrite ?mem_app, ?mem_cons, ?mem_nil; unfold iv_in; simpl; rewrite ?mem_nil; lia.

Lemma total_app l1 l2 : total (l1 ++ l2) = total l1 + total l2.
Proof. induction l1 as [|e l1 IH]; simpl; [done|]. rewrite IH. lia. Qed.

Lemma total_nonneg lo hi l : seg lo hi l -> 0 <= total l.
Proof.
  revert lo. induction l as [|e l IH]; intros lo; simpl; [lia|].
  intros (? & ? & ? & Hs). specialize (IH _ Hs). lia.
Qed.

Lemma total_pos lo hi l : seg lo hi l -> l <> [] -> 0 < total l.
Proof.
  destruct l as [|e l]; simpl; [done|]. intros (? & ? & ? & Hs) _.
  pose proof (total_nonneg _ _ _ Hs). lia.
Qed.

(** The number of members is the sum of the lengths. *)
Lemma total_count lo hi l n :
  seg lo hi l -> hi < lo + Z.of_nat n -> count_range (mem l) lo n = total l.
Proof.
  revert lo n. induction l as [|e l IH]; intros lo n Hs Hn.
  - by apply count_range_none.
  - pose proof Hs as (H1 & H2 & H3 & H4).
    replace n with (Z.to_nat (iv_left e - lo) + (Z.to_nat (iv_right e - iv_left e + 1)
      + Z.to_nat (lo + Z.of_nat n - (iv_right e + 1))))%nat by lia.
    rewrite !count_range_app.
    rewrite (count_range_none _ lo), (count_range_all _ (lo + _)).
    + simpl total. rewrite !Z2Nat.id by lia.
      replace (lo + (iv_left e - lo) + (iv_right e - iv_left e + 1)) with (iv_right e + 1) by lia.
      enough (count_range (mem (e :: l)) (iv_right e + 1)
        (Z.to_nat (lo + Z.of_nat n - (iv_right e + 1))) = total l) by lia.
      rewrite <- (IH (iv_right e + 1) (Z.to_nat (lo + Z.of_nat n - (iv_right e + 1)))).
      * apply count_range_ext. intros i Hi. solve_mem i.
      * eapply seg_lo; [|done]. lia.
      * lia.
    + intros i Hi. solve_mem i.
    + intros i Hi. solve_mem i.
Qed.

Lemma findSize_total l : findSize l = Some (total l).
Proof.
  unfold findSize. enough (forall n s, (n <= length l)%nat ->
    for_down n (fun i s => e ← l.[i]; Some (s + (iv_right e - iv_left e))) s
    = Some (s + total (take n l) - Z.of_nat n)) as H.
  { rewrite H by lia. ored. rewrite firstn_all. unfold zlen. f_equal. lia. }
  induction n as [|n IH]; intros s Hn; cbn [for_down]; [f_equal; simpl; lia|].
  rewrite aget_nat. destruct (lookup_lt_is_Some_2 l n) as [e He]; [lia|]. rewrite He. ored.
  rewrite IH by lia. rewrite (take_S_r _ _ _ He), total_app. simpl total. f_equal. lia.
Qed.

Lemma findMinElem_cons e l : findMinElem (e :: l) = Some (iv_left e).
Proof. done. Qed.

Lemma findMaxElem_snoc l e : findMaxElem (l ++ [e]) = Some (iv_right e).
Proof.
  unfold findMaxElem. rewrite zlen_app, zlen_cons, zlen_nil.
  pose proof (zlen_nonneg l). destruct (Z.eqb_spec (zlen l + (0 + 1)) 0); [lia|].
  replace (zlen l + (0 + 1) - 1) with (zlen l) by lia. by rewrite aget_middle.
Qed.

(** The binary search. *)
Lemma findPossibleIndexOf_loop_spec l i fuel lo hi :
  0 <= lo <= hi -> hi < zlen l -> (Z.to_nat (hi - lo) < fuel)%nat ->
  (lo = 0 \/ exists e, l.[lo] = Some e /\ iv_left e <= i) ->
  (hi = zlen l - 1 \/ exists e, l.[hi + 1] = Some e /\ i < iv_left e) ->
  exists x, findPossibleIndexOf_loop fuel l i lo hi = Some x /\ 0 <= x < zlen l /\
    (x = 0 \/ exists e, l.[x] = Some e /\ iv_left e <= i) /\
    (x = zlen l - 1 \/ exists e, l.[x + 1] = Some e /\ i < iv_left e).
Proof.
  revert lo hi. induction fuel as [|fuel IH]; intros lo hi Hlo Hhi Hfuel Hl Hr; [lia|].
  cbn [findPossibleIndexOf_loop]. destruct (Z.ltb_spec lo hi).
  - set (mid := (lo + hi + 1) ÷ 2).
    assert (lo < mid <= hi) as Hmid.
    { subst mid. rewrite Z.quot_div_nonneg by lia. Z.div_mod_to_equations. lia. }
    destruct (aget_Some l mid) as [e He]; [lia|]. rewrite He. ored.
    destruct (Z.ltb_spec i (iv_left e)).
    + apply IH; try lia; [done|]. right. exists e. split; [|done]. by replace (mid - 1 + 1) with mid by lia.
    + apply IH; try lia; [|done]. right. by exists e.
  - exists lo. replace hi with lo in * by lia. split_and!; try done; lia.
Qed.

Lemma find_split l i :
  l <> [] ->
  exists l1 e l2, l = l1 ++ e :: l2 /\ findPossibleIndexOf l i = Some (zlen l1) /\
    (l1 = [] \/ iv_left e <= i) /\
    match l2 with [] => True | e2 :: _ => i < iv_left e2 end.
Proof.
  intros Hne. assert (0 < zlen l) by (destruct l; [done|rewrite zlen_cons; pose proof (zlen_nonneg l); lia]).
  destruct (findPossibleIndexOf_loop_spec l i (S (length l)) 0 (zlen l - 1)) as (x & Hf & Hx & Hlo & Hhi);
    [lia|lia|unfold zlen; lia|by left|by left|].
  destruct (aget_Some l x) as [e He]; [lia|].
  assert (l !! Z.to_nat x = Some e) as He'.
  { rewrite <- aget_nat, Z2Nat.id by lia. done. }
  exists (take (Z.to_nat x) l), e, (drop (S (Z.to_nat x)) l).
  assert (zlen (take (Z.to_nat x) l) = x) as Hlen.
  { unfold zlen in *. rewrite length_take. lia. }
  split_and!.
  - symmetry. by apply take_drop_middle.
  - by rewrite Hlen.
  - destruct Hlo as [->|(e' & He2 & ?)]; [by left|right]. congruence.
  - destruct (drop (S (Z.to_nat x)) l) as [|e2 r] eqn:Hd; [done|].
    assert (l.[x + 1] = Some e2) as He2.
    { replace (x + 1) with (Z.of_nat (S (Z.to_nat x) + 0)) by lia.
      rewrite aget_nat, <- lookup_drop, Hd. done. }
    destruct Hhi as [->|(e' & ? & ?)]; [|congruence].
    apply aget_Some_inv in He2. lia.
Qed.

(** Membership is decided at the interval the search finds. *)
Lemma mem_split lo hi l1 e l2 i :
  seg lo hi (l1 ++ e :: l2) ->
  (l1 = [] \/ iv_left e <= i) -> match l2 with [] => True | e2 :: _ => i < iv_left e2 end ->
  mem l1 i = false /\ mem l2 i = false.
Proof.
  intros (H1 & ? & ? & ? & H2)%seg_app Hl Hr. split.
  - destruct Hl as [->|]; [done|]. eapply mem_out; [done|]. lia.
  - destruct l2 as [|e2 l2]; [done|]. simpl in H2.
    apply (mem_out (iv_left e2) hi); [simpl; intuition lia|]. lia.
Qed.

(** Apply [find_split] to the search of the goal and open the list. *)
Ltac open_find l i Hne :=
  let l1 := fresh "l1" in let e := fresh "e" in let l2 := fresh "l2" in
  let Hf := fresh "Hf" in let Hl := fresh "Hleft" in let Hr := fresh "Hright" in
  destruct (find_split l i Hne) as (l1 & e & l2 & -> & Hf & Hl & Hr);
  rewrite Hf; ored; rewrite aget_middle; ored.

Section operations.
Context (lo hi : Z).

Theorem isIn_spec l i : seg lo hi l -> l <> [] -> isIn l i = Some (mem l i).
Proof.
  intros Hs Hne. unfold isIn. open_find l i Hne.
  destruct (mem_split _ _ _ _ _ i Hs Hleft Hright) as [H1 H2].
  rewrite mem_app, mem_cons, H1, H2. unfold iv_in. simpl. by rewrite orb_false_r.
Qed.

(** What the parts of a split list know about an arbitrary integer. *)
Lemma split_right e l2 i v :
  seg (iv_right e + 2) hi l2 ->
  match l2 with [] => True | e2 :: _ => i < iv_left e2 end -> mem l2 v = true -> i < v.
Proof.
  destruct l2 as [|e2 l2]; [done|]. simpl. intros (? & ? & ? & Hs) Hi.
  rewrite mem_cons, orb_true_iff. intros [Hin|Hin].
  - unfold iv_in in Hin. lia.
  - pose proof (mem_bounds _ _ _ _ Hs Hin). lia.
Qed.

Lemma split_left e l1 i v :
  seg lo (iv_left e - 2) l1 -> (l1 = [] \/ iv_left e <= i) -> mem l1 v = true -> v < i.
Proof.
  intros Hs [->|Hi]; [done|]. intros Hin. pose proof (mem_bounds _ _ _ _ Hs Hin). lia.
Qed.

Lemma take_snoc {A} (l1 : list A) e l2 n :
  n = zlen l1 + 1 -> take (Z.to_nat n) (l1 ++ e :: l2) = l1 ++ [e].
Proof.
  intros ->. unfold zlen. replace (Z.to_nat _) with (length l1 + 1)%nat by lia.
  rewrite take_app_add'; done.
Qed.

Lemma take_all {A} (l1 k : list A) n : n = zlen l1 -> take (Z.to_nat n) (l1 ++ k) = l1.
Proof. intros ->. unfold zlen. rewrite Nat2Z.id. by rewrite take_app_length. Qed.

Lemma drop_all' {A} (l1 k : list A) n : n = zlen l1 -> drop (Z.to_nat n) (l1 ++ k) = k.
Proof. intros ->. unfold zlen. rewrite Nat2Z.id. by rewrite drop_app_length. Qed.

Lemma drop_snoc {A} (l1 : list A) e l2 n :
  n = zlen l1 + 1 -> drop (Z.to_nat n) (l1 ++ e :: l2) = l2.
Proof.
  intros ->. replace (l1 ++ e :: l2) with ((l1 ++ [e]) ++ l2) by by rewrite <- app_assoc.
  apply drop_all'. by rewrite zlen_app, zlen_cons.
Qed.

Theorem op_le_spec l leq :
  seg lo hi l -> l <> [] ->
  exists l', op_le l leq = Some (l', total l') /\ seg lo (Z.min hi leq) l' /\
    forall v, mem l' v = mem l v && (v <=? leq).
Proof.
  intros Hs Hne. unfold op_le. open_find l leq Hne.
  pose proof Hs as (H1 & ? & ? & ? & H2)%seg_app.
  assert (forall v, mem l2 v = true -> leq < v) by (intros v; by eapply split_right).
  assert (forall v, mem l1 v = true -> v < leq) by (intros v; by eapply split_left).
  destruct (Z.leb_spec (iv_left e) leq), (Z.leb_spec leq (iv_right e)); simpl;
    try (rewrite aset_middle; ored); try destruct (Z.ltb_spec (iv_right e) leq); try lia; ored;
    rewrite ?take_snoc, ?take_all by done; rewrite findSize_total; ored;
    (eexists; split; [done|]); split.
  all: try (intros v; solve_mem v).
  - apply seg_app. simpl. split_and!; try done; lia.
  - apply seg_app. split_and!; try done; lia.
  - destruct Hleft as [->|]; [done|lia].
Qed.

Theorem op_ge_spec l geq :
  seg lo hi l -> l <> [] ->
  exists l', op_ge l geq = Some (l', total l') /\ seg (Z.max lo geq) hi l' /\
    forall v, mem l' v = mem l v && (geq <=? v).
Proof.
  intros Hs Hne. unfold op_ge. open_find l geq Hne.
  pose proof Hs as (H1 & ? & ? & ? & H2)%seg_app.
  assert (forall v, mem l2 v = true -> geq < v) by (intros v; by eapply split_right).
  assert (forall v, mem l1 v = true -> v < geq) by (intros v; by eapply split_left).
  destruct (Z.leb_spec (iv_left e) geq), (Z.leb_spec geq (iv_right e)); simpl;
    try (rewrite aset_middle; ored); try destruct (Z.ltb_spec (iv_right e) geq); try lia; ored;
    rewrite ?drop_snoc, ?drop_all' by done; rewrite findSize_total; ored;
    (eexists; split; [done|]); split.
  all: try (intros v; solve_mem v).
  - simpl. split_and!; try done; lia.
  - destruct l2 as [|e2 l2]; [done|]. simpl in H2 |- *. split_and!; try tauto; lia.
  - destruct Hleft as [->|]; [|lia]. simpl. split_and!; try done; lia.
Qed.

Lemma delete_middle {A} (l1 : list A) e l2 n :
  n = zlen l1 -> delete (Z.to_nat n) (l1 ++ e :: l2) = l1 ++ l2.
Proof. intros ->. unfold zlen. rewrite Nat2Z.id. by rewrite delete_middle. Qed.

Lemma take_drop_middle' {A} (l1 : list A) e l2 (k : list A) :
  take (Z.to_nat (zlen l1)) (l1 ++ e :: l2) ++ k ++ drop (Z.to_nat (zlen l1) + 1) (l1 ++ e :: l2)
  = l1 ++ k ++ l2.
Proof.
  rewrite take_all by done.
  replace (Z.to_nat (zlen l1) + 1)%nat with (Z.to_nat (zlen l1 + 1)) by (unfold zlen; lia).
  by rewrite drop_snoc.
Qed.

Lemma aget_next {A} (l1 : list A) e l2 : (l1 ++ e :: l2).[zlen l1 + 1] = head l2.
Proof.
  replace (l1 ++ e :: l2) with ((l1 ++ [e]) ++ l2) by by rewrite <- app_assoc.
  rewrite aget_app_r by (rewrite zlen_app, zlen_cons, zlen_nil; lia).
  rewrite zlen_app, zlen_cons, zlen_nil. replace (_ - _) with 0 by lia. by destruct l2.
Qed.

Lemma aset_next {A} (l1 : list A) e e2 l2 y :
  (l1 ++ e :: e2 :: l2).[zlen l1 + 1 <- y] = Some (l1 ++ e :: y :: l2).
Proof.
  replace (l1 ++ e :: e2 :: l2) with ((l1 ++ [e]) ++ e2 :: l2) by by rewrite <- app_assoc.
  replace (zlen l1 + 1) with (zlen (l1 ++ [e])) by by rewrite zlen_app, zlen_cons.
  rewrite aset_middle. by rewrite <- app_assoc.
Qed.

Lemma delete_next {A} (l1 : list A) e e2 l2 :
  delete (Z.to_nat (zlen l1 + 1)) (l1 ++ e :: e2 :: l2) = l1 ++ e :: l2.
Proof.
  replace (l1 ++ e :: e2 :: l2) with ((l1 ++ [e]) ++ e2 :: l2) by by rewrite <- app_assoc.
  rewrite delete_middle by by rewrite zlen_app, zlen_cons. by rewrite <- app_assoc.
Qed.

Lemma insert_next {A} (l1 : list A) e l2 x :
  take (Z.to_nat (zlen l1 + 1)) (l1 ++ e :: l2) ++ [x] ++ drop (Z.to_nat (zlen l1 + 1)) (l1 ++ e :: l2)
  = l1 ++ e :: x :: l2.
Proof. rewrite take_snoc, drop_snoc by done. by rewrite <- app_assoc. Qed.

Theorem op_minus_spec l x :
  seg lo hi l -> mem l x = true ->
  exists l', op_minus l x = Some l' /\ seg lo hi l' /\
    forall v, mem l' v = mem l v && negb (v =? x).
Proof.
  intros Hs Hx. assert (l <> []) as Hne by (by intros ->). unfold op_minus. open_find l x Hne.
  pose proof Hs as (H1 & ? & ? & ? & H2)%seg_app.
  destruct (mem_split _ _ _ _ _ _ Hs Hleft Hright) as [Hx1 Hx2].
  assert (iv_left e <= x <= iv_right e) as Hxe.
  { rewrite mem_app, mem_cons, Hx1, Hx2 in Hx. unfold iv_in in Hx. lia. }
  destruct (Z.ltb_spec x (iv_left e)); [lia|].
  rewrite !aset_middle, delete_middle, take_drop_middle' by done.
  destruct (Z.eqb_spec (iv_left e) (iv_right e)); [|destruct (Z.eqb_spec (iv_left e) x);
    [|destruct (Z.eqb_spec (iv_right e) x)]]; (eexists; split; [done|]); split;
    try (intros v; solve_mem v).
  - destruct l2 as [|e2 l2]; simpl in H2.
    + rewrite app_nil_r. eapply seg_weaken; [| |done]; lia.
    + apply seg_app. split_and!; try tauto; try lia. eapply seg_weaken; [| |done]; lia.
  - apply seg_app. simpl. split_and!; try done; try lia. eapply seg_weaken; [| |done]; lia.
  - apply seg_app. simpl. split_and!; try done; try lia. eapply seg_weaken; [| |done]; lia.
  - simpl. apply seg_app. simpl. split_and!; try done; lia.
Qed.

(** Close the three obligations on an updated list written out in full. *)
Ltac finish_iv :=
  eexists; split; [done|]; split_and!;
  [ first [apply seg_app; simpl; split_and!; try done; lia | simpl; split_and!; try done; lia]
  | first [done | by apply not_eq_sym, app_cons_not_nil]
  | intros v; simpl; solve_mem v ].

Theorem op_plus_spec l x :
  seg lo hi l -> l <> [] -> mem l x = false -> lo <= x <= hi ->
  exists l', op_plus l x = Some l' /\ seg lo hi l' /\ l' <> [] /\
    forall v, mem l' v = mem l v || (v =? x).
Proof.
  intros Hs Hne Hx Hrange. unfold op_plus. open_find l x Hne.
  pose proof Hs as (H1 & ? & ? & ? & H2)%seg_app.
  destruct (mem_split _ _ _ _ _ _ Hs Hleft Hright) as [Hx1 Hx2].
  assert (x < iv_left e \/ iv_right e < x) as Hout.
  { rewrite mem_app, mem_cons, Hx1, Hx2 in Hx. unfold iv_in in Hx. lia. }
  rewrite !aget_next.
  destruct (Z.leb_spec (iv_left e) x), (Z.leb_spec x (iv_right e)); cbn [andb]; try lia.
  - destruct (Z.eqb_spec x (iv_right e + 1)); [|destruct (Z.eqb_spec x (iv_left e - 1)); [lia|]];
      (destruct l2 as [|e2 l2]; cbn [head];
       [|simpl in H2; destruct H2 as (? & ? & ? & H2); destruct (Z.eqb_spec x (iv_left e2 - 1))]);
      try (destruct (Z.ltb_spec (iv_right e) x); [|lia]); ored;
      rewrite ?aset_middle, ?aset_next, ?insert_next; ored; rewrite ?delete_next; finish_iv.
  - destruct Hleft as [->|]; [|lia]. destruct (Z.eqb_spec x (iv_right e + 1)); [lia|].
    destruct (Z.eqb_spec x (iv_left e - 1)); [rewrite aset_middle; finish_iv|].
    assert (match head l2 with Some n => x =? iv_left n - 1 | None => false end = false) as ->
      by (destruct l2 as [|e2 l2]; simpl in *; [done|lia]).
    destruct (Z.ltb_spec (iv_right e) x); [lia|]. finish_iv.
Qed.

Theorem nextSmallerElem_spec l v m :
  seg lo hi l -> (forall w, mem l w = true -> m <= w) -> is_pred (mem l) v (nextSmallerElem l v m).
Proof.
  intros Hs Hm. unfold nextSmallerElem. destruct (Z.leb_spec v m) as [Hv|Hv].
  { left. split; [done|]. intros w Hw%Hm. lia. }
  clear Hm Hv. revert Hs. unfold is_pred. induction l as [|e l IH] using rev_ind; [by left|].
  intros (Hl & He & He' & He'' & _)%seg_app. rewrite reverse_snoc. cbn [nextSmallerElem_loop].
  destruct (Z.ltb_spec (iv_left e) v), (Z.leb_spec (v - 1) (iv_right e)); cbn [andb];
    [|destruct (Z.ltb_spec (iv_right e) v); [|lia]|destruct (Z.ltb_spec (iv_right e) v); [lia|]|lia].
  1, 2: right; split_and!; [first [solve_mem (v - 1) | solve_mem (iv_right e)]|lia|];
    intros w Hw Hwv; rewrite mem_app, mem_cons, mem_nil in Hw; unfold iv_in in Hw; mem_facts w; lia.
  destruct IH as [[-> Hn]|(Hr & Hrv & Hn)]; [eapply seg_hi, Hl; lia| |].
  - left. split; [done|]. intros w. rewrite mem_app, mem_cons, mem_nil. specialize (Hn w). unfold iv_in. lia.
  - right. split_and!; [by rewrite mem_app, Hr|done|]. intros w. specialize (Hn w).
    rewrite mem_app, mem_cons, mem_nil. unfold iv_in. lia.
Qed.

Theorem nextLargerElem_spec l v m :
  seg lo hi l -> (forall w, mem l w = true -> w <= m) -> is_succ (mem l) v (nextLargerElem l v m).
Proof.
  intros Hs Hm. unfold nextLargerElem. destruct (Z.leb_spec m v) as [Hv|Hv].
  { left. split; [done|]. intros w Hw%Hm. lia. }
  clear Hm Hv. revert Hs. unfold is_succ. generalize lo as lo'.
  induction l as [|e l IH]; intros lo'; [by left|].
  intros (He & He' & He'' & Hl). cbn [nextLargerElem_loop].
  destruct (Z.ltb_spec v (iv_left e)).
  { right. split_and!; [solve_mem (iv_left e)|lia|]. intros w. rewrite mem_cons. unfold iv_in. mem_facts w. lia. }
  destruct (Z.ltb_spec (iv_left e - 2) v), (Z.ltb_spec v (iv_right e)); cbn [andb]; try lia.
  { right. split_and!; [solve_mem (v + 1)|lia|]. intros w. rewrite mem_cons. unfold iv_in. mem_facts w. lia. }
  destruct (IH _ Hl) as [[-> Hn]|(Hr & Hrv & Hn)].
  - left. split; [done|]. intros w. rewrite mem_cons. specialize (Hn w). unfold iv_in. lia.
  - right. split_and!; [by rewrite mem_cons, Hr, orb_true_r|done|]. intros w. specialize (Hn w).
    rewrite mem_cons. unfold iv_in. lia.
Qed.

Theorem lowerBound_spec l v :
  seg lo hi l -> mem l v = true -> exists r, lowerBound l v = Some r /\ is_run_start (mem l) v r.
Proof.
  intros Hs Hv. assert (l <> []) as Hne by (by intros ->). unfold lowerBound. open_find l v Hne.
  pose proof Hs as (H1 & ? & ? & ? & H2)%seg_app.
  destruct (mem_split _ _ _ _ _ _ Hs Hleft Hright) as [Hx1 Hx2].
  rewrite mem_app, mem_cons, Hx1, Hx2 in Hv. unfold iv_in in Hv.
  eexists; split; [done|]. unfold is_run_start. split_and!; [lia| |solve_mem (iv_left e - 1)].
  intros w Hw. solve_mem w.
Qed.

Theorem upperBound_spec l v :
  seg lo hi l -> mem l v = true -> exists r, upperBound l v = Some r /\ is_run_end (mem l) v r.
Proof.
  intros Hs Hv. assert (l <> []) as Hne by (by intros ->). unfold upperBound. open_find l v Hne.
  pose proof Hs as (H1 & ? & ? & ? & H2)%seg_app.
  destruct (mem_split _ _ _ _ _ _ Hs Hleft Hright) as [Hx1 Hx2].
  rewrite mem_app, mem_cons, Hx1, Hx2 in Hv. unfold iv_in in Hv.
  eexists; split; [done|]. unfold is_run_end. split_and!; [lia| |solve_mem (iv_right e + 1)].
  intros w Hw. solve_mem w.
Qed.

Lemma midElem_cons2 e1 e2 l i :
  midElem (e1 :: e2 :: l) i =
  if (iv_right e1 <? i) && (i <? iv_left e2)
  then Some (if i - iv_right e1 <=? iv_left e2 - i then iv_right e1 else iv_left e2)
  else midElem (e2 :: l) i.
Proof. done. Qed.

(** The walk to the gap around a non-member between two members. *)
Theorem midElem_spec l i :
  seg lo hi l -> mem l i = false ->
  (exists w, mem l w = true /\ w < i) -> (exists w, mem l w = true /\ i < w) ->
  exists r, midElem l i = Some r /\ is_nearest (mem l) i r.
Proof.
  generalize lo as lo'. induction l as [|e1 l IH]; intros lo' Hs Hi [a [Ha Hai]] [b [Hb Hbi]]; [done|].
  rewrite mem_cons in Hi, Ha, Hb. unfold iv_in in Hi, Ha, Hb.
  destruct l as [|e2 l]; [rewrite mem_nil in *; lia|].
  destruct Hs as (H1 & H2 & H3 & Hs). pose proof Hs as (H4 & H5 & H6 & Hs').
  rewrite midElem_cons2. destruct (Z.ltb_spec (iv_right e1) i), (Z.ltb_spec i (iv_left e2)); cbn [andb].
  - eexists; split; [done|]. unfold is_nearest.
    destruct (Z.leb_spec (i - iv_right e1) (iv_left e2 - i)); split;
      try solve [rewrite !mem_cons; unfold iv_in; lia];
      intros w; rewrite !mem_cons; unfold iv_in; mem_facts w; lia.
  - destruct (IH (iv_right e1 + 2)) as (r & -> & Hr1 & Hr2); [done|lia|exists (iv_left e2)|exists b|].
    + rewrite mem_cons. unfold iv_in. mem_facts i. rewrite mem_cons in Hi. unfold iv_in in Hi. lia.
    + split; [lia|done].
    + exists r. split; [done|]. split; [by rewrite mem_cons, Hr1, orb_true_r|].
      rewrite mem_cons in Hi. unfold iv_in in Hi.
      destruct (Hr2 (iv_right e2)) as [Hd _]; [rewrite mem_cons; unfold iv_in; lia|].
      intros w. rewrite mem_cons. unfold iv_in at 1. specialize (Hr2 w). lia.
  - mem_facts a. lia.
  - mem_facts a. lia.
Qed.
End operations.

End FDIntervals.
