(* ===== verification/FDIntervalSets.v ===== *)
(** * Set operations on interval lists

    Correctness and room of [intersect_iv], [union_iv], [subtract_iv] and
    [complement]: the merges compute the set operation, their results are again
    well formed, and the number of slots the callers allocate is enough. *)
From S2P Require Import Prelude Word32 FDBase FDIntervals.
Import FDIntervals.

Lemma apush_Some {A} cap (l : list A) x : zlen l < cap -> apush cap l x = Some (l ++ [x]).
Proof. intros H. unfold apush. zbool. Qed.

(** Copying a whole list behind an output array. *)
Lemma push_all cap (l out : list i_arr_type) :
  zlen out + zlen l <= cap ->
  foldl (fun o e => o ← o; apush cap o e) (Some out) l = Some (out ++ l).
Proof.
  revert out. induction l as [|e l IH]; intros out H; simpl; [by rewrite app_nil_r|].
  rewrite zlen_cons in H. pose proof (zlen_nonneg l).
  rewrite apush_Some by lia. rewrite IH by (rewrite zlen_app, zlen_cons, zlen_nil; lia).
  by rewrite <- app_assoc.
Qed.

(** Close the obligations of a step of a merge. *)
Ltac close_push := try done; cbn [length iv_left iv_right]; rewrite ?zlen_cons; try lia;
  intros v; solve_mem v.
Ltac close_step z Hz Hm := exists z; split_and!;
  [done|eapply seg_lo; [|done]; lia|intros v; rewrite Hm; solve_mem v].

(** ** Intersection *)

Lemma intersect_loop_spec cap hi fuel xs ys out lx ly :
  seg lx hi xs -> seg ly hi ys ->
  (length xs + length ys < fuel)%nat ->
  zlen out + (zlen xs + zlen ys - 1) <= cap \/ xs = [] \/ ys = [] ->
  exists z, intersect_loop fuel cap xs ys out = Some (out ++ z) /\
    seg (Z.max lx ly) hi z /\ forall v, mem z v = mem xs v && mem ys v.
Proof.
  revert xs ys out lx ly. induction fuel as [|fuel IH]; intros xs ys out lx ly Hx Hy Hf Hcap; [lia|].
  destruct xs as [|x xs].
  { exists []. rewrite app_nil_r. by destruct ys. }
  destruct ys as [|y ys].
  { exists []. rewrite app_nil_r. split_and!; [done|done|]. intros v. by rewrite andb_false_r. }
  assert (zlen out + (zlen xs + zlen ys + 1) <= cap) as Hc.
  { rewrite !zlen_cons in Hcap. destruct Hcap as [?|[?|?]]; [lia|done|done]. }
  clear Hcap. pose proof (zlen_nonneg xs). pose proof (zlen_nonneg ys).
  pose proof Hx as (Hx1 & Hx2 & Hx3 & Hx4). pose proof Hy as (Hy1 & Hy2 & Hy3 & Hy4).
  assert (forall e xs' ys' lx' ly',
    seg lx' hi xs' -> seg ly' hi ys' -> (length xs' + length ys' < fuel)%nat ->
    zlen xs' + zlen ys' <= zlen xs + zlen ys + 1 ->
    Z.max lx ly <= iv_left e -> iv_left e <= iv_right e -> iv_right e <= hi ->
    iv_right e + 2 <= Z.max lx' ly' ->
    (forall v, iv_in e v || (mem xs' v && mem ys' v) = mem (x :: xs) v && mem (y :: ys) v) ->
    exists z, (out ← apush cap out e; intersect_loop fuel cap xs' ys' out) = Some (out ++ z) /\
      seg (Z.max lx ly) hi z /\ forall v, mem z v = mem (x :: xs) v && mem (y :: ys) v) as Hpush.
  { intros e xs' ys' lx' ly' Hs1 Hs2 Hf' Hlen He1 He2 He3 He4 Hm.
    rewrite apush_Some by lia. ored.
    destruct (IH xs' ys' (out ++ [e]) lx' ly' Hs1 Hs2 Hf') as (z & -> & Hz & Hzm).
    { rewrite zlen_app, zlen_cons, zlen_nil. lia. }
    exists (e :: z). rewrite <- app_assoc. split_and!; [done| |].
    - simpl. split_and!; try lia. eapply seg_lo; [|done]. lia.
    - intros v. rewrite mem_cons, Hzm. apply Hm. }
  cbn [intersect_loop]. simpl in Hf.
  destruct (Z.ltb_spec (iv_left y) (iv_left x)).
  - destruct (Z.ltb_spec (iv_right y) (iv_left x)); [|destruct (Z.leb_spec (iv_right y) (iv_right x))].
    + destruct (IH (x :: xs) ys out lx (iv_right y + 2)) as (z & -> & Hz & Hm);
        try done; [simpl; lia|rewrite zlen_cons; lia|close_step z Hz Hm].
    + apply (Hpush _ (x :: xs) ys lx (iv_right y + 2)); close_push.
    + apply (Hpush _ xs (y :: ys) (iv_right x + 2) ly); close_push.
  - destruct (Z.ltb_spec (iv_right x) (iv_left y)); [|destruct (Z.leb_spec (iv_right x) (iv_right y))].
    + destruct (IH xs (y :: ys) out (iv_right x + 2) ly) as (z & -> & Hz & Hm);
        try done; [simpl; lia|rewrite zlen_cons; lia|close_step z Hz Hm].
    + apply (Hpush _ xs (y :: ys) (iv_right x + 2) ly); close_push.
    + apply (Hpush _ (x :: xs) ys lx (iv_right y + 2)); close_push.
Qed.

Theorem intersect_iv_spec cap lo hi x y :
  seg lo hi x -> seg lo hi y -> zlen x + zlen y - 1 <= cap ->
  exists z, intersect_iv cap x y = Some (z, total z) /\ seg lo hi z /\
    forall v, mem z v = mem x v && mem y v.
Proof.
  intros Hx Hy Hcap. unfold intersect_iv.
  destruct (intersect_loop_spec cap hi (S (length x + length y)) x y [] lo lo)
    as (z & -> & Hz & Hm); try done; [lia|left; by rewrite zlen_nil|].
  simpl. rewrite findSize_total. ored. exists z. rewrite Z.max_id in Hz. by split_and!.
Qed.

(** ** Union *)

(** The first interval left ends above [r]. *)
Definition above (r : Z) (l : list i_arr_type) : Prop :=
  match l with [] => True | e :: _ => r < iv_right e end.

Lemma skip_upto_spec r lo hi l :
  seg lo hi l ->
  seg lo hi (skip_upto r l) /\ above r (skip_upto r l) /\ (length (skip_upto r l) <= length l)%nat /\
  forall v, (r < v -> mem (skip_upto r l) v = mem l v) /\ (mem (skip_upto r l) v = true -> mem l v = true).
Proof.
  revert lo. induction l as [|e l IH]; intros lo Hs; simpl; [done|].
  pose proof Hs as (H1 & H2 & H3 & H4). destruct (Z.leb_spec (iv_right e) r).
  - destruct (IH _ H4) as (Hs' & Ha & Hl & Hm). split_and!; [|done|simpl; lia|].
    + eapply seg_lo; [|done]. lia.
    + intros v. destruct (Hm v) as [Hm1 Hm2]. rewrite mem_cons. unfold iv_in. split; [intros Hv|lia].
      rewrite Hm1 by done. lia.
  - split_and!; try done; simpl; lia.
Qed.

Lemma above_seg r lo hi l :
  seg lo hi l -> above r l -> match l with [] => True | e :: _ => r + 1 < iv_left e end -> seg (r + 2) hi l.
Proof. destruct l; simpl; [done|]. intuition lia. Qed.

Lemma skip_upto_id r hi l : seg (r + 1) hi l -> skip_upto r l = l.
Proof. destruct l as [|e l]; simpl; [done|]. intros (? & ? & ?). zbool. Qed.

Lemma union_skip_one_id r hi l : seg (r + 1) hi l -> union_skip_one r l = l.
Proof. destruct l as [|e [|e' l]]; simpl; [done|done|]. intros (? & ? & ?). zbool. Qed.

Definition touch (r : Z) (e : i_arr_type) : bool := (iv_left e <=? r + 1) && (r <=? iv_right e).

(** Absorbing the first interval of one list into the piece [l .. r]. *)
Lemma absorb_mem l r hi e es fs v :
  seg l hi (e :: es) -> seg l hi fs -> touch r e = true -> l <= r ->
  (l <=? v) && (v <=? r) || mem (e :: es) v || mem fs v
  = (l <=? v) && (v <=? iv_right e) || mem es v || mem (skip_upto (iv_right e) fs) v.
Proof.
  intros (? & ? & ? & He) Hf Ht Hr. unfold touch in Ht. rewrite mem_cons. unfold iv_in.
  destruct (skip_upto_spec (iv_right e) _ _ _ Hf) as (_ & _ & _ & Hm). destruct (Hm v) as [Hm1 Hm2].
  mem_facts v. destruct (Z.le_gt_cases v (iv_right e)).
  - destruct (Z.le_gt_cases l v); lia.
  - rewrite Hm1 by lia. lia.
Qed.

Lemma union_cont_spec l hi fuel xs ys r :
  seg l hi xs -> seg l hi ys -> above r xs -> above r ys -> l <= r <= hi ->
  (length xs + length ys < fuel)%nat ->
  exists xs' ys' r', union_cont fuel xs ys r = Some (xs', ys', r') /\
    seg (r' + 2) hi xs' /\ seg (r' + 2) hi ys' /\ r <= r' <= hi /\
    (length xs' + length ys' <= length xs + length ys)%nat /\
    forall v, (l <=? v) && (v <=? r) || mem xs v || mem ys v
            = (l <=? v) && (v <=? r') || mem xs' v || mem ys' v.
Proof.
  revert xs ys r. induction fuel as [|fuel IH]; intros xs ys r Hx Hy Hax Hay Hr Hf; [lia|].
  assert (match xs with [] => True | x :: _ => touch r x = false end ->
    exists xs' ys' r', (match ys with
      | y :: ys' => if touch r y then union_cont fuel (skip_upto (iv_right y) xs) ys' (iv_right y)
                    else Some (xs, ys, r)
      | [] => Some (xs, ys, r) end) = Some (xs', ys', r') /\
    seg (r' + 2) hi xs' /\ seg (r' + 2) hi ys' /\ r <= r' <= hi /\
    (length xs' + length ys' <= length xs + length ys)%nat /\
    forall v, (l <=? v) && (v <=? r) || mem xs v || mem ys v
            = (l <=? v) && (v <=? r') || mem xs' v || mem ys' v) as Hy_branch.
  { intros Hxt. assert (seg (r + 2) hi xs) as Hx'.
    { eapply above_seg; [done..|]. destruct xs; [done|]. unfold touch in Hxt. simpl in *. lia. }
    destruct ys as [|y ys]; [|destruct (touch r y) eqn:Ht].
    - exists xs, [], r. by split_and!; try done; try lia.
    - destruct (skip_upto_spec (iv_right y) _ _ _ Hx) as (Hs & Ha & Hl & Hm).
      pose proof Hy as (Hy1 & Hy2 & Hy3 & Hy4). pose proof Ht as Ht'. unfold touch in Ht'. simpl in Hf, Hay.
      destruct (IH (skip_upto (iv_right y) xs) ys (iv_right y)) as (xs' & ys' & r' & -> & H1 & H2 & H3 & H4 & H5);
        [done|eapply seg_lo; [|done]; lia|done|destruct ys; simpl in *; [done|lia]|lia|lia|].
      exists xs', ys', r'. split_and!; try done; try lia; [simpl; lia|].
      intros v. rewrite <- H5. rewrite <- !orb_assoc, (orb_comm (mem xs v)), !orb_assoc.
      rewrite (absorb_mem l r hi y ys xs v Hy Hx Ht ltac:(lia)).
      rewrite <- !orb_assoc. f_equal. apply orb_comm.
    - exists xs, (y :: ys), r. split_and!; try done; try lia.
      eapply above_seg; [done..|]. unfold touch in Ht. simpl in Hay. lia. }
  cbn [union_cont]. destruct xs as [|x xs]; [by apply Hy_branch|].
  fold (touch r x). destruct (touch r x) eqn:Ht; [|by apply Hy_branch].
  clear Hy_branch. destruct (skip_upto_spec (iv_right x) _ _ _ Hy) as (Hs & Ha & Hl & Hm).
  pose proof Hx as (Hx1 & Hx2 & Hx3 & Hx4). simpl in Hf, Hax.
  destruct (IH xs (skip_upto (iv_right x) ys) (iv_right x)) as (xs' & ys' & r' & -> & H1 & H2 & H3 & H4 & H5);
    [eapply seg_lo; [|done]; lia|done|destruct xs; simpl in *; [done|lia]|done|lia|lia|].
  exists xs', ys', r'. split_and!; try done; try lia; [simpl; lia|].
  intros v. rewrite <- H5. apply (absorb_mem l r hi); done || lia.
Qed.

Lemma seg_join lo hi z r xs :
  seg lo r z -> r <= hi -> seg (r + 2) hi xs -> lo <= r + 2 -> seg lo hi (z ++ xs).
Proof.
  revert lo. induction z as [|e z IH]; intros lo Hz Hr Hx Hlo; simpl.
  - eapply seg_lo; [|done]. lia.
  - destruct Hz as (? & ? & ? & Hz). split_and!; try lia. apply IH; try done. lia.
Qed.

Lemma union_loop_spec cap hi fuel xs ys out r lo :
  r < lo -> seg lo hi xs -> seg lo hi ys -> (length xs + length ys < fuel)%nat ->
  zlen out + zlen xs + zlen ys <= cap ->
  exists xs' ys' r' z, union_loop fuel cap xs ys r out = Some (xs', ys', r', out ++ z) /\
    (xs' = [] \/ ys' = []) /\ seg (r' + 1) hi xs' /\ seg (r' + 1) hi ys' /\
    seg lo hi (z ++ xs' ++ ys') /\ zlen z + zlen xs' + zlen ys' <= zlen xs + zlen ys /\
    forall v, mem (z ++ xs' ++ ys') v = mem xs v || mem ys v.
Proof.
  revert xs ys out r lo. induction fuel as [|fuel IH]; intros xs ys out r lo Hr Hx Hy Hf Hcap; [lia|].
  assert (xs = [] \/ ys = [] -> exists xs' ys' r' z,
    Some (xs, ys, r, out) = Some (xs', ys', r', out ++ z) /\
    (xs' = [] \/ ys' = []) /\ seg (r' + 1) hi xs' /\ seg (r' + 1) hi ys' /\
    seg lo hi (z ++ xs' ++ ys') /\ zlen z + zlen xs' + zlen ys' <= zlen xs + zlen ys /\
    forall v, mem (z ++ xs' ++ ys') v = mem xs v || mem ys v) as Hdone.
  { intros He. exists xs, ys, r, []. rewrite app_nil_r. simpl. split_and!; try done.
    - eapply seg_lo; [|done]. lia.
    - eapply seg_lo; [|done]. lia.
    - destruct He as [->| ->]; [done|by rewrite app_nil_r].
    - apply mem_app. }
  cbn [union_loop]. destruct xs as [|x xs]; [apply Hdone; by left|].
  destruct ys as [|y ys]; [apply Hdone; by right|]. clear Hdone.
  pose proof Hx as (Hx1 & Hx2 & Hx3 & Hx4). pose proof Hy as (Hy1 & Hy2 & Hy3 & Hy4).
  rewrite !zlen_cons in Hcap. simpl in Hf. pose proof (zlen_nonneg xs). pose proof (zlen_nonneg ys).
  assert (forall l r0 xs0 ys0,
    lo <= l -> l <= r0 <= hi -> seg l hi xs0 -> seg l hi ys0 -> above r0 xs0 -> above r0 ys0 ->
    (length xs0 + length ys0 <= length xs + length ys + 1)%nat ->
    (forall v, (l <=? v) && (v <=? r0) || mem xs0 v || mem ys0 v = mem (x :: xs) v || mem (y :: ys) v) ->
    exists xs' ys' r' z,
      ('(xs, ys, r) ← union_cont (S (length xs0 + length ys0)) xs0 ys0 r0;
       let xs := skip_upto r xs in let ys := skip_upto r ys in
       out ← apush cap out (Iv l r); union_loop fuel cap xs ys r out)
      = Some (xs', ys', r', out ++ z) /\
    (xs' = [] \/ ys' = []) /\ seg (r' + 1) hi xs' /\ seg (r' + 1) hi ys' /\
    seg lo hi (z ++ xs' ++ ys') /\ zlen z + zlen xs' + zlen ys' <= zlen (x :: xs) + zlen (y :: ys) /\
    forall v, mem (z ++ xs' ++ ys') v = mem (x :: xs) v || mem (y :: ys) v) as Hstep.
  { intros l r0 xs0 ys0 Hl Hr0 Hs1 Hs2 Ha1 Ha2 Hlen Hm0.
    destruct (union_cont_spec l hi (S (length xs0 + length ys0)) xs0 ys0 r0)
      as (xs1 & ys1 & r1 & -> & H1 & H2 & H3 & H4 & H5); try done; [lia|]. ored.
    rewrite !(skip_upto_id r1 hi) by (eapply seg_lo; [|done]; lia).
    rewrite apush_Some by lia. ored.
    destruct (IH xs1 ys1 (out ++ [Iv l r1]) r1 (r1 + 2)) as (xs' & ys' & r' & z & -> & Q1 & Q2 & Q3 & Q4 & Q5 & Q6);
      [lia|done|done|lia|rewrite zlen_app, zlen_cons, zlen_nil; unfold zlen in *; lia|].
    exists xs', ys', r', (Iv l r1 :: z). rewrite <- app_assoc. split_and!; try done.
    - simpl. split_and!; try lia. done.
    - rewrite !zlen_cons. unfold zlen in *. lia.
    - intros v. rewrite <- Hm0, H5. rewrite <- app_comm_cons, mem_cons, Q6. unfold iv_in. simpl.
      by rewrite orb_assoc. }
  destruct (Z.ltb_spec (iv_left x) (iv_left y)).
  - destruct (skip_upto_spec (iv_right x) _ _ _ Hy) as (Hs & Ha & Hlen & Hm). cbn [length] in Hlen.
    assert (seg (iv_left x) hi (y :: ys)) as Hy' by (simpl; split_and!; try done; lia).
    assert (seg (iv_left x) hi (x :: xs)) as Hx' by (simpl; split_and!; try done; lia).
    apply (Hstep (iv_left x) (iv_right x)); try lia; [eapply seg_lo; [|done]; lia| | |done|].
    + eapply (skip_upto_spec (iv_right x)). done.
    + destruct xs; simpl in *; [done|lia].
    + intros v. rewrite <- (absorb_mem (iv_left x) (iv_left x) hi x xs (y :: ys) v Hx' Hy').
      * rewrite !mem_cons. unfold iv_in. lia.
      * unfold touch. lia.
      * lia.
  - destruct (skip_upto_spec (iv_right y) _ _ _ Hx) as (Hs & Ha & Hlen & Hm). cbn [length] in Hlen.
    assert (seg (iv_left y) hi (y :: ys)) as Hy' by (simpl; split_and!; try done; lia).
    assert (seg (iv_left y) hi (x :: xs)) as Hx' by (simpl; split_and!; try done; lia).
    apply (Hstep (iv_left y) (iv_right y)); try lia; [|eapply seg_lo; [|done]; lia|done| |].
    + eapply (skip_upto_spec (iv_right y)). done.
    + destruct ys; simpl in *; [done|lia].
    + intros v. pose proof (absorb_mem (iv_left y) (iv_left y) hi y ys (x :: xs) v Hy' Hx') as Hab.
      rewrite <- orb_assoc, (orb_comm (mem _ v) (mem ys v)), orb_assoc, <- Hab.
      * rewrite !mem_cons. unfold iv_in. lia.
      * unfold touch. lia.
      * lia.
Qed.

Theorem union_iv_spec cap lo hi x y :
  0 <= lo -> seg lo hi x -> seg lo hi y -> zlen x + zlen y <= cap ->
  exists z, union_iv cap x y = Some (z, total z) /\ seg lo hi z /\
    forall v, mem z v = mem x v || mem y v.
Proof.
  intros Hlo Hx Hy Hcap. unfold union_iv.
  destruct (union_loop_spec cap hi (S (length x + length y)) x y [] (-1) lo)
    as (xs' & ys' & r' & z & -> & He & H1 & H2 & H3 & H4 & H5); try done; [lia|lia|]. ored.
  rewrite !(union_skip_one_id r' hi) by done. simpl app.
  pose proof (zlen_nonneg ys').
  rewrite push_all by lia. ored. rewrite push_all by (rewrite zlen_app; lia). ored.
  rewrite findSize_total. ored. rewrite <- app_assoc. by eexists.
Qed.

(** ** Difference *)

Lemma skip_below_spec l ly hi ys :
  seg ly hi ys ->
  seg ly hi (skip_below l ys) /\ zlen (skip_below l ys) <= zlen ys /\
  match skip_below l ys with [] => True | y :: _ => l <= iv_right y end /\
  forall v, l <= v -> mem (skip_below l ys) v = mem ys v.
Proof.
  revert ly. induction ys as [|y ys IH]; intros ly Hs; cbn [skip_below]; [done|].
  pose proof Hs as (H1 & H2 & H3 & H4). destruct (Z.ltb_spec (iv_right y) l).
  - destruct (IH _ H4) as (Hs' & Hl & Hh & Hm). rewrite zlen_cons. split_and!; [|lia|done|].
    + eapply seg_lo; [|done]. lia.
    + intros v Hv. rewrite Hm by done. solve_mem v.
  - by split_and!.
Qed.

Lemma subtract_cut_spec cap hi ys l xr out :
  seg (l + 1) hi ys -> l <= xr -> zlen out + zlen ys < cap ->
  exists ys' l' z, subtract_cut cap ys l xr out = Some (ys', l', out ++ z) /\
    l <= l' <= xr /\ seg l (l' - 2) z /\ seg (l' + 1) hi ys' /\
    match ys' with [] => True | y :: _ => xr <= iv_right y end /\
    zlen z + zlen ys' = zlen ys /\
    forall v, l <= v ->
      (v <= xr -> negb (mem ys v) = mem z v || (l' <=? v) && negb (mem ys' v)) /\
      (xr < v -> mem ys v = mem ys' v).
Proof.
  revert l out. induction ys as [|y ys IH]; intros l out Hs Hl Hcap; cbn [subtract_cut].
  - exists [], l, []. rewrite app_nil_r. split_and!; try done; try lia.
    intros v Hv. rewrite mem_nil. lia.
  - pose proof Hs as (H1 & H2 & H3 & H4). rewrite zlen_cons in Hcap. pose proof (zlen_nonneg ys).
    destruct (Z.ltb_spec (iv_right y) xr).
    + rewrite apush_Some by lia. ored.
      destruct (IH (iv_right y + 1) (out ++ [Iv l (iv_left y - 1)]))
        as (ys' & l' & z & -> & Q1 & Q2 & Q3 & Q4 & Q5 & Q6);
        [by replace (iv_right y + 1 + 1) with (iv_right y + 2) by lia|lia
        |rewrite zlen_app, zlen_cons, zlen_nil; lia|].
      exists ys', l', (Iv l (iv_left y - 1) :: z). rewrite <- app_assoc. split_and!; try done; try lia.
      * cbn [seg iv_left iv_right]. split_and!; try lia. eapply seg_lo; [|done]. lia.
      * rewrite !zlen_cons. lia.
      * intros v Hv. specialize (Q6 v). rewrite !mem_cons. unfold iv_in. cbn [iv_left iv_right].
        mem_facts v. destruct (Z.le_gt_cases (iv_right y + 1) v); [|lia].
        destruct Q6 as [Q6 Q7]; [done|]. split; intros Hv'; [specialize (Q6 Hv')|specialize (Q7 Hv')]; lia.
    + exists (y :: ys), l, []. rewrite app_nil_r. split_and!; try done; try lia.
      intros v Hv. rewrite mem_nil. lia.
Qed.

(** What [subtract_loop] returns on [xs] and [ys]. *)
Definition subtract_post (lo hi : Z) (xs ys out : list i_arr_type)
    (res : option (list i_arr_type * list i_arr_type)) : Prop :=
  exists xs' z, res = Some (xs', out ++ z) /\ seg lo hi (z ++ xs') /\
    zlen z + zlen xs' <= zlen xs + zlen ys /\
    forall v, mem (z ++ xs') v = mem xs v && negb (mem ys v).

(** One interval [x] has been replaced by the pieces [p]. *)
Lemma subtract_post_step lo hi x xs ys ys' p out res :
  seg lo hi (x :: xs) -> seg (iv_left x) (iv_right x) p ->
  zlen p + zlen ys' <= zlen ys + 1 ->
  (forall v, iv_left x <= v -> v <= iv_right x -> mem p v = negb (mem ys v)) ->
  (forall v, iv_right x < v -> mem ys v = mem ys' v) ->
  subtract_post (iv_right x + 2) hi xs ys' (out ++ p) res ->
  subtract_post lo hi (x :: xs) ys out res.
Proof.
  intros (H1 & H2 & H3 & H4) Hp Hlen Hin Hafter (xs' & z & -> & Hz & Hl & Hm).
  exists xs', (p ++ z). rewrite <- !app_assoc. split_and!; [done| | |].
  - eapply seg_lo; [exact H1|]. eapply seg_join; try done; lia.
  - rewrite zlen_app, zlen_cons. lia.
  - intros v. rewrite mem_app, Hm, mem_cons. specialize (Hin v). specialize (Hafter v).
    unfold iv_in. mem_facts v.
    destruct (Z.le_gt_cases v (iv_right x)); [|rewrite Hafter by lia; lia].
    destruct (Z.le_gt_cases (iv_left x) v); [rewrite Hin by lia; lia|lia].
Qed.

Lemma subtract_loop_spec cap hi fuel xs ys out lo ly :
  seg lo hi xs -> seg ly hi ys -> (length xs < fuel)%nat ->
  zlen out + zlen xs + zlen ys <= cap ->
  subtract_post lo hi xs ys out (subtract_loop fuel cap xs ys out).
Proof.
  revert xs ys out lo ly. induction fuel as [|fuel IH]; intros xs ys out lo ly Hx Hy Hf Hcap; [lia|].
  assert (forall ys', ys' = [] -> (forall v, mem xs v = true -> mem ys v = mem ys' v) ->
    subtract_post lo hi xs ys out (Some (xs, out))) as Hdone.
  { intros ys' -> Hm. exists xs, []. rewrite app_nil_r. split_and!; try done.
    - rewrite zlen_nil. pose proof (zlen_nonneg ys). lia.
    - intros v. simpl. specialize (Hm v). rewrite mem_nil in Hm. destruct (mem xs v); [by rewrite Hm|done]. }
  cbn [subtract_loop]. destruct xs as [|x xs]; [by apply (Hdone []); [|intros v; rewrite mem_nil]|].
  destruct ys as [|y0 ys0]; [by apply (Hdone [])|].
  pose proof Hx as (Hx1 & Hx2 & Hx3 & Hx4). rewrite zlen_cons in Hcap. cbn [length] in Hf.
  destruct (skip_below_spec (iv_left x) _ _ _ Hy) as (Hs & Hl & Hh & Hm).
  destruct (skip_below (iv_left x) (y0 :: ys0)) as [|y ys] eqn:Hskip.
  { apply (Hdone []); [done|]. intros v Hv. mem_facts v. rewrite Hm; [done|].
    rewrite mem_cons in Hv. unfold iv_in in Hv. lia. }
  clear Hdone Hskip. pose proof Hs as (Hy1 & Hy2 & Hy3 & Hy4).
  rewrite !zlen_cons in *. pose proof (zlen_nonneg ys). pose proof (zlen_nonneg xs).
  assert (forall p ys' ly', seg ly' hi ys' -> seg (iv_left x) (iv_right x) p ->
    zlen p + zlen ys' <= zlen ys + 2 ->
    (forall v, iv_left x <= v -> v <= iv_right x -> mem p v = negb (mem (y :: ys) v)) ->
    (forall v, iv_right x < v -> mem (y :: ys) v = mem ys' v) ->
    subtract_post lo hi (x :: xs) (y0 :: ys0) out (subtract_loop fuel cap xs ys' (out ++ p))) as Hstep.
  { intros p ys' ly' Hys' Hp Hlen Hin Hafter. apply (subtract_post_step _ _ _ _ _ ys' p); try done.
    - rewrite zlen_cons. lia.
    - intros v ? ?. rewrite Hin by done. by rewrite Hm.
    - intros v ?. rewrite <- Hafter by done. by rewrite Hm by lia.
    - eapply IH; try done; [lia|]. rewrite zlen_app. lia. }
  assert (forall l ys1, seg (l + 1) hi ys1 -> iv_left x <= l <= iv_right x -> zlen ys1 <= zlen ys + 1 ->
    (forall v, iv_left x <= v -> v <= iv_right x -> (l <=? v) && negb (mem ys1 v) = negb (mem (y :: ys) v)) ->
    (forall v, iv_right x < v -> mem (y :: ys) v = mem ys1 v) ->
    subtract_post lo hi (x :: xs) (y0 :: ys0) out
      ('(ys, l, out) ← subtract_cut cap ys1 l (iv_right x) out;
       match ys with
       | y :: _ =>
           if iv_left y <=? iv_right x then
             out ← apush cap out (Iv l (iv_left y - 1)); subtract_loop fuel cap xs ys out
           else
             out ← apush cap out (Iv l (iv_right x)); subtract_loop fuel cap xs ys out
       | [] => out ← apush cap out (Iv l (iv_right x)); subtract_loop fuel cap xs ys out
       end)) as Hcut.
  { intros l ys1 Hs1 Hlx Hlen Hin Hafter.
    destruct (subtract_cut_spec cap hi ys1 l (iv_right x) out) as (ys' & l' & z & -> & Q1 & Q2 & Q3 & Q4 & Q5 & Q6);
      [done|lia|lia|]. ored. pose proof (zlen_nonneg ys').
    assert (forall r', l' <= r' <= iv_right x ->
      (forall v, l' <= v <= iv_right x -> (v <=? r') = negb (mem ys' v)) ->
      subtract_post lo hi (x :: xs) (y0 :: ys0) out
        (out ← apush cap (out ++ z) (Iv l' r'); subtract_loop fuel cap xs ys' out)) as Hlast.
    { intros r' Hr' Hl'. rewrite apush_Some by (rewrite zlen_app; lia). ored. rewrite <- app_assoc.
      apply (Hstep _ ys' (l' + 1)); try done.
      - eapply (seg_join _ _ _ (l' - 2)); try lia; [eapply seg_lo; [|done]; lia|simpl; lia].
      - rewrite zlen_app, zlen_cons, zlen_nil. lia.
      - intros v Hv1 Hv2. rewrite <- Hin by done. rewrite mem_app, mem_cons, mem_nil. unfold iv_in.
        cbn [iv_left iv_right]. specialize (Hl' v). specialize (Q6 v). mem_facts v. lia.
      - intros v Hv. rewrite Hafter by done. apply Q6; lia. }
    destruct ys' as [|y' ys']; [|pose proof Q3 as (? & ? & ? & ?); destruct (Z.leb_spec (iv_left y') (iv_right x))];
      apply Hlast; try lia; intros v Hv; solve_mem v. }
  destruct (Z.leb_spec (iv_left y) (iv_left x)), (Z.leb_spec (iv_right x) (iv_right y)); cbn [andb];
    try (destruct (Z.ltb_spec (iv_right x) (iv_left y))); try lia.
  - pose proof (Hstep [] (y :: ys) ly) as Hnil. rewrite app_nil_r in Hnil.
    apply Hnil; try done; [rewrite zlen_nil, zlen_cons; lia|]. intros v ? ?. solve_mem v.
  - destruct (Z.leb_spec (iv_right y) (iv_right x)); [|lia].
    destruct (Z.ltb_spec (iv_left x) (iv_left y)); [lia|].
    apply (Hcut (iv_right y + 1) ys); [by replace (iv_right y + 1 + 1) with (iv_right y + 2) by lia|lia|lia| |];
      intros v; solve_mem v.
  - rewrite apush_Some by lia; ored.
    apply (Hstep [x] (y :: ys) ly); [done|simpl; split_and!; done || lia|rewrite !zlen_cons, zlen_nil; lia| |done].
    intros v ? ?. solve_mem v.
  - rewrite apush_Some by lia; ored.
    apply (Hstep [_] (y :: ys) ly); [done|simpl; split_and!; done || lia|rewrite !zlen_cons, zlen_nil; lia| |done].
    intros v ? ?. solve_mem v.
  - destruct (Z.leb_spec (iv_right y) (iv_right x)); [|lia].
    destruct (Z.ltb_spec (iv_left x) (iv_left y)); [|lia].
    apply (Hcut (iv_left x) (y :: ys)); [simpl; split_and!; done || lia|lia|rewrite zlen_cons; lia| |];
      intros v; solve_mem v.
Qed.

Theorem subtract_iv_spec cap lo ly hi x y :
  seg lo hi x -> seg ly hi y -> zlen x + zlen y <= cap ->
  exists z, subtract_iv cap x y = Some (z, total z) /\ seg lo hi z /\
    forall v, mem z v = mem x v && negb (mem y v).
Proof.
  intros Hx Hy Hcap. unfold subtract_iv.
  destruct (subtract_loop_spec cap hi (S (length x)) x y [] lo ly) as (xs' & z & -> & H1 & H2 & H3);
    try done; [lia|]. ored.
  rewrite push_all by (simpl; lia). ored. rewrite findSize_total. ored. by eexists.
Qed.

(** ** Complement *)

(** The gaps between consecutive intervals. *)
Fixpoint gaps (x : list i_arr_type) : list i_arr_type :=
  match x with
  | a :: ((b :: _) as rest) => Iv (iv_right a + 1) (iv_left b - 1) :: gaps rest
  | _ => []
  end.

Lemma zlen_gaps a x : zlen (gaps (a :: x)) = zlen x.
Proof.
  revert a. induction x as [|b x IH]; intros a; [done|].
  change (gaps (a :: b :: x)) with (Iv (iv_right a + 1) (iv_left b - 1) :: gaps (b :: x)).
  by rewrite !zlen_cons, IH.
Qed.

Lemma gaps_spec a x hi z :
  seg (iv_left a) hi (a :: x) -> last (a :: x) = Some z -> iv_right z = hi ->
  seg (iv_right a + 1) (hi - 1) (gaps (a :: x)) /\
  forall v, mem (gaps (a :: x)) v = (iv_right a <? v) && (v <? hi) && negb (mem x v).
Proof.
  revert a. induction x as [|b x IH]; intros a Hs Hz Hr.
  - simpl in Hz. injection Hz as ->. split; [done|]. intros v. rewrite !mem_nil. lia.
  - change (gaps (a :: b :: x)) with (Iv (iv_right a + 1) (iv_left b - 1) :: gaps (b :: x)).
    destruct Hs as (? & ? & ? & Hs). pose proof Hs as (? & ? & ? & Hs').
    destruct (IH b) as [Hg Hm]; [simpl; split_and!; done || lia|done|done|]. split.
    + cbn [seg iv_left iv_right]. split_and!; try lia. eapply seg_lo; [|done]. lia.
    + intros v. rewrite !mem_cons, Hm. unfold iv_in. cbn [iv_left iv_right]. mem_facts v. lia.
Qed.

Lemma aget_gaps x i a b :
  x.[i] = Some a -> x.[i + 1] = Some b -> (gaps x).[i] = Some (Iv (iv_right a + 1) (iv_left b - 1)).
Proof.
  revert i. induction x as [|c x IH]; intros i Ha Hb.
  { apply aget_Some_inv in Ha. unfold zlen in Ha. simpl in Ha. lia. }
  destruct x as [|d x].
  { apply aget_Some_inv in Ha, Hb. unfold zlen in *. simpl in *. lia. }
  change (gaps (c :: d :: x)) with (Iv (iv_right c + 1) (iv_left d - 1) :: gaps (d :: x)).
  pose proof (aget_Some_inv _ _ _ Ha) as [Hi _].
  destruct (Z.eq_dec i 0) as [->|].
  - unfold aget in Ha, Hb. simpl in Ha, Hb. by simplify_eq.
  - rewrite aget_cons in Ha by lia. rewrite aget_cons in Hb by lia. rewrite aget_cons by lia.
    apply IH; [done|].
    by replace (i - 1 + 1) with (i + 1 - 1) by lia.
Qed.

(** The loop of [complement] writes the gaps behind the first [c] cells. *)
Lemma complement_loop x this pre :
  x <> [] -> zlen pre + (zlen x - 1) <= zlen this ->
  take (length pre) this = pre ->
  exists this',
    for_up 0 (length x - 1) (fun i '(this, c_i) =>
      a ← x.[i]; b ← x.[i + 1];
      this ← this.[c_i <- Iv (iv_right a + 1) (iv_left b - 1)];
      Some (this, c_i + 1)) (this, zlen pre) = Some (this', zlen (pre ++ gaps x)) /\
    zlen this' = zlen this /\ take (length (pre ++ gaps x)) this' = pre ++ gaps x.
Proof.
  intros Hne Hlen Hpre. destruct x as [|x0 x]; [done|]. clear Hne. rewrite zlen_cons in Hlen.
  destruct (for_up_inv (fun i '(t, c) => c = zlen pre + i /\ zlen t = zlen this /\
    take (length pre + Z.to_nat i) t = pre ++ take (Z.to_nat i) (gaps (x0 :: x)))
    0 (length (x0 :: x) - 1) (fun i '(this, c_i) =>
      a ← (x0 :: x).[i]; b ← (x0 :: x).[i + 1];
      this ← this.[c_i <- Iv (iv_right a + 1) (iv_left b - 1)];
      Some (this, c_i + 1)) (this, zlen pre)) as ([t c] & -> & -> & Ht & Htake).
  - split_and!; [lia|done|]. simpl. by rewrite Nat.add_0_r, Hpre, app_nil_r.
  - cbn [length]. intros i [t c] Hi (-> & Ht & Htake).
    destruct (aget_Some (x0 :: x) i) as [a Ha]; [rewrite zlen_cons; unfold zlen; lia|].
    destruct (aget_Some (x0 :: x) (i + 1)) as [b Hb]; [rewrite zlen_cons; unfold zlen; lia|].
    rewrite Ha, Hb. ored. rewrite aset_Some by (unfold zlen in *; lia). ored.
    eexists; split; [done|]. cbn beta. split_and!; [lia|by rewrite zlen_insert|].
    pose proof (aget_gaps _ _ _ _ Ha Hb) as Hg. apply aget_Some_inv in Hg as Hgl.
    unfold aget in Hg. rewrite (proj2 (Z.leb_le 0 i)) in Hg by lia.
    replace (Z.to_nat (i + 1)) with (S (Z.to_nat i)) by lia.
    rewrite (take_S_r _ _ _ Hg). replace (length pre + S (Z.to_nat i))%nat with (S (length pre + Z.to_nat i)) by lia.
    replace (Z.to_nat (zlen pre + i)) with (length pre + Z.to_nat i)%nat by (unfold zlen; lia).
    rewrite (take_S_r _ _ (Iv (iv_right a + 1) (iv_left b - 1))) by
      (apply list_lookup_insert_eq; unfold zlen in *; lia).
    by rewrite take_insert_ge, Htake, <- app_assoc by lia.
  - pose proof (zlen_gaps x0 x) as Hg. unfold zlen in Hg. cbn [length] in *.
    exists t. split_and!; [|done|].
    + do 2 f_equal. rewrite zlen_app, (zlen_gaps x0 x). unfold zlen. lia.
    + rewrite length_app. replace (Z.to_nat (0 + Z.of_nat (S (length x) - 1))) with (length (gaps (x0 :: x))) in Htake by lia.
      by rewrite Htake, firstn_all.
Qed.

(** The last interval bounds the list. *)
Lemma last_seg lo hi x0 x z :
  seg lo hi (x0 :: x) -> last (x0 :: x) = Some z ->
  seg lo (iv_right z) (x0 :: x) /\ iv_right x0 <= iv_right z <= hi /\ mem (x0 :: x) (iv_right z) = true.
Proof.
  revert lo x0. induction x as [|b x IH]; intros lo x0 Hs Hz.
  - injection Hz as ->. destruct Hs as (? & ? & ? & _). rewrite mem_cons. unfold iv_in.
    cbn [seg]. split_and!; try done; lia.
  - rewrite last_cons_cons in Hz. destruct Hs as (? & ? & ? & Hs).
    destruct (IH _ _ Hs Hz) as (Hs' & ? & Hm). pose proof Hs as (? & ? & ? & _).
    cbn [seg] in Hs' |- *. rewrite mem_cons, Hm. split_and!; try tauto; lia.
Qed.

Theorem complement_spec this x0 x z :
  seg 0 fd_sup (x0 :: x) -> last (x0 :: x) = Some z ->
  zlen this = zlen x + Z.b2z (0 <? iv_left x0) + Z.b2z (iv_right z <? fd_sup) ->
  exists res, complement this (x0 :: x) = Some res /\ seg 0 fd_sup res /\
    forall v, mem res v = (0 <=? v) && (v <=? fd_sup) && negb (mem (x0 :: x) v).
Proof.
  intros Hs Hz Hlen. unfold complement. change ((x0 :: x).[0]) with (Some x0). ored.
  pose proof (last_seg _ _ _ _ _ Hs Hz) as (Hs' & Hz' & Hzm).
  pose proof Hs as (H1 & H2 & H3 & H4). pose proof (zlen_nonneg x).
  set (pre := if 0 <? iv_left x0 then [Iv 0 (iv_left x0 - 1)] else []).
  assert (exists this1, (if 0 <? iv_left x0 then
      this ← this.[0 <- Iv 0 (iv_left x0 - 1)]; Some (this, 1) else Some (this, 0))
    = Some (this1, zlen pre) /\ zlen this1 = zlen this /\ take (length pre) this1 = pre) as (this1 & -> & Hl1 & Ht1).
  { subst pre. destruct (Z.ltb_spec 0 (iv_left x0)); [|by exists this].
    destruct this as [|t0 t]; [unfold zlen in *; simpl in *; lia|].
    rewrite aset_Some by (rewrite zlen_cons; pose proof (zlen_nonneg t); lia). ored. by eexists. }
  ored. assert (zlen pre = Z.b2z (0 <? iv_left x0)) as Hpre by (subst pre; by destruct (0 <? iv_left x0)).
  destruct (complement_loop (x0 :: x) this1 pre) as (this2 & -> & Hl2 & Ht2);
    [done|rewrite zlen_cons; destruct (iv_right z <? fd_sup); simpl in Hlen; lia|done|]. ored.
  assert ((x0 :: x).[zlen (x0 :: x) - 1] = Some z) as ->.
  { rewrite zlen_cons. replace (zlen x + 1 - 1) with (Z.of_nat (pred (length (x0 :: x)))) by (unfold zlen; simpl; lia).
    rewrite aget_nat, <- last_lookup. done. }
  ored. set (post := if iv_right z <? fd_sup then [Iv (iv_right z + 1) fd_sup] else []).
  exists (pre ++ gaps (x0 :: x) ++ post).
  destruct (gaps_spec x0 x (iv_right z) z) as [Hg Hm];
    [destruct Hs' as (? & ? & ? & ?); cbn [seg]; split_and!; done || lia|done..|]. split_and!.
  - assert (this2 = (pre ++ gaps (x0 :: x)) ++ drop (length (pre ++ gaps (x0 :: x))) this2) as Heq
      by (rewrite <- Ht2 at 1; by rewrite take_drop).
    pose proof (f_equal zlen Heq) as Hdl. rewrite Hl2, Hl1, Hlen, !zlen_app, zlen_gaps, Hpre in Hdl.
    set (rest := drop _ this2) in *. subst post. destruct (Z.ltb_spec (iv_right z) fd_sup).
    + destruct rest as [|r [|r' rest]]; simpl Z.b2z in Hdl; rewrite ?zlen_cons in Hdl; [unfold zlen in Hdl; simpl in Hdl; lia| |pose proof (zlen_nonneg rest); lia].
      rewrite Heq, aset_middle. by rewrite <- app_assoc.
    + destruct rest as [|r rest]; simpl Z.b2z in Hdl; [|rewrite zlen_cons in Hdl; pose proof (zlen_nonneg rest); lia].
      by rewrite Heq, !app_nil_r.
  - assert (seg (iv_right x0 + 1) fd_sup (gaps (x0 :: x) ++ post)) as Hgp.
    { subst post. destruct (Z.ltb_spec (iv_right z) fd_sup).
      - eapply (seg_join _ _ _ (iv_right z - 1)); [done|lia| |lia]. simpl. split_and!; try done; lia.
      - rewrite app_nil_r. eapply seg_hi; [|done]. lia. }
    subst pre. destruct (Z.ltb_spec 0 (iv_left x0)); simpl app.
    + cbn [seg iv_left iv_right]. split_and!; try lia. eapply seg_lo; [|done]. lia.
    + eapply seg_lo; [|done]. lia.
  - intros v. rewrite !mem_app, Hm, mem_cons. unfold iv_in.
    assert (mem pre v = (0 <=? v) && (v <? iv_left x0)) as ->.
    { subst pre. destruct (Z.ltb_spec 0 (iv_left x0)); rewrite ?mem_cons, ?mem_nil; unfold iv_in; simpl; lia. }
    assert (mem post v = (iv_right z <? v) && (v <=? fd_sup)) as ->.
    { subst post. destruct (Z.ltb_spec (iv_right z) fd_sup); rewrite ?mem_cons, ?mem_nil; unfold iv_in; simpl; lia. }
    assert (mem x v = true -> iv_right x0 + 2 <= v <= iv_right z) by
      (intros Hv; destruct Hs' as (_ & _ & _ & Hs'); by apply (mem_bounds _ _ _ _ Hs')).
    rewrite mem_cons in Hzm. unfold iv_in in Hzm.
    destruct (Z.eq_dec v (iv_right z)) as [->|]; lia.
Qed.
