(* ===== verification/FDBitVector.v ===== *)
(** * Bit vectors ([FDBitVector] of [fdomn.cc])

    An [FDBitVector] object is the list of its [high] words, each kept as its
    unsigned 32-bit value. *)
From S2P Require Import Prelude Word32 FDBase FDIntervals.

Module FDBitVector.

(** ** Operations *)

Definition currBvMaxElem (bv : list Z) : Z := 32 * zlen bv - 1.

(** [newBitVector]; the bound on [hi] is asserted. *)
Definition newBitVector `{FDEnv} (hi : Z) : option (list Z) :=
  if hi <=? word32 (fd_bv_max_elem fd_env) then Some (fresh_word <$> seqZ 0 hi) else None.

Definition isIn (bv : list Z) (i : Z) : option bool :=
  if i <=? currBvMaxElem bv then
    w ← bv.[div32 i]; Some (negb (Z.land w (shl32 1 (mod32 i)) =? 0))
  else Some false.

Definition setBit (bv : list Z) (i : Z) : option (list Z) :=
  w ← bv.[div32 i]; bv.[div32 i <- Z.lor w (shl32 1 (mod32 i))].

Definition resetBit (bv : list Z) (i : Z) : option (list Z) :=
  w ← bv.[div32 i]; bv.[div32 i <- Z.land w (not32 (shl32 1 (mod32 i)))].

Definition setEmpty (bv : list Z) : option (list Z) :=
  for_down (length bv) (fun i b => b.[i <- 0]) bv.

(** [b_arr[i] op= w]. *)
Definition or_word (bv : list Z) (i w : Z) : option (list Z) :=
  x ← bv.[i]; bv.[i <- Z.lor x w].
Definition and_word (bv : list Z) (i w : Z) : option (list Z) :=
  x ← bv.[i]; bv.[i <- Z.land x w].

Definition addFromTo (bv : list Z) (from to : Z) : option (list Z) :=
  let low_word := div32 from in let low_bit := mod32 from in
  let up_word := div32 to in let up_bit := mod32 to in
  lower ← toTheLowerEnd.[up_bit];
  upper ← toTheUpperEnd.[low_bit];
  if low_word =? up_word then or_word bv low_word (Z.land lower upper)
  else
    bv ← or_word bv low_word upper;
    bv ← for_up (low_word + 1) (Z.to_nat (up_word - (low_word + 1)))
           (fun i b => b.[i <- not32 0]) bv;
    or_word bv up_word lower.

Definition setFromTo (bv : list Z) (from to : Z) : option (list Z) :=
  let low_word := div32 from in let low_bit := mod32 from in
  let up_word := div32 to in let up_bit := mod32 to in
  bv ← for_up 0 (Z.to_nat low_word) (fun i b => b.[i <- 0]) bv;
  bv ← for_up (up_word + 1) (Z.to_nat (zlen bv - (up_word + 1))) (fun i b => b.[i <- 0]) bv;
  lower ← toTheLowerEnd.[up_bit];
  upper ← toTheUpperEnd.[low_bit];
  if low_word =? up_word then bv.[low_word <- Z.land lower upper]
  else
    bv ← bv.[low_word <- upper];
    bv ← for_up (low_word + 1) (Z.to_nat (up_word - (low_word + 1)))
           (fun i b => b.[i <- not32 0]) bv;
    bv.[up_word <- lower].

(** [operator =] and [copy]. *)
Definition assign (this bv : list Z) : option (list Z) :=
  if zlen bv <=? zlen this then Some bv else None.

Definition copy `{FDEnv} (bv : list Z) : option (list Z) :=
  this ← newBitVector (zlen bv); assign this bv.

Definition initList (bv : list Z) (ivs : list i_arr_type) : option (list Z) :=
  bv ← setEmpty bv;
  for_down (length ivs) (fun i b => e ← ivs.[i]; addFromTo b (iv_left e) (iv_right e)) bv.

Definition findSize (bv : list Z) : option Z := get_num_of_bits (zlen bv) bv.

(** [findHigh]: the vector shrinks to the words up to [max_elem]. *)
Definition findHigh (bv : list Z) (max_elem : Z) : list Z := take (Z.to_nat (word32 max_elem)) bv.

(** First non-zero word and the index of its lowest bit. *)
Fixpoint findMinElem_scan (bv : list Z) (v : Z) : option (Z * Z) :=
  match bv with
  | [] => None
  | w :: rest => if w =? 0 then findMinElem_scan rest (v + 32) else Some (w, v)
  end.

(** The binary search for the lowest set bit of a word. *)
Definition lowest_bit (word v : Z) : Z :=
  let '(word, v) := if shl32 word 16 =? 0 then (asr32 word 16, v + 16) else (word, v) in
  let '(word, v) := if shl32 word 24 =? 0 then (asr32 word 8, v + 8) else (word, v) in
  let '(word, v) := if shl32 word 28 =? 0 then (asr32 word 4, v + 4) else (word, v) in
  let '(word, v) := if shl32 word 30 =? 0 then (asr32 word 2, v + 2) else (word, v) in
  if shl32 word 31 =? 0 then v + 1 else v.

Definition findMinElem (bv : list Z) : Z :=
  match findMinElem_scan bv 0 with
  | Some (word, v) => lowest_bit word v
  | None => -1
  end.

Definition highest_bit (word v : Z) : Z :=
  let '(word, v) := if asr32 word 16 =? 0 then (shl32 word 16, v - 16) else (word, v) in
  let '(word, v) := if asr32 word 24 =? 0 then (shl32 word 8, v - 8) else (word, v) in
  let '(word, v) := if asr32 word 28 =? 0 then (shl32 word 4, v - 4) else (word, v) in
  let '(word, v) := if asr32 word 30 =? 0 then (shl32 word 2, v - 2) else (word, v) in
  if asr32 word 31 =? 0 then v - 1 else v.

(** [rev_bv] runs from the top word down, [v] from its highest bit. *)
Fixpoint findMaxElem_scan (rev_bv : list Z) (v : Z) : Z :=
  match rev_bv with
  | [] => v
  | w :: rest => if w =? 0 then findMaxElem_scan rest (v - 32) else highest_bit w v
  end.

(** [findMaxElem] also adjusts [high]: the vector and the element. *)
Definition findMaxElem (bv : list Z) : list Z * Z :=
  let v := findMaxElem_scan (reverse bv) (currBvMaxElem bv) in
  (findHigh bv v, v).

(** The four scans [for (new_v = v -/+ 1; ...; )]; [n] is the number of
    iterations left, [stop] the wanted value of [isIn]. *)
Fixpoint scan_down (bv : list Z) (stop : bool) (n : nat) (new_v : Z) : option (option Z) :=
  match n with
  | O => Some None
  | S n => b ← isIn bv new_v;
      if Bool.eqb b stop then Some (Some new_v) else scan_down bv stop n (new_v - 1)
  end.

Fixpoint scan_up (bv : list Z) (stop : bool) (n : nat) (new_v : Z) : option (option Z) :=
  match n with
  | O => Some None
  | S n => b ← isIn bv new_v;
      if Bool.eqb b stop then Some (Some new_v) else scan_up bv stop n (new_v + 1)
  end.

Definition nextSmallerElem (bv : list Z) (v min_elem : Z) : option Z :=
  r ← scan_down bv true (Z.to_nat (v - min_elem)) (v - 1);
  Some (default (-1) r).

Definition nextLargerElem (bv : list Z) (v max_elem : Z) : option Z :=
  r ← scan_up bv true (Z.to_nat (max_elem - v)) (v + 1);
  Some (default (-1) r).

Definition lowerBound (bv : list Z) (v min_elem : Z) : option Z :=
  if v =? min_elem then Some v
  else
    r ← scan_down bv false (Z.to_nat (v - min_elem)) (v - 1);
    Some match r with Some new_v => new_v + 1 | None => min_elem end.

Definition upperBound (bv : list Z) (v max_elem : Z) : option Z :=
  if v =? max_elem then Some v
  else
    r ← scan_up bv false (Z.to_nat (max_elem - v)) (v + 1);
    Some match r with Some new_v => new_v - 1 | None => max_elem end.

(** [for (; !b_arr[lw] && lw >= 0; lw--);]: the word is read before its index is tested. *)
Fixpoint mid_word_down (fuel : nat) (bv : list Z) (lw : Z) : option Z :=
  match fuel with
  | O => None
  | S fuel => w ← bv.[lw];
      if (w =? 0) && (0 <=? lw) then mid_word_down fuel bv (lw - 1) else Some lw
  end.

Fixpoint mid_word_up (fuel : nat) (bv : list Z) (uw : Z) : option Z :=
  match fuel with
  | O => None
  | S fuel => w ← bv.[uw];
      if (w =? 0) && (uw <? zlen bv) then mid_word_up fuel bv (uw + 1) else Some uw
  end.

(** [for (; lb >= 0 && !(b_arr[lw] & (1 << lb)); lb--);] *)
Fixpoint mid_bit_down (fuel : nat) (w lb : Z) : Z :=
  match fuel with
  | O => lb
  | S fuel =>
      if (0 <=? lb) && (Z.land w (shl32 1 lb) =? 0) then mid_bit_down fuel w (lb - 1) else lb
  end.

Fixpoint mid_bit_up (fuel : nat) (w ub : Z) : Z :=
  match fuel with
  | O => ub
  | S fuel =>
      if (ub <? 32) && (Z.land w (shl32 1 ub) =? 0) then mid_bit_up fuel w (ub + 1) else ub
  end.

Definition midElem (bv : list Z) (i : Z) : option Z :=
  let lb := mod32 i in let lw := div32 i in
  w ← bv.[lw];
  '(lb', lw') ←
    (if shl32 w (31 - lb) =? 0 then
       lw ← mid_word_down (S (length bv)) bv (lw - 1); Some (31, lw)
     else Some (lb, lw));
  wl ← bv.[lw'];
  let l := 32 * lw' + mid_bit_down 33 wl lb' in
  '(ub', uw') ←
    (if asr32 w lb =? 0 then
       uw ← mid_word_up (S (length bv)) bv (lw + 1); Some (0, uw)
     else Some (lb, lw));
  wu ← bv.[uw'];
  let u := 32 * uw' + mid_bit_up 33 wu ub' in
  Some (if i - l <=? u - i then l else u).

(** [mkRaw]: the runs of the vector, written to conversion arrays of [cap]
    slots; [r] records that the previous element was absent, [l] where the
    current run began. *)
Definition mkRaw (cap : Z) (bv : list Z) : option (list i_arr_type) :=
  let bvms := currBvMaxElem bv in
  '(_, _, out) ←
    for_up 0 (Z.to_nat (bvms + 2)) (fun i '(r, l, out) =>
      b ← isIn bv i;
      if (b : bool) then Some (false, (if r : bool then i else l), out)
      else if r then Some (r, l, out)
      else
        let d := i - l in
        out ← apush cap out (if d =? 1 then Iv l l else Iv l (i - 1));
        Some (true, l, out)) (true, -1, []);
  Some out.

(** [operator <=]: the new words and the new size. *)
Definition op_le (bv : list Z) (leq : Z) : option (list Z * Z) :=
  let upper_word := div32 leq in let upper_bit := mod32 leq in
  bv ← for_up (upper_word + 1) (Z.to_nat (zlen bv - (upper_word + 1))) (fun i b => b.[i <- 0]) bv;
  m ← toTheLowerEnd.[upper_bit];
  bv ← and_word bv upper_word m;
  s ← findSize bv;
  Some (bv, s).

Definition op_ge (bv : list Z) (geq : Z) : option (list Z * Z) :=
  let lower_word := div32 geq in let lower_bit := mod32 geq in
  bv ← for_up 0 (Z.to_nat lower_word) (fun i b => b.[i <- 0]) bv;
  m ← toTheUpperEnd.[lower_bit];
  bv ← and_word bv lower_word m;
  s ← findSize bv;
  Some (bv, s).

(** [this->union_bv(x, y)]. *)
Definition union_bv (this x y : list Z) : option (list Z * Z) :=
  let min_high := Z.min (zlen x) (zlen y) in
  this ← for_down (Z.to_nat min_high) (fun i b =>
    xi ← x.[i]; yi ← y.[i]; b.[i <- Z.lor xi yi]) this;
  this ← for_up min_high (Z.to_nat (zlen x - min_high)) (fun i b => xi ← x.[i]; b.[i <- xi]) this;
  let i := Z.max min_high (zlen x) in
  this ← for_up i (Z.to_nat (zlen y - i)) (fun i b => yi ← y.[i]; b.[i <- yi]) this;
  s ← findSize this;
  Some (this, s).

(** [this->intersect_bv(x, y)]: [high] becomes the smaller height. *)
Definition intersect_bv2 (this x y : list Z) : option (list Z * Z) :=
  let high := Z.min (zlen x) (zlen y) in
  this ← for_down (Z.to_nat high) (fun i b =>
    xi ← x.[i]; yi ← y.[i]; b.[i <- Z.land xi yi]) this;
  let this := take (Z.to_nat high) this in
  s ← findSize this;
  Some (this, s).

Definition intersect_bv (this y : list Z) : option (list Z * Z) :=
  let high := Z.min (zlen this) (zlen y) in
  let this := take (Z.to_nat high) this in
  this ← for_down (Z.to_nat high) (fun i b => yi ← y.[i]; and_word b i yi) this;
  s ← findSize this;
  Some (this, s).

(** [operator -=] *)
Definition op_minus (this y : list Z) : option (list Z * Z) :=
  this ← for_down (Z.to_nat (Z.min (zlen this) (zlen y))) (fun i b =>
    yi ← y.[i]; and_word b i (not32 yi)) this;
  s ← findSize this;
  Some (this, s).

Definition getAsList (cap : Z) (bv : list Z) : option OZ_Term :=
  ivs ← mkRaw cap bv; Some (term_of_intervals ivs).

(** ** Lemmas *)

Lemma words_mem_cons w ws v :
  words_mem (w :: ws) v = if v <? 32 then (0 <=? v) && Z.testbit w v else words_mem ws (v - 32).
Proof.
  unfold words_mem. pose proof (div32_mod32 v). pose proof (div32_mod32 (v - 32)).
  assert (div32 (v - 32) = div32 v - 1 /\ mod32 (v - 32) = mod32 v) as [E1 E2] by lia.
  destruct (Z.ltb_spec v 32).
  - destruct (Z.leb_spec 0 v); simpl; [|rewrite aget_None; [done|lia]].
    replace (div32 v) with 0 by lia. replace (mod32 v) with v by lia. done.
  - rewrite aget_cons by lia. by rewrite E1, E2.
Qed.

Lemma words_mem_snoc ws w v :
  words_mem (ws ++ [w]) v = if div32 v =? zlen ws then Z.testbit w (mod32 v) else words_mem ws v.
Proof.
  unfold words_mem. destruct (Z.eqb_spec (div32 v) (zlen ws)) as [->|].
  - by rewrite aget_middle.
  - destruct (Z.lt_ge_cases (div32 v) (zlen ws)); [by rewrite aget_app_l|].
    rewrite !aget_None; [done|lia|right; rewrite zlen_snoc; lia].
Qed.

(** [words_mem] of an array given cell by cell. *)
Lemma words_mem_cell ws v : words_mem ws v = Z.testbit (word_at ws (div32 v)) (mod32 v).
Proof. apply words_mem_at. Qed.

Lemma word_at_cells ws ws' (f : Z -> Z) j (c : bool) :
  zlen ws' = zlen ws -> ws'.[j] = (if c then Some (f j) else ws.[j]) ->
  word_at ws' j = if c then f j else word_at ws j.
Proof. unfold word_at. intros _ ->. by destruct c. Qed.

Lemma bv_isIn_spec bv i : Forall is_word bv -> 0 <= i -> isIn bv i = Some (words_mem bv i).
Proof.
  intros Hw Hi. unfold isIn, currBvMaxElem. pose proof (div32_mod32 i).
  destruct (Z.leb_spec i (32 * zlen bv - 1)).
  - rewrite aget_word_at by lia. ored. rewrite land_mask_eq0, negb_involutive by (try done; try lia; auto).
    by rewrite words_mem_at.
  - rewrite words_mem_out by lia. done.
Qed.

(** *** The lowest and the highest bit of a word *)

Section lowest.
Context (w0 k : Z) (Hk : Z.testbit w0 k = true) (Hlow : forall j, 0 <= j < k -> Z.testbit w0 j = false).

(** [w] shows the bits of [w0] from [d] on, and [k] is among the first [n]. *)
Let inv (n w d : Z) : Prop :=
is_word w /\ 0 <= d /\ d <= k < d + n /\ forall j, 0 <= j < n -> Z.testbit w j = Z.testbit w0 (j + d).

Lemma lowest_step s w d :
0 < s -> 2 * s <= 32 -> inv (2 * s) w d ->
(shl32 w (32 - s) =? 0) = negb (k <? d + s) /\
(if k <? d + s then inv s w d else inv s (asr32 w s) (d + s)).
Proof.
intros Hs Hs2 (Hw & Hd & Hkd & Hb).
assert ((shl32 w (32 - s) =? 0) = negb (k <? d + s)) as Ht.
{ destruct (Z.ltb_spec k (d + s)); simpl.
  - apply Z.eqb_neq. intros H0. assert (Z.testbit (shl32 w (32 - s)) (k - d + (32 - s)) = true) as H1.
    { rewrite testbit_shl32 by lia. rewrite (proj2 (Z.leb_le _ _)) by lia. simpl.
      rewrite Hb by lia. rewrite <- Hk. f_equal. lia. }
    rewrite H0, Z.bits_0 in H1. done.
  - apply Z.eqb_eq, word_eq0; [auto|]. intros j Hj. rewrite testbit_shl32 by lia.
    destruct (Z.leb_spec (32 - s) j); simpl; [|done]. rewrite Hb by lia. apply Hlow. lia. }
split; [done|]. unfold inv. destruct (Z.ltb_spec k (d + s)).
- split_and!; try done; try lia. intros j Hj. apply Hb. lia.
- split_and!; auto; try lia. intros j Hj. rewrite testbit_asr32 by (done || lia).
  rewrite Z.min_l by lia. rewrite Hb by lia. f_equal. lia.
Qed.

Ltac low_step s s' :=
  match goal with H : inv (2 * s) ?w ?d |- _ =>
    let E := fresh "E" in let H' := fresh "H" in
    destruct (lowest_step s w d ltac:(lia) ltac:(lia) H) as [E H'];
    change (32 - s) with s' in E; rewrite E; clear E H; rename H' into H;
    destruct (Z.ltb_spec k (d + s)); cbn [negb]
  end.

Lemma lowest_bit_spec v : is_word w0 -> 0 <= k < 32 -> lowest_bit w0 v = v + k.
Proof.
intros Hw Hk32. unfold lowest_bit.
assert (inv (2 * 16) w0 0) as Hinv.
{ unfold inv. split_and!; try done; try lia; [apply Hw..|]. intros j Hj. by rewrite Z.add_0_r. }
low_step 16 16; change 16 with (2 * 8) in Hinv at 1.
all: low_step 8 24; change 8 with (2 * 4) in Hinv at 1.
all: low_step 4 28; change 4 with (2 * 2) in Hinv at 1.
all: low_step 2 30; change 2 with (2 * 1) in Hinv at 1.
all: low_step 1 31; destruct Hinv as (_ & _ & ? & _); lia.
Qed.
End lowest.

Section highest.
Context (w0 k : Z) (Hk : Z.testbit w0 k = true) (Hhigh : forall j, k < j < 32 -> Z.testbit w0 j = false).

(** The top [n] bits of [w] are those of [w0] from [31 - d] down. *)
Let inv (n w d : Z) : Prop :=
is_word w /\ 0 <= d /\ d <= 31 - k < d + n /\
forall j, 0 <= j < n -> Z.testbit w (31 - j) = Z.testbit w0 (31 - j - d).

Lemma highest_step s w d :
0 < s -> 2 * s <= 32 -> inv (2 * s) w d ->
(asr32 w (32 - s) =? 0) = negb (31 - k <? d + s) /\
(if 31 - k <? d + s then inv s w d else inv s (shl32 w s) (d + s)).
Proof.
intros Hs Hs2 (Hw & Hd & Hkd & Hb).
assert ((asr32 w (32 - s) =? 0) = negb (31 - k <? d + s)) as Ht.
{ destruct (Z.ltb_spec (31 - k) (d + s)); simpl.
  - apply Z.eqb_neq. intros H0.
    assert (Z.testbit (asr32 w (32 - s)) (k + d - (32 - s)) = true) as H1.
    { rewrite testbit_asr32 by (done || lia). rewrite Z.min_l by lia.
      replace (k + d - (32 - s) + (32 - s)) with (31 - (31 - k - d)) by lia.
      rewrite Hb by lia. rewrite <- Hk. f_equal. lia. }
    rewrite H0, Z.bits_0 in H1. done.
  - apply Z.eqb_eq, word_eq0; [auto|]. intros j Hj. rewrite testbit_asr32 by (done || lia).
    replace (Z.min (j + (32 - s)) 31) with (31 - Z.max 0 (31 - (j + (32 - s)))) by lia.
    rewrite Hb by lia. apply Hhigh. lia. }
split; [done|]. unfold inv. destruct (Z.ltb_spec (31 - k) (d + s)).
- split_and!; try done; try lia. intros j Hj. apply Hb. lia.
- split_and!; auto; try lia. intros j Hj. rewrite testbit_shl32 by lia.
  rewrite (proj2 (Z.leb_le _ _)) by lia. simpl.
  replace (31 - j - s) with (31 - (j + s)) by lia. rewrite Hb by lia. f_equal. lia.
Qed.

Ltac high_step s s' :=
  match goal with H : inv (2 * s) ?w ?d |- _ =>
    let E := fresh "E" in let H' := fresh "H" in
    destruct (highest_step s w d ltac:(lia) ltac:(lia) H) as [E H'];
    change (32 - s) with s' in E; rewrite E; clear E H; rename H' into H;
    destruct (Z.ltb_spec (31 - k) (d + s)); cbn [negb]
  end.

Lemma highest_bit_spec v : is_word w0 -> 0 <= k < 32 -> highest_bit w0 v = v - 31 + k.
Proof.
intros Hw Hk32. unfold highest_bit.
assert (inv (2 * 16) w0 0) as Hinv.
{ unfold inv. split_and!; try done; try lia; [apply Hw..|]. intros j Hj. by rewrite Z.sub_0_r. }
high_step 16 16; change 16 with (2 * 8) in Hinv at 1.
all: high_step 8 24; change 8 with (2 * 4) in Hinv at 1.
all: high_step 4 28; change 4 with (2 * 2) in Hinv at 1.
all: high_step 2 30; change 2 with (2 * 1) in Hinv at 1.
all: high_step 1 31; destruct Hinv as (_ & _ & ? & _); lia.
Qed.
End highest.

Lemma words_mem_nil v : words_mem [] v = false.
Proof. apply words_mem_out. unfold zlen. simpl. lia. Qed.

(** *** Extremal elements *)

Definition is_min (P : Z -> bool) (m : Z) : Prop := P m = true /\ forall v, P v = true -> m <= v.
Definition is_max (P : Z -> bool) (m : Z) : Prop := P m = true /\ forall v, P v = true -> v <= m.

Lemma word_nonzero_lowest w : is_word w -> w <> 0 ->
  exists k, 0 <= k < 32 /\ Z.testbit w k = true /\ forall j, 0 <= j < k -> Z.testbit w j = false.
Proof.
  intros Hw Hne. destruct (first_true (Z.testbit w) 0 32) as [H|(k & ? & ? & ?)]; [|by exists k].
  destruct Hne. by apply word_eq0.
Qed.

Lemma word_nonzero_highest w : is_word w -> w <> 0 ->
  exists k, 0 <= k < 32 /\ Z.testbit w k = true /\ forall j, k < j < 32 -> Z.testbit w j = false.
Proof.
  intros Hw Hne. destruct (last_true (Z.testbit w) 0 32) as [H|(k & ? & ? & ?)]; [|by exists k].
  destruct Hne. by apply word_eq0.
Qed.

Lemma findMinElem_scan_spec bv v0 :
  Forall is_word bv ->
  match findMinElem_scan bv v0 with
  | None => forall v, words_mem bv v = false
  | Some (w, v) => is_min (words_mem bv) (lowest_bit w v - v0)
  end.
Proof.
  revert v0. induction bv as [|w bv IH]; intros v0 Hw; cbn [findMinElem_scan]; [apply words_mem_nil|].
  apply Forall_cons in Hw as [Hw0 Hw]. specialize (IH (v0 + 32) Hw).
  destruct (Z.eqb_spec w 0) as [->|Hne].
  - destruct (findMinElem_scan bv (v0 + 32)) as [[w v]|].
    + destruct IH as [H1 H2].
      assert (0 <= lowest_bit w v - (v0 + 32)) as Hpos.
      { destruct (Z.lt_ge_cases (lowest_bit w v - (v0 + 32)) 0); [|done].
        rewrite words_mem_out in H1 by lia. done. }
      split.
      * rewrite words_mem_cons. destruct (Z.ltb_spec (lowest_bit w v - v0) 32); [lia|].
        rewrite <- H1. f_equal. lia.
      * intros u. rewrite words_mem_cons, Z.bits_0, andb_false_r.
        destruct (Z.ltb_spec u 32); [done|]. intros Hu%H2. lia.
    + intros u. rewrite words_mem_cons, Z.bits_0, andb_false_r, IH. by destruct (u <? 32).
  - destruct (word_nonzero_lowest w Hw0 Hne) as (k & Hk & Hb & Hl).
    rewrite (lowest_bit_spec w k) by done. replace (v0 + k - v0) with k by lia. split.
    + rewrite words_mem_cons, Hb. destruct (Z.ltb_spec k 32); lia.
    + intros u. rewrite words_mem_cons. destruct (Z.ltb_spec u 32); [|lia].
      destruct (Z.leb_spec 0 u); simpl; [|done]. intros Hu.
      destruct (Z.lt_ge_cases u k); [|done]. rewrite Hl in Hu by lia. done.
Qed.

Lemma findMinElem_spec bv m :
  Forall is_word bv -> words_mem bv m = true -> is_min (words_mem bv) (findMinElem bv).
Proof.
  intros Hw Hm. pose proof (findMinElem_scan_spec bv 0 Hw) as H. unfold findMinElem.
  destruct (findMinElem_scan bv 0) as [[w v]|]; [by rewrite Z.sub_0_r in H|].
  by rewrite H in Hm.
Qed.

Lemma findMinElem_empty bv :
  Forall is_word bv -> (forall v, words_mem bv v = false) -> findMinElem bv = -1.
Proof.
  intros Hw Hm. pose proof (findMinElem_scan_spec bv 0 Hw) as H. unfold findMinElem.
  destruct (findMinElem_scan bv 0) as [[w v]|]; [|done]. destruct H as [H _]. by rewrite Hm in H.
Qed.

Lemma findMaxElem_scan_spec bv :
  Forall is_word bv ->
  let m := findMaxElem_scan (reverse bv) (currBvMaxElem bv) in
  (m = -1 /\ forall v, words_mem bv v = false) \/ is_max (words_mem bv) m.
Proof.
  intros Hw. simpl. induction bv as [|w bv IH] using rev_ind; [left; split; [done|apply words_mem_nil]|].
  apply Forall_app in Hw as [Hw Hw0]. apply Forall_cons in Hw0 as [Hw0 _].
  rewrite reverse_snoc. cbn [findMaxElem_scan]. unfold currBvMaxElem in *.
  rewrite zlen_snoc.
  replace (32 * (zlen bv + 1) - 1 - 32) with (32 * zlen bv - 1) by lia.
  destruct (Z.eqb_spec w 0) as [->|Hne].
  - assert (forall v, words_mem (bv ++ [0]) v = words_mem bv v) as Heq.
    { intros v. rewrite words_mem_snoc. destruct (Z.eqb_spec (div32 v) (zlen bv)); [|done].
      rewrite Z.bits_0, words_mem_out; [done|]. pose proof (div32_mod32 v). lia. }
    unfold is_max. setoid_rewrite Heq. by apply IH.
  - right. destruct (word_nonzero_highest w Hw0 Hne) as (k & Hk & Hb & Hl).
    rewrite (highest_bit_spec w k) by done.
    replace (32 * (zlen bv + 1) - 1 - 31 + k) with (32 * zlen bv + k) by lia.
    destruct (div32_word (zlen bv) k Hk) as [Ed Em]. split.
    + by rewrite words_mem_snoc, Ed, Z.eqb_refl, Em.
    + intros u. rewrite words_mem_snoc. pose proof (div32_mod32 u).
      destruct (Z.eqb_spec (div32 u) (zlen bv)).
      * intros Hu. destruct (Z.lt_ge_cases k (mod32 u)); [rewrite Hl in Hu by lia; done|lia].
      * intros Hu. destruct (Z.lt_ge_cases u (32 * zlen bv)); [lia|].
        rewrite words_mem_out in Hu by lia. done.
Qed.

Lemma words_mem_take bv n v :
  0 <= n -> words_mem (take (Z.to_nat n) bv) v = words_mem bv v && (v <? 32 * n).
Proof.
  intros Hn. unfold words_mem. pose proof (div32_mod32 v).
  destruct (Z.ltb_spec v (32 * n)).
  - rewrite aget_take by lia. by destruct (bv.[div32 v]); rewrite ?andb_true_r.
  - rewrite andb_false_r, aget_None; [done|]. right.
    unfold zlen. rewrite length_take. lia.
Qed.

Lemma findMaxElem_spec bv m :
  Forall is_word bv -> words_mem bv m = true ->
  exists bv' x, findMaxElem bv = (bv', x) /\ is_max (words_mem bv) x /\ zlen bv' = word32 x /\
    Forall is_word bv' /\ forall v, words_mem bv' v = words_mem bv v.
Proof.
  intros Hw Hm. unfold findMaxElem. pose proof (findMaxElem_scan_spec bv Hw) as H. simpl in H.
  set (x := findMaxElem_scan _ _) in *. destruct H as [[_ H]|[H1 H2]]; [by rewrite H in Hm|].
  assert (0 <= x < 32 * zlen bv) as Hx.
  { destruct (Z.lt_ge_cases x 0), (Z.lt_ge_cases x (32 * zlen bv)); try lia;
      rewrite words_mem_out in H1 by lia; done. }
  pose proof (word32_spec x ltac:(lia)) as [Hw32 Hw32']. pose proof (div32_mod32 x).
  eexists _, x. split_and!; [done|done| | |].
  - apply zlen_take. lia.
  - by apply Forall_take.
  - intros v. unfold findHigh. rewrite words_mem_take by lia.
    destruct (words_mem bv v) eqn:E; [|done]. apply H2 in E. lia.
Qed.

Lemma findMaxElem_empty bv :
  Forall is_word bv -> (forall v, words_mem bv v = false) -> findMaxElem bv = ([], -1).
Proof.
  intros Hw Hm. unfold findMaxElem. pose proof (findMaxElem_scan_spec bv Hw) as H. simpl in H.
  destruct H as [[-> _]|[H _]]; [done|by rewrite Hm in H].
Qed.

(** *** Writing *)

Lemma Forall_words l : Forall is_word l <-> forall j, 0 <= j < zlen l -> is_word (word_at l j).
Proof.
  rewrite Forall_aget. split.
  - intros H j Hj. apply (H j). by apply aget_word_at.
  - intros H i x Hx. rewrite <- (word_at_aget _ _ _ Hx). apply H. by eapply aget_Some_inv.
Qed.

Lemma word_at_upd (c : Z -> bool) (h : Z -> Z) l l' :
  (forall j, l'.[j] = if c j then Some (h j) else l.[j]) ->
  forall j, word_at l' j = if c j then h j else word_at l j.
Proof. intros H j. unfold word_at. rewrite H. by destruct (c j). Qed.

Lemma word_at_insert l i w j :
  0 <= i < zlen l -> word_at (<[Z.to_nat i := w]> l) j = if i =? j then w else word_at l j.
Proof. intros Hi. unfold word_at. rewrite aget_insert by lia. by destruct (i =? j). Qed.

Lemma testbit_not0 j : 0 <= j < 32 -> Z.testbit (not32 0) j = true.
Proof. intros Hj. by rewrite testbit_not32, Z.bits_0. Qed.

(** A store loop with a constant value. *)
Lemma fill_loop w lo n l :
  0 <= lo -> lo + Z.of_nat n <= zlen l ->
  exists l', for_up lo n (fun i b => b.[i <- w]) l = Some l' /\ zlen l' = zlen l /\
    forall j, word_at l' j = if (lo <=? j) && (j <? lo + Z.of_nat n) then w else word_at l j.
Proof.
  intros Hlo Hn. destruct (for_up_cells (fun _ => w) (fun i b => b.[i <- w]) lo n l)
    as (l' & H1 & H2 & H3); try done.
  exists l'. split_and!; try done. intros j. by rewrite (word_at_upd _ _ _ _ H3).
Qed.

(** Same, up to the exclusive bound [hi], which may lie below [lo]. *)
Lemma fill_to w lo hi l :
  0 <= lo -> hi <= zlen l ->
  exists l', for_up lo (Z.to_nat (hi - lo)) (fun i b => b.[i <- w]) l = Some l' /\ zlen l' = zlen l /\
    forall j, word_at l' j = if (lo <=? j) && (j <? hi) then w else word_at l j.
Proof.
  intros Hlo Hhi. destruct (Z.le_gt_cases hi lo).
  - exists l. replace (Z.to_nat (hi - lo)) with O by lia. split_and!; try done. intros j. zbool.
  - destruct (fill_loop w lo (Z.to_nat (hi - lo)) l) as (l' & ? & ? & H3); [done|lia|].
    exists l'. split_and!; try done. intros j. rewrite H3. by replace (lo + Z.of_nat (Z.to_nat (hi - lo))) with hi by lia.
Qed.

Lemma setEmpty_spec bv :
  exists bv', setEmpty bv = Some bv' /\ zlen bv' = zlen bv /\ Forall is_word bv' /\
    forall v, words_mem bv' v = false.
Proof.
  destruct (for_down_cells (fun _ => 0) (fun i b => b.[i <- 0]) (length bv) bv) as (l' & H1 & H2 & H3);
    [done|done|]. fold (zlen bv) in H3.
  pose proof (word_at_upd _ _ _ _ H3) as H4. exists l'. split_and!; try done.
  - apply Forall_words. intros j Hj. rewrite H4. destruct (_ && _) eqn:E; [done|lia].
  - intros v. rewrite words_mem_at, H4. destruct (_ && _) eqn:E; [by rewrite Z.bits_0|].
    rewrite word_at_out by lia. by rewrite Z.bits_0.
Qed.


Lemma or_word_Some bv i w : 0 <= i < zlen bv -> or_word bv i w = Some (<[Z.to_nat i := Z.lor (word_at bv i) w]> bv).
Proof. intros Hi. unfold or_word. rewrite aget_word_at by lia. ored. by rewrite aset_Some. Qed.
Lemma and_word_Some bv i w : 0 <= i < zlen bv -> and_word bv i w = Some (<[Z.to_nat i := Z.land (word_at bv i) w]> bv).
Proof. intros Hi. unfold and_word. rewrite aget_word_at by lia. ored. by rewrite aset_Some. Qed.

Lemma addFromTo_spec bv from to :
  Forall is_word bv -> 0 <= from -> from <= to -> to <= currBvMaxElem bv ->
  exists bv', addFromTo bv from to = Some bv' /\ zlen bv' = zlen bv /\ Forall is_word bv' /\
    forall v, words_mem bv' v = words_mem bv v || (from <=? v) && (v <=? to).
Proof.
  unfold currBvMaxElem. intros Hw Hf Hft Hto.
  pose proof (div32_mod32 from) as Df. pose proof (div32_mod32 to) as Dt. unfold addFromTo.
  destruct (toTheLowerEnd_spec (mod32 to)) as (lower & -> & Hwl & Hbl); [lia|].
  destruct (toTheUpperEnd_spec (mod32 from)) as (upper & -> & Hwu & Hbu); [lia|]. ored.
  destruct (Z.eqb_spec (div32 from) (div32 to)) as [Heq|Hne].
  - rewrite or_word_Some by lia. eexists; split; [done|]. rewrite zlen_insert. split_and!; [done| |].
    + apply Forall_insert; auto.
    + intros v. rewrite !words_mem_at, word_at_insert by lia. pose proof (div32_mod32 v).
      destruct (Z.eqb_spec (div32 from) (div32 v)) as [Ev|].
      * rewrite <- Ev, Z.lor_spec, Z.land_spec, Hbl, Hbu by lia. f_equal. lia.
      * destruct (Z.testbit _ _); simpl; [done|lia].
  - rewrite or_word_Some by lia. ored.
    destruct (fill_to (not32 0) (div32 from + 1) (div32 to) (<[Z.to_nat (div32 from) := Z.lor (word_at bv (div32 from)) upper]> bv))
      as (l' & -> & H2 & H3); [lia|rewrite zlen_insert; lia|]. ored.
    rewrite zlen_insert in H2. rewrite or_word_Some by lia. eexists; split; [done|].
    rewrite zlen_insert. split_and!; [done| |].
    + apply Forall_words. rewrite zlen_insert. intros j Hj. rewrite word_at_insert, !H3, !word_at_insert by lia.
      repeat case_match; auto.
    + intros v. rewrite !words_mem_at, word_at_insert, !H3, !word_at_insert by lia. pose proof (div32_mod32 v).
      destruct (Z.eqb_spec (div32 to) (div32 v)) as [Ev|]; [rewrite <- Ev|].
      * rewrite (proj2 (Z.ltb_ge (div32 to) (div32 to))), andb_false_r by lia.
        destruct (Z.eqb_spec (div32 from) (div32 to)); [lia|].
        rewrite Z.lor_spec, Hbl by lia. f_equal. lia.
      * destruct (Z.eqb_spec (div32 from) (div32 v)) as [Ev|].
        -- rewrite <- Ev. rewrite (proj2 (Z.leb_gt (div32 from + 1) (div32 from))) by lia. simpl.
           rewrite Z.lor_spec, Hbu by lia. f_equal. lia.
        -- destruct (_ && _) eqn:E.
           ++ rewrite testbit_not0 by lia. lia.
           ++ destruct (Z.testbit _ _); simpl; [done|lia].
Qed.

Lemma setFromTo_spec bv from to :
  0 <= from -> from <= to -> to <= currBvMaxElem bv ->
  exists bv', setFromTo bv from to = Some bv' /\ zlen bv' = zlen bv /\ Forall is_word bv' /\
    forall v, words_mem bv' v = (from <=? v) && (v <=? to).
Proof.
  unfold currBvMaxElem. intros Hf Hft Hto.
  pose proof (div32_mod32 from) as Df. pose proof (div32_mod32 to) as Dt. unfold setFromTo.
  destruct (fill_loop 0 0 (Z.to_nat (div32 from)) bv) as (l1 & -> & L1 & W1); [lia|lia|]. ored.
  destruct (fill_to 0 (div32 to + 1) (zlen l1) l1) as (l2 & -> & L2 & W2); [lia|lia|]. ored.
  destruct (toTheLowerEnd_spec (mod32 to)) as (lower & -> & Hwl & Hbl); [lia|].
  destruct (toTheUpperEnd_spec (mod32 from)) as (upper & -> & Hwu & Hbu); [lia|]. ored.
  destruct (Z.eqb_spec (div32 from) (div32 to)) as [Heq|Hne]; rewrite aset_Some by lia.
  - eexists; split; [done|]. rewrite zlen_insert. split_and!; [lia| |].
    + apply Forall_words. rewrite zlen_insert. intros j Hj. rewrite word_at_insert, W2, W1 by lia.
      ifs; auto; lia.
    + intros v. rewrite words_mem_at, word_at_insert, W2, W1 by lia. pose proof (div32_mod32 v).
      ifs; [rewrite Z.land_spec, Hbl, Hbu by lia|..]; rewrite ?Z.bits_0; try lia.
      rewrite word_at_out, Z.bits_0 by lia. lia.
  - ored. destruct (fill_to (not32 0) (div32 from + 1) (div32 to) (<[Z.to_nat (div32 from) := upper]> l2))
      as (l3 & -> & L3 & W3); [lia|rewrite zlen_insert; lia|]. ored.
    rewrite zlen_insert in L3. rewrite aset_Some by lia. eexists; split; [done|].
    rewrite zlen_insert. split_and!; [lia| |].
    + apply Forall_words. rewrite zlen_insert. intros j Hj.
      rewrite word_at_insert, W3, word_at_insert, W2, W1 by lia.
      ifs; auto; lia.
    + intros v. rewrite words_mem_at, word_at_insert, W3, word_at_insert, W2, W1 by lia.
      pose proof (div32_mod32 v).
      ifs; rewrite ?Z.bits_0, ?testbit_not0, ?Hbl, ?Hbu by lia; try lia.
      rewrite word_at_out, Z.bits_0 by lia. lia.
Qed.

Lemma setBit_spec bv i :
  Forall is_word bv -> 0 <= i <= currBvMaxElem bv ->
  exists bv', setBit bv i = Some bv' /\ zlen bv' = zlen bv /\ Forall is_word bv' /\
    forall v, words_mem bv' v = words_mem bv v || (v =? i).
Proof.
  unfold currBvMaxElem. intros Hw Hi. pose proof (div32_mod32 i) as Di. unfold setBit.
  rewrite aget_word_at by lia. ored. rewrite aset_Some by lia. eexists; split; [done|].
  rewrite zlen_insert. split_and!; [done| |].
  - apply Forall_insert; auto.
  - intros v. rewrite !words_mem_at, word_at_insert by lia. pose proof (div32_mod32 v).
    destruct (Z.eqb_spec (div32 i) (div32 v)) as [Ev|].
    + rewrite <- Ev, Z.lor_spec, testbit_mask by lia. f_equal. lia.
    + destruct (Z.testbit _ _); simpl; [done|lia].
Qed.

Lemma resetBit_spec bv i :
  Forall is_word bv -> 0 <= i <= currBvMaxElem bv ->
  exists bv', resetBit bv i = Some bv' /\ zlen bv' = zlen bv /\ Forall is_word bv' /\
    forall v, words_mem bv' v = words_mem bv v && negb (v =? i).
Proof.
  unfold currBvMaxElem. intros Hw Hi. pose proof (div32_mod32 i) as Di. unfold resetBit.
  rewrite aget_word_at by lia. ored. rewrite aset_Some by lia. eexists; split; [done|].
  rewrite zlen_insert. split_and!; [done| |].
  - apply Forall_insert; auto.
  - intros v. rewrite !words_mem_at, word_at_insert by lia. pose proof (div32_mod32 v).
    destruct (Z.eqb_spec (div32 i) (div32 v)) as [Ev|].
    + rewrite <- Ev, Z.land_spec, testbit_not32, testbit_mask by lia. do 2 f_equal. lia.
    + destruct (Z.testbit _ _); simpl; [lia|done].
Qed.

(** The set an arbitrary list of in-range intervals stands for. *)
Definition ivs_mem (ivs : list i_arr_type) (v : Z) : bool :=
  existsb (fun e => (iv_left e <=? v) && (v <=? iv_right e)) ivs.

Lemma ivs_mem_app l1 l2 v : ivs_mem (l1 ++ l2) v = ivs_mem l1 v || ivs_mem l2 v.
Proof. apply existsb_app. Qed.

Lemma bv_initList_spec bv ivs :
  Forall (fun e => 0 <= iv_left e /\ iv_left e <= iv_right e /\ iv_right e <= currBvMaxElem bv) ivs ->
  exists bv', initList bv ivs = Some bv' /\ zlen bv' = zlen bv /\ Forall is_word bv' /\
    forall v, words_mem bv' v = ivs_mem ivs v.
Proof.
  intros Hivs. unfold initList. destruct (setEmpty_spec bv) as (b0 & -> & L0 & F0 & M0). ored.
  enough (forall n b, (n <= length ivs)%nat -> zlen b = zlen bv -> Forall is_word b ->
    exists b', for_down n (fun i b => e ← ivs.[i]; addFromTo b (iv_left e) (iv_right e)) b = Some b' /\
      zlen b' = zlen bv /\ Forall is_word b' /\
      forall v, words_mem b' v = words_mem b v || ivs_mem (take n ivs) v) as H.
  { destruct (H (length ivs) b0) as (b' & -> & ? & ? & M); try done. exists b'. split_and!; try done.
    intros v. by rewrite M, M0, firstn_all. }
  induction n as [|n IH]; intros b Hn Hl Hb; cbn [for_down].
  - exists b. split_and!; try done. intros v. by rewrite orb_false_r.
  - rewrite aget_nat. destruct (lookup_lt_is_Some_2 ivs n) as [e He]; [lia|]. rewrite He. ored.
    destruct (Forall_lookup_1 _ _ _ _ Hivs He) as (? & ? & ?).
    destruct (addFromTo_spec b (iv_left e) (iv_right e)) as (b1 & -> & L1 & F1 & M1);
      [done|done|done|unfold currBvMaxElem in *; lia|]. ored.
    destruct (IH b1) as (b' & -> & ? & ? & M); [lia|lia|done|]. exists b'. split_and!; try done.
    intros v. rewrite M, M1, (take_S_r _ _ _ He), ivs_mem_app. simpl. rewrite orb_false_r, <- orb_assoc.
    f_equal. apply orb_comm.
Qed.

Lemma findSize_spec bv :
  Forall is_word bv -> findSize bv = Some (count_range (words_mem bv) 0 (Z.to_nat (32 * zlen bv))).
Proof. intros Hw. unfold findSize. apply get_num_of_bits_spec; [done|]. pose proof (zlen_nonneg bv). lia. Qed.

(** *** Constraining and combining *)

(** The number of members, as [findSize] reports it. *)
Definition bv_count (bv : list Z) : Z := count_range (words_mem bv) 0 (Z.to_nat (32 * zlen bv)).

Lemma bv_op_le_spec bv leq :
  Forall is_word bv -> 0 <= leq <= currBvMaxElem bv ->
  exists bv', op_le bv leq = Some (bv', bv_count bv') /\ zlen bv' = zlen bv /\ Forall is_word bv' /\
    forall v, words_mem bv' v = words_mem bv v && (v <=? leq).
Proof.
  unfold currBvMaxElem. intros Hw Hi. pose proof (div32_mod32 leq) as Di. unfold op_le.
  destruct (fill_to 0 (div32 leq + 1) (zlen bv) bv) as (l1 & -> & L1 & W1); [lia|lia|]. ored.
  destruct (toTheLowerEnd_spec (mod32 leq)) as (m & -> & Hwm & Hbm); [lia|]. ored.
  rewrite and_word_Some by lia. ored. set (r := <[_ := _]> l1).
  assert (zlen r = zlen bv) as Lr by (unfold r; by rewrite zlen_insert).
  assert (Forall is_word r) as Fr.
  { apply Forall_words. intros j Hj. unfold r. rewrite word_at_insert, !W1 by lia. ifs; auto. }
  rewrite findSize_spec by done. ored. exists r. split_and!; try done.
  intros v. unfold r. rewrite !words_mem_at, word_at_insert, !W1 by lia. pose proof (div32_mod32 v).
  ifs; rewrite ?Z.land_spec, ?Z.bits_0, ?Hbm by lia; try lia.
  - replace (div32 v) with (div32 leq) by lia. f_equal. lia.
  - destruct (Z.lt_ge_cases (div32 v) (zlen bv)); [|rewrite word_at_out, Z.bits_0 by lia; done].
    destruct (Z.testbit _ _); simpl; [lia|done].
Qed.

Lemma bv_op_ge_spec bv geq :
  Forall is_word bv -> 0 <= geq <= currBvMaxElem bv ->
  exists bv', op_ge bv geq = Some (bv', bv_count bv') /\ zlen bv' = zlen bv /\ Forall is_word bv' /\
    forall v, words_mem bv' v = words_mem bv v && (geq <=? v).
Proof.
  unfold currBvMaxElem. intros Hw Hi. pose proof (div32_mod32 geq) as Di. unfold op_ge.
  destruct (fill_loop 0 0 (Z.to_nat (div32 geq)) bv) as (l1 & -> & L1 & W1); [lia|lia|]. ored.
  destruct (toTheUpperEnd_spec (mod32 geq)) as (m & -> & Hwm & Hbm); [lia|]. ored.
  rewrite and_word_Some by lia. ored. set (r := <[_ := _]> l1).
  assert (zlen r = zlen bv) as Lr by (unfold r; by rewrite zlen_insert).
  assert (Forall is_word r) as Fr.
  { apply Forall_words. intros j Hj. unfold r. rewrite word_at_insert, !W1 by lia. ifs; auto. }
  rewrite findSize_spec by done. ored. exists r. split_and!; try done.
  intros v. unfold r. rewrite !words_mem_at, word_at_insert, !W1 by lia. pose proof (div32_mod32 v).
  ifs; rewrite ?Z.land_spec, ?Z.bits_0, ?Hbm by lia; try lia.
  - replace (div32 v) with (div32 geq) by lia. f_equal. lia.
  - destruct (Z.lt_ge_cases (div32 v) 0); [rewrite word_at_out, Z.bits_0 by lia; done|].
    destruct (Z.testbit _ _); simpl; [lia|done].
Qed.

Lemma union_bv_spec this x y :
  Forall is_word x -> Forall is_word y -> zlen this = Z.max (zlen x) (zlen y) ->
  exists z, union_bv this x y = Some (z, bv_count z) /\ zlen z = zlen this /\ Forall is_word z /\
    forall v, words_mem z v = words_mem x v || words_mem y v.
Proof.
  intros Hx Hy Hl. unfold union_bv. pose proof (zlen_nonneg x). pose proof (zlen_nonneg y).
  set (m := Z.min (zlen x) (zlen y)).
  destruct (for_down_cells (fun i => Z.lor (word_at x i) (word_at y i))
    (fun i b => xi ← x.[i]; yi ← y.[i]; b.[i <- Z.lor xi yi]) (Z.to_nat m) this) as (l1 & -> & L1 & C1);
    [lia|intros i a Hi _ _; by rewrite !aget_word_at by lia|]. ored.
  destruct (for_up_cells (word_at x) (fun i b => xi ← x.[i]; b.[i <- xi]) m (Z.to_nat (zlen x - m)) l1)
    as (l2 & -> & L2 & C2); [lia|lia|intros i a Hi _ _; by rewrite !aget_word_at by lia|]. ored.
  destruct (for_up_cells (word_at y) (fun i b => yi ← y.[i]; b.[i <- yi]) (Z.max m (zlen x))
    (Z.to_nat (zlen y - Z.max m (zlen x))) l2)
    as (l3 & -> & L3 & C3); [lia|lia|intros i a Hi _ _; by rewrite !aget_word_at by lia|]. ored.
  pose proof (word_at_upd _ _ _ _ C1) as W1. pose proof (word_at_upd _ _ _ _ C2) as W2.
  pose proof (word_at_upd _ _ _ _ C3) as W3. cbn beta in W1, W2, W3.
  assert (forall j, 0 <= j < zlen this -> word_at l3 j = Z.lor (word_at x j) (word_at y j)) as W.
  { intros j Hj. rewrite W3, W2, W1. ifs; try lia; first [done
      | rewrite (word_at_out x) by lia; done | rewrite (word_at_out y), Z.lor_0_r by lia; done]. }
  assert (Forall is_word l3) as F3.
  { apply Forall_words. intros j Hj. rewrite W by lia. auto. }
  rewrite findSize_spec by done. ored. exists l3. split_and!; [done|lia|done|].
  intros v. rewrite !words_mem_at.
  destruct (Z.lt_ge_cases (div32 v) 0), (Z.lt_ge_cases (div32 v) (zlen this));
    first [by rewrite W, Z.lor_spec by lia | rewrite !word_at_out, !Z.bits_0 by lia; done].
Qed.

Lemma intersect_bv2_spec this x y :
  Forall is_word x -> Forall is_word y -> zlen this = Z.min (zlen x) (zlen y) ->
  exists z, intersect_bv2 this x y = Some (z, bv_count z) /\ zlen z = zlen this /\ Forall is_word z /\
    forall v, words_mem z v = words_mem x v && words_mem y v.
Proof.
  intros Hx Hy Hl. unfold intersect_bv2. pose proof (zlen_nonneg x). pose proof (zlen_nonneg y).
  rewrite <- Hl.
  destruct (for_down_cells (fun i => Z.land (word_at x i) (word_at y i))
    (fun i b => xi ← x.[i]; yi ← y.[i]; b.[i <- Z.land xi yi]) (Z.to_nat (zlen this)) this) as (z & -> & L1 & C1);
    [lia|intros i a Hi _ _; by rewrite !aget_word_at by lia|]. ored.
  pose proof (word_at_upd _ _ _ _ C1) as W1. cbn beta in W1.
  rewrite <- L1, take_zlen.
  assert (Forall is_word z) as Fz.
  { apply Forall_words. intros j Hj. rewrite W1. ifs; [auto|lia]. }
  rewrite findSize_spec by done. ored. exists z. split_and!; [done|done|done|].
  intros v. rewrite !words_mem_at, W1. ifs; [by rewrite Z.land_spec|].
  rewrite word_at_out, Z.bits_0 by lia.
  destruct (Z.lt_ge_cases (div32 v) 0); [rewrite (word_at_out x), Z.bits_0 by lia; done|].
  destruct (Z.le_gt_cases (zlen x) (zlen y)); [rewrite (word_at_out x), Z.bits_0 by lia; done|].
  rewrite (word_at_out y), Z.bits_0 by lia. by rewrite andb_false_r.
Qed.

(** The two in-place operators: each word of [this] is masked with a word
    computed from [y]. *)
Lemma mask_loop (f : Z -> Z) this y n :
  Forall is_word this -> 0 <= n <= zlen this -> n <= zlen y ->
  (forall w, is_word w -> is_word (f w)) -> Forall is_word y ->
  exists z, for_down (Z.to_nat n) (fun i b => yi ← y.[i]; and_word b i (f yi)) this = Some z /\
    zlen z = zlen this /\ Forall is_word z /\
    forall v, words_mem z v = words_mem this v &&
      (if (0 <=? div32 v) && (div32 v <? n) then Z.testbit (f (word_at y (div32 v))) (mod32 v) else true).
Proof.
  intros Hw Hn Hny Hf Hy.
  destruct (for_down_cells (fun i => Z.land (word_at this i) (f (word_at y i)))
    (fun i b => yi ← y.[i]; and_word b i (f yi)) (Z.to_nat n) this) as (z & -> & L1 & C1); [lia| |].
  { intros i a Hi Ha Hai. rewrite aget_word_at by lia. ored. unfold and_word.
    rewrite Hai, aget_word_at by lia. done. }
  pose proof (word_at_upd _ _ _ _ C1) as W1. cbn beta in W1. rewrite Z2Nat.id in W1 by lia.
  exists z. split_and!; try done.
  - apply Forall_words. intros j Hj. rewrite W1. ifs; auto.
  - intros v. rewrite !words_mem_at, W1. ifs; [by rewrite Z.land_spec|by rewrite andb_true_r].
Qed.

Lemma intersect_bv_spec this y :
  Forall is_word this -> Forall is_word y ->
  exists z, intersect_bv this y = Some (z, bv_count z) /\ zlen z = Z.min (zlen this) (zlen y) /\
    Forall is_word z /\ forall v, words_mem z v = words_mem this v && words_mem y v.
Proof.
  intros Hw Hy. unfold intersect_bv. pose proof (zlen_nonneg this). pose proof (zlen_nonneg y).
  set (n := Z.min (zlen this) (zlen y)).
  destruct (mask_loop (fun w => w) (take (Z.to_nat n) this) y n) as (z & -> & L1 & F1 & M1);
    [by apply Forall_take|rewrite zlen_take; lia|lia|done|done|]. ored.
  rewrite zlen_take in L1 by lia.
  rewrite findSize_spec by done. ored. exists z. split_and!; try done.
  intros v. rewrite M1, words_mem_take by lia. pose proof (div32_mod32 v). ifs.
  - rewrite (words_mem_at y). rewrite (proj2 (Z.ltb_lt v (32 * n))) by lia. by rewrite andb_true_r.
  - rewrite andb_true_r. destruct (Z.lt_ge_cases (div32 v) 0); [rewrite (words_mem_out this) by lia; done|].
    rewrite (proj2 (Z.ltb_ge v (32 * n))), andb_false_r by lia.
    destruct (Z.le_gt_cases (zlen this) (zlen y)); [rewrite (words_mem_out this) by lia; done|].
    rewrite (words_mem_out y) by lia. by rewrite andb_false_r.
Qed.

Lemma bv_op_minus_spec this y :
  Forall is_word this -> Forall is_word y ->
  exists z, op_minus this y = Some (z, bv_count z) /\ zlen z = zlen this /\ Forall is_word z /\
    forall v, words_mem z v = words_mem this v && negb (words_mem y v).
Proof.
  intros Hw Hy. unfold op_minus. pose proof (zlen_nonneg this). pose proof (zlen_nonneg y).
  set (n := Z.min (zlen this) (zlen y)).
  destruct (mask_loop not32 this y n) as (z & -> & L1 & F1 & M1); [done|lia|lia|auto|done|]. ored.
  rewrite findSize_spec by done. ored. exists z. split_and!; try done.
  intros v. rewrite M1. pose proof (div32_mod32 v). ifs.
  - by rewrite (words_mem_at y), testbit_not32 by lia.
  - destruct (Z.lt_ge_cases (div32 v) 0); [rewrite (words_mem_out this) by lia; done|].
    destruct (Z.le_gt_cases (zlen this) (zlen y)); [rewrite (words_mem_out this) by lia; done|].
    rewrite (words_mem_out y) by lia. done.
Qed.

(** *** Scans *)

Lemma scan_down_spec bv stop n v :
  Forall is_word bv -> 0 <= v - Z.of_nat n + 1 ->
  match scan_down bv stop n v with
  | Some (Some r) => v - Z.of_nat n < r <= v /\ words_mem bv r = stop /\
      forall w, r < w <= v -> words_mem bv w = negb stop
  | Some None => forall w, v - Z.of_nat n < w <= v -> words_mem bv w = negb stop
  | None => False
  end.
Proof.
  intros Hw. revert v. induction n as [|n IH]; intros v Hv; cbn [scan_down]; [lia|].
  rewrite bv_isIn_spec by (done || lia). ored. destruct (Bool.eqb _ _) eqn:E.
  - apply Bool.eqb_prop in E. split_and!; try done; lia.
  - apply Bool.eqb_false_iff in E. assert (words_mem bv v = negb stop) as Hv'.
    { by destruct (words_mem bv v), stop. }
    specialize (IH (v - 1) ltac:(lia)). destruct (scan_down bv stop n (v - 1)) as [[r|]|]; [| |done].
    + destruct IH as (H1 & H2 & H3). split_and!; [lia|lia|done|]. intros w Hw'.
      destruct (Z.eq_dec w v) as [->|]; [done|apply H3; lia].
    + intros w Hw'. destruct (Z.eq_dec w v) as [->|]; [done|apply IH; lia].
Qed.

Lemma scan_up_spec bv stop n v :
  Forall is_word bv -> 0 <= v ->
  match scan_up bv stop n v with
  | Some (Some r) => v <= r < v + Z.of_nat n /\ words_mem bv r = stop /\
      forall w, v <= w < r -> words_mem bv w = negb stop
  | Some None => forall w, v <= w < v + Z.of_nat n -> words_mem bv w = negb stop
  | None => False
  end.
Proof.
  intros Hw. revert v. induction n as [|n IH]; intros v Hv; cbn [scan_up]; [lia|].
  rewrite bv_isIn_spec by (done || lia). ored. destruct (Bool.eqb _ _) eqn:E.
  - apply Bool.eqb_prop in E. split_and!; try done; lia.
  - apply Bool.eqb_false_iff in E. assert (words_mem bv v = negb stop) as Hv'.
    { by destruct (words_mem bv v), stop. }
    specialize (IH (v + 1) ltac:(lia)). destruct (scan_up bv stop n (v + 1)) as [[r|]|]; [| |done].
    + destruct IH as (H1 & H2 & H3). split_and!; [lia|lia|done|]. intros w Hw'.
      destruct (Z.eq_dec w v) as [->|]; [done|apply H3; lia].
    + intros w Hw'. destruct (Z.eq_dec w v) as [->|]; [done|apply IH; lia].
Qed.

Lemma bv_nextSmallerElem_spec bv v m :
  Forall is_word bv -> 0 <= m -> (forall w, words_mem bv w = true -> m <= w) ->
  exists r, nextSmallerElem bv v m = Some r /\ is_pred (words_mem bv) v r.
Proof.
  intros Hw Hm Hmin. unfold nextSmallerElem.
  destruct (Z.le_gt_cases v m).
  { replace (Z.to_nat (v - m)) with O by lia. simpl. eexists; split; [done|]. left.
    split; [done|]. intros w Hww%Hmin. lia. }
  pose proof (scan_down_spec bv true (Z.to_nat (v - m)) (v - 1) Hw ltac:(lia)) as H'.
  destruct (scan_down _ _ _ _) as [[r|]|]; [| |done]; ored; (eexists; split; [done|]); simpl.
  - destruct H' as (H1 & H2 & H3). right. split_and!; [done|lia|]. intros w Hww Hwv.
    destruct (Z.le_gt_cases w r); [done|]. rewrite H3 in Hww by lia. done.
  - left. split; [done|]. intros w Hww. pose proof (Hmin _ Hww).
    destruct (Z.le_gt_cases v w); [done|]. rewrite H' in Hww by lia. done.
Qed.

Lemma bv_nextLargerElem_spec bv v m :
  Forall is_word bv -> -1 <= v -> (forall w, words_mem bv w = true -> w <= m) ->
  exists r, nextLargerElem bv v m = Some r /\ is_succ (words_mem bv) v r.
Proof.
  intros Hw Hv Hmax. unfold nextLargerElem.
  pose proof (scan_up_spec bv true (Z.to_nat (m - v)) (v + 1) Hw ltac:(lia)) as H'.
  destruct (scan_up _ _ _ _) as [[r|]|]; [| |done]; ored; (eexists; split; [done|]); simpl.
  - destruct H' as (H1 & H2 & H3). right. split_and!; [done|lia|]. intros w Hww Hwv.
    destruct (Z.le_gt_cases r w); [done|]. rewrite H3 in Hww by lia. done.
  - left. split; [done|]. intros w Hww. pose proof (Hmax _ Hww).
    destruct (Z.le_gt_cases w v); [done|]. rewrite H' in Hww by lia. done.
Qed.

Lemma bv_lowerBound_spec bv v m :
  Forall is_word bv -> 0 <= m <= v -> words_mem bv v = true ->
  words_mem bv m = true -> (forall w, words_mem bv w = true -> m <= w) ->
  exists r, lowerBound bv v m = Some r /\ is_run_start (words_mem bv) v r.
Proof.
  intros Hw Hm Hv Hmm Hmin. unfold lowerBound, is_run_start.
  assert (words_mem bv (m - 1) = false) as Hm1.
  { destruct (words_mem bv (m - 1)) eqn:E; [apply Hmin in E; lia|done]. }
  destruct (Z.eqb_spec v m) as [->|].
  { eexists; split; [done|]. split_and!; [lia| |done]. intros w ?. by replace w with m by lia. }
  pose proof (scan_down_spec bv false (Z.to_nat (v - m)) (v - 1) Hw ltac:(lia)) as H'.
  destruct (scan_down _ _ _ _) as [[r|]|]; [| |done]; ored; (eexists; split; [done|]).
  - destruct H' as (H1 & H2 & H3). split_and!; [lia| |by replace (r + 1 - 1) with r by lia].
    intros w ?. destruct (Z.eq_dec w v) as [->|]; [done|]. by rewrite H3 by lia.
  - split_and!; [lia| |done]. intros w ?. destruct (Z.eq_dec w v) as [->|]; [done|].
    by rewrite H' by lia.
Qed.

Lemma bv_upperBound_spec bv v m :
  Forall is_word bv -> 0 <= v <= m -> words_mem bv v = true ->
  words_mem bv m = true -> (forall w, words_mem bv w = true -> w <= m) ->
  exists r, upperBound bv v m = Some r /\ is_run_end (words_mem bv) v r.
Proof.
  intros Hw Hm Hv Hmm Hmax. unfold upperBound, is_run_end.
  assert (words_mem bv (m + 1) = false) as Hm1.
  { destruct (words_mem bv (m + 1)) eqn:E; [apply Hmax in E; lia|done]. }
  destruct (Z.eqb_spec v m) as [->|].
  { eexists; split; [done|]. split_and!; [lia| |done]. intros w ?. by replace w with m by lia. }
  pose proof (scan_up_spec bv false (Z.to_nat (m - v)) (v + 1) Hw ltac:(lia)) as H'.
  destruct (scan_up _ _ _ _) as [[r|]|]; [| |done]; ored; (eexists; split; [done|]).
  - destruct H' as (H1 & H2 & H3). split_and!; [lia| |by replace (r - 1 + 1) with r by lia].
    intros w ?. destruct (Z.eq_dec w v) as [->|]; [done|]. by rewrite H3 by lia.
  - split_and!; [lia| |done]. intros w ?. destruct (Z.eq_dec w v) as [->|]; [done|].
    by rewrite H' by lia.
Qed.

(** *** The runs of a bit vector *)

Lemma seg_len lo hi l : FDIntervals.seg lo hi l -> l <> [] -> 2 * zlen l <= hi - lo + 2.
Proof.
  revert lo. induction l as [|e l IH]; intros lo Hs Hne; [done|]. destruct Hs as (? & ? & ? & Hs).
  rewrite zlen_cons. destruct l as [|e' l]; [unfold zlen; simpl; lia|].
  specialize (IH _ Hs ltac:(done)). lia.
Qed.

(** The state of the loop of [mkRaw] before element [i]. *)
Definition raw_inv (bv : list Z) (i : Z) (s : bool * Z * list i_arr_type) : Prop :=
  let '(r, l, out) := s in
  if r then
    FDIntervals.seg 0 (i - 2) out /\ words_mem bv (i - 1) = false /\
    forall v, FDIntervals.mem out v = words_mem bv v && (v <? i)
  else
    0 <= l < i /\ (forall w, l <= w < i -> words_mem bv w = true) /\ words_mem bv (l - 1) = false /\
    FDIntervals.seg 0 (l - 2) out /\ forall v, FDIntervals.mem out v = words_mem bv v && (v <? l).

Lemma raw_step bv cap i s :
  Forall is_word bv -> 0 <= i <= 32 * zlen bv -> 16 * zlen bv <= cap -> raw_inv bv i s ->
  exists s', (let '(r, l, out) := s in
      b ← isIn bv i;
      if (b : bool) then Some (false, (if r : bool then i else l), out)
      else if r then Some (r, l, out)
      else
        let d := i - l in
        out ← apush cap out (if d =? 1 then Iv l l else Iv l (i - 1));
        Some (true, l, out)) = Some s' /\ raw_inv bv (i + 1) s'.
Proof.
  intros Hw Hi Hcap. destruct s as [[r l] out]. unfold raw_inv.
  rewrite bv_isIn_spec by (done || lia). ored. destruct (words_mem bv i) eqn:Eb, r; simpl.
  - intros (Hs & Hp & Hm). eexists; split; [done|]. simpl. split_and!; try done; try lia.
    intros w ?. by replace w with i by lia.
  - intros (Hl & Hin & Hp & Hs & Hm). eexists; split; [done|]. simpl. split_and!; try done; try lia.
    intros w ?. destruct (Z.eq_dec w i) as [->|]; [done|apply Hin; lia].
  - intros (Hs & Hp & Hm). eexists; split; [done|]. simpl. split_and!.
    + eapply FDIntervals.seg_hi; [|done]. lia.
    + by replace (i + 1 - 1) with i by lia.
    + intros v. rewrite Hm. destruct (Z.eq_dec v i) as [->|]; [rewrite Eb; done|]. f_equal. lia.
  - intros (Hl & Hin & Hp & Hs & Hm).
    assert ((if i - l =? 1 then Iv l l else Iv l (i - 1)) = Iv l (i - 1)) as ->.
    { destruct (Z.eqb_spec (i - l) 1); [|done]. f_equal. lia. }
    assert (FDIntervals.seg 0 (i - 1) (out ++ [Iv l (i - 1)])) as Hs'.
    { apply FDIntervals.seg_app. simpl. split_and!; try done; lia. }
    pose proof (seg_len _ _ _ Hs') as Hlen. rewrite zlen_snoc in Hlen.
    specialize (Hlen ltac:(apply not_eq_sym, app_cons_not_nil)).
    unfold apush. destruct (Z.ltb_spec (zlen out) cap); [|lia]. ored.
    eexists; split; [done|]. simpl. split_and!.
    + by replace (i + 1 - 2) with (i - 1) by lia.
    + by replace (i + 1 - 1) with i by lia.
    + intros v. rewrite FDIntervals.mem_app, FDIntervals.mem_cons, FDIntervals.mem_nil, Hm.
      unfold FDIntervals.iv_in. cbn [iv_left iv_right]. specialize (Hin v).
      destruct (Z.eq_dec v i) as [->|]; [rewrite Eb; lia|].
      destruct (decide (l <= v < i)) as [Hv|Hv]; [rewrite (Hin Hv); lia|].
      destruct (words_mem bv v); lia.
Qed.

Theorem mkRaw_spec cap bv :
  Forall is_word bv -> 16 * zlen bv <= cap ->
  exists ivs, mkRaw cap bv = Some ivs /\ FDIntervals.seg 0 (currBvMaxElem bv) ivs /\
    zlen ivs <= 16 * zlen bv /\ forall v, FDIntervals.mem ivs v = words_mem bv v.
Proof.
  intros Hw Hcap. unfold mkRaw, currBvMaxElem. pose proof (zlen_nonneg bv).
  match goal with |- context [for_up 0 ?n ?f ?s] =>
    destruct (for_up_inv (raw_inv bv) 0 n f s) as ([[r l] out] & -> & Hinv) end.
  - simpl. split_and!; [done|apply words_mem_out; lia|]. intros v. rewrite FDIntervals.mem_nil.
    destruct (Z.ltb_spec v 0); [|by rewrite andb_false_r]. by rewrite words_mem_out by lia.
  - intros i s Hi HI. apply raw_step; try done; lia.
  - ored. exists out. rewrite Z2Nat.id in Hinv by lia. destruct r; simpl in Hinv.
    + destruct Hinv as (Hs & _ & Hm).
      replace (0 + (32 * zlen bv - 1 + 2) - 2) with (32 * zlen bv - 1) in Hs by lia. split_and!; try done.
      * destruct out as [|e out]; [unfold zlen in *; simpl; lia|].
        pose proof (seg_len _ _ _ Hs ltac:(done)). lia.
      * intros v. rewrite Hm. destruct (Z.lt_ge_cases v (32 * zlen bv)); [lia|].
        by rewrite words_mem_out by lia.
    + destruct Hinv as (? & Hin & _). specialize (Hin (32 * zlen bv) ltac:(lia)).
      rewrite words_mem_out in Hin by lia. done.
Qed.

(** *** The element nearest to a gap *)

Lemma mid_word_down_spec bv fuel lw j :
  0 <= j <= lw -> lw < zlen bv -> word_at bv j <> 0 -> (Z.to_nat lw < fuel)%nat ->
  exists r, mid_word_down fuel bv lw = Some r /\ j <= r <= lw /\ word_at bv r <> 0 /\
    forall w, r < w <= lw -> word_at bv w = 0.
Proof.
  intros Hj Hl Hne. revert lw Hj Hl. induction fuel as [|fuel IH]; intros lw Hj Hl Hf; [lia|].
  cbn [mid_word_down]. rewrite aget_word_at by lia. ored.
  destruct (Z.eqb_spec (word_at bv lw) 0) as [E|E]; simpl.
  - destruct (Z.leb_spec 0 lw); [|lia].
    destruct (Z.eq_dec j lw) as [->|]; [done|].
    destruct (IH (lw - 1)) as (r & -> & ? & ? & Hz); [lia|lia|lia|]. exists r. split_and!; try done; try lia.
    intros w Hw. destruct (Z.eq_dec w lw) as [->|]; [done|apply Hz; lia].
  - exists lw. split_and!; try done; lia.
Qed.

Lemma mid_word_up_spec bv fuel uw j :
  0 <= uw <= j -> j < zlen bv -> word_at bv j <> 0 -> (Z.to_nat (j - uw) < fuel)%nat ->
  exists r, mid_word_up fuel bv uw = Some r /\ uw <= r <= j /\ word_at bv r <> 0 /\
    forall w, uw <= w < r -> word_at bv w = 0.
Proof.
  intros Hj Hl Hne. revert uw Hj. induction fuel as [|fuel IH]; intros uw Hj Hf; [lia|].
  cbn [mid_word_up]. rewrite aget_word_at by lia. ored.
  destruct (Z.eqb_spec (word_at bv uw) 0) as [E|E]; simpl.
  - destruct (Z.ltb_spec uw (zlen bv)); [|lia].
    destruct (Z.eq_dec j uw) as [->|]; [done|].
    destruct (IH (uw + 1)) as (r & -> & ? & ? & Hz); [lia|lia|]. exists r. split_and!; try done; try lia.
    intros w Hw. destruct (Z.eq_dec w uw) as [->|]; [done|apply Hz; lia].
  - exists uw. split_and!; try done; lia.
Qed.

Lemma mid_bit_down_spec w fuel lb k :
  is_word w -> 0 <= k <= lb -> lb < 32 -> Z.testbit w k = true -> (Z.to_nat (lb - k) < fuel)%nat ->
  let r := mid_bit_down fuel w lb in
  k <= r <= lb /\ Z.testbit w r = true /\ forall j, r < j <= lb -> Z.testbit w j = false.
Proof.
  intros Hw Hk Hlb Hb. simpl. revert lb Hk Hlb. induction fuel as [|fuel IH]; intros lb Hk Hlb Hf; [lia|].
  cbn [mid_bit_down]. rewrite land_mask_eq0 by (done || lia).
  destruct (Z.leb_spec 0 lb); [|lia]. destruct (Z.testbit w lb) eqn:E; simpl.
  - split_and!; try done; lia.
  - destruct (Z.eq_dec k lb) as [->|]; [congruence|].
    destruct (IH (lb - 1)) as (? & ? & Hz); [lia|lia|lia|]. split_and!; try done; try lia.
    intros j Hj. destruct (Z.eq_dec j lb) as [->|]; [done|apply Hz; lia].
Qed.

Lemma mid_bit_up_spec w fuel ub k :
  is_word w -> 0 <= ub <= k -> k < 32 -> Z.testbit w k = true -> (Z.to_nat (k - ub) < fuel)%nat ->
  let r := mid_bit_up fuel w ub in
  ub <= r <= k /\ Z.testbit w r = true /\ forall j, ub <= j < r -> Z.testbit w j = false.
Proof.
  intros Hw Hk Hlb Hb. simpl. revert ub Hk. induction fuel as [|fuel IH]; intros ub Hk Hf; [lia|].
  cbn [mid_bit_up]. rewrite land_mask_eq0 by (done || lia).
  destruct (Z.ltb_spec ub 32); [|lia]. destruct (Z.testbit w ub) eqn:E; simpl.
  - split_and!; try done; lia.
  - destruct (Z.eq_dec k ub) as [->|]; [congruence|].
    destruct (IH (ub + 1)) as (? & ? & Hz); [lia|lia|]. split_and!; try done; try lia.
    intros j Hj. destruct (Z.eq_dec j ub) as [->|]; [done|apply Hz; lia].
Qed.

Lemma shl_low_eq0 w lb :
  is_word w -> 0 <= lb < 32 ->
  (shl32 w (31 - lb) =? 0) = true <-> forall j, 0 <= j <= lb -> Z.testbit w j = false.
Proof.
  intros Hw Hlb. rewrite Z.eqb_eq, word_eq0 by auto. split.
  - intros H j Hj. specialize (H (j + (31 - lb)) ltac:(lia)). rewrite testbit_shl32 in H by lia.
    destruct (Z.leb_spec (31 - lb) (j + (31 - lb))); [|lia]. rewrite <- H. simpl. f_equal. lia.
  - intros H j Hj. rewrite testbit_shl32 by lia. destruct (Z.leb_spec (31 - lb) j); simpl; [|done].
    apply H. lia.
Qed.

Lemma asr_high_eq0 w ub :
  is_word w -> 0 <= ub < 32 ->
  (asr32 w ub =? 0) = true <-> forall j, ub <= j < 32 -> Z.testbit w j = false.
Proof.
  intros Hw Hub. rewrite Z.eqb_eq, word_eq0 by auto. split.
  - intros H j Hj. specialize (H (j - ub) ltac:(lia)). rewrite testbit_asr32 in H by (done || lia).
    rewrite <- H. f_equal. lia.
  - intros H j Hj. rewrite testbit_asr32 by (done || lia). apply H. lia.
Qed.

Section mid.
Context (bv : list Z) (i : Z) (Hw : Forall is_word bv) (Hi : 0 <= i < 32 * zlen bv).
Local Abbreviation P := (words_mem bv).

Lemma word_at_nonzero a : P a = true -> 0 <= div32 a < zlen bv /\ word_at bv (div32 a) <> 0 .
Proof using.
intros Ha. split.
- destruct (decide (0 <= div32 a < zlen bv)); [done|]. 
  pose proof (div32_mod32 a). rewrite words_mem_out in Ha by lia. done.
- intros E.  by rewrite words_mem_at, E, Z.bits_0 in Ha.
Qed.

(** The first non-zero word below (above) and its top (bottom) bit. *)
Lemma mid_low a : P a = true -> a <= i ->
exists lb lw wl,
  (if shl32 (word_at bv (div32 i)) (31 - mod32 i) =? 0 then
     lw ← mid_word_down (S (length bv)) bv (div32 i - 1); Some (31, lw)
   else Some (mod32 i, div32 i)) = Some (lb, lw) /\ bv.[lw] = Some wl /\
  P (32 * lw + mid_bit_down 33 wl lb) = true /\ 32 * lw + mid_bit_down 33 wl lb <= i /\
  forall w, 32 * lw + mid_bit_down 33 wl lb < w <= i -> P w = false.
Proof using Hi Hw.
intros Ha Hai. pose proof (div32_mod32 i). pose proof (div32_mod32 a).
destruct (word_at_nonzero a Ha) as [Hda Hne].
pose proof (is_word_at bv (div32 i) Hw) as Hwi.
assert (P a = Z.testbit (word_at bv (div32 a)) (mod32 a)) as Ea by apply words_mem_at.
destruct (shl32 _ _ =? 0) eqn:E.
- rewrite shl_low_eq0 in E by (done || lia).
  assert (div32 a < div32 i).
  { destruct (Z.eq_dec (div32 a) (div32 i)) as [Ed|]; [|lia].
    rewrite Ed, (E (mod32 a)) in Ea by lia. congruence. }
  destruct (mid_word_down_spec bv (S (length bv)) (div32 i - 1) (div32 a)) as (r & -> & Hr & Hnz & Hz);
    [lia|lia|done|unfold zlen in *; lia|]. ored.
  exists 31, r, (word_at bv r). rewrite aget_word_at by lia.
  pose proof (is_word_at bv r Hw) as Hwr.
  destruct (first_true (fun k => Z.testbit (word_at bv r) k) 0 32) as [Hno|(k & Hk & Hbk & _)].
  { exfalso. apply Hnz. by apply word_eq0. }
  destruct (mid_bit_down_spec (word_at bv r) 33 31 k) as (Hb1 & Hb2 & Hb3); try done; try lia.
  split_and!; try done; try lia.
  + rewrite words_mem_word by lia. rewrite aget_word_at by lia. done.
  + intros w Hw'. rewrite words_mem_at. pose proof (div32_mod32 w).
    destruct (Z.eq_dec (div32 w) (div32 i)) as [Ed|]; [rewrite Ed; apply E; lia|].
    destruct (Z.eq_dec (div32 w) r) as [Ed|]; [rewrite Ed; apply Hb3; lia|].
    rewrite Hz by lia. apply Z.bits_0.
- assert (exists k, 0 <= k <= mod32 i /\ Z.testbit (word_at bv (div32 i)) k = true) as (k & Hk & Hbk).
  { destruct (first_true (fun k => Z.testbit (word_at bv (div32 i)) k) 0 (Z.to_nat (mod32 i + 1)))
      as [Hno|(k & Hk & Hbk & _)]; [|exists k; split; [lia|done]].
    exfalso. rewrite (proj2 (shl_low_eq0 _ (mod32 i) Hwi ltac:(lia))) in E; [done|]. intros j Hj. apply Hno. lia. }
  exists (mod32 i), (div32 i), (word_at bv (div32 i)).
  destruct (mid_bit_down_spec (word_at bv (div32 i)) 33 (mod32 i) k) as (Hb1 & Hb2 & Hb3);
    try done; try lia.
  split_and!; [done|apply aget_word_at; lia| |lia|].
  + rewrite words_mem_word by lia. rewrite aget_word_at by lia. done.
  + intros w Hw'. rewrite words_mem_at. pose proof (div32_mod32 w).
    replace (div32 w) with (div32 i) by lia. apply Hb3. lia.
Qed.

Lemma mid_high a : P a = true -> i <= a ->
exists ub uw wu,
  (if asr32 (word_at bv (div32 i)) (mod32 i) =? 0 then
     uw ← mid_word_up (S (length bv)) bv (div32 i + 1); Some (0, uw)
   else Some (mod32 i, div32 i)) = Some (ub, uw) /\ bv.[uw] = Some wu /\
  P (32 * uw + mid_bit_up 33 wu ub) = true /\ i <= 32 * uw + mid_bit_up 33 wu ub /\
  forall w, i <= w < 32 * uw + mid_bit_up 33 wu ub -> P w = false.
Proof using Hi Hw.
intros Ha Hai. pose proof (div32_mod32 i). pose proof (div32_mod32 a).
destruct (word_at_nonzero a Ha) as [Hda Hne].
pose proof (is_word_at bv (div32 i) Hw) as Hwi.
assert (P a = Z.testbit (word_at bv (div32 a)) (mod32 a)) as Ea by apply words_mem_at.
destruct (asr32 _ _ =? 0) eqn:E.
- rewrite asr_high_eq0 in E by (done || lia).
  assert (div32 i < div32 a).
  { destruct (Z.eq_dec (div32 a) (div32 i)) as [Ed|]; [|lia].
    rewrite Ed, (E (mod32 a)) in Ea by lia. congruence. }
  destruct (mid_word_up_spec bv (S (length bv)) (div32 i + 1) (div32 a)) as (r & -> & Hr & Hnz & Hz);
    [lia|lia|done|unfold zlen in *; lia|]. ored.
  exists 0, r, (word_at bv r). rewrite aget_word_at by lia.
  pose proof (is_word_at bv r Hw) as Hwr.
  destruct (first_true (fun k => Z.testbit (word_at bv r) k) 0 32) as [Hno|(k & Hk & Hbk & _)].
  { exfalso. apply Hnz. by apply word_eq0. }
  destruct (mid_bit_up_spec (word_at bv r) 33 0 k) as (Hb1 & Hb2 & Hb3); try done; try lia.
  split_and!; try done; try lia.
  + rewrite words_mem_word by lia. rewrite aget_word_at by lia. done.
  + intros w Hw'. rewrite words_mem_at. pose proof (div32_mod32 w).
    destruct (Z.eq_dec (div32 w) (div32 i)) as [Ed|]; [rewrite Ed; apply E; lia|].
    destruct (Z.eq_dec (div32 w) r) as [Ed|]; [rewrite Ed; apply Hb3; lia|].
    rewrite Hz by lia. apply Z.bits_0.
- assert (exists k, mod32 i <= k < 32 /\ Z.testbit (word_at bv (div32 i)) k = true) as (k & Hk & Hbk).
  { destruct (first_true (fun k => Z.testbit (word_at bv (div32 i)) k) (mod32 i) (Z.to_nat (32 - mod32 i)))
      as [Hno|(k & Hk & Hbk & _)]; [|exists k; split; [lia|done]].
    exfalso. rewrite (proj2 (asr_high_eq0 _ (mod32 i) Hwi ltac:(lia))) in E; [done|]. intros j Hj. apply Hno. lia. }
  exists (mod32 i), (div32 i), (word_at bv (div32 i)).
  destruct (mid_bit_up_spec (word_at bv (div32 i)) 33 (mod32 i) k) as (Hb1 & Hb2 & Hb3);
    try done; try lia.
  split_and!; [done|apply aget_word_at; lia| |lia|].
  + rewrite words_mem_word by lia. rewrite aget_word_at by lia. done.
  + intros w Hw'. rewrite words_mem_at. pose proof (div32_mod32 w).
    replace (div32 w) with (div32 i) by lia. apply Hb3. lia.
Qed.

Theorem bv_midElem_spec :
(exists a, P a = true /\ a <= i) -> (exists b, P b = true /\ i <= b) ->
exists r, midElem bv i = Some r /\ is_nearest P i r.
Proof using Hi Hw.
intros (a & Ha & Hai) (b & Hb & Hib). pose proof (div32_mod32 i).
destruct (mid_low a Ha Hai) as (lb & lw & wl & El & Ewl & Pl & Ll & Nl).
destruct (mid_high b Hb Hib) as (ub & uw & wu & Eu & Ewu & Pu & Lu & Nu).
unfold midElem. rewrite aget_word_at by lia. ored. rewrite El. ored. rewrite Ewl. ored.
rewrite Eu. ored. rewrite Ewu. ored. eexists; split; [done|].
set (l := 32 * lw + _) in *. set (u := 32 * uw + _) in *. clearbody l u.
destruct (Z.leb_spec (i - l) (u - i)); (split; [done|]); intros w Hwm;
  specialize (Nl w); specialize (Nu w); destruct (Z.le_gt_cases w i);
  destruct (Z.lt_ge_cases l w); destruct (Z.lt_ge_cases w u); try lia;
  rewrite ?Nl, ?Nu in Hwm by lia; done.
Qed.
End mid.

End FDBitVector.
