(* ===== verification/Sort.v ===== *)
(** * Sorting ([sort.hh])

    The array sorts of [src/platform/emulator/sort.hh]: in-place exchange, insertion
    sort with its sentinel, median-of-three quicksort with an explicit stack of
    [QuickSortStack_maxsize] segments, and [fastsort], which combines them.
    The template parameter [lt] is a parameter of the section.  The sorts commute with maps ([SortMap]). *)
From S2P Require Import Prelude.

(** What the algorithms ask of the functor object [lt]. *)
Class StrictWeakOrder {A} (lt : A -> A -> bool) := {
  lt_asym x y : lt x y = true -> lt y x = false;
  le_trans' x y z : lt y x = false -> lt z y = false -> lt z x = false
}.

Module Sort.
Section operations.
Context {A : Type} (lt : A -> A -> bool).

Definition sort_swap (x : list A) (i j : Z) : option (list A) :=
  a ← x.[i]; b ← x.[j]; x ← x.[i <- b]; x.[j <- a].

Definition sort_exchange (x : list A) (i j : Z) : option (list A) :=
  a ← x.[i]; b ← x.[j];
  if lt b a then sort_swap x i j else Some x.

Definition QuickSortCutoff : Z := 10.
Definition QuickSortStack_maxsize : Z := 32.

(** [QuickSortStack]: the stacked segments, the top first. *)
Definition QuickSortStack := list (Z * Z).

Definition push (s : QuickSortStack) (l r : Z) : option QuickSortStack :=
  if zlen s <? QuickSortStack_maxsize then Some ((l, r) :: s) else None.

(** [while (lt(v,x[j-1])) { x[j] = x[j-1]; j--; } x[j] = v;] *)
Fixpoint insertion_shift (fuel : nat) (x : list A) (v : A) (j : Z) : option (list A) :=
  match fuel with
  | O => None
  | S fuel =>
      y ← x.[j - 1];
      if lt v y then x ← x.[j <- y]; insertion_shift fuel x v (j - 1)
      else x.[j <- v]
  end.

Definition insertion (x : list A) (l r : Z) : option (list A) :=
  x ← for_up 0 (Z.to_nat (r - l)) (fun k x => let i := r - k in sort_exchange x (i - 1) i) x;
  for_up (l + 2) (Z.to_nat (r - l - 1)) (fun i x =>
    v ← x.[i]; insertion_shift (S (length x)) x v i) x.

(** [while (lt(x[++i],v));] *)
Fixpoint partition_up (fuel : nat) (x : list A) (v : A) (i : Z) : option Z :=
  match fuel with
  | O => None
  | S fuel => y ← x.[i + 1]; if lt y v then partition_up fuel x v (i + 1) else Some (i + 1)
  end.

(** [while (lt(v,x[--j])) if (j == l) break;] *)
Fixpoint partition_down (fuel : nat) (x : list A) (v : A) (l j : Z) : option Z :=
  match fuel with
  | O => None
  | S fuel =>
      y ← x.[j - 1];
      if lt v y then
        if j - 1 =? l then Some (j - 1) else partition_down fuel x v l (j - 1)
      else Some (j - 1)
  end.

Fixpoint partition_loop (fuel : nat) (x : list A) (v : A) (l i j : Z) : option (list A * Z) :=
  match fuel with
  | O => None
  | S fuel =>
      i ← partition_up (S (length x)) x v i;
      j ← partition_down (S (length x)) x v l j;
      if j <=? i then Some (x, i)
      else x ← sort_swap x i j; partition_loop fuel x v l i j
  end.

Definition partition (x : list A) (l r : Z) : option (list A * Z) :=
  v ← x.[r];
  '(x, i) ← partition_loop (S (length x)) x v l (l - 1) r;
  x ← sort_swap x i r;
  Some (x, i).

(** The loop of [quicksort] from the label [nopush] on. *)
Fixpoint quicksort_loop (fuel : nat) (x : list A) (l r : Z) (s : QuickSortStack) : option (list A) :=
  match fuel with
  | O => None
  | S fuel =>
      if r - l <=? QuickSortCutoff then
        match s with
        | [] => Some x
        | (l, r) :: s => quicksort_loop fuel x l r s
        end
      else
        x ← sort_swap x ((l + r) ÷ 2) (r - 1);
        x ← sort_exchange x l (r - 1);
        x ← sort_exchange x l r;
        x ← sort_exchange x (r - 1) r;
        '(x, i) ← partition x (l + 1) (r - 1);
        if r - i <? i - l then
          s ← push s l (i - 1); quicksort_loop fuel x (i + 1) r s
        else
          s ← push s (i + 1) r; quicksort_loop fuel x l (i - 1) s
  end.

Definition quicksort (x : list A) (l r : Z) : option (list A) :=
  s ← push [] l r;
  match s with
  | (l, r) :: s => quicksort_loop (2 * Z.to_nat (r - l + 1) + 2) x l r s
  | [] => Some x
  end.

Definition fastsort (x : list A) (n : Z) : option (list A) :=
  if n <? 2 then Some x
  else
    x ← (if QuickSortCutoff <? n then quicksort x 0 (n - 1) else Some x);
    insertion x 0 (n - 1).
End operations.

(** ** Exchanges *)

Section lemmas.
Context {A : Type} (lt : A -> A -> bool).
Implicit Types (x : list A).

(** [x'] has the elements of [x] in another order. *)
Definition shuffles x x' : Prop := x' ≡ₚ x /\ zlen x' = zlen x.

#[local] Instance shuffles_preorder : PreOrder shuffles.
Proof. split; [done|]. intros x y z [H1 E1] [H2 E2]. split; [by rewrite H2|congruence]. Qed.

(** The array after the cells [i] and [j] were exchanged. *)
Definition swapped x i j x' : Prop :=
  shuffles x x' /\ forall k, x'.[k] = if k =? i then x.[j] else if k =? j then x.[i] else x.[k].

Lemma sort_swap_spec x i j :
  0 <= i < zlen x -> 0 <= j < zlen x ->
  exists x', sort_swap x i j = Some x' /\ swapped x i j x'.
Proof.
  intros Hi Hj. destruct (aget_Some x i Hi) as [a Ha], (aget_Some x j Hj) as [b Hb].
  unfold sort_swap. rewrite Ha, Hb. ored. rewrite aset_Some by done. ored.
  rewrite aset_Some by by rewrite zlen_insert. eexists; split; [done|]. split.
  - split; [|by rewrite !zlen_insert]. apply Permutation_insert_swap; by apply aget_lookup.
  - intros k. rewrite !aget_insert by (rewrite ?zlen_insert; done). rewrite Ha, Hb.
    destruct (Z.eqb_spec j k), (Z.eqb_spec i k), (Z.eqb_spec k i), (Z.eqb_spec k j);
      subst; congruence.
Qed.

Context `{!StrictWeakOrder lt}.

Lemma lt_irrefl a : lt a a = false.
Proof. destruct (lt a a) eqn:E; [|done]. rewrite <- E. by apply lt_asym. Qed.

Lemma sort_exchange_spec x i j a b :
  x.[i] = Some a -> x.[j] = Some b -> i <> j ->
  exists x' a' b', sort_exchange lt x i j = Some x' /\ shuffles x x' /\
    x'.[i] = Some a' /\ x'.[j] = Some b' /\ lt b' a' = false /\ lt b a' = false /\
    (forall k, k <> i -> k <> j -> x'.[k] = x.[k]).
Proof.
  intros Ha Hb Hne. unfold sort_exchange. rewrite Ha, Hb. ored. destruct (lt b a) eqn:E.
  - destruct (sort_swap_spec x i j) as (x' & -> & Hp & Hk); [by eapply aget_Some_inv..|].
    exists x', b, a. split_and!; try done.
    + rewrite Hk, Z.eqb_refl. done.
    + rewrite Hk, Z.eqb_refl. destruct (Z.eqb_spec j i); [lia|done].
    + by apply lt_asym.
    + apply lt_irrefl.
    + intros k ??. rewrite Hk. destruct (Z.eqb_spec k i), (Z.eqb_spec k j); congruence.
  - exists x, a, b. done.
Qed.

(** ** Insertion sort *)

Definition cell_le x i j : Prop := forall a b, x.[i] = Some a -> x.[j] = Some b -> lt b a = false.
Definition sorted_cells x l r : Prop := forall i j, l <= i -> i <= j -> j <= r -> cell_le x i j.
Definition same_outside x x' l r : Prop := forall k, k < l \/ r < k -> x'.[k] = x.[k].

(** The array with a hole at [j] into which [v] belongs, [l < j <= i]. *)
Definition hole_inv x0 x v l i j : Prop :=
  zlen x = zlen x0 /\ <[Z.to_nat j := v]> x ≡ₚ x0 /\
  (forall p q, l <= p -> p < q -> q <= i -> p <> j -> q <> j -> cell_le x p q) /\
  (forall q a, j < q <= i -> x.[q] = Some a -> lt a v = false) /\
  (forall a, x.[l] = Some a -> lt v a = false) /\
  (forall k, k < l \/ i < k -> x.[k] = x0.[k]) .

Lemma insertion_shift_spec fuel x0 x v l i j :
  0 <= l -> l < j <= i -> i < zlen x0 -> (Z.to_nat (j - l) < fuel)%nat -> hole_inv x0 x v l i j ->
  exists x', insertion_shift lt fuel x v j = Some x' /\ shuffles x0 x' /\
    sorted_cells x' l i /\ x'.[l] = x.[l] /\ same_outside x0 x' l i.
Proof.
  intros Hl Hj Hi. revert x j Hj. induction fuel as [|fuel IH]; intros x j Hj Hf; [lia|].
  intros (Hlen & Hp & Hs & Hv & Hmin & Hout). cbn [insertion_shift].
  destruct (aget_Some x (j - 1)) as [y Hy]; [lia|]. rewrite Hy. ored. destruct (lt v y) eqn:E.
  - assert (j - 1 <> l) by (intros <-; rewrite (Hmin y Hy) in E; done).
    rewrite aset_Some by lia. ored.
    destruct (IH (<[Z.to_nat j := y]> x) (j - 1)) as (x' & -> & ? & ? & Hl' & ?); [lia|lia| |].
    + unfold hole_inv. rewrite zlen_insert. split_and!; try done.
      * rewrite <- Hp. etransitivity;
          [|apply (Permutation_insert_swap _ (Z.to_nat (j - 1)) (Z.to_nat j) y v)].
        -- rewrite (list_insert_insert_ne x (Z.to_nat (j - 1)) (Z.to_nat j) v v) by lia.
           rewrite list_insert_insert_eq. by rewrite list_insert_insert_ne by lia.
        -- rewrite list_lookup_insert_ne by lia. by apply aget_lookup.
        -- apply list_lookup_insert_eq. unfold zlen in *. lia.
      * intros p q ????? a b. rewrite !aget_insert by lia.
        destruct (Z.eqb_spec j p), (Z.eqb_spec j q); intros; simplify_eq; try lia.
        -- by eapply (Hs (p - 1) q); try done; lia.
        -- by eapply (Hs p (q - 1)); try done; lia.
        -- by eapply (Hs p q); try done; lia.
      * intros q a ?. rewrite aget_insert by lia. destruct (Z.eqb_spec j q).
        -- intros [= <-]. by apply lt_asym.
        -- apply Hv. lia.
      * intros a. rewrite aget_insert by lia. destruct (Z.eqb_spec j l); [lia|]. apply Hmin.
      * intros k ?. rewrite aget_insert by lia. destruct (Z.eqb_spec j k); [lia|]. by apply Hout.
    + exists x'. split_and!; try done. rewrite Hl', aget_insert by lia. by destruct (Z.eqb_spec j l); [lia|].
  - rewrite aset_Some by lia. eexists; split; [done|]. split_and!.
    + split; [done|]. by rewrite zlen_insert.
    + intros p q ??? a b. rewrite !aget_insert by lia.
      destruct (Z.eqb_spec j p), (Z.eqb_spec j q); intros; simplify_eq; try lia.
      * apply lt_irrefl.
      * eapply Hv; [|done]. lia.
      * destruct (Z.eq_dec p (q - 1)) as [->|]; [congruence|].
        eapply le_trans'; [|exact E]. eapply (Hs p (q - 1)); try done; lia.
      * destruct (Z.eq_dec p q) as [->|]; [|by eapply (Hs p q); try done; lia].
        simplify_eq. apply lt_irrefl.
    + rewrite aget_insert by lia. by destruct (Z.eqb_spec j l); [lia|].
    + intros k ?. rewrite aget_insert by lia. destruct (Z.eqb_spec j k); [lia|]. by apply Hout.
Qed.

Lemma insertion_spec x l r :
  0 <= l <= r -> r < zlen x ->
  exists x', insertion lt x l r = Some x' /\ shuffles x x' /\ sorted_cells x' l r /\
    same_outside x x' l r.
Proof.
  intros Hl Hr. unfold insertion.
  match goal with |- context [for_up 0 ?n ?f ?s] =>
    destruct (for_up_inv (fun k x' => shuffles x x' /\ same_outside x x' l r /\
      forall m, r - k <= m <= r -> cell_le x' (r - k) m) 0 n f s) as (x1 & -> & Hp1 & Ho1 & Hmin) end.
  - split_and!; [done..|]. intros m ? a b Ha Hb. replace m with (r - 0) in Hb by lia.
    simplify_eq. apply lt_irrefl.
  - intros k x1 Hk (Hp1 & Ho1 & Hm). destruct Hp1 as [Hp1 Hlen].
    destruct (aget_Some x1 (r - k - 1)) as [a Ha]; [lia|]. destruct (aget_Some x1 (r - k)) as [b Hb]; [lia|].
    destruct (sort_exchange_spec x1 (r - k - 1) (r - k) a b) as
      (x2 & a' & b' & -> & [Hp2 Hl2] & Ha' & Hb' & E & E' & Ho2); [done..|lia|].
    exists x2. split_and!; [done|split; [by rewrite Hp2|congruence]| |].
    + intros j Hj. rewrite Ho2 by lia. by apply Ho1.
    + intros m Hm' c d. replace (r - (k + 1)) with (r - k - 1) by lia. rewrite Ha'. intros [= <-] Hd.
      destruct (Z.eq_dec m (r - k - 1)) as [->|]; [simplify_eq; apply lt_irrefl|].
      destruct (Z.eq_dec m (r - k)) as [->|]; [congruence|].
      rewrite Ho2 in Hd by lia. eapply le_trans'; [exact E'|]. by eapply (Hm m); [lia|..].
  - ored. replace (r - (0 + Z.of_nat (Z.to_nat (r - l)))) with l in Hmin by lia.
    match goal with |- context [for_up ?lo ?n ?f ?s] =>
      destruct (for_up_inv (fun i x' => shuffles x x' /\ same_outside x x' l r /\
        sorted_cells x' l (Z.min r (i - 1)) /\ forall m, l <= m <= r -> cell_le x' l m) lo n f s)
        as (x2 & -> & Hp2 & Ho2 & Hs2 & _) end.
    + split_and!; try done. intros i j ??? c d Hc Hd.
      destruct (Z.eq_dec i j) as [->|]; [simplify_eq; apply lt_irrefl|].
      eapply (Hmin j); [lia| |done]. by replace l with i by lia.
    + intros i x2 Hi (Hp2 & Ho2 & Hs2 & Hm2). pose proof Hp2 as [Hq2 Hl2].
      destruct (aget_Some x2 i) as [v Hv]; [lia|]. rewrite Hv. ored.
      destruct (insertion_shift_spec (S (length x2)) x2 x2 v l i i) as (x3 & -> & Hp3 & Hs3 & Hl3 & Ho3);
        [lia|lia|lia|unfold zlen in *; lia| |].
      * unfold hole_inv. split_and!; [done| | | | |done].
        -- by rewrite list_insert_id by by apply aget_lookup.
        -- intros p q ?????. apply Hs2; lia.
        -- lia.
        -- intros a Ha. eapply (Hm2 i); [lia|done..].
      * exists x3. split_and!; [done|by transitivity x2| | |].
        -- intros k Hk. rewrite Ho3 by lia. by apply Ho2.
        -- replace (Z.min r (i + 1 - 1)) with i by lia. done.
        -- intros m Hm c d Hc Hd. destruct (Z.le_gt_cases m i); [eapply (Hs3 l m); try done; lia|].
           rewrite Ho3 in Hd by lia. rewrite Hl3 in Hc. by eapply (Hm2 m).
    + exists x2. split_and!; try done. by replace (Z.min r _) with r in Hs2 by lia.
Qed.

(** ** Partition *)

(** The cells [l..r] that are known not to exceed (not to precede) the pivot. *)
Definition all_le x v l r : Prop := forall k a, l <= k <= r -> x.[k] = Some a -> lt v a = false.
Definition all_ge x v l r : Prop := forall k a, l <= k <= r -> x.[k] = Some a -> lt a v = false.

Lemma partition_up_spec fuel x v i b c :
  0 <= i + 1 -> i < b -> x.[b] = Some c -> lt c v = false -> (Z.to_nat (b - i) < fuel + 1)%nat ->
  exists i' y, partition_up lt fuel x v i = Some i' /\ i < i' <= b /\ x.[i'] = Some y /\
    lt y v = false /\ all_le x v (i + 1) (i' - 1).
Proof.
  intros Hi Hb Hc Hcv. pose proof (aget_Some_inv _ _ _ Hc). revert i Hi Hb.
  induction fuel as [|fuel IH]; intros i Hi Hb Hf; [lia|]. cbn [partition_up].
  destruct (aget_Some x (i + 1)) as [y Hy]; [lia|]. rewrite Hy. ored. destruct (lt y v) eqn:E.
  - destruct (Z.eq_dec (i + 1) b) as [Eb|]; [rewrite Eb in Hy; congruence|].
    destruct (IH (i + 1)) as (i' & z & -> & ? & ? & ? & Hle); [lia..|].
    exists i', z. split_and!; try done; try lia. intros k a Hk Ha.
    destruct (Z.eq_dec k (i + 1)) as [->|]; [|eapply Hle; [|done]; lia].
    simplify_eq. by apply lt_asym.
  - exists (i + 1), y. split_and!; try done; try lia. intros k a Hk. lia.
Qed.

Lemma partition_down_spec fuel x v l j :
  0 <= l < j -> j <= zlen x -> (Z.to_nat (j - l) < fuel + 1)%nat ->
  exists j', partition_down lt fuel x v l j = Some j' /\ l <= j' < j /\
    (j' = l \/ all_le x v j' j') /\ all_ge x v (j' + 1) (j - 1).
Proof.
  revert j. induction fuel as [|fuel IH]; intros j Hl Hj Hf; [lia|]. cbn [partition_down].
  destruct (aget_Some x (j - 1)) as [y Hy]; [lia|]. rewrite Hy. ored. destruct (lt v y) eqn:E.
  - destruct (Z.eqb_spec (j - 1) l).
    { exists (j - 1). split_and!; try done; try lia. intros k a Hk. lia. }
    destruct (IH (j - 1)) as (j' & -> & ? & ? & Hge); [lia..|].
    exists j'. split_and!; try done; try lia. intros k a Hk Ha.
    destruct (Z.eq_dec k (j - 1)) as [->|]; [|eapply Hge; [|done]; lia].
    simplify_eq. by apply lt_asym.
  - exists (j - 1). split_and!; try done; try lia.
    + right. intros k a Hk. replace k with (j - 1) by lia. rewrite Hy. by intros [= <-].
    + intros k a Hk. lia.
Qed.

Lemma partition_loop_spec fuel x0 x v l r i j :
  0 <= l -> l - 1 <= i < j -> j <= r -> r < zlen x -> l < j -> (Z.to_nat (j - i) < fuel)%nat ->
  shuffles x0 x -> same_outside x0 x l (r - 1) -> x.[r] = Some v ->
  all_le x v l i -> all_ge x v j r ->
  exists x' i', partition_loop lt fuel x v l i j = Some (x', i') /\ l <= i' <= r /\
    shuffles x0 x' /\ same_outside x0 x' l (r - 1) /\ x'.[r] = Some v /\
    all_le x' v l (i' - 1) /\ all_ge x' v i' r.
Proof.
  intros Hl. revert x i j. induction fuel as [|fuel IH]; intros x i j Hi Hj Hr Hlj Hf Hp Ho Hv Hle Hge; [lia|].
  cbn [partition_loop]. destruct (aget_Some x j) as [c Hc]; [lia|].
  assert (lt c v = false) as Hcv by (eapply (Hge j); [lia|done]).
  destruct (partition_up_spec (S (length x)) x v i j c) as (i' & y & -> & Hi' & Hy & Hyv & Hle');
    [lia|lia|done|done|unfold zlen in *; lia|]. ored.
  destruct (partition_down_spec (S (length x)) x v l j) as (j' & -> & Hj' & Hjl & Hge');
    [lia|lia|unfold zlen in *; lia|]. ored.
  destruct (Z.leb_spec j' i').
  - exists x, i'. split_and!; try done; try lia.
    + intros k a Hk Ha. destruct (Z.le_gt_cases k i); [eapply (Hle k)|eapply (Hle' k)]; try done; lia.
    + intros k a Hk Ha. destruct (Z.eq_dec k i') as [->|]; [congruence|].
      destruct (Z.le_gt_cases j k); [eapply (Hge k)|eapply (Hge' k)]; try done; lia.
  - destruct Hjl as [->|Hjl]; [lia|].
    destruct (sort_swap_spec x i' j') as (x' & -> & Hp' & Hk'); [lia|lia|]. ored.
    assert (zlen x' = zlen x) as Hlen by apply Hp'.
    destruct (IH x' i' j') as (x2 & i2 & -> & ?); try lia.
    + by transitivity x.
    + intros k Hk. rewrite Hk'. destruct (Z.eqb_spec k i'), (Z.eqb_spec k j'); try lia. by apply Ho.
    + rewrite Hk'. by destruct (Z.eqb_spec r i'), (Z.eqb_spec r j'); try lia.
    + intros k a Hk. rewrite Hk'. destruct (Z.eqb_spec k i') as [->|]; [apply Hjl; lia|].
      destruct (Z.eqb_spec k j'); [lia|]. intros Ha.
      destruct (Z.le_gt_cases k i); [eapply (Hle k)|eapply (Hle' k)]; try done; lia.
    + intros k a Hk. rewrite Hk'. destruct (Z.eqb_spec k i') as [->|]; [lia|].
      destruct (Z.eqb_spec k j') as [->|]; [congruence|]. intros Ha.
      destruct (Z.le_gt_cases j k); [eapply (Hge k)|eapply (Hge' k)]; try done; lia.
    + by exists x2, i2.
Qed.

Lemma partition_spec x l r :
  0 <= l < r -> r < zlen x ->
  exists x' i v, partition lt x l r = Some (x', i) /\ l <= i <= r /\ shuffles x x' /\
    same_outside x x' l r /\ x.[r] = Some v /\ x'.[i] = Some v /\
    all_le x' v l (i - 1) /\ all_ge x' v (i + 1) r.
Proof.
  intros Hl Hr. unfold partition. destruct (aget_Some x r) as [v Hv]; [lia|]. rewrite Hv. ored.
  destruct (partition_loop_spec (S (length x)) x x v l r (l - 1) r)
    as (x1 & i & -> & Hi & Hp & Ho & Hv1 & Hle & Hge); try done; try lia.
  { unfold zlen in *. lia. }
  { intros k a Hk. lia. }
  { intros k a Hk. replace k with r by lia. rewrite Hv. intros [= <-]. apply lt_irrefl. }
  ored. assert (zlen x1 = zlen x) by apply Hp.
  destruct (sort_swap_spec x1 i r) as (x' & -> & Hp' & Hk'); [lia|lia|]. ored.
  exists x', i, v. split_and!; try done; try lia.
  - by transitivity x1.
  - intros k Hk. rewrite Hk'. destruct (Z.eqb_spec k i), (Z.eqb_spec k r); try lia. apply Ho. lia.
  - by rewrite Hk', Z.eqb_refl.
  - intros k a Hk. rewrite Hk'. destruct (Z.eqb_spec k i), (Z.eqb_spec k r); try lia. apply Hle. lia.
  - intros k a Hk. rewrite Hk'. destruct (Z.eqb_spec k i); [lia|].
    destruct (Z.eqb_spec k r); apply Hge; lia.
Qed.

(** ** Quicksort

    The larger part is stacked and the smaller one processed first, so the
    segment stacked at depth [d] has at most [n / 2^d] cells. *)

Definition seg_len (s : Z * Z) : Z := s.2 - s.1 + 1.
Definition seg_at (lo hi n d : Z) (s : Z * Z) : Prop :=
  lo <= s.1 /\ s.2 <= hi /\ 0 <= seg_len s /\ seg_len s * 2 ^ d <= n.
Fixpoint stack_ok (lo hi n : Z) (s : QuickSortStack) : Prop :=
  match s with [] => True | e :: s => seg_at lo hi n (zlen s) e /\ stack_ok lo hi n s end.
Fixpoint stack_work (s : QuickSortStack) : Z :=
  match s with [] => 0 | e :: s => 2 * seg_len e + 1 + stack_work s end.

Lemma push_Some lo hi n s l r l' r' :
  stack_ok lo hi n s -> seg_at lo hi n (zlen s) (l, r) -> n <= 2 ^ 31 -> QuickSortCutoff < r - l ->
  push s l' r' = Some ((l', r') :: s).
Proof.
  unfold push, seg_at, seg_len, QuickSortCutoff, QuickSortStack_maxsize. simpl.
  intros _ (_ & _ & _ & Hd) Hn Hl. destruct (Z.ltb_spec (zlen s) 32); [done|].
  assert (2 ^ 32 <= 2 ^ zlen s) by (apply Z.pow_le_mono_r; lia). nia.
Qed.

(** [sort_exchange] leaves the two values, the smaller one first. *)
Lemma sort_exchange_values x i j a b :
  x.[i] = Some a -> x.[j] = Some b -> i <> j ->
  exists x' a' b', sort_exchange lt x i j = Some x' /\ shuffles x x' /\
    x'.[i] = Some a' /\ x'.[j] = Some b' /\ lt b' a' = false /\
    ((a' = a /\ b' = b) \/ (a' = b /\ b' = a)) /\ (forall k, k <> i -> k <> j -> x'.[k] = x.[k]).
Proof.
  intros Ha Hb Hne. unfold sort_exchange. rewrite Ha, Hb. ored. destruct (lt b a) eqn:E.
  - destruct (sort_swap_spec x i j) as (x' & -> & Hp & Hk); [by eapply aget_Some_inv..|].
    exists x', b, a. split_and!; try done; try (by right).
    + rewrite Hk, Z.eqb_refl. done.
    + rewrite Hk, Z.eqb_refl. destruct (Z.eqb_spec j i); [lia|done].
    + by apply lt_asym.
    + intros k ??. rewrite Hk. destruct (Z.eqb_spec k i), (Z.eqb_spec k j); congruence.
  - exists x, a, b. split_and!; try done. by left.
Qed.

(** The three exchanges order the cells [l], [r-1] and [r]. *)
Lemma median_of_three x l r :
  0 <= l -> l < r - 1 -> r < zlen x ->
  exists x' a b c, (x ← sort_exchange lt x l (r - 1); x ← sort_exchange lt x l r;
        sort_exchange lt x (r - 1) r) = Some x' /\
    shuffles x x' /\ (forall k, k <> l -> k <> r - 1 -> k <> r -> x'.[k] = x.[k]) /\
    x'.[l] = Some a /\ x'.[r - 1] = Some b /\ x'.[r] = Some c /\ lt b a = false /\ lt c b = false.
Proof.
  intros Hl Hlr Hr. destruct (aget_Some x l) as [a0 A0]; [lia|].
  destruct (aget_Some x (r - 1)) as [b0 B0]; [lia|]. destruct (aget_Some x r) as [c0 C0]; [lia|].
  destruct (sort_exchange_values x l (r - 1) a0 b0) as (x1 & a1 & b1 & -> & P1 & A1 & B1 & H1 & _ & O1);
    [done|done|lia|]. ored.
  destruct (sort_exchange_values x1 l r a1 c0) as (x2 & a2 & c2 & -> & P2 & A2 & C2 & H2 & V2 & O2);
    [done|by rewrite O1 by lia|lia|]. ored.
  destruct (sort_exchange_values x2 (r - 1) r b1 c2) as (x3 & b3 & c3 & -> & P3 & B3 & C3 & H3 & V3 & O3);
    [by rewrite O2 by lia|done|lia|].
  assert (lt b1 a2 = false).
  { destruct V2 as [[-> ->]|[-> ->]]; [done|]. eapply le_trans'; [exact H2|exact H1]. }
  exists x3, a2, b3, c3. split_and!; try done.
  - transitivity x1; [done|]. by transitivity x2.
  - intros k ???. by rewrite O3, O2, O1 by done.
  - by rewrite O3 by lia.
  - by destruct V3 as [[-> ->]|[-> ->]].
Qed.

Definition all_within x x' l r : Prop := shuffles x x' /\ same_outside x x' l r.

Lemma all_within_trans x y z l r : all_within x y l r -> all_within y z l r -> all_within x z l r.
Proof.
  intros [? Ho] [? Ho']. split; [by transitivity y|]. intros k Hk. rewrite Ho' by done. by apply Ho.
Qed.

Lemma all_within_mono x y l r l' r' : l' <= l -> r <= r' -> all_within x y l r -> all_within x y l' r'.
Proof. intros ?? [? Ho]. split; [done|]. intros k Hk. apply Ho. lia. Qed.

(** A rearrangement inside a segment keeps the values of the segment. *)
Lemma all_within_values x x' l r k a :
  all_within x x' l r -> 0 <= l -> r < zlen x -> l <= k <= r -> x'.[k] = Some a ->
  exists k', l <= k' <= r /\ x.[k'] = Some a.
Proof.
  intros [[Hp Hz] Ho] Hl Hr Hk Ha.
  assert (forall y : list A, zlen y = zlen x -> y = take (Z.to_nat l) y ++
    (drop (Z.to_nat l) (take (Z.to_nat (r + 1)) y) ++ drop (Z.to_nat (r + 1)) y)) as Hd.
  { intros y _. rewrite <- (take_drop (Z.to_nat (r + 1)) y) at 1.
    rewrite <- (take_drop (Z.to_nat l) (take (Z.to_nat (r + 1)) y)) at 1.
    rewrite <- app_assoc, take_take. do 2 f_equal. lia. }
  assert (take (Z.to_nat l) x' = take (Z.to_nat l) x) as Ht.
  { apply list_eq. intros n. destruct (decide (n < Z.to_nat l)%nat); [|by rewrite !lookup_take_ge by lia].
    rewrite !lookup_take_lt by lia. rewrite <- !aget_nat. apply Ho. lia. }
  assert (drop (Z.to_nat (r + 1)) x' = drop (Z.to_nat (r + 1)) x) as Hdr.
  { apply list_eq. intros n. rewrite !lookup_drop, <- !aget_nat. apply Ho. lia. }
  rewrite (Hd x'), (Hd x), Ht, Hdr in Hp by done.
  apply Permutation_app_inv_l, Permutation_app_inv_r in Hp.
  assert (a ∈ drop (Z.to_nat l) (take (Z.to_nat (r + 1)) x)) as Hin.
  { rewrite <- Hp. apply list_elem_of_lookup. exists (Z.to_nat (k - l)).
    rewrite lookup_drop, lookup_take_lt by lia. apply aget_lookup in Ha.
    by replace (Z.to_nat l + Z.to_nat (k - l))%nat with (Z.to_nat k) by lia. }
  apply list_elem_of_lookup in Hin as [n Hn]. rewrite lookup_drop in Hn.
  apply lookup_take_Some in Hn as [Hn Hlt]. exists (Z.of_nat (Z.to_nat l + n)).
  rewrite aget_nat. split; [lia|done].
Qed.

(** One turn of the loop: the pivot ends at [i], between what does not
    exceed it and what does not precede it. *)
Lemma quicksort_split x l r :
  0 <= l -> 10 < r - l -> r < zlen x ->
  exists x' i v, (x ← sort_swap x ((l + r) ÷ 2) (r - 1);
        x ← sort_exchange lt x l (r - 1);
        x ← sort_exchange lt x l r;
        x ← sort_exchange lt x (r - 1) r;
        partition lt x (l + 1) (r - 1)) = Some (x', i) /\
    l < i < r /\ all_within x x' l r /\
    x'.[i] = Some v /\ all_le x' v l (i - 1) /\ all_ge x' v (i + 1) r.
Proof.
  intros Hl Hlr Hr. assert (l <= (l + r) ÷ 2 <= r) by (Z.to_euclidean_division_equations; lia).
  destruct (sort_swap_spec x ((l + r) ÷ 2) (r - 1)) as (x1 & -> & Hp1 & Hk1); [lia|lia|]. ored.
  assert (zlen x1 = zlen x) by apply Hp1.
  destruct (median_of_three x1 l r) as (x2 & a & b & c & E & P2 & O2 & A2 & B2 & C2 & Hab & Hbc); [lia..|].
  revert E. destruct (sort_exchange lt x1 _ _) as [y1|]; [|done]. ored.
  destruct (sort_exchange lt y1 _ _) as [y2|]; [|done]. ored. intros ->. ored.
  assert (zlen x2 = zlen x1) by apply P2.
  destruct (partition_spec x2 (l + 1) (r - 1)) as (x3 & i & v & -> & Hi & P3 & O3 & V & V' & Hle & Hge); [lia..|].
  assert (v = b) as -> by congruence.
  exists x3, i, b. split_and!; try done; try lia.
  - apply (all_within_trans _ x1); [|apply (all_within_trans _ x2)].
    + split; [done|]. intros k Hk. rewrite Hk1. zbool.
    + split; [done|]. intros k Hk. apply O2; lia.
    + apply (all_within_mono _ _ (l + 1) (r - 1)); [lia..|by split].
  - intros k w Hk Hw. destruct (Z.eq_dec k l) as [->|]; [|apply (Hle k); [lia|done]].
    rewrite O3 in Hw by lia. by simplify_eq.
  - intros k w Hk Hw. destruct (Z.eq_dec k r) as [->|]; [|apply (Hge k); [lia|done]].
    rewrite O3 in Hw by lia. by simplify_eq.
Qed.

(** ** What quicksort leaves to do

    The pending segments are disjoint and in order with the rest of the array;
    two cells more than [QuickSortCutoff] apart are in order unless a pending
    segment holds both. *)

Definition in_order_around x lo hi (e : Z * Z) : Prop :=
  forall m k, e.1 <= m <= e.2 -> (lo <= k < e.1 -> cell_le x k m) /\ (e.2 < k <= hi -> cell_le x m k).
Definition apart (e e' : Z * Z) : Prop := e.2 < e'.1 \/ e'.2 < e.1.
Fixpoint all_apart (s : QuickSortStack) : Prop :=
  match s with [] => True | e :: s => Forall (apart e) s /\ all_apart s end.
Definition pending x lo hi (s : QuickSortStack) : Prop :=
  Forall (in_order_around x lo hi) s /\ all_apart s /\
  forall i j, lo <= i -> i + QuickSortCutoff < j -> j <= hi ->
    Forall (fun e => ~ (e.1 <= i /\ j <= e.2)) s -> cell_le x i j.

Lemma pending_swap x lo hi e e' s : pending x lo hi (e :: e' :: s) -> pending x lo hi (e' :: e :: s).
Proof.
  unfold pending. cbn [all_apart]. rewrite !Forall_cons. intros ((H1 & H2 & H3) & ((H4 & H5) & H6 & H7) & H8).
  split_and!; try done; [unfold apart in *; lia|]. intros i j ???. rewrite !Forall_cons. intros (? & ? & ?).
  apply H8; try done. by rewrite !Forall_cons.
Qed.

(** A segment of at most [QuickSortCutoff + 1] cells can be dropped. *)
Lemma pending_drop x lo hi e s : e.2 - e.1 <= QuickSortCutoff -> pending x lo hi (e :: s) -> pending x lo hi s.
Proof.
  unfold pending. cbn [all_apart]. rewrite !Forall_cons. intros He ((H1 & H2) & (H3 & H4) & H5).
  split_and!; try done. intros i j ????. apply H5; try done. rewrite Forall_cons. split; [lia|done].
Qed.

Lemma cell_le_mid x i j v : (forall a, x.[i] = Some a -> lt v a = false) ->
  (forall b, x.[j] = Some b -> lt b v = false) -> cell_le x i j.
Proof. intros Ha Hb a b Ea Eb. eapply le_trans'; [by apply Ha|by apply Hb]. Qed.

(** Rearranging a pending segment keeps it in order with the rest. *)
Lemma in_order_around_within x x' lo hi l r :
  all_within x x' l r -> 0 <= l -> r < zlen x -> in_order_around x lo hi (l, r) -> in_order_around x' lo hi (l, r).
Proof.
  intros Hw Hl Hr Ho m k Hm. cbn [fst snd] in *. split; intros Hk a b Ha Hb.
  - destruct (all_within_values x x' l r m b) as (m' & Hm' & Hb'); try done.
    rewrite (proj2 Hw) in Ha by lia. by apply (proj1 (Ho m' k Hm') Hk).
  - destruct (all_within_values x x' l r m a) as (m' & Hm' & Ha'); try done.
    rewrite (proj2 Hw) in Hb by lia. by apply (proj2 (Ho m' k Hm') Hk).
Qed.

(** Rearranging a pending segment keeps another one in order with the rest. *)
Lemma in_order_around_apart x x' lo hi l r e :
  all_within x x' l r -> lo <= l -> r <= hi -> 0 <= l -> r < zlen x -> apart (l, r) e ->
  in_order_around x lo hi e -> in_order_around x' lo hi e.
Proof.
  intros Hw Hlo Hhi Hl Hr Hap Ho m k Hm. unfold apart in Hap. cbn [fst snd] in *.
  assert (forall a, x'.[k] = Some a -> (x.[k] = Some a \/ (l <= k <= r /\ exists k', l <= k' <= r /\ x.[k'] = Some a))) as Hv.
  { intros a Ha. destruct (decide (l <= k <= r)).
    - right. split; [done|]. by apply (all_within_values x x' l r k).
    - left. rewrite (proj2 Hw) in Ha by lia. done. }
  split; intros Hk a b Ha Hb; rewrite (proj2 Hw m) in * by lia.
  - destruct (Hv a Ha) as [?|(? & k' & ? & ?)]; [by apply (proj1 (Ho m k Hm) Hk)|].
    apply (proj1 (Ho m k' Hm)); [lia|done|done].
  - destruct (Hv b Hb) as [?|(? & k' & ? & ?)]; [by apply (proj2 (Ho m k Hm) Hk)|].
    apply (proj2 (Ho m k' Hm)); [lia|done|done].
Qed.

(** The two parts and the pivot: cells of different parts are in order. *)
Lemma pivot_in_order x lo hi l r i v j k :
  in_order_around x lo hi (l, r) -> x.[i] = Some v -> all_le x v l (i - 1) -> all_ge x v (i + 1) r ->
  l < i < r -> lo <= j -> j < k -> k <= hi -> (l <= j <= r \/ l <= k <= r) ->
  ~ (l <= j /\ k <= i - 1) -> ~ (i + 1 <= j /\ k <= r) -> cell_le x j k.
Proof.
  intros Ho Hv Hle Hge Hi Hlo Hjk Hhi Hin Hn1 Hn2.
  destruct (decide (j < l)); [apply (proj1 (Ho k j ltac:(simpl; lia))); simpl; lia|].
  destruct (decide (r < k)); [apply (proj2 (Ho j k ltac:(simpl; lia))); simpl; lia|].
  apply (cell_le_mid x j k v).
  - intros a Ha. destruct (Z.eq_dec j i) as [->|]; [|apply (Hle j); [lia|done]].
    simplify_eq. apply lt_irrefl.
  - intros b Hb. destruct (Z.eq_dec k i) as [->|]; [|apply (Hge k); [lia|done]].
    simplify_eq. apply lt_irrefl.
Qed.

Lemma pending_split x x' lo hi l r i v s :
  0 <= lo -> hi < zlen x -> lo <= l -> r <= hi -> l < i < r -> all_within x x' l r ->
  x'.[i] = Some v -> all_le x' v l (i - 1) -> all_ge x' v (i + 1) r ->
  pending x lo hi ((l, r) :: s) -> pending x' lo hi ((l, i - 1) :: (i + 1, r) :: s).
Proof.
  unfold pending. cbn [all_apart]. rewrite !Forall_cons. intros Hlo Hhi Hl Hr Hi Hw Hv Hle Hge.
  intros ((Ho & Hos) & (Ha & Has) & Hp).
  assert (in_order_around x' lo hi (l, r)) as Ho' by (apply (in_order_around_within x); try done; lia).
  assert (forall j k, lo <= j -> j < k -> k <= hi -> (l <= j <= r \/ l <= k <= r) ->
    ~ (l <= j /\ k <= i - 1) -> ~ (i + 1 <= j /\ k <= r) -> cell_le x' j k) as Hpiv
    by (intros; by eapply pivot_in_order).
  split_and!.
  - intros m k Hm. cbn [fst snd] in *. split; intros Hk; apply Hpiv; lia.
  - intros m k Hm. cbn [fst snd] in *. split; intros Hk; apply Hpiv; lia.
  - rewrite Forall_forall in Hos, Ha |- *. intros e He.
    apply (in_order_around_apart x x' lo hi l r); auto; lia.
  - unfold apart. simpl. lia.
  - eapply Forall_impl; [exact Ha|]. unfold apart. simpl. intros; lia.
  - eapply Forall_impl; [exact Ha|]. unfold apart. simpl. intros; lia.
  - done.
  - intros j k Hj Hjk Hk. rewrite !Forall_cons. cbn [fst snd]. unfold QuickSortCutoff in Hjk. intros (H1 & H2 & H3).
    destruct (decide (l <= j <= r \/ l <= k <= r)); [apply Hpiv; lia|].
    assert (cell_le x j k) as Hjk'.
    { apply Hp; try done. rewrite Forall_cons. split; [simpl; lia|done]. }
    intros a b Ea Eb. rewrite (proj2 Hw) in Ea by lia. rewrite (proj2 Hw) in Eb by lia. by apply Hjk'.
Qed.

Lemma quicksort_loop_spec fuel x0 x lo hi n l r s :
  0 <= lo -> hi < zlen x0 -> n <= 2 ^ 31 -> all_within x0 x lo hi -> pending x lo hi ((l, r) :: s) ->
  seg_at lo hi n (zlen s) (l, r) -> stack_ok lo hi n s ->
  2 * (r - l + 1) + 1 + stack_work s <= Z.of_nat fuel ->
  exists x', quicksort_loop lt fuel x l r s = Some x' /\ all_within x0 x' lo hi /\ pending x' lo hi [].
Proof.
  intros Hlo Hhi Hn. assert (forall s, stack_ok lo hi n s -> 0 <= stack_work s) as Hw.
  { induction s0 as [|e s0 IH]; simpl; [lia|]. unfold seg_at. intros [(? & ? & ? & ?) ?%IH]. lia. }
  revert x l r s. induction fuel as [|fuel IH]; intros x l r s Ha Hp Hseg Hs Hf.
  { unfold seg_at, seg_len in Hseg. simpl in Hseg. specialize (Hw s Hs). lia. }
  cbn [quicksort_loop]. destruct (Z.leb_spec (r - l) QuickSortCutoff) as [Hc|Hc].
  - apply pending_drop in Hp; [|done].
    destruct s as [|[l' r'] s]; [by exists x|]. simpl in Hs. destruct Hs as [Hseg' Hs].
    unfold seg_at, seg_len in Hseg. cbn [stack_work seg_len fst snd] in Hf. apply IH; try done.
    simpl in *. unfold seg_len in *. simpl in *. lia.
  - unfold QuickSortCutoff in Hc. pose proof Hseg as (Hl & Hr & _ & Hd).
    unfold seg_len in Hd. simpl in Hl, Hr, Hd. assert (zlen x = zlen x0) by apply Ha.
    destruct (quicksort_split x l r) as (x' & i & v & Hsplit & Hi & Hin & Hv & Hle & Hge); [lia..|].
    revert Hsplit. destruct (sort_swap _ _ _) as [x1|]; [|done]. ored.
    destruct (sort_exchange lt x1 _ _) as [x2|]; [|done]. ored.
    destruct (sort_exchange lt x2 _ _) as [x3|]; [|done]. ored.
    destruct (sort_exchange lt x3 _ _) as [x4|]; [|done]. ored. intros ->. ored.
    assert (all_within x0 x' lo hi) as Ha'.
    { apply (all_within_trans _ x); [done|]. by apply (all_within_mono _ _ l r). }
    apply (pending_split x x' lo hi l r i v s) in Hp; try done; try lia.
    assert (0 < 2 ^ zlen s) by (apply Z.pow_pos_nonneg; auto; lia).
    assert (2 ^ (zlen s + 1) = 2 * 2 ^ zlen s) as Hpow by (rewrite Z.pow_add_r by auto with lia; lia).
    destruct (Z.ltb_spec (r - i) (i - l)).
    + rewrite (push_Some lo hi n s l r) by done. ored. apply IH; try done; [by apply pending_swap|..].
      * unfold seg_at, seg_len. simpl. rewrite zlen_cons, Hpow. split_and!; try lia. nia.
      * simpl. split; [|done]. unfold seg_at, seg_len. simpl. split_and!; try lia. nia.
      * simpl. unfold seg_len. simpl. lia.
    + rewrite (push_Some lo hi n s l r) by done. ored. apply IH; try done.
      * unfold seg_at, seg_len. simpl. rewrite zlen_cons, Hpow. split_and!; try lia. nia.
      * simpl. split; [|done]. unfold seg_at, seg_len. simpl. split_and!; try lia. nia.
      * simpl. unfold seg_len. simpl. lia.
Qed.

Lemma quicksort_spec x l r :
  0 <= l -> l <= r + 1 -> r < zlen x -> r - l < 2 ^ 31 ->
  exists x', quicksort lt x l r = Some x' /\ shuffles x x' /\ same_outside x x' l r /\
    forall i j, l <= i -> i + QuickSortCutoff < j -> j <= r -> cell_le x' i j.
Proof.
  intros Hl Hlr Hr Hn. unfold quicksort. change (push [] l r) with (Some [(l, r)]). ored.
  destruct (quicksort_loop_spec (2 * Z.to_nat (r - l + 1) + 2) x x l r (r - l + 1) l r [])
    as (x' & -> & [? ?] & _ & _ & Hp); try done; simpl; try lia.
  - unfold pending. rewrite Forall_singleton. split_and!; [|done..|].
    + intros m k Hm. simpl. split; intros; lia.
    + intros i j ???. rewrite Forall_singleton. simpl. lia.
  - unfold seg_at, seg_len. change (zlen (@nil (Z * Z))) with 0. cbn [fst snd]. rewrite Z.pow_0_r. lia.
  - exists x'. split_and!; try done. intros i j ???. by apply Hp.
Qed.

Lemma fastsort_spec x :
  zlen x <= 2 ^ 31 ->
  exists x', fastsort lt x (zlen x) = Some x' /\ x' ≡ₚ x /\ zlen x' = zlen x /\
    sorted_cells x' 0 (zlen x - 1).
Proof.
  intros Hn. unfold fastsort. destruct (Z.ltb_spec (zlen x) 2).
  { exists x. split_and!; try done. intros i j ??? a b Ha Hb. assert (i = j) as -> by lia.
    simplify_eq. apply lt_irrefl. }
  assert (exists x1, (if QuickSortCutoff <? zlen x then quicksort lt x 0 (zlen x - 1) else Some x) = Some x1
    /\ shuffles x x1) as (x1 & -> & Hp1).
  { destruct (QuickSortCutoff <? zlen x); [|by exists x].
    destruct (quicksort_spec x 0 (zlen x - 1)) as (x1 & -> & ? & _ & _); [lia..|]. by exists x1. }
  ored. assert (zlen x1 = zlen x) by apply Hp1.
  destruct (insertion_spec x1 0 (zlen x - 1)) as (x2 & -> & Hp2 & Hs & _); [lia|lia|].
  exists x2. destruct Hp1, Hp2. split_and!; try done; [by etransitivity|congruence].
Qed.

(** ** Properties *)

(** C35: [fastsort] sorts: for every strict weak order and every array of up to 2^30
    cells it returns, no access leaves the array, and the result is a
    permutation of the array in non-decreasing order. *)
Theorem fastsort_correct x (Hn : zlen x <= 2 ^ 30) :
  exists x', fastsort lt x (zlen x) = Some x' /\ x' ≡ₚ x /\
    forall i j a b, 0 <= i -> i <= j -> x'.[i] = Some a -> x'.[j] = Some b -> lt b a = false.
Proof.
  destruct (fastsort_spec x) as (x' & E & Hp & Hz & Hs); [lia|]. exists x'. split_and!; try done.
  intros i j a b Hi Hij Ha Hb. apply (Hs i j); try done. apply aget_Some_inv in Hb. lia.
Qed.

(** [quicksort] returns with its stack of [QuickSortStack_maxsize] segments never
    overflowing, touches only the cells [l .. r], and brings any two cells
    more than [QuickSortCutoff] apart in order, so that the insertion sort
    that follows moves no element further than that. *)
Theorem quicksort_correct x l r (Hl : 0 <= l) (Hlr : l <= r + 1) (Hr : r < zlen x) (Hn : zlen x <= 2 ^ 30) :
  exists x', quicksort lt x l r = Some x' /\ x' ≡ₚ x /\
    (forall k, k < l \/ r < k -> x'.[k] = x.[k]) /\
    forall i j a b, l <= i -> i + QuickSortCutoff < j -> j <= r ->
      x'.[i] = Some a -> x'.[j] = Some b -> lt b a = false.
Proof.
  destruct (quicksort_spec x l r) as (x' & E & [Hp _] & Ho & Hs); [lia..|]. exists x'. split_and!; try done.
  intros i j a b ???. by apply Hs.
Qed.
End lemmas.

(** ** Witnesses *)

#[export] Instance Zltb_order : StrictWeakOrder Z.ltb.
Proof. split; intros; lia. Qed.

Definition unsorted : list Z := [14; 3; 9; 3; 17; 1; 0; 12; 8; 8; 5; 11; 2; 19; 6; 4].

Lemma fastsort_witness :
  exists x, fastsort Z.ltb unsorted 16 = Some x /\ x = [0; 1; 2; 3; 3; 4; 5; 6; 8; 8; 9; 11; 12; 14; 17; 19].
Proof.
  destruct (fastsort_correct Z.ltb unsorted) as (x & E & _); [vm_compute; discriminate|].
  exists x. split; [exact E|]. vm_compute in E. injection E as <-. reflexivity.
Defined.

Lemma quicksort_witness :
  exists x, quicksort Z.ltb unsorted 1 14 = Some x /\ x.[0] = Some 14 /\ x.[15] = Some 4.
Proof.
  destruct (quicksort_correct Z.ltb unsorted 1 14) as (x & E & _ & Ho & _); [lia|lia|vm_compute; reflexivity|vm_compute; discriminate|].
  exists x. split; [exact E|]. rewrite !Ho by lia. exact (conj eq_refl eq_refl).
Defined.
End Sort.

(** * Sorting and maps

    The sorts of [Sort] look at the elements through [lt] only, so they commute with every map.  An
    order on part of a type (the features of a record) thus sorts lists from that part. *)

Module SortMap.
Import Sort.

Section maps.
Context {A B : Type} (f : A -> B) (lt : B -> B -> bool).
Implicit Types (x : list A).

(** The order on [A]. *)
Definition lt_on (a b : A) : bool := lt (f a) (f b).

Lemma aget_fmap x i : (f <$> x).[i] = f <$> x.[i].
Proof. unfold aget. destruct (0 <=? i); [apply list_lookup_fmap|done]. Qed.

Lemma zlen_fmap x : zlen (f <$> x) = zlen x.
Proof. unfold zlen. by rewrite length_fmap. Qed.

Lemma aset_fmap x i a : (f <$> x).[i <- f a] = fmap (M:=list) f <$> x.[i <- a].
Proof. unfold aset. rewrite zlen_fmap. destruct ((0 <=? i) && (i <? zlen x)); [|done]. ored. by rewrite list_fmap_insert. Qed.

Lemma sort_swap_fmap x i j : sort_swap (f <$> x) i j = fmap (M:=list) f <$> sort_swap x i j.
Proof.
  unfold sort_swap. rewrite !aget_fmap. destruct x.[i] as [a|]; [|done]. ored. destruct x.[j] as [b|]; [|done]. ored.
  rewrite aset_fmap. destruct x.[i <- b] as [y|]; [|done]. ored. apply aset_fmap.
Qed.

Lemma sort_exchange_fmap x i j : sort_exchange lt (f <$> x) i j = fmap (M:=list) f <$> sort_exchange lt_on x i j.
Proof.
  unfold sort_exchange. rewrite !aget_fmap. destruct x.[i] as [a|]; [|done]. ored. destruct x.[j] as [b|]; [|done]. ored.
  change (lt_on b a) with (lt (f b) (f a)). destruct (lt (f b) (f a)); [apply sort_swap_fmap|done].
Qed.

Lemma for_up_fmap lo (n : nat) (b : Z -> list B -> option (list B)) (a : Z -> list A -> option (list A)) x :
  (forall i x, b i (f <$> x) = fmap (M:=list) f <$> a i x) -> for_up lo n b (f <$> x) = fmap (M:=list) f <$> for_up lo n a x.
Proof.
  intros H. revert lo x. induction n as [|n IH]; intros lo x; cbn [for_up]; [done|]. rewrite H.
  destruct (a lo x) as [y|]; ored; [apply IH|done].
Qed.

Lemma insertion_shift_fmap (fuel : nat) x v j :
  insertion_shift lt fuel (f <$> x) (f v) j = fmap (M:=list) f <$> insertion_shift lt_on fuel x v j.
Proof.
  revert x j. induction fuel as [|fuel IH]; intros x j; cbn [insertion_shift]; [done|]. rewrite aget_fmap.
  destruct x.[j - 1] as [y|]; [|done]. ored. change (lt_on v y) with (lt (f v) (f y)). destruct (lt (f v) (f y)); [|apply aset_fmap].
  rewrite aset_fmap. destruct x.[j <- y] as [z|]; ored; [apply IH|done].
Qed.

Lemma insertion_fmap x l r : insertion lt (f <$> x) l r = fmap (M:=list) f <$> insertion lt_on x l r.
Proof.
  unfold insertion. rewrite (for_up_fmap _ _ _ (fun k x => sort_exchange lt_on x (r - k - 1) (r - k))) by (intros; apply sort_exchange_fmap).
  cbv zeta. destruct (for_up 0 _ _ x) as [y|]; ored; [|done]. apply for_up_fmap. intros i z. rewrite aget_fmap.
  destruct z.[i] as [v|]; [|done]. ored. rewrite length_fmap. apply insertion_shift_fmap.
Qed.

Lemma partition_up_fmap (fuel : nat) x v i : partition_up lt fuel (f <$> x) (f v) i = partition_up lt_on fuel x v i.
Proof.
  revert i. induction fuel as [|fuel IH]; intros i; cbn [partition_up]; [done|]. rewrite aget_fmap.
  destruct x.[i + 1] as [y|]; [|done]. ored. change (lt_on y v) with (lt (f y) (f v)). destruct (lt (f y) (f v)); [apply IH|done].
Qed.

Lemma partition_down_fmap (fuel : nat) x v l j : partition_down lt fuel (f <$> x) (f v) l j = partition_down lt_on fuel x v l j.
Proof.
  revert j. induction fuel as [|fuel IH]; intros j; cbn [partition_down]; [done|]. rewrite aget_fmap.
  destruct x.[j - 1] as [y|]; [|done]. ored. change (lt_on v y) with (lt (f v) (f y)).
  destruct (lt (f v) (f y)); [|done]. by destruct (j - 1 =? l).
Qed.

Lemma partition_loop_fmap (fuel : nat) x v l i j :
  partition_loop lt fuel (f <$> x) (f v) l i j = (fun '(y, k) => (map f y, k)) <$> partition_loop lt_on fuel x v l i j.
Proof.
  revert x i j. induction fuel as [|fuel IH]; intros x i j; cbn [partition_loop]; [done|].
  rewrite !length_fmap, partition_up_fmap. destruct (partition_up lt_on (S (length x)) x v i) as [i'|]; [|done]. ored.
  rewrite partition_down_fmap. destruct (partition_down lt_on (S (length x)) x v l j) as [j'|]; [|done]. ored.
  destruct (j' <=? i'); [done|]. rewrite sort_swap_fmap. destruct (sort_swap x i' j') as [y|]; ored; [apply IH|done].
Qed.

Lemma partition_fmap x l r : partition lt (f <$> x) l r = (fun '(y, k) => (map f y, k)) <$> partition lt_on x l r.
Proof.
  unfold partition. rewrite aget_fmap. destruct x.[r] as [v|]; [|done]. ored. rewrite length_fmap, partition_loop_fmap.
  destruct (partition_loop lt_on (S (length x)) x v l (l - 1) r) as [[y i]|]; [|done]. ored. rewrite sort_swap_fmap.
  by destruct (sort_swap y i r).
Qed.

Lemma quicksort_loop_fmap (fuel : nat) x l r s :
  quicksort_loop lt fuel (f <$> x) l r s = fmap (M:=list) f <$> quicksort_loop lt_on fuel x l r s.
Proof.
  revert x l r s. induction fuel as [|fuel IH]; intros x l r s; cbn [quicksort_loop]; [done|].
  destruct (r - l <=? QuickSortCutoff); [destruct s as [|[l' r'] s]; [done|apply IH]|].
  rewrite sort_swap_fmap. destruct (sort_swap x _ _) as [x1|]; [|done]. ored.
  rewrite sort_exchange_fmap. destruct (sort_exchange lt_on x1 _ _) as [x2|]; [|done]. ored.
  rewrite sort_exchange_fmap. destruct (sort_exchange lt_on x2 _ _) as [x3|]; [|done]. ored.
  rewrite sort_exchange_fmap. destruct (sort_exchange lt_on x3 _ _) as [x4|]; [|done]. ored.
  rewrite partition_fmap. destruct (partition lt_on x4 _ _) as [[x5 i]|]; [|done]. ored.
  destruct (r - i <? i - l); (destruct (push s _ _) as [s'|]; ored; [apply IH|done]).
Qed.

Lemma quicksort_fmap x l r : quicksort lt (f <$> x) l r = fmap (M:=list) f <$> quicksort lt_on x l r.
Proof. unfold quicksort. destruct (push [] l r) as [[|[l' r'] s]|]; ored; [done|apply quicksort_loop_fmap|done]. Qed.

Lemma fastsort_fmap x n : fastsort lt (f <$> x) n = fmap (M:=list) f <$> fastsort lt_on x n.
Proof.
  unfold fastsort. destruct (n <? 2); [done|]. destruct (QuickSortCutoff <? n); ored.
  - rewrite quicksort_fmap. destruct (quicksort lt_on x 0 (n - 1)) as [y|]; ored; [apply insertion_fmap|done].
  - apply insertion_fmap.
Qed.
End maps.

(** Sorting elements of a part [P] of the type on which [lt] is a strict weak order. *)
Lemma fastsort_part {B} (P : B -> Prop) (lt : B -> B -> bool) (x : list B) :
  (forall a b, P a -> P b -> lt a b = true -> lt b a = false) ->
  (forall a b c, P a -> P b -> P c -> lt b a = false -> lt c b = false -> lt c a = false) ->
  Forall P x -> zlen x <= 2 ^ 31 ->
  exists x', fastsort lt x (zlen x) = Some x' /\ x' ≡ₚ x /\
    forall i j a b, 0 <= i -> i <= j -> x'.[i] = Some a -> x'.[j] = Some b -> lt b a = false.
Proof.
  intros Hasym Htrans Hx Hn. set (lt' := lt_on (fun a : {b | P b} => proj1_sig a) lt).
  assert (StrictWeakOrder lt').
  { split; [intros [a Ha] [b Hb]; apply (Hasym a b Ha Hb)|intros [a Ha] [b Hb] [c Hc]; apply (Htrans a b c Ha Hb Hc)]. }
  assert (exists y : list {b | P b}, x = (fun a => proj1_sig a) <$> y) as [y ->].
  { clear Hn. induction Hx as [|b x Hb Hx [y ->]]; [by exists []|]. by exists (exist P b Hb :: y). }
  rewrite zlen_fmap in *. rewrite fastsort_fmap. destruct (fastsort_spec lt' y Hn) as (y' & E & Hp & Hz & Hs).
  exists ((fun a => proj1_sig a) <$> y'). fold lt'. rewrite E. split; [done|]. split; [by apply fmap_Permutation|].
  intros i j a b Hi Hij Ha Hb. rewrite aget_fmap in Ha, Hb. apply fmap_Some in Ha as (a' & Ha & ->), Hb as (b' & Hb & ->).
  apply (Hs i j); try done. apply aget_Some_inv in Hb. lia.
Qed.
End SortMap.
