(* ===== verification/FiniteDomain.v ===== *)
(** * Finite domains ([OZ_FiniteDomainImpl] of [fdomn.cc] and [fdomn.hh])

    A domain is a minimum, a maximum, a size and a descriptor, which is absent
    for a single interval, and a bit vector or an interval list otherwise.  The
    destructive operators return the domain they leave; the C++ result is its
    [size] field.  The operands of a binary operator are distinct objects. *)
From S2P Require Import Prelude Word32 FDBase FDIntervals FDBitVector Sort.

Inductive descr_type :=
  | fd_descr
  | iv_descr (iv : list i_arr_type)
  | bv_descr (bv : list Z).

Record FiniteDomain := FD { min_elem : Z; max_elem : Z; size : Z; descr : descr_type }.

Inductive OZ_FDState := fd_singl | fd_bool | fd_empty | fd_full.

Module FiniteDomain.
Section operations.
Context `{FDEnv}.

Definition setType (x : FiniteDomain) (d : descr_type) : FiniteDomain :=
  FD (min_elem x) (max_elem x) (size x) d.
Definition setSize (x : FiniteDomain) (s : Z) : FiniteDomain :=
  FD (min_elem x) (max_elem x) s (descr x).

(** [getType() == fd_descr] *)
Definition is_fd (x : FiniteDomain) : bool :=
  match descr x with fd_descr => true | _ => false end.

Definition isSingleInterval (x : FiniteDomain) : bool := size x =? max_elem x - min_elem x + 1.
Definition findSize (x : FiniteDomain) : Z := max_elem x - min_elem x + 1.

(** [if (isSingleInterval()) setType(fd_descr);] *)
Definition reduce (x : FiniteDomain) : FiniteDomain :=
  if isSingleInterval x then setType x fd_descr else x.

(** ** Construction *)

Definition initEmpty : FiniteDomain := FD (-1) (-1) 0 fd_descr.
Definition initFull : FiniteDomain := FD fd_inf fd_sup fd_full_size fd_descr.
Definition initBool : FiniteDomain := FD 0 1 2 fd_descr.
Definition initSingleton (n : Z) : FiniteDomain :=
  if (n <? fd_inf) || (fd_sup <? n) then initEmpty else FD n n 1 fd_descr.
Definition initRange (x : FiniteDomain) (l r : Z) : FiniteDomain :=
  let l := Z.max l fd_inf in
  let r := Z.min r fd_sup in
  if r <? l then FD (min_elem x) (max_elem x) 0 fd_descr
  else FD l r (r - l + 1) fd_descr.

(** [operator == (OZ_FDState)]; other states fail an assertion. *)
Definition eq_state (x : FiniteDomain) (s : OZ_FDState) : option bool :=
  match s with
  | fd_singl => Some (size x =? 1)
  | fd_bool => Some ((size x =? 2) && (min_elem x =? 0) && (max_elem x =? 1))
  | fd_empty => Some (size x =? 0)
  | fd_full => None
  end.
Definition ne_state (x : FiniteDomain) (s : OZ_FDState) : option bool :=
  match s with
  | fd_singl => Some (negb (size x =? 1))
  | fd_bool => Some (negb (size x =? 2) || negb (min_elem x =? 0) || negb (max_elem x =? 1))
  | fd_empty => Some (0 <? size x)
  | fd_full => None
  end.
Definition eq_int (x : FiniteDomain) (v : Z) : bool := (size x =? 1) && (min_elem x =? v).
Definition ne_int (x : FiniteDomain) (v : Z) : bool := negb (size x =? 1) || negb (min_elem x =? v).
Definition getSingleElem (x : FiniteDomain) : Z := if negb (size x =? 1) then -1 else min_elem x.

(** ** Conversions between representations *)

Definition provideBitVector (x : FiniteDomain) (hi : Z) : option (list Z) :=
  match descr x with
  | bv_descr bv =>
      if zlen bv <? hi then FDBitVector.newBitVector hi else Some (take (Z.to_nat hi) bv)
  | _ => FDBitVector.newBitVector hi
  end.

Definition provideIntervals (x : FiniteDomain) (max_index : Z) : list i_arr_type :=
  match descr x with
  | iv_descr iv =>
      if zlen iv <? max_index then FDIntervals.newIntervals max_index
      else take (Z.to_nat max_index) iv
  | _ => FDIntervals.newIntervals max_index
  end.

(** [for (i = 0; i < iv.high && iv.i_arr[i].left <= fd_bv_max_elem; i++) addFromTo ...] *)
Fixpoint asBitVector_fill (iv : list i_arr_type) (bv : list Z) : option (list Z) :=
  match iv with
  | e :: rest =>
      if iv_left e <=? fd_bv_max_elem fd_env then
        bv ← FDBitVector.addFromTo bv (iv_left e) (Z.min (iv_right e) (fd_bv_max_elem fd_env));
        asBitVector_fill rest bv
      else Some bv
  | [] => Some bv
  end.

Definition asBitVector (x : FiniteDomain) : option (list Z) :=
  let min_maxElem := Z.min (fd_bv_max_elem fd_env) (max_elem x) in
  match descr x with
  | bv_descr bv => Some bv
  | fd_descr =>
      bv ← provideBitVector x (word32 min_maxElem);
      if fd_bv_max_elem fd_env <? min_elem x then FDBitVector.setEmpty bv
      else FDBitVector.setFromTo bv (min_elem x) min_maxElem
  | iv_descr iv =>
      bv ← FDBitVector.newBitVector (word32 min_maxElem);
      bv ← FDBitVector.setEmpty bv;
      bv ← asBitVector_fill iv bv;
      iv_max ← FDIntervals.findMaxElem iv;
      bv_size ← FDBitVector.findSize bv;
      iv_size ← FDIntervals.findSize iv;
      if (fd_bv_max_elem fd_env <? iv_max) || (bv_size =? iv_size) then Some bv else None
  end.

Definition asIntervals (x : FiniteDomain) : option (list i_arr_type) :=
  match descr x with
  | iv_descr iv => Some iv
  | bv_descr bv =>
      if isSingleInterval x then
        FDIntervals.init1 (provideIntervals x 1) (min_elem x) (max_elem x)
      else
        ivs ← FDBitVector.mkRaw (fd_bv_conv_max_high fd_env) bv;
        FDIntervals.initList (FDIntervals.newIntervals (zlen ivs)) ivs
  | fd_descr => FDIntervals.init1 (provideIntervals x 1) (min_elem x) (max_elem x)
  end.

(** What [AssertFD] would test after every operator.  The macro expands to nothing, since [fddebug.hh] comments out
    [DEBUG_FD_CONSTRREP], so the operators below do not make the test; when it would fail is proved. *)
Definition isConsistent (x : FiniteDomain) : option bool :=
  if size x =? 0 then Some true
  else
    match descr x with
    | fd_descr => Some (findSize x =? size x)
    | bv_descr bv =>
        s ← FDBitVector.findSize bv;
        Some ((s =? size x) && (FDBitVector.findMinElem bv =? min_elem x) &&
              ((FDBitVector.findMaxElem bv).2 =? max_elem x))
    | iv_descr iv =>
        s ← FDIntervals.findSize iv;
        min ← FDIntervals.findMinElem iv;
        max ← FDIntervals.findMaxElem iv;
        Some ((s =? size x) && (fd_bv_max_elem fd_env <? max_elem x) &&
              (min =? min_elem x) && (max =? max_elem x))
    end.

(** ** Queries *)

Definition isIn (x : FiniteDomain) (i : Z) : option bool :=
  if (size x =? 0) || (i <? min_elem x) || (max_elem x <? i) then Some false
  else
    match descr x with
    | fd_descr => Some true
    | bv_descr bv => FDBitVector.isIn bv i
    | iv_descr iv => FDIntervals.isIn iv i
    end.

Definition nextSmallerElem (x : FiniteDomain) (v : Z) : option Z :=
  match descr x with
  | fd_descr =>
      Some (if v <=? min_elem x then -1 else if max_elem x <? v then max_elem x else v - 1)
  | bv_descr bv => FDBitVector.nextSmallerElem bv v (min_elem x)
  | iv_descr iv => Some (FDIntervals.nextSmallerElem iv v (min_elem x))
  end.

Definition nextLargerElem (x : FiniteDomain) (v : Z) : option Z :=
  match descr x with
  | fd_descr =>
      Some (if max_elem x <=? v then -1 else if v <? min_elem x then min_elem x else v + 1)
  | bv_descr bv => FDBitVector.nextLargerElem bv v (max_elem x)
  | iv_descr iv => Some (FDIntervals.nextLargerElem iv v (max_elem x))
  end.

Definition lowerBound (x : FiniteDomain) (v : Z) : option Z :=
  b ← isIn x v;
  if (b : bool) then
    match descr x with
    | fd_descr => Some (min_elem x)
    | bv_descr bv => FDBitVector.lowerBound bv v (min_elem x)
    | iv_descr iv => FDIntervals.lowerBound iv v
    end
  else Some (-1).

Definition upperBound (x : FiniteDomain) (v : Z) : option Z :=
  b ← isIn x v;
  if (b : bool) then
    match descr x with
    | fd_descr => Some (max_elem x)
    | bv_descr bv => FDBitVector.upperBound bv v (max_elem x)
    | iv_descr iv => FDIntervals.upperBound iv v
    end
  else Some (-1).

(** A gap in the middle of a domain without descriptor fails an assertion. *)
Definition midElem (x : FiniteDomain) : option Z :=
  let mid := (min_elem x + max_elem x) ÷ 2 in
  b ← isIn x mid;
  if (b : bool) then Some mid
  else
    match descr x with
    | fd_descr => None
    | bv_descr bv => FDBitVector.midElem bv mid
    | iv_descr iv => FDIntervals.midElem iv mid
    end.

Definition intersectWithBool (x : FiniteDomain) : option Z :=
  b0 ← isIn x 0;
  b1 ← isIn x 1;
  Some (match b0, b1 with
        | true, true => -1
        | true, false => 0
        | false, true => 1
        | false, false => -2
        end).

Definition getAsList (x : FiniteDomain) : option OZ_Term :=
  if size x =? 0 then Some TNil
  else
    match descr x with
    | fd_descr =>
        Some (TCons (if min_elem x =? max_elem x then TInt (min_elem x)
                     else oz_pairII (min_elem x) (max_elem x)) TNil)
    | bv_descr bv => FDBitVector.getAsList (fd_bv_conv_max_high fd_env) bv
    | iv_descr iv => Some (FDIntervals.getAsList iv)
    end.

(** Bytes of the descriptor. *)
Definition getDescrSize (x : FiniteDomain) : Z :=
  match descr x with
  | iv_descr iv => (1 + 2 * zlen iv) * 4
  | bv_descr bv => (1 + zlen bv) * 4
  | fd_descr => 0
  end.
(** ** Installing a new descriptor *)

(** [setType(bv); min_elem = bv->findMinElem(); max_elem = bv->findMaxElem();] *)
Definition settle_bv (bv : list Z) (s : Z) : FiniteDomain :=
  let min := FDBitVector.findMinElem bv in
  let '(bv, max) := FDBitVector.findMaxElem bv in
  FD min max s (bv_descr bv).

(** The same for interval lists. *)
Definition settle_iv (iv : list i_arr_type) (s : Z) : option FiniteDomain :=
  min ← FDIntervals.findMinElem iv;
  max ← FDIntervals.findMaxElem iv;
  Some (FD min max s (iv_descr iv)).

(** [if (max_elem <= fd_bv_max_elem) { setType(asBitVector()); iv->dispose(); }] *)
Definition shrink_iv (x : FiniteDomain) : option FiniteDomain :=
  if max_elem x <=? fd_bv_max_elem fd_env then
    bv ← asBitVector x; Some (setType x (bv_descr bv))
  else Some x.

(** ** Destructive operators *)

(** [operator &= (int)] *)
Definition op_and_int (x : FiniteDomain) (i : Z) : option FiniteDomain :=
  b ← isIn x i;
  Some (if (b : bool) then initSingleton i else initEmpty).

Definition op_le (x : FiniteDomain) (leq : Z) : option FiniteDomain :=
  if leq <? min_elem x then Some initEmpty
  else
    x ← (if leq <? max_elem x then
           match descr x with
           | fd_descr =>
               let x := FD (min_elem x) (Z.min (max_elem x) leq) (size x) (descr x) in
               Some (setSize x (findSize x))
           | bv_descr bv =>
               '(bv, s) ← FDBitVector.op_le bv leq;
               if 0 <? s then
                 let '(bv, max) := FDBitVector.findMaxElem bv in
                 Some (FD (min_elem x) max s (bv_descr bv))
               else Some (FD (min_elem x) (max_elem x) s (bv_descr bv))
           | iv_descr iv =>
               if leq <=? fd_sup then
                 '(iv, s) ← FDIntervals.op_le iv leq;
                 max ← (if 0 <? s then FDIntervals.findMaxElem iv else Some (max_elem x));
                 shrink_iv (FD (min_elem x) max s (iv_descr iv))
               else Some x
           end
         else Some x);
    Some (reduce x).

Definition op_ge (x : FiniteDomain) (geq : Z) : option FiniteDomain :=
  if max_elem x <? geq then Some initEmpty
  else
    x ← (if min_elem x <? geq then
           match descr x with
           | fd_descr =>
               let x := FD (Z.max (min_elem x) geq) (max_elem x) (size x) (descr x) in
               Some (setSize x (findSize x))
           | bv_descr bv =>
               if FDBitVector.currBvMaxElem bv <? geq then Some initEmpty
               else
                 '(bv, s) ← FDBitVector.op_ge bv geq;
                 let min := if 0 <? s then FDBitVector.findMinElem bv else min_elem x in
                 Some (FD min (max_elem x) s (bv_descr bv))
           | iv_descr iv =>
               '(iv, s) ← FDIntervals.op_ge iv geq;
               min ← (if 0 <? s then FDIntervals.findMinElem iv else Some (min_elem x));
               Some (FD min (max_elem x) s (iv_descr iv))
           end
         else Some x);
    Some (reduce x).

Definition constrainBool (x : FiniteDomain) : option FiniteDomain := op_le x 1.

(** The removal of a member by [operator -= (int)], the size apart. *)
Definition minus_member (x : FiniteDomain) (take_out : Z) : option FiniteDomain :=
  match descr x with
  | fd_descr =>
      if take_out =? min_elem x then
        Some (FD (min_elem x + 1) (max_elem x) (size x) fd_descr)
      else if take_out =? max_elem x then
        Some (FD (min_elem x) (max_elem x - 1) (size x) fd_descr)
      else if max_elem x <=? fd_bv_max_elem fd_env then
        bv ← provideBitVector x (word32 (max_elem x));
        bv ← FDBitVector.setFromTo bv (min_elem x) (max_elem x);
        bv ← FDBitVector.resetBit bv take_out;
        Some (settle_bv bv (size x))
      else
        iv ← FDIntervals.init2 (provideIntervals x 2)
               (min_elem x) (take_out - 1) (take_out + 1) (max_elem x);
        Some (setType x (iv_descr iv))
  | bv_descr bv =>
      bv ← FDBitVector.resetBit bv take_out;
      Some (settle_bv bv (size x))
  | iv_descr iv =>
      iv ← FDIntervals.op_minus iv take_out;
      x ← settle_iv iv (size x);
      shrink_iv x
  end.

(** [operator -= (int)] *)
Definition op_minus_int (x : FiniteDomain) (take_out : Z) : option FiniteDomain :=
  b ← isIn x take_out;
  if negb b then Some x
  else
    x' ← minus_member x take_out;
    Some (reduce (setSize x' (size x' - 1))).

(** [operator -= (const OZ_FiniteDomainImpl &)] on two single intervals. *)
Definition minus_ranges (x y : FiniteDomain) : option FiniteDomain :=
  if (max_elem y <? min_elem x) || (max_elem x <? min_elem y) then Some x
  else
    x ← (if (min_elem y <=? min_elem x) && (max_elem x <=? max_elem y) then
           Some (setSize x 0)
         else if (min_elem x <? min_elem y) && (max_elem y <? max_elem x) then
           if max_elem x <=? fd_bv_max_elem fd_env then
             bv ← provideBitVector x (word32 (max_elem x));
             bv ← FDBitVector.setFromTo bv (min_elem x) (min_elem y - 1);
             bv ← FDBitVector.addFromTo bv (max_elem y + 1) (max_elem x);
             s ← FDBitVector.findSize bv;
             Some (FD (min_elem x) (max_elem x) s (bv_descr bv))
           else
             iv ← FDIntervals.init2 (provideIntervals x 2)
                    (min_elem x) (min_elem y - 1) (max_elem y + 1) (max_elem x);
             s ← FDIntervals.findSize iv;
             Some (FD (min_elem x) (max_elem x) s (iv_descr iv))
         else if max_elem y <? max_elem x then
           let x := FD (max_elem y + 1) (max_elem x) (size x) (descr x) in
           Some (setSize x (findSize x))
         else
           let x := FD (min_elem x) (min_elem y - 1) (size x) (descr x) in
           Some (setSize x (findSize x)));
    Some (reduce x).

Definition op_minus (x y : FiniteDomain) : option FiniteDomain :=
  nonempty ← ne_state y fd_empty;
  if negb nonempty then Some x
  else
    match descr x with
    | fd_descr =>
        match descr y with
        | fd_descr => minus_ranges x y
        | bv_descr y_bv =>
            x ← (if fd_bv_max_elem fd_env <? max_elem x then
                   iv ← asIntervals x;
                   y_iv ← asIntervals y;
                   let z_iv := provideIntervals x (zlen iv + zlen y_iv) in
                   '(z_iv, s) ← FDIntervals.subtract_iv (zlen z_iv) iv y_iv;
                   x ← settle_iv z_iv s;
                   shrink_iv x
                 else
                   bv ← asBitVector x;
                   '(bv, s) ← FDBitVector.op_minus bv y_bv;
                   Some (settle_bv bv s));
            Some (reduce x)
        | iv_descr y_iv =>
            let iv := FDIntervals.newIntervals (1 + zlen y_iv) in
            x_iv ← asIntervals x;
            '(iv, s) ← FDIntervals.subtract_iv (zlen iv) x_iv y_iv;
            x ← settle_iv iv s;
            x ← shrink_iv x;
            Some (reduce x)
        end
    | bv_descr bv =>
        y_bv ← asBitVector y;
        '(bv, s) ← FDBitVector.op_minus bv y_bv;
        Some (reduce (settle_bv bv s))
    | iv_descr x_iv =>
        y_iv ← asIntervals y;
        let iv := FDIntervals.newIntervals (zlen x_iv + zlen y_iv) in
        '(iv, s) ← FDIntervals.subtract_iv (zlen iv) x_iv y_iv;
        x ← settle_iv iv s;
        x ← shrink_iv x;
        Some (reduce x)
    end.

(** The copy loops of [operator +=] into a taller vector. *)
Definition grow_bv (bv_backup bv : list Z) : option (list Z) :=
  bv ← for_down (length bv_backup) (fun i b => w ← bv_backup.[i]; b.[i <- w]) bv;
  for_up (zlen bv_backup) (Z.to_nat (zlen bv - zlen bv_backup)) (fun i b => b.[i <- 0]) bv.

(** Case [bv_descr], element above [fd_bv_max_elem]: the runs go to the
    conversion arrays, and the element joins the last run or follows it. *)
Definition plus_convert (x : FiniteDomain) (bv : list Z) (put_in : Z) : option (list i_arr_type) :=
  conv ← FDBitVector.mkRaw (fd_bv_conv_max_high fd_env) bv;
  let c_len := zlen conv in
  if put_in =? max_elem x + 1 then
    e ← conv.[c_len - 1];
    conv ← conv.[c_len - 1 <- Iv (iv_left e) (iv_right e + 1)];
    FDIntervals.initList (provideIntervals x c_len) conv
  else
    conv ← apush (fd_bv_conv_max_high fd_env) conv (Iv put_in put_in);
    FDIntervals.initList (provideIntervals x (c_len + 1)) conv.

(** The addition of a new element by [operator += (int)], the size apart. *)
Definition plus_new (x : FiniteDomain) (put_in : Z) : option FiniteDomain :=
  match descr x with
  | fd_descr =>
      if put_in =? min_elem x - 1 then
        Some (FD (min_elem x - 1) (max_elem x) (size x) fd_descr)
      else if put_in =? max_elem x + 1 then
        Some (FD (min_elem x) (max_elem x + 1) (size x) fd_descr)
      else
        let max_put_in := Z.max put_in (max_elem x) in
        if max_put_in <=? fd_bv_max_elem fd_env then
          bv ← provideBitVector x (word32 max_put_in);
          bv ← FDBitVector.setFromTo bv (min_elem x) (max_elem x);
          bv ← FDBitVector.setBit bv put_in;
          Some (settle_bv bv (size x))
        else if put_in <? min_elem x then
          iv ← FDIntervals.init2 (provideIntervals x 2)
                 put_in put_in (min_elem x) (max_elem x);
          Some (FD put_in (max_elem x) (size x) (iv_descr iv))
        else
          iv ← FDIntervals.init2 (provideIntervals x 2)
                 (min_elem x) (max_elem x) put_in put_in;
          Some (FD (min_elem x) put_in (size x) (iv_descr iv))
  | bv_descr bv =>
      if put_in <=? FDBitVector.currBvMaxElem bv then
        bv ← FDBitVector.setBit bv put_in;
        Some (settle_bv bv (size x))
      else if put_in <=? fd_bv_max_elem fd_env then
        new ← FDBitVector.newBitVector (word32 put_in);
        new ← grow_bv bv new;
        new ← FDBitVector.setBit new put_in;
        Some (settle_bv new (size x))
      else
        iv ← plus_convert x bv put_in;
        Some (FD (min_elem x) put_in (size x) (iv_descr iv))
  | iv_descr iv =>
      iv ← FDIntervals.op_plus iv put_in;
      settle_iv iv (size x)
  end.

(** [operator += (int)] *)
Definition op_plus_int (x : FiniteDomain) (put_in : Z) : option FiniteDomain :=
  if (put_in <? fd_inf) || (fd_sup <? put_in) then Some x
  else if size x =? 0 then Some (reduce (FD put_in put_in 1 (descr x)))
  else
    b ← isIn x put_in;
    if (b : bool) then Some (reduce x)
    else
      x' ← plus_new x put_in;
      Some (reduce (setSize x' (size x' + 1))).

(** ** Assignment *)

Definition assign (x fd : FiniteDomain) : option FiniteDomain :=
  match descr fd with
  | fd_descr => Some (FD (min_elem fd) (max_elem fd) (size fd) fd_descr)
  | bv_descr bv =>
      item ← FDBitVector.newBitVector (zlen bv);
      item ← FDBitVector.assign item bv;
      Some (FD (min_elem fd) (max_elem fd) (size fd) (bv_descr item))
  | iv_descr iv =>
      item ← FDIntervals.assign (FDIntervals.newIntervals (zlen iv)) iv;
      Some (FD (min_elem fd) (max_elem fd) (size fd) (iv_descr item))
  end.

Definition copyExtension (x : FiniteDomain) : option FiniteDomain :=
  match descr x with
  | fd_descr => Some (setType x fd_descr)
  | bv_descr bv => bv ← FDBitVector.copy bv; Some (setType x (bv_descr bv))
  | iv_descr iv => iv ← FDIntervals.copy iv; Some (setType x (iv_descr iv))
  end.

(** ** Set operations *)

Definition op_or (x y : FiniteDomain) : option FiniteDomain :=
  let z := initEmpty in
  x_empty ← eq_state x fd_empty;
  y_empty ← eq_state y fd_empty;
  z ← (if (x_empty : bool) then assign z y
       else if (y_empty : bool) then assign z x
       else if fd_bv_max_elem fd_env <? Z.max (max_elem x) (max_elem y) then
         x_v ← asIntervals x;
         y_v ← asIntervals y;
         let z_v := FDIntervals.newIntervals (zlen x_v + zlen y_v) in
         '(z_v, s) ← FDIntervals.union_iv (zlen z_v) x_v y_v;
         settle_iv z_v s
       else
         x_v ← asBitVector x;
         y_v ← asBitVector y;
         z_v ← FDBitVector.newBitVector (Z.max (zlen x_v) (zlen y_v));
         '(z_v, s) ← FDBitVector.union_bv z_v x_v y_v;
         Some (settle_bv z_v s));
  Some (reduce z).

(** [operator &= (const OZ_FiniteDomainImpl &)] *)
Definition op_and_eq (x y : FiniteDomain) : option FiniteDomain :=
  x_empty ← eq_state x fd_empty;
  y_empty ← eq_state y fd_empty;
  if x_empty || y_empty then Some initEmpty
  else
    z ← (if is_fd x && is_fd y then
           if (max_elem x <? min_elem y) || (max_elem y <? min_elem x) then Some (setSize x 0)
           else
             let z := FD (Z.max (min_elem x) (min_elem y)) (Z.min (max_elem x) (max_elem y))
                          (size x) (descr x) in
             Some (setSize z (findSize z))
         else if fd_bv_max_elem fd_env <? Z.min (max_elem x) (max_elem y) then
             x_i ← asIntervals x;
             y_i ← asIntervals y;
             let z_i := FDIntervals.newIntervals (zlen x_i + zlen y_i - 1) in
             '(z_i, s) ← FDIntervals.intersect_iv (zlen z_i) x_i y_i;
             settle_iv z_i s
           else
             x_b ← asBitVector x;
             y_b ← asBitVector y;
             '(x_b, s) ← FDBitVector.intersect_bv x_b y_b;
             Some (settle_bv x_b s));
    Some (reduce z).

(** [operator &], which allocates its result. *)
Definition op_and (x y : FiniteDomain) : option FiniteDomain :=
  let z := initEmpty in
  x_empty ← eq_state x fd_empty;
  y_empty ← eq_state y fd_empty;
  if x_empty || y_empty then Some z
  else
    z ← (if is_fd x && is_fd y then
           if (max_elem x <? min_elem y) || (max_elem y <? min_elem x) then Some (setSize z 0)
           else
             let z := FD (Z.max (min_elem x) (min_elem y)) (Z.min (max_elem x) (max_elem y))
                          (size z) (descr z) in
             Some (setSize z (findSize z))
         else if fd_bv_max_elem fd_env <? Z.min (max_elem x) (max_elem y) then
             x_i ← asIntervals x;
             y_i ← asIntervals y;
             let z_i := FDIntervals.newIntervals (zlen x_i + zlen y_i - 1) in
             '(z_i, s) ← FDIntervals.intersect_iv (zlen z_i) x_i y_i;
             settle_iv z_i s
           else
             x_b ← asBitVector x;
             y_b ← asBitVector y;
             z_b ← FDBitVector.newBitVector (Z.min (zlen x_b) (zlen y_b));
             '(z_b, s) ← FDBitVector.intersect_bv2 z_b x_b y_b;
             Some (settle_bv z_b s));
    Some (reduce z).

(** [operator ~] *)
Definition op_not (x : FiniteDomain) : option FiniteDomain :=
  let y := initEmpty in
  x_empty ← eq_state x fd_empty;
  if (x_empty : bool) then Some initFull
  else if size x =? fd_full_size then Some initEmpty
  else
    match descr x with
    | fd_descr =>
        if min_elem x =? 0 then
          let y := FD (max_elem x + 1) fd_sup (size y) (descr y) in
          Some (setSize y (findSize y))
        else if max_elem x =? fd_sup then
          let y := FD 0 (min_elem x - 1) (size y) (descr y) in
          Some (setSize y (findSize y))
        else
          iv ← FDIntervals.init2 (FDIntervals.newIntervals 2)
                 fd_inf (min_elem x - 1) (max_elem x + 1) fd_sup;
          s ← FDIntervals.findSize iv;
          Some (FD 0 fd_sup s (iv_descr iv))
    | _ =>
        iv ← (match descr x with
              | bv_descr bv =>
                  ivs ← FDBitVector.mkRaw (fd_bv_conv_max_high fd_env) bv;
                  FDIntervals.complement
                    (FDIntervals.newIntervals (zlen ivs + Z.b2z (0 <? min_elem x))) ivs
              | iv_descr x_iv =>
                  FDIntervals.complement
                    (FDIntervals.newIntervals (zlen x_iv - 1 + Z.b2z (fd_inf <? min_elem x)
                       + Z.b2z (max_elem x <? fd_sup))) x_iv
              | fd_descr => None
              end);
        s ← FDIntervals.findSize iv;
        y ← settle_iv iv s;
        y ← (if max_elem y <=? fd_bv_max_elem fd_env then
               bv ← asBitVector y;
               bv_size ← FDBitVector.findSize bv;
               if size y =? bv_size then Some (setType y (bv_descr bv)) else None
             else Some y);
        Some (reduce y)
    end.
(** ** Construction from descriptions *)

(** The pointers into [list_left] that [simplify] sorts are indices here. *)
Definition ptr_key (ivs : list i_arr_type) (p : Z) : Z := default 0 (iv_left <$> ivs.[p]).
Definition Order_IntPtr_Inc (ivs : list i_arr_type) (ip jp : Z) : bool :=
  ptr_key ivs ip <? ptr_key ivs jp.

(** The merging loop: [cur] is the interval being written, [rest] what is
    left of the sorted copies. *)
Fixpoint simplify_merge (cur : i_arr_type) (rest : list i_arr_type) : list i_arr_type :=
  match rest with
  | [] => [cur]
  | e :: rest =>
      if iv_left e - 1 <=? iv_right cur then
        simplify_merge (Iv (iv_left cur) (Z.max (iv_right cur) (iv_right e))) rest
      else cur :: simplify_merge e rest
  end.

(** The invariant [simplify] asserts. *)
Fixpoint simplify_assert (ivs : list i_arr_type) : bool :=
  match ivs with
  | e1 :: ((e2 :: _) as rest) => (iv_right e1 <=? iv_left e2) && simplify_assert rest
  | _ => true
  end.

Definition simplify (ivs : list i_arr_type) : option (list i_arr_type) :=
  ptrs ← Sort.fastsort (Order_IntPtr_Inc ivs) (seqZ 0 (zlen ivs)) (zlen ivs);
  sorted ← mapM (fun p => ivs.[p]) ptrs;
  match sorted with
  | [] => None
  | e :: rest =>
      let res := simplify_merge e rest in
      if simplify_assert res then Some res else None
  end.

Definition initList (x : FiniteDomain) (ivs : list i_arr_type) (list_min list_max : Z)
    : option FiniteDomain :=
  if zlen ivs =? 0 then Some initEmpty
  else
    x ← (if zlen ivs =? 1 then Some (FD list_min list_max (list_max - list_min + 1) fd_descr)
         else if list_max <=? fd_bv_max_elem fd_env then
           bv ← provideBitVector x (word32 list_max);
           bv ← FDBitVector.initList bv ivs;
           s ← FDBitVector.findSize bv;
           Some (FD list_min list_max s (bv_descr bv))
         else
           ivs ← simplify ivs;
           iv ← FDIntervals.initList (provideIntervals x (zlen ivs)) ivs;
           s ← FDIntervals.findSize iv;
           Some (FD list_min list_max s (iv_descr iv)));
    Some (reduce x).

Definition FDOMNINITSIZE : Z := 1000.

(** The locals of the list case of [initDescr]: the two enlargeable arrays,
    filled in step, their allocated size, and the bounds seen so far. *)
Record descr_acc := Acc {
  acc_arr : list i_arr_type; acc_size : Z; min_arr : Z; max_arr : Z
}.

(** One entry, and the [request] that follows it. *)
Definition acc_add (a : descr_acc) (l r : Z) : option descr_acc :=
  arr ← apush (acc_size a) (acc_arr a) (Iv l r);
  Some (Acc arr (if acc_size a <=? zlen arr then zlen arr + 100 else acc_size a)
          (Z.min (min_arr a) l) (Z.max (max_arr a) r)).

(** [AtomSup == t ? fd_sup : tagged2SmallInt(t)] *)
Definition bound_of (t : OZ_Term) : option Z :=
  match t with TSup => Some fd_sup | TInt n => Some n | _ => None end.

Definition initDescr_elem (val : OZ_Term) (a : descr_acc) : option descr_acc :=
  match val with
  | TInt v => if (v <? fd_inf) || (fd_sup <? v) then Some a else acc_add a v v
  | TSup => acc_add a fd_sup fd_sup
  | TBool => acc_add a 0 1
  | TTuple t0 t1 =>
      l ← bound_of t0;
      r ← bound_of t1;
      let l := Z.max 0 l in
      let r := Z.min fd_sup r in
      if r <? l then Some a else acc_add a l r
  | _ => None
  end.

Fixpoint initDescr_list (d : OZ_Term) (a : descr_acc) : option descr_acc :=
  match d with
  | TCons val tl => a ← initDescr_elem val a; initDescr_list tl a
  | _ => Some a
  end.

(** Terms the code does not expect, for which it reports an error, have no result. *)
Fixpoint initDescr (x : FiniteDomain) (d : OZ_Term) : option FiniteDomain :=
  match d with
  | TTuple1 arg => x ← initDescr x arg; y ← op_not x; assign x y
  | TInt n => Some (initSingleton n)
  | TSup => Some (initSingleton fd_sup)
  | TTuple t0 t1 => l ← bound_of t0; r ← bound_of t1; Some (initRange x l r)
  | TBool => Some (initRange x 0 1)
  | TNil => Some initEmpty
  | TCons _ _ =>
      a ← initDescr_list d (Acc [] FDOMNINITSIZE fd_sup 0);
      initList x (acc_arr a) (min_arr a) (max_arr a)
  | TOther => None
  end.
End operations.
End FiniteDomain.
