(* ===== verification/FDRepr.v ===== *)
(** * The representation invariant of finite domains

    A domain object stands for the finite set whose characteristic function is
    [fd_mem]; [repr x P] says that the object is well formed and stands for
    [P].  The conversions and the queries of [FiniteDomain] are specified here. *)
From S2P Require Import Prelude Word32 FDBase FDIntervals FDIntervalSets FDBitVector Sort FiniteDomain.

Module FDRepr.

(** ** Cardinality *)

Definition card (P : Z -> bool) : Z := count_range P 0 (Z.to_nat fd_full_size).

Lemma full_size_nat : Z.of_nat (Z.to_nat fd_full_size) = fd_sup + 1.
Proof. rewrite Z2Nat.id; unfold fd_full_size, fd_sup; lia. Qed.

#[local] Opaque fd_full_size Z.to_nat.

Lemma card_restrict P l r :
  0 <= l -> l <= r + 1 -> r <= fd_sup -> (forall v, P v = true -> l <= v <= r) ->
  card P = count_range P l (Z.to_nat (r - l + 1)).
Proof.
  intros Hl Hlr Hr HP. apply count_range_restrict; rewrite ?full_size_nat; try lia.
  intros i _. apply HP.
Qed.

Lemma card_ext P Q : (forall v, P v = Q v) -> card P = card Q.
Proof. intros HPQ. apply count_range_ext. intros i _. apply HPQ. Qed.

#[global] Instance card_proper : Proper (pointwise_relation Z eq ==> eq) card.
Proof. intros P Q. apply card_ext. Qed.

Lemma card_empty P : (forall v, P v = false) -> card P = 0.
Proof. intros HP. apply count_range_none. intros i _. apply HP. Qed.

Lemma card_range P l r :
  0 <= l -> l <= r + 1 -> r <= fd_sup -> (forall v, P v = (l <=? v) && (v <=? r)) -> card P = r - l + 1.
Proof.
  intros Hl Hlr Hr HP. rewrite (card_restrict P l r) by (try lia; intros v; rewrite HP; lia).
  rewrite count_range_all; [lia|]. intros i Hi. rewrite HP. lia.
Qed.

Lemma card_full P l r v :
  0 <= l -> l <= r -> r <= fd_sup -> (forall v, P v = true -> l <= v <= r) ->
  card P = r - l + 1 -> l <= v <= r -> P v = true.
Proof.
  intros Hl Hlr Hr HP Hc Hv. rewrite (card_restrict P l r) in Hc by (lia || done).
  apply (count_range_full_inv P l (Z.to_nat (r - l + 1))); lia.
Qed.

Lemma card_nonneg P : 0 <= card P.
Proof. apply count_range_bounds. Qed.

Lemma card_zero P v : card P = 0 -> 0 <= v <= fd_sup -> P v = false.
Proof. intros Hc Hv. eapply count_range_zero_inv; [exact Hc|]. rewrite full_size_nat. lia. Qed.

Lemma card_pos P v : 0 <= v <= fd_sup -> P v = true -> 0 < card P.
Proof.
  intros Hv HP. pose proof (card_nonneg P). destruct (Z.eq_dec (card P) 0) as [E|]; [|lia].
  rewrite (card_zero P v E Hv) in HP. done.
Qed.

Lemma card_pos_inv P : 0 < card P -> exists v, P v = true.
Proof.
  intros Hc. destruct (first_true P 0 (Z.to_nat fd_full_size)) as [Hno|(k & _ & Hk & _)]; [|by exists k].
  unfold card in Hc. rewrite count_range_none in Hc; [lia|done].
Qed.

Lemma card_point P Q x :
  0 <= x <= fd_sup -> (forall v, v <> x -> P v = Q v) ->
  card P - Z.b2z (P x) = card Q - Z.b2z (Q x).
Proof. intros Hx HPQ. apply count_range_point; [rewrite full_size_nat; lia|done]. Qed.

Lemma card_total l : FDIntervals.seg 0 fd_sup l -> FDIntervals.total l = card (FDIntervals.mem l).
Proof.
  intros Hs. symmetry. eapply FDIntervals.total_count; [exact Hs|]. rewrite full_size_nat. lia.
Qed.

Lemma card_bv bv : 32 * zlen bv <= fd_sup + 1 -> FDBitVector.bv_count bv = card (words_mem bv).
Proof.
  intros Hb. unfold FDBitVector.bv_count. pose proof (zlen_nonneg bv).
  rewrite (card_restrict _ 0 (32 * zlen bv - 1)); [f_equal; lia|lia|lia|lia|].
  intros v Hv. destruct (decide (0 <= v <= 32 * zlen bv - 1)); [done|].
  rewrite words_mem_out in Hv by lia. done.
Qed.

Lemma card_split P Q R :
  (forall v, 0 <= v <= fd_sup -> Z.b2z (P v) + Z.b2z (Q v) = Z.b2z (R v)) -> card P + card Q = card R.
Proof.
  intros HPQ. unfold card. assert (forall v, 0 <= v < 0 + Z.of_nat (Z.to_nat fd_full_size) ->
    Z.b2z (P v) + Z.b2z (Q v) = Z.b2z (R v)) as Hs.
  { intros v. rewrite full_size_nat. intros Hv. apply HPQ. lia. }
  revert Hs. generalize 0 as lo. generalize (Z.to_nat fd_full_size) as n.
  induction n as [|n IH]; intros lo Hs; cbn [count_range]; [done|].
  pose proof (Hs lo ltac:(lia)). specialize (IH (lo + 1) ltac:(intros; apply Hs; lia)). lia.
Qed.

(** The complement within the range. *)
Lemma card_not P :
  (forall v, P v = true -> 0 <= v <= fd_sup) ->
  card (fun v => (0 <=? v) && (v <=? fd_sup) && negb (P v)) = fd_full_size - card P.
Proof.
  intros HP. assert (card (fun v => (0 <=? v) && (v <=? fd_sup)) = fd_sup - 0 + 1) as Hfull.
  { apply card_range; done. }
  rewrite <- (card_split P (fun v => (0 <=? v) && (v <=? fd_sup) && negb (P v))) in Hfull.
  - transitivity (fd_sup - 0 + 1 - card P); [lia|]. f_equal.
  - intros v Hv. destruct (P v); simpl; lia.
Qed.

#[global] Opaque card.

(** ** Well-formed domains *)

Section repr.
Context `{FDEnv}.
Implicit Types (x y : FiniteDomain) (P : Z -> bool).

Definition dmem x (v : Z) : bool :=
  (min_elem x <=? v) && (v <=? max_elem x) &&
  match descr x with
  | fd_descr => true
  | iv_descr iv => FDIntervals.mem iv v
  | bv_descr bv => words_mem bv v
  end.

(** The set a domain stands for. *)
Definition fd_mem x (v : Z) : bool := (0 <? size x) && dmem x v.

Definition descr_ok x : Prop :=
  match descr x with
  | fd_descr => True
  | iv_descr iv => FDIntervals.seg (min_elem x) (max_elem x) iv
  | bv_descr bv =>
      Forall is_word bv /\ zlen bv <= fd_bv_max_high fd_env /\
      forall v, words_mem bv v = true -> min_elem x <= v <= max_elem x
  end.

Definition descr_room x : Prop :=
  match descr x with bv_descr bv => zlen bv <= fd_bv_max_high fd_env | _ => True end.

(** A domain is empty, whatever bounds and descriptor it keeps, or its bounds
    are members, its size is its cardinality, and its descriptor is valid and
    needed. *)
Definition wf x : Prop :=
  0 <= size x /\ descr_room x /\
  (0 < size x ->
    0 <= min_elem x /\ max_elem x <= fd_sup /\
    dmem x (min_elem x) = true /\ dmem x (max_elem x) = true /\
    size x = card (dmem x) /\ descr_ok x /\
    (descr x <> fd_descr -> FiniteDomain.isSingleInterval x = false)).

Definition repr x P : Prop := wf x /\ forall v, fd_mem x v = P v.

#[global] Instance repr_proper x : Proper (pointwise_relation Z eq ==> iff) (repr x).
Proof. intros P Q HPQ. unfold repr. by setoid_rewrite HPQ. Qed.

Lemma repr_ext x P Q : (forall v, P v = Q v) -> repr x P -> repr x Q.
Proof. intros HPQ [Hw Hm]. split; [done|]. intros v. by rewrite Hm. Qed.

(** The facts a representation gives, when the set is not empty. *)
Lemma repr_elim x P :
  repr x P -> 0 < size x ->
  0 <= min_elem x /\ min_elem x <= max_elem x /\ max_elem x <= fd_sup /\
  P (min_elem x) = true /\ P (max_elem x) = true /\
  (forall v, P v = true -> min_elem x <= v <= max_elem x) /\
  size x = card P /\ descr_ok x /\ (forall v, dmem x v = P v).
Proof.
  intros [(_ & _ & Hw) Hm] Hs. destruct (Hw Hs) as (H1 & H2 & H3 & H4 & H5 & H6 & H7).
  assert (forall v, dmem x v = P v) as HP.
  { intros v. rewrite <- Hm. unfold fd_mem. by rewrite (proj2 (Z.ltb_lt _ _) Hs). }
  rewrite <- !HP. split_and!; try done.
  - unfold dmem in H3. lia.
  - intros v. rewrite <- HP. unfold dmem. lia.
  - rewrite H5. by apply card_ext.
Qed.

Lemma repr_card x P : repr x P -> size x = card P.
Proof.
  intros Hr. pose proof Hr as [(Hs & _) Hm]. destruct (Z.eq_dec (size x) 0) as [E|].
  - rewrite E. symmetry. apply card_empty. intros v. rewrite <- Hm. unfold fd_mem. by rewrite E.
  - eapply repr_elim; [done|lia].
Qed.

Lemma repr_size0 x P : repr x P -> size x = 0 -> forall v, P v = false.
Proof. intros [_ Hm] E v. rewrite <- Hm. unfold fd_mem. by rewrite E. Qed.

Lemma repr_bounds x P v : repr x P -> P v = true -> 0 < size x /\ 0 <= v <= fd_sup.
Proof.
  intros Hr Hv. destruct (Z.eq_dec (size x) 0) as [E|].
  - by rewrite (repr_size0 x P Hr E v) in Hv.
  - assert (0 < size x) by (destruct Hr as [(? & _) _]; lia). split; [done|].
    destruct (repr_elim x P Hr) as (? & ? & ? & _ & _ & Hb & _); [done|]. specialize (Hb v Hv). lia.
Qed.

Lemma repr_empty x P : size x = 0 -> descr_room x -> (forall v, P v = false) -> repr x P.
Proof.
  intros E Hd HP. split; [split_and!; [lia|done|lia]|]. intros v. unfold fd_mem. by rewrite E, HP.
Qed.

Lemma repr_reduce_empty x P :
  size x = 0 -> descr_room x -> (forall v, P v = false) -> repr (FiniteDomain.reduce x) P.
Proof.
  intros E Hd HP. apply repr_empty; [..|done]; unfold FiniteDomain.reduce;
    by destruct (FiniteDomain.isSingleInterval x).
Qed.

Lemma repr_initEmpty P : (forall v, P v = false) -> repr FiniteDomain.initEmpty P.
Proof. by apply repr_empty. Qed.

(** Installing bounds, size and descriptor of a non-empty set. *)
Lemma repr_intro x P :
  0 <= min_elem x -> max_elem x <= fd_sup -> P (min_elem x) = true -> P (max_elem x) = true ->
  (forall v, P v = true -> min_elem x <= v <= max_elem x) -> size x = card P ->
  descr_ok x -> (forall v, dmem x v = P v) -> repr (FiniteDomain.reduce x) P.
Proof.
  intros H1 H2 H3 H4 H5 H6 H7 H8. pose proof (H5 _ H4).
  assert (0 < size x) by (rewrite H6; apply (card_pos P (min_elem x)); [lia|done]).
  assert (size x = card (dmem x)) by (rewrite H6; by apply card_ext).
  assert (descr_room x) by (unfold descr_ok, descr_room in *; destruct (descr x); tauto).
  unfold FiniteDomain.reduce. destruct (FiniteDomain.isSingleInterval x) eqn:E.
  - assert (forall v, P v = (min_elem x <=? v) && (v <=? max_elem x)) as HP.
    { intros v. destruct (decide (min_elem x <= v <= max_elem x)).
      - rewrite (card_full P (min_elem x) (max_elem x) v); try done; try lia.
        unfold FiniteDomain.isSingleInterval in E. lia.
      - destruct (P v) eqn:Ev; [apply H5 in Ev|]; lia. }
    assert (forall v, dmem (FiniteDomain.setType x fd_descr) v = P v) as HD.
    { intros v. rewrite HP. unfold dmem. simpl. by rewrite andb_true_r. }
    split.
    + split; [simpl; lia|]. split; [done|]. intros _. rewrite !HD. cbn [FiniteDomain.setType min_elem max_elem size descr].
      split_and!; try done. rewrite H6. symmetry. by apply card_ext.
    + intros v. unfold fd_mem. rewrite HD. simpl. by rewrite (proj2 (Z.ltb_lt _ _)).
  - split.
    + split; [lia|]. split; [done|]. intros _. rewrite !H8. by split_and!.
    + intros v. unfold fd_mem. rewrite H8. by rewrite (proj2 (Z.ltb_lt _ _)).
Qed.

(** Single intervals need no reduction. *)
Lemma repr_range l r P :
  0 <= l -> l <= r -> r <= fd_sup -> (forall v, P v = (l <=? v) && (v <=? r)) ->
  repr (FD l r (r - l + 1) fd_descr) P.
Proof.
  intros Hl Hlr Hr HP.
  assert (FD l r (r - l + 1) fd_descr = FiniteDomain.reduce (FD l r (r - l + 1) fd_descr)) as ->.
  { unfold FiniteDomain.reduce. by destruct (FiniteDomain.isSingleInterval _). }
  apply repr_intro; simpl; rewrite ?HP; try lia; try done.
  - intros v. rewrite HP. lia.
  - symmetry. apply card_range; try done; lia.
  - intros v. rewrite HP. unfold dmem. simpl. by rewrite andb_true_r.
Qed.

(** ** Conversions *)

Context (Hg : globals_ok fd_env).

Lemma max_high_facts :
  0 <= fd_bv_max_high fd_env /\ fd_bv_max_elem fd_env = 32 * fd_bv_max_high fd_env - 1 /\
  fd_bv_max_elem fd_env < fd_sup /\ word32 (fd_bv_max_elem fd_env) = fd_bv_max_high fd_env.
Proof using Hg.
  destruct Hg as (H1 & H2 & _ & H3). split_and!; try done.
  destruct (word32_spec (fd_bv_max_elem fd_env)); lia.
Qed.

Lemma word32_le a b : -1 <= a -> a <= b -> word32 a <= word32 b.
Proof using. intros Ha Hb. destruct (word32_spec a), (word32_spec b); lia. Qed.

Lemma newBitVector_spec hi :
  0 <= hi <= fd_bv_max_high fd_env -> exists bv, FDBitVector.newBitVector hi = Some bv /\ zlen bv = hi.
Proof using Hg.
  intros Hhi. destruct max_high_facts as (_ & _ & _ & Hw).
  unfold FDBitVector.newBitVector. rewrite Hw. destruct (Z.leb_spec hi (fd_bv_max_high fd_env)); [|lia].
  eexists; split; [done|]. unfold zlen. rewrite length_fmap, length_seqZ. lia.
Qed.

Lemma bitVector_for m :
  -1 <= m <= fd_bv_max_elem fd_env ->
  exists bv, FDBitVector.newBitVector (word32 m) = Some bv /\ zlen bv = word32 m /\
    zlen bv <= fd_bv_max_high fd_env /\ m <= FDBitVector.currBvMaxElem bv.
Proof using Hg.
  intros Hm. destruct max_high_facts as (_ & _ & _ & Hw). destruct (word32_spec m); [lia|].
  pose proof (word32_le m (fd_bv_max_elem fd_env)).
  destruct (newBitVector_spec (word32 m)) as (bv & Hb & Hl); [lia|].
  exists bv. unfold FDBitVector.currBvMaxElem. split_and!; try done; lia.
Qed.

Lemma asBitVector_fill_spec iv bv lo :
  0 <= lo -> FDIntervals.seg lo fd_sup iv -> Forall is_word bv ->
  (forall v, FDIntervals.mem iv v = true -> v <= fd_bv_max_elem fd_env ->
     v <= FDBitVector.currBvMaxElem bv) ->
  exists bv', FiniteDomain.asBitVector_fill iv bv = Some bv' /\ zlen bv' = zlen bv /\
    Forall is_word bv' /\
    forall v, words_mem bv' v = words_mem bv v || (FDIntervals.mem iv v && (v <=? fd_bv_max_elem fd_env)).
Proof using.
  revert bv lo. induction iv as [|e iv IH]; intros bv lo Hlo Hs Hw Hmax.
  { exists bv. split_and!; try done. intros v. by rewrite FDIntervals.mem_nil, orb_false_r. }
  destruct Hs as (H1 & H2 & H3 & Hs). cbn [FiniteDomain.asBitVector_fill].
  destruct (Z.leb_spec (iv_left e) (fd_bv_max_elem fd_env)) as [Hle|Hgt].
  - destruct (FDBitVector.addFromTo_spec bv (iv_left e) (Z.min (iv_right e) (fd_bv_max_elem fd_env)))
      as (b1 & -> & Hl1 & Hw1 & Hm1); [done|lia|lia| |].
    { apply Hmax; [|lia]. rewrite FDIntervals.mem_cons. unfold FDIntervals.iv_in. lia. }
    ored. destruct (IH b1 (iv_right e + 2)) as (b2 & -> & Hl2 & Hw2 & Hm2); [lia|done|done| |].
    { unfold FDBitVector.currBvMaxElem in *. rewrite Hl1. intros v Hv. apply Hmax.
      rewrite FDIntervals.mem_cons, Hv. by rewrite orb_true_r. }
    exists b2. split_and!; [done|congruence|done|]. intros v.
    rewrite Hm2, Hm1, FDIntervals.mem_cons. unfold FDIntervals.iv_in. lia.
  - exists bv. split_and!; try done. intros v.
    assert (FDIntervals.mem (e :: iv) v = true -> iv_left e <= v) as Hv.
    { apply FDIntervals.mem_bounds with (hi := fd_sup). simpl. split_and!; try done; lia. }
    destruct (FDIntervals.mem (e :: iv) v); [|by rewrite orb_false_r]. specialize (Hv eq_refl).
    destruct (Z.leb_spec v (fd_bv_max_elem fd_env)); [lia|]. by rewrite orb_false_r.
Qed.

(** [asBitVector] on an interval list, whose bounds need only be an upper bound. *)
Lemma asBitVector_iv x iv :
  descr x = iv_descr iv -> FDIntervals.seg 0 fd_sup iv -> -1 <= max_elem x ->
  (forall v, FDIntervals.mem iv v = true -> v <= max_elem x) ->
  exists bv, FiniteDomain.asBitVector x = Some bv /\ Forall is_word bv /\
    zlen bv <= fd_bv_max_high fd_env /\
    forall v, words_mem bv v = FDIntervals.mem iv v && (v <=? fd_bv_max_elem fd_env).
Proof using Hg.
  intros Hd Hs Hm Hmax. unfold FiniteDomain.asBitVector. rewrite Hd.
  destruct max_high_facts as (? & ? & ? & _).
  destruct (bitVector_for (Z.min (fd_bv_max_elem fd_env) (max_elem x))) as (b0 & -> & _ & Hb0 & Hc0); [lia|].
  ored. destruct (FDBitVector.setEmpty_spec b0) as (b1 & -> & Hl1 & Hw1 & Hm1). ored.
  destruct (asBitVector_fill_spec iv b1 0) as (b2 & -> & Hl2 & Hw2 & Hm2); [done|done|done| |].
  { intros v Hv%Hmax ?. unfold FDBitVector.currBvMaxElem in *. rewrite Hl1. lia. }
  assert (forall v, words_mem b2 v = FDIntervals.mem iv v && (v <=? fd_bv_max_elem fd_env)) as Hb2.
  { intros v. by rewrite Hm2, Hm1. }
  ored. rewrite FDBitVector.findSize_spec by done. rewrite FDIntervals.findSize_total.
  assert (exists m, FDIntervals.findMaxElem iv = Some m /\
    (fd_bv_max_elem fd_env < m \/ forall v, FDIntervals.mem iv v = true -> v <= m)) as (m & -> & Hiv).
  { destruct iv as [|iv e _] using rev_ind; [exists (-1); split; [done|by right]|].
    rewrite FDIntervals.findMaxElem_snoc. eexists; split; [done|]. right.
    apply FDIntervals.seg_app in Hs as (Hs & ? & ? & ? & _). intros v.
    rewrite FDIntervals.mem_app, FDIntervals.mem_cons, FDIntervals.mem_nil. unfold FDIntervals.iv_in.
    intros [Hv|Hv]%orb_true_iff; [|lia]. pose proof (FDIntervals.mem_bounds _ _ _ _ Hs Hv). lia. }
  ored. exists b2. fold (FDBitVector.bv_count b2).
  rewrite card_bv by lia. rewrite card_total by done.
  destruct (Z.ltb_spec (fd_bv_max_elem fd_env) m) as [|Hle]; [split_and!; try done; lia|].
  destruct Hiv as [|Hiv]; [lia|]. rewrite (card_ext (words_mem b2) (FDIntervals.mem iv)).
  - rewrite Z.eqb_refl. split_and!; try done. lia.
  - intros v. rewrite Hb2. destruct (FDIntervals.mem iv v) eqn:Ev; [|done].
    apply Hiv in Ev. simpl. lia.
Qed.

Lemma asBitVector_spec x P :
  repr x P -> 0 < size x ->
  exists bv, FiniteDomain.asBitVector x = Some bv /\ Forall is_word bv /\
    zlen bv <= fd_bv_max_high fd_env /\
    forall v, words_mem bv v = P v && (v <=? fd_bv_max_elem fd_env).
Proof using Hg.
  intros Hr Hsz. destruct (repr_elim x P Hr Hsz) as (H1 & H2 & H3 & H4 & H5 & H6 & H7 & H8 & H9).
  destruct max_high_facts as (? & Hmax & ? & _). unfold descr_ok in H8.
  destruct (descr x) as [|iv|bv] eqn:Hd.
  - unfold FiniteDomain.asBitVector, FiniteDomain.provideBitVector. rewrite Hd.
    assert (forall v, P v = (min_elem x <=? v) && (v <=? max_elem x)) as HP.
    { intros v. rewrite <- H9. unfold dmem. rewrite Hd. by rewrite andb_true_r. }
    destruct (bitVector_for (Z.min (fd_bv_max_elem fd_env) (max_elem x))) as (b0 & -> & _ & Hb0 & Hc0); [lia|].
    ored. destruct (Z.ltb_spec (fd_bv_max_elem fd_env) (min_elem x)).
    + destruct (FDBitVector.setEmpty_spec b0) as (b1 & -> & Hl1 & Hw1 & Hm1).
      exists b1. split_and!; try done; [lia|]. intros v. rewrite Hm1, HP. lia.
    + destruct (FDBitVector.setFromTo_spec b0 (min_elem x) (Z.min (fd_bv_max_elem fd_env) (max_elem x)))
        as (b1 & -> & Hl1 & Hw1 & Hm1); [lia|lia|lia|].
      exists b1. split_and!; try done; [lia|]. intros v. rewrite Hm1, HP. lia.
  - rename H8 into Hs.
    assert (forall v, FDIntervals.mem iv v = P v) as HP.
    { intros v. rewrite <- H9. unfold dmem. rewrite Hd. destruct (FDIntervals.mem iv v) eqn:Ev.
      - apply (FDIntervals.mem_bounds _ _ _ _ Hs) in Ev. lia.
      - by rewrite andb_false_r. }
    destruct (asBitVector_iv x iv) as (bv & -> & ? & ? & Hb); try done; try lia.
    + eapply FDIntervals.seg_weaken; [..|done]; lia.
    + intros v Hv%(FDIntervals.mem_bounds _ _ _ _ Hs). lia.
    + exists bv. split_and!; try done. intros v. by rewrite Hb, HP.
  - destruct H8 as (Hw & Hl & Hb). unfold FiniteDomain.asBitVector. rewrite Hd.
    exists bv. split_and!; try done. intros v. rewrite <- H9. unfold dmem. rewrite Hd.
    destruct (words_mem bv v) eqn:Ev; [|by rewrite andb_false_r].
    specialize (Hb v Ev). destruct (decide (v < 32 * zlen bv)); [lia|].
    rewrite words_mem_out in Ev by lia. done.
Qed.

(** Bounds that are known to hold for the members hold for the intervals. *)
Lemma seg_tighten lo hi a b l :
  FDIntervals.seg lo hi l -> (forall v, FDIntervals.mem l v = true -> a <= v <= b) ->
  FDIntervals.seg a b l.
Proof using.
  intros Hs Hm.
  assert (forall v, FDIntervals.mem l v = true -> v <= b) as Hb by (intros v Hv; by apply Hm).
  destruct l as [|e l]; [done|]. assert (a <= iv_left e) as Ha.
  { apply Hm. destruct Hs as (? & ? & _). rewrite FDIntervals.mem_cons. unfold FDIntervals.iv_in. lia. }
  clear Hm. assert (FDIntervals.seg a hi (e :: l)) as Hs' by (destruct Hs as (?&?&?&?); by split_and!).
  clear Hs. revert a Ha Hs' Hb. generalize e. clear e.
  induction l as [|e' l IH]; intros e a Ha (H1 & H2 & H3 & Hs) Hb.
  - simpl. split_and!; try done. apply Hb. rewrite FDIntervals.mem_cons. unfold FDIntervals.iv_in. lia.
  - split_and!; [lia|lia| |].
    + apply Hb. rewrite FDIntervals.mem_cons. unfold FDIntervals.iv_in. lia.
    + apply IH; [by destruct Hs|done|]. intros v Hv. apply Hb.
      rewrite FDIntervals.mem_cons, Hv. by rewrite orb_true_r.
Qed.

Lemma conv_room_bv (bv : list Z) :
  zlen bv <= fd_bv_max_high fd_env -> 16 * zlen bv + 1 <= fd_bv_conv_max_high fd_env.
Proof using Hg. pose proof (conv_room _ Hg). lia. Qed.

Lemma init1_new l r : FDIntervals.init1 (FDIntervals.newIntervals 1) l r = Some [Iv l r].
Proof using. done. Qed.

Lemma init2_new a b c d : FDIntervals.init2 (FDIntervals.newIntervals 2) a b c d = Some [Iv a b; Iv c d].
Proof using. done. Qed.

(** [mkRaw] on the vector of a well-formed domain. *)
Lemma mkRaw_repr bv lo hi P :
  Forall is_word bv -> zlen bv <= fd_bv_max_high fd_env -> (forall v, words_mem bv v = P v) ->
  (forall v, P v = true -> lo <= v <= hi) ->
  exists ivs, FDBitVector.mkRaw (fd_bv_conv_max_high fd_env) bv = Some ivs /\
    FDIntervals.seg lo hi ivs /\ (forall v, FDIntervals.mem ivs v = P v) /\
    zlen ivs <= 16 * zlen bv.
Proof using Hg.
  intros Hw Hl HP Hb. pose proof (conv_room_bv bv Hl).
  destruct (FDBitVector.mkRaw_spec (fd_bv_conv_max_high fd_env) bv) as (ivs & -> & Hs & Hn & Hm);
    [done|lia|].
  exists ivs. split_and!; try done.
  - eapply seg_tighten; [done|]. intros v Hv. apply Hb. by rewrite <- HP, <- Hm.
  - intros v. by rewrite Hm.
Qed.

Lemma asIntervals_spec x P :
  repr x P -> 0 < size x ->
  exists iv, FiniteDomain.asIntervals x = Some iv /\ iv <> [] /\
    FDIntervals.seg (min_elem x) (max_elem x) iv /\ forall v, FDIntervals.mem iv v = P v.
Proof using Hg.
  intros Hr Hsz. destruct (repr_elim x P Hr Hsz) as (H1 & H2 & H3 & H4 & H5 & H6 & H7 & H8 & H9).
  enough (exists iv, FiniteDomain.asIntervals x = Some iv /\
    FDIntervals.seg (min_elem x) (max_elem x) iv /\ forall v, FDIntervals.mem iv v = P v)
    as (iv & ? & ? & Hm).
  { exists iv. split_and!; try done. intros ->. specialize (Hm (min_elem x)). by rewrite FDIntervals.mem_nil, H4 in Hm. }
  unfold FiniteDomain.asIntervals, FiniteDomain.provideIntervals, descr_ok in *.
  destruct (descr x) as [|iv|bv] eqn:Hd.
  - rewrite init1_new. eexists; split_and!; [done|simpl; lia|]. intros v. rewrite <- H9.
    unfold dmem. rewrite Hd, FDIntervals.mem_cons, FDIntervals.mem_nil. unfold FDIntervals.iv_in. simpl.
    by rewrite andb_true_r, orb_false_r.
  - rename H8 into Hs. exists iv. split_and!; try done. intros v. rewrite <- H9.
    unfold dmem. rewrite Hd. destruct (FDIntervals.mem iv v) eqn:Ev; [|by rewrite andb_false_r].
    apply (FDIntervals.mem_bounds _ _ _ _ Hs) in Ev. lia.
  - destruct H8 as (Hw & Hl & Hb). destruct Hr as [(_ & _ & Hwf) _]. destruct (Hwf Hsz) as (_ & _ & _ & _ & _ & _ & Hns).
    rewrite Hns by by rewrite Hd.
    destruct (mkRaw_repr bv (min_elem x) (max_elem x) P) as (ivs & -> & Hs & Hm & _); try done.
    { intros v. rewrite <- H9. unfold dmem. rewrite Hd. destruct (words_mem bv v) eqn:Ev; [|by rewrite andb_false_r].
      apply Hb in Ev. lia. }
    ored. rewrite FDIntervals.initList_spec by (by rewrite FDIntervals.zlen_newIntervals).
    exists ivs. by split_and!.
Qed.

(** ** Installing a computed descriptor *)

Lemma settle_bv_repr bv s P :
  Forall is_word bv -> zlen bv <= fd_bv_max_high fd_env -> (forall v, words_mem bv v = P v) ->
  s = card P -> repr (FiniteDomain.reduce (FiniteDomain.settle_bv bv s)) P.
Proof using Hg.
  intros Hw Hl HP ->. destruct max_high_facts as (? & Hmax & ? & _). unfold FiniteDomain.settle_bv.
  assert (forall v, P v = true -> 0 <= v <= fd_bv_max_elem fd_env) as HPb.
  { intros v. rewrite <- HP. intros Hv. destruct (decide (0 <= v < 32 * zlen bv)); [lia|].
    rewrite words_mem_out in Hv by lia. done. }
  pose proof (card_nonneg P). destruct (Z.eq_dec (card P) 0) as [E|Hne].
  - assert (forall v, P v = false) as Hno.
    { intros v. destruct (P v) eqn:Ev; [|done]. rewrite <- Ev. apply card_zero; [done|].
      specialize (HPb v Ev). lia. }
    rewrite FDBitVector.findMaxElem_empty by (done || (intros; by rewrite HP)).
    rewrite E. by apply repr_reduce_empty; [|unfold descr_room, zlen; simpl; lia|].
  - destruct (card_pos_inv P) as [m Hm]; [lia|].
    destruct (FDBitVector.findMinElem_spec bv m) as [Hmin Hmin']; [done|by rewrite HP|].
    destruct (FDBitVector.findMaxElem_spec bv m) as (b & x & -> & [Hx Hx'] & Hbl & Hbw & Hbm);
      [done|by rewrite HP|].
    rewrite HP in Hmin, Hx. pose proof (HPb _ Hx). pose proof (HPb _ Hmin).
    destruct (word32_spec x); [lia|].
    assert (forall v, P v = true -> FDBitVector.findMinElem bv <= v <= x) as Hb.
    { intros v Hv. rewrite <- HP in Hv. split; auto. }
    apply repr_intro; cbn [min_elem max_elem size descr]; try done; try lia.
    + unfold descr_ok. simpl. split_and!; [done|lia|]. intros v. rewrite Hbm, HP. apply Hb.
    + intros v. unfold dmem. simpl. rewrite Hbm, HP.
      destruct (P v) eqn:Ev; [apply Hb in Ev; lia|by rewrite andb_false_r].
Qed.

Lemma settle_iv_eq lo iv s :
  FDIntervals.seg lo fd_sup iv -> iv <> [] ->
  exists a b, FiniteDomain.settle_iv iv s = Some (FD a b s (iv_descr iv)) /\
    FDIntervals.mem iv a = true /\ FDIntervals.mem iv b = true /\
    FDIntervals.seg a b iv /\ (forall v, FDIntervals.mem iv v = true -> a <= v <= b).
Proof using.
  intros Hs Hne. unfold FiniteDomain.settle_iv. destruct iv as [|e iv]; [done|].
  rewrite FDIntervals.findMinElem_cons. ored.
  destruct (exists_last Hne) as (l & z & El). rewrite El, FDIntervals.findMaxElem_snoc. ored.
  exists (iv_left e), (iv_right z). rewrite <- El.
  pose proof Hs as (? & ? & ? & _).
  assert (forall v, FDIntervals.mem (e :: iv) v = true -> iv_left e <= v <= iv_right z) as Hb.
  { intros v Hv. split.
    - eapply (FDIntervals.mem_bounds (iv_left e) fd_sup); [|exact Hv].
      destruct Hs as (? & ? & ? & ?). by split_and!.
    - rewrite El in *. apply FDIntervals.seg_app in Hs as (Hs & _ & ? & _).
      rewrite FDIntervals.mem_app, FDIntervals.mem_cons, FDIntervals.mem_nil in Hv.
      unfold FDIntervals.iv_in in Hv. apply orb_true_iff in Hv as [Hv|Hv]; [|lia].
      apply (FDIntervals.mem_bounds _ _ _ _ Hs) in Hv. lia. }
  split_and!; [done| | |by eapply seg_tighten|done].
  - rewrite FDIntervals.mem_cons. unfold FDIntervals.iv_in. lia.
  - rewrite El in *. apply FDIntervals.seg_app in Hs as (_ & ? & ? & _).
    rewrite FDIntervals.mem_app, FDIntervals.mem_cons. unfold FDIntervals.iv_in. lia.
Qed.

Lemma dmem_iv a b s iv v :
  (forall w, FDIntervals.mem iv w = true -> a <= w <= b) ->
  dmem (FD a b s (iv_descr iv)) v = FDIntervals.mem iv v.
Proof using.
  intros Hb. unfold dmem. simpl. destruct (FDIntervals.mem iv v) eqn:Ev; [|by rewrite andb_false_r].
  apply Hb in Ev. lia.
Qed.

(** Without the switch to bit vectors. *)
Lemma settle_iv_repr iv s P :
  FDIntervals.seg 0 fd_sup iv -> (forall v, FDIntervals.mem iv v = P v) -> s = card P ->
  exists x, FiniteDomain.settle_iv iv s = Some x /\ repr (FiniteDomain.reduce x) P.
Proof using.
  intros Hs HP ->. destruct (decide (iv = [])) as [->|Hne].
  - eexists; split; [done|]. apply repr_reduce_empty; [|done|intros v; by rewrite <- HP].
    apply card_empty. intros v. by rewrite <- HP.
  - destruct (settle_iv_eq 0 iv (card P)) as (a & b & -> & Ha & Hb & Hs' & Hab); [done|done|].
    eexists; split; [done|]. pose proof (FDIntervals.mem_bounds _ _ _ _ Hs Ha).
    pose proof (FDIntervals.mem_bounds _ _ _ _ Hs Hb).
    apply repr_intro; cbn [min_elem max_elem size descr]; rewrite <- ?HP; try done; try lia.
    + intros w. rewrite <- HP. apply Hab.
    + intros w. rewrite <- HP. by apply dmem_iv.
Qed.

(** With the switch to bit vectors. *)
Lemma settle_shrink_repr iv s P :
  FDIntervals.seg 0 fd_sup iv -> (forall v, FDIntervals.mem iv v = P v) -> s = card P ->
  exists x x', FiniteDomain.settle_iv iv s = Some x /\ FiniteDomain.shrink_iv x = Some x' /\
    size x' = s /\ repr (FiniteDomain.reduce x') P.
Proof using Hg.
  intros Hs HP ->. destruct max_high_facts as (? & Hmax & ? & _). destruct (decide (iv = [])) as [->|Hne].
  - destruct (asBitVector_iv (FD (-1) (-1) (card P) (iv_descr [])) []) as (b & Hb & _ & Hroom & _); try done.
    exists (FD (-1) (-1) (card P) (iv_descr [])), (FD (-1) (-1) (card P) (bv_descr b)).
    unfold FiniteDomain.shrink_iv. rewrite Hb. cbn [max_elem].
    destruct (Z.leb_spec (-1) (fd_bv_max_elem fd_env)); [|lia]. split_and!; try done.
    apply repr_reduce_empty; [|done|intros v; by rewrite <- HP].
    apply card_empty. intros v. by rewrite <- HP.
  - destruct (settle_iv_eq 0 iv (card P)) as (a & b & -> & Ha & Hb & Hs' & Hab); [done|done|].
    pose proof (FDIntervals.mem_bounds _ _ _ _ Hs Ha). pose proof (FDIntervals.mem_bounds _ _ _ _ Hs Hb).
    unfold FiniteDomain.shrink_iv.
    destruct (Z.leb_spec b (fd_bv_max_elem fd_env)) as [Hle|Hgt].
    + destruct (asBitVector_iv (FD a b (card P) (iv_descr iv)) iv) as (bv & Hbv & Hw & Hl & Hm);
        [done|done|simpl; lia|intros v Hv%Hab; simpl; lia|].
      exists (FD a b (card P) (iv_descr iv)), (FD a b (card P) (bv_descr bv)).
      cbn [max_elem]. rewrite (proj2 (Z.leb_le _ _) Hle), Hbv. split_and!; try done.
      assert (forall v, words_mem bv v = P v) as HP'.
      { intros v. rewrite Hm, HP. destruct (P v) eqn:Ev; [|done]. rewrite <- HP in Ev. apply Hab in Ev. lia. }
      apply repr_intro; cbn [FiniteDomain.setType min_elem max_elem size descr]; rewrite <- ?HP; try done; try lia.
      * intros w. rewrite <- HP. apply Hab.
      * unfold descr_ok. simpl. split_and!; try done. intros v. rewrite HP', <- HP. apply Hab.
      * intros w. unfold dmem. simpl. rewrite HP'. destruct (P w) eqn:Ew; [|by rewrite andb_false_r].
        rewrite <- HP in Ew. apply Hab in Ew. lia.
    + exists (FD a b (card P) (iv_descr iv)), (FD a b (card P) (iv_descr iv)).
      cbn [max_elem]. rewrite (proj2 (Z.leb_gt _ _) Hgt). split_and!; try done.
      destruct (settle_iv_repr iv (card P) P) as (x & Hx & Hr); try done.
      destruct (settle_iv_eq 0 iv (card P)) as (a' & b' & Hx' & Ha' & Hb' & _ & Hab'); [done|done|].
      rewrite Hx' in Hx. injection Hx as <-. pose proof (Hab _ Ha'). pose proof (Hab _ Hb').
      pose proof (Hab' _ Ha). pose proof (Hab' _ Hb). by replace a with a' by lia; replace b with b' by lia.
Qed.
End repr.
End FDRepr.
