(* ===== verification/FDQueries.v ===== *)
(** * Queries on finite domains

    Membership, neighbours, interval bounds, the middle element and the
    description, each against the set a domain stands for. *)
From S2P Require Import Prelude Word32 FDBase FDIntervals FDBitVector FiniteDomain FDRepr.

Module FDQueries.
Import FDRepr.

(** The neighbour specifications depend on the set alone. *)
Section ext.
Context (P Q : Z -> bool) (HPQ : forall w, P w = Q w).
Lemma is_pred_ext v r : is_pred P v r -> is_pred Q v r.
Proof using HPQ. unfold is_pred. by setoid_rewrite HPQ. Qed.
Lemma is_succ_ext v r : is_succ P v r -> is_succ Q v r.
Proof using HPQ. unfold is_succ. by setoid_rewrite HPQ. Qed.
Lemma is_run_start_ext v r : is_run_start P v r -> is_run_start Q v r.
Proof using HPQ. unfold is_run_start. by setoid_rewrite HPQ. Qed.
Lemma is_run_end_ext v r : is_run_end P v r -> is_run_end Q v r.
Proof using HPQ. unfold is_run_end. by setoid_rewrite HPQ. Qed.
Lemma is_nearest_ext v r : is_nearest P v r -> is_nearest Q v r.
Proof using HPQ. unfold is_nearest. by setoid_rewrite HPQ. Qed.
End ext.

Section queries.
Context `{FDEnv} (Hg : globals_ok fd_env).
Context (x : FiniteDomain) (P : Z -> bool) (Hr : repr x P).

(** What each form of descriptor knows about [P]. *)
Lemma repr_descr :
  0 < size x ->
  match descr x with
  | fd_descr => forall v, P v = (min_elem x <=? v) && (v <=? max_elem x)
  | iv_descr iv => iv <> [] /\ FDIntervals.seg (min_elem x) (max_elem x) iv /\
      forall v, FDIntervals.mem iv v = P v
  | bv_descr bv => Forall is_word bv /\ zlen bv <= fd_bv_max_high fd_env /\
      forall v, words_mem bv v = P v
  end.
Proof using Hr.
  intros Hsz. destruct (repr_elim x P Hr Hsz) as (H1 & H2 & H3 & H4 & H5 & H6 & H7 & H8 & H9).
  unfold descr_ok, dmem in *. destruct (descr x) as [|iv|bv].
  - intros v. rewrite <- H9. by rewrite andb_true_r.
  - rename H8 into Hs.
    assert (forall v, FDIntervals.mem iv v = P v) as HP.
    { intros v. rewrite <- H9. destruct (FDIntervals.mem iv v) eqn:Ev; [|by rewrite andb_false_r].
      apply (FDIntervals.mem_bounds _ _ _ _ Hs) in Ev. lia. }
    split_and!; try done. intros ->. by rewrite <- HP in H4.
  - destruct H8 as (Hw & Hl & Hb). split_and!; try done. intros v. rewrite <- H9.
    destruct (words_mem bv v) eqn:Ev; [|by rewrite andb_false_r]. apply Hb in Ev. lia.
Qed.

Lemma isIn_repr i : FiniteDomain.isIn x i = Some (P i).
Proof using Hr.
  unfold FiniteDomain.isIn. destruct (Z.eqb_spec (size x) 0) as [E|Hne]; simpl.
  { by rewrite (repr_size0 x P Hr E). }
  assert (0 < size x) as Hsz by (destruct Hr as [(? & _) _]; lia).
  destruct (repr_elim x P Hr Hsz) as (H1 & H2 & H3 & H4 & H5 & H6 & _).
  destruct (Z.ltb_spec i (min_elem x)) as [Hi|Hi]; simpl.
  { destruct (P i) eqn:E; [apply H6 in E; lia|done]. }
  destruct (Z.ltb_spec (max_elem x) i) as [Hi'|Hi']; simpl.
  { destruct (P i) eqn:E; [apply H6 in E; lia|done]. }
  pose proof (repr_descr Hsz) as HD. destruct (descr x) as [|iv|bv].
  - rewrite HD. f_equal. lia.
  - destruct HD as (Hne' & Hs & HP). by rewrite (FDIntervals.isIn_spec _ _ _ _ Hs Hne'), HP.
  - destruct HD as (Hw & _ & HP). rewrite FDBitVector.bv_isIn_spec by (done || lia). by rewrite HP.
Qed.

(** The neighbour queries. *)
Lemma nextSmallerElem_repr v :
  0 < size x -> exists r, FiniteDomain.nextSmallerElem x v = Some r /\ is_pred P v r.
Proof using Hr.
  intros Hsz. destruct (repr_elim x P Hr Hsz) as (H1 & H2 & H3 & H4 & H5 & H6 & _).
  assert (forall w, P w = true -> min_elem x <= w) as Hmin by (intros w Hw; by apply H6).
  unfold FiniteDomain.nextSmallerElem. pose proof (repr_descr Hsz) as HD.
  destruct (descr x) as [|iv|bv].
  - eexists; split; [done|]. unfold is_pred. setoid_rewrite HD. zcases;
      solve [left; split; [done|intros w; lia] | right; split_and!; intros; lia].
  - destruct HD as (_ & Hs & HP). eexists; split; [done|].
    eapply (is_pred_ext _ _ HP). eapply FDIntervals.nextSmallerElem_spec; [done|]. intros w. rewrite HP. apply Hmin.
  - destruct HD as (Hw & _ & HP).
    destruct (FDBitVector.bv_nextSmallerElem_spec bv v (min_elem x)) as (r & -> & Hp);
      [done|done|intros w; rewrite HP; apply Hmin|].
    exists r. split; [done|]. by apply (is_pred_ext _ _ HP).
Qed.

Lemma nextLargerElem_repr v :
  0 < size x -> -1 <= v -> exists r, FiniteDomain.nextLargerElem x v = Some r /\ is_succ P v r.
Proof using Hr.
  intros Hsz Hv. destruct (repr_elim x P Hr Hsz) as (H1 & H2 & H3 & H4 & H5 & H6 & _).
  assert (forall w, P w = true -> w <= max_elem x) as Hmax by (intros w Hw; by apply H6).
  unfold FiniteDomain.nextLargerElem. pose proof (repr_descr Hsz) as HD.
  destruct (descr x) as [|iv|bv].
  - eexists; split; [done|]. unfold is_succ. setoid_rewrite HD. zcases;
      solve [left; split; [done|intros w; lia] | right; split_and!; intros; lia].
  - destruct HD as (_ & Hs & HP). eexists; split; [done|].
    eapply (is_succ_ext _ _ HP). eapply FDIntervals.nextLargerElem_spec; [done|]. intros w. rewrite HP. apply Hmax.
  - destruct HD as (Hw & _ & HP).
    destruct (FDBitVector.bv_nextLargerElem_spec bv v (max_elem x)) as (r & -> & Hp);
      [done|done|intros w; rewrite HP; apply Hmax|].
    exists r. split; [done|]. by apply (is_succ_ext _ _ HP).
Qed.

(** The run around a member. *)
Lemma lowerBound_repr v :
  exists r, FiniteDomain.lowerBound x v = Some r /\ if P v then is_run_start P v r else r = -1.
Proof using Hr.
  unfold FiniteDomain.lowerBound. rewrite isIn_repr. ored. destruct (P v) eqn:Hv; [|by eexists].
  destruct (repr_bounds x P v Hr Hv) as [Hsz _].
  destruct (repr_elim x P Hr Hsz) as (H1 & H2 & H3 & H4 & H5 & H6 & _).
  pose proof (repr_descr Hsz) as HD. destruct (descr x) as [|iv|bv].
  - eexists; split; [done|]. unfold is_run_start. rewrite !HD in *. split_and!; [lia| |lia].
    intros w. rewrite HD. lia.
  - destruct HD as (_ & Hs & HP). rewrite <- HP in Hv.
    destruct (FDIntervals.lowerBound_spec _ _ _ _ Hs Hv) as (r & -> & Hrun).
    exists r. split; [done|]. by apply (is_run_start_ext _ _ HP).
  - destruct HD as (Hw & _ & HP).
    destruct (FDBitVector.bv_lowerBound_spec bv v (min_elem x)) as (r & -> & Hrun);
      rewrite ?HP; try done; [apply H6 in Hv; lia|intros w; rewrite HP; apply H6|].
    exists r. split; [done|]. by apply (is_run_start_ext _ _ HP).
Qed.

Lemma upperBound_repr v :
  exists r, FiniteDomain.upperBound x v = Some r /\ if P v then is_run_end P v r else r = -1.
Proof using Hr.
  unfold FiniteDomain.upperBound. rewrite isIn_repr. ored. destruct (P v) eqn:Hv; [|by eexists].
  destruct (repr_bounds x P v Hr Hv) as [Hsz _].
  destruct (repr_elim x P Hr Hsz) as (H1 & H2 & H3 & H4 & H5 & H6 & _).
  pose proof (repr_descr Hsz) as HD. destruct (descr x) as [|iv|bv].
  - eexists; split; [done|]. unfold is_run_end. rewrite !HD in *. split_and!; [lia| |lia].
    intros w. rewrite HD. lia.
  - destruct HD as (_ & Hs & HP). rewrite <- HP in Hv.
    destruct (FDIntervals.upperBound_spec _ _ _ _ Hs Hv) as (r & -> & Hrun).
    exists r. split; [done|]. by apply (is_run_end_ext _ _ HP).
  - destruct HD as (Hw & _ & HP).
    destruct (FDBitVector.bv_upperBound_spec bv v (max_elem x)) as (r & -> & Hrun);
      rewrite ?HP; try done; [apply H6 in Hv; lia|intros w; rewrite HP; apply H6|].
    exists r. split; [done|]. by apply (is_run_end_ext _ _ HP).
Qed.

(** The member nearest to the middle of the bounds. *)
Lemma midElem_repr :
  0 < size x -> exists r, FiniteDomain.midElem x = Some r /\
    is_nearest P ((min_elem x + max_elem x) ÷ 2) r.
Proof using Hr.
  intros Hsz. destruct (repr_elim x P Hr Hsz) as (H1 & H2 & H3 & H4 & H5 & H6 & _).
  unfold FiniteDomain.midElem. set (mid := (min_elem x + max_elem x) ÷ 2).
  assert (min_elem x <= mid <= max_elem x) by (subst mid; Z.to_euclidean_division_equations; lia).
  rewrite isIn_repr. ored. destruct (P mid) eqn:Hmid.
  { exists mid. split; [done|]. split; [done|]. intros w _. lia. }
  pose proof (repr_descr Hsz) as HD. destruct (descr x) as [|iv|bv].
  - rewrite HD in Hmid. lia.
  - destruct HD as (_ & Hs & HP).
    destruct (FDIntervals.midElem_spec _ _ iv mid Hs) as (r & -> & Hn); [by rewrite HP| | |].
    + exists (min_elem x). rewrite HP. split; [done|].
      destruct (Z.eq_dec (min_elem x) mid) as [E|]; [rewrite <- E in Hmid; congruence|lia].
    + exists (max_elem x). rewrite HP. split; [done|].
      destruct (Z.eq_dec (max_elem x) mid) as [E|]; [rewrite <- E in Hmid; congruence|lia].
    + exists r. split; [done|]. by apply (is_nearest_ext _ _ HP).
  - destruct HD as (Hw & _ & HP).
    assert (0 <= mid < 32 * zlen bv).
    { split; [lia|]. rewrite <- HP in H5. destruct (decide (max_elem x < 32 * zlen bv)); [lia|].
      rewrite words_mem_out in H5 by lia. done. }
    destruct (FDBitVector.bv_midElem_spec bv mid) as (r & -> & Hn); try done.
    + exists (min_elem x). rewrite HP. split; [done|lia].
    + exists (max_elem x). rewrite HP. split; [done|lia].
    + exists r. split; [done|]. by apply (is_nearest_ext _ _ HP).
Qed.

(** Unification with a boolean variable. *)
Lemma intersectWithBool_repr :
  FiniteDomain.intersectWithBool x =
    Some (if P 0 then (if P 1 then -1 else 0) else (if P 1 then 1 else -2)).
Proof using Hr.
  unfold FiniteDomain.intersectWithBool. rewrite !isIn_repr. ored. by destruct (P 0), (P 1).
Qed.

(** State tests. *)
Lemma eq_empty_repr : FiniteDomain.eq_state x fd_empty = Some (card P =? 0).
Proof using Hr. simpl. by rewrite (repr_card x P Hr). Qed.

Lemma eq_int_repr v : FiniteDomain.eq_int x v = true <-> forall w, P w = (w =? v).
Proof using Hr.
  unfold FiniteDomain.eq_int. rewrite andb_true_iff, !Z.eqb_eq. split.
  - intros [E <-]. destruct (repr_elim x P Hr) as (H1 & H2 & H3 & H4 & H5 & H6 & H7 & _); [lia|].
    assert (min_elem x = max_elem x) as Em.
    { destruct (Z.eq_dec (min_elem x) (max_elem x)); [done|].
      pose proof (card_point P (fun w => P w && negb (w =? max_elem x)) (max_elem x)
        ltac:(lia) ltac:(intros; lia)) as Hc.
      rewrite H5, Z.eqb_refl in Hc. cbn [andb negb Z.b2z] in Hc.
      assert (0 < card (fun w => P w && negb (w =? max_elem x))); [|lia].
      apply (card_pos _ (min_elem x)); [lia|]. rewrite H4. simpl. lia. }
    intros w. destruct (P w) eqn:Ew; [apply H6 in Ew; lia|].
    destruct (Z.eqb_spec w (min_elem x)) as [->|]; [congruence|done].
  - intros HP. assert (P v = true) as Hv by (rewrite HP; lia).
    destruct (repr_bounds x P v Hr Hv) as [Hsz Hb].
    destruct (repr_elim x P Hr Hsz) as (H1 & H2 & H3 & H4 & H5 & H6 & H7 & _).
    rewrite HP in H4. split; [|lia]. rewrite H7. rewrite (card_range P v v); try lia.
    intros w. rewrite HP. lia.
Qed.
End queries.

(** Two representations of one non-empty set. *)
Lemma repr_same `{FDEnv} x y P :
  repr x P -> repr y P -> size x = size y -> 0 < size y ->
  min_elem x = min_elem y /\ max_elem x = max_elem y /\ FiniteDomain.is_fd x = FiniteDomain.is_fd y.
Proof.
  intros Hx Hy Es Hy0. assert (0 < size x) as Hx0 by lia.
  destruct (repr_elim x P Hx Hx0) as (X1 & X2 & X3 & X4 & X5 & X6 & _).
  destruct (repr_elim y P Hy Hy0) as (Y1 & Y2 & Y3 & Y4 & Y5 & Y6 & _).
  pose proof (X6 _ Y4). pose proof (X6 _ Y5). pose proof (Y6 _ X4). pose proof (Y6 _ X5).
  split_and!; try lia.
  assert (forall z, repr z P -> 0 < size z -> FiniteDomain.is_fd z = (size z =? max_elem z - min_elem z + 1)) as Hfd.
  { intros z Hz Hz0. pose proof (repr_descr z P Hz Hz0) as HD. pose proof (repr_card z P Hz) as Hc.
    destruct (repr_elim z P Hz Hz0) as (Z1 & Z2 & Z3 & _). destruct Hz as [(_ & _ & Hwf) _].
    destruct (Hwf Hz0) as (_ & _ & _ & _ & _ & _ & Hns). unfold FiniteDomain.is_fd, FiniteDomain.isSingleInterval in *.
    destruct (descr z); [|by rewrite Hns..]. rewrite Hc, (card_range P (min_elem z) (max_elem z) Z1 ltac:(lia) Z3 HD). by rewrite Z.eqb_refl. }
  rewrite (Hfd x Hx Hx0), (Hfd y Hy Hy0). f_equal; lia.
Qed.
End FDQueries.
