(* ===== verification/FDOperators.v ===== *)
(** * Destructive operators on finite domains

    Each operator of [FiniteDomain], applied to well-formed operands, has a
    result, which is well formed and stands for the set the operator denotes. *)
From S2P Require Import Prelude Word32 FDBase FDIntervals FDIntervalSets FDBitVector FiniteDomain FDRepr FDQueries.

Module FDOperators.
Import FDRepr FDQueries.

Section operators.
Context `{FDEnv} (Hg : globals_ok fd_env).
Implicit Types (x y : FiniteDomain) (P Q : Z -> bool).

(** ** Results by form of descriptor *)

Lemma fd_result a b P :
0 <= a -> a <= b -> b <= fd_sup -> (forall v, P v = (a <=? v) && (v <=? b)) ->
repr (FiniteDomain.reduce (FD a b (b - a + 1) fd_descr)) P.
Proof using.
intros Ha Hab Hb HP.
replace (FiniteDomain.reduce _) with (FD a b (b - a + 1) fd_descr); [by apply repr_range|].
unfold FiniteDomain.reduce. by destruct (FiniteDomain.isSingleInterval _).
Qed.

Lemma bv_result a b s bv P :
Forall is_word bv -> zlen bv <= fd_bv_max_high fd_env -> (forall v, words_mem bv v = P v) ->
P a = true -> P b = true -> (forall v, P v = true -> a <= v <= b) -> s = card P ->
repr (FiniteDomain.reduce (FD a b s (bv_descr bv))) P.
Proof using Hg.
intros Hw Hl HP Ha Hb Hab ->. destruct (max_high_facts Hg) as (? & ? & ? & _).
assert (forall v, P v = true -> 0 <= v < 32 * zlen bv) as Hin.
{ intros v. rewrite <- HP. intros Hv. destruct (decide (0 <= v < 32 * zlen bv)); [done|].
  rewrite words_mem_out in Hv by lia. done. }
pose proof (Hin _ Ha). pose proof (Hin _ Hb).
apply repr_intro; cbn [min_elem max_elem size descr]; try done; try lia.
- unfold descr_ok. simpl. split_and!; try done. intros v. rewrite HP. apply Hab.
- intros v. unfold dmem. simpl. rewrite HP.
  destruct (P v) eqn:Ev; [apply Hab in Ev; lia|by rewrite andb_false_r].
Qed.

Lemma iv_result a b s iv P :
FDIntervals.seg 0 fd_sup iv -> (forall v, FDIntervals.mem iv v = P v) ->
P a = true -> P b = true -> (forall v, P v = true -> a <= v <= b) ->
s = card P ->
repr (FiniteDomain.reduce (FD a b s (iv_descr iv))) P.
Proof using.
intros Hs HP Ha Hb Hab ->.
pose proof Ha as Ha'. pose proof Hb as Hb'. rewrite <- HP in Ha', Hb'.
apply (FDIntervals.mem_bounds _ _ _ _ Hs) in Ha', Hb'.
apply repr_intro; cbn [min_elem max_elem size descr]; try done; try lia.
- eapply seg_tighten; [done|]. intros v. rewrite HP. apply Hab.
- intros v. rewrite dmem_iv; [apply HP|]. intros w. rewrite HP. apply Hab.
Qed.

Lemma seg2 a b c d :
0 <= a -> a <= b -> b + 1 < c -> c <= d -> d <= fd_sup -> FDIntervals.seg 0 fd_sup [Iv a b; Iv c d].
Proof using. simpl. lia. Qed.

Lemma mem2 a b c d v :
FDIntervals.mem [Iv a b; Iv c d] v = ((a <=? v) && (v <=? b)) || ((c <=? v) && (v <=? d)).
Proof using.
rewrite !FDIntervals.mem_cons, FDIntervals.mem_nil. unfold FDIntervals.iv_in. simpl. by rewrite orb_false_r.
Qed.

Lemma repr_reduce x P : repr x P -> repr (FiniteDomain.reduce x) P.
Proof using.
intros Hr. destruct (Z.eq_dec (size x) 0) as [E|Hne].
- apply repr_reduce_empty; [done| |by eapply repr_size0]. by destruct Hr as [(_ & ? & _) _].
- assert (0 < size x) as Hsz by (destruct Hr as [(? & _) _]; lia).
  destruct (repr_elim x P Hr Hsz) as (?&?&?&?&?&?&?&?&?). by apply repr_intro.
Qed.

Lemma settle_iv_parts iv s x :
FiniteDomain.settle_iv iv s = Some x ->
FDIntervals.findMinElem iv = Some (min_elem x) /\ FDIntervals.findMaxElem iv = Some (max_elem x) /\
x = FD (min_elem x) (max_elem x) s (iv_descr iv).
Proof using.
unfold FiniteDomain.settle_iv. destruct (FDIntervals.findMinElem iv); [|done]. ored.
destruct (FDIntervals.findMaxElem iv); [|done]. ored. by intros [= <-].
Qed.

Lemma setSize_settle_bv bv s s' :
FiniteDomain.setSize (FiniteDomain.settle_bv bv s) s' = FiniteDomain.settle_bv bv s'.
Proof using. unfold FiniteDomain.settle_bv. by destruct (FDBitVector.findMaxElem bv). Qed.

Lemma settle_bv_size bv s : size (FiniteDomain.settle_bv bv s) = s.
Proof using. unfold FiniteDomain.settle_bv. by destruct (FDBitVector.findMaxElem bv). Qed.

(** The size a domain is given has no influence on [shrink_iv]. *)
Lemma shrink_iv_size a b s s' iv x :
FiniteDomain.shrink_iv (FD a b s (iv_descr iv)) = Some x -> 
FiniteDomain.shrink_iv (FD a b s' (iv_descr iv)) = Some (FiniteDomain.setSize x s') /\ size x = s.
Proof using.
unfold FiniteDomain.shrink_iv. cbn [max_elem]. destruct (b <=? fd_bv_max_elem fd_env).
- change (FiniteDomain.asBitVector (FD a b s' (iv_descr iv)))
    with (FiniteDomain.asBitVector (FD a b s (iv_descr iv))).
  destruct (FiniteDomain.asBitVector _); [|done]. ored. by intros [= <-].
- by intros [= <-].
Qed.

(** ** Bounds *)

Lemma op_and_int_repr x P i :
repr x P -> exists x', FiniteDomain.op_and_int x i = Some x' /\ repr x' (fun v => P v && (v =? i)).
Proof using.
intros Hr. unfold FiniteDomain.op_and_int. rewrite (isIn_repr x P Hr). ored.
eexists; split; [done|]. destruct (P i) eqn:Hi.
- destruct (repr_bounds x P i Hr Hi) as [_ Hb]. unfold FiniteDomain.initSingleton, fd_inf.
  destruct (Z.ltb_spec i 0), (Z.ltb_spec fd_sup i); try lia. simpl.
  replace 1 with (i - i + 1) by lia. apply repr_range; try lia.
  intros v. destruct (Z.eqb_spec v i) as [->|]; [rewrite Hi|rewrite andb_false_r]; lia.
- apply repr_initEmpty. intros v. destruct (Z.eqb_spec v i) as [->|]; [by rewrite Hi|].
  by rewrite andb_false_r.
Qed.

Lemma op_le_repr x P leq :
repr x P -> 0 < size x ->
exists x', FiniteDomain.op_le x leq = Some x' /\ repr x' (fun v => P v && (v <=? leq)).
Proof using Hg.
intros Hr Hsz. destruct (repr_elim x P Hr Hsz) as (H1 & H2 & H3 & H4 & H5 & H6 & _).
destruct (max_high_facts Hg) as (? & ? & ? & _).
unfold FiniteDomain.op_le. destruct (Z.ltb_spec leq (min_elem x)) as [Hlt|Hge].
{ eexists; split; [done|]. apply repr_initEmpty. intros v.
  destruct (P v) eqn:E; [apply H6 in E|]; simpl; lia. }
destruct (Z.ltb_spec leq (max_elem x)) as [Hlt|Hge'].
2:{ eexists; split; [done|]. apply repr_reduce. eapply repr_ext; [|done]. intros v. simpl.
  destruct (P v) eqn:E; [apply H6 in E|]; simpl; lia. }
set (Q := fun v => P v && (v <=? leq)).
assert (Q (min_elem x) = true) as HQmin by (subst Q; simpl; rewrite H4; simpl; lia).
pose proof (repr_descr x P Hr Hsz) as HD. destruct (descr x) as [|iv|bv].
- ored. eexists; split; [done|]. unfold FiniteDomain.setSize, FiniteDomain.findSize.
  cbn [min_elem max_elem size descr]. replace (Z.min (max_elem x) leq) with leq by lia.
  apply fd_result; try lia. intros v. subst Q. simpl. rewrite HD. lia.
- destruct HD as (Hne & Hs & HP). destruct (Z.leb_spec leq fd_sup); [|lia].
  destruct (FDIntervals.op_le_spec _ _ iv leq Hs Hne) as (l & -> & Hs' & Hm). ored.
  assert (FDIntervals.seg 0 fd_sup l) as Hs0 by (eapply FDIntervals.seg_weaken; [..|done]; lia).
  assert (forall v, FDIntervals.mem l v = Q v) as HQ by (intros v; by rewrite Hm, HP).
  rewrite card_total by done. rewrite (card_ext _ _ HQ).
  pose proof (card_pos Q (min_elem x) ltac:(lia) HQmin) as Hc.
  destruct (Z.ltb_spec 0 (card Q)); [|lia].
  destruct (settle_shrink_repr Hg l (card Q) Q) as (x1 & x2 & Hx1 & Hx2 & _ & Hr2); try done.
  destruct (settle_iv_eq 0 l (card Q)) as (a & b & Hx1' & Ha & Hb & _ & Hab); [done| |].
  { intros ->. rewrite <- HQ in HQmin. done. }
  rewrite Hx1' in Hx1. injection Hx1 as <-. apply settle_iv_parts in Hx1' as (_ & -> & _). ored.
  cbn [max_elem]. assert (a = min_elem x) as ->; [|by rewrite Hx2; eexists].
  rewrite <- HQ in HQmin. apply Hab in HQmin. rewrite HQ in Ha. subst Q. simpl in Ha.
  apply andb_true_iff in Ha as [Ha _]. apply H6 in Ha. lia.
- destruct HD as (Hw & Hl & HP).
  assert (max_elem x < 32 * zlen bv).
  { rewrite <- HP in H5. destruct (decide (max_elem x < 32 * zlen bv)); [lia|].
    rewrite words_mem_out in H5 by lia. done. }
  destruct (FDBitVector.bv_op_le_spec bv leq) as (b1 & -> & Hl1 & Hw1 & Hm1);
    [done|unfold FDBitVector.currBvMaxElem; lia|]. ored.
  assert (forall v, words_mem b1 v = Q v) as HQ by (intros v; by rewrite Hm1, HP).
  rewrite card_bv by lia. rewrite (card_ext _ _ HQ).
  pose proof (card_pos Q (min_elem x) ltac:(lia) HQmin) as Hc.
  destruct (Z.ltb_spec 0 (card Q)); [|lia].
  pose proof (settle_bv_repr Hg b1 (card Q) Q Hw1 ltac:(lia) HQ eq_refl) as Hr2.
  unfold FiniteDomain.settle_bv in Hr2. destruct (FDBitVector.findMaxElem b1) as [b2 max]. ored.
  destruct (FDBitVector.findMinElem_spec b1 (min_elem x)) as [Hmin Hmin']; [done|by rewrite HQ|].
  replace (FDBitVector.findMinElem b1) with (min_elem x) in Hr2; [by eexists|].
  specialize (Hmin' (min_elem x)). rewrite HQ in Hmin, Hmin'. specialize (Hmin' HQmin).
  subst Q. simpl in Hmin. apply andb_true_iff in Hmin as [Hmin _]. apply H6 in Hmin. lia.
Qed.

(** The words of a vector reach its members. *)
Lemma bv_reach bv P v : (forall w, words_mem bv w = P w) -> P v = true -> 0 <= v < 32 * zlen bv.
Proof using.
intros HP Hv. rewrite <- HP in Hv. destruct (decide (0 <= v < 32 * zlen bv)); [done|].
rewrite words_mem_out in Hv by lia. done.
Qed.

Lemma op_ge_repr x P geq :
repr x P -> 0 < size x ->
exists x', FiniteDomain.op_ge x geq = Some x' /\ repr x' (fun v => P v && (geq <=? v)).
Proof using Hg.
intros Hr Hsz. destruct (repr_elim x P Hr Hsz) as (H1 & H2 & H3 & H4 & H5 & H6 & _).
destruct (max_high_facts Hg) as (? & ? & ? & _).
unfold FiniteDomain.op_ge. destruct (Z.ltb_spec (max_elem x) geq) as [Hlt|Hge].
{ eexists; split; [done|]. apply repr_initEmpty. intros v.
  destruct (P v) eqn:E; [apply H6 in E|]; simpl; lia. }
destruct (Z.ltb_spec (min_elem x) geq) as [Hlt|Hge'].
2:{ eexists; split; [done|]. apply repr_reduce. eapply repr_ext; [|done]. intros v. simpl.
  destruct (P v) eqn:E; [apply H6 in E|]; simpl; lia. }
set (Q := fun v => P v && (geq <=? v)).
assert (Q (max_elem x) = true) as HQmax by (subst Q; simpl; rewrite H5; simpl; lia).
assert (forall v, Q v = true -> P v = true) as HQP by (intros v [? _]%andb_true_iff; done).
pose proof (card_pos Q (max_elem x) ltac:(lia) HQmax) as Hc.
pose proof (repr_descr x P Hr Hsz) as HD. destruct (descr x) as [|iv|bv] eqn:Hd.
- ored. eexists; split; [done|]. unfold FiniteDomain.setSize, FiniteDomain.findSize.
  cbn [min_elem max_elem size descr]. replace (Z.max (min_elem x) geq) with geq by lia.
  apply fd_result; try lia. intros v. subst Q. simpl. rewrite HD. lia.
- destruct HD as (Hne & Hs & HP).
  destruct (FDIntervals.op_ge_spec _ _ iv geq Hs Hne) as (l & -> & Hs' & Hm). ored.
  assert (FDIntervals.seg 0 fd_sup l) as Hs0 by (eapply FDIntervals.seg_weaken; [..|done]; lia).
  assert (forall v, FDIntervals.mem l v = Q v) as HQ by (intros v; by rewrite Hm, HP).
  rewrite card_total by done. rewrite (card_ext _ _ HQ).
  destruct (Z.ltb_spec 0 (card Q)); [|lia].
  destruct (settle_iv_eq 0 l (card Q)) as (a & b & Hx1' & Ha & Hb & _ & Hab); [done| |].
  { intros ->. rewrite <- HQ in HQmax. done. }
  apply settle_iv_parts in Hx1' as (-> & _ & _). ored. eexists; split; [done|].
  rewrite HQ in Ha, Hb. apply iv_result; try done.
  intros v Hv. split; [|by apply H6, HQP]. rewrite <- HQ in Hv. apply Hab in Hv. cbn [min_elem]. lia.
- destruct HD as (Hw & Hl & HP). pose proof (bv_reach bv P _ HP H5).
  unfold FDBitVector.currBvMaxElem. destruct (Z.ltb_spec (32 * zlen bv - 1) geq); [lia|].
  destruct (FDBitVector.bv_op_ge_spec bv geq) as (b1 & -> & Hl1 & Hw1 & Hm1);
    [done|unfold FDBitVector.currBvMaxElem; lia|]. ored.
  assert (forall v, words_mem b1 v = Q v) as HQ by (intros v; by rewrite Hm1, HP).
  rewrite card_bv by lia. rewrite (card_ext _ _ HQ).
  destruct (Z.ltb_spec 0 (card Q)); [|lia]. eexists; split; [done|].
  destruct (FDBitVector.findMinElem_spec b1 (max_elem x)) as [Hmin Hmin']; [done|by rewrite HQ|].
  apply bv_result; try done; [lia|by rewrite <- HQ|].
  intros v Hv. split; [apply Hmin'; by rewrite HQ|by apply H6, HQP].
Qed.

(** ** Removing an element *)

Lemma card_remove P i : 0 <= i <= fd_sup -> P i = true ->
card (fun v => P v && negb (v =? i)) = card P - 1.
Proof using.
intros Hi HPi. assert (forall v, v <> i -> P v = P v && negb (v =? i)) as Hext.
{ intros v Hv%Z.eqb_neq. by rewrite Hv, andb_true_r. }
pose proof (card_point P _ i Hi Hext) as Hc. cbn beta in Hc.
rewrite HPi, Z.eqb_refl in Hc. simpl Z.b2z in Hc. lia.
Qed.

Lemma card_add P i : 0 <= i <= fd_sup -> P i = false ->
card (fun v => P v || (v =? i)) = card P + 1.
Proof using.
intros Hi HPi. assert (forall v, v <> i -> P v = P v || (v =? i)) as Hext.
{ intros v Hv%Z.eqb_neq. by rewrite Hv, orb_false_r. }
pose proof (card_point P _ i Hi Hext) as Hc. cbn beta in Hc.
rewrite HPi, Z.eqb_refl in Hc. simpl Z.b2z in Hc. lia.
Qed.

Section minus.
Context (x : FiniteDomain) (P : Z -> bool) (i : Z) (Hr : repr x P) (Hi : P i = true).
Let Q (v : Z) : bool := P v && negb (v =? i).

(** What [minus_member] must leave. *)
Let minus_ok : Prop := exists x', FiniteDomain.minus_member x i = Some x' /\
  repr (FiniteDomain.reduce (FiniteDomain.setSize x' (size x' - 1))) Q.

Lemma minus_fd : descr x = fd_descr -> minus_ok.
Proof using Hg Hr Hi.
  intros Hd. destruct (repr_bounds x P i Hr Hi) as [Hsz Hb].
  destruct (repr_elim x P Hr Hsz) as (H1 & H2 & H3 & H4 & H5 & H6 & H7 & _).
  pose proof (H6 i Hi). pose proof (repr_descr x P Hr Hsz) as HD. rewrite Hd in HD.
  pose proof (card_range P (min_elem x) (max_elem x) H1 ltac:(lia) H3 HD) as Hcr.
  pose proof (card_remove P i Hb Hi) as Hc. fold Q in Hc.
  assert (forall v, Q v = (min_elem x <=? v) && (v <=? max_elem x) && negb (v =? i)) as HQ
    by (intros v; subst Q; simpl; by rewrite HD).
  unfold minus_ok, FiniteDomain.minus_member, FiniteDomain.provideBitVector, FiniteDomain.provideIntervals.
  rewrite Hd. destruct (Z.eqb_spec i (min_elem x)) as [Emin|Hnmin].
  { eexists; split; [done|]. unfold FiniteDomain.setSize. cbn [min_elem max_elem size descr].
    destruct (Z.eq_dec (min_elem x) (max_elem x)).
    - replace (size x - 1) with 0 by lia. apply repr_reduce_empty; [done..|]. intros v. rewrite HQ. lia.
    - replace (size x - 1) with (max_elem x - (min_elem x + 1) + 1) by lia.
      apply fd_result; try lia. intros v. rewrite HQ. lia. }
  destruct (Z.eqb_spec i (max_elem x)) as [Emax|Hnmax].
  { eexists; split; [done|]. unfold FiniteDomain.setSize. cbn [min_elem max_elem size descr].
    replace (size x - 1) with (max_elem x - 1 - min_elem x + 1) by lia.
    apply fd_result; try lia. intros v. rewrite HQ. lia. }
  destruct (Z.leb_spec (max_elem x) (fd_bv_max_elem fd_env)).
  - destruct (bitVector_for Hg (max_elem x)) as (b0 & -> & _ & Hb0 & Hc0); [lia|]. ored.
    destruct (FDBitVector.setFromTo_spec b0 (min_elem x) (max_elem x)) as (b1 & -> & Hl1 & Hw1 & Hm1);
      [lia..|]. ored. unfold FDBitVector.currBvMaxElem in *.
    destruct (FDBitVector.resetBit_spec b1 i) as (b2 & -> & Hl2 & Hw2 & Hm2);
      [done|unfold FDBitVector.currBvMaxElem; lia|]. ored.
    eexists; split; [done|]. rewrite setSize_settle_bv, settle_bv_size.
    apply settle_bv_repr; try done; [lia| |lia]. intros v. by rewrite Hm2, Hm1, HQ.
  - rewrite init2_new. ored. eexists; split; [done|]. unfold FiniteDomain.setSize, FiniteDomain.setType.
    cbn [min_elem max_elem size descr]. apply iv_result; rewrite ?HQ; try lia.
    + apply seg2; lia.
    + intros v. rewrite mem2, HQ. lia.
    + intros v. rewrite HQ. lia.
Qed.

Lemma minus_iv iv : descr x = iv_descr iv -> minus_ok.
Proof using Hg Hr Hi.
  intros Hd. destruct (repr_bounds x P i Hr Hi) as [Hsz Hb].
  destruct (repr_elim x P Hr Hsz) as (H1 & H2 & H3 & H4 & H5 & H6 & H7 & _).
  pose proof (repr_descr x P Hr Hsz) as HD. rewrite Hd in HD. destruct HD as (Hne & Hs & HP).
  pose proof (card_remove P i Hb Hi) as Hc. fold Q in Hc.
  unfold minus_ok, FiniteDomain.minus_member. rewrite Hd.
  destruct (FDIntervals.op_minus_spec _ _ iv i Hs) as (l & -> & Hs' & Hm); [by rewrite HP|]. ored.
  assert (FDIntervals.seg 0 fd_sup l) as Hs0 by (eapply FDIntervals.seg_weaken; [..|done]; lia).
  assert (forall v, FDIntervals.mem l v = Q v) as HQ by (intros v; by rewrite Hm, HP).
  destruct (settle_shrink_repr Hg l (card Q) Q) as (x1 & x2 & Hx1 & Hx2 & _ & Hr2); try done.
  apply settle_iv_parts in Hx1 as (E1 & E2 & Ex). unfold FiniteDomain.settle_iv.
  rewrite E1, E2. ored. rewrite Ex in Hx2.
  destruct (shrink_iv_size _ _ _ (size x) _ _ Hx2) as [-> _].
  eexists; split; [done|]. cbn [FiniteDomain.setSize size].
  pose proof (shrink_iv_size _ _ _ (size x - 1) _ _ Hx2) as [Hx3 _].
  replace (size x - 1) with (card Q) in * by lia. rewrite Hx2 in Hx3. injection Hx3 as Ex3.
  unfold FiniteDomain.setSize in *. simpl. by rewrite <- Ex3.
Qed.

Lemma minus_bv bv : descr x = bv_descr bv -> minus_ok.
Proof using Hg Hr Hi.
  intros Hd. destruct (repr_bounds x P i Hr Hi) as [Hsz Hb].
  pose proof (repr_descr x P Hr Hsz) as HD. rewrite Hd in HD. destruct HD as (Hw & Hl & HP).
  pose proof (card_remove P i Hb Hi) as Hc. fold Q in Hc. pose proof (repr_card x P Hr).
  pose proof (bv_reach bv P _ HP Hi). unfold minus_ok, FiniteDomain.minus_member. rewrite Hd.
  destruct (FDBitVector.resetBit_spec bv i) as (b1 & -> & Hl1 & Hw1 & Hm1);
    [done|unfold FDBitVector.currBvMaxElem; lia|]. ored.
  eexists; split; [done|]. rewrite setSize_settle_bv, settle_bv_size.
  apply settle_bv_repr; try done; [lia| |lia]. intros v. by rewrite Hm1, HP.
Qed.
End minus.

Lemma op_minus_int_repr x P i :
repr x P ->
exists x', FiniteDomain.op_minus_int x i = Some x' /\ repr x' (fun v => P v && negb (v =? i)).
Proof using Hg.
intros Hr. unfold FiniteDomain.op_minus_int. rewrite (isIn_repr x P Hr). ored.
destruct (P i) eqn:Hi; cbn [negb].
- enough (exists x', FiniteDomain.minus_member x i = Some x' /\
    repr (FiniteDomain.reduce (FiniteDomain.setSize x' (size x' - 1))) (fun v => P v && negb (v =? i)))
    as (x' & -> & Hr') by (ored; by eexists).
  destruct (descr x) as [|iv|bv] eqn:Hd;
    [by apply minus_fd|by apply (minus_iv x P i Hr Hi iv)|by apply (minus_bv x P i Hr Hi bv)].
- eexists; split; [done|]. eapply repr_ext; [|done]. intros v.
  destruct (Z.eqb_spec v i) as [->|]; [by rewrite Hi|by rewrite andb_true_r].
Qed.

(** ** Adding an element *)

Lemma grow_bv_spec b new :
Forall is_word b -> zlen b <= zlen new ->
exists new', FiniteDomain.grow_bv b new = Some new' /\ zlen new' = zlen new /\
  Forall is_word new' /\ forall v, words_mem new' v = words_mem b v.
Proof using.
intros Hw Hl. unfold FiniteDomain.grow_bv.
destruct (for_down_cells (fun i => word_at b i) (fun i t => w ← b.[i]; t.[i <- w]) (length b) new)
  as (n1 & -> & Hl1 & Hj1).
{ unfold zlen in *. lia. }
{ intros i a Hi _ _. rewrite aget_word_at by (unfold zlen; lia). done. }
ored. fold (zlen b) in Hj1. rewrite <- Hl1.
destruct (FDBitVector.fill_to 0 (zlen b) (zlen n1) n1) as (n2 & -> & Hl2 & Hj2); [done|done|].
assert (forall j, 0 <= j < zlen new -> word_at n2 j = word_at b j) as Hn2.
{ intros j Hj. rewrite Hj2. destruct (Z.leb_spec (zlen b) j), (Z.ltb_spec j (zlen n1)); simpl; try lia.
  - by rewrite word_at_out by lia.
  - unfold word_at at 1. rewrite Hj1. unfold zlen in *.
    by destruct (Z.leb_spec 0 j), (Z.ltb_spec j (Z.of_nat (length b))); try lia. }
exists n2. split_and!; [done|lia| |].
- apply FDBitVector.Forall_words. intros j Hj. rewrite Hn2 by lia. by apply is_word_at.
- intros v. rewrite !words_mem_at. destruct (decide (0 <= div32 v < zlen new)); [by rewrite Hn2|].
  by rewrite !word_at_out by lia.
Qed.

Lemma plus_convert_spec x P bv put_in :
repr x P -> 0 < size x -> descr x = bv_descr bv -> fd_bv_max_elem fd_env < put_in <= fd_sup ->
exists iv, FiniteDomain.plus_convert x bv put_in = Some iv /\ FDIntervals.seg 0 fd_sup iv /\
  forall v, FDIntervals.mem iv v = P v || (v =? put_in).
Proof using Hg.
intros Hr Hsz Hd Hput. destruct (repr_elim x P Hr Hsz) as (H1 & H2 & H3 & H4 & H5 & H6 & H7 & _).
destruct (max_high_facts Hg) as (? & ? & ? & _).
pose proof (repr_descr x P Hr Hsz) as HD. rewrite Hd in HD. destruct HD as (Hw & Hl & HP).
pose proof (bv_reach bv P _ HP H5). pose proof (conv_room_bv Hg bv Hl).
unfold FiniteDomain.plus_convert, FiniteDomain.provideIntervals. rewrite Hd.
destruct (mkRaw_repr Hg bv (min_elem x) (max_elem x) P) as (ivs & -> & Hs & Hm & Hn); try done. ored.
pose proof (zlen_nonneg ivs).
destruct (Z.eqb_spec put_in (max_elem x + 1)) as [Eput|Hfar].
- assert (ivs <> []) as Hne by (intros ->; specialize (Hm (max_elem x)); by rewrite H5 in Hm).
  destruct (exists_last Hne) as (l & z & ->). rewrite zlen_snoc. pose proof (zlen_nonneg l).
  replace (zlen l + 1 - 1) with (zlen l) by lia. rewrite aget_middle. ored. rewrite aset_middle. ored.
  apply FDIntervals.seg_app in Hs as (Hs & Hz1 & Hz2 & Hz3 & _).
  assert (iv_right z = max_elem x) as Ez.
  { specialize (Hm (max_elem x)).
    rewrite H5, FDIntervals.mem_app, FDIntervals.mem_cons, FDIntervals.mem_nil in Hm.
    unfold FDIntervals.iv_in in Hm. destruct (FDIntervals.mem l (max_elem x)) eqn:El; [|lia].
    apply (FDIntervals.mem_bounds _ _ _ _ Hs) in El. lia. }
  rewrite FDIntervals.initList_spec by
    (rewrite FDIntervals.zlen_newIntervals, zlen_snoc by lia; lia).
  eexists; split; [done|]. split.
  + apply FDIntervals.seg_app. simpl. split_and!; try done; try lia. eapply FDIntervals.seg_lo; [|done]. lia.
  + intros v. rewrite <- Hm, !FDIntervals.mem_app, !FDIntervals.mem_cons, FDIntervals.mem_nil.
    unfold FDIntervals.iv_in. simpl. lia.
- unfold apush. destruct (Z.ltb_spec (zlen ivs) (fd_bv_conv_max_high fd_env)); [|lia]. ored.
  rewrite FDIntervals.initList_spec by
    (rewrite FDIntervals.zlen_newIntervals, zlen_snoc by lia; lia).
  eexists; split; [done|]. split.
  + apply FDIntervals.seg_app. simpl. split_and!; try done; try lia.
    eapply FDIntervals.seg_weaken; [..|done]; lia.
  + intros v. rewrite <- Hm, FDIntervals.mem_app, FDIntervals.mem_cons, FDIntervals.mem_nil.
    unfold FDIntervals.iv_in. simpl. lia.
Qed.

Section plus.
Context (x : FiniteDomain) (P : Z -> bool) (i : Z) (Hr : repr x P) (Hsz : 0 < size x).
Context (Hi : P i = false) (Hrange : 0 <= i <= fd_sup).
Let Q (v : Z) : bool := P v || (v =? i).

(** What [plus_new] must leave. *)
Let plus_ok : Prop := exists x', FiniteDomain.plus_new x i = Some x' /\
  repr (FiniteDomain.reduce (FiniteDomain.setSize x' (size x' + 1))) Q.

Lemma plus_fd : descr x = fd_descr -> plus_ok.
Proof using Hg Hr Hsz Hi Hrange.
  intros Hd. destruct (repr_elim x P Hr Hsz) as (H1 & H2 & H3 & H4 & H5 & H6 & H7 & _).
  pose proof (card_add P i Hrange Hi) as Hc. fold Q in Hc.
  pose proof (repr_descr x P Hr Hsz) as HD. rewrite Hd in HD.
  pose proof (card_range P (min_elem x) (max_elem x) H1 ltac:(lia) H3 HD) as Hcr.
  assert (forall v, Q v = (min_elem x <=? v) && (v <=? max_elem x) || (v =? i)) as HQ
    by (intros v; subst Q; simpl; by rewrite HD).
  pose proof Hi as Hi'. rewrite HD in Hi'.
  unfold plus_ok, FiniteDomain.plus_new, FiniteDomain.provideBitVector, FiniteDomain.provideIntervals.
  rewrite Hd. destruct (Z.eqb_spec i (min_elem x - 1)) as [Emin|Hnmin].
  { eexists; split; [done|]. unfold FiniteDomain.setSize. cbn [min_elem max_elem size descr].
    replace (size x + 1) with (max_elem x - (min_elem x - 1) + 1) by lia.
    apply fd_result; try lia. intros v. rewrite HQ. lia. }
  destruct (Z.eqb_spec i (max_elem x + 1)) as [Emax|Hnmax].
  { eexists; split; [done|]. unfold FiniteDomain.setSize. cbn [min_elem max_elem size descr].
    replace (size x + 1) with (max_elem x + 1 - min_elem x + 1) by lia.
    apply fd_result; try lia. intros v. rewrite HQ. lia. }
  destruct (Z.leb_spec (Z.max i (max_elem x)) (fd_bv_max_elem fd_env)).
  - destruct (bitVector_for Hg (Z.max i (max_elem x))) as (b0 & -> & _ & Hb0 & Hc0); [lia|]. ored.
    destruct (FDBitVector.setFromTo_spec b0 (min_elem x) (max_elem x)) as (b1 & -> & Hl1 & Hw1 & Hm1);
      [lia..|]. ored. unfold FDBitVector.currBvMaxElem in *.
    destruct (FDBitVector.setBit_spec b1 i) as (b2 & -> & Hl2 & Hw2 & Hm2);
      [done|unfold FDBitVector.currBvMaxElem; lia|]. ored.
    eexists; split; [done|]. rewrite setSize_settle_bv, settle_bv_size.
    apply settle_bv_repr; try done; [lia| |lia]. intros v. by rewrite Hm2, Hm1, HQ.
  - destruct (Z.ltb_spec i (min_elem x)); rewrite init2_new; ored; eexists; (split; [done|]);
      unfold FiniteDomain.setSize; cbn [min_elem max_elem size descr];
      apply iv_result; rewrite ?HQ; try lia;
      try (apply seg2; lia); intros v; rewrite ?mem2, HQ; lia.
Qed.

Lemma plus_iv iv : descr x = iv_descr iv -> plus_ok.
Proof using Hr Hsz Hi Hrange.
  intros Hd. destruct (repr_elim x P Hr Hsz) as (H1 & H2 & H3 & H4 & H5 & H6 & H7 & Hdok & _).
  pose proof (card_add P i Hrange Hi) as Hc. fold Q in Hc.
  pose proof (repr_descr x P Hr Hsz) as HD. rewrite Hd in HD. destruct HD as (Hne' & Hs & HP).
  unfold plus_ok, FiniteDomain.plus_new. rewrite Hd.
  destruct (FDIntervals.op_plus_spec 0 fd_sup iv i) as (l & -> & Hs' & Hnl & Hm);
    [eapply FDIntervals.seg_weaken; [..|done]; lia|done|by rewrite HP|lia|]. ored.
  assert (forall v, FDIntervals.mem l v = Q v) as HQ by (intros v; by rewrite Hm, HP).
  destruct (settle_iv_repr l (card Q) Q) as (x1 & Hx1 & Hr1); try done.
  apply settle_iv_parts in Hx1 as (E1 & E2 & Ex). unfold FiniteDomain.settle_iv.
  rewrite E1, E2. ored. eexists; split; [done|]. unfold FiniteDomain.setSize.
  cbn [min_elem max_elem size descr]. replace (size x + 1) with (card Q) by lia. by rewrite <- Ex.
Qed.

Lemma plus_bv bv : descr x = bv_descr bv -> plus_ok.
Proof using Hg Hr Hsz Hi Hrange.
  intros Hd. destruct (repr_elim x P Hr Hsz) as (H1 & H2 & H3 & H4 & H5 & H6 & H7 & _).
  destruct (max_high_facts Hg) as (? & ? & ? & _).
  pose proof (card_add P i Hrange Hi) as Hc. fold Q in Hc.
  pose proof (repr_descr x P Hr Hsz) as HD. rewrite Hd in HD. destruct HD as (Hw & Hl & HP).
  pose proof (bv_reach bv P _ HP H5). unfold plus_ok, FiniteDomain.plus_new. rewrite Hd.
  unfold FDBitVector.currBvMaxElem. destruct (Z.leb_spec i (32 * zlen bv - 1)).
  { destruct (FDBitVector.setBit_spec bv i) as (b1 & -> & Hl1 & Hw1 & Hm1);
      [done|unfold FDBitVector.currBvMaxElem; lia|]. ored.
    eexists; split; [done|]. rewrite setSize_settle_bv, settle_bv_size.
    apply settle_bv_repr; try done; [lia| |lia]. intros v. by rewrite Hm1, HP. }
  destruct (Z.leb_spec i (fd_bv_max_elem fd_env)).
  { destruct (bitVector_for Hg i) as (b0 & -> & _ & Hb0 & Hc0); [lia|]. ored.
    unfold FDBitVector.currBvMaxElem in *.
    destruct (grow_bv_spec bv b0) as (b1 & -> & Hl1 & Hw1 & Hm1); [done|lia|]. ored.
    destruct (FDBitVector.setBit_spec b1 i) as (b2 & -> & Hl2 & Hw2 & Hm2);
      [done|unfold FDBitVector.currBvMaxElem; lia|]. ored.
    eexists; split; [done|]. rewrite setSize_settle_bv, settle_bv_size.
    apply settle_bv_repr; try done; [lia| |lia]. intros v. by rewrite Hm2, Hm1, HP. }
  destruct (plus_convert_spec x P bv i Hr Hsz Hd) as (iv & -> & Hs & Hm); [lia|]. ored.
  eexists; split; [done|]. unfold FiniteDomain.setSize. cbn [min_elem max_elem size descr].
  apply iv_result; try done; try lia.
  - subst Q. simpl. by rewrite H4.
  - subst Q. simpl. by rewrite Z.eqb_refl, orb_true_r.
  - intros v. subst Q. simpl. specialize (H6 v). destruct (P v); [|lia]. specialize (H6 eq_refl). lia.
Qed.
End plus.

Lemma op_plus_int_repr x P i :
repr x P ->
exists x', FiniteDomain.op_plus_int x i = Some x' /\
  repr x' (fun v => P v || ((v =? i) && (0 <=? i) && (i <=? fd_sup))).
Proof using Hg.
intros Hr. unfold FiniteDomain.op_plus_int, fd_inf.
destruct (Z.ltb_spec i 0); cbn [orb];
  [eexists; split; [done|]; eapply repr_ext; [|done]; intros v; lia|].
destruct (Z.ltb_spec fd_sup i);
  [eexists; split; [done|]; eapply repr_ext; [|done]; intros v; lia|].
destruct (Z.eqb_spec (size x) 0) as [E|Hne].
{ eexists; split; [done|]. unfold FiniteDomain.reduce, FiniteDomain.isSingleInterval. simpl.
  replace (i - i + 1) with 1 by lia. unfold FiniteDomain.setType. simpl.
  replace 1 with (i - i + 1) by lia. apply repr_range; try lia.
  intros v. rewrite (repr_size0 x P Hr E). lia. }
assert (0 < size x) as Hsz by (destruct Hr as [(? & _) _]; lia).
rewrite (isIn_repr x P Hr). ored. destruct (P i) eqn:Hi.
{ eexists; split; [done|]. apply repr_reduce. eapply repr_ext; [|done]. intros v.
  destruct (Z.eqb_spec v i) as [->|]; [by rewrite Hi|by rewrite orb_false_r]. }
enough (exists x', FiniteDomain.plus_new x i = Some x' /\
  repr (FiniteDomain.reduce (FiniteDomain.setSize x' (size x' + 1))) (fun v => P v || (v =? i)))
  as (x' & -> & Hr').
{ ored. eexists; split; [done|]. eapply repr_ext; [|done]. intros v. simpl. lia. }
destruct (descr x) as [|iv|bv] eqn:Hd;
  [by apply plus_fd|by apply (plus_iv x P i Hr Hsz Hi ltac:(lia) iv)
  |by apply (plus_bv x P i Hr Hsz Hi ltac:(lia) bv)].
Qed.
End operators.
End FDOperators.
