(* ===== verification/FDSetOperators.v ===== *)
(** * Set operators on finite domains

    Union, intersection, complement and difference of domains, and assignment. *)
From S2P Require Import Prelude Word32 FDBase FDIntervals FDIntervalSets FDBitVector FiniteDomain FDRepr FDQueries FDOperators.

Module FDSetOperators.
Import FDRepr FDQueries FDOperators.

Section operators.
Context `{FDEnv} (Hg : globals_ok fd_env).
Implicit Types (x y : FiniteDomain) (P Q R : Z -> bool).

(** ** Assignment *)

Lemma repr_room x P : repr x P -> descr_room x.
Proof using. by intros [(_ & ? & _) _]. Qed.

Lemma assign_repr x fd P : repr fd P -> FiniteDomain.assign x fd = Some fd.
Proof using Hg.
  intros Hr%repr_room. unfold FiniteDomain.assign, descr_room in *.
  destruct fd as [a b s [|iv|bv]]; simpl in *; [done|..].
  - unfold FDIntervals.assign. rewrite FDIntervals.zlen_newIntervals by done. by rewrite Z.leb_refl.
  - destruct (newBitVector_spec Hg (zlen bv)) as (b0 & -> & Hb0); [done|].
    ored. unfold FDBitVector.assign. by rewrite Hb0, Z.leb_refl.
Qed.

Lemma copyExtension_repr x P : repr x P -> FiniteDomain.copyExtension x = Some x.
Proof using Hg.
  intros Hr%repr_room. unfold FiniteDomain.copyExtension, descr_room in *.
  destruct x as [a b s [|iv|bv]]; simpl in *; [done|..].
  - rewrite FDIntervals.copy_spec. done.
  - unfold FDBitVector.copy, FDBitVector.assign.
    destruct (newBitVector_spec Hg (zlen bv)) as (b0 & -> & Hb0); [done|].
    ored. by rewrite Hb0, Z.leb_refl.
Qed.

(** ** The two ways to compute a set operation

    On interval lists when the result can reach above the bit vectors, on bit
    vectors otherwise. *)

Lemma intervals_of x P :
  repr x P -> 0 < size x ->
  exists iv, FiniteDomain.asIntervals x = Some iv /\ iv <> [] /\ FDIntervals.seg 0 fd_sup iv /\
    (forall v, FDIntervals.mem iv v = P v) /\ 0 < zlen iv.
Proof using Hg.
  intros Hr Hsz. destruct (asIntervals_spec Hg x P Hr Hsz) as (iv & -> & Hne & Hs & Hm).
  destruct (repr_elim x P Hr Hsz) as (? & ? & ? & _). exists iv. split_and!; try done.
  - eapply FDIntervals.seg_weaken; [..|done]; lia.
  - destruct iv as [|e iv]; [done|]. rewrite zlen_cons. pose proof (zlen_nonneg iv). lia.
Qed.

Lemma vector_of x P :
  repr x P -> 0 < size x ->
  exists bv, FiniteDomain.asBitVector x = Some bv /\ Forall is_word bv /\
    zlen bv <= fd_bv_max_high fd_env /\ 32 * zlen bv <= fd_sup + 1 /\
    forall v, words_mem bv v = P v && (v <=? fd_bv_max_elem fd_env).
Proof using Hg.
  intros Hr Hsz. destruct (asBitVector_spec Hg x P Hr Hsz) as (bv & -> & Hw & Hl & Hm).
  destruct (max_high_facts Hg) as (? & ? & ? & _). exists bv. split_and!; try done. lia.
Qed.

(** A set with a member has a size. *)
Lemma size_cases x P : repr x P -> (size x = 0 /\ forall v, P v = false) \/ 0 < size x.
Proof using.
  intros Hr. destruct (Z.eq_dec (size x) 0) as [E|].
  - left. split; [done|]. by eapply repr_size0.
  - right. destruct Hr as [(? & _) _]. lia.
Qed.

Lemma max_mem x P : repr x P -> 0 < size x -> P (max_elem x) = true.
Proof using. intros Hr Hsz. by destruct (repr_elim x P Hr Hsz) as (? & ? & ? & ? & ? & _). Qed.

Lemma mem_le_max x P v : repr x P -> P v = true -> v <= max_elem x.
Proof using.
  intros Hr Hv. destruct (repr_bounds x P v Hr Hv) as [Hsz _].
  destruct (repr_elim x P Hr Hsz) as (? & ? & ? & ? & ? & Hb & _). by apply Hb.
Qed.

(** ** Union *)

Lemma union_repr x y P Q :
  repr x P -> repr y Q -> 0 < size x -> 0 < size y ->
  exists z, (if fd_bv_max_elem fd_env <? Z.max (max_elem x) (max_elem y) then
      x_v ← FiniteDomain.asIntervals x;
      y_v ← FiniteDomain.asIntervals y;
      let z_v := FDIntervals.newIntervals (zlen x_v + zlen y_v) in
      '(z_v, s) ← FDIntervals.union_iv (zlen z_v) x_v y_v;
      FiniteDomain.settle_iv z_v s
    else
      x_v ← FiniteDomain.asBitVector x;
      y_v ← FiniteDomain.asBitVector y;
      z_v ← FDBitVector.newBitVector (Z.max (zlen x_v) (zlen y_v));
      '(z_v, s) ← FDBitVector.union_bv z_v x_v y_v;
      Some (FiniteDomain.settle_bv z_v s)) = Some z /\
    repr (FiniteDomain.reduce z) (fun v => P v || Q v).
Proof using Hg.
  intros Hx Hy Sx Sy.
  destruct (Z.ltb_spec (fd_bv_max_elem fd_env) (Z.max (max_elem x) (max_elem y))) as [Hbig|Hsmall].
  - destruct (intervals_of x P Hx Sx) as (xv & -> & Nx & Gx & Mx & Lx).
    destruct (intervals_of y Q Hy Sy) as (yv & -> & Ny & Gy & My & Ly). ored.
    rewrite FDIntervals.zlen_newIntervals by lia.
    destruct (union_iv_spec (zlen xv + zlen yv) 0 fd_sup xv yv) as (z & -> & Gz & Mz); try done. ored.
    assert (forall v, FDIntervals.mem z v = P v || Q v) as HR by (intros v; by rewrite Mz, Mx, My).
    apply settle_iv_repr; [done|done|rewrite card_total by done; by apply card_ext].
  - destruct (vector_of x P Hx Sx) as (xv & -> & Wx & Lx & Bx & Mx).
    destruct (vector_of y Q Hy Sy) as (yv & -> & Wy & Ly & By & My). ored.
    destruct (newBitVector_spec Hg (Z.max (zlen xv) (zlen yv))) as (z0 & -> & Hz0).
    { pose proof (zlen_nonneg xv). lia. }
    ored. destruct (FDBitVector.union_bv_spec z0 xv yv) as (z & -> & Lz & Wz & Mz); try done. ored.
    assert (forall v, words_mem z v = P v || Q v) as HR.
    { intros v. rewrite Mz, Mx, My. destruct (P v) eqn:EP; [apply (mem_le_max x P v Hx) in EP; lia|].
      destruct (Q v) eqn:EQ; [apply (mem_le_max y Q v Hy) in EQ; lia|]. done. }
    eexists; split; [done|]. apply settle_bv_repr; try done; [lia|].
    rewrite card_bv by lia. by apply card_ext.
Qed.

Lemma op_or_repr x y P Q :
  repr x P -> repr y Q ->
  exists z, FiniteDomain.op_or x y = Some z /\ repr z (fun v => P v || Q v).
Proof using Hg.
  intros Hx Hy. unfold FiniteDomain.op_or. cbn [FiniteDomain.eq_state]. ored.
  destruct (size_cases x P Hx) as [[Ex HP]|Sx].
  { rewrite Ex, Z.eqb_refl, (assign_repr _ y Q Hy). ored. eexists; split; [done|]. apply repr_reduce.
    eapply repr_ext; [|done]. intros v. by rewrite HP. }
  destruct (Z.eqb_spec (size x) 0); [lia|]. destruct (size_cases y Q Hy) as [[Ey HQ]|Sy].
  { rewrite Ey, Z.eqb_refl, (assign_repr _ x P Hx). ored. eexists; split; [done|]. apply repr_reduce.
    eapply repr_ext; [|done]. intros v. by rewrite HQ, orb_false_r. }
  destruct (Z.eqb_spec (size y) 0); [lia|].
  destruct (union_repr x y P Q Hx Hy Sx Sy) as (z & Ez & Hz). ored in Ez. rewrite Ez. by eexists.
Qed.

(** ** Intersection *)

(** Two single intervals. *)
Lemma inter_ranges x y P Q s s' :
  repr x P -> repr y Q -> 0 < size x -> 0 < size y -> descr x = fd_descr -> descr y = fd_descr ->
  descr_room s -> descr s = fd_descr ->
  exists z, (if (max_elem x <? min_elem y) || (max_elem y <? min_elem x) then Some (FiniteDomain.setSize s 0)
     else
       let z := FD (Z.max (min_elem x) (min_elem y)) (Z.min (max_elem x) (max_elem y)) s' (descr s) in
       Some (FiniteDomain.setSize z (FiniteDomain.findSize z))) = Some z /\
    repr (FiniteDomain.reduce z) (fun v => P v && Q v).
Proof using.
  intros Hx Hy Sx Sy Dx Dy Hroom Ds.
  pose proof (repr_descr x P Hx Sx) as HP. rewrite Dx in HP.
  pose proof (repr_descr y Q Hy Sy) as HQ. rewrite Dy in HQ.
  destruct (repr_elim x P Hx Sx) as (? & ? & ? & _). destruct (repr_elim y Q Hy Sy) as (? & ? & ? & _).
  destruct ((max_elem x <? min_elem y) || (max_elem y <? min_elem x)) eqn:E.
  - eexists; split; [done|]. apply repr_reduce_empty; [done..|]. intros v. rewrite HP, HQ. lia.
  - eexists; split; [done|]. rewrite Ds. unfold FiniteDomain.setSize, FiniteDomain.findSize.
    cbn [min_elem max_elem size descr]. apply fd_result; try lia. intros v. rewrite HP, HQ. lia.
Qed.

(** Intersection of interval lists; [z] may well fit a bit vector. *)
Lemma inter_intervals x y P Q :
  repr x P -> repr y Q -> 0 < size x -> 0 < size y ->
  exists z, (x_i ← FiniteDomain.asIntervals x;
      y_i ← FiniteDomain.asIntervals y;
      let z_i := FDIntervals.newIntervals (zlen x_i + zlen y_i - 1) in
      '(z_i, s) ← FDIntervals.intersect_iv (zlen z_i) x_i y_i;
      FiniteDomain.settle_iv z_i s) = Some z /\
    repr (FiniteDomain.reduce z) (fun v => P v && Q v).
Proof using Hg.
  intros Hx Hy Sx Sy. destruct (intervals_of x P Hx Sx) as (xv & -> & Nx & Gx & Mx & Lx).
  destruct (intervals_of y Q Hy Sy) as (yv & -> & Ny & Gy & My & Ly). ored.
  rewrite FDIntervals.zlen_newIntervals by lia.
  destruct (intersect_iv_spec (zlen xv + zlen yv - 1) 0 fd_sup xv yv) as (z & -> & Gz & Mz); try done. ored.
  assert (forall v, FDIntervals.mem z v = P v && Q v) as HR by (intros v; by rewrite Mz, Mx, My).
  apply settle_iv_repr; [done|done|]. rewrite card_total by done. by apply card_ext.
Qed.

(** Intersection of bit vectors, given the vectors' words. *)
Lemma inter_vectors x y P Q xv yv z s :
  repr x P -> repr y Q -> Z.min (max_elem x) (max_elem y) <= fd_bv_max_elem fd_env ->
  (forall v, words_mem xv v = P v && (v <=? fd_bv_max_elem fd_env)) ->
  (forall v, words_mem yv v = Q v && (v <=? fd_bv_max_elem fd_env)) ->
  (forall v, words_mem z v = words_mem xv v && words_mem yv v) ->
  Forall is_word z -> zlen z <= fd_bv_max_high fd_env -> s = FDBitVector.bv_count z ->
  repr (FiniteDomain.reduce (FiniteDomain.settle_bv z s)) (fun v => P v && Q v).
Proof using Hg.
  intros Hx Hy Hsmall Mx My Mz Wz Lz ->. destruct (max_high_facts Hg) as (? & ? & ? & _).
  assert (forall v, words_mem z v = P v && Q v) as HR.
  { intros v. rewrite Mz, Mx, My. destruct (P v) eqn:EP; [|done]. apply (mem_le_max x P v Hx) in EP.
    destruct (Q v) eqn:EQ; [|by rewrite andb_false_r]. apply (mem_le_max y Q v Hy) in EQ. lia. }
  apply settle_bv_repr; try done. rewrite card_bv by lia. by apply card_ext.
Qed.

Lemma op_and_eq_repr x y P Q :
  repr x P -> repr y Q ->
  exists z, FiniteDomain.op_and_eq x y = Some z /\ repr z (fun v => P v && Q v).
Proof using Hg.
  intros Hx Hy. unfold FiniteDomain.op_and_eq. cbn [FiniteDomain.eq_state]. ored.
  destruct (size_cases x P Hx) as [[Ex HP]|Sx].
  { rewrite Ex. eexists; split; [done|]. apply repr_initEmpty. intros v. by rewrite HP. }
  destruct (size_cases y Q Hy) as [[Ey HQ]|Sy].
  { rewrite Ey, orb_true_r. eexists; split; [done|]. apply repr_initEmpty.
    intros v. by rewrite HQ, andb_false_r. }
  destruct (Z.eqb_spec (size x) 0), (Z.eqb_spec (size y) 0); try lia. cbn [orb].
  destruct (FiniteDomain.is_fd x && FiniteDomain.is_fd y) eqn:Efd.
  { destruct (inter_ranges x y P Q x (size x) Hx Hy Sx Sy) as (z & Ez & Hz);
      [..|by eapply repr_room| |ored in Ez; rewrite Ez; by eexists];
      unfold FiniteDomain.is_fd in Efd; destruct (descr x), (descr y); done. }
  destruct (Z.ltb_spec (fd_bv_max_elem fd_env) (Z.min (max_elem x) (max_elem y))).
  - destruct (inter_intervals x y P Q Hx Hy Sx Sy) as (z & Ez & Hz). ored in Ez. rewrite Ez. by eexists.
  - destruct (vector_of x P Hx Sx) as (xv & -> & Wx & Lx & Bx & Mx).
    destruct (vector_of y Q Hy Sy) as (yv & -> & Wy & Ly & By & My). ored.
    destruct (FDBitVector.intersect_bv_spec xv yv) as (z & -> & Lz & Wz & Mz); try done. ored.
    eexists; split; [done|]. eapply (inter_vectors x y P Q xv yv); try done; lia.
Qed.

Lemma op_and_repr x y P Q :
  repr x P -> repr y Q ->
  exists z, FiniteDomain.op_and x y = Some z /\ repr z (fun v => P v && Q v).
Proof using Hg.
  intros Hx Hy. unfold FiniteDomain.op_and. cbn [FiniteDomain.eq_state]. ored.
  destruct (size_cases x P Hx) as [[Ex HP]|Sx].
  { rewrite Ex. eexists; split; [done|]. apply repr_initEmpty. intros v. by rewrite HP. }
  destruct (size_cases y Q Hy) as [[Ey HQ]|Sy].
  { rewrite Ey, orb_true_r. eexists; split; [done|]. apply repr_initEmpty.
    intros v. by rewrite HQ, andb_false_r. }
  destruct (Z.eqb_spec (size x) 0), (Z.eqb_spec (size y) 0); try lia. cbn [orb].
  destruct (FiniteDomain.is_fd x && FiniteDomain.is_fd y) eqn:Efd.
  { destruct (inter_ranges x y P Q FiniteDomain.initEmpty (size FiniteDomain.initEmpty) Hx Hy Sx Sy) as (z & Ez & Hz);
      [..|done|done|ored in Ez; rewrite Ez; by eexists];
      unfold FiniteDomain.is_fd in Efd; destruct (descr x), (descr y); done. }
  destruct (Z.ltb_spec (fd_bv_max_elem fd_env) (Z.min (max_elem x) (max_elem y))).
  - destruct (inter_intervals x y P Q Hx Hy Sx Sy) as (z & Ez & Hz). ored in Ez. rewrite Ez. by eexists.
  - destruct (vector_of x P Hx Sx) as (xv & -> & Wx & Lx & Bx & Mx).
    destruct (vector_of y Q Hy Sy) as (yv & -> & Wy & Ly & By & My). ored.
    destruct (newBitVector_spec Hg (Z.min (zlen xv) (zlen yv))) as (z0 & -> & Hz0).
    { pose proof (zlen_nonneg xv). pose proof (zlen_nonneg yv). lia. }
    ored. destruct (FDBitVector.intersect_bv2_spec z0 xv yv) as (z & -> & Lz & Wz & Mz); try done. ored.
    eexists; split; [done|]. eapply (inter_vectors x y P Q xv yv); try done; lia.
Qed.

(** ** Difference *)

Lemma sub_intervals cap xv yv P Q :
  FDIntervals.seg 0 fd_sup xv -> FDIntervals.seg 0 fd_sup yv ->
  (forall v, FDIntervals.mem xv v = P v) -> (forall v, FDIntervals.mem yv v = Q v) ->
  zlen xv + zlen yv <= cap ->
  exists z s x1 x2, FDIntervals.subtract_iv cap xv yv = Some (z, s) /\
    FiniteDomain.settle_iv z s = Some x1 /\ FiniteDomain.shrink_iv x1 = Some x2 /\
    repr (FiniteDomain.reduce x2) (fun v => P v && negb (Q v)).
Proof using Hg.
  intros Gx Gy Mx My Hcap. destruct (subtract_iv_spec cap 0 0 fd_sup xv yv) as (z & -> & Gz & Mz); try done.
  assert (forall v, FDIntervals.mem z v = P v && negb (Q v)) as HR by (intros v; by rewrite Mz, Mx, My).
  destruct (settle_shrink_repr Hg z (FDIntervals.total z) (fun v => P v && negb (Q v)))
    as (x1 & x2 & E1 & E2 & _ & Hr); [done|done|rewrite card_total by done; by apply card_ext|].
  by exists z, (FDIntervals.total z), x1, x2.
Qed.

Lemma sub_vectors xv yv P Q :
  Forall is_word xv -> Forall is_word yv -> zlen xv <= fd_bv_max_high fd_env ->
  (forall v, words_mem xv v = P v) ->
  (forall v, words_mem yv v = Q v && (v <=? fd_bv_max_elem fd_env)) ->
  exists z s, FDBitVector.op_minus xv yv = Some (z, s) /\
    repr (FiniteDomain.reduce (FiniteDomain.settle_bv z s)) (fun v => P v && negb (Q v)).
Proof using Hg.
  intros Wx Wy Lx Mx My. destruct (max_high_facts Hg) as (? & ? & ? & _).
  destruct (FDBitVector.bv_op_minus_spec xv yv) as (z & -> & Lz & Wz & Mz); try done.
  assert (forall v, words_mem z v = P v && negb (Q v)) as HR.
  { intros v. rewrite Mz, Mx, My. destruct (P v) eqn:EP; [|done].
    pose proof (bv_reach xv P v Mx EP). destruct (Z.leb_spec v (fd_bv_max_elem fd_env)); [|lia].
    by rewrite andb_true_r. }
  exists z, (FDBitVector.bv_count z). split; [done|]. apply settle_bv_repr; try done; [lia|].
  rewrite card_bv by lia. by apply card_ext.
Qed.

Lemma minus_ranges_repr x y P Q :
  repr x P -> repr y Q -> 0 < size x -> 0 < size y -> descr x = fd_descr -> descr y = fd_descr ->
  exists z, FiniteDomain.minus_ranges x y = Some z /\ repr z (fun v => P v && negb (Q v)).
Proof using Hg.
  intros Hx Hy Sx Sy Dx Dy. set (R := fun v => P v && negb (Q v)).
  pose proof (repr_descr x P Hx Sx) as HP. rewrite Dx in HP.
  pose proof (repr_descr y Q Hy Sy) as HQ. rewrite Dy in HQ.
  destruct (repr_elim x P Hx Sx) as (? & ? & ? & _). destruct (repr_elim y Q Hy Sy) as (? & ? & ? & _).
  destruct (max_high_facts Hg) as (? & ? & ? & _).
  assert (forall v, R v = (min_elem x <=? v) && (v <=? max_elem x) &&
    negb ((min_elem y <=? v) && (v <=? max_elem y))) as HR by (intros v; subst R; simpl; by rewrite HP, HQ).
  unfold FiniteDomain.minus_ranges, FiniteDomain.provideBitVector, FiniteDomain.provideIntervals,
    FiniteDomain.setSize, FiniteDomain.findSize. rewrite Dx.
  destruct ((max_elem y <? min_elem x) || (max_elem x <? min_elem y)) eqn:E1.
  { eexists; split; [done|]. eapply repr_ext; [|done]. intros v. rewrite HR, HP. lia. }
  destruct ((min_elem y <=? min_elem x) && (max_elem x <=? max_elem y)) eqn:E2.
  { eexists; split; [done|]. apply repr_reduce_empty; [done..|]. intros v. rewrite HR. lia. }
  destruct ((min_elem x <? min_elem y) && (max_elem y <? max_elem x)) eqn:E3.
  2:{ destruct (Z.ltb_spec (max_elem y) (max_elem x)); (eexists; split; [done|]);
      cbn [min_elem max_elem size descr]; apply fd_result; try lia; intros v; rewrite HR; lia. }
  destruct (Z.leb_spec (max_elem x) (fd_bv_max_elem fd_env)).
  - destruct (bitVector_for Hg (max_elem x)) as (b0 & -> & _ & Hb0 & Hc0); [lia|]. ored.
    destruct (FDBitVector.setFromTo_spec b0 (min_elem x) (min_elem y - 1)) as (b1 & -> & Hl1 & Hw1 & Hm1);
      [lia..|]. ored. unfold FDBitVector.currBvMaxElem in *.
    destruct (FDBitVector.addFromTo_spec b1 (max_elem y + 1) (max_elem x)) as (b2 & -> & Hl2 & Hw2 & Hm2);
      [done|lia|lia|unfold FDBitVector.currBvMaxElem; lia|]. ored.
    rewrite FDBitVector.findSize_spec by done. ored. fold (FDBitVector.bv_count b2).
    assert (forall v, words_mem b2 v = R v) as HB by (intros v; rewrite Hm2, Hm1, HR; lia).
    rewrite card_bv by lia. rewrite (card_ext _ _ HB). eexists; split; [done|].
    apply bv_result; rewrite ?HR; try done; try lia. intros v. rewrite HR. lia.
  - rewrite init2_new. ored. rewrite FDIntervals.findSize_total. ored. eexists; split; [done|].
    assert (FDIntervals.seg 0 fd_sup [Iv (min_elem x) (min_elem y - 1); Iv (max_elem y + 1) (max_elem x)])
      as Hs by (apply seg2; lia).
    assert (forall v, FDIntervals.mem [Iv (min_elem x) (min_elem y - 1); Iv (max_elem y + 1) (max_elem x)] v = R v)
      as HM by (intros v; rewrite mem2, HR; lia).
    rewrite card_total by done. rewrite (card_ext _ _ HM).
    apply iv_result; rewrite ?HR; try done; try lia. intros v. rewrite HR. lia.
Qed.

Lemma op_minus_repr x y P Q :
  repr x P -> repr y Q -> 0 < size x ->
  exists z, FiniteDomain.op_minus x y = Some z /\ repr z (fun v => P v && negb (Q v)).
Proof using Hg.
  intros Hx Hy Sx. unfold FiniteDomain.op_minus. cbn [FiniteDomain.ne_state]. ored.
  destruct (size_cases y Q Hy) as [[Ey HQ]|Sy].
  { rewrite Ey. eexists; split; [done|]. eapply repr_ext; [|done]. intros v.
    by rewrite HQ, andb_true_r. }
  rewrite (proj2 (Z.ltb_lt _ _) Sy). cbn [negb].
  destruct (intervals_of x P Hx Sx) as (xv & Exv & Nx & Gx & Mx & Lx).
  destruct (intervals_of y Q Hy Sy) as (yv & Eyv & Ny & Gy & My & Ly).
  destruct (vector_of x P Hx Sx) as (xb & Exb & Wx & Kx & Bx & Vx).
  destruct (vector_of y Q Hy Sy) as (yb & Eyb & Wy & Ky & By & Vy).
  destruct (descr x) as [|x_iv|x_bv] eqn:Dx.
  - destruct (descr y) as [|y_iv|y_bv] eqn:Dy; [by apply minus_ranges_repr|..].
    + assert (xv = [Iv (min_elem x) (max_elem x)]) as ->.
      { unfold FiniteDomain.asIntervals, FiniteDomain.provideIntervals in Exv.
        rewrite Dx, init1_new in Exv. congruence. }
      assert (yv = y_iv) as -> by (unfold FiniteDomain.asIntervals in Eyv; rewrite Dy in Eyv; congruence).
      rewrite Exv. ored. rewrite FDIntervals.zlen_newIntervals by lia.
      destruct (sub_intervals (1 + zlen y_iv) _ _ P Q Gx Gy Mx My) as (z & s & x1 & x2 & -> & E1 & E2 & Hr);
        [unfold zlen; simpl; lia|]. ored. rewrite E1. ored. rewrite E2. ored. by eexists.
    + assert (yb = y_bv) as -> by (unfold FiniteDomain.asBitVector in Eyb; rewrite Dy in Eyb; congruence).
      destruct (Z.ltb_spec (fd_bv_max_elem fd_env) (max_elem x)).
      * rewrite Exv, Eyv. ored. unfold FiniteDomain.provideIntervals. rewrite Dx.
        rewrite FDIntervals.zlen_newIntervals by lia.
        destruct (sub_intervals (zlen xv + zlen yv) _ _ P Q Gx Gy Mx My) as (z & s & x1 & x2 & -> & E1 & E2 & Hr);
          [lia|]. ored. rewrite E1. ored. rewrite E2. ored. by eexists.
      * rewrite Exb. ored.
        destruct (sub_vectors xb y_bv P Q Wx Wy Kx) as (z & s & -> & Hr); [|done|ored; by eexists].
        intros v. rewrite Vx. destruct (P v) eqn:EP; [|done]. apply (mem_le_max x P v Hx) in EP. lia.
  - assert (xv = x_iv) as -> by (unfold FiniteDomain.asIntervals in Exv; rewrite Dx in Exv; congruence).
    rewrite Eyv. ored. rewrite FDIntervals.zlen_newIntervals by lia.
    destruct (sub_intervals (zlen x_iv + zlen yv) _ _ P Q Gx Gy Mx My) as (z & s & x1 & x2 & -> & E1 & E2 & Hr);
      [lia|]. ored. rewrite E1. ored. rewrite E2. ored. by eexists.
  - pose proof (repr_descr x P Hx Sx) as HD. rewrite Dx in HD. destruct HD as (Wx' & Kx' & Mx').
    rewrite Eyb. ored. destruct (sub_vectors x_bv yb P Q) as (z & s & -> & Hr); try done. ored. by eexists.
Qed.

(** ** Complement *)

(** The end of [operator ~], which asserts that the vector it switches to has
    the size of the interval list. *)
Lemma settle_assert_repr iv P :
  FDIntervals.seg 0 fd_sup iv -> iv <> [] -> (forall v, FDIntervals.mem iv v = P v) ->
  exists z, (y ← FiniteDomain.settle_iv iv (FDIntervals.total iv);
     y ← (if max_elem y <=? fd_bv_max_elem fd_env then
            bv ← FiniteDomain.asBitVector y;
            bv_size ← FDBitVector.findSize bv;
            if size y =? bv_size then Some (FiniteDomain.setType y (bv_descr bv)) else None
          else Some y);
     Some (FiniteDomain.reduce y)) = Some z /\ repr z P.
Proof using Hg.
  intros Hs Hne HP. assert (FDIntervals.total iv = card P) as Ht.
  { rewrite card_total by done. by apply card_ext. }
  rewrite Ht. destruct (settle_shrink_repr Hg iv (card P) P Hs HP eq_refl) as (x1 & x2 & E1 & E2 & _ & Hr).
  destruct (settle_iv_eq 0 iv (card P) Hs Hne) as (a & b & E1' & Ha & Hb & _ & Hab).
  rewrite E1' in E1. injection E1 as <-. rewrite E1'. ored. unfold FiniteDomain.shrink_iv in E2.
  destruct (max_high_facts Hg) as (? & ? & ? & _). pose proof (FDIntervals.mem_bounds _ _ _ _ Hs Hb).
  cbn [max_elem] in *. destruct (Z.leb_spec b (fd_bv_max_elem fd_env)) as [Hle|].
  - destruct (asBitVector_iv Hg (FD a b (card P) (iv_descr iv)) iv) as (bv & Ebv & Hw & Hl & Hm);
      [done|done|simpl; lia|intros v Hv%Hab; simpl; lia|].
    rewrite Ebv in E2 |- *. ored in E2. injection E2 as <-. ored.
    rewrite FDBitVector.findSize_spec by done. ored. fold (FDBitVector.bv_count bv).
    rewrite card_bv by lia. rewrite (card_ext (words_mem bv) P).
    + cbn [size]. rewrite Z.eqb_refl. by eexists.
    + intros v. rewrite Hm, HP. destruct (P v) eqn:Ev; [|done]. rewrite <- HP in Ev. apply Hab in Ev. lia.
  - injection E2 as <-. by eexists.
Qed.

(** The first and the last interval of a list hold its bounds. *)
Lemma seg_ends a b iv :
  FDIntervals.seg a b iv -> FDIntervals.mem iv a = true -> FDIntervals.mem iv b = true ->
  exists e es z, iv = e :: es /\ last iv = Some z /\ iv_left e = a /\ iv_right z = b.
Proof using.
  intros Hs Ha Hb. destruct iv as [|e es]; [done|]. destruct (last (e :: es)) as [z|] eqn:Hz;
    [|by apply last_None in Hz].
  destruct (last_seg a b e es z Hs Hz) as (Hs' & Hz1 & _). exists e, es, z. split_and!; try done.
  - destruct Hs as (H1 & H2 & H3 & H4). rewrite FDIntervals.mem_cons in Ha. unfold FDIntervals.iv_in in Ha.
    destruct (FDIntervals.mem es a) eqn:E; [|lia]. apply (FDIntervals.mem_bounds _ _ _ _ H4) in E. lia.
  - apply (FDIntervals.mem_bounds _ _ _ _ Hs') in Hb. lia.
Qed.

Definition not_set P (v : Z) : bool := (0 <=? v) && (v <=? fd_sup) && negb (P v).

(** The complement of a list that is not the whole range. *)
Lemma complement_repr a b iv n P :
  FDIntervals.seg a b iv -> 0 <= a -> b <= fd_sup -> P a = true -> P b = true ->
  (forall v, FDIntervals.mem iv v = P v) ->
  n = zlen iv - 1 + Z.b2z (0 <? a) + Z.b2z (b <? fd_sup) -> (exists v, not_set P v = true) ->
  exists l, FDIntervals.complement (FDIntervals.newIntervals n) iv = Some l /\ l <> [] /\
    FDIntervals.seg 0 fd_sup l /\ forall v, FDIntervals.mem l v = not_set P v.
Proof using.
  intros Hs Ha Hb HPa HPb HP -> [w Hw].
  destruct (seg_ends a b iv Hs) as (e & es & z & -> & Hz & <- & <-); [by rewrite HP..|].
  rewrite zlen_cons. pose proof (zlen_nonneg es).
  destruct (complement_spec (FDIntervals.newIntervals
    (zlen es + 1 - 1 + Z.b2z (0 <? iv_left e) + Z.b2z (iv_right z <? fd_sup))) e es z) as (l & -> & Gl & Ml).
  - eapply FDIntervals.seg_weaken; [..|done]; lia.
  - done.
  - rewrite FDIntervals.zlen_newIntervals by (destruct (0 <? iv_left e), (iv_right z <? fd_sup); simpl; lia). lia.
  - assert (forall v, FDIntervals.mem l v = not_set P v) as HQ by (intros v; by rewrite Ml, HP).
    exists l. split_and!; try done. intros ->. by rewrite <- HQ in Hw.
Qed.

(** A domain that does not have every element misses one. *)
Lemma not_full x P : repr x P -> size x <> fd_full_size -> exists v, not_set P v = true.
Proof using.
  intros Hr Hne. rewrite (repr_card x P Hr) in Hne.
  destruct (Z.eq_dec (card (not_set P)) 0) as [E|]; [|apply card_pos_inv; pose proof (card_nonneg (not_set P)); lia].
  exfalso. apply Hne. rewrite (card_range P 0 fd_sup); [done|done|done|done|]. intros v.
  destruct (decide (0 <= v <= fd_sup)) as [Hv|Hv].
  - pose proof (card_zero _ v E Hv) as Hn. unfold not_set in Hn. destruct (P v); [|simpl in Hn]; lia.
  - destruct (P v) eqn:EP; [apply (repr_bounds x P v Hr) in EP; lia|lia].
Qed.

Lemma not_fd x P :
  repr x P -> 0 < size x -> size x <> fd_full_size -> descr x = fd_descr ->
  exists z, FiniteDomain.op_not x = Some z /\ repr z (not_set P).
Proof using Hg.
  intros Hr Hsz Hfull Dx. destruct (repr_elim x P Hr Hsz) as (H1 & H2 & H3 & H4 & H5 & H6 & H7 & _).
  pose proof (repr_descr x P Hr Hsz) as HD. rewrite Dx in HD.
  pose proof (card_range P (min_elem x) (max_elem x) H1 ltac:(lia) H3 HD) as Hc.
  unfold FiniteDomain.op_not. cbn [FiniteDomain.eq_state]. ored.
  destruct (Z.eqb_spec (size x) 0); [lia|]. destruct (Z.eqb_spec (size x) fd_full_size); [done|].
  rewrite Dx. unfold FiniteDomain.setSize, FiniteDomain.findSize. cbn [min_elem max_elem size descr].
  assert (forall v, not_set P v = (0 <=? v) && (v <=? fd_sup) &&
    negb ((min_elem x <=? v) && (v <=? max_elem x))) as HR by (intros v; unfold not_set; by rewrite HD).
  assert (size x <> fd_sup + 1) by done.
  destruct (Z.eqb_spec (min_elem x) 0).
  { eexists; split; [done|]. apply repr_range; try lia. intros v. rewrite HR. lia. }
  destruct (Z.eqb_spec (max_elem x) fd_sup).
  { eexists; split; [done|]. apply repr_range; try lia. intros v. rewrite HR. lia. }
  rewrite init2_new. ored. rewrite FDIntervals.findSize_total. ored. eexists; split; [done|].
  unfold fd_inf. set (iv := [Iv 0 (min_elem x - 1); Iv (max_elem x + 1) fd_sup]).
  assert (FDIntervals.seg 0 fd_sup iv) as Hs by (apply seg2; lia).
  assert (forall v, FDIntervals.mem iv v = not_set P v) as HM by (intros v; subst iv; rewrite mem2, HR; lia).
  assert (FiniteDomain.reduce (FD 0 fd_sup (FDIntervals.total iv) (iv_descr iv))
    = FD 0 fd_sup (FDIntervals.total iv) (iv_descr iv)) as <-.
  { unfold FiniteDomain.reduce, FiniteDomain.isSingleInterval. cbn [min_elem max_elem size].
    subst iv. simpl FDIntervals.total.
    match goal with |- context [?a =? ?b] => destruct (Z.eqb_spec a b); [lia|done] end. }
  apply iv_result; rewrite ?HR; try done; try lia.
  - intros v. rewrite HR. lia.
  - rewrite card_total by done. by apply card_ext.
Qed.

Lemma op_not_repr x P :
  repr x P -> exists z, FiniteDomain.op_not x = Some z /\ repr z (not_set P).
Proof using Hg.
  intros Hr. destruct (size_cases x P Hr) as [[E HP]|Hsz].
  { unfold FiniteDomain.op_not. cbn [FiniteDomain.eq_state]. ored. rewrite E.
    eexists; split; [done|].
    change (FiniteDomain.initFull) with (FD 0 fd_sup (fd_sup - 0 + 1) fd_descr).
    apply repr_range; try done. intros v. unfold not_set. rewrite HP. lia. }
  destruct (Z.eq_dec (size x) fd_full_size) as [E|Hfull].
  { unfold FiniteDomain.op_not. cbn [FiniteDomain.eq_state]. ored.
    destruct (Z.eqb_spec (size x) 0); [lia|]. rewrite E, Z.eqb_refl.
    eexists; split; [done|]. apply repr_initEmpty. intros v. unfold not_set.
    destruct (decide (0 <= v <= fd_sup)); [|lia]. rewrite (card_full P 0 fd_sup v); try done; try lia.
    - intros w Hw. by apply (repr_bounds x P w Hr).
    - rewrite <- (repr_card x P Hr), E. done. }
  destruct (FiniteDomain.is_fd x) eqn:Efd.
  { apply (not_fd x P Hr Hsz Hfull). unfold FiniteDomain.is_fd in Efd. by destruct (descr x). }
  destruct (repr_elim x P Hr Hsz) as (H1 & H2 & H3 & H4 & H5 & H6 & _).
  destruct (max_high_facts Hg) as (? & ? & ? & _).
  pose proof (not_full x P Hr Hfull) as Hmiss. pose proof (repr_descr x P Hr Hsz) as HD.
  unfold FiniteDomain.op_not. cbn [FiniteDomain.eq_state]. ored.
  destruct (Z.eqb_spec (size x) 0); [lia|]. destruct (Z.eqb_spec (size x) fd_full_size); [done|].
  unfold FiniteDomain.is_fd in Efd. destruct (descr x) as [|iv|bv]; [done|..].
  - destruct HD as (Hne & Hs & HP). unfold fd_inf.
    destruct (complement_repr (min_elem x) (max_elem x) iv _ P Hs H1 H3 H4 H5 HP eq_refl Hmiss)
      as (l & -> & Nl & Gl & Ml). ored. rewrite FDIntervals.findSize_total. ored.
    destruct (settle_assert_repr l (not_set P) Gl Nl Ml) as (z & Ez & Hz). by exists z.
  - destruct HD as (Hw & Hl & HP). pose proof (bv_reach bv P _ HP H5).
    destruct (mkRaw_repr Hg bv (min_elem x) (max_elem x) P Hw Hl HP H6) as (ivs & -> & Gi & Mi & _). ored.
    destruct (complement_repr (min_elem x) (max_elem x) ivs
      (zlen ivs + Z.b2z (0 <? min_elem x)) P Gi H1 H3 H4 H5 Mi) as (l & -> & Nl & Gl & Ml).
    { destruct (Z.ltb_spec (max_elem x) fd_sup); simpl; lia. }
    { done. }
    ored. rewrite FDIntervals.findSize_total. ored.
    destruct (settle_assert_repr l (not_set P) Gl Nl Ml) as (z & Ez & Hz). by exists z.
Qed.
End operators.
End FDSetOperators.
