(* ===== verification/FDDescr.v ===== *)
(** * Descriptions of finite domains

    [initList] with its normalisation of an arbitrary list of intervals,
    [initDescr] against the set a description denotes, and [getAsList]. *)
From Stdlib Require Import Sorting.Sorted.
From S2P Require Import Prelude Word32 FDBase FDIntervals FDBitVector Sort FiniteDomain FDRepr FDQueries FDOperators FDSetOperators.

Module FDDescr.
Import FDRepr FDQueries FDOperators FDSetOperators.

(** ** The normalisation of interval lists *)

Definition iv_ok (e : i_arr_type) : Prop := 0 <= iv_left e /\ iv_left e <= iv_right e /\ iv_right e <= fd_sup.

Definition left_le (a b : i_arr_type) : Prop := iv_left a <= iv_left b.

Lemma simplify_merge_spec cur rest :
  iv_ok cur -> Forall iv_ok rest -> Forall (left_le cur) rest -> StronglySorted left_le rest ->
  FDIntervals.seg (iv_left cur) fd_sup (FiniteDomain.simplify_merge cur rest) /\
  forall v, FDIntervals.mem (FiniteDomain.simplify_merge cur rest) v =
    FDIntervals.iv_in cur v || FDIntervals.mem rest v.
Proof.
  revert cur. induction rest as [|e rest IH]; intros cur Hc Hok Hle Hs; cbn [FiniteDomain.simplify_merge].
  { unfold iv_ok in Hc. simpl. split; [lia|]. intros v. by rewrite FDIntervals.mem_cons, !FDIntervals.mem_nil. }
  apply Forall_cons in Hok as [He Hok]. apply Forall_cons in Hle as [Hce Hle].
  apply StronglySorted_inv in Hs as [Hs Her]. unfold iv_ok, left_le in *.
  destruct (Z.leb_spec (iv_left e - 1) (iv_right cur)).
  - destruct (IH (Iv (iv_left cur) (Z.max (iv_right cur) (iv_right e)))) as [Hseg Hm]; simpl; try done; [lia|].
    split; [done|]. intros v. rewrite Hm, FDIntervals.mem_cons. unfold FDIntervals.iv_in. simpl. lia.
  - destruct (IH e) as [Hseg Hm]; try done. split.
    + simpl. split_and!; try lia. eapply FDIntervals.seg_lo; [|done]. lia.
    + intros v. by rewrite !FDIntervals.mem_cons, Hm.
Qed.

Lemma seg_assert lo hi l : FDIntervals.seg lo hi l -> FiniteDomain.simplify_assert l = true.
Proof.
  revert lo. induction l as [|e1 l IH]; intros lo; [done|]. intros (H1 & H2 & H3 & Hs).
  destruct l as [|e2 l]; [done|]. change (FiniteDomain.simplify_assert (e1 :: e2 :: l))
    with ((iv_right e1 <=? iv_left e2) && FiniteDomain.simplify_assert (e2 :: l)).
  rewrite (IH _ Hs). destruct Hs as (? & _). lia.
Qed.

#[export] Instance Order_IntPtr_Inc_swo ivs : StrictWeakOrder (FiniteDomain.Order_IntPtr_Inc ivs).
Proof. split; unfold FiniteDomain.Order_IntPtr_Inc; lia. Qed.

Lemma StronglySorted_cells {A} (R : A -> A -> Prop) (l : list A) :
  (forall i j a b, (i <= j)%nat -> l !! i = Some a -> l !! j = Some b -> R a b) -> StronglySorted R l.
Proof.
  induction l as [|x l IH]; intros H; constructor.
  - apply IH. intros i j a b Hij Ha Hb. apply (H (S i) (S j)); [lia|done..].
  - apply Forall_lookup. intros i y Hy. apply (H O (S i)); [lia|done..].
Qed.

Lemma mapM_aget (l : list i_arr_type) ptrs :
  Forall (fun p => 0 <= p < zlen l) ptrs ->
  mapM (fun p => l.[p]) ptrs = Some ((fun p => default (Iv 0 0) l.[p]) <$> ptrs).
Proof.
  induction 1 as [|p ptrs Hp _ IH]; [done|]. cbn [mapM fmap list_fmap]. rewrite IH.
  destruct (aget_Some l p Hp) as [e ->]. done.
Qed.

Lemma aget_seqZ (l : list i_arr_type) : (fun p => default (Iv 0 0) l.[p]) <$> seqZ 0 (zlen l) = l.
Proof.
  apply list_eq. intros i. rewrite list_lookup_fmap. destruct (decide (i < length l)%nat) as [Hi|Hi].
  - rewrite lookup_seqZ_lt by (unfold zlen; lia). cbn [fmap option_fmap option_map]. rewrite Z.add_0_l, aget_nat.
    destruct (lookup_lt_is_Some_2 l i Hi) as [e ->]. done.
  - rewrite lookup_seqZ_ge by (unfold zlen; lia). simpl. symmetry. apply lookup_ge_None. lia.
Qed.

Lemma mem_perm l l' v : l ≡ₚ l' -> FDIntervals.mem l v = FDIntervals.mem l' v.
Proof.
  induction 1 as [|e l l' _ IH|e e' l|l l' l'' _ IH1 _ IH2]; [done|..].
  - by rewrite !FDIntervals.mem_cons, IH.
  - rewrite !FDIntervals.mem_cons. by destruct (FDIntervals.iv_in e v), (FDIntervals.iv_in e' v).
  - congruence.
Qed.

Lemma simplify_spec ivs :
  ivs <> [] -> zlen ivs <= 2 ^ 31 -> Forall iv_ok ivs ->
  exists l, FiniteDomain.simplify ivs = Some l /\ FDIntervals.seg 0 fd_sup l /\
    forall v, FDIntervals.mem l v = FDIntervals.mem ivs v.
Proof.
  intros Hne Hlen Hok. unfold FiniteDomain.simplify.
  assert (zlen (seqZ 0 (zlen ivs)) = zlen ivs) as Hz by (unfold zlen; rewrite length_seqZ; lia).
  destruct (Sort.fastsort_spec (FiniteDomain.Order_IntPtr_Inc ivs) (seqZ 0 (zlen ivs)))
    as (ptrs & Es & Hp & Hl & Hs); [lia|]. rewrite Hz in Es, Hs. rewrite Es. ored.
  rewrite mapM_aget; [ored|]. 2:{ rewrite Hp. apply Forall_forall. intros p Hin%elem_of_seqZ. lia. }
  set (sorted := _ <$> ptrs). assert (sorted ≡ₚ ivs) as Hperm.
  { subst sorted. rewrite Hp. by rewrite aget_seqZ. }
  assert (StronglySorted left_le sorted) as Hss.
  { apply StronglySorted_cells. intros i j a b Hij. subst sorted. rewrite !list_lookup_fmap.
    destruct (ptrs !! i) as [p|] eqn:Ei; [|done]. destruct (ptrs !! j) as [q|] eqn:Ej; [|done].
    simpl. intros [= <-] [= <-]. pose proof (lookup_lt_Some _ _ _ Ej).
    specialize (Hs (Z.of_nat i) (Z.of_nat j)). unfold Sort.cell_le in Hs. rewrite !aget_nat in Hs.
    specialize (Hs ltac:(lia) ltac:(lia) ltac:(unfold zlen in *; lia) p q Ei Ej).
    unfold FiniteDomain.Order_IntPtr_Inc, FiniteDomain.ptr_key in Hs. unfold left_le.
    destruct (ivs.[p]), (ivs.[q]); simpl in *; lia. }
  assert (Forall iv_ok sorted) as Hoks by by rewrite Hperm.
  destruct sorted as [|e rest]; [by apply Permutation_nil_l in Hperm; subst|].
  apply Forall_cons in Hoks as [He Hrest]. apply StronglySorted_inv in Hss as [Hss Hle].
  destruct (simplify_merge_spec e rest) as [Hseg Hm]; try done.
  rewrite (seg_assert _ _ _ Hseg). eexists; split; [done|]. split.
  - eapply FDIntervals.seg_lo; [|done]. apply He.
  - intros v. rewrite Hm, <- (mem_perm _ _ v Hperm). by rewrite FDIntervals.mem_cons.
Qed.

(** ** What a description denotes *)

Definition elem_valid (t : OZ_Term) : bool :=
  match t with
  | TInt _ | TSup | TBool => true
  | TTuple t0 t1 => bool_decide (is_Some (FiniteDomain.bound_of t0)) && bool_decide (is_Some (FiniteDomain.bound_of t1))
  | _ => false
  end.

Definition elem_set (t : OZ_Term) (v : Z) : bool :=
  (0 <=? v) && (v <=? fd_sup) &&
  match t with
  | TInt n => v =? n
  | TSup => v =? fd_sup
  | TBool => (v =? 0) || (v =? 1)
  | TTuple t0 t1 =>
      match FiniteDomain.bound_of t0, FiniteDomain.bound_of t1 with
      | Some l, Some r => (l <=? v) && (v <=? r)
      | _, _ => false
      end
  | _ => false
  end.

Fixpoint list_valid (d : OZ_Term) : bool :=
  match d with TCons hd tl => elem_valid hd && list_valid tl | _ => true end.
Fixpoint list_set (d : OZ_Term) (v : Z) : bool :=
  match d with TCons hd tl => elem_set hd v || list_set tl v | _ => false end.
Fixpoint list_len (d : OZ_Term) : Z :=
  match d with TCons _ tl => list_len tl + 1 | _ => 0 end.

(** The terms [initDescr] accepts, and the sets they stand for. *)
Fixpoint descr_valid (d : OZ_Term) : bool :=
  match d with
  | TTuple1 arg => descr_valid arg
  | TNil => true
  | TCons _ _ => list_valid d && (list_len d <=? 2 ^ 31)
  | _ => elem_valid d
  end.
Fixpoint descr_set (d : OZ_Term) (v : Z) : bool :=
  match d with
  | TTuple1 arg => (0 <=? v) && (v <=? fd_sup) && negb (descr_set arg v)
  | TNil => false
  | TCons _ _ => list_set d v
  | _ => elem_set d v
  end.

Section descr.
Context `{FDEnv} (Hg : globals_ok fd_env).

Lemma provideBitVector_spec x hi :
  0 <= hi <= fd_bv_max_high fd_env ->
  exists bv, FiniteDomain.provideBitVector x hi = Some bv /\ zlen bv = hi.
Proof using Hg.
  intros Hhi. unfold FiniteDomain.provideBitVector.
  destruct (descr x) as [| |bv]; try by apply newBitVector_spec.
  destruct (Z.ltb_spec (zlen bv) hi); [by apply newBitVector_spec|].
  eexists; split; [done|]. apply zlen_take; lia.
Qed.

Lemma provideIntervals_spec x n : 0 <= n -> zlen (FiniteDomain.provideIntervals x n) = n.
Proof using.
  intros Hn. unfold FiniteDomain.provideIntervals.
  destruct (descr x) as [|iv|]; try by apply FDIntervals.zlen_newIntervals.
  destruct (Z.ltb_spec (zlen iv) n); [by apply FDIntervals.zlen_newIntervals|].
  apply zlen_take; lia.
Qed.

Lemma initList_repr x ivs mn mx :
  Forall iv_ok ivs -> zlen ivs <= 2 ^ 31 ->
  (ivs <> [] -> FDIntervals.mem ivs mn = true /\ FDIntervals.mem ivs mx = true) ->
  (forall v, FDIntervals.mem ivs v = true -> mn <= v <= mx) ->
  exists z, FiniteDomain.initList x ivs mn mx = Some z /\ repr z (FDIntervals.mem ivs).
Proof using Hg.
  intros Hok Hlen Hends Hb. unfold FiniteDomain.initList. destruct (max_high_facts Hg) as (? & ? & ? & _).
  destruct ivs as [|e rest] eqn:Hivs; [by eexists; split; [|apply repr_initEmpty]|].
  rewrite zlen_cons in *. pose proof (zlen_nonneg rest).
  destruct (Z.eqb_spec (zlen rest + 1) 0); [lia|]. destruct Hends as [Hmn Hmx]; [done|].
  set (P := FDIntervals.mem (e :: rest)) in *. pose proof (Hb mn Hmn).
  assert (forall v, P v = true -> 0 <= v <= fd_sup) as Hr.
  { intros v Hv. unfold P, FDIntervals.mem in Hv. apply existsb_exists in Hv as (c & Hc & Hcv).
    rewrite Forall_forall in Hok. apply list_elem_of_In in Hc. destruct (Hok c Hc) as (? & ? & ?).
    unfold FDIntervals.iv_in in Hcv. lia. }
  pose proof (Hr mn Hmn). pose proof (Hr mx Hmx).
  destruct (Z.eqb_spec (zlen rest + 1) 1) as [E1|].
  { destruct rest as [|e' rest]; [|rewrite zlen_cons in E1; pose proof (zlen_nonneg rest); lia].
    ored. eexists; split; [done|]. apply fd_result; try lia. intros v. unfold P in *.
    rewrite FDIntervals.mem_cons, FDIntervals.mem_nil in *. unfold FDIntervals.iv_in in *.
    pose proof (Hb (iv_left e)) as Hbl. pose proof (Hb (iv_right e)) as Hbr.
    rewrite FDIntervals.mem_cons, FDIntervals.mem_nil in Hbl, Hbr. unfold FDIntervals.iv_in in Hbl, Hbr. lia. }
  destruct (Z.leb_spec mx (fd_bv_max_elem fd_env)).
  - destruct (word32_spec mx); [lia|].
    destruct (provideBitVector_spec x (word32 mx)) as (b0 & -> & Hb0); [lia|]. ored.
    destruct (FDBitVector.bv_initList_spec b0 (e :: rest)) as (b1 & -> & Hl1 & Hw1 & Hm1).
    { apply Forall_forall. intros c Hc. rewrite Forall_forall in Hok. destruct (Hok c Hc) as (? & ? & ?).
      unfold FDBitVector.currBvMaxElem. split_and!; try done.
      assert (P (iv_right c) = true) as Hc'; [|apply Hb in Hc'; lia].
      unfold P, FDIntervals.mem. apply existsb_exists. exists c.
      rewrite <- list_elem_of_In. split; [done|]. unfold FDIntervals.iv_in. lia. }
    ored. rewrite FDBitVector.findSize_spec by done. ored. fold (FDBitVector.bv_count b1).
    eexists; split; [done|]. rewrite card_bv by lia. apply bv_result; try done; try lia. by apply card_ext.
  - destruct (simplify_spec (e :: rest)) as (l & -> & Hs & Hm); [done|rewrite zlen_cons; lia|done|]. ored.
    rewrite FDIntervals.initList_spec by (by apply provideIntervals_spec). ored.
    rewrite FDIntervals.findSize_total. ored. eexists; split; [done|]. rewrite card_total by done.
    apply iv_result; try done. by apply card_ext.
Qed.

(** ** The list case of [initDescr] *)

Definition acc_ok (a : FiniteDomain.descr_acc) (P : Z -> bool) : Prop :=
  Forall iv_ok (FiniteDomain.acc_arr a) /\ zlen (FiniteDomain.acc_arr a) < FiniteDomain.acc_size a /\
  (forall v, FDIntervals.mem (FiniteDomain.acc_arr a) v = P v) /\
  (forall v, P v = true -> FiniteDomain.min_arr a <= v <= FiniteDomain.max_arr a) /\
  (FiniteDomain.acc_arr a = [] -> FiniteDomain.min_arr a = fd_sup /\ FiniteDomain.max_arr a = 0) /\
  (FiniteDomain.acc_arr a <> [] -> P (FiniteDomain.min_arr a) = true /\ P (FiniteDomain.max_arr a) = true).

Lemma acc_add_ok a P l r :
  acc_ok a P -> 0 <= l -> l <= r -> r <= fd_sup ->
  exists a', FiniteDomain.acc_add a l r = Some a' /\
    zlen (FiniteDomain.acc_arr a') = zlen (FiniteDomain.acc_arr a) + 1 /\
    acc_ok a' (fun v => P v || ((l <=? v) && (v <=? r))).
Proof using.
  intros (Hok & Hsz & Hm & Hb & Hnil & Hends) Hl Hlr Hr. unfold FiniteDomain.acc_add, apush.
  destruct (Z.ltb_spec (zlen (FiniteDomain.acc_arr a)) (FiniteDomain.acc_size a)); [|lia]. ored.
  eexists; split; [done|]. unfold acc_ok. cbn [FiniteDomain.acc_arr FiniteDomain.acc_size FiniteDomain.min_arr FiniteDomain.max_arr].
  rewrite zlen_snoc. split; [done|]. split_and!.
  - apply Forall_app. split; [done|]. by repeat constructor.
  - destruct (Z.leb_spec (FiniteDomain.acc_size a) (zlen (FiniteDomain.acc_arr a) + 1)); lia.
  - intros v. rewrite FDIntervals.mem_app, Hm, FDIntervals.mem_cons, FDIntervals.mem_nil, orb_false_r. done.
  - intros v Hv. destruct (P v) eqn:EP; [apply Hb in EP; lia|]. lia.
  - intros [_ ?]%app_eq_nil. done.
  - intros _. destruct (FiniteDomain.acc_arr a) as [|e arr].
    + destruct Hnil as [-> ->]; [done|]. split; rewrite orb_true_iff; right; lia.
    + destruct Hends as [H1 H2]; [done|]. split.
      * destruct (Z.min_spec (FiniteDomain.min_arr a) l) as [[? ->]|[? ->]]; [by rewrite H1|].
        rewrite orb_true_iff. right. lia.
      * destruct (Z.max_spec (FiniteDomain.max_arr a) r) as [[? ->]|[? ->]]; [|by rewrite H2].
        rewrite orb_true_iff. right. lia.
Qed.

Lemma acc_ok_ext a P Q : (forall v, P v = Q v) -> acc_ok a P -> acc_ok a Q.
Proof using.
  intros HPQ (H1 & H2 & H3 & H4 & H5 & H6). unfold acc_ok. rewrite <- !HPQ. split_and!; try done.
  - intros v. by rewrite <- HPQ.
  - intros v. rewrite <- HPQ. apply H4.
Qed.

Lemma initDescr_elem_ok t a P :
  elem_valid t = true -> acc_ok a P ->
  exists a', FiniteDomain.initDescr_elem t a = Some a' /\
    zlen (FiniteDomain.acc_arr a') <= zlen (FiniteDomain.acc_arr a) + 1 /\
    acc_ok a' (fun v => P v || elem_set t v).
Proof using.
  intros Hv Ha.
  assert (forall l r, 0 <= l -> l <= r -> r <= fd_sup ->
    (forall v, elem_set t v = (l <=? v) && (v <=? r)) ->
    exists a', FiniteDomain.acc_add a l r = Some a' /\
      zlen (FiniteDomain.acc_arr a') <= zlen (FiniteDomain.acc_arr a) + 1 /\
      acc_ok a' (fun v => P v || elem_set t v)) as Hadd.
  { intros l r Hl Hlr Hr Hset. destruct (acc_add_ok a P l r Ha Hl Hlr Hr) as (a' & -> & Hlen & Ha').
    exists a'. split_and!; [done|lia|]. eapply acc_ok_ext; [|done]. intros v. by rewrite Hset. }
  assert ((forall v, elem_set t v = false) -> exists a', Some a = Some a' /\
    zlen (FiniteDomain.acc_arr a') <= zlen (FiniteDomain.acc_arr a) + 1 /\
    acc_ok a' (fun v => P v || elem_set t v)) as Hskip.
  { intros Hset. exists a. split_and!; [done|lia|]. eapply acc_ok_ext; [|done]. intros v.
    by rewrite Hset, orb_false_r. }
  unfold FiniteDomain.initDescr_elem, elem_set, fd_inf, fd_sup in *. destruct t; try done.
  - destruct ((n <? 0) || (134217727 - 1 <? n)) eqn:E; [apply Hskip|apply Hadd]; intros; lia.
  - apply Hadd; intros; lia.
  - apply Hadd; intros; lia.
  - simpl in Hv. destruct (FiniteDomain.bound_of t1) as [l|]; [|done].
    destruct (FiniteDomain.bound_of t2) as [r|]; [|done]. ored.
    destruct (Z.ltb_spec (Z.min (134217727 - 1) r) (Z.max 0 l)); [apply Hskip|apply Hadd]; intros; lia.
Qed.

Lemma initDescr_list_ok d a P :
  list_valid d = true -> acc_ok a P ->
  exists a', FiniteDomain.initDescr_list d a = Some a' /\
    zlen (FiniteDomain.acc_arr a') <= zlen (FiniteDomain.acc_arr a) + list_len d /\
    acc_ok a' (fun v => P v || list_set d v).
Proof using.
  revert a P. induction d; intros a P Hv Ha;
    try solve [exists a; split_and!; [done|simpl; lia|];
      eapply acc_ok_ext; [|done]; intros v; simpl; by rewrite orb_false_r].
  simpl in Hv. apply andb_true_iff in Hv as [Hh Ht].
  destruct (initDescr_elem_ok d1 a P Hh Ha) as (a1 & E1 & Hl1 & Ha1).
  destruct (IHd2 a1 _ Ht Ha1) as (a2 & E2 & Hl2 & Ha2). exists a2. cbn [FiniteDomain.initDescr_list].
  rewrite E1. ored. split_and!; [done|simpl; lia|]. eapply acc_ok_ext; [|done]. intros v. simpl.
  by rewrite orb_assoc.
Qed.

Lemma initRange_repr x l r P :
  (forall v, P v = (0 <=? v) && (v <=? fd_sup) && ((l <=? v) && (v <=? r))) ->
  repr (FiniteDomain.initRange x l r) P.
Proof using.
  intros HP. unfold FiniteDomain.initRange, fd_inf.
  destruct (Z.ltb_spec (Z.min r fd_sup) (Z.max l 0)).
  - apply repr_empty; [done|done|]. intros v. rewrite HP. lia.
  - apply repr_range; try lia. intros v. rewrite HP. lia.
Qed.

Lemma initSingleton_repr n P :
  (forall v, P v = (0 <=? v) && (v <=? fd_sup) && (v =? n)) -> repr (FiniteDomain.initSingleton n) P.
Proof using.
  intros HP. unfold FiniteDomain.initSingleton, fd_inf.
  destruct ((n <? 0) || (fd_sup <? n)) eqn:E.
  - apply repr_initEmpty. intros v. rewrite HP. lia.
  - replace 1 with (n - n + 1) by lia. apply repr_range; try lia. intros v. rewrite HP. lia.
Qed.

Lemma initDescr_repr x d :
  descr_valid d = true ->
  exists z, FiniteDomain.initDescr x d = Some z /\ repr z (descr_set d).
Proof using Hg.
  induction d as [n| | | |arg IH|t0 _ t1 _|hd _ tl _|]; intros Hv; try done; cbn [FiniteDomain.initDescr].
  - eexists; split; [done|]. by apply initSingleton_repr.
  - eexists; split; [done|]. by apply initSingleton_repr.
  - eexists; split; [done|]. apply initRange_repr. intros v. simpl. unfold elem_set. f_equal. lia.
  - eexists; split; [done|]. by apply repr_initEmpty.
  - destruct (IH Hv) as (z & -> & Hz). ored. destruct (op_not_repr Hg z _ Hz) as (y & -> & Hy). ored.
    rewrite (assign_repr Hg z y _ Hy). by exists y.
  - simpl in Hv. destruct (FiniteDomain.bound_of t0) as [l|] eqn:E0; [|done].
    destruct (FiniteDomain.bound_of t1) as [r|] eqn:E1; [|done]. ored.
    eexists; split; [done|]. apply initRange_repr. intros v. simpl. unfold elem_set. by rewrite E0, E1.
  - cbn [descr_valid] in Hv. apply andb_true_iff in Hv as [Hv Hlen].
    destruct (initDescr_list_ok (TCons hd tl) (FiniteDomain.Acc [] FiniteDomain.FDOMNINITSIZE fd_sup 0)
      (fun _ => false) Hv) as (a & -> & Hl & Hok & _ & Hm & Hb & Hnil & Hends).
    { unfold acc_ok. simpl. split_and!; try done. }
    ored. cbn [FiniteDomain.acc_arr] in Hl. change (zlen (@nil i_arr_type)) with 0 in Hl.
    destruct (initList_repr x (FiniteDomain.acc_arr a) (FiniteDomain.min_arr a) (FiniteDomain.max_arr a))
      as (z & -> & Hz); [done|lia|intros Hne; rewrite !Hm; by apply Hends|intros v; rewrite Hm; apply Hb|].
    exists z. split; [done|]. by apply (repr_ext z _ _ Hm).
Qed.

(** ** Reading a description back *)

Lemma elem_of_interval e v :
  iv_ok e -> elem_valid (term_of_interval e) = true /\
    elem_set (term_of_interval e) v = FDIntervals.iv_in e v.
Proof using.
  intros (? & ? & ?). unfold term_of_interval, oz_pairII, FDIntervals.iv_in.
  destruct (Z.eqb_spec (iv_left e) (iv_right e)); (split; [done|]);
    unfold elem_set; cbn [FiniteDomain.bound_of]; lia.
Qed.

Lemma list_of_intervals l :
  Forall iv_ok l -> list_valid (term_of_intervals l) = true /\
    list_len (term_of_intervals l) = zlen l /\
    forall v, list_set (term_of_intervals l) v = FDIntervals.mem l v.
Proof using.
  induction 1 as [|e l He _ (IH1 & IH2 & IH3)]; [done|]. unfold term_of_intervals. simpl.
  fold (term_of_intervals l). rewrite IH1, IH2, zlen_cons. split_and!; [|done|].
  - by rewrite (proj1 (elem_of_interval e 0 He)).
  - intros v. by rewrite IH3, (proj2 (elem_of_interval e v He)), FDIntervals.mem_cons.
Qed.

Lemma seg_ok lo hi l : 0 <= lo -> hi <= fd_sup -> FDIntervals.seg lo hi l -> Forall iv_ok l.
Proof using.
  revert lo. induction l as [|e l IH]; intros lo Hlo Hhi; [done|]. intros (? & ? & ? & Hs).
  constructor; [unfold iv_ok; lia|]. by apply (IH (iv_right e + 2)); [lia|..].
Qed.

Lemma descr_of_intervals lo hi l P :
  0 <= lo -> hi <= fd_sup -> FDIntervals.seg lo hi l -> l <> [] ->
  (forall v, FDIntervals.mem l v = P v) ->
  descr_valid (term_of_intervals l) = true /\ forall v, descr_set (term_of_intervals l) v = P v.
Proof using.
  intros Hlo Hhi Hs Hne HP. destruct (list_of_intervals l (seg_ok lo hi l Hlo Hhi Hs)) as (H1 & H2 & H3).
  pose proof (FDBitVector.seg_len lo hi l Hs Hne) as Hlen. unfold fd_sup in Hhi.
  destruct l as [|e l]; [done|]. split.
  - change (descr_valid (term_of_intervals (e :: l))) with
      (list_valid (term_of_intervals (e :: l)) && (list_len (term_of_intervals (e :: l)) <=? 2 ^ 31)).
    rewrite H1, H2. lia.
  - intros v. rewrite <- HP, <- H3. done.
Qed.

Lemma getAsList_repr x P :
  repr x P ->
  exists d, FiniteDomain.getAsList x = Some d /\ descr_valid d = true /\ forall v, descr_set d v = P v.
Proof using Hg.
  intros Hr. unfold FiniteDomain.getAsList. destruct (size_cases x P Hr) as [[E HP]|Hsz].
  { rewrite E. exists TNil. split_and!; try done. }
  destruct (Z.eqb_spec (size x) 0); [lia|]. pose proof (repr_descr x P Hr Hsz) as HD.
  destruct (repr_elim x P Hr Hsz) as (H1 & H2 & H3 & H4 & H5 & H6 & _).
  destruct (descr x) as [|iv|bv].
  - eexists; split; [done|].
    apply (descr_of_intervals 0 fd_sup [Iv (min_elem x) (max_elem x)]); simpl; try done; try lia.
    intros v. rewrite HD, FDIntervals.mem_cons, FDIntervals.mem_nil, orb_false_r. done.
  - destruct HD as (Hne & Hs & HP). eexists; split; [done|].
    apply (descr_of_intervals _ _ iv P H1 H3 Hs Hne HP).
  - destruct HD as (Hw & Hl & HP). unfold FDBitVector.getAsList.
    destruct (mkRaw_repr Hg bv (min_elem x) (max_elem x) P Hw Hl HP H6) as (ivs & -> & Hs & Hm & _). ored.
    eexists; split; [done|]. apply (descr_of_intervals _ _ ivs P H1 H3 Hs); [|done].
    intros ->. by rewrite <- Hm in H4.
Qed.
End descr.
End FDDescr.
