(* ===== verification/FDTheorems.v ===== *)
(** * Finite domains: the properties of the component

    What [OZ_FiniteDomain] promises to propagators, stated against the set a
    domain object stands for.  The hypothesis [globals_ok fd_env] is the invariant
    of the process-wide configuration, which [initFDs] establishes. *)
From S2P Require Import Prelude Word32 FDBase FDIntervals FDBitVector Sort FiniteDomain FDRepr FDQueries FDOperators FDSetOperators FDDescr.
Import FDRepr FDQueries FDOperators FDSetOperators FDDescr.

(** The configuration after [initFDs], with memory full of junk. *)
Definition default_env : FDEnv :=
  {| fd_env := initFDs; fresh_interval i := Iv (i + 77) 3; fresh_word i := i - 12345 |}.

#[local] Existing Instance default_env.

(** Example domains: an interval, a bit vector and an interval list. *)
Definition dom_range : FiniteDomain := FiniteDomain.initRange FiniteDomain.initEmpty 3 2000.
Definition dom_bits : FiniteDomain :=
  default FiniteDomain.initEmpty
    (FiniteDomain.initDescr FiniteDomain.initEmpty
      (TCons (TInt 7) (TCons (TTuple (TInt 40) (TInt 90)) (TCons (TInt 2) TNil)))).
Definition dom_list : FiniteDomain :=
  default FiniteDomain.initEmpty
    (FiniteDomain.initDescr FiniteDomain.initEmpty
      (TCons (TTuple (TInt 5000) TSup) (TCons (TTuple (TInt 40) (TInt 1090)) (TCons (TInt 2) TNil)))).

Lemma default_env_ok : globals_ok fd_env.
Proof. apply initFDs_ok. Qed.

Lemma dom_range_repr : repr dom_range (fun v => (3 <=? v) && (v <=? 2000)).
Proof. apply initRange_repr. intros v. unfold fd_sup. lia. Qed.

Lemma dom_bits_repr :
  repr dom_bits (descr_set (TCons (TInt 7) (TCons (TTuple (TInt 40) (TInt 90)) (TCons (TInt 2) TNil)))).
Proof.
  unfold dom_bits. destruct (initDescr_repr default_env_ok FiniteDomain.initEmpty
    (TCons (TInt 7) (TCons (TTuple (TInt 40) (TInt 90)) (TCons (TInt 2) TNil)))) as (z & E & Hz); [done|].
  by rewrite E.
Qed.

Lemma dom_list_repr :
  repr dom_list (descr_set (TCons (TTuple (TInt 5000) TSup) (TCons (TTuple (TInt 40) (TInt 1090)) (TCons (TInt 2) TNil)))).
Proof.
  unfold dom_list. destruct (initDescr_repr default_env_ok FiniteDomain.initEmpty
    (TCons (TTuple (TInt 5000) TSup) (TCons (TTuple (TInt 40) (TInt 1090)) (TCons (TInt 2) TNil))))
    as (z & E & Hz); [done|].
  by rewrite E.
Qed.

(** ** The consistency check

    [AssertFD] is a macro of [fddebug.hh] that expands to nothing, since [DEBUG_FD_CONSTRREP] is commented
    out there; the check it would make is [isConsistent]. *)

Section consistency.
Context `{FDEnv} (Hg : globals_ok fd_env).

(** Of well-formed domains the check rejects interval lists that would fit a bit vector, and no others. *)
Lemma isConsistent_repr (x : FiniteDomain) (P : Z -> bool) : repr x P ->
  FiniteDomain.isConsistent x = Some ((size x =? 0) || match descr x with iv_descr _ => fd_bv_max_elem fd_env <? max_elem x | _ => true end).
Proof.
  intros Hx. unfold FiniteDomain.isConsistent. destruct (Z.eqb_spec (size x) 0) as [|Hs]; [done|]. cbn [orb].
  assert (0 < size x) as Hsz by (destruct Hx as [(? & _) _]; lia).
  destruct (repr_elim x P Hx Hsz) as (H1 & H2 & H3 & H4 & H5 & H6 & H7 & H8 & H9). unfold descr_ok in H8.
  assert (forall v, min_elem x <= v <= max_elem x -> match descr x with fd_descr => true | iv_descr iv => FDIntervals.mem iv v | bv_descr bv => words_mem bv v end = P v) as HD
    by (intros v Hv; rewrite <- H9; unfold dmem; destruct (descr x); lia).
  destruct (descr x) as [|iv|bv].
  - f_equal. unfold FiniteDomain.findSize. rewrite H7, (card_range P (min_elem x) (max_elem x)); [by rewrite Z.eqb_refl|lia..|].
    intros v. destruct (decide (min_elem x <= v <= max_elem x)) as [Hv|Hv]; [rewrite <- (HD v Hv); lia|]. destruct (P v) eqn:Ev; [apply H6 in Ev|]; lia.
  - assert (iv <> []) as Hne by (intros ->; specialize (HD (min_elem x) ltac:(lia)); by rewrite FDIntervals.mem_nil, H4 in HD).
    assert (FDIntervals.seg 0 fd_sup iv) as Hseg by (eapply FDIntervals.seg_weaken; [..|exact H8]; lia).
    assert (forall v, FDIntervals.mem iv v = P v) as HP.
    { intros v. destruct (decide (min_elem x <= v <= max_elem x)) as [Hv|Hv]; [by apply HD|]. destruct (FDIntervals.mem iv v) eqn:Em; [apply (FDIntervals.mem_bounds _ _ _ _ H8) in Em; lia|].
      destruct (P v) eqn:Ev; [apply H6 in Ev; lia|done]. }
    destruct (settle_iv_eq 0 iv (size x) Hseg Hne) as (a & b & Es & Ha & Hb & _ & Hab). unfold FiniteDomain.settle_iv in Es.
    rewrite FDIntervals.findSize_total. ored. destruct (FDIntervals.findMinElem iv) as [mn|]; [|done]. ored in Es. destruct (FDIntervals.findMaxElem iv) as [mx|]; [|done]. ored in Es. injection Es as -> ->. ored.
    rewrite HP in Ha, Hb. pose proof (H6 a Ha). pose proof (H6 b Hb). pose proof (Hab (min_elem x) ltac:(by rewrite HP)). pose proof (Hab (max_elem x) ltac:(by rewrite HP)).
    assert (FDIntervals.total iv = size x) as -> by (rewrite H7, card_total by done; by apply card_ext). f_equal. lia.
  - destruct H8 as (Hw & Hl & Hb).
    assert (forall v, words_mem bv v = P v) as HP.
    { intros v. destruct (decide (min_elem x <= v <= max_elem x)) as [Hv|Hv]; [by apply HD|]. destruct (words_mem bv v) eqn:Em; [apply Hb in Em; lia|].
      destruct (P v) eqn:Ev; [apply H6 in Ev; lia|done]. }
    destruct (FDBitVector.findMinElem_spec bv (min_elem x)) as [M1 M2]; [done|by rewrite HP|].
    destruct (FDBitVector.findMaxElem_spec bv (min_elem x)) as (b & y & E & [M3 M4] & _); [done|by rewrite HP|]. rewrite E, FDBitVector.findSize_spec by done. ored. cbn [snd].
    rewrite HP in M1, M3. pose proof (H6 _ M1). pose proof (H6 _ M3). pose proof (M2 (min_elem x) ltac:(by rewrite HP)). pose proof (M4 (max_elem x) ltac:(by rewrite HP)).
    change (count_range (words_mem bv) 0 (Z.to_nat (32 * zlen bv))) with (FDBitVector.bv_count bv).
    assert (FDBitVector.bv_count bv = size x) as ->; [|f_equal; lia].
    rewrite H7, FDRepr.card_bv by (destruct (max_high_facts Hg) as (? & ? & ? & _); lia). by apply card_ext.
Qed.

Definition no_list (z : FiniteDomain) : bool := match descr z with iv_descr _ => false | _ => true end.

Lemma no_list_reduce z : no_list z = true -> no_list (FiniteDomain.reduce z) = true.
Proof. unfold FiniteDomain.reduce, no_list. by destruct (FiniteDomain.isSingleInterval z). Qed.

(** An intersection is an interval list only if both operands exceed the bit vectors. *)
Lemma op_and_no_list x y z : FiniteDomain.op_and x y = Some z -> no_list z = true \/ fd_bv_max_elem fd_env < Z.min (max_elem x) (max_elem y).
Proof.
  unfold FiniteDomain.op_and. cbn [FiniteDomain.eq_state]. ored. destruct (_ || _); [intros [= <-]; by left|]. destruct (FiniteDomain.is_fd x && FiniteDomain.is_fd y).
  - destruct (_ || _); ored; intros [= <-]; left; by apply no_list_reduce.
  - destruct (Z.ltb_spec (fd_bv_max_elem fd_env) (Z.min (max_elem x) (max_elem y))); [by right|].
    destruct (FiniteDomain.asBitVector x); [|done]. ored. destruct (FiniteDomain.asBitVector y); [|done]. ored. destruct (FDBitVector.newBitVector _); [|done]. ored.
    destruct (FDBitVector.intersect_bv2 _ _ _) as [[b s]|]; [|done]. ored. intros [= <-]. left. apply no_list_reduce. unfold FiniteDomain.settle_bv. by destruct (FDBitVector.findMaxElem b).
Qed.

Lemma op_and_eq_no_list x y z : FiniteDomain.op_and_eq x y = Some z -> no_list z = true \/ fd_bv_max_elem fd_env < Z.min (max_elem x) (max_elem y).
Proof.
  unfold FiniteDomain.op_and_eq. cbn [FiniteDomain.eq_state]. ored. destruct (_ || _); [intros [= <-]; by left|]. destruct (FiniteDomain.is_fd x && FiniteDomain.is_fd y) eqn:Ed.
  - assert (no_list x = true) as Hx by (unfold FiniteDomain.is_fd, no_list in *; by destruct (descr x)).
    destruct (_ || _); ored; intros [= <-]; left; by apply no_list_reduce.
  - destruct (Z.ltb_spec (fd_bv_max_elem fd_env) (Z.min (max_elem x) (max_elem y))); [by right|].
    destruct (FiniteDomain.asBitVector x); [|done]. ored. destruct (FiniteDomain.asBitVector y); [|done]. ored.
    destruct (FDBitVector.intersect_bv _ _) as [[b s]|]; [|done]. ored. intros [= <-]. left. apply no_list_reduce. unfold FiniteDomain.settle_bv. by destruct (FDBitVector.findMaxElem b).
Qed.

Lemma consistent_unless z P (large : Prop) : repr z P -> no_list z = true \/ large ->
  FiniteDomain.isConsistent z = Some true \/ (FiniteDomain.isConsistent z = Some false /\ large /\ max_elem z <= fd_bv_max_elem fd_env).
Proof using Hg.
  intros Hz Hor. rewrite (isConsistent_repr z P Hz). unfold no_list in Hor. destruct (size z =? 0); [by left|]. cbn [orb].
  destruct (descr z); try by left. destruct (Z.ltb_spec (fd_bv_max_elem fd_env) (max_elem z)); [by left|]. right. by destruct Hor.
Qed.
End consistency.

Section properties.
Context (env : FDEnv).

(** C15: [operator &] and [operator &=] compute the intersection: on well-formed
    operands of any mix of representations both return a well-formed domain
    that stands for the common elements, whose size field is their number.  The result passes
    [isConsistent], the check of the macro [AssertFD], unless both operands have elements too large for
    bit vectors and the result has none: it then stays an interval list all the same. *)
Theorem intersection_correct (x y : FiniteDomain) (P Q : Z -> bool) :
  globals_ok (@fd_env env) -> repr x P -> repr y Q ->
  exists z z', FiniteDomain.op_and x y = Some z /\ FiniteDomain.op_and_eq x y = Some z' /\
    repr z (fun v => P v && Q v) /\ repr z' (fun v => P v && Q v) /\
    size z = card (fun v => P v && Q v) /\ size z' = card (fun v => P v && Q v) /\
    forall r, r = z \/ r = z' -> FiniteDomain.isConsistent r = Some true \/
      (FiniteDomain.isConsistent r = Some false /\ fd_bv_max_elem (@fd_env env) < Z.min (max_elem x) (max_elem y) /\ max_elem r <= fd_bv_max_elem (@fd_env env)).
Proof.
  intros Hg Hx Hy. destruct (op_and_repr Hg x y P Q Hx Hy) as (z & Ez & Hz).
  destruct (op_and_eq_repr Hg x y P Q Hx Hy) as (z' & Ez' & Hz').
  exists z, z'. split_and!; try done; [by apply repr_card..|].
  intros r [->| ->]; (eapply consistent_unless; [done..|]); [by apply op_and_no_list|by apply op_and_eq_no_list].
Qed.

(** C16: [operator |] computes the union: on well-formed operands of any mix of representations it
    returns a well-formed domain that stands for the elements of either, whose size field is their number. *)
Theorem union_correct (x y : FiniteDomain) (P Q : Z -> bool) :
  globals_ok (@fd_env env) -> repr x P -> repr y Q ->
  exists z, FiniteDomain.op_or x y = Some z /\ repr z (fun v => P v || Q v) /\
    size z = card (fun v => P v || Q v).
Proof.
  intros Hg Hx Hy. destruct (op_or_repr Hg x y P Q Hx Hy) as (z & -> & Hz).
  exists z. split_and!; try done. by apply repr_card.
Qed.

(** [operator ~] computes the complement within [fd_inf .. fd_sup], and
    complementing twice gives back the original set. *)
Theorem complement_correct (x : FiniteDomain) (P : Z -> bool) :
  globals_ok (@fd_env env) -> repr x P ->
  exists z z', FiniteDomain.op_not x = Some z /\ FiniteDomain.op_not z = Some z' /\
    repr z (fun v => (0 <=? v) && (v <=? fd_sup) && negb (P v)) /\ repr z' P /\
    size z = fd_full_size - size x.
Proof.
  intros Hg Hx. destruct (op_not_repr Hg x P Hx) as (z & -> & Hz).
  destruct (op_not_repr Hg z _ Hz) as (z' & E & Hz'). exists z, z'. split_and!; try done.
  - eapply repr_ext; [|done]. intros v. unfold not_set.
    destruct (P v) eqn:EP; [apply (repr_bounds x P v Hx) in EP; lia|]. lia.
  - rewrite (repr_card x P Hx), (repr_card z _ Hz). apply card_not. intros v Hv.
    by apply (repr_bounds x P v Hx).
Qed.

(** [operator -=] with a domain removes its elements.  The left operand
    must not be empty (see [emptied_domain_revives]). *)
Theorem difference_correct (x y : FiniteDomain) (P Q : Z -> bool) :
  globals_ok (@fd_env env) -> repr x P -> repr y Q -> 0 < size x ->
  exists z, FiniteDomain.op_minus x y = Some z /\ repr z (fun v => P v && negb (Q v)) /\
    size z = card (fun v => P v && negb (Q v)).
Proof.
  intros Hg Hx Hy Hsz. destruct (op_minus_repr Hg x y P Q Hx Hy Hsz) as (z & -> & Hz).
  exists z. split_and!; try done. by apply repr_card.
Qed.

(** [operator <=] and [operator >=] cut a non-empty domain at a bound, for
    any bound; [constrainBool] is the cut at 1. *)
Theorem bounds_correct (x : FiniteDomain) (P : Z -> bool) (b : Z) :
  globals_ok (@fd_env env) -> repr x P -> 0 < size x ->
  exists z z' z'', FiniteDomain.op_le x b = Some z /\ FiniteDomain.op_ge x b = Some z' /\
    FiniteDomain.constrainBool x = Some z'' /\
    repr z (fun v => P v && (v <=? b)) /\ repr z' (fun v => P v && (b <=? v)) /\
    repr z'' (fun v => P v && (v <=? 1)).
Proof.
  intros Hg Hx Hsz. destruct (op_le_repr Hg x P b Hx Hsz) as (z & -> & Hz).
  destruct (op_ge_repr Hg x P b Hx Hsz) as (z' & -> & Hz').
  destruct (op_le_repr Hg x P 1 Hx Hsz) as (z'' & E & Hz''). by exists z, z', z''.
Qed.

(** the operators on one element: [&= i] leaves at most [i], [-= i] removes
    it, [+= i] adds it when it lies in [fd_inf .. fd_sup]; each works on empty
    domains too. *)
Theorem element_correct (x : FiniteDomain) (P : Z -> bool) (i : Z) :
  globals_ok (@fd_env env) -> repr x P ->
  exists z z' z'', FiniteDomain.op_and_int x i = Some z /\ FiniteDomain.op_minus_int x i = Some z' /\
    FiniteDomain.op_plus_int x i = Some z'' /\
    repr z (fun v => P v && (v =? i)) /\ repr z' (fun v => P v && negb (v =? i)) /\
    repr z'' (fun v => P v || ((v =? i) && (0 <=? i) && (i <=? fd_sup))).
Proof.
  intros Hg Hx. destruct (op_and_int_repr x P i Hx) as (z & -> & Hz).
  destruct (op_minus_int_repr Hg x P i Hx) as (z' & -> & Hz').
  destruct (op_plus_int_repr Hg x P i Hx) as (z'' & -> & Hz''). by exists z, z', z''.
Qed.

(** the neighbour queries on a non-empty domain: [nextSmallerElem] and
    [nextLargerElem] find the closest element on either side or -1, and
    [lowerBound] and [upperBound] the ends of the run around an element, or -1
    for a non-element. *)
Theorem neighbours_correct (x : FiniteDomain) (P : Z -> bool) (v : Z) :
  repr x P -> 0 < size x -> -1 <= v ->
  exists s l a b, FiniteDomain.nextSmallerElem x v = Some s /\ is_pred P v s /\
    FiniteDomain.nextLargerElem x v = Some l /\ is_succ P v l /\
    FiniteDomain.lowerBound x v = Some a /\ FiniteDomain.upperBound x v = Some b /\
    if P v then is_run_start P v a /\ is_run_end P v b else a = -1 /\ b = -1.
Proof.
  intros Hx Hsz Hv. destruct (nextSmallerElem_repr x P Hx v Hsz) as (s & -> & Hs).
  destruct (nextLargerElem_repr x P Hx v Hsz Hv) as (l & -> & Hl).
  destruct (lowerBound_repr x P Hx v) as (a & -> & Ha).
  destruct (upperBound_repr x P Hx v) as (b & -> & Hb).
  exists s, l, a, b. by destruct (P v).
Qed.

(** [midElem] returns the element of a non-empty domain that is nearest to
    the middle of its bounds, the smaller one of two equally near ones. *)
Theorem midElem_correct (x : FiniteDomain) (P : Z -> bool) :
  repr x P -> 0 < size x ->
  exists r, FiniteDomain.midElem x = Some r /\ FiniteDomain.isIn x r = Some true /\
    is_nearest P ((min_elem x + max_elem x) ÷ 2) r.
Proof.
  intros Hx Hsz. destruct (midElem_repr x P Hx Hsz) as (r & -> & Hr).
  exists r. split_and!; try done. rewrite (isIn_repr x P Hx). by destruct Hr as [-> _].
Qed.

(** [initDescr] accepts every valid description, whatever object it is
    called on, and builds the domain the description denotes: entries may
    overlap, come in any order and exceed the range, in which case they are
    clipped or skipped. *)
Theorem initDescr_correct (x : FiniteDomain) (d : OZ_Term) :
  globals_ok (@fd_env env) -> descr_valid d = true ->
  exists z, FiniteDomain.initDescr x d = Some z /\ repr z (descr_set d) /\ size z = card (descr_set d).
Proof.
  intros Hg Hd. destruct (initDescr_repr Hg x d Hd) as (z & -> & Hz).
  exists z. split_and!; try done. by apply repr_card.
Qed.

(** C17: A domain read back from its description is the same set, with the same size; when it is not
    empty, also with the same bounds and the same choice between single interval and descriptor. *)
Theorem description_roundtrip (x y : FiniteDomain) (P : Z -> bool) :
  globals_ok (@fd_env env) -> repr x P ->
  exists d z, FiniteDomain.getAsList x = Some d /\ FiniteDomain.initDescr y d = Some z /\
    repr z P /\ size z = size x /\
    (0 < size x -> min_elem z = min_elem x /\ max_elem z = max_elem x /\
       FiniteDomain.is_fd z = FiniteDomain.is_fd x).
Proof.
  intros Hg Hx. destruct (getAsList_repr Hg x P Hx) as (d & -> & Hd & Hset).
  destruct (initDescr_repr Hg y d Hd) as (z & E & Hz). exists d, z.
  assert (repr z P) as Hz' by by eapply repr_ext.
  pose proof (repr_card z P Hz') as Ez. pose proof (repr_card x P Hx) as Ex.
  split_and!; try done; [congruence|]. intros Hsz. apply (repr_same z x P Hz' Hx); [congruence|done].
Qed.

(** the representation is canonical: two non-empty well-formed domains that
    stand for the same set agree in bounds and size, and both or neither are
    single intervals; a size of 1, and only that, makes [== i] true. *)
Theorem representation_canonical (x y : FiniteDomain) (P : Z -> bool) (i : Z) :
  repr x P -> repr y P -> 0 < size x ->
  (min_elem x = min_elem y /\ max_elem x = max_elem y /\ FiniteDomain.is_fd x = FiniteDomain.is_fd y) /\
  size x = size y /\ (FiniteDomain.eq_int x i = true <-> forall w, P w = (w =? i)).
Proof.
  intros Hx Hy Hsz. assert (size x = size y) as Es by (by rewrite (repr_card x P Hx), (repr_card y P Hy)).
  split; [apply (repr_same x y P Hx Hy); [done|lia]|]. split; [done|by apply eq_int_repr].
Qed.

(** conversion between representations loses nothing: [asIntervals] gives
    normalised intervals with the same elements, [asBitVector] the elements up
    to [fd_bv_max_elem], both within the memory they allocate. *)
Theorem conversions_correct (x : FiniteDomain) (P : Z -> bool) :
  globals_ok (@fd_env env) -> repr x P -> 0 < size x ->
  exists iv bv, FiniteDomain.asIntervals x = Some iv /\ FiniteDomain.asBitVector x = Some bv /\
    FDIntervals.seg (min_elem x) (max_elem x) iv /\ (forall v, FDIntervals.mem iv v = P v) /\
    zlen bv <= fd_bv_max_high (@fd_env env) /\
    forall v, words_mem bv v = P v && (v <=? fd_bv_max_elem (@fd_env env)).
Proof.
  intros Hg Hx Hsz. destruct (asIntervals_spec Hg x P Hx Hsz) as (iv & -> & _ & Hs & Hm).
  destruct (asBitVector_spec Hg x P Hx Hsz) as (bv & -> & _ & Hl & Hb). by exists iv, bv.
Qed.
End properties.

(** ** What the invariant excludes *)

(** a domain emptied by [&=] keeps its bounds, and [<=], [>=] and [-=] take
    it for non-empty: after [{0..3} &= {10..20}], which returns 0, [<= 2]
    returns 3. *)
Theorem emptied_domain_revives :
  exists e a b c, FiniteDomain.op_and_eq (FD 0 3 4 fd_descr) (FD 10 20 11 fd_descr) = Some e /\ size e = 0 /\
    FiniteDomain.op_le e 2 = Some a /\ size a = 3 /\ FiniteDomain.isIn a 0 = Some true /\
    FiniteDomain.op_ge e 1 = Some b /\ size b = 3 /\
    FiniteDomain.op_minus e (FD 0 1 2 fd_descr) = Some c /\ size c = 2.
Proof.
  exists (FD 0 3 0 fd_descr), (FD 0 2 3 fd_descr), (FD 1 3 3 fd_descr), (FD 2 3 2 fd_descr).
  repeat split; vm_compute; reflexivity.
Qed.

(** [&=] on interval lists does not switch to a bit vector when the result
    fits one, so it leaves a domain that [isConsistent] rejects although both
    operands passed: [{1 5 2000} &= {1 5 3000}]. *)
Theorem intersection_inconsistent :
  exists z, FiniteDomain.op_and_eq
      (FD 1 2000 3 (iv_descr [Iv 1 1; Iv 5 5; Iv 2000 2000]))
      (FD 1 3000 3 (iv_descr [Iv 1 1; Iv 5 5; Iv 3000 3000])) = Some z /\
    FiniteDomain.isConsistent (FD 1 2000 3 (iv_descr [Iv 1 1; Iv 5 5; Iv 2000 2000])) = Some true /\
    FiniteDomain.isConsistent (FD 1 3000 3 (iv_descr [Iv 1 1; Iv 5 5; Iv 3000 3000])) = Some true /\
    FiniteDomain.isConsistent z = Some false /\ max_elem z = 5.
Proof.
  exists (FD 1 5 2 (iv_descr [Iv 1 1; Iv 5 5])). repeat split; vm_compute; reflexivity.
Qed.

(** ** Witnesses *)

Lemma intersection_witness :
  exists z z', FiniteDomain.op_and dom_bits dom_list = Some z /\
    FiniteDomain.op_and_eq dom_bits dom_list = Some z' /\ size z = 52 /\ size z' = 52.
Proof.
  destruct (intersection_correct default_env dom_bits dom_list _ _ default_env_ok dom_bits_repr dom_list_repr)
    as (z & z' & E & E' & _). exists z, z'. rewrite E, E'.
  vm_compute in E. injection E as <-. vm_compute in E'. injection E' as <-. repeat split.
Defined.

Lemma union_witness :
  exists z, FiniteDomain.op_or dom_range dom_bits = Some z /\ FiniteDomain.isIn z 2 = Some true.
Proof.
  destruct (union_correct default_env dom_range dom_bits _ _ default_env_ok dom_range_repr dom_bits_repr)
    as (z & E & Hz & _). exists z. rewrite (isIn_repr _ _ Hz). exact (conj E eq_refl).
Defined.

Lemma complement_witness :
  exists z z', FiniteDomain.op_not dom_list = Some z /\ FiniteDomain.op_not z = Some z' /\
    size z = fd_full_size - size dom_list.
Proof.
  destruct (complement_correct default_env dom_list _ default_env_ok dom_list_repr)
    as (z & z' & E & E' & _ & _ & Hz). exists z, z'. exact (conj E (conj E' Hz)).
Defined.

Lemma difference_witness :
  exists z, FiniteDomain.op_minus dom_range dom_bits = Some z /\ FiniteDomain.isIn z 41 = Some false.
Proof.
  destruct (difference_correct default_env dom_range dom_bits _ _ default_env_ok dom_range_repr dom_bits_repr)
    as (z & E & Hz & _); [reflexivity|]. exists z. rewrite (isIn_repr _ _ Hz). exact (conj E eq_refl).
Defined.

Lemma bounds_witness :
  exists z z', FiniteDomain.op_le dom_list 1000 = Some z /\ FiniteDomain.op_ge dom_list 1000 = Some z' /\
    FiniteDomain.isIn z 1000 = Some true /\ FiniteDomain.isIn z' 999 = Some false.
Proof.
  destruct (bounds_correct default_env dom_list _ 1000 default_env_ok dom_list_repr)
    as (z & z' & _ & E & E' & _ & Hz & Hz' & _); [vm_compute; reflexivity|]. exists z, z'.
  rewrite (isIn_repr _ _ Hz), (isIn_repr _ _ Hz'). exact (conj E (conj E' (conj eq_refl eq_refl))).
Defined.

Lemma element_witness :
  exists z z', FiniteDomain.op_minus_int dom_range 700 = Some z /\
    FiniteDomain.op_plus_int dom_range 700 = Some z' /\ FiniteDomain.isIn z 700 = Some false.
Proof.
  destruct (element_correct default_env dom_range _ 700 default_env_ok dom_range_repr)
    as (_ & z & z' & _ & E & E' & _ & Hz & _). exists z, z'. rewrite (isIn_repr _ _ Hz).
  exact (conj E (conj E' eq_refl)).
Defined.

Lemma neighbours_witness :
  exists s l, FiniteDomain.nextSmallerElem dom_bits 40 = Some s /\
    FiniteDomain.nextLargerElem dom_bits 40 = Some l /\ s = 7 /\ l = 41.
Proof.
  destruct (neighbours_correct default_env dom_bits _ 40 dom_bits_repr) as (s & l & _ & _ & E & _ & E' & _);
    [vm_compute; reflexivity|lia|]. exists s, l. rewrite E, E'. vm_compute in E, E'.
  injection E as <-. injection E' as <-. repeat split.
Defined.

Lemma midElem_witness : exists r, FiniteDomain.midElem dom_bits = Some r /\ r = 46.
Proof.
  destruct (midElem_correct default_env dom_bits _ dom_bits_repr) as (r & E & _);
    [vm_compute; reflexivity|]. exists r. rewrite E. vm_compute in E. injection E as <-. repeat split.
Defined.

Lemma initDescr_witness :
  exists z, FiniteDomain.initDescr FiniteDomain.initEmpty (TTuple1 (TCons (TInt 5) (TCons (TTuple (TInt 3) TSup) TNil)))
    = Some z /\ FiniteDomain.isIn z 2 = Some true /\ FiniteDomain.isIn z 5 = Some false.
Proof.
  destruct (initDescr_correct default_env FiniteDomain.initEmpty
    (TTuple1 (TCons (TInt 5) (TCons (TTuple (TInt 3) TSup) TNil))) default_env_ok) as (z & E & Hz & _);
    [reflexivity|]. exists z. rewrite !(isIn_repr _ _ Hz). exact (conj E (conj eq_refl eq_refl)).
Defined.

Lemma description_witness :
  exists d z, FiniteDomain.getAsList dom_list = Some d /\ FiniteDomain.initDescr FiniteDomain.initEmpty d = Some z /\
    size z = size dom_list.
Proof.
  destruct (description_roundtrip default_env dom_list FiniteDomain.initEmpty _ default_env_ok dom_list_repr)
    as (d & z & E & E' & _ & Hz & _). exists d, z. exact (conj E (conj E' Hz)).
Defined.

Lemma canonical_witness : FiniteDomain.eq_int dom_range 3 = true <-> forall w, (3 <=? w) && (w <=? 2000) = (w =? 3).
Proof.
  destruct (representation_canonical default_env dom_range dom_range _ 3 dom_range_repr dom_range_repr)
    as (_ & _ & H); [reflexivity|]. exact H.
Defined.

Lemma conversions_witness :
  exists iv bv, FiniteDomain.asIntervals dom_bits = Some iv /\ FiniteDomain.asBitVector dom_list = Some bv.
Proof.
  destruct (conversions_correct default_env dom_bits _ default_env_ok dom_bits_repr) as (iv & _ & E & _);
    [vm_compute; reflexivity|].
  destruct (conversions_correct default_env dom_list _ default_env_ok dom_list_repr) as (_ & bv & _ & E' & _);
    [vm_compute; reflexivity|]. exists iv, bv. exact (conj E E').
Defined.
