(* ===== verification/BitArray.v ===== *)
(** * Bit arrays ([bitarray.cc])

    The [BitArray] class and the builtins of the module [BitArray].  An object is
    its two bounds and its words; a builtin either proceeds, raises an error,
    or suspends on an undetermined argument. *)
From Stdlib Require Import Sorting.Sorted.
From S2P Require Import Prelude Word32 FDBase FDBitVector.

Module BitArray.

Record BitArray := BA { lowerBound : Z; upperBound : Z; array : list Z }.

Definition BITS_PER_INT : Z := 32.
Definition OzMaxInt : Z := 134217727.
Definition OzMinInt : Z := - (OzMaxInt + 1).

(** ** The class *)

Section class.
Context (fresh : Z -> Z).

(** [allocate]: the contents of new memory are unknown. *)
Definition allocate (size : Z) : list Z := fresh <$> seqZ 0 size.

(** [BitArray(int, int)]; [lower <= upper] is asserted. *)
Definition newBitArray (lower upper : Z) : option BitArray :=
  if lower <=? upper then
    let size := (upper - lower) / BITS_PER_INT + 1 in
    array ← for_down (Z.to_nat size) (fun i a => a.[i <- 0]) (allocate size);
    Some (BA lower upper array)
  else None.
End class.

Definition getSize (b : BitArray) : Z := (upperBound b - lowerBound b) / BITS_PER_INT + 1.

(** The copy constructor. *)
Definition clone (b : BitArray) : BitArray :=
  BA (lowerBound b) (upperBound b) (take (Z.to_nat (getSize b)) (array b)).

(** The two [checkBounds]. *)
Definition checkBounds (b : BitArray) (i : Z) : bool := (lowerBound b <=? i) && (i <=? upperBound b).
Definition sameBounds (this b : BitArray) : bool :=
  (lowerBound this =? lowerBound b) && (upperBound this =? upperBound b).

Definition set (b : BitArray) (i : Z) : option BitArray :=
  if checkBounds b i then
    let relative := i - lowerBound b in
    w ← (array b).[relative / BITS_PER_INT];
    a ← (array b).[relative / BITS_PER_INT <- Z.lor w (shl32 1 (relative mod BITS_PER_INT))];
    Some (BA (lowerBound b) (upperBound b) a)
  else None.

Definition clear (b : BitArray) (i : Z) : option BitArray :=
  if checkBounds b i then
    let relative := i - lowerBound b in
    w ← (array b).[relative / BITS_PER_INT];
    a ← (array b).[relative / BITS_PER_INT <- Z.land w (not32 (shl32 1 (relative mod BITS_PER_INT)))];
    Some (BA (lowerBound b) (upperBound b) a)
  else None.

Definition test (b : BitArray) (i : Z) : option bool :=
  if checkBounds b i then
    let relative := i - lowerBound b in
    w ← (array b).[relative / BITS_PER_INT];
    Some (negb (Z.land w (shl32 1 (relative mod BITS_PER_INT)) =? 0))
  else None.

(** The in-place loops [for (i = getSize(); i--; ) array[i] = f(array[i], b->array[i]);] *)
Definition combine (f : Z -> Z -> Z) (this b : BitArray) : option BitArray :=
  if sameBounds this b then
    a ← for_down (Z.to_nat (getSize this)) (fun i a =>
          x ← a.[i]; y ← (array b).[i]; a.[i <- f x y]) (array this);
    Some (BA (lowerBound this) (upperBound this) a)
  else None.

Definition bor : BitArray -> BitArray -> option BitArray := combine Z.lor.
Definition band : BitArray -> BitArray -> option BitArray := combine Z.land.
Definition nimpl : BitArray -> BitArray -> option BitArray := combine (fun x y => Z.land x (not32 y)).

(** Stops at the first word, from the top, in which both have a bit. *)
Fixpoint disjoint_loop (n : nat) (this b : list Z) : option bool :=
  match n with
  | O => Some true
  | S n =>
      x ← this.[Z.of_nat n]; y ← b.[Z.of_nat n];
      if negb (Z.land x y =? 0) then Some false else disjoint_loop n this b
  end.

Definition disjoint (this b : BitArray) : option bool :=
  if sameBounds this b then disjoint_loop (Z.to_nat (getSize this)) (array this) (array b) else None.

Fixpoint subsumes_loop (n : nat) (i : Z) (this b : BitArray) : option bool :=
  match n with
  | O => Some true
  | S n =>
      bi ← test b i;
      if (bi : bool) then
        ti ← test this i;
        if negb ti then Some false else subsumes_loop n (i + 1) this b
      else subsumes_loop n (i + 1) this b
  end.

Definition subsumes (this b : BitArray) : option bool :=
  let l := lowerBound b in
  let u := upperBound b in
  if (l <? lowerBound this) || (upperBound this <? u) then Some false
  else subsumes_loop (Z.to_nat (u - l + 1)) l this b.

Definition card (b : BitArray) : option Z := get_num_of_bits (getSize b) (array b).

(** The inner loop of [toList] and [complementToList]: [want] selects the bits
    that are listed, [offset] is the index of bit 0 of the word. *)
Definition collect_bits (want : bool -> bool) (word offset : Z) (n : nat) (l : list Z) : option (list Z) :=
  for_down n (fun j l =>
    Some (if want (negb (Z.land word (shl32 1 j) =? 0)) then (offset + j) :: l else l)) l.

(** One turn of the outer loop, on words of [n] bits. *)
Definition collect_step (want : bool -> bool) (n : nat) (b : BitArray) (i : Z) (s : list Z * Z) : option (list Z * Z) :=
  let '(l, offset) := s in
  word ← (array b).[i];
  l ← collect_bits want word offset n l;
  Some (l, offset - Z.of_nat n).

Definition collect (want : bool -> bool) (b : BitArray) : option (list Z) :=
  let offset := ((upperBound b - lowerBound b) / BITS_PER_INT) * BITS_PER_INT + lowerBound b in
  '(l, _) ← for_down (Z.to_nat (getSize b)) (collect_step want (Z.to_nat BITS_PER_INT) b) ([], offset);
  Some l.

Definition toList : BitArray -> option (list Z) := collect (fun bit => bit).
Definition complementToList : BitArray -> option (list Z) := collect negb.

(** ** The builtins *)

(** Errors carry the operation they name; [TypeError] the argument position. *)
Inductive oz_exn := BitArray_new | BitArray_index | BitArray_binop | TypeError (pos : Z).

Inductive oz_outcome (A : Type) := Proceed (a : A) | Raise (e : oz_exn) | Suspend.
#[global] Arguments Proceed {A}.
#[global] Arguments Raise {A}.
#[global] Arguments Suspend {A}.

(** Dereferenced arguments: an element of a list or the index of a feature
    access, the spine of a list, and the value stored by a feature access. *)
Inductive oz_elem := EInt (i : Z) | EVar | EOther.
Inductive oz_list := LCons (hd : oz_elem) (tl : oz_list) | LNil | LVar | LOther.
Inductive oz_bool := BTrue | BFalse | BVar | BOther.

Section builtins.
Context (fresh : Z -> Z).

Definition BIbitArray_new (l h : Z) : option (oz_outcome BitArray) :=
  if l <=? h then b ← newBitArray fresh l h; Some (Proceed b) else Some (Raise BitArray_new).

Definition BIbitArray_set (b : BitArray) (i : Z) : option (oz_outcome BitArray) :=
  if checkBounds b i then b ← set b i; Some (Proceed b) else Some (Raise BitArray_index).

Definition BIbitArray_clear (b : BitArray) (i : Z) : option (oz_outcome BitArray) :=
  if checkBounds b i then b ← clear b i; Some (Proceed b) else Some (Raise BitArray_index).

Definition BIbitArray_test (b : BitArray) (i : Z) : option (oz_outcome bool) :=
  if checkBounds b i then t ← test b i; Some (Proceed t) else Some (Raise BitArray_index).

Definition getFeatureV (b : BitArray) (f : oz_elem) : option (oz_outcome bool) :=
  match f with
  | EInt i => if checkBounds b i then t ← test b i; Some (Proceed t) else Some (Raise BitArray_index)
  | _ => Some (Raise (TypeError 1))
  end.

Definition putFeatureV (b : BitArray) (f : oz_elem) (v : oz_bool) : option (oz_outcome BitArray) :=
  match f with
  | EInt i =>
      if negb (checkBounds b i) then Some (Raise BitArray_index)
      else
        match v with
        | BVar => Some Suspend
        | BTrue => b ← set b i; Some (Proceed b)
        | BFalse => b ← clear b i; Some (Proceed b)
        | BOther => Some (Raise (TypeError 2))
        end
  | _ => Some (Raise (TypeError 1))
  end.

(** The binary builtins test the bounds before they call the method. *)
Definition binop {A} (op : BitArray -> BitArray -> option A) (b1 b2 : BitArray) : option (oz_outcome A) :=
  if sameBounds b1 b2 then r ← op b1 b2; Some (Proceed r) else Some (Raise BitArray_binop).

Definition BIbitArray_or := binop bor.
Definition BIbitArray_and := binop band.
Definition BIbitArray_nimpl := binop nimpl.
Definition BIbitArray_disjoint := binop disjoint.

(** The first pass over the list: the number of elements and their bounds, or
    the reason the list is refused. *)
Fixpoint fromList_scan (is_ : oz_list) (n mi ma : Z) : oz_outcome (Z * Z * Z) :=
  match is_ with
  | LCons (EInt i) tl =>
      fromList_scan tl (n + 1) (if i <? mi then i else mi) (if ma <? i then i else ma)
  | LCons EVar _ => Suspend
  | LCons EOther _ => Raise (TypeError 0)
  | LVar => Suspend
  | LNil => if n =? 0 then Raise (TypeError 0) else Proceed (n, mi, ma)
  | LOther => Raise (TypeError 0)
  end.

(** The second pass sets the first [n] elements. *)
Fixpoint fromList_fill (n : nat) (is_ : oz_list) (b : BitArray) : option BitArray :=
  match n with
  | O => Some b
  | S n =>
      match is_ with
      | LCons (EInt i) tl => b ← set b i; fromList_fill n tl b
      | _ => None
      end
  end.

Definition BIbitArray_fromList (is_ : oz_list) : option (oz_outcome BitArray) :=
  match fromList_scan is_ 0 OzMaxInt OzMinInt with
  | Proceed (n, mi, ma) =>
      b ← newBitArray fresh mi ma;
      b ← fromList_fill (Z.to_nat n) is_ b;
      Some (Proceed b)
  | Raise e => Some (Raise e)
  | Suspend => Some Suspend
  end.
End builtins.

(** ** The set a bit array stands for *)

Definition mem (b : BitArray) (v : Z) : bool := words_mem (array b) (v - lowerBound b).

(** The bits past the upper bound are clear; the bounds are small integers. *)
Definition wf (b : BitArray) : Prop :=
  lowerBound b <= upperBound b /\ zlen (array b) = getSize b /\ Forall is_word (array b) /\
  forall v, mem b v = true -> lowerBound b <= v <= upperBound b.

Lemma getSize_bounds b :
  lowerBound b <= upperBound b ->
  1 <= getSize b /\ 32 * (getSize b - 1) <= upperBound b - lowerBound b < 32 * getSize b.
Proof. unfold getSize, BITS_PER_INT. intros. Z.div_mod_to_equations. lia. Qed.

Lemma div_div32 n : n / BITS_PER_INT = div32 n.
Proof. by rewrite div32_div. Qed.
Lemma mod_mod32 n : n mod BITS_PER_INT = mod32 n.
Proof. by rewrite mod32_mod. Qed.

Lemma newBitArray_spec fresh l u :
  l <= u -> exists b, newBitArray fresh l u = Some b /\ wf b /\ lowerBound b = l /\ upperBound b = u /\
    forall v, mem b v = false.
Proof.
  intros Hlu. unfold newBitArray. rewrite (proj2 (Z.leb_le _ _) Hlu).
  set (size := (u - l) / BITS_PER_INT + 1).
  assert (0 <= size) by (subst size; unfold BITS_PER_INT; Z.div_mod_to_equations; lia).
  assert (zlen (allocate fresh size) = size) as Hl.
  { unfold allocate, zlen. rewrite length_fmap, length_seqZ. lia. }
  destruct (for_down_cells (fun _ => 0) (fun i a => a.[i <- 0]) (Z.to_nat size) (allocate fresh size))
    as (a & -> & La & Ca); [lia|done|]. ored.
  assert (forall j, word_at a j = 0) as Ha.
  { intros j. unfold word_at. rewrite Ca. ifs; [done|]. rewrite aget_None; [done|]. lia. }
  assert (forall v, words_mem a v = false) as Hm by (intros v; by rewrite words_mem_at, Ha, Z.bits_0).
  eexists; split; [done|]. unfold wf, mem. cbn [lowerBound upperBound array]. split_and!; try done.
  - by rewrite La, Hl.
  - apply FDBitVector.Forall_words. intros j _. by rewrite Ha.
  - intros v. by rewrite Hm.
Qed.

Section ops.
Context (b : BitArray) (Hb : wf b).

Lemma index_range i : checkBounds b i = true -> 0 <= i - lowerBound b <= FDBitVector.currBvMaxElem (array b).
Proof using Hb.
  destruct Hb as (H1 & H2 & _). destruct (getSize_bounds b H1) as (? & ? & ?).
  unfold checkBounds, FDBitVector.currBvMaxElem. lia.
Qed.

Lemma test_spec i : checkBounds b i = true -> test b i = Some (mem b i).
Proof using Hb.
  intros Hi. pose proof (index_range i Hi) as Hr. destruct Hb as (_ & _ & Hw & _).
  pose proof (FDBitVector.bv_isIn_spec (array b) (i - lowerBound b) Hw) as Hin. unfold FDBitVector.isIn in Hin.
  rewrite (proj2 (Z.leb_le _ _)) in Hin by lia. unfold test, mem. rewrite Hi, div_div32, mod_mod32.
  apply Hin. lia.
Qed.

Lemma set_spec i : checkBounds b i = true ->
  exists b', set b i = Some b' /\ wf b' /\ lowerBound b' = lowerBound b /\ upperBound b' = upperBound b /\
    forall v, mem b' v = mem b v || (v =? i).
Proof using Hb.
  intros Hi. pose proof (index_range i Hi) as Hr. destruct Hb as (H1 & H2 & Hw & H4).
  destruct (FDBitVector.setBit_spec (array b) (i - lowerBound b) Hw Hr) as (a & E & La & Wa & Ma).
  unfold FDBitVector.setBit in E. unfold set. rewrite Hi, div_div32, mod_mod32.
  destruct ((array b).[div32 (i - lowerBound b)]); [|done]. ored in E. ored. rewrite E. ored.
  assert (forall v, mem (BA (lowerBound b) (upperBound b) a) v = mem b v || (v =? i)) as Hm.
  { intros v. unfold mem. simpl. rewrite Ma. f_equal. lia. }
  eexists; split; [done|]. unfold wf, getSize. cbn [lowerBound upperBound array]. split_and!; try done.
  - by rewrite La.
  - intros v. rewrite Hm. unfold checkBounds in Hi. destruct (mem b v) eqn:E'; [apply H4 in E'; lia|]. lia.
Qed.

Lemma clear_spec i : checkBounds b i = true ->
  exists b', clear b i = Some b' /\ wf b' /\ lowerBound b' = lowerBound b /\ upperBound b' = upperBound b /\
    forall v, mem b' v = mem b v && negb (v =? i).
Proof using Hb.
  intros Hi. pose proof (index_range i Hi) as Hr. destruct Hb as (H1 & H2 & Hw & H4).
  destruct (FDBitVector.resetBit_spec (array b) (i - lowerBound b) Hw Hr) as (a & E & La & Wa & Ma).
  unfold FDBitVector.resetBit in E. unfold clear. rewrite Hi, div_div32, mod_mod32.
  destruct ((array b).[div32 (i - lowerBound b)]); [|done]. ored in E. ored. rewrite E. ored.
  assert (forall v, mem (BA (lowerBound b) (upperBound b) a) v = mem b v && negb (v =? i)) as Hm.
  { intros v. unfold mem. simpl. rewrite Ma. do 2 f_equal. lia. }
  eexists; split; [done|]. unfold wf, getSize. cbn [lowerBound upperBound array]. split_and!; try done.
  - by rewrite La.
  - intros v. rewrite Hm. destruct (mem b v) eqn:E'; [apply H4 in E'; lia|]. done.
Qed.

(** ** Two bit arrays with the same bounds *)

Context (c : BitArray) (Hc : wf c) (Hsame : sameBounds b c = true).

Lemma same_facts :
  lowerBound b = lowerBound c /\ upperBound b = upperBound c /\ zlen (array c) = zlen (array b).
Proof using Hb Hc Hsame.
  unfold sameBounds in Hsame. destruct Hb as (_ & E1 & _), Hc as (_ & E2 & _).
  assert (lowerBound b = lowerBound c) as El by lia. assert (upperBound b = upperBound c) as Eu by lia.
  split_and!; try done. rewrite E1, E2. unfold getSize. by rewrite El, Eu.
Qed.

(** A word operation that acts bit by bit, and clears a bit clear in [this]
    unless the argument has it. *)
Lemma combine_spec f g :
  (forall x y, is_word x -> is_word y -> is_word (f x y)) ->
  (forall x y j, 0 <= j < 32 -> Z.testbit (f x y) j = g (Z.testbit x j) (Z.testbit y j)) ->
  g false false = false ->
  exists r, combine f b c = Some r /\ wf r /\ lowerBound r = lowerBound b /\ upperBound r = upperBound b /\
    forall v, mem r v = g (mem b v) (mem c v).
Proof using Hb Hc Hsame.
  intros Hf Hg Hg0. destruct same_facts as (El & Eu & Ez). destruct Hb as (H1 & H2 & Hw & H4).
  destruct Hc as (_ & _ & Hwc & H4c). destruct (getSize_bounds b H1) as (? & ? & ?).
  unfold combine. rewrite Hsame.
  destruct (for_down_cells (fun i => f (word_at (array b) i) (word_at (array c) i))
    (fun i a => x ← a.[i]; y ← (array c).[i]; a.[i <- f x y]) (Z.to_nat (getSize b)) (array b))
    as (a & -> & La & Ca); [lia| |].
  { intros i a Hi _ Ha. rewrite Ha, !aget_word_at by lia. done. }
  ored. pose proof (FDBitVector.word_at_upd _ _ _ _ Ca) as Wa. cbn beta in Wa.
  assert (forall v, words_mem a v = g (words_mem (array b) v) (words_mem (array c) v)) as Hm.
  { intros v. pose proof (div32_mod32 v). rewrite !words_mem_at, Wa. ifs; [apply Hg; lia|].
    rewrite !word_at_out by lia. by rewrite Z.bits_0, Hg0. }
  eexists; split; [done|]. unfold wf, getSize, mem. cbn [lowerBound upperBound array].
  split_and!; try done.
  - by rewrite La.
  - apply FDBitVector.Forall_words. intros j _. rewrite Wa. ifs; auto.
  - intros v. rewrite Hm. specialize (H4 v). specialize (H4c v). unfold mem in H4, H4c. rewrite <- El in H4c.
    destruct (words_mem (array b) _); [intros _; by apply H4|].
    destruct (words_mem (array c) _); [intros _; rewrite Eu; by apply H4c|]. by rewrite Hg0.
  - intros v. by rewrite Hm, El.
Qed.

Lemma disjoint_loop_spec n :
  Z.of_nat n <= zlen (array b) ->
  exists r, disjoint_loop n (array b) (array c) = Some r /\
    (r = true <-> forall v, 0 <= v < 32 * Z.of_nat n -> words_mem (array b) v && words_mem (array c) v = false).
Proof using Hb Hc Hsame.
  destruct same_facts as (_ & _ & Ez). destruct Hb as (_ & _ & Hw & _), Hc as (_ & _ & Hwc & _).
  induction n as [|n IH]; intros Hn; [exists true; split; [done|split; [lia|done]]|].
  cbn [disjoint_loop]. rewrite !aget_word_at by lia. ored.
  assert (is_word (Z.land (word_at (array b) (Z.of_nat n)) (word_at (array c) (Z.of_nat n)))) as Hland
    by (apply is_word_land; auto).
  destruct (Z.eqb_spec (Z.land (word_at (array b) (Z.of_nat n)) (word_at (array c) (Z.of_nat n))) 0) as [E|E].
  - destruct IH as (r & -> & Hr); [lia|]. exists r. split; [done|]. rewrite Hr.
    split; [|intros Hv v ?; apply Hv; lia]. intros Hv v Hvr.
    destruct (Z.lt_ge_cases v (32 * Z.of_nat n)); [by apply Hv; lia|].
    pose proof (div32_mod32 v). rewrite !words_mem_at. replace (div32 v) with (Z.of_nat n) by lia.
    by rewrite <- Z.land_spec, E, Z.bits_0.
  - exists false. split; [done|]. split; [done|]. intros Hv. exfalso. apply E. apply word_eq0; [done|].
    intros j Hj. rewrite Z.land_spec. specialize (Hv (32 * Z.of_nat n + j) ltac:(lia)).
    rewrite !words_mem_word, !aget_word_at in Hv by lia. done.
Qed.

Lemma disjoint_spec :
  exists r, disjoint b c = Some r /\ (r = true <-> forall v, mem b v && mem c v = false).
Proof using Hb Hc Hsame.
  destruct same_facts as (El & Eu & Ez). pose proof Hb as (H1 & H2 & _).
  destruct (getSize_bounds b H1) as (? & ? & ?). unfold disjoint. rewrite Hsame.
  destruct (disjoint_loop_spec (Z.to_nat (getSize b))) as (r & -> & Hr); [lia|].
  exists r. split; [done|]. rewrite Hr. unfold mem. rewrite <- El. split.
  - intros Hv v. destruct (decide (0 <= v - lowerBound b < 32 * getSize b)); [apply Hv; lia|].
    rewrite words_mem_out by lia. done.
  - intros Hv v Hvr. specialize (Hv (v + lowerBound b)).
    by replace (v + lowerBound b - lowerBound b) with v in Hv by lia.
Qed.
End ops.

Lemma subsumes_loop_spec this b n i :
  wf this -> wf b -> lowerBound this <= lowerBound b -> upperBound b <= upperBound this ->
  lowerBound b <= i -> i + Z.of_nat n = upperBound b + 1 ->
  exists r, subsumes_loop n i this b = Some r /\
    (r = true <-> forall v, i <= v -> mem b v = true -> mem this v = true).
Proof.
  intros Ht Hb Hl Hu. revert i. induction n as [|n IH]; intros i Hi Hn.
  - exists true. split; [done|]. split; [|done]. intros _ v Hv Hm.
    destruct Hb as (_ & _ & _ & Hb). apply Hb in Hm. lia.
  - cbn [subsumes_loop]. destruct (IH (i + 1)) as (r & Er & Hr); [lia|lia|].
    rewrite (test_spec b Hb) by (unfold checkBounds; lia). ored. destruct (mem b i) eqn:Eb.
    + rewrite (test_spec this Ht) by (unfold checkBounds; lia). ored. destruct (mem this i) eqn:Et; simpl.
      * exists r. split; [done|]. rewrite Hr. split; intros Hv v Hvi; [|apply Hv; lia].
        destruct (Z.eq_dec v i) as [->|]; [done|apply Hv; lia].
      * exists false. split; [done|]. split; [done|]. intros Hv. rewrite Hv in Et; [done|lia|done].
    + exists r. split; [done|]. rewrite Hr. split; intros Hv v Hvi; [|apply Hv; lia].
      destruct (Z.eq_dec v i) as [->|]; [by rewrite Eb|apply Hv; lia].
Qed.

(** Wider bounds that hold every set bit of [b]. *)
Lemma subsumes_spec this b :
  wf this -> wf b ->
  exists r, subsumes this b = Some r /\
    (r = true <-> lowerBound this <= lowerBound b /\ upperBound b <= upperBound this /\
       forall v, mem b v = true -> mem this v = true).
Proof.
  intros Ht Hb. unfold subsumes.
  destruct ((lowerBound b <? lowerBound this) || (upperBound this <? upperBound b)) eqn:E.
  { exists false. split; [done|]. split; [done|]. lia. }
  pose proof Hb as (H1 & _ & _ & Hm).
  destruct (subsumes_loop_spec this b (Z.to_nat (upperBound b - lowerBound b + 1)) (lowerBound b))
    as (r & -> & Hr); try done; try lia.
  exists r. split; [done|]. rewrite Hr. split.
  - intros Hv. split_and!; [lia|lia|]. intros v Hvb. apply Hv; [|done]. by apply Hm.
  - intros (_ & _ & Hv) v _. apply Hv.
Qed.

(** ** Listing the bits *)

(** The integers from [lo] to [lo + n - 1] in [P], in increasing order. *)
Fixpoint listing (P : Z -> bool) (lo : Z) (n : nat) : list Z :=
  match n with
  | O => []
  | S n => if P lo then lo :: listing P (lo + 1) n else listing P (lo + 1) n
  end.

Lemma listing_app P lo n m : listing P lo (n + m) = listing P lo n ++ listing P (lo + Z.of_nat n) m.
Proof.
  revert lo. induction n as [|n IH]; intros lo; cbn [listing Nat.add]; [by rewrite Z.add_0_r|].
  rewrite IH. replace (lo + 1 + Z.of_nat n) with (lo + Z.of_nat (S n)) by lia. by destruct (P lo).
Qed.

Lemma listing_ext P Q lo n :
  (forall v, lo <= v < lo + Z.of_nat n -> P v = Q v) -> listing P lo n = listing Q lo n.
Proof.
  revert lo. induction n as [|n IH]; intros lo HPQ; cbn [listing]; [done|].
  rewrite HPQ, IH; [done|intros; apply HPQ; lia|lia].
Qed.

Lemma listing_none P lo n : (forall v, lo <= v < lo + Z.of_nat n -> P v = false) -> listing P lo n = [].
Proof.
  revert lo. induction n as [|n IH]; intros lo HP; cbn [listing]; [done|].
  rewrite HP by lia. apply IH. intros v Hv. apply HP. lia.
Qed.

Lemma listing_length P lo n : zlen (listing P lo n) = count_range P lo n.
Proof.
  revert lo. induction n as [|n IH]; intros lo; cbn [listing count_range]; [done|].
  destruct (P lo); rewrite ?zlen_cons, IH; simpl; lia.
Qed.

Lemma elem_of_listing P lo n v : v ∈ listing P lo n <-> P v = true /\ lo <= v < lo + Z.of_nat n.
Proof.
  revert lo. induction n as [|n IH]; intros lo; cbn [listing].
  - rewrite elem_of_nil. lia.
  - destruct (Z.eq_dec v lo) as [->|Hne]; (destruct (P lo) eqn:E; rewrite ?elem_of_cons, IH).
    + split; [split; [done|lia]|by left].
    + split; [lia|intros [? _]; congruence].
    + split; [intros [?|[? ?]]; [done|split; [done|lia]]|intros [? ?]; right; split; [done|lia]].
    + split; intros [? ?]; (split; [done|lia]).
Qed.

(** One word, from its top bit down. *)
Lemma collect_word (want : bool -> bool) (w offset : Z) (n : nat) (l : list Z) :
  is_word w -> Z.of_nat n <= 32 ->
  collect_bits want w offset n l = Some (listing (fun v => want (Z.testbit w (v - offset))) offset n ++ l).
Proof.
  intros Hw. unfold collect_bits. revert l. induction n as [|n IH]; intros l Hn; cbn [for_down]; [done|]. ored.
  rewrite IH by lia. replace (S n) with (n + 1)%nat by lia. rewrite listing_app. cbn [listing].
  rewrite <- app_assoc. replace (offset + Z.of_nat n - offset) with (Z.of_nat n) by lia.
  rewrite land_mask_eq0, negb_involutive by (done || lia).
  by destruct (want (Z.testbit w (Z.of_nat n))).
Qed.

Lemma word_bits b i (want : bool -> bool) v :
  0 <= i -> lowerBound b + 32 * i <= v < lowerBound b + 32 * i + 32 ->
  want (Z.testbit (word_at (array b) i) (v - (lowerBound b + 32 * i))) = want (mem b v).
Proof.
  intros Hi Hv. unfold mem. rewrite words_mem_at. pose proof (div32_mod32 (v - lowerBound b)).
  assert (div32 (v - lowerBound b) = i) as -> by lia.
  by assert (v - (lowerBound b + 32 * i) = mod32 (v - lowerBound b)) as -> by lia.
Qed.

Lemma bits_per_int_nat : Z.of_nat (Z.to_nat BITS_PER_INT) = 32.
Proof. reflexivity. Qed.

(** The word size is kept symbolic: the loops over a word are never unrolled. *)
Section word_size.
Context (k : nat) (Hk : Z.of_nat k = 32).

Lemma collect_step_spec want b i l :
  Forall is_word (array b) -> 0 <= i < zlen (array b) ->
  collect_step want k b i (l, lowerBound b + 32 * i) =
    Some (listing (fun v => want (mem b v)) (lowerBound b + 32 * i) k ++ l, lowerBound b + 32 * i - 32).
Proof using Hk.
  intros Hw Hi. unfold collect_step. rewrite aget_word_at by lia. ored.
  rewrite collect_word; [ored|by apply is_word_at|lia]. rewrite Hk. do 2 f_equal. f_equal.
  apply listing_ext. intros v. rewrite Hk. intros Hv. apply word_bits; [lia|done].
Qed.

Lemma listing_snoc_word P lo n :
  listing P lo (S n * k) = listing P lo (n * k) ++ listing P (lo + 32 * Z.of_nat n) k.
Proof using Hk. rewrite Nat.mul_succ_l, listing_app. do 2 f_equal. lia. Qed.

Lemma collect_loop_spec want b n l :
  Forall is_word (array b) -> Z.of_nat n <= zlen (array b) ->
  for_down n (collect_step want k b) (l, lowerBound b + 32 * (Z.of_nat n - 1)) =
    Some (listing (fun v => want (mem b v)) (lowerBound b) (n * k) ++ l, lowerBound b - 32).
Proof using Hk.
  intros Hw. revert l. induction n as [|n IH]; intros l Hn.
  { by cbn [for_down]; f_equal; f_equal. }
  cbn [for_down]. assert (Z.of_nat (S n) - 1 = Z.of_nat n) as -> by lia.
  rewrite collect_step_spec by (done || lia). ored.
  assert (lowerBound b + 32 * Z.of_nat n - 32 = lowerBound b + 32 * (Z.of_nat n - 1)) as -> by lia.
  rewrite IH by lia. by rewrite listing_snoc_word, <- app_assoc.
Qed.
End word_size.

Lemma collect_spec want b :
  wf b -> collect want b =
    Some (listing (fun v => want (mem b v)) (lowerBound b) (Z.to_nat (getSize b) * Z.to_nat BITS_PER_INT)).
Proof.
  intros (H1 & H2 & Hw & _). destruct (getSize_bounds b H1) as (? & ? & ?). unfold collect.
  replace ((upperBound b - lowerBound b) / BITS_PER_INT * BITS_PER_INT + lowerBound b)
    with (lowerBound b + 32 * (Z.of_nat (Z.to_nat (getSize b)) - 1))
    by (rewrite Z2Nat.id by lia; unfold getSize, BITS_PER_INT; lia).
  pose proof bits_per_int_nat as Hk. revert Hk. generalize (Z.to_nat BITS_PER_INT) as k. intros k Hk.
  rewrite (collect_loop_spec k Hk) by (done || lia). ored. by rewrite app_nil_r.
Qed.

Lemma toList_spec b :
  wf b -> toList b = Some (listing (mem b) (lowerBound b) (Z.to_nat (upperBound b - lowerBound b + 1))).
Proof.
  intros Hb. unfold toList. rewrite collect_spec by done. f_equal.
  destruct Hb as (H1 & _ & _ & H4). destruct (getSize_bounds b H1) as (? & ? & ?).
  replace (Z.to_nat (getSize b) * Z.to_nat BITS_PER_INT)%nat with (Z.to_nat (upperBound b - lowerBound b + 1)
    + Z.to_nat (32 * getSize b - (upperBound b - lowerBound b + 1)))%nat by (unfold BITS_PER_INT; lia).
  rewrite listing_app, (listing_none _ (lowerBound b + _)), app_nil_r; [done|].
  intros v Hv. destruct (mem b v) eqn:E; [apply H4 in E; lia|done].
Qed.

Lemma card_spec b :
  wf b -> card b = Some (zlen (listing (mem b) (lowerBound b) (Z.to_nat (upperBound b - lowerBound b + 1)))).
Proof.
  intros (H1 & H2 & Hw & H4). destruct (getSize_bounds b H1) as (? & ? & ?). unfold card.
  rewrite get_num_of_bits_spec by (done || lia). f_equal. rewrite listing_length.
  rewrite (count_range_restrict (words_mem (array b)) 0 _ 0 (upperBound b - lowerBound b)); [|lia..|].
  - rewrite Z.sub_0_r. change (lowerBound b) with (0 + lowerBound b) at 2. rewrite count_range_shift.
    apply count_range_ext. intros i Hi. unfold mem. f_equal. lia.
  - intros i Hi Hm. specialize (H4 (i + lowerBound b)). unfold mem in H4.
    replace (i + lowerBound b - lowerBound b) with i in H4 by lia. specialize (H4 Hm). lia.
Qed.

Lemma listing_sorted P lo n : StronglySorted Z.lt (listing P lo n).
Proof.
  revert lo. induction n as [|n IH]; intros lo; cbn [listing]; [constructor|].
  destruct (P lo); [|apply IH]. constructor; [apply IH|].
  apply Forall_forall. intros v Hv%elem_of_listing. lia.
Qed.

(** ** Lists of integers as arguments *)

Fixpoint int_list (l : list Z) : oz_list :=
  match l with [] => LNil | i :: l => LCons (EInt i) (int_list l) end.

(** The bounds found by the first pass. *)
Fixpoint scan_min (l : list Z) (mi : Z) : Z :=
  match l with [] => mi | i :: l => scan_min l (if i <? mi then i else mi) end.
Fixpoint scan_max (l : list Z) (ma : Z) : Z :=
  match l with [] => ma | i :: l => scan_max l (if ma <? i then i else ma) end.

Lemma fromList_scan_spec l n mi ma :
  0 < n + zlen l -> 0 <= n ->
  fromList_scan (int_list l) n mi ma = Proceed (n + zlen l, scan_min l mi, scan_max l ma).
Proof.
  revert n mi ma. induction l as [|i l IH]; intros n mi ma Hn Hp; cbn [int_list fromList_scan scan_min scan_max].
  - pose proof (@zlen_nil Z). rewrite (proj2 (Z.eqb_neq n 0)) by lia. do 3 f_equal. lia.
  - rewrite zlen_cons in Hn |- *. pose proof (zlen_nonneg l). rewrite IH by lia. by rewrite <- Z.add_assoc, (Z.add_comm 1).
Qed.

Lemma scan_min_spec l mi : scan_min l mi <= mi /\ forall v, v ∈ l -> scan_min l mi <= v.
Proof.
  revert mi. induction l as [|i l IH]; intros mi; cbn [scan_min]; [split; [lia|by intros ? ?%elem_of_nil]|].
  destruct (IH (if i <? mi then i else mi)) as (H1 & H2). split; [destruct (Z.ltb_spec i mi); lia|].
  intros v [->|Hv]%elem_of_cons; [destruct (Z.ltb_spec i mi); lia|auto].
Qed.

Lemma scan_max_spec l ma : ma <= scan_max l ma /\ forall v, v ∈ l -> v <= scan_max l ma.
Proof.
  revert ma. induction l as [|i l IH]; intros ma; cbn [scan_max]; [split; [lia|by intros ? ?%elem_of_nil]|].
  destruct (IH (if ma <? i then i else ma)) as (H1 & H2). split; [destruct (Z.ltb_spec ma i); lia|].
  intros v [->|Hv]%elem_of_cons; [destruct (Z.ltb_spec ma i); lia|auto].
Qed.

Lemma scan_min_in l mi : scan_min l mi = mi \/ scan_min l mi ∈ l.
Proof.
  revert mi. induction l as [|i l IH]; intros mi; cbn [scan_min]; [by left|]. rewrite elem_of_cons.
  destruct (IH (if i <? mi then i else mi)) as [->|?]; [|auto]. destruct (i <? mi); auto.
Qed.

Lemma scan_max_in l ma : scan_max l ma = ma \/ scan_max l ma ∈ l.
Proof.
  revert ma. induction l as [|i l IH]; intros ma; cbn [scan_max]; [by left|]. rewrite elem_of_cons.
  destruct (IH (if ma <? i then i else ma)) as [->|?]; [|auto]. destruct (ma <? i); auto.
Qed.

Lemma fromList_fill_spec l b :
  wf b -> (forall v, v ∈ l -> checkBounds b v = true) ->
  exists b', fromList_fill (length l) (int_list l) b = Some b' /\ wf b' /\
    lowerBound b' = lowerBound b /\ upperBound b' = upperBound b /\
    forall v, mem b' v = mem b v || bool_decide (v ∈ l).
Proof.
  revert b. induction l as [|i l IH]; intros b Hb Hl; cbn [fromList_fill length int_list].
  - exists b. split_and!; try done. intros v. by rewrite bool_decide_eq_false_2, orb_false_r by apply not_elem_of_nil.
  - destruct (set_spec b Hb i) as (b1 & -> & W1 & L1 & U1 & M1); [apply Hl; by left|]. ored.
    destruct (IH b1 W1) as (b2 & -> & W2 & L2 & U2 & M2).
    { intros v Hv. unfold checkBounds. rewrite L1, U1. apply Hl. by right. }
    exists b2. split_and!; try done; [congruence..|]. intros v. rewrite M2, M1, <- orb_assoc. f_equal.
    rewrite (bool_decide_ext (v ∈ i :: l) (v = i \/ v ∈ l)) by apply elem_of_cons.
    rewrite bool_decide_or. f_equal. symmetry. by destruct (Z.eqb_spec v i); [apply bool_decide_eq_true|apply bool_decide_eq_false].
Qed.

Lemma fromList_spec fresh l :
  l <> [] -> Forall (fun v => OzMinInt <= v <= OzMaxInt) l ->
  exists b, BIbitArray_fromList fresh (int_list l) = Some (Proceed b) /\ wf b /\
    lowerBound b ∈ l /\ upperBound b ∈ l /\ forall v, mem b v = true <-> v ∈ l.
Proof.
  intros Hne Hall. rewrite Forall_forall in Hall. unfold BIbitArray_fromList.
  assert (0 < zlen l) as Hpos by (destruct l; [done|rewrite zlen_cons; pose proof (zlen_nonneg l); lia]).
  rewrite fromList_scan_spec by lia. rewrite Z.add_0_l.
  destruct (scan_min_spec l OzMaxInt) as (_ & Hmin), (scan_max_spec l OzMinInt) as (_ & Hmax).
  assert (exists x, x ∈ l) as (x & Hx) by (destruct l; [done|eexists; by left]).
  assert (scan_min l OzMaxInt ∈ l) as Hi1.
  { destruct (scan_min_in l OzMaxInt) as [E|]; [|done]. specialize (Hmin x Hx). specialize (Hall x Hx).
    assert (x = OzMaxInt) as -> by lia. by rewrite E. }
  assert (scan_max l OzMinInt ∈ l) as Hi2.
  { destruct (scan_max_in l OzMinInt) as [E|]; [|done]. specialize (Hmax x Hx). specialize (Hall x Hx).
    assert (x = OzMinInt) as -> by lia. by rewrite E. }
  destruct (newBitArray_spec fresh (scan_min l OzMaxInt) (scan_max l OzMinInt)) as (b & -> & Wb & Lb & Ub & Mb).
  { specialize (Hmin x Hx). specialize (Hmax x Hx). lia. }
  ored. unfold zlen. rewrite Nat2Z.id.
  destruct (fromList_fill_spec l b Wb) as (b' & -> & W' & L' & U' & M').
  { intros v Hv. unfold checkBounds. rewrite Lb, Ub. specialize (Hmin v Hv). specialize (Hmax v Hv). lia. }
  ored. exists b'. split_and!; try done; [by rewrite L', Lb|by rewrite U', Ub|].
  intros v. rewrite M', Mb. apply bool_decide_eq_true.
Qed.

(** ** Properties *)

Definition same_bounds (b r : BitArray) : Prop := lowerBound r = lowerBound b /\ upperBound r = upperBound b.

(** the set operations of the module are union, intersection and difference
    of the sets the arrays stand for, they keep the bounds and the invariant of
    the array, [disjoint] decides disjointness, and two arrays whose bounds
    differ raise [BitArray.binop] in every one of them. *)
Theorem set_operations_correct b c (Hb : wf b) (Hc : wf c) :
  (sameBounds b c = true -> exists o a n d,
     BIbitArray_or b c = Some (Proceed o) /\ BIbitArray_and b c = Some (Proceed a) /\
     BIbitArray_nimpl b c = Some (Proceed n) /\ BIbitArray_disjoint b c = Some (Proceed d) /\
     (wf o /\ same_bounds b o) /\ (wf a /\ same_bounds b a) /\ (wf n /\ same_bounds b n) /\
     (forall v, mem o v = mem b v || mem c v) /\ (forall v, mem a v = mem b v && mem c v) /\
     (forall v, mem n v = mem b v && negb (mem c v)) /\ (d = true <-> forall v, mem b v && mem c v = false)) /\
  (sameBounds b c = false ->
     BIbitArray_or b c = Some (Raise BitArray_binop) /\ BIbitArray_and b c = Some (Raise BitArray_binop) /\
     BIbitArray_nimpl b c = Some (Raise BitArray_binop) /\ BIbitArray_disjoint b c = Some (Raise BitArray_binop)).
Proof.
  unfold BIbitArray_or, BIbitArray_and, BIbitArray_nimpl, BIbitArray_disjoint, binop, same_bounds.
  split; intros Hs; rewrite Hs; [|by split_and!].
  destruct (combine_spec b Hb c Hc Hs Z.lor orb) as (o & Eo & Wo & Lo & Uo & Mo);
    [intros; by apply is_word_lor|intros; apply Z.lor_spec|done|].
  destruct (combine_spec b Hb c Hc Hs Z.land andb) as (a & Ea & Wa & La & Ua & Ma);
    [intros; by apply is_word_land|intros; apply Z.land_spec|done|].
  destruct (combine_spec b Hb c Hc Hs (fun x y => Z.land x (not32 y)) (fun x y => x && negb y))
    as (n & En & Wn & Ln & Un & Mn); [intros; by apply is_word_land| |done|].
  { intros x y j Hj. by rewrite Z.land_spec, testbit_not32 by done. }
  destruct (disjoint_spec b Hb c Hc Hs) as (d & Ed & Hd).
  unfold bor, band, nimpl. exists o, a, n, d. rewrite Eo, Ea, En, Ed. by split_and!.
Qed.

(** an index inside the bounds is tested, set and cleared, by the builtins and by
    feature access alike, without touching another index; an index outside
    raises [BitArray.index] from every one of them, even when the value to be
    stored is undetermined. *)
Theorem index_operations_correct b i (Hb : wf b) :
  (checkBounds b i = true -> exists s c,
     BIbitArray_test b i = Some (Proceed (mem b i)) /\ getFeatureV b (EInt i) = Some (Proceed (mem b i)) /\
     BIbitArray_set b i = Some (Proceed s) /\ putFeatureV b (EInt i) BTrue = Some (Proceed s) /\
     BIbitArray_clear b i = Some (Proceed c) /\ putFeatureV b (EInt i) BFalse = Some (Proceed c) /\
     putFeatureV b (EInt i) BVar = Some Suspend /\ putFeatureV b (EInt i) BOther = Some (Raise (TypeError 2)) /\
     (wf s /\ same_bounds b s) /\ (wf c /\ same_bounds b c) /\
     (forall v, mem s v = mem b v || (v =? i)) /\ (forall v, mem c v = mem b v && negb (v =? i))) /\
  (checkBounds b i = false ->
     BIbitArray_test b i = Some (Raise BitArray_index) /\ getFeatureV b (EInt i) = Some (Raise BitArray_index) /\
     BIbitArray_set b i = Some (Raise BitArray_index) /\ BIbitArray_clear b i = Some (Raise BitArray_index) /\
     forall v, putFeatureV b (EInt i) v = Some (Raise BitArray_index)).
Proof.
  unfold BIbitArray_test, getFeatureV, BIbitArray_set, putFeatureV, BIbitArray_clear, same_bounds.
  split; intros Hi; rewrite Hi; [|by split_and!]. cbn [negb].
  destruct (set_spec b Hb i Hi) as (s & -> & Hs), (clear_spec b Hb i Hi) as (c & -> & Hc).
  rewrite (test_spec b Hb i Hi). ored. exists s, c.
  destruct Hs as (? & ? & ? & ?), Hc as (? & ? & ? & ?). by split_and!.
Qed.

(** [BitArray.toList] lists the set bits in strictly increasing order, each
    once, and [BitArray.card] is the length of that list. *)
Theorem toList_card_correct b (Hb : wf b) :
  exists l, toList b = Some l /\ card b = Some (zlen l) /\ StronglySorted Z.lt l /\
    forall v, v ∈ l <-> mem b v = true.
Proof.
  eexists. split; [by apply toList_spec|]. split; [by apply card_spec|]. split; [apply listing_sorted|].
  intros v. rewrite elem_of_listing. split; [by intros [? _]|]. intros Hv. split; [done|].
  destruct Hb as (? & _ & _ & Hb). specialize (Hb v Hv). lia.
Qed.

(** [BitArray.fromList] of a non-empty list of small integers succeeds, and
    [BitArray.toList] then returns the elements of the list, sorted and without
    duplicates; the empty list is a type error and a list that ends in an
    undetermined tail suspends. *)
Theorem fromList_toList fresh l (Hl : Forall (fun v => OzMinInt <= v <= OzMaxInt) l) :
  (l <> [] -> exists b k, BIbitArray_fromList fresh (int_list l) = Some (Proceed b) /\ wf b /\
     toList b = Some k /\ StronglySorted Z.lt k /\ forall v, v ∈ k <-> v ∈ l) /\
  BIbitArray_fromList fresh LNil = Some (Raise (TypeError 0)) /\
  BIbitArray_fromList fresh LVar = Some Suspend.
Proof.
  split; [|done]. intros Hne.
  destruct (fromList_spec fresh l Hne Hl) as (b & E & Wb & _ & _ & Mb).
  exists b, (listing (mem b) (lowerBound b) (Z.to_nat (upperBound b - lowerBound b + 1))).
  split_and!; [done|done|by apply toList_spec|apply listing_sorted|].
  intros v. rewrite elem_of_listing, <- Mb. split; [by intros [? _]|]. intros Hv. split; [done|].
  destruct Wb as (? & _ & _ & Hw). specialize (Hw v Hv). lia.
Qed.

(** [subsumes] answers yes exactly when the bounds of the first array enclose those
    of the second and every set bit of the second is set in the first; the
    test inside its loop never leaves the bounds. *)
Theorem subsumes_correct this b (Ht : wf this) (Hb : wf b) :
  exists r, subsumes this b = Some r /\
    (r = true <-> lowerBound this <= lowerBound b /\ upperBound b <= upperBound this /\
       forall v, mem b v = true -> mem this v = true).
Proof. by apply subsumes_spec. Qed.

(** [complementToList] lists the cleared bits of the whole last word: as soon as the
    number of bits is not a multiple of the word size, the list holds an index
    above the upper bound. *)
Theorem complementToList_overruns b (Hb : wf b) :
  exists l, complementToList b = Some l /\
    (forall v, v ∈ l <-> mem b v = false /\ lowerBound b <= v < lowerBound b + BITS_PER_INT * getSize b) /\
    (upperBound b + 1 ∈ l <-> (upperBound b - lowerBound b + 1) mod BITS_PER_INT <> 0).
Proof.
  eexists. split; [by apply collect_spec|].
  destruct Hb as (H1 & _ & _ & H4). destruct (getSize_bounds b H1) as (? & ? & ?).
  assert (forall v, v ∈ listing (fun v => negb (mem b v)) (lowerBound b)
      (Z.to_nat (getSize b) * Z.to_nat BITS_PER_INT) <->
    mem b v = false /\ lowerBound b <= v < lowerBound b + BITS_PER_INT * getSize b) as Hl.
  { intros v. rewrite elem_of_listing, negb_true_iff. unfold BITS_PER_INT. lia. }
  split; [done|]. rewrite Hl. unfold BITS_PER_INT. split.
  - intros [_ Hv]. Z.div_mod_to_equations. lia.
  - intros Hv. split; [|Z.div_mod_to_equations; lia].
    destruct (mem b (upperBound b + 1)) eqn:E; [apply H4 in E; lia|done].
Qed.

(** ** Witnesses *)

(** Bits 3, 5 and 40 of the bounds [3 .. 45]; bits 5 and 44 of the same bounds. *)
Definition ba1 : BitArray := BA 3 45 [5; 32].
Definition ba2 : BitArray := BA 3 45 [4; 512].

Lemma example_wf l u ws :
  l <= u -> zlen ws = getSize (BA l u ws) -> forallb (fun w => (0 <=? w) && (w <? 2 ^ 32)) ws = true ->
  forallb (fun k => negb (words_mem ws k)) (seqZ (u - l + 1) (32 * getSize (BA l u ws) - (u - l + 1))) = true ->
  wf (BA l u ws).
Proof.
  intros Hlu Hz Hw Hout. assert (Forall is_word ws) as Hws.
  { apply Forall_forall. intros w Hin. rewrite forallb_forall in Hw. apply list_elem_of_In, Hw in Hin.
    unfold is_word. lia. }
  destruct (getSize_bounds (BA l u ws) Hlu) as (? & ? & ?). cbn [lowerBound upperBound] in *.
  split_and!; try done. intros v Hv. unfold mem in Hv. cbn [lowerBound upperBound array] in *.
  destruct (decide (0 <= v - l < 32 * zlen ws)) as [?|Ho]; [|rewrite words_mem_out in Hv by lia; done].
  destruct (decide (v <= u)); [lia|]. rewrite forallb_forall in Hout.
  specialize (Hout (v - l)). rewrite Hv in Hout. assert (negb true = true) by (apply Hout, list_elem_of_In, elem_of_seqZ; lia).
  done.
Qed.

Lemma ba1_wf : wf ba1.
Proof. by apply example_wf. Qed.
Lemma ba2_wf : wf ba2.
Proof. by apply example_wf. Qed.

Lemma set_operations_witness :
  exists o, BIbitArray_or ba1 ba2 = Some (Proceed o) /\ mem o 44 = true /\ mem o 40 = true /\ mem o 41 = false.
Proof.
  destruct (set_operations_correct ba1 ba2 ba1_wf ba2_wf) as (H & _).
  destruct (H eq_refl) as (o & a & n & d & E & _ & _ & _ & _ & _ & _ & Ho & _).
  exists o. rewrite !Ho. exact (conj E (conj eq_refl (conj eq_refl eq_refl))).
Defined.

Lemma index_operations_witness :
  exists s, BIbitArray_set ba1 44 = Some (Proceed s) /\ mem s 44 = true /\
    BIbitArray_set ba1 46 = Some (Raise BitArray_index).
Proof.
  destruct (index_operations_correct ba1 44 ba1_wf) as (H & _).
  destruct (H eq_refl) as (s & c & _ & _ & E & _ & _ & _ & _ & _ & _ & _ & Hs & _).
  destruct (index_operations_correct ba1 46 ba1_wf) as (_ & H').
  destruct (H' eq_refl) as (_ & _ & E' & _).
  exists s. rewrite Hs. exact (conj E (conj eq_refl E')).
Defined.

Lemma toList_card_witness : exists l, toList ba1 = Some l /\ card ba1 = Some (zlen l) /\ l = [3; 5; 40].
Proof.
  destruct (toList_card_correct ba1 ba1_wf) as (l & E & Ec & _). exists l. split; [exact E|]. split; [exact Ec|].
  vm_compute in E. injection E as <-. reflexivity.
Defined.

Lemma fromList_toList_witness :
  exists b k, BIbitArray_fromList (fun _ => 77) (int_list [9; 2; 40; 9]) = Some (Proceed b) /\
    toList b = Some k /\ k = [2; 9; 40].
Proof.
  destruct (fromList_toList (fun _ => 77) [9; 2; 40; 9]) as (H & _).
  { repeat constructor; vm_compute; discriminate. }
  destruct H as (b & k & E & _ & Ek & _); [discriminate|]. exists b, k. split; [exact E|]. split; [exact Ek|].
  vm_compute in E. injection E as <-. vm_compute in Ek. injection Ek as <-. reflexivity.
Defined.

Lemma subsumes_witness : exists r, subsumes ba1 ba2 = Some r /\ r = false.
Proof.
  destruct (subsumes_correct ba1 ba2 ba1_wf ba2_wf) as (r & E & _). exists r. split; [exact E|].
  vm_compute in E. injection E as <-. reflexivity.
Defined.

Lemma complementToList_witness : exists l, complementToList ba1 = Some l /\ 46 ∈ l.
Proof.
  destruct (complementToList_overruns ba1 ba1_wf) as (l & E & _ & H). exists l. split; [exact E|].
  apply H. vm_compute. discriminate.
Defined.
End BitArray.
