(* ===== verification/MslBuffer.v ===== *)
(** * Message buffers ([msl_buffer.hh], [msl_buffer.cc])

    The buffers of the distribution subsystem: [SimpleBuffer], a byte area with one
    position, [CircularBuffer], a ring with a read and a write position, and
    the two user views of a ring, [DssReadByteBuffer] (frames) and
    [DssWriteByteBuffer] (reserved space).  Pointers into an area are offsets
    from its start; [size_t] and [int] are 32 bits wide. *)
From S2P Require Import Prelude Word32.

Definition is_byte (v : Z) : Prop := 0 <= v < 256.

Definition SIZE_INT : Z := 4.

(** [memcpy] out of, and into, an area. *)
Definition slice (l : list Z) (off n : Z) : option (list Z) :=
  if (0 <=? off) && (0 <=? n) && (off + n <=? zlen l) then Some (take (Z.to_nat n) (drop (Z.to_nat off) l))
  else None.

Definition blit (l : list Z) (off : Z) (data : list Z) : option (list Z) :=
  if (0 <=? off) && (off + zlen data <=? zlen l) then
    Some (take (Z.to_nat off) l ++ data ++ drop (Z.to_nat (off + zlen data)) l)
  else None.

(** [gf_integer2char] and [gf_char2integer]. *)
Definition gf_integer2char (buf : list Z) (pos e : Z) : option (list Z) :=
  b ← buf.[pos <- e mod 256];
  b ← b.[pos + 1 <- Z.shiftr e 8 mod 256];
  b ← b.[pos + 2 <- Z.shiftr e 16 mod 256];
  b.[pos + 3 <- Z.shiftr e 24 mod 256].

Definition gf_char2integer (buf : list Z) (pos : Z) : option Z :=
  b0 ← buf.[pos]; b1 ← buf.[pos + 1]; b2 ← buf.[pos + 2]; b3 ← buf.[pos + 3];
  Some (Z.lor (Z.lor (Z.lor (shl32 b3 24) (shl32 b2 16)) (shl32 b1 8)) b0).

(** ** Bytes of an integer *)

Definition byte_of (i k : Z) : Z := Z.shiftr i (8 * k) mod 256.
Definition le_bytes (i : Z) : list Z := [byte_of i 0; byte_of i 1; byte_of i 2; byte_of i 3].

Lemma testbit_byte_of i k j : 0 <= k -> 0 <= j -> Z.testbit (byte_of i k) j = (j <? 8) && Z.testbit i (8 * k + j).
Proof.
  intros Hk Hj. unfold byte_of. change 256 with (2 ^ 8). destruct (Z.ltb_spec j 8); simpl.
  - rewrite Z.mod_pow2_bits_low, Z.shiftr_spec by lia. f_equal. lia.
  - apply Z.mod_pow2_bits_high. lia.
Qed.

Lemma byte_of_bound i k : is_byte (byte_of i k).
Proof. unfold is_byte, byte_of. apply Z.mod_pos_bound. lia. Qed.

Lemma is_word_byte v : is_byte v -> is_word v.
Proof. unfold is_byte, is_word. lia. Qed.

(** The two ways the code takes the bytes out, and puts them together. *)
Lemma asr32_byte w k : is_word w -> 0 <= k <= 3 -> Z.land (asr32 w (8 * k)) 0xFF = byte_of w k.
Proof.
  intros Hw Hk. apply word_ext; [apply is_word_land, is_word_asr32|apply is_word_byte, byte_of_bound|].
  intros j Hj. rewrite Z.land_spec, testbit_asr32, testbit_byte_of by (done || lia).
  change 0xFF with (Z.ones 8). rewrite Z.testbit_ones_nonneg by lia. destruct (Z.ltb_spec j 8); simpl.
  - rewrite andb_true_r. f_equal. lia.
  - apply andb_false_r.
Qed.

Lemma asr32_asr32 w k m : is_word w -> 0 <= k -> 0 <= m -> asr32 (asr32 w k) m = asr32 w (k + m).
Proof.
  intros Hw Hk Hm. apply word_ext; [apply is_word_asr32..|]. intros j Hj.
  rewrite !testbit_asr32; try apply is_word_asr32; try done; try lia. f_equal. lia.
Qed.

Lemma le_int_bits (i b0 b1 b2 b3 j : Z) :
  0 <= j < 32 -> b0 = byte_of i 0 -> b1 = byte_of i 1 -> b2 = byte_of i 2 -> b3 = byte_of i 3 ->
  Z.testbit b0 j || Z.testbit (shl32 b1 8) j || Z.testbit (shl32 b2 16) j || Z.testbit (shl32 b3 24) j = Z.testbit i j.
Proof.
  intros Hj -> -> -> ->. rewrite !testbit_shl32 by lia.
  assert (forall k, 0 <= k -> (8 * k <=? j) && Z.testbit (byte_of i k) (j - 8 * k) =
    (8 * k <=? j) && (j <? 8 * k + 8) && Z.testbit i j) as H.
  { intros k Hk. destruct (Z.leb_spec (8 * k) j); simpl; [|done]. rewrite testbit_byte_of by lia.
    replace (8 * k + (j - 8 * k)) with j by lia. f_equal. lia. }
  pose proof (H 1) as H1. pose proof (H 2) as H2. pose proof (H 3) as H3. change (8 * 1) with 8 in H1. change (8 * 2) with 16 in H2. change (8 * 3) with 24 in H3.
  rewrite H1, H2, H3 by lia. rewrite testbit_byte_of by lia.
  destruct (Z.ltb_spec j 8), (Z.leb_spec 8 j), (Z.leb_spec 16 j), (Z.leb_spec 24 j), (Z.ltb_spec j (8 + 8)),
    (Z.ltb_spec j (16 + 8)), (Z.ltb_spec j (24 + 8)); try lia; simpl; rewrite ?orb_false_r; done.
Qed.

Lemma le_bytes_roundtrip buf pos i :
  is_word i -> 0 <= pos -> pos + 4 <= zlen buf ->
  exists b, gf_integer2char buf pos i = Some b /\ zlen b = zlen buf /\ gf_char2integer b pos = Some i /\
    (forall k, 0 <= k < 4 -> b.[pos + k] = Some (byte_of i k)) /\
    (forall k, k < pos \/ pos + 4 <= k -> b.[k] = buf.[k]).
Proof.
  intros Hi Hp Hl. unfold gf_integer2char.
  repeat (rewrite aset_Some by (rewrite ?zlen_insert; lia); ored).
  eexists; split; [done|]. split; [by rewrite !zlen_insert|].
  match goal with |- gf_char2integer ?b _ = _ /\ _ => set (a := b) end.
  assert (forall k, a.[k] = if k =? pos + 3 then Some (byte_of i 3) else if k =? pos + 2 then Some (byte_of i 2)
    else if k =? pos + 1 then Some (byte_of i 1) else if k =? pos then Some (byte_of i 0) else buf.[k]) as Ha.
  { intros k. subst a. rewrite !aget_insert by (rewrite ?zlen_insert; lia).
    unfold byte_of. rewrite Z.shiftr_0_r. simpl (8 * _).
    destruct (Z.eqb_spec (pos + 3) k), (Z.eqb_spec k (pos + 3)), (Z.eqb_spec (pos + 2) k), (Z.eqb_spec k (pos + 2)),
      (Z.eqb_spec (pos + 1) k), (Z.eqb_spec k (pos + 1)), (Z.eqb_spec pos k), (Z.eqb_spec k pos); try lia; done. }
  clearbody a. split_and!.
  - unfold gf_char2integer. rewrite !Ha, !Z.eqb_refl.
    repeat match goal with |- context [?x =? ?y] => rewrite (proj2 (Z.eqb_neq x y)) by lia end. ored. f_equal.
    apply word_ext; [|done|].
    { repeat apply is_word_lor; try apply is_word_shl32. apply is_word_byte, byte_of_bound. }
    intros j Hj. rewrite !Z.lor_spec, <- (le_int_bits i _ _ _ _ j Hj eq_refl eq_refl eq_refl eq_refl).
    repeat match goal with |- context [Z.testbit ?x j] => generalize (Z.testbit x j) end. by intros [] [] [] [].
  - intros k Hk. rewrite Ha. repeat case_match; try lia; repeat f_equal; lia.
  - intros k Hk. rewrite Ha. repeat case_match; lia || done.
Qed.

(** ** [SimpleBuffer] *)

Module SimpleBuffer.
Record SimpleBuffer := SB { buf : list Z; pos : Z }.

Definition hook (b : list Z) : SimpleBuffer := SB b 0.
Definition drop (b : SimpleBuffer) : SimpleBuffer := SB [] 0.
Definition unhook (b : SimpleBuffer) : list Z * SimpleBuffer := (buf b, drop b).
Definition getSize (b : SimpleBuffer) : Z := zlen (buf b).
Definition getUsed (b : SimpleBuffer) : Z := pos b.
Definition getFree (b : SimpleBuffer) : Z := w32 (getSize b - pos b).
Definition rewindPos (b : SimpleBuffer) : SimpleBuffer := SB (buf b) 0.

Definition m_getByte (b : SimpleBuffer) : option (Z * SimpleBuffer) :=
  v ← (buf b).[pos b]; Some (v, SB (buf b) (pos b + 1)).
Definition m_putByte (b : SimpleBuffer) (v : Z) : option SimpleBuffer :=
  a ← (buf b).[pos b <- v]; Some (SB a (pos b + 1)).
Definition m_getInt (b : SimpleBuffer) : option (Z * SimpleBuffer) :=
  i ← gf_char2integer (buf b) (pos b); Some (i, SB (buf b) (pos b + SIZE_INT)).
Definition m_putInt (b : SimpleBuffer) (i : Z) : option SimpleBuffer :=
  a ← gf_integer2char (buf b) (pos b) i; Some (SB a (pos b + SIZE_INT)).
Definition m_read (b : SimpleBuffer) (len : Z) : option (list Z) := slice (buf b) (pos b) len.
Definition m_write (b : SimpleBuffer) (data : list Z) : option SimpleBuffer :=
  a ← blit (buf b) (pos b) data; Some (SB a (pos b)).
Definition m_commit (b : SimpleBuffer) (len : Z) : SimpleBuffer := SB (buf b) (pos b + len).

(** [DssSimpleReadBuffer::m_readOutBuffer], [DssSimpleWriteBuffer::writeToBuffer]
    and the two tests of the available room. *)
Definition m_readOutBuffer (b : SimpleBuffer) (len : Z) : option (list Z * SimpleBuffer) :=
  d ← m_read b len; Some (d, m_commit b len).
Definition writeToBuffer (b : SimpleBuffer) (data : list Z) : option SimpleBuffer :=
  b ← m_write b data; Some (m_commit b (zlen data)).
Definition canRead (b : SimpleBuffer) (len : Z) : bool := len <=? getFree b.
Definition canWrite (b : SimpleBuffer) (len : Z) : bool := len <=? getFree b.
End SimpleBuffer.

(** ** [CircularBuffer] *)

Module CircularBuffer.
Record CircularBuffer := CB { buf : list Z; getpos : Z; putpos : Z; used : Z }.

Definition getSize (b : CircularBuffer) : Z := zlen (buf b).
Definition getUsed (b : CircularBuffer) : Z := used b.
Definition getFree (b : CircularBuffer) : Z := w32 (getSize b - used b).

Definition newCircularBuffer (b : list Z) : CircularBuffer := CB b 0 0 0.
Definition reinit (b : CircularBuffer) : CircularBuffer := CB (buf b) 0 0 0.
Definition checkPos (b : CircularBuffer) (pos : Z) : Z := if getSize b <=? pos then pos - getSize b else pos.

Definition m_getByte (b : CircularBuffer) : option (Z * CircularBuffer) :=
  v ← (buf b).[getpos b];
  Some (v, CB (buf b) (checkPos b (getpos b + 1)) (putpos b) (w32 (used b - 1))).

Definition m_putByte (b : CircularBuffer) (v : Z) : option CircularBuffer :=
  a ← (buf b).[putpos b <- v];
  Some (CB a (getpos b) (checkPos b (putpos b + 1)) (w32 (used b + 1))).

(** Integers, in little endian. *)
Definition m_getInt (b : CircularBuffer) : option (Z * CircularBuffer) :=
  for_up 0 (Z.to_nat SIZE_INT) (fun k s =>
    let '(i, b) := s in
    '(v, b) ← m_getByte b; Some (Z.lor i (shl32 v (k * 8)), b)) (0, b).

Definition m_putInt (b : CircularBuffer) (i : Z) : option CircularBuffer :=
  '(_, b) ← for_up 0 (Z.to_nat SIZE_INT) (fun _ s =>
    let '(i, b) := s in
    b ← m_putByte b (Z.land i 0xFF); Some (asr32 i 8, b)) (i, b);
  Some b.

(** [m_putInt(BYTE*, int)]: overwrites without moving a position. *)
Definition m_putInt_at (b : CircularBuffer) (pos i : Z) : option CircularBuffer :=
  '(_, _, a) ← for_up 0 (Z.to_nat SIZE_INT) (fun _ s =>
    let '(pos, i, a) := s in
    a ← aset a pos (Z.land i 0xFF); Some (checkPos b (pos + 1), asr32 i 8, a)) (pos, i, buf b);
  Some (CB a (getpos b) (putpos b) (used b)).

Definition m_read (b : CircularBuffer) (len : Z) : option (list Z) :=
  if len <=? used b then
    if getpos b + len <=? getSize b then slice (buf b) (getpos b) len
    else
      let chunk := getSize b - getpos b in
      d1 ← slice (buf b) (getpos b) chunk;
      d2 ← slice (buf b) 0 (len - chunk);
      Some (d1 ++ d2)
  else None.

Definition m_write (b : CircularBuffer) (data : list Z) : option CircularBuffer :=
  let len := zlen data in
  if len <=? getFree b then
    a ← (if putpos b + len <=? getSize b then blit (buf b) (putpos b) data
         else
           let chunk := getSize b - putpos b in
           a ← blit (buf b) (putpos b) (take (Z.to_nat chunk) data);
           blit a 0 (drop (Z.to_nat chunk) data));
    Some (CB a (getpos b) (putpos b) (used b))
  else None.

Definition m_commitRead (b : CircularBuffer) (len : Z) : CircularBuffer :=
  let used' := w32 (used b - len) in
  let pos := checkPos b (getpos b + (if 0 <=? len then len else w32 (len + getSize b))) in
  if used' =? 0 then reinit b else CB (buf b) pos (putpos b) used'.

Definition m_commitWrite (b : CircularBuffer) (len : Z) : CircularBuffer :=
  let pos := checkPos b (putpos b + (if 0 <=? len then len else w32 (len + getSize b))) in
  CB (buf b) (getpos b) pos (w32 (used b + len)).

Definition min (a b : Z) : Z := if a <=? b then a else b.

(** The position of the block and its length. *)
Definition getReadBlock (b : CircularBuffer) : Z * Z := (getpos b, min (s32 (getUsed b)) (getSize b - getpos b)).
Definition getWriteBlock (b : CircularBuffer) : Z * Z := (putpos b, min (s32 (getFree b)) (getSize b - putpos b)).

(** ** The user views of a ring *)

(** [DssReadByteBuffer]: [outerframe] bytes at the end are hidden from the user. *)
Record DssReadByteBuffer := RB { rcb : CircularBuffer; outerframe : Z }.

Definition setFrameSize (b : DssReadByteBuffer) (sz : Z) : DssReadByteBuffer := RB (rcb b) (w32 (getUsed (rcb b) - sz)).
Definition resetFrame (b : DssReadByteBuffer) : DssReadByteBuffer := RB (rcb b) 0.
Definition availableData (b : DssReadByteBuffer) : Z := w32 (getUsed (rcb b) - outerframe b).
Definition canRead (b : DssReadByteBuffer) (len : Z) : bool := len <=? availableData b.
Definition readFromBuffer (b : DssReadByteBuffer) (len : Z) : option (list Z) := m_read (rcb b) len.
Definition commitRead (b : DssReadByteBuffer) (len : Z) : DssReadByteBuffer :=
  RB (m_commitRead (rcb b) (s32 len)) (outerframe b).
Definition getByte (b : DssReadByteBuffer) : option (Z * DssReadByteBuffer) :=
  '(v, c) ← m_getByte (rcb b); Some (v, RB c (outerframe b)).

(** [DssWriteByteBuffer]: [reserved] bytes of the room are kept back. *)
Record DssWriteByteBuffer := WB { wcb : CircularBuffer; reserved : Z }.

Definition reserveSpace (b : DssWriteByteBuffer) (len : Z) : DssWriteByteBuffer := WB (wcb b) (w32 (reserved b + len)).
Definition resetReserve (b : DssWriteByteBuffer) : DssWriteByteBuffer := WB (wcb b) 0.
Definition availableSpace (b : DssWriteByteBuffer) : Z := w32 (getFree (wcb b) - reserved b).
Definition canWrite (b : DssWriteByteBuffer) (len : Z) : bool := len <=? availableSpace b.
Definition writeToBuffer (b : DssWriteByteBuffer) (data : list Z) : option DssWriteByteBuffer :=
  c ← m_write (wcb b) data; Some (WB (m_commitWrite c (s32 (w32 (zlen data)))) (reserved b)).
Definition putByte (b : DssWriteByteBuffer) (v : Z) : option DssWriteByteBuffer :=
  c ← m_putByte (wcb b) v; Some (WB c (reserved b)).

(** ** The ring as a sequence *)

(** The cell [k] places after [p], and the [n] cells from [p] on. *)
Definition ring_at (a : list Z) (p k : Z) : Z := default 0 (a.[(p + k) mod zlen a]).
Definition segment (a : list Z) (p n : Z) : list Z := ring_at a p <$> seqZ 0 n.

(** What the buffer holds, the oldest byte first. *)
Definition contents (b : CircularBuffer) : list Z := segment (buf b) (getpos b) (used b).

(** The invariant documented in [msl_buffer.hh]. *)
Definition wf (b : CircularBuffer) : Prop :=
  0 < getSize b < 2 ^ 31 /\ 0 <= getpos b < getSize b /\ 0 <= putpos b < getSize b /\
  0 <= used b <= getSize b /\ putpos b = (getpos b + used b) mod getSize b.

Lemma w32_small n : 0 <= n < 2 ^ 32 -> w32 n = n.
Proof. intros. by apply Z.mod_small. Qed.

Lemma s32_w32_small n : 0 <= n < 2 ^ 31 -> s32 (w32 n) = n.
Proof. intros. rewrite w32_small by lia. unfold s32. zbool. Qed.

Lemma zlen_segment a p n : 0 <= n -> zlen (segment a p n) = n.
Proof. intros. unfold segment, zlen. rewrite length_fmap, length_seqZ. lia. Qed.

Lemma aget_segment a p n k : 0 <= k < n -> (segment a p n).[k] = Some (ring_at a p k).
Proof.
  intros Hk. unfold segment, aget. rewrite (proj2 (Z.leb_le 0 k)) by lia.
  rewrite list_lookup_fmap, lookup_seqZ_lt by lia. simpl. do 2 f_equal. lia.
Qed.

Lemma segment_ext a a' p p' n :
  (forall k, 0 <= k < n -> ring_at a p k = ring_at a' p' k) -> segment a p n = segment a' p' n.
Proof.
  intros H. unfold segment. apply list_fmap_ext. intros i k Hk. apply lookup_seqZ in Hk. apply H. lia.
Qed.

Lemma segment_app a p n m : 0 <= n -> 0 <= m -> segment a p (n + m) = segment a p n ++ segment a (p + n) m.
Proof.
  intros Hn Hm. unfold segment. rewrite seqZ_app, fmap_app by lia. f_equal.
  replace (seqZ (0 + n) m) with (Z.add n <$> seqZ 0 m) by (rewrite fmap_add_seqZ; f_equal; lia).
  rewrite <- list_fmap_compose. apply list_fmap_ext. intros i k _. unfold ring_at. simpl.
  by rewrite Z.add_assoc.
Qed.

Lemma ring_at_wrap a p k : 0 < zlen a -> ring_at a (p - zlen a) k = ring_at a p k.
Proof.
  intros Ha. unfold ring_at. replace (p - zlen a + k) with (p + k + (-1) * zlen a) by lia.
  by rewrite Z_mod_plus_full.
Qed.

Lemma ring_at_shift a p k j : ring_at a (p + j) k = ring_at a p (j + k).
Proof. unfold ring_at. by rewrite Z.add_assoc. Qed.

Lemma ring_at_mod a p k : 0 < zlen a -> ring_at a (p mod zlen a) k = ring_at a p k.
Proof. intros Ha. unfold ring_at. by rewrite Z.add_mod_idemp_l by lia. Qed.

Lemma ring_at_period a p k : 0 < zlen a -> ring_at a p (k mod zlen a) = ring_at a p k.
Proof. intros Ha. unfold ring_at. by rewrite Z.add_mod_idemp_r by lia. Qed.

(** [pos] modulo the size, for the positions [checkPos] is given. *)
Lemma checkPos_mod b p : 0 <= p < 2 * getSize b -> checkPos b p = p mod getSize b.
Proof.
  intros Hp. unfold checkPos. destruct (Z.leb_spec (getSize b) p).
  - replace p with (p - getSize b + 1 * getSize b) at 2 by lia.
    rewrite Z_mod_plus_full, Z.mod_small by lia. done.
  - by rewrite Z.mod_small by lia.
Qed.

Lemma slice_segment a off n :
  0 < zlen a -> 0 <= off -> 0 <= n -> off + n <= zlen a -> slice a off n = Some (segment a off n).
Proof.
  intros Ha Ho Hn Hl. unfold slice. rewrite !(proj2 (Z.leb_le _ _)) by lia. simpl. f_equal.
  assert (zlen (take (Z.to_nat n) (drop (Z.to_nat off) a)) = n) as Hz.
  { unfold zlen in *. rewrite length_take, length_drop. lia. }
  apply aget_ext; [by rewrite zlen_segment|]. rewrite Hz. intros i Hi.
  rewrite aget_segment, aget_take by lia. unfold ring_at. rewrite Z.mod_small by lia.
  destruct (aget_Some a (off + i)) as [v Hv]; [lia|]. rewrite Hv. simpl. unfold aget in *.
  rewrite (proj2 (Z.leb_le 0 _)) in Hv by lia. rewrite (proj2 (Z.leb_le 0 _)) by lia.
  rewrite lookup_drop, <- Hv. f_equal. lia.
Qed.

(** [a'] is the ring [a] with [data] written from [p] on. *)
Definition ring_write (a : list Z) (p : Z) (data a' : list Z) : Prop :=
  zlen a' = zlen a /\
  forall k, 0 <= k < zlen a -> ring_at a' p k = if k <? zlen data then default 0 (data.[k]) else ring_at a p k.

Lemma ring_write_cells a p data a' :
  0 <= p < zlen a -> zlen a' = zlen a ->
  (forall k, 0 <= k < zlen a ->
     a'.[(p + k) mod zlen a] = if k <? zlen data then data.[k] else a.[(p + k) mod zlen a]) ->
  ring_write a p data a'.
Proof.
  intros Hp Hz H. split; [done|]. intros k Hk. unfold ring_at. rewrite Hz, H by done. by destruct (k <? zlen data).
Qed.

Lemma aget_blit a off data :
  0 <= off -> off + zlen data <= zlen a ->
  exists a', blit a off data = Some a' /\ zlen a' = zlen a /\
    forall i, a'.[i] = if (off <=? i) && (i <? off + zlen data) then data.[i - off] else a.[i].
Proof.
  intros Ho Hl. unfold blit. rewrite !(proj2 (Z.leb_le _ _)) by lia. simpl. eexists; split; [done|].
  pose proof (zlen_nonneg data). assert (zlen (take (Z.to_nat off) a) = off) as Hz by (apply zlen_take; lia).
  assert (zlen (drop (Z.to_nat (off + zlen data)) a) = zlen a - (off + zlen data)) as Hd
    by (unfold zlen in *; rewrite length_drop; lia).
  split; [rewrite !zlen_app, Hz, Hd; lia|]. intros i.
  destruct (Z.leb_spec off i) as [H1|H1]; simpl.
  - rewrite aget_app_r by lia. rewrite Hz. destruct (Z.ltb_spec i (off + zlen data)) as [H2|H2].
    + by rewrite aget_app_l by lia.
    + rewrite aget_app_r by lia. unfold aget. rewrite !(proj2 (Z.leb_le 0 _)) by lia.
      rewrite lookup_drop. f_equal. unfold zlen in *. lia.
  - rewrite aget_app_l by lia. by rewrite aget_take by lia.
Qed.

(** The position [k] places after [p] when the ring has [n] cells. *)
Lemma wrap_pos p k n : 0 <= p < n -> 0 <= k <= n -> (p + k) mod n = if p + k <? n then p + k else p + k - n.
Proof.
  intros Hp Hk. destruct (Z.ltb_spec (p + k) n); [by rewrite Z.mod_small by lia|].
  replace (p + k) with (p + k - n + 1 * n) at 1 by lia. rewrite Z_mod_plus_full, Z.mod_small by lia. done.
Qed.

Lemma ring_write_prefix a p data a' k :
  ring_write a p data a' -> 0 < zlen a -> 0 <= k -> k + zlen data <= zlen a ->
  segment a' (p - k) k = segment a (p - k) k /\ segment a' p (zlen data) = data.
Proof.
  intros [Hz Hw] Ha Hk Hkn. pose proof (zlen_nonneg data). split.
  - apply segment_ext. intros j Hj.
    assert (forall c, zlen c = zlen a -> ring_at c (p - k) j = ring_at c p (zlen a - k + j)) as Hs.
    { intros c Hc. replace (p - k) with (p + (zlen a - k) - zlen c) by lia.
      by rewrite ring_at_wrap, ring_at_shift by lia. }
    rewrite !Hs by done. rewrite Hw by lia. destruct (Z.ltb_spec (zlen a - k + j) (zlen data)); [lia|done].
  - apply aget_ext; [by apply zlen_segment|]. rewrite zlen_segment by auto. intros i Hi.
    rewrite aget_segment, Hw by lia. destruct (Z.ltb_spec i (zlen data)); [|lia].
    destruct (aget_Some data i) as [v ->]; done.
Qed.

(** ** Operations *)

(** Moving the two positions forwards. *)
Definition advance (b : CircularBuffer) (n : Z) : CircularBuffer :=
  CB (buf b) ((getpos b + n) mod getSize b) (putpos b) (used b - n).
Definition extend (b : CircularBuffer) (a : list Z) (n : Z) : CircularBuffer :=
  CB a (getpos b) ((putpos b + n) mod getSize b) (used b + n).

Lemma advance_advance b n m : 0 < getSize b -> advance (advance b n) m = advance b (n + m).
Proof.
  intros Hs. unfold advance, getSize in *. cbn [buf getpos putpos used]. f_equal; [|lia].
  rewrite Z.add_mod_idemp_l by lia. f_equal. lia.
Qed.

Section operations.
Context (b : CircularBuffer) (Hb : wf b).

Lemma segment_put n : segment (buf b) (putpos b - used b) n = segment (buf b) (getpos b) n.
Proof using Hb.
  destruct Hb as (Hs & _ & _ & _ & Hp). unfold getSize in *. apply segment_ext. intros k _.
  unfold ring_at. rewrite Hp, <- Z.add_sub_swap, <- Z.add_sub_assoc.
  rewrite Z.add_mod_idemp_l by lia. do 2 f_equal. f_equal. lia.
Qed.

(** Reading at the head. *)
Lemma advance_wf n : 0 <= n <= used b -> wf (advance b n) /\ contents b = segment (buf b) (getpos b) n ++ contents (advance b n).
Proof using Hb.
  intros Hn. destruct Hb as (Hs & Hg & Hp & Hu & Hpos). unfold getSize in *. split.
  - unfold wf, advance, getSize. cbn [buf getpos putpos used].
    pose proof (Z.mod_pos_bound (getpos b + n) (zlen (buf b))). split_and!; try lia.
    rewrite Z.add_mod_idemp_l by lia. rewrite Hpos. f_equal. lia.
  - unfold contents, advance, getSize. cbn [buf getpos used].
    replace (used b) with (n + (used b - n)) at 1 by lia. rewrite segment_app by lia. f_equal.
    apply segment_ext. intros k _. by rewrite ring_at_mod by lia.
Qed.

(** Writing a block at the tail, and taking the first part of it in. *)
Lemma extend_wf a data rest :
  ring_write (buf b) (putpos b) (data ++ rest) a -> used b + zlen (data ++ rest) <= getSize b ->
  wf (extend b a (zlen data)) /\ contents (extend b a (zlen data)) = contents b ++ data.
Proof using Hb.
  intros Hw Hl. pose proof Hb as (Hs & Hg & Hp & Hu & Hpos).
  pose proof (zlen_nonneg data). pose proof (zlen_nonneg rest). unfold getSize in *.
  destruct (ring_write_prefix _ _ _ _ (used b) Hw) as [E1 E2]; [lia..|]. destruct Hw as [Hz Hw].
  rewrite zlen_app in Hl, E2. rewrite segment_app in E2 by lia.
  apply app_inj_1 in E2 as [E2 _]; [|pose proof (zlen_segment a (putpos b) (zlen data)); unfold zlen in *; lia]. split.
  - unfold wf, extend, getSize. cbn [buf getpos putpos used]. rewrite Hz.
    pose proof (Z.mod_pos_bound (putpos b + zlen data) (zlen (buf b))). split_and!; try lia.
    rewrite Hpos, Z.add_mod_idemp_l by lia. f_equal. lia.
  - unfold contents, extend, getSize. cbn [buf getpos used]. rewrite segment_app by lia. f_equal.
    + rewrite <- segment_put, <- E1. symmetry. apply segment_ext. intros k _.
      unfold ring_at. rewrite Hpos, <- Hz, <- Z.add_sub_swap, <- Z.add_sub_assoc.
      rewrite Z.add_mod_idemp_l by lia. do 2 f_equal. f_equal. lia.
    + rewrite <- E2 at 2. apply segment_ext. intros k _.
      unfold ring_at. rewrite Hpos, <- Hz, Z.add_mod_idemp_l by lia. done.
Qed.

Lemma m_getByte_spec : 0 < used b -> m_getByte b = Some (ring_at (buf b) (getpos b) 0, advance b 1).
Proof using Hb.
  intros Hu. destruct Hb as (Hs & Hg & _ & Hu' & _). unfold m_getByte, ring_at, getSize in *.
  rewrite Z.add_0_r, Z.mod_small by lia. destruct (aget_Some (buf b) (getpos b)) as [v ->]; [lia|]. ored.
  unfold advance. rewrite checkPos_mod by (unfold getSize; lia). unfold w32. rewrite (Z.mod_small (used b - 1)) by lia.
  done.
Qed.

Lemma m_putByte_spec v :
  used b < getSize b -> exists a, m_putByte b v = Some (extend b a 1) /\ ring_write (buf b) (putpos b) [v] a.
Proof using Hb.
  intros Hu. destruct Hb as (Hs & _ & Hp & Hu' & _). unfold m_putByte. unfold getSize in *.
  rewrite aset_Some by lia. ored. eexists. split.
  - unfold extend. rewrite checkPos_mod by (unfold getSize; lia). unfold w32.
    rewrite (Z.mod_small (used b + 1)) by lia. done.
  - apply ring_write_cells; [lia|apply zlen_insert|]. intros k Hk. change (zlen [v]) with 1.
    rewrite aget_insert, wrap_pos by lia.
    destruct (Z.ltb_spec (putpos b + k) (zlen (buf b))), (Z.ltb_spec k 1); zbool.
    replace k with 0 by lia. done.
Qed.

Lemma getFree_eq : getFree b = getSize b - used b.
Proof using Hb. destruct Hb as (? & _ & _ & ? & _). unfold getFree, w32. apply Z.mod_small. lia. Qed.

Lemma m_read_spec len : 0 <= len <= used b -> m_read b len = Some (segment (buf b) (getpos b) len).
Proof using Hb.
  intros Hl. destruct Hb as (Hs & Hg & _ & Hu & _). unfold m_read. unfold getSize in *.
  rewrite (proj2 (Z.leb_le len _)) by lia. destruct (Z.leb_spec (getpos b + len) (zlen (buf b))).
  - apply slice_segment; lia.
  - rewrite !slice_segment by lia. ored. f_equal.
    replace len with (zlen (buf b) - getpos b + (len - (zlen (buf b) - getpos b))) at 2 by lia.
    rewrite segment_app by lia. f_equal. apply segment_ext. intros k _.
    replace (getpos b + (zlen (buf b) - getpos b)) with (zlen (buf b)) by lia.
    rewrite <- (ring_at_wrap _ (zlen (buf b))) by lia. f_equal. lia.
Qed.

(** The two-part write of a block that does not fit before the end. *)
Lemma ring_write_blit data :
  zlen data <= getSize b ->
  exists a, (if putpos b + zlen data <=? getSize b then blit (buf b) (putpos b) data
     else a ← blit (buf b) (putpos b) (take (Z.to_nat (getSize b - putpos b)) data);
          blit a 0 (drop (Z.to_nat (getSize b - putpos b)) data)) = Some a /\
    ring_write (buf b) (putpos b) data a.
Proof using Hb.
  intros Hl. destruct Hb as (Hs & _ & Hp & _). unfold getSize in *. pose proof (zlen_nonneg data).
  destruct (Z.leb_spec (putpos b + zlen data) (zlen (buf b))) as [Hc|Hc].
  - destruct (aget_blit (buf b) (putpos b) data) as (a & -> & Hz & Ha); [lia|lia|].
    exists a. split; [done|]. apply ring_write_cells; [done|done|]. intros k Hk.
    rewrite Ha, wrap_pos by lia. destruct (Z.ltb_spec (putpos b + k) (zlen (buf b))), (Z.ltb_spec k (zlen data)); zbool.
    f_equal. lia.
  - set (c := zlen (buf b) - putpos b) in *.
    assert (zlen (take (Z.to_nat c) data) = c) as Ht by (apply zlen_take; lia).
    assert (zlen (drop (Z.to_nat c) data) = zlen data - c) as Hd by (unfold zlen in *; rewrite length_drop; lia).
    destruct (aget_blit (buf b) (putpos b) (take (Z.to_nat c) data)) as (a1 & -> & Hz1 & Ha1); [lia|lia|]. ored.
    destruct (aget_blit a1 0 (drop (Z.to_nat c) data)) as (a & -> & Hz & Ha); [lia|lia|].
    exists a. split; [done|]. apply ring_write_cells; [done|lia|]. intros k Hk.
    rewrite Ha, Ha1, Ht, Hd, wrap_pos by lia.
    destruct (Z.ltb_spec (putpos b + k) (zlen (buf b))), (Z.ltb_spec k (zlen data)); zbool.
    + rewrite aget_take by lia. f_equal. lia.
    + unfold aget. rewrite !(proj2 (Z.leb_le 0 _)) by lia. rewrite lookup_drop. f_equal. lia.
Qed.

Lemma m_write_spec data :
  zlen data <= getSize b - used b ->
  exists a, m_write b data = Some (CB a (getpos b) (putpos b) (used b)) /\ ring_write (buf b) (putpos b) data a.
Proof using Hb.
  intros Hl. unfold m_write. rewrite getFree_eq, (proj2 (Z.leb_le (zlen data) _)) by lia.
  destruct (ring_write_blit data) as (a & E & Hw); [destruct Hb; lia|]. exists a. split; [|done].
  revert E. cbv zeta. intros ->. done.
Qed.

Lemma m_commitRead_spec n :
  0 <= n <= used b -> exists b', m_commitRead b n = b' /\ wf b' /\ getSize b' = getSize b /\
    used b' = used b - n /\ contents b = segment (buf b) (getpos b) n ++ contents b'.
Proof using Hb.
  intros Hn. eexists; split; [done|]. destruct (advance_wf n Hn) as [Hwf Hc]. rewrite Hc at 1. clear Hc.
  destruct Hb as (Hs & Hg & Hp & Hu & Hpos). unfold m_commitRead. rewrite (proj2 (Z.leb_le 0 n)) by lia.
  unfold w32. rewrite (Z.mod_small (used b - n)) by lia. rewrite checkPos_mod by lia.
  destruct (Z.eqb_spec (used b - n) 0) as [E|E]; [|by split_and!].
  unfold wf, contents, advance, reinit, getSize in *. cbn [buf getpos putpos used]. rewrite E.
  split_and!; try done; try lia.
Qed.

Lemma m_commitWrite_spec a n :
  zlen a = getSize b -> 0 <= n <= getSize b - used b ->
  m_commitWrite (CB a (getpos b) (putpos b) (used b)) n = extend b a n.
Proof using Hb.
  intros Hz Hn. destruct Hb as (Hs & Hg & Hp & Hu & Hpos). unfold m_commitWrite, extend.
  cbn [buf getpos putpos used]. rewrite (proj2 (Z.leb_le 0 n)) by lia.
  rewrite checkPos_mod by (unfold getSize at 1; cbn [buf]; lia). unfold w32.
  rewrite (Z.mod_small (used b + n)) by lia. unfold getSize at 1. cbn [buf]. by rewrite Hz.
Qed.

(** A negative count moves the read position back over bytes just read. *)
Lemma m_commitRead_unread n :
  0 < n <= used b -> m_commitRead (advance b n) (- n) = b.
Proof using Hb.
  intros Hn. destruct Hb as (Hs & Hg & Hp & Hu & Hpos). unfold m_commitRead, advance.
  cbn [buf getpos putpos used]. rewrite (proj2 (Z.leb_gt 0 (- n))) by lia. unfold w32.
  rewrite (Z.mod_small (used b - n - - n)) by lia. rewrite (proj2 (Z.eqb_neq _ 0)) by lia.
  unfold getSize in *. cbn [buf].
  rewrite (Z.mod_small (- n + _)) by lia. pose proof (Z.mod_pos_bound (getpos b + n) (zlen (buf b))).
  rewrite checkPos_mod; unfold getSize; cbn [buf]; [|lia].
  rewrite Z.add_mod_idemp_l by lia. replace (getpos b + n + (- n + zlen (buf b))) with (getpos b + 1 * zlen (buf b)) by lia.
  rewrite Z_mod_plus_full, Z.mod_small by lia. destruct b as [x g p u]. simpl. f_equal. lia.
Qed.

(** ** Integers *)

Lemma m_getByte_advance k :
  0 <= k < used b -> m_getByte (advance b k) = Some (ring_at (buf b) (getpos b) k, advance b (k + 1)).
Proof using Hb.
  intros Hk. destruct (advance_wf k) as [Hwf _]; [lia|]. destruct Hb as (Hs & _).
  unfold m_getByte. pose proof (Z.mod_pos_bound (getpos b + k) (getSize b)).
  rewrite <- (advance_advance b k 1) by lia. destruct (advance b k) as [a g p u] eqn:E.
  injection E as <- <- <- <-. cbn [buf getpos putpos used]. unfold ring_at, getSize in *.
  destruct (aget_Some (buf b) ((getpos b + k) mod zlen (buf b))) as [v Hv]; [lia|]. rewrite Hv. ored.
  unfold advance, getSize. cbn [buf getpos putpos used]. simpl default. rewrite checkPos_mod by (unfold getSize; cbn [buf]; lia).
  unfold getSize; cbn [buf]. unfold w32. destruct Hwf as (_ & _ & _ & Hu & _). cbn [used] in Hu.
  rewrite (Z.mod_small (used b - k - 1)); [done|]. unfold getSize in Hu. cbn [buf] in Hu. lia.
Qed.

Lemma m_getInt_spec i :
  4 <= used b -> is_word i -> segment (buf b) (getpos b) 4 = le_bytes i -> m_getInt b = Some (i, advance b 4).
Proof using Hb.
  intros Hu Hi Hc. unfold m_getInt. change (Z.to_nat SIZE_INT) with 4%nat.
  assert (advance b 0 = b) as E0.
  { destruct Hb as (? & ? & _). unfold advance. rewrite Z.add_0_r, Z.mod_small, Z.sub_0_r by lia. by destruct b. }
  rewrite <- E0 at 1. cbn [for_up]. ored.
  rewrite (m_getByte_advance 0) by lia. ored. rewrite (m_getByte_advance (0 + 1)) by lia. ored.
  rewrite (m_getByte_advance (0 + 1 + 1)) by lia. ored. rewrite (m_getByte_advance (0 + 1 + 1 + 1)) by lia. ored.
  assert (forall k, 0 <= k < 4 -> ring_at (buf b) (getpos b) k = byte_of i k) as Hr.
  { intros k Hk. assert ((le_bytes i).[k] = Some (byte_of i k)) as E
      by (assert (k = 0 \/ k = 1 \/ k = 2 \/ k = 3) as [->|[->|[->| ->]]] by lia; done).
    rewrite <- Hc, aget_segment in E by lia. by injection E. }
  rewrite !Hr by lia. f_equal. f_equal. rewrite Z.lor_0_l.
  apply word_ext; [|done|]; [repeat apply is_word_lor; apply is_word_shl32|].
  intros j Hj. rewrite !Z.lor_spec, <- (le_int_bits i _ _ _ _ j Hj eq_refl eq_refl eq_refl eq_refl).
  rewrite (testbit_shl32 _ (0 * 8)) by lia. rewrite Z.sub_0_r, (proj2 (Z.leb_le (0 * 8) j)) by lia. done.
Qed.

Lemma m_putByte_contents v :
  used b < getSize b ->
  exists b', m_putByte b v = Some b' /\ wf b' /\ getSize b' = getSize b /\ used b' = used b + 1 /\
    getpos b' = getpos b /\ contents b' = contents b ++ [v].
Proof using Hb.
  intros Hu. destruct (m_putByte_spec v Hu) as (a & E & Hw). exists (extend b a 1).
  destruct (extend_wf a [v] [] Hw) as [Hwf Hc]; [change (zlen ([v] ++ [])) with 1; lia|].
  split_and!; try done. apply Hw.
Qed.
End operations.

Lemma m_putInt_spec b i :
  wf b -> is_word i -> used b + 4 <= getSize b ->
  exists b', m_putInt b i = Some b' /\ wf b' /\ getSize b' = getSize b /\ used b' = used b + 4 /\
    getpos b' = getpos b /\ contents b' = contents b ++ le_bytes i.
Proof.
  intros Hb Hi Hu. unfold m_putInt. change (Z.to_nat SIZE_INT) with 4%nat. cbn [for_up].
  destruct (m_putByte_contents b Hb (Z.land i 0xFF)) as (b1 & -> & W1 & S1 & U1 & G1 & C1); [lia|]. ored.
  destruct (m_putByte_contents b1 W1 (Z.land (asr32 i 8) 0xFF)) as (b2 & -> & W2 & S2 & U2 & G2 & C2); [lia|]. ored.
  rewrite (asr32_asr32 i 8 8) by (done || lia). change (8 + 8) with 16.
  destruct (m_putByte_contents b2 W2 (Z.land (asr32 i 16) 0xFF)) as (b3 & -> & W3 & S3 & U3 & G3 & C3); [lia|]. ored.
  rewrite (asr32_asr32 i 16 8) by (done || lia). change (16 + 8) with 24.
  destruct (m_putByte_contents b3 W3 (Z.land (asr32 i 24) 0xFF)) as (b4 & -> & W4 & S4 & U4 & G4 & C4); [lia|]. ored.
  exists b4. split_and!; try done; try lia; try congruence.
  rewrite C4, C3, C2, C1, <- !app_assoc. simpl. unfold le_bytes.
  rewrite <- (asr32_byte i 0), <- (asr32_byte i 1), <- (asr32_byte i 2), <- (asr32_byte i 3) by (done || lia).
  assert (asr32 i 0 = i) as E0.
  { apply word_ext; [apply is_word_asr32|done|]. intros j Hj. rewrite testbit_asr32 by (done || lia). f_equal. lia. }
  change (8 * 0) with 0. by rewrite E0.
Qed.

(** ** Overwriting inside the contents *)

Lemma ring_write_nil a p : ring_write a p [] a.
Proof. split; [done|]. intros k Hk. change (zlen (@nil Z)) with 0. destruct (Z.ltb_spec k 0); [lia|done]. Qed.

Lemma ring_write_snoc a p d v a1 :
  ring_write a p d a1 -> 0 < zlen a -> zlen d < zlen a ->
  exists a2, a1.[(p + zlen d) mod zlen a <- v] = Some a2 /\ ring_write a p (d ++ [v]) a2.
Proof.
  intros [Hz Hw] Ha Hd. pose proof (zlen_nonneg d). pose proof (Z.mod_pos_bound (p + zlen d) (zlen a) Ha).
  rewrite aset_Some by lia. eexists; split; [done|]. split; [by rewrite zlen_insert|]. intros k Hk.
  specialize (Hw k Hk). unfold ring_at in *. rewrite zlen_insert. rewrite Hz in *. rewrite aget_insert by lia.
  rewrite zlen_snoc. destruct (Z.eqb_spec ((p + zlen d) mod zlen a) ((p + k) mod zlen a)) as [E|E].
  - assert (k = zlen d) as ->.
    { apply (f_equal (fun z => (z - p) mod zlen a)) in E. rewrite !Zminus_mod_idemp_l in E.
      replace (p + zlen d - p) with (zlen d) in E by lia. replace (p + k - p) with k in E by lia.
      rewrite !Z.mod_small in E by lia. done. }
    destruct (Z.ltb_spec (zlen d) (zlen d + 1)); [|lia]. by rewrite (aget_middle d v []).
  - rewrite Hw. destruct (Z.ltb_spec k (zlen d)), (Z.ltb_spec k (zlen d + 1)); try lia; try done.
    + by rewrite aget_app_l by lia.
    + assert (k = zlen d) as -> by lia. done.
Qed.

Lemma ring_write_within b d data a :
  wf b -> 0 <= d -> d + zlen data <= used b -> ring_write (buf b) ((getpos b + d) mod getSize b) data a ->
  segment a (getpos b) (used b) =
    segment (buf b) (getpos b) d ++ data ++ segment (buf b) (getpos b + (d + zlen data)) (used b - (d + zlen data)).
Proof.
  intros (Hs & Hg & Hp & Hu & _) Hd Hl [Hz Hw]. unfold getSize in *. pose proof (zlen_nonneg data).
  assert (forall c j k, zlen c = zlen (buf b) -> (d + k = j \/ d + k = j + zlen (buf b)) ->
    ring_at c (getpos b) j = ring_at c ((getpos b + d) mod zlen (buf b)) k) as Hsh.
  { intros c j k Hc Hjk. rewrite <- Hc, ring_at_mod, ring_at_shift by lia.
    destruct Hjk as [->| ->]; [done|]. unfold ring_at. rewrite <- Hc.
    replace (getpos b + (j + zlen c)) with (getpos b + j + 1 * zlen c) by lia. by rewrite Z_mod_plus_full. }
  replace (used b) with (d + (zlen data + (used b - (d + zlen data)))) at 1 by lia.
  rewrite !segment_app by lia. f_equal; [|f_equal].
  - apply segment_ext. intros k Hk. rewrite !(Hsh _ k (zlen (buf b) - d + k)) by lia. rewrite Hw by lia.
    destruct (Z.ltb_spec (zlen (buf b) - d + k) (zlen data)); [lia|done].
  - apply aget_ext; [by apply zlen_segment|]. rewrite zlen_segment by lia. intros i Hi.
    rewrite aget_segment, ring_at_shift, (Hsh a (d + i) i), Hw by lia.
    destruct (Z.ltb_spec i (zlen data)); [|lia]. destruct (aget_Some data i) as [v ->]; done.
  - rewrite <- Z.add_assoc. apply segment_ext. intros k Hk.
    rewrite !ring_at_shift, !(Hsh _ (d + zlen data + k) (zlen data + k)) by lia. rewrite Hw by lia.
    destruct (Z.ltb_spec (zlen data + k) (zlen data)); [lia|done].
Qed.

Lemma le_bytes_step i k : 0 <= k < 4 -> take (Z.to_nat (k + 1)) (le_bytes i) = take (Z.to_nat k) (le_bytes i) ++ [byte_of i k].
Proof. intros Hk. assert (k = 0 \/ k = 1 \/ k = 2 \/ k = 3) as [->|[->|[->| ->]]] by lia; done. Qed.

Lemma asr32_0 i : is_word i -> asr32 i 0 = i.
Proof.
  intros Hi. apply word_ext; [apply is_word_asr32|done|]. intros j Hj.
  rewrite testbit_asr32 by (done || lia). f_equal. lia.
Qed.

Lemma m_putInt_at_loop b p i :
  0 < getSize b -> 0 <= p < getSize b -> 4 <= getSize b -> is_word i ->
  exists q j a, for_up 0 (Z.to_nat SIZE_INT) (fun _ s =>
    let '(pos, i, a) := s in
    a ← aset a pos (Z.land i 0xFF); Some (checkPos b (pos + 1), asr32 i 8, a)) (p, i, buf b) = Some (q, j, a) /\
    ring_write (buf b) p (le_bytes i) a.
Proof.
  intros Hs Hp H4 Hi.
  match goal with |- context [for_up 0 ?n ?f ?s0] => destruct (for_up_inv (fun k s =>
    s.1.1 = (p + k) mod getSize b /\ s.1.2 = asr32 i (8 * k) /\
    ring_write (buf b) p (take (Z.to_nat k) (le_bytes i)) s.2) 0 n f s0) as ([[q j] a] & -> & _ & _ & Hw) end.
  - simpl. rewrite Z.add_0_r, Z.mod_small, asr32_0 by (done || lia). split_and!; try done. apply ring_write_nil.
  - intros k [[q j] a] Hk. change (0 + Z.of_nat (Z.to_nat SIZE_INT)) with 4 in Hk. simpl. intros (-> & -> & Hw).
    assert (zlen (take (Z.to_nat k) (le_bytes i)) = k) as Hz by (apply zlen_take; change (zlen (le_bytes i)) with 4; lia).
    rewrite asr32_byte by (done || lia). unfold getSize in *.
    destruct (ring_write_snoc _ _ _ (byte_of i k) _ Hw) as (a2 & E & Hw2); [lia..|]. rewrite Hz in E. rewrite E. ored.
    eexists; split; [done|]. cbn [fst snd]. rewrite le_bytes_step by lia. split_and!; [| |done].
    + pose proof (Z.mod_pos_bound (p + k) (zlen (buf b))). rewrite checkPos_mod by (unfold getSize; lia).
      unfold getSize. rewrite Z.add_mod_idemp_l by lia. f_equal. lia.
    + rewrite asr32_asr32 by (done || lia). f_equal. lia.
  - exists q, j, a. split; [done|]. apply Hw.
Qed.

Lemma contents_take b d : 0 <= d <= used b -> take (Z.to_nat d) (contents b) = segment (buf b) (getpos b) d.
Proof.
  intros Hd. unfold contents. replace (used b) with (d + (used b - d)) by lia. rewrite segment_app by lia.
  rewrite take_app_length'; [done|]. pose proof (zlen_segment (buf b) (getpos b) d). unfold zlen in *. lia.
Qed.

Lemma contents_drop b d : 0 <= d <= used b -> drop (Z.to_nat d) (contents b) = segment (buf b) (getpos b + d) (used b - d).
Proof.
  intros Hd. unfold contents. replace (used b) with (d + (used b - d)) at 1 by lia. rewrite segment_app by lia.
  rewrite drop_app_length'; [done|]. pose proof (zlen_segment (buf b) (getpos b) d). unfold zlen in *. lia.
Qed.

Lemma m_putInt_at_spec b d i :
  wf b -> is_word i -> 0 <= d -> d + 4 <= used b ->
  exists b', m_putInt_at b ((getpos b + d) mod getSize b) i = Some b' /\ wf b' /\ getSize b' = getSize b /\
    used b' = used b /\ contents b' = take (Z.to_nat d) (contents b) ++ le_bytes i ++ drop (Z.to_nat (d + 4)) (contents b).
Proof.
  intros Hb Hi Hd Hu. pose proof Hb as (Hs & Hg & Hp & Hu' & Hpos).
  pose proof (Z.mod_pos_bound (getpos b + d) (getSize b)).
  destruct (m_putInt_at_loop b ((getpos b + d) mod getSize b) i) as (q & j & a & E & Hw); [lia..|done|].
  unfold m_putInt_at. rewrite E. ored. eexists; split; [done|]. rewrite contents_take, contents_drop by lia.
  unfold wf, contents. cbn [buf getpos putpos used]. unfold getSize in *. cbn [buf].
  rewrite (proj1 Hw). split_and!; try done; try lia. by apply (ring_write_within b d (le_bytes i) a).
Qed.

(** ** The FIFO queue a ring implements *)

Inductive op :=
  | OpPutByte (v : Z) | OpGetByte | OpPutInt (i : Z) | OpGetInt
  | OpWrite (data : list Z) (n : Z)   (** [m_write] of a block, then [m_commitWrite] of [n] bytes of it *)
  | OpPeek (n : Z) | OpDrop (n : Z).  (** [m_read], [m_commitRead] *)

(** What the operation returns, and the buffer after it. *)
Definition exec (o : op) (b : CircularBuffer) : option (list Z * CircularBuffer) :=
  match o with
  | OpPutByte v => b ← m_putByte b v; Some ([], b)
  | OpGetByte => '(v, b) ← m_getByte b; Some ([v], b)
  | OpPutInt i => b ← m_putInt b i; Some ([], b)
  | OpGetInt => '(i, b) ← m_getInt b; Some ([i], b)
  | OpWrite data n => b ← m_write b data; Some ([], m_commitWrite b n)
  | OpPeek n => d ← m_read b n; Some (d, b)
  | OpDrop n => Some ([], m_commitRead b n)
  end.

(** The same operations of a bounded queue. *)
Inductive queue_step (cap : Z) : op -> list Z -> list Z -> list Z -> Prop :=
  | QPutByte v q : zlen q < cap -> queue_step cap (OpPutByte v) q [] (q ++ [v])
  | QGetByte v q : queue_step cap OpGetByte (v :: q) [v] q
  | QPutInt i q : is_word i -> zlen q + 4 <= cap -> queue_step cap (OpPutInt i) q [] (q ++ le_bytes i)
  | QGetInt i q : is_word i -> queue_step cap OpGetInt (le_bytes i ++ q) [i] q
  | QWrite data rest q : zlen q + zlen (data ++ rest) <= cap ->
      queue_step cap (OpWrite (data ++ rest) (zlen data)) q [] (q ++ data)
  | QPeek d q : queue_step cap (OpPeek (zlen d)) (d ++ q) d (d ++ q)
  | QDrop d q : queue_step cap (OpDrop (zlen d)) (d ++ q) [] q.

Inductive queue_run (cap : Z) : list op -> list Z -> list Z -> list Z -> Prop :=
  | queue_run_nil q : queue_run cap [] q [] q
  | queue_run_cons o os q q' q'' out outs :
      queue_step cap o q out q' -> queue_run cap os q' outs q'' -> queue_run cap (o :: os) q (out ++ outs) q''.

Fixpoint run (os : list op) (b : CircularBuffer) : option (list Z * CircularBuffer) :=
  match os with
  | [] => Some ([], b)
  | o :: os => '(out, b) ← exec o b; '(outs, b) ← run os b; Some (out ++ outs, b)
  end.

Lemma zlen_contents b : wf b -> zlen (contents b) = used b.
Proof. intros (_ & _ & _ & ? & _). apply zlen_segment. lia. Qed.

Lemma contents_split b d q :
  wf b -> contents b = d ++ q ->
  0 <= zlen d <= used b /\ segment (buf b) (getpos b) (zlen d) = d /\
  segment (buf b) (getpos b + zlen d) (used b - zlen d) = q.
Proof.
  intros Hb Hc. pose proof (zlen_contents b Hb) as Hz. rewrite Hc, zlen_app in Hz.
  pose proof (zlen_nonneg d). pose proof (zlen_nonneg q). split; [lia|].
  rewrite <- contents_take, <- contents_drop, Hc by lia. unfold zlen. rewrite Nat2Z.id.
  by rewrite take_app_length, drop_app_length.
Qed.

Lemma advance_contents b d q :
  wf b -> contents b = d ++ q -> wf (advance b (zlen d)) /\ contents (advance b (zlen d)) = q.
Proof.
  intros Hb Hc. destruct (contents_split b d q Hb Hc) as (Hd & E1 & _).
  destruct (advance_wf b Hb (zlen d) Hd) as [? E]. split; [done|]. rewrite Hc, E1 in E.
  by apply app_inv_head in E.
Qed.

Lemma exec_refines b o out q' :
  wf b -> queue_step (getSize b) o (contents b) out q' ->
  exists b', exec o b = Some (out, b') /\ wf b' /\ getSize b' = getSize b /\ contents b' = q'.
Proof.
  intros Hb. remember (contents b) as q eqn:Hq. pose proof (zlen_contents b Hb) as Hz. rewrite <- Hq in Hz.
  pose proof Hb as (Hs & _ & _ & Hu & _).
  intros Hstep. destruct Hstep as [v q Hl|v q|i q Hi Hl|i q Hi|data rest q Hl|d q|d q]; unfold exec.
  - destruct (m_putByte_contents b Hb v) as (b' & -> & ? & ? & _ & _ & Hc); [lia|]. ored. exists b'. by rewrite Hc, <- Hq.
  - change (v :: q) with ([v] ++ q) in Hq. destruct (contents_split b [v] q Hb (eq_sym Hq)) as (Hd & E & _).
    destruct (advance_contents b [v] q Hb (eq_sym Hq)) as [? ?]. change (zlen [v]) with 1 in *.
    rewrite (m_getByte_spec b Hb) by lia. ored. apply (f_equal (fun l => l.[0])) in E.
    rewrite aget_segment in E by lia. injection E as ->. by eexists.
  - destruct (m_putInt_spec b i Hb Hi) as (b' & -> & ? & ? & _ & _ & Hc); [lia|]. ored. exists b'. by rewrite Hc, <- Hq.
  - destruct (contents_split b _ q Hb (eq_sym Hq)) as (Hd & E & _).
    destruct (advance_contents b _ q Hb (eq_sym Hq)) as [? ?]. change (zlen (le_bytes i)) with 4 in *.
    rewrite (m_getInt_spec b Hb i) by (done || lia). ored. by eexists.
  - destruct (m_write_spec b Hb (data ++ rest)) as (a & -> & Hw); [lia|]. ored.
    destruct (extend_wf b Hb a data rest Hw) as [? Hc]; [lia|].
    pose proof (zlen_nonneg data). pose proof (zlen_nonneg rest). rewrite zlen_app in Hl.
    rewrite (m_commitWrite_spec b Hb); [|apply Hw|lia]. eexists. rewrite Hc, <- Hq. split_and!; try done. apply Hw.
  - destruct (contents_split b d q Hb (eq_sym Hq)) as (Hd & E & _). rewrite (m_read_spec b Hb) by done. ored.
    rewrite E. exists b. done.
  - destruct (contents_split b d q Hb (eq_sym Hq)) as (Hd & E & _).
    destruct (m_commitRead_spec b Hb (zlen d)) as (b' & -> & ? & ? & _ & Hc'); [lia|]. exists b'.
    split_and!; try done. rewrite E, <- Hq in Hc'. by apply app_inv_head in Hc'.
Qed.

Lemma run_refines cap os q outs q' :
  queue_run cap os q outs q' -> forall b, wf b -> getSize b = cap -> contents b = q ->
  exists b', run os b = Some (outs, b') /\ wf b' /\ getSize b' = getSize b /\ contents b' = q'.
Proof.
  intros Hrun. induction Hrun as [q|o os q q' q'' out outs Hstep _ IH]; intros b Hb Hs Hq.
  - by exists b.
  - subst q cap. destruct (exec_refines b o out q' Hb Hstep) as (b1 & E1 & W1 & S1 & C1).
    destruct (IH b1 W1 S1 C1) as (b2 & E2 & W2 & S2 & C2).
    exists b2. cbn [run]. rewrite E1. ored. rewrite E2. ored. split_and!; try done. congruence.
Qed.

(** [n] calls of [m_getByte]. *)
Fixpoint getBytes (n : nat) (b : CircularBuffer) : option (list Z * CircularBuffer) :=
  match n with
  | O => Some ([], b)
  | S n => '(v, b) ← m_getByte b; '(l, b) ← getBytes n b; Some (v :: l, b)
  end.

Lemma advance_0 b : wf b -> advance b 0 = b.
Proof. intros (? & ? & _). unfold advance. rewrite Z.add_0_r, Z.mod_small, Z.sub_0_r by lia. by destruct b. Qed.

Lemma getBytes_advance b k n :
  wf b -> 0 <= k -> k + Z.of_nat n <= used b ->
  getBytes n (advance b k) = Some (segment (buf b) (getpos b + k) (Z.of_nat n), advance b (k + Z.of_nat n)).
Proof.
  intros Hb. revert k. induction n as [|n IH]; intros k Hk Hn; cbn [getBytes].
  - by rewrite Z.add_0_r.
  - rewrite (m_getByte_advance b Hb) by lia. ored. rewrite IH by lia. ored.
    replace (Z.of_nat (S n)) with (1 + Z.of_nat n) by lia. rewrite segment_app by lia. do 2 f_equal.
    + replace (getpos b + k + 1) with (getpos b + (k + 1)) by lia. unfold segment at 2.
      change (seqZ 0 1) with [0]. cbn [fmap list_fmap app]. f_equal. rewrite ring_at_shift. f_equal. lia.
    + f_equal. lia.
Qed.

(** ** Properties *)

(** C36: the ring is a bounded FIFO queue of bytes: whatever a queue of [getSize]
    bytes can do, byte by byte, by integers, by blocks written in whole or in
    part, or by peeking and dropping, the ring does with the same results and no
    access outside its area, and afterwards it satisfies its invariant and
    holds the bytes the queue holds. *)
Theorem fifo_refinement b os outs q (Hb : wf b) (Hrun : queue_run (getSize b) os (contents b) outs q) :
  exists b', run os b = Some (outs, b') /\ wf b' /\ getSize b' = getSize b /\ contents b' = q.
Proof.
  by apply (run_refines (getSize b) os (contents b)).
Qed.

(** an integer written by [m_putInt] has the byte order of [gf_integer2char], so a
    ring and a [SimpleBuffer] read each other's integers; [SimpleBuffer] reads
    back what it wrote; and [m_putInt] at a position inside the ring replaces
    the four bytes there and nothing else. *)
Theorem integers_roundtrip b sb i d
  (Hb : wf b) (Hi : is_word i) (Hd : 0 <= d) (Hu : d + 4 <= used b)
  (Hp : 0 <= SimpleBuffer.pos sb) (Hs : SimpleBuffer.pos sb + 4 <= SimpleBuffer.getSize sb) :
  (exists sb', SimpleBuffer.m_putInt sb i = Some sb' /\
     SimpleBuffer.m_getInt (SimpleBuffer.SB (SimpleBuffer.buf sb') (SimpleBuffer.pos sb)) = Some (i, sb') /\
     SimpleBuffer.m_read (SimpleBuffer.SB (SimpleBuffer.buf sb') (SimpleBuffer.pos sb)) 4 = Some (le_bytes i)) /\
  exists b', m_putInt_at b ((getpos b + d) mod getSize b) i = Some b' /\ wf b' /\
    contents b' = take (Z.to_nat d) (contents b) ++ le_bytes i ++ drop (Z.to_nat (d + 4)) (contents b).
Proof.
  split.
  - destruct (le_bytes_roundtrip (SimpleBuffer.buf sb) (SimpleBuffer.pos sb) i) as (a & E & Hz & Eg & Ha & _);
      [done..|]. unfold SimpleBuffer.m_putInt. rewrite E. ored. eexists; split; [done|].
    unfold SimpleBuffer.m_getInt, SimpleBuffer.m_read. cbn [SimpleBuffer.buf SimpleBuffer.pos]. rewrite Eg. ored.
    split; [done|]. unfold SimpleBuffer.getSize in Hs. rewrite slice_segment by lia. f_equal.
    apply aget_ext; [by rewrite zlen_segment by lia|]. rewrite zlen_segment by lia. intros k Hk.
    rewrite aget_segment by lia. unfold ring_at. rewrite Z.mod_small by lia. rewrite Ha by lia.
    assert (k = 0 \/ k = 1 \/ k = 2 \/ k = 3) as [->|[->|[->| ->]]] by lia; done.
  - destruct (m_putInt_at_spec b d i) as (b' & E & W & _ & _ & Hc); [done..|]. by exists b'.
Qed.

(** Reading [n] bytes one by one returns the [n] oldest, and a negative
    [m_commitRead] puts them all back: the buffer is exactly what it was, also
    when the read emptied it. *)
Theorem unread_restores b n (Hb : wf b) (Hn : 0 < Z.of_nat n <= used b) :
  exists b', getBytes n b = Some (take n (contents b), b') /\ wf b' /\
    contents b' = drop n (contents b) /\ m_commitRead b' (- Z.of_nat n) = b.
Proof.
  exists (advance b (Z.of_nat n)). pose proof (getBytes_advance b 0 n Hb) as E.
  rewrite advance_0 in E by done. rewrite E by lia. rewrite Z.add_0_r, Z.add_0_l.
  rewrite <- (contents_take b (Z.of_nat n)), Nat2Z.id by lia. split; [done|].
  destruct (advance_wf b Hb (Z.of_nat n)) as [? Hc]; [lia|]. split; [done|]. split.
  - rewrite Hc, drop_app_length'; [done|]. pose proof (zlen_segment (buf b) (getpos b) (Z.of_nat n)). unfold zlen in *. lia.
  - by apply m_commitRead_unread.
Qed.

(** [getReadBlock] and [getWriteBlock] give a block of the area that can be
    handed to the system calls: the read block holds the oldest bytes, a
    prefix of the write block that was filled and committed is appended to the
    contents, and a block is empty only when there is nothing to read, or no
    room. *)
Theorem blocks_correct b (Hb : wf b) :
  (exists p n, getReadBlock b = (p, n) /\ slice (buf b) p n = Some (take (Z.to_nat n) (contents b)) /\
     0 <= n <= used b /\ (n = 0 <-> contents b = [])) /\
  (exists p n, getWriteBlock b = (p, n) /\ 0 <= n <= getFree b /\ (n = 0 <-> used b = getSize b) /\
     forall data, zlen data <= n -> exists a, blit (buf b) p data = Some a /\
       let b' := m_commitWrite (CB a (getpos b) (putpos b) (used b)) (zlen data) in
       wf b' /\ contents b' = contents b ++ data).
Proof.
  pose proof (zlen_contents b Hb) as Hz. pose proof (getFree_eq b Hb) as Hf.
  pose proof Hb as (Hs & Hg & Hp & Hu & _). split; do 2 eexists; (split; [done|]).
  - unfold min, s32, getUsed. destruct (Z.ltb_spec (used b) (2 ^ 31)); [|lia].
    destruct (Z.leb_spec (used b) (getSize b - getpos b)); rewrite contents_take by lia; unfold getSize in *;
      rewrite slice_segment by lia; (split; [done|]; split; [lia|]; split; intros E;
      [destruct (contents b); [done|rewrite zlen_cons in Hz; pose proof (zlen_nonneg l); lia]|rewrite E in Hz; change (zlen (@nil Z)) with 0 in Hz; lia]).
  - rewrite Hf. unfold min, s32. destruct (Z.ltb_spec (getSize b - used b) (2 ^ 31)); [|lia].
    set (n := if getSize b - used b <=? getSize b - putpos b then getSize b - used b else getSize b - putpos b).
    assert (0 <= n <= getSize b - used b /\ n <= getSize b - putpos b /\ (n = 0 <-> used b = getSize b)) as (Hn1 & Hn2 & Hn3).
    { subst n. destruct (Z.leb_spec (getSize b - used b) (getSize b - putpos b)); lia. }
    clearbody n. split; [done|]. split; [done|]. intros data Hd. pose proof (zlen_nonneg data).
    destruct (ring_write_blit b Hb data) as (a & E & Hw); [lia|].
    rewrite (proj2 (Z.leb_le _ _)) in E by lia. exists a. split; [done|]. cbv zeta.
    rewrite (m_commitWrite_spec b Hb); [|apply Hw|lia]. apply (extend_wf b Hb a data []); rewrite app_nil_r; [done|lia].
Qed.

(** while a frame of [sz] bytes is set the user sees exactly the rest of the frame,
    and everything again after [resetFrame]; with [n] bytes reserved, every
    block that [canWrite] accepts is appended and leaves the reserved bytes
    free, so the trailer written after [resetReserve] always fits. *)
Theorem frame_and_reserve (rb : DssReadByteBuffer) (wb : DssWriteByteBuffer) sz r n data
  (Hrb : wf (rcb rb)) (Hsz : 0 <= sz <= getUsed (rcb rb)) (Hr : 0 <= r <= sz)
  (Hwb : wf (wcb wb)) (Hres : reserved wb = 0) (Hn : 0 <= n <= getFree (wcb wb)) :
  (let f := commitRead (setFrameSize rb sz) r in
   availableData (setFrameSize rb sz) = sz /\ availableData f = sz - r /\ wf (rcb f) /\
   contents (rcb f) = drop (Z.to_nat r) (contents (rcb rb)) /\
   availableData (resetFrame f) = getUsed (rcb rb) - r) /\
  (let w := reserveSpace wb n in
   availableSpace w = getFree (wcb wb) - n /\
   (canWrite w (zlen data) = true -> exists w', writeToBuffer w data = Some w' /\ wf (wcb w') /\
      contents (wcb w') = contents (wcb wb) ++ data /\
      availableSpace w' = availableSpace w - zlen data /\ n <= availableSpace (resetReserve w'))).
Proof.
  split; cbv zeta.
  - pose proof Hrb as (Hs & _ & _ & Hu & _). unfold getUsed in *.
    destruct (m_commitRead_spec (rcb rb) Hrb r) as (b' & E & W & _ & Hu' & Hc); [lia|].
    unfold availableData, setFrameSize, commitRead, resetFrame, s32, getUsed, w32. cbn [rcb outerframe].
    destruct (Z.ltb_spec r (2 ^ 31)); [|lia]. rewrite E, Hu', (Z.mod_small (used (rcb rb) - sz)) by lia.
    rewrite !Z.mod_small by lia. split_and!; [lia|lia|done| |lia].
    rewrite Hc, drop_app_length'; [done|]. pose proof (zlen_segment (buf (rcb rb)) (getpos (rcb rb)) r).
    unfold zlen in *. lia.
  - pose proof Hwb as (Hs & _ & _ & Hu & _). pose proof (getFree_eq _ Hwb) as Hf.
    unfold canWrite, availableSpace, reserveSpace, resetReserve, writeToBuffer. cbn [wcb reserved].
    rewrite Hres, Z.add_0_l, Hf in *. rewrite (w32_small n), w32_small by lia. split; [done|].
    intros Hcan%Z.leb_le. pose proof (zlen_nonneg data).
    destruct (m_write_spec _ Hwb data) as (a & -> & Hw); [lia|]. ored. eexists; split; [done|]. cbn [wcb reserved].
    rewrite s32_w32_small, (m_commitWrite_spec _ Hwb) by (apply Hw || lia).
    destruct (extend_wf _ Hwb a data []) as [We Ce]; [by rewrite app_nil_r|rewrite app_nil_r; lia|].
    split; [done|]. split; [done|]. rewrite (getFree_eq _ We). unfold extend, getSize in *. cbn [buf used].
    rewrite (proj1 Hw), !w32_small by lia. lia.
Qed.

(** ** Witnesses *)

(** Eight cells, of which the last two and the first one hold data. *)
Definition ring1 : CircularBuffer := CB [30; 0; 0; 0; 0; 0; 10; 20] 6 1 3.
Lemma ring1_wf : wf ring1.
Proof. repeat split; vm_compute; (reflexivity || discriminate). Qed.

Lemma fifo_refinement_witness :
  exists b', run [OpPutByte 40; OpPutInt 1000; OpPeek 2; OpDrop 4; OpGetInt; OpWrite [7; 8; 9] 2] ring1
    = Some ([10; 20; 1000], b') /\ contents b' = [7; 8].
Proof.
  destruct (fifo_refinement ring1 [OpPutByte 40; OpPutInt 1000; OpPeek 2; OpDrop 4; OpGetInt; OpWrite [7; 8; 9] 2]
    [10; 20; 1000] [7; 8] ring1_wf) as (b' & E & _ & _ & Hc); [|exists b'; exact (conj E Hc)].
  change [10; 20; 1000] with ([] ++ [] ++ [10; 20] ++ [] ++ [1000] ++ [] ++ @nil Z).
  apply (queue_run_cons _ _ _ _ [10; 20; 30; 40]); [apply (QPutByte _ 40 [10; 20; 30]); reflexivity|].
  apply (queue_run_cons _ _ _ _ ([10; 20; 30; 40] ++ le_bytes 1000));
    [apply QPutInt; [split; [discriminate|reflexivity]|discriminate]|].
  eapply queue_run_cons; [apply (QPeek _ [10; 20] ([30; 40] ++ le_bytes 1000))|].
  eapply queue_run_cons; [apply (QDrop _ [10; 20; 30; 40] (le_bytes 1000))|].
  eapply queue_run_cons; [apply (QGetInt _ 1000 []); split; [discriminate|reflexivity]|].
  eapply queue_run_cons; [apply (QWrite _ [7; 8] [9] []); discriminate|]. apply queue_run_nil.
Defined.

Definition ring2 : CircularBuffer := CB [1; 2; 3; 4; 5; 6; 7; 8] 6 5 7.
Lemma ring2_wf : wf ring2.
Proof. repeat split; vm_compute; (reflexivity || discriminate). Qed.

Lemma integers_witness :
  exists b', m_putInt_at ring2 ((getpos ring2 + 1) mod getSize ring2) 258 = Some b' /\
    contents b' = [7; 2; 1; 0; 0; 4; 5].
Proof.
  destruct (integers_roundtrip ring2 (SimpleBuffer.SB [0; 0; 0; 0; 0] 1) 258 1 ring2_wf) as (_ & b' & E & _ & Hc);
    [split; [discriminate|reflexivity]|discriminate|discriminate|discriminate|discriminate|].
  exists b'. split; [exact E|]. rewrite Hc. reflexivity.
Defined.

Lemma unread_witness : exists b', getBytes 3 ring1 = Some ([10; 20; 30], b') /\ m_commitRead b' (-3) = ring1.
Proof.
  destruct (unread_restores ring1 3 ring1_wf) as (b' & E & _ & _ & Hu); [split; [reflexivity|discriminate]|].
  exists b'. exact (conj E Hu).
Defined.

Lemma blocks_witness : exists p n, getReadBlock ring1 = (p, n) /\ slice (buf ring1) p n = Some [10; 20].
Proof.
  destruct (blocks_correct ring1 ring1_wf) as ((p & n & E & Hs & _) & _). exists p, n. split; [exact E|].
  rewrite Hs. injection E as <- <-. reflexivity.
Defined.

Lemma frame_witness :
  availableData (setFrameSize (RB ring1 0) 2) = 2 /\
  exists w, writeToBuffer (reserveSpace (WB ring1 0) 1) [1; 2; 3; 4] = Some w /\ 1 <= availableSpace (resetReserve w).
Proof.
  destruct (frame_and_reserve (RB ring1 0) (WB ring1 0) 2 1 1 [1; 2; 3; 4] ring1_wf) as ((H1 & _) & _ & H2);
    [split; discriminate|split; discriminate|exact ring1_wf|reflexivity|split; discriminate|].
  split; [exact H1|]. destruct (H2 eq_refl) as (w & E & _ & _ & _ & Hw). exists w. exact (conj E Hw).
Defined.
End CircularBuffer.
