(* ===== verification/PrioQueues.v ===== *)
(** * Message queues of a connection ([msl_prioQueues.hh], [msl_prioQueues.cc])

    The five send queues, the list of unacknowledged messages and the list of
    partly received ones that a connection keeps.  All of them are threaded through
    the [a_next] field of the message containers, so the containers live in a
    store and a list is a chain in it. *)
From stdpp Require Import gmap.
From S2P Require Import Prelude Word32.

(** ** Clock values ([DSS_LongTime], [msgnLayer.cc]) *)

Module LongTime.
Record DSS_LongTime := LT { low : Z; high : Z }.

Definition WRAP_TIME : Z := 0xFFFFFFFF.
Definition newTime : DSS_LongTime := LT 0 0.

Definition increaseTime (t : DSS_LongTime) (interval : Z) : DSS_LongTime :=
  if low t <? w32 (WRAP_TIME - interval) then LT (w32 (low t + interval)) (high t)
  else LT (w32 (low t - (WRAP_TIME - interval))) (w32 (high t + 1)).

Definition le (t t2 : DSS_LongTime) : bool :=
  (high t <? high t2) || ((high t =? high t2) && (low t <=? low t2)).
Definition gt (t t2 : DSS_LongTime) : bool :=
  (high t2 <? high t) || ((high t =? high t2) && (low t2 <? low t)).
Definition ne (t t2 : DSS_LongTime) : bool := negb (low t =? low t2) || negb (high t =? high t2).

(** The difference in milliseconds, as an [int]. *)
Definition minus (t t2 : DSS_LongTime) : Z :=
  if high t =? high t2 then s32 (w32 (low t - low t2))
  else if high t =? w32 (high t2 + 1) then s32 (w32 (WRAP_TIME - low t2 + low t))
  else -1.
End LongTime.

(** ** Containers and their store *)

Abbreviation ptr := positive.

Inductive MsgFlags := MSG_CLEAR | MSG_HAS_MARSHALCONT | MSG_HAS_UNMARSHALCONT.

(** The fields of [MsgCnt] the queues use; the payload stays outside. *)
Record MsgCnt := Msg {
  a_num : Z; a_flag : MsgFlags; a_current : Z; a_sendTime : LongTime.DSS_LongTime; a_next : option ptr
}.

Abbreviation store := (gmap ptr MsgCnt).

Definition NO_MSG_NUM : Z := -1.

Definition set_next (m : MsgCnt) (n : option ptr) : MsgCnt :=
  Msg (a_num m) (a_flag m) (a_current m) (a_sendTime m) n.

(** [resetMarshaling], for the fields modelled. *)
Definition resetMarshaling (m : MsgCnt) : MsgCnt :=
  Msg (a_num m) (match a_flag m with MSG_HAS_MARSHALCONT => MSG_CLEAR | f => f end) 0 (a_sendTime m) (a_next m).

(** [p->a_next = n] *)
Definition store_next (h : store) (p : ptr) (n : option ptr) : option store :=
  m ← h !! p; Some (<[p := set_next m n]> h).

Module PrioQueues.

Record Queue := Qu { first : option ptr; last : option ptr }.

Definition emptyQueue : Queue := Qu None None.

(** The assertion at the head of the local utilities. *)
Definition queue_assert (q : Queue) : bool :=
  match first q, last q with None, None | Some _, Some _ => true | _, _ => false end.

Definition if_enqueue (h : store) (msgC : ptr) (q : Queue) : option (store * Queue) :=
  if queue_assert q then
    '(h, f) ← match last q with
              | Some l => h ← store_next h l (Some msgC); Some (h, first q)
              | None => match first q with None => Some (h, Some msgC) | Some _ => None end
              end;
    h ← store_next h msgC None;
    Some (h, Qu f (Some msgC))
  else None.

Definition if_isEmpty (q : Queue) : option bool :=
  if queue_assert q then Some (match first q with None => true | Some _ => false end) else None.

Definition if_removeFirst (h : store) (q : Queue) : option (option ptr * Queue) :=
  if queue_assert q then
    match first q with
    | None => match last q with None => Some (None, q) | Some _ => None end
    | Some msgC =>
        m ← h !! msgC;
        Some (Some msgC, Qu (a_next m) (match a_next m with None => None | Some _ => last q end))
    end
  else None.

Definition if_addFirst (h : store) (msgC : ptr) (q : Queue) : option (store * Queue) :=
  h ← store_next h msgC (first q);
  Some (h, Qu (Some msgC) (match last q with None => Some msgC | l => l end)).

(** The oldest message is at [last], the newest at [first]. *)
Definition if_insertUnacked (h : store) (unackedList : Queue) (msgC : ptr) : option (store * Queue) :=
  h ← store_next h msgC None;
  match first unackedList with
  | None => Some (h, Qu (Some msgC) (Some msgC))
  | Some f => h ← store_next h f (Some msgC); Some (h, Qu (Some msgC) (last unackedList))
  end.

Definition Q_PRIO_VAL_4 : Z := 10.
Definition Q_PRIO_VAL_3 : Z := 10.
Definition Q_PRIO_VAL_2 : Z := 100.

(** [curq] is the index of the queue it points to. *)
Record PrioQueues := PQ {
  qs : list Queue; unackedMsgs : Queue; recList : option ptr; curq : option Z;
  prio_val_4 : Z; prio_val_3 : Z; prio_val_2 : Z; noMsgs : Z
}.

Definition newPrioQueues : PrioQueues :=
  PQ (replicate 5 emptyQueue) emptyQueue None None Q_PRIO_VAL_4 Q_PRIO_VAL_3 Q_PRIO_VAL_2 0.

Definition set_queue (s : PrioQueues) (i : Z) (q : Queue) : option PrioQueues :=
  l ← (qs s).[i <- q];
  Some (PQ l (unackedMsgs s) (recList s) (curq s) (prio_val_4 s) (prio_val_3 s) (prio_val_2 s) (noMsgs s)).
Definition set_prio (s : PrioQueues) (v4 v3 v2 : Z) : PrioQueues :=
  PQ (qs s) (unackedMsgs s) (recList s) (curq s) v4 v3 v2 (noMsgs s).
Definition set_noMsgs (s : PrioQueues) (n : Z) : PrioQueues :=
  PQ (qs s) (unackedMsgs s) (recList s) (curq s) (prio_val_4 s) (prio_val_3 s) (prio_val_2 s) n.
Definition set_unacked (s : PrioQueues) (u : Queue) : PrioQueues :=
  PQ (qs s) u (recList s) (curq s) (prio_val_4 s) (prio_val_3 s) (prio_val_2 s) (noMsgs s).
Definition set_recList (s : PrioQueues) (r : option ptr) : PrioQueues :=
  PQ (qs s) (unackedMsgs s) r (curq s) (prio_val_4 s) (prio_val_3 s) (prio_val_2 s) (noMsgs s).

(** ** Sending *)

Definition enqueue (h : store) (s : PrioQueues) (msgC : ptr) (prio : Z) : option (store * PrioQueues) :=
  if (0 <=? prio) && (prio <? 5) then
    q ← (qs s).[prio];
    '(h, q) ← if_enqueue h msgC q;
    s ← set_queue (set_noMsgs s (noMsgs s + 1)) prio q;
    Some (h, s)
  else None.

Definition nonEmpty (s : PrioQueues) (i : Z) : option bool :=
  q ← (qs s).[i]; e ← if_isEmpty q; Some (negb e).

(** [ret = if_removeFirst(qs[i]); curq = &qs[i];] *)
Definition take_from (h : store) (s : PrioQueues) (i : Z) : option (option ptr * PrioQueues) :=
  q ← (qs s).[i];
  '(ret, q) ← if_removeFirst h q;
  l ← (qs s).[i <- q];
  Some (ret, PQ l (unackedMsgs s) (recList s) (Some i) (prio_val_4 s) (prio_val_3 s) (prio_val_2 s) (noMsgs s)).

(** The [do] loop: [None] inside the result when no queue gave a message. *)
Fixpoint getNext_loop (fuel : nat) (h : store) (s : PrioQueues) : option (option ptr * PrioQueues) :=
  match fuel with
  | O => None
  | S fuel =>
      n4 ← nonEmpty s 3; n3 ← nonEmpty s 2; n2 ← nonEmpty s 1; n1 ← nonEmpty s 0;
      if (0 <? prio_val_4 s) && n4 then
        '(ret, s) ← take_from h s 3;
        Some (ret, set_prio s (prio_val_4 s - 1) (prio_val_3 s) (prio_val_2 s))
      else
        let s := set_prio s Q_PRIO_VAL_4 (prio_val_3 s) (prio_val_2 s) in
        if (0 <? prio_val_3 s) && n3 then
          '(ret, s) ← take_from h s 2;
          Some (ret, set_prio s (prio_val_4 s) (prio_val_3 s - 1) (prio_val_2 s))
        else
          let s := set_prio s (prio_val_4 s) Q_PRIO_VAL_3 (prio_val_2 s) in
          if n2 : bool then take_from h s 1
          else
            let s := set_prio s (prio_val_4 s) (prio_val_3 s) Q_PRIO_VAL_2 in
            if n1 : bool then take_from h s 0
            else if n4 || n3 || n2 then getNext_loop fuel h s else Some (None, s)
  end.

Fixpoint hasQueued_loop (l : list Queue) (noMsgs : Z) : option bool :=
  match l with
  | [] => if noMsgs =? 0 then Some false else None
  | q :: l =>
      match first q with
      | Some _ => match last q with
                  | Some _ => if 0 <? noMsgs then Some true else None
                  | None => None
                  end
      | None => hasQueued_loop l noMsgs
      end
  end.
Definition hasQueued (s : PrioQueues) : option bool := hasQueued_loop (qs s) (noMsgs s).

Definition hasNeed (s : PrioQueues) : option bool :=
  b ← hasQueued s;
  Some (b || match first (unackedMsgs s) with Some _ => true | None => false end).

Definition getNext (h : store) (s : PrioQueues) (working : bool) : option (option ptr * PrioQueues) :=
  n5 ← nonEmpty s 4;
  '(ret, s) ← (if n5 : bool then take_from h s 4
               else if working then getNext_loop 3 h s else Some (None, s));
  match ret with
  | Some _ => Some (ret, set_noMsgs s (noMsgs s - 1))
  | None =>
      if working then b ← hasQueued s; if (b : bool) then None else Some (ret, s)
      else Some (ret, s)
  end.

Definition insertUnacked (h : store) (s : PrioQueues) (msgC : ptr) : option (store * PrioQueues) :=
  '(h, u) ← if_insertUnacked h (unackedMsgs s) msgC; Some (h, set_unacked s u).

Definition requeue (h : store) (s : PrioQueues) (msgC : ptr) : option (store * PrioQueues) :=
  i ← curq s;
  q ← (qs s).[i];
  '(h, q) ← if_addFirst h msgC q;
  s ← set_queue (set_noMsgs s (noMsgs s + 1)) i q;
  Some (h, s).

(** [while (cur != NULL && cur->getMsgNum() < num) ... delete tmp;] *)
Fixpoint acked_loop (fuel : nat) (h : store) (cur : option ptr) (num : Z) : option (store * option ptr) :=
  match fuel with
  | O => None
  | S fuel =>
      match cur with
      | None => Some (h, None)
      | Some c => m ← h !! c; if a_num m <? num then acked_loop fuel (delete c h) (a_next m) num else Some (h, cur)
      end
  end.

(** [while (cur) { tmp = cur->a_next; cur->resetMarshaling(); enqueue(cur,3); cur = tmp; }] *)
Fixpoint resend_loop (fuel : nat) (h : store) (s : PrioQueues) (cur : option ptr) : option (store * PrioQueues) :=
  match fuel with
  | O => None
  | S fuel =>
      match cur with
      | None => Some (h, s)
      | Some c =>
          m ← h !! c;
          '(h, s) ← enqueue (<[c := resetMarshaling m]> h) s c 3;
          resend_loop fuel h s (a_next m)
      end
  end.

(** [currTime] is the value of the timers' clock.  The fuel exceeds the size of the store. *)
Definition msgAcked (currTime : LongTime.DSS_LongTime) (h : store) (s : PrioQueues) (num : Z) (resend calcrtt : bool)
  : option (Z * store * PrioQueues) :=
  '(h, cur) ← acked_loop (S (base.size h)) h (last (unackedMsgs s)) num;
  '(ret, h, cur) ← match cur with
    | None => Some (-1, h, None)
    | Some c =>
        m ← h !! c;
        let ret := if calcrtt && LongTime.ne (a_sendTime m) LongTime.newTime
                   then LongTime.minus currTime (a_sendTime m) else -1 in
        Some (ret, delete c h, a_next m)
    end;
  let s := set_unacked s (Qu (match cur with None => None | Some _ => first (unackedMsgs s) end) cur) in
  if resend : bool then
    '(h, s) ← resend_loop (S (base.size h)) h s cur;
    Some (ret, h, set_unacked s emptyQueue)
  else Some (ret, h, s).

(** [clearCont]: the head of each queue. *)
Fixpoint clearCont_loop (h : store) (l : list Queue) : option store :=
  match l with
  | [] => Some h
  | q :: l =>
      match first q with
      | None => clearCont_loop h l
      | Some c => m ← h !! c; clearCont_loop (<[c := resetMarshaling m]> h) l
      end
  end.
Definition clearCont (h : store) (s : PrioQueues) : option store := clearCont_loop h (qs s).

(** ** Receiving *)

Definition putRec (h : store) (s : PrioQueues) (msgC : ptr) : option (store * PrioQueues) :=
  h ← store_next h msgC (recList s); Some (h, set_recList s (Some msgC)).

(** The scan of [recList]; [prev] is the container whose [a_next] is [*tmp]. *)
Fixpoint getRec_loop (fuel : nat) (h : store) (prev cur : option ptr) (num : Z) (head : option ptr)
  : option (option ptr * store * option ptr) :=
  match fuel with
  | O => None
  | S fuel =>
      match cur with
      | None => Some (None, h, head)
      | Some c =>
          m ← h !! c;
          if a_num m =? num then
            match prev with
            | None => Some (Some c, h, a_next m)
            | Some p => h ← store_next h p (a_next m); Some (Some c, h, head)
            end
          else getRec_loop fuel h (Some c) (a_next m) num head
      end
  end.

Definition getRec (h : store) (s : PrioQueues) (num : Z) : option (option ptr * store * PrioQueues) :=
  '(ret, h, r) ← getRec_loop (S (base.size h)) h None (recList s) num (recList s);
  Some (ret, h, set_recList s r).

(** [t_deleteList], and the loop of [clear5]. *)
Fixpoint deleteList (fuel : nat) (h : store) (head : option ptr) : option (store * Z) :=
  match fuel with
  | O => None
  | S fuel =>
      match head with
      | None => Some (h, 0)
      | Some c => m ← h !! c; '(h, n) ← deleteList fuel (delete c h) (a_next m); Some (h, n + 1)
      end
  end.

Definition clearRec (h : store) (s : PrioQueues) : option (store * PrioQueues) :=
  '(h, _) ← deleteList (S (base.size h)) h (recList s); Some (h, set_recList s None).

Definition clear5 (h : store) (s : PrioQueues) : option (store * PrioQueues) :=
  q ← (qs s).[4];
  s ← set_queue s 4 emptyQueue;
  '(h, n) ← deleteList (S (base.size h)) h (first q);
  Some (h, set_noMsgs s (noMsgs s - n)).

(** [while (msgC != NULL) { tmp = msgC->a_next; msgC->a_next = ans; ans = msgC; msgC = tmp; }] *)
Fixpoint reverse_onto (fuel : nat) (h : store) (msgC ans : option ptr) : option (store * option ptr * Z) :=
  match fuel with
  | O => None
  | S fuel =>
      match msgC with
      | None => Some (h, ans, 0)
      | Some c =>
          m ← h !! c;
          '(h, ans, n) ← reverse_onto fuel (<[c := set_next m ans]> h) (a_next m) (Some c);
          Some (h, ans, n + 1)
      end
  end.

(** The loop of [clearAll] over [qs[0] .. qs[3]]. *)
Fixpoint clear_queues (n : nat) (i : Z) (h : store) (s : PrioQueues) (ans : option ptr)
  : option (store * PrioQueues * option ptr) :=
  match n with
  | O => Some (h, s, ans)
  | S n =>
      q ← (qs s).[i];
      '(h, ans, k) ← reverse_onto (S (base.size h)) h (first q) ans;
      s ← set_queue (set_noMsgs s (noMsgs s - k)) i emptyQueue;
      clear_queues n (i + 1) h s ans
  end.

Definition clearAll (h : store) (s : PrioQueues) : option (option ptr * store * PrioQueues) :=
  '(h, s, ans) ← clear_queues 4 0 h s None;
  '(h, ans, _) ← reverse_onto (S (base.size h)) h (last (unackedMsgs s)) ans;
  '(h, s) ← clearRec h (set_unacked s emptyQueue);
  Some (ans, h, s).
End PrioQueues.
