(* ===== verification/PrioQueuesSpec.v ===== *)
(** * The message queues as lists

    What a [PrioQueues] object stands for (seven disjoint lists of containers),
    the operations on those lists, and that the linked structures implement
    them; then the scheduling and acknowledgement properties. *)
From stdpp Require Import gmap.
From S2P Require Import Prelude Word32 PrioQueues.

Definition tail_of (l : list ptr) : option ptr := last l.

Lemma tail_of_snoc l z : tail_of (l ++ [z]) = Some z.
Proof. apply last_snoc. Qed.
Lemma tail_of_Some l z : tail_of l = Some z -> exists k, l = k ++ [z].
Proof. apply last_Some. Qed.
Lemma tail_of_cons x l : tail_of (x :: l) = match tail_of l with Some y => Some y | None => Some x end.
Proof. apply last_cons. Qed.
Lemma tail_of_None l : tail_of l = None <-> l = [].
Proof. apply last_None. Qed.

Import PrioQueues.

(** ** Chains *)

(** From [p] on, the store links the containers of [l] and ends. *)
Fixpoint chain (h : store) (p : option ptr) (l : list ptr) : Prop :=
  match l with
  | [] => p = None
  | x :: l => p = Some x /\ exists m, h !! x = Some m /\ chain h (a_next m) l
  end.

Lemma chain_agree h h' p l : (forall x, x ∈ l -> h' !! x = h !! x) -> chain h p l -> chain h' p l.
Proof.
  revert p. induction l as [|x l IH]; intros p Hag; [done|]. intros (-> & m & Hm & Hc).
  split; [done|]. exists m. rewrite Hag by by left. split; [done|].
  apply IH; [|done]. intros y Hy. apply Hag. by right.
Qed.

(** Changing anything but the links of a container keeps the chains. *)
Lemma chain_data h p l c m m' :
  h !! c = Some m -> a_next m' = a_next m -> chain h p l -> chain (<[c := m']> h) p l.
Proof.
  intros Hc Hn. revert p. induction l as [|x l IH]; intros p; [done|]. intros (-> & mx & Hx & Hl).
  split; [done|]. destruct (decide (c = x)) as [->|Hne].
  - exists m'. rewrite lookup_insert_eq. simplify_eq. rewrite Hn. by auto.
  - exists mx. rewrite lookup_insert_ne by done. auto.
Qed.

Lemma chain_head h p l : chain h p l -> p = head l.
Proof. destruct l; [done|by intros (? & _)]. Qed.

Lemma chain_in h p l x : chain h p l -> x ∈ l -> is_Some (h !! x).
Proof.
  revert p. induction l as [|y l IH]; intros p; [by intros _ ?%elem_of_nil|].
  intros (_ & m & Hm & Hc) [->|Hx]%elem_of_cons; [by eexists|by eapply IH].
Qed.

(** The data of a container survive every change of links. *)
Definition same_data (h h' : store) : Prop :=
  forall x, set_next <$> (h' !! x) = set_next <$> (h !! x).

Lemma store_next_spec h c n m :
  h !! c = Some m -> store_next h c n = Some (<[c := set_next m n]> h).
Proof. intros H. unfold store_next. by rewrite H. Qed.

Lemma same_data_next h c n m : h !! c = Some m -> same_data h (<[c := set_next m n]> h).
Proof.
  intros Hm x. destruct (decide (c = x)) as [->|]; [|by rewrite lookup_insert_ne].
  rewrite lookup_insert_eq, Hm. done.
Qed.

#[export] Instance same_data_preorder : PreOrder same_data.
Proof. split; [by intros ? ?|]. intros h1 h2 h3 H1 H2 x. by rewrite H2, H1. Qed.

(** ** Queues *)

Definition queue_is (h : store) (q : Queue) (l : list ptr) : Prop :=
  chain h (first q) l /\ PrioQueues.last q = tail_of l.

Lemma queue_is_assert h q l : queue_is h q l -> queue_assert q = true.
Proof.
  intros [Hc Hl]. unfold queue_assert. rewrite (chain_head _ _ _ Hc), Hl. destruct l as [|x l]; [done|].
  rewrite tail_of_cons. simpl. by destruct (tail_of l).
Qed.

Lemma queue_is_empty h q l : queue_is h q l -> if_isEmpty q = Some (bool_decide (l = [])).
Proof.
  intros Hq. unfold if_isEmpty. rewrite (queue_is_assert _ _ _ Hq), (chain_head _ _ _ (proj1 Hq)). by destruct l.
Qed.

Lemma queue_is_agree h h' q l : (forall x, x ∈ l -> h' !! x = h !! x) -> queue_is h q l -> queue_is h' q l.
Proof. intros Hag [Hc Hl]. split; [by apply (chain_agree h)|done]. Qed.

Lemma queue_is_data h q l c m m' :
  h !! c = Some m -> a_next m' = a_next m -> queue_is h q l -> queue_is (<[c := m']> h) q l.
Proof. intros ?? [Hc Hl]. split; [by eapply chain_data|done]. Qed.

(** Linking a new container behind the last one. *)
Lemma chain_snoc h p l z m mz mm :
  chain h p (l ++ [z]) -> h !! z = Some mz -> h !! m = Some mm -> z ∉ l -> m ∉ l -> m <> z ->
  chain (<[m := set_next mm None]> (<[z := set_next mz (Some m)]> h)) p (l ++ [z; m]).
Proof.
  intros Hc Hz Hm Hzl Hml Hmz. revert p Hc. induction l as [|x l IH]; intros p.
  - intros (-> & _). split; [done|]. exists (set_next mz (Some m)).
    rewrite lookup_insert_ne, lookup_insert_eq by done. split; [done|]. split; [done|].
    exists (set_next mm None). by rewrite lookup_insert_eq.
  - intros (-> & mx & Hx & Hc). apply not_elem_of_cons in Hzl as [? ?], Hml as [? ?].
    split; [done|]. exists mx. rewrite !lookup_insert_ne by done. split; [done|]. by apply IH.
Qed.

(** The store after an operation on the queue of [l] and the container [m]. *)
Definition touches (h h' : store) (l : list ptr) (m : ptr) : Prop :=
  same_data h h' /\ forall x, x ∉ l -> x <> m -> h' !! x = h !! x.

Lemma append_spec h q l m :
  queue_is h q l -> is_Some (h !! m) -> m ∉ l -> NoDup l ->
  exists h' f, (match PrioQueues.last q with
      | Some z => h ← store_next h z (Some m); Some (h, first q)
      | None => match first q with None => Some (h, Some m) | Some _ => None end
      end) = Some (h', f) /\
    exists h'', store_next h' m None = Some h'' /\ queue_is h'' (Qu f (Some m)) (l ++ [m]) /\ touches h h'' l m.
Proof.
  intros [Hc Hl] [mm Hm] Hnin Hnd. rewrite Hl. destruct (tail_of l) as [z|] eqn:Ez.
  - apply tail_of_Some in Ez as [k ->]. apply NoDup_app in Hnd as (_ & Hz & _).
    assert (z ∉ k) as Hzk by (intros Hin; apply (Hz z Hin); by left).
    rewrite not_elem_of_app, list_elem_of_singleton in Hnin. destruct Hnin as [Hmk Hmz].
    destruct (chain_in h (first q) (k ++ [z]) z Hc) as [mz Hmz']; [apply elem_of_app; right; by left|].
    rewrite (store_next_spec h z _ mz Hmz'). ored. do 2 eexists; split; [done|].
    rewrite (store_next_spec _ m None mm) by (rewrite lookup_insert_ne by done; done). eexists; split; [done|].
    split; [split|split].
    + rewrite <- app_assoc. by apply chain_snoc.
    + by rewrite tail_of_snoc, ?app_assoc.
    + etransitivity; [by apply same_data_next|]. apply same_data_next. by rewrite lookup_insert_ne.
    + intros x Hx ?. rewrite not_elem_of_app, list_elem_of_singleton in Hx. destruct Hx as [_ Hx]. by rewrite !lookup_insert_ne by congruence.
  - apply tail_of_None in Ez as ->.
    simpl in Hc. rewrite Hc. do 2 eexists; split; [done|]. rewrite (store_next_spec h m None mm Hm). eexists; split; [done|].
    split; [split|split]; [|done|by apply same_data_next|intros x _ ?; by rewrite lookup_insert_ne].
    split; [done|]. exists (set_next mm None). by rewrite lookup_insert_eq.
Qed.

Lemma if_enqueue_spec h q l m :
  queue_is h q l -> is_Some (h !! m) -> m ∉ l -> NoDup l ->
  exists h' q', if_enqueue h m q = Some (h', q') /\ queue_is h' q' (l ++ [m]) /\ touches h h' l m.
Proof.
  intros Hq Hm Hn Hd. unfold if_enqueue. rewrite (queue_is_assert _ _ _ Hq).
  destruct (append_spec h q l m Hq Hm Hn Hd) as (h1 & f & -> & h2 & E & Hq' & Ht). ored. rewrite E. ored. eauto.
Qed.

(** [unackedMsgs] is a queue whose [first] and [last] have changed roles. *)
Definition swapq (q : Queue) : Queue := Qu (PrioQueues.last q) (first q).

Lemma if_insertUnacked_spec h q l m :
  queue_is h (swapq q) l -> is_Some (h !! m) -> m ∉ l -> NoDup l ->
  exists h' q', if_insertUnacked h q m = Some (h', q') /\ queue_is h' (swapq q') (l ++ [m]) /\ touches h h' l m.
Proof.
  intros [Hc Hl] [mm Hm] Hn Hd. unfold if_insertUnacked. rewrite (store_next_spec h m None mm Hm). ored.
  simpl in Hl. rewrite Hl. destruct (tail_of l) as [z|] eqn:Ez.
  - apply tail_of_Some in Ez as [k ->]. apply NoDup_app in Hd as (_ & Hz & _).
    assert (z ∉ k) as Hzk by (intros Hin; apply (Hz z Hin); by left).
    rewrite not_elem_of_app, list_elem_of_singleton in Hn. destruct Hn as [Hmk Hmz].
    destruct (chain_in h _ (k ++ [z]) z Hc) as [mz Hmz']; [apply elem_of_app; right; by left|].
    rewrite (store_next_spec _ z _ mz) by (by rewrite lookup_insert_ne). ored. do 2 eexists; split; [done|].
    rewrite insert_insert_ne by done. split; [split|split].
    + simpl. rewrite <- app_assoc. by apply chain_snoc.
    + by rewrite tail_of_snoc, ?app_assoc.
    + etransitivity; [by apply same_data_next|]. apply same_data_next. by rewrite lookup_insert_ne.
    + intros x Hx ?. rewrite not_elem_of_app, list_elem_of_singleton in Hx. destruct Hx as [_ Hx]. by rewrite !lookup_insert_ne by congruence.
  - apply tail_of_None in Ez as ->.
    do 2 eexists; split; [done|].
    split; [split|split]; [|done|by apply same_data_next|intros x _ ?; by rewrite lookup_insert_ne].
    split; [done|]. exists (set_next mm None). by rewrite lookup_insert_eq.
Qed.

(** ** The whole object *)

Record abs := Abs { aq : list (list ptr); aun : list ptr; arec : list ptr; a4 : Z; a3 : Z }.

Definition owned (a : abs) : list ptr := concat (aq a) ++ aun a ++ arec a.

Definition rep (h : store) (s : PrioQueues) (a : abs) : Prop :=
  zlen (aq a) = 5 /\ Forall2 (queue_is h) (qs s) (aq a) /\
  queue_is h (swapq (unackedMsgs s)) (aun a) /\ chain h (recList s) (arec a) /\
  NoDup (owned a) /\ noMsgs s = zlen (concat (aq a)) /\
  prio_val_4 s = a4 a /\ prio_val_3 s = a3 a /\
  match curq s with None => True | Some i => 0 <= i < 5 end.

(** A container that is in none of the lists, and belongs to the caller. *)
Definition free_cell (h : store) (a : abs) (m : ptr) : Prop := is_Some (h !! m) /\ m ∉ owned a.

Lemma concat_split {A} (L : list (list A)) (n : nat) l :
  L !! n = Some l -> concat L ≡ₚ l ++ concat (delete n L).
Proof.
  revert n. induction L as [|k L IH]; intros [|n]; try done; simpl.
  - by intros [= ->].
  - intros Hn. rewrite (IH n Hn), !app_assoc. by rewrite (Permutation_app_comm k).
Qed.

Lemma concat_insert {A} (L : list (list A)) (n : nat) l l' :
  L !! n = Some l -> concat (<[n := l']> L) ≡ₚ l' ++ concat (delete n L).
Proof.
  revert n. induction L as [|k L IH]; intros [|n] Hn; try done; simpl in *.
  rewrite (IH n Hn), !app_assoc. by rewrite (Permutation_app_comm k).
Qed.

Lemma elem_of_concat_delete {A} (L : list (list A)) (i j : nat) k x :
  L !! j = Some k -> j <> i -> x ∈ k -> x ∈ concat (delete i L).
Proof.
  revert i j. induction L as [|l L IH]; intros [|i] [|j] Hj Hne Hx; try done; simpl in *; rewrite ?elem_of_app.
  - rewrite (concat_split _ _ _ Hj), elem_of_app. by left.
  - simplify_eq. by left.
  - right. apply (IH i j); [done|lia|done].
Qed.

(** Replacing one of the five queues; [rest] holds the containers of all the other lists. *)
Section one_queue.
Context (h : store) (s : PrioQueues) (a : abs) (Hrep : rep h s a) (i : Z) (Hi : 0 <= i < 5).

Lemma queue_at : exists q l, (qs s).[i] = Some q /\ (aq a).[i] = Some l /\ queue_is h q l.
Proof using Hrep Hi.
  destruct Hrep as (Hz & HF & _). destruct (aget_Some (aq a) i) as [l Hl]; [lia|].
  pose proof (aget_lookup _ _ _ Hl) as Hl'. destruct (Forall2_lookup_r _ _ _ _ _ HF Hl') as (q & Hq & Hql).
  exists q, l. split_and!; [|done|done]. unfold aget. rewrite (proj2 (Z.leb_le 0 i)) by lia. done.
Qed.

Definition rest_of : list ptr := concat (delete (Z.to_nat i) (aq a)) ++ aun a ++ arec a.

Lemma owned_split l : (aq a).[i] = Some l -> owned a ≡ₚ l ++ rest_of.
Proof using Type.
  intros Hl%aget_lookup. unfold owned, rest_of. rewrite (concat_split _ _ _ Hl). by rewrite <- app_assoc.
Qed.

Lemma rep_set_queue l h' q' l' n v4 v3 v2 c :
  (aq a).[i] = Some l ->
  queue_is h' q' l' -> (forall x, x ∈ rest_of -> h' !! x = h !! x) -> NoDup (l' ++ rest_of) ->
  n = noMsgs s + zlen l' - zlen l -> match c with None => True | Some i => 0 <= i < 5 end ->
  exists ql, (qs s).[i <- q'] = Some ql /\
    rep h' (PQ ql (unackedMsgs s) (recList s) c v4 v3 v2 n) (Abs (<[Z.to_nat i := l']> (aq a)) (aun a) (arec a) v4 v3).
Proof using Hrep Hi.
  intros Hl Hq Hag Hnd Hn Hc. pose proof Hrep as (Hz & HF & Hu & Hr & _ & Hno & _).
  assert (zlen (qs s) = 5) as Hzq by (unfold zlen in *; rewrite (Forall2_length _ _ _ HF); done).
  rewrite aset_Some by lia. eexists; split; [done|]. unfold rep, owned. cbn.
  assert (forall x, x ∈ concat (delete (Z.to_nat i) (aq a)) \/ x ∈ aun a \/ x ∈ arec a -> h' !! x = h !! x) as Hag'.
  { intros x Hx. apply Hag. unfold rest_of. rewrite !elem_of_app. naive_solver. }
  pose proof (aget_lookup _ _ _ Hl) as Hl'. split_and!.
  - by rewrite zlen_insert.
  - apply Forall2_lookup. intros j. destruct (decide (j = Z.to_nat i)) as [->|Hne].
    + rewrite !list_lookup_insert_eq by (unfold zlen in *; lia). by constructor.
    + rewrite !list_lookup_insert_ne by done. destruct (qs s !! j) as [q|] eqn:Eq.
      * destruct (Forall2_lookup_l _ _ _ _ _ HF Eq) as (k & Hk & Hqk). rewrite Hk. constructor.
        apply (queue_is_agree h); [|done]. intros x Hx. apply Hag'. left.
        by apply (elem_of_concat_delete _ _ j k).
      * assert (aq a !! j = None) as ->; [|constructor]. apply lookup_ge_None in Eq. apply lookup_ge_None.
        by rewrite <- (Forall2_length _ _ _ HF).
  - apply (queue_is_agree h); [|done]. intros x Hx. apply Hag'. auto.
  - apply (chain_agree h); [|done]. intros x Hx. apply Hag'. auto.
  - rewrite (concat_insert _ _ _ l' Hl'), <- app_assoc. done.
  - rewrite Hn, Hno. unfold zlen. rewrite (Permutation_length (concat_insert _ _ _ l' Hl')), (Permutation_length (concat_split _ _ _ Hl')).
    rewrite !length_app. lia.
  - done.
  - done.
  - done.
Qed.
End one_queue.

(** ** Sending: the operations on the lists *)

Definition q_at (a : abs) (i : Z) : list ptr := default [] (aq a).[i].
Definition filled (a : abs) (i : Z) : bool := negb (bool_decide (q_at a i = [])).
Definition set_q (a : abs) (i : Z) (l : list ptr) (v4 v3 : Z) : abs :=
  Abs (<[Z.to_nat i := l]> (aq a)) (aun a) (arec a) v4 v3.

Definition a_enqueue (a : abs) (m : ptr) (prio : Z) : abs := set_q a prio (q_at a prio ++ [m]) (a4 a) (a3 a).
Definition a_requeue (a : abs) (m : ptr) (i : Z) : abs := set_q a i (m :: q_at a i) (a4 a) (a3 a).

(** The queue that is served, and the credits of the two middle priorities after it. *)
Definition pick (a : abs) : option Z * Z * Z :=
  if (0 <? a4 a) && filled a 3 then (Some 3, a4 a - 1, a3 a)
  else if (0 <? a3 a) && filled a 2 then (Some 2, Q_PRIO_VAL_4, a3 a - 1)
  else if filled a 1 then (Some 1, Q_PRIO_VAL_4, Q_PRIO_VAL_3)
  else if filled a 0 then (Some 0, Q_PRIO_VAL_4, Q_PRIO_VAL_3)
  else if filled a 3 then (Some 3, Q_PRIO_VAL_4 - 1, Q_PRIO_VAL_3)
  else if filled a 2 then (Some 2, Q_PRIO_VAL_4, Q_PRIO_VAL_3 - 1)
  else (None, Q_PRIO_VAL_4, Q_PRIO_VAL_3).

Definition a_take (a : abs) (i v4 v3 : Z) : option ptr * abs :=
  (head (q_at a i), set_q a i (tail (q_at a i)) v4 v3).

Definition a_getNext (working : bool) (a : abs) : option ptr * abs :=
  if filled a 4 then a_take a 4 (a4 a) (a3 a)
  else if working then
    let '(i, v4, v3) := pick a in
    match i with
    | Some i => a_take a i v4 v3
    | None => (None, Abs (aq a) (aun a) (arec a) v4 v3)
    end
  else (None, a).

Lemma filled_true a i : filled a i = true -> exists m l, q_at a i = m :: l.
Proof. unfold filled. destruct (q_at a i) as [|m l]; [done|]. by exists m, l. Qed.

Lemma filled_false a i : filled a i = false -> q_at a i = [].
Proof. unfold filled. by destruct (q_at a i). Qed.

Section sending.
Context (h : store) (s : PrioQueues) (a : abs) (Hrep : rep h s a).

Lemma q_at_spec i : 0 <= i < 5 -> exists q, (qs s).[i] = Some q /\ (aq a).[i] = Some (q_at a i) /\ queue_is h q (q_at a i).
Proof using Hrep.
  intros Hi. destruct (queue_at h s a Hrep i Hi) as (q & l & ? & E & ?). exists q. unfold q_at. by rewrite E.
Qed.

Lemma nonEmpty_spec i : 0 <= i < 5 -> nonEmpty s i = Some (filled a i).
Proof using Hrep.
  intros Hi. destruct (q_at_spec i Hi) as (q & Hq & _ & Hql). unfold nonEmpty. rewrite Hq. ored.
  by rewrite (queue_is_empty _ _ _ Hql).
Qed.

Lemma owned_facts i :
  0 <= i < 5 -> NoDup (q_at a i ++ rest_of a i) /\ owned a ≡ₚ q_at a i ++ rest_of a i.
Proof using Hrep.
  intros Hi. destruct (q_at_spec i Hi) as (q & _ & Hl & _). pose proof (owned_split a i _ Hl) as Hp.
  split; [|done]. rewrite <- Hp. apply Hrep.
Qed.

Lemma enqueue_spec m i :
  0 <= i < 5 -> free_cell h a m ->
  exists h' s', enqueue h s m i = Some (h', s') /\ rep h' s' (a_enqueue a m i) /\ touches h h' (owned a) m.
Proof using Hrep.
  intros Hi [Hm Hfree]. destruct (q_at_spec i Hi) as (q & Hq & Hl & Hql).
  destruct (owned_facts i Hi) as [Hnd Hp]. rewrite Hp, not_elem_of_app in Hfree. destruct Hfree as [Hml Hmr].
  pose proof Hnd as Hnd'. apply NoDup_app in Hnd' as (Hn1 & Hn2 & _).
  destruct (if_enqueue_spec h q _ m Hql Hm Hml Hn1) as (h' & q' & E & Hq' & [Hd Ht]).
  unfold enqueue. destruct Hi as [Hi1 Hi2]. rewrite (proj2 (Z.leb_le 0 i)), (proj2 (Z.ltb_lt i 5)), Hq by lia. ored.
  rewrite E. ored.
  destruct (rep_set_queue h s a Hrep i (conj Hi1 Hi2) _ h' q' (q_at a i ++ [m]) (noMsgs s + 1)
    (prio_val_4 s) (prio_val_3 s) (prio_val_2 s) (curq s) Hl Hq') as (ql & Eq & Hr).
  - intros x Hx. apply Ht; [intros ?; by apply (Hn2 x)|by intros ->].
  - rewrite <- app_assoc, (Permutation_app_comm [m]), app_assoc. apply NoDup_app. split_and!; [done| |apply NoDup_singleton].
    intros x Hx ->%list_elem_of_singleton. apply elem_of_app in Hx as [?|?]; contradiction.
  - rewrite zlen_snoc. lia.
  - apply Hrep.
  - unfold set_queue, set_noMsgs. cbn [qs unackedMsgs recList curq prio_val_4 prio_val_3 prio_val_2 noMsgs].
    rewrite Eq. ored. do 2 eexists; split; [done|]. split.
    + destruct Hrep as (_ & _ & _ & _ & _ & _ & H4 & H3 & _). unfold a_enqueue, set_q. by rewrite <- H4, <- H3.
    + split; [done|]. intros x Hx ?. apply Ht; [|done]. rewrite Hp, not_elem_of_app in Hx. tauto.
Qed.

Lemma take_from_spec i m l :
  0 <= i < 5 -> q_at a i = m :: l ->
  exists ql, take_from h s i = Some (Some m, PQ ql (unackedMsgs s) (recList s) (Some i)
      (prio_val_4 s) (prio_val_3 s) (prio_val_2 s) (noMsgs s)) /\
    (forall v4 v3 v2, rep h (PQ ql (unackedMsgs s) (recList s) (Some i) v4 v3 v2 (noMsgs s - 1)) (set_q a i l v4 v3)) /\
    free_cell h (set_q a i l (a4 a) (a3 a)) m.
Proof using Hrep.
  intros Hi E. destruct (q_at_spec i Hi) as (q & Hq & Hl & Hql).
  destruct (owned_facts i Hi) as [Hnd Hp]. rewrite E in *.
  pose proof (queue_is_assert _ _ _ Hql) as Ha. destruct Hql as [(Ef & md & Hmd & Hc) Hla].
  assert (queue_is h (Qu (a_next md) (match a_next md with None => None | Some _ => PrioQueues.last q end)) l) as Hq'.
  { split; [done|]. simpl. rewrite (chain_head _ _ _ Hc), Hla, tail_of_cons. destruct l as [|x l]; [done|].
    simpl head. rewrite tail_of_cons. by destruct (tail_of l). }
  apply NoDup_app in Hnd as (Hn1 & Hn2 & Hn3). apply NoDup_cons in Hn1 as [Hm Hn1].
  assert (NoDup (l ++ rest_of a i)) as Hnd'.
  { apply NoDup_app. split_and!; [done| |done]. intros x Hx. apply Hn2. by right. }
  unfold take_from, if_removeFirst. rewrite Hq. ored. rewrite Ha, Ef, Hmd. ored.
  destruct (rep_set_queue h s a Hrep i Hi _ h _ l (noMsgs s - 1) 0 0 0 (Some i) Hl Hq') as (ql & Eq & _);
    [done|done|rewrite zlen_cons; lia|done|].
  exists ql. rewrite Eq. ored. split; [done|]. split.
  - intros v4 v3 v2. destruct (rep_set_queue h s a Hrep i Hi _ h _ l (noMsgs s - 1) v4 v3 v2 (Some i) Hl Hq')
      as (ql' & Eq' & Hr); [done|done|rewrite zlen_cons; lia|done|].
    assert (ql' = ql) as -> by congruence. done.
  - split; [by eexists|]. unfold owned, set_q. cbn [aq aun arec].
    rewrite (concat_insert _ _ _ l (aget_lookup _ _ _ Hl)), <- app_assoc.
    fold (rest_of a i). rewrite not_elem_of_app. split; [done|]. apply Hn2. by left.
Qed.
End sending.

(** The credits are not part of the linked structure. *)
Lemma rep_set_prio h s a v4 v3 v2 :
  rep h s a -> rep h (set_prio s v4 v3 v2) (Abs (aq a) (aun a) (arec a) v4 v3).
Proof. unfold rep, owned. cbn. intros (? & ? & ? & ? & ? & ? & _ & _ & ?). by split_and!. Qed.

(** What [take_from] leaves, with the credits [v4] and [v3] and one message less. *)
Definition takes (h : store) (s : PrioQueues) (r : option (option ptr * PrioQueues)) (p : option ptr * abs) : Prop :=
  exists m s', r = Some (Some m, s') /\ p.1 = Some m /\ rep h (set_noMsgs s' (noMsgs s - 1)) p.2 /\ noMsgs s' = noMsgs s.

Lemma take_from_takes h s a i v4 v3 f :
  rep h s a -> 0 <= i < 5 -> filled a i = true ->
  (forall s', noMsgs (f s') = noMsgs s' /\ qs (f s') = qs s' /\ unackedMsgs (f s') = unackedMsgs s' /\
     recList (f s') = recList s' /\ curq (f s') = curq s') ->
  (forall s', prio_val_4 s' = prio_val_4 s -> prio_val_3 s' = prio_val_3 s ->
     prio_val_4 (f s') = v4 /\ prio_val_3 (f s') = v3) ->
  takes h s ('(ret, s) ← take_from h s i; Some (ret, f s)) (a_take a i v4 v3).
Proof.
  intros Hrep Hi Hf Hkeep Hcred. destruct (filled_true _ _ Hf) as (m & l & E).
  destruct (take_from_spec h s a Hrep i m l Hi E) as (ql & -> & Hr & _). ored.
  match goal with |- context [f ?x] => set (s' := x); destruct (Hkeep s') as (K1 & K2 & K3 & K4 & K5);
    destruct (Hcred s') as [K6 K7]; [done..|] end.
  exists m, (f s'). unfold a_take. rewrite E. split_and!; try done.
  destruct (f s') as [x1 x2 x3 x4 x5 x6 x7 x8]. simpl in *. subst. apply Hr.
Qed.

Lemma getNext_loop_spec h s a :
  rep h s a ->
  let '(i, v4, v3) := pick a in
  match i with
  | Some i => takes h s (getNext_loop 3 h s) (a_take a i v4 v3) /\ 0 <= i < 4 /\ filled a i = true
  | None => exists v2, getNext_loop 3 h s = Some (None, set_prio s v4 v3 v2) /\
      filled a 3 = false /\ filled a 2 = false /\ filled a 1 = false /\ filled a 0 = false
  end.
Proof.
  intros Hrep. pose proof (nonEmpty_spec h s a Hrep) as Hne.
  assert (prio_val_4 s = a4 a /\ prio_val_3 s = a3 a) as [H4 H3] by (unfold rep in Hrep; tauto).
  unfold pick. rewrite <- H4, <- H3. cbn [getNext_loop]. rewrite !Hne by lia. ored.
  destruct ((0 <? prio_val_4 s) && filled a 3) eqn:E1.
  { apply andb_true_iff in E1 as [_ F3]. split; [|split; [lia|done]].
    apply (take_from_takes h s a 3 _ _ (fun s => set_prio s (prio_val_4 s - 1) (prio_val_3 s) (prio_val_2 s)));
      try done; try lia. by intros s' -> ->. }
  cbn [prio_val_3 set_prio]. set (s1 := set_prio s Q_PRIO_VAL_4 (prio_val_3 s) (prio_val_2 s)).
  assert (rep h s1 (Abs (aq a) (aun a) (arec a) Q_PRIO_VAL_4 (prio_val_3 s))) as R1 by by apply rep_set_prio.
  destruct ((0 <? prio_val_3 s) && filled a 2) eqn:E2.
  { apply andb_true_iff in E2 as [_ F2]. split; [|split; [lia|done]].
    apply (take_from_takes h s1 _ 2 _ _ (fun s => set_prio s (prio_val_4 s) (prio_val_3 s - 1) (prio_val_2 s)) R1);
      try done; try lia. by intros s' -> ->. }
  set (s2 := set_prio s1 (prio_val_4 s1) Q_PRIO_VAL_3 (prio_val_2 s1)).
  assert (rep h s2 (Abs (aq a) (aun a) (arec a) Q_PRIO_VAL_4 Q_PRIO_VAL_3)) as R2 by by apply (rep_set_prio h s1 _ _ _ _ R1).
  assert (forall s0 i, rep h s0 (Abs (aq a) (aun a) (arec a) Q_PRIO_VAL_4 Q_PRIO_VAL_3) -> noMsgs s0 = noMsgs s ->
    0 <= i < 5 -> filled a i = true -> takes h s (take_from h s0 i) (a_take a i Q_PRIO_VAL_4 Q_PRIO_VAL_3)) as Hplain.
  { intros s0 i R0 Hno Hi Fi. destruct (take_from_takes h s0 _ i Q_PRIO_VAL_4 Q_PRIO_VAL_3 (fun s => s) R0 Hi Fi)
      as (m & s' & E & ? & ? & ?); [done| |].
    - intros s' -> ->. destruct R0 as (_ & _ & _ & _ & _ & _ & -> & -> & _). done.
    - exists m, s'. rewrite <- Hno. split_and!; try done. destruct (take_from h s0 i) as [[r s3]|]; [|done]. done. }
  destruct (filled a 1) eqn:F1; [split; [by apply Hplain|split; [lia|done]]|].
  destruct (filled a 0) eqn:F0.
  { split; [|split; [lia|done]]. apply Hplain; try done; try lia; by apply (rep_set_prio h s2 _ _ _ _ R2). }
  rewrite orb_false_r. set (s3 := set_prio s2 (prio_val_4 s2) (prio_val_3 s2) Q_PRIO_VAL_2).
  assert (rep h s3 (Abs (aq a) (aun a) (arec a) Q_PRIO_VAL_4 Q_PRIO_VAL_3)) as R3 by by apply (rep_set_prio h s2 _ _ _ _ R2).
  pose proof (nonEmpty_spec h s3 _ R3) as Hne3. rewrite !Hne3 by lia. ored.
  change (filled (Abs (aq a) (aun a) (arec a) Q_PRIO_VAL_4 Q_PRIO_VAL_3)) with (filled a).
  destruct (filled a 3) eqn:F3; cbn [orb andb].
  { split; [|split; [lia|done]]. change (0 <? prio_val_4 s3) with true. cbn [andb].
    apply (take_from_takes h s3 _ 3 _ _ (fun s => set_prio s (prio_val_4 s - 1) (prio_val_3 s) (prio_val_2 s)) R3);
      try done; try lia. by intros s' -> ->. }
  destruct (filled a 2) eqn:F2; cbn [orb andb].
  { split; [|split; [lia|done]]. rewrite andb_false_r. change (0 <? prio_val_3 (set_prio s3 _ _ _)) with true. cbn [andb].
    apply (take_from_takes h (set_prio s3 Q_PRIO_VAL_4 (prio_val_3 s3) (prio_val_2 s3)) _ 2 _ _
      (fun s => set_prio s (prio_val_4 s) (prio_val_3 s - 1) (prio_val_2 s)) (rep_set_prio _ _ _ _ _ _ R3));
      try done; try lia. by intros s' -> ->. }
  by exists Q_PRIO_VAL_2.
Qed.

Lemma hasQueued_spec h s a :
  rep h s a -> (forall i, 0 <= i < 5 -> filled a i = false) -> hasQueued s = Some false.
Proof.
  intros (Hz & HF & _ & _ & _ & Hno & _) Hf. unfold hasQueued. rewrite Hno.
  assert (Forall (fun l => l = []) (aq a)) as Hall.
  { apply Forall_aget. intros i l Hl. pose proof (aget_Some_inv _ _ _ Hl). specialize (Hf i ltac:(lia)).
    apply filled_false in Hf. unfold q_at in Hf. by rewrite Hl in Hf. }
  assert (zlen (concat (aq a)) = 0) as ->.
  { clear -Hall. induction Hall as [|l L -> _ IH]; [done|]. done. }
  clear -HF Hall. induction HF as [|q l Q L [Hc _] _ IH]; [done|]. apply Forall_cons in Hall as [-> Hall].
  cbn [hasQueued_loop]. rewrite Hc. by apply IH.
Qed.

Lemma getNext_spec h s a working :
  rep h s a -> exists s', getNext h s working = Some ((a_getNext working a).1, s') /\ rep h s' (a_getNext working a).2.
Proof.
  intros Hrep. unfold getNext, a_getNext. rewrite (nonEmpty_spec h s a Hrep) by lia. ored.
  assert (prio_val_4 s = a4 a /\ prio_val_3 s = a3 a) as [H4 H3] by (unfold rep in Hrep; tauto).
  destruct (filled a 4) eqn:F4.
  - destruct (take_from_takes h s a 4 (a4 a) (a3 a) (fun s => s) Hrep) as (m & s' & E & Em & Hr & Hn); try done; try lia.
    destruct (take_from h s 4) as [[r s0]|]; [|done]. ored in E. injection E as -> ->. ored. rewrite Em, Hn. by eexists.
  - destruct working; [|by exists s].
    pose proof (getNext_loop_spec h s a Hrep) as Hl. destruct (pick a) as [[[i|] v4] v3].
    + destruct Hl as ((m & s' & -> & Em & Hr & Hn) & _). ored. rewrite Em, Hn. by eexists.
    + destruct Hl as (v2 & -> & F3 & F2 & F1 & F0). ored. pose proof (rep_set_prio h s a v4 v3 v2 Hrep) as Hr.
      rewrite (hasQueued_spec h _ _ Hr); [by eexists|]. intros i Hi.
      assert (i = 0 \/ i = 1 \/ i = 2 \/ i = 3 \/ i = 4) as [->|[->|[->|[->| ->]]]] by lia; done.
Qed.
