(* ===== verification/PrioQueuesOps.v ===== *)
(** * The remaining queue operations on lists

    Re-queueing, the unacknowledged and the received messages, acknowledgements
    and the clearing operations of [PrioQueues], each against its effect on the
    lists of [PrioQueuesSpec]. *)
From stdpp Require Import gmap.
From S2P Require Import Prelude Word32 PrioQueues PrioQueuesSpec.
Import PrioQueues.

(** ** Deletion of containers *)

Definition remove_all (h : store) (l : list ptr) : store := foldl (fun h c => delete c h) h l.

Lemma remove_all_lookup h l x : remove_all h l !! x = if bool_decide (x ∈ l) then None else h !! x.
Proof.
  revert h. induction l as [|c l IH]; intros h; [done|]. cbn [remove_all foldl].
  change (remove_all (delete c h) l !! x = if bool_decide (x ∈ c :: l) then None else h !! x).
  rewrite IH. destruct (decide (x = c)) as [->|Hne].
  - rewrite lookup_delete_eq, (bool_decide_eq_true_2 (c ∈ c :: l)) by by left. by destruct (bool_decide _).
  - rewrite lookup_delete_ne by done. rewrite (bool_decide_ext (x ∈ c :: l) (x ∈ l)); [done|].
    rewrite elem_of_cons. tauto.
Qed.

Lemma remove_all_other h l x : x ∉ l -> remove_all h l !! x = h !! x.
Proof. intros. rewrite remove_all_lookup. by rewrite bool_decide_eq_false_2. Qed.
Lemma remove_all_gone h l x : x ∈ l -> remove_all h l !! x = None.
Proof. intros. rewrite remove_all_lookup. by rewrite bool_decide_eq_true_2. Qed.

(** The list of a chain is no longer than the store, which bounds the loops. *)
Lemma chain_length h p l : chain h p l -> NoDup l -> (length l <= base.size h)%nat.
Proof.
  intros Hc Hnd. rewrite <- (size_list_to_set (C := gset ptr) l) by done. rewrite <- (size_dom (D := gset ptr) h).
  apply subseteq_size. intros x Hx%elem_of_list_to_set. apply elem_of_dom. by eapply chain_in.
Qed.

Lemma chain_cons h p x l :
  chain h p (x :: l) -> p = Some x /\ exists m, h !! x = Some m /\ chain h (a_next m) l.
Proof. done. Qed.

Lemma chain_delete h p x l : x ∉ l -> chain h p l -> chain (delete x h) p l.
Proof. intros Hx. apply chain_agree. intros y Hy. rewrite lookup_delete_ne; [done|]. by intros ->. Qed.

Lemma deleteList_spec l : forall fuel h p,
  chain h p l -> NoDup l -> (length l < fuel)%nat -> deleteList fuel h p = Some (remove_all h l, zlen l).
Proof.
  induction l as [|x l IH]; intros [|fuel] h p Hc Hnd Hf; simpl in Hf; try lia.
  - simpl in Hc. by subst p.
  - destruct Hc as (-> & m & Hm & Hc). apply NoDup_cons in Hnd as [Hx Hnd]. cbn [deleteList]. rewrite Hm. ored.
    rewrite IH; [|by apply chain_delete|done|lia]. ored. by rewrite zlen_cons.
Qed.

(** ** Replacing the lists that are not send queues *)

Lemma rep_curq h s a : rep h s a -> match curq s with None => True | Some i => 0 <= i < 5 end.
Proof. unfold rep. tauto. Qed.

Lemma rep_frame h s a h' u un r rc :
  rep h s a -> (forall x, x ∈ concat (aq a) -> h' !! x = h !! x) ->
  queue_is h' (swapq u) un -> chain h' r rc -> NoDup (concat (aq a) ++ un ++ rc) ->
  rep h' (set_recList (set_unacked s u) r) (Abs (aq a) un rc (a4 a) (a3 a)).
Proof.
  intros (Hz & HF & _ & _ & _ & ? & ? & ? & ?) Hag Hu Hr Hnd. unfold rep, owned. cbn. split_and!; try done.
  clear -HF Hag. induction HF as [|q l Q L Hq _ IH]; [done|]. constructor.
  - apply (queue_is_agree h); [|done]. intros x Hx. apply Hag. cbn [concat]. apply elem_of_app. by left.
  - apply IH. intros x Hx. apply Hag. cbn [concat]. apply elem_of_app. by right.
Qed.

(** Data other than the links may change anywhere. *)
Lemma rep_data h s a c m m' :
  h !! c = Some m -> a_next m' = a_next m -> rep h s a -> rep (<[c := m']> h) s a.
Proof.
  intros Hc Hn (? & HF & Hu & Hr & ?). unfold rep. split_and!; try tauto.
  - eapply Forall2_impl; [exact HF|]. intros. by eapply queue_is_data.
  - by eapply queue_is_data.
  - by eapply chain_data.
Qed.

Lemma set_recList_same s : set_recList s (recList s) = s.
Proof. by destruct s. Qed.
Lemma set_unacked_same s : set_unacked s (unackedMsgs s) = s.
Proof. by destruct s. Qed.

Section other_lists.
Context (h : store) (s : PrioQueues) (a : abs) (Hrep : rep h s a).

Lemma rep_parts :
  queue_is h (swapq (unackedMsgs s)) (aun a) /\ chain h (recList s) (arec a) /\
  NoDup (concat (aq a)) /\ NoDup (aun a) /\ NoDup (arec a) /\
  (forall x, x ∈ aun a -> x ∉ concat (aq a)) /\ (forall x, x ∈ arec a -> x ∉ concat (aq a)) /\
  (forall x, x ∈ arec a -> x ∉ aun a).
Proof using Hrep.
  pose proof Hrep as (_ & _ & ? & ? & Hnd & _). unfold owned in Hnd.
  apply NoDup_app in Hnd as (? & D1 & Hnd). apply NoDup_app in Hnd as (? & D2 & ?).
  split_and!; try done; intros x Hx Hx'.
  - apply (D1 x Hx'). apply elem_of_app. by left.
  - apply (D1 x Hx'). apply elem_of_app. by right.
  - by apply (D2 x Hx').
Qed.

Lemma insertUnacked_spec m :
  free_cell h a m ->
  exists h' s', insertUnacked h s m = Some (h', s') /\
    rep h' s' (Abs (aq a) (aun a ++ [m]) (arec a) (a4 a) (a3 a)) /\ touches h h' (owned a) m.
Proof using Hrep.
  intros [Hm Hfree]. destruct rep_parts as (Hu & Hr & N1 & N2 & N3 & D1 & D2 & D3).
  pose proof Hfree as Hfree'. unfold owned in Hfree'. rewrite !not_elem_of_app in Hfree'. destruct Hfree' as (F1 & F2 & F3).
  destruct (if_insertUnacked_spec h _ _ m Hu Hm F2 N2) as (h' & q' & E & Hq' & Hd & Ht).
  unfold insertUnacked. rewrite E. ored. do 2 eexists; split; [done|]. split.
  - rewrite <- (set_recList_same (set_unacked s q')). apply (rep_frame h); try done.
    + intros x Hx. apply Ht; [|by intros ->]. intros Hx'. by apply (D1 x).
    + apply (chain_agree h); [|done]. intros x Hx. apply Ht; [by apply D3|by intros ->].
    + rewrite <- app_assoc. pose proof Hrep as (_ & _ & _ & _ & Hnd & _). unfold owned in Hnd.
      rewrite (Permutation_app_comm [m]), !app_assoc, <- (app_assoc (concat _)). apply NoDup_app.
      split_and!; [done| |apply NoDup_singleton]. intros x Hx ->%list_elem_of_singleton. by apply Hfree.
  - split; [done|]. intros x Hx ?. apply Ht; [|done]. intros ?. apply Hx. unfold owned. rewrite !elem_of_app. tauto.
Qed.

Lemma putRec_spec m :
  free_cell h a m ->
  exists h' s', putRec h s m = Some (h', s') /\
    rep h' s' (Abs (aq a) (aun a) (m :: arec a) (a4 a) (a3 a)) /\ touches h h' [] m.
Proof using Hrep.
  intros [[mm Hm] Hfree]. destruct rep_parts as (Hu & Hr & N1 & N2 & N3 & D1 & D2 & D3).
  pose proof Hfree as Hfree'. unfold owned in Hfree'. rewrite !not_elem_of_app in Hfree'. destruct Hfree' as (F1 & F2 & F3).
  unfold putRec. rewrite (store_next_spec _ _ _ _ Hm). ored. do 2 eexists; split; [done|].
  assert (forall x, x <> m -> <[m:=set_next mm (recList s)]> h !! x = h !! x) as Hag
    by (intros; by rewrite lookup_insert_ne).
  split.
  - rewrite <- (set_unacked_same s) at 2. apply (rep_frame h); try done.
    + intros x Hx. apply Hag. by intros ->.
    + apply (queue_is_agree h); [|done]. intros x Hx. apply Hag. by intros ->.
    + split; [done|]. exists (set_next mm (recList s)). rewrite lookup_insert_eq. split; [done|].
      apply (chain_agree h); [|done]. intros x Hx. apply Hag. by intros ->.
    + pose proof Hrep as (_ & _ & _ & _ & Hnd & _). unfold owned in Hnd.
      rewrite app_assoc, <- Permutation_middle, <- app_assoc. by constructor.
  - split; [by apply same_data_next|]. intros x _ ?. by apply Hag.
Qed.

(** A container that was not sent completely goes back to the head of its queue. *)
Lemma requeue_spec m i :
  curq s = Some i -> free_cell h a m ->
  exists h' s', requeue h s m = Some (h', s') /\ rep h' s' (a_requeue a m i) /\ touches h h' [] m.
Proof using Hrep.
  intros Hcur [[mm Hm] Hfree]. pose proof (rep_curq _ _ _ Hrep) as Hi. rewrite Hcur in Hi.
  destruct (q_at_spec h s a Hrep i Hi) as (q & Hq & Hl & Hql).
  destruct (owned_facts h s a Hrep i Hi) as [Hnd Hp]. rewrite Hp, not_elem_of_app in Hfree. destruct Hfree as [Hml Hmr].
  assert (forall x, x <> m -> <[m:=set_next mm (first q)]> h !! x = h !! x) as Hag
    by (intros; by rewrite lookup_insert_ne).
  assert (queue_is (<[m:=set_next mm (first q)]> h)
    (Qu (Some m) (match PrioQueues.last q with None => Some m | l => l end)) (m :: q_at a i)) as Hq'.
  { destruct Hql as [Hc Hla]. split.
    - split; [done|]. exists (set_next mm (first q)). rewrite lookup_insert_eq. split; [done|].
      apply (chain_agree h); [|done]. intros x Hx. apply Hag. by intros ->.
    - simpl PrioQueues.last. by rewrite Hla, tail_of_cons; destruct (tail_of (q_at a i)). }
  unfold requeue, if_addFirst. rewrite Hcur. ored. rewrite Hq. ored. rewrite (store_next_spec _ _ _ _ Hm). ored.
  destruct (rep_set_queue h s a Hrep i Hi _ _ _ _ (noMsgs s + 1)
    (prio_val_4 s) (prio_val_3 s) (prio_val_2 s) (curq s) Hl Hq') as (ql & Eq & Hr).
  - intros x Hx. apply Hag. by intros ->.
  - simpl. constructor; [|done]. rewrite not_elem_of_app. done.
  - rewrite zlen_cons. lia.
  - apply Hrep.
  - unfold set_queue, set_noMsgs. cbn [qs unackedMsgs recList curq prio_val_4 prio_val_3 prio_val_2 noMsgs].
    rewrite Eq. ored. do 2 eexists; split; [done|]. split.
    + destruct Hrep as (_ & _ & _ & _ & _ & _ & H4 & H3 & _). unfold a_requeue, set_q. by rewrite <- H4, <- H3.
    + split; [by apply same_data_next|]. intros x _ ?. by apply Hag.
Qed.
End other_lists.

(** ** Acknowledgements *)

(** The containers of [l] are allocated and numbered by [nums]. *)
Definition numbered (h : store) (nums : ptr -> Z) (l : list ptr) : Prop :=
  forall x, x ∈ l -> exists m, h !! x = Some m /\ a_num m = nums x.

(** The messages in front of the first one that is not older than [num], and the others. *)
Fixpoint older (nums : ptr -> Z) (num : Z) (l : list ptr) : list ptr :=
  match l with [] => [] | c :: l => if nums c <? num then c :: older nums num l else [] end.
Fixpoint younger (nums : ptr -> Z) (num : Z) (l : list ptr) : list ptr :=
  match l with [] => [] | c :: k => if nums c <? num then younger nums num k else l end.

Lemma older_younger nums num l : older nums num l ++ younger nums num l = l.
Proof. induction l as [|c l IH]; [done|]. simpl. destruct (_ <? _); [|done]. simpl. by rewrite IH. Qed.

(** What an acknowledgement removes and keeps. *)
Definition gone (nums : ptr -> Z) (num : Z) (l : list ptr) : list ptr :=
  older nums num l ++ take 1 (younger nums num l).
Definition kept (nums : ptr -> Z) (num : Z) (l : list ptr) : list ptr := drop 1 (younger nums num l).

Lemma gone_kept nums num l : gone nums num l ++ kept nums num l = l.
Proof. unfold gone, kept. by rewrite <- app_assoc, take_drop, older_younger. Qed.

Lemma numbered_delete h nums c l : c ∉ l -> numbered h nums (c :: l) -> numbered (delete c h) nums l.
Proof.
  intros Hc H x Hx. destruct (H x) as (m & Hm & ?); [by right|]. exists m.
  rewrite lookup_delete_ne; [done|]. by intros ->.
Qed.

Lemma acked_loop_spec nums num l : forall fuel h p,
  chain h p l -> NoDup l -> numbered h nums l -> (length l < fuel)%nat ->
  exists h', acked_loop fuel h p num = Some (h', head (younger nums num l)) /\ h' = remove_all h (older nums num l) /\
    chain h' (head (younger nums num l)) (younger nums num l).
Proof.
  induction l as [|c l IH]; intros [|fuel] h p Hc Hnd Hn Hf; simpl in Hf; try lia.
  - simpl in Hc. subst p. by exists h.
  - pose proof Hc as Hc'. destruct Hc as (-> & m & Hm & Hc). apply NoDup_cons in Hnd as [Hcl Hnd].
    destruct (Hn c) as (m' & Hm' & En); [by left|]. simplify_eq. cbn [acked_loop older younger]. rewrite Hm. ored.
    rewrite En. destruct (Z.ltb_spec (nums c) num).
    + apply IH; [by apply chain_delete|done|by apply numbered_delete|lia].
    + by exists h.
Qed.

(** Queueing does not look at the unacknowledged messages. *)
Lemma enqueue_set_unacked h s u m i :
  enqueue h (set_unacked s u) m i = '(h, s) ← enqueue h s m i; Some (h, set_unacked s u).
Proof.
  unfold enqueue. destruct (_ && _); [|done]. cbn [qs set_unacked]. destruct (qs s).[i]; [|done]. ored.
  destruct (if_enqueue _ _ _) as [[h' q']|]; [|done]. ored. unfold set_queue. cbn [qs set_noMsgs set_unacked].
  by destruct (qs s).[i <- q'].
Qed.

Lemma resend_loop_set_unacked fuel : forall h s u cur,
  resend_loop fuel h (set_unacked s u) cur = '(h, s) ← resend_loop fuel h s cur; Some (h, set_unacked s u).
Proof.
  induction fuel as [|fuel IH]; intros h s u [c|]; try done. cbn [resend_loop].
  destruct (h !! c) as [m|]; [|done]. ored. rewrite enqueue_set_unacked.
  destruct (enqueue _ s c 3) as [[h' s']|]; [|done]. ored. apply IH.
Qed.

(** Queueing again what was not acknowledged. *)
Definition reset_data (l : list ptr) (h h' : store) : Prop :=
  forall x, set_next <$> (h' !! x) =
    set_next <$> (if bool_decide (x ∈ l) then resetMarshaling <$> (h !! x) else h !! x).

Lemma a_enqueue_twice a m l i :
  0 <= i < 5 -> zlen (aq a) = 5 ->
  set_q (a_enqueue a m i) i (q_at (a_enqueue a m i) i ++ l) (a4 a) (a3 a) = set_q a i (q_at a i ++ m :: l) (a4 a) (a3 a).
Proof.
  intros Hi Hz. unfold a_enqueue, set_q, q_at. cbn [aq aun arec a4 a3].
  rewrite aget_insert, Z.eqb_refl by lia. simpl. by rewrite list_insert_insert_eq, <- app_assoc.
Qed.

Lemma resend_loop_spec l : forall fuel h s a p,
  rep h s a -> chain h p l -> NoDup l -> (forall x, x ∈ l -> x ∉ owned a) -> (length l < fuel)%nat ->
  exists h' s', resend_loop fuel h s p = Some (h', s') /\ rep h' s' (set_q a 3 (q_at a 3 ++ l) (a4 a) (a3 a)) /\
    reset_data l h h'.
Proof.
  induction l as [|c l IH]; intros [|fuel] h s a p Hrep Hc Hnd Hdis Hf; simpl in Hf; try lia.
  - simpl in Hc. subst p. exists h, s. split; [done|]. split; [|by intros x].
    destruct (q_at_spec h s a Hrep 3 ltac:(lia)) as (q & _ & Hl & _). apply aget_lookup in Hl.
    unfold set_q. rewrite app_nil_r, list_insert_id by done. by destruct a.
  - destruct Hc as (-> & m & Hm & Hc). apply NoDup_cons in Hnd as [Hcl Hnd]. cbn [resend_loop]. rewrite Hm. ored.
    assert (rep (<[c:=resetMarshaling m]> h) s a) as Hr1 by by eapply rep_data.
    destruct (enqueue_spec _ s a Hr1 c 3 ltac:(lia)) as (h1 & s1 & -> & Hr & Hd & Ht).
    { split; [by rewrite lookup_insert_eq|]. apply Hdis. by left. }
    ored. destruct (IH fuel h1 s1 _ (a_next m) Hr) as (h' & s' & E & Hr' & Hd'); [|done| |lia|].
    + apply (chain_agree h); [|done]. intros x Hx. rewrite Ht; [|apply Hdis; by right|by intros ->].
      rewrite lookup_insert_ne; [done|]. by intros ->.
    + destruct (owned_facts h s a Hrep 3 ltac:(lia)) as [_ Hp].
      intros x Hx Ho. unfold a_enqueue, set_q, owned in Ho. cbn [aq aun arec] in Ho.
      destruct (q_at_spec h s a Hrep 3 ltac:(lia)) as (q & _ & Hl & _). apply aget_lookup in Hl.
      rewrite (concat_insert _ _ _ _ Hl), <- !app_assoc, (Permutation_app_swap_app _ [c]) in Ho.
      apply elem_of_app in Ho as [->%list_elem_of_singleton|Ho]; [done|].
      apply (Hdis x); [by right|]. rewrite Hp. done.
    + exists h', s'. split; [done|]. split.
      * rewrite <- (a_enqueue_twice a c l 3) by (try lia; apply Hrep). exact Hr'.
      * intros x. rewrite Hd'. specialize (Hd x).
        destruct (decide (x = c)) as [->|Hne].
        -- rewrite bool_decide_eq_false_2 by done. rewrite Hd, lookup_insert_eq.
           rewrite bool_decide_eq_true_2 by by left. by rewrite Hm.
        -- rewrite lookup_insert_ne in Hd by done.
           rewrite (bool_decide_ext (x ∈ c :: l) (x ∈ l)) by (rewrite elem_of_cons; tauto).
           destruct (bool_decide (x ∈ l)); [|done].
           destruct (h1 !! x) as [m1|], (h !! x) as [m2|]; try done. simpl in *.
           assert (set_next m1 None = set_next m2 None) as E2 by congruence.
           destruct m1, m2. unfold set_next, resetMarshaling in *. simpl in *. by simplify_eq.
Qed.

(** The round trip time reported for the message that is acknowledged. *)
Definition a_rtt (now : LongTime.DSS_LongTime) (h : store) (calcrtt : bool) (c : option ptr) : Z :=
  match c with
  | None => -1
  | Some c =>
      match h !! c with
      | Some m => if calcrtt && LongTime.ne (a_sendTime m) LongTime.newTime then LongTime.minus now (a_sendTime m) else -1
      | None => -1
      end
  end.

Lemma remove_all_app h l k : remove_all h (l ++ k) = remove_all (remove_all h l) k.
Proof. apply foldl_app. Qed.

Lemma younger_incl nums num l x : x ∈ younger nums num l -> x ∈ l.
Proof. intros Hx. rewrite <- (older_younger nums num l). apply elem_of_app. by right. Qed.

(** What is left of the list of unacknowledged messages, before any is sent again. *)
Lemma acked_list_spec h s a nums now num (calcrtt : bool) :
  rep h s a -> numbered h nums (aun a) ->
  exists h1 cur, acked_loop (S (base.size h)) h (PrioQueues.last (unackedMsgs s)) num = Some (h1, cur) /\
  (match cur with
   | None => Some (-1, h1, None)
   | Some c =>
       m ← h1 !! c;
       Some (if calcrtt && LongTime.ne (a_sendTime m) LongTime.newTime then LongTime.minus now (a_sendTime m) else -1,
         delete c h1, a_next m)
   end) = Some (a_rtt now h calcrtt (head (younger nums num (aun a))),
            remove_all h (gone nums num (aun a)), head (kept nums num (aun a))) /\
  queue_is (remove_all h (gone nums num (aun a)))
    (swapq (Qu (match head (kept nums num (aun a)) with None => None | Some _ => first (unackedMsgs s) end)
       (head (kept nums num (aun a))))) (kept nums num (aun a)).
Proof.
  intros Hrep Hn. destruct (rep_parts h s a Hrep) as ((Hc & Hl) & _ & _ & Hnd & _). simpl in Hc, Hl.
  destruct (acked_loop_spec nums num (aun a) (S (base.size h)) h _ Hc Hnd Hn) as (h1 & E & E1 & Hc1).
  { pose proof (chain_length _ _ _ Hc Hnd). lia. }
  exists h1, (head (younger nums num (aun a))). split; [done|].
  pose proof (older_younger nums num (aun a)) as Hoy. unfold gone, kept.
  destruct (younger nums num (aun a)) as [|c k] eqn:Ey.
  - cbn. rewrite app_nil_r, <- E1. done.
  - destruct Hc1 as (_ & m & Hm & Hc1).
    assert ((c ∉ older nums num (aun a)) /\ (c ∉ k)) as [Hco Hck].
    { rewrite <- Hoy in Hnd. apply NoDup_app in Hnd as (_ & H1 & H2). apply NoDup_cons in H2. split; [|tauto].
      intros Hin. apply (H1 c Hin). by left. }
    assert (h !! c = Some m) as Hm0 by (by rewrite E1, remove_all_other in Hm).
    change (head (c :: k)) with (Some c). change (take 1 (c :: k)) with [c]. change (drop 1 (c :: k)) with k.
    unfold a_rtt. rewrite Hm, Hm0. ored.
    rewrite remove_all_app, <- E1, (chain_head _ _ _ Hc1). split; [done|]. split.
    + simpl. rewrite <- (chain_head _ _ _ Hc1). by apply chain_delete.
    + simpl. rewrite Hl, <- Hoy. unfold tail_of. rewrite last_app. simpl. rewrite last_cons. destruct k as [|d k]; [done|].
      change (head (d :: k)) with (Some d). rewrite (last_cons d). by destruct (list.last k).
Qed.

Lemma msgAcked_spec h s a nums now num resend calcrtt :
  rep h s a -> numbered h nums (aun a) ->
  exists h' s', msgAcked now h s num resend calcrtt =
      Some (a_rtt now h calcrtt (head (younger nums num (aun a))), h', s') /\
    rep h' s' (if resend : bool then set_q (Abs (aq a) [] (arec a) (a4 a) (a3 a)) 3 (q_at a 3 ++ kept nums num (aun a)) (a4 a) (a3 a)
               else Abs (aq a) (kept nums num (aun a)) (arec a) (a4 a) (a3 a)) /\
    reset_data (if resend then kept nums num (aun a) else []) (remove_all h (gone nums num (aun a))) h'.
Proof.
  intros Hrep Hn. destruct (acked_list_spec h s a nums now num calcrtt Hrep Hn) as (h1 & cur & E & E2 & Hq).
  destruct (rep_parts h s a Hrep) as ((Hcu & _) & Hr & N1 & N2 & N3 & D1 & D2 & D3).
  unfold msgAcked. rewrite E. ored. simpl in E2. 
  match type of E2 with ?x = _ => match goal with |- context [mbind _ ?y] => change y with x end end.
  rewrite E2. ored. clear E E2 h1 cur.
  pose proof (gone_kept nums num (aun a)) as Hgk.
  set (g := gone nums num (aun a)) in *. set (k := kept nums num (aun a)) in *.
  assert (forall x, x ∈ concat (aq a) \/ x ∈ arec a -> remove_all h g !! x = h !! x) as Hag.
  { intros x Hx. apply remove_all_other. intros Hg. assert (x ∈ aun a) as Ha by (rewrite <- Hgk; apply elem_of_app; by left).
    destruct Hx as [Hx|Hx]; [by apply (D1 x)|by apply (D3 x)]. }
  assert (NoDup k) as Hk by (rewrite <- Hgk in N2; by apply NoDup_app in N2 as (_ & _ & ?)).
  assert (forall x, x ∈ k -> x ∈ aun a) as Hki by (intros x Hx; rewrite <- Hgk; apply elem_of_app; by right).
  assert (forall u l, queue_is (remove_all h g) (swapq u) l -> (forall x, x ∈ l -> x ∈ k) -> NoDup l ->
    rep (remove_all h g) (set_unacked s u) (Abs (aq a) l (arec a) (a4 a) (a3 a))) as Hrepu.
  { intros u l Hql Hin Hndl. rewrite <- (set_recList_same (set_unacked s u)). apply (rep_frame h); try done.
    - intros x Hx. apply Hag. by left.
    - apply (chain_agree h); [|done]. intros x Hx. apply Hag. by right.
    - apply NoDup_app. split_and!; [done| |apply NoDup_app; split_and!; [done| |done]].
      + intros x Hx [Hx'|Hx']%elem_of_app; [by apply (D1 x); [apply Hki, Hin|]|by apply (D2 x)].
      + intros x Hx Hx'. apply (D3 x Hx'). by apply Hki, Hin. }
  destruct resend.
  - pose proof (Hrepu emptyQueue [] ltac:(done) ltac:(by intros ? ?%elem_of_nil) ltac:(constructor)) as Hr0.
    destruct (resend_loop_spec k (S (base.size (remove_all h g))) _ _ _ (head k) Hr0 (proj1 Hq) Hk)
      as (h' & s' & Er & Hrep' & Hd).
    + intros x Hx Ho. unfold owned in Ho. cbn in Ho. apply elem_of_app in Ho as [Ho|Ho].
      * apply (D1 x); [by apply Hki|done].
      * apply (D3 x); [done|by apply Hki].
    + pose proof (chain_length _ _ _ (proj1 Hq) Hk). lia.
    + rewrite resend_loop_set_unacked in Er |- *. destruct (resend_loop _ _ s _) as [[h2 s2]|]; [|done].
      ored. ored in Er. injection Er as -> <-. do 2 eexists. split; [done|]. done.
  - do 2 eexists. split; [done|]. split; [|by intros x]. by apply Hrepu.
Qed.

(** ** Received messages *)

Lemma getRec_loop_none nums num l : forall fuel h p prev hd,
  chain h p l -> numbered h nums l -> (forall x, x ∈ l -> nums x <> num) -> (length l < fuel)%nat ->
  getRec_loop fuel h prev p num hd = Some (None, h, hd).
Proof.
  induction l as [|c l IH]; intros [|fuel] h p prev hd Hc Hn Hne Hf; simpl in Hf; try lia.
  - simpl in Hc. by subst p.
  - destruct Hc as (-> & m & Hm & Hc). destruct (Hn c) as (m' & Hm' & En); [by left|]. simplify_eq.
    cbn [getRec_loop]. rewrite Hm. ored. rewrite En, (proj2 (Z.eqb_neq _ _)) by (apply Hne; by left).
    apply IH; [done| | |lia]; intros x Hx; [apply Hn|apply Hne]; by right.
Qed.

Lemma getRec_loop_found nums num pre : forall fuel h p c post hd,
  chain h (Some p) (p :: pre ++ c :: post) -> NoDup (p :: pre ++ c :: post) -> numbered h nums (pre ++ [c]) ->
  (forall x, x ∈ pre -> nums x <> num) -> nums c = num -> (length pre + 1 < fuel)%nat ->
  exists h', getRec_loop fuel h (Some p) (head (pre ++ [c])) num hd = Some (Some c, h', hd) /\
    chain h' (Some p) (p :: pre ++ post) /\ same_data h h' /\ (forall x, x ∉ p :: pre -> h' !! x = h !! x).
Proof.
  induction pre as [|y pre IH]; intros [|fuel] h p c post hd Hc Hnd Hn Hne Hnum Hf; simpl in Hf; try lia.
  - destruct Hc as (_ & mp & Hp & (_ & mc & Hc & Hpost)).
    destruct (Hn c) as (m' & Hm' & En); [by left|]. simplify_eq.
    cbn [app head hd_error getRec_loop]. rewrite Hc. ored. rewrite En, Z.eqb_refl, (store_next_spec _ _ _ _ Hp). ored.
    eexists; split; [done|]. apply NoDup_cons in Hnd as [Hpn _]. apply not_elem_of_cons in Hpn as [Hpc Hpp].
    split; [|split].
    + split; [done|]. exists (set_next mp (a_next mc)). rewrite lookup_insert_eq. split; [done|].
      apply (chain_agree h); [|done]. intros x Hx. rewrite lookup_insert_ne; [done|]. by intros ->.
    + by apply same_data_next.
    + intros x [? _]%not_elem_of_cons. by rewrite lookup_insert_ne by congruence.
  - destruct Hc as (_ & mp & Hp & Hc). pose proof Hc as (En & my & Hy & _).
    destruct (Hn y) as (m' & Hm' & Eny); [by left|]. simplify_eq. apply NoDup_cons in Hnd as [Hpn Hnd].
    cbn [app head hd_error getRec_loop]. rewrite Hy. ored.
    rewrite Eny, (proj2 (Z.eqb_neq _ _)) by (apply Hne; by left).
    rewrite En in Hc.
    assert (a_next my = head (pre ++ [c])) as ->.
    { destruct Hc as (_ & my' & Hy' & Hc). simplify_eq. rewrite (chain_head _ _ _ Hc). by destruct pre. }
    destruct (IH fuel h y c post hd Hc Hnd) as (h' & E & Hc' & Hd & Hag); [| |done|lia|].
    + intros x Hx. apply Hn. by right.
    + intros x Hx. apply Hne. by right.
    + exists h'. split; [done|]. split; [|split; [done|]].
      * split; [done|]. exists mp. rewrite Hag by (intros Hin; apply Hpn; apply elem_of_cons in Hin as [->|?];
          [by left|right; apply elem_of_app; by left]). rewrite En. done.
      * intros x Hx. apply Hag. intros ?. apply Hx. by right.
Qed.

Section receiving.
Context (h : store) (s : PrioQueues) (a : abs) (Hrep : rep h s a).

Lemma getRec_none nums num :
  numbered h nums (arec a) -> (forall x, x ∈ arec a -> nums x <> num) -> getRec h s num = Some (None, h, s).
Proof using Hrep.
  intros Hn Hne. destruct (rep_parts h s a Hrep) as (_ & Hr & _ & _ & Hnd & _). unfold getRec.
  rewrite (getRec_loop_none nums num (arec a)) by (try done; pose proof (chain_length _ _ _ Hr Hnd); lia).
  ored. by rewrite set_recList_same.
Qed.

Lemma getRec_found nums num pre c post :
  arec a = pre ++ c :: post -> numbered h nums (arec a) -> (forall x, x ∈ pre -> nums x <> num) -> nums c = num ->
  exists h' s', getRec h s num = Some (Some c, h', s') /\
    rep h' s' (Abs (aq a) (aun a) (pre ++ post) (a4 a) (a3 a)) /\ same_data h h' /\
    (forall x, x ∉ pre -> h' !! x = h !! x).
Proof using Hrep.
  intros Ea Hn Hne Hnum. destruct (rep_parts h s a Hrep) as (Hu & Hr & N1 & N2 & N3 & D1 & D2 & D3).
  pose proof (chain_length _ _ _ Hr N3) as Hlen. rewrite Ea in Hr, N3, Hlen. rewrite length_app in Hlen. simpl in Hlen.
  assert (forall h' r, chain h' r (pre ++ post) -> (forall x, x ∉ pre -> h' !! x = h !! x) ->
    rep h' (set_recList s r) (Abs (aq a) (aun a) (pre ++ post) (a4 a) (a3 a))) as Hdone.
  { intros h' r Hc' Hag. rewrite <- (set_unacked_same s) at 1. apply (rep_frame h); try done.
    - intros x Hx. apply Hag. intros Hp. apply (D2 x); [|done]. rewrite Ea. apply elem_of_app. by left.
    - apply (queue_is_agree h); [|done]. intros x Hx. apply Hag. intros Hp. apply (D3 x); [|done].
      rewrite Ea. apply elem_of_app. by left.
    - pose proof Hrep as (_ & _ & _ & _ & Hnd & _). unfold owned in Hnd. rewrite Ea in Hnd.
      rewrite !app_assoc in Hnd |- *. rewrite <- Permutation_middle in Hnd. by apply NoDup_cons in Hnd as [_ Hnd]. }
  assert (numbered h nums (pre ++ [c])) as Hn'.
  { intros x Hx. apply Hn. rewrite Ea. apply elem_of_app in Hx as [?| ->%list_elem_of_singleton]; apply elem_of_app; [by left|].
    right. by left. }
  unfold getRec. destruct pre as [|p pre].
  - pose proof Hr as Hr0. destruct Hr0 as (E & m & Hm & Hpost). cbn [getRec_loop]. rewrite E, Hm. ored.
    destruct (Hn' c) as (m' & ? & En); [by left|]. simplify_eq. rewrite En, Z.eqb_refl. ored.
    do 2 eexists; split; [done|]. split; [by apply Hdone|]. done.
  - pose proof Hr as Hr0. destruct Hr0 as (E & m & Hm & Hrest). cbn [getRec_loop]. rewrite E, Hm. ored.
    destruct (Hn' p) as (m' & ? & En); [by left|]. simplify_eq. rewrite En, (proj2 (Z.eqb_neq _ _)) by (apply Hne; by left).
    rewrite (chain_head _ _ _ Hrest), E in *.
    assert (head (pre ++ c :: post) = head (pre ++ [c])) as -> by by destruct pre.
    destruct (getRec_loop_found nums (nums c) pre (base.size h) h p c post (Some p) Hr N3) as (h' & E1 & Hc' & Hd & Hag).
    + intros x Hx. apply Hn'. by right.
    + intros x Hx. apply Hne. by right.
    + done.
    + simpl in Hlen. lia.
    + cbn [app] in E1 |- *. rewrite E1. ored. do 2 eexists; split; [done|]. split; [by apply Hdone|]. done.
Qed.
End receiving.

(** ** Clearing *)

Lemma remove_all_same_data_on h l x : x ∉ l -> set_next <$> (remove_all h l !! x) = set_next <$> (h !! x).
Proof. intros. by rewrite remove_all_other. Qed.

Lemma reverse_onto_spec l : forall fuel h p acc ans,
  chain h p l -> chain h ans acc -> NoDup (l ++ acc) -> (length l < fuel)%nat ->
  exists h', reverse_onto fuel h p ans = Some (h', head (reverse l ++ acc), zlen l) /\
    chain h' (head (reverse l ++ acc)) (reverse l ++ acc) /\ same_data h h' /\
    (forall x, x ∉ l -> h' !! x = h !! x).
Proof.
  induction l as [|c l IH]; intros [|fuel] h p acc ans Hc Ha Hnd Hf; simpl in Hf; try lia.
  - simpl in Hc. subst p. exists h. rewrite reverse_nil. simpl app. rewrite <- (chain_head _ _ _ Ha). done.
  - destruct Hc as (-> & m & Hm & Hc). apply NoDup_cons in Hnd as [Hcn Hnd].
    rewrite not_elem_of_app in Hcn. destruct Hcn as [Hcl Hca]. cbn [reverse_onto]. rewrite Hm. ored.
    destruct (IH fuel (<[c:=set_next m ans]> h) (a_next m) (c :: acc) (Some c)) as (h' & -> & Hc' & Hd & Hag).
    + apply (chain_agree h); [|done]. intros x Hx. rewrite lookup_insert_ne; [done|]. by intros ->.
    + split; [done|]. exists (set_next m ans). rewrite lookup_insert_eq. split; [done|].
      apply (chain_agree h); [|done]. intros x Hx. rewrite lookup_insert_ne; [done|]. by intros ->.
    + rewrite <- Permutation_middle. apply NoDup_cons. by rewrite not_elem_of_app.
    + lia.
    + ored. rewrite reverse_cons, <- app_assoc, zlen_cons. exists h'. split; [done|]. split; [done|]. split.
      * etransitivity; [|exact Hd]. by apply same_data_next.
      * intros x [? ?]%not_elem_of_cons. by rewrite Hag, lookup_insert_ne.
Qed.

Section clearing.
Context (h : store) (s : PrioQueues) (a : abs) (Hrep : rep h s a).

Lemma rep_set_recList h' r rc :
  (forall x, x ∈ concat (aq a) \/ x ∈ aun a -> h' !! x = h !! x) -> chain h' r rc -> rc `sublist_of` arec a ->
  rep h' (set_recList s r) (Abs (aq a) (aun a) rc (a4 a) (a3 a)).
Proof using Hrep.
  intros Hag Hc Hs. destruct (rep_parts h s a Hrep) as (Hu & Hr & _).
  rewrite <- (set_unacked_same s) at 1. apply (rep_frame h); try done.
  - intros x Hx. apply Hag. by left.
  - apply (queue_is_agree h); [|done]. intros x Hx. apply Hag. by right.
  - pose proof Hrep as (_ & _ & _ & _ & Hnd & _). unfold owned in Hnd.
    eapply sublist_NoDup; [exact Hnd|]. do 2 (apply sublist_app; [done|]). done.
Qed.

Lemma clearRec_spec :
  exists s', clearRec h s = Some (remove_all h (arec a), s') /\
    rep (remove_all h (arec a)) s' (Abs (aq a) (aun a) [] (a4 a) (a3 a)).
Proof using Hrep.
  destruct (rep_parts h s a Hrep) as (Hu & Hr & N1 & N2 & N3 & D1 & D2 & D3). unfold clearRec.
  rewrite (deleteList_spec (arec a)) by (try done; pose proof (chain_length _ _ _ Hr N3); lia).
  ored. eexists; split; [done|]. apply rep_set_recList; [|done|apply sublist_nil_l].
  intros x Hx. apply remove_all_other. intros Hx'. destruct Hx as [Hx|Hx]; [by apply (D2 x)|by apply (D3 x)].
Qed.

(** Emptying the queue at [i], whatever happens to its containers. *)
Lemma empty_queue_spec i h' :
  0 <= i < 5 -> (forall x, x ∈ rest_of a i -> h' !! x = h !! x) ->
  exists s', set_queue (set_noMsgs s (noMsgs s - zlen (q_at a i))) i emptyQueue = Some s' /\
    rep h' s' (set_q a i [] (a4 a) (a3 a)).
Proof using Hrep.
  intros Hi Hag. destruct (q_at_spec h s a Hrep i Hi) as (q & Hq & Hl & Hql).
  destruct (owned_facts h s a Hrep i Hi) as [Hnd _]. apply NoDup_app in Hnd as (_ & _ & Hnd).
  destruct (rep_set_queue h s a Hrep i Hi _ h' emptyQueue [] (noMsgs s - zlen (q_at a i))
    (prio_val_4 s) (prio_val_3 s) (prio_val_2 s) (curq s) Hl) as (ql & Eq & Hr); try done.
  - rewrite zlen_nil. lia.
  - apply Hrep.
  - unfold set_queue, set_noMsgs. cbn [qs unackedMsgs recList curq prio_val_4 prio_val_3 prio_val_2 noMsgs].
    rewrite Eq. ored. eexists; split; [done|].
    destruct Hrep as (_ & _ & _ & _ & _ & _ & H4 & H3 & _). unfold set_q. by rewrite <- H4, <- H3.
Qed.

Lemma clear5_spec :
  exists s', clear5 h s = Some (remove_all h (q_at a 4), s') /\
    rep (remove_all h (q_at a 4)) s' (set_q a 4 [] (a4 a) (a3 a)).
Proof using Hrep.
  destruct (q_at_spec h s a Hrep 4 ltac:(lia)) as (q & Hq & Hl & [Hc _]).
  destruct (owned_facts h s a Hrep 4 ltac:(lia)) as [Hnd _]. apply NoDup_app in Hnd as (Hn & Hd & _).
  destruct (empty_queue_spec 4 (remove_all h (q_at a 4)) ltac:(lia)) as (s' & E & Hr).
  { intros x Hx. apply remove_all_other. intros Hx'. by apply (Hd x). }
  unfold clear5. rewrite Hq. ored. unfold set_queue in *. cbn [qs set_noMsgs] in E.
  destruct (qs s).[4 <- emptyQueue] as [ql|]; [|done]. ored. ored in E. injection E as <-.
  rewrite (deleteList_spec (q_at a 4)) by (try done; pose proof (chain_length _ _ _ Hc Hn); lia).
  ored. eexists; split; [done|]. exact Hr.
Qed.

Lemma clearCont_spec :
  exists h', clearCont h s = Some h' /\ rep h' s a /\
    reset_data (omap head (aq a)) h h'.
Proof using Hrep.
  pose proof Hrep as (_ & HF & _ & _ & Hnd & _). unfold owned in Hnd. apply NoDup_app in Hnd as (Hnd & _ & _).
  unfold clearCont.
  assert (forall Q L h0, Forall2 (queue_is h0) Q L -> NoDup (concat L) -> rep h0 s a ->
    exists h', clearCont_loop h0 Q = Some h' /\ rep h' s a /\ reset_data (omap head L) h0 h') as Hgo; [|by apply Hgo].
  intros Q. induction Q as [|q Q IH]; intros L h0 HQ HL Hr; inversion HQ as [|? l ? L' Hq HQ']; subst.
  - exists h0. split; [done|]. split; [done|]. by intros x.
  - cbn [concat] in HL. apply NoDup_app in HL as (Hl & Hll & HL). cbn [clearCont_loop].
    rewrite (chain_head _ _ _ (proj1 Hq)). destruct l as [|c l]; [by apply (IH L' h0)|].
    pose proof Hq as [(_ & m & Hm & _) _]. change (head (c :: l)) with (Some c). cbn [omap list_omap]. rewrite Hm. ored.
    change (head (c :: l)) with (Some c). cbn beta iota.
    destruct (IH L' (<[c:=resetMarshaling m]> h0)) as (h' & -> & Hr' & Hd); [|done|by eapply rep_data|].
    + eapply Forall2_impl; [exact HQ'|]. intros. by eapply queue_is_data.
    + exists h'. split; [done|]. split; [done|]. intros x. rewrite Hd. destruct (decide (x = c)) as [->|Hne].
      * rewrite bool_decide_eq_false_2, (bool_decide_eq_true_2 (c ∈ _ :: _)), lookup_insert_eq, Hm; [done|by left|].
        intros (k & Hk & Hkc)%list_elem_of_omap. apply (Hll c); [by left|].
        apply list_elem_of_In, in_concat. exists k. split; [by apply list_elem_of_In|]. apply list_elem_of_In.
        destruct k; [done|]. injection Hkc as ->. by left.
      * rewrite lookup_insert_ne by done. rewrite (bool_decide_ext (x ∈ c :: _) (x ∈ omap head L')); [done|].
        rewrite elem_of_cons. tauto.
Qed.
End clearing.

(** The list being returned by [clearAll], next to the object. *)
Definition collecting (h : store) (s : PrioQueues) (a : abs) (ans : option ptr) (acc : list ptr) : Prop :=
  rep h s a /\ chain h ans acc /\ NoDup (acc ++ owned a).

Lemma collect_queue_spec h s a ans acc i :
  collecting h s a ans acc -> 0 <= i < 5 ->
  exists q h' k s', (qs s).[i] = Some q /\
    reverse_onto (S (base.size h)) h (first q) ans = Some (h', head (reverse (q_at a i) ++ acc), k) /\
    set_queue (set_noMsgs s (noMsgs s - k)) i emptyQueue = Some s' /\
    collecting h' s' (set_q a i [] (a4 a) (a3 a)) (head (reverse (q_at a i) ++ acc)) (reverse (q_at a i) ++ acc) /\
    same_data h h'.
Proof.
  intros (Hrep & Hans & Hnd) Hi. destruct (q_at_spec h s a Hrep i Hi) as (q & Hq & Hl & [Hc _]).
  destruct (owned_facts h s a Hrep i Hi) as [Hn Hp]. rewrite Hp in Hnd.
  assert (NoDup (q_at a i ++ acc) /\ forall x, x ∈ rest_of a i -> x ∉ q_at a i) as [Hqa Hrest].
  { apply NoDup_app in Hnd as (? & Hd' & _), Hn as (? & Hd & _). split.
    - apply NoDup_app. split_and!; try done. intros x Hx Hx'. apply (Hd' x Hx'). apply elem_of_app. by left.
    - intros x Hx Hx'. by apply (Hd x). }
  pose proof (chain_length _ _ _ Hc ltac:(by apply NoDup_app in Hqa as (? & _))) as Hlen.
  destruct (reverse_onto_spec (q_at a i) (S (base.size h)) h (first q) acc ans Hc Hans Hqa ltac:(lia))
    as (h' & E & Hc' & Hd & Hag).
  destruct (empty_queue_spec h s a Hrep i h' Hi) as (s' & Es & Hr').
  { intros x Hx. apply Hag. by apply Hrest. }
  exists q, h', (zlen (q_at a i)), s'. split_and!; try done. unfold collecting. split_and!; try done.
  unfold owned, set_q. cbn [aq aun arec]. rewrite (concat_insert _ _ _ [] (aget_lookup _ _ _ Hl)). simpl app.
  change (NoDup ((reverse (q_at a i) ++ acc) ++ rest_of a i)).
  by rewrite reverse_Permutation, (Permutation_app_comm _ acc), <- app_assoc.
Qed.

Lemma q_at_set_q_ne a i j l v4 v3 :
  zlen (aq a) = 5 -> 0 <= i < 5 -> i <> j -> q_at (set_q a i l v4 v3) j = q_at a j.
Proof. intros Hz Hi Hne. unfold q_at, set_q. cbn [aq]. by rewrite aget_insert, (proj2 (Z.eqb_neq i j)) by lia. Qed.

Lemma q_at_set_q a i l v4 v3 : zlen (aq a) = 5 -> 0 <= i < 5 -> q_at (set_q a i l v4 v3) i = l.
Proof. intros Hz Hi. unfold q_at, set_q. cbn [aq]. by rewrite aget_insert, Z.eqb_refl by lia. Qed.

(** The containers [clearAll] returns, in the order of their chain. *)
Definition returned (a : abs) : list ptr :=
  reverse (aun a) ++ reverse (q_at a 3) ++ reverse (q_at a 2) ++ reverse (q_at a 1) ++ reverse (q_at a 0).

Lemma clear_queues_spec h s a :
  rep h s a ->
  exists h' s', clear_queues 4 0 h s None =
      Some (h', s', head (reverse (q_at a 3) ++ reverse (q_at a 2) ++ reverse (q_at a 1) ++ reverse (q_at a 0))) /\
    collecting h' s' (Abs [[]; []; []; []; q_at a 4] (aun a) (arec a) (a4 a) (a3 a))
      (head (reverse (q_at a 3) ++ reverse (q_at a 2) ++ reverse (q_at a 1) ++ reverse (q_at a 0)))
      (reverse (q_at a 3) ++ reverse (q_at a 2) ++ reverse (q_at a 1) ++ reverse (q_at a 0)) /\
    same_data h h'.
Proof.
  intros Hrep. pose proof Hrep as (Hz & _). cbn [clear_queues].
  assert (collecting h s a None []) as H0.
  { split; [done|]. split; [done|]. apply Hrep. }
  destruct (collect_queue_spec _ _ _ _ _ 0 H0 ltac:(lia)) as (q0 & h1 & k0 & s1 & -> & E & E2 & H1 & D1).
  ored. rewrite E. ored. rewrite E2. ored. clear E E2.
  destruct (collect_queue_spec _ _ _ _ _ 1 H1 ltac:(lia)) as (q1 & h2 & k1 & s2 & E0 & E & E2 & H2 & D2).
  change (0 + 1) with 1. rewrite E0. ored. rewrite E. ored. rewrite E2. ored. clear E0 E E2.
  destruct (collect_queue_spec _ _ _ _ _ 2 H2 ltac:(lia)) as (q2 & h3 & k2 & s3 & E0 & E & E2 & H3 & D3).
  change (1 + 1) with 2. rewrite E0. ored. rewrite E. ored. rewrite E2. ored. clear E0 E E2.
  destruct (collect_queue_spec _ _ _ _ _ 3 H3 ltac:(lia)) as (q3 & h4 & k3 & s4 & E0 & E & E2 & H4 & D4).
  change (2 + 1) with 3. rewrite E0. ored. rewrite E. ored. rewrite E2. ored. clear E0 E E2.
  exists h4, s4. revert H4. rewrite !q_at_set_q_ne by (try lia; unfold set_q; cbn [aq]; rewrite ?zlen_insert; done).
  rewrite app_nil_r. intros H4. split; [done|]. split; [|by rewrite D1, D2, D3, D4].
  replace (Abs [[]; []; []; []; q_at a 4] (aun a) (arec a) (a4 a) (a3 a)) with
    (set_q (set_q (set_q (set_q a 0 [] (a4 a) (a3 a)) 1 [] (a4 a) (a3 a)) 2 [] (a4 a) (a3 a)) 3 [] (a4 a) (a3 a)); [done|].
  unfold set_q, q_at, aget. cbn [aq aun arec a4 a3]. f_equal.
  destruct (aq a) as [|x0 [|x1 [|x2 [|x3 [|x4 [|x5 l]]]]]]; unfold zlen in Hz; simpl in Hz; try lia. done.
Qed.

Lemma clearAll_spec h s a :
  rep h s a ->
  exists h' s', clearAll h s = Some (head (returned a), h', s') /\
    rep h' s' (Abs [[]; []; []; []; q_at a 4] [] [] (a4 a) (a3 a)) /\
    chain h' (head (returned a)) (returned a) /\ same_data (remove_all h (arec a)) h'.
Proof.
  intros Hrep. destruct (clear_queues_spec h s a Hrep) as (h1 & s1 & E & (Hr1 & Hc1 & Hnd) & Hd1).
  unfold returned. set (acc := reverse (q_at a 3) ++ reverse (q_at a 2) ++ reverse (q_at a 1) ++ reverse (q_at a 0)) in *.
  unfold clearAll. rewrite E. ored. clear E.
  destruct (rep_parts _ _ _ Hr1) as ((Hcu & _) & Hrc & N1 & N2 & N3 & D1 & D2 & D3). cbn [aun arec aq] in *.
  unfold owned in Hnd. cbn [aq aun arec concat app] in Hnd. rewrite app_nil_r in Hnd.
  assert (NoDup (aun a ++ acc)) as Hua.
  { apply NoDup_app in Hnd as (? & Hd' & _). apply NoDup_app. split_and!; try done.
    intros x Hx Hx'. apply (Hd' x Hx'). rewrite !elem_of_app. tauto. }
  pose proof (chain_length _ _ _ Hcu N2) as Hlen. change (chain h1 (PrioQueues.last (unackedMsgs s1)) (aun a)) in Hcu.
  destruct (reverse_onto_spec (aun a) (S (base.size h1)) h1 _ acc _ Hcu Hc1 Hua ltac:(lia)) as (h2 & -> & Hc2 & Hd2 & Hag).
  ored.
  assert (rep h2 (set_unacked s1 emptyQueue) (Abs [[]; []; []; []; q_at a 4] [] (arec a) (a4 a) (a3 a))) as Hr2.
  { rewrite <- (set_recList_same (set_unacked s1 emptyQueue)).
    apply (rep_frame h1 s1 (Abs [[]; []; []; []; q_at a 4] (aun a) (arec a) (a4 a) (a3 a))); try done.
    - intros x Hx. apply Hag. intros Hx'. by apply (D1 x).
    - apply (chain_agree h1); [|done]. intros x Hx. apply Hag. by apply D3.
    - apply NoDup_app. split_and!; try done. intros x Hx Hx'. by apply (D2 x). }
  destruct (clearRec_spec _ _ _ Hr2) as (s3 & -> & Hr3). ored. do 2 eexists. split; [done|]. split; [done|]. split.
  - apply (chain_agree h2); [|done]. intros x Hx. apply remove_all_other. intros Hx'. cbn [arec] in Hx'.
    apply elem_of_app in Hx as [Hx|Hx]; [rewrite elem_of_reverse in Hx; by apply (D3 x)|].
    apply NoDup_app in Hnd as (_ & Hd' & _). apply (Hd' x Hx). rewrite !elem_of_app. tauto.
  - intros x. cbn [arec]. rewrite !remove_all_lookup. case_bool_decide; [done|]. by rewrite Hd2, Hd1.
Qed.
