(* ===== verification/PrioQueuesTheorems.v ===== *)
(** * Properties of the message queues

    Every operation refines its counterpart on lists; the order in which
    messages are served; what acknowledgements remove. *)
From Stdlib Require Import Sorting.Sorted.
From stdpp Require Import gmap.
From S2P Require Import Prelude Word32 PrioQueues PrioQueuesSpec PrioQueuesOps.
Import PrioQueues.

(** ** The operations as one type *)

Inductive op :=
  | Enqueue (m : ptr) (prio : Z) | GetNext (working : bool) | Requeue (m : ptr) | InsertUnacked (m : ptr)
  | PutRec (m : ptr) | GetRec (num : Z) | MsgAcked (num : Z) (resend calcrtt : bool)
  | ClearCont | ClearRec | Clear5 | ClearAll.

(** The container an operation hands back, if any, and the new state. *)
Definition step (now : LongTime.DSS_LongTime) (o : op) (h : store) (s : PrioQueues)
  : option (option ptr * store * PrioQueues) :=
  match o with
  | Enqueue m prio => '(h, s) ← enqueue h s m prio; Some (None, h, s)
  | GetNext working => '(r, s) ← getNext h s working; Some (r, h, s)
  | Requeue m => '(h, s) ← requeue h s m; Some (None, h, s)
  | InsertUnacked m => '(h, s) ← insertUnacked h s m; Some (None, h, s)
  | PutRec m => '(h, s) ← putRec h s m; Some (None, h, s)
  | GetRec num => getRec h s num
  | MsgAcked num resend calcrtt => '(_, h, s) ← msgAcked now h s num resend calcrtt; Some (None, h, s)
  | ClearCont => h ← clearCont h s; Some (None, h, s)
  | ClearRec => '(h, s) ← clearRec h s; Some (None, h, s)
  | Clear5 => '(h, s) ← clear5 h s; Some (None, h, s)
  | ClearAll => clearAll h s
  end.

(** The first received message with the number [num], and the others. *)
Fixpoint find_num (nums : ptr -> Z) (num : Z) (l : list ptr) : option (list ptr * ptr * list ptr) :=
  match l with
  | [] => None
  | c :: l => if nums c =? num then Some ([], c, l)
              else '(pre, d, post) ← find_num nums num l; Some (c :: pre, d, post)
  end.

Definition a_step (nums : ptr -> Z) (cur : option Z) (o : op) (a : abs) : option ptr * abs :=
  match o with
  | Enqueue m prio => (None, a_enqueue a m prio)
  | GetNext working => a_getNext working a
  | Requeue m => (None, match cur with Some i => a_requeue a m i | None => a end)
  | InsertUnacked m => (None, Abs (aq a) (aun a ++ [m]) (arec a) (a4 a) (a3 a))
  | PutRec m => (None, Abs (aq a) (aun a) (m :: arec a) (a4 a) (a3 a))
  | GetRec num =>
      match find_num nums num (arec a) with
      | Some (pre, c, post) => (Some c, Abs (aq a) (aun a) (pre ++ post) (a4 a) (a3 a))
      | None => (None, a)
      end
  | MsgAcked num resend _ =>
      (None, if resend : bool then set_q (Abs (aq a) [] (arec a) (a4 a) (a3 a)) 3 (q_at a 3 ++ kept nums num (aun a)) (a4 a) (a3 a)
             else Abs (aq a) (kept nums num (aun a)) (arec a) (a4 a) (a3 a))
  | ClearCont => (None, a)
  | ClearRec => (None, Abs (aq a) (aun a) [] (a4 a) (a3 a))
  | Clear5 => (None, set_q a 4 [] (a4 a) (a3 a))
  | ClearAll => (head (returned a), Abs [[]; []; []; []; q_at a 4] [] [] (a4 a) (a3 a))
  end.

(** What the caller of an operation has to respect. *)
Definition allowed (h : store) (s : PrioQueues) (a : abs) (o : op) : Prop :=
  match o with
  | Enqueue m prio => 0 <= prio < 5 /\ free_cell h a m
  | Requeue m => curq s <> None /\ free_cell h a m
  | InsertUnacked m | PutRec m => free_cell h a m
  | _ => True
  end.

Definition consistent (h : store) (nums : ptr -> Z) : Prop := forall x m, h !! x = Some m -> a_num m = nums x.

Lemma consistent_numbered h nums p l : consistent h nums -> chain h p l -> numbered h nums l.
Proof. intros Hc Hl x Hx. destruct (chain_in _ _ _ _ Hl Hx) as [m Hm]. exists m. eauto. Qed.

Lemma consistent_same h h' nums : same_data h h' -> consistent h nums -> consistent h' nums.
Proof.
  intros Hd Hc x m Hm. specialize (Hd x). rewrite Hm in Hd. destruct (h !! x) as [m0|] eqn:E; [|done].
  rewrite <- (Hc _ _ E). simpl in Hd. assert (set_next m None = set_next m0 None) as E2 by congruence.
  destruct m, m0. unfold set_next in E2. simpl in *. congruence.
Qed.

Lemma consistent_reset h h' nums l : reset_data l h h' -> consistent h nums -> consistent h' nums.
Proof.
  intros Hd Hc x m Hm. specialize (Hd x). rewrite Hm in Hd.
  destruct (h !! x) as [m0|] eqn:E; [|by case_bool_decide]. rewrite <- (Hc _ _ E).
  assert (set_next m None = set_next (if bool_decide (x ∈ l) then resetMarshaling m0 else m0) None) as E2
    by (case_bool_decide; simpl in Hd; congruence).
  case_bool_decide; destruct m, m0; unfold set_next, resetMarshaling in E2; simpl in *; congruence.
Qed.

Lemma consistent_remove h nums l : consistent h nums -> consistent (remove_all h l) nums.
Proof. intros Hc x m. rewrite remove_all_lookup. case_bool_decide; [done|]. apply Hc. Qed.

Lemma find_num_Some nums num l pre c post :
  find_num nums num l = Some (pre, c, post) ->
  l = pre ++ c :: post /\ nums c = num /\ (forall x, x ∈ pre -> nums x <> num).
Proof.
  revert pre. induction l as [|d l IH]; intros pre; [done|]. simpl. destruct (Z.eqb_spec (nums d) num).
  - intros [= <- -> ->]. split_and!; try done. by intros x ?%elem_of_nil.
  - destruct (find_num nums num l) as [[[p' c'] q']|]; [|done]. ored. intros [= <- -> ->].
    destruct (IH p' eq_refl) as (-> & ? & Hp). split_and!; try done.
    intros x [->|Hx]%elem_of_cons; [done|by apply Hp].
Qed.

Lemma find_num_None nums num l : find_num nums num l = None -> forall x, x ∈ l -> nums x <> num.
Proof.
  induction l as [|d l IH]; simpl; [by intros _ x ?%elem_of_nil|]. destruct (Z.eqb_spec (nums d) num); [done|].
  destruct (find_num nums num l) as [[[p' c'] q']|]; [done|]. intros _ x [->|Hx]%elem_of_cons; [done|by apply IH].
Qed.

Lemma step_spec now nums o h s a :
  rep h s a -> consistent h nums -> allowed h s a o ->
  exists h' s', step now o h s = Some ((a_step nums (curq s) o a).1, h', s') /\
    rep h' s' (a_step nums (curq s) o a).2 /\ consistent h' nums.
Proof.
  intros Hrep Hc Ho. destruct o as [m prio|w|m|m|m|num|num resend calc| | | |]; cbn [step a_step allowed fst snd] in *.
  - destruct Ho as [Hp Hm]. destruct (enqueue_spec h s a Hrep m prio Hp Hm) as (h' & s' & -> & Hr & Hd & _). ored.
    exists h', s'. split_and!; try done. by eapply consistent_same.
  - destruct (getNext_spec h s a w Hrep) as (s' & -> & Hr). ored. by exists h, s'.
  - destruct Ho as [Hq Hm]. destruct (curq s) as [i|] eqn:E; [|done].
    destruct (requeue_spec h s a Hrep m i E Hm) as (h' & s' & -> & Hr & Hd & _). ored.
    exists h', s'. split_and!; try done. by eapply consistent_same.
  - destruct (insertUnacked_spec h s a Hrep m Ho) as (h' & s' & -> & Hr & Hd & _). ored.
    exists h', s'. split_and!; try done. by eapply consistent_same.
  - destruct (putRec_spec h s a Hrep m Ho) as (h' & s' & -> & Hr & Hd & _). ored.
    exists h', s'. split_and!; try done. by eapply consistent_same.
  - destruct (rep_parts h s a Hrep) as (_ & Hr & _). pose proof (consistent_numbered _ _ _ _ Hc Hr) as Hn.
    destruct (find_num nums num (arec a)) as [[[pre c] post]|] eqn:E.
    + destruct (find_num_Some _ _ _ _ _ _ E) as (Ea & En & Hne).
      destruct (getRec_found h s a Hrep nums num pre c post Ea Hn Hne En) as (h' & s' & -> & Hr' & Hd & _).
      exists h', s'. split_and!; try done. by eapply consistent_same.
    + rewrite (getRec_none h s a Hrep nums num Hn (find_num_None _ _ _ E)). by exists h, s.
  - destruct (rep_parts h s a Hrep) as ((Hu & _) & _). pose proof (consistent_numbered _ _ _ _ Hc Hu) as Hn.
    destruct (msgAcked_spec h s a nums now num resend calc Hrep Hn) as (h' & s' & -> & Hr & Hd). ored.
    exists h', s'. split_and!; try done. eapply consistent_reset; [done|]. by apply consistent_remove.
  - destruct (clearCont_spec h s a Hrep) as (h' & -> & Hr & Hd). ored. exists h', s. split_and!; try done.
    by eapply consistent_reset.
  - destruct (clearRec_spec h s a Hrep) as (s' & -> & Hr). ored. eexists _, s'. split_and!; try done.
    by apply consistent_remove.
  - destruct (clear5_spec h s a Hrep) as (s' & -> & Hr). ored. eexists _, s'. split_and!; try done.
    by apply consistent_remove.
  - destruct (clearAll_spec h s a Hrep) as (h' & s' & -> & Hr & _ & Hd). exists h', s'. split_and!; try done.
    eapply consistent_same; [done|]. by apply consistent_remove.
Qed.

(** ** Runs of sending operations *)

Fixpoint run (now : LongTime.DSS_LongTime) (ops : list op) (h : store) (s : PrioQueues)
  : option (list (option ptr) * store * PrioQueues) :=
  match ops with
  | [] => Some ([], h, s)
  | o :: ops => '(r, h, s) ← step now o h s; '(rs, h, s) ← run now ops h s; Some (r :: rs, h, s)
  end.

Fixpoint a_run (ops : list op) (a : abs) : list (option ptr) * abs :=
  match ops with
  | [] => ([], a)
  | o :: ops => let '(r, a) := a_step (fun _ => 0) None o a in let '(rs, a) := a_run ops a in (r :: rs, a)
  end.

(** Ordinary messages are queued, and messages are taken while the connection works. *)
Definition sends (o : op) : Prop :=
  match o with Enqueue _ prio => 0 <= prio < 4 | GetNext w => w = true | _ => False end.
Definition new_msgs (ops : list op) : list ptr := omap (fun o => match o with Enqueue m _ => Some m | _ => None end) ops.
Definition served (ops : list op) : Z := zlen (List.filter (fun o => match o with GetNext _ => true | _ => false end) ops).

(** The containers queued during the run are allocated, distinct and not in use. *)
Definition fresh (h : store) (a : abs) (ops : list op) : Prop :=
  NoDup (new_msgs ops ++ owned a) /\ forall m, m ∈ new_msgs ops -> is_Some (h !! m).

Lemma NoDup_sub {A} (l k : list A) : l ⊆+ k -> NoDup k -> NoDup l.
Proof. intros [z ->]%submseteq_Permutation Hnd. by apply NoDup_app in Hnd as (? & _). Qed.

Lemma owned_set_q h s a i l v4 v3 :
  rep h s a -> 0 <= i < 5 -> owned (set_q a i l v4 v3) ≡ₚ l ++ rest_of a i.
Proof.
  intros Hrep Hi. destruct (q_at_spec h s a Hrep i Hi) as (q & _ & Hl & _).
  unfold owned, set_q. cbn [aq aun arec]. rewrite (concat_insert _ _ _ l (aget_lookup _ _ _ Hl)). by rewrite <- app_assoc.
Qed.

Lemma a_enqueue_owned h s a m i : rep h s a -> 0 <= i < 5 -> owned (a_enqueue a m i) ≡ₚ m :: owned a.
Proof.
  intros Hrep Hi. unfold a_enqueue. rewrite (owned_set_q h s) by done.
  destruct (owned_facts h s a Hrep i Hi) as [_ ->]. rewrite <- app_assoc. symmetry. apply Permutation_middle.
Qed.

Lemma a_take_owned h s a i v4 v3 :
  rep h s a -> 0 <= i < 5 -> owned (a_take a i v4 v3).2 ⊆+ owned a.
Proof.
  intros Hrep Hi. unfold a_take. cbn [snd]. rewrite (owned_set_q h s) by done.
  destruct (owned_facts h s a Hrep i Hi) as [_ ->]. apply submseteq_app; [|done].
  destruct (q_at a i); [done|]. by apply submseteq_cons.
Qed.

Lemma a_getNext_owned h s a w : rep h s a -> owned (a_getNext w a).2 ⊆+ owned a.
Proof.
  intros Hrep. unfold a_getNext. destruct (filled a 4); [by apply (a_take_owned h s)|]. destruct w; [|done].
  pose proof (getNext_loop_spec h s a Hrep) as Hl. destruct (pick a) as [[[i|] v4] v3]; [|done].
  apply (a_take_owned h s); [done|]. lia.
Qed.

Lemma same_data_dom h h' m : same_data h h' -> is_Some (h !! m) -> is_Some (h' !! m).
Proof. intros Hd [x Hx]. specialize (Hd m). rewrite Hx in Hd. by destruct (h' !! m). Qed.

Lemma run_spec now ops : forall h s a,
  rep h s a -> Forall sends ops -> fresh h a ops ->
  exists h' s', run now ops h s = Some ((a_run ops a).1, h', s') /\ rep h' s' (a_run ops a).2.
Proof.
  induction ops as [|o ops IH]; intros h s a Hrep Hs [Hnd Hm]; [by exists h, s|].
  apply Forall_cons in Hs as [Ho Hs]. destruct o as [m prio|w| | | | | | | | | ]; try done; cbn [run a_run step a_step sends] in *.
  - cbn [new_msgs omap list_omap] in Hnd, Hm. apply NoDup_cons in Hnd as [Hn Hnd].
    destruct (enqueue_spec h s a Hrep m prio ltac:(lia)) as (h1 & s1 & -> & Hr & Hd & _).
    { split; [apply Hm; by left|]. intros ?. apply Hn. apply elem_of_app. by right. }
    ored. destruct (IH h1 s1 _ Hr Hs) as (h' & s' & -> & Hr').
    + split.
      * rewrite (a_enqueue_owned h s) by (try done; lia). rewrite <- Permutation_middle. by constructor.
      * intros x Hx. eapply same_data_dom; [done|]. apply Hm. by right.
    + ored. destruct (a_run ops _). by exists h', s'.
  - subst w. destruct (getNext_spec h s a true Hrep) as (s1 & -> & Hr). ored.
    pose proof (a_getNext_owned h s a true Hrep) as Hsub. destruct (a_getNext true a) as [r a1] eqn:E. cbn [fst snd] in *.
    destruct (IH h s1 a1 Hr Hs) as (h' & s' & -> & Hr').
    + split; [|done]. eapply NoDup_sub; [|exact Hnd]. by apply submseteq_app.
    + ored. destruct (a_run ops _). by exists h', s'.
Qed.

(** ** Scheduling *)

Definition credits (a : abs) : Prop := 0 <= a4 a <= Q_PRIO_VAL_4 /\ 0 <= a3 a <= Q_PRIO_VAL_3.

(** How many calls of [getNext] the head of a queue waits at most. *)
Definition wait (i : Z) (a : abs) : Z :=
  if i =? 3 then (if 0 <? a4 a then 1 else 2)
  else if i =? 2 then a4 a + (if 0 <? a3 a then 1 else 12)
  else a4 a + 11 * a3 a + 1.

Lemma filled_cons a i m l : q_at a i = m :: l -> filled a i = true.
Proof. unfold filled. by intros ->. Qed.

Lemma getNext_progress a i m l :
  zlen (aq a) = 5 -> credits a -> 1 <= i < 4 -> q_at a i = m :: l -> q_at a 4 = [] ->
  let '(r, a') := a_getNext true a in
  r = Some m \/
  (wait i a' < wait i a /\ q_at a' i = q_at a i /\ q_at a' 4 = [] /\ zlen (aq a') = 5 /\ credits a').
Proof.
  intros Hz [H4 H3] Hi Hm H4e. unfold a_getNext.
  assert (filled a 4 = false) as -> by (unfold filled; by rewrite H4e).
  assert (forall j v4 v3, 0 <= j < 4 -> 0 <= v4 <= Q_PRIO_VAL_4 -> 0 <= v3 <= Q_PRIO_VAL_3 ->
    (j <> i -> wait i (set_q a j (tail (q_at a j)) v4 v3) < wait i a) ->
    let '(r, a') := a_take a j v4 v3 in r = Some m \/
      (wait i a' < wait i a /\ q_at a' i = q_at a i /\ q_at a' 4 = [] /\ zlen (aq a') = 5 /\ credits a')) as Htake.
  { intros j v4 v3 Hj Hv4 Hv3 Hw. unfold a_take. destruct (decide (j = i)) as [->|Hne]; [left; by rewrite Hm|right].
    split_and!; try done; try (rewrite q_at_set_q_ne by lia; done); [by apply Hw|].
    unfold set_q. cbn [aq]. by rewrite zlen_insert. }
  unfold Q_PRIO_VAL_4, Q_PRIO_VAL_3 in *. pose proof (filled_cons _ _ _ _ Hm) as Hf.
  unfold pick, Q_PRIO_VAL_4, Q_PRIO_VAL_3.
  assert (i = 1 \/ i = 2 \/ i = 3) as Hi' by lia.
  destruct (0 <? a4 a) eqn:E4, (0 <? a3 a) eqn:E3; breflect;
    destruct Hi' as [->|[->| ->]]; rewrite Hf;
    destruct (filled a 3), (filled a 2), (filled a 1), (filled a 0); try discriminate Hf; cbn [andb];
    apply Htake; try lia; intros Hne; unfold wait, set_q; cbn [a4 a3 Z.eqb Pos.eqb];
    repeat match goal with |- context [Z.ltb 0 ?x] => destruct (Z.ltb_spec 0 x) end; lia.
Qed.

Lemma enqueue_keeps a m' p i m l :
  zlen (aq a) = 5 -> credits a -> 0 <= p < 4 -> q_at a i = m :: l -> q_at a 4 = [] ->
  let a' := a_enqueue a m' p in
  wait i a' = wait i a /\ (exists l', q_at a' i = m :: l') /\ q_at a' 4 = [] /\ zlen (aq a') = 5 /\ credits a'.
Proof.
  intros Hz Hc Hp Hm H4. simpl. unfold a_enqueue. split_and!; try done; try (rewrite q_at_set_q_ne by lia; done).
  - destruct (decide (p = i)) as [->|Hne].
    + rewrite q_at_set_q, Hm by lia. by eexists.
    + rewrite q_at_set_q_ne by lia. by eexists.
  - unfold set_q. cbn [aq]. by rewrite zlen_insert.
Qed.

Lemma a_run_fair ops i m : forall a l,
  Forall sends ops -> zlen (aq a) = 5 -> credits a -> 1 <= i < 4 -> q_at a i = m :: l -> q_at a 4 = [] ->
  wait i a <= served ops -> Some m ∈ (a_run ops a).1.
Proof.
  induction ops as [|o ops IH]; intros a l Hs Hz Hc Hi Hm H4 Hw.
  - unfold served in Hw. simpl in Hw. destruct Hc. unfold wait in Hw.
    repeat match type of Hw with context [if ?b then _ else _] => destruct b end; rewrite ?zlen_nil in Hw; lia.
  - apply Forall_cons in Hs as [Ho Hs]. destruct o as [m' prio|w| | | | | | | | | ]; try done; cbn [a_run a_step sends] in *.
    + destruct (enqueue_keeps a m' prio i m l Hz Hc Ho Hm H4) as (E & [l' Hm'] & H4' & Hz' & Hc').
      assert (Some m ∈ (a_run ops (a_enqueue a m' prio)).1) as Hin by (eapply IH; try done; rewrite E; exact Hw).
      destruct (a_run ops _). by right.
    + subst w. unfold served in Hw. cbn [List.filter] in Hw. rewrite zlen_cons in Hw.
      pose proof (getNext_progress a i m l Hz Hc Hi Hm H4) as Hp. destruct (a_getNext true a) as [r a1].
      destruct Hp as [->|(Hlt & Hm' & H4' & Hz' & Hc')].
      * destruct (a_run ops _). by left.
      * assert (Some m ∈ (a_run ops a1).1) as Hin.
        { apply (IH a1 l); try done; [by rewrite Hm'|]. unfold served. lia. }
        destruct (a_run ops _). by right.
Qed.

(** A message is queued at priority index 1 before each call of [getNext]. *)
Definition busy (ms : list ptr) : list op := flat_map (fun m => [Enqueue m 1; GetNext true]) ms.

Lemma pick_not_0 a v4 v3 : filled a 1 = true -> pick a <> (Some 0, v4, v3).
Proof. intros H. unfold pick. rewrite H. repeat case_match; congruence. Qed.

Lemma a_run_busy ms : forall a,
  zlen (aq a) = 5 -> q_at a 4 = [] -> q_at a 0 = q_at (a_run (busy ms) a).2 0 /\
  (forall m, m ∈ q_at a 0 -> m ∉ ms -> (forall i, 1 <= i < 4 -> m ∉ q_at a i) -> Some m ∉ (a_run (busy ms) a).1).
Proof.
  induction ms as [|x ms IH]; intros a Hz H4.
  - split; [done|]. by intros m _ _ _ ?%elem_of_nil.
  - cbn [busy flat_map app a_run a_step]. set (a1 := a_enqueue a x 1).
    assert (zlen (aq a1) = 5) as Hz1 by (unfold a1, a_enqueue, set_q; cbn [aq]; by rewrite zlen_insert).
    assert (q_at a1 4 = []) as H41 by (unfold a1, a_enqueue; rewrite q_at_set_q_ne by lia; done).
    assert (q_at a1 0 = q_at a 0) as H01 by (unfold a1, a_enqueue; rewrite q_at_set_q_ne by lia; done).
    assert (filled a1 1 = true) as Hf.
    { unfold a1, a_enqueue, filled. rewrite q_at_set_q by lia. by destruct (q_at a 1). }
    assert (exists j v4 v3, 1 <= j < 4 /\ a_getNext true a1 = a_take a1 j v4 v3) as (j & v4 & v3 & Hj & E).
    { unfold a_getNext. assert (filled a1 4 = false) as -> by (unfold filled; by rewrite H41).
      pose proof (pick_not_0 a1) as Hp. unfold pick in *. rewrite Hf in *.
      repeat case_match; simplify_eq; try (do 3 eexists; split; [|done]; lia). }
    rewrite E. unfold a_take. set (a2 := set_q a1 j (tail (q_at a1 j)) v4 v3).
    destruct (IH a2) as [H0 Hno].
    { unfold a2, set_q. cbn [aq]. by rewrite zlen_insert. }
    { unfold a2. rewrite q_at_set_q_ne by lia. done. }
    assert (q_at a2 0 = q_at a 0) as H02 by (unfold a2; rewrite q_at_set_q_ne by lia; done).
    fold (busy ms). destruct (a_run (busy ms) a2) as [rs a3]. cbn [fst snd] in *. split; [congruence|].
    assert (forall i m, 1 <= i < 4 -> m <> x -> m ∉ q_at a i -> m ∉ q_at a1 i) as H1.
    { intros i m Hi Hmx Hmi. unfold a1, a_enqueue. destruct (decide (i = 1)) as [->|].
      - rewrite q_at_set_q by lia. rewrite not_elem_of_app, list_elem_of_singleton. done.
      - rewrite q_at_set_q_ne by lia. done. }
    intros m Hm [Hmx Hms]%not_elem_of_cons Hmi. rewrite !not_elem_of_cons. split_and!; [done| |].
    + intros Ehd. apply (H1 j m Hj Hmx (Hmi j Hj)). destruct (q_at a1 j); [done|]. injection Ehd as ->. by left.
    + apply Hno; [by rewrite H02|done|]. intros i Hi. unfold a2. destruct (decide (i = j)) as [->|].
      * rewrite q_at_set_q by lia. intros Hin. apply (H1 j m Hj Hmx (Hmi j Hj)). destruct (q_at a1 j); [done|by right].
      * rewrite q_at_set_q_ne by lia. by apply H1; [|done|apply Hmi].
Qed.

(** ** Acknowledged numbers in ascending order *)

Definition ascending (nums : ptr -> Z) (l : list ptr) : Prop := StronglySorted Z.lt (nums <$> l).

Lemma ascending_head nums c l x : ascending nums (c :: l) -> x ∈ l -> nums c < nums x.
Proof.
  intros [_ Hall]%StronglySorted_inv Hx. rewrite List.Forall_forall in Hall. apply Hall.
  apply in_map. by apply list_elem_of_In.
Qed.

Lemma ascending_tail nums c l : ascending nums (c :: l) -> ascending nums l.
Proof. by intros [? _]%StronglySorted_inv. Qed.

Lemma filter_ext_list (P Q : ptr -> bool) l : (forall x, x ∈ l -> P x = Q x) -> List.filter P l = List.filter Q l.
Proof. intros H. apply filter_ext_in. intros x Hx. by apply H, list_elem_of_In. Qed.

Lemma ascending_above (nums : ptr -> Z) (l : list ptr) num :
  (forall x, x ∈ l -> num < nums x) ->
  List.filter (fun c => nums c <=? num) l = [] /\ List.filter (fun c => num <? nums c) l = l.
Proof.
  induction l as [|c l IH]; intros H; [done|]. simpl.
  rewrite (proj2 (Z.leb_gt _ _)), (proj2 (Z.ltb_lt _ _)) by (apply H; by left).
  destruct IH as [E1 E2]; [intros x Hx; apply H; by right|]. by rewrite E2.
Qed.

Lemma ascending_split nums num c l :
  ascending nums l -> c ∈ l -> nums c = num ->
  gone nums num l = List.filter (fun c => nums c <=? num) l /\
  kept nums num l = List.filter (fun c => num <? nums c) l /\ head (younger nums num l) = Some c.
Proof.
  intros Hs. revert Hs. induction l as [|d l IH]; intros Hs Hin Hc; [by apply elem_of_nil in Hin|].
  pose proof (ascending_tail _ _ _ Hs) as Hs'. unfold gone, kept in *. cbn [older younger].
  destruct (decide (d = c)) as [->|Hne].
  - rewrite (proj2 (Z.ltb_ge _ _)) by lia. cbn [take drop app List.filter].
    rewrite (proj2 (Z.leb_le _ _)), (proj2 (Z.ltb_ge _ _)) by lia.
    destruct (ascending_above nums l num) as [E1 E2].
    { intros x Hx. rewrite <- Hc. by eapply ascending_head. }
    rewrite E1, E2. done.
  - apply elem_of_cons in Hin as [->|Hin]; [done|]. pose proof (ascending_head _ _ _ _ Hs Hin).
    rewrite (proj2 (Z.ltb_lt _ _)) by lia. cbn [app List.filter].
    rewrite (proj2 (Z.leb_le _ _)), (proj2 (Z.ltb_ge num _)) by lia.
    destruct (IH Hs' Hin Hc) as (E1 & E2 & E3). by rewrite E1.
Qed.

Lemma younger_above (nums : ptr -> Z) num c l : num < nums c -> younger nums num (c :: l) = c :: l.
Proof. intros. simpl. by rewrite (proj2 (Z.ltb_ge _ _)) by lia. Qed.

(** ** An example connection *)

Definition empty_abs : abs := Abs (replicate 5 []) [] [] Q_PRIO_VAL_4 Q_PRIO_VAL_3.

Lemma rep_new h : rep h newPrioQueues empty_abs.
Proof. unfold rep, owned. split_and!; try done; [|apply NoDup_nil_2]. repeat constructor. Qed.

(** Three messages wait for an acknowledgement, one is queued and one is free. *)
Definition ex_h : store :=
  list_to_map [(1%positive, Msg 5 MSG_CLEAR 0 (LongTime.LT 40 0) (Some 2%positive));
    (2%positive, Msg 6 MSG_HAS_MARSHALCONT 1 (LongTime.LT 50 0) (Some 3%positive));
    (3%positive, Msg 7 MSG_CLEAR 0 (LongTime.LT 60 0) None);
    (4%positive, Msg NO_MSG_NUM MSG_CLEAR 0 LongTime.newTime None);
    (6%positive, Msg NO_MSG_NUM MSG_CLEAR 0 LongTime.newTime None)].
Definition ex_s : PrioQueues :=
  PQ [emptyQueue; emptyQueue; Qu (Some 4%positive) (Some 4%positive); emptyQueue; emptyQueue]
    (Qu (Some 3%positive) (Some 1%positive)) None None 10 10 100 1.
Definition ex_a : abs := Abs [[]; []; [4%positive]; []; []] [1%positive; 2%positive; 3%positive] [] 10 10.
Definition ex_nums (p : ptr) : Z :=
  match p with 1%positive => 5 | 2%positive => 6 | 3%positive => 7 | _ => NO_MSG_NUM end.

Lemma ex_rep : rep ex_h ex_s ex_a.
Proof.
  unfold rep, ex_s, ex_a, owned. cbn -[ex_h]. split_and!; try done.
  - repeat constructor. all: try done. by eexists.
  - split; [|done]. simpl. split; [done|]. eexists; split; [by vm_compute|]. split; [done|].
    eexists; split; [by vm_compute|]. split; [done|]. eexists; split; [by vm_compute|]. done.
  - apply (bool_decide_unpack _). by vm_compute.
Qed.

Lemma ex_consistent : consistent ex_h ex_nums.
Proof.
  intros x m Hm. apply elem_of_list_to_map_2 in Hm.
  repeat (apply elem_of_cons in Hm as [Hm|Hm]; [by injection Hm as -> ->|]). by apply elem_of_nil in Hm.
Qed.

Lemma ex_free : free_cell ex_h ex_a 6.
Proof. split; [by eexists|]. apply (bool_decide_unpack _). by vm_compute. Qed.

(** ** The properties *)

(** C40: The linked structures implement lists.  From a well formed object, each operation whose
    caller keeps the contract (the container handed over is allocated and in none of the
    lists, the priority is in range, [requeue] follows a [getNext]) runs without a failed
    assertion, a dangling access or an endless loop, returns the container the list
    operation returns and leaves a well formed object standing for the resulting lists: FIFO
    queues, unacknowledged messages in order, received messages, and the counter of queued
    messages. *)
Theorem queues_refine_lists now nums o h s a :
  rep h s a -> consistent h nums -> allowed h s a o ->
  exists h' s', step now o h s = Some ((a_step nums (curq s) o a).1, h', s') /\
    rep h' s' (a_step nums (curq s) o a).2 /\ consistent h' nums.
Proof. apply step_spec. Qed.

Lemma queues_witness :
  exists h' s', step LongTime.newTime (Enqueue 6 2) ex_h ex_s = Some (None, h', s') /\
    rep h' s' (Abs [[]; []; [4%positive; 6%positive]; []; []] [1%positive; 2%positive; 3%positive] [] 10 10) /\
    consistent h' ex_nums.
Proof.
  apply (queues_refine_lists LongTime.newTime ex_nums (Enqueue 6 2) ex_h ex_s ex_a).
  - apply ex_rep.
  - apply ex_consistent.
  - split; [lia|apply ex_free].
Defined.

(** No starvation above the lowest priority.  While nothing is queued at the highest priority
    (index 4), the message at the head of one of the queues 1 to 3 is handed out
    within [wait] calls of [getNext] (at most 2 for queue 3, 22 for queue 2, 121 for queue
    1), whatever ordinary messages are queued in between. *)
Theorem waiting_bounded now ops h s a i m l :
  rep h s a -> credits a -> Forall sends ops -> fresh h a ops -> 1 <= i < 4 ->
  q_at a i = m :: l -> q_at a 4 = [] -> wait i a <= served ops ->
  exists outs h' s', run now ops h s = Some (outs, h', s') /\ Some m ∈ outs /\ wait i a <= 121.
Proof.
  intros Hrep Hc Hs Hf Hi Hm H4 Hw. destruct (run_spec now ops h s a Hrep Hs Hf) as (h' & s' & E & _).
  do 3 eexists. split; [exact E|]. split.
  - apply (a_run_fair ops i m a l); try done. apply Hrep.
  - destruct Hc as [H41 H31]. unfold wait, Q_PRIO_VAL_4, Q_PRIO_VAL_3 in *.
    repeat match goal with |- context [if ?b then _ else _] => destruct b end; lia.
Qed.

Lemma waiting_witness :
  exists outs h' s', run LongTime.newTime (Enqueue 6 3 :: replicate 11 (GetNext true)) ex_h ex_s = Some (outs, h', s') /\
    Some 4%positive ∈ outs /\ 11 <= 121.
Proof.
  apply (waiting_bounded LongTime.newTime _ ex_h ex_s ex_a 2 4%positive []); try (unfold credits, Q_PRIO_VAL_4, Q_PRIO_VAL_3; cbn; lia); try reflexivity.
  - apply ex_rep.
  - repeat (apply Forall_cons; split; [try reflexivity; change (0 <= 3 < 4); lia|]). by apply Forall_nil.
  - split; [|intros m [->|Hm]%elem_of_cons; [by eexists|by apply elem_of_nil in Hm]].
    apply (bool_decide_unpack _). by vm_compute.
Defined.

(** The lowest priority does starve: as long as a message is queued at index 1 before each call of
    [getNext], none of the messages in queue 0 is ever handed out, however long the
    run.  The counter [prio_val_2], which should bound the preference for queue 1, is reset
    but never consulted. *)
Theorem lowest_priority_starves now ms h s a m :
  rep h s a -> fresh h a (busy ms) -> q_at a 4 = [] -> m ∈ q_at a 0 ->
  exists outs h' s' a', run now (busy ms) h s = Some (outs, h', s') /\ rep h' s' a' /\
    (Some m ∉ outs) /\ q_at a' 0 = q_at a 0.
Proof.
  intros Hrep Hf H4 Hm. assert (zlen (aq a) = 5) as Hz by apply Hrep.
  assert (Forall sends (busy ms)) as Hs.
  { clear. induction ms as [|x ms IH]; [constructor|]. constructor; [simpl; lia|]. by constructor. }
  assert (new_msgs (busy ms) = ms) as Hms by (clear; induction ms as [|x ms IH]; [done|]; cbn in *; by f_equal).
  destruct (run_spec now (busy ms) h s a Hrep Hs Hf) as (h' & s' & E & Hr').
  destruct (a_run_busy ms a Hz H4) as [H0 Hno]. exists (a_run (busy ms) a).1, h', s', (a_run (busy ms) a).2.
  split_and!; try done. destruct Hf as [Hnd _]. rewrite Hms in Hnd. apply NoDup_app in Hnd as (_ & Hd & _).
  destruct (owned_facts h s a Hrep 0 ltac:(lia)) as [Hn Hp]. apply NoDup_app in Hn as (_ & Hq & _).
  apply Hno; [done| |].
  - intros Hin. apply (Hd m Hin). rewrite Hp. apply elem_of_app. by left.
  - intros i Hi Hin. apply (Hq m Hm). unfold rest_of. apply elem_of_app. left.
    destruct (q_at_spec h s a Hrep i ltac:(lia)) as (q & _ & Hl & _). apply aget_lookup in Hl.
    eapply elem_of_concat_delete; [exact Hl| |exact Hin]. lia.
Qed.

Definition low_h : store := list_to_map
  [(4%positive, Msg NO_MSG_NUM MSG_CLEAR 0 LongTime.newTime None); (5%positive, Msg NO_MSG_NUM MSG_CLEAR 0 LongTime.newTime None);
   (6%positive, Msg NO_MSG_NUM MSG_CLEAR 0 LongTime.newTime None)].
Definition low_s : PrioQueues :=
  PQ [Qu (Some 4%positive) (Some 4%positive); emptyQueue; emptyQueue; emptyQueue; emptyQueue] emptyQueue None None 10 10 100 1.
Definition low_a : abs := Abs [[4%positive]; []; []; []; []] [] [] 10 10.

Lemma starves_witness :
  exists outs h' s' a', run LongTime.newTime (busy [5; 6]%positive) low_h low_s = Some (outs, h', s') /\ rep h' s' a' /\
    (Some 4%positive ∉ outs) /\ q_at a' 0 = [4%positive].
Proof.
  apply (lowest_priority_starves LongTime.newTime [5; 6]%positive low_h low_s low_a 4%positive); try reflexivity.
  - unfold rep, low_s, low_a, owned. cbn -[low_h]. split_and!; try done.
    + repeat constructor. all: try done. by eexists.
    + apply (bool_decide_unpack _). by vm_compute.
  - split; [apply (bool_decide_unpack _); by vm_compute|].
    intros m Hm. cbn in Hm. repeat (apply elem_of_cons in Hm as [->|Hm]; [by eexists|]). by apply elem_of_nil in Hm.
  - by left.
Defined.

(** An acknowledgement is cumulative.  When the numbers of the unacknowledged messages ascend
    and [num] is one of them, [msgAcked] deletes exactly those numbered at most [num]; the
    others stay unacknowledged in order or, on [resend], move in order to the end of queue 3
    with their marshaling state reset; every other container keeps its data, and the
    result is the time since message [num] was sent (-1 when it is not asked for or
    was not recorded). *)
Theorem acknowledgement_correct now nums h s a num resend calcrtt c :
  rep h s a -> consistent h nums -> ascending nums (aun a) -> c ∈ aun a -> nums c = num ->
  let old := List.filter (fun c => nums c <=? num) (aun a) in
  let new := List.filter (fun c => num <? nums c) (aun a) in
  exists h' s', msgAcked now h s num resend calcrtt = Some (a_rtt now h calcrtt (Some c), h', s') /\
    rep h' s' (if resend : bool then set_q (Abs (aq a) [] (arec a) (a4 a) (a3 a)) 3 (q_at a 3 ++ new) (a4 a) (a3 a)
               else Abs (aq a) new (arec a) (a4 a) (a3 a)) /\
    reset_data (if resend then new else []) (remove_all h old) h'.
Proof.
  intros Hrep Hc Hs Hin Hn old new. destruct (rep_parts h s a Hrep) as ((Hu & _) & _).
  destruct (ascending_split nums num c (aun a) Hs Hin Hn) as (E1 & E2 & E3).
  pose proof (msgAcked_spec h s a nums now num resend calcrtt Hrep (consistent_numbered _ _ _ _ Hc Hu)) as H.
  by rewrite E1, E2, E3 in H.
Qed.

Lemma acknowledgement_witness :
  exists h' s', msgAcked (LongTime.LT 90 0) ex_h ex_s 6 true true = Some (40, h', s') /\
    rep h' s' (Abs [[]; []; [4%positive]; [3%positive]; []] [] [] 10 10) /\
    reset_data [3%positive] (remove_all ex_h [1%positive; 2%positive]) h'.
Proof.
  apply (acknowledgement_correct (LongTime.LT 90 0) ex_nums ex_h ex_s ex_a 6 true true 2%positive); try reflexivity.
  - apply ex_rep.
  - apply ex_consistent.
  - repeat constructor.
  - right. by left.
Defined.

(** A repeated acknowledgement loses a message.  When every unacknowledged message is newer than
    [num] (as after a reconnection whose peer reports a number that was acknowledged
    before), [msgAcked] still deletes the oldest of them: it is neither kept nor, on
    [resend], queued again. *)
Theorem stale_acknowledgement_loses now nums h s a num resend calcrtt c l :
  rep h s a -> consistent h nums -> aun a = c :: l -> num < nums c ->
  exists r h' s', msgAcked now h s num resend calcrtt = Some (r, h', s') /\ h' !! c = None /\
    rep h' s' (if resend : bool then set_q (Abs (aq a) [] (arec a) (a4 a) (a3 a)) 3 (q_at a 3 ++ l) (a4 a) (a3 a)
               else Abs (aq a) l (arec a) (a4 a) (a3 a)).
Proof.
  intros Hrep Hc Ha Hlt. destruct (rep_parts h s a Hrep) as ((Hu & _) & _ & _ & Hnd & _).
  destruct (msgAcked_spec h s a nums now num resend calcrtt Hrep (consistent_numbered _ _ _ _ Hc Hu))
    as (h' & s' & E & Hr & Hd).
  assert (gone nums num (aun a) = [c] /\ kept nums num (aun a) = l) as [E1 E2].
  { unfold gone, kept. rewrite Ha, younger_above by done. simpl. by rewrite (proj2 (Z.ltb_ge _ _)) by lia. }
  rewrite E2 in Hr, Hd. rewrite E1 in Hd. do 3 eexists. split; [exact E|]. split; [|done].
  specialize (Hd c). rewrite remove_all_gone in Hd by by left.
  destruct (h' !! c); [|done]. by case_bool_decide.
Qed.

Lemma stale_witness :
  exists r h' s', msgAcked LongTime.newTime ex_h ex_s 4 true false = Some (r, h', s') /\ h' !! 1%positive = None /\
    rep h' s' (Abs [[]; []; [4%positive]; [2%positive; 3%positive]; []] [] [] 10 10).
Proof.
  apply (stale_acknowledgement_loses LongTime.newTime ex_nums ex_h ex_s ex_a 4 true false 1%positive); try reflexivity.
  - apply ex_rep.
  - apply ex_consistent.
Defined.

(** Closing a connection loses nothing that was not acknowledged.  [clearAll] returns, as
    one chain, exactly the messages of the queues 0 to 3 and the unacknowledged ones, deletes
    the partly received ones, and leaves an object whose only messages are those of queue 4. *)
Theorem clearAll_returns_unsent h s a :
  rep h s a ->
  exists l h' s', clearAll h s = Some (head l, h', s') /\ chain h' (head l) l /\
    l ≡ₚ q_at a 0 ++ q_at a 1 ++ q_at a 2 ++ q_at a 3 ++ aun a /\
    rep h' s' (Abs [[]; []; []; []; q_at a 4] [] [] (a4 a) (a3 a)) /\ same_data (remove_all h (arec a)) h'.
Proof.
  intros Hrep. destruct (clearAll_spec h s a Hrep) as (h' & s' & E & Hr & Hc & Hd).
  exists (returned a), h', s'. split_and!; try done. unfold returned. rewrite !reverse_Permutation.
  solve_Permutation.
Qed.

Lemma clearAll_witness :
  exists l h' s', clearAll ex_h ex_s = Some (head l, h', s') /\ chain h' (head l) l /\
    l ≡ₚ [4; 1; 2; 3]%positive /\ rep h' s' (Abs [[]; []; []; []; []] [] [] 10 10) /\ same_data (remove_all ex_h []) h'.
Proof. apply (clearAll_returns_unsent ex_h ex_s ex_a). apply ex_rep. Defined.
