(* ===== verification/DgcFwrc.v ===== *)
(** * Fractional weighted reference counting ([dgc_fwrc.hh], [dgc_fwrc.cc])

    A reference carries a weight, written as pairs [(e, d)] that stand for
    [e / MAXENUMERATOR^d].  The home gives weight out with every reference, remotes split and
    merge what they have and send it back when they drop the reference. *)
From stdpp Require Import gmap.
From S2P Require Import Prelude.

Module FracHandler.

(** ** Operations *)

Definition INT_MAX : Z := 2147483647.
Definition MAXENUMERATOR : Z := Z.shiftr INT_MAX 4.

(** [int] arithmetic; an overflow has no result. *)
Definition int_add (a b : Z) : option Z :=
  if (- INT_MAX - 1 <=? a + b) && (a + b <=? INT_MAX) then Some (a + b) else None.

Record FracHandler := FH { frac : list (Z * Z); wrc_alpha : Z }.

Definition GiveSize (wrc_alpha enumerator : Z) : option Z :=
  if 0 <? wrc_alpha then
    Some (if enumerator <? wrc_alpha then 1 else Z.quot enumerator wrc_alpha)
  else None.

Definition isEmpty (f : FracHandler) : bool := match frac f with [] => true | _ => false end.

Definition Frac_init (f : FracHandler) (e d : Z) : option FracHandler :=
  if isEmpty f then Some (FH ((e, d) :: frac f) (wrc_alpha f)) else None.

(** [insertPair] up to its recursive call; [true] asks for it. *)
Fixpoint insert_at (l : list (Z * Z)) (e k : Z) : option (list (Z * Z) * bool) :=
  match l with
  | [] => Some ([(e, k)], false)
  | (e', d) :: l' =>
      if d <? k then '(l', carry) ← insert_at l' e k; Some ((e', d) :: l', carry)
      else if k <? d then Some ((e, k) :: l, false)
      else
        s ← int_add e' e;
        if MAXENUMERATOR <=? s then
          let s := s - MAXENUMERATOR in
          Some (if s =? 0 then l' else (s, d) :: l', true)
        else Some ((s, d) :: l', false)
  end.

Fixpoint insertPair_list (fuel : nat) (l : list (Z * Z)) (e k : Z) : option (list (Z * Z)) :=
  match fuel with
  | O => None
  | S fuel =>
      if k =? 0 then Some l
      else
        '(l, carry) ← insert_at l e k;
        if carry : bool then insertPair_list fuel l 1 (k - 1) else Some l
  end.

(** The fuel is one more than the recursion can be deep. *)
Definition insertPair (f : FracHandler) (e k : Z) : option FracHandler :=
  l ← insertPair_list (S (Z.to_nat k)) (frac f) e k; Some (FH l (wrc_alpha f)).

Definition getNewRefWeightPair (f : FracHandler) : option (Z * Z * FracHandler) :=
  f ← (if isEmpty f then Frac_init f MAXENUMERATOR 1 else Some f);
  match frac f with
  | [] => None
  | (e1, d1) :: l =>
      if 1 <? e1 then
        e ← GiveSize (wrc_alpha f) e1;
        Some (e, d1, FH ((e1 - e, d1) :: l) (wrc_alpha f))
      else
        d1' ← int_add d1 1;
        match l with
        | (e2, d2) :: l' =>
            if d1' <? d2 then
              e ← GiveSize (wrc_alpha f) MAXENUMERATOR;
              Some (e, d1', FH ((MAXENUMERATOR - e, d1') :: l) (wrc_alpha f))
            else
              e ← GiveSize (wrc_alpha f) e2;
              Some (e, d2, FH ((e1, d1) :: (if 1 <? e2 then (e2 - e, d2) :: l' else l')) (wrc_alpha f))
        | [] =>
            e ← GiveSize (wrc_alpha f) MAXENUMERATOR;
            Some (e, d1', FH [(MAXENUMERATOR - e, d1')] (wrc_alpha f))
        end
  end.

Definition removeHead (f : FracHandler) : option (Z * Z * FracHandler) :=
  match frac f with (e, d) :: l => Some (e, d, FH l (wrc_alpha f)) | [] => None end.

Definition setAlpha (f : FracHandler) (val : Z) : bool * FracHandler :=
  if 0 <? val then (true, FH (frac f) val) else (false, f).

(** ** The home *)

Definition WRC_Home (alpha : Z) : option FracHandler := Frac_init (FH [] alpha) MAXENUMERATOR 1.

(** The numbers put in the reference. *)
Definition home_getReferenceInfo (f : FracHandler) : option (Z * Z * FracHandler) := getNewRefWeightPair f.

Definition home_isRoot (f : FracHandler) : bool := negb (isEmpty f).

(** The [do] loop over the integers of the message. *)
Fixpoint home_getCtlMsg (f : FracHandler) (msg : list Z) : option FracHandler :=
  match msg with
  | e :: d :: msg =>
      f ← insertPair f e d;
      match msg with [] => Some f | _ => home_getCtlMsg f msg end
  | _ => None
  end.

(** ** A remote *)

Definition WRC_Remote (alpha e d : Z) : option FracHandler := Frac_init (FH [] alpha) e d.

Definition remote_getReferenceInfo (f : FracHandler) : option (Z * Z * FracHandler) := getNewRefWeightPair f.

Definition remote_mergeReferenceInfo (f : FracHandler) (e d : Z) : option FracHandler := insertPair f e d.

(** The integers of the message to the home. *)
Fixpoint dropReference_loop (fuel : nat) (f : FracHandler) (msgC : list Z) : option (list Z * FracHandler) :=
  match fuel with
  | O => None
  | S fuel =>
      if isEmpty f then Some (msgC, f)
      else '(e, d, f) ← removeHead f; dropReference_loop fuel f (msgC ++ [e; d])
  end.
Definition remote_dropReference (f : FracHandler) : option (list Z * FracHandler) :=
  dropReference_loop (S (length (frac f))) f [].

(** ** Weights *)

Definition pair_weight (K : Z) (p : Z * Z) : Z := p.1 * MAXENUMERATOR ^ (K - p.2).
Definition weight (K : Z) (l : list (Z * Z)) : Z := foldr (fun p s => pair_weight K p + s) 0 l.
Definition unit_weight (K : Z) : Z := MAXENUMERATOR ^ K.

(** The stated invariant: numerators in range, levels positive and increasing. *)
Definition pair_ok (p : Z * Z) : Prop := 1 <= p.1 <= MAXENUMERATOR /\ 1 <= p.2.
Inductive ordered : list (Z * Z) -> Prop :=
  | ordered_nil : ordered []
  | ordered_cons p l : pair_ok p -> Forall (fun q => p.2 < q.2) l -> ordered l -> ordered (p :: l).

(** A numerator below the maximum: every pair but the one of a home that gave nothing out. *)
Definition slim (l : list (Z * Z)) : Prop := Forall (fun p : Z * Z => p.1 < MAXENUMERATOR) l.

(** The common denominator covers every level. *)
Definition below (K : Z) (l : list (Z * Z)) : Prop := Forall (fun p : Z * Z => p.2 <= K) l.

Lemma MAXENUMERATOR_value : MAXENUMERATOR = 134217727.
Proof. reflexivity. Qed.

Lemma power_step K d : d <= K -> MAXENUMERATOR ^ (K - (d - 1)) = MAXENUMERATOR * MAXENUMERATOR ^ (K - d).
Proof.
  intros H. replace (K - (d - 1)) with (Z.succ (K - d)) by lia. rewrite Z.pow_succ_r by lia. done.
Qed.

Lemma power_pos n : 0 <= n -> 0 < MAXENUMERATOR ^ n.
Proof. intros. apply Z.pow_pos_nonneg; [by rewrite MAXENUMERATOR_value|done]. Qed.

Lemma weight_cons K p l : weight K (p :: l) = pair_weight K p + weight K l.
Proof. done. Qed.

Lemma weight_app K l k : weight K (l ++ k) = weight K l + weight K k.
Proof. induction l as [|p l IH]; [done|]. rewrite <- app_comm_cons, !weight_cons. lia. Qed.

Lemma pair_weight_pos K p : pair_ok p -> p.2 <= K -> 0 < pair_weight K p.
Proof. intros [H1 H2] HK. unfold pair_weight. pose proof (power_pos (K - p.2)). nia. Qed.

Lemma weight_nonneg K l : Forall pair_ok l -> below K l -> 0 <= weight K l.
Proof.
  induction l as [|p l IH]; [done|]. intros [Hp Hl]%Forall_cons [HK Hb]%Forall_cons. rewrite weight_cons.
  pose proof (pair_weight_pos K p Hp HK). specialize (IH Hl Hb). lia.
Qed.

Lemma weight_zero K l : Forall pair_ok l -> below K l -> weight K l = 0 -> l = [].
Proof.
  destruct l as [|p l]; [done|]. intros [Hp Hl]%Forall_cons [HK Hb]%Forall_cons. rewrite weight_cons.
  pose proof (pair_weight_pos K p Hp HK). pose proof (weight_nonneg K l Hl Hb). lia.
Qed.

Lemma ordered_pairs l : ordered l -> Forall pair_ok l.
Proof. induction 1; by constructor. Qed.

Lemma ordered_below l d : Forall (fun q : Z * Z => d < q.2) l -> forall d', d' <= d -> Forall (fun q : Z * Z => d' < q.2) l.
Proof. intros H d' Hd. eapply Forall_impl; [exact H|]. simpl. lia. Qed.

(** Slim pairs above level [d] weigh less than one unit of level [d]. *)
Lemma slim_weight_above K d l :
  ordered l -> slim l -> below K l -> d <= K -> Forall (fun q : Z * Z => d < q.2) l ->
  weight K l < MAXENUMERATOR ^ (K - d).
Proof.
  intros Ho. revert d. induction Ho as [|[e d'] l [He Hd] Hgt Ho IH]; intros d Hs Hb HK Hab.
  - simpl. apply power_pos. lia.
  - apply Forall_cons in Hs as [Hs1 Hs], Hb as [Hb1 Hb], Hab as [Hab1 Hab]. simpl in *.
    specialize (IH d' Hs Hb Hb1 Hgt). unfold weight in *. simpl. unfold pair_weight at 1. simpl.
    pose proof (power_step K d' Hb1). pose proof (power_pos (K - d')).
    assert (MAXENUMERATOR ^ (K - (d' - 1)) <= MAXENUMERATOR ^ (K - d)).
    { apply Z.pow_le_mono_r; [by rewrite MAXENUMERATOR_value|lia]. }
    nia.
Qed.

(** ** Insertion *)

Lemma int_add_small a b : 0 <= a + b <= INT_MAX -> int_add a b = Some (a + b).
Proof. unfold int_add, INT_MAX. intros H. by rewrite (proj2 (Z.leb_le _ _)), (proj2 (Z.leb_le _ _)) by lia. Qed.

(** A list that is fit to be kept: ordered, and within the common denominator. *)
Definition fit (K : Z) (l : list (Z * Z)) : Prop := ordered l /\ below K l.

Lemma fit_nil K : fit K [].
Proof. split; constructor. Qed.

Lemma fit_cons K e d l :
  fit K ((e, d) :: l) <->
  1 <= e <= MAXENUMERATOR /\ 1 <= d <= K /\ Forall (fun q : Z * Z => d < q.2) l /\ fit K l.
Proof.
  unfold fit, below. split.
  - intros (Ho & Hb). inversion Ho as [|? ? [? ?] ? ?]; subst. apply Forall_cons in Hb as [? ?]. simpl in *. split_and!; try done; lia.
  - intros (? & ? & ? & ? & ?). split; [constructor; [split; simpl; lia|done|done]|]. constructor; [simpl; lia|done].
Qed.

Lemma insert_at_spec K l e k :
  fit K l -> 1 <= e <= MAXENUMERATOR -> 1 <= k <= K ->
  exists l' carry, insert_at l e k = Some (l', carry) /\ fit K l' /\
    weight K l' + (if carry : bool then MAXENUMERATOR ^ (K - (k - 1)) else 0) = weight K l + e * MAXENUMERATOR ^ (K - k) /\
    (e < MAXENUMERATOR -> slim l -> slim l') /\
    (forall d, d < k -> Forall (fun q : Z * Z => d < q.2) l -> Forall (fun q : Z * Z => d < q.2) l').
Proof.
  intros Hf He Hk. induction l as [|[e' d] l IH].
  - exists [(e, k)], false. split; [done|]. split.
    { apply fit_cons. split_and!; try done; try lia; apply fit_nil. }
    split; [unfold weight, pair_weight; simpl; lia|]. split; intros; by constructor.
  - apply fit_cons in Hf as (He' & [Hd HK] & Hgt & Hf). cbn [insert_at].
    destruct (Z.ltb_spec d k).
    { destruct (IH Hf) as (l' & c & -> & Hf' & Hw & Hs & Hab). ored. exists ((e', d) :: l'), c. split; [done|].
      split; [apply fit_cons; split_and!; try done; try lia; by apply Hab|]. split; [rewrite !weight_cons; lia|]. split.
      - intros Hlt [? ?]%Forall_cons. constructor; [done|]. by apply Hs.
      - intros d0 Hd0 [? ?]%Forall_cons. constructor; [done|]. by apply Hab. }
    destruct (Z.ltb_spec k d).
    { exists ((e, k) :: (e', d) :: l), false. split; [done|]. split.
      { apply fit_cons. split_and!; try done; try lia; [|apply fit_cons; split_and!; try done; lia].
        constructor; [done|]. eapply ordered_below; [exact Hgt|simpl; lia]. }
      split; [rewrite !weight_cons; unfold pair_weight; simpl; lia|]. split; intros; by constructor. }
    assert (d = k) as -> by lia. pose proof MAXENUMERATOR_value as HM.
    rewrite int_add_small by (unfold INT_MAX; lia). ored.
    pose proof (power_step K k ltac:(lia)) as Hp.
    destruct (Z.leb_spec MAXENUMERATOR (e' + e)) as [Hge|Hlt].
    + destruct (Z.eqb_spec (e' + e - MAXENUMERATOR) 0).
      * exists l, true. split; [done|]. split; [done|]. split.
        { rewrite weight_cons. unfold pair_weight. simpl. nia. }
        split; [by intros _ [_ ?]%Forall_cons|by intros d0 _ [_ ?]%Forall_cons].
      * exists ((e' + e - MAXENUMERATOR, k) :: l), true. split; [done|].
        split; [apply fit_cons; split_and!; try done; lia|]. split.
        { rewrite !weight_cons. unfold pair_weight. simpl. nia. }
        split; [intros ? [? ?]%Forall_cons; constructor; [simpl in *; lia|done]|].
        intros d0 _ [? ?]%Forall_cons. by constructor.
    + exists ((e' + e, k) :: l), false. split; [done|].
      split; [apply fit_cons; split_and!; try done; lia|]. split.
      { rewrite !weight_cons. unfold pair_weight. simpl. nia. }
      split; [intros ? [? ?]%Forall_cons; constructor; [simpl; lia|done]|].
      intros d0 _ [? ?]%Forall_cons. by constructor.
Qed.

(** Weight is only lost when a whole unit comes together, and then it is one unit. *)
Lemma insertPair_list_spec K : forall fuel l e k,
  fit K l -> 1 <= e <= MAXENUMERATOR -> 1 <= k <= K -> (Z.to_nat k < fuel)%nat ->
  exists l' lost, insertPair_list fuel l e k = Some l' /\ fit K l' /\
    weight K l' + (if lost : bool then unit_weight K else 0) = weight K l + e * MAXENUMERATOR ^ (K - k) /\
    (e < MAXENUMERATOR -> slim l -> slim l').
Proof.
  induction fuel as [|fuel IH]; intros l e k Hf He Hk Hfu; [lia|]. cbn [insertPair_list].
  rewrite (proj2 (Z.eqb_neq k 0)) by lia.
  destruct (insert_at_spec K l e k Hf He Hk) as (l1 & c & -> & Hf1 & Hw & Hs & _). ored.
  destruct c; [|exists l1, false; split_and!; try done; lia].
  destruct (decide (k = 1)) as [->|Hne].
  - destruct fuel as [|fuel]; [lia|]. exists l1, true. split; [done|]. split; [done|].
    split; [|done]. unfold unit_weight. replace (K - (1 - 1)) with K in Hw by lia. lia.
  - destruct (IH l1 1 (k - 1) Hf1) as (l' & lost & -> & Hf' & Hw' & Hs'); [rewrite MAXENUMERATOR_value; lia|lia|lia|].
    exists l', lost. split; [done|]. split; [done|]. split; [lia|]. intros. apply Hs'; [by rewrite MAXENUMERATOR_value|auto].
Qed.

(** The value of a handler, and what an insertion does to it. *)
Definition handler_ok (K : Z) (f : FracHandler) : Prop := fit K (frac f) /\ 2 <= wrc_alpha f.

Lemma insertPair_spec K f e k :
  handler_ok K f -> 1 <= e <= MAXENUMERATOR -> 1 <= k <= K ->
  exists f' lost, insertPair f e k = Some f' /\ handler_ok K f' /\ wrc_alpha f' = wrc_alpha f /\
    weight K (frac f') + (if lost : bool then unit_weight K else 0) = weight K (frac f) + pair_weight K (e, k) /\
    (e < MAXENUMERATOR -> slim (frac f) -> slim (frac f')).
Proof.
  intros [Hf Ha] He Hk. unfold insertPair.
  destruct (insertPair_list_spec K (S (Z.to_nat k)) (frac f) e k Hf He Hk ltac:(lia)) as (l' & lost & -> & Hf' & Hw & Hs).
  ored. by exists (FH l' (wrc_alpha f)), lost.
Qed.

(** ** Giving a reference *)

Lemma GiveSize_spec alpha e :
  2 <= alpha -> 1 <= e <= MAXENUMERATOR ->
  exists g, GiveSize alpha e = Some g /\ 1 <= g < MAXENUMERATOR /\ (1 < e -> g < e) /\ (e = 1 -> g = 1).
Proof.
  intros Ha He. unfold GiveSize. rewrite (proj2 (Z.ltb_lt 0 alpha)) by lia. pose proof MAXENUMERATOR_value as HM.
  destruct (Z.ltb_spec e alpha); [exists 1; split_and!; try done; lia|].
  rewrite Z.quot_div_nonneg by lia. exists (e / alpha).
  pose proof (Z.div_lt e alpha ltac:(lia) ltac:(lia)). pose proof (Z.div_str_pos e alpha ltac:(lia)).
  split_and!; try done; lia.
Qed.

(** From a handler with something left, the pair given and the remainder have its weight; a
    remainder is always left, so the giver stays a holder. *)
Lemma give_spec K f :
  handler_ok K f -> frac f <> [] -> (forall p, head (frac f) = Some p -> p.2 < K /\ (p.1 <= 1 -> p.2 < INT_MAX)) ->
  exists e d f', getNewRefWeightPair f = Some (e, d, f') /\ handler_ok K f' /\ frac f' <> [] /\
    wrc_alpha f' = wrc_alpha f /\ 1 <= e < MAXENUMERATOR /\ 1 <= d <= K /\
    weight K (frac f') + pair_weight K (e, d) = weight K (frac f) /\ slim (take 1 (frac f')) /\
    (slim (tail (frac f)) -> slim (frac f')).
Proof.
  intros [Hf Ha] Hne Hh. unfold getNewRefWeightPair, isEmpty. destruct f as [l alpha]. cbn [frac wrc_alpha] in *.
  destruct l as [|[e1 d1] l]; [done|]. ored. cbn [frac wrc_alpha tail].
  pose proof MAXENUMERATOR_value as HM. destruct (Hh (e1, d1) eq_refl) as [HdK HdI]. cbn [fst snd] in *.
  apply fit_cons in Hf as (He1 & [Hd1 HK] & Hgt & Hf).
  destruct (Z.ltb_spec 1 e1) as [Hgt1|Hle1].
  - destruct (GiveSize_spec alpha e1 Ha He1) as (g & -> & Hg1 & Hg2 & _). ored. specialize (Hg2 Hgt1).
    do 3 eexists. split; [done|]. split.
    { split; [|done]. apply fit_cons. split_and!; try done; lia. }
    split; [done|]. split; [done|]. split; [lia|]. split; [lia|]. split.
    { cbn [frac]. rewrite !weight_cons. unfold pair_weight. simpl. lia. }
    split; [constructor; [simpl; lia|constructor]|]. intros. constructor; [simpl; lia|done].
  - assert (e1 = 1) as -> by lia. specialize (HdI ltac:(lia)). rewrite int_add_small by (unfold INT_MAX in *; lia). ored.
    pose proof (power_step K (d1 + 1) ltac:(lia)) as Hp. replace (d1 + 1 - 1) with d1 in Hp by lia.
    destruct (GiveSize_spec alpha MAXENUMERATOR Ha ltac:(lia)) as (g & Eg & Hg1 & Hg2 & _). specialize (Hg2 ltac:(lia)).
    assert (forall l', fit K ((MAXENUMERATOR - g, d1 + 1) :: l') -> l' = l ->
      exists e d f', Some (g, d1 + 1, FH ((MAXENUMERATOR - g, d1 + 1) :: l') alpha) = Some (e, d, f') /\ handler_ok K f' /\
        frac f' <> [] /\ wrc_alpha f' = alpha /\ 1 <= e < MAXENUMERATOR /\ 1 <= d <= K /\
        weight K (frac f') + pair_weight K (e, d) = weight K ((1, d1) :: l) /\ slim (take 1 (frac f')) /\
        (slim l -> slim (frac f'))) as Hsplit.
    { intros l' Hfit ->. do 3 eexists. split; [done|]. split; [by split|]. split; [done|]. split; [done|].
      split; [lia|]. split; [lia|]. split.
      { cbn [frac]. rewrite !weight_cons. unfold pair_weight. simpl. nia. }
      split; [constructor; [simpl; lia|constructor]|]. intros. constructor; [simpl; lia|done]. }
    destruct l as [|[e2 d2] l].
    + rewrite Eg. ored. apply Hsplit; [|done]. apply fit_cons. split_and!; try done; try lia; apply fit_nil.
    + pose proof Hf as Hf0. apply fit_cons in Hf as (He2 & [Hd2 HK2] & Hgt2 & Hf).
      apply Forall_cons in Hgt as [Hlt Hgt]. cbn [fst snd] in *. destruct (Z.ltb_spec (d1 + 1) d2).
      * rewrite Eg. ored. apply Hsplit; [|done]. apply fit_cons. split_and!; try done; try lia.
        constructor; [simpl; lia|]. eapply ordered_below; [exact Hgt2|]. simpl. lia.
      * assert (d2 = d1 + 1) as -> by lia. destruct (GiveSize_spec alpha e2 Ha He2) as (g2 & -> & Hh1 & Hh2 & Hh3). ored.
        do 3 eexists. split; [done|]. destruct (Z.ltb_spec 1 e2) as [H2|H2].
        -- specialize (Hh2 H2). split.
           { split; [|done]. apply fit_cons. split_and!; try done; try lia.
             - constructor; [simpl; lia|done].
             - apply fit_cons. split_and!; try done; lia. }
           split; [done|]. split; [done|]. split; [lia|]. split; [lia|]. split.
           { cbn [frac]. rewrite !weight_cons. unfold pair_weight. simpl. lia. }
           split; [constructor; [simpl; lia|constructor]|]. intros [? ?]%Forall_cons.
           constructor; [simpl; lia|]. constructor; [simpl in *; lia|done].
        -- assert (e2 = 1) as -> by lia. rewrite (Hh3 eq_refl). split.
           { split; [|done]. apply fit_cons. split_and!; try done; lia. }
           split; [done|]. split; [done|]. split; [lia|]. split; [lia|]. split.
           { cbn [frac]. rewrite !weight_cons. unfold pair_weight. simpl. lia. }
           split; [constructor; [simpl; lia|constructor]|]. intros [? ?]%Forall_cons. constructor; [simpl; lia|done].
Qed.

(** ** Messages to the home *)

Definition flat (l : list (Z * Z)) : list Z := flat_map (fun p : Z * Z => [p.1; p.2]) l.

Lemma dropReference_loop_spec alpha l : forall fuel msg,
  (length l < fuel)%nat -> dropReference_loop fuel (FH l alpha) msg = Some (msg ++ flat l, FH [] alpha).
Proof.
  induction l as [|[e d] l IH]; intros [|fuel] msg Hf; simpl in Hf; try lia.
  - simpl. by rewrite app_nil_r.
  - cbn [dropReference_loop isEmpty frac removeHead wrc_alpha]. ored. rewrite IH by lia.
    cbn [flat flat_map]. by rewrite <- app_assoc.
Qed.

Lemma dropReference_spec f : remote_dropReference f = Some (flat (frac f), FH [] (wrc_alpha f)).
Proof. unfold remote_dropReference. destruct f as [l alpha]. by rewrite (dropReference_loop_spec alpha l) by (simpl; lia). Qed.

Lemma getCtlMsg_spec K l : forall f,
  l <> [] -> fit K l -> slim l -> handler_ok K f ->
  exists f' n, home_getCtlMsg f (flat l) = Some f' /\ handler_ok K f' /\ 0 <= n /\
    weight K (frac f') + n * unit_weight K = weight K (frac f) + weight K l /\ (slim (frac f) -> slim (frac f')).
Proof.
  induction l as [|[e d] l IH]; intros f Hne Hl Hs Hf; [done|].
  apply fit_cons in Hl as (He & Hd & _ & Hl). apply Forall_cons in Hs as [Hs1 Hs]. simpl in Hs1.
  cbn [flat flat_map app home_getCtlMsg fst snd].
  destruct (insertPair_spec K f e d Hf He Hd) as (f1 & lost & -> & Hf1 & _ & Hw & Hsl). ored. specialize (Hsl Hs1).
  destruct l as [|p l].
  - exists f1, (if lost : bool then 1 else 0). split; [done|]. split; [done|]. split; [by destruct lost|].
    rewrite weight_cons. split; [destruct lost; simpl weight in *; lia|done].
  - destruct (IH f1 ltac:(done) Hl Hs Hf1) as (f' & n & E & Hf' & Hn & Hw' & Hsl').
    change (flat_map _ (p :: l)) with (flat (p :: l)). destruct (flat (p :: l)) as [|x m] eqn:Efl; [by destruct p|].
    rewrite E. exists f', (n + if lost : bool then 1 else 0). split; [done|]. split; [done|].
    split; [destruct lost; lia|]. rewrite (weight_cons K (e, d)). split; [destruct lost; lia|auto].
Qed.

(** Raising the common denominator scales every weight. *)
Lemma weight_scale K n l : 0 <= n -> below K l -> weight (K + n) l = MAXENUMERATOR ^ n * weight K l.
Proof.
  intros Hn. induction l as [|p l IH]; intros Hb; [cbn; lia|]. apply Forall_cons in Hb as [Hp Hb].
  rewrite !weight_cons, IH by done. unfold pair_weight. replace (K + n - p.2) with (n + (K - p.2)) by lia.
  rewrite Z.pow_add_r by lia. nia.
Qed.

Lemma unit_scale K n : 0 <= n -> 0 <= K -> unit_weight (K + n) = MAXENUMERATOR ^ n * unit_weight K.
Proof. intros. unfold unit_weight. rewrite Z.pow_add_r by lia. lia. Qed.

Lemma fit_mono K K' l : K <= K' -> fit K l -> fit K' l.
Proof. intros HK [Ho Hb]. split; [done|]. eapply Forall_impl; [exact Hb|]. simpl. lia. Qed.

Lemma handler_mono K K' f : K <= K' -> handler_ok K f -> handler_ok K' f.
Proof. intros HK [? ?]. split; [by eapply fit_mono|done]. Qed.
End FracHandler.

(** ** The home, its remotes and what travels between them *)

Module WrcSystem.
Import FracHandler.

Record world := World {
  whome : FracHandler;
  remotes : gmap positive FracHandler;
  refs : list (positive * (Z * Z));
  ctls : list (list Z)
}.

Definition init (alpha : Z) : option world := h ← WRC_Home alpha; Some (World h ∅ [] []).

(** One operation of one site; messages arrive in any order. *)
Inductive wstep : world -> world -> Prop :=
  | home_sends w dest e d h :
      home_getReferenceInfo (whome w) = Some (e, d, h) ->
      wstep w (World h (remotes w) ((dest, (e, d)) :: refs w) (ctls w))
  | remote_sends w s r dest e d r' :
      remotes w !! s = Some r -> remote_getReferenceInfo r = Some (e, d, r') ->
      wstep w (World (whome w) (<[s := r']> (remotes w)) ((dest, (e, d)) :: refs w) (ctls w))
  | reference_arrives w pre post s alpha e d r :
      refs w = pre ++ (s, (e, d)) :: post -> remotes w !! s = None -> 2 <= alpha -> WRC_Remote alpha e d = Some r ->
      wstep w (World (whome w) (<[s := r]> (remotes w)) (pre ++ post) (ctls w))
  | reference_merges w pre post s r e d r' :
      refs w = pre ++ (s, (e, d)) :: post -> remotes w !! s = Some r -> remote_mergeReferenceInfo r e d = Some r' ->
      wstep w (World (whome w) (<[s := r']> (remotes w)) (pre ++ post) (ctls w))
  | remote_drops w s r msg r' :
      remotes w !! s = Some r -> remote_dropReference r = Some (msg, r') ->
      wstep w (World (whome w) (delete s (remotes w)) (refs w) (msg :: ctls w))
  | home_hears w pre msg post h :
      ctls w = pre ++ msg :: post -> home_getCtlMsg (whome w) msg = Some h ->
      wstep w (World h (remotes w) (refs w) (pre ++ post))
  | home_alpha w val h :
      2 <= val -> setAlpha (whome w) val = (true, h) ->
      wstep w (World h (remotes w) (refs w) (ctls w)).

Definition reachable (w : world) : Prop := exists alpha w0, 2 <= alpha /\ init alpha = Some w0 /\ rtc wstep w0 w.

(** Nothing is held or under way outside the home. *)
Definition quiet (w : world) : Prop := remotes w = ∅ /\ refs w = [] /\ ctls w = [].

(** ** Total weight *)

Fixpoint unflat (msg : list Z) : list (Z * Z) :=
  match msg with e :: d :: msg => (e, d) :: unflat msg | _ => [] end.

Lemma unflat_flat l : unflat (flat l) = l.
Proof. induction l as [|[e d] l IH]; [done|]. cbn [flat flat_map app unflat]. by f_equal. Qed.

Definition remote_weight (K : Z) (m : gmap positive FracHandler) : Z :=
  map_fold (fun _ r acc => weight K (frac r) + acc) 0 m.
Definition refs_weight (K : Z) (l : list (positive * (Z * Z))) : Z := weight K (snd <$> l).
Definition ctls_weight (K : Z) (l : list (list Z)) : Z := foldr (fun m acc => weight K (unflat m) + acc) 0 l.
Definition outstanding (K : Z) (w : world) : Z :=
  remote_weight K (remotes w) + refs_weight K (refs w) + ctls_weight K (ctls w).
Definition total (K : Z) (w : world) : Z := weight K (frac (whome w)) + outstanding K w.

Definition remote_ok (K : Z) (r : FracHandler) : Prop := handler_ok K r /\ frac r <> [] /\ slim (frac r).
Definition ref_ok (K : Z) (p : positive * (Z * Z)) : Prop := 1 <= p.2.1 < MAXENUMERATOR /\ 1 <= p.2.2 <= K.
Definition ctl_ok (K : Z) (m : list Z) : Prop := exists l, m = flat l /\ l <> [] /\ fit K l /\ slim l.

(** Well formed parts, for the common denominator of level [K]. *)
Definition parts_ok (K : Z) (w : world) : Prop :=
  1 <= K /\ handler_ok K (whome w) /\ map_Forall (fun _ => remote_ok K) (remotes w) /\
  Forall (ref_ok K) (refs w) /\ Forall (ctl_ok K) (ctls w).

(** The invariant: the weights add up to one unit, or everything was collected. *)
Definition world_ok (K : Z) (w : world) : Prop :=
  parts_ok K w /\ (slim (frac (whome w)) \/ frac (whome w) = [(MAXENUMERATOR, 1)]) /\
  (frac (whome w) = [] /\ quiet w \/ frac (whome w) <> [] /\ total K w = unit_weight K).

Lemma remote_weight_insert K m s r :
  m !! s = None -> remote_weight K (<[s := r]> m) = weight K (frac r) + remote_weight K m.
Proof.
  intros Hs. unfold remote_weight. rewrite map_fold_insert_L; [done| |done]. intros. lia.
Qed.

Lemma remote_weight_delete K m s r :
  m !! s = Some r -> remote_weight K m = weight K (frac r) + remote_weight K (delete s m).
Proof. intros Hs. rewrite <- (insert_delete_id m s r Hs) at 1. apply remote_weight_insert. apply lookup_delete_eq. Qed.

Lemma remote_weight_replace K m s r r' :
  m !! s = Some r -> remote_weight K (<[s := r']> m) + weight K (frac r) = remote_weight K m + weight K (frac r').
Proof.
  intros Hs. rewrite <- insert_delete_eq, remote_weight_insert by apply lookup_delete_eq.
  rewrite (remote_weight_delete K m s r Hs). lia.
Qed.

Lemma remote_ok_pos K r : remote_ok K r -> 0 < weight K (frac r).
Proof.
  intros ([[Ho Hb] _] & Hne & _). pose proof (weight_nonneg K (frac r) (ordered_pairs _ Ho) Hb).
  destruct (decide (weight K (frac r) = 0)) as [E|]; [|lia]. by apply weight_zero in E; [|apply ordered_pairs|].
Qed.

Lemma remote_weight_zero K m :
  map_Forall (fun _ => remote_ok K) m -> 0 <= remote_weight K m /\ (remote_weight K m = 0 -> m = ∅).
Proof.
  induction m as [|s r m Hs IH] using map_ind; [by unfold remote_weight; rewrite map_fold_empty|].
  intros [Hr Hm]%map_Forall_insert; [|done]. rewrite remote_weight_insert by done.
  pose proof (remote_ok_pos K r Hr). destruct (IH Hm) as [H0 _]. split; lia.
Qed.

Lemma refs_pairs K l : Forall (ref_ok K) l -> Forall pair_ok (snd <$> l) /\ below K (snd <$> l).
Proof.
  intros H. split; apply Forall_fmap; (eapply Forall_impl; [exact H|]); intros [s [e d]] [H1 H2]; simpl in *;
    unfold pair_ok; simpl; lia.
Qed.

Lemma refs_weight_zero K l :
  Forall (ref_ok K) l -> 0 <= refs_weight K l /\ (refs_weight K l = 0 -> l = []).
Proof.
  intros [Hp Hb]%refs_pairs. unfold refs_weight. split; [by apply weight_nonneg|].
  intros E. apply weight_zero in E; [|done|done]. by destruct l.
Qed.

Lemma fit_weight_pos K l : fit K l -> l <> [] -> 0 < weight K l.
Proof.
  intros [Ho Hb] Hne. pose proof (weight_nonneg K l (ordered_pairs _ Ho) Hb).
  destruct (decide (weight K l = 0)) as [E|]; [|lia]. by apply weight_zero in E; [|apply ordered_pairs|].
Qed.

Lemma ctls_weight_zero K l :
  Forall (ctl_ok K) l -> 0 <= ctls_weight K l /\ (ctls_weight K l = 0 -> l = []).
Proof.
  induction 1 as [|m l (k & -> & Hne & Hf & _) _ [IH1 IH2]]; [done|]. cbn [ctls_weight foldr].
  fold (ctls_weight K l). rewrite unflat_flat. pose proof (fit_weight_pos K k Hf Hne). split; lia.
Qed.

Lemma outstanding_zero K w :
  parts_ok K w -> 0 <= outstanding K w /\ (outstanding K w = 0 -> quiet w).
Proof.
  intros (_ & _ & Hr & Hf & Hc). unfold outstanding.
  destruct (remote_weight_zero K _ Hr), (refs_weight_zero K _ Hf), (ctls_weight_zero K _ Hc).
  split; [lia|]. intros. split_and!; [apply H0|apply H2|apply H4]; lia.
Qed.

Lemma refs_weight_middle K pre p post :
  refs_weight K (pre ++ p :: post) = pair_weight K p.2 + refs_weight K (pre ++ post).
Proof. unfold refs_weight. rewrite !fmap_app, fmap_cons, !weight_app, weight_cons. lia. Qed.

Lemma ctls_weight_middle K pre m post :
  ctls_weight K (pre ++ m :: post) = weight K (unflat m) + ctls_weight K (pre ++ post).
Proof. unfold ctls_weight. induction pre as [|x pre IH]; [done|]. cbn [app foldr]. lia. Qed.
End WrcSystem.
