(* ===== verification/DgcFwrcTheorems.v ===== *)
(** * Properties of weighted reference counting

    The invariant of [WrcSystem] is kept by every step; the home is a root exactly as
    long as a reference is held or under way. *)
From stdpp Require Import gmap relations.
From S2P Require Import Prelude DgcFwrc.
Import FracHandler WrcSystem.

(** ** Changing the common denominator *)

Lemma remote_weight_scale K n m :
  0 <= n -> map_Forall (fun _ => remote_ok K) m -> remote_weight (K + n) m = MAXENUMERATOR ^ n * remote_weight K m.
Proof.
  intros Hn. induction m as [|s r m Hs IH] using map_ind.
  - intros _. unfold remote_weight. rewrite !map_fold_empty. lia.
  - intros [([[_ Hb] _] & _) Hm]%map_Forall_insert; [|done]. rewrite !remote_weight_insert by done.
    rewrite weight_scale, IH by done. lia.
Qed.

Lemma ctls_weight_scale K n l :
  0 <= n -> Forall (ctl_ok K) l -> ctls_weight (K + n) l = MAXENUMERATOR ^ n * ctls_weight K l.
Proof.
  intros Hn. induction 1 as [|m l (k & -> & _ & [_ Hb] & _) _ IH]; [cbn; lia|].
  cbn [ctls_weight foldr]. fold (ctls_weight (K + n) l) (ctls_weight K l).
  rewrite unflat_flat, weight_scale, IH by done. lia.
Qed.

Lemma total_scale K n w : 0 <= n -> parts_ok K w -> total (K + n) w = MAXENUMERATOR ^ n * total K w.
Proof.
  intros Hn (_ & [[_ Hb] _] & Hr & Hf & Hc). unfold total, outstanding, refs_weight.
  rewrite weight_scale, remote_weight_scale, ctls_weight_scale, weight_scale by (try done; by apply refs_pairs).
  lia.
Qed.

Lemma parts_mono K K' w : K <= K' -> parts_ok K w -> parts_ok K' w.
Proof.
  intros HK (H1 & H2 & H3 & H4 & H5). unfold parts_ok. split_and!.
  - lia.
  - by eapply handler_mono.
  - eapply map_Forall_impl; [exact H3|]. intros s r (? & ? & ?). split; [by eapply handler_mono|done].
  - eapply Forall_impl; [exact H4|]. intros p [? ?]. split; [done|lia].
  - eapply Forall_impl; [exact H5|]. intros m (l & ? & ? & ? & ?). exists l. split_and!; try done. by eapply fit_mono.
Qed.

Lemma world_mono K n w : 0 <= n -> world_ok K w -> world_ok (K + n) w.
Proof.
  intros Hn (Hp & Hs & Hw). split; [eapply parts_mono; [|done]; lia|]. split; [done|].
  destruct Hw as [?|[? Ht]]; [by left|right]. split; [done|].
  rewrite total_scale, Ht, unit_scale by (try done; destruct Hp; lia). done.
Qed.

(** ** The operations on a whole world *)

Lemma give_level f e d f' :
  getNewRefWeightPair f = Some (e, d, f') -> forall p, head (frac f) = Some p -> p.1 <= 1 -> p.2 < INT_MAX.
Proof.
  unfold getNewRefWeightPair, isEmpty. destruct f as [[|[e1 d1] l] alpha]; [done|]. cbn [frac wrc_alpha mbind option_bind].
  intros H p [= <-] Hle. simpl in *. destruct (Z.ltb_spec 1 e1); [lia|].
  destruct (int_add d1 1) as [d1'|] eqn:E; [|done]. unfold int_add in E.
  destruct ((- INT_MAX - 1 <=? d1 + 1) && (d1 + 1 <=? INT_MAX)) eqn:E2; [|done]. breflect. lia.
Qed.

(** Giving, in a world whose levels stay below [K]. *)
Lemma give_in_world K f e d f' :
  handler_ok K f -> frac f <> [] -> getNewRefWeightPair f = Some (e, d, f') ->
  handler_ok (K + 1) f' /\ frac f' <> [] /\ 1 <= e < MAXENUMERATOR /\ 1 <= d <= K + 1 /\
  weight (K + 1) (frac f') + pair_weight (K + 1) (e, d) = weight (K + 1) (frac f) /\
  (slim (tail (frac f)) -> slim (frac f')).
Proof.
  intros Hf Hne E. destruct (give_spec (K + 1) f) as (e' & d' & f2 & E2 & H); [eapply handler_mono; [|done]; lia|done| |].
  - intros p Hp. split; [|by eapply give_level]. destruct f as [[|q l] alpha]; [done|]. injection Hp as <-.
    destruct Hf as [[_ Hb] _]. apply Forall_cons in Hb as [? _]. lia.
  - rewrite E in E2. injection E2 as <- <- <-. tauto.
Qed.

Lemma slim_tail l : slim l -> slim (tail l).
Proof. destruct l; [done|]. by intros [_ ?]%Forall_cons. Qed.

Lemma home_slim_tail f : slim (frac f) \/ frac f = [(MAXENUMERATOR, 1)] -> slim (tail (frac f)).
Proof. intros [?| ->]; [by apply slim_tail|constructor]. Qed.

Lemma full_weight K : 1 <= K -> weight K [(MAXENUMERATOR, 1)] = unit_weight K.
Proof.
  intros HK. unfold weight, pair_weight, unit_weight. cbn [foldr fst snd].
  pose proof (power_step K 1 HK) as E. replace (K - (1 - 1)) with K in E by lia. lia.
Qed.

Lemma full_ok K alpha : 1 <= K -> 2 <= alpha -> handler_ok K (FH [(MAXENUMERATOR, 1)] alpha).
Proof.
  intros. split; [|done]. apply fit_cons. rewrite MAXENUMERATOR_value. split_and!; try lia; [constructor|apply fit_nil].
Qed.

Lemma quiet_outstanding K w : quiet w -> outstanding K w = 0.
Proof. intros (E1 & E2 & E3). unfold outstanding. rewrite E1, E2, E3. unfold remote_weight. by rewrite map_fold_empty. Qed.

Lemma home_sends_ok K w dest e d h :
  world_ok K w -> home_getReferenceInfo (whome w) = Some (e, d, h) ->
  world_ok (K + 1) (World h (remotes w) ((dest, (e, d)) :: refs w) (ctls w)).
Proof.
  intros Hw E. pose proof Hw as (Hp & Hs & Ht).
  assert (exists f, handler_ok K f /\ frac f <> [] /\ slim (tail (frac f)) /\ getNewRefWeightPair f = Some (e, d, h) /\
    weight (K + 1) (frac f) + outstanding (K + 1) w = unit_weight (K + 1)) as (f & Hf & Hne & Hst & Ef & Htot).
  { pose proof Hp as (HK & Hh & _). destruct Ht as [[Hem Hq]|[Hne Ht]].
    - exists (FH [(MAXENUMERATOR, 1)] (wrc_alpha (whome w))). split; [apply full_ok; [lia|apply Hh]|].
      split; [done|]. split; [constructor|]. split.
      + rewrite <- E. unfold home_getReferenceInfo. destruct (whome w) as [l a]. simpl in Hem. by subst l.
      + cbn [frac]. rewrite full_weight, quiet_outstanding by (done || lia). lia.
    - exists (whome w). split; [done|]. split; [done|]. split; [by apply home_slim_tail|]. split; [done|].
      apply (world_mono K 1) in Hw; [|lia]. destruct Hw as (_ & _ & [[? _]|[_ Hw]]); [done|exact Hw]. }
  destruct (give_in_world K f e d h Hf Hne Ef) as (Hh' & Hne' & He & Hd & Hwt & Hsl).
  apply (parts_mono K (K + 1)) in Hp; [|lia]. destruct Hp as (HK & _ & Hr & Href & Hc).
  split; [|split; [left; by apply Hsl|right]].
  - unfold parts_ok. cbn [whome remotes refs ctls]. split_and!; try done. constructor; [|done]. by split.
  - split; [done|]. unfold total, outstanding in *. cbn [whome remotes refs ctls].
    unfold refs_weight. rewrite fmap_cons, weight_cons. fold (refs_weight (K + 1) (refs w)). simpl snd. lia.
Qed.

Lemma busy_total K w : world_ok K w -> ~ quiet w -> frac (whome w) <> [] /\ total K w = unit_weight K.
Proof. intros (_ & _ & [[_ ?]|?]) Hq; [done|done]. Qed.

(** Steps that leave the home alone and move weight around outside. *)
Lemma outside_ok K w w' :
  world_ok K w -> ~ quiet w -> whome w' = whome w -> parts_ok K w' -> outstanding K w' = outstanding K w ->
  world_ok K w'.
Proof.
  intros Hw Hq Eh Hp' Ho. destruct (busy_total K w Hw Hq) as [Hne Ht]. destruct Hw as (_ & Hs & _).
  split; [done|]. rewrite Eh. split; [done|]. right. split; [done|]. unfold total in *. by rewrite Eh, Ho.
Qed.

Lemma remote_sends_ok K w s r dest e d r' :
  world_ok K w -> remotes w !! s = Some r -> remote_getReferenceInfo r = Some (e, d, r') ->
  world_ok (K + 1) (World (whome w) (<[s := r']> (remotes w)) ((dest, (e, d)) :: refs w) (ctls w)).
Proof.
  intros Hw Hs E. pose proof Hw as (Hp & _). destruct Hp as (_ & _ & Hr0 & _).
  destruct (map_Forall_lookup_1 _ _ _ _ Hr0 Hs) as (Hf & Hne & Hsl).
  destruct (give_in_world K r e d r' Hf Hne E) as (Hh' & Hne' & He & Hd & Hwt & Hsl').
  apply (world_mono K 1) in Hw; [|lia]. pose proof Hw as ((HK & Hh & Hr & Href & Hc) & _).
  apply (outside_ok _ w); [done| |done| |].
  - intros (Hq & _). by rewrite Hq, lookup_empty in Hs.
  - unfold parts_ok. cbn [whome remotes refs ctls]. split_and!; try done.
    + apply map_Forall_insert_2; [|done]. split_and!; try done. by apply Hsl', slim_tail.
    + constructor; [|done]. by split.
  - unfold outstanding. cbn [remotes refs ctls]. unfold refs_weight. rewrite fmap_cons, weight_cons.
    pose proof (remote_weight_replace (K + 1) _ s r r' Hs). simpl snd. lia.
Qed.

Lemma refs_split K pre p post :
  Forall (ref_ok K) (pre ++ p :: post) -> ref_ok K p /\ Forall (ref_ok K) (pre ++ post).
Proof. rewrite !Forall_app, Forall_cons. tauto. Qed.

Lemma arrives_ok K w pre post s alpha e d r :
  world_ok K w -> refs w = pre ++ (s, (e, d)) :: post -> remotes w !! s = None -> 2 <= alpha ->
  WRC_Remote alpha e d = Some r ->
  world_ok K (World (whome w) (<[s := r]> (remotes w)) (pre ++ post) (ctls w)).
Proof.
  intros Hw Er Hs Ha [= <-]. pose proof Hw as ((HK & Hh & Hr & Href & Hc) & _).
  rewrite Er in Href. apply refs_split in Href as [[He Hd] Href]. cbn [fst snd] in *.
  apply (outside_ok _ w); [done| |done| |].
  - intros (_ & Hq & _). rewrite Er in Hq. by destruct pre.
  - unfold parts_ok. cbn [whome remotes refs ctls]. split_and!; try done. apply map_Forall_insert_2; [|done].
    split_and!; try done; [|constructor; [simpl; lia|constructor]].
    split; [|done]. apply fit_cons. split_and!; try lia; [constructor|apply fit_nil].
  - unfold outstanding. cbn [remotes refs ctls]. rewrite remote_weight_insert, Er, refs_weight_middle by done.
    unfold weight. cbn [frac foldr snd]. lia.
Qed.

Lemma merges_ok K w pre post s r e d r' :
  world_ok K w -> refs w = pre ++ (s, (e, d)) :: post -> remotes w !! s = Some r ->
  remote_mergeReferenceInfo r e d = Some r' ->
  world_ok K (World (whome w) (<[s := r']> (remotes w)) (pre ++ post) (ctls w)).
Proof.
  intros Hw Er Hs E. pose proof Hw as (Hp & _). pose proof Hp as (HK & Hh & Hr & Href & Hc).
  rewrite Er in Href. apply refs_split in Href as [[He Hd] Href]. cbn [fst snd] in *.
  destruct (map_Forall_lookup_1 _ _ _ _ Hr Hs) as (Hf & Hne & Hsl).
  destruct (insertPair_spec K r e d Hf ltac:(lia) Hd) as (r2 & lost & E2 & Hf2 & _ & Hwt & Hsl2).
  unfold remote_mergeReferenceInfo in E. assert (r2 = r') as -> by congruence. clear E E2.
  assert (~ quiet w) as Hq by (intros (_ & Hq & _); rewrite Er in Hq; by destruct pre).
  destruct (busy_total K w Hw Hq) as [Hhne Ht].
  pose proof (fit_weight_pos K _ (proj1 Hh) Hhne).
  pose proof (remote_weight_delete K _ s r Hs) as Hdel.
  destruct (remote_weight_zero K (delete s (remotes w)) (map_Forall_delete _ _ _ Hr)) as [Hrest _].
  destruct (refs_weight_zero K _ Href) as [Hrest2 _]. destruct (ctls_weight_zero K _ Hc) as [Hrest3 _].
  unfold total, outstanding in Ht. rewrite Er, refs_weight_middle in Ht. cbn [snd] in Ht.
  pose proof (weight_nonneg K _ (ordered_pairs _ (proj1 (proj1 Hf2))) (proj2 (proj1 Hf2))).
  destruct lost; [lia|].
  assert (frac r' <> []) as Hne2.
  { intros E0. pose proof (remote_ok_pos K r ltac:(by split_and!)).
    pose proof (pair_weight_pos K (e, d) ltac:(split; simpl; lia) ltac:(simpl; lia)). rewrite E0 in Hwt. simpl in Hwt. lia. }
  apply (outside_ok _ w); [done|done|done| |].
  - unfold parts_ok. cbn [whome remotes refs ctls]. split_and!; try done. apply map_Forall_insert_2; [|done].
    split_and!; try done. apply Hsl2; [lia|done].
  - unfold outstanding. cbn [remotes refs ctls]. rewrite Er, refs_weight_middle.
    pose proof (remote_weight_replace K _ s r r' Hs). cbn [snd]. lia.
Qed.

Lemma drops_ok K w s r msg r' :
  world_ok K w -> remotes w !! s = Some r -> remote_dropReference r = Some (msg, r') ->
  world_ok K (World (whome w) (delete s (remotes w)) (refs w) (msg :: ctls w)).
Proof.
  intros Hw Hs E. rewrite dropReference_spec in E. injection E as <- <-.
  pose proof Hw as ((HK & Hh & Hr & Href & Hc) & _).
  destruct (map_Forall_lookup_1 _ _ _ _ Hr Hs) as (Hf & Hne & Hsl).
  apply (outside_ok _ w); [done| |done| |].
  - intros (Hq & _). by rewrite Hq, lookup_empty in Hs.
  - unfold parts_ok. cbn [whome remotes refs ctls]. split_and!; try done; [by apply map_Forall_delete|].
    constructor; [|done]. exists (frac r). split_and!; try done. apply Hf.
  - unfold outstanding. cbn [remotes refs ctls ctls_weight foldr]. rewrite unflat_flat, (remote_weight_delete K _ s r Hs).
    fold (ctls_weight K (ctls w)). lia.
Qed.

Lemma hears_ok K w pre msg post h :
  world_ok K w -> ctls w = pre ++ msg :: post -> home_getCtlMsg (whome w) msg = Some h ->
  world_ok K (World h (remotes w) (refs w) (pre ++ post)).
Proof.
  intros Hw Ec E. pose proof Hw as ((HK & Hh & Hr & Href & Hc) & Hs & _).
  rewrite Ec in Hc. rewrite !Forall_app, Forall_cons in Hc. destruct Hc as (Hc1 & (l & -> & Hne & Hfl & Hsl) & Hc2).
  destruct (getCtlMsg_spec K l (whome w) Hne Hfl Hsl Hh) as (h2 & n & E2 & Hh2 & Hn & Hwt & Hsl2).
  assert (h2 = h) as -> by congruence. clear E E2.
  assert (~ quiet w) as Hq by (intros (_ & _ & Hq); rewrite Ec in Hq; by destruct pre).
  destruct (busy_total K w Hw Hq) as [Hhne Ht].
  assert (parts_ok K (World h (remotes w) (refs w) (pre ++ post))) as Hp'.
  { unfold parts_ok. cbn [whome remotes refs ctls]. split_and!; try done. by apply Forall_app. }
  unfold total, outstanding in Ht. rewrite Ec, ctls_weight_middle, unflat_flat in Ht.
  destruct (outstanding_zero K _ Hp') as [Ho0 Hoq]. unfold outstanding in Ho0. cbn [remotes refs ctls] in Ho0.
  pose proof (weight_nonneg K _ (ordered_pairs _ (proj1 (proj1 Hh2))) (proj2 (proj1 Hh2))).
  assert (0 < unit_weight K) by (apply power_pos; lia). pose proof (fit_weight_pos K l Hfl Hne).
  pose proof (fit_weight_pos K _ (proj1 Hh) Hhne).
  assert (slim (frac (whome w))) as Hslim.
  { destruct Hs as [?|Es]; [done|]. rewrite Es, full_weight in Ht by done. lia. }
  split; [done|]. split; [left; by apply Hsl2|]. cbn [whome].
  assert (n = 0 \/ n = 1) as [->| ->] by nia.
  - right. split; [intros E0; rewrite E0 in Hwt; simpl in Hwt; lia|]. unfold total, outstanding. cbn [whome remotes refs ctls]. lia.
  - left. split; [|apply Hoq; unfold outstanding; cbn [remotes refs ctls]; lia].
    apply (weight_zero K); [by apply ordered_pairs, Hh2|apply Hh2|lia].
Qed.

Lemma step_ok K w w' : world_ok K w -> wstep w w' -> exists K', K <= K' /\ world_ok K' w'.
Proof.
  intros Hw Hst. destruct Hst.
  - exists (K + 1). split; [lia|]. by apply home_sends_ok.
  - exists (K + 1). split; [lia|]. by eapply remote_sends_ok.
  - exists K. split; [lia|]. by eapply arrives_ok.
  - exists K. split; [lia|]. by eapply merges_ok.
  - exists K. split; [lia|]. by eapply drops_ok.
  - exists K. split; [lia|]. by eapply hears_ok.
  - exists K. split; [lia|]. unfold setAlpha in *. rewrite (proj2 (Z.ltb_lt 0 val)) in H0 by lia. injection H0 as <-.
    destruct Hw as ((HK & [Hh Ha] & Hr) & Hs & Ht). split; [|by split]. split; [done|]. by split.
Qed.

Lemma reachable_ok w : reachable w -> exists K, world_ok K w.
Proof.
  intros (alpha & w0 & Ha & Hi & Hr).
  assert (world_ok 1 w0) as H0.
  { unfold init, WRC_Home, Frac_init in Hi. simpl in Hi. injection Hi as <-. split; [|split; [by right|right]].
    - unfold parts_ok. cbn [whome remotes refs ctls]. split_and!; try done. by apply full_ok.
    - split; [done|]. unfold total. cbn [whome frac]. rewrite full_weight, quiet_outstanding by done. lia. }
  clear Hi. revert H0. generalize 1 as K. induction Hr as [w|w w1 w2 Hst _ IH]; intros K HK; [by exists K|].
  destruct (step_ok K w w1 HK Hst) as (K' & _ & HK'). by apply (IH K').
Qed.

(** ** An example run: a reference is given, received, dropped and collected *)

Definition ex_home (e : Z) : FracHandler := FH [(e, 1)] 10000.
Definition ex_given : world := World (ex_home 134204306) ∅ [(5%positive, (13421, 1))] [].
Definition ex_held : world := World (ex_home 134204306) (<[5%positive := FH [(13421, 1)] 10000]> ∅) [] [].
Definition ex_dropped : world := World (ex_home 134204306) ∅ [] [[13421; 1]].
Definition ex_collected : world := World (FH [] 10000) ∅ [] [].

Lemma ex_reachable : reachable ex_given /\ reachable ex_held /\ reachable ex_dropped /\ reachable ex_collected.
Proof.
  assert (rtc wstep (World (ex_home MAXENUMERATOR) ∅ [] []) ex_given) as H1.
  { apply rtc_once. by apply (home_sends (World (ex_home MAXENUMERATOR) ∅ [] [])). }
  assert (rtc wstep (World (ex_home MAXENUMERATOR) ∅ [] []) ex_held) as H2.
  { eapply rtc_r; [exact H1|]. apply (reference_arrives ex_given [] [] 5 10000 13421 1); try done. }
  assert (rtc wstep (World (ex_home MAXENUMERATOR) ∅ [] []) ex_dropped) as H3.
  { eapply rtc_r; [exact H2|]. apply (remote_drops ex_held 5 (FH [(13421, 1)] 10000) [13421; 1] (FH [] 10000)); done. }
  assert (rtc wstep (World (ex_home MAXENUMERATOR) ∅ [] []) ex_collected) as H4.
  { eapply rtc_r; [exact H3|]. by apply (home_hears ex_dropped [] [13421; 1] []). }
  split_and!; exists 10000; eexists; (split; [lia|split; [reflexivity|done]]).
Qed.

(** ** The properties *)

(** C38: Weight is conserved, when every divisor that is set is at least 2.  In every state that the sites then
    reach, the lists of pairs keep the
    invariant stated in the code (numerators between 1 and [MAXENUMERATOR], levels positive
    and increasing), and the weights held by the home, by the remotes, in references
    under way and in messages to the home add up to exactly one unit, unless everything has
    been collected and nothing is held anywhere. *)
Theorem weight_conserved w :
  reachable w ->
  ordered (frac (whome w)) /\ map_Forall (fun _ r => ordered (frac r)) (remotes w) /\
  (frac (whome w) = [] /\ quiet w \/ exists K, parts_ok K w /\ total K w = unit_weight K).
Proof.
  intros (K & Hp & _ & Ht)%reachable_ok. pose proof Hp as (_ & [[Ho _] _] & Hr & _).
  split; [done|]. split.
  - eapply map_Forall_impl; [exact Hr|]. intros s r ([[? _] _] & _). done.
  - destruct Ht as [?|[_ ?]]; [by left|right]. by exists K.
Qed.

Lemma weight_conserved_witness :
  ordered [(134204306, 1)] /\ map_Forall (fun _ r => ordered (frac r)) (remotes ex_held) /\
  (frac (whome ex_held) = [] /\ quiet ex_held \/ exists K, parts_ok K ex_held /\ total K ex_held = unit_weight K).
Proof. apply (weight_conserved ex_held). apply ex_reachable. Defined.

(** C37: The home is collected safely and completely, when every divisor that is set is at least 2 (the code
    accepts 1, too, see [alpha_one_breaks]).  In every state that the sites then reach, if
    [m_isRoot] of the home is false, no remote holds the reference and none is under way; and once everything has been
    dropped and heard, the home is no root, or nothing was given out since its weight was
    set up. *)
Theorem home_collection_exact w :
  reachable w ->
  (home_isRoot (whome w) = false -> quiet w) /\
  (quiet w -> home_isRoot (whome w) = false \/ frac (whome w) = [(MAXENUMERATOR, 1)]).
Proof.
  intros (K & Hp & Hs & Ht)%reachable_ok. unfold home_isRoot, isEmpty. split.
  - destruct (frac (whome w)); [|done]. intros _. by destruct Ht as [[_ ?]|[? _]].
  - intros Hq. destruct Ht as [[-> _]|[Hne Ht]]; [by left|right]. destruct Hs as [Hs|Hs]; [|done]. exfalso.
    destruct Hp as (HK & [[Ho Hb] _] & _). unfold total in Ht. rewrite quiet_outstanding in Ht by done.
    assert (Forall (fun q : Z * Z => 0 < q.2) (frac (whome w))) as Hab.
    { eapply Forall_impl; [by apply ordered_pairs|]. intros p [_ ?]. lia. }
    pose proof (slim_weight_above K 0 (frac (whome w)) Ho Hs Hb ltac:(lia) Hab) as Hlt.
    unfold unit_weight in Ht. rewrite Z.sub_0_r in Hlt. lia.
Qed.

Lemma home_collection_witness :
  (home_isRoot (FH [] 10000) = false -> quiet ex_collected) /\
  (quiet ex_collected -> home_isRoot (FH [] 10000) = false \/ frac (FH [] 10000) = [(MAXENUMERATOR, 1)]).
Proof. apply (home_collection_exact ex_collected). apply ex_reachable. Defined.

(** No operation gets stuck.  In every reachable state, a reference under way can be received
    (as a new remote or by merging), every remote can drop what it has, every message
    can be processed by the home, and a holder can give references away as long as the level
    of its first pair fits an [int]: no assertion fails, no integer overflows, no loop
    runs on. *)
Theorem operations_total w :
  reachable w ->
  (forall s e d r, (s, (e, d)) ∈ refs w -> remotes w !! s = Some r ->
     exists r', remote_mergeReferenceInfo r e d = Some r') /\
  (forall msg, msg ∈ ctls w -> exists h, home_getCtlMsg (whome w) msg = Some h) /\
  (forall s r, remotes w !! s = Some r -> exists msg, remote_dropReference r = Some (msg, FH [] (wrc_alpha r))) /\
  (forall f, (f = whome w \/ exists s, remotes w !! s = Some f) ->
     (forall p, head (frac f) = Some p -> p.2 < INT_MAX) -> exists e d f', getNewRefWeightPair f = Some (e, d, f')).
Proof.
  intros (K & Hp & _)%reachable_ok. pose proof Hp as (HK & Hh & Hr & Href & Hc). split_and!.
  - intros s e d r Hin Hs. rewrite Forall_forall in Href. destruct (Href _ Hin) as [He Hd]. cbn [fst snd] in *.
    destruct (map_Forall_lookup_1 _ _ _ _ Hr Hs) as (Hf & _).
    destruct (insertPair_spec K r e d Hf ltac:(lia) Hd) as (r' & lost & E & _). by exists r'.
  - intros msg Hin. rewrite Forall_forall in Hc. destruct (Hc _ Hin) as (l & -> & Hne & Hl & Hsl).
    destruct (getCtlMsg_spec K l (whome w) Hne Hl Hsl Hh) as (h & n & E & _). by exists h.
  - intros s r _. rewrite dropReference_spec. by eexists.
  - intros f Hf Hlev.
    assert (handler_ok K f) as Hok.
    { destruct Hf as [->|[s Hs]]; [done|]. by destruct (map_Forall_lookup_1 _ _ _ _ Hr Hs) as (? & _). }
    assert (exists g, handler_ok K g /\ frac g <> [] /\ getNewRefWeightPair g = getNewRefWeightPair f /\
      forall p, head (frac g) = Some p -> p.2 < INT_MAX) as (g & Hg & Hne & E & Hlg).
    { destruct f as [[|p l] alpha]; [exists (FH [(MAXENUMERATOR, 1)] alpha)|exists (FH (p :: l) alpha); by split_and!].
      split; [apply full_ok; [done|apply Hok]|]. split_and!; try done. by intros p [= <-]. }
    rewrite <- E. destruct (give_spec (K + 1) g) as (e & d & f' & Eg & _); [eapply handler_mono; [|done]; lia|done| |by eauto].
    intros p Hp'. split; [|intros _; by apply Hlg]. destruct g as [[|q l] alpha]; [done|]. injection Hp' as <-.
    destruct Hg as [[_ Hb] _]. apply Forall_cons in Hb as [? _]. lia.
Qed.

Lemma operations_total_witness :
  (forall s e d r, (s, (e, d)) ∈ refs ex_held -> remotes ex_held !! s = Some r ->
     exists r', remote_mergeReferenceInfo r e d = Some r') /\
  (forall msg, msg ∈ ctls ex_held -> exists h, home_getCtlMsg (whome ex_held) msg = Some h) /\
  (forall s r, remotes ex_held !! s = Some r -> exists msg, remote_dropReference r = Some (msg, FH [] (wrc_alpha r))) /\
  (forall f, (f = whome ex_held \/ exists s, remotes ex_held !! s = Some f) ->
     (forall p, head (frac f) = Some p -> p.2 < INT_MAX) -> exists e d f', getNewRefWeightPair f = Some (e, d, f')).
Proof. apply (operations_total ex_held). apply ex_reachable. Defined.

(** The divisor must not be 1.  [setAlpha] accepts every positive divisor, but with 1 the
    first reference takes the whole numerator: the home is left with a numerator of 0, which the
    invariant stated in the code excludes, and the next reference is split from nothing, so
    that the weights given out exceed one unit.  When both references have been
    dropped and heard, the home still holds weight and stays a root although nobody
    refers to it. *)
Theorem alpha_one_breaks :
  exists h0 h1 h2 ra rb h3 h4,
    setAlpha (FH [(MAXENUMERATOR, 1)] 10000) 1 = (true, h0) /\
    home_getReferenceInfo h0 = Some (MAXENUMERATOR, 1, h1) /\ ~ ordered (frac h1) /\
    home_getReferenceInfo h1 = Some (MAXENUMERATOR, 2, h2) /\
    unit_weight 2 < pair_weight 2 (MAXENUMERATOR, 1) + pair_weight 2 (MAXENUMERATOR, 2) /\
    WRC_Remote 10000 MAXENUMERATOR 1 = Some ra /\ WRC_Remote 10000 MAXENUMERATOR 2 = Some rb /\
    home_getCtlMsg h2 (flat (frac rb)) = Some h3 /\ home_getCtlMsg h3 (flat (frac ra)) = Some h4 /\
    home_isRoot h4 = true /\ frac h4 <> [(MAXENUMERATOR, 1)].
Proof.
  do 7 eexists. split; [reflexivity|]. split; [vm_compute; reflexivity|].
  split; [intros Ho%ordered_pairs%Forall_cons; destruct Ho as [[H _] _]; simpl in H; lia|].
  split; [vm_compute; reflexivity|]. split; [vm_compute; reflexivity|].
  do 2 (split; [reflexivity|]). do 2 (split; [vm_compute; reflexivity|]). by split.
Qed.
