(* ===== verification/FSetBits.v ===== *)
(** * Finite sets: the small bit vectors ([fset.cc], head of the file)

    Finite set values and constraints keep the elements below [32 * fset_high] in
    two words, and either one flag for everything above ([_normal]) or a finite domain for
    the whole set.  This file has the helpers on the two words and the conversion of
    words and flag to a domain. *)
From S2P Require Import Prelude Word32 FDBase FDIntervals FDBitVector Sort FiniteDomain FDRepr FDQueries FDOperators FDSetOperators FDDescr.
Import FDRepr FDQueries FDOperators FDSetOperators FDDescr.

Module FSetBits.

Definition fset_high : Z := 2.
Definition fs_sup : Z := 134217726.
Definition size_of_other : Z := fs_sup - 32 * fset_high + 1.

Definition findBitsSet (high : Z) (bv : list Z) : option Z := get_num_of_bits high bv.

Definition testBit (bv : list Z) (i : Z) : option bool :=
  if (32 * fset_high <=? i) || (i <? 0) then Some false
  else w ← bv.[div32 i]; Some (negb (Z.land w (shl32 1 (mod32 i)) =? 0)).

Definition setBit (bv : list Z) (i : Z) : option (list Z) :=
  w ← bv.[div32 i]; bv.[div32 i <- Z.lor w (shl32 1 (mod32 i))].

Definition resetBit (bv : list Z) (i : Z) : option (list Z) :=
  w ← bv.[div32 i]; bv.[div32 i <- Z.land w (not32 (shl32 1 (mod32 i)))].

(** The vector and the number of elements. *)
Definition setFromTo (bv : list Z) (from to : Z) : option (list Z * Z) :=
  let from := if from <? 0 then 0 else from in
  let to := if 32 * fset_high <=? to then 32 * fset_high - 1 else to in
  if to <? from then
    bv ← for_up 0 (Z.to_nat fset_high) (fun i b => b.[i <- 0]) bv; Some (bv, 0)
  else
    let low_word := div32 from in let low_bit := mod32 from in
    let up_word := div32 to in let up_bit := mod32 to in
    bv ← for_up 0 (Z.to_nat low_word) (fun i b => b.[i <- 0]) bv;
    bv ← for_up (up_word + 1) (Z.to_nat (fset_high - (up_word + 1))) (fun i b => b.[i <- 0]) bv;
    lower ← toTheLowerEnd.[up_bit];
    upper ← toTheUpperEnd.[low_bit];
    bv ← (if low_word =? up_word then bv.[low_word <- Z.land lower upper]
          else
            bv ← bv.[low_word <- upper];
            bv ← for_up (low_word + 1) (Z.to_nat (up_word - (low_word + 1))) (fun i b => b.[i <- not32 0]) bv;
            bv.[up_word <- lower]);
    Some (bv, to - from + 1).

(** One position of the scan of [mkRaw]; [l] is the start of the run, [r] that there is none. *)
Definition mkRaw_step (cap : Z) (bv : list Z) (neg : bool) (i : Z) (s : bool * Z * list i_arr_type)
  : option (bool * Z * list i_arr_type) :=
  let '(r, l, out) := s in
  b ← testBit bv i;
  if (i <? 32 * fset_high) && ((negb neg && b) || (neg && negb b)) then
    Some (false, if (r : bool) then i else l, out)
  else if r then Some (r, l, out)
  else
    let d := i - l in
    out ← apush cap out (if d =? 1 then Iv l l else Iv l (i - 1));
    Some (true, l, out).

(** The intervals left in [list_left] and [list_right], which have [cap] slots. *)
Definition mkRaw (cap : Z) (bv : list Z) (neg : bool) : option (list i_arr_type) :=
  '(_, _, out) ← for_up 0 (Z.to_nat (32 * fset_high + 1)) (mkRaw_step cap bv neg) (true, -1, []);
  Some out.

(** With no interval in the words, [fd_bv_right_conv[len-1]] is not part of the array. *)
Definition getAsList `{FDEnv} (bv : list Z) (neg other : bool) : option OZ_Term :=
  let cap := fd_bv_conv_max_high fd_env in
  ivs ← mkRaw cap bv neg;
  ivs ← (if (other && negb neg) || (neg && negb other) then
           e ← ivs.[zlen ivs - 1];
           if iv_right e =? fset_high * 32 - 1 then ivs.[zlen ivs - 1 <- Iv (iv_left e) fs_sup]
           else apush cap ivs (Iv (fset_high * 32) fs_sup)
         else Some ivs);
  Some (term_of_intervals ivs).

(** [set_Auxin] and [set_Auxout]: the domain of the words and the flag, assigned to [aux]. *)
Definition set_Aux `{FDEnv} (aux : FiniteDomain) (bv : list Z) (other : bool) : option FiniteDomain :=
  for_up 0 (Z.to_nat (32 * fset_high))
    (fun i x => b ← testBit bv i; if b : bool then FiniteDomain.op_plus_int x i else Some x)
    (if other then FiniteDomain.initRange aux (32 * fset_high) fs_sup else FiniteDomain.initEmpty).

(** The word loops [for (i = fset_high; i--; ) dst[i] = f(x[i], y[i])] and their unary form. *)
Definition words2 (f : Z -> Z -> Z) (dst x y : list Z) : option (list Z) :=
  for_down (Z.to_nat fset_high) (fun i d => a ← x.[i]; b ← y.[i]; d.[i <- f a b]) dst.
Definition words1 (f : Z -> Z) (dst x : list Z) : option (list Z) :=
  for_down (Z.to_nat fset_high) (fun i d => a ← x.[i]; d.[i <- f a]) dst.
(** The same with the destination as the first operand: [x[i] = f(x[i], y[i])]. *)
Definition words2_in (f : Z -> Z -> Z) (x y : list Z) : option (list Z) :=
  for_down (Z.to_nat fset_high) (fun i d => a ← d.[i]; b ← y.[i]; d.[i <- f a b]) x.
Definition fill_words (dst : list Z) (w : Z) : option (list Z) :=
  for_down (Z.to_nat fset_high) (fun i d => d.[i <- w]) dst.

(** [for (i = fset_high; i--; ) if (test(x[i], y[i])) goto end;] *)
Definition any_word (test : Z -> Z -> bool) (x y : list Z) : option bool :=
  for_down (Z.to_nat fset_high) (fun i (found : bool) =>
    if found then Some true else a ← x.[i]; b ← y.[i]; Some (test a b)) false.

(** ** Their meaning *)

(** A vector as long as the array, and one of words. *)
Definition room (bv : list Z) : Prop := zlen bv = fset_high.
Definition bits_ok (bv : list Z) : Prop := room bv /\ Forall is_word bv.

(** The set the words and the flag stand for. *)
Definition bits_mem (bv : list Z) (other : bool) (v : Z) : bool :=
  if v <? 32 * fset_high then words_mem bv v else other && (v <=? fs_sup).

Lemma bits_mem_range bv other v : bits_mem bv other v = true -> 0 <= v <= fs_sup.
Proof.
  unfold bits_mem, fset_high. destruct (Z.ltb_spec v (32 * 2)).
  - destruct (decide (0 <= v)); [unfold fs_sup; lia|]. rewrite words_mem_out by lia. done.
  - lia.
Qed.

Lemma room_currBv bv : room bv -> FDBitVector.currBvMaxElem bv = 63.
Proof. unfold room, FDBitVector.currBvMaxElem, fset_high. intros ->. done. Qed.

Lemma fs_testBit_spec bv i : bits_ok bv -> testBit bv i = Some ((i <? 32 * fset_high) && words_mem bv i).
Proof.
  intros [Hr Hw]. unfold testBit, fset_high. unfold room, fset_high in Hr.
  destruct (Z.leb_spec (32 * 2) i), (Z.ltb_spec i 0), (Z.ltb_spec i (32 * 2)); try lia; cbn [orb andb]; try done.
  - rewrite words_mem_out by lia. done.
  - pose proof (FDBitVector.bv_isIn_spec bv i Hw ltac:(lia)) as H2.
    unfold FDBitVector.isIn, FDBitVector.currBvMaxElem in H2. rewrite Hr in H2.
    by rewrite (proj2 (Z.leb_le i (32 * 2 - 1))) in H2 by lia.
Qed.

Lemma fs_setBit_spec bv i :
  bits_ok bv -> 0 <= i < 32 * fset_high ->
  exists bv', setBit bv i = Some bv' /\ bits_ok bv' /\ forall v, words_mem bv' v = words_mem bv v || (v =? i).
Proof.
  intros [Hr Hw] Hi. destruct (FDBitVector.setBit_spec bv i Hw) as (bv' & E & Hl & Hw' & Hm).
  { rewrite room_currBv by done. unfold fset_high in Hi. lia. }
  exists bv'. split; [done|]. split; [|done]. split; [unfold room in *; lia|done].
Qed.

Lemma fs_resetBit_spec bv i :
  bits_ok bv -> 0 <= i < 32 * fset_high ->
  exists bv', resetBit bv i = Some bv' /\ bits_ok bv' /\ forall v, words_mem bv' v = words_mem bv v && negb (v =? i).
Proof.
  intros [Hr Hw] Hi. destruct (FDBitVector.resetBit_spec bv i Hw) as (bv' & E & Hl & Hw' & Hm).
  { rewrite room_currBv by done. unfold fset_high in Hi. lia. }
  exists bv'. split; [done|]. split; [|done]. split; [unfold room in *; lia|done].
Qed.

Lemma bits_two a b : is_word a -> is_word b -> bits_ok [a; b].
Proof. intros. split; [done|]. constructor; [done|]. constructor; [done|constructor]. Qed.

Lemma room_two bv : room bv -> exists a b, bv = [a; b].
Proof. unfold room, fset_high, zlen. intros H. destruct bv as [|a [|b [|c l]]]; simpl in H; try lia. by exists a, b. Qed.

Lemma words_mem_two a b v :
  words_mem [a; b] v = if (0 <=? v) && (v <? 32) then Z.testbit a v
                       else if (32 <=? v) && (v <? 64) then Z.testbit b (v - 32) else false.
Proof.
  rewrite words_mem_at. pose proof (div32_mod32 v) as [E Hm].
  destruct (Z.leb_spec 0 v), (Z.ltb_spec v 32), (Z.leb_spec 32 v), (Z.ltb_spec v 64); try lia; cbn [andb].
  - assert (div32 v = 0) as -> by lia. f_equal. lia.
  - assert (div32 v = 1) as -> by lia. f_equal. lia.
  - unfold word_at. rewrite aget_None by (change (zlen [a; b]) with 2; lia). simpl. apply Z.bits_0.
  - unfold word_at. rewrite aget_None by (change (zlen [a; b]) with 2; lia). simpl. apply Z.bits_0.
Qed.

(** Bitwise operations, word by word. *)
Definition word_op2 (f : Z -> Z -> Z) (g : bool -> bool -> bool) : Prop :=
  forall a b, is_word a -> is_word b -> is_word (f a b) /\
    forall j, 0 <= j < 32 -> Z.testbit (f a b) j = g (Z.testbit a j) (Z.testbit b j).

Lemma words_op_mem f g a b c d :
  word_op2 f g -> bits_ok [a; b] -> bits_ok [c; d] ->
  bits_ok [f a c; f b d] /\
  forall v, words_mem [f a c; f b d] v = (0 <=? v) && (v <? 64) && g (words_mem [a; b] v) (words_mem [c; d] v).
Proof.
  intros Hf [_ Hx] [_ Hy]. apply Forall_cons in Hx as [Ha Hx], Hy as [Hc Hy].
  apply Forall_cons in Hx as [Hb _], Hy as [Hd _].
  destruct (Hf a c Ha Hc) as [W1 B1], (Hf b d Hb Hd) as [W2 B2]. split; [by apply bits_two|].
  intros v. rewrite !words_mem_two.
  destruct (Z.leb_spec 0 v), (Z.ltb_spec v 32), (Z.leb_spec 32 v), (Z.ltb_spec v 64); try lia; cbn [andb]; try done.
  - apply B1. lia.
  - apply B2. lia.
Qed.

Lemma words2_spec f g dst x y :
  word_op2 f g -> room dst -> bits_ok x -> bits_ok y ->
  exists z, words2 f dst x y = Some z /\ bits_ok z /\
    forall v, words_mem z v = (0 <=? v) && (v <? 64) && g (words_mem x v) (words_mem y v).
Proof.
  intros Hf Hd Hx Hy. destruct (room_two dst Hd) as (d0 & d1 & ->).
  destruct (room_two x (proj1 Hx)) as (a & b & ->), (room_two y (proj1 Hy)) as (c & d & ->).
  exists [f a c; f b d]. split; [done|]. by apply words_op_mem.
Qed.

Lemma words2_in_spec f g x y :
  word_op2 f g -> bits_ok x -> bits_ok y ->
  exists z, words2_in f x y = Some z /\ bits_ok z /\
    forall v, words_mem z v = (0 <=? v) && (v <? 64) && g (words_mem x v) (words_mem y v).
Proof.
  intros Hf Hx Hy.
  destruct (room_two x (proj1 Hx)) as (a & b & ->), (room_two y (proj1 Hy)) as (c & d & ->).
  exists [f a c; f b d]. split; [done|]. by apply words_op_mem.
Qed.

Lemma words1_not dst x :
  room dst -> bits_ok x ->
  exists z, words1 not32 dst x = Some z /\ bits_ok z /\
    forall v, words_mem z v = (0 <=? v) && (v <? 64) && negb (words_mem x v).
Proof.
  intros Hd Hx. destruct (room_two dst Hd) as (d0 & d1 & ->), (room_two x (proj1 Hx)) as (a & b & ->).
  exists [not32 a; not32 b]. split; [done|].
  apply (words_op_mem (fun a _ => not32 a) (fun a _ => negb a) a b a b); [|done|done].
  intros p q _ _. split; [done|]. intros. by apply testbit_not32.
Qed.

Lemma words1_copy dst x : room dst -> bits_ok x -> words1 (fun w => w) dst x = Some x.
Proof.
  intros Hd Hx. destruct (room_two dst Hd) as (d0 & d1 & ->), (room_two x (proj1 Hx)) as (a & b & ->). done.
Qed.

Lemma fill_words_spec dst w : room dst -> fill_words dst w = Some [w; w].
Proof. intros Hd. by destruct (room_two dst Hd) as (d0 & d1 & ->). Qed.

Lemma zeros_ok : bits_ok [0; 0] /\ forall v, words_mem [0; 0] v = false.
Proof.
  split; [apply bits_two; auto|]. intros v. rewrite words_mem_two, !Z.bits_0. by repeat case_match.
Qed.

Lemma ones_ok : bits_ok [not32 0; not32 0] /\ forall v, words_mem [not32 0; not32 0] v = (0 <=? v) && (v <? 64).
Proof.
  destruct zeros_ok as [Hz Hm].
  destruct (words1_not [0; 0] [0; 0] ltac:(done) Hz) as (z & E & Hok & Hv). injection E as <-.
  split; [done|]. intros v. rewrite Hv, Hm. by rewrite andb_true_r.
Qed.

Lemma land_op2 : word_op2 Z.land andb.
Proof. intros a b Ha Hb. split; [by apply is_word_land|]. intros. apply Z.land_spec. Qed.
Lemma lor_op2 : word_op2 Z.lor orb.
Proof. intros a b Ha Hb. split; [by apply is_word_lor|]. intros. apply Z.lor_spec. Qed.
Lemma diff_op2 : word_op2 (fun a b => Z.land a (not32 b)) (fun a b => a && negb b).
Proof.
  intros a b Ha Hb. split; [by apply is_word_land|]. intros. rewrite Z.land_spec. f_equal. by apply testbit_not32.
Qed.
Lemma nor_op2 : word_op2 (fun a b => not32 (Z.lor a b)) (fun a b => negb (a || b)).
Proof. intros a b Ha Hb. split; [done|]. intros. rewrite testbit_not32, Z.lor_spec by done. done. Qed.

(** Looking for a word that fails a test. *)
Lemma any_word_spec test g x y :
  (forall a b, is_word a -> is_word b -> test a b = true <-> exists j, 0 <= j < 32 /\ g (Z.testbit a j) (Z.testbit b j) = true) ->
  bits_ok x -> bits_ok y ->
  exists r, any_word test x y = Some r /\
    (r = true <-> exists v, 0 <= v < 64 /\ g (words_mem x v) (words_mem y v) = true).
Proof.
  intros Ht Hx Hy. destruct (room_two x (proj1 Hx)) as (a & b & ->), (room_two y (proj1 Hy)) as (c & d & ->).
  destruct Hx as [_ Hx], Hy as [_ Hy]. apply Forall_cons in Hx as [Ha Hx], Hy as [Hc Hy].
  apply Forall_cons in Hx as [Hb _], Hy as [Hd _].
  exists (if test b d then true else test a c). split; [unfold any_word; simpl; by destruct (test b d)|].
  transitivity (test a c = true \/ test b d = true); [destruct (test b d), (test a c); intuition congruence|].
  rewrite (Ht a c Ha Hc), (Ht b d Hb Hd). setoid_rewrite words_mem_two. split.
  - intros [(j & Hj & E)|(j & Hj & E)].
    + exists j. split; [lia|]. destruct (Z.leb_spec 0 j), (Z.ltb_spec j 32); try lia. done.
    + exists (j + 32). split; [lia|].
      destruct (Z.leb_spec 0 (j + 32)), (Z.ltb_spec (j + 32) 32), (Z.leb_spec 32 (j + 32)), (Z.ltb_spec (j + 32) 64); try lia.
      cbn [andb]. by replace (j + 32 - 32) with j by lia.
  - intros (v & Hv & E).
    destruct (Z.leb_spec 0 v), (Z.ltb_spec v 32), (Z.leb_spec 32 v), (Z.ltb_spec v 64); try lia; cbn [andb] in E.
    + left. exists v. split; [lia|done].
    + right. exists (v - 32). split; [lia|done].
Qed.

Lemma word_nonzero w : is_word w -> (w =? 0) = false <-> exists j, 0 <= j < 32 /\ Z.testbit w j = true.
Proof.
  intros Hw. rewrite Z.eqb_neq. split.
  - intros Hne. destruct (first_true (Z.testbit w) 0 32) as [Hno|(k & Hk & Hkt & _)].
    + exfalso. apply Hne, word_eq0; [done|]. intros j Hj. apply Hno. lia.
    + exists k. split; [lia|done].
  - intros (j & Hj & Hjt) ->. by rewrite Z.bits_0 in Hjt.
Qed.

(** A word operation that is tested against 0. *)
Lemma test_nonzero f g :
  word_op2 f g ->
  forall a b, is_word a -> is_word b ->
    negb (f a b =? 0) = true <-> exists j, 0 <= j < 32 /\ g (Z.testbit a j) (Z.testbit b j) = true.
Proof.
  intros Hf a b Ha Hb. destruct (Hf a b Ha Hb) as [Hw Hb2]. rewrite negb_true_iff, (word_nonzero _ Hw).
  split; intros (j & Hj & E); exists j; (split; [done|]); [by rewrite <- Hb2|by rewrite Hb2].
Qed.

(** ** Sizes and conversion *)

Lemma fs_sup_fd : fs_sup = fd_sup.
Proof. reflexivity. Qed.

Lemma card_bits bv other :
  bits_ok bv ->
  exists n, findBitsSet fset_high bv = Some n /\
    card (bits_mem bv other) = n + (if other : bool then size_of_other else 0).
Proof.
  intros [Hr Hw]. unfold findBitsSet. rewrite get_num_of_bits_spec by (try done; unfold room in Hr; rewrite Hr; unfold fset_high; lia).
  eexists; split; [done|]. set (up := fun v : Z => other && (64 <=? v) && (v <=? fd_sup)).
  rewrite <- (card_split (words_mem bv) up).
  - rewrite (card_restrict (words_mem bv) 0 63); try (unfold fd_sup; lia).
    + f_equal. unfold up. destruct other.
      * rewrite (card_range _ 64 fd_sup); [done|lia|unfold fd_sup; lia|lia|done].
      * by apply card_empty.
    + intros v Hv. destruct (decide (0 <= v <= 63)); [done|].
      rewrite words_mem_out in Hv by (unfold room, fset_high in Hr; lia). done.
  - intros v Hv. unfold up, bits_mem, fset_high. destruct (Z.ltb_spec v (32 * 2)).
    + destruct (Z.leb_spec 64 v); [lia|]. rewrite andb_false_r. simpl. lia.
    + rewrite words_mem_out by (unfold room, fset_high in Hr; lia).
      destruct (Z.leb_spec 64 v); [|lia]. rewrite andb_true_r. done.
Qed.

(** ** Ranges and lists *)

Lemma fs_setFromTo_spec bv from to :
  room bv ->
  exists bv', setFromTo bv from to = Some (bv', Z.max 0 (Z.min to 63 - Z.max from 0 + 1)) /\ bits_ok bv' /\
    forall v, words_mem bv' v = (Z.max from 0 <=? v) && (v <=? Z.min to 63).
Proof.
  intros Hr. unfold setFromTo.
  replace (if from <? 0 then 0 else from) with (Z.max from 0) by (destruct (Z.ltb_spec from 0); lia).
  replace (if 32 * fset_high <=? to then 32 * fset_high - 1 else to) with (Z.min to 63)
    by (unfold fset_high; destruct (Z.leb_spec (32 * 2) to); lia).
  set (f := Z.max from 0). set (t := Z.min to 63). destruct (Z.ltb_spec t f).
  - destruct (room_two bv Hr) as (a & b & ->). exists [0; 0].
    split; [replace (Z.max 0 (t - f + 1)) with 0 by lia; done|]. destruct zeros_ok as [Hz Hm]. split; [done|].
    intros v. rewrite Hm. lia.
  - destruct (FDBitVector.setFromTo_spec bv f t) as (bv' & E & Hl & Hw & Hm); [lia|done|by rewrite room_currBv by done; lia|].
    exists bv'. split; [|split; [split; [unfold room in *; congruence|done]|done]].
    replace (Z.max 0 (t - f + 1)) with (t - f + 1) by lia.
    pose proof (div32_mod32 f). pose proof (div32_mod32 t). unfold room, fset_high in Hr.
    destruct (FDBitVector.fill_loop 0 0 (Z.to_nat (div32 f)) bv) as (b1 & E1 & L1 & _); [lia|lia|].
    unfold FDBitVector.setFromTo in E. revert E. cbv zeta. rewrite E1. ored. rewrite L1, Hr.
    change fset_high with 2. set (g1 := for_up (div32 t + 1) _ _ b1). destruct g1 as [b2|]; [|done]. ored.
    destruct (toTheLowerEnd_spec (mod32 t)) as (lw & -> & _); [lia|].
    destruct (toTheUpperEnd_spec (mod32 f)) as (uw & -> & _); [lia|]. ored. by intros ->.
Qed.

Lemma for_up_ext {T} (f g : Z -> T -> option T) lo n s :
  (forall i s, lo <= i < lo + Z.of_nat n -> f i s = g i s) -> for_up lo n f s = for_up lo n g s.
Proof.
  revert lo s. induction n as [|n IH]; intros lo s Hfg; cbn [for_up]; [done|].
  rewrite Hfg by lia. destruct (g lo s) as [s'|]; [|done]. apply IH. intros. apply Hfg. lia.
Qed.

(** The runs of the words or of their complement are those of a bit vector of finite domains. *)
Lemma mkRaw_fd cap bv bv' (neg : bool) :
  bits_ok bv -> bits_ok bv' -> (forall v, 0 <= v < 64 -> words_mem bv' v = xorb neg (words_mem bv v)) ->
  mkRaw cap bv neg = FDBitVector.mkRaw cap bv'.
Proof.
  intros Hb Hb' Hm. unfold mkRaw, FDBitVector.mkRaw. rewrite (room_currBv _ (proj1 Hb')).
  change (Z.to_nat (63 + 2)) with (Z.to_nat (32 * fset_high + 1)).
  match goal with |- context [for_up 0 ?n ?f ?s] => match goal with |- context [for_up 0 n ?g s] =>
    rewrite (for_up_ext f g 0 n s); [done|] end end.
  intros i [[r l] out] Hi. change (Z.of_nat (Z.to_nat (32 * fset_high + 1))) with 65 in Hi. unfold mkRaw_step.
  rewrite fs_testBit_spec by done. ored. unfold fset_high.
  rewrite FDBitVector.bv_isIn_spec by (apply Hb' || lia). ored.
  destruct (Z.ltb_spec i (32 * 2)) as [Hlt|Hge].
  - rewrite Hm by lia. cbn [andb]. by destruct neg, (words_mem bv i).
  - cbn [andb]. rewrite (words_mem_out bv'); [done|]. rewrite (proj1 Hb'). unfold fset_high. lia.
Qed.

Lemma mkRaw_runs cap bv (neg : bool) :
  bits_ok bv -> 33 <= cap ->
  exists ivs, mkRaw cap bv neg = Some ivs /\ FDIntervals.seg 0 63 ivs /\ zlen ivs <= 32 /\
    forall v, FDIntervals.mem ivs v = (0 <=? v) && (v <? 64) && xorb neg (words_mem bv v).
Proof.
  intros Hb Hcap.
  assert (exists bv', bits_ok bv' /\ forall v, words_mem bv' v = (0 <=? v) && (v <? 64) && xorb neg (words_mem bv v))
    as (bv' & Hb' & Hm').
  { destruct neg.
    - destruct (words1_not bv bv (proj1 Hb) Hb) as (z & _ & Hz & Hv). by exists z.
    - exists bv. split; [done|]. intros v. rewrite xorb_false_l.
      destruct (decide (0 <= v < 64)); [destruct (words_mem bv v); lia|].
      rewrite words_mem_out by (rewrite (proj1 Hb); unfold fset_high; lia). by rewrite andb_false_r. }
  rewrite (mkRaw_fd cap bv bv' neg Hb Hb').
  2:{ intros v Hv. rewrite Hm'. by rewrite (proj2 (Z.leb_le 0 v)), (proj2 (Z.ltb_lt v 64)) by lia. }
  pose proof (proj1 Hb') as Hr. unfold room, fset_high in Hr.
  destruct (FDBitVector.mkRaw_spec cap bv' (proj2 Hb')) as (ivs & -> & Hs & Hl & Hm); [lia|].
  rewrite room_currBv in Hs by done. exists ivs. split_and!; try done; [lia|]. intros v. by rewrite Hm, Hm'.
Qed.

(** [getAsList] reads [fd_bv_right_conv[-1]] when there is no run below an element above the words. *)
Lemma getAsList_bits `{FDEnv} bv (neg other : bool) :
  bits_ok bv -> 33 <= fd_bv_conv_max_high fd_env ->
  xorb neg other = false \/ (exists v, 0 <= v < 64 /\ xorb neg (words_mem bv v) = true) ->
  exists d, getAsList bv neg other = Some d /\ descr_valid d = true /\
    forall v, descr_set d v = (0 <=? v) && (v <=? fs_sup) && xorb neg (bits_mem bv other v).
Proof.
  intros Hb Hcap Hne. unfold getAsList. destruct (mkRaw_runs _ bv neg Hb Hcap) as (ivs & -> & Hs & Hl & Hm). ored.
  replace ((other && negb neg) || (neg && negb other)) with (xorb neg other) by (by destruct neg, other).
  assert (forall v, (0 <=? v) && (v <=? fs_sup) && xorb neg (bits_mem bv other v) =
    FDIntervals.mem ivs v || (xorb neg other && (64 <=? v) && (v <=? fs_sup))) as HP.
  { intros v. rewrite Hm. unfold bits_mem, fset_high, fs_sup. destruct (Z.ltb_spec v (32 * 2)).
    - destruct (xorb neg (words_mem bv v)); lia.
    - destruct (Z.leb_spec v 134217726); rewrite ?andb_true_r, ?andb_false_r; destruct neg, other; simpl; lia. }
  destruct (xorb neg other) eqn:Ex.
  - destruct Hne as [?|(v & Hv & Hvm)]; [done|].
    assert (ivs <> []) as Hnn.
    { intros ->. specialize (Hm v). rewrite FDIntervals.mem_nil, Hvm in Hm. lia. }
    destruct (exists_last Hnn) as (l & [a b] & ->). rewrite zlen_snoc.
    replace (zlen l + 1 - 1) with (zlen l) by lia. rewrite aget_middle. ored. cbn [iv_right iv_left].
    apply FDIntervals.seg_app in Hs as (S1 & S2 & S3 & S4 & _). cbn [iv_left iv_right] in *. change (fset_high * 32) with 64.
    setoid_rewrite HP. destruct (Z.eqb_spec b 63) as [->|Hb63].
    + rewrite aset_middle. ored. eexists; split; [done|].
      apply (descr_of_intervals 0 fs_sup); [done|rewrite fs_sup_fd; lia|apply FDIntervals.seg_app; simpl; split_and!; try done; unfold fs_sup; lia|by destruct l|].
      intros w. rewrite !FDIntervals.mem_app, !FDIntervals.mem_cons, FDIntervals.mem_nil. unfold FDIntervals.iv_in. cbn [iv_left iv_right].
      unfold fs_sup. destruct (FDIntervals.mem l w); lia.
    + unfold apush. rewrite zlen_snoc in *. destruct (Z.ltb_spec (zlen l + 1) (fd_bv_conv_max_high fd_env)); [|lia]. ored.
      rewrite (proj2 (Z.eqb_neq b (64 - 1))) by lia. ored. eexists; split; [done|].
      apply (descr_of_intervals 0 fs_sup); [done|rewrite fs_sup_fd; lia| |by destruct l|].
      * rewrite <- app_assoc. apply FDIntervals.seg_app. simpl. split_and!; try done; unfold fs_sup; lia.
      * intros w. rewrite !FDIntervals.mem_app, !FDIntervals.mem_cons, FDIntervals.mem_nil. unfold FDIntervals.iv_in. cbn [iv_left iv_right].
        destruct (FDIntervals.mem l w); lia.
  - ored. eexists; split; [done|]. setoid_rewrite HP. destruct (decide (ivs = [])) as [->|Hnn].
    { split; [done|]. done. }
    apply (descr_of_intervals 0 63); [done|done|done|done|]. intros w. by rewrite orb_false_r.
Qed.

Section aux.
Context `{FDEnv} (Hg : globals_ok fd_env).

Lemma set_Aux_spec aux bv other :
  bits_ok bv -> exists x, set_Aux aux bv other = Some x /\ repr x (bits_mem bv other).
Proof using Hg.
  intros Hb. unfold set_Aux.
  destruct (for_up_inv (fun i x => 0 <= i <= 64 /\ repr x (fun v => (other && (64 <=? v) && (v <=? fs_sup)) || ((v <? i) && (v <? 64) && words_mem bv v)))
    0 (Z.to_nat (32 * fset_high)) (fun i x => b ← testBit bv i; if b : bool then FiniteDomain.op_plus_int x i else Some x)
    (if other then FiniteDomain.initRange aux (32 * fset_high) fs_sup else FiniteDomain.initEmpty))
    as (x & E & _ & Hx).
  - split; [lia|]. destruct other.
    + apply initRange_repr. intros v. rewrite fs_sup_fd. unfold fset_high.
      destruct (Z.ltb_spec v 0); cbn [andb]; [rewrite words_mem_out by lia; lia|]. rewrite orb_false_r. lia.
    + apply repr_initEmpty. intros v. destruct (Z.ltb_spec v 0); cbn [andb orb]; [|done]. rewrite words_mem_out by lia.
      by rewrite andb_false_r.
  - intros i x Hi [Hi2 Hx]. change (Z.of_nat (Z.to_nat (32 * fset_high))) with 64 in Hi.
    rewrite fs_testBit_spec by done. ored. unfold fset_high. rewrite (proj2 (Z.ltb_lt i (32 * 2))) by lia. cbn [andb].
    destruct (words_mem bv i) eqn:Ei.
    + destruct (op_plus_int_repr Hg x _ i Hx) as (x' & -> & Hx'). exists x'. split; [done|]. split; [lia|].
      eapply repr_ext; [|exact Hx']. intros v. cbn beta. rewrite (proj2 (Z.leb_le 0 i)), (proj2 (Z.leb_le i fd_sup)) by (unfold fd_sup; lia).
      destruct (Z.eqb_spec v i) as [->|Hne].
      * rewrite Ei. destruct (Z.ltb_spec i (i + 1)), (Z.ltb_spec i 64); try lia; by rewrite !orb_true_r.
      * destruct (Z.ltb_spec v i), (Z.ltb_spec v (i + 1)); try lia; by rewrite orb_false_r.
    + exists x. split; [done|]. split; [lia|]. eapply repr_ext; [|exact Hx]. intros v. cbn beta.
      destruct (Z.eqb_spec v i) as [->|Hne]; [by rewrite Ei, !andb_false_r|].
      destruct (Z.ltb_spec v i), (Z.ltb_spec v (i + 1)); try lia; done.
  - exists x. split; [exact E|]. eapply repr_ext; [|exact Hx]. intros v. cbn beta.
    change (0 + Z.of_nat (Z.to_nat (32 * fset_high))) with 64. unfold bits_mem, fset_high.
    destruct (Z.leb_spec 64 v), (Z.ltb_spec v 64), (Z.ltb_spec v (32 * 2)); try lia; cbn [andb].
Qed.
End aux.
End FSetBits.
