(* ===== verification/FSetValue.v ===== *)
(** * Finite set values ([FSetValue] of [fset.cc])

    A value is in one of two representations: [_normal] with two words and the flag
    [_other] for every element above them, or extended with a finite domain.  An object
    keeps the fields of both, so a result that the code declares without initialising it
    ([FSetValue z;]) is an argument of the operation. *)
From S2P Require Import Prelude Word32 FDBase FDIntervals FDBitVector Sort FiniteDomain FDRepr FSetBits.
Import FSetBits.

Inductive OZ_FSetState := fs_empty | fs_full.

Module FSetValue.

Record FSetValue := FSV {
  _card : Z; _other : bool; _IN : FiniteDomain; _normal : bool; _in : list Z
}.

Section operations.
Context `{FDEnv}.

(** ** Representations *)

(** The loop over the elements of [_IN] below [32 * fset_high]. *)
Fixpoint toNormal_loop (fuel : nat) (d : FiniteDomain) (i : Z) (bv : list Z) : option (list Z) :=
  match fuel with
  | O => None
  | S fuel =>
      if negb (i =? -1) && (i <? 32 * fset_high) then
        bv ← setBit bv i;
        i ← FiniteDomain.nextLargerElem d i;
        toNormal_loop fuel d i bv
      else Some bv
  end.

Definition toNormal (x : FSetValue) : option FSetValue :=
  if _normal x then None
  else
    bv ← fill_words (_in x) 0;
    bv ← toNormal_loop (S (Z.to_nat (32 * fset_high))) (_IN x) (min_elem (_IN x)) bv;
    u ← FiniteDomain.upperBound (_IN x) (32 * fset_high);
    Some (FSV (_card x) (u =? fs_sup) (_IN x) true bv).

Definition toExtended (x : FSetValue) : option FSetValue :=
  if _normal x then
    let d := if _other x then FiniteDomain.initRange (_IN x) (32 * fset_high) fs_sup else FiniteDomain.initEmpty in
    d ← for_down (Z.to_nat (32 * fset_high))
          (fun i d => b ← testBit (_in x) i; if b : bool then FiniteDomain.op_plus_int d i else Some d) d;
    Some (FSV (_card x) (_other x) d false (_in x))
  else None.

Definition maybeToNormal (x : FSetValue) : option (bool * FSetValue) :=
  if _normal x then None
  else
    let i := max_elem (_IN x) in
    if (32 * fset_high <=? i) && (i <? fs_sup) then Some (false, x)
    else
      l ← FiniteDomain.lowerBound (_IN x) fs_sup;
      if (32 * fset_high <=? i) && (32 * fset_high <? l) then Some (false, x)
      else x ← toNormal x; Some (true, x).

(** ** Construction *)

Definition init_descr (x : FSetValue) (t : OZ_Term) : option FSetValue :=
  d ← FiniteDomain.initDescr (_IN x) t;
  '(_, x) ← maybeToNormal (FSV (size d) (_other x) d false (_in x));
  Some x.

Definition init_state (x : FSetValue) (s : OZ_FSetState) : option FSetValue :=
  match s with
  | fs_empty => bv ← fill_words (_in x) 0; Some (FSV 0 false (_IN x) true bv)
  | fs_full => bv ← fill_words (_in x) (not32 0); Some (FSV (fs_sup + 1) true (_IN x) true bv)
  end.

Definition init_range (x : FSetValue) (min_elem max_elem : Z) : option FSetValue :=
  if (max_elem <? 32 * fset_high) || ((max_elem =? fs_sup) && (min_elem <=? 32 * fset_high)) then
    '(bv, c) ← setFromTo (_in x) min_elem max_elem;
    Some (FSV c (max_elem =? fs_sup) (_IN x) true bv)
  else
    let d := FiniteDomain.initRange (_IN x) min_elem max_elem in
    Some (FSV (size d) false d false (_in x)).

Definition init_fd (x : FSetValue) (fd : FiniteDomain) : option FSetValue :=
  let x := FSV (size fd) (_other x) (_IN x) (_normal x) (_in x) in
  if size fd =? 0 then init_state x fs_empty
  else
    d ← FiniteDomain.assign (_IN x) fd;
    '(_, x) ← maybeToNormal (FSV (_card x) (_other x) d false (_in x));
    Some x.

Definition of_bits (z : FSetValue) (bv : list Z) (oth : bool) : option FSetValue :=
  w ← words1 (fun a => a) (_in z) bv;
  c ← findBitsSet fset_high w;
  Some (FSV (if oth then c + size_of_other else c) oth (_IN z) true w).

(** ** Queries *)

Definition isIn (x : FSetValue) (i : Z) : option bool :=
  if (i <? 0) || (fs_sup <? i) then Some false
  else if _normal x then
    if i <? 32 * fset_high then testBit (_in x) i else Some (_other x)
  else FiniteDomain.isIn (_IN x) i.

Definition op_eq (x s : FSetValue) : option bool :=
  if negb (_card x =? _card s) then Some false
  else if _normal x then
    if negb (_normal s) || negb (Bool.eqb (_other x) (_other s)) then Some false
    else
      d ← any_word (fun a b => negb (a =? b)) (_in x) (_in s);
      Some (negb d)
  else if negb (size (_IN x) =? size (_IN s)) then Some false
  else
    d ← FiniteDomain.op_and (_IN x) (_IN s);
    Some (size d =? size (_IN x)).

(** [for (i = 32 * fset_high; i--; ) if (p(i)) return FALSE;] *)
Definition none_below (p : Z -> option bool) : option bool :=
  r ← for_down (Z.to_nat (32 * fset_high)) (fun i (found : bool) => if found then Some true else p i) false;
  Some (negb r).

(** The four cases of [<=]. *)
Definition le_normal (x s : FSetValue) : option bool :=
  if _other x && negb (_other s) then Some false
  else
    d ← any_word (fun a b => negb (Z.land a b =? a)) (_in x) (_in s);
    Some (negb d).

Definition le_extended (x s : FSetValue) : option bool :=
  d ← FiniteDomain.op_and (_IN x) (_IN s);
  Some (size d =? size (_IN x)).

Definition le_normal_extended (x s : FSetValue) : option bool :=
  ok ← none_below (fun i => b ← testBit (_in x) i; c ← FiniteDomain.isIn (_IN s) i; Some (b && negb c));
  if negb ok then Some false
  else if _other x then
    b ← FiniteDomain.isIn (_IN s) (32 * fset_high);
    u ← FiniteDomain.upperBound (_IN s) (32 * fset_high);
    Some (b && (u =? fs_sup))
  else Some true.

Definition le_extended_normal (x s : FSetValue) : option bool :=
  ok ← none_below (fun i => b ← FiniteDomain.isIn (_IN x) i; c ← testBit (_in s) i; Some (b && negb c));
  if negb ok then Some false
  else if _other s then
    b ← FiniteDomain.isIn (_IN x) (32 * fset_high);
    u ← FiniteDomain.upperBound (_IN x) (32 * fset_high);
    Some (b && (u =? fs_sup))
  else
    n ← FiniteDomain.nextLargerElem (_IN x) (32 * fset_high - 1);
    Some (n <? 0).

Definition op_le (x s : FSetValue) : option bool :=
  if _card s <? _card x then Some false
  else if _normal x && _normal s then le_normal x s
  else if negb (_normal x) && negb (_normal s) then le_extended x s
  else if _normal x then le_normal_extended x s
  else le_extended_normal x s.

Definition getKnownInList (x : FSetValue) : option OZ_Term :=
  if _normal x then getAsList (_in x) false (_other x) else FiniteDomain.getAsList (_IN x).

Definition getKnownNotInList (x : FSetValue) : option OZ_Term :=
  if _normal x then getAsList (_in x) true (_other x)
  else d ← FiniteDomain.op_not (_IN x); FiniteDomain.getAsList d.

Definition getMinElem (x : FSetValue) : Z :=
  if _normal x then
    match FDBitVector.findMinElem_scan (_in x) 0 with
    | Some (word, v) => FDBitVector.lowest_bit word v
    | None => if _other x then 32 * fset_high else -1
    end
  else min_elem (_IN x).

Definition getMaxElem (x : FSetValue) : Z :=
  if _normal x then
    if _other x then fs_sup else FDBitVector.findMaxElem_scan (reverse (_in x)) (32 * fset_high - 1)
  else max_elem (_IN x).

(** The first bit set among [n] positions from [v] upwards (downwards). *)
Fixpoint scan_up (bv : list Z) (n : nat) (v : Z) : option Z :=
  match n with
  | O => Some (-1)
  | S n => b ← testBit bv v; if b : bool then Some v else scan_up bv n (v + 1)
  end.
Fixpoint scan_down (bv : list Z) (n : nat) (v : Z) : option Z :=
  match n with
  | O => Some (-1)
  | S n => b ← testBit bv v; if b : bool then Some v else scan_down bv n (v - 1)
  end.

Definition getNextLargerElem (x : FSetValue) (v : Z) : option Z :=
  if _normal x then
    if (32 * fset_high - 1 <=? v) && _other x then Some (if v <? fs_sup then v + 1 else -1)
    else scan_up (_in x) (Z.to_nat (32 * fset_high - 1 - v)) (v + 1)
  else FiniteDomain.nextLargerElem (_IN x) v.

Definition getNextSmallerElem (x : FSetValue) (v : Z) : option Z :=
  if _normal x then
    if (32 * fset_high <? v) && _other x then Some (if v <=? fs_sup then v - 1 else -1)
    else scan_down (_in x) (Z.to_nat v) (v - 1)
  else FiniteDomain.nextSmallerElem (_IN x) v.

(** ** Set operations *)

(** [z._IN = d; z._card = z._IN.getSize(); z.maybeToNormal();] *)
Definition settle (z : FSetValue) (d : FiniteDomain) : option FSetValue :=
  d ← FiniteDomain.assign (_IN z) d;
  '(_, z) ← maybeToNormal (FSV (size d) (_other z) d false (_in z));
  Some z.

(** The same after [z._IN &= d]. *)
Definition settle_and (z : FSetValue) (d : FiniteDomain) : option FSetValue :=
  d ← FiniteDomain.op_and_eq (_IN z) d;
  '(_, z) ← maybeToNormal (FSV (size d) (_other z) d false (_in z));
  Some z.

(** Both operands in normal representation. *)
Definition normal_op (z : FSetValue) (w : option (list Z)) (o : bool) : option FSetValue :=
  w ← w;
  c ← findBitsSet fset_high w;
  Some (FSV (if o then c + size_of_other else c) o (_IN z) true w).

(** [z._normal = true; z._other = o; z._in[i] = w[i]; z.toExtended();] *)
Definition extended_of (z : FSetValue) (w : option (list Z)) (o : bool) : option FSetValue :=
  w ← w; toExtended (FSV (_card z) o (_IN z) true w).

Definition op_and (z x y : FSetValue) : option FSetValue :=
  if _normal x && _normal y then normal_op z (words2 Z.land (_in z) (_in x) (_in y)) (_other x && _other y)
  else if negb (_normal x) && negb (_normal y) then d ← FiniteDomain.op_and (_IN x) (_IN y); settle z d
  else if _normal x then
    z ← extended_of z (words1 (fun a => a) (_in z) (_in x)) (_other x); settle_and z (_IN y)
  else
    z ← extended_of z (words1 (fun a => a) (_in z) (_in y)) (_other y); settle_and z (_IN x).

Definition op_or (z x y : FSetValue) : option FSetValue :=
  if _normal x && _normal y then normal_op z (words2 Z.lor (_in z) (_in x) (_in y)) (_other x || _other y)
  else if negb (_normal x) && negb (_normal y) then d ← FiniteDomain.op_or (_IN x) (_IN y); settle z d
  else if _normal x then
    z ← extended_of z (words1 (fun a => a) (_in z) (_in x)) (_other x);
    d ← FiniteDomain.op_or (_IN z) (_IN y); settle z d
  else
    z ← extended_of z (words1 (fun a => a) (_in z) (_in y)) (_other y);
    d ← FiniteDomain.op_or (_IN z) (_IN x); settle z d.

(** In the third case [z._other] is not set. *)
Definition op_minus (z x y : FSetValue) : option FSetValue :=
  if _normal x && _normal y then
    normal_op z (words2 (fun a b => Z.land a (not32 b)) (_in z) (_in x) (_in y)) (_other x && negb (_other y))
  else if negb (_normal x) && negb (_normal y) then
    n ← FiniteDomain.op_not (_IN y); d ← FiniteDomain.op_and (_IN x) n; settle z d
  else if _normal x then
    z ← extended_of z (words1 (fun a => a) (_in z) (_in x)) (_other z);
    n ← FiniteDomain.op_not (_IN y); d ← FiniteDomain.op_and (_IN z) n; settle z d
  else
    z ← extended_of z (words1 not32 (_in z) (_in y)) (negb (_other y)); settle_and z (_IN x).

Definition op_and_eq (x y : FSetValue) : option FSetValue :=
  if _normal x && _normal y then normal_op x (words2_in Z.land (_in x) (_in y)) (_other x && _other y)
  else if negb (_normal x) && negb (_normal y) then settle_and x (_IN y)
  else if _normal x then x ← toExtended x; settle_and x (_IN y)
  else
    aux ← FiniteDomain.assign FiniteDomain.initEmpty (_IN x);
    x ← extended_of x (words1 (fun a => a) (_in x) (_in y)) (_other y); settle_and x aux.

Definition op_or_eq (x y : FSetValue) : option FSetValue :=
  if _normal x && _normal y then normal_op x (words2_in Z.lor (_in x) (_in y)) (_other x || _other y)
  else if negb (_normal x) && negb (_normal y) then d ← FiniteDomain.op_or (_IN x) (_IN y); settle x d
  else if _normal x then x ← toExtended x; d ← FiniteDomain.op_or (_IN x) (_IN y); settle x d
  else
    aux ← FiniteDomain.assign FiniteDomain.initEmpty (_IN x);
    x ← extended_of x (words1 (fun a => a) (_in x) (_in y)) (_other y);
    d ← FiniteDomain.op_or (_IN x) aux; settle x d.

Definition op_and_int (x : FSetValue) (y : Z) : option FSetValue :=
  if _normal x then
    tb ← testBit (_in x) y;
    x ← init_state x fs_empty;
    if tb : bool then bv ← setBit (_in x) y; Some (FSV 1 (_other x) (_IN x) (_normal x) bv) else Some x
  else
    b ← FiniteDomain.isIn (_IN x) y;
    let d := if b : bool then FiniteDomain.initSingleton y else FiniteDomain.initEmpty in
    Some (FSV (size d) (_other x) d (_normal x) (_in x)).

(** [findBitsSet] with the elements above, after a bit has changed. *)
Definition recount (x : FSetValue) (bv : list Z) : option FSetValue :=
  c ← findBitsSet fset_high bv;
  Some (FSV (if _other x then c + size_of_other else c) (_other x) (_IN x) (_normal x) bv).

Definition op_plus_int (x : FSetValue) (y : Z) : option FSetValue :=
  if (0 <=? y) || (fs_sup <? y) then Some x
  else if _normal x then
    if y <? 32 * fset_high then bv ← setBit (_in x) y; recount x bv
    else if _other x then Some x
    else
      x ← toExtended x;
      d ← FiniteDomain.op_plus_int (_IN x) y;
      Some (FSV (size d) (_other x) d (_normal x) (_in x))
  else
    d ← FiniteDomain.op_plus_int (_IN x) y;
    '(_, x) ← maybeToNormal (FSV (size d) (_other x) d (_normal x) (_in x));
    Some x.

Definition op_minus_int (x : FSetValue) (y : Z) : option FSetValue :=
  if (0 <=? y) || (fs_sup <? y) then Some x
  else if _normal x then
    if y <? 32 * fset_high then bv ← resetBit (_in x) y; recount x bv
    else if _other x then
      x ← toExtended x;
      d ← FiniteDomain.op_minus_int (_IN x) y;
      '(_, x) ← maybeToNormal (FSV (size d) (_other x) d (_normal x) (_in x));
      Some x
    else Some x
  else
    d ← FiniteDomain.op_minus_int (_IN x) y;
    '(_, x) ← maybeToNormal (FSV (size d) (_other x) d (_normal x) (_in x));
    Some x.

Definition op_neg (z x : FSetValue) : option FSetValue :=
  if _normal x then normal_op z (words1 not32 (_in z) (_in x)) (negb (_other x))
  else d ← FiniteDomain.op_not (_IN x); settle z d.
End operations.
End FSetValue.
