(* ===== verification/FSetValueSpec.v ===== *)
(** * What finite set values stand for

    [val x P]: the object [x] stands for the set with characteristic function [P].  The
    conversions between the two representations and the operations of [FSetValue] are
    specified against it. *)
From S2P Require Import Prelude Word32 FDBase FDIntervals FDBitVector Sort FiniteDomain FDRepr FDQueries FDOperators FDSetOperators FDDescr FSetBits FSetValue.
Import FDRepr FDQueries FDOperators FDSetOperators FDDescr FSetBits FSetValue.

Module FSetValueSpec.

Definition holds `{FDEnv} (x : FSetValue) (P : Z -> bool) : Prop :=
  room (_in x) /\
  if _normal x then Forall is_word (_in x) /\ forall v, bits_mem (_in x) (_other x) v = P v
  else repr (_IN x) P.

Definition val `{FDEnv} (x : FSetValue) (P : Z -> bool) : Prop := holds x P /\ _card x = card P.

(** No element of a normal set needs more than the words and the flag. *)
Definition uniform (P : Z -> bool) : Prop := forall v, 64 <= v <= fs_sup -> P v = P 64.

(** An extended object is one that could not be normal. *)
Definition canonical (x : FSetValue) (P : Z -> bool) : Prop := _normal x = false -> ~ uniform P.

(** An emptied domain has no stale bounds. *)
Definition clean (d : FiniteDomain) : Prop := size d = 0 -> min_elem d = -1 /\ max_elem d = -1.

(** A value as the operations keep it. *)
Definition good `{FDEnv} (x : FSetValue) (P : Z -> bool) : Prop := val x P /\ canonical x P.

Section representations.
Context `{FDEnv} (Hg : globals_ok fd_env).
Implicit Types (x y z : FSetValue) (P Q : Z -> bool).

Lemma holds_range x P v : holds x P -> P v = true -> 0 <= v <= fs_sup.
Proof using.
  intros [_ Hx] Hv. destruct (_normal x).
  - destruct Hx as [_ Hx]. rewrite <- Hx in Hv. by eapply bits_mem_range.
  - rewrite fs_sup_fd. by apply (repr_bounds (_IN x) P v).
Qed.

Lemma holds_ext x P Q : (forall v, P v = Q v) -> holds x P -> holds x Q.
Proof using.
  intros HPQ [Hr Hx]. split; [done|]. destruct (_normal x).
  - destruct Hx as [? Hx]. split; [done|]. intros v. by rewrite Hx.
  - by apply (repr_ext _ P).
Qed.

Lemma val_ext x P Q : (forall v, P v = Q v) -> val x P -> val x Q.
Proof using. intros HPQ [Hx Hc]. split; [by apply (holds_ext x P)|]. rewrite Hc. by apply card_ext. Qed.

Lemma holds_uniform x P : holds x P -> _normal x = true -> uniform P.
Proof using.
  intros [_ Hx] Hn v Hv. rewrite Hn in Hx. destruct Hx as [_ Hx]. rewrite <- !Hx. unfold bits_mem, fset_high, fs_sup in *.
  destruct (Z.ltb_spec v (32 * 2)); [lia|]. simpl. f_equal. lia.
Qed.

(** ** From a domain to words *)

Lemma toNormal_loop_spec d P : repr d P -> 0 < size d ->
  forall fuel i bv, bits_ok bv -> i = -1 \/ (0 <= i /\ P i = true) -> (Z.to_nat (64 - i) < fuel)%nat \/ i = -1 /\ fuel <> O ->
  exists bv', toNormal_loop fuel d i bv = Some bv' /\ bits_ok bv' /\
    forall v, words_mem bv' v = words_mem bv v || (negb (i =? -1) && (i <=? v) && (v <? 64) && P v).
Proof using.
  intros Hd Hsz. induction fuel as [|fuel IH]; intros i bv Hb Hi Hf; [lia|]. cbn [toNormal_loop].
  unfold fset_high. destruct (Z.eqb_spec i (-1)) as [->|Hne]; cbn [negb andb].
  { exists bv. split; [done|]. split; [done|]. intros v. by rewrite orb_false_r. }
  destruct (Z.ltb_spec i (32 * 2)) as [Hlt|Hge].
  - destruct Hi as [?|[Hi0 HPi]]; [done|]. destruct (fs_setBit_spec bv i Hb) as (b1 & -> & Hb1 & Hm1); [unfold fset_high; lia|]. ored.
    destruct (nextLargerElem_repr d P Hd i Hsz) as (r & -> & Hr); [lia|]. ored.
    assert (r = -1 \/ (i < r /\ P r = true /\ 0 <= r)) as Hr'.
    { destruct Hr as [[-> _]|(? & ? & _)]; [by left|right]. split_and!; try done. lia. }
    destruct (IH r b1 Hb1) as (b2 & -> & Hb2 & Hm2).
    { destruct Hr' as [->|(? & ? & ?)]; [by left|right; by split]. }
    { destruct Hr' as [->|(? & ? & ?)]; [right; split; [done|]|left; lia].
      destruct Hf as [Hf|[? _]]; [|done]. intros ->. lia. }
    exists b2. split; [done|]. split; [done|]. intros v. rewrite Hm2, Hm1.
    destruct Hr as [[-> Hno]|(HPr & Hir & Hmin)].
    + cbn [Z.eqb negb andb]. rewrite orb_false_r. f_equal. destruct (Z.eqb_spec v i) as [->|Hvi].
      * rewrite HPi. lia.
      * destruct (P v) eqn:HPv; [|by rewrite andb_false_r]. specialize (Hno v HPv). lia.
    + rewrite <- orb_assoc. f_equal. destruct (Z.eqb_spec v i) as [->|Hvi].
      * rewrite HPi. lia.
      * destruct (P v) eqn:HPv; [|by rewrite !andb_false_r]. rewrite !andb_true_r. cbn [orb].
        destruct (Z.lt_ge_cases i v); [pose proof (Hmin v HPv ltac:(lia))|]; lia.
  - exists bv. split; [done|]. split; [done|]. intros v.
    replace ((i <=? v) && (v <? 64)) with false by lia. by rewrite andb_false_l, orb_false_r.
Qed.

(** Whether the run around 64 reaches the top. *)
Lemma upper_run d P :
  repr d P -> exists u, FiniteDomain.upperBound d 64 = Some u /\
    ((u =? fs_sup) = true <-> forall v, 64 <= v <= fs_sup -> P v = true).
Proof using Hg.
  intros Hd. destruct (upperBound_repr d P Hd 64) as (u & E & Hu). exists u. split; [done|]. rewrite Z.eqb_eq.
  destruct (P 64) eqn:E64.
  - destruct Hu as (Hle & Hall & Hend). split.
    + intros ->. intros v Hv. by apply Hall.
    + intros Hfull. assert (~ u < fs_sup) as Hnlt by (intros ?; rewrite Hfull in Hend by lia; done).
      destruct (Z.lt_ge_cases fs_sup u); [|lia].
      assert (P u = true) as Hu by (apply Hall; lia). apply (repr_bounds d P u Hd) in Hu. rewrite <- fs_sup_fd in Hu. lia.
  - subst u. split; [done|]. intros Hfull. rewrite Hfull in E64 by (unfold fs_sup; lia). done.
Qed.

(** Whether the run around the top starts at or below 64. *)
Lemma lower_run d P :
  repr d P -> exists l, FiniteDomain.lowerBound d fs_sup = Some l /\
    (P fs_sup = true -> (64 <? l) = false -> forall v, 64 <= v <= fs_sup -> P v = true) /\
    (P fs_sup = true -> (64 <? l) = true -> exists v, 64 <= v <= fs_sup /\ P v = false) /\
    (P fs_sup = false -> l = -1).
Proof using Hg.
  intros Hd. destruct (lowerBound_repr d P Hd fs_sup) as (l & E & Hl). exists l. split; [done|].
  destruct (P fs_sup) eqn:Es; [|done]. destruct Hl as (Hle & Hall & Hend). split_and!; [| |done].
  - intros _ Hl v Hv. apply Hall. lia.
  - intros _ Hl. exists (l - 1). split; [lia|done].
Qed.

Lemma toNormal_spec x P :
  _normal x = false -> room (_in x) -> repr (_IN x) P -> clean (_IN x) ->
  exists x', toNormal x = Some x' /\ _normal x' = true /\ bits_ok (_in x') /\ _card x' = _card x /\
    (forall v, words_mem (_in x') v = (v <? 64) && P v) /\
    (_other x' = true <-> forall v, 64 <= v <= fs_sup -> P v = true).
Proof using Hg.
  intros Hn Hr Hd Hcl. unfold toNormal. rewrite Hn, (fill_words_spec _ _ Hr). ored.
  destruct zeros_ok as [Hz Hzm].
  assert (exists bv, toNormal_loop (S (Z.to_nat (32 * fset_high))) (_IN x) (min_elem (_IN x)) [0; 0] = Some bv /\
    bits_ok bv /\ forall v, words_mem bv v = (v <? 64) && P v) as (bv & -> & Hb & Hm).
  { destruct (Z.eq_dec (size (_IN x)) 0) as [E0|Hne].
    - exists [0; 0]. assert (forall v, P v = false) as HP by by eapply repr_size0.
      split; [|split; [done|intros v; rewrite Hzm, HP; by rewrite andb_false_r]].
      cbn [toNormal_loop]. by destruct (Hcl E0) as [-> _].
    - assert (0 < size (_IN x)) as Hsz by (destruct Hd as [(? & _) _]; lia).
      destruct (repr_elim _ P Hd Hsz) as (H1 & H2 & H3 & H4 & H5 & H6 & _).
      destruct (toNormal_loop_spec _ P Hd Hsz (S (Z.to_nat (32 * fset_high))) (min_elem (_IN x)) [0; 0] Hz)
        as (bv & E & Hb & Hm). { right. lia. } { left. unfold fset_high. lia. }
      exists bv. split; [done|]. split; [done|]. intros v. rewrite Hm, Hzm. cbn [orb].
      rewrite (proj2 (Z.eqb_neq _ _)) by lia. cbn [negb andb].
      destruct (P v) eqn:HPv; [|by rewrite !andb_false_r]. specialize (H6 v HPv). lia. }
  ored. change (32 * fset_high) with 64. destruct (upper_run _ P Hd) as (u & -> & Hu). ored.
  eexists; split; [done|]. cbn [_normal _in _card _other]. by split_and!.
Qed.

Lemma normal_holds x P :
  _normal x = true -> bits_ok (_in x) -> (forall v, P v = true -> 0 <= v <= fs_sup) ->
  (forall v, words_mem (_in x) v = (v <? 64) && P v) -> (forall v, 64 <= v <= fs_sup -> P v = _other x) ->
  holds x P.
Proof using.
  intros Hn [Hr Hw] Hrange Hm Ho. split; [done|]. rewrite Hn. split; [done|]. intros v. unfold bits_mem, fset_high.
  rewrite Hm. destruct (Z.ltb_spec v (32 * 2)), (Z.ltb_spec v 64); try lia.
  destruct (Z.leb_spec v fs_sup); [rewrite Ho by lia; by rewrite andb_true_r|]. rewrite andb_false_r.
  destruct (P v) eqn:E; [apply Hrange in E; lia|done].
Qed.

(** [maybeToNormal] changes the representation when it can, and never the set. *)
Lemma maybeToNormal_spec x P :
  _normal x = false -> room (_in x) -> repr (_IN x) P -> clean (_IN x) ->
  exists b x', maybeToNormal x = Some (b, x') /\ holds x' P /\ _card x' = _card x /\ _normal x' = b /\ canonical x' P.
Proof using Hg.
  intros Hn Hr Hd Hcl. unfold maybeToNormal. rewrite Hn. change (32 * fset_high) with 64.
  assert (forall v, P v = true -> 0 <= v <= fs_sup) as Hrange.
  { intros v Hv. rewrite fs_sup_fd. by apply (repr_bounds _ P v Hd). }
  assert (holds x P) as Hx by (split; [done|by rewrite Hn]).
  destruct ((64 <=? max_elem (_IN x)) && (max_elem (_IN x) <? fs_sup)) eqn:E1.
  { exists false, x. split_and!; try done. intros _ Hu.
    assert (0 < size (_IN x)) as Hsz.
    { destruct Hd as [(? & _) _]. destruct (Z.eq_dec (size (_IN x)) 0) as [E0|]; [|lia]. destruct (Hcl E0). lia. }
    destruct (repr_elim _ P Hd Hsz) as (H1 & H2 & H3 & H4 & H5 & H6 & _).
    pose proof (Hu (max_elem (_IN x)) ltac:(lia)) as U1. pose proof (Hu fs_sup ltac:(unfold fs_sup; lia)) as U2.
    rewrite H5 in U1. rewrite <- U1 in U2. apply H6 in U2. lia. }
  destruct (lower_run _ P Hd) as (l & -> & L1 & L2 & L3). ored.
  destruct ((64 <=? max_elem (_IN x)) && (64 <? l)) eqn:E2.
  { exists false, x. split_and!; try done. intros _ Hu.
    assert (0 < size (_IN x)) as Hsz.
    { destruct Hd as [(? & _) _]. destruct (Z.eq_dec (size (_IN x)) 0) as [E0|]; [|lia]. destruct (Hcl E0). lia. }
    destruct (P fs_sup) eqn:Es; [|rewrite L3 in E2 by done; lia].
    destruct (L2 eq_refl ltac:(lia)) as (v & Hv & HPv). rewrite (Hu v Hv), <- (Hu fs_sup) in HPv by (unfold fs_sup; lia).
    congruence. }
  destruct (toNormal_spec x P Hn Hr Hd Hcl) as (x' & -> & Hn' & Hb & Hc & Hm & Ho). ored.
  exists true, x'. split; [done|].
  assert (forall v, 64 <= v <= fs_sup -> P v = _other x') as Hup.
  { intros v Hv. destruct (_other x'); [by apply Ho|]. destruct (P v) eqn:EPv; [|done]. exfalso.
    destruct (repr_bounds _ P v Hd EPv) as [Hsz _].
    destruct (repr_elim _ P Hd Hsz) as (H1 & H2 & H3 & H4 & H5 & H6 & _). pose proof (H6 v EPv). rewrite <- fs_sup_fd in *.
    assert (max_elem (_IN x) = fs_sup) as Emax by lia. rewrite Emax in H5.
    assert (false = true) as Hft; [|done]. apply Ho. intros w Hw. by apply L1; [|lia|]. }
  split_and!; try done; [by apply (normal_holds x' P)|]. intros Hf. congruence.
Qed.

(** ** From words to a domain *)

Lemma toExtended_spec x P :
  _normal x = true -> holds x P ->
  exists x', toExtended x = Some x' /\ _normal x' = false /\ repr (_IN x') P /\ _in x' = _in x /\ _card x' = _card x.
Proof using Hg.
  intros Hn Hx. pose proof Hx as [Hr Hw]. rewrite Hn in Hw. destruct Hw as [Hw Hm].
  assert (bits_ok (_in x)) as Hb by by split. unfold toExtended. rewrite Hn.
  assert (forall n d, (n <= 64)%nat ->
    repr d (fun v => bits_mem (_in x) (_other x) v && (Z.of_nat n <=? v)) ->
    exists d', for_down n (fun i d => b ← testBit (_in x) i; if b : bool then FiniteDomain.op_plus_int d i else Some d) d = Some d' /\
      repr d' (bits_mem (_in x) (_other x))) as Hloop.
  { induction n as [|n IH]; intros d Hn64 Hd; cbn [for_down].
    - exists d. split; [done|]. eapply repr_ext; [|exact Hd]. intros v. cbn beta.
      destruct (bits_mem _ _ v) eqn:E; [apply bits_mem_range in E; lia|done].
    - rewrite fs_testBit_spec by done. ored. unfold fset_high. rewrite (proj2 (Z.ltb_lt (Z.of_nat n) (32 * 2))) by lia. cbn [andb].
      assert (bits_mem (_in x) (_other x) (Z.of_nat n) = words_mem (_in x) (Z.of_nat n)) as En.
      { unfold bits_mem, fset_high. by rewrite (proj2 (Z.ltb_lt (Z.of_nat n) (32 * 2))) by lia. }
      destruct (words_mem (_in x) (Z.of_nat n)) eqn:Ei.
      + destruct (op_plus_int_repr Hg d _ (Z.of_nat n) Hd) as (d1 & -> & Hd1). ored. apply IH; [lia|].
        eapply repr_ext; [|exact Hd1]. intros v. cbn beta. unfold fd_sup. destruct (Z.eqb_spec v (Z.of_nat n)) as [->|]; [rewrite En; lia|].
        destruct (bits_mem _ _ v); lia.
      + ored. apply IH; [lia|]. eapply repr_ext; [|exact Hd]. intros v. cbn beta.
        destruct (Z.eqb_spec v (Z.of_nat n)) as [->|]; [rewrite En; lia|]. destruct (bits_mem _ _ v); lia. }
  destruct (Hloop (Z.to_nat (32 * fset_high))
    (if _other x then FiniteDomain.initRange (_IN x) (32 * fset_high) fs_sup else FiniteDomain.initEmpty))
    as (d' & -> & Hd'); [by vm_compute| |].
  - change (Z.of_nat (Z.to_nat (32 * fset_high))) with 64. destruct (_other x).
    + apply initRange_repr. intros v. rewrite fs_sup_fd. unfold bits_mem, fset_high. rewrite fs_sup_fd.
      destruct (Z.ltb_spec v (32 * 2)); [destruct (words_mem _ v)|]; lia.
    + apply repr_initEmpty. intros v. unfold bits_mem, fset_high.
      destruct (Z.ltb_spec v (32 * 2)); [destruct (words_mem _ v)|]; lia.
  - ored. eexists; split; [done|]. cbn [_normal _IN _in _card]. split_and!; try done. by apply (repr_ext _ _ P Hm).
Qed.
End representations.
End FSetValueSpec.
