(* ===== verification/FSetValueOps.v ===== *)
(** * Finite set values: the operations against sets

    For each operation of [FSetValue], what it does to the set the object stands for.  The
    results are [good]: the stored cardinality is that of the set, and the set is in normal
    representation whenever it can be. *)
From S2P Require Import Prelude Word32 FDBase FDIntervals FDBitVector Sort FiniteDomain FDRepr FDQueries FDOperators FDSetOperators FDDescr FSetBits FSetValue FSetValueSpec.
Import FDRepr FDQueries FDOperators FDSetOperators FDDescr FSetBits FSetValue FSetValueSpec.

Module FSetValueOps.

(** Two flagged vectors combined pointwise. *)
Lemma bits_combine g w x y ox oy v :
  g false false = false \/ 0 <= v <= fs_sup ->
  (forall v, words_mem w v = (0 <=? v) && (v <? 64) && g (words_mem x v) (words_mem y v)) ->
  bits_mem w (g ox oy) v = (0 <=? v) && (v <=? fs_sup) && g (bits_mem x ox v) (bits_mem y oy v).
Proof.
  intros Hg Hw. unfold bits_mem, fset_high. destruct (Z.ltb_spec v (32 * 2)).
  - rewrite Hw. destruct (Z.leb_spec 0 v), (Z.ltb_spec v 64), (Z.leb_spec v fs_sup); try (unfold fs_sup in *; lia); done.
  - destruct (Z.leb_spec 0 v), (Z.leb_spec v fs_sup); try lia; cbn [andb]; rewrite ?andb_true_r, ?andb_false_r; done.
Qed.

Lemma bits_not w x ox v :
  (forall v, words_mem w v = (0 <=? v) && (v <? 64) && negb (words_mem x v)) ->
  bits_mem w (negb ox) v = not_set (bits_mem x ox) v.
Proof.
  intros Hw. unfold not_set. rewrite <- fs_sup_fd. destruct (decide (0 <= v <= fs_sup)) as [Hv|Hv].
  - rewrite (bits_combine (fun a _ => negb a) w x x ox ox); [done|by right|done].
  - destruct (bits_mem w (negb ox) v) eqn:E; [apply bits_mem_range in E; lia|]. lia.
Qed.

Section operations.
Context `{FDEnv} (Hg : globals_ok fd_env).
Implicit Types (x y z : FSetValue) (P Q R : Z -> bool).

Lemma good_ext x P Q : (forall v, P v = Q v) -> good x P -> good x Q.
Proof using.
  intros HPQ [Hv Hc]. split; [by apply (val_ext x P)|]. intros Hn Hu. apply (Hc Hn). intros v Hv2. rewrite !HPQ. by apply Hu.
Qed.

Lemma holds_normal x P :
  holds x P -> _normal x = true -> bits_ok (_in x) /\ forall v, bits_mem (_in x) (_other x) v = P v.
Proof using. intros [Hr Hx] Hn. rewrite Hn in Hx. destruct Hx as [Hw Hm]. by split. Qed.

Lemma holds_extended x P : holds x P -> _normal x = false -> repr (_IN x) P.
Proof using. intros [Hr Hx] Hn. by rewrite Hn in Hx. Qed.

Lemma holds_room x P : holds x P -> room (_in x).
Proof using. by intros [? _]. Qed.

Lemma good_normal x P :
  good x P -> _normal x = true -> bits_ok (_in x) /\ forall v, bits_mem (_in x) (_other x) v = P v.
Proof using. intros [[Hx _] _]. by apply holds_normal. Qed.

Lemma good_extended x P : good x P -> _normal x = false -> repr (_IN x) P.
Proof using. intros [[Hx _] _]. by apply holds_extended. Qed.

Lemma clean_pos d P v : repr d P -> P v = true -> clean d.
Proof using. intros Hd Hv E. destruct (repr_bounds d P v Hd Hv). lia. Qed.

(** ** Results *)

Lemma normal_op_good z w (o : bool) bv P :
  w = Some bv -> bits_ok bv -> (forall v, bits_mem bv o v = P v) ->
  exists z', normal_op z w o = Some z' /\ good z' P /\ _normal z' = true.
Proof using.
  intros -> Hb HP. unfold normal_op. ored. destruct (card_bits bv o Hb) as (n & -> & Hc). ored.
  eexists; split; [done|]. split; [|done]. split; [|done]. split; [split; [apply Hb|split; [apply Hb|done]]|]. cbn [_card].
  rewrite <- (card_ext _ _ HP), Hc. destruct o; lia.
Qed.

Lemma extended_of_good z w (o : bool) bv P :
  w = Some bv -> bits_ok bv -> (forall v, bits_mem bv o v = P v) ->
  exists z', extended_of z w o = Some z' /\ repr (_IN z') P /\ room (_in z').
Proof using Hg.
  intros -> Hb HP. unfold extended_of. ored.
  destruct (toExtended_spec Hg (FSV (_card z) o (_IN z) true bv) P) as (z' & E & _ & Hr & Hi & _); [done| |].
  - split; [apply Hb|]. split; [apply Hb|done].
  - exists z'. split_and!; try done. rewrite Hi. apply Hb.
Qed.

(** A copy of a normal operand. *)
Lemma extended_copy z x P :
  room (_in z) -> good x P -> _normal x = true ->
  exists z', extended_of z (words1 (fun a => a) (_in z) (_in x)) (_other x) = Some z' /\ repr (_IN z') P /\ room (_in z').
Proof using Hg.
  intros Hz Hx Hn. destruct (good_normal x P Hx Hn) as [Hb HP].
  apply (extended_of_good z _ _ (_in x)); [by apply words1_copy|done|done].
Qed.

Lemma good_settled d o w P :
  room w -> repr d P -> clean d ->
  exists z', ('(_, z) ← maybeToNormal (FSV (size d) o d false w); Some z) = Some z' /\ good z' P.
Proof using Hg.
  intros Hw Hd Hc. destruct (maybeToNormal_spec Hg (FSV (size d) o d false w) P) as (b' & z' & -> & Hh & Hcd & _ & Hcan);
    try done. ored. exists z'. split; [done|]. split; [|done]. split; [done|]. rewrite Hcd. cbn [_card]. by apply repr_card.
Qed.

Lemma settle_good z d P :
  room (_in z) -> repr d P -> clean d -> exists z', settle z d = Some z' /\ good z' P.
Proof using Hg.
  intros Hz Hd Hc. unfold settle. rewrite (assign_repr Hg _ d P Hd). ored. by apply (good_settled d _ _ P).
Qed.

Lemma settle_and_good z d P Q v :
  room (_in z) -> repr (_IN z) P -> repr d Q -> P v && Q v = true ->
  exists z', settle_and z d = Some z' /\ good z' (fun v => P v && Q v).
Proof using Hg.
  intros Hz HP HQ Hv. unfold settle_and. destruct (op_and_eq_repr Hg _ d P Q HP HQ) as (d' & -> & Hd'). ored.
  apply (good_settled d' _ _ (fun v => P v && Q v)); [done|done|]. exact (clean_pos d' _ v Hd' Hv).
Qed.

(** ** Operators on two sets

    The words are combined by [g], which keeps nothing outside the two sets. *)

Definition meets (x y : FSetValue) (R : Z -> bool) : Prop :=
  _normal x && _normal y = true \/ exists v, R v = true.

Lemma normal_combine z w f g x y P Q :
  word_op2 f g -> g false false = false -> good x P -> good y Q -> _normal x = true -> _normal y = true ->
  (exists bv, w = Some bv /\ bits_ok bv /\
     forall v, words_mem bv v = (0 <=? v) && (v <? 64) && g (words_mem (_in x) v) (words_mem (_in y) v)) ->
  exists z', normal_op z w (g (_other x) (_other y)) = Some z' /\ good z' (fun v => g (P v) (Q v)).
Proof using.
  intros Hf Hgf Hx Hy Nx Ny (bv & E & Hb & Hm). destruct (good_normal x P Hx Nx) as [Bx Mx], (good_normal y Q Hy Ny) as [By My].
  destruct (normal_op_good z w (g (_other x) (_other y)) bv (fun v => g (P v) (Q v)) E Hb) as (z' & ? & ? & _); [|by exists z'].
  intros v. rewrite (bits_combine g bv (_in x) (_in y)) by (auto). rewrite Mx, My.
  destruct (P v) eqn:EP; [rewrite <- Mx in EP; apply bits_mem_range in EP; lia|].
  destruct (Q v) eqn:EQ; [rewrite <- My in EQ; apply bits_mem_range in EQ; lia|].
  rewrite Hgf. by rewrite andb_false_r.
Qed.

Lemma op_and_good z x y P Q :
  room (_in z) -> good x P -> good y Q -> meets x y (fun v => P v && Q v) ->
  exists r, op_and z x y = Some r /\ good r (fun v => P v && Q v).
Proof using Hg.
  intros Hz Hx Hy Hm. unfold op_and. destruct (_normal x) eqn:Nx, (_normal y) eqn:Ny; cbn [negb andb].
  - apply (normal_combine z _ Z.land andb x y); auto using land_op2. destruct (good_normal x P Hx Nx) as [Bx _], (good_normal y Q Hy Ny) as [By _].
    by apply words2_spec; [apply land_op2|..].
  - destruct Hm as [Hm|[v Hv]]; [by rewrite Nx, Ny in Hm|].
    destruct (extended_copy z x P Hz Hx Nx) as (z1 & -> & H1 & Hr1). ored.
    apply (settle_and_good z1 (_IN y) P Q v); try done. by apply good_extended.
  - destruct Hm as [Hm|[v Hv]]; [by rewrite Nx, Ny in Hm|].
    destruct (extended_copy z y Q Hz Hy Ny) as (z1 & -> & H1 & Hr1). ored.
    destruct (settle_and_good z1 (_IN x) Q P v) as (r & E & Hgr); try done; [by apply good_extended|by rewrite andb_comm|].
    exists r. split; [done|]. eapply good_ext; [|exact Hgr]. intros w. apply andb_comm.
  - destruct Hm as [Hm|[v Hv]]; [by rewrite Nx, Ny in Hm|].
    pose proof (good_extended x P Hx Nx) as Rx. pose proof (good_extended y Q Hy Ny) as Ry.
    destruct (op_and_repr Hg _ _ P Q Rx Ry) as (d & -> & Hd). ored. apply settle_good; [done|done|]. exact (clean_pos d _ v Hd Hv).
Qed.
(** Both operands extended, or one of them extended on the way. *)
Lemma settle_union z d e P Q v :
  room (_in z) -> repr d P -> repr e Q -> P v || Q v = true ->
  exists r, (d ← FiniteDomain.op_or d e; settle z d) = Some r /\ good r (fun v => P v || Q v).
Proof using Hg.
  intros Hz HP HQ Hv. destruct (op_or_repr Hg d e P Q HP HQ) as (u & -> & Hu). ored.
  apply settle_good; [done|done|]. exact (clean_pos u _ v Hu Hv).
Qed.

Lemma settle_union_swap z d e P Q v :
  room (_in z) -> repr d Q -> repr e P -> P v || Q v = true ->
  exists r, (d ← FiniteDomain.op_or d e; settle z d) = Some r /\ good r (fun v => P v || Q v).
Proof using Hg.
  intros Hz HQ HP Hv. destruct (settle_union z d e Q P v) as (r & E & Hr); try done; [by rewrite orb_comm|].
  exists r. split; [done|]. eapply good_ext; [|exact Hr]. intros w. apply orb_comm.
Qed.

Lemma settle_difference z d e P Q v :
  room (_in z) -> repr d P -> repr e Q -> P v && negb (Q v) = true ->
  exists r, (n ← FiniteDomain.op_not e; d ← FiniteDomain.op_and d n; settle z d) = Some r /\
    good r (fun v => P v && negb (Q v)).
Proof using Hg.
  intros Hz HP HQ Hv. destruct (op_not_repr Hg e Q HQ) as (n & -> & Hn). ored.
  destruct (op_and_repr Hg d n P _ HP Hn) as (u & -> & Hu). ored.
  assert (forall w, P w && not_set Q w = P w && negb (Q w)) as Hext.
  { intros w. unfold not_set. destruct (P w) eqn:E; [|done]. apply (repr_bounds d P w HP) in E. lia. }
  apply settle_good; [done|by apply (repr_ext _ _ _ Hext)|]. apply (clean_pos u _ v Hu). by rewrite Hext.
Qed.

Lemma op_or_good z x y P Q :
  room (_in z) -> good x P -> good y Q -> meets x y (fun v => P v || Q v) ->
  exists r, op_or z x y = Some r /\ good r (fun v => P v || Q v).
Proof using Hg.
  intros Hz Hx Hy Hm. unfold op_or. destruct (_normal x) eqn:Nx, (_normal y) eqn:Ny; cbn [negb andb].
  { apply (normal_combine z _ Z.lor orb x y); auto using lor_op2.
    destruct (good_normal x P Hx Nx) as [Bx _], (good_normal y Q Hy Ny) as [By _].
    by apply words2_spec; [apply lor_op2|..]. }
  all: destruct Hm as [Hm|[v Hv]]; [by rewrite Nx, Ny in Hm|].
  - destruct (extended_copy z x P Hz Hx Nx) as (z1 & -> & H1 & Hr1). ored.
    apply (settle_union z1 _ _ P Q v); try done. by apply good_extended.
  - destruct (extended_copy z y Q Hz Hy Ny) as (z1 & -> & H1 & Hr1). ored.
    apply (settle_union_swap z1 _ _ P Q v); try done. by apply good_extended.
  - by apply (settle_union z _ _ P Q v); [|apply good_extended|apply good_extended|].
Qed.

(** In the mixed case the flag of the result object is read before it is set. *)
Lemma op_minus_good z x y P Q :
  room (_in z) -> good x P -> good y Q -> meets x y (fun v => P v && negb (Q v)) ->
  (_normal x = true -> _normal y = false -> _other z = _other x) ->
  exists r, op_minus z x y = Some r /\ good r (fun v => P v && negb (Q v)).
Proof using Hg.
  intros Hz Hx Hy Hm Ho. unfold op_minus. destruct (_normal x) eqn:Nx, (_normal y) eqn:Ny; cbn [negb andb].
  { apply (normal_combine z _ (fun a b => Z.land a (not32 b)) (fun a b => a && negb b) x y); auto using diff_op2.
    destruct (good_normal x P Hx Nx) as [Bx _], (good_normal y Q Hy Ny) as [By _].
    by apply (words2_spec _ (fun a b => a && negb b)); [apply diff_op2|..]. }
  all: destruct Hm as [Hm|[v Hv]]; [by rewrite Nx, Ny in Hm|].
  - rewrite Ho by done. destruct (extended_copy z x P Hz Hx Nx) as (z1 & -> & H1 & Hr1). ored.
    apply (settle_difference z1 _ _ P Q v); try done. by apply good_extended.
  - destruct (good_normal y Q Hy Ny) as [By My]. destruct (words1_not (_in z) (_in y) Hz By) as (w & Ew & Hw & Mw).
    assert (forall u, bits_mem w (negb (_other y)) u = not_set Q u) as Hn.
    { intros u. rewrite (bits_not w (_in y)) by done. unfold not_set. by rewrite My. }
    destruct (extended_of_good z _ _ w _ Ew Hw Hn) as (z1 & -> & H1 & Hr1). ored.
    destruct (settle_and_good z1 (_IN x) _ P v Hr1 H1) as (r & E & Hgr); [by apply good_extended| |].
    { unfold not_set. pose proof (holds_range x P v (proj1 (proj1 Hx))). rewrite fs_sup_fd in *. lia. }
    exists r. split; [done|]. eapply good_ext; [|exact Hgr]. intros u. unfold not_set.
    destruct (P u) eqn:EP; [|by rewrite andb_false_r]. apply (holds_range x P u (proj1 (proj1 Hx))) in EP. rewrite fs_sup_fd in EP. lia.
  - by apply (settle_difference z _ _ P Q v); [|apply good_extended|apply good_extended|].
Qed.

Lemma op_neg_good z x P :
  room (_in z) -> good x P -> exists r, op_neg z x = Some r /\ good r (not_set P).
Proof using Hg.
  intros Hz Hx. unfold op_neg. destruct (_normal x) eqn:Nx.
  - destruct (good_normal x P Hx Nx) as [Bx Mx]. destruct (words1_not (_in z) (_in x) Hz Bx) as (w & Ew & Hw & Mw).
    destruct (normal_op_good z _ (negb (_other x)) w (not_set P) Ew Hw) as (r & ? & ? & _); [|by exists r].
    intros v. rewrite (bits_not w (_in x)) by done. unfold not_set. by rewrite Mx.
  - destruct (op_not_repr Hg _ P (good_extended x P Hx Nx)) as (d & -> & Hd). ored.
    apply settle_good; [done|done|]. intros E0. exfalso. destruct Hx as [[Hx _] Hcan]. apply (Hcan Nx).
    intros v Hv. pose proof (repr_size0 d _ Hd E0) as Hall. unfold not_set in Hall. rewrite <- fs_sup_fd in Hall.
    pose proof (Hall v) as H1. pose proof (Hall 64) as H2. unfold fs_sup in *. destruct (P v), (P 64); lia.
Qed.

(** ** Assignment operators *)

Lemma to_extended_good x P :
  good x P -> _normal x = true ->
  exists z', toExtended x = Some z' /\ repr (_IN z') P /\ room (_in z').
Proof using Hg.
  intros Hx Nx. destruct (toExtended_spec Hg x P Nx (proj1 (proj1 Hx))) as (z & E & _ & Hr & Hi & _).
  exists z. split_and!; try done. rewrite Hi. apply (good_normal x P Hx Nx).
Qed.

Lemma good_room x P : good x P -> room (_in x).
Proof using. intros [[[Hr _] _] _]. done. Qed.

Lemma op_and_eq_good x y P Q :
  good x P -> good y Q -> meets x y (fun v => P v && Q v) ->
  exists r, op_and_eq x y = Some r /\ good r (fun v => P v && Q v).
Proof using Hg.
  intros Hx Hy Hm. pose proof (good_room x P Hx) as Rx. unfold op_and_eq.
  destruct (_normal x) eqn:Nx, (_normal y) eqn:Ny; cbn [negb andb].
  { apply (normal_combine x _ Z.land andb x y); auto using land_op2.
    destruct (good_normal x P Hx Nx) as [Bx _], (good_normal y Q Hy Ny) as [By _].
    by apply words2_in_spec; [apply land_op2|..]. }
  all: destruct Hm as [Hm|[v Hv]]; [by rewrite Nx, Ny in Hm|].
  - destruct (to_extended_good x P Hx Nx) as (z1 & -> & H1 & Hr1). ored.
    apply (settle_and_good z1 _ P Q v); try done. by apply good_extended.
  - pose proof (good_extended x P Hx Nx) as Ex. rewrite (assign_repr Hg _ _ P Ex). ored.
    destruct (extended_copy x y Q Rx Hy Ny) as (z1 & -> & H1 & Hr1). ored.
    destruct (settle_and_good z1 (_IN x) Q P v) as (r & E & Hgr); try done; [by rewrite andb_comm|].
    exists r. split; [done|]. eapply good_ext; [|exact Hgr]. intros w. apply andb_comm.
  - by apply (settle_and_good x _ P Q v); [|apply good_extended|apply good_extended|].
Qed.

Lemma op_or_eq_good x y P Q :
  good x P -> good y Q -> meets x y (fun v => P v || Q v) ->
  exists r, op_or_eq x y = Some r /\ good r (fun v => P v || Q v).
Proof using Hg.
  intros Hx Hy Hm. pose proof (good_room x P Hx) as Rx. unfold op_or_eq.
  destruct (_normal x) eqn:Nx, (_normal y) eqn:Ny; cbn [negb andb].
  { apply (normal_combine x _ Z.lor orb x y); auto using lor_op2.
    destruct (good_normal x P Hx Nx) as [Bx _], (good_normal y Q Hy Ny) as [By _].
    by apply words2_in_spec; [apply lor_op2|..]. }
  all: destruct Hm as [Hm|[v Hv]]; [by rewrite Nx, Ny in Hm|].
  - destruct (to_extended_good x P Hx Nx) as (z1 & -> & H1 & Hr1). ored.
    apply (settle_union z1 _ _ P Q v); try done. by apply good_extended.
  - pose proof (good_extended x P Hx Nx) as Ex. rewrite (assign_repr Hg _ _ P Ex). ored.
    destruct (extended_copy x y Q Rx Hy Ny) as (z1 & -> & H1 & Hr1). ored.
    by apply (settle_union_swap z1 _ _ P Q v).
  - by apply (settle_union x _ _ P Q v); [|apply good_extended|apply good_extended|].
Qed.

(** [&= y] keeps an extended value extended, so the result need not be canonical; in normal
    representation it looks at the words only. *)
Lemma op_and_int_val x (y : Z) P :
  good x P -> (_normal x = true -> y < 64 \/ P y = false) ->
  exists r, op_and_int x y = Some r /\ val r (fun v => P v && (v =? y)) /\ _normal r = _normal x.
Proof using Hg.
  intros Hx Hy. unfold op_and_int. destruct (_normal x) eqn:Nx.
  - specialize (Hy eq_refl). destruct (good_normal x P Hx Nx) as [Bx Mx]. rewrite fs_testBit_spec by done. ored.
    unfold init_state. rewrite fill_words_spec by apply Bx. ored. destruct zeros_ok as [Hz Mz].
    assert ((y <? 32 * fset_high) && words_mem (_in x) y = P y) as ->.
    { rewrite <- Mx. unfold bits_mem, fset_high. destruct (Z.ltb_spec y (32 * 2)); [done|].
      destruct Hy as [?|E]; [lia|]. rewrite <- Mx in E. unfold bits_mem, fset_high in E.
      destruct (Z.ltb_spec y (32 * 2)); [lia|]. by rewrite E. }
    destruct (P y) eqn:EP.
    + destruct Hy as [Hy|Hy]; [|done]. pose proof (holds_range x P y (proj1 (proj1 Hx)) EP) as Hy0.
      destruct (fs_setBit_spec [0; 0] y Hz) as (bv & E & Hb & Hm); [unfold fset_high; lia|].
      cbn [_in]. rewrite E. ored. eexists; split; [done|]. split; [|done].
      assert (forall v, bits_mem bv false v = P v && (v =? y)) as HP.
      { intros v. unfold bits_mem, fset_high. rewrite Hm, Mz. destruct (Z.ltb_spec v (32 * 2)), (Z.eqb_spec v y) as [->|]; try lia;
          rewrite ?EP, ?andb_false_r; done. }
      split; [split; [apply Hb|split; [apply Hb|done]]|]. cbn [_card]. symmetry.
      rewrite (card_range _ y y); [lia|lia|lia|rewrite <- fs_sup_fd; lia|]. intros v. cbn beta.
      destruct (Z.eqb_spec v y) as [->|]; [rewrite EP; lia|]. rewrite andb_false_r. lia.
    + eexists; split; [done|]. split; [|done]. assert (forall v, P v && (v =? y) = false) as HP.
      { intros v. destruct (Z.eqb_spec v y) as [->|]; [by rewrite EP|apply andb_false_r]. }
      split; [split; [apply Hz|split; [apply Hz|]]|].
      * intros v. cbn [_in _other]. rewrite HP. unfold bits_mem. rewrite Mz. by destruct (v <? _).
      * cbn [_card]. symmetry. by apply card_empty.
  - pose proof (good_extended x P Hx Nx) as Ex. rewrite (isIn_repr _ P Ex). ored.
    eexists; split; [done|]. split; [|done].
    assert (repr (if P y then FiniteDomain.initSingleton y else FiniteDomain.initEmpty) (fun v => P v && (v =? y))) as Hd.
    { destruct (P y) eqn:EP.
      - apply initSingleton_repr. intros v. destruct (Z.eqb_spec v y) as [->|]; [|by rewrite !andb_false_r].
        apply (repr_bounds _ P y Ex) in EP as HB. rewrite EP. lia.
      - apply repr_initEmpty. intros v. destruct (Z.eqb_spec v y) as [->|]; [by rewrite EP|apply andb_false_r]. }
    split; [split; [by apply (good_room x P)|]|]; cbn [_card _normal _in _IN]; [done|].
    by apply repr_card.
Qed.
(** ** Construction *)

Definition full_set (v : Z) : bool := (0 <=? v) && (v <=? fs_sup).

Lemma of_bits_good z bv (oth : bool) :
  room (_in z) -> bits_ok bv -> exists r, of_bits z bv oth = Some r /\ good r (bits_mem bv oth).
Proof using.
  intros Hz Hb. destruct (normal_op_good z (words1 (fun a => a) (_in z) bv) oth bv (bits_mem bv oth))
    as (r & E & Hr & _); [by apply words1_copy|done|done|]. by exists r.
Qed.

Lemma init_state_good z s :
  room (_in z) -> exists r, init_state z s = Some r /\
    good r (fun v => match s with fs_empty => false | fs_full => full_set v end).
Proof using.
  intros Hz. unfold init_state. destruct s; rewrite fill_words_spec by done; ored; eexists; (split; [done|]);
    (split; [split; [split; [done|]|]|done]); cbn [_card _normal _in _other].
  - destruct zeros_ok as [H0 M0]. split; [apply H0|]. intros v. unfold bits_mem. rewrite M0. by destruct (v <? _).
  - symmetry. by apply card_empty.
  - destruct ones_ok as [H0 M0]. split; [apply H0|]. intros v. unfold bits_mem, full_set, fset_high, fs_sup. rewrite M0.
    destruct (Z.ltb_spec v (32 * 2)); lia.
  - rewrite (card_range _ 0 fd_sup); [done|done|done|done|done].
Qed.

(** A range up to [fs_sup] keeps the number of its elements below 64 as its cardinality. *)
Definition range_set (l r v : Z) : bool := (0 <=? v) && (v <=? fs_sup) && ((l <=? v) && (v <=? r)).

Lemma init_range_holds z l r :
  room (_in z) -> exists x, init_range z l r = Some x /\ holds x (range_set l r) /\ (l <= r -> r <= fs_sup -> canonical x (range_set l r)) /\
    _card x = card (range_set l r) - (if (r =? fs_sup) && (l <=? 64) then size_of_other else 0).
Proof using.
  intros Hz. unfold init_range. change (32 * fset_high) with 64.
  destruct ((r <? 64) || ((r =? fs_sup) && (l <=? 64))) eqn:Ec.
  - destruct (fs_setFromTo_spec (_in z) l r Hz) as (bv & -> & Hb & Hm). ored. eexists; split; [done|].
    assert (forall v, bits_mem bv (r =? fs_sup) v = range_set l r v) as HP.
    { intros v. unfold bits_mem, range_set, fset_high, fs_sup in *. rewrite Hm. destruct (Z.ltb_spec v (32 * 2)); lia. }
    split_and!; [split; [apply Hb|by split; [apply Hb|]]|done|]. cbn [_card].
    destruct (Z.ltb_spec r (Z.max l 0)) as [Hlt|Hge].
    + rewrite card_empty; [|intros v; unfold range_set; lia].
      destruct ((r =? fs_sup) && (l <=? 64)) eqn:E2; unfold fs_sup in *; lia.
    + rewrite (card_range _ (Z.max l 0) r); [|lia|lia|unfold fs_sup, fd_sup in *; lia|].
      * destruct ((r =? fs_sup) && (l <=? 64)) eqn:E2; unfold size_of_other, fs_sup, fset_high in *; lia.
      * intros v. unfold range_set. unfold fs_sup in *. lia.
  - assert (repr (FiniteDomain.initRange (_IN z) l r) (range_set l r)) as Hd.
    { apply initRange_repr. intros v. unfold range_set. by rewrite fs_sup_fd. }
    eexists; split; [done|]. split_and!.
    + by split.
    + intros Hlr Hr _ Hu. unfold uniform, range_set, fs_sup in *. pose proof (Hu r). pose proof (Hu 134217726).
      pose proof (Hu l). lia.
    + cbn [_card]. rewrite (repr_card _ _ Hd). destruct ((r =? fs_sup) && (l <=? 64)) eqn:E2; lia.
Qed.
Lemma init_fd_good z d P :
  room (_in z) -> repr d P -> exists x, init_fd z d = Some x /\ good x P.
Proof using Hg.
  intros Hz Hd. unfold init_fd. destruct (Z.eqb_spec (size d) 0) as [E0|Hne].
  - destruct (init_state_good (FSV (size d) (_other z) (_IN z) (_normal z) (_in z)) fs_empty Hz) as (x & E & Hx).
    exists x. split; [done|]. eapply good_ext; [|exact Hx]. intros v. symmetry. by apply (repr_size0 d).
  - rewrite (assign_repr Hg _ d P Hd). ored. cbn [_card _other _in]. apply (good_settled d _ _ P); [done|done|]. by intros ?.
Qed.

Lemma init_descr_good z t v :
  room (_in z) -> descr_valid t = true -> descr_set t v = true ->
  exists x, init_descr z t = Some x /\ good x (descr_set t).
Proof using Hg.
  intros Hz Ht Hv. unfold init_descr. destruct (initDescr_repr Hg (_IN z) t Ht) as (d & -> & Hd). ored.
  apply (good_settled d _ _ (descr_set t)); [done|done|]. by apply (clean_pos d _ v Hd).
Qed.
End operations.
End FSetValueOps.
