(* ===== verification/FSetValueQueries.v ===== *)
(** * Finite set values: the queries

    Membership, comparison, the extreme and the neighbouring elements, and the lists of
    elements handed to the language, against the set a value stands for. *)
From S2P Require Import Prelude Word32 FDBase FDIntervals FDBitVector Sort FiniteDomain FDRepr FDQueries FDOperators FDSetOperators FDDescr FSetBits FSetValue FSetValueSpec FSetValueOps.
Import FDRepr FDQueries FDOperators FDSetOperators FDDescr FSetBits FSetValue FSetValueSpec FSetValueOps.

Module FSetValueQueries.

(** Set inclusion by counting. *)
Lemma card_sub P Q :
  (forall v, P v = true -> 0 <= v <= fd_sup) ->
  card (fun v => P v && Q v) = card P <-> forall v, P v = true -> Q v = true.
Proof.
  intros Hr. assert (card (fun v => P v && Q v) + card (fun v => P v && negb (Q v)) = card P) as Hs.
  { apply card_split. intros v _. destruct (P v), (Q v); done. }
  split.
  - intros E v Hv. destruct (Q v) eqn:EQ; [done|].
    pose proof (card_zero (fun v => P v && negb (Q v)) v ltac:(lia) (Hr v Hv)) as Hz. cbn beta in Hz. by rewrite Hv, EQ in Hz.
  - intros Hsub. rewrite (card_empty (fun v => P v && negb (Q v))) in Hs; [lia|].
    intros v. destruct (P v) eqn:E; [|done]. by rewrite Hsub.
Qed.

Lemma card_mono P Q : (forall v, P v = true -> Q v = true) -> card P <= card Q.
Proof.
  intros Hsub. rewrite <- (card_split P (fun v => Q v && negb (P v)) Q).
  - pose proof (card_nonneg (fun v => Q v && negb (P v))). lia.
  - intros v _. destruct (P v) eqn:E; [by rewrite Hsub|]. by destruct (Q v).
Qed.

Section queries.
Context `{FDEnv} (Hg : globals_ok fd_env).
Implicit Types (x y z : FSetValue) (P Q R : Z -> bool).

Lemma isIn_good x P i : holds x P -> isIn x i = Some (P i).
Proof using.
  intros Hx. unfold isIn. destruct ((i <? 0) || (fs_sup <? i)) eqn:Er.
  { destruct (P i) eqn:E; [apply (holds_range x P i Hx) in E; lia|done]. }
  destruct (_normal x) eqn:Nx.
  - destruct (holds_normal x P Hx Nx) as [Bx Mx]. rewrite <- Mx. unfold bits_mem. destruct (Z.ltb_spec i (32 * fset_high)).
    + rewrite fs_testBit_spec by done. by rewrite (proj2 (Z.ltb_lt _ _)).
    + rewrite (proj2 (Z.leb_le i fs_sup)) by lia. by rewrite andb_true_r.
  - apply (isIn_repr _ P). by apply holds_extended.
Qed.

(** ** Equality *)

Lemma xorb_test a b :
  is_word a -> is_word b -> negb (a =? b) = true <-> exists j, 0 <= j < 32 /\ xorb (Z.testbit a j) (Z.testbit b j) = true.
Proof using.
  intros Ha Hb. rewrite negb_true_iff, Z.eqb_neq. split.
  - intros Hne. destruct (first_true (fun j => xorb (Z.testbit a j) (Z.testbit b j)) 0 32) as [Hno|(k & Hk & Hkt & _)].
    + exfalso. apply Hne. apply word_ext; [done|done|]. intros j Hj. specialize (Hno j ltac:(lia)). by apply xorb_eq.
    + exists k. split; [lia|done].
  - intros (j & _ & Hj) ->. by rewrite xorb_nilpotent in Hj.
Qed.

(** Words that pass a test everywhere. *)
Lemma all_words test g bx by' :
  (forall a b, is_word a -> is_word b -> test a b = true <-> exists j, 0 <= j < 32 /\ g (Z.testbit a j) (Z.testbit b j) = true) ->
  bits_ok bx -> bits_ok by' ->
  exists r, any_word test bx by' = Some r /\
    (negb r = true <-> forall v, 0 <= v < 64 -> g (words_mem bx v) (words_mem by' v) = false).
Proof using.
  intros Ht Hx Hy. destruct (any_word_spec test g bx by' Ht Hx Hy) as (r & -> & Hr). exists r. split; [done|].
  destruct r; simpl.
  - split; [done|]. intros Hall. destruct (proj1 Hr eq_refl) as (v & Hv & E). by rewrite Hall in E.
  - split; [|done]. intros _ v Hv. destruct (g _ _) eqn:E; [|done]. assert (false = true) by (apply Hr; by exists v). done.
Qed.

Lemma bits_high x P v : good x P -> _normal x = true -> 64 <= v <= fs_sup -> P v = _other x.
Proof using.
  intros Hx Nx Hv. destruct (good_normal x P Hx Nx) as [_ Mx]. rewrite <- Mx. unfold bits_mem, fset_high.
  destruct (Z.ltb_spec v (32 * 2)); [lia|]. rewrite (proj2 (Z.leb_le v fs_sup)) by lia. by rewrite andb_true_r.
Qed.

Lemma bits_low x P v : good x P -> _normal x = true -> 0 <= v < 64 -> P v = words_mem (_in x) v.
Proof using.
  intros Hx Nx Hv. destruct (good_normal x P Hx Nx) as [_ Mx]. rewrite <- Mx. unfold bits_mem, fset_high.
  by rewrite (proj2 (Z.ltb_lt v (32 * 2))) by lia.
Qed.

Lemma good_range x P v : good x P -> P v = true -> 0 <= v <= fs_sup.
Proof using. intros [[Hx _] _]. by apply (holds_range x). Qed.

Lemma good_card x P : good x P -> _card x = card P.
Proof using. by intros [[_ ?] _]. Qed.

Lemma op_eq_good x y P Q :
  good x P -> good y Q -> _normal x = true \/ _normal y = false ->
  exists b, op_eq x y = Some b /\ (b = true <-> forall v, P v = Q v).
Proof using Hg.
  intros Hx Hy Hn. unfold op_eq. rewrite (good_card x P Hx), (good_card y Q Hy).
  destruct (Z.eqb_spec (card P) (card Q)) as [Ec|Ec]; cbn [negb].
  2:{ exists false. split; [done|]. split; [done|]. intros HPQ. by rewrite (card_ext P Q HPQ) in Ec. }
  destruct (_normal x) eqn:Nx.
  - destruct (_normal y) eqn:Ny; cbn [negb orb].
    2:{ exists false. split; [done|]. split; [done|]. intros HPQ. exfalso. apply (proj2 Hy Ny).
        intros v Hv. rewrite <- !HPQ. by apply (holds_uniform x P (proj1 (proj1 Hx)) Nx). }
    destruct (Bool.eqb (_other x) (_other y)) eqn:Eo; cbn [negb].
    2:{ exists false. split; [done|]. split; [done|]. intros HPQ. apply eqb_false_iff in Eo. destruct Eo.
        rewrite <- (bits_high x P 64 Hx Nx), <- (bits_high y Q 64 Hy Ny) by (unfold fs_sup; lia). apply HPQ. }
    apply eqb_prop in Eo. destruct (good_normal x P Hx Nx) as [Bx Mx], (good_normal y Q Hy Ny) as [By My].
    destruct (all_words _ xorb (_in x) (_in y) xorb_test Bx By) as (r & -> & Hr). ored. eexists; split; [done|].
    rewrite Hr. split.
    + intros Hw v. rewrite <- Mx, <- My. unfold bits_mem, fset_high. rewrite Eo. destruct (Z.ltb_spec v (32 * 2)); [|done].
      destruct (decide (0 <= v)) as [Hv|Hv]; [apply xorb_eq, Hw; lia|]. by rewrite !words_mem_out by lia.
    + intros HPQ v Hv. rewrite <- (bits_low x P v), <- (bits_low y Q v) by done. rewrite HPQ. apply xorb_nilpotent.
  - destruct Hn as [Hn|Ny]; [done|]. pose proof (good_extended x P Hx Nx) as Rx. pose proof (good_extended y Q Hy Ny) as Ry.
    rewrite (repr_card _ _ Rx), (repr_card _ _ Ry), Ec, Z.eqb_refl. cbn [negb].
    destruct (op_and_repr Hg _ _ P Q Rx Ry) as (d & -> & Hd). ored. eexists; split; [done|].
    rewrite (repr_card _ _ Hd), Z.eqb_eq. split.
    + intros E v. pose proof (proj1 (card_sub P Q (fun v => good_range x P v Hx))) as S1.
      pose proof (proj1 (card_sub Q P (fun v => good_range y Q v Hy))) as S2.
      assert (card (fun v => Q v && P v) = card (fun v => P v && Q v)) as Esw by (apply card_ext; intros w; apply andb_comm).
      specialize (S1 ltac:(lia) v). specialize (S2 ltac:(lia) v).
      destruct (P v) eqn:EP, (Q v) eqn:EQ; intuition congruence.
    + intros HPQ. rewrite <- Ec. apply card_ext. intros v. rewrite HPQ. apply andb_diag.
Qed.
(** ** Inclusion *)

Lemma none_below_spec p q :
  (forall i, 0 <= i < 64 -> p i = Some (q i)) ->
  exists b, none_below p = Some b /\ (b = true <-> forall i, 0 <= i < 64 -> q i = false).
Proof using.
  intros Hp. unfold none_below. change (Z.to_nat (32 * fset_high)) with 64%nat.
  assert (forall n, (n <= 64)%nat -> forall (f : bool),
    exists r, for_down n (fun i (found : bool) => if found then Some true else p i) f = Some r /\
      (negb r = true <-> f = false /\ forall i, 0 <= i < Z.of_nat n -> q i = false)) as Hloop.
  { induction n as [|n IH]; intros Hn f; cbn [for_down].
    - exists f. split; [done|]. destruct f; simpl; [intuition congruence|]. split; [|done]. intros _. split; [done|lia].
    - destruct f.
      + ored. destruct (IH ltac:(lia) true) as (r & -> & Hr). exists r. split; [done|]. rewrite Hr. intuition congruence.
      + rewrite Hp by lia. ored. destruct (IH ltac:(lia) (q (Z.of_nat n))) as (r & -> & Hr). exists r. split; [done|]. rewrite Hr.
        split.
        * intros [Hq Hall]. split; [done|]. intros i Hi. destruct (Z.eq_dec i (Z.of_nat n)) as [->|]; [done|]. apply Hall. lia.
        * intros [_ Hall]. split; [apply Hall; lia|]. intros i Hi. apply Hall. lia. }
  destruct (Hloop 64%nat ltac:(lia) false) as (r & -> & Hr). ored. exists (negb r). split; [done|]. rewrite Hr.
  split; [by intros [_ ?]|]. by intros ?.
Qed.

Lemma sub_test a b :
  is_word a -> is_word b ->
  negb (Z.land a b =? a) = true <-> exists j, 0 <= j < 32 /\ Z.testbit a j && negb (Z.testbit b j) = true.
Proof using.
  intros Ha Hb. rewrite negb_true_iff, Z.eqb_neq. split.
  - intros Hne. destruct (first_true (fun j => Z.testbit a j && negb (Z.testbit b j)) 0 32) as [Hno|(k & Hk & Hkt & _)].
    + exfalso. apply Hne, word_ext; [by apply is_word_land|done|]. intros j Hj. specialize (Hno j ltac:(lia)). cbn beta in Hno.
      rewrite Z.land_spec. destruct (Z.testbit a j), (Z.testbit b j); done.
    + exists k. split; [lia|done].
  - intros (j & _ & Hj) E. rewrite <- E, Z.land_spec in Hj. destruct (Z.testbit a j), (Z.testbit b j); done.
Qed.

(** Whether the upper part is complete: [isIn(64) && upperBound(64) == fs_sup]. *)
Lemma upper_full d P :
  repr d P ->
  exists u, FiniteDomain.isIn d 64 = Some (P 64) /\ FiniteDomain.upperBound d 64 = Some u /\
    (P 64 && (u =? fs_sup) = true <-> forall v, 64 <= v <= fs_sup -> P v = true).
Proof using Hg.
  intros Hd. destruct (upper_run Hg d P Hd) as (u & E & Hu). exists u. split; [by apply (isIn_repr _ P)|]. split; [done|].
  rewrite andb_true_iff, Hu. split; [by intros [_ ?]|]. intros Hall. split; [|done]. apply Hall. unfold fs_sup. lia.
Qed.

(** Inclusion below the words and above them. *)
Lemma sub_parts P Q :
  (forall v, P v = true -> 0 <= v <= fs_sup) ->
  (forall v, P v = true -> Q v = true) <->
  (forall i, 0 <= i < 64 -> P i && negb (Q i) = false) /\ (forall v, 64 <= v <= fs_sup -> P v = true -> Q v = true).
Proof using.
  intros HrP. split.
  - intros Hsub. split; [|auto]. intros i _. specialize (Hsub i). destruct (P i), (Q i); intuition congruence.
  - intros [Hlow Hup] v Hv. apply HrP in Hv as Hr. destruct (Z.lt_ge_cases v 64); [|apply Hup; [lia|done]].
    specialize (Hlow v ltac:(lia)). rewrite Hv in Hlow. by destruct (Q v).
Qed.

Section pair.
Context x y P Q (Hx : good x P) (Hy : good y Q).

Lemma le_normal_good :
  _normal x = true -> _normal y = true ->
  exists b, le_normal x y = Some b /\ (b = true <-> forall v, P v = true -> Q v = true).
Proof using Hx Hy.
  intros Nx Ny. unfold le_normal. setoid_rewrite (sub_parts P Q (fun v => good_range x P v Hx)).
  destruct (good_normal x P Hx Nx) as [Bx _], (good_normal y Q Hy Ny) as [By _].
  destruct (_other x && negb (_other y)) eqn:Eo.
  - exists false. split; [done|]. split; [done|]. intros [_ Hup]. specialize (Hup 64).
    rewrite (bits_high x P), (bits_high y Q) in Hup by (done || (unfold fs_sup; lia)).
    destruct (_other x), (_other y); try done. apply Hup; [unfold fs_sup; lia|done].
  - destruct (all_words _ (fun a b => a && negb b) (_in x) (_in y) sub_test Bx By) as (r & -> & Hr). ored.
    eexists; split; [done|]. rewrite Hr. split.
    + intros Hw. split.
      * intros i Hi. rewrite (bits_low x P i), (bits_low y Q i) by done. by apply Hw.
      * intros v Hv. rewrite (bits_high x P v), (bits_high y Q v) by done. by destruct (_other x), (_other y).
    + intros [Hlow _] v Hv. rewrite <- (bits_low x P v), <- (bits_low y Q v) by done. by apply Hlow.
Qed.

Lemma le_normal_extended_good :
  _normal x = true -> _normal y = false ->
  exists b, le_normal_extended x y = Some b /\ (b = true <-> forall v, P v = true -> Q v = true).
Proof using Hg Hx Hy.
  intros Nx Ny. unfold le_normal_extended. pose proof (good_extended y Q Hy Ny) as Ry.
  destruct (good_normal x P Hx Nx) as [Bx _]. setoid_rewrite (sub_parts P Q (fun v => good_range x P v Hx)).
  destruct (none_below_spec (fun i => b ← testBit (_in x) i; c ← FiniteDomain.isIn (_IN y) i; Some (b && negb c))
    (fun i => P i && negb (Q i))) as (ok & -> & Hok).
  { intros i Hi. rewrite fs_testBit_spec by done. ored. rewrite (isIn_repr _ Q Ry). ored. unfold fset_high.
    rewrite (proj2 (Z.ltb_lt i (32 * 2))) by lia. by rewrite (bits_low x P). }
  ored. setoid_rewrite <- Hok. destruct ok; cbn [negb]; [|exists false; intuition congruence].
  destruct (_other x) eqn:Ox.
  - destruct (upper_full _ Q Ry) as (u & E1 & E2 & Hu). change (32 * fset_high) with 64. rewrite E1, E2. ored.
    eexists; split; [done|]. rewrite Hu. split.
    + intros Hall. split; [done|]. auto.
    + intros [_ Hup] v Hv. apply Hup; [done|]. by rewrite (bits_high x P).
  - exists true. split; [done|]. split; [|done]. intros _. split; [done|]. intros v Hv.
    rewrite (bits_high x P) by done. congruence.
Qed.

Lemma extended_nonempty : _normal x = false -> 0 < size (_IN x).
Proof using Hx.
  intros Nx. pose proof (good_extended x P Hx Nx) as Rx. destruct (Z.eq_dec (size (_IN x)) 0) as [E0|].
  - exfalso. apply (proj2 Hx Nx). intros v _. by rewrite !(repr_size0 _ P Rx E0).
  - destruct Rx as [(? & _) _]. lia.
Qed.

Lemma le_extended_normal_good :
  _normal x = false -> _normal y = true ->
  exists b, le_extended_normal x y = Some b /\
    (b = true <-> (forall v, P v = true -> Q v = true) /\ _other y = false).
Proof using Hg Hx Hy.
  intros Nx Ny. unfold le_extended_normal. pose proof (good_extended x P Hx Nx) as Rx.
  destruct (good_normal y Q Hy Ny) as [By _]. setoid_rewrite (sub_parts P Q (fun v => good_range x P v Hx)).
  destruct (none_below_spec (fun i => b ← FiniteDomain.isIn (_IN x) i; c ← testBit (_in y) i; Some (b && negb c))
    (fun i => P i && negb (Q i))) as (ok & -> & Hok).
  { intros i Hi. rewrite (isIn_repr _ P Rx). ored. rewrite fs_testBit_spec by done. ored. unfold fset_high.
    rewrite (proj2 (Z.ltb_lt i (32 * 2))) by lia. by rewrite (bits_low y Q). }
  ored. setoid_rewrite <- Hok. destruct ok; cbn [negb]; [|exists false; intuition congruence]. destruct (_other y) eqn:Oy.
  - destruct (upper_full _ P Rx) as (u & E1 & E2 & Hu). change (32 * fset_high) with 64. rewrite E1, E2. ored.
    eexists; split; [done|]. rewrite Hu. split; [|by intros [_ ?]]. intros Hall. exfalso. apply (proj2 Hx Nx).
    intros v Hv. rewrite !Hall by (unfold fs_sup in *; lia). done.
  - destruct (nextLargerElem_repr _ P Rx (32 * fset_high - 1) (extended_nonempty Nx)) as (n & -> & Hn); [done|]. ored.
    eexists; split; [done|]. change (32 * fset_high - 1) with 63 in Hn. split.
    + intros Hneg. split; [|done]. split; [done|]. intros v Hv HPv. exfalso.
      destruct Hn as [[_ Hno]|(_ & ? & _)]; [apply Hno in HPv; lia|lia].
    + intros [[_ Hup] _]. destruct Hn as [[-> _]|(Hp & Hlt & _)]; [done|]. exfalso.
      pose proof (good_range x P n Hx Hp). specialize (Hup n ltac:(lia) Hp).
      rewrite (bits_high y Q) in Hup by (done || lia). congruence.
Qed.

(** [<=] decides inclusion, except that an extended value is never found to be included in a
    normal one that has the elements above the words. *)
Lemma op_le_good :
  exists b, op_le x y = Some b /\
    (b = true <-> (forall v, P v = true -> Q v = true) /\ (_normal x || negb (_normal y) || negb (_other y) = true)).
Proof using Hg Hx Hy.
  unfold op_le. rewrite (good_card x P Hx), (good_card y Q Hy).
  destruct (Z.ltb_spec (card Q) (card P)) as [Hc|_].
  { exists false. split; [done|]. split; [done|]. intros [Hsub _]. apply card_mono in Hsub. lia. }
  destruct (_normal x) eqn:Nx, (_normal y) eqn:Ny; cbn [negb andb orb].
  - destruct (le_normal_good Nx Ny) as (b & -> & Hb). exists b. rewrite Hb. intuition.
  - destruct (le_normal_extended_good Nx Ny) as (b & -> & Hb). exists b. rewrite Hb. intuition.
  - destruct (le_extended_normal_good Nx Ny) as (b & -> & Hb). exists b. by rewrite Hb, negb_true_iff.
  - pose proof (good_extended x P Hx Nx) as Rx. pose proof (good_extended y Q Hy Ny) as Ry. unfold le_extended.
    destruct (op_and_repr Hg _ _ P Q Rx Ry) as (d & -> & Hd). ored. eexists; split; [done|].
    rewrite (repr_card _ _ Hd), (repr_card _ _ Rx), Z.eqb_eq, (card_sub P Q); [intuition|].
    intros v. by apply (good_range x).
Qed.
End pair.
(** ** Extreme elements *)

Definition least (P : Z -> bool) (m : Z) : Prop :=
  (m = -1 /\ forall v, P v = false) \/ (P m = true /\ forall v, P v = true -> m <= v).
Definition greatest (P : Z -> bool) (m : Z) : Prop :=
  (m = -1 /\ forall v, P v = false) \/ (P m = true /\ forall v, P v = true -> v <= m).

Lemma normal_cases x P v :
  good x P -> _normal x = true -> P v = words_mem (_in x) v || (_other x && (64 <=? v) && (v <=? fs_sup)).
Proof using.
  intros Hx Nx. destruct (good_normal x P Hx Nx) as [[Hr _] Mx]. rewrite <- Mx. unfold bits_mem, fset_high.
  unfold room, fset_high in Hr. destruct (Z.ltb_spec v (32 * 2)).
  - rewrite (proj2 (Z.leb_gt 64 v)) by lia. by rewrite andb_false_r, orb_false_r.
  - rewrite words_mem_out by lia. rewrite (proj2 (Z.leb_le 64 v)) by lia. by rewrite andb_true_r.
Qed.

Lemma words_range x P v : good x P -> _normal x = true -> words_mem (_in x) v = true -> 0 <= v < 64.
Proof using.
  intros Hx Nx Hv. destruct (good_normal x P Hx Nx) as [[Hr _] _]. unfold room, fset_high in Hr.
  destruct (decide (0 <= v < 64)); [done|]. rewrite words_mem_out in Hv by lia. done.
Qed.

Lemma getMinElem_good x P : good x P -> least P (getMinElem x).
Proof using.
  intros Hx. unfold getMinElem. destruct (_normal x) eqn:Nx.
  - destruct (good_normal x P Hx Nx) as [[Hr Hw] _]. pose proof (normal_cases x P) as HP.
    pose proof (FDBitVector.findMinElem_scan_spec (_in x) 0 Hw) as Hs.
    destruct (FDBitVector.findMinElem_scan (_in x) 0) as [[w v]|].
    + rewrite Z.sub_0_r in Hs. destruct Hs as [H1 H2]. right. split; [by rewrite HP, H1|].
      intros u. rewrite HP by done. apply (words_range x P) in H1; [|done|done].
      intros [Hu|Hu]%orb_true_iff; [by apply H2|lia].
    + destruct (_other x) eqn:Ox.
      * right. rewrite HP, Hs by done. split; [done|]. intros v. rewrite HP, Hs by done. unfold fset_high. lia.
      * left. split; [done|]. intros v. by rewrite HP, Hs.
  - pose proof (good_extended x P Hx Nx) as Rx. pose proof (extended_nonempty x P Hx Nx) as Hsz.
    destruct (repr_elim _ P Rx Hsz) as (_ & _ & _ & H4 & _ & H6 & _). right. split; [done|]. intros v Hv. by apply H6.
Qed.

Lemma getMaxElem_good x P : good x P -> greatest P (getMaxElem x).
Proof using.
  intros Hx. unfold getMaxElem. destruct (_normal x) eqn:Nx.
  - destruct (good_normal x P Hx Nx) as [[Hr Hw] _]. pose proof (normal_cases x P) as HP. destruct (_other x) eqn:Ox.
    + right. rewrite HP by done. split; [by rewrite orb_true_r|].
      intros v Hv. apply (good_range x P v Hx Hv).
    + pose proof (FDBitVector.findMaxElem_scan_spec (_in x) Hw) as Hs. simpl in Hs. rewrite room_currBv in Hs by done.
      change (32 * fset_high - 1) with 63. assert (forall v, P v = words_mem (_in x) v) as HPw.
      { intros v. rewrite HP by done. apply orb_false_r. }
      destruct Hs as [[-> Hno]|[H1 H2]]; [left|right].
      * split; [done|]. intros v. by rewrite HPw.
      * split; [by rewrite HPw|]. intros v. rewrite HPw. apply H2.
  - pose proof (good_extended x P Hx Nx) as Rx. pose proof (extended_nonempty x P Hx Nx) as Hsz.
    destruct (repr_elim _ P Rx Hsz) as (_ & _ & _ & _ & H5 & H6 & _). right. split; [done|]. intros v Hv. by apply H6.
Qed.

(** ** Neighbours *)

Definition low_words (bv : list Z) (v : Z) : bool := (v <? 64) && words_mem bv v.

Lemma fs_scan_up_spec bv n v :
  bits_ok bv -> exists r, scan_up bv n v = Some r /\
    ((r = -1 /\ forall w, v <= w < v + Z.of_nat n -> low_words bv w = false) \/
     (v <= r < v + Z.of_nat n /\ low_words bv r = true /\ forall w, v <= w < r -> low_words bv w = false)).
Proof using.
  intros Hb. revert v. induction n as [|n IH]; intros v; cbn [scan_up].
  - exists (-1). split; [done|]. left. split; [done|lia].
  - rewrite fs_testBit_spec by done. ored. change (32 * fset_high) with 64. fold (low_words bv v).
    destruct (low_words bv v) eqn:E.
    + exists v. split; [done|]. right. split; [lia|]. split; [done|lia].
    + destruct (IH (v + 1)) as (r & -> & Hr). exists r. split; [done|].
      destruct Hr as [[-> Hno]|(Hin & Hm & Hno)]; [left|right]; (split; [done || lia|]); [|split; [done|]].
      all: intros w Hw; destruct (Z.eq_dec w v) as [->|]; [done|apply Hno; lia].
Qed.

Lemma fs_scan_down_spec bv n v :
  bits_ok bv -> exists r, scan_down bv n v = Some r /\
    ((r = -1 /\ forall w, v - Z.of_nat n < w <= v -> low_words bv w = false) \/
     (v - Z.of_nat n < r <= v /\ low_words bv r = true /\ forall w, r < w <= v -> low_words bv w = false)).
Proof using.
  intros Hb. revert v. induction n as [|n IH]; intros v; cbn [scan_down].
  - exists (-1). split; [done|]. left. split; [done|lia].
  - rewrite fs_testBit_spec by done. ored. change (32 * fset_high) with 64. fold (low_words bv v).
    destruct (low_words bv v) eqn:E.
    + exists v. split; [done|]. right. split; [lia|]. split; [done|lia].
    + destruct (IH (v - 1)) as (r & -> & Hr). exists r. split; [done|].
      destruct Hr as [[-> Hno]|(Hin & Hm & Hno)]; [left|right]; (split; [done || lia|]); [|split; [done|]].
      all: intros w Hw; destruct (Z.eq_dec w v) as [->|]; [done|apply Hno; lia].
Qed.

(** What [getNextLargerElem] sees of the set: below 63, a normal value loses the elements above
    the words. *)
Definition seen_from (x : FSetValue) (P : Z -> bool) (v w : Z) : bool :=
  P w && negb (_normal x && _other x && (v <? 63) && (64 <=? w)).

Lemma getNextLargerElem_good x P v :
  good x P -> -1 <= v <= fs_sup ->
  exists r, getNextLargerElem x v = Some r /\ is_succ (seen_from x P v) v r.
Proof using.
  intros Hx Hv. unfold getNextLargerElem, seen_from. destruct (_normal x) eqn:Nx; cbn [andb].
  - pose proof (normal_cases x P) as HP. pose proof (words_range x P) as Hlow. change (32 * fset_high - 1) with 63.
    destruct (good_normal x P Hx Nx) as [Bx _].
    destruct ((63 <=? v) && _other x) eqn:Ec.
    + eexists; split; [done|]. destruct (Z.ltb_spec v fs_sup).
      * right. rewrite HP by done. assert (_other x = true) as -> by lia.
        split; [unfold fs_sup in *; destruct (words_mem (_in x) (v + 1)); lia|]. split; [lia|]. intros w _. lia.
      * left. split; [done|]. intros w Hw. apply andb_true_iff in Hw as [Hw _]. apply (good_range x P w Hx) in Hw. lia.
    + assert (forall w, v < w -> P w && negb (_other x && (v <? 63) && (64 <=? w)) = low_words (_in x) w) as Heq.
      { intros w Hw. rewrite HP by done. unfold low_words. destruct (words_mem (_in x) w) eqn:Ew.
        - apply Hlow in Ew; [|done|done]. lia.
        - destruct (_other x); lia. }
      destruct (fs_scan_up_spec (_in x) (Z.to_nat (63 - v)) (v + 1) Bx) as (r & -> & Hr). exists r. split; [done|].
      destruct Hr as [[-> Hno]|(Hin & Hm & Hno)]; [left|right].
      * split; [done|]. intros w Hw. destruct (Z.lt_ge_cases v w); [|lia]. rewrite Heq in Hw by done.
        exfalso. destruct (Z.lt_ge_cases w 64); [rewrite Hno in Hw by lia; done|]. unfold low_words in Hw. lia.
      * split; [by rewrite Heq by lia|]. split; [lia|]. intros w Hw Hvw. rewrite Heq in Hw by done.
        destruct (Z.lt_ge_cases w r); [|lia]. rewrite Hno in Hw by lia. done.
  - pose proof (good_extended x P Hx Nx) as Rx. pose proof (extended_nonempty x P Hx Nx) as Hsz.
    destruct (nextLargerElem_repr _ P Rx v Hsz) as (r & -> & Hr); [lia|]. exists r. split; [done|].
    unfold is_succ in *. by setoid_rewrite andb_true_r.
Qed.

Lemma getNextSmallerElem_good x P v :
  good x P -> v <= fs_sup -> exists r, getNextSmallerElem x v = Some r /\ is_pred P v r.
Proof using.
  intros Hx Hv. unfold getNextSmallerElem. destruct (_normal x) eqn:Nx.
  - pose proof (normal_cases x P) as HP. pose proof (words_range x P) as Hlow. change (32 * fset_high) with 64.
    destruct (good_normal x P Hx Nx) as [Bx _]. destruct ((64 <? v) && _other x) eqn:Ec.
    + eexists; split; [done|]. rewrite (proj2 (Z.leb_le v fs_sup)) by lia. right. rewrite HP by done.
      assert (_other x = true) as -> by lia.
      split; [destruct (words_mem (_in x) (v - 1)); lia|]. split; [lia|]. intros w _. lia.
    + assert (forall w, w < v -> P w = low_words (_in x) w) as Heq.
      { intros w Hw. rewrite HP by done. unfold low_words. destruct (words_mem (_in x) w) eqn:Ew.
        - apply Hlow in Ew; [|done|done]. lia.
        - destruct (_other x); lia. }
      destruct (fs_scan_down_spec (_in x) (Z.to_nat v) (v - 1) Bx) as (r & -> & Hr). exists r. split; [done|].
      destruct Hr as [[-> Hno]|(Hin & Hm & Hno)]; [left|right].
      * split; [done|]. intros w Hw. destruct (Z.lt_ge_cases w v); [|lia].
        pose proof (good_range x P w Hx Hw). rewrite Heq in Hw by done. rewrite Hno in Hw by lia. done.
      * split; [by rewrite Heq by lia|]. split; [lia|]. intros w Hw Hvw. rewrite Heq in Hw by done.
        destruct (Z.lt_ge_cases r w); [|lia]. rewrite Hno in Hw by lia. done.
  - pose proof (good_extended x P Hx Nx) as Rx. pose proof (extended_nonempty x P Hx Nx) as Hsz.
    by apply (nextSmallerElem_repr _ P Rx v Hsz).
Qed.

(** ** Lists *)

Lemma getKnownInList_good x P :
  good x P -> 33 <= fd_bv_conv_max_high fd_env ->
  (_normal x = true -> _other x = true -> exists v, 0 <= v < 64 /\ P v = true) ->
  exists d, getKnownInList x = Some d /\ descr_valid d = true /\ forall v, descr_set d v = P v.
Proof using Hg.
  intros Hx Hcap Hne. unfold getKnownInList. destruct (_normal x) eqn:Nx.
  - destruct (good_normal x P Hx Nx) as [Bx Mx].
    destruct (getAsList_bits (_in x) false (_other x) Bx Hcap) as (d & E & Hv & Hd).
    + destruct (_other x); [right|by left]. destruct (Hne eq_refl eq_refl) as (v & Hv & HPv). exists v. split; [done|].
      by rewrite <- (bits_low x P).
    + exists d. split; [done|]. split; [done|]. intros v. rewrite Hd, Mx. destruct (P v) eqn:E2; [|by rewrite andb_false_r].
      apply (good_range x P v Hx) in E2. lia.
  - apply (getAsList_repr Hg). by apply good_extended.
Qed.

Lemma getKnownNotInList_good x P :
  good x P -> 33 <= fd_bv_conv_max_high fd_env ->
  (_normal x = true -> _other x = false -> exists v, 0 <= v < 64 /\ P v = false) ->
  exists d, getKnownNotInList x = Some d /\ descr_valid d = true /\ forall v, descr_set d v = not_set P v.
Proof using Hg.
  intros Hx Hcap Hne. unfold getKnownNotInList. destruct (_normal x) eqn:Nx.
  - destruct (good_normal x P Hx Nx) as [Bx Mx].
    destruct (getAsList_bits (_in x) true (_other x) Bx Hcap) as (d & E & Hv & Hd).
    + destruct (_other x); [by left|right]. destruct (Hne eq_refl eq_refl) as (v & Hv & HPv). exists v. split; [done|].
      by rewrite <- (bits_low x P), HPv.
    + exists d. split; [done|]. split; [done|]. intros v. by rewrite Hd, Mx.
  - destruct (op_not_repr Hg _ P (good_extended x P Hx Nx)) as (d & -> & Hd). ored. by apply (getAsList_repr Hg).
Qed.
End queries.
End FSetValueQueries.
