(* ===== verification/FSetValueTheorems.v ===== *)
(** * Finite set values: the properties of the component

    What [FSetValue] promises to the constraint class and to the language, stated against
    the set a value stands for ([good x P]: the object [x] represents the set [P] in the
    representation the code would choose, with the right cardinality). *)
From S2P Require Import Prelude Word32 FDBase FDIntervals FDBitVector Sort FiniteDomain FDRepr FDQueries FDOperators FDSetOperators FDDescr FDTheorems FSetBits FSetValue FSetValueSpec FSetValueOps FSetValueQueries.
Import FDRepr FDQueries FDOperators FDSetOperators FDDescr FSetBits FSetValue FSetValueSpec FSetValueOps FSetValueQueries.

#[local] Existing Instance default_env.

(** An object with junk in it, ranges, and a mixed set. *)
Definition blank : FSetValue := FSV 5 true FiniteDomain.initEmpty false [7; 9].
Definition low_set : FSetValue := default blank (init_range blank 3 40).
Definition gap_set : FSetValue := default blank (init_range blank 30 200).

Lemma blank_room : room (_in blank).
Proof. done. Qed.

Lemma low_set_good : good low_set (range_set 3 40).
Proof.
  unfold low_set. destruct (init_range_holds blank 3 40 blank_room) as (x & E & Hh & Hc & Hcd).
  rewrite E. cbn. split; [split; [done|]|by apply Hc]. rewrite Hcd. cbn. lia.
Qed.

Lemma gap_set_good : good gap_set (range_set 30 200).
Proof.
  unfold gap_set. destruct (init_range_holds blank 30 200 blank_room) as (x & E & Hh & Hc & Hcd).
  rewrite E. cbn. split; [split; [done|]|by apply Hc]. rewrite Hcd. cbn. lia.
Qed.

Section properties.
Context (env : FDEnv).

(** The set operations on values compute union, intersection, difference and complement,
    for operands in either representation; the result has the right cardinality and is in
    normal representation whenever it can be.  The conditions are the code's: the result of
    [&], [-] and [|] on operands that are not both normal must not be empty, and a mixed [-]
    needs the flag of the uninitialised result object to agree with that of its first operand. *)
Theorem value_operations_correct (z x y : FSetValue) (P Q : Z -> bool) :
  globals_ok (@fd_env env) -> room (_in z) -> good x P -> good y Q ->
  (meets x y (fun v => P v && Q v) ->
     (exists r, op_and z x y = Some r /\ good r (fun v => P v && Q v)) /\
     (exists r, op_and_eq x y = Some r /\ good r (fun v => P v && Q v))) /\
  (meets x y (fun v => P v || Q v) ->
     (exists r, op_or z x y = Some r /\ good r (fun v => P v || Q v)) /\
     (exists r, op_or_eq x y = Some r /\ good r (fun v => P v || Q v))) /\
  (meets x y (fun v => P v && negb (Q v)) ->
     (_normal x = true -> _normal y = false -> _other z = _other x) ->
     exists r, op_minus z x y = Some r /\ good r (fun v => P v && negb (Q v))) /\
  (exists r, op_neg z x = Some r /\ good r (not_set P)).
Proof.
  intros Hg Hz Hx Hy. split_and!.
  - split; [by apply op_and_good|by apply op_and_eq_good].
  - split; [by apply op_or_good|by apply op_or_eq_good].
  - by apply op_minus_good.
  - by apply op_neg_good.
Qed.

(** The queries on values answer for the set: membership, [==] on canonical values,
    inclusion (never found for an extended value in a normal one with the elements above the
    words), the least and greatest element, the next smaller element, and the next larger one
    (from below 63 a normal value loses the elements above the words). *)
Theorem value_queries_correct (x y : FSetValue) (P Q : Z -> bool) (v : Z) :
  globals_ok (@fd_env env) -> good x P -> good y Q -> -1 <= v <= fs_sup ->
  isIn x v = Some (P v) /\
  (_normal x = true \/ _normal y = false ->
     exists b, op_eq x y = Some b /\ (b = true <-> forall w, P w = Q w)) /\
  (exists b, op_le x y = Some b /\
     (b = true <-> (forall w, P w = true -> Q w = true) /\ _normal x || negb (_normal y) || negb (_other y) = true)) /\
  least P (getMinElem x) /\ greatest P (getMaxElem x) /\
  (exists r, getNextSmallerElem x v = Some r /\ is_pred P v r) /\
  (exists r, getNextLargerElem x v = Some r /\ is_succ (seen_from x P v) v r).
Proof.
  intros Hg Hx Hy Hv. split_and!.
  - apply (isIn_good x P), Hx.
  - by apply op_eq_good.
  - by apply (op_le_good Hg).
  - by apply getMinElem_good.
  - by apply getMaxElem_good.
  - apply getNextSmallerElem_good; [done|lia].
  - by apply getNextLargerElem_good.
Qed.

(** The list of the elements of a value describes its set, and building a value from that
    list gives back the same set in the same representation, equal to the original by [==]. *)
Theorem value_list_roundtrip (z x : FSetValue) (P : Z -> bool) (w : Z) :
  globals_ok (@fd_env env) -> 33 <= fd_bv_conv_max_high (@fd_env env) ->
  room (_in z) -> good x P -> P w = true ->
  (_normal x = true -> _other x = true -> exists v, 0 <= v < 64 /\ P v = true) ->
  exists d x', getKnownInList x = Some d /\ init_descr z d = Some x' /\ good x' P /\
    _normal x' = _normal x /\ op_eq x x' = Some true.
Proof.
  intros Hg Hcap Hz Hx Hw Hne. destruct (getKnownInList_good Hg x P Hx Hcap Hne) as (d & -> & Hv & Hd).
  destruct (init_descr_good Hg z d w Hz Hv) as (x' & E & Hx'); [by rewrite Hd|].
  apply (good_ext x' _ P Hd) in Hx'. exists d, x'.
  assert (_normal x' = _normal x) as En.
  { destruct (_normal x) eqn:Nx, (_normal x') eqn:Nx'; try done; exfalso.
    - apply (proj2 Hx' Nx'), (holds_uniform x P); [apply Hx|done].
    - apply (proj2 Hx Nx), (holds_uniform x' P); [apply Hx'|done]. }
  split_and!; try done.
  destruct (op_eq_good Hg x x' P P Hx Hx') as (b & -> & Hb); [rewrite En; by destruct (_normal x); [left|right]|].
  f_equal. by apply Hb.
Qed.

(** What the code of values gets wrong: [+=] and [-=] return at once for every element
    that can be in a set; a range up to [fs_sup] is built with the cardinality of its part in
    the words; an extended value is not found to be a subset of a normal one with the elements
    above the words. *)
Theorem value_updates_lost (z x y : FSetValue) (P Q : Z -> bool) (l v : Z) :
  globals_ok (@fd_env env) -> room (_in z) -> good x P -> good y Q -> 0 <= v -> l <= 64 ->
  _normal x = false -> _normal y = true -> _other y = true ->
  op_plus_int x v = Some x /\ op_minus_int x v = Some x /\
  (exists r, init_range z l fs_sup = Some r /\ holds r (range_set l fs_sup) /\
     _card r = card (range_set l fs_sup) - size_of_other) /\
  op_le x y = Some false.
Proof.
  intros Hg Hz Hx Hy Hv Hl Nx Ny Oy. unfold op_plus_int, op_minus_int. rewrite (proj2 (Z.leb_le 0 v)) by lia.
  split_and!; try done.
  - destruct (init_range_holds z l fs_sup Hz) as (r & -> & Hh & _ & Hc). exists r. split_and!; try done.
    by rewrite Hc, Z.eqb_refl, (proj2 (Z.leb_le l 64)).
  - destruct (op_le_good Hg x y P Q Hx Hy) as (b & -> & Hb). f_equal. destruct b; [|done].
    destruct (proj1 Hb eq_refl) as [_ E]. by rewrite Nx, Ny, Oy in E.
Qed.
End properties.

(** An intersection or difference that comes out empty can still have elements: for two
    ranges [&=] on domains leaves its left operand's bounds, which [maybeToNormal] then reads,
    so [1..2] and [100..200] meet in a value of cardinality 0 that contains 1; a mixed
    difference reads the flag of its uninitialised result object, so with junk there
    [3..40] minus [30..200] contains 1000. *)
Theorem empty_results_keep_elements :
  (exists x y r, init_range blank 1 2 = Some x /\ init_range blank 100 200 = Some y /\
     op_and blank x y = Some r /\ _card r = 0 /\ isIn r 1 = Some true) /\
  (exists r, op_minus blank low_set gap_set = Some r /\ isIn r 1000 = Some true /\ isIn low_set 1000 = Some false).
Proof.
  split; [|eexists; split; [vm_compute; reflexivity|done]].
  do 3 eexists. split; [vm_compute; reflexivity|]. split; [vm_compute; reflexivity|].
  split; [vm_compute; reflexivity|]. done.
Qed.

(** ** Witnesses *)

Lemma low_gap_meet : meets low_set gap_set (fun v => range_set 3 40 v && range_set 30 200 v).
Proof. right. by exists 35. Qed.
Lemma low_gap_join : meets low_set gap_set (fun v => range_set 3 40 v || range_set 30 200 v).
Proof. right. by exists 35. Qed.

Lemma value_operations_witness :
  exists r, op_and blank low_set gap_set = Some r /\ good r (fun v => range_set 3 40 v && range_set 30 200 v).
Proof.
  destruct (value_operations_correct default_env blank low_set gap_set (range_set 3 40) (range_set 30 200)
    default_env_ok blank_room low_set_good gap_set_good) as (Hand & _).
  exact (proj1 (Hand low_gap_meet)).
Defined.

Lemma value_queries_witness : isIn low_set 17 = Some true /\ op_le low_set gap_set = Some false.
Proof.
  destruct (value_queries_correct default_env low_set gap_set (range_set 3 40) (range_set 30 200) 17
    default_env_ok low_set_good gap_set_good) as (H1 & _ & H2 & _); [done|].
  split; [exact H1|]. destruct H2 as (b & E & Hb). rewrite E. f_equal. destruct b; [|done].
  destruct (proj1 Hb eq_refl) as [Hsub _]. by specialize (Hsub 3 eq_refl).
Defined.

Lemma value_list_witness :
  exists d x', getKnownInList gap_set = Some d /\ init_descr blank d = Some x' /\ op_eq gap_set x' = Some true.
Proof.
  destruct (value_list_roundtrip default_env blank gap_set (range_set 30 200) 35 default_env_ok)
    as (d & x' & H1 & H2 & _ & _ & H3); [done|done|exact gap_set_good|done|done|].
  by exists d, x'.
Defined.

Lemma value_updates_witness :
  exists y, init_state blank fs_full = Some y /\ op_le gap_set y = Some false /\ op_plus_int gap_set 300 = Some gap_set.
Proof.
  destruct (init_state_good blank fs_full blank_room) as (y & E & Hy). exists y. split; [exact E|].
  destruct (value_updates_lost default_env blank gap_set y (range_set 30 200) full_set 10 300
    default_env_ok blank_room gap_set_good Hy) as (H1 & _ & _ & H2); try done;
    [by injection E as <-|by injection E as <-].
Defined.
