(* ===== verification/FSetConstraint.v ===== *)
(** * Finite set constraints ([FSetConstraint] of [fset.cc])

    A constraint keeps the elements known to be in the set, those known not to be in it, and
    bounds for the cardinality.  Both sets are either two words and a flag ([_normal]) or
    finite domains.  [_card_min] is -1 if the constraint is not valid. *)
From S2P Require Import Prelude Word32 FDBase FDIntervals FDBitVector Sort FiniteDomain FDRepr FSetBits FSetValue.
Import FSetBits.

Module FSetConstraint.

Record FSetConstraint := FSC {
  _card_min : Z; _card_max : Z; _known_in : Z; _known_not_in : Z;
  _normal : bool; _otherin : bool; _otherout : bool;
  _IN : FiniteDomain; _OUT : FiniteDomain;
  _in : list Z; _not_in : list Z
}.

(** Assignments to groups of fields. *)
Definition set_card (c : FSetConstraint) (a b : Z) : FSetConstraint :=
  FSC a b (_known_in c) (_known_not_in c) (_normal c) (_otherin c) (_otherout c) (_IN c) (_OUT c) (_in c) (_not_in c).
Definition set_known (c : FSetConstraint) (a b : Z) : FSetConstraint :=
  FSC (_card_min c) (_card_max c) a b (_normal c) (_otherin c) (_otherout c) (_IN c) (_OUT c) (_in c) (_not_in c).
Definition set_bits (c : FSetConstraint) (i o : list Z) (oi oo : bool) : FSetConstraint :=
  FSC (_card_min c) (_card_max c) (_known_in c) (_known_not_in c) true oi oo (_IN c) (_OUT c) i o.
Definition set_domains (c : FSetConstraint) (i o : FiniteDomain) : FSetConstraint :=
  FSC (_card_min c) (_card_max c) (_known_in c) (_known_not_in c) false (_otherin c) (_otherout c) i o (_in c) (_not_in c).

(** The code's way to fail: [_card_min = -1]. *)
Definition fail (c : FSetConstraint) : FSetConstraint := set_card c (-1) (_card_max c).

Definition isValid (c : FSetConstraint) : bool := negb (_card_min c =? -1).
Definition isValue (c : FSetConstraint) : bool := (_card_min c =? _card_max c) && (_card_min c =? _known_in c).
Definition getCardSize (c : FSetConstraint) : Z := _card_max c - _card_min c + 1.

Section operations.
Context `{FDEnv}.

(** ** Representations *)

Definition toNormal (c : FSetConstraint) : option FSetConstraint :=
  if _normal c then None
  else
    i0 ← fill_words (_in c) 0;
    o0 ← fill_words (_not_in c) 0;
    '(i, o) ← for_up 0 (Z.to_nat (32 * fset_high)) (fun v '(i, o) =>
      b ← FiniteDomain.isIn (_IN c) v;
      i ← (if b : bool then setBit i v else Some i);
      b ← FiniteDomain.isIn (_OUT c) v;
      o ← (if b : bool then setBit o v else Some o);
      Some (i, o)) (i0, o0);
    u ← FiniteDomain.upperBound (_IN c) (32 * fset_high);
    w ← FiniteDomain.upperBound (_OUT c) (32 * fset_high);
    Some (set_bits c i o (u =? fs_sup) (w =? fs_sup)).

Definition toExtended (c : FSetConstraint) : option FSetConstraint :=
  if _normal c then
    let init (d : FiniteDomain) (other : bool) :=
      if other then FiniteDomain.initRange d (32 * fset_high) fs_sup else FiniteDomain.initEmpty in
    '(i, o) ← for_up 0 (Z.to_nat (32 * fset_high)) (fun v '(i, o) =>
      b ← testBit (_in c) v;
      i ← (if b : bool then FiniteDomain.op_plus_int i v else Some i);
      b ← testBit (_not_in c) v;
      o ← (if b : bool then FiniteDomain.op_plus_int o v else Some o);
      Some (i, o)) (init (_IN c) (_otherin c), init (_OUT c) (_otherout c));
    Some (set_domains c i o)
  else None.

(** Whether a domain stands in the way of the normal representation. *)
Definition above_words (d : FiniteDomain) : bool := (32 * fset_high <=? max_elem d) && (max_elem d <? fs_sup).
Definition hole_above (d : FiniteDomain) : option bool :=
  l ← FiniteDomain.lowerBound d fs_sup; Some ((32 * fset_high <=? max_elem d) && (32 * fset_high <? l)).

Definition maybeToNormal (c : FSetConstraint) : option (bool * FSetConstraint) :=
  if _normal c then None
  else if above_words (_IN c) || above_words (_OUT c) then Some (false, c)
  else
    h ← hole_above (_IN c);
    k ← hole_above (_OUT c);
    if h || k then Some (false, c) else c ← toNormal c; Some (true, c).

(** [_IN] (or [_Auxin] after [set_Auxin]), and the same for [_OUT].  The globals [_Auxin] and
    [_Auxout] are overwritten before each use. *)
Definition in_domain (c : FSetConstraint) : option FiniteDomain :=
  if _normal c then set_Aux FiniteDomain.initEmpty (_in c) (_otherin c) else Some (_IN c).
Definition out_domain (c : FSetConstraint) : option FiniteDomain :=
  if _normal c then set_Aux FiniteDomain.initEmpty (_not_in c) (_otherout c) else Some (_OUT c).
Definition value_domain (s : FSetValue.FSetValue) : option FiniteDomain :=
  if FSetValue._normal s then set_Aux FiniteDomain.initEmpty (FSetValue._in s) (FSetValue._other s)
  else Some (FSetValue._IN s).

Definition assign_in (c : FSetConstraint) (d : FiniteDomain) : option FSetConstraint :=
  d ← FiniteDomain.assign (_IN c) d; Some (set_domains c d (_OUT c)).
Definition assign_out (c : FSetConstraint) (d : FiniteDomain) : option FSetConstraint :=
  d ← FiniteDomain.assign (_OUT c) d; Some (set_domains c (_IN c) d).

(** ** Normalisation *)

(** Whether the set has an element that is in and out: the first tests of [normalize]. *)
Definition clash (c : FSetConstraint) : option bool :=
  if _normal c then
    if _otherin c && _otherout c then Some true
    else any_word (fun a b => negb (Z.land a b =? 0)) (_in c) (_not_in c)
  else d ← FiniteDomain.op_and (_IN c) (_OUT c); Some (negb (size d =? 0)).

Definition count_known (c : FSetConstraint) : option FSetConstraint :=
  if _normal c then
    i ← findBitsSet fset_high (_in c);
    o ← findBitsSet fset_high (_not_in c);
    Some (set_known c (if _otherin c then i + size_of_other else i) (if _otherout c then o + size_of_other else o))
  else Some (set_known c (size (_IN c)) (size (_OUT c))).

(** All of the set is known to be in (out): the rest is out (in). *)
Definition close_out (c : FSetConstraint) : option FSetConstraint :=
  let c := set_known (set_card c (_card_max c) (_card_max c)) (_known_in c) (fs_sup - _known_in c + 1) in
  if _normal c then
    o ← words1 not32 (_not_in c) (_in c); Some (set_bits c (_in c) o (_otherin c) (negb (_otherin c)))
  else
    d ← FiniteDomain.op_not (_IN c); c ← assign_out c d; '(_, c) ← maybeToNormal c; Some c.

Definition close_in (c : FSetConstraint) : option FSetConstraint :=
  let c := set_known (set_card c (_card_min c) (_card_min c)) (_card_min c) (_known_not_in c) in
  if _normal c then
    i ← words1 not32 (_in c) (_not_in c); Some (set_bits c i (_not_in c) (negb (_otherout c)) (_otherout c))
  else
    d ← FiniteDomain.op_not (_OUT c); c ← assign_in c d; '(_, c) ← maybeToNormal c; Some c.

Definition normalize (c : FSetConstraint) : option (bool * FSetConstraint) :=
  if negb (isValid c) then Some (false, c)
  else
    k ← clash c;
    if k : bool then Some (false, fail c)
    else
      c ← (if _normal c then Some c else '(_, c) ← maybeToNormal c; Some c);
      c ← count_known c;
      let rest := fs_sup - _known_not_in c + 1 in
      let c := set_card c (if _card_min c <? _known_in c then _known_in c else _card_min c)
                          (if rest <? _card_max c then rest else _card_max c) in
      if (_card_max c <? _known_in c) || (rest <? _card_min c) || (_card_max c <? _card_min c) then Some (false, fail c)
      else
        c ← (if _card_max c =? _known_in c then close_out c else Some c);
        c ← (if _card_min c =? fs_sup - _known_not_in c + 1 then close_in c else Some c);
        Some (true, c).

(** ** Construction *)

Definition init (c : FSetConstraint) : option FSetConstraint :=
  i ← fill_words (_in c) 0;
  o ← fill_words (_not_in c) 0;
  Some (set_bits (set_known (set_card c 0 (fs_sup + 1)) 0 0) i o false false).

Definition init_value (c : FSetConstraint) (s : FSetValue.FSetValue) : option FSetConstraint :=
  let k := FSetValue._card s in
  let c := set_known (set_card c k k) k (fs_sup - k + 1) in
  if FSetValue._normal s then
    i ← words1 (fun w => w) (_in c) (FSetValue._in s);
    o ← words1 not32 (_not_in c) i;
    Some (set_bits c i o (FSetValue._other s) (negb (FSetValue._other s)))
  else
    c ← assign_in c (FSetValue._IN s);
    d ← FiniteDomain.op_not (_IN c);
    assign_out c d.

Definition init_state (c : FSetConstraint) (s : OZ_FSetState) : option FSetConstraint :=
  match s with
  | fs_empty =>
      i ← fill_words (_in c) 0; o ← fill_words (_not_in c) (not32 0);
      Some (set_bits (set_known (set_card c 0 0) 0 (fs_sup + 1)) i o false true)
  | fs_full =>
      i ← fill_words (_in c) (not32 0); o ← fill_words (_not_in c) 0;
      Some (set_bits (set_known (set_card c (fs_sup + 1) (fs_sup + 1)) (fs_sup + 1) 0) i o true false)
  end.

Definition init_copy (c y : FSetConstraint) : option FSetConstraint :=
  c ← (if _normal y then
         i ← words1 (fun w => w) (_in c) (_in y); o ← words1 (fun w => w) (_not_in c) (_not_in y);
         Some (set_bits c i o (_otherin y) (_otherout y))
       else c ← assign_in c (_IN y); assign_out c (_OUT y));
  Some (set_card (set_known c (_known_in y) (_known_not_in y)) (_card_min y) (_card_max y)).

(** [FSetConstraint(int c_min, int c_max, OZ_Term ins, OZ_Term outs)] *)
Definition newConstraint (c : FSetConstraint) (c_min c_max : Z) (ins outs : OZ_Term) : option FSetConstraint :=
  i ← FiniteDomain.initDescr (_IN c) ins;
  o ← FiniteDomain.initDescr (_OUT c) outs;
  let c := set_domains (set_known (set_card c c_min c_max) (size i) (size o)) i o in
  d ← FiniteDomain.op_and (_IN c) (_OUT c);
  if negb (size d =? 0) then Some (fail c)
  else
    '(_, c) ← maybeToNormal c;
    Some (if (_card_max c <? _known_in c) || (_card_max c <? _card_min c) then fail c else c).

(** [FSetConstraint(OZ_Term minimal_in, OZ_Term maximal_in)] *)
Definition newBounds (c : FSetConstraint) (minimal_in maximal_in : OZ_Term) : option FSetConstraint :=
  i ← FiniteDomain.initDescr (_IN c) minimal_in;
  o ← FiniteDomain.initDescr (_OUT c) maximal_in;
  o' ← FiniteDomain.op_not o;
  o' ← FiniteDomain.assign o o';
  let c := set_domains c i o' in
  let c := set_known (set_card c (size i) (fs_sup - size o' + 1)) (size i) (size o') in
  '(_, c) ← maybeToNormal c; Some c.

(** [FSetValue::init(const FSetConstraint &)] *)
Definition value_init (s : FSetValue.FSetValue) (c : FSetConstraint) : option FSetValue.FSetValue :=
  if _normal c then
    w ← words1 (fun w => w) (FSetValue._in s) (_in c);
    Some (FSetValue.FSV (_card_min c) (_otherin c) (FSetValue._IN s) true w)
  else
    d ← FiniteDomain.assign (FSetValue._IN s) (_IN c);
    Some (FSetValue.FSV (_card_min c) (FSetValue._other s) d false (FSetValue._in s)).
End operations.
End FSetConstraint.
