(* ===== verification/FSetOperators.v ===== *)
(** * Finite set constraints: operators and queries ([fset.cc], from line 2053)

    The operators that narrow a constraint, those that build the constraint of a union,
    intersection, difference or complement, the tests, and the views of a constraint as values
    and lists.  An operator with a boolean result returns it with the changed constraint. *)
From S2P Require Import Prelude Word32 FDBase FDIntervals FDBitVector Sort FiniteDomain FDRepr FSetBits FSetValue FSetConstraint.
Import FSetBits FSetConstraint.

Module FSetOperators.
Abbreviation FSetValue := FSetValue.FSetValue.

Section operations.
Context `{FDEnv}.

(** ** Narrowing *)

(** [_otherin |= oth; _in[i] |= w[i]], and the same on [_not_in]. *)
Definition add_in_words (x : FSetConstraint) (w : list Z) (oth : bool) : option FSetConstraint :=
  i ← words2_in Z.lor (_in x) w;
  Some (set_bits x i (_not_in x) (_otherin x || oth) (_otherout x)).
Definition add_out_words (x : FSetConstraint) (w : list Z) (oth : bool) : option FSetConstraint :=
  o ← words2_in Z.lor (_not_in x) w;
  Some (set_bits x (_in x) o (_otherin x) (_otherout x || oth)).

(** [_IN = _IN | d], and the same on [_OUT]. *)
Definition add_in_domain (x : FSetConstraint) (d : FiniteDomain) : option FSetConstraint :=
  u ← FiniteDomain.op_or (_IN x) d; assign_in x u.
Definition add_out_domain (x : FSetConstraint) (d : FiniteDomain) : option FSetConstraint :=
  u ← FiniteDomain.op_or (_OUT x) d; assign_out x u.

Definition extended (x : FSetConstraint) : option FSetConstraint :=
  if _normal x then toExtended x else Some x.

Definition putCard (x : FSetConstraint) (min_card max_card : Z) : option (bool * FSetConstraint) :=
  normalize (set_card x (Z.max min_card (_card_min x)) (Z.min max_card (_card_max x))).

Definition op_plus (x : FSetConstraint) (i : Z) : option (bool * FSetConstraint) :=
  if (i <? 0) || (fs_sup <? i) then Some (true, x)
  else if _normal x then
    if i <? 32 * fset_high then
      w ← setBit (_in x) i; normalize (set_bits x w (_not_in x) (_otherin x) (_otherout x))
    else if _otherin x then Some (true, x)
    else
      x ← toExtended x; d ← FiniteDomain.op_plus_int (_IN x) i; normalize (set_domains x d (_OUT x))
  else
    d ← FiniteDomain.op_plus_int (_IN x) i; normalize (set_domains x d (_OUT x)).

Definition op_minus (x : FSetConstraint) (i : Z) : option (bool * FSetConstraint) :=
  if (i <? 0) || (fs_sup <? i) then Some (true, x)
  else if _normal x then
    if i <? 32 * fset_high then
      w ← setBit (_not_in x) i; normalize (set_bits x (_in x) w (_otherin x) (_otherout x))
    else if _otherout x then Some (true, x)
    else
      x ← toExtended x; d ← FiniteDomain.op_plus_int (_OUT x) i; normalize (set_domains x (_IN x) d)
  else
    d ← FiniteDomain.op_plus_int (_OUT x) i; normalize (set_domains x (_IN x) d).

(** [<<=]: the constraint of the equality. *)
Definition op_tell (x y : FSetConstraint) : option (bool * FSetConstraint) :=
  x ← (if _normal x && _normal y then
         x ← add_in_words x (_in y) (_otherin y); add_out_words x (_not_in y) (_otherout y)
       else
         x ← extended x;
         i ← in_domain y; o ← out_domain y;
         x ← add_in_domain x i; add_out_domain x o);
  normalize (set_card x (Z.max (_card_min x) (_card_min y)) (Z.min (_card_max x) (_card_max y))).

(** Subset, superset and disjointness. *)
Definition op_le (x y : FSetConstraint) : option (bool * FSetConstraint) :=
  x ← (if _normal x && _normal y then add_out_words x (_not_in y) (_otherout y)
       else x ← extended x; o ← out_domain y; add_out_domain x o);
  normalize (set_card x (_card_min x) (Z.min (_card_max x) (_card_max y))).

Definition op_ge (x y : FSetConstraint) : option (bool * FSetConstraint) :=
  x ← (if _normal x && _normal y then add_in_words x (_in y) (_otherin y)
       else x ← extended x; i ← in_domain y; add_in_domain x i);
  normalize (set_card x (Z.max (_card_min x) (_card_min y)) (_card_max x)).

Definition op_disjoint (x y : FSetConstraint) : option (bool * FSetConstraint) :=
  x ← (if _normal x && _normal y then add_out_words x (_in y) (_otherin y)
       else x ← extended x; i ← in_domain y; add_out_domain x i);
  normalize x.

(** [|=] and [&=] with a value and [<=] and [>=] with a number return whether they failed. *)
Definition negated (r : option (bool * FSetConstraint)) : option (bool * FSetConstraint) :=
  '(b, x) ← r; Some (negb b, x).

Definition op_card_le (x : FSetConstraint) (i : Z) : option (bool * FSetConstraint) :=
  negated (normalize (set_card x (_card_min x) (Z.min i (_card_max x)))).
Definition op_card_ge (x : FSetConstraint) (i : Z) : option (bool * FSetConstraint) :=
  negated (normalize (set_card x (Z.max i (_card_min x)) (_card_max x))).

Definition op_or_value (x : FSetConstraint) (y : FSetValue) : option (bool * FSetConstraint) :=
  x ← (if _normal x && FSetValue._normal y then add_in_words x (FSetValue._in y) (FSetValue._other y)
       else x ← extended x; i ← value_domain y; add_in_domain x i);
  negated (normalize x).

(** [neg] is the uninitialised result object of [-y]. *)
Definition op_and_value (neg : FSetValue) (x : FSetConstraint) (y : FSetValue) : option (bool * FSetConstraint) :=
  n ← FSetValue.op_neg neg y;
  x ← (if _normal x && FSetValue._normal n then add_out_words x (FSetValue._in n) (FSetValue._other n)
       else x ← extended x; o ← value_domain n; add_out_domain x o);
  negated (normalize x).

(** All elements at least (at most) [ii]. *)
Definition exclude_range (x : FSetConstraint) (l r : Z) : option FSetConstraint :=
  add_out_domain x (FiniteDomain.initRange FiniteDomain.initEmpty l r).

(** The same on the words of [_not_in]. *)
Definition exclude_below (o : list Z) (ii : Z) : option (list Z) :=
  let lower_word := div32 ii in let lower_bit := mod32 ii in
  o ← for_up 0 (Z.to_nat lower_word) (fun i o => o.[i <- not32 0]) o;
  m ← toTheUpperEnd.[lower_bit];
  w ← o.[lower_word];
  o.[lower_word <- Z.lor w (not32 m)].

Definition exclude_above (o : list Z) (ii : Z) : option (list Z) :=
  let upper_word := div32 ii in let upper_bit := mod32 ii in
  o ← for_up (upper_word + 1) (Z.to_nat (fset_high - (upper_word + 1))) (fun i o => o.[i <- not32 0]) o;
  m ← toTheLowerEnd.[upper_bit];
  w ← o.[upper_word];
  o.[upper_word <- Z.lor w (not32 m)].

Definition ge (x : FSetConstraint) (ii : Z) : option (bool * FSetConstraint) :=
  if ii =? 0 then normalize x
  else
    x ← (if _normal x then
           if ii <? 32 * fset_high then
             o ← exclude_below (_not_in x) ii;
             Some (set_bits x (_in x) o (_otherin x) (_otherout x))
           else
             x ← toExtended x;
             x ← exclude_range x 0 (Z.max (ii - 1) 0);
             '(_, x) ← maybeToNormal x; Some x
         else exclude_range x 0 (Z.max (ii - 1) 0));
    normalize x.

Definition le (x : FSetConstraint) (ii : Z) : option (bool * FSetConstraint) :=
  if ii =? fs_sup then normalize x
  else
    x ← (if _normal x then
           if ii <? 32 * fset_high then
             o ← exclude_above (_not_in x) ii;
             Some (set_bits x (_in x) o (_otherin x) true)
           else
             x ← toExtended x;
             x ← exclude_range x (Z.min fs_sup (ii + 1)) fs_sup;
             '(_, x) ← maybeToNormal x; Some x
         else exclude_range x (Z.min fs_sup (ii + 1)) fs_sup);
    normalize x.

(** ** Building *)

(** The four cases of a binary operator on the known elements: [z] is the result object, already
    initialised; [fi] and [fo] combine the words, [gi] and [go] the flags, [di] and [do'] the
    domains. *)
Section build.
Context (z : FSetConstraint).

Definition build_words (i o : option (list Z)) (oi oo : bool) : option FSetConstraint :=
  i ← i; o ← o; Some (set_bits z i o oi oo).
Definition build_domains (i o : option FiniteDomain) : option FSetConstraint :=
  i ← i; o ← o; z ← assign_in z i; assign_out z o.
End build.

(** The operators ignore what [normalize] returns. *)
Definition normalized (z : FSetConstraint) : option FSetConstraint := '(_, z) ← normalize z; Some z.

Definition unify (z x y : FSetConstraint) : option FSetConstraint :=
  z ← init z;
  let z := set_card z (Z.max (_card_min x) (_card_min y)) (Z.min (_card_max x) (_card_max y)) in
  if _card_max z <? _card_min z then Some (fail z)
  else
    z ← (if _normal x && _normal y then
           build_words z (words2 Z.lor (_in z) (_in x) (_in y)) (words2 Z.lor (_not_in z) (_not_in x) (_not_in y))
             (_otherin x || _otherin y) (_otherout x || _otherout y)
         else
           ix ← in_domain x; iy ← in_domain y; ox ← out_domain x; oy ← out_domain y;
           build_domains z (FiniteDomain.op_or ix iy) (FiniteDomain.op_or ox oy));
    normalized z.

Definition op_and (z x y : FSetConstraint) : option FSetConstraint :=
  z ← init z;
  if negb (isValid x) || negb (isValid y) then Some (fail z)
  else
    z ← (if _normal x && _normal y then
           build_words z (words2 Z.land (_in z) (_in x) (_in y)) (words2 Z.lor (_not_in z) (_not_in x) (_not_in y))
             (_otherin x && _otherin y) (_otherout x || _otherout y)
         else
           ix ← in_domain x; iy ← in_domain y; ox ← out_domain x; oy ← out_domain y;
           build_domains z (FiniteDomain.op_and ix iy) (FiniteDomain.op_or ox oy));
    normalized (set_card z 0 (Z.min (_card_max x) (_card_max y))).

Definition op_or (z x y : FSetConstraint) : option FSetConstraint :=
  z ← init z;
  if negb (isValid x) || negb (isValid y) then Some (fail z)
  else
    z ← (if _normal x && _normal y then
           build_words z (words2 Z.lor (_in z) (_in x) (_in y)) (words2 Z.land (_not_in z) (_not_in x) (_not_in y))
             (_otherin x || _otherin y) (_otherout x && _otherout y)
         else
           ix ← in_domain x; iy ← in_domain y; ox ← out_domain x; oy ← out_domain y;
           build_domains z (FiniteDomain.op_or ix iy) (FiniteDomain.op_and ox oy));
    normalized (set_card z (Z.max (_card_min x) (_card_min y)) (_card_max x + _card_max y)).

Definition op_difference (z x y : FSetConstraint) : option FSetConstraint :=
  z ← init z;
  if negb (isValid x) || negb (isValid y) then Some (fail z)
  else
    z ← (if _normal x && _normal y then
           build_words z (words2 Z.land (_in z) (_in x) (_not_in y)) (words2 Z.lor (_not_in z) (_not_in x) (_in y))
             (_otherin x && _otherout y) (_otherout x || _otherin y)
         else
           ix ← in_domain x; iy ← in_domain y; ox ← out_domain x; oy ← out_domain y;
           build_domains z (FiniteDomain.op_and ix oy) (FiniteDomain.op_or ox iy));
    normalized (set_card z 0 (_card_max x)).

Definition op_neg (z x : FSetConstraint) : option FSetConstraint :=
  z ← init z;
  if _card_min x =? -1 then Some (fail z)
  else
    z ← (if _normal x then
           build_words z (words1 (fun w => w) (_in z) (_not_in x)) (words1 (fun w => w) (_not_in z) (_in x))
             (_otherout x) (_otherin x)
         else build_domains z (Some (_OUT x)) (Some (_IN x)));
    normalized z.

(** ** Tests *)

(** [(a & ~b).getSize()] and [(a & b).getSize()], as truth values. *)
Definition meets_not (a b : FiniteDomain) : option bool :=
  n ← FiniteDomain.op_not b; d ← FiniteDomain.op_and a n; Some (negb (size d =? 0)).
Definition meets_dom (a b : FiniteDomain) : option bool :=
  d ← FiniteDomain.op_and a b; Some (negb (size d =? 0)).

(** The inner loops with two tests per word. *)
Definition any_words (p q : option bool) : option bool :=
  a ← p; b ← q; Some (a || b).
Definition diff_word (a b : Z) : bool := negb (Z.land a (not32 b) =? 0).
Definition meet_word (a b : Z) : bool := negb (Z.land a b =? 0).

Definition valid (x : FSetConstraint) (fs : FSetValue) : option bool :=
  if (FSetValue._card fs <? _card_min x) || (_card_max x <? FSetValue._card fs) then Some false
  else if _normal x && FSetValue._normal fs then
    if (_otherin x && negb (FSetValue._other fs)) || (FSetValue._other fs && _otherout x) then Some false
    else
      b ← any_words (any_word diff_word (_in x) (FSetValue._in fs)) (any_word meet_word (_not_in x) (FSetValue._in fs));
      Some (negb b)
  else
    i ← in_domain x; o ← out_domain x; v ← value_domain fs;
    b ← any_words (meets_not i v) (meets_dom o v); Some (negb b).

Definition isWeakerThan (x y : FSetConstraint) : bool :=
  (_known_in x <? _known_in y) || (_known_not_in x <? _known_not_in y) || (getCardSize y <? getCardSize x).

Definition isIn (x : FSetConstraint) (i : Z) : option bool :=
  if _normal x then
    if i <? 32 * fset_high then testBit (_in x) i else Some ((i <=? fs_sup) && _otherin x)
  else FiniteDomain.isIn (_IN x) i.
Definition isNotIn (x : FSetConstraint) (i : Z) : option bool :=
  if _normal x then
    if i <? 32 * fset_high then testBit (_not_in x) i else Some ((i <=? fs_sup) && _otherout x)
  else FiniteDomain.isIn (_OUT x) i.

Definition isEmpty (x : FSetConstraint) : bool := isValue x && (_card_min x =? 0).
Definition isFull (x : FSetConstraint) : bool := isValue x && (_card_min x =? fs_sup + 1).

Definition isSubsumedBy (x y : FSetConstraint) : option bool :=
  if isValue x then
    if _normal x && _normal y then
      if _otherin x && negb (_otherin y) then Some false
      else b ← any_word diff_word (_in x) (_in y); Some (negb b)
    else
      i ← in_domain x; j ← in_domain y; d ← FiniteDomain.op_and i j; Some (negb (size d <? _known_in x))
  else if isValue y then
    if _normal x && _normal y then
      if negb (_otherout x) && _otherout y then Some false
      else b ← any_word (fun a b => negb (Z.land (not32 a) b =? 0)) (_not_in x) (_not_in y); Some (negb b)
    else
      i ← out_domain x; j ← out_domain y;
      n ← FiniteDomain.op_not i; d ← FiniteDomain.op_and n j; Some (size d =? 0)
  else Some false.

(** [%]: the two sets cannot be equal. *)
Definition op_apart (x y : FSetConstraint) : option bool :=
  if (_card_max y <? _card_min x) || (_card_max x <? _card_min y) then Some true
  else if _normal x && _normal y then
    if (_otherin x && _otherout y) || (_otherout x && _otherin y) then Some true
    else any_words (any_word meet_word (_in x) (_not_in y)) (any_word meet_word (_not_in x) (_in y))
  else
    ix ← in_domain x; iy ← in_domain y; ox ← out_domain x; oy ← out_domain y;
    any_words (meets_dom ix oy) (meets_dom iy ox).

Definition op_eq (x y : FSetConstraint) : option bool :=
  if negb (_card_min x =? _card_min y) || negb (_card_max x =? _card_max y) ||
     negb (_known_not_in x =? _known_not_in y) || negb (_known_in x =? _known_in y) then Some false
  else if negb (Bool.eqb (_normal x) (_normal y)) then Some false
  else if _normal x then
    if negb (Bool.eqb (_otherin x) (_otherin y)) || negb (Bool.eqb (_otherout x) (_otherout y)) then Some false
    else
      b ← any_words (any_word (fun a b => negb (a =? b)) (_in x) (_in y))
                    (any_word (fun a b => negb (a =? b)) (_not_in x) (_not_in y));
      Some (negb b)
  else
    d ← FiniteDomain.op_and (_IN x) (_IN y);
    e ← FiniteDomain.op_and (_OUT x) (_OUT y);
    Some (negb (negb (size d =? _known_in x) || negb (size e =? _known_not_in x))).

(** ** Views *)

Definition getKnownInList (x : FSetConstraint) : option OZ_Term :=
  if _normal x then getAsList (_in x) false (_otherin x) else FiniteDomain.getAsList (_IN x).
Definition getKnownNotInList (x : FSetConstraint) : option OZ_Term :=
  if _normal x then getAsList (_not_in x) false (_otherout x) else FiniteDomain.getAsList (_OUT x).

(** [int unknown[fset_high]], [int lub[fset_high]]: local arrays. *)
Definition unknown_words (x : FSetConstraint) : option (list Z) :=
  words2 (fun a b => not32 (Z.lor a b)) [0; 0] (_in x) (_not_in x).
Definition lub_words (x : FSetConstraint) : option (list Z) := words1 not32 [0; 0] (_not_in x).
Definition unknown_domain (x : FSetConstraint) : option FiniteDomain :=
  u ← FiniteDomain.op_or (_IN x) (_OUT x); FiniteDomain.op_not u.

Definition getUnknownList (x : FSetConstraint) : option OZ_Term :=
  if _normal x then u ← unknown_words x; getAsList u false (negb (_otherin x || _otherout x))
  else d ← unknown_domain x; FiniteDomain.getAsList d.
Definition getLubList (x : FSetConstraint) : option OZ_Term :=
  if _normal x then getAsList (_not_in x) true (_otherout x)
  else d ← FiniteDomain.op_not (_OUT x); FiniteDomain.getAsList d.
Definition getCardTuple (x : FSetConstraint) : OZ_Term :=
  if _card_min x =? _card_max x then TInt (_card_min x) else oz_pairII (_card_min x) (_card_max x).

(** The values are built in [r], the uninitialised result object. *)
Definition getGlbSet (r : FSetValue) (x : FSetConstraint) : option FSetValue :=
  if _normal x then FSetValue.of_bits r (_in x) (_otherin x) else FSetValue.init_fd r (_IN x).
Definition getLubSet (r : FSetValue) (x : FSetConstraint) : option FSetValue :=
  if _normal x then w ← lub_words x; FSetValue.of_bits r w (negb (_otherout x))
  else d ← FiniteDomain.op_not (_OUT x); FSetValue.init_fd r d.
Definition getUnknownSet (r : FSetValue) (x : FSetConstraint) : option FSetValue :=
  if _normal x then w ← unknown_words x; FSetValue.of_bits r w (negb (_otherin x || _otherout x))
  else d ← unknown_domain x; FSetValue.init_fd r d.
Definition getNotInSet (r : FSetValue) (x : FSetConstraint) : option FSetValue :=
  if _normal x then FSetValue.of_bits r (_not_in x) (_otherout x) else FSetValue.init_fd r (_OUT x).

Definition getGlbCard (x : FSetConstraint) : option Z :=
  if _normal x then n ← findBitsSet fset_high (_in x); Some (n + (if _otherin x then size_of_other else 0))
  else Some (size (_IN x)).
Definition getLubCard (x : FSetConstraint) : option Z :=
  if _normal x then
    n ← findBitsSet fset_high (_not_in x); Some (fs_sup + 1 - n - (if _otherout x then size_of_other else 0))
  else Some (fs_sup - size (_OUT x)).
Definition getNotInCard (x : FSetConstraint) : option Z :=
  if _normal x then n ← findBitsSet fset_high (_not_in x); Some (n + (if _otherout x then size_of_other else 0))
  else Some (size (_OUT x)).
Definition getUnknownCard (x : FSetConstraint) : option Z :=
  if _normal x then
    n ← findBitsSet fset_high (_not_in x); m ← findBitsSet fset_high (_in x);
    Some (fs_sup - n - m - (if _otherout x || _otherin x then size_of_other else 0))
  else Some (fs_sup - size (_IN x) - size (_OUT x)).

Definition getGlbMinElem (r : FSetValue) (x : FSetConstraint) : option Z :=
  if negb (_normal x) then Some (min_elem (_IN x)) else s ← getGlbSet r x; Some (FSetValue.getMinElem s).
Definition getLubMinElem (r : FSetValue) (x : FSetConstraint) : option Z :=
  s ← getLubSet r x; Some (FSetValue.getMinElem s).
Definition getNotInMinElem (r : FSetValue) (x : FSetConstraint) : option Z :=
  if negb (_normal x) then Some (min_elem (_OUT x)) else s ← getNotInSet r x; Some (FSetValue.getMinElem s).
Definition getUnknownMinElem (r : FSetValue) (x : FSetConstraint) : option Z :=
  s ← getUnknownSet r x; Some (FSetValue.getMinElem s).

Definition getGlbMaxElem (r : FSetValue) (x : FSetConstraint) : option Z :=
  if negb (_normal x) then Some (max_elem (_IN x)) else s ← getGlbSet r x; Some (FSetValue.getMaxElem s).
Definition getLubMaxElem (r : FSetValue) (x : FSetConstraint) : option Z :=
  s ← getLubSet r x; Some (FSetValue.getMaxElem s).
Definition getNotInMaxElem (r : FSetValue) (x : FSetConstraint) : option Z :=
  if negb (_normal x) then Some (max_elem (_OUT x)) else s ← getNotInSet r x; Some (FSetValue.getMaxElem s).
Definition getUnknownMaxElem (r : FSetValue) (x : FSetConstraint) : option Z :=
  s ← getUnknownSet r x; Some (FSetValue.getMaxElem s).

Definition getGlbNextSmallerElem (r : FSetValue) (x : FSetConstraint) (i : Z) : option Z :=
  if negb (_normal x) then FiniteDomain.nextSmallerElem (_IN x) i
  else s ← getGlbSet r x; FSetValue.getNextSmallerElem s i.
Definition getLubNextSmallerElem (r : FSetValue) (x : FSetConstraint) (i : Z) : option Z :=
  s ← getLubSet r x; FSetValue.getNextSmallerElem s i.
(** In the extended case the code asks [_IN]. *)
Definition getNotInNextSmallerElem (r : FSetValue) (x : FSetConstraint) (i : Z) : option Z :=
  if negb (_normal x) then FiniteDomain.nextSmallerElem (_IN x) i
  else s ← getNotInSet r x; FSetValue.getNextSmallerElem s i.
Definition getUnknownNextSmallerElem (r : FSetValue) (x : FSetConstraint) (i : Z) : option Z :=
  s ← getUnknownSet r x; FSetValue.getNextSmallerElem s i.

Definition getGlbNextLargerElem (r : FSetValue) (x : FSetConstraint) (i : Z) : option Z :=
  if negb (_normal x) then FiniteDomain.nextLargerElem (_IN x) i
  else s ← getGlbSet r x; FSetValue.getNextLargerElem s i.
Definition getLubNextLargerElem (r : FSetValue) (x : FSetConstraint) (i : Z) : option Z :=
  s ← getLubSet r x; FSetValue.getNextLargerElem s i.
Definition getNotInNextLargerElem (r : FSetValue) (x : FSetConstraint) (i : Z) : option Z :=
  if negb (_normal x) then FiniteDomain.nextLargerElem (_OUT x) i
  else s ← getNotInSet r x; FSetValue.getNextLargerElem s i.
Definition getUnknownNextLargerElem (r : FSetValue) (x : FSetConstraint) (i : Z) : option Z :=
  s ← getUnknownSet r x; FSetValue.getNextLargerElem s i.
End operations.
End FSetOperators.
