(* ===== verification/FSetNormalize.v ===== *)
(** * Finite set constraints: representations and normalisation

    [cholds c I O]: the constraint [c] knows the elements of [I] to be in the set and those of
    [O] not to be in it.  Its solutions are the sets between [I] and the complement of [O]
    whose cardinality is within the bounds.  [normalize] finds out whether there is any, and
    if so tightens what is known without losing one. *)
From S2P Require Import Prelude Word32 FDBase FDIntervals FDBitVector Sort FiniteDomain FDRepr FDQueries FDOperators FDSetOperators FDDescr FSetBits FSetValue FSetValueSpec FSetValueOps FSetValueQueries FSetConstraint FSetOperators.
Import FDRepr FDQueries FDOperators FDSetOperators FDDescr FSetBits FSetValueSpec FSetValueOps FSetValueQueries FSetConstraint FSetOperators.

Module FSetNormalize.

(** The two sides of a constraint, seen as values. *)
Definition in_part (c : FSetConstraint) : FSetValue := FSetValue.FSV 0 (_otherin c) (_IN c) (_normal c) (_in c).
Definition out_part (c : FSetConstraint) : FSetValue := FSetValue.FSV 0 (_otherout c) (_OUT c) (_normal c) (_not_in c).

Definition cholds `{FDEnv} (c : FSetConstraint) (I O : Z -> bool) : Prop :=
  holds (in_part c) I /\ holds (out_part c) O.

(** The sets that satisfy a constraint with known elements [I] and [O] and bounds [a] and [b]. *)
Definition sol (I O : Z -> bool) (a b : Z) (S : Z -> bool) : Prop :=
  (forall v, I v = true -> S v = true) /\ (forall v, S v = true -> O v = false) /\
  (forall v, S v = true -> 0 <= v <= fs_sup) /\ a <= card S <= b.

Definition solves `{FDEnv} (c : FSetConstraint) (S : Z -> bool) : Prop :=
  exists I O, cholds c I O /\ sol I O (_card_min c) (_card_max c) S.

(** What a successful [normalize] establishes. *)
Definition tight `{FDEnv} (c : FSetConstraint) (I O : Z -> bool) : Prop :=
  cholds c I O /\ (forall v, I v && O v = false) /\
  _known_in c = card I /\ _known_not_in c = card O /\
  card I <= _card_min c /\ _card_min c <= _card_max c /\ _card_max c <= fs_sup + 1 - card O.

(** Nothing more can be concluded: if the bounds leave no choice, both sides are known. *)
Definition settled `{FDEnv} (c : FSetConstraint) (I O : Z -> bool) : Prop :=
  tight c I O /\
  (_card_max c = card I -> forall v, O v = not_set I v) /\
  (_card_min c = fs_sup + 1 - card O -> forall v, I v = not_set O v).

(** The result of a narrowing operator: [true] and a settled constraint with the solutions [X], or
    [false] and an invalid constraint, and then [X] has no solutions. *)
Definition narrows `{FDEnv} (r : option (bool * FSetConstraint)) (X : (Z -> bool) -> Prop) : Prop :=
  exists ok c, r = Some (ok, c) /\
    if ok : bool then exists I O, settled c I O /\ forall S, sol I O (_card_min c) (_card_max c) S <-> X S
    else isValid c = false /\ forall S, ~ X S.

Section representations.
Context `{FDEnv} (Hg : globals_ok fd_env).
Implicit Types (c x y z : FSetConstraint) (P Q I O S : Z -> bool).

Lemma cholds_rooms c I O : cholds c I O -> room (_in c) /\ room (_not_in c).
Proof using. intros [[? _] [? _]]. done. Qed.

Lemma cholds_extended c I O : cholds c I O -> _normal c = false -> repr (_IN c) I /\ repr (_OUT c) O.
Proof using. intros [[_ Hi] [_ Ho]] Hn. simpl in *. by rewrite Hn in Hi, Ho. Qed.

Lemma cholds_normal c I O :
  cholds c I O -> _normal c = true ->
  (bits_ok (_in c) /\ forall v, bits_mem (_in c) (_otherin c) v = I v) /\
  (bits_ok (_not_in c) /\ forall v, bits_mem (_not_in c) (_otherout c) v = O v).
Proof using.
  intros [Hi Ho] Hn. split; [by apply (holds_normal (in_part c))|by apply (holds_normal (out_part c))].
Qed.

Lemma cholds_range c I O v : cholds c I O -> (I v = true -> 0 <= v <= fs_sup) /\ (O v = true -> 0 <= v <= fs_sup).
Proof using. intros [Hi Ho]. split; [by apply (holds_range (in_part c))|by apply (holds_range (out_part c))]. Qed.

Lemma cholds_ext c I O I' O' : (forall v, I v = I' v) -> (forall v, O v = O' v) -> cholds c I O -> cholds c I' O'.
Proof using. intros HI HO [Hi Ho]. split; [by apply (holds_ext _ I)|by apply (holds_ext _ O)]. Qed.

(** What a constraint knows is determined by its fields. *)
Lemma holds_unique (s : FSetValue) P Q v : holds s P -> holds s Q -> P v = Q v.
Proof using.
  intros [_ HP] [_ HQ]. destruct (FSetValue._normal s).
  - destruct HP as [_ HP], HQ as [_ HQ]. by rewrite <- HP, <- HQ.
  - destruct HP as [_ HP], HQ as [_ HQ]. by rewrite <- HP, <- HQ.
Qed.

Lemma sol_ext I O I' O' a b S :
  (forall v, I v = I' v) -> (forall v, O v = O' v) -> sol I O a b S -> sol I' O' a b S.
Proof using.
  intros HI HO (H1 & H2 & H3). split; [intros v; rewrite <- HI; apply H1|].
  split; [intros v; rewrite <- HO; apply H2|done].
Qed.

Lemma solves_sol c I O S : cholds c I O -> solves c S <-> sol I O (_card_min c) (_card_max c) S.
Proof using.
  intros Hc. split; [|by exists I, O]. intros (I' & O' & Hc' & Hs).
  eapply sol_ext; [| |exact Hs]; intros v; [apply (holds_unique (in_part c))|apply (holds_unique (out_part c))];
    try apply Hc; apply Hc'.
Qed.

(** ** From domains to words *)

Lemma toNormal_cholds c I O :
  _normal c = false -> cholds c I O -> uniform I -> uniform O ->
  exists c', toNormal c = Some c' /\ cholds c' I O /\ _normal c' = true /\
    _card_min c' = _card_min c /\ _card_max c' = _card_max c /\ _known_in c' = _known_in c /\ _known_not_in c' = _known_not_in c.
Proof using Hg.
  intros Hn Hc HuI HuO. destruct (cholds_extended c I O Hc Hn) as [Ri Ro]. destruct (cholds_rooms c I O Hc) as [Hi Ho].
  unfold toNormal. rewrite Hn, (fill_words_spec _ _ Hi), (fill_words_spec _ _ Ho). ored. destruct zeros_ok as [Hz Hzm].
  match goal with |- context [for_up 0 ?n ?f ?s] =>
    destruct (for_up_inv (fun v (p : list Z * list Z) => 0 <= v <= 64 /\ bits_ok p.1 /\ bits_ok p.2 /\
      (forall u, words_mem p.1 u = (u <? v) && I u) /\ (forall u, words_mem p.2 u = (u <? v) && O u)) 0 n f s)
      as ([i o] & -> & _ & Hbi & Hbo & Hmi & Hmo) end.
  - split_and!; try done; try lia; intros u; simpl; rewrite Hzm; [destruct (I u) eqn:E|destruct (O u) eqn:E];
      try (apply (cholds_range c I O u Hc) in E); lia.
  - change (Z.of_nat (Z.to_nat (32 * fset_high))) with 64. intros v [i o] Hv (_ & Hbi & Hbo & Hmi & Hmo). simpl in *.
    assert (forall P w b, bits_ok w -> (forall u, words_mem w u = (u <? v) && P u) -> b = P v ->
      exists w', (if b : bool then setBit w v else Some w) = Some w' /\ bits_ok w' /\ forall u, words_mem w' u = (u <? v + 1) && P u) as Hstep.
    { intros P w b Hb Hm ->. destruct (P v) eqn:E.
      - destruct (fs_setBit_spec w v Hb) as (w' & -> & Hb' & Hm'); [unfold fset_high; lia|]. exists w'. split_and!; try done.
        intros u. rewrite Hm', Hm. destruct (Z.eqb_spec u v) as [->|]; [rewrite E; lia|]. destruct (P u); lia.
      - exists w. split_and!; try done. intros u. rewrite Hm. destruct (Z.eq_dec u v) as [->|]; [rewrite E; lia|]. destruct (P u); lia. }
    rewrite (isIn_repr _ I Ri). ored. destruct (Hstep I i (I v) Hbi Hmi eq_refl) as (i' & -> & Hbi' & Hmi'). ored.
    rewrite (isIn_repr _ O Ro). ored. destruct (Hstep O o (O v) Hbo Hmo eq_refl) as (o' & -> & Hbo' & Hmo'). ored.
    exists (i', o'). split_and!; try done; lia.
  - change (0 + Z.of_nat (Z.to_nat (32 * fset_high))) with 64 in *. change (32 * fset_high) with 64. ored. simpl in *.
    destruct (upper_run Hg _ I Ri) as (u & -> & Hu), (upper_run Hg _ O Ro) as (w & -> & Hw). ored.
    eexists; split; [done|]. split; [|done].
    assert (forall P t, uniform P -> (t = true <-> forall v, 64 <= v <= fs_sup -> P v = true) -> forall v, 64 <= v <= fs_sup -> P v = t) as Hup.
    { intros P t HP Ht v Hv. destruct t; [by apply Ht|]. destruct (P v) eqn:E; [|done].
      assert (false = true) as Hf; [|done]. apply Ht. intros q Hq. rewrite (HP q Hq), <- (HP v Hv). done. }
    split; apply normal_holds; try done; simpl.
    + intros v. apply (cholds_range c I O v Hc).
    + by apply Hup.
    + intros v. apply (cholds_range c I O v Hc).
    + by apply Hup.
Qed.

Lemma no_hole_uniform d P :
  repr d P -> exists h, hole_above d = Some h /\ (above_words d = false -> h = false -> uniform P).
Proof using Hg.
  intros Hd. unfold hole_above, above_words. change (32 * fset_high) with 64.
  destruct (lower_run Hg d P Hd) as (l & -> & L1 & L2 & L3). ored. eexists; split; [done|].
  intros Ha Hh v Hv. destruct (P fs_sup) eqn:Es.
  - destruct (repr_bounds d P fs_sup Hd Es) as [Hsz _]. destruct (repr_elim d P Hd Hsz) as (_ & _ & _ & _ & _ & H6 & _).
    specialize (H6 _ Es). assert ((64 <? l) = false) as El by (unfold fs_sup in *; lia).
    by rewrite !L1 by (done || (unfold fs_sup in *; lia)).
  - assert (forall w, 64 <= w <= fs_sup -> P w = false) as Hno; [|rewrite !Hno by (unfold fs_sup in *; lia); done].
    intros w Hw. destruct (P w) eqn:E; [|done]. destruct (repr_bounds d P w Hd E) as [Hsz _].
    destruct (repr_elim d P Hd Hsz) as (_ & _ & H3 & _ & H5 & H6 & _). specialize (H6 _ E). rewrite <- fs_sup_fd in H3.
    assert (max_elem d = fs_sup) as Em by lia. rewrite Em in H5. congruence.
Qed.

Lemma maybeToNormal_cholds c I O :
  _normal c = false -> cholds c I O ->
  exists b c', maybeToNormal c = Some (b, c') /\ cholds c' I O /\
    _card_min c' = _card_min c /\ _card_max c' = _card_max c /\ _known_in c' = _known_in c /\ _known_not_in c' = _known_not_in c.
Proof using Hg.
  intros Hn Hc. destruct (cholds_extended c I O Hc Hn) as [Ri Ro]. unfold maybeToNormal. rewrite Hn.
  destruct (above_words (_IN c)) eqn:Ai; [by exists false, c|]. destruct (above_words (_OUT c)) eqn:Ao; [by exists false, c|].
  cbn [orb]. destruct (no_hole_uniform _ I Ri) as (h & -> & Hh), (no_hole_uniform _ O Ro) as (k & -> & Hk). ored.
  destruct h; [by exists false, c|]. destruct k; [by exists false, c|]. cbn [orb].
  destruct (toNormal_cholds c I O Hn Hc) as (c' & -> & Hc' & _ & ?); [by apply Hh|by apply Hk|]. ored. by exists true, c'.
Qed.

(** ** From words to domains *)

Lemma toExtended_cholds c I O :
  _normal c = true -> cholds c I O ->
  exists c', toExtended c = Some c' /\ cholds c' I O /\ _normal c' = false /\
    _card_min c' = _card_min c /\ _card_max c' = _card_max c /\ _known_in c' = _known_in c /\ _known_not_in c' = _known_not_in c.
Proof using Hg.
  intros Hn Hc. destruct (cholds_normal c I O Hc Hn) as [[Bi Mi] [Bo Mo]]. destruct (cholds_rooms c I O Hc) as [Hri Hro].
  unfold toExtended. rewrite Hn.
  set (part (w : list Z) (oth : bool) (v u : Z) := (oth && (64 <=? u) && (u <=? fs_sup)) || ((u <? v) && (u <? 64) && words_mem w u)).
  assert (forall d w oth, bits_ok w ->
    repr (if oth : bool then FiniteDomain.initRange d (32 * fset_high) fs_sup else FiniteDomain.initEmpty) (part w oth 0)) as Hinit.
  { intros d w oth Hw. unfold part. destruct oth.
    - apply initRange_repr. intros v. rewrite fs_sup_fd. change (32 * fset_high) with 64.
      destruct (Z.ltb_spec v 0); cbn [andb]; [rewrite words_mem_out by lia; lia|]. rewrite orb_false_r. lia.
    - apply repr_initEmpty. intros v. destruct (Z.ltb_spec v 0); cbn [andb orb]; [|done]. rewrite words_mem_out by lia.
      by rewrite andb_false_r. }
  assert (forall d w oth v, bits_ok w -> 0 <= v < 64 -> repr d (part w oth v) ->
    exists d', (if words_mem w v then FiniteDomain.op_plus_int d v else Some d) = Some d' /\ repr d' (part w oth (v + 1))) as Hstep.
  { intros d w oth v Hw Hv Hd. unfold part in *. destruct (words_mem w v) eqn:E.
    - destruct (op_plus_int_repr Hg d _ v Hd) as (d' & -> & Hd'). exists d'. split; [done|].
      eapply repr_ext; [|exact Hd']. intros u. cbn beta. destruct (Z.eqb_spec u v) as [->|]; [rewrite E; unfold fd_sup; lia|].
      destruct (words_mem w u); lia.
    - exists d. split; [done|]. eapply repr_ext; [|exact Hd]. intros u. cbn beta.
      destruct (Z.eqb_spec u v) as [->|]; [rewrite E; lia|]. destruct (words_mem w u); lia. }
  cbv zeta. match goal with |- context [for_up 0 ?n ?f ?s] =>
    destruct (for_up_inv (fun v (p : FiniteDomain * FiniteDomain) =>
      repr p.1 (part (_in c) (_otherin c) v) /\ repr p.2 (part (_not_in c) (_otherout c) v)) 0 n f s)
      as ([i o] & -> & Hi & Ho) end.
  - split; by apply Hinit.
  - change (Z.of_nat (Z.to_nat (32 * fset_high))) with 64. intros v [i o] Hv [Hi Ho]. simpl in *.
    rewrite !fs_testBit_spec by done. change (32 * fset_high) with 64. rewrite (proj2 (Z.ltb_lt v 64)) by lia. cbn [andb]. ored.
    destruct (Hstep i _ _ v Bi ltac:(lia) Hi) as (i' & -> & Hi'). ored.
    destruct (Hstep o _ _ v Bo ltac:(lia) Ho) as (o' & -> & Ho'). ored. by exists (i', o').
  - change (0 + Z.of_nat (Z.to_nat (32 * fset_high))) with 64 in *. ored. simpl in *. eexists; split; [done|]. split; [|done].
    assert (forall w oth P, bits_ok w -> (forall v, bits_mem w oth v = P v) -> forall u, part w oth 64 u = P u) as Hall.
    { intros w oth P Hw HP u. rewrite <- HP. unfold part, bits_mem, fset_high.
      destruct (Z.leb_spec 64 u), (Z.ltb_spec u 64), (Z.ltb_spec u (32 * 2)); try lia; by destruct oth, (u <=? fs_sup), (words_mem w u). }
    split; (split; [done|]); simpl.
    + by apply (repr_ext _ (part (_in c) (_otherin c) 64)); [apply Hall|].
    + by apply (repr_ext _ (part (_not_in c) (_otherout c) 64)); [apply Hall|].
Qed.

Lemma extended_cholds c I O :
  cholds c I O -> exists c', extended c = Some c' /\ cholds c' I O /\ _normal c' = false /\
    _card_min c' = _card_min c /\ _card_max c' = _card_max c /\ _known_in c' = _known_in c /\ _known_not_in c' = _known_not_in c.
Proof using Hg.
  intros Hc. unfold extended. destruct (_normal c) eqn:Hn; [by apply toExtended_cholds|by exists c].
Qed.

Lemma in_domain_repr c I O : cholds c I O -> exists d, in_domain c = Some d /\ repr d I.
Proof using Hg.
  intros Hc. unfold in_domain. destruct (_normal c) eqn:Hn.
  - destruct (cholds_normal c I O Hc Hn) as [[Bi Mi] _]. destruct (set_Aux_spec Hg FiniteDomain.initEmpty _ (_otherin c) Bi) as (d & -> & Hd).
    exists d. split; [done|]. by apply (repr_ext _ _ _ Mi).
  - exists (_IN c). split; [done|]. by apply (cholds_extended c I O).
Qed.

Lemma out_domain_repr c I O : cholds c I O -> exists d, out_domain c = Some d /\ repr d O.
Proof using Hg.
  intros Hc. unfold out_domain. destruct (_normal c) eqn:Hn.
  - destruct (cholds_normal c I O Hc Hn) as [_ [Bo Mo]]. destruct (set_Aux_spec Hg FiniteDomain.initEmpty _ (_otherout c) Bo) as (d & -> & Hd).
    exists d. split; [done|]. by apply (repr_ext _ _ _ Mo).
  - exists (_OUT c). split; [done|]. by apply (cholds_extended c I O).
Qed.
(** ** Counting solutions *)

Lemma card_universe : fd_full_size = fs_sup + 1.
Proof using. done. Qed.

Lemma card_not_set O : (forall v, O v = true -> 0 <= v <= fs_sup) -> card (not_set O) = fs_sup + 1 - card O.
Proof using. intros HO. unfold not_set. rewrite card_not by (intros v; rewrite <- fs_sup_fd; apply HO). by rewrite card_universe. Qed.

(** Between a set and a superset there is one of every intermediate cardinality. *)
Lemma card_between P U k :
  (forall v, P v = true -> U v = true) -> (forall v, U v = true -> 0 <= v <= fs_sup) -> card P <= k <= card U ->
  exists S, (forall v, P v = true -> S v = true) /\ (forall v, S v = true -> U v = true) /\ card S = k.
Proof using.
  intros HPU HU Hk. set (part t v := P v || (U v && (v <? t))).
  assert (forall t, 0 <= t -> k <= card (part t) -> exists t', card (part t') = k) as Hivt.
  { apply (natlike_ind (fun t => k <= card (part t) -> exists t', card (part t') = k)).
    - intros Hk0. exists 0. assert (card (part 0) = card P) as E; [|lia]. apply card_ext. intros v. unfold part.
      destruct (U v) eqn:EU; [apply HU in EU; lia|]. apply orb_false_r.
    - intros t Ht IH Hkt. destruct (Z.le_gt_cases k (card (part t))) as [Hle|Hgt]; [by apply IH|]. exists (Z.succ t).
      pose proof (card_point (part (Z.succ t)) (part t) t) as Hp.
      assert (forall v, v <> t -> part (Z.succ t) v = part t v) as Hext.
      { intros v Hv. unfold part. f_equal. f_equal. lia. }
      destruct (Z.le_gt_cases t fd_sup); [specialize (Hp ltac:(lia) Hext)|].
      2:{ rewrite (card_ext (part (Z.succ t)) (part t)) in Hkt; [lia|]. intros v.
          destruct (Z.eq_dec v t) as [->|]; [|by apply Hext]. unfold part. f_equal. destruct (U t) eqn:EU; [|done].
          apply HU in EU. rewrite fs_sup_fd in EU. lia. }
      destruct (part (Z.succ t) t), (part t t); simpl in Hp; lia. }
  destruct (Hivt (fs_sup + 1)) as (t & Et); [done| |].
  - assert (card (part (fs_sup + 1)) = card U) as ->; [|lia]. apply card_ext. intros v. unfold part.
    destruct (U v) eqn:EU; [apply HU in EU; by rewrite (proj2 (Z.ltb_lt v (fs_sup + 1))), orb_true_r by lia|].
    rewrite orb_false_r. destruct (P v) eqn:EP; [|done]. by rewrite (HPU v EP) in EU.
  - exists (part t). split; [|split; [|done]].
    + intros v Hv. unfold part. by rewrite Hv.
    + intros v. unfold part. destruct (P v) eqn:EP; [intros _; by apply HPU|]. cbn [orb]. by destruct (U v).
Qed.

Lemma sol_card I O a b S :
  (forall v, O v = true -> 0 <= v <= fs_sup) -> sol I O a b S -> card I <= card S <= fs_sup + 1 - card O.
Proof using.
  intros HO (H1 & H2 & H3 & _). split; [by apply card_mono|]. rewrite <- card_not_set by done. apply card_mono.
  intros v Hv. unfold not_set. rewrite (H2 v Hv), <- fs_sup_fd. apply H3 in Hv. lia.
Qed.

Lemma tight_range c I O : tight c I O -> (forall v, I v = true -> 0 <= v <= fs_sup) /\ (forall v, O v = true -> 0 <= v <= fs_sup).
Proof using. intros [Hc _]. split; intros v; apply (cholds_range c I O v Hc). Qed.

Lemma tight_solvable c I O : tight c I O -> exists S, sol I O (_card_min c) (_card_max c) S.
Proof using.
  intros Ht. destruct (tight_range c I O Ht) as [HI HO]. destruct Ht as (Hc & Hd & _ & _ & H1 & H2 & H3).
  destruct (card_between I (not_set O) (_card_min c)) as (S & S1 & S2 & S3).
  - intros v Hv. unfold not_set. specialize (Hd v). rewrite Hv in Hd. apply HI in Hv. rewrite <- fs_sup_fd. destruct (O v); [done|lia].
  - intros v. unfold not_set. rewrite fs_sup_fd. lia.
  - rewrite card_not_set by done. lia.
  - exists S. split; [done|]. split; [|split; [|lia]]; intros v Hv%S2; unfold not_set in Hv; [by destruct (O v); [lia|]|rewrite fs_sup_fd; lia].
Qed.

(** ** The steps of [normalize] *)

Lemma clash_spec c I O :
  cholds c I O -> exists k, clash c = Some k /\ (k = true <-> exists v, I v && O v = true).
Proof using Hg.
  intros Hc. unfold clash. destruct (_normal c) eqn:Hn.
  - destruct (cholds_normal c I O Hc Hn) as [[Bi Mi] [Bo Mo]]. destruct (_otherin c && _otherout c) eqn:Eo.
    + exists true. split; [done|]. split; [|done]. intros _. exists 64. rewrite <- Mi, <- Mo. apply andb_true_iff in Eo as [-> ->]. done.
    + destruct (any_word_spec _ andb _ _ (test_nonzero _ _ land_op2) Bi Bo) as (k & -> & Hk). exists k. split; [done|]. rewrite Hk.
      setoid_rewrite <- Mi. setoid_rewrite <- Mo. unfold bits_mem, fset_high. split.
      * intros (v & Hv & E). exists v. by rewrite (proj2 (Z.ltb_lt v (32 * 2))) by lia.
      * intros (v & E). destruct (Z.ltb_spec v (32 * 2)) as [Hlt|Hge].
        -- exists v. split; [|done]. destruct (decide (0 <= v)); [lia|]. rewrite words_mem_out in E by lia. done.
        -- destruct (_otherin c), (_otherout c), (v <=? fs_sup); done.
  - destruct (cholds_extended c I O Hc Hn) as [Ri Ro]. destruct (op_and_repr Hg _ _ I O Ri Ro) as (d & -> & Hd). ored.
    eexists; split; [done|]. rewrite (repr_card _ _ Hd), negb_true_iff, Z.eqb_neq. split.
    + intros Hne. apply card_pos_inv. pose proof (card_nonneg (fun v => I v && O v)). lia.
    + intros (v & E). pose proof (card_pos (fun v => I v && O v) v) as Hp. cbn beta in Hp.
      assert (0 <= v <= fd_sup) as Hr by (apply andb_true_iff in E as [E' _]; exact (proj2 (repr_bounds _ I v Ri E'))). specialize (Hp Hr E). lia.
Qed.

Lemma count_known_spec c I O :
  cholds c I O -> exists c', count_known c = Some c' /\ cholds c' I O /\
    _card_min c' = _card_min c /\ _card_max c' = _card_max c /\ _known_in c' = card I /\ _known_not_in c' = card O.
Proof using.
  intros Hc. unfold count_known. destruct (_normal c) eqn:Hn.
  - destruct (cholds_normal c I O Hc Hn) as [[Bi Mi] [Bo Mo]].
    destruct (card_bits _ (_otherin c) Bi) as (i & -> & Hi), (card_bits _ (_otherout c) Bo) as (o & -> & Ho). ored.
    eexists; split; [done|]. split; [exact Hc|]. split_and!; try done; cbn [_known_in _known_not_in set_known].
    + rewrite <- (card_ext _ _ Mi), Hi. destruct (_otherin c); lia.
    + rewrite <- (card_ext _ _ Mo), Ho. destruct (_otherout c); lia.
  - destruct (cholds_extended c I O Hc Hn) as [Ri Ro]. eexists; split; [done|].
    split; [exact Hc|]. split_and!; try done; by apply repr_card.
Qed.
(** Replacing one side by the complement of the other, in the representation the constraint has. *)
Lemma not_words_holds w (oth : bool) dst P d :
  room dst -> bits_ok w -> (forall v, bits_mem w oth v = P v) ->
  exists w', words1 not32 dst w = Some w' /\ holds (FSetValue.FSV 0 (negb oth) d true w') (not_set P).
Proof using.
  intros Hd Hw HP. destruct (words1_not dst w Hd Hw) as (w' & E & Hw' & Hm). exists w'. split; [done|].
  split; [apply Hw'|]. split; [apply Hw'|]. intros v. cbn. rewrite (bits_not w' w oth v Hm). unfold not_set. by rewrite HP.
Qed.

Lemma not_not_set P v : (forall v, P v = true -> 0 <= v <= fs_sup) -> not_set (not_set P) v = P v.
Proof using.
  intros HP. unfold not_set. rewrite <- fs_sup_fd. destruct (P v) eqn:E; [apply HP in E; lia|].
  destruct (Z.leb_spec 0 v), (Z.leb_spec v fs_sup); done.
Qed.

(** A solution with as many elements as are known to be in consists of them. *)
Lemma sol_exact I S :
  (forall v, I v = true -> S v = true) -> (forall v, S v = true -> 0 <= v <= fs_sup) -> card S <= card I -> forall v, S v = I v.
Proof using.
  intros HIS HS Hc v. destruct (I v) eqn:EI; [by apply HIS|]. destruct (S v) eqn:ES; [|done].
  assert (card (fun u => S u && I u) = card S) as Heq.
  { transitivity (card I).
    - apply card_ext. intros u. destruct (I u) eqn:EU; [by rewrite HIS|apply andb_false_r].
    - pose proof (card_mono I S HIS). lia. }
  rewrite <- EI. symmetry. apply (card_sub S I); [|done|done]. intros u Hu. rewrite <- fs_sup_fd. by apply HS.
Qed.

Lemma close_out_spec c I O :
  tight c I O -> _card_max c = _known_in c ->
  exists c', close_out c = Some c' /\ tight c' I (not_set I) /\
    forall S, sol I (not_set I) (_card_min c') (_card_max c') S <-> sol I O (_card_min c) (_card_max c) S.
Proof using Hg.
  intros Ht Hmax. destruct (tight_range c I O Ht) as [HI HO]. pose proof Ht as (Hc & Hd & Hki & Hko & H1 & H2 & H3).
  destruct (cholds_rooms c I O Hc) as [_ Hro].
  assert (exists c', close_out c = Some c' /\ cholds c' I (not_set I) /\ _card_min c' = card I /\ _card_max c' = card I /\
    _known_in c' = card I /\ _known_not_in c' = card (not_set I)) as (c' & E & Hc' & E1 & E2 & E3 & E4).
  { rewrite card_not_set by done. unfold close_out. cbn [_normal set_card set_known]. destruct (_normal c) eqn:Hn.
    - destruct (cholds_normal c I O Hc Hn) as [[Bi Mi] _]. cbn [_not_in _in _otherin set_card set_known].
      destruct (not_words_holds (_in c) (_otherin c) (_not_in c) I (_OUT c) Hro Bi Mi) as (w & -> & Hw). ored.
      eexists; split; [done|]. split; [|cbn; split_and!; lia]. split; [|exact Hw].
      split; [apply Bi|]. split; [apply Bi|exact Mi].
    - destruct (cholds_extended c I O Hc Hn) as [Ri Ro]. cbn [_IN set_card set_known].
      destruct (op_not_repr Hg _ I Ri) as (d & -> & Hd'). ored. unfold assign_out. rewrite (assign_repr Hg _ d _ Hd'). ored.
      match goal with |- context [maybeToNormal ?c0] => destruct (maybeToNormal_cholds c0 I (not_set I)) as (b & c' & -> & Hc' & F1 & F2 & F3 & F4) end;
        [done|split; (split; [apply (cholds_rooms c I O Hc)|])|].
      + exact Ri.
      + exact Hd'.
      + ored. exists c'. split; [done|]. split; [done|]. rewrite F1, F2, F3, F4. cbn. split_and!; lia. }
  exists c'. split; [done|]. split.
  - split; [done|]. rewrite E1, E2, E3, E4, card_not_set by done. split_and!; try lia.
    intros v. unfold not_set. destruct (I v); [lia|done].
  - intros S. rewrite E1, E2. split.
    + intros (S1 & S2 & S3 & S4). pose proof (sol_exact I S S1 S3 ltac:(lia)) as Heq. split; [done|]. split; [|split; [done|lia]].
      intros v Hv. rewrite Heq in Hv. specialize (Hd v). by rewrite Hv in Hd.
    + intros (S1 & S2 & S3 & S4). pose proof (sol_exact I S S1 S3 ltac:(lia)) as Heq. pose proof (card_ext S I Heq).
      split; [done|]. split; [|split; [done|lia]]. intros v Hv. unfold not_set. rewrite Heq in Hv. rewrite Hv. lia.
Qed.

Lemma close_in_spec c I O :
  tight c I O -> _card_min c = fs_sup - _known_not_in c + 1 ->
  exists c', close_in c = Some c' /\ tight c' (not_set O) O /\
    forall S, sol (not_set O) O (_card_min c') (_card_max c') S <-> sol I O (_card_min c) (_card_max c) S.
Proof using Hg.
  intros Ht Hmin. destruct (tight_range c I O Ht) as [HI HO]. pose proof Ht as (Hc & Hd & Hki & Hko & H1 & H2 & H3).
  destruct (cholds_rooms c I O Hc) as [Hri _]. pose proof (card_not_set O HO) as Hcn.
  assert (exists c', close_in c = Some c' /\ cholds c' (not_set O) O /\ _card_min c' = card (not_set O) /\ _card_max c' = card (not_set O) /\
    _known_in c' = card (not_set O) /\ _known_not_in c' = card O) as (c' & E & Hc' & E1 & E2 & E3 & E4).
  { unfold close_in. cbn [_normal set_card set_known]. destruct (_normal c) eqn:Hn.
    - destruct (cholds_normal c I O Hc Hn) as [_ [Bo Mo]]. cbn [_not_in _in _otherout set_card set_known].
      destruct (not_words_holds (_not_in c) (_otherout c) (_in c) O (_IN c) Hri Bo Mo) as (w & -> & Hw). ored.
      eexists; split; [done|]. split; [|cbn; split_and!; lia]. split; [exact Hw|].
      split; [apply Bo|]. split; [apply Bo|exact Mo].
    - destruct (cholds_extended c I O Hc Hn) as [Ri Ro]. cbn [_OUT set_card set_known].
      destruct (op_not_repr Hg _ O Ro) as (d & -> & Hd'). ored. unfold assign_in. rewrite (assign_repr Hg _ d _ Hd'). ored.
      match goal with |- context [maybeToNormal ?c0] => destruct (maybeToNormal_cholds c0 (not_set O) O) as (b & c' & -> & Hc' & F1 & F2 & F3 & F4) end;
        [done|split; (split; [apply (cholds_rooms c I O Hc)|])|].
      + exact Hd'.
      + exact Ro.
      + ored. exists c'. split; [done|]. split; [done|]. rewrite F1, F2, F3, F4. cbn. split_and!; lia. }
  exists c'. split; [done|]. split.
  - split; [done|]. rewrite E1, E2, E3, E4. split_and!; try lia. intros v. unfold not_set. destruct (O v); [lia|lia].
  - assert (forall S, (forall v, S v = true -> O v = false) -> (forall v, S v = true -> 0 <= v <= fs_sup) ->
      card (not_set O) <= card S -> forall v, not_set O v = S v) as Hex.
    { intros S S2 S3 Hle. apply (sol_exact S (not_set O)); [|intros v; unfold not_set; rewrite fs_sup_fd; lia|done].
      intros v Hv. unfold not_set. rewrite (S2 v Hv), <- fs_sup_fd. apply S3 in Hv. lia. }
    intros S. rewrite E1, E2. split; intros (S1 & S2 & S3 & S4); pose proof (Hex S S2 S3 ltac:(lia)) as Heq;
      pose proof (card_ext _ _ Heq); (split; [|split; [done|split; [done|lia]]]).
    + intros v Hv. rewrite <- Heq. specialize (Hd v). rewrite Hv in Hd. apply HI in Hv. unfold not_set. rewrite <- fs_sup_fd.
      destruct (O v); [done|lia].
    + intros v Hv. by rewrite <- Heq.
Qed.

(** ** [normalize] *)

Lemma sol_bounds I O a b S :
  (forall v, O v = true -> 0 <= v <= fs_sup) ->
  sol I O (Z.max a (card I)) (Z.min b (fs_sup + 1 - card O)) S <-> sol I O a b S.
Proof using.
  intros HO. split.
  - intros (S1 & S2 & S3 & S4). split; [done|]. split; [done|]. split; [done|lia].
  - intros Hs. pose proof (sol_card I O a b S HO Hs). destruct Hs as (S1 & S2 & S3 & S4). split; [done|]. split; [done|]. split; [done|lia].
Qed.

Lemma narrows_ext r (X Y : (Z -> bool) -> Prop) : (forall S, X S <-> Y S) -> narrows r X -> narrows r Y.
Proof using.
  intros HXY (ok & c & E & Hr). exists ok, c. split; [done|]. destruct ok.
  - destruct Hr as (I & O & Ht & Hs). exists I, O. split; [done|]. intros S. by rewrite Hs.
  - destruct Hr as [Hv Hno]. split; [done|]. intros S. by rewrite <- HXY.
Qed.

Lemma normalize_spec c I O :
  cholds c I O -> isValid c = true -> narrows (normalize c) (sol I O (_card_min c) (_card_max c)).
Proof using Hg.
  intros Hc Hv. pose proof (fun v => proj2 (cholds_range c I O v Hc)) as HO.
  apply (narrows_ext _ (sol I O (Z.max (_card_min c) (card I)) (Z.min (_card_max c) (fs_sup + 1 - card O))));
    [intros S; by apply sol_bounds|].
  set (a := Z.max _ _). set (b := Z.min _ _). unfold narrows, normalize. rewrite Hv. cbn [negb]. destruct (clash_spec c I O Hc) as (k & -> & Hk). ored. destruct k.
  { eexists _, _; split; [done|]. split; [done|]. destruct (proj1 Hk eq_refl) as (v & E). intros S (S1 & S2 & _).
    destruct (I v) eqn:EI, (O v) eqn:EO; try done. by rewrite (S2 v (S1 v EI)) in EO. }
  assert (forall v, I v && O v = false) as Hd.
  { intros v. destruct (I v && O v) eqn:E; [|done]. assert (false = true); [|done]. apply Hk. by exists v. }
  assert (exists c1, (if _normal c then Some c else '(_, c) ← maybeToNormal c; Some c) = Some c1 /\ cholds c1 I O /\
    _card_min c1 = _card_min c /\ _card_max c1 = _card_max c) as (c1 & -> & Hc1 & A1 & A2).
  { destruct (_normal c) eqn:Hn; [by exists c|].
    destruct (maybeToNormal_cholds c I O Hn Hc) as (b1 & c1 & -> & ? & ? & ? & _). ored. by exists c1. }
  ored. destruct (count_known_spec c1 I O Hc1) as (c2 & -> & Hc2 & B1 & B2 & B3 & B4). ored.
  rewrite B1, B2, B3, B4, A1, A2. cbn [_card_min _card_max _known_in _known_not_in set_card]. rewrite B3.
  replace (if _card_min c <? card I then card I else _card_min c) with a
    by (unfold a; destruct (Z.ltb_spec (_card_min c) (card I)); lia).
  replace (if fs_sup - card O + 1 <? _card_max c then fs_sup - card O + 1 else _card_max c)
    with b by (unfold b; destruct (Z.ltb_spec (fs_sup - card O + 1) (_card_max c)); lia).
  destruct ((b <? card I) || (fs_sup - card O + 1 <? a) || (b <? a)) eqn:E.
  { eexists _, _; split; [done|]. split; [done|]. intros S Hs. pose proof (sol_card I O a b S HO Hs). destruct Hs as (_ & _ & _ & Hab). lia. }
  set (c3 := set_card c2 a b). assert (tight c3 I O) as Ht3.
  { split; [exact Hc2|]. cbn. rewrite B3, B4. split_and!; try done; lia. }
  assert (exists c4 O4, (if b =? card I then close_out c3 else Some c3) = Some c4 /\ tight c4 I O4 /\
    (_card_max c4 = card I -> forall v, O4 v = not_set I v) /\
    forall S, sol I O4 (_card_min c4) (_card_max c4) S <-> sol I O a b S) as (c4 & O4 & -> & Ht4 & Hout & Hs4).
  { destruct (Z.eqb_spec b (card I)) as [Eb|Eb]; [|by exists c3, O].
    destruct (close_out_spec c3 I O Ht3) as (c4 & -> & ? & ?); [cbn; lia|]. by exists c4, (not_set I). }
  pose proof Ht4 as (Hc4 & _ & _ & Hk4 & _).
  ored. destruct (Z.eqb_spec (_card_min c4) (fs_sup - _known_not_in c4 + 1)) as [Ea|Ea].
  - destruct (close_in_spec c4 I O4 Ht4 Ea) as (c5 & -> & Ht5 & Hs5). ored. eexists _, _; split; [done|].
    exists (not_set O4), O4. split; [|intros S; by rewrite Hs5, Hs4]. split; [done|]. split; [|done].
    intros _ v. symmetry. apply not_not_set. intros u. apply (cholds_range c4 I O4 u Hc4).
  - ored. eexists _, _; split; [done|]. exists I, O4. split; [|done]. split; [done|]. split; [done|lia].
Qed.
End representations.
End FSetNormalize.
