(* ===== verification/FSetPropagation.v ===== *)
(** * Finite set constraints: the operators against solution sets

    Each narrowing operator keeps exactly the solutions that satisfy what it tells the
    constraint, and reports a failure exactly if there are none; each building operator gives
    the constraint of the known elements. *)
From S2P Require Import Prelude Word32 FDBase FDIntervals FDBitVector Sort FiniteDomain FDRepr FDQueries FDOperators FDSetOperators FDDescr FSetBits FSetValue FSetValueSpec FSetValueOps FSetValueQueries FSetConstraint FSetOperators FSetNormalize.
Import FDRepr FDQueries FDOperators FDSetOperators FDDescr FSetBits FSetValueSpec FSetValueOps FSetValueQueries FSetConstraint FSetOperators FSetNormalize.

Module FSetPropagation.

(** A constraint that has not failed. *)
Definition live `{FDEnv} (c : FSetConstraint) (I O : Z -> bool) : Prop := cholds c I O /\ 0 <= _card_min c.

(** The result of a building operator. *)
Definition builds `{FDEnv} (r : option FSetConstraint) (X : (Z -> bool) -> Prop) : Prop :=
  exists c, r = Some c /\
    if isValid c then exists I O, settled c I O /\ forall S, sol I O (_card_min c) (_card_max c) S <-> X S
    else forall S, ~ X S.

Definition same_card (c c' : FSetConstraint) : Prop := _card_min c' = _card_min c /\ _card_max c' = _card_max c.

Section operators.
Context `{FDEnv} (Hg : globals_ok fd_env).
Implicit Types (c x y z : FSetConstraint) (P Q I O S : Z -> bool).

Lemma live_valid c I O : live c I O -> isValid c = true.
Proof using. intros [_ Hc]. unfold isValid. lia. Qed.

Lemma tight_live c I O : tight c I O -> live c I O.
Proof using. intros (Hc & _ & _ & _ & H1 & _). split; [done|]. pose proof (card_nonneg I). lia. Qed.

(** ** Adding known elements *)

Lemma union_range P Q v :
  (P v = true -> 0 <= v <= fs_sup) -> (Q v = true -> 0 <= v <= fs_sup) ->
  (0 <=? v) && (v <=? fs_sup) && (P v || Q v) = P v || Q v.
Proof using. destruct (P v), (Q v); intros; simpl; lia. Qed.

Lemma or_words_holds w1 o1 w2 o2 P Q d :
  bits_ok w1 -> (forall v, bits_mem w1 o1 v = P v) -> bits_ok w2 -> (forall v, bits_mem w2 o2 v = Q v) ->
  exists w, words2_in Z.lor w1 w2 = Some w /\ holds (FSetValue.FSV 0 (o1 || o2) d true w) (fun v => P v || Q v).
Proof using.
  intros B1 M1 B2 M2. destruct (words2_in_spec Z.lor orb w1 w2 lor_op2 B1 B2) as (w & E & Bw & Mw).
  exists w. split; [done|]. split; [apply Bw|]. split; [apply Bw|]. intros v. cbn.
  rewrite (bits_combine orb w w1 w2 o1 o2) by (auto). rewrite M1, M2. apply union_range.
  - rewrite <- M1. apply bits_mem_range.
  - rewrite <- M2. apply bits_mem_range.
Qed.

Lemma add_in_words_spec x I O w oth P :
  cholds x I O -> _normal x = true -> bits_ok w -> (forall v, bits_mem w oth v = P v) ->
  exists x', add_in_words x w oth = Some x' /\ cholds x' (fun v => I v || P v) O /\ _normal x' = true /\ same_card x x'.
Proof using.
  intros Hx Hn Hw HP. destruct (cholds_normal x I O Hx Hn) as [[Bi Mi] [Bo Mo]]. unfold add_in_words.
  destruct (or_words_holds _ (_otherin x) w oth I P (_IN x) Bi Mi Hw HP) as (i & -> & Hi). ored.
  eexists; split; [done|]. split; [|done]. split; [exact Hi|]. split; [apply Bo|]. split; [apply Bo|exact Mo].
Qed.

Lemma add_out_words_spec x I O w oth P :
  cholds x I O -> _normal x = true -> bits_ok w -> (forall v, bits_mem w oth v = P v) ->
  exists x', add_out_words x w oth = Some x' /\ cholds x' I (fun v => O v || P v) /\ _normal x' = true /\ same_card x x'.
Proof using.
  intros Hx Hn Hw HP. destruct (cholds_normal x I O Hx Hn) as [[Bi Mi] [Bo Mo]]. unfold add_out_words.
  destruct (or_words_holds _ (_otherout x) w oth O P (_OUT x) Bo Mo Hw HP) as (o & -> & Ho). ored.
  eexists; split; [done|]. split; [|done]. split; [|exact Ho]. split; [apply Bi|]. split; [apply Bi|exact Mi].
Qed.

Lemma assign_in_spec x I O d P :
  cholds x I O -> _normal x = false -> repr d P ->
  exists x', assign_in x d = Some x' /\ cholds x' P O /\ _normal x' = false /\ same_card x x'.
Proof using Hg.
  intros Hx Hn Hd. destruct (cholds_extended x I O Hx Hn) as [_ Ro], (cholds_rooms x I O Hx). unfold assign_in.
  rewrite (assign_repr Hg _ d P Hd). ored. eexists; split; [done|]. split; [|done]. split; by split.
Qed.

Lemma assign_out_spec x I O d P :
  cholds x I O -> _normal x = false -> repr d P ->
  exists x', assign_out x d = Some x' /\ cholds x' I P /\ _normal x' = false /\ same_card x x'.
Proof using Hg.
  intros Hx Hn Hd. destruct (cholds_extended x I O Hx Hn) as [Ri _], (cholds_rooms x I O Hx). unfold assign_out.
  rewrite (assign_repr Hg _ d P Hd). ored. eexists; split; [done|]. split; [|done]. split; by split.
Qed.

Lemma add_in_domain_spec x I O d P :
  cholds x I O -> _normal x = false -> repr d P ->
  exists x', add_in_domain x d = Some x' /\ cholds x' (fun v => I v || P v) O /\ _normal x' = false /\ same_card x x'.
Proof using Hg.
  intros Hx Hn Hd. destruct (cholds_extended x I O Hx Hn) as [Ri _]. unfold add_in_domain.
  destruct (op_or_repr Hg _ d I P Ri Hd) as (u & -> & Hu). ored. by apply (assign_in_spec x I O).
Qed.

Lemma add_out_domain_spec x I O d P :
  cholds x I O -> _normal x = false -> repr d P ->
  exists x', add_out_domain x d = Some x' /\ cholds x' I (fun v => O v || P v) /\ _normal x' = false /\ same_card x x'.
Proof using Hg.
  intros Hx Hn Hd. destruct (cholds_extended x I O Hx Hn) as [_ Ro]. unfold add_out_domain.
  destruct (op_or_repr Hg _ d O P Ro Hd) as (u & -> & Hu). ored. by apply (assign_out_spec x I O).
Qed.

(** The two cases of every narrowing operator: [n] says that the other operand is normal too. *)
Lemma add_in_spec x I O (n : bool) w oth dom P :
  cholds x I O -> (n = true -> bits_ok w /\ forall v, bits_mem w oth v = P v) -> (exists d, dom = Some d /\ repr d P) ->
  exists x', (if _normal x && n then add_in_words x w oth else x ← extended x; d ← dom; add_in_domain x d) = Some x' /\
    cholds x' (fun v => I v || P v) O /\ same_card x x'.
Proof using Hg.
  intros Hx Hn (d & -> & Hd). destruct (_normal x && n) eqn:E.
  - apply andb_true_iff in E as [E1 E2]. destruct (Hn E2) as [Bw Mw].
    destruct (add_in_words_spec x I O w oth P Hx E1 Bw Mw) as (x' & ? & ? & _ & ?). by exists x'.
  - destruct (extended_cholds Hg x I O Hx) as (x1 & -> & H1 & N1 & C1 & C2 & _). ored.
    destruct (add_in_domain_spec x1 I O d P H1 N1 Hd) as (x' & ? & ? & _ & [D1 D2]). exists x'. split; [done|]. split; [done|]. unfold same_card. by rewrite D1, D2.
Qed.

Lemma add_out_spec x I O (n : bool) w oth dom P :
  cholds x I O -> (n = true -> bits_ok w /\ forall v, bits_mem w oth v = P v) -> (exists d, dom = Some d /\ repr d P) ->
  exists x', (if _normal x && n then add_out_words x w oth else x ← extended x; d ← dom; add_out_domain x d) = Some x' /\
    cholds x' I (fun v => O v || P v) /\ same_card x x'.
Proof using Hg.
  intros Hx Hn (d & -> & Hd). destruct (_normal x && n) eqn:E.
  - apply andb_true_iff in E as [E1 E2]. destruct (Hn E2) as [Bw Mw].
    destruct (add_out_words_spec x I O w oth P Hx E1 Bw Mw) as (x' & ? & ? & _ & ?). by exists x'.
  - destruct (extended_cholds Hg x I O Hx) as (x1 & -> & H1 & N1 & C1 & C2 & _). ored.
    destruct (add_out_domain_spec x1 I O d P H1 N1 Hd) as (x' & ? & ? & _ & [D1 D2]). exists x'. split; [done|]. split; [done|]. unfold same_card. by rewrite D1, D2.
Qed.

(** Solutions with more known. *)
Lemma sol_more_in I P O a b S :
  sol (fun v => I v || P v) O a b S <-> sol I O a b S /\ (forall v, P v = true -> S v = true).
Proof using.
  split.
  - intros (S1 & S2 & S3). split; [split; [|by split]|]; intros v Hv; apply S1; rewrite Hv; [done|apply orb_true_r].
  - intros [(S1 & S2 & S3) HP]. split; [|by split]. intros v [Hv|Hv]%orb_true_iff; auto.
Qed.

Lemma sol_more_out I O P a b S :
  sol I (fun v => O v || P v) a b S <-> sol I O a b S /\ (forall v, S v = true -> P v = false).
Proof using.
  split.
  - intros (S1 & S2 & S3). split; [split; [done|split; [|done]]|]; intros v Hv; apply S2 in Hv; by apply orb_false_iff in Hv as [? ?].
  - intros [(S1 & S2 & S3) HP]. split; [done|]. split; [|done]. intros v Hv. by rewrite S2, HP.
Qed.

Lemma sol_more_card I O a b a' b' S :
  sol I O (Z.max a a') (Z.min b b') S <-> sol I O a b S /\ a' <= card S <= b'.
Proof using.
  split.
  - intros (S1 & S2 & S3 & S4). split; [|lia]. split; [done|]. split; [done|]. split; [done|lia].
  - intros [(S1 & S2 & S3 & S4) Hc]. split; [done|]. split; [done|]. split; [done|lia].
Qed.

(** ** Narrowing operators *)

Lemma normalize_narrows c I O (X : (Z -> bool) -> Prop) :
  cholds c I O -> 0 <= _card_min c -> (forall S, sol I O (_card_min c) (_card_max c) S <-> X S) -> narrows (normalize c) X.
Proof using Hg.
  intros Hc Ha HX. apply (narrows_ext _ _ _ HX). apply (normalize_spec Hg); [done|]. unfold isValid. lia.
Qed.

Lemma putCard_narrows x I O a b :
  live x I O -> narrows (putCard x a b) (fun S => sol I O (_card_min x) (_card_max x) S /\ a <= card S <= b).
Proof using Hg.
  intros [Hx Ha]. unfold putCard. apply (normalize_narrows _ I O); [exact Hx|cbn; lia|]. intros S. cbn.
  rewrite Z.max_comm, (Z.min_comm b). apply sol_more_card.
Qed.

Lemma op_card_le_narrows x I O i :
  live x I O -> exists r, op_card_le x i = negated r /\ narrows r (fun S => sol I O (_card_min x) (_card_max x) S /\ card S <= i).
Proof using Hg.
  intros [Hx Ha]. eexists; split; [done|]. apply (normalize_narrows _ I O); [exact Hx|done|]. intros S. cbn. split.
  - intros (S1 & S2 & S3 & S4). split; [|lia]. split; [done|]. split; [done|]. split; [done|lia].
  - intros [(S1 & S2 & S3 & S4) Hc]. split; [done|]. split; [done|]. split; [done|lia].
Qed.

Lemma op_card_ge_narrows x I O i :
  live x I O -> exists r, op_card_ge x i = negated r /\ narrows r (fun S => sol I O (_card_min x) (_card_max x) S /\ i <= card S).
Proof using Hg.
  intros [Hx Ha]. eexists; split; [done|]. apply (normalize_narrows _ I O); [exact Hx|cbn; lia|]. intros S. cbn. split.
  - intros (S1 & S2 & S3 & S4). split; [|lia]. split; [done|]. split; [done|]. split; [done|lia].
  - intros [(S1 & S2 & S3 & S4) Hc]. split; [done|]. split; [done|]. split; [done|lia].
Qed.

(** [y] as the other operand. *)
Lemma in_operand y I O :
  cholds y I O -> (_normal y = true -> bits_ok (_in y) /\ forall v, bits_mem (_in y) (_otherin y) v = I v) /\
    exists d, in_domain y = Some d /\ repr d I.
Proof using Hg. intros Hy. split; [intros Hn; by apply (cholds_normal y I O)|by apply (in_domain_repr Hg y I O)]. Qed.

Lemma out_operand y I O :
  cholds y I O -> (_normal y = true -> bits_ok (_not_in y) /\ forall v, bits_mem (_not_in y) (_otherout y) v = O v) /\
    exists d, out_domain y = Some d /\ repr d O.
Proof using Hg. intros Hy. split; [intros Hn; by apply (cholds_normal y I O)|by apply (out_domain_repr Hg y I O)]. Qed.

Lemma value_operand (y : FSetValue) P :
  good y P -> (FSetValue._normal y = true -> bits_ok (FSetValue._in y) /\ forall v, bits_mem (FSetValue._in y) (FSetValue._other y) v = P v) /\
    exists d, value_domain y = Some d /\ repr d P.
Proof using Hg.
  intros Hy. split; [intros Hn; by apply good_normal|]. unfold value_domain. destruct (FSetValue._normal y) eqn:Hn.
  - destruct (good_normal y P Hy Hn) as [By My]. destruct (set_Aux_spec Hg FiniteDomain.initEmpty _ (FSetValue._other y) By) as (d & -> & Hd).
    exists d. split; [done|]. by apply (repr_ext _ _ _ My).
  - exists (FSetValue._IN y). split; [done|]. by apply good_extended.
Qed.

Lemma op_le_narrows x y I O I' O' :
  live x I O -> cholds y I' O' ->
  narrows (op_le x y) (fun S => sol I O (_card_min x) (_card_max x) S /\ (forall v, S v = true -> O' v = false) /\ card S <= _card_max y).
Proof using Hg.
  intros [Hx Ha] Hy. destruct (out_operand y I' O' Hy) as [Hw Hd]. unfold op_le.
  destruct (add_out_spec x I O (_normal y) _ (_otherout y) _ O' Hx Hw Hd) as (x' & -> & Hx' & [C1 C2]). ored.
  apply (normalize_narrows _ I (fun v => O v || O' v)); [exact Hx'|cbn; lia|]. intros S. cbn. rewrite C1, C2.
  rewrite <- (Z.max_id (_card_min x)) at 1. rewrite sol_more_card, sol_more_out. split; [intuition|].
  intros ((? & ? & ? & ?) & ? & ?). unfold sol. intuition lia.
Qed.

Lemma op_ge_narrows x y I O I' O' :
  live x I O -> cholds y I' O' ->
  narrows (op_ge x y) (fun S => sol I O (_card_min x) (_card_max x) S /\ (forall v, I' v = true -> S v = true) /\ _card_min y <= card S).
Proof using Hg.
  intros [Hx Ha] Hy. destruct (in_operand y I' O' Hy) as [Hw Hd]. unfold op_ge.
  destruct (add_in_spec x I O (_normal y) _ (_otherin y) _ I' Hx Hw Hd) as (x' & -> & Hx' & [C1 C2]). ored.
  apply (normalize_narrows _ (fun v => I v || I' v) O); [exact Hx'|cbn; lia|]. intros S. cbn. rewrite C1, C2.
  rewrite <- (Z.min_id (_card_max x)) at 1. rewrite sol_more_card, sol_more_in. split; [intuition|].
  intros ((? & ? & ? & ?) & ? & ?). unfold sol. intuition lia.
Qed.

Lemma op_disjoint_narrows x y I O I' O' :
  live x I O -> cholds y I' O' ->
  narrows (op_disjoint x y) (fun S => sol I O (_card_min x) (_card_max x) S /\ (forall v, S v = true -> I' v = false)).
Proof using Hg.
  intros [Hx Ha] Hy. destruct (in_operand y I' O' Hy) as [Hw Hd]. unfold op_disjoint.
  destruct (add_out_spec x I O (_normal y) _ (_otherin y) _ I' Hx Hw Hd) as (x' & -> & Hx' & [C1 C2]). ored.
  apply (normalize_narrows _ I (fun v => O v || I' v)); [exact Hx'|lia|]. intros S. rewrite C1, C2. apply sol_more_out.
Qed.

Lemma op_or_value_narrows x (y : FSetValue) I O P :
  live x I O -> good y P ->
  exists r, op_or_value x y = negated r /\
    narrows r (fun S => sol I O (_card_min x) (_card_max x) S /\ (forall v, P v = true -> S v = true)).
Proof using Hg.
  intros [Hx Ha] Hy. destruct (value_operand y P Hy) as [Hw Hd]. unfold op_or_value.
  destruct (add_in_spec x I O (FSetValue._normal y) _ (FSetValue._other y) _ P Hx Hw Hd) as (x' & -> & Hx' & [C1 C2]). ored.
  eexists; split; [done|]. apply (normalize_narrows _ (fun v => I v || P v) O); [exact Hx'|lia|].
  intros S. rewrite C1, C2. apply sol_more_in.
Qed.

Lemma op_and_value_narrows neg x (y : FSetValue) I O P :
  live x I O -> good y P -> room (FSetValue._in neg) ->
  exists r, op_and_value neg x y = negated r /\
    narrows r (fun S => sol I O (_card_min x) (_card_max x) S /\ (forall v, S v = true -> P v = true)).
Proof using Hg.
  intros [Hx Ha] Hy Hneg. unfold op_and_value. destruct (op_neg_good Hg neg y P Hneg Hy) as (n & -> & Hn). ored.
  destruct (value_operand n _ Hn) as [Hw Hd].
  destruct (add_out_spec x I O (FSetValue._normal n) _ (FSetValue._other n) _ _ Hx Hw Hd) as (x' & -> & Hx' & [C1 C2]). ored.
  eexists; split; [done|]. apply (normalize_narrows _ I (fun v => O v || not_set P v)); [exact Hx'|lia|].
  intros S. rewrite C1, C2, sol_more_out. split; intros [HS HP]; (split; [done|]); intros v Hv; specialize (HP v Hv); unfold not_set in *.
  - destruct HS as (_ & _ & HS & _). apply HS in Hv. rewrite <- fs_sup_fd in HP. destruct (P v); [done|]. lia.
  - rewrite HP. apply andb_false_r.
Qed.
(** [<<=] has the solutions of both. *)
Lemma op_tell_narrows x y I O I' O' :
  live x I O -> cholds y I' O' ->
  narrows (op_tell x y) (fun S => sol I O (_card_min x) (_card_max x) S /\ sol I' O' (_card_min y) (_card_max y) S).
Proof using Hg.
  intros [Hx Ha] Hy. destruct (in_operand y I' O' Hy) as [Hwi (di & Ei & Hdi)], (out_operand y I' O' Hy) as [Hwo (do' & Eo & Hdo)].
  unfold op_tell.
  match goal with |- context [mbind _ ?r] =>
    assert (exists x', r = Some x' /\ cholds x' (fun v => I v || I' v) (fun v => O v || O' v) /\ same_card x x') as (x' & -> & Hx' & [C1 C2]) end.
  { destruct (_normal x && _normal y) eqn:E.
    - apply andb_true_iff in E as [E1 E2]. destruct (Hwi E2) as [Bi Mi], (Hwo E2) as [Bo Mo].
      destruct (add_in_words_spec x I O _ _ I' Hx E1 Bi Mi) as (x1 & -> & H1 & N1 & C1 & C2). ored.
      destruct (add_out_words_spec x1 _ O _ _ O' H1 N1 Bo Mo) as (x2 & -> & H2 & _ & D1 & D2). exists x2.
      split; [done|]. split; [done|]. unfold same_card. by rewrite D1, D2.
    - destruct (extended_cholds Hg x I O Hx) as (x0 & -> & H0 & N0 & B1 & B2 & _). ored. rewrite Ei, Eo. ored.
      destruct (add_in_domain_spec x0 I O di I' H0 N0 Hdi) as (x1 & -> & H1 & N1 & C1 & C2). ored.
      destruct (add_out_domain_spec x1 _ O do' O' H1 N1 Hdo) as (x2 & -> & H2 & _ & D1 & D2). exists x2.
      split; [done|]. split; [done|]. unfold same_card. by rewrite D1, D2, C1, C2. }
  ored. apply (normalize_narrows _ (fun v => I v || I' v) (fun v => O v || O' v)); [exact Hx'|cbn; lia|]. intros S. cbn. rewrite C1, C2.
  rewrite sol_more_card, sol_more_in, sol_more_out. split.
  - intros (((HS & HO) & HI) & Hc). split; [done|]. destruct HS as (_ & _ & HS & _). by split; [|split; [|split]].
  - intros (HS & HI & HO & _ & Hc). by split.
Qed.

(** ** One element *)

Lemma op_plus_narrows x I O i :
  settled x I O -> 0 <= i <= fs_sup ->
  narrows (op_plus x i) (fun S => sol I O (_card_min x) (_card_max x) S /\ S i = true).
Proof using Hg.
  intros Ht Hi. destruct (tight_live x I O (proj1 Ht)) as [Hx Ha]. unfold op_plus.
  rewrite (proj2 (Z.ltb_ge i 0)), (proj2 (Z.ltb_ge fs_sup i)) by lia. cbn [orb].
  assert (forall x' , cholds x' (fun v => I v || (v =? i)) O -> same_card x x' ->
    narrows (normalize x') (fun S => sol I O (_card_min x) (_card_max x) S /\ S i = true)) as Hgo.
  { intros x' Hx' [C1 C2]. apply (normalize_narrows _ _ _ _ Hx'); [lia|]. intros S. rewrite C1, C2, sol_more_in.
    split; intros [HS HP]; (split; [done|]); [apply HP; lia|]. intros v Hv. by replace v with i by lia. }
  assert (forall x0, cholds x0 I O -> _normal x0 = false -> same_card x x0 ->
    narrows (d ← FiniteDomain.op_plus_int (_IN x0) i; normalize (set_domains x0 d (_OUT x0)))
      (fun S => sol I O (_card_min x) (_card_max x) S /\ S i = true)) as Hext.
  { intros x0 Hx0 N0 C0. destruct (cholds_extended x0 I O Hx0 N0) as [Ri Ro], (cholds_rooms x0 I O Hx0) as [Rmi Rmo].
    destruct (op_plus_int_repr Hg _ I i Ri) as (d & -> & Hd). ored. apply Hgo; [|exact C0]. split; (split; [done|]); [|exact Ro].
    eapply repr_ext; [|exact Hd]. intros v. cbn beta. rewrite <- fs_sup_fd.
    destruct (I v); [done|]. destruct (Z.eqb_spec v i); lia. }
  destruct (_normal x) eqn:Hn; [|by apply Hext].
  destruct (cholds_normal x I O Hx Hn) as [[Bi Mi] [Bo Mo]]. destruct (Z.ltb_spec i (32 * fset_high)).
  - destruct (fs_setBit_spec _ i Bi) as (w & -> & Bw & Mw); [lia|]. ored. apply Hgo; [|done]. split.
    + split; [apply Bw|]. split; [apply Bw|]. intros v. cbn. rewrite <- Mi. unfold bits_mem. rewrite Mw.
      destruct (Z.ltb_spec v (32 * fset_high)); [done|]. destruct (Z.eqb_spec v i); [lia|]. by rewrite orb_false_r.
    + split; [apply Bo|]. split; [apply Bo|exact Mo].
  - destruct (_otherin x) eqn:Eo.
    + eexists _, _; split; [done|]. exists I, O. split; [done|]. intros S. split; [|by intros [? _]]. intros HS. split; [done|].
      apply HS. rewrite <- Mi. unfold bits_mem. destruct (Z.ltb_spec i (32 * fset_high)); [lia|]. lia.
    + destruct (toExtended_cholds Hg x I O Hn Hx) as (x0 & -> & Hx0 & N0 & C1 & C2 & _). ored. by apply Hext.
Qed.

Lemma op_minus_narrows x I O i :
  settled x I O -> 0 <= i <= fs_sup ->
  narrows (op_minus x i) (fun S => sol I O (_card_min x) (_card_max x) S /\ S i = false).
Proof using Hg.
  intros Ht Hi. destruct (tight_live x I O (proj1 Ht)) as [Hx Ha]. unfold op_minus.
  rewrite (proj2 (Z.ltb_ge i 0)), (proj2 (Z.ltb_ge fs_sup i)) by lia. cbn [orb].
  assert (forall x' , cholds x' I (fun v => O v || (v =? i)) -> same_card x x' ->
    narrows (normalize x') (fun S => sol I O (_card_min x) (_card_max x) S /\ S i = false)) as Hgo.
  { intros x' Hx' [C1 C2]. apply (normalize_narrows _ _ _ _ Hx'); [lia|]. intros S. rewrite C1, C2, sol_more_out.
    split; intros [HS HP]; (split; [done|]).
    - destruct (S i) eqn:E; [apply HP in E; lia|done].
    - intros v Hv. apply Z.eqb_neq. intros ->. congruence. }
  assert (forall x0, cholds x0 I O -> _normal x0 = false -> same_card x x0 ->
    narrows (d ← FiniteDomain.op_plus_int (_OUT x0) i; normalize (set_domains x0 (_IN x0) d))
      (fun S => sol I O (_card_min x) (_card_max x) S /\ S i = false)) as Hext.
  { intros x0 Hx0 N0 C0. destruct (cholds_extended x0 I O Hx0 N0) as [Ri Ro], (cholds_rooms x0 I O Hx0) as [Rmi Rmo].
    destruct (op_plus_int_repr Hg _ O i Ro) as (d & -> & Hd). ored. apply Hgo; [|exact C0]. split; (split; [done|]); [exact Ri|].
    eapply repr_ext; [|exact Hd]. intros v. cbn beta. rewrite <- fs_sup_fd.
    destruct (O v); [done|]. destruct (Z.eqb_spec v i); lia. }
  destruct (_normal x) eqn:Hn; [|by apply Hext].
  destruct (cholds_normal x I O Hx Hn) as [[Bi Mi] [Bo Mo]]. destruct (Z.ltb_spec i (32 * fset_high)).
  - destruct (fs_setBit_spec _ i Bo) as (w & -> & Bw & Mw); [lia|]. ored. apply Hgo; [|done]. split.
    + split; [apply Bi|]. split; [apply Bi|exact Mi].
    + split; [apply Bw|]. split; [apply Bw|]. intros v. cbn. rewrite <- Mo. unfold bits_mem. rewrite Mw.
      destruct (Z.ltb_spec v (32 * fset_high)); [done|]. destruct (Z.eqb_spec v i); [lia|]. by rewrite orb_false_r.
  - destruct (_otherout x) eqn:Eo.
    + eexists _, _; split; [done|]. exists I, O. split; [done|]. intros S. split; [|by intros [? _]]. intros HS. split; [done|].
      destruct (S i) eqn:E; [|done]. destruct HS as (_ & HS & _). apply HS in E. rewrite <- Mo in E. unfold bits_mem in E.
      destruct (Z.ltb_spec i (32 * fset_high)); [lia|]. lia.
    + destruct (toExtended_cholds Hg x I O Hn Hx) as (x0 & -> & Hx0 & N0 & C1 & C2 & _). ored. by apply Hext.
Qed.
(** ** Lower and upper bounds for the elements *)

Lemma or_not_bits w m j : is_word w -> is_word m -> 0 <= j < 32 -> Z.testbit (Z.lor w (not32 m)) j = Z.testbit w j || negb (Z.testbit m j).
Proof using. intros Hw Hm Hj. rewrite Z.lor_spec. f_equal. by apply testbit_not32. Qed.

(** Bits of a word, of a word with a mask, and of a filled word. *)
Ltac solve_words :=
  first [ lia | rewrite or_not_bits by (done || lia);
                match goal with Bm : forall j, _ -> Z.testbit _ j = _ |- _ => rewrite Bm by lia end; f_equal; lia
        | rewrite FDBitVector.testbit_not0 by lia; lia ].

(** The words of the elements below (above) [ii]. *)
Lemma exclude_below_spec o ii :
  bits_ok o -> 0 <= ii < 64 ->
  exists o', exclude_below o ii = Some o' /\
    bits_ok o' /\ forall v, words_mem o' v = words_mem o v || ((0 <=? v) && (v <? ii)).
Proof using.
  intros [Hr Hw] Hii. unfold exclude_below, exclude_above. destruct (room_two o Hr) as (a & b & ->). pose proof (div32_mod32 ii) as [Ei Hm].
  destruct (toTheUpperEnd_spec (mod32 ii) ltac:(lia)) as (m & Em & Wm & Bm).
  apply Forall_cons in Hw as [Ha Hw]. apply Forall_cons in Hw as [Hb _].
  destruct (Z.eq_dec (div32 ii) 0) as [E0|Hne].
  - rewrite E0. simpl for_up. ored. rewrite Em. ored. exists [Z.lor a (not32 m); b]. split; [done|].
    split; [apply bits_two; auto|]. intros v. rewrite !words_mem_two.
    destruct (Z.leb_spec 0 v), (Z.ltb_spec v 32), (Z.leb_spec 32 v), (Z.ltb_spec v 64); try lia; cbn [andb orb]; solve_words.
  - assert (div32 ii = 1) as E1 by lia. rewrite E1. simpl for_up. ored. rewrite Em. ored.
    exists [not32 0; Z.lor b (not32 m)]. split; [done|]. split; [apply bits_two; auto|]. intros v. rewrite !words_mem_two.
    destruct (Z.leb_spec 0 v), (Z.ltb_spec v 32), (Z.leb_spec 32 v), (Z.ltb_spec v 64); try lia; cbn [andb orb]; solve_words.
Qed.

Lemma exclude_above_spec o ii :
  bits_ok o -> 0 <= ii < 64 ->
  exists o', exclude_above o ii = Some o' /\
    bits_ok o' /\ forall v, words_mem o' v = words_mem o v || ((ii <? v) && (v <? 64)).
Proof using.
  intros [Hr Hw] Hii. unfold exclude_below, exclude_above. destruct (room_two o Hr) as (a & b & ->). pose proof (div32_mod32 ii) as [Ei Hm].
  destruct (toTheLowerEnd_spec (mod32 ii) ltac:(lia)) as (m & Em & Wm & Bm).
  apply Forall_cons in Hw as [Ha Hw]. apply Forall_cons in Hw as [Hb _].
  destruct (Z.eq_dec (div32 ii) 0) as [E0|Hne].
  - rewrite E0. simpl for_up. ored. rewrite Em. ored. exists [Z.lor a (not32 m); not32 0]. split; [done|].
    split; [apply bits_two; auto|]. intros v. rewrite !words_mem_two.
    destruct (Z.leb_spec 0 v), (Z.ltb_spec v 32), (Z.leb_spec 32 v), (Z.ltb_spec v 64); try lia; cbn [andb orb]; solve_words.
  - assert (div32 ii = 1) as E1 by lia. rewrite E1. simpl for_up. ored. rewrite Em. ored.
    exists [a; Z.lor b (not32 m)]. split; [done|]. split; [apply bits_two; auto|]. intros v. rewrite !words_mem_two.
    destruct (Z.leb_spec 0 v), (Z.ltb_spec v 32), (Z.leb_spec 32 v), (Z.ltb_spec v 64); try lia; cbn [andb orb]; solve_words.
Qed.

Lemma exclude_range_spec x I O l r :
  cholds x I O -> _normal x = false ->
  exists x', exclude_range x l r = Some x' /\ cholds x' I (fun v => O v || range_set l r v) /\ _normal x' = false /\ same_card x x'.
Proof using Hg.
  intros Hx Hn. apply add_out_domain_spec; [done|done|]. apply initRange_repr. intros v. unfold range_set. by rewrite fs_sup_fd.
Qed.

Lemma exclude_settle x I O l r :
  cholds x I O -> _normal x = true ->
  exists x', (x ← toExtended x; x ← exclude_range x l r; '(_, x) ← maybeToNormal x; Some x) = Some x' /\
    cholds x' I (fun v => O v || range_set l r v) /\ same_card x x'.
Proof using Hg.
  intros Hx Hn. destruct (toExtended_cholds Hg x I O Hn Hx) as (x0 & -> & Hx0 & N0 & B1 & B2 & _). ored.
  destruct (exclude_range_spec x0 I O l r Hx0 N0) as (x1 & -> & Hx1 & N1 & C1 & C2). ored.
  destruct (maybeToNormal_cholds Hg x1 _ _ N1 Hx1) as (b & x2 & -> & Hx2 & D1 & D2 & _). ored.
  exists x2. split; [done|]. split; [done|]. split; congruence.
Qed.

Lemma ge_narrows x I O ii :
  live x I O -> 0 <= ii <= fs_sup ->
  narrows (ge x ii) (fun S => sol I O (_card_min x) (_card_max x) S /\ (forall v, S v = true -> ii <= v)).
Proof using Hg.
  intros [Hx Ha] Hii. unfold ge.
  assert (forall x' E, cholds x' I (fun v => O v || E v) -> same_card x x' ->
    (forall v, 0 <= v <= fs_sup -> O v || E v = O v || (v <? ii)) ->
    narrows (normalize x') (fun S => sol I O (_card_min x) (_card_max x) S /\ (forall v, S v = true -> ii <= v))) as Hgo.
  { intros x' E Hx' [C1 C2] HE. apply (normalize_narrows _ _ _ _ Hx'); [lia|]. intros S. rewrite C1, C2. split.
    - intros (S1 & S2 & S3 & S4). assert (forall v, S v = true -> O v || (v <? ii) = false) as HS by (intros v Hv; rewrite <- HE; auto).
      split; [split; [done|split; [|done]]|]; intros v Hv; apply HS in Hv; [by apply orb_false_iff in Hv as [? ?]|lia].
    - intros [(S1 & S2 & S3 & S4) HS]. split; [done|]. split; [|done]. intros v Hv. rewrite HE by auto. rewrite S2 by done.
      specialize (HS v Hv). lia. }
  destruct (Z.eqb_spec ii 0) as [->|Hne].
  { apply (Hgo x (fun _ => false)); [|done|].
    - eapply cholds_ext; [..|exact Hx]; intros v; [done|]. by rewrite orb_false_r.
    - intros v Hv. f_equal. lia. }
  destruct (_normal x) eqn:Hn.
  - destruct (Z.ltb_spec ii (32 * fset_high)).
    + destruct (cholds_normal x I O Hx Hn) as [[Bi Mi] [Bo Mo]].
      destruct (exclude_below_spec _ ii Bo) as (o' & -> & Bo' & Mo'); [unfold fset_high in *; lia|]. ored.
      apply (Hgo _ (fun v => (0 <=? v) && (v <? ii))); [|done|intros v Hv; f_equal; lia]. split.
      * split; [apply Bi|]. split; [apply Bi|exact Mi].
      * split; [apply Bo'|]. split; [apply Bo'|]. intros v. cbn. rewrite <- Mo. unfold bits_mem. rewrite Mo'.
        destruct (Z.ltb_spec v (32 * fset_high)); [done|]. destruct (Z.ltb_spec v ii); [lia|]. by rewrite andb_false_r, orb_false_r.
    + destruct (exclude_settle x I O 0 (Z.max (ii - 1) 0) Hx Hn) as (x' & -> & Hx' & HC). ored.
      apply (Hgo x' _ Hx' HC). intros v Hv. unfold range_set. f_equal. lia.
  - destruct (exclude_range_spec x I O 0 (Z.max (ii - 1) 0) Hx Hn) as (x' & -> & Hx' & _ & HC). ored.
    apply (Hgo x' _ Hx' HC). intros v Hv. unfold range_set. f_equal. lia.
Qed.
Lemma le_narrows x I O ii :
  live x I O -> 0 <= ii <= fs_sup ->
  narrows (le x ii) (fun S => sol I O (_card_min x) (_card_max x) S /\ (forall v, S v = true -> v <= ii)).
Proof using Hg.
  intros [Hx Ha] Hii. unfold le.
  assert (forall x' E, cholds x' I (fun v => O v || E v) -> same_card x x' ->
    (forall v, 0 <= v <= fs_sup -> O v || E v = O v || (ii <? v)) ->
    narrows (normalize x') (fun S => sol I O (_card_min x) (_card_max x) S /\ (forall v, S v = true -> v <= ii))) as Hgo.
  { intros x' E Hx' [C1 C2] HE. apply (normalize_narrows _ _ _ _ Hx'); [lia|]. intros S. rewrite C1, C2. split.
    - intros (S1 & S2 & S3 & S4). assert (forall v, S v = true -> O v || (ii <? v) = false) as HS by (intros v Hv; rewrite <- HE; auto).
      split; [split; [done|split; [|done]]|]; intros v Hv; apply HS in Hv; [by apply orb_false_iff in Hv as [? ?]|lia].
    - intros [(S1 & S2 & S3 & S4) HS]. split; [done|]. split; [|done]. intros v Hv. rewrite HE by auto. rewrite S2 by done.
      specialize (HS v Hv). lia. }
  destruct (Z.eqb_spec ii fs_sup) as [->|Hne].
  { apply (Hgo x (fun _ => false)); [|done|].
    - eapply cholds_ext; [..|exact Hx]; intros v; [done|]. by rewrite orb_false_r.
    - intros v Hv. f_equal. lia. }
  destruct (_normal x) eqn:Hn.
  - destruct (Z.ltb_spec ii (32 * fset_high)) as [Hlt|Hge].
    + destruct (cholds_normal x I O Hx Hn) as [[Bi Mi] [Bo Mo]].
      destruct (exclude_above_spec _ ii Bo) as (o' & -> & Bo' & Mo'); [unfold fset_high in *; lia|]. ored.
      apply (Hgo _ (fun v => (ii <? v) && (v <=? fs_sup))); [|done|intros v Hv; f_equal; lia]. split.
      * split; [apply Bi|]. split; [apply Bi|exact Mi].
      * split; [apply Bo'|]. split; [apply Bo'|]. intros v. cbn. rewrite <- Mo. unfold bits_mem, fset_high in *. rewrite Mo'.
        destruct (Z.ltb_spec v (32 * 2)); [f_equal; unfold fs_sup; lia|]. destruct (_otherout x); lia.
    + destruct (exclude_settle x I O (Z.min fs_sup (ii + 1)) fs_sup Hx Hn) as (x' & -> & Hx' & HC). ored.
      apply (Hgo x' _ Hx' HC). intros v Hv. unfold range_set. f_equal. lia.
  - destruct (exclude_range_spec x I O (Z.min fs_sup (ii + 1)) fs_sup Hx Hn) as (x' & -> & Hx' & _ & HC). ored.
    apply (Hgo x' _ Hx' HC). intros v Hv. unfold range_set. f_equal. lia.
Qed.
End operators.
End FSetPropagation.
