(* ===== verification/FSetBuild.v ===== *)
(** * Finite set constraints: construction and building operators

    Constructors, [unify] and the operators whose result is a new constraint. *)
From S2P Require Import Prelude Word32 FDBase FDIntervals FDBitVector Sort FiniteDomain FDRepr FDQueries FDOperators FDSetOperators FDDescr FSetBits FSetValue FSetValueSpec FSetValueOps FSetValueQueries FSetConstraint FSetOperators FSetNormalize FSetPropagation.
Import FDRepr FDQueries FDOperators FDSetOperators FDDescr FSetBits FSetValueSpec FSetValueOps FSetValueQueries FSetConstraint FSetOperators FSetNormalize FSetPropagation.

Module FSetBuild.

Definition rooms (c : FSetConstraint) : Prop := room (_in c) /\ room (_not_in c).
Definition none_set (v : Z) : bool := false.

Section building.
Context `{FDEnv} (Hg : globals_ok fd_env).
Implicit Types (c x y z : FSetConstraint) (P Q I O S : Z -> bool).

(** ** Construction *)

Lemma words_holds w (oth : bool) d P :
  bits_ok w -> (forall v, bits_mem w oth v = P v) -> holds (FSetValue.FSV 0 oth d true w) P.
Proof using. intros Bw Mw. split; [apply Bw|]. split; [apply Bw|exact Mw]. Qed.

Lemma zero_words v : bits_mem [0; 0] false v = none_set v.
Proof using. unfold bits_mem. rewrite (proj2 zeros_ok). by destruct (v <? _). Qed.

Lemma full_words v : bits_mem [not32 0; not32 0] true v = full_set v.
Proof using.
  unfold bits_mem, full_set, fset_high. rewrite (proj2 ones_ok). unfold fs_sup. destruct (Z.ltb_spec v (32 * 2)); lia.
Qed.

Lemma card_none : card none_set = 0.
Proof using. by apply card_empty. Qed.
Lemma card_full_set : card full_set = fs_sup + 1.
Proof using. rewrite (card_range _ 0 fd_sup); done. Qed.

(** The unconstrained set, the empty and the full one, and the value [s]. *)
Lemma init_settled c : rooms c -> exists c', init c = Some c' /\ settled c' none_set none_set /\
  _card_min c' = 0 /\ _card_max c' = fs_sup + 1 /\ rooms c'.
Proof using.
  intros [Ri Ro]. unfold init. rewrite (fill_words_spec _ _ Ri), (fill_words_spec _ _ Ro). ored. eexists; split; [done|].
  split; [|done]. split.
  - split; [split; (apply words_holds; [apply zeros_ok|apply zero_words])|]. cbn. rewrite card_none. split_and!; done.
  - cbn. rewrite card_none. unfold fs_sup. split; intros; lia.
Qed.

Lemma full_not_none v : full_set v = not_set none_set v.
Proof using. unfold full_set, not_set, none_set. rewrite fs_sup_fd. lia. Qed.
Lemma none_not_full v : none_set v = not_set full_set v.
Proof using. unfold full_set, not_set, none_set. rewrite fs_sup_fd. lia. Qed.

Lemma init_state_settled c s :
  rooms c -> exists c', init_state c s = Some c' /\
    match s with fs_empty => settled c' none_set full_set | fs_full => settled c' full_set none_set end /\ isValue c' = true.
Proof using.
  intros [Ri Ro]. unfold init_state. destruct s; rewrite (fill_words_spec _ _ Ri), (fill_words_spec _ _ Ro); ored;
    eexists; (split; [done|]); (split; [|done]); (split; [split; [split|]|]).
  - apply words_holds; [apply zeros_ok|apply zero_words].
  - apply words_holds; [apply ones_ok|apply full_words].
  - cbn. rewrite card_none, card_full_set. split_and!; done.
  - split; intros _ v; [apply full_not_none|apply none_not_full].
  - apply words_holds; [apply ones_ok|apply full_words].
  - apply words_holds; [apply zeros_ok|apply zero_words].
  - cbn. rewrite card_none, card_full_set. split_and!; try done. intros v. apply andb_false_r.
  - split; intros _ v; [apply none_not_full|apply full_not_none].
Qed.

Lemma good_not_set_card (s : FSetValue) P : good s P -> card (not_set P) = fs_sup + 1 - card P.
Proof using. intros Hs. apply card_not_set. intros v. by apply (good_range s). Qed.

Lemma init_value_settled c s P :
  rooms c -> good s P -> exists c', init_value c s = Some c' /\ settled c' P (not_set P) /\ isValue c' = true.
Proof using Hg.
  intros [Ri Ro] Hs. pose proof (good_card s P Hs) as Hk. pose proof (good_not_set_card s P Hs) as Hn.
  assert (forall c', cholds c' P (not_set P) -> _card_min c' = card P -> _card_max c' = card P -> _known_in c' = card P ->
    _known_not_in c' = fs_sup + 1 - card P -> settled c' P (not_set P) /\ isValue c' = true) as Hgo.
  { intros c' Hc' E1 E2 E3 E4. split; [|unfold isValue; rewrite E1, E2, E3; lia]. split; [|split].
    - split; [done|]. rewrite E1, E2, E3, E4, Hn. split_and!; try lia. intros v. unfold not_set. destruct (P v); lia.
    - done.
    - intros _ v. symmetry. apply not_not_set. intros u. by apply (good_range s). }
  unfold init_value. destruct (FSetValue._normal s) eqn:Nm.
  - destruct (good_normal s P Hs Nm) as [Bs Ms]. cbn [_in _not_in set_card set_known]. rewrite (words1_copy _ _ Ri Bs). ored.
    destruct (not_words_holds (FSetValue._in s) (FSetValue._other s) (_not_in c) P (_OUT c) Ro Bs Ms) as (w & -> & Hw). ored.
    eexists; split; [done|]. apply Hgo; try (cbn; lia). split; [by apply words_holds|exact Hw].
  - pose proof (good_extended s P Hs Nm) as Rs. unfold assign_in. rewrite (assign_repr Hg _ _ P Rs). ored.
    cbn [_IN set_domains]. destruct (op_not_repr Hg _ P Rs) as (d & -> & Hd). ored. unfold assign_out. rewrite (assign_repr Hg _ _ _ Hd). ored.
    eexists; split; [done|]. apply Hgo; try (cbn; lia). split; (split; [done|done]).
Qed.

Lemma init_copy_spec c y I O :
  rooms c -> cholds y I O -> exists c', init_copy c y = Some c' /\ cholds c' I O /\ same_card y c' /\
    _known_in c' = _known_in y /\ _known_not_in c' = _known_not_in y.
Proof using Hg.
  intros [Ri Ro] Hy. unfold init_copy. destruct (_normal y) eqn:Ny.
  - destruct (cholds_normal y I O Hy Ny) as [[Bi Mi] [Bo Mo]]. rewrite (words1_copy _ _ Ri Bi), (words1_copy _ _ Ro Bo). ored.
    eexists; split; [done|]. split; [|done]. split; by apply words_holds.
  - destruct (cholds_extended y I O Hy Ny) as [Hi Ho]. unfold assign_in, assign_out. rewrite (assign_repr Hg _ _ I Hi). ored.
    cbn [_OUT set_domains]. rewrite (assign_repr Hg _ _ O Ho). ored. eexists; split; [done|]. split; [|done]. split; by split.
Qed.

(** [FSetValue::init(const FSetConstraint &)] on a determined constraint gives its only solution. *)
Lemma value_init_val s c I O :
  room (FSetValue._in s) -> tight c I O -> isValue c = true -> exists s', value_init s c = Some s' /\ val s' I.
Proof using Hg.
  intros Rs (Hc & _ & Hk & _) Hv. unfold value_init, isValue in *. destruct (_normal c) eqn:Nc.
  - destruct (cholds_normal c I O Hc Nc) as [[Bi Mi] _]. rewrite (words1_copy _ _ Rs Bi). ored. eexists; split; [done|].
    split; [|cbn; lia]. split; [apply Bi|]. split; [apply Bi|exact Mi].
  - destruct (cholds_extended c I O Hc Nc) as [Hi _]. rewrite (assign_repr Hg _ _ I Hi). ored. eexists; split; [done|].
    split; [|cbn; lia]. by split.
Qed.

(** From descriptions of the known elements and bounds. *)
Lemma newConstraint_spec c c_min c_max ins outs :
  rooms c -> descr_valid ins = true -> descr_valid outs = true -> 0 <= c_min ->
  exists c', newConstraint c c_min c_max ins outs = Some c' /\
    if isValid c' then cholds c' (descr_set ins) (descr_set outs) /\ _card_min c' = c_min /\ _card_max c' = c_max
    else forall S, ~ sol (descr_set ins) (descr_set outs) c_min c_max S.
Proof using Hg.
  intros [Ri Ro] Hin Hout Hm. unfold newConstraint. destruct (initDescr_repr Hg (_IN c) ins Hin) as (i & -> & Hi).
  destruct (initDescr_repr Hg (_OUT c) outs Hout) as (o & -> & Ho). ored. cbn [_IN _OUT set_domains].
  destruct (op_and_repr Hg i o _ _ Hi Ho) as (d & -> & Hd). ored. destruct (Z.eqb_spec (size d) 0) as [E0|Hne]; cbn [negb].
  - match goal with |- context [maybeToNormal ?c0] =>
      destruct (maybeToNormal_cholds Hg c0 (descr_set ins) (descr_set outs)) as (b & c1 & -> & Hc1 & F1 & F2 & F3 & _) end;
      [done|split; by split|]. ored. cbn in F1, F2, F3. rewrite F1, F2, F3. eexists; split; [done|].
    destruct ((c_max <? size i) || (c_max <? c_min)) eqn:E.
    + cbn. intros S (S1 & _ & _ & S4). apply card_mono in S1. rewrite (repr_card i _ Hi) in E. lia.
    + unfold isValid. rewrite F1. destruct (Z.eqb_spec c_min (-1)); [lia|]. done.
  - eexists; split; [done|]. cbn. intros S (S1 & S2 & _). apply Hne. rewrite (repr_card d _ Hd). apply card_empty.
    intros v. destruct (descr_set ins v) eqn:E; [|done]. by apply S1, S2 in E.
Qed.

(** The constructor for bounds does not check that the lower one is included in the upper one. *)
Lemma newBounds_spec c minimal maximal :
  rooms c -> descr_valid minimal = true -> descr_valid maximal = true ->
  (forall v, descr_set minimal v = true -> descr_set maximal v = true) ->
  exists c', newBounds c minimal maximal = Some c' /\ tight c' (descr_set minimal) (not_set (descr_set maximal)).
Proof using Hg.
  intros [Ri Ro] Hin Hout Hsub. unfold newBounds. destruct (initDescr_repr Hg (_IN c) minimal Hin) as (i & -> & Hi).
  destruct (initDescr_repr Hg (_OUT c) maximal Hout) as (o & -> & Ho). ored.
  destruct (op_not_repr Hg o _ Ho) as (d & -> & Hd). ored. rewrite (assign_repr Hg o d _ Hd). ored.
  match goal with |- context [maybeToNormal ?c0] =>
    destruct (maybeToNormal_cholds Hg c0 (descr_set minimal) (not_set (descr_set maximal))) as (b & c1 & -> & Hc1 & F1 & F2 & F3 & F4) end;
    [done|split; by split|]. ored. cbn in F1, F2, F3, F4. exists c1. split; [done|]. split; [done|]. rewrite F1, F2, F3, F4.
  rewrite (repr_card i _ Hi), (repr_card d _ Hd).
  pose proof (card_not_set (descr_set maximal) (fun v Hv => proj2 (repr_bounds o _ v Ho Hv))) as Hcn.
  pose proof (card_mono _ _ Hsub). split_and!; try lia. intros v. unfold not_set. specialize (Hsub v).
  destruct (descr_set minimal v); [|done]. rewrite Hsub by done. lia.
Qed.
(** ** Building operators *)

Lemma normalized_builds z I O (X : (Z -> bool) -> Prop) :
  cholds z I O -> 0 <= _card_min z -> (forall S, sol I O (_card_min z) (_card_max z) S <-> X S) -> builds (normalized z) X.
Proof using Hg.
  intros Hz Ha HX. destruct (normalize_narrows Hg z I O X Hz Ha HX) as (ok & c & E & Hr). unfold normalized. rewrite E. ored.
  exists c. split; [done|]. destruct ok.
  - destruct Hr as (I' & O' & Ht & Hs). rewrite (live_valid c I' O') by (apply tight_live, Ht). by exists I', O'.
  - destruct Hr as [-> Hno]. done.
Qed.

Lemma builds_ext r (X Y : (Z -> bool) -> Prop) : (forall S, X S <-> Y S) -> builds r X -> builds r Y.
Proof using.
  intros HXY (c & E & Hr). exists c. split; [done|]. destruct (isValid c).
  - destruct Hr as (I & O & Ht & Hs). exists I, O. split; [done|]. intros S. by rewrite Hs.
  - intros S. by rewrite <- HXY.
Qed.

(** Two flagged vectors combined by an operation that keeps nothing outside of them. *)
Lemma combine_words dst f g w1 o1 w2 o2 P Q :
  word_op2 f g -> g false false = false -> room dst ->
  bits_ok w1 -> (forall v, bits_mem w1 o1 v = P v) -> bits_ok w2 -> (forall v, bits_mem w2 o2 v = Q v) ->
  exists w, words2 f dst w1 w2 = Some w /\ bits_ok w /\ forall v, bits_mem w (g o1 o2) v = g (P v) (Q v).
Proof using.
  intros Hf Hgf Hd B1 M1 B2 M2. destruct (words2_spec f g dst w1 w2 Hf Hd B1 B2) as (w & E & Bw & Mw).
  exists w. split; [done|]. split; [done|]. intros v. rewrite (bits_combine g w w1 w2) by (auto). rewrite M1, M2.
  destruct (P v) eqn:EP; [rewrite <- M1 in EP; apply bits_mem_range in EP; lia|].
  destruct (Q v) eqn:EQ; [rewrite <- M2 in EQ; apply bits_mem_range in EQ; lia|]. rewrite Hgf. apply andb_false_r.
Qed.

Lemma build_words_spec z i o (oi oo : bool) P Q :
  (exists w, i = Some w /\ bits_ok w /\ forall v, bits_mem w oi v = P v) ->
  (exists w, o = Some w /\ bits_ok w /\ forall v, bits_mem w oo v = Q v) ->
  exists z', build_words z i o oi oo = Some z' /\ cholds z' P Q /\ same_card z z'.
Proof using.
  intros (wi & -> & Bi & Mi) (wo & -> & Bo & Mo). unfold build_words. ored. eexists; split; [done|]. split; [|done].
  split; by apply words_holds.
Qed.

Lemma build_domains_spec z i o P Q :
  rooms z -> (exists d, i = Some d /\ repr d P) -> (exists d, o = Some d /\ repr d Q) ->
  exists z', build_domains z i o = Some z' /\ cholds z' P Q /\ same_card z z'.
Proof using Hg.
  intros [Ri Ro] (di & -> & Hi) (do' & -> & Ho). unfold build_domains, assign_in, assign_out. ored.
  rewrite (assign_repr Hg _ _ P Hi). ored. cbn [_OUT set_domains]. rewrite (assign_repr Hg _ _ Q Ho). ored.
  eexists; split; [done|]. split; [|done]. split; by split.
Qed.

(** The common shape of [unify], [&], [|] and [-]. *)
Lemma build_spec z x y I O I' O' wi wo (oi oo : bool) di do' P Q :
  rooms z -> cholds x I O -> cholds y I' O' ->
  (_normal x = true -> _normal y = true ->
     (exists w, wi = Some w /\ bits_ok w /\ forall v, bits_mem w oi v = P v) /\
     (exists w, wo = Some w /\ bits_ok w /\ forall v, bits_mem w oo v = Q v)) ->
  (forall ix iy ox oy, repr ix I -> repr iy I' -> repr ox O -> repr oy O' ->
     (exists d, di ix iy ox oy = Some d /\ repr d P) /\ (exists d, do' ix iy ox oy = Some d /\ repr d Q)) ->
  exists z', (if _normal x && _normal y then build_words z wi wo oi oo
              else ix ← in_domain x; iy ← in_domain y; ox ← out_domain x; oy ← out_domain y;
                   build_domains z (di ix iy ox oy) (do' ix iy ox oy)) = Some z' /\ cholds z' P Q /\ same_card z z'.
Proof using Hg.
  intros Hz Hx Hy Hw Hd. destruct (_normal x && _normal y) eqn:E.
  - apply andb_true_iff in E as [E1 E2]. destruct (Hw E1 E2) as [Hwi Hwo]. by apply build_words_spec.
  - destruct (in_domain_repr Hg x I O Hx) as (ix & -> & Rix), (in_domain_repr Hg y I' O' Hy) as (iy & -> & Riy).
    destruct (out_domain_repr Hg x I O Hx) as (ox & -> & Rox), (out_domain_repr Hg y I' O' Hy) as (oy & -> & Roy). ored.
    destruct (Hd ix iy ox oy Rix Riy Rox Roy) as [Hdi Hdo]. by apply build_domains_spec.
Qed.

Section binary.
Context z x y I O I' O' (Hz : rooms z) (Hx : live x I O) (Hy : live y I' O').

Lemma or_word_pair dst w1 o1 w2 o2 P Q :
  room dst -> bits_ok w1 /\ (forall v, bits_mem w1 o1 v = P v) -> bits_ok w2 /\ (forall v, bits_mem w2 o2 v = Q v) ->
  exists w, words2 Z.lor dst w1 w2 = Some w /\ bits_ok w /\ forall v, bits_mem w (o1 || o2) v = P v || Q v.
Proof using. intros Hd [B1 M1] [B2 M2]. by apply (combine_words dst Z.lor orb); auto using lor_op2. Qed.

Lemma and_word_pair dst w1 o1 w2 o2 P Q :
  room dst -> bits_ok w1 /\ (forall v, bits_mem w1 o1 v = P v) -> bits_ok w2 /\ (forall v, bits_mem w2 o2 v = Q v) ->
  exists w, words2 Z.land dst w1 w2 = Some w /\ bits_ok w /\ forall v, bits_mem w (o1 && o2) v = P v && Q v.
Proof using. intros Hd [B1 M1] [B2 M2]. by apply (combine_words dst Z.land andb); auto using land_op2. Qed.

Lemma unify_builds :
  builds (unify z x y) (fun S => sol I O (_card_min x) (_card_max x) S /\ sol I' O' (_card_min y) (_card_max y) S).
Proof using Hg Hz Hx Hy.
  unfold unify. destruct (init_settled z Hz) as (z0 & -> & _ & _ & _ & Hz0). ored. cbn [_card_min _card_max set_card].
  set (a := Z.max _ _). set (b := Z.min _ _). destruct (Z.ltb_spec b a).
  { eexists; split; [done|]. cbn. intros S [(_ & _ & _ & H1) (_ & _ & _ & H2)]. lia. }
  destruct (build_spec (set_card z0 a b) x y I O I' O' (words2 Z.lor (_in z0) (_in x) (_in y)) (words2 Z.lor (_not_in z0) (_not_in x) (_not_in y))
    (_otherin x || _otherin y) (_otherout x || _otherout y) (fun ix iy ox oy => FiniteDomain.op_or ix iy) (fun ix iy ox oy => FiniteDomain.op_or ox oy)
    (fun v => I v || I' v) (fun v => O v || O' v) Hz0 (proj1 Hx) (proj1 Hy)) as (z1 & E & H1 & C1 & C2).
  - intros Nx Ny. destruct (cholds_normal x I O (proj1 Hx) Nx), (cholds_normal y I' O' (proj1 Hy) Ny).
    split; apply or_word_pair; (done || apply Hz0).
  - intros. split; by apply (op_or_repr Hg).
  - cbn [_in _not_in set_card] in *. rewrite E. ored.
    apply (normalized_builds z1 _ _ _ H1); [rewrite C1; cbn; destruct Hx, Hy; lia|]. intros S. rewrite C1, C2. cbn. unfold a, b.
    rewrite sol_more_card, sol_more_in, sol_more_out. split.
    + intros (((HS & HO) & HI) & Hc). split; [done|]. destruct HS as (_ & _ & HS & _). by split; [|split; [|split]].
    + intros (HS & HI & HO & _ & Hc). by split.
Qed.

Lemma op_and_builds :
  builds (op_and z x y) (sol (fun v => I v && I' v) (fun v => O v || O' v) 0 (Z.min (_card_max x) (_card_max y))).
Proof using Hg Hz Hx Hy.
  unfold op_and. destruct (init_settled z Hz) as (z0 & -> & _ & _ & _ & Hz0). ored.
  rewrite (live_valid x I O Hx), (live_valid y I' O' Hy). cbn [negb orb].
  destruct (build_spec z0 x y I O I' O' (words2 Z.land (_in z0) (_in x) (_in y)) (words2 Z.lor (_not_in z0) (_not_in x) (_not_in y))
    (_otherin x && _otherin y) (_otherout x || _otherout y) (fun ix iy ox oy => FiniteDomain.op_and ix iy) (fun ix iy ox oy => FiniteDomain.op_or ox oy)
    (fun v => I v && I' v) (fun v => O v || O' v) Hz0 (proj1 Hx) (proj1 Hy)) as (z1 & E & H1 & C1 & C2).
  - intros Nx Ny. destruct (cholds_normal x I O (proj1 Hx) Nx), (cholds_normal y I' O' (proj1 Hy) Ny).
    split; [apply and_word_pair|apply or_word_pair]; (done || apply Hz0).
  - intros. split; [by apply (op_and_repr Hg)|by apply (op_or_repr Hg)].
  - rewrite E. ored. by apply (normalized_builds _ (fun v => I v && I' v) (fun v => O v || O' v)).
Qed.

Lemma op_or_builds :
  builds (op_or z x y) (sol (fun v => I v || I' v) (fun v => O v && O' v) (Z.max (_card_min x) (_card_min y)) (_card_max x + _card_max y)).
Proof using Hg Hz Hx Hy.
  unfold op_or. destruct (init_settled z Hz) as (z0 & -> & _ & _ & _ & Hz0). ored.
  rewrite (live_valid x I O Hx), (live_valid y I' O' Hy). cbn [negb orb].
  destruct (build_spec z0 x y I O I' O' (words2 Z.lor (_in z0) (_in x) (_in y)) (words2 Z.land (_not_in z0) (_not_in x) (_not_in y))
    (_otherin x || _otherin y) (_otherout x && _otherout y) (fun ix iy ox oy => FiniteDomain.op_or ix iy) (fun ix iy ox oy => FiniteDomain.op_and ox oy)
    (fun v => I v || I' v) (fun v => O v && O' v) Hz0 (proj1 Hx) (proj1 Hy)) as (z1 & E & H1 & C1 & C2).
  - intros Nx Ny. destruct (cholds_normal x I O (proj1 Hx) Nx), (cholds_normal y I' O' (proj1 Hy) Ny).
    split; [apply or_word_pair|apply and_word_pair]; (done || apply Hz0).
  - intros. split; [by apply (op_or_repr Hg)|by apply (op_and_repr Hg)].
  - rewrite E. ored. apply (normalized_builds _ (fun v => I v || I' v) (fun v => O v && O' v)); [exact H1| |done].
    cbn. destruct Hx. lia.
Qed.

Lemma op_difference_builds :
  builds (op_difference z x y) (sol (fun v => I v && O' v) (fun v => O v || I' v) 0 (_card_max x)).
Proof using Hg Hz Hx Hy.
  unfold op_difference. destruct (init_settled z Hz) as (z0 & -> & _ & _ & _ & Hz0). ored.
  rewrite (live_valid x I O Hx), (live_valid y I' O' Hy). cbn [negb orb].
  destruct (build_spec z0 x y I O I' O' (words2 Z.land (_in z0) (_in x) (_not_in y)) (words2 Z.lor (_not_in z0) (_not_in x) (_in y))
    (_otherin x && _otherout y) (_otherout x || _otherin y) (fun ix iy ox oy => FiniteDomain.op_and ix oy) (fun ix iy ox oy => FiniteDomain.op_or ox iy)
    (fun v => I v && O' v) (fun v => O v || I' v) Hz0 (proj1 Hx) (proj1 Hy)) as (z1 & E & H1 & C1 & C2).
  - intros Nx Ny. destruct (cholds_normal x I O (proj1 Hx) Nx), (cholds_normal y I' O' (proj1 Hy) Ny).
    split; [apply and_word_pair|apply or_word_pair]; (done || apply Hz0).
  - intros. split; [by apply (op_and_repr Hg)|by apply (op_or_repr Hg)].
  - rewrite E. ored. by apply (normalized_builds _ (fun v => I v && O' v) (fun v => O v || I' v)).
Qed.

(** The complement keeps no bounds but those of its known elements. *)
Lemma op_neg_builds : builds (op_neg z x) (sol O I 0 (fs_sup + 1)).
Proof using Hg Hz Hx.
  unfold op_neg. destruct (init_settled z Hz) as (z0 & -> & _ & A1 & A2 & [Ri Ro]). ored.
  destruct (Z.eqb_spec (_card_min x) (-1)); [destruct Hx; lia|].
  assert (exists z1, (if _normal x then
      build_words z0 (words1 (fun w => w) (_in z0) (_not_in x)) (words1 (fun w => w) (_not_in z0) (_in x)) (_otherout x) (_otherin x)
    else build_domains z0 (Some (_OUT x)) (Some (_IN x))) = Some z1 /\ cholds z1 O I /\ same_card z0 z1) as (z1 & -> & H1 & C1 & C2).
  { destruct (_normal x) eqn:Nx.
    - destruct (cholds_normal x I O (proj1 Hx) Nx) as [[Bi Mi] [Bo Mo]]. apply build_words_spec.
      + exists (_not_in x). split; [by apply words1_copy|done].
      + exists (_in x). split; [by apply words1_copy|done].
    - destruct (cholds_extended x I O (proj1 Hx) Nx) as [Hi Ho]. apply build_domains_spec; [done|by exists (_OUT x)|by exists (_IN x)]. }
  ored. apply (normalized_builds z1 O I); [done|lia|]. intros S. by rewrite C1, C2, A1, A2.
Qed.
End binary.

(** ** What they mean for the solutions *)

Lemma sol_and I O I' O' a b a' b' S T :
  sol I O a b S -> sol I' O' a' b' T -> sol (fun v => I v && I' v) (fun v => O v || O' v) 0 (Z.min b b') (fun v => S v && T v).
Proof using.
  intros (S1 & S2 & S3 & S4) (T1 & T2 & T3 & T4). split_and!.
  - intros v [H1 H2]%andb_true_iff. by rewrite S1, T1.
  - intros v [H1 H2]%andb_true_iff. by rewrite S2, T2.
  - intros v [H1 _]%andb_true_iff. by apply S3.
  - apply card_nonneg.
  - assert (card (fun v => S v && T v) <= card S) by (apply card_mono; intros v [? _]%andb_true_iff; done).
    assert (card (fun v => S v && T v) <= card T) by (apply card_mono; intros v [_ ?]%andb_true_iff; done). lia.
Qed.
Lemma sol_or I O I' O' a b a' b' S T :
  sol I O a b S -> sol I' O' a' b' T ->
  sol (fun v => I v || I' v) (fun v => O v && O' v) (Z.max a a') (b + b') (fun v => S v || T v).
Proof using.
  intros (S1 & S2 & S3 & S4) (T1 & T2 & T3 & T4).
  assert (card S <= card (fun v => S v || T v)) as H1 by (apply card_mono; intros v ->; done).
  assert (card T <= card (fun v => S v || T v)) as H2 by (apply card_mono; intros v ->; apply orb_true_r).
  assert (card (fun v => T v && negb (S v)) <= card T) as H3 by (apply card_mono; intros v [? _]%andb_true_iff; done).
  assert (card S + card (fun v => T v && negb (S v)) = card (fun v => S v || T v)) as H4.
  { apply card_split. intros v _. by destruct (S v), (T v). }
  split; [|split; [|split; [|lia]]].
  - intros v [Hv|Hv]%orb_true_iff; [by rewrite S1|by rewrite T1, orb_true_r].
  - intros v [Hv|Hv]%orb_true_iff; [by rewrite S2|by rewrite T2, andb_false_r].
  - intros v [Hv|Hv]%orb_true_iff; auto.
Qed.

Lemma sol_difference I O I' O' a b a' b' S T :
  sol I O a b S -> sol I' O' a' b' T -> sol (fun v => I v && O' v) (fun v => O v || I' v) 0 b (fun v => S v && negb (T v)).
Proof using.
  intros (S1 & S2 & S3 & S4) (T1 & T2 & _ & _).
  assert (card (fun v => S v && negb (T v)) <= card S) by (apply card_mono; intros v [? _]%andb_true_iff; done).
  pose proof (card_nonneg (fun v => S v && negb (T v))). split; [|split; [|split; [|lia]]].
  - intros v [Hi Ho]%andb_true_iff. rewrite S1 by done. destruct (T v) eqn:ET; [by rewrite T2 in Ho|done].
  - intros v [Hs Ht]%andb_true_iff. rewrite S2 by done. destruct (I' v) eqn:EI; [by rewrite T1 in Ht|done].
  - intros v [Hs _]%andb_true_iff. by apply S3.
Qed.

Lemma sol_neg I O a b S :
  (forall v, O v = true -> 0 <= v <= fs_sup) -> sol I O a b S -> sol O I 0 (fs_sup + 1) (not_set S).
Proof using.
  intros HO (S1 & S2 & S3 & _). pose proof (card_not_set S S3). pose proof (card_nonneg S). pose proof (card_nonneg (not_set S)).
  split; [|split; [|split; [|lia]]].
  - intros v Hv. unfold not_set. rewrite <- fs_sup_fd. destruct (S v) eqn:ES; [by rewrite S2 in Hv|]. apply HO in Hv. lia.
  - intros v. unfold not_set. destruct (I v) eqn:EI; [rewrite S1 by done; lia|done].
  - intros v. unfold not_set. rewrite fs_sup_fd. lia.
Qed.
End building.
End FSetBuild.
