(* ===== verification/FSetTests.v ===== *)
(** * Finite set constraints: tests and views

    What the tests on constraints tell about their solutions, and the values, numbers and lists
    that show what a constraint knows. *)
From S2P Require Import Prelude Word32 FDBase FDIntervals FDBitVector Sort FiniteDomain FDRepr FDQueries FDOperators FDSetOperators FDDescr FSetBits FSetValue FSetValueSpec FSetValueOps FSetValueQueries FSetConstraint FSetOperators FSetNormalize FSetPropagation FSetBuild.
Import FDRepr FDQueries FDOperators FDSetOperators FDDescr FSetBits FSetValueSpec FSetValueOps FSetValueQueries FSetConstraint FSetOperators FSetNormalize FSetPropagation FSetBuild.

Module FSetTests.

Section tests.
Context `{FDEnv} (Hg : globals_ok fd_env).
Implicit Types (c x y z : FSetConstraint) (P Q I O S T : Z -> bool).

(** ** Solutions of a settled constraint *)

(** Every element that is not known is in one solution and not in another, and the bounds of
    the cardinality are attained: the propagation is complete for one constraint. *)
Lemma settled_complete c I O v :
  settled c I O -> 0 <= v <= fs_sup -> I v = false -> O v = false ->
  (exists S, sol I O (_card_min c) (_card_max c) S /\ S v = true) /\
  (exists S, sol I O (_card_min c) (_card_max c) S /\ S v = false).
Proof using.
  intros (Ht & Hout & Hin) Hv HIv HOv. destruct (tight_range c I O Ht) as [HI HO]. pose proof Ht as (Hc & Hd & _ & _ & H1 & H2 & H3).
  pose proof (card_not_set O HO) as Hcn. rewrite fs_sup_fd in Hv.
  assert (forall u, not_set O u = true -> 0 <= u <= fs_sup) as HU by (intros u; unfold not_set; rewrite fs_sup_fd; lia).
  assert (forall u, I u = true -> not_set O u = true) as HIU.
  { intros u Hu. unfold not_set. specialize (Hd u). rewrite Hu in Hd. apply HI in Hu. rewrite fs_sup_fd in Hu. destruct (O u); [done|lia]. }
  assert (not_set O v = true) as HUv by (unfold not_set; rewrite HOv; lia).
  assert (card I < _card_max c) as Hmax.
  { destruct (Z.eq_dec (_card_max c) (card I)) as [E|]; [|lia]. specialize (Hout E v). unfold not_set in Hout. rewrite HIv in Hout. lia. }
  assert (_card_min c < card (not_set O)) as Hmin.
  { destruct (Z.eq_dec (_card_min c) (fs_sup + 1 - card O)) as [E|]; [|lia]. specialize (Hin E v). congruence. }
  pose proof (card_point (fun u => I u || (u =? v)) I v) as Hp1. pose proof (card_point (not_set O) (fun u => not_set O u && negb (u =? v)) v) as Hp2.
  cbn beta in Hp1, Hp2. rewrite HIv, Z.eqb_refl in Hp1. rewrite HUv, Z.eqb_refl in Hp2. simpl in Hp1, Hp2.
  specialize (Hp1 Hv). specialize (Hp2 Hv).
  assert (card (fun u => I u || (u =? v)) = card I + 1) as C1.
  { specialize (Hp1 ltac:(intros u Hu; rewrite (proj2 (Z.eqb_neq u v)) by done; apply orb_false_r)). lia. }
  assert (card (fun u => not_set O u && negb (u =? v)) = card (not_set O) - 1) as C2.
  { specialize (Hp2 ltac:(intros u Hu; rewrite (proj2 (Z.eqb_neq u v)) by done; symmetry; apply andb_true_r)). lia. }
  split.
  - destruct (card_between (fun u => I u || (u =? v)) (not_set O) (Z.max (_card_min c) (card I + 1))) as (S & S1 & S2 & S3); [|done|lia|].
    + intros u [Hu|Hu]%orb_true_iff; [by apply HIU|]. by replace u with v by lia.
    + exists S. split; [|apply S1; by rewrite Z.eqb_refl, orb_true_r]. split; [intros u Hu; apply S1; by rewrite Hu|].
      split; [|split; [|lia]]; intros u Hu%S2; [unfold not_set in Hu; destruct (O u); [lia|done]|by apply HU].
  - destruct (card_between I (fun u => not_set O u && negb (u =? v)) (Z.min (_card_min c) (card (not_set O) - 1))) as (S & S1 & S2 & S3);
      [|intros u [Hu _]%andb_true_iff; by apply HU|lia|].
    + intros u Hu. rewrite HIU by done. destruct (Z.eqb_spec u v) as [->|]; [congruence|done].
    + exists S. split; [|destruct (S v) eqn:E; [apply S2 in E; lia|done]]. split; [done|].
      split; [|split; [|lia]]; intros u Hu%S2; apply andb_true_iff in Hu as [Hu _]; [unfold not_set in Hu; destruct (O u); [lia|done]|by apply HU].
Qed.

Lemma settled_bounds c I O k :
  tight c I O -> _card_min c <= k <= _card_max c -> exists S, sol I O (_card_min c) (_card_max c) S /\ card S = k.
Proof using.
  intros Ht Hk. destruct (tight_range c I O Ht) as [HI HO]. destruct Ht as (Hc & Hd & _ & _ & H1 & H2 & H3).
  destruct (card_between I (not_set O) k) as (S & S1 & S2 & S3).
  - intros v Hv. unfold not_set. specialize (Hd v). rewrite Hv in Hd. apply HI in Hv. rewrite <- fs_sup_fd. destruct (O v); [done|lia].
  - intros v. unfold not_set. rewrite fs_sup_fd. lia.
  - rewrite card_not_set by done. lia.
  - exists S. split; [|done]. split; [done|]. split; [|split; [|lia]]; intros v Hv%S2; unfold not_set in Hv;
      [by destruct (O v); [lia|]|rewrite fs_sup_fd; lia].
Qed.

(** A value has exactly one solution. *)
Lemma value_solution c I O S :
  tight c I O -> isValue c = true -> sol I O (_card_min c) (_card_max c) S -> forall v, S v = I v.
Proof using.
  intros (Hc & Hd & Hk & _) Hv (S1 & S2 & S3 & S4). unfold isValue in Hv. apply sol_exact; [done|done|lia].
Qed.

Lemma settled_value_out c I O : settled c I O -> isValue c = true -> forall v, O v = not_set I v.
Proof using. intros ((_ & _ & Hk & _) & Hout & _) Hv. apply Hout. unfold isValue in Hv. lia. Qed.

(** ** Membership *)

Lemma isIn_known x I O i : cholds x I O -> isIn x i = Some (I i) /\ isNotIn x i = Some (O i).
Proof using.
  intros Hx. unfold isIn, isNotIn. destruct (_normal x) eqn:Nx.
  - destruct (cholds_normal x I O Hx Nx) as [[Bi Mi] [Bo Mo]]. rewrite <- Mi, <- Mo. unfold bits_mem.
    rewrite !fs_testBit_spec by done. destruct (Z.ltb_spec i (32 * fset_high)); [done|]. by rewrite !(andb_comm (i <=? fs_sup)).
  - destruct (cholds_extended x I O Hx Nx) as [Ri Ro]. by rewrite (isIn_repr _ I Ri), (isIn_repr _ O Ro).
Qed.

(** ** Tests of two operands *)

Lemma meets_dom_spec a b P Q :
  repr a P -> repr b Q -> exists r, meets_dom a b = Some r /\ (r = true <-> exists v, P v && Q v = true).
Proof using Hg.
  intros Ha Hb. unfold meets_dom. destruct (op_and_repr Hg a b P Q Ha Hb) as (d & -> & Hd). ored. eexists; split; [done|].
  rewrite (repr_card _ _ Hd), negb_true_iff, Z.eqb_neq. split.
  - intros Hne. apply card_pos_inv. pose proof (card_nonneg (fun v => P v && Q v)). lia.
  - intros (v & E). assert (0 <= v <= fd_sup) as Hr by (apply andb_true_iff in E as [E' _]; exact (proj2 (repr_bounds a P v Ha E'))).
    pose proof (card_pos (fun v => P v && Q v) v Hr E). lia.
Qed.

Lemma meets_not_spec a b P Q :
  repr a P -> repr b Q -> exists r, meets_not a b = Some r /\ (r = true <-> exists v, P v && negb (Q v) = true).
Proof using Hg.
  intros Ha Hb. unfold meets_not. destruct (op_not_repr Hg b Q Hb) as (n & -> & Hn). ored.
  destruct (meets_dom_spec a n P _ Ha Hn) as (r & E & Hr). unfold meets_dom in E. rewrite E. exists r. split; [done|]. rewrite Hr.
  split; intros (v & Hv); exists v; unfold not_set in *.
  - destruct (P v), (Q v); lia.
  - destruct (P v) eqn:EP; [|done]. apply (repr_bounds a P v Ha) in EP as [_ EP]. destruct (Q v); lia.
Qed.

(** Two flagged vectors compared by a test on words and the same test on the flags. *)
Lemma words_meet test g w1 o1 w2 o2 P Q :
  (forall a b, is_word a -> is_word b -> test a b = true <-> exists j, 0 <= j < 32 /\ g (Z.testbit a j) (Z.testbit b j) = true) ->
  g false false = false ->
  bits_ok w1 /\ (forall v, bits_mem w1 o1 v = P v) -> bits_ok w2 /\ (forall v, bits_mem w2 o2 v = Q v) ->
  exists r, any_word test w1 w2 = Some r /\ (g o1 o2 || r = true <-> exists v, g (P v) (Q v) = true).
Proof using.
  intros Ht Hgf [B1 M1] [B2 M2]. destruct (any_word_spec test g w1 w2 Ht B1 B2) as (r & -> & Hr). exists r. split; [done|].
  rewrite orb_true_iff, Hr. setoid_rewrite <- M1. setoid_rewrite <- M2. unfold bits_mem, fset_high. split.
  - intros [Ho|(v & Hv & E)].
    + exists 64. change (64 <? 32 * 2) with false. change (64 <=? fs_sup) with true. by rewrite !andb_true_r.
    + exists v. by rewrite (proj2 (Z.ltb_lt v (32 * 2))) by lia.
  - intros (v & E). destruct (Z.ltb_spec v (32 * 2)).
    + right. exists v. split; [|done]. destruct (decide (0 <= v)); [lia|]. rewrite !words_mem_out in E by lia. congruence.
    + left. destruct (Z.leb_spec v fs_sup); [by rewrite !andb_true_r in E|]. rewrite !andb_false_r in E. congruence.
Qed.

Lemma diff_word_test a b :
  is_word a -> is_word b -> diff_word a b = true <-> exists j, 0 <= j < 32 /\ Z.testbit a j && negb (Z.testbit b j) = true.
Proof using. exact (test_nonzero _ _ diff_op2 a b). Qed.
Lemma meet_word_test a b :
  is_word a -> is_word b -> meet_word a b = true <-> exists j, 0 <= j < 32 /\ Z.testbit a j && Z.testbit b j = true.
Proof using. exact (test_nonzero _ _ land_op2 a b). Qed.

Lemma any_words_spec p q a b : p = Some a -> q = Some b -> any_words p q = Some (a || b).
Proof using. by intros -> ->. Qed.

(** [valid] decides whether a value is a solution. *)
Lemma valid_spec x (fs : FSetValue) I O P :
  cholds x I O -> good fs P ->
  exists b, valid x fs = Some b /\ (b = true <-> sol I O (_card_min x) (_card_max x) P).
Proof using Hg.
  intros Hx Hfs. unfold valid. rewrite (good_card fs P Hfs).
  destruct ((card P <? _card_min x) || (_card_max x <? card P)) eqn:Ec.
  { exists false. split; [done|]. split; [done|]. intros (_ & _ & _ & Hc). lia. }
  assert (forall b, (b = true <-> (exists v, I v && negb (P v) = true) \/ (exists v, O v && P v = true)) ->
    negb b = true <-> sol I O (_card_min x) (_card_max x) P) as Hgo.
  { intros b Hb. destruct b; simpl.
    - split; [done|]. intros (S1 & S2 & _). destruct (proj1 Hb eq_refl) as [(v & E)|(v & E)].
      + apply andb_true_iff in E as [E1 E2]. by rewrite S1 in E2.
      + apply andb_true_iff in E as [E1 E2]. by rewrite S2 in E1.
    - split; [|done]. intros _. split; [|split; [|split; [|lia]]].
      + intros v Hv. destruct (P v) eqn:E; [done|]. assert (false = true); [|done]. apply Hb. left. exists v. by rewrite Hv, E.
      + intros v Hv. destruct (O v) eqn:E; [|done]. assert (false = true); [|done]. apply Hb. right. exists v. by rewrite Hv, E.
      + intros v. by apply (good_range fs). }
  destruct (_normal x && FSetValue._normal fs) eqn:En.
  - apply andb_true_iff in En as [Nx Nf]. destruct (cholds_normal x I O Hx Nx) as [Wi Wo]. pose proof (good_normal fs P Hfs Nf) as Wp.
    destruct (words_meet diff_word (fun a b => a && negb b) _ _ _ _ I P diff_word_test eq_refl Wi Wp) as (r1 & E1 & H1).
    destruct (words_meet meet_word andb _ _ _ _ O P meet_word_test eq_refl Wo Wp) as (r2 & E2 & H2).
    rewrite (any_words_spec _ _ r1 r2 E1 E2). ored.
    set (u1 := _otherin x && negb (FSetValue._other fs)) in *. rewrite (andb_comm (_otherout x)) in H2. set (u2 := FSetValue._other fs && _otherout x) in *.
    exists (negb ((u1 || r1) || (u2 || r2))). split; [by destruct u1, u2, r1, r2|]. apply Hgo. rewrite <- H1, <- H2. apply orb_true_iff.
  - destruct (in_domain_repr Hg x I O Hx) as (i & -> & Hi), (out_domain_repr Hg x I O Hx) as (o & -> & Ho).
    destruct (value_operand Hg fs P Hfs) as [_ (d & -> & Hd)]. ored.
    destruct (meets_not_spec i d I P Hi Hd) as (r1 & E1 & H1), (meets_dom_spec o d O P Ho Hd) as (r2 & E2 & H2).
    rewrite (any_words_spec _ _ r1 r2 E1 E2). ored. eexists; split; [done|]. apply Hgo. rewrite <- H1, <- H2. apply orb_true_iff.
Qed.

(** [%] finds every contradiction between the bounds or the known elements. *)
Lemma op_apart_spec x y I O I' O' :
  cholds x I O -> cholds y I' O' ->
  exists b, op_apart x y = Some b /\
    (b = true <-> _card_max y < _card_min x \/ _card_max x < _card_min y \/ (exists v, I v && O' v = true) \/ (exists v, O v && I' v = true)).
Proof using Hg.
  intros Hx Hy. unfold op_apart. destruct ((_card_max y <? _card_min x) || (_card_max x <? _card_min y)) eqn:Ec.
  { exists true. split; [done|]. split; [|done]. intros _. lia. }
  assert (forall b, (b = true <-> (exists v, I v && O' v = true) \/ (exists v, O v && I' v = true)) ->
    b = true <-> _card_max y < _card_min x \/ _card_max x < _card_min y \/ (exists v, I v && O' v = true) \/ (exists v, O v && I' v = true)) as Hgo.
  { intros b ->. split; [by right; right|]. intros [?|[?|?]]; [lia|lia|done]. }
  destruct (_normal x && _normal y) eqn:En.
  - apply andb_true_iff in En as [Nx Ny]. destruct (cholds_normal x I O Hx Nx) as [Wi Wo], (cholds_normal y I' O' Hy Ny) as [Wi' Wo'].
    destruct (words_meet meet_word andb _ _ _ _ I O' meet_word_test eq_refl Wi Wo') as (r1 & E1 & H1).
    destruct (words_meet meet_word andb _ _ _ _ O I' meet_word_test eq_refl Wo Wi') as (r2 & E2 & H2).
    rewrite (any_words_spec _ _ r1 r2 E1 E2). set (u1 := _otherin x && _otherout y) in *. set (u2 := _otherout x && _otherin y) in *.
    exists ((u1 || r1) || (u2 || r2)). split; [by destruct u1, u2, r1, r2|]. apply Hgo. rewrite <- H1, <- H2. apply orb_true_iff.
  - destruct (in_domain_repr Hg x I O Hx) as (i & -> & Hi), (out_domain_repr Hg x I O Hx) as (o & -> & Ho).
    destruct (in_domain_repr Hg y I' O' Hy) as (i' & -> & Hi'), (out_domain_repr Hg y I' O' Hy) as (o' & -> & Ho'). ored.
    destruct (meets_dom_spec i o' I O' Hi Ho') as (r1 & E1 & H1), (meets_dom_spec i' o I' O Hi' Ho) as (r2 & E2 & H2).
    rewrite (any_words_spec _ _ r1 r2 E1 E2). eexists; split; [done|]. apply Hgo. rewrite <- H1. setoid_rewrite (andb_comm (O _)).
    rewrite <- H2. apply orb_true_iff.
Qed.

Lemma apart_no_common x y I O I' O' S :
  cholds x I O -> cholds y I' O' -> op_apart x y = Some true ->
  sol I O (_card_min x) (_card_max x) S -> sol I' O' (_card_min y) (_card_max y) S -> False.
Proof using Hg.
  intros Hx Hy E (S1 & S2 & _ & S4) (T1 & T2 & _ & T4). destruct (op_apart_spec x y I O I' O' Hx Hy) as (b & E' & Hb).
  rewrite E in E'. injection E' as <-. destruct (proj1 Hb eq_refl) as [?|[?|[(v & Ev)|(v & Ev)]]]; [lia|lia|..];
    apply andb_true_iff in Ev as [E1 E2].
  - by rewrite (T2 v (S1 v E1)) in E2.
  - by rewrite (S2 v (T1 v E2)) in E1.
Qed.
(** ** Subsumption *)

Lemma left_out_test a b :
  is_word a -> is_word b ->
  negb (Z.land (not32 a) b =? 0) = true <-> exists j, 0 <= j < 32 /\ negb (Z.testbit a j) && Z.testbit b j = true.
Proof using.
  apply (test_nonzero (fun a b => Z.land (not32 a) b) (fun a b => negb a && b)). intros u w Hu Hw.
  destruct (diff_op2 w u Hw Hu) as [H1 H2]. rewrite Z.land_comm. split; [done|]. intros j Hj. rewrite H2 by done. apply andb_comm.
Qed.

Definition all_subsets x y I O I' O' : Prop :=
  forall S T, sol I O (_card_min x) (_card_max x) S -> sol I' O' (_card_min y) (_card_max y) T -> forall v, S v = true -> T v = true.

Lemma subsumed_value_left x y I O I' O' :
  settled x I O -> settled y I' O' -> isValue x = true ->
  (forall v, I v = true -> I' v = true) <-> all_subsets x y I O I' O'.
Proof using.
  intros [Htx _] Hy Vx. pose proof Hy as [Hty _]. destruct (tight_range x I O Htx) as [HI _].
  destruct (tight_solvable x I O Htx) as (S0 & HS0), (tight_solvable y I' O' Hty) as (T0 & HT0). split.
  - intros Hsub S T HS HT v Hv. rewrite (value_solution x I O S Htx Vx HS) in Hv. by apply HT, Hsub.
  - intros Hall v Hv. destruct (I' v) eqn:E; [done|]. assert (S0 v = true) as HSv by by apply HS0. destruct (O' v) eqn:E'.
    + specialize (Hall S0 T0 HS0 HT0 v HSv). destruct HT0 as (_ & HT0 & _). by rewrite HT0 in E'.
    + destruct (settled_complete y I' O' v Hy (HI v Hv) E E') as [_ (T & HT & ET)].
      by rewrite (Hall S0 T HS0 HT v HSv) in ET.
Qed.

Lemma subsumed_value_right x y I O I' O' :
  settled x I O -> settled y I' O' -> isValue y = true ->
  (forall v, negb (O v) && O' v = false) <-> all_subsets x y I O I' O'.
Proof using.
  intros Hx Hy Vy. pose proof Hx as [Htx _]. pose proof Hy as [Hty _]. destruct (tight_range y I' O' Hty) as [_ HO'].
  destruct (tight_solvable x I O Htx) as (S0 & HS0), (tight_solvable y I' O' Hty) as (T0 & HT0).
  pose proof (settled_value_out y I' O' Hy Vy) as Hout. split.
  - intros Hno S T HS HT v Hv. rewrite (value_solution y I' O' T Hty Vy HT).
    specialize (Hno v). rewrite Hout in Hno. unfold not_set in Hno. destruct HS as (_ & S2 & S3 & _). rewrite (S2 v Hv) in Hno.
    apply S3 in Hv. rewrite fs_sup_fd in Hv. destruct (I' v); [done|lia].
  - intros Hall v. destruct (O v) eqn:E; [done|]. destruct (O' v) eqn:E'; [|done]. exfalso.
    assert (exists S, sol I O (_card_min x) (_card_max x) S /\ S v = true) as (S & HS & ES).
    { destruct (I v) eqn:EI; [exists S0; split; [done|]; by apply HS0|].
      by apply (settled_complete x I O v Hx (HO' v E') EI E). }
    specialize (Hall S T0 HS HT0 v ES). destruct HT0 as (_ & HT0 & _). by rewrite HT0 in E'.
Qed.

(** When one operand is a value, [isSubsumedBy] decides whether every solution of [x] is a subset of
    every solution of [y]; otherwise it answers no. *)
Lemma isSubsumedBy_spec x y I O I' O' :
  settled x I O -> settled y I' O' ->
  exists b, isSubsumedBy x y = Some b /\ (b = true <-> isValue x || isValue y = true /\ all_subsets x y I O I' O').
Proof using Hg.
  intros Hx Hy. pose proof (subsumed_value_left x y I O I' O' Hx Hy) as HL. pose proof (subsumed_value_right x y I O I' O' Hx Hy) as HR.
  destruct Hx as [Htx _], Hy as [Hty _]. destruct (tight_range x I O Htx) as [HI _], (tight_range y I' O' Hty) as [_ HO'].
  destruct Htx as (Hcx & _ & Hkx & _), Hty as (Hcy & _). unfold isSubsumedBy. destruct (isValue x) eqn:Vx; cbn [orb].
  - specialize (HL eq_refl). destruct (_normal x && _normal y) eqn:En.
    + apply andb_true_iff in En as [Nx Ny]. destruct (cholds_normal x I O Hcx Nx) as [Wi _], (cholds_normal y I' O' Hcy Ny) as [Wi' _].
      destruct (words_meet diff_word (fun a b => a && negb b) _ _ _ _ I I' diff_word_test eq_refl Wi Wi') as (r & -> & Hr).
      exists (negb ((_otherin x && negb (_otherin y)) || r)). split; [by destruct (_otherin x && negb (_otherin y)), r|].
      rewrite negb_true_iff, <- not_true_iff_false, Hr, <- HL. split.
      * intros Hno. split; [done|]. intros v Hv. destruct (I' v) eqn:E; [done|]. destruct Hno. exists v. by rewrite Hv, E.
      * intros [_ Hsub] (v & E). apply andb_true_iff in E as [E1 E2]. by rewrite Hsub in E2.
    + destruct (in_domain_repr Hg x I O Hcx) as (i & -> & Hi), (in_domain_repr Hg y I' O' Hcy) as (j & -> & Hj). ored.
      destruct (op_and_repr Hg i j I I' Hi Hj) as (d & -> & Hd). ored. eexists; split; [done|].
      rewrite (repr_card _ _ Hd), Hkx, <- HL, <- (card_sub I I') by (intros v; rewrite <- fs_sup_fd; apply HI).
      assert (card (fun v => I v && I' v) <= card I) by (apply card_mono; intros v [? _]%andb_true_iff; done).
      rewrite negb_true_iff, Z.ltb_ge. lia.
  - destruct (isValue y) eqn:Vy; [|by exists false; intuition]. specialize (HR eq_refl). destruct (_normal x && _normal y) eqn:En.
    + apply andb_true_iff in En as [Nx Ny]. destruct (cholds_normal x I O Hcx Nx) as [_ Wo], (cholds_normal y I' O' Hcy Ny) as [_ Wo'].
      destruct (words_meet _ (fun a b => negb a && b) _ _ _ _ O O' left_out_test eq_refl Wo Wo') as (r & -> & Hr).
      exists (negb ((negb (_otherout x) && _otherout y) || r)). split; [by destruct (negb (_otherout x) && _otherout y), r|].
      rewrite negb_true_iff, <- not_true_iff_false, Hr, <- HR. split.
      * intros Hno. split; [done|]. intros v. destruct (negb (O v) && O' v) eqn:E; [|done]. destruct Hno. by exists v.
      * intros [_ Hall] (v & E). by rewrite Hall in E.
    + destruct (out_domain_repr Hg x I O Hcx) as (i & -> & Hi), (out_domain_repr Hg y I' O' Hcy) as (j & -> & Hj). ored.
      destruct (op_not_repr Hg i O Hi) as (n & -> & Hn). ored. destruct (meets_dom_spec n j _ O' Hn Hj) as (r & E & Hr).
      unfold meets_dom in E. destruct (FiniteDomain.op_and n j) as [d|]; [|done]. ored in E. injection E as <-. ored.
      eexists; split; [done|]. rewrite <- (negb_involutive (size d =? 0)), negb_true_iff, <- not_true_iff_false, Hr, <- HR. split.
      * intros Hno. split; [done|]. intros v. destruct (negb (O v) && O' v) eqn:E; [|done]. destruct Hno. exists v. unfold not_set.
        apply andb_true_iff in E as [E1 E2]. rewrite E1, E2. apply HO' in E2. rewrite fs_sup_fd in E2. lia.
      * intros [_ Hall] (v & E). specialize (Hall v). unfold not_set in E. destruct (O v), (O' v); lia.
Qed.

(** ** Equality of what is known *)

Lemma op_eq_spec x y I O I' O' :
  tight x I O -> tight y I' O' ->
  exists b, op_eq x y = Some b /\
    (b = true <-> _normal x = _normal y /\ _card_min x = _card_min y /\ _card_max x = _card_max y /\
       (forall v, I v = I' v) /\ (forall v, O v = O' v)).
Proof using Hg.
  intros Htx Hty. destruct (tight_range x I O Htx) as [HI HO], (tight_range y I' O' Hty) as [HI' HO'].
  destruct Htx as (Hcx & _ & Hkx & Hnx & _), Hty as (Hcy & _ & Hky & Hny & _). unfold op_eq. rewrite Hkx, Hnx, Hky, Hny.
  destruct (negb (_card_min x =? _card_min y) || negb (_card_max x =? _card_max y) || negb (card O =? card O') || negb (card I =? card I')) eqn:Ec.
  { exists false. split; [done|]. split; [done|]. intros (_ & E1 & E2 & E3 & E4).
    rewrite E1, E2, (card_ext _ _ E3), (card_ext _ _ E4), !Z.eqb_refl in Ec. done. }
  assert (_card_min x = _card_min y /\ _card_max x = _card_max y /\ card O = card O' /\ card I = card I') as (C1 & C2 & C3 & C4) by lia.
  destruct (Bool.eqb (_normal x) (_normal y)) eqn:En; cbn [negb].
  2:{ exists false. split; [done|]. split; [done|]. intros [E _]. by rewrite E, eqb_reflx in En. }
  apply eqb_prop in En.
  assert (forall b, (b = true <-> (forall v, I v = I' v) /\ (forall v, O v = O' v)) -> b = true <->
    _normal x = _normal y /\ _card_min x = _card_min y /\ _card_max x = _card_max y /\ (forall v, I v = I' v) /\ (forall v, O v = O' v)) as Hgo.
  { intros b ->. intuition. }
  destruct (_normal x) eqn:Nx; symmetry in En.
  - destruct (cholds_normal x I O Hcx Nx) as [Wi Wo], (cholds_normal y I' O' Hcy En) as [Wi' Wo'].
    destruct (words_meet _ xorb _ _ _ _ I I' xorb_test eq_refl Wi Wi') as (r1 & E1 & H1).
    destruct (words_meet _ xorb _ _ _ _ O O' xorb_test eq_refl Wo Wo') as (r2 & E2 & H2).
    rewrite (any_words_spec _ _ r1 r2 E1 E2). ored.
    exists (negb ((xorb (_otherin x) (_otherin y) || r1) || (xorb (_otherout x) (_otherout y) || r2))). split.
    { by destruct (_otherin x), (_otherin y), (_otherout x), (_otherout y), r1, r2. }
    apply Hgo. rewrite negb_true_iff, <- not_true_iff_false, orb_true_iff, H1, H2. split.
    + intros Hno. split; intros v; apply xorb_eq; apply not_true_iff_false; intros E; apply Hno; [left|right]; by exists v.
    + intros [HE HE'] [(v & E)|(v & E)]; [rewrite HE in E|rewrite HE' in E]; by rewrite xorb_nilpotent in E.
  - destruct (cholds_extended x I O Hcx Nx) as [Hi Ho], (cholds_extended y I' O' Hcy En) as [Hi' Ho'].
    destruct (op_and_repr Hg _ _ I I' Hi Hi') as (d & -> & Hd), (op_and_repr Hg _ _ O O' Ho Ho') as (e & -> & He). ored.
    eexists; split; [done|]. apply Hgo. rewrite (repr_card _ _ Hd), (repr_card _ _ He).
    assert (forall P Q, (forall v, P v = true -> 0 <= v <= fs_sup) -> (forall v, Q v = true -> 0 <= v <= fs_sup) -> card P = card Q ->
      card (fun v => P v && Q v) = card P <-> forall v, P v = Q v) as Heq.
    { intros P Q HP HQ Hc. rewrite (card_sub P Q) by (intros v; rewrite <- fs_sup_fd; apply HP). split.
      - intros Hsub v. symmetry. apply (sol_exact P Q Hsub HQ). lia.
      - intros HPQ v. by rewrite HPQ. }
    rewrite <- (Heq I I' HI HI' C4), <- (Heq O O' HO HO' C3). lia.
Qed.
(** ** Views as values *)

Definition unknown_set I O (v : Z) : bool := not_set (fun v => I v || O v) v.

Lemma unknown_words_spec x I O :
  cholds x I O -> _normal x = true ->
  exists w, unknown_words x = Some w /\ bits_ok w /\ forall v, bits_mem w (negb (_otherin x || _otherout x)) v = unknown_set I O v.
Proof using.
  intros Hx Nx. destruct (cholds_normal x I O Hx Nx) as [[Bi Mi] [Bo Mo]]. unfold unknown_words.
  destruct (words2_spec _ (fun a b => negb (a || b)) [0; 0] (_in x) (_not_in x) nor_op2 ltac:(done) Bi Bo) as (w & -> & Bw & Mw).
  exists w. split; [done|]. split; [done|]. intros v. unfold unknown_set, not_set. rewrite <- Mi, <- Mo, <- fs_sup_fd.
  destruct (decide (0 <= v <= fs_sup)) as [Hv|Hv].
  - rewrite (bits_combine (fun a b => negb (a || b)) w (_in x) (_not_in x) (_otherin x) (_otherout x)); [lia|by right|exact Mw].
  - destruct (bits_mem w _ v) eqn:E; [apply bits_mem_range in E; lia|]. lia.
Qed.

Lemma unknown_domain_spec x I O :
  cholds x I O -> _normal x = false -> exists d, unknown_domain x = Some d /\ repr d (unknown_set I O).
Proof using Hg.
  intros Hx Nx. destruct (cholds_extended x I O Hx Nx) as [Ri Ro]. unfold unknown_domain.
  destruct (op_or_repr Hg _ _ I O Ri Ro) as (u & -> & Hu). ored. by apply (op_not_repr Hg).
Qed.

Lemma views_good r x I O :
  room (FSetValue._in r) -> cholds x I O ->
  (exists s, getGlbSet r x = Some s /\ good s I) /\ (exists s, getLubSet r x = Some s /\ good s (not_set O)) /\
  (exists s, getUnknownSet r x = Some s /\ good s (unknown_set I O)) /\ (exists s, getNotInSet r x = Some s /\ good s O).
Proof using Hg.
  intros Hr Hx. unfold getGlbSet, getLubSet, getUnknownSet, getNotInSet. destruct (_normal x) eqn:Nx.
  - destruct (cholds_normal x I O Hx Nx) as [[Bi Mi] [Bo Mo]].
    assert (forall w oth P, bits_ok w -> (forall v, bits_mem w oth v = P v) -> exists s, FSetValue.of_bits r w oth = Some s /\ good s P) as Hgo.
    { intros w oth P Bw Mw. destruct (of_bits_good r w oth Hr Bw) as (s & E & Hs). exists s. split; [done|]. by apply (good_ext s _ P Mw). }
    split; [by apply Hgo|]. split; [|split; [|by apply Hgo]].
    + unfold lub_words. destruct (words1_not [0; 0] (_not_in x) ltac:(done) Bo) as (w & -> & Bw & Mw). ored. apply Hgo; [done|].
      intros v. rewrite (bits_not w (_not_in x)) by done. unfold not_set. by rewrite Mo.
    + destruct (unknown_words_spec x I O Hx Nx) as (w & -> & Bw & Mw). ored. by apply Hgo.
  - destruct (cholds_extended x I O Hx Nx) as [Ri Ro]. split; [by apply (init_fd_good Hg)|]. split; [|split; [|by apply (init_fd_good Hg)]].
    + destruct (op_not_repr Hg _ O Ro) as (d & -> & Hd). ored. by apply (init_fd_good Hg).
    + destruct (unknown_domain_spec x I O Hx Nx) as (d & -> & Hd). ored. by apply (init_fd_good Hg).
Qed.

(** The cardinalities of the views; for an upper bound or the unknown elements the code
    subtracts from [fs_sup], the largest element, instead of the number of elements. *)
Lemma cards_spec x I O :
  cholds x I O -> (forall v, I v && O v = false) ->
  getGlbCard x = Some (card I) /\ getNotInCard x = Some (card O) /\
  getLubCard x = Some (card (not_set O) - (if _normal x then 0 else 1)) /\
  (_otherin x && _otherout x = false -> getUnknownCard x = Some (card (unknown_set I O) - 1)).
Proof using.
  intros Hx Hd. pose proof (fun v => cholds_range x I O v Hx) as Hrg.
  assert (card (not_set O) = fs_sup + 1 - card O) as Hn by exact (card_not_set O (fun v => proj2 (Hrg v))).
  assert (card (unknown_set I O) = fs_sup + 1 - card I - card O) as Hu.
  { unfold unknown_set. rewrite card_not_set.
    - rewrite <- (card_split I O (fun v => I v || O v)); [lia|]. intros v _. specialize (Hd v). destruct (I v), (O v); done.
    - intros v [Hv|Hv]%orb_true_iff; [by apply (proj1 (Hrg v))|by apply (proj2 (Hrg v))]. }
  unfold getGlbCard, getNotInCard, getLubCard, getUnknownCard. rewrite Hn, Hu. destruct (_normal x) eqn:Nx.
  - destruct (cholds_normal x I O Hx Nx) as [[Bi Mi] [Bo Mo]].
    destruct (card_bits _ (_otherin x) Bi) as (i & -> & Hi), (card_bits _ (_otherout x) Bo) as (o & -> & Ho). ored.
    rewrite <- (card_ext _ _ Mi), <- (card_ext _ _ Mo), Hi, Ho. split_and!; [done|done|f_equal; lia|].
    intros Hoo. f_equal. destruct (_otherin x), (_otherout x); try done; simpl; lia.
  - destruct (cholds_extended x I O Hx Nx) as [Ri Ro]. rewrite (repr_card _ _ Ri), (repr_card _ _ Ro).
    split_and!; [done|done|f_equal; lia|]. intros _. f_equal. lia.
Qed.

(** ** Lists *)

Definition has_low P : Prop := exists v, 0 <= v < 64 /\ P v = true.
Definition lists_as (d : option OZ_Term) P : Prop :=
  exists t, d = Some t /\ descr_valid t = true /\ forall v, descr_set t v = P v.

Lemma list_of_words w (neg oth : bool) P Q :
  33 <= fd_bv_conv_max_high fd_env -> bits_ok w -> (forall v, bits_mem w oth v = P v) ->
  (forall v, (0 <=? v) && (v <=? fs_sup) && xorb neg (P v) = Q v) -> has_low Q -> lists_as (getAsList w neg oth) Q.
Proof using.
  intros Hcap Bw Mw HQ (v & Hv & E). destruct (getAsList_bits w neg oth Bw Hcap) as (d & Ed & Hvd & Hd).
  - right. exists v. split; [done|]. rewrite <- HQ, <- Mw in E. unfold bits_mem, fset_high in E.
    rewrite (proj2 (Z.ltb_lt v (32 * 2))) in E by lia. destruct (xorb neg (words_mem w v)); [done|lia].
  - exists d. split; [done|]. split; [done|]. intros u. by rewrite Hd, Mw, HQ.
Qed.

(** The four lists describe the four sets; in normal representation a list without an element
    below 64 is not modelled further (the code reads in front of an array). *)
Lemma lists_spec x I O :
  33 <= fd_bv_conv_max_high fd_env -> cholds x I O ->
  (_normal x = true -> has_low I -> lists_as (getKnownInList x) I) /\
  (_normal x = true -> has_low O -> lists_as (getKnownNotInList x) O) /\
  (_normal x = true -> has_low (unknown_set I O) -> lists_as (getUnknownList x) (unknown_set I O)) /\
  (_normal x = true -> has_low (not_set O) -> lists_as (getLubList x) (not_set O)) /\
  (_normal x = false -> lists_as (getKnownInList x) I /\ lists_as (getKnownNotInList x) O /\
     lists_as (getUnknownList x) (unknown_set I O) /\ lists_as (getLubList x) (not_set O)).
Proof using Hg.
  intros Hcap Hx. pose proof (fun v => cholds_range x I O v Hx) as Hrg. unfold getKnownInList, getKnownNotInList, getUnknownList, getLubList.
  assert (forall P v, (P v = true -> 0 <= v <= fs_sup) -> (0 <=? v) && (v <=? fs_sup) && xorb false (P v) = P v) as Hid.
  { intros P v HP. rewrite xorb_false_l. destruct (P v); [specialize (HP eq_refl); lia|apply andb_false_r]. }
  destruct (_normal x) eqn:Nx.
  - destruct (cholds_normal x I O Hx Nx) as [[Bi Mi] [Bo Mo]]. split; [|split; [|split; [|split; [|done]]]]; intros _ Hlow.
    + apply (list_of_words _ _ _ I); try done. intros v. apply Hid. by apply (proj1 (Hrg v)).
    + apply (list_of_words _ _ _ O); try done. intros v. apply Hid. by apply (proj2 (Hrg v)).
    + destruct (unknown_words_spec x I O Hx Nx) as (w & -> & Bw & Mw). ored.
      apply (list_of_words _ _ _ (unknown_set I O)); try done. intros v. apply Hid. unfold unknown_set, not_set. rewrite fs_sup_fd. lia.
    + apply (list_of_words _ _ _ O); done.
  - destruct (cholds_extended x I O Hx Nx) as [Ri Ro]. split; [done|]. split; [done|]. split; [done|]. split; [done|]. intros _.
    split; [by apply (getAsList_repr Hg)|]. split; [by apply (getAsList_repr Hg)|]. split.
    + destruct (unknown_domain_spec x I O Hx Nx) as (d & -> & Hd). ored. by apply (getAsList_repr Hg).
    + destruct (op_not_repr Hg _ O Ro) as (d & -> & Hd). ored. by apply (getAsList_repr Hg).
Qed.
End tests.
End FSetTests.
