(* ===== verification/FSetTheorems.v ===== *)
(** * Finite set constraints: the properties of the component

    [sol I O a b S]: the set [S] contains [I], meets nothing of [O], and has between [a] and [b]
    elements.  A constraint stands for the sets that are its solutions; the theorems say which
    solutions the operators keep. *)
From S2P Require Import Prelude Word32 FDBase FDIntervals FDBitVector Sort FiniteDomain FDRepr FDQueries FDOperators FDSetOperators FDDescr FDTheorems FSetBits FSetValue FSetValueSpec FSetValueOps FSetValueQueries FSetValueTheorems FSetConstraint FSetOperators FSetNormalize FSetPropagation FSetBuild FSetTests.
Import FDRepr FDQueries FDOperators FDSetOperators FDDescr FSetBits FSetValueSpec FSetValueOps FSetValueQueries FSetConstraint FSetOperators FSetNormalize FSetPropagation FSetBuild FSetTests.

#[local] Existing Instance default_env.

(** An object with junk in it, the unconstrained set, and the value [30..200]. *)
Definition raw : FSetConstraint := FSC 9 4 3 2 false true true FiniteDomain.initEmpty FiniteDomain.initEmpty [5; 6] [7; 8].
Definition any_set : FSetConstraint := default raw (init raw).
Definition gap_value : FSetConstraint := default raw (init_value raw gap_set).

Lemma raw_rooms : rooms raw.
Proof. done. Qed.

Lemma any_set_settled : settled any_set none_set none_set.
Proof. unfold any_set. destruct (init_settled raw raw_rooms) as (c & -> & Hc & _). exact Hc. Qed.

Lemma gap_value_settled : settled gap_value (range_set 30 200) (not_set (range_set 30 200)) /\ isValue gap_value = true.
Proof.
  unfold gap_value. destruct (init_value_settled default_env_ok raw gap_set _ raw_rooms gap_set_good) as (c & -> & Hc & Hv). by split.
Qed.

(** The solutions of a constraint that knows [I] and [O]. *)
Definition solutions (c : FSetConstraint) (I O S : Z -> bool) : Prop := sol I O (_card_min c) (_card_max c) S.

Section properties.
Context (env : FDEnv) (Hg : globals_ok (@fd_env env)).

(** C22: [normalize] decides whether a constraint has a solution: it returns false exactly if
    there is none, and otherwise keeps all solutions and draws every conclusion: an element that
    is not known to be in or out afterwards is in one solution and not in another, and every
    cardinality between the bounds is that of a solution. *)
Theorem normalize_complete (c : FSetConstraint) (I O : Z -> bool) :
  cholds c I O -> isValid c = true ->
  exists ok c', normalize c = Some (ok, c') /\
    if ok : bool then exists I' O', settled c' I' O' /\ (forall S, solutions c' I' O' S <-> solutions c I O S) /\
      (forall v, 0 <= v <= fs_sup -> I' v = false -> O' v = false ->
         (exists S, solutions c I O S /\ S v = true) /\ (exists S, solutions c I O S /\ S v = false)) /\
      (forall k, _card_min c' <= k <= _card_max c' -> exists S, solutions c I O S /\ card S = k)
    else isValid c' = false /\ forall S, ~ solutions c I O S.
Proof using Hg.
  intros Hc Hv. destruct (normalize_spec Hg c I O Hc Hv) as (ok & c' & E & Hr). exists ok, c'. split; [done|]. destruct ok; [|done].
  destruct Hr as (I' & O' & Hs & Heq). exists I', O'. split; [done|]. split; [done|]. split.
  - intros v Hv2 HI HO. destruct (settled_complete c' I' O' v Hs Hv2 HI HO) as [(S & H1 & H2) (T & H3 & H4)].
    split; [exists S|exists T]; (split; [by apply Heq|done]).
  - intros k Hk. destruct (settled_bounds c' I' O' k (proj1 Hs) Hk) as (S & H1 & H2). exists S. split; [by apply Heq|done].
Qed.

(** C23: Every narrowing operator on a normalised constraint keeps exactly the solutions that satisfy what it adds, and
    fails exactly if there are none: cardinality bounds, one element in or out, lower and upper
    bounds for the elements, equality ([<<=]), subset, superset and disjointness with another
    constraint, superset and subset of a value.  The element that is put in or out, the bound for the elements, and the
    bound of the two operators for one cardinality bound are between 0 and [fs_sup]; the bounds of [putCard] are any. *)
Theorem narrowing_exact (x y : FSetConstraint) (s neg : FSetValue) (I O I' O' P : Z -> bool) (a b i : Z) :
  settled x I O -> cholds y I' O' -> good s P -> room (FSetValue._in neg) -> 0 <= i <= fs_sup ->
  narrows (putCard x a b) (fun S => solutions x I O S /\ a <= card S <= b) /\
  (exists r, op_card_le x i = negated r /\ narrows r (fun S => solutions x I O S /\ card S <= i)) /\
  (exists r, op_card_ge x i = negated r /\ narrows r (fun S => solutions x I O S /\ i <= card S)) /\
  narrows (op_plus x i) (fun S => solutions x I O S /\ S i = true) /\
  narrows (op_minus x i) (fun S => solutions x I O S /\ S i = false) /\
  narrows (ge x i) (fun S => solutions x I O S /\ forall v, S v = true -> i <= v) /\
  narrows (le x i) (fun S => solutions x I O S /\ forall v, S v = true -> v <= i) /\
  narrows (op_tell x y) (fun S => solutions x I O S /\ solutions y I' O' S) /\
  narrows (op_le x y) (fun S => solutions x I O S /\ (forall v, S v = true -> O' v = false) /\ card S <= _card_max y) /\
  narrows (op_ge x y) (fun S => solutions x I O S /\ (forall v, I' v = true -> S v = true) /\ _card_min y <= card S) /\
  narrows (op_disjoint x y) (fun S => solutions x I O S /\ forall v, S v = true -> I' v = false) /\
  (exists r, op_or_value x s = negated r /\ narrows r (fun S => solutions x I O S /\ forall v, P v = true -> S v = true)) /\
  (exists r, op_and_value neg x s = negated r /\ narrows r (fun S => solutions x I O S /\ forall v, S v = true -> P v = true)).
Proof using Hg.
  intros Hx Hy Hs Hneg Hi. pose proof (tight_live x I O (proj1 Hx)) as Hl. split_and!.
  - by apply putCard_narrows.
  - by apply op_card_le_narrows.
  - by apply op_card_ge_narrows.
  - by apply op_plus_narrows.
  - by apply op_minus_narrows.
  - by apply ge_narrows.
  - by apply le_narrows.
  - by apply op_tell_narrows.
  - by apply (op_le_narrows Hg x y I O I' O').
  - by apply (op_ge_narrows Hg x y I O I' O').
  - by apply (op_disjoint_narrows Hg x y I O I' O').
  - by apply op_or_value_narrows.
  - by apply op_and_value_narrows.
Qed.

(** C24: [unify] has exactly the common solutions of its operands; the constraints of the
    intersection, union, difference and complement have the corresponding combination of every
    choice of solutions of the operands among theirs, so propagating from them loses no set. *)
Theorem building_sound (z x y : FSetConstraint) (I O I' O' : Z -> bool) :
  rooms z -> settled x I O -> settled y I' O' ->
  builds (unify z x y) (fun S => solutions x I O S /\ solutions y I' O' S) /\
  (exists X, builds (op_and z x y) X /\ forall S T, solutions x I O S -> solutions y I' O' T -> X (fun v => S v && T v)) /\
  (exists X, builds (op_or z x y) X /\ forall S T, solutions x I O S -> solutions y I' O' T -> X (fun v => S v || T v)) /\
  (exists X, builds (op_difference z x y) X /\ forall S T, solutions x I O S -> solutions y I' O' T -> X (fun v => S v && negb (T v))) /\
  (exists X, builds (op_neg z x) X /\ forall S, solutions x I O S -> X (not_set S)).
Proof using Hg.
  intros Hz Hx Hy. pose proof (tight_live x I O (proj1 Hx)) as Lx. pose proof (tight_live y I' O' (proj1 Hy)) as Ly. split_and!.
  - by apply (unify_builds Hg).
  - eexists; split; [by apply (op_and_builds Hg z x y I O I' O')|]. intros S T. apply sol_and.
  - eexists; split; [by apply (op_or_builds Hg z x y I O I' O')|]. intros S T. apply sol_or.
  - eexists; split; [by apply (op_difference_builds Hg z x y I O I' O')|]. intros S T. apply sol_difference.
  - eexists; split; [by apply (op_neg_builds Hg z x I O)|]. intros S. apply sol_neg. apply (tight_range x I O (proj1 Hx)).
Qed.

(** The tests on constraints: [valid] decides whether a value is a solution; [isIn] and
    [isNotIn] read what is known; [%] only answers yes if there is no common solution;
    [isSubsumedBy] decides whether all solutions of [x] are subsets of all solutions of [y]
    provided one of the two is a value, and answers no otherwise; [==] compares what is known,
    the bounds and the representation. *)
Theorem tests_correct (x y : FSetConstraint) (s : FSetValue) (I O I' O' P : Z -> bool) (i : Z) :
  settled x I O -> settled y I' O' -> good s P ->
  (exists b, valid x s = Some b /\ (b = true <-> solutions x I O P)) /\
  isIn x i = Some (I i) /\ isNotIn x i = Some (O i) /\
  (exists b, op_apart x y = Some b /\ (b = true -> forall S, solutions x I O S -> solutions y I' O' S -> False)) /\
  (exists b, isSubsumedBy x y = Some b /\ (b = true <-> (isValue x || isValue y) = true /\ all_subsets x y I O I' O')) /\
  (exists b, op_eq x y = Some b /\
     (b = true <-> _normal x = _normal y /\ _card_min x = _card_min y /\ _card_max x = _card_max y /\
        (forall v, I v = I' v) /\ (forall v, O v = O' v))).
Proof using Hg.
  intros Hx Hy Hs. pose proof (proj1 (proj1 Hx)) as Hcx. pose proof (proj1 (proj1 Hy)) as Hcy. split_and!.
  - by apply (valid_spec Hg).
  - by apply (isIn_known x I O).
  - by apply (isIn_known x I O).
  - destruct (op_apart_spec Hg x y I O I' O' Hcx Hcy) as (b & E & _). exists b. split; [done|]. intros ->.
    intros S HS HT. by apply (apart_no_common Hg x y I O I' O' S).
  - by apply (isSubsumedBy_spec Hg).
  - by apply (op_eq_spec Hg x y I O I' O' (proj1 Hx) (proj1 Hy)).
Qed.

(** The views of a settled constraint as values are its known elements, its possible
    elements, the unknown ones and the excluded ones; the lists describe the same sets.  The
    cardinalities agree with the known and the excluded elements, but for the possible ones of
    an extended constraint and for the unknown ones the code answers one too few. *)
Theorem views_correct (r : FSetValue) (x : FSetConstraint) (I O : Z -> bool) :
  settled x I O -> room (FSetValue._in r) -> 33 <= fd_bv_conv_max_high (@fd_env env) ->
  ((exists s, getGlbSet r x = Some s /\ good s I) /\ (exists s, getLubSet r x = Some s /\ good s (not_set O)) /\
   (exists s, getUnknownSet r x = Some s /\ good s (unknown_set I O)) /\ (exists s, getNotInSet r x = Some s /\ good s O)) /\
  (_normal x = false -> lists_as (getKnownInList x) I /\ lists_as (getKnownNotInList x) O /\
     lists_as (getUnknownList x) (unknown_set I O) /\ lists_as (getLubList x) (not_set O)) /\
  (_normal x = true -> has_low I -> lists_as (getKnownInList x) I) /\
  getGlbCard x = Some (card I) /\ getNotInCard x = Some (card O) /\
  getLubCard x = Some (card (not_set O) - (if _normal x then 0 else 1)) /\
  (_otherin x && _otherout x = false -> getUnknownCard x = Some (card (unknown_set I O) - 1)).
Proof using Hg.
  intros [(Hc & Hd & _) _] Hr Hcap. destruct (lists_spec Hg x I O Hcap Hc) as (L1 & _ & _ & _ & L2). split; [by apply (views_good Hg)|].
  split; [done|]. split; [done|]. by apply cards_spec.
Qed.

(** A value told to a constraint comes back: the constraint of a value is determined, its
    only solution is the set, and the value read from it stands for the same set and is equal to
    the original by [==]. *)
Theorem constraint_value_roundtrip (c : FSetConstraint) (r s : FSetValue) (P : Z -> bool) :
  rooms c -> good s P -> room (FSetValue._in r) ->
  exists c' s', init_value c s = Some c' /\ settled c' P (not_set P) /\ isValue c' = true /\
    (forall S, solutions c' P (not_set P) S -> forall v, S v = P v) /\
    value_init r c' = Some s' /\ val s' P /\
    exists s'', getGlbSet r c' = Some s'' /\ good s'' P /\ FSetValue.op_eq s s'' = Some true.
Proof using Hg.
  intros Hc Hs Hr. destruct (init_value_settled Hg c s P Hc Hs) as (c' & -> & Hc' & Hv).
  destruct (value_init_val Hg r c' P _ Hr (proj1 Hc') Hv) as (s' & E & Hs').
  destruct (views_good Hg r c' P _ Hr (proj1 (proj1 Hc'))) as ((s'' & E'' & Hs'') & _). exists c', s'.
  split_and!; try done.
  - intros S HS. by apply (value_solution c' P _ S (proj1 Hc') Hv).
  - exists s''. split; [done|]. split; [done|].
    assert (FSetValue._normal s = true \/ FSetValue._normal s'' = false) as Hn.
    { destruct (FSetValue._normal s) eqn:Ns; [by left|right]. destruct (FSetValue._normal s'') eqn:Ns''; [|done].
      exfalso. apply (proj2 Hs Ns), (holds_uniform s'' P); [apply Hs''|done]. }
    destruct (op_eq_good Hg s s'' P P Hs Hs'' Hn) as (b & -> & Hb). f_equal. by apply Hb.
Qed.
End properties.

(** ** Witnesses *)

Lemma normalize_witness : exists c, normalize any_set = Some (true, c) /\ isValid c = true.
Proof.
  destruct (normalize_complete default_env default_env_ok any_set none_set none_set (proj1 (proj1 any_set_settled)))
    as (ok & c & E & Hr); [reflexivity|]. exists c. destruct ok; [|vm_compute in E; discriminate E].
  split; [exact E|]. destruct Hr as (I' & O' & Hs & _). exact (live_valid c I' O' (tight_live c I' O' (proj1 Hs))).
Defined.

Lemma narrowing_witness :
  narrows (op_le any_set gap_value)
    (fun S => solutions any_set none_set none_set S /\ (forall v, S v = true -> not_set (range_set 30 200) v = false) /\ card S <= 171).
Proof.
  destruct (narrowing_exact default_env default_env_ok any_set gap_value gap_set blank none_set none_set (range_set 30 200)
    (not_set (range_set 30 200)) (range_set 30 200) 2 5 7 any_set_settled (proj1 (proj1 (proj1 gap_value_settled))) gap_set_good blank_room)
    as (_ & _ & _ & _ & _ & _ & _ & _ & Hle & _); [unfold fs_sup; lia|]. exact Hle.
Defined.

Lemma building_witness :
  builds (unify raw any_set gap_value)
    (fun S => solutions any_set none_set none_set S /\ solutions gap_value (range_set 30 200) (not_set (range_set 30 200)) S).
Proof.
  exact (proj1 (building_sound default_env default_env_ok raw any_set gap_value none_set none_set _ _ raw_rooms any_set_settled
    (proj1 gap_value_settled))).
Defined.

Lemma tests_witness : solutions any_set none_set none_set (range_set 30 200) /\ isIn gap_value 31 = Some true.
Proof.
  destruct (tests_correct default_env default_env_ok any_set gap_value gap_set none_set none_set (range_set 30 200)
    (not_set (range_set 30 200)) (range_set 30 200) 31 any_set_settled (proj1 gap_value_settled) gap_set_good) as (Hv & _).
  split; [|vm_compute; reflexivity].
  destruct Hv as (b & E & Hb). assert (valid any_set gap_set = Some true) as E1 by (vm_compute; reflexivity).
  rewrite E1 in E. injection E as <-. by apply Hb.
Defined.

Lemma views_witness : exists s, getLubSet blank gap_value = Some s /\ good s (not_set (not_set (range_set 30 200))) /\ getLubCard gap_value = Some 170.
Proof.
  destruct (views_correct default_env default_env_ok blank gap_value _ _ (proj1 gap_value_settled) blank_room) as ((_ & Hl & _) & _ & _ & _ & _ & Hc & _);
    [vm_compute; discriminate|].
  destruct Hl as (s & E & Hs). exists s. split; [exact E|]. split; [exact Hs|]. vm_compute. reflexivity.
Defined.

Lemma constraint_value_witness : exists c s, init_value raw gap_set = Some c /\ value_init blank c = Some s /\ val s (range_set 30 200).
Proof.
  destruct (constraint_value_roundtrip default_env default_env_ok raw blank gap_set _ raw_rooms gap_set_good blank_room)
    as (c & s & E1 & _ & _ & _ & E2 & Hs & _). by exists c, s.
Defined.
