(* ===== verification/Base64.v ===== *)
(** * Base64 ([base64.cc])

    The encoder and the decoder behind the builtins of the virtual strings.  A [char] is a
    signed number of 8 bits; a string is the list of its characters with the NUL at its end.  The
    buffer that [malloc] returns has a capacity, and writing past it has no result. *)
From Stdlib Require Import String Ascii.
From S2P Require Import Prelude.
#[local] Open Scope Z_scope.

Module Base64.

(** Conversion to [char]. *)
Definition c8 (x : Z) : Z := (x + 128) mod 256 - 128.

Definition fillchar : Z := 61.

(** [cvt], with its NUL. *)
Definition cvt : list Z :=
  map (fun c => Z.of_N (N_of_ascii c))
    (list_ascii_of_string "ABCDEFGHIJKLMNOPQRSTUVWXYZabcdefghijklmnopqrstuvwxyz0123456789+-"%string) ++ [0].

(** The scan has no end marker: it runs past the string if [c] is not there. *)
Fixpoint find_from (l : list Z) (c ans : Z) : option Z :=
  match l with
  | [] => None
  | x :: l => if x =? c then Some ans else find_from l c (ans + 1)
  end.
Definition find (c : Z) : option Z := find_from cvt c 0.

(** [*ret++ = cvt[c]] *)
Definition put (cap : Z) (out : list Z) (c : Z) : option (list Z) := x ← cvt.[c]; apush cap out x.

(** [if (++i < len) c |= (data[i] >> k) & m] *)
Definition more_bits (data : list Z) (len i c k m : Z) : option Z :=
  if i <? len then d ← data.[i]; Some (Z.lor c (Z.land (Z.shiftr d k) m)) else Some c.

Fixpoint encode_loop (fuel : nat) (data : list Z) (len cap i : Z) (out : list Z) : option (list Z) :=
  match fuel with
  | O => None
  | S fuel =>
      if i <? len then
        d ← data.[i];
        out ← put cap out (Z.land (Z.shiftr d 2) 63);
        let i := i + 1 in
        c ← more_bits data len i (Z.land (Z.shiftl d 4) 63) 4 15;
        out ← put cap out c;
        '(i, out) ←
          (if i <? len then
             d ← data.[i];
             let i := i + 1 in
             c ← more_bits data len i (Z.land (Z.shiftl d 2) 63) 6 3;
             out ← put cap out c; Some (i, out)
           else out ← apush cap out fillchar; Some (i + 1, out));
        out ← (if i <? len then d ← data.[i]; put cap out (Z.land d 63) else apush cap out fillchar);
        encode_loop fuel data len cap (i + 1) out
      else Some out
  end.

(** The characters written to the buffer of [malloc(len * 2)].  Every round of the loop moves [i],
    so [len + 1] rounds are enough. *)
Definition encodeB64 (data : list Z) (len : Z) : option (list Z) :=
  out ← encode_loop (S (Z.to_nat len)) data len (len * 2) 0 [];
  apush (len * 2) out 0.

Fixpoint decode_loop (fuel : nat) (data : list Z) (len cap i : Z) (out : list Z) : option (list Z) :=
  match fuel with
  | O => None
  | S fuel =>
      if i <? len then
        d ← data.[i]; c ← find d;
        let i := i + 1 in
        d ← data.[i]; c1 ← find d;
        let c := c8 (Z.lor (Z.shiftl c 2) (Z.land (Z.shiftr c1 4) 3)) in
        out ← apush cap out c;
        let i := i + 1 in
        let last (c : Z) (out : list Z) :=
          let i := i + 1 in
          if i <? len then
            d ← data.[i];
            if d =? fillchar then Some out
            else
              c1 ← find d;
              out ← apush cap out (c8 (Z.lor (Z.land (Z.shiftl c 6) 192) c1));
              decode_loop fuel data len cap (i + 1) out
          else decode_loop fuel data len cap (i + 1) out in
        if i <? len then
          d ← data.[i];
          if d =? fillchar then Some out
          else
            c ← find d;
            out ← apush cap out (c8 (Z.lor (Z.land (Z.shiftl c1 4) 240) (Z.land (Z.shiftr c 2) 15)));
            last c out
        else last c out
      else Some out
  end.

(** The characters written to the buffer of [malloc(len)]; no NUL is written. *)
Definition decodeB64 (data : list Z) (len : Z) : option (list Z) :=
  decode_loop (S (Z.to_nat len)) data len len 0 [].

(** ** The encoding as a function *)

Definition char (x : Z) : Prop := -128 <= x < 128.

(** The digit for six bits, and the four groups of six bits of three characters. *)
Definition digit (x : Z) : Z := default 0 cvt.[x].
Definition six1 (a : Z) : Z := Z.land (Z.shiftr a 2) 63.
Definition six2 (a b : Z) : Z := Z.lor (Z.land (Z.shiftl a 4) 63) (Z.land (Z.shiftr b 4) 15).
Definition six3 (b c : Z) : Z := Z.lor (Z.land (Z.shiftl b 2) 63) (Z.land (Z.shiftr c 6) 3).
Definition six4 (c : Z) : Z := Z.land c 63.

Fixpoint encoding (data : list Z) : list Z :=
  match data with
  | [] => []
  | [a] => [digit (six1 a); digit (six2 a 0); fillchar; fillchar]
  | [a; b] => [digit (six1 a); digit (six2 a b); digit (six3 b 0); fillchar]
  | a :: b :: c :: data => digit (six1 a) :: digit (six2 a b) :: digit (six3 b c) :: digit (six4 c) :: encoding data
  end.

(** Writing a block to a buffer of [cap] characters. *)
Definition pushes (cap : Z) (out l : list Z) : option (list Z) :=
  if (zlen out + zlen l <=? cap) || (zlen l =? 0) then Some (out ++ l) else None.

(** ** Characters and digits *)

Lemma digits_checked :
  forallb (fun x => match cvt.[x], find (digit x) with
                    | Some y, Some z => (y =? digit x) && (z =? x) && negb (digit x =? fillchar)
                    | _, _ => false
                    end) (seqZ 0 64) = true.
Proof. vm_compute. reflexivity. Qed.

Lemma digit_ok x : 0 <= x < 64 -> cvt.[x] = Some (digit x) /\ find (digit x) = Some x /\ (digit x =? fillchar) = false.
Proof.
  intros Hx. pose proof (proj1 (forallb_forall _ _) digits_checked x) as H.
  assert (In x (seqZ 0 64)) as Hin by (apply list_elem_of_In, elem_of_seqZ; lia). specialize (H Hin). cbv beta in H.
  destruct cvt.[x] as [y|]; [|done]. destruct (find (digit x)) as [z|]; [|done].
  apply andb_true_iff in H as [[H1 H2]%andb_true_iff H3]. split_and!; [f_equal; lia|f_equal; lia|]. by apply negb_true_iff in H3.
Qed.

Lemma land_range x m n : 0 <= n -> m = Z.ones n -> 0 <= Z.land x m < 2 ^ n.
Proof. intros ? ->. rewrite Z.land_ones by done. apply Z.mod_pos_bound. lia. Qed.

Lemma high_bits x n : 0 <= n -> 0 <= x -> (0 <= x < 2 ^ n <-> forall j, n <= j -> Z.testbit x j = false).
Proof.
  intros Hn Hx. split.
  - intros H j Hj. destruct (Z.eq_dec x 0) as [->|]; [apply Z.bits_0|]. apply Z.bits_above_log2; [lia|].
    apply Z.log2_lt_pow2; [lia|]. pose proof (Z.pow_le_mono_r 2 n j). lia.
  - intros H. split; [done|]. destruct (Z.lt_ge_cases x (2 ^ n)) as [|Hge]; [done|exfalso].
    assert (0 < x) by (pose proof (Z.pow_pos_nonneg 2 n); lia).
    pose proof (H (Z.log2 x)) as Hb. rewrite Z.bit_log2 in Hb by done. discriminate Hb. by apply Z.log2_le_pow2.
Qed.

(** Two words of [n] bits make a word of [n] bits. *)
Lemma lor_range x y n : 0 <= n -> 0 <= x < 2 ^ n -> 0 <= y < 2 ^ n -> 0 <= Z.lor x y < 2 ^ n.
Proof.
  intros Hn Hx Hy. apply high_bits; [done|apply Z.lor_nonneg; lia|]. intros j Hj.
  by rewrite Z.lor_spec, (proj1 (high_bits x n Hn ltac:(lia)) Hx), (proj1 (high_bits y n Hn ltac:(lia)) Hy).
Qed.

Lemma sixes a b c : (0 <= six1 a < 64) /\ (0 <= six2 a b < 64) /\ (0 <= six3 b c < 64) /\ (0 <= six4 c < 64).
Proof.
  assert (forall x, 0 <= Z.land x 63 < 64) as H63 by (intros x; by apply (land_range x 63 6)).
  assert (forall x, 0 <= Z.land x 15 < 64) as H15 by (intros x; pose proof (land_range x 15 4 ltac:(lia) eq_refl); lia).
  assert (forall x, 0 <= Z.land x 3 < 64) as H3 by (intros x; pose proof (land_range x 3 2 ltac:(lia) eq_refl); lia).
  split_and!; try apply H63; try (apply (lor_range _ _ 6); [lia|apply H63|]; first [apply H15|apply H3]).
  all: apply H63.
Qed.

(** A character is determined by its low eight bits. *)
Lemma c8_bits x a : char a -> (forall j, 0 <= j < 8 -> Z.testbit x j = Z.testbit a j) -> c8 x = a.
Proof.
  intros Ha H. assert (x mod 256 = a mod 256) as E.
  { change 256 with (2 ^ 8). rewrite <- !Z.land_ones by done. apply Z.bits_inj'. intros j Hj.
    rewrite !Z.land_spec, Z.testbit_ones_nonneg by lia. destruct (Z.ltb_spec j 8); [by rewrite H by lia|by rewrite !andb_false_r]. }
  unfold c8, char in *. rewrite <- Z.add_mod_idemp_l, E, Z.add_mod_idemp_l by done. rewrite Z.mod_small; lia.
Qed.

(** Every bit of a word of masked and shifted words, for the eight bits of a character. *)
Ltac eight_bits :=
  intros j Hj;
  assert (j = 0 \/ j = 1 \/ j = 2 \/ j = 3 \/ j = 4 \/ j = 5 \/ j = 6 \/ j = 7) as Hcase by lia;
  destruct Hcase as [->|[->|[->|[->|[->|[->|[->| ->]]]]]]];
  unfold six1, six2, six3, six4;
  repeat match goal with
  | |- context [Z.testbit (Z.lor ?x ?y) ?n] => rewrite (Z.lor_spec x y n)
  | |- context [Z.testbit (Z.land ?x ?y) ?n] => rewrite (Z.land_spec x y n)
  | |- context [Z.testbit ?x ?n] => rewrite (Z.testbit_neg_r x n) by lia
  | |- context [Z.testbit (Z.shiftl ?x ?k) ?n] => rewrite (Z.shiftl_spec x k n) by lia
  | |- context [Z.testbit (Z.shiftr ?x ?k) ?n] => rewrite (Z.shiftr_spec x k n) by lia
  | |- context [Z.testbit (Zpos ?p) ?n] =>
      let b := eval vm_compute in (Z.testbit (Zpos p) n) in change (Z.testbit (Zpos p) n) with b
  end;
  rewrite ?andb_true_r, ?andb_false_r, ?orb_false_r, ?orb_false_l; f_equal; lia.

Lemma first_char a b : char a -> c8 (Z.lor (Z.shiftl (six1 a) 2) (Z.land (Z.shiftr (six2 a b) 4) 3)) = a.
Proof. intros Ha. apply c8_bits; [done|]. eight_bits. Qed.

Lemma second_char a b c : char b -> c8 (Z.lor (Z.land (Z.shiftl (six2 a b) 4) 240) (Z.land (Z.shiftr (six3 b c) 2) 15)) = b.
Proof. intros Hb. apply c8_bits; [done|]. eight_bits. Qed.

Lemma third_char b c : char c -> c8 (Z.lor (Z.land (Z.shiftl (six3 b c) 6) 192) (six4 c)) = c.
Proof. intros Hc. apply c8_bits; [done|]. eight_bits. Qed.

(** ** The loops *)

Lemma pushes_nil cap out : pushes cap out [] = Some out.
Proof. unfold pushes. rewrite zlen_nil, orb_true_r. by rewrite app_nil_r. Qed.

Lemma pushes_cons cap out x l : pushes cap out (x :: l) = (o ← apush cap out x; pushes cap o l).
Proof.
  unfold pushes, apush. rewrite zlen_cons. pose proof (zlen_nonneg l). destruct (Z.ltb_spec (zlen out) cap) as [Hlt|Hge]; ored.
  - rewrite zlen_snoc, <- app_assoc. cbn [app].
    destruct (Z.leb_spec (zlen out + (zlen l + 1)) cap), (Z.leb_spec (zlen out + 1 + zlen l) cap), (Z.eqb_spec (zlen l + 1) 0), (Z.eqb_spec (zlen l) 0);
      try lia; cbn [orb]; done.
  - destruct (Z.leb_spec (zlen out + (zlen l + 1)) cap), (Z.eqb_spec (zlen l + 1) 0); try lia; done.
Qed.

Lemma put_digit cap out x : 0 <= x < 64 -> put cap out x = apush cap out (digit x).
Proof. intros Hx. unfold put. by rewrite (proj1 (digit_ok x Hx)). Qed.

(** The first characters behind a prefix. *)
Lemma behind (pre : list Z) a b c d l :
  (pre ++ a :: l).[zlen pre] = Some a /\ (pre ++ a :: b :: l).[zlen pre + 1] = Some b /\
  (pre ++ a :: b :: c :: l).[zlen pre + 1 + 1] = Some c /\ (pre ++ a :: b :: c :: d :: l).[zlen pre + 1 + 1 + 1] = Some d.
Proof.
  pose proof (zlen_nonneg pre). split_and!; rewrite aget_app_r by lia;
    [replace (zlen pre - zlen pre) with 0 by lia|replace (zlen pre + 1 - zlen pre) with 1 by lia|
     replace (zlen pre + 1 + 1 - zlen pre) with 2 by lia|replace (zlen pre + 1 + 1 + 1 - zlen pre) with 3 by lia]; done.
Qed.

(** One step of a loop over [pre ++ rest]: decide a comparison, read a character, write a digit. *)
Ltac scan :=
  first [rewrite (proj1 (behind _ _ 0 0 0 _))|rewrite (proj1 (proj2 (behind _ _ _ 0 0 _)))
        |rewrite (proj1 (proj2 (proj2 (behind _ _ _ _ 0 _))))|rewrite (proj2 (proj2 (proj2 (behind _ _ _ _ _ _))))]; ored.
Ltac below := match goal with |- context [if ?a <? ?b then _ else _] => first [replace (a <? b) with true by lia|replace (a <? b) with false by lia] end.
Ltac pushed := rewrite pushes_cons; match goal with |- _ = (apush ?c ?o ?x ≫= _) => destruct (apush c o x) as [|]; ored; [|done] end.

Lemma encode_loop_spec cap (fuel : nat) pre rest out :
  (length rest < fuel)%nat ->
  encode_loop fuel (pre ++ rest) (zlen (pre ++ rest)) cap (zlen pre) out = pushes cap out (encoding rest).
Proof.
  revert pre rest out. induction fuel as [|fuel IH]; intros pre rest out Hf; [lia|]. cbn [encode_loop]. unfold more_bits.
  rewrite zlen_app. pose proof (zlen_nonneg pre). destruct rest as [|a [|b [|c rest]]]; rewrite ?zlen_cons, ?zlen_nil.
  - below. cbn [encoding]. by rewrite pushes_nil.
  - below. scan. below. ored. fold (six1 a). rewrite put_digit by apply (sixes a 0 0). cbn [encoding]. pushed.
    replace (Z.land (Z.shiftl a 4) 63) with (six2 a 0) by apply Z.lor_0_r. rewrite put_digit by apply (sixes a 0 0). pushed.
    pushed. below. pushed. destruct fuel; [cbn in Hf; lia|]. cbn [encode_loop]. below. by rewrite pushes_nil.
  - below. scan. below. scan. fold (six1 a) (six2 a b). rewrite put_digit by apply (sixes a 0 0). cbn [encoding]. pushed.
    rewrite put_digit by apply (sixes a b 0). pushed. below. ored. replace (Z.land (Z.shiftl b 2) 63) with (six3 b 0) by apply Z.lor_0_r.
    rewrite put_digit by apply (sixes a b 0). pushed. below. pushed.
    destruct fuel; [cbn in Hf; lia|]. cbn [encode_loop]. below. by rewrite pushes_nil.
  - pose proof (zlen_nonneg rest). below. scan. below. scan. fold (six1 a) (six2 a b). rewrite put_digit by apply (sixes a 0 0). cbn [encoding]. pushed.
    rewrite put_digit by apply (sixes a b 0). pushed. below. scan. fold (six3 b c).
    rewrite put_digit by apply (sixes a b c). pushed. below. scan. fold (six4 c). rewrite put_digit by apply (sixes a b c). pushed.
    specialize (IH (pre ++ [a; b; c]) rest). rewrite <- app_assoc in IH. cbn [app] in IH. rewrite <- IH by (cbn in Hf; lia).
    rewrite !zlen_app, !zlen_cons, zlen_nil. f_equal; lia.
Qed.

Lemma encoding_length data : zlen (encoding data) = (zlen data + 2) / 3 * 4.
Proof.
  induction data as [data IH] using (induction_ltof1 _ (@length Z)). destruct data as [|a [|b [|c data]]]; try done.
  cbn [encoding]. rewrite !zlen_cons, IH by (unfold ltof; cbn; lia).
  replace (zlen data + 1 + 1 + 1 + 2) with (zlen data + 2 + 1 * 3) by lia. rewrite Z.div_add by lia. lia.
Qed.

Ltac six_range :=
  first [exact (proj1 (sixes _ 0 0))|exact (proj1 (proj2 (sixes _ _ 0)))|exact (proj1 (proj2 (proj2 (sixes 0 _ _))))|exact (proj2 (proj2 (proj2 (sixes 0 0 _))))].
Ltac found x := rewrite (proj1 (proj2 (digit_ok x ltac:(six_range)))); ored.
Ltac nofill := match goal with |- context [digit ?x =? fillchar] => rewrite (proj2 (proj2 (digit_ok x ltac:(six_range)))) end.
Ltac room := match goal with |- context [apush ?c ?o ?x] => replace (apush c o x) with (Some (o ++ [x])) by (unfold apush; rewrite ?zlen_app, ?zlen_cons, ?zlen_nil in *; below; reflexivity) end; ored.

Lemma decode_loop_spec cap (fuel : nat) pre rest tail out :
  (length rest < fuel)%nat -> Forall char rest -> zlen out + zlen rest <= cap ->
  decode_loop fuel (pre ++ encoding rest ++ tail) (zlen pre + zlen (encoding rest)) cap (zlen pre) out = Some (out ++ rest).
Proof.
  revert pre rest out. induction fuel as [|fuel IH]; intros pre rest out Hf Hc Hcap; [lia|]. cbn [decode_loop].
  pose proof (zlen_nonneg pre). pose proof (zlen_nonneg out).
  destruct rest as [|a [|b [|c rest]]]; cbn [encoding app]; rewrite ?zlen_cons, ?zlen_nil in *.
  - below. by rewrite app_nil_r.
  - apply Forall_cons in Hc as [Ha _]. below. scan. found (six1 a). scan. found (six2 a 0). rewrite first_char by done.
    room. below. scan. done.
  - rewrite !Forall_cons in Hc. destruct Hc as (Ha & Hb & _). below. scan. found (six1 a). scan. found (six2 a b). rewrite first_char by done.
    room. below. scan. nofill. found (six3 b 0). rewrite second_char by done. room. below. scan. by rewrite <- app_assoc.
  - rewrite !Forall_cons in Hc. destruct Hc as (Ha & Hb & Hc & Hr). pose proof (zlen_nonneg rest). pose proof (zlen_nonneg (encoding rest)).
    below. scan. found (six1 a). scan. found (six2 a b). rewrite first_char by done.
    room. below. scan. nofill. found (six3 b c). rewrite second_char by done. room. below. scan. nofill. found (six4 c). rewrite third_char by done. room.
    specialize (IH (pre ++ [digit (six1 a); digit (six2 a b); digit (six3 b c); digit (six4 c)]) rest (((out ++ [a]) ++ [b]) ++ [c])).
    rewrite !zlen_app, !zlen_cons, zlen_nil in IH. repeat (rewrite <- app_assoc in IH; cbn [app] in IH). rewrite <- !app_assoc; cbn [app].
    rewrite <- IH; [f_equal; lia|cbn in Hf; lia|done|lia].
Qed.

(** ** Encoding and decoding *)

(** C28: Base64: the encoder writes past its buffer of [2 * len] characters exactly for the lengths
    0, 1, 2 and 4; for all others it gives a string of [4 * ceil(len / 3)] characters and a NUL,
    and decoding that string gives back every string of characters, NUL and negative ones
    included. *)
Theorem base64_roundtrip (data : list Z) :
  Forall char data ->
  (encodeB64 data (zlen data) = None <-> zlen data ∈ [0; 1; 2; 4]) /\
  forall s, encodeB64 data (zlen data) = Some s ->
    exists t, s = t ++ [0] /\ zlen t = (zlen data + 2) / 3 * 4 /\ decodeB64 s (zlen t) = Some data.
Proof.
  intros Hc. pose proof (zlen_nonneg data) as Hn. pose proof (encoding_length data) as Hl.
  assert (encodeB64 data (zlen data) = pushes (zlen data * 2) [] (encoding data ++ [0])) as E.
  { unfold encodeB64. pose proof (encode_loop_spec (zlen data * 2) (S (Z.to_nat (zlen data))) [] data []) as E.
    cbn [app] in E. rewrite zlen_nil in E. rewrite E by (unfold zlen; lia). unfold pushes, apush. cbn [app]. change (zlen (@nil Z)) with 0. rewrite zlen_snoc.
    pose proof (zlen_nonneg (encoding data)). rewrite !Z.add_0_l.
    destruct (Z.leb_spec (zlen (encoding data)) (zlen data * 2)), (Z.eqb_spec (zlen (encoding data)) 0); cbn [orb]; ored; zbool; done. }
  rewrite E. unfold pushes. change (zlen (@nil Z)) with 0. rewrite zlen_snoc, !Z.add_0_l, Hl. cbn [app]. split.
  - split.
    + intros Hnone. assert (zlen data = 0 \/ zlen data = 1 \/ zlen data = 2 \/ zlen data = 4) as Hz.
      { destruct (Z.leb_spec ((zlen data + 2) / 3 * 4 + 1) (zlen data * 2)); [done|]. clear -H Hn. Z.div_mod_to_equations. lia. }
      rewrite !elem_of_cons. tauto.
    + intros Hin. rewrite !elem_of_cons, elem_of_nil in Hin. destruct Hin as [->|[->|[->|[->|[]]]]]; reflexivity.
  - intros s Hs. destruct (_ || _); [|done]. injection Hs as <-. exists (encoding data). split; [done|]. split; [done|].
    pose proof (decode_loop_spec (zlen (encoding data)) (S (Z.to_nat (zlen (encoding data)))) [] data [0] []) as D. cbn [app] in D.
    rewrite zlen_nil in D. unfold decodeB64. rewrite !Z.add_0_l in D. apply D; [|done|].
    + rewrite Hl. assert (zlen data <= (zlen data + 2) / 3 * 4) by (Z.div_mod_to_equations; lia). unfold zlen in *. lia.
    + rewrite Hl. clear -Hn. Z.div_mod_to_equations. lia.
Qed.

Lemma base64_witness : encodeB64 [77; -4; 0; 122; 111] 5 = Some [84; 102; 119; 65; 101; 109; 56; 61; 0] /\
  decodeB64 [84; 102; 119; 65; 101; 109; 56; 61; 0] 8 = Some [77; -4; 0; 122; 111].
Proof.
  split; [vm_compute; reflexivity|].
  destruct (base64_roundtrip [77; -4; 0; 122; 111]) as [_ H]; [repeat constructor; unfold char; lia|].
  destruct (H [84; 102; 119; 65; 101; 109; 56; 61; 0] ltac:(vm_compute; reflexivity)) as (t & Et & Hl & Hd).
  change ((zlen [77; -4; 0; 122; 111] + 2) / 3 * 4) with 8 in Hl. rewrite Hl in Hd. exact Hd.
Defined.
End Base64.
