(* ===== verification/Feature.v ===== *)
(** * Features ([value.hh])

    The keys of records and dictionaries: literals (atoms and names), small integers and big
    integers.  A literal is the address of its object; [LitEnv] is what the objects hold. *)
From S2P Require Import Prelude Word32.

(** The literal objects, by address: [isNameAsInt], [getPrintName] (without the NUL) and
    [getSeqNumber]. *)
Class LitEnv := {
  lit_isNameAsInt : Z -> Z;
  lit_printName : Z -> list Z;
  lit_seqNumber : Z -> Z
}.

Module Feature.

Inductive Feature := FLiteral (p : Z) | FSmallInt (n : Z) | FBigInt (n : Z).

#[global] Instance Feature_eq_dec : EqDecision Feature.
Proof. solve_decision. Defined.

Definition LTAG_BITS : Z := 4.
Definition LTAG_SMALLINT : Z := 14.
Definition OzMaxInt : Z := 134217727.
Definition OzMinInt : Z := - (OzMaxInt + 1).

(** The word of a small integer, read as [int]. *)
Definition makeTaggedSmallInt (n : Z) : Z := s32 (w32 (Z.shiftl n LTAG_BITS + LTAG_SMALLINT)).

(** The difference of the two words wraps around. *)
Definition smallIntCmp (a b : Z) : Z := s32 (w32 (makeTaggedSmallInt a - makeTaggedSmallInt b)).

Definition smallIntHash (n : Z) : Z := Z.shiftr (w32 (makeTaggedSmallInt n)) LTAG_BITS.

(** [BigInt::hash] *)
Definition bigIntHash : Z := 75.

(** [strcmp] compares the first characters that differ, as unsigned ones; the end counts as NUL. *)
Fixpoint strcmp (s t : list Z) : Z :=
  match s, t with
  | [], [] => 0
  | [], y :: _ => - (y mod 256)
  | x :: _, [] => x mod 256
  | x :: s, y :: t => if x mod 256 =? y mod 256 then strcmp s t else x mod 256 - y mod 256
  end.

Section operations.
Context `{LitEnv}.

Definition isAtom (p : Z) : bool := lit_isNameAsInt p =? 0.

(** [Literal::hash]: an atom hashes to its address. *)
Definition literalHash (p : Z) : Z :=
  if isAtom p then w32 (Z.shiftr (s32 (w32 p)) LTAG_BITS) else w32 (lit_seqNumber p).

Definition atomcmp (a b : Z) : Z :=
  if a =? b then 0
  else
    let res := lit_isNameAsInt b - lit_isNameAsInt a in
    if negb (res =? 0) then res
    else
      let res := strcmp (lit_printName a) (lit_printName b) in
      if negb (res =? 0) then res else lit_seqNumber a - lit_seqNumber b.

(** [mpz_cmp] and [mpz_cmp_si] *)
Definition mpz_cmp (a b : Z) : Z := match a ?= b with Lt => -1 | Eq => 0 | Gt => 1 end.

Definition featureEq (a b : Feature) : bool :=
  match a, b with
  | FLiteral p, FLiteral q => p =? q
  | FSmallInt n, FSmallInt m => n =? m
  | FBigInt n, FBigInt m => n =? m
  | _, _ => false
  end.

Definition featureCmp (a b : Feature) : Z :=
  match a, b with
  | FLiteral p, FLiteral q => atomcmp p q
  | FLiteral _, _ => 1
  | FSmallInt _, FLiteral _ => -1
  | FSmallInt n, FSmallInt m => smallIntCmp n m
  | FSmallInt n, FBigInt m => - mpz_cmp m n
  | FBigInt _, FLiteral _ => -1
  | FBigInt n, FSmallInt m => mpz_cmp n m
  | FBigInt n, FBigInt m => mpz_cmp n m
  end.

(** [Order_Taggedref_By_Feat] *)
Definition featureLt (a b : Feature) : bool := featureCmp a b <? 0.

Definition featureHash (a : Feature) : Z :=
  match a with
  | FLiteral p => literalHash p
  | FSmallInt n => smallIntHash n
  | FBigInt _ => bigIntHash
  end.
End operations.

(** ** Orders given by a comparison

    [CmpOrder P c]: on [P], [c] compares like a difference. *)
Record CmpOrder {A} (P : A -> Prop) (c : A -> A -> Z) : Prop := {
  cmp_anti a b : P a -> P b -> c b a = - c a b;
  cmp_trans a b d : P a -> P b -> P d -> 0 <= c a b -> 0 <= c b d -> 0 <= c a d
}.

(** Comparison by [c1] first. *)
Definition lex {A} (c1 c2 : A -> A -> Z) (a b : A) : Z := if c1 a b =? 0 then c2 a b else c1 a b.

(** What the objects of literals satisfy: a flag word has the bit of [Lit_isName] or not, print
    names hold no NUL, sequential numbers have 26 bits; there is one atom for a print name (the
    atom table), and one name for a print name and a sequential number. *)
Class LitOk (env : LitEnv) : Prop := {
  lit_flag p : lit_isNameAsInt p = 0 \/ lit_isNameAsInt p = 2;
  lit_chars p : Forall (fun x => x mod 256 <> 0) (lit_printName p);
  lit_seq p : - 2 ^ 25 <= lit_seqNumber p < 2 ^ 25;
  lit_unique p q : lit_isNameAsInt p = lit_isNameAsInt q -> strcmp (lit_printName p) (lit_printName q) = 0 ->
    (lit_isNameAsInt p = 2 -> lit_seqNumber p = lit_seqNumber q) -> p = q
}.

(** Small integers are in the range of 28 bits, big ones are not; the small ones of a window of
    [2 ^ 27] have differences that do not overflow. *)
Definition feature_ok (f : Feature) : Prop :=
  match f with
  | FLiteral _ => True
  | FSmallInt n => OzMinInt <= n <= OzMaxInt
  | FBigInt n => n < OzMinInt \/ OzMaxInt < n
  end.

Definition window (lo : Z) (f : Feature) : Prop :=
  feature_ok f /\ match f with FSmallInt n => lo <= n < lo + 2 ^ 27 | _ => True end.

Section orders.
Context {A : Type} (P : A -> Prop).
Implicit Types (c : A -> A -> Z).

Lemma cmp_zero c a b d : CmpOrder P c -> P a -> P b -> P d -> c a b = 0 -> (c a d = 0 <-> c b d = 0) /\ (0 < c a d <-> 0 < c b d).
Proof.
  intros Hc Ha Hb Hd E. assert (c b a = 0) as E' by (rewrite (cmp_anti P c Hc a b) by done; lia).
  pose proof (cmp_trans P c Hc a b d Ha Hb Hd). pose proof (cmp_trans P c Hc b a d Hb Ha Hd).
  pose proof (cmp_trans P c Hc d a b Hd Ha Hb). pose proof (cmp_trans P c Hc d b a Hd Hb Ha).
  rewrite (cmp_anti P c Hc a d), (cmp_anti P c Hc b d) in * by done. lia.
Qed.

Lemma lex_order c1 c2 : CmpOrder P c1 -> CmpOrder P c2 -> CmpOrder P (lex c1 c2).
Proof.
  intros H1 H2. split; unfold lex.
  - intros a b Ha Hb. rewrite (cmp_anti P c1 H1 a b), (cmp_anti P c2 H2 a b) by done. zbool.
  - intros a b d Ha Hb Hd. pose proof (cmp_trans P c1 H1 a b d Ha Hb Hd). pose proof (cmp_trans P c2 H2 a b d Ha Hb Hd).
    pose proof (cmp_zero c1 a b d H1 Ha Hb Hd). pose proof (cmp_zero c1 d b a H1 Hd Hb Ha). pose proof (cmp_zero c1 a d b H1 Ha Hd Hb).
    rewrite (cmp_anti P c1 H1 b d), (cmp_anti P c1 H1 a b), (cmp_anti P c1 H1 a d) in * by done.
    destruct (Z.eqb_spec (c1 a b) 0), (Z.eqb_spec (c1 b d) 0), (Z.eqb_spec (c1 a d) 0); intros; try lia.
Qed.

Lemma difference_order (f : A -> Z) : CmpOrder P (fun a b => f a - f b).
Proof. split; intros; lia. Qed.
End orders.

Lemma strcmp_anti s t : strcmp t s = - strcmp s t.
Proof.
  revert t. induction s as [|x s IH]; intros [|y t]; cbn [strcmp]; try lia.
  rewrite IH. rewrite (Z.eqb_sym (y mod 256)). destruct (x mod 256 =? y mod 256); lia.
Qed.

Lemma strcmp_order : CmpOrder (Forall (fun x => x mod 256 <> 0)) strcmp.
Proof.
  split; [intros; apply strcmp_anti|]. intros s. induction s as [|x s IH]; intros t u Hs Ht Hu.
  - destruct t as [|y t], u as [|z u]; cbn [strcmp]; try lia. apply Forall_cons in Ht as [Hy _].
    pose proof (Z.mod_pos_bound y 256). lia.
  - apply Forall_cons in Hs as [Hx Hs]. pose proof (Z.mod_pos_bound x 256). destruct u as [|z u]; [cbn [strcmp]; lia|].
    apply Forall_cons in Hu as [Hz Hu]. pose proof (Z.mod_pos_bound z 256). destruct t as [|y t]; cbn [strcmp]; [lia|].
    apply Forall_cons in Ht as [Hy Ht]. specialize (IH t u Hs Ht Hu).
    destruct (Z.eqb_spec (x mod 256) (y mod 256)), (Z.eqb_spec (y mod 256) (z mod 256)), (Z.eqb_spec (x mod 256) (z mod 256)); try lia.
Qed.

Section features.
Context `{env : LitEnv} {Hok : LitOk env}.

Lemma strcmp_same s : strcmp s s = 0.
Proof. induction s as [|x s IH]; cbn [strcmp]; [done|]. by rewrite Z.eqb_refl. Qed.

Lemma atomcmp_lex a b :
  atomcmp a b = lex (fun a b => lit_isNameAsInt b - lit_isNameAsInt a)
    (lex (fun a b => strcmp (lit_printName a) (lit_printName b)) (fun a b => lit_seqNumber a - lit_seqNumber b)) a b.
Proof.
  unfold atomcmp, lex. destruct (Z.eqb_spec a b) as [->|].
  - rewrite !Z.sub_diag, strcmp_same. done.
  - destruct (_ =? 0); cbn [negb]; [|done]. by destruct (_ =? 0).
Qed.

Lemma atomcmp_order : CmpOrder (fun _ => True) atomcmp.
Proof using Hok.
  assert (CmpOrder (fun _ : Z => True) (fun a b => strcmp (lit_printName a) (lit_printName b))) as Hs.
  { split; [intros; apply strcmp_anti|]. intros a b d _ _ _. apply (cmp_trans _ _ strcmp_order); apply lit_chars. }
  assert (CmpOrder (fun _ : Z => True) (fun a b => lit_isNameAsInt b - lit_isNameAsInt a)) as Hn by (split; intros; lia).
  pose proof (lex_order _ _ _ Hn (lex_order _ _ _ Hs (difference_order (fun _ => True) lit_seqNumber))) as [Ha Ht].
  split; intros; rewrite !atomcmp_lex in *; eauto.
Qed.

Lemma atomcmp_zero a b : atomcmp a b = 0 <-> a = b.
Proof using Hok.
  split; [|intros ->; unfold atomcmp; by rewrite Z.eqb_refl]. rewrite atomcmp_lex. unfold lex.
  pose proof (lit_unique a b). destruct (Z.eqb_spec (lit_isNameAsInt b - lit_isNameAsInt a) 0); [|lia].
  destruct (Z.eqb_spec (strcmp (lit_printName a) (lit_printName b)) 0); [|done]. intros. apply H; [lia|done|lia].
Qed.

(** The number a numeric feature stands for. *)
Definition number (f : Feature) : Z := match f with FLiteral _ => 0 | FSmallInt n => n | FBigInt n => n end.
Definition is_literal (f : Feature) : bool := match f with FLiteral _ => true | _ => false end.

Lemma tagged_small n : OzMinInt <= n <= OzMaxInt -> makeTaggedSmallInt n = 16 * n + 14.
Proof.
  unfold OzMinInt, OzMaxInt, makeTaggedSmallInt, LTAG_BITS, LTAG_SMALLINT. intros Hn. rewrite Z.shiftl_mul_pow2 by lia.
  unfold s32, w32. destruct (Z.ltb_spec n 0).
  - rewrite <- (Z.mod_add _ 1) by done. rewrite Z.mod_small by lia. zbool.
  - rewrite Z.mod_small by lia. zbool.
Qed.

Lemma smallIntCmp_window lo n m :
  OzMinInt <= n <= OzMaxInt -> OzMinInt <= m <= OzMaxInt -> lo <= n < lo + 2 ^ 27 -> lo <= m < lo + 2 ^ 27 ->
  smallIntCmp n m = 16 * (n - m).
Proof.
  intros. unfold smallIntCmp. rewrite !tagged_small by done. unfold s32, w32. destruct (Z.ltb_spec n m).
  - rewrite <- (Z.mod_add _ 1) by done. rewrite Z.mod_small by lia. zbool.
  - rewrite Z.mod_small by lia. zbool.
Qed.

Lemma mpz_cmp_sign a b : mpz_cmp a b = Z.sgn (a - b).
Proof. unfold mpz_cmp. destruct (Z.compare_spec a b); lia. Qed.

Lemma featureCmp_number lo a b : window lo a -> window lo b -> is_literal a = false -> is_literal b = false ->
  Z.sgn (featureCmp a b) = Z.sgn (number a - number b) /\ featureCmp b a = - featureCmp a b.
Proof.
  destruct a as [|n|n], b as [|m|m]; try done; cbn [featureCmp number]; intros [Hn Wn] [Hm Wm] _ _; rewrite ?mpz_cmp_sign;
    rewrite ?(smallIntCmp_window lo) by done; split; lia.
Qed.

Lemma featureCmp_order lo : CmpOrder (window lo) featureCmp.
Proof using Hok.
  split.
  - intros a b Ha Hb. destruct (is_literal a) eqn:La, (is_literal b) eqn:Lb.
    + destruct a, b; try done. apply (cmp_anti _ _ atomcmp_order); done.
    + by destruct a, b.
    + by destruct a, b.
    + by apply (featureCmp_number lo).
  - intros a b d Ha Hb Hd. destruct (is_literal a) eqn:La, (is_literal b) eqn:Lb, (is_literal d) eqn:Ld.
    1: { destruct a, b, d; try done. by apply (cmp_trans _ _ atomcmp_order). }
    1-6: by destruct a, b, d.
    pose proof (featureCmp_number lo a b Ha Hb La Lb) as [? _]. pose proof (featureCmp_number lo b d Hb Hd Lb Ld) as [? _].
    pose proof (featureCmp_number lo a d Ha Hd La Ld) as [? _]. lia.
Qed.

Lemma featureCmp_zero lo a b : window lo a -> window lo b -> featureCmp a b = 0 <-> a = b.
Proof using Hok.
  intros Ha Hb. destruct (is_literal a) eqn:La, (is_literal b) eqn:Lb.
  - destruct a as [p| |], b as [q| |]; try done. cbn [featureCmp]. rewrite atomcmp_zero. split; [by intros ->|by intros [=]].
  - by destruct a, b.
  - by destruct a, b.
  - pose proof (featureCmp_number lo a b Ha Hb La Lb) as [Hs _]. assert (featureCmp a b = 0 <-> number a = number b) as -> by lia.
    destruct Ha as [Ha _], Hb as [Hb _]. destruct a, b; try done; cbn [number feature_ok] in *;
      (split; [intros ?; first [by f_equal|exfalso; lia]|intros [=]; lia]).
Qed.

Lemma featureEq_decides a b : featureEq a b = bool_decide (a = b).
Proof.
  destruct a as [p|n|n], b as [q|m|m]; cbn [featureEq]; try done;
    match goal with |- (?x =? ?y) = _ => destruct (Z.eqb_spec x y) as [->|Hne] end;
    first [by rewrite bool_decide_eq_true_2|rewrite bool_decide_eq_false_2; [done|by intros [=]]].
Qed.
End features.
End Feature.
