(* ===== verification/Arity.v ===== *)
(** * Arities ([value.hh], [value.cc])

    The arity of a record is the sorted list of its features with a hash table that gives each
    feature its position.  [ArityTable] keeps one object per arity, so that records with the same
    features share it and arities are compared as pointers. *)
From S2P Require Import Prelude Word32 Sort Feature.

Module Arity.
Import Feature.

(** [KeyAndIndex]; a key 0 is an empty slot. *)
Abbreviation slot := (option (Feature * Z)).

Record Arity := AR {
  a_list : list Feature;
  hashmask : Z;
  width : Z;
  table : list slot
}.

(** The doubling stops at 2^30; beyond it the [int] overflows. *)
Fixpoint nextPowerOf2_loop (fuel : nat) (i n : Z) : option Z :=
  match fuel with
  | O => None
  | S fuel => if n <=? i then Some i else nextPowerOf2_loop fuel (i * 2) n
  end.
Definition nextPowerOf2 (n : Z) : option Z := nextPowerOf2_loop 30 2 n.

Definition scndhash (i : Z) : Z := Z.lor (Z.shiftl (Z.land i 7) 1) 1.
Definition hashfold (hashmask i : Z) : Z := Z.land i hashmask.
Definition isTuple (a : Arity) : bool := hashmask a =? 0.

Section operations.
Context `{LitEnv}.

(** [while (ar->table[i].key) i = ar->hashfold(i+step)], with one round for every slot. *)
Fixpoint probe (fuel : nat) (t : list slot) (mask step i : Z) : option Z :=
  match fuel with
  | O => None
  | S fuel =>
      s ← t.[i];
      match s with
      | None => Some i
      | Some _ => probe fuel t mask step (hashfold mask (i + step))
      end
  end.

Fixpoint place (entries : list Feature) (mask j : Z) (t : list slot) : option (list slot) :=
  match entries with
  | [] => Some t
  | e :: entries =>
      let hsh := s32 (featureHash e) in
      i ← probe (length t) t mask (scndhash hsh) (hashfold mask hsh);
      t ← t.[i <- Some (e, j)];
      place entries mask (j + 1) t
  end.

(** The table of a tuple is not used. *)
Definition newArity (entrylist : list Feature) (itf : bool) : option Arity :=
  let w := zlen entrylist in
  if itf then Some (AR entrylist 0 w [])
  else
    size ← nextPowerOf2 (3 * w ÷ 2);
    t ← place entrylist (size - 1) 0 (replicate (Z.to_nat size) None);
    Some (AR entrylist (size - 1) w t).

Fixpoint lookup_loop (fuel : nat) (t : list slot) (mask step i : Z) (entry : Feature) : option Z :=
  match fuel with
  | O => None
  | S fuel =>
      s ← t.[i];
      match s with
      | Some (key, index) => if featureEq key entry then Some index else lookup_loop fuel t mask step (hashfold mask (i + step)) entry
      | None => Some (-1)
      end
  end.

Definition lookup_from (a : Arity) (hsh : Z) (entry : Feature) : option Z :=
  if isTuple a then None
  else lookup_loop (length (table a)) (table a) (hashmask a) (scndhash hsh) (hashfold (hashmask a) hsh) entry.

Definition lookupLiteralInternal (a : Arity) (p : Z) : option Z := lookup_from a (s32 (literalHash p)) (FLiteral p).
Definition lookupSmallIntInternal (a : Arity) (n : Z) : option Z := lookup_from a (s32 (smallIntHash n)) (FSmallInt n).
Definition lookupBigIntInternal (a : Arity) (n : Z) : option Z := lookup_from a (s32 bigIntHash) (FBigInt n).

Definition lookupInternal (a : Arity) (entry : Feature) : option Z :=
  match entry with
  | FSmallInt n => lookupSmallIntInternal a n
  | FLiteral p => lookupLiteralInternal a p
  | FBigInt n => lookupBigIntInternal a n
  end.

(** ** Lists of features *)

Fixpoint listequal (lista listb : list Feature) : bool :=
  match lista, listb with
  | a :: lista, b :: listb => if featureEq a b then listequal lista listb else false
  | [], [] => true
  | _, _ => false
  end.

Fixpoint insert (a : Feature) (l : list Feature) : list Feature :=
  match l with
  | [] => [a]
  | oldhead :: tl =>
      let res := featureCmp a oldhead in
      if res =? 0 then l else if res <? 0 then a :: l else oldhead :: insert a tl
  end.

Definition insertlist (ins old : list Feature) : list Feature := fold_left (fun old a => insert a old) ins old.

Fixpoint isSorted (l : list Feature) : bool :=
  match l with
  | [] => true
  | a :: cdr => match cdr with
                | [] => true
                | b :: _ => if 0 <=? featureCmp a b then false else isSorted cdr
                end
  end.

(** Keep the elements that differ from their left neighbour in the array. *)
Fixpoint dedup (prev : Feature) (r : list Feature) : list Feature :=
  match r with
  | [] => []
  | a :: r => if negb (featureEq prev a) then a :: dedup a r else dedup a r
  end.

Definition sortlist (l : list Feature) (len : Z) : option (list Feature) :=
  r ← Sort.fastsort featureLt l len;
  match r with
  | [] => None
  | a :: r => Some (a :: dedup a r)
  end.

(** [packsortlist] on a list without references. *)
Definition packsortlist (l : list Feature) : option (list Feature) :=
  match l with
  | [] => Some []
  | _ => sortlist l (zlen l)
  end.

Fixpoint merge_loop (fuel : nat) (lista listb : list Feature) : option (list Feature) :=
  match fuel with
  | O => None
  | S fuel =>
      match lista, listb with
      | [], _ => Some listb
      | _, [] => Some lista
      | a :: lista', b :: listb' =>
          let res := featureCmp a b in
          if res =? 0 then l ← merge_loop fuel lista' listb'; Some (a :: l)
          else if res <? 0 then l ← merge_loop fuel lista' listb; Some (a :: l)
          else l ← merge_loop fuel lista listb'; Some (b :: l)
      end
  end.
Definition merge (lista listb : list Feature) : option (list Feature) :=
  merge_loop (S (length lista + length listb)) lista listb.

Fixpoint makeTupleArityList_loop (i : nat) (out : list Feature) : list Feature :=
  match i with
  | O => out
  | S j => makeTupleArityList_loop j (FSmallInt (Z.of_nat i) :: out)
  end.
Definition makeTupleArityList (i : Z) : option (list Feature) :=
  if i <? 0 then None else Some (makeTupleArityList_loop (Z.to_nat i) []).

(** ** The table of arities

    A bucket is the chain of its arities; a pointer is a bucket and a place in its chain.
    Chains only grow at the end. *)
Record ArityTable := AT { at_table : list (list Arity); at_hashmask : Z }.

Record aptr := Aptr { bucket : Z; place_in : Z }.

Definition newArityTable (n : Z) : option ArityTable :=
  size ← nextPowerOf2 n; Some (AT (replicate (Z.to_nat size) []) (size - 1)).

Definition deref (t : ArityTable) (p : aptr) : option Arity := c ← (at_table t).[bucket p]; c.[place_in p].

(** [len] is the length so far of a list 1, 2, ..., or -1. *)
Fixpoint hashvalue_loop (l : list Feature) (len i : Z) : Z * Z :=
  match l with
  | [] => (len, i)
  | it :: l =>
      let len' := match it with
                  | FSmallInt n => if (0 <=? len) && (n =? len + 1) then len + 1 else -1
                  | _ => -1
                  end in
      hashvalue_loop l len' (w32 (i + featureHash it))
  end.
Definition hashvalue (t : ArityTable) (l : list Feature) : bool * Z :=
  let '(len, i) := hashvalue_loop l 0 0 in (negb (len <? 0), hashfold (at_hashmask t) (s32 i)).

(** The place of the first arity with the list, if there is one. *)
Fixpoint find_chain (c : list Arity) (l : list Feature) (k : Z) : option Z :=
  match c with
  | [] => None
  | a :: c => if listequal (a_list a) l then Some k else find_chain c l (k + 1)
  end.

Definition find (t : ArityTable) (l : list Feature) : option (ArityTable * aptr) :=
  let '(is_tuple, hsh) := hashvalue t l in
  c ← (at_table t).[hsh];
  match find_chain c l 0 with
  | Some k => Some (t, Aptr hsh k)
  | None =>
      a ← newArity l is_tuple;
      b ← (at_table t).[hsh <- c ++ [a]];
      Some (AT b (at_hashmask t), Aptr hsh (zlen c))
  end.
End operations.
End Arity.
