(* ===== verification/SRecord.v ===== *)
(** * Records ([SRecord] of [value.hh] and [value.cc])

    A record is its arity (the width of a tuple, or an object of the table of arities), its
    label and its arguments.  The arguments of a new record are not initialised.  The table of arities
    is global, so the operations that look an arity up change it. *)
From S2P Require Import Prelude Word32 Sort Feature Arity.

Module SRecord.
Import Feature Arity.

(** [SRecordArity]: the tagged word is either the width of a tuple or the pointer. *)
Inductive SRecordArity := Tuple (w : Z) | RecordArity (p : aptr).

#[global] Instance SRecordArity_eq_dec : EqDecision SRecordArity.
Proof. intros [?|[??]] [?|[??]]; unfold Decision; decide equality; apply Z.eq_dec || (decide equality; apply Z.eq_dec). Defined.

Section operations.
Context `{LitEnv} {T : Type}.

Record SRecord := SR {
  recordArity : SRecordArity;
  label : Z;
  args : list (option T)
}.

Definition isTuple (r : SRecord) : bool := match recordArity r with Tuple _ => true | RecordArity _ => false end.

Definition getWidth (t : ArityTable) (r : SRecord) : option Z :=
  match recordArity r with
  | Tuple w => Some w
  | RecordArity p => a ← deref t p; Some (width a)
  end.

Definition sraGetArityList (t : ArityTable) (a : SRecordArity) : option (list Feature) :=
  match a with
  | Tuple w => makeTupleArityList w
  | RecordArity p => a ← deref t p; Some (a_list a)
  end.
Definition getArityList (t : ArityTable) (r : SRecord) : option (list Feature) := sraGetArityList t (recordArity r).

Definition getArity (t : ArityTable) (r : SRecord) : option (ArityTable * aptr) :=
  match recordArity r with
  | Tuple _ => l ← getArityList t r; find t l
  | RecordArity p => Some (t, p)
  end.

Definition newSRecord_width (lab : Z) (a : SRecordArity) (w : Z) : option SRecord :=
  if 0 <? w then Some (SR a lab (replicate (Z.to_nat w) None)) else None.

(** [newSRecord(lab, arity)] *)
Definition newSRecord (t : ArityTable) (lab : Z) (p : aptr) : option SRecord :=
  a ← deref t p;
  if Arity.isTuple a then newSRecord_width lab (Tuple (width a)) (width a)
  else newSRecord_width lab (RecordArity p) (width a).

Definition getArg (r : SRecord) (i : Z) : option T := s ← (args r).[i]; s.
Definition setArg (r : SRecord) (i : Z) (v : T) : option SRecord :=
  a ← (args r).[i <- Some v]; Some (SR (recordArity r) (label r) a).

(** [newSRecord(st)]: a copy. *)
Definition copySRecord (t : ArityTable) (st : SRecord) : option SRecord :=
  w ← getWidth t st;
  ret ← newSRecord_width (label st) (recordArity st) w;
  for_down (Z.to_nat w) (fun i ret => v ← getArg st i; setArg ret i v) ret.

Definition getIndex (t : ArityTable) (r : SRecord) (f : Feature) : option Z :=
  match recordArity r with
  | Tuple w =>
      match f with
      | FSmallInt n => let i := n - 1 in Some (if (0 <=? i) && (i <? w) then i else -1)
      | _ => Some (-1)
      end
  | RecordArity p => a ← deref t p; lookupInternal a f
  end.

(** [Some None] is [makeTaggedNULL()]. *)
Definition getFeature (t : ArityTable) (r : SRecord) (f : Feature) : option (option T) :=
  i ← getIndex t r f;
  if i <? 0 then Some None else v ← getArg r i; Some (Some v).

Definition setFeature (t : ArityTable) (r : SRecord) (f : Feature) (v : T) : option (bool * SRecord) :=
  i ← getIndex t r f;
  if i =? -1 then Some (false, r) else r ← setArg r i v; Some (true, r).

(** Pairs whose feature the record does not have are skipped. *)
Fixpoint setFeatures (t : ArityTable) (r : SRecord) (proplist : list (Feature * T)) : option SRecord :=
  match proplist with
  | [] => Some r
  | (f, v) :: proplist => '(_, r) ← setFeature t r f v; setFeatures t r proplist
  end.

Definition compareSortAndArity (r : SRecord) (lbl : Z) (arity : SRecordArity) : bool :=
  (label r =? lbl) && bool_decide (recordArity r = arity).
Definition compareFunctor (r str : SRecord) : bool := compareSortAndArity r (label str) (recordArity str).

(** What [normalize] makes of a record: a list cell is kept in a representation of its own. *)
Inductive term := LTuple (head tail : T) | Rec (r : SRecord).

Definition normalize (AtomCons : Z) (t : ArityTable) (r : SRecord) : option term :=
  w ← getWidth t r;
  if isTuple r && (label r =? AtomCons) && (w =? 2) then
    h ← getArg r 0; tl ← getArg r 1; Some (LTuple h tl)
  else Some (Rec r).

Definition makeRecord (AtomCons : Z) (t : ArityTable) (x : term) : option (ArityTable * SRecord) :=
  match x with
  | Rec r => Some (t, r)
  | LTuple h tl =>
      l ← makeTupleArityList 2;
      '(t, p) ← find t l;
      ret ← newSRecord t AtomCons p;
      ret ← setArg ret 0 h; ret ← setArg ret 1 tl; Some (t, ret)
  end.

(** Copy the features of the list from one record to the other. *)
Fixpoint copyFeatures (t : ArityTable) (from : SRecord) (ar : list Feature) (newrec : SRecord) : option SRecord :=
  match ar with
  | [] => Some newrec
  | a :: ar =>
      v ← getFeature t from a;
      v ← v;
      '(_, newrec) ← setFeature t newrec a v;
      copyFeatures t from ar newrec
  end.

Definition oz_adjoin (AtomCons : Z) (t : ArityTable) (lrec hrecord : SRecord) : option (ArityTable * term) :=
  list1 ← getArityList t lrec;
  list2 ← getArityList t hrecord;
  newArityList ← merge list1 list2;
  '(t, newArity) ← find t newArityList;
  na ← deref t newArity;
  newrec ← newSRecord t (label hrecord) newArity;
  w ← getWidth t hrecord;
  let overwrites :=
    match recordArity hrecord with
    | Tuple _ => Arity.isTuple na && (w =? width na)
    | RecordArity p => (bucket newArity =? bucket p) && (place_in newArity =? place_in p)
    end in
  if overwrites then
    c ← copySRecord t hrecord;
    if isTuple hrecord then r ← normalize AtomCons t c; Some (t, r) else Some (t, Rec c)
  else
    newrec ← copyFeatures t lrec list1 newrec;
    newrec ← copyFeatures t hrecord list2 newrec;
    r ← normalize AtomCons t newrec; Some (t, r).

Definition oz_adjoinAt (AtomCons : Z) (t : ArityTable) (rec : SRecord) (feature : Feature) (value : T) : option (ArityTable * term) :=
  i ← getIndex t rec feature;
  if negb (i =? -1) then
    newrec ← copySRecord t rec;
    '(_, newrec) ← setFeature t newrec feature value;
    r ← normalize AtomCons t newrec; Some (t, r)
  else
    oldArityList ← getArityList t rec;
    '(t, arity) ← find t (insert feature oldArityList);
    newrec ← newSRecord t (label rec) arity;
    newrec ← copyFeatures t rec oldArityList newrec;
    '(_, newrec) ← setFeature t newrec feature value;
    r ← normalize AtomCons t newrec; Some (t, r).

(** [arityList] is the list of the features of [proplist]. *)
Definition oz_adjoinList (AtomCons : Z) (t : ArityTable) (lrec : SRecord) (arityList : list Feature) (proplist : list (Feature * T)) :
    option (ArityTable * term) :=
  old ← getArityList t lrec;
  '(t, newArity) ← find t (insertlist arityList old);
  newrec ← newSRecord t (label lrec) newArity;
  newrec ← copyFeatures t lrec old newrec;
  newrec ← setFeatures t newrec proplist;
  r ← normalize AtomCons t newrec; Some (t, r).
End operations.
Arguments SRecord : clear implicits.
Arguments term : clear implicits.
End SRecord.
