(* ===== verification/ArityLookup.v ===== *)
(** * Arities: the hash table

    The probe sequences of a table of [2 ^ k] slots visit every slot, since their steps are odd; a
    table that [newArity] fills keeps a free slot, so every search ends, and finds each
    feature at its position. *)
From S2P Require Import Prelude Word32 Sort Feature Arity.

Module ArityLookup.
Import Feature Arity.

(** ** Probe sequences *)

Definition pos (k i step n : Z) : Z := (i + n * step) mod 2 ^ k.

Lemma pos_range k i step n : 0 <= k -> 0 <= pos k i step n < 2 ^ k.
Proof. intros. apply Z.mod_pos_bound. lia. Qed.

Lemma pos_0 k i step : 0 <= i < 2 ^ k -> pos k i step 0 = i.
Proof. intros. unfold pos. rewrite Z.mul_0_l, Z.add_0_r. by apply Z.mod_small. Qed.

Lemma pos_shift k i step n : 0 <= k -> pos k (pos k i step 1) step n = pos k i step (n + 1).
Proof. intros. unfold pos. rewrite Zplus_mod_idemp_l. f_equal. lia. Qed.

Lemma pos_period k i step n : 0 <= k -> pos k i step (n + 2 ^ k) = pos k i step n.
Proof.
  intros. unfold pos. replace (i + (n + 2 ^ k) * step) with (i + n * step + step * 2 ^ k) by lia.
  apply Z.mod_add. pose proof (Z.pow_pos_nonneg 2 k). lia.
Qed.

Lemma odd_coprime k q : 0 <= k -> exists a b, a * (2 * q + 1) + b * 2 ^ k = 1.
Proof.
  intros Hk. pattern k. revert k Hk. apply natlike_ind; [exists 0, 1; done|]. intros k Hk (a & b & E). rewrite Z.pow_succ_r by done. generalize dependent (2 ^ k). intros P E.
  remember b as b0 eqn:Eb; destruct (Z.Even_or_Odd b) as [[c Hc]|[c Hc]]; rewrite Hc in Eb; [exists a, c|exists (a + P), (c - q)]; (transitivity (a * (2 * q + 1) + b0 * P); [subst b0; ring|exact E]).
Qed.

Lemma pos_covers k i q s : 0 <= k -> 0 <= s < 2 ^ k -> exists n, 0 <= n < 2 ^ k /\ pos k i (2 * q + 1) n = s.
Proof.
  intros Hk Hs. destruct (odd_coprime k q Hk) as (a & b & Hab). exists (((s - i) * a) mod 2 ^ k).
  split; [apply Z.mod_pos_bound; lia|]. unfold pos.
  rewrite <- Zplus_mod_idemp_r, Zmult_mod_idemp_l, Zplus_mod_idemp_r.
  assert (a * (2 * q + 1) = 1 - b * 2 ^ k) as Ea by lia. rewrite <- Z.mul_assoc, Ea.
  replace (i + (s - i) * (1 - b * 2 ^ k)) with (s + (i - s) * b * 2 ^ k) by ring. rewrite Z.mod_add by lia. by apply Z.mod_small.
Qed.

Lemma scndhash_odd h : exists q, scndhash h = 2 * q + 1.
Proof.
  exists (Z.land h 7). unfold scndhash. rewrite Z.shiftl_mul_pow2 by lia. change (2 ^ 1) with 2.
  rewrite <- Z.add_lor_land, (Z.mul_comm _ 2).
  assert (Z.land (2 * Z.land h 7) 1 = 0) as ->; [|lia].
  change 1 with (Z.ones 1). rewrite Z.land_ones by lia. change (2 ^ 1) with 2. rewrite Z.mul_comm. by apply Z_mod_mult.
Qed.

Lemma hashfold_mod k i : 0 <= k -> hashfold (2 ^ k - 1) i = i mod 2 ^ k.
Proof. intros. unfold hashfold. rewrite <- Z.land_ones by done. f_equal. rewrite Z.ones_equiv. lia. Qed.

Lemma hashfold_pos k i step : 0 <= k -> 0 <= i < 2 ^ k -> hashfold (2 ^ k - 1) (i + step) = pos k i step 1.
Proof. intros. rewrite hashfold_mod by done. unfold pos. f_equal. lia. Qed.

(** ** Searching a table *)

Section search.
Context `{LitEnv}.
Implicit Types (t : list slot) (e f : Feature).

Definition free (t : list slot) (s : Z) : Prop := t.[s] = Some None.

Lemma probe_spec k (fuel : nat) t step i n :
  0 <= k -> zlen t = 2 ^ k -> 0 <= i < 2 ^ k -> 0 <= n < Z.of_nat fuel -> free t (pos k i step n) ->
  exists m, 0 <= m /\ probe fuel t (2 ^ k - 1) step i = Some (pos k i step m) /\ free t (pos k i step m) /\
    forall j, 0 <= j < m -> exists p, t.[pos k i step j] = Some (Some p).
Proof.
  intros Hk Ht. revert i n. induction fuel as [|fuel IH]; intros i n Hi Hn Hf; [lia|]. cbn [probe].
  destruct (aget_Some t i) as [[p|] Es]; [lia| |].
  - rewrite Es. ored. rewrite hashfold_pos by done. destruct (Z.eq_dec n 0) as [->|Hn0].
    { unfold free in Hf. rewrite pos_0 in Hf by done. congruence. }
    destruct (IH (pos k i step 1) (n - 1)) as (m & Hm & E & Hfr & Hocc); [by apply pos_range|lia| |].
    { rewrite pos_shift by done. by replace (n - 1 + 1) with n by lia. }
    rewrite pos_shift in E, Hfr by done. exists (m + 1). split; [lia|]. split; [done|]. split; [done|]. intros j Hj.
    destruct (Z.eq_dec j 0) as [->|]; [rewrite pos_0 by done; by exists p|].
    destruct (Hocc (j - 1)) as [p' Hp']; [lia|]. exists p'. rewrite pos_shift in Hp' by done. by replace (j - 1 + 1) with j in Hp' by lia.
  - rewrite Es. ored. exists 0. rewrite pos_0 by done. split; [done|]. split; [done|]. split; [done|]. intros; lia.
Qed.

(** The slot [s] of the sequence of [e] holds [e], and no slot before it is free or holds [e]. *)
Definition reached (k : Z) t e (s : Z) : Prop :=
  exists n, 0 <= n /\ s = pos k (hashfold (2 ^ k - 1) (s32 (featureHash e))) (scndhash (s32 (featureHash e))) n /\
    forall j, 0 <= j < n -> exists f ix, t.[pos k (hashfold (2 ^ k - 1) (s32 (featureHash e))) (scndhash (s32 (featureHash e))) j] = Some (Some (f, ix)) /\ f <> e.

Lemma lookup_found k (fuel : nat) t step i e ix n :
  0 <= k -> zlen t = 2 ^ k -> 0 <= i < 2 ^ k -> 0 <= n < Z.of_nat fuel ->
  t.[pos k i step n] = Some (Some (e, ix)) ->
  (forall j, 0 <= j < n -> exists f x, t.[pos k i step j] = Some (Some (f, x)) /\ f <> e) ->
  lookup_loop fuel t (2 ^ k - 1) step i e = Some ix.
Proof.
  intros Hk Ht. revert i n. induction fuel as [|fuel IH]; intros i n Hi Hn He Hb; [lia|]. cbn [lookup_loop].
  destruct (Z.eq_dec n 0) as [->|Hn0].
  - rewrite pos_0 in He by done. rewrite He. ored. by rewrite featureEq_decides, bool_decide_eq_true_2.
  - destruct (Hb 0) as (f & x & Hf & Hne); [lia|]. rewrite pos_0 in Hf by done. rewrite Hf. ored.
    rewrite featureEq_decides, bool_decide_eq_false_2 by done. rewrite hashfold_pos by done. apply (IH _ (n - 1)); [by apply pos_range|lia| |].
    + rewrite pos_shift by done. by replace (n - 1 + 1) with n by lia.
    + intros j Hj. rewrite pos_shift by done. apply Hb. lia.
Qed.

Lemma lookup_missing k (fuel : nat) t step i e n :
  0 <= k -> zlen t = 2 ^ k -> 0 <= i < 2 ^ k -> 0 <= n < Z.of_nat fuel -> free t (pos k i step n) ->
  (forall s ix, t.[s] <> Some (Some (e, ix))) -> lookup_loop fuel t (2 ^ k - 1) step i e = Some (-1).
Proof.
  intros Hk Ht. revert i n. induction fuel as [|fuel IH]; intros i n Hi Hn Hf He; [lia|]. cbn [lookup_loop].
  destruct (aget_Some t i) as [[[f x]|] Es]; [lia| |by rewrite Es].
  rewrite Es. ored. rewrite featureEq_decides, bool_decide_eq_false_2 by (intros ->; by apply (He i x)). rewrite hashfold_pos by done.
  destruct (Z.eq_dec n 0) as [->|Hn0]; [unfold free in Hf; rewrite pos_0 in Hf by done; congruence|].
  apply (IH _ (n - 1)); [by apply pos_range|lia| |done]. rewrite pos_shift by done. by replace (n - 1 + 1) with n by lia.
Qed.

(** ** Filling a table *)

Definition used (t : list slot) : nat := length (filter is_Some t).

(** The table holds the features of [l], each with its position. *)
Record holds_list (k : Z) t (l : list Feature) : Prop := {
  hl_size : zlen t = 2 ^ k;
  hl_slots s e ix : t.[s] = Some (Some (e, ix)) -> l.[ix] = Some e /\ reached k t e s;
  hl_all ix e : l.[ix] = Some e -> exists s, t.[s] = Some (Some (e, ix));
  hl_used : used t = length l
}.

Lemma used_insert t (s : nat) p : t !! s = Some None -> used (<[s := Some p]> t) = S (used t).
Proof.
  unfold used. revert s. induction t as [|x t IH]; intros [|s] Hs; cbn in Hs; [done|done| |].
  - injection Hs as ->. change (<[0%nat:=Some p]> (None :: t)) with (Some p :: t). rewrite filter_cons_True by (by eexists). rewrite filter_cons_False; [done|]. by intros [? [=]].
  - change (<[S s:=Some p]> (x :: t)) with (x :: <[s:=Some p]> t). rewrite !filter_cons. destruct (decide (is_Some x)); cbn; by rewrite IH.
Qed.

Lemma free_slot t : (used t < length t)%nat -> exists s, 0 <= s < zlen t /\ free t s.
Proof.
  unfold used. induction t as [|x t IH]; intros Hlt; [cbn in Hlt; lia|]. rewrite zlen_cons. pose proof (zlen_nonneg t).
  destruct x as [p|]; [|exists 0; split; [lia|done]]. rewrite filter_cons_True in Hlt by (by eexists). cbn [length] in Hlt.
  destruct IH as (s & Hs & Hf); [lia|]. exists (s + 1). split; [lia|]. unfold free. rewrite aget_cons by lia. by replace (s + 1 - 1) with s by lia.
Qed.

Lemma hash_range k h : 0 <= k -> 0 <= hashfold (2 ^ k - 1) h < 2 ^ k.
Proof. intros. rewrite hashfold_mod by done. apply Z.mod_pos_bound. lia. Qed.

Lemma place_one k t l e :
  0 <= k -> holds_list k t l -> (length l < length t)%nat -> e ∉ l ->
  exists i t', probe (length t) t (2 ^ k - 1) (scndhash (s32 (featureHash e))) (hashfold (2 ^ k - 1) (s32 (featureHash e))) = Some i /\
    t.[i <- Some (e, zlen l)] = Some t' /\ holds_list k t' (l ++ [e]).
Proof.
  intros Hk [Hs Hsl Hall Hu] Hlen He. set (h := s32 (featureHash e)). destruct (free_slot t) as (s & Hs1 & Hf); [lia|].
  destruct (scndhash_odd h) as [q Eq]. destruct (pos_covers k (hashfold (2 ^ k - 1) h) q s Hk ltac:(lia)) as (n & Hn & En).
  destruct (probe_spec k (length t) t (scndhash h) (hashfold (2 ^ k - 1) h) n) as (m & Hm & Ep & Hfm & Hocc);
    [done|done|by apply hash_range|unfold zlen in Hs; lia|by rewrite Eq, En|].
  set (i := pos k (hashfold (2 ^ k - 1) h) (scndhash h) m) in *. pose proof (pos_range k (hashfold (2 ^ k - 1) h) (scndhash h) m Hk) as Hi.
  fold i in Hi. exists i, (<[Z.to_nat i := Some (e, zlen l)]> t). split; [done|]. rewrite aset_Some by lia. split; [done|].
  assert (forall f x, t.[i] <> Some (Some (f, x))) as Hni by (unfold free in Hfm; congruence).
  assert (forall s ix, t.[s] <> Some (Some (e, ix))) as Hnew.
  { intros s' ix E. apply Hsl in E as [E _]. apply He, (list_elem_of_lookup_2 _ (Z.to_nat ix)). by apply aget_lookup. }
  split.
  - by rewrite zlen_insert.
  - intros s' e' ix. rewrite aget_insert by lia. destruct (Z.eqb_spec i s') as [<-|Hne].
    + intros [= <- <-]. split; [by rewrite aget_middle|]. exists m. split; [done|]. split; [done|]. intros j Hj.
      destruct (Hocc j Hj) as [[f x] Hf']. exists f, x. rewrite aget_insert by lia. fold h.
      destruct (Z.eqb_spec i (pos k (hashfold (2 ^ k - 1) h) (scndhash h) j)) as [E|_]; [exfalso; rewrite <- E in Hf'; by apply Hni in Hf'|].
      split; [done|]. intros ->. by apply Hnew in Hf'.
    + intros E. destruct (Hsl _ _ _ E) as [Hix (n' & Hn' & Es' & Hb)]. split.
      { rewrite aget_app_l; [done|]. apply aget_Some_inv in Hix. lia. }
      exists n'. split; [done|]. split; [done|]. intros j Hj. destruct (Hb j Hj) as (f & x & Hf' & Hfe). exists f, x. split; [|done].
      rewrite aget_insert by lia. destruct (Z.eqb_spec i (pos k (hashfold (2 ^ k - 1) (s32 (featureHash e'))) (scndhash (s32 (featureHash e'))) j)) as [E'|_]; [|done].
      exfalso. rewrite <- E' in Hf'. by apply Hni in Hf'.
  - intros ix e' E. destruct (Z.eq_dec ix (zlen l)) as [->|Hne].
    + rewrite aget_middle in E. injection E as <-. exists i. rewrite aget_insert by lia. by rewrite Z.eqb_refl.
    + pose proof (aget_Some_inv _ _ _ E) as Hr. rewrite zlen_snoc in Hr. rewrite aget_app_l in E by lia. destruct (Hall _ _ E) as [s' Es'].
      exists s'. rewrite aget_insert by lia. destruct (Z.eqb_spec i s') as [<-|]; [by apply Hni in Es'|done].
  - rewrite length_app. cbn. rewrite <- Hu, Nat.add_1_r. apply used_insert. by apply aget_lookup.
Qed.

Lemma place_spec k entries t l :
  0 <= k -> holds_list k t l -> NoDup (l ++ entries) -> zlen (l ++ entries) < 2 ^ k ->
  exists t', place entries (2 ^ k - 1) (zlen l) t = Some t' /\ holds_list k t' (l ++ entries).
Proof.
  intros Hk. revert t l. induction entries as [|e entries IH]; intros t l Hh Hd Hlen; cbn [place].
  { exists t. by rewrite app_nil_r. }
  pose proof (hl_size _ _ _ Hh) as Hs. rewrite zlen_app, zlen_cons in Hlen. pose proof (zlen_nonneg entries).
  destruct (place_one k t l e) as (i & t' & -> & E & Hh'); [done|done|unfold zlen in *; lia| |].
  { apply NoDup_app in Hd as (_ & Hd & _). intros Hin. apply (Hd e Hin). apply list_elem_of_here. }
  ored. rewrite E. ored. destruct (IH t' (l ++ [e])) as (t'' & E' & Hh''); [done|by rewrite <- app_assoc|rewrite <- app_assoc; cbn [app]; rewrite zlen_app, zlen_cons; lia|].
  rewrite zlen_snoc in E'. exists t''. split; [done|]. by rewrite <- app_assoc in Hh''.
Qed.

(** ** New arities and lookups *)

(** The index of a feature in a list, or -1. *)
Fixpoint position_from (l : list Feature) (f : Feature) (k : Z) : Z :=
  match l with
  | [] => -1
  | e :: l => if bool_decide (e = f) then k else position_from l f (k + 1)
  end.
Definition position (l : list Feature) (f : Feature) : Z := position_from l f 0.

Lemma position_from_spec l f k : 0 <= k ->
  ((f ∉ l) /\ position_from l f k = -1) \/ (exists i, 0 <= i /\ l.[i] = Some f /\ position_from l f k = k + i).
Proof.
  revert k. induction l as [|e l IH]; intros k Hk; cbn [position_from]; [left; split; [apply not_elem_of_nil|done]|].
  destruct (decide (e = f)) as [->|Hne].
  - right. exists 0. rewrite bool_decide_eq_true_2 by done. split; [done|]. split; [done|lia].
  - rewrite bool_decide_eq_false_2 by done. destruct (IH (k + 1)) as [[Hn ->]|(i & Hi & El & ->)]; [lia| |].
    + left. split; [|done]. by rewrite not_elem_of_cons.
    + right. exists (i + 1). split; [lia|]. split; [|lia]. rewrite aget_cons by lia. by replace (i + 1 - 1) with i by lia.
Qed.

Lemma position_spec l f : ((f ∉ l) /\ position l f = -1) \/ (0 <= position l f < zlen l /\ l.[position l f] = Some f).
Proof.
  destruct (position_from_spec l f 0) as [[H1 H2]|(i & Hi & El & E)]; [done|by left|right]. unfold position. rewrite E, Z.add_0_l.
  split; [by apply aget_Some_inv in El|done].
Qed.

(** A list of different features has one position for each. *)
Lemma position_unique l f i : NoDup l -> l.[i] = Some f -> position l f = i.
Proof.
  intros Hd Hi. destruct (position_spec l f) as [[Hn _]|[Hr Hp]].
  - exfalso. apply Hn, (list_elem_of_lookup_2 _ (Z.to_nat i)). by apply aget_lookup.
  - pose proof (aget_Some_inv _ _ _ Hi). apply aget_lookup in Hi, Hp. pose proof (NoDup_lookup _ _ _ _ Hd Hi Hp). lia.
Qed.

(** The features of a tuple of width [w]. *)
Definition tuple_list (w : Z) : list Feature := FSmallInt <$> seqZ 1 w.

(** What [newArity] makes. *)
Definition arity_ok (a : Arity) : Prop :=
  width a = zlen (a_list a) /\ NoDup (a_list a) /\
  if isTuple a then a_list a = tuple_list (width a)
  else exists k, 0 <= k /\ hashmask a = 2 ^ k - 1 /\ zlen (a_list a) < 2 ^ k /\ holds_list k (table a) (a_list a).

Lemma nextPowerOf2_loop_spec (fuel : nat) j n :
  0 <= j -> n <= 2 ^ (j + Z.of_nat fuel) -> exists k, j <= k <= j + Z.of_nat fuel /\ nextPowerOf2_loop (S fuel) (2 ^ j) n = Some (2 ^ k) /\ n <= 2 ^ k.
Proof.
  revert j. induction fuel as [|fuel IH]; intros j Hj Hn; cbn [nextPowerOf2_loop].
  - rewrite Z.add_0_r in Hn. exists j. split; [lia|]. destruct (Z.leb_spec n (2 ^ j)); [done|lia].
  - destruct (Z.leb_spec n (2 ^ j)); [exists j; split; [lia|done]|].
    replace (2 ^ j * 2) with (2 ^ (j + 1)) by (rewrite Z.pow_add_r by lia; lia).
    destruct (IH (j + 1)) as (k & Hk & E & Hle); [lia|by replace (j + 1 + Z.of_nat fuel) with (j + Z.of_nat (S fuel)) by lia|].
    exists k. split; [lia|]. by split.
Qed.

Lemma nextPowerOf2_spec n : n <= 2 ^ 30 -> exists k, 1 <= k <= 30 /\ nextPowerOf2 n = Some (2 ^ k) /\ n <= 2 ^ k.
Proof. intros Hn. by apply (nextPowerOf2_loop_spec 29 1 n). Qed.

Lemma empty_holds k : 0 <= k -> holds_list k (replicate (Z.to_nat (2 ^ k)) None) [].
Proof.
  intros Hk. split.
  - unfold zlen. rewrite length_replicate. lia.
  - intros s e ix E. apply aget_lookup, lookup_replicate in E. destruct E as [E _]. discriminate E.
  - intros ix e E. unfold aget in E. destruct (0 <=? ix); [|done]. by rewrite lookup_nil in E.
  - unfold used. induction (Z.to_nat (2 ^ k)) as [|n IH]; [done|]. cbn [replicate]. rewrite filter_cons_False; [done|]. by intros [? [=]].
Qed.

Lemma newArity_table l : NoDup l -> zlen l <= 2 ^ 29 ->
  exists a, newArity l false = Some a /\ a_list a = l /\ isTuple a = false /\ arity_ok a.
Proof.
  intros Hd Hl. pose proof (zlen_nonneg l) as Hn. assert (3 * zlen l ÷ 2 = 3 * zlen l / 2) as E by (apply Z.quot_div_nonneg; lia).
  unfold newArity. rewrite E. destruct (nextPowerOf2_spec (3 * zlen l / 2)) as (k & Hk & -> & Hle); [Z.div_mod_to_equations; lia|]. ored.
  assert (zlen l < 2 ^ k) as Hlt.
  { assert (2 ^ 1 <= 2 ^ k) by (apply Z.pow_le_mono_r; lia). Z.div_mod_to_equations. lia. }
  destruct (place_spec k l (replicate (Z.to_nat (2 ^ k)) None) []) as (t & E' & Ht); [lia|apply empty_holds; lia|done|done|].
  change (zlen []) with 0 in E'. rewrite E'. ored. eexists. split; [done|]. split; [done|].
  assert (2 ^ 1 <= 2 ^ k) by (apply Z.pow_le_mono_r; lia). assert (isTuple (AR l (2 ^ k - 1) (zlen l) t) = false) as Et by (apply Z.eqb_neq; cbn; lia).
  split; [done|]. split; [done|]. split; [done|]. rewrite Et. exists k. split; [lia|]. done.
Qed.

Lemma tuple_list_length w : 0 <= w -> zlen (tuple_list w) = w.
Proof. intros. unfold tuple_list, zlen. rewrite length_fmap, length_seqZ. lia. Qed.

Lemma tuple_list_nodup w : NoDup (tuple_list w).
Proof. apply NoDup_fmap_2; [by intros ?? [=]|apply NoDup_seqZ]. Qed.

Lemma newArity_tuple w : 0 <= w -> exists a, newArity (tuple_list w) true = Some a /\ a_list a = tuple_list w /\ isTuple a = true /\ arity_ok a.
Proof.
  intros Hw. eexists. split; [done|]. split; [done|]. split; [done|]. split; [done|]. split; [apply tuple_list_nodup|].
  cbn. by rewrite tuple_list_length.
Qed.

Lemma lookup_from_spec a f : arity_ok a -> isTuple a = false -> lookup_from a (s32 (featureHash f)) f = Some (position (a_list a) f).
Proof.
  intros (_ & Hd & Ha) Ht. rewrite Ht in Ha. destruct Ha as (k & Hk & Em & Hlt & [Hs Hsl Hall Hu]). unfold lookup_from. rewrite Ht, Em.
  set (h := s32 (featureHash f)). pose proof (hash_range k h Hk) as Hr. destruct (scndhash_odd h) as [q Eq].
  assert (Z.of_nat (length (table a)) = 2 ^ k) as Hlen by exact Hs.
  destruct (position_spec (a_list a) f) as [[Hn ->]|[Hp El]].
  - destruct (free_slot (table a)) as (s & Hs1 & Hf); [unfold zlen in Hlt; lia|].
    destruct (pos_covers k (hashfold (2 ^ k - 1) h) q s Hk ltac:(lia)) as (n & Hn' & En).
    apply (lookup_missing k _ _ _ _ _ n); [done|done|done|lia|by rewrite Eq, En|].
    intros s' ix E. apply Hsl in E as [E _]. apply Hn, (list_elem_of_lookup_2 _ (Z.to_nat ix)). by apply aget_lookup.
  - destruct (Hall _ _ El) as [s Es]. destruct (Hsl _ _ _ Es) as [_ (n & Hn & En & Hb)]. fold h in En, Hb.
    destruct (Z.lt_ge_cases n (2 ^ k)) as [Hlt'|Hge].
    + apply (lookup_found k _ _ _ _ _ _ n); [done|done|done|lia|by rewrite <- En|done].
    + exfalso. destruct (Hb (n - 2 ^ k)) as (f' & x & E & Hne); [lia|].
      rewrite <- (pos_period k _ _ (n - 2 ^ k)) in E by done. replace (n - 2 ^ k + 2 ^ k) with n in E by lia. rewrite <- En, Es in E. congruence.
Qed.

Lemma lookupInternal_spec a f : arity_ok a -> isTuple a = false -> lookupInternal a f = Some (position (a_list a) f).
Proof. intros Ha Ht. rewrite <- lookup_from_spec by done. by destruct f as [p|n|n]. Qed.
End search.
End ArityLookup.
