(* ===== verification/ArityTables.v ===== *)
(** * Arities: sorted lists and the table of arities

    The list functions of [value.cc] keep arity lists strictly sorted, so a set of features has one
    arity list; [ArityTable::find] gives one pointer for each list. *)
From S2P Require Import Prelude Word32 Sort Feature Arity ArityLookup.
From Stdlib Require Import Sorted.

Module ArityTables.
Import Feature Arity ArityLookup.

(** ** Sorted lists of features *)

Section lists.
Context `{env : LitEnv} {Hok : LitOk env} (lo : Z).
Implicit Types (l : list Feature).

(** Strictly sorted, with comparable features. *)
Definition sorted (l : list Feature) : Prop := Forall (window lo) l /\ StronglySorted (fun a b => featureCmp a b < 0) l.

Lemma cmp_flip a b : window lo a -> window lo b -> featureCmp b a = - featureCmp a b.
Proof using Hok. apply (cmp_anti _ _ (featureCmp_order lo)). Qed.

Lemma cmp_lt_trans a b d : window lo a -> window lo b -> window lo d -> featureCmp a b < 0 -> featureCmp b d < 0 -> featureCmp a d < 0.
Proof using Hok.
  intros Ha Hb Hd H1 H2. pose proof (cmp_trans _ _ (featureCmp_order lo) d b a Hd Hb Ha) as Ht.
  pose proof (cmp_zero _ _ a d b (featureCmp_order lo) Ha Hd Hb) as H0.
  rewrite (cmp_flip b d), (cmp_flip a b), (cmp_flip a d) in Ht by done. pose proof (cmp_flip b d Hb Hd). lia.
Qed.

Lemma sorted_nil : sorted [].
Proof. split; constructor. Qed.

Lemma sorted_cons a l : sorted (a :: l) <-> window lo a /\ sorted l /\ Forall (fun b => featureCmp a b < 0) l.
Proof.
  unfold sorted. rewrite Forall_cons. split.
  - intros [[Ha Hl] Hs]. apply StronglySorted_inv in Hs as [? ?]. done.
  - intros (Ha & [Hl Hs] & Hf). split; [done|]. by constructor.
Qed.

Lemma sorted_nodup l : sorted l -> NoDup l.
Proof using Hok.
  induction l as [|a l IH]; [constructor|]. intros (Ha & Hs & Hf)%sorted_cons. constructor; [|by apply IH].
  intros Hin. rewrite Forall_forall in Hf. specialize (Hf a Hin). rewrite (proj2 (featureCmp_zero lo a a Ha Ha) eq_refl) in Hf. lia.
Qed.

(** A sorted list is determined by its elements. *)
Lemma sorted_unique l l' : sorted l -> sorted l' -> (forall x, x ∈ l <-> x ∈ l') -> l = l'.
Proof using Hok.
  revert l'. induction l as [|a l IH]; intros [|b l'] Hl Hl' H; [done| | |].
  - exfalso. apply (elem_of_nil b), H, list_elem_of_here.
  - exfalso. apply (elem_of_nil a), H, list_elem_of_here.
  - pose proof (sorted_nodup _ Hl) as Hd. pose proof (sorted_nodup _ Hl') as Hd'.
    apply sorted_cons in Hl as (Ha & Hl & Fa), Hl' as (Hb & Hl' & Fb). rewrite Forall_forall in Fa, Fb.
    assert (a = b) as ->.
    { pose proof (proj1 (H a) (list_elem_of_here _ _)) as H1. pose proof (proj2 (H b) (list_elem_of_here _ _)) as H2.
      apply elem_of_cons in H1 as [->|H1], H2 as [E|H2]; try done. specialize (Fa b H2). specialize (Fb a H1). pose proof (cmp_flip a b Ha Hb). lia. }
    f_equal. apply IH; [done|done|]. intros x. apply NoDup_cons in Hd as [Hd _], Hd' as [Hd' _]. specialize (H x). rewrite !elem_of_cons in H.
    split; intros Hx; (destruct (decide (x = b)) as [->|]; [done|tauto]).
Qed.

Lemma insert_spec a l : window lo a -> sorted l -> sorted (insert a l) /\ forall x, x ∈ insert a l <-> x = a \/ x ∈ l.
Proof using Hok.
  intros Ha. induction l as [|b l IH]; intros Hl; cbn [insert].
  - split; [apply sorted_cons; split; [done|]; split; [apply sorted_nil|constructor]|]. intros x. by rewrite elem_of_cons.
  - pose proof Hl as (Hb & Hs & Hf)%sorted_cons. destruct (Z.eqb_spec (featureCmp a b) 0) as [E|Hne].
    + apply (featureCmp_zero lo) in E as ->; [|done..]. split; [done|]. intros x. rewrite elem_of_cons. tauto.
    + destruct (Z.ltb_spec (featureCmp a b) 0).
      * split; [|intros x; by rewrite elem_of_cons]. apply sorted_cons. split; [done|]. split; [done|]. constructor; [done|].
        rewrite Forall_forall in Hf |- *. intros x Hx. apply (cmp_lt_trans a b x); [done|done| |done|by apply Hf].
        destruct Hs as [Hw _]. rewrite Forall_forall in Hw. by apply Hw.
      * destruct (IH Hs) as [Hi He]. split; [|intros x; rewrite !elem_of_cons, He; tauto]. apply sorted_cons. split; [done|]. split; [done|].
        rewrite Forall_forall in Hf |- *. intros x [->|Hx]%He; [|by apply Hf]. pose proof (cmp_flip a b Ha Hb). lia.
Qed.

Lemma insertlist_spec ins old : Forall (window lo) ins -> sorted old ->
  sorted (insertlist ins old) /\ forall x, x ∈ insertlist ins old <-> x ∈ ins \/ x ∈ old.
Proof using Hok.
  unfold insertlist. revert old. induction ins as [|a ins IH]; intros old Hi Ho; cbn [fold_left].
  - split; [done|]. intros x. rewrite elem_of_nil. tauto.
  - apply Forall_cons in Hi as [Ha Hi]. destruct (insert_spec a old Ha Ho) as [Hs He]. destruct (IH (insert a old) Hi Hs) as [Hs' He'].
    split; [done|]. intros x. rewrite He', He, elem_of_cons. tauto.
Qed.

(** A merged head stays below the merged tails. *)
Lemma sorted_below a l : sorted (a :: l) -> forall x, x ∈ l -> featureCmp a x < 0.
Proof. intros (_ & _ & Hf)%sorted_cons x. rewrite Forall_forall in Hf. apply Hf. Qed.

Lemma merge_loop_spec (fuel : nat) l1 l2 : sorted l1 -> sorted l2 -> (length l1 + length l2 < fuel)%nat ->
  exists l, merge_loop fuel l1 l2 = Some l /\ sorted l /\ forall x, x ∈ l <-> x ∈ l1 \/ x ∈ l2.
Proof using Hok.
  revert l1 l2. induction fuel as [|fuel IH]; intros l1 l2 H1 H2 Hf; [lia|]. cbn [merge_loop].
  destruct l1 as [|a l1]; [exists l2; split; [done|]; split; [done|]; intros x; rewrite elem_of_nil; tauto|].
  destruct l2 as [|b l2]; [exists (a :: l1); split; [done|]; split; [done|]; intros x; rewrite elem_of_nil; tauto|].
  cbn [length] in Hf. pose proof (sorted_below _ _ H1) as B1. pose proof (sorted_below _ _ H2) as B2.
  pose proof H1 as (Ha & S1 & _)%sorted_cons. pose proof H2 as (Hb & S2 & _)%sorted_cons.
  assert (forall x, x ∈ l1 -> window lo x) as W1 by (destruct S1 as [W1 _]; by apply Forall_forall).
  assert (forall x, x ∈ l2 -> window lo x) as W2 by (destruct S2 as [W2 _]; by apply Forall_forall).
  pose proof (cmp_flip a b Ha Hb) as Hflip.
  destruct (Z.eqb_spec (featureCmp a b) 0) as [E|Hne]; [|destruct (Z.ltb_spec (featureCmp a b) 0)].
  - apply (featureCmp_zero lo) in E as ->; [|done..]. destruct (IH l1 l2) as (l & -> & Hs & He); [done|done|lia|]. ored. exists (b :: l).
    split; [done|]. split; [|intros x; rewrite !elem_of_cons, He; tauto]. apply sorted_cons. split; [done|]. split; [done|].
    apply Forall_forall. intros x [Hx|Hx]%He; auto.
  - destruct (IH l1 (b :: l2)) as (l & -> & Hs & He); [done|done|cbn [length]; lia|]. ored. exists (a :: l).
    split; [done|]. split; [|intros x; rewrite !elem_of_cons, He, elem_of_cons; tauto]. apply sorted_cons. split; [done|]. split; [done|].
    apply Forall_forall. intros x [Hx|[->|Hx]%elem_of_cons]%He; [auto|done|]. apply (cmp_lt_trans a b x); auto.
  - destruct (IH (a :: l1) l2) as (l & -> & Hs & He); [done|done|cbn [length]; lia|]. ored. exists (b :: l).
    split; [done|]. split; [|intros x; rewrite !elem_of_cons, He, elem_of_cons; tauto]. apply sorted_cons. split; [done|]. split; [done|].
    apply Forall_forall. intros x [[->|Hx]%elem_of_cons|Hx]%He; [lia| |auto]. apply (cmp_lt_trans b a x); auto. lia.
Qed.

Lemma merge_spec l1 l2 : sorted l1 -> sorted l2 -> exists l, merge l1 l2 = Some l /\ sorted l /\ forall x, x ∈ l <-> x ∈ l1 \/ x ∈ l2.
Proof using Hok. intros H1 H2. apply merge_loop_spec; [done|done|lia]. Qed.

(** ** Sorting *)

Lemma isSorted_spec l : Forall (window lo) l -> isSorted l = true <-> sorted l.
Proof using Hok.
  induction l as [|a l IH]; intros Hw; [split; [intros; apply sorted_nil|done]|]. apply Forall_cons in Hw as [Ha Hl].
  cbn [isSorted]. destruct l as [|b l].
  - split; [|done]. intros _. apply sorted_cons. split; [done|]. split; [apply sorted_nil|constructor].
  - pose proof Hl as [Hb Hl']%Forall_cons. split.
    + destruct (Z.leb_spec 0 (featureCmp a b)); [done|]. intros Hs. apply IH in Hs; [|done]. apply sorted_cons. split; [done|]. split; [done|].
      apply Forall_forall. intros x [->|Hx]%elem_of_cons; [done|]. apply (cmp_lt_trans a b x); [done|done| |done|by apply (sorted_below b l)].
      by apply (proj1 (Forall_forall _ _) Hl').
    + intros Hs. pose proof (sorted_below _ _ Hs b (list_elem_of_here _ _)). destruct (Z.leb_spec 0 (featureCmp a b)); [lia|].
      apply IH; [done|]. by apply sorted_cons in Hs as (_ & ? & _).
Qed.

(** [prev :: r] in non-decreasing order. *)
Lemma dedup_spec prev r :
  Forall (window lo) (prev :: r) -> StronglySorted (fun a b => featureCmp a b <= 0) (prev :: r) ->
  sorted (prev :: dedup prev r) /\ forall x, x ∈ prev :: dedup prev r <-> x ∈ prev :: r.
Proof using Hok.
  revert prev. induction r as [|a r IH]; intros prev Hw Hs; cbn [dedup].
  - apply Forall_cons in Hw as [Hp _]. split; [|done]. apply sorted_cons. split; [done|]. split; [apply sorted_nil|constructor].
  - pose proof Hw as [Hp [Ha Hr]%Forall_cons]%Forall_cons. apply StronglySorted_inv in Hs as [Hs Hf]. destruct (IH a) as [IS IE]; [by constructor|done|].
    rewrite featureEq_decides. destruct (decide (prev = a)) as [->|Hne].
    + rewrite bool_decide_eq_true_2 by done. cbn [negb]. split; [done|]. intros x. rewrite IE, (elem_of_cons (a :: r)). rewrite elem_of_cons. tauto.
    + rewrite bool_decide_eq_false_2 by done. cbn [negb]. split; [|intros x; rewrite elem_of_cons, IE, (elem_of_cons (a :: r)); tauto].
      apply sorted_cons. split; [done|]. split; [done|]. apply Forall_forall. intros x [->|Hx]%elem_of_cons.
      * apply Forall_cons in Hf as [Hf _]. pose proof (featureCmp_zero lo prev a Hp Ha). assert (featureCmp prev a <> 0) by tauto. lia.
      * pose proof (sorted_below _ _ IS x Hx) as Hlt. apply Forall_cons in Hf as [Hf _]. pose proof (featureCmp_zero lo prev a Hp Ha).
        assert (featureCmp prev a <> 0) by tauto. apply (cmp_lt_trans prev a x); [done|done| |lia|done].
        destruct IS as [IW _]. apply Forall_cons in IW as [_ IW]. by apply (proj1 (Forall_forall _ _) IW).
Qed.

Lemma order_strongly (r : list Feature) : (forall i j a b, 0 <= i -> i <= j -> r.[i] = Some a -> r.[j] = Some b -> featureLt b a = false) ->
  Forall (window lo) r -> StronglySorted (fun a b => featureCmp a b <= 0) r.
Proof using Hok.
  induction r as [|a r IH]; intros H Hw; [constructor|]. apply Forall_cons in Hw as [Ha Hr]. constructor.
  - apply IH; [|done]. intros i j x y Hi Hij Hx Hy. apply (H (i + 1) (j + 1)); [lia|lia|by rewrite aget_cons, Z.add_simpl_r by lia..].
  - apply Forall_aget. intros i b Hb. pose proof (aget_Some_inv _ _ _ Hb). assert (featureLt b a = false) as Hlt.
    { apply (H 0 (i + 1)); [lia|lia|done|]. by rewrite aget_cons, Z.add_simpl_r by lia. }
    unfold featureLt in Hlt. rewrite (cmp_flip a b) in Hlt; [lia|done|]. by apply (proj1 (Forall_aget _ _) Hr i).
Qed.

Lemma sort_features l : Forall (window lo) l -> zlen l <= 2 ^ 31 ->
  exists r, Sort.fastsort featureLt l (zlen l) = Some r /\ r ≡ₚ l /\ StronglySorted (fun a b => featureCmp a b <= 0) r.
Proof using Hok.
  intros Hw Hn. destruct (SortMap.fastsort_part (window lo) featureLt l) as (r & E & Hp & Hs); [| |done|done|].
  - intros a b Ha Hb. unfold featureLt. rewrite (cmp_flip a b) by done. lia.
  - intros a b c Ha Hb Hc. unfold featureLt. rewrite (cmp_flip a b), (cmp_flip b c), (cmp_flip a c) by done.
    pose proof (cmp_trans _ _ (featureCmp_order lo) c b a Hc Hb Ha). rewrite (cmp_flip b c), (cmp_flip a b), (cmp_flip a c) in H by done. lia.
  - exists r. split; [done|]. split; [done|]. apply order_strongly; [done|by rewrite Hp].
Qed.

Lemma sortlist_spec l : l <> [] -> Forall (window lo) l -> zlen l <= 2 ^ 31 ->
  exists l', sortlist l (zlen l) = Some l' /\ sorted l' /\ forall x, x ∈ l' <-> x ∈ l.
Proof using Hok.
  intros Hne Hw Hn. destruct (sort_features l Hw Hn) as (r & E & Hp & Hss). unfold sortlist. rewrite E. ored.
  assert (Forall (window lo) r) as Hwr by (by rewrite Hp). destruct r as [|a r]; [apply Permutation_nil_l in Hp; done|].
  destruct (dedup_spec a r Hwr Hss) as [S1 S2]. eexists. split; [done|]. split; [done|]. intros x. by rewrite S2, Hp.
Qed.
End lists.

(** ** The table of arities *)

Section arities.
Context `{env : LitEnv}.
Implicit Types (l : list Feature).

Lemma listequal_decides l l' : listequal l l' = bool_decide (l = l').
Proof.
  revert l'. induction l as [|a l IH]; intros [|b l']; cbn [listequal]; try done. rewrite featureEq_decides.
  destruct (decide (a = b)) as [->|Hne]; [rewrite bool_decide_eq_true_2 by done|rewrite bool_decide_eq_false_2 by done].
  - rewrite IH. destruct (decide (l = l')) as [->|Hne]; [by rewrite !bool_decide_eq_true_2|rewrite !bool_decide_eq_false_2; [done|congruence|done]].
  - rewrite bool_decide_eq_false_2; [done|congruence].
Qed.

Lemma hashvalue_loop_failed l i : fst (hashvalue_loop l (-1) i) = -1.
Proof. revert i. induction l as [|a l IH]; intros i; cbn [hashvalue_loop]; [done|]. destruct a; apply IH. Qed.

Lemma hashvalue_loop_spec l len i : 0 <= len ->
  (fst (hashvalue_loop l len i) = len + zlen l /\ l = FSmallInt <$> seqZ (len + 1) (zlen l)) \/
  (fst (hashvalue_loop l len i) = -1 /\ l <> FSmallInt <$> seqZ (len + 1) (zlen l)).
Proof.
  revert len i. induction l as [|a l IH]; intros len i Hlen; cbn [hashvalue_loop]; [left; split; [cbn [fst]; rewrite zlen_nil; lia|done]|].
  rewrite zlen_cons. pose proof (zlen_nonneg l) as Hl. rewrite seqZ_cons by lia. rewrite fmap_cons. replace (Z.pred (zlen l + 1)) with (zlen l) by lia.
  replace (Z.succ (len + 1)) with (len + 1 + 1) by lia.
  assert (forall b, a <> FSmallInt (len + 1) -> b = -1 ->
    fst (hashvalue_loop l b (w32 (i + featureHash a))) = len + (zlen l + 1) /\ a :: l = FSmallInt (len + 1) :: (FSmallInt <$> seqZ (len + 1 + 1) (zlen l)) \/
    fst (hashvalue_loop l b (w32 (i + featureHash a))) = -1 /\ a :: l <> FSmallInt (len + 1) :: (FSmallInt <$> seqZ (len + 1 + 1) (zlen l))) as Hno.
  { intros b Ha ->. right. rewrite hashvalue_loop_failed. split; [done|]. by intros [= -> _]. }
  destruct a as [p|n|n]; [by apply Hno| |by apply Hno]. destruct (Z.leb_spec 0 len); [|lia]. destruct (Z.eqb_spec n (len + 1)) as [->|Hne]; cbn [andb].
  - destruct (IH (len + 1) (w32 (i + featureHash (FSmallInt (len + 1))))) as [[E1 E2]|[E1 E2]]; [lia|left|right]; rewrite E1.
    + split; [lia|]. by rewrite <- E2.
    + split; [done|]. intros [= E]. by apply E2.
  - apply Hno; [congruence|done].
Qed.

Lemma hashvalue_tuple t l : fst (hashvalue t l) = bool_decide (l = tuple_list (zlen l)).
Proof.
  unfold hashvalue. pose proof (hashvalue_loop_spec l 0 0 ltac:(lia)) as Hs. destruct (hashvalue_loop l 0 0) as [len i]. cbn [fst] in *.
  pose proof (zlen_nonneg l). destruct Hs as [[-> E]|[-> E]].
  - rewrite bool_decide_eq_true_2 by exact E. destruct (Z.ltb_spec (0 + zlen l) 0); [lia|done].
  - by rewrite bool_decide_eq_false_2 by exact E.
Qed.

(** A table of [2 ^ k] chains.  Each chain holds arities of its hash value, with different lists. *)
Record table_ok (t : ArityTable) : Prop := {
  to_size : exists k, 0 <= k /\ at_hashmask t = 2 ^ k - 1 /\ zlen (at_table t) = 2 ^ k;
  to_arity p a : deref t p = Some a -> arity_ok a /\ hashvalue t (a_list a) = (Arity.isTuple a, bucket p);
  to_unique h c i j a b : (at_table t).[h] = Some c -> c.[i] = Some a -> c.[j] = Some b -> a_list a = a_list b -> i = j
}.

(** Pointers are determined by the list of their arity. *)
Lemma arities_interned t p q a b : table_ok t -> deref t p = Some a -> deref t q = Some b -> a_list a = a_list b -> p = q.
Proof.
  intros Ht Ha Hb E. pose proof (to_arity t Ht p a Ha) as [_ H1]. pose proof (to_arity t Ht q b Hb) as [_ H2].
  rewrite E, H2 in H1. injection H1 as _ Eb. destruct p as [h i], q as [h' j]; cbn [bucket place_in] in *. subst h'. f_equal.
  unfold deref in Ha, Hb. cbn [bucket place_in] in *. destruct (at_table t).[h] as [c|] eqn:Ec; [|done]. ored in Ha. ored in Hb.
  by apply (to_unique t Ht h c i j a b).
Qed.

Lemma newArityTable_ok n : n <= 2 ^ 30 -> exists t, newArityTable n = Some t /\ table_ok t.
Proof.
  intros Hn. unfold newArityTable. destruct (nextPowerOf2_spec n Hn) as (k & Hk & -> & _). ored. eexists. split; [done|]. split.
  - exists k. split; [lia|]. split; [done|]. unfold zlen. cbn [at_table]. rewrite length_replicate. lia.
  - intros p a. unfold deref. cbn [at_table]. destruct (replicate _ _).[bucket p] as [c|] eqn:E; [|done]. ored.
    apply aget_lookup, lookup_replicate in E as [-> _]. unfold aget. destruct (0 <=? place_in p); [by rewrite lookup_nil|done].
  - intros h c i j a b. cbn [at_table]. intros E%aget_lookup. apply lookup_replicate in E as [-> _]. unfold aget.
    destruct (0 <=? i); [by rewrite lookup_nil|done].
Qed.

Lemma find_chain_spec c l k : 0 <= k ->
  match find_chain c l k with
  | Some r => exists i a, r = k + i /\ 0 <= i /\ c.[i] = Some a /\ a_list a = l
  | None => forall i a, c.[i] = Some a -> a_list a <> l
  end.
Proof.
  revert k. induction c as [|a c IH]; intros k Hk; cbn [find_chain].
  - intros i a. unfold aget. destruct (0 <=? i); [by rewrite lookup_nil|done].
  - rewrite listequal_decides. destruct (decide (a_list a = l)) as [E|Hne]; [rewrite bool_decide_eq_true_2 by done|rewrite bool_decide_eq_false_2 by done].
    + exists 0, a. split; [lia|]. done.
    + specialize (IH (k + 1) ltac:(lia)). destruct (find_chain c l (k + 1)) as [r|].
      * destruct IH as (i & b & -> & Hi & Hb & El). exists (i + 1), b. rewrite aget_cons, Z.add_simpl_r by lia. split; [lia|]. split; [lia|]. done.
      * intros i b Hb. destruct (Z.eq_dec i 0) as [->|]; [by injection Hb as <-|]. pose proof (aget_Some_inv _ _ _ Hb). rewrite aget_cons in Hb by lia. by apply (IH (i - 1)).
Qed.

(** What a change of the table keeps. *)
Definition extends (t t' : ArityTable) : Prop := forall p a, deref t p = Some a -> deref t' p = Some a.

#[global] Instance extends_preorder : PreOrder extends.
Proof. split; [by intros t p a|intros t1 t2 t3 H1 H2 p a ?; auto]. Qed.

Lemma newArity_spec t l : NoDup l -> zlen l <= 2 ^ 29 ->
  exists a, newArity l (fst (hashvalue t l)) = Some a /\ a_list a = l /\ Arity.isTuple a = fst (hashvalue t l) /\ arity_ok a.
Proof.
  intros Hd Hl. rewrite hashvalue_tuple. destruct (decide (l = tuple_list (zlen l))) as [E|Hne].
  - rewrite bool_decide_eq_true_2 by done. rewrite E. apply newArity_tuple, zlen_nonneg.
  - rewrite bool_decide_eq_false_2 by done. destruct (newArity_table l Hd Hl) as (a & ? & ? & ? & ?). by exists a.
Qed.

Lemma hash_bucket t l : table_ok t -> exists c, (at_table t).[snd (hashvalue t l)] = Some c.
Proof.
  intros [(k & Hk & Em & Es) _ _]. unfold hashvalue. destruct (hashvalue_loop l 0 0) as [len i]. cbn [snd]. rewrite Em.
  apply aget_Some. rewrite Es. by apply hash_range.
Qed.

Lemma find_spec t l : table_ok t -> NoDup l -> zlen l <= 2 ^ 29 ->
  exists t' p a, find t l = Some (t', p) /\ table_ok t' /\ extends t t' /\ deref t' p = Some a /\ a_list a = l.
Proof.
  intros Ht Hd Hl. unfold find. destruct (hash_bucket t l Ht) as [c Ec]. pose proof (newArity_spec t l Hd Hl) as (a & Ea & El & Etup & Ha).
  destruct (hashvalue t l) as [tup h] eqn:Eh. cbn [fst snd] in *. rewrite Ec. ored. pose proof (find_chain_spec c l 0 ltac:(lia)) as Hf.
  destruct (find_chain c l 0) as [r|].
  { destruct Hf as (i & b & -> & Hi & Hb & Elb). exists t, (Aptr h (0 + i)), b. split; [done|]. split; [done|]. split; [done|]. split; [|done].
    unfold deref. cbn [bucket place_in]. rewrite Ec. ored. by rewrite Z.add_0_l. }
  rewrite Ea. ored. pose proof (aget_Some_inv _ _ _ Ec) as Hr. rewrite aset_Some by done. ored.
  set (t' := AT (<[Z.to_nat h := c ++ [a]]> (at_table t)) (at_hashmask t)).
  assert (forall p, deref t' p = if bucket p =? h then (c ++ [a]).[place_in p] else deref t p) as Hderef.
  { intros p. unfold deref, t'. cbn [at_table]. rewrite aget_insert by done. rewrite (Z.eqb_sym h). by destruct (Z.eqb_spec (bucket p) h). }
  assert (forall i b, (c ++ [a]).[i] = Some b -> c.[i] = Some b \/ i = zlen c /\ b = a) as Happ.
  { intros i b Hb. destruct (Z.lt_ge_cases i (zlen c)); [left; by rewrite aget_app_l in Hb|right]. pose proof (aget_Some_inv _ _ _ Hb) as Hi. rewrite zlen_snoc in Hi.
    assert (i = zlen c) as -> by lia. rewrite aget_middle in Hb. by injection Hb as <-. }
  assert (forall l, hashvalue t' l = hashvalue t l) as Hhv by done.
  exists t', (Aptr h (zlen c)), a. split; [done|]. split; [|split; [|split; [|done]]].
  - split.
    + destruct (to_size t Ht) as (k & Hk & Em & Es). exists k. split; [done|]. split; [done|]. unfold t'. cbn [at_table]. by rewrite zlen_insert.
    + intros p b. rewrite Hderef, Hhv. destruct (Z.eqb_spec (bucket p) h) as [E|]; [|by apply (to_arity t Ht)].
      intros [Hb|[_ ->]]%Happ; [|by rewrite El, Eh, Etup, E]. apply (to_arity t Ht). unfold deref. by rewrite E, Ec.
    + intros h' c' i j x y. unfold t'. cbn [at_table]. rewrite aget_insert by done. destruct (Z.eqb_spec h h') as [<-|]; [|by apply (to_unique t Ht)].
      intros [= <-] [Hx|[-> ->]]%Happ [Hy|[-> ->]]%Happ E; [by apply (to_unique t Ht h c i j x y)| | |done]; exfalso.
      * apply (Hf i x Hx). by rewrite E.
      * apply (Hf j y Hy). by rewrite <- E.
  - intros p b Hb. rewrite Hderef. destruct (Z.eqb_spec (bucket p) h) as [E|]; [|done]. unfold deref in Hb. rewrite E, Ec in Hb. ored in Hb.
    pose proof (aget_Some_inv _ _ _ Hb). rewrite aget_app_l by lia. done.
  - rewrite Hderef. cbn [bucket place_in]. rewrite Z.eqb_refl. apply aget_middle.
Qed.
End arities.
End ArityTables.
