(* ===== verification/RecordSpec.v ===== *)
(** * What records stand for

    [stands t r fs m]: the record [r] has the features [fs], in the order of its arguments, and the
    value [m f] at each; a feature whose argument is not initialised has none.  The operations of
    [SRecord] are specified against the map [m]. *)
From S2P Require Import Prelude Word32 Sort Feature Arity ArityLookup ArityTables SRecord.

Module RecordSpec.
Import Feature Arity ArityLookup ArityTables SRecord.

Section records.
Context `{env : LitEnv} {Hok : LitOk env} {T : Type} (lo : Z).
Implicit Types (t : ArityTable) (r : SRecord T) (fs : list Feature) (m : Feature -> option T).

Definition has_features t (a : SRecordArity) fs : Prop :=
  match a with
  | Tuple w => 0 <= w /\ fs = tuple_list w
  | RecordArity p => exists b, deref t p = Some b /\ Arity.isTuple b = false /\ a_list b = fs
  end.

Record stands t r fs m : Prop := {
  st_features : has_features t (recordArity r) fs;
  st_width : zlen (args r) = zlen fs;
  st_args f : f ∈ fs -> (args r).[position fs f] = Some (m f);
  st_others f : f ∉ fs -> m f = None
}.

(** All arguments are initialised. *)
Definition full fs m : Prop := forall f, f ∈ fs -> m f <> None.

(** Sorted, not empty, and small enough for the table of an arity. *)
Definition features_ok fs : Prop := sorted lo fs /\ 0 < zlen fs <= 2 ^ 29.

(** [m] with [v] at [f]. *)
Definition upd m (f : Feature) (v : T) : Feature -> option T := fun x => if decide (x = f) then Some v else m x.

Lemma features_extend t t' a fs : extends t t' -> has_features t a fs -> has_features t' a fs.
Proof. intros He. destruct a as [w|p]; [done|]. intros (b & Hb & ? & ?). exists b. auto. Qed.

Lemma stands_extend t t' r fs m : extends t t' -> stands t r fs m -> stands t' r fs m.
Proof. intros He [? ? ? ?]. split; [by apply (features_extend t)|done..]. Qed.

(** The arity word is determined by the features. *)
Lemma arity_canonical t a b fs : table_ok t -> has_features t a fs -> has_features t b fs -> a = b.
Proof.
  intros Ht Ha Hb.
  assert (forall p c, deref t p = Some c -> Arity.isTuple c = false -> a_list c <> tuple_list (zlen (a_list c))) as Hnt.
  { intros p c Hc Hf E. pose proof (to_arity t Ht p c Hc) as [_ Eh]. pose proof (hashvalue_tuple t (a_list c)) as Et.
    rewrite Eh, Hf in Et. cbn [fst] in Et. symmetry in Et. apply bool_decide_eq_false in Et. by apply Et. }
  destruct a as [w|p], b as [w'|q]; cbn [has_features] in *.
  - destruct Ha as [Hw ->], Hb as [Hw' E]. f_equal. apply (f_equal zlen) in E. rewrite !tuple_list_length in E by done. done.
  - destruct Ha as [Hw ->], Hb as (c & Hc & Hf & E). exfalso. apply (Hnt q c Hc Hf). rewrite E, tuple_list_length by done. done.
  - destruct Hb as [Hw ->], Ha as (c & Hc & Hf & E). exfalso. apply (Hnt p c Hc Hf). rewrite E, tuple_list_length by done. done.
  - destruct Ha as (c & Hc & _ & E), Hb as (d & Hd & _ & E'). f_equal. apply (arities_interned t p q c d); congruence.
Qed.

(** ** Access *)

Lemma position_tuple w n : position (tuple_list w) (FSmallInt n) = if (0 <=? n - 1) && (n - 1 <? w) then n - 1 else -1.
Proof.
  destruct (position_spec (tuple_list w) (FSmallInt n)) as [[Hn ->]|[Hr Hp]].
  - destruct (Z.leb_spec 0 (n - 1)), (Z.ltb_spec (n - 1) w); cbn [andb]; try done. exfalso. apply Hn, list_elem_of_fmap.
    exists n. split; [done|]. apply elem_of_seqZ. lia.
  - apply aget_lookup in Hp. unfold tuple_list in Hp. rewrite list_lookup_fmap in Hp. apply fmap_Some in Hp as (x & Hx & [= <-]).
    apply lookup_seqZ in Hx as [Hx Hlt]. fold (tuple_list w) in Hx, Hlt. zbool.
Qed.

Lemma position_tuple_other w f : (forall n, f <> FSmallInt n) -> position (tuple_list w) f = -1.
Proof.
  intros Hf. destruct (position_spec (tuple_list w) f) as [[_ ->]|[_ Hp]]; [done|exfalso].
  apply aget_lookup, list_elem_of_lookup_2, list_elem_of_fmap in Hp as (n & -> & _). by apply (Hf n).
Qed.

Lemma getIndex_spec t r fs m f : table_ok t -> stands t r fs m -> getIndex t r f = Some (position fs f).
Proof.
  intros Ht [Hf _ _ _]. unfold getIndex. destruct (recordArity r) as [w|p]; cbn [has_features] in Hf.
  - destruct Hf as [Hw ->]. destruct f as [q|n|n]; [by rewrite position_tuple_other| |by rewrite position_tuple_other].
    by rewrite position_tuple.
  - destruct Hf as (a & Ha & Hn & <-). rewrite Ha. ored. apply lookupInternal_spec; [|done]. by apply (to_arity t Ht p a).
Qed.

Lemma position_in fs f : f ∈ fs -> 0 <= position fs f < zlen fs /\ fs.[position fs f] = Some f.
Proof. intros Hf. destruct (position_spec fs f) as [[Hn _]|]; [done|done]. Qed.

Lemma position_out fs f : f ∉ fs -> position fs f = -1.
Proof. intros Hf. destruct (position_spec fs f) as [[_ ->]|[_ Hp]]; [done|]. exfalso. apply Hf, (list_elem_of_lookup_2 _ (Z.to_nat (position fs f))). by apply aget_lookup. Qed.

Lemma position_inj fs f g : f ∈ fs -> g ∈ fs -> position fs f = position fs g -> f = g.
Proof. intros Hf Hg E. destruct (position_in fs f Hf) as [_ Ef], (position_in fs g Hg) as [_ Eg]. rewrite E in Ef. congruence. Qed.

Lemma getFeature_spec t r fs m f : table_ok t -> stands t r fs m -> (f ∈ fs -> m f <> None) -> getFeature t r f = Some (m f).
Proof.
  intros Ht Hr Hfull. unfold getFeature. rewrite (getIndex_spec t r fs m f Ht Hr). ored. destruct (decide (f ∈ fs)) as [Hf|Hf].
  - destruct (position_in fs f Hf) as [Hp _]. destruct (Z.ltb_spec (position fs f) 0); [lia|]. unfold getArg. rewrite (st_args _ _ _ _ Hr f Hf). ored.
    specialize (Hfull Hf). by destruct (m f).
  - rewrite position_out by done. cbn. by rewrite (st_others _ _ _ _ Hr).
Qed.

Lemma setFeature_spec t r fs m f v : table_ok t -> stands t r fs m ->
  if decide (f ∈ fs) then
    exists r', setFeature t r f v = Some (true, r') /\ stands t r' fs (upd m f v) /\ label r' = label r /\ recordArity r' = recordArity r
  else setFeature t r f v = Some (false, r).
Proof.
  intros Ht Hr. unfold setFeature. rewrite (getIndex_spec t r fs m f Ht Hr). ored. destruct (decide (f ∈ fs)) as [Hf|Hf].
  - destruct (position_in fs f Hf) as [Hp _]. destruct (Z.eqb_spec (position fs f) (-1)); [lia|]. unfold setArg.
    pose proof (st_width _ _ _ _ Hr) as Hw. rewrite aset_Some by lia. ored. eexists. split; [done|]. split; [|done]. split; cbn [recordArity args].
    + apply Hr.
    + by rewrite zlen_insert.
    + intros g Hg. rewrite aget_insert by lia. unfold upd. destruct (decide (g = f)) as [->|Hne]; [by rewrite Z.eqb_refl|].
      destruct (Z.eqb_spec (position fs f) (position fs g)) as [E|]; [exfalso; apply Hne; symmetry; by apply (position_inj fs)|]. by apply (st_args _ _ _ _ Hr).
    + intros g Hg. unfold upd. destruct (decide (g = f)) as [->|]; [done|]. by apply (st_others _ _ _ _ Hr).
  - by rewrite position_out by done.
Qed.

(** ** Construction *)

Lemma newSRecord_spec t lab p a : table_ok t -> deref t p = Some a -> 0 < zlen (a_list a) ->
  exists r, newSRecord t lab p = Some r /\ stands t r (a_list a) (fun _ => None) /\ label r = lab /\
    recordArity r = if Arity.isTuple a then Tuple (width a) else RecordArity p.
Proof.
  intros Ht Ha Hn. pose proof (to_arity t Ht p a Ha) as [(Hw & Hd & Htup) _]. unfold newSRecord. rewrite Ha. ored. unfold newSRecord_width. rewrite Hw.
  destruct (Z.ltb_spec 0 (zlen (a_list a))); [|lia].
  assert (forall ar, has_features t ar (a_list a) -> stands t (SR ar lab (replicate (Z.to_nat (zlen (a_list a))) None)) (a_list a) (fun _ => None)) as Hst.
  { intros ar Hf. split; cbn [recordArity args]; [done| |intros f Hin|done].
    - unfold zlen at 1. rewrite length_replicate. lia.
    - destruct (position_in (a_list a) f Hin) as [Hp _]. unfold aget. destruct (Z.leb_spec 0 (position (a_list a) f)); [|lia].
      apply lookup_replicate. split; [done|lia]. }
  destruct (Arity.isTuple a) eqn:Et; (eexists; split; [done|]; split; [apply Hst|done]); cbn [has_features].
  - rewrite <- Hw. split; [rewrite Hw; apply zlen_nonneg|done].
  - by exists a.
Qed.

Lemma getWidth_spec t r fs m : table_ok t -> stands t r fs m -> getWidth t r = Some (zlen fs).
Proof.
  intros Ht [Hf _ _ _]. unfold getWidth. destruct (recordArity r) as [w|p]; cbn [has_features] in Hf.
  - destruct Hf as [Hw ->]. by rewrite tuple_list_length.
  - destruct Hf as (a & Ha & _ & <-). rewrite Ha. ored. pose proof (to_arity t Ht p a Ha) as [(-> & _) _]. done.
Qed.

Lemma makeTupleArityList_loop_spec (n : nat) out :
  makeTupleArityList_loop n out = tuple_list (Z.of_nat n) ++ out.
Proof.
  revert out. induction n as [|n IH]; intros out; [done|]. cbn [makeTupleArityList_loop]. rewrite IH. unfold tuple_list.
  rewrite seqZ_S, fmap_app, <- app_assoc. cbn [fmap list_fmap app]. do 3 f_equal. lia.
Qed.

Lemma makeTupleArityList_spec w : 0 <= w -> makeTupleArityList w = Some (tuple_list w).
Proof.
  intros Hw. unfold makeTupleArityList. destruct (Z.ltb_spec w 0); [lia|]. rewrite makeTupleArityList_loop_spec, app_nil_r. by rewrite Z2Nat.id.
Qed.

Lemma getArityList_spec t r fs m : stands t r fs m -> getArityList t r = Some fs.
Proof.
  intros [Hf _ _ _]. unfold getArityList. destruct (recordArity r) as [w|p]; cbn [has_features sraGetArityList] in *.
  - destruct Hf as [Hw ->]. by apply makeTupleArityList_spec.
  - destruct Hf as (a & Ha & _ & <-). by rewrite Ha.
Qed.

Lemma copySRecord_spec t r fs m : table_ok t -> 0 < zlen fs -> NoDup fs -> stands t r fs m -> full fs m ->
  exists r', copySRecord t r = Some r' /\ stands t r' fs m /\ label r' = label r /\ recordArity r' = recordArity r.
Proof.
  intros Ht Hn Hd Hr Hfull. unfold copySRecord. rewrite (getWidth_spec t r fs m Ht Hr). ored. unfold newSRecord_width. destruct (Z.ltb_spec 0 (zlen fs)); [|lia]. ored.
  assert (forall i, 0 <= i < zlen fs -> exists f, fs.[i] = Some f /\ f ∈ fs /\ position fs f = i) as Hat.
  { intros i Hi. destruct (aget_Some fs i Hi) as [f Ef]. exists f. split; [done|]. split; [|by apply position_unique].
    apply (list_elem_of_lookup_2 _ (Z.to_nat i)). by apply aget_lookup. }
  assert (forall (n : nat) (os : list (option T)), Z.of_nat n <= zlen fs -> zlen os = zlen fs ->
    (forall i, Z.of_nat n <= i < zlen fs -> os.[i] = (args r).[i]) ->
    exists r', for_down n (fun i ret => v ← getArg r i; setArg ret i v) (SR (recordArity r) (label r) os) = Some r' /\
      zlen (args r') = zlen fs /\ (forall i, 0 <= i < zlen fs -> (args r').[i] = (args r).[i]) /\ label r' = label r /\ recordArity r' = recordArity r) as Hloop.
  { induction n as [|n IH]; intros os Hle Hos Hi; cbn [for_down].
    - eexists. split; [done|]. cbn [args label recordArity]. split; [done|]. split; [|done]. intros i Hr'. apply Hi. lia.
    - destruct (Hat (Z.of_nat n)) as (f & _ & Hf & Hp); [lia|]. pose proof (st_args _ _ _ _ Hr f Hf) as Ea. rewrite Hp in Ea. pose proof (Hfull f Hf) as Hv.
      destruct (m f) as [v|] eqn:Em; [|done]. unfold getArg at 2. rewrite Ea. ored. unfold setArg at 2. cbn [args]. rewrite aset_Some by lia. ored.
      apply IH; [lia|by rewrite zlen_insert|]. intros i Hi'. rewrite aget_insert by lia. destruct (Z.eqb_spec (Z.of_nat n) i) as [<-|]; [done|apply Hi; lia]. }
  destruct (Hloop (Z.to_nat (zlen fs)) (replicate (Z.to_nat (zlen fs)) None)) as (r' & E & Hz & Hi & El & Ear).
  - lia.
  - unfold zlen at 1. rewrite length_replicate. lia.
  - intros i Hi'. lia.
  - exists r'. split; [exact E|]. split; [|done]. split; [rewrite Ear; apply Hr|done| |apply Hr].
    intros f Hf. destruct (position_in fs f Hf) as [Hp _]. rewrite Hi by done. by apply (st_args _ _ _ _ Hr).
Qed.

(** ** Tuples *)

(** The values of a tuple. *)
Definition tuple_map (vs : list T) (f : Feature) : option T := match f with FSmallInt n => vs.[n - 1] | _ => None end.

Lemma tuple_stands t lab vs : stands t (SR (Tuple (zlen vs)) lab (Some <$> vs)) (tuple_list (zlen vs)) (tuple_map vs).
Proof.
  split; cbn [recordArity args has_features].
  - split; [apply zlen_nonneg|done].
  - rewrite tuple_list_length by apply zlen_nonneg. unfold zlen. by rewrite length_fmap.
  - intros f Hf. apply list_elem_of_fmap in Hf as (n & -> & [H1 H2]%elem_of_seqZ). rewrite position_tuple.
    destruct (Z.leb_spec 0 (n - 1)), (Z.ltb_spec (n - 1) (zlen vs)); try lia. cbn [andb tuple_map].
    destruct (aget_Some vs (n - 1)) as [v Ev]; [lia|]. rewrite Ev. unfold aget in *. destruct (0 <=? n - 1); [|done]. by rewrite list_lookup_fmap, Ev.
  - intros f Hf. destruct f as [p|n|n]; cbn [tuple_map]; try done. apply aget_None. destruct (Z.lt_ge_cases (n - 1) 0); [by left|right].
    destruct (Z.lt_ge_cases (n - 1) (zlen vs)); [|done]. exfalso. apply Hf, list_elem_of_fmap. exists n. split; [done|]. apply elem_of_seqZ. lia.
Qed.

Lemma tuple_full vs : full (tuple_list (zlen vs)) (tuple_map vs).
Proof.
  intros f Hf. apply list_elem_of_fmap in Hf as (n & -> & [H1 H2]%elem_of_seqZ). cbn [tuple_map]. destruct (aget_Some vs (n - 1)) as [v ->]; [lia|done].
Qed.

Lemma tuple_sorted w : 0 <= w <= 2 ^ 26 -> sorted 0 (tuple_list w).
Proof using Hok.
  intros Hw. unfold tuple_list. assert (forall (n : nat) a, 1 <= a -> a + Z.of_nat n <= 2 ^ 26 + 1 -> sorted 0 (FSmallInt <$> seqZ a (Z.of_nat n))) as H.
  { induction n as [|n IH]; intros a Ha Hn; [apply sorted_nil|]. rewrite seqZ_cons, fmap_cons by lia.
    assert (forall x, a <= x -> x <= 2 ^ 26 -> window 0 (FSmallInt x)) as Hwin by (intros x ??; split; cbn; unfold OzMinInt, OzMaxInt; lia).
    replace (Z.pred (Z.of_nat (S n))) with (Z.of_nat n) by lia. replace (Z.succ a) with (a + 1) by lia.
    apply sorted_cons. split; [apply Hwin; lia|]. split; [apply IH; lia|]. apply Forall_forall. intros f Hf.
    apply list_elem_of_fmap in Hf as (x & -> & [H1 H2]%elem_of_seqZ). pose proof (featureCmp_number 0 (FSmallInt a) (FSmallInt x)) as [Hs _]; try done; try (apply Hwin; lia).
    cbn [number] in Hs. lia. }
  rewrite <- (Z2Nat.id w) by lia. apply H; lia.
Qed.
End records.
End RecordSpec.
