(* ===== verification/RecordUpdates.v ===== *)
(** * Records: adjunction

    The operations that make new records, against the update of maps: adjunction of a record, of
    a feature and of a property list, and the records of list cells. *)
From S2P Require Import Prelude Word32 Sort Feature Arity ArityLookup ArityTables SRecord RecordSpec.

Module RecordUpdates.
Import Feature Arity ArityLookup ArityTables SRecord RecordSpec.

(** A term stands for a record with the label [lab], the features [fs] and the values [m]. *)
Definition denotes `{LitEnv} {T} (AtomCons : Z) (t : ArityTable) (x : term T) (lab : Z) (fs : list Feature) (m : Feature -> option T) : Prop :=
  match x with
  | Rec r => stands t r fs m /\ label r = lab
  | LTuple h tl => lab = AtomCons /\ fs = tuple_list 2 /\
      m (FSmallInt 1) = Some h /\ m (FSmallInt 2) = Some tl /\ forall f, f ∉ tuple_list 2 -> m f = None
  end.

(** The values of [m2], and of [m1] where [m2] has none. *)
Definition over {T} (m1 m2 : Feature -> option T) : Feature -> option T :=
  fun f => match m2 f with Some v => Some v | None => m1 f end.

(** The updates of a property list, from left to right. *)
Definition upds {T} (m : Feature -> option T) (proplist : list (Feature * T)) : Feature -> option T :=
  fold_left (fun m p => upd m (fst p) (snd p)) proplist m.

Section updates.
Context `{env : LitEnv} {Hok : LitOk env} {T : Type} (lo AtomCons : Z).
Implicit Types (t : ArityTable) (r : SRecord T) (fs : list Feature) (m : Feature -> option T).

Lemma stands_ext t r fs m m' : stands t r fs m -> (forall f, m f = m' f) -> stands t r fs m'.
Proof. intros [? ? Ha Ho] E. split; [done|done| |]; intros f Hf; rewrite <- E; auto. Qed.

Lemma copyFeatures_spec t from fs1 m1 ar r fs m :
  table_ok t -> stands t from fs1 m1 -> full fs1 m1 -> stands t r fs m -> (forall f, f ∈ ar -> f ∈ fs1 /\ f ∈ fs) ->
  exists r', copyFeatures t from ar r = Some r' /\ stands t r' fs (fun f => if decide (f ∈ ar) then m1 f else m f) /\
    label r' = label r /\ recordArity r' = recordArity r.
Proof.
  intros Ht Hfrom Hfull. revert r m. induction ar as [|a ar IH]; intros r m Hr Hin; cbn [copyFeatures].
  { exists r. split; [done|]. split; [|done]. apply (stands_ext t r fs m); [done|]. intros f. rewrite decide_False; [done|apply not_elem_of_nil]. }
  destruct (Hin a (list_elem_of_here _ _)) as [H1 H2]. rewrite (getFeature_spec t from fs1 m1 a Ht Hfrom) by (intros; by apply Hfull). ored.
  pose proof (Hfull a H1) as Hv. destruct (m1 a) as [v|] eqn:Ev; [|done]. ored.
  pose proof (setFeature_spec t r fs m a v Ht Hr) as Hs. rewrite decide_True in Hs by done. destruct Hs as (r1 & -> & Hr1 & El & Ea). ored.
  destruct (IH r1 (upd m a v) Hr1) as (r' & -> & Hr' & El' & Ea').
  { intros f Hf. apply Hin. by apply list_elem_of_further. }
  exists r'. split; [done|]. split; [|by rewrite El', Ea']. apply (stands_ext _ _ _ _ _ Hr'). intros f. unfold upd.
  destruct (decide (f ∈ ar)) as [Hf|Hf].
  - rewrite decide_True by (by apply list_elem_of_further). done.
  - destruct (decide (f = a)) as [->|Hne]; [rewrite decide_True by apply list_elem_of_here; done|].
    rewrite decide_False; [done|]. rewrite elem_of_cons. tauto.
Qed.

Lemma normalize_record_spec t r fs m : table_ok t -> stands t r fs m -> full fs m ->
  exists x, normalize AtomCons t r = Some x /\ denotes AtomCons t x (label r) fs m.
Proof.
  intros Ht Hr Hfull. unfold normalize. rewrite (getWidth_spec t r fs m Ht Hr). ored.
  destruct (isTuple r && (label r =? AtomCons) && (zlen fs =? 2)) eqn:E; [|by exists (Rec r)].
  apply andb_true_iff in E as [[Ei El]%andb_true_iff Ew]. apply Z.eqb_eq in El, Ew.
  assert (fs = tuple_list 2) as ->.
  { pose proof (st_features _ _ _ _ Hr) as Hf. unfold isTuple in Ei. destruct (recordArity r) as [w|]; [|done]. destruct Hf as [Hw ->].
    rewrite tuple_list_length in Ew by done. by rewrite Ew. }
  assert (FSmallInt 1 ∈ tuple_list 2 /\ FSmallInt 2 ∈ tuple_list 2) as [H1 H2].
  { split; apply list_elem_of_fmap; eexists; (split; [done|]); apply elem_of_seqZ; lia. }
  pose proof (st_args _ _ _ _ Hr _ H1) as A1. pose proof (st_args _ _ _ _ Hr _ H2) as A2. rewrite position_tuple in A1, A2.
  change ((args r).[0] = Some (m (FSmallInt 1))) in A1. change ((args r).[1] = Some (m (FSmallInt 2))) in A2.
  pose proof (Hfull _ H1) as F1. pose proof (Hfull _ H2) as F2. unfold getArg. rewrite A1. ored. destruct (m (FSmallInt 1)) as [h|] eqn:E1; [|done]. ored.
  rewrite A2. ored. destruct (m (FSmallInt 2)) as [tl|] eqn:E2; [|done]. ored. exists (LTuple h tl). split; [done|].
  split; [done|]. split; [done|]. split; [done|]. split; [done|]. apply Hr.
Qed.

(** A new record with the features of a sorted list. *)
Lemma new_record t fs lab : table_ok t -> features_ok lo fs ->
  exists t' p a r, find t fs = Some (t', p) /\ table_ok t' /\ extends t t' /\ deref t' p = Some a /\ a_list a = fs /\
    newSRecord t' lab p = Some r /\ stands (T:=T) t' r fs (fun _ => None) /\ label r = lab /\
    recordArity r = if Arity.isTuple a then Tuple (width a) else RecordArity p.
Proof using Hok.
  intros Ht [Hs Hn]. destruct (find_spec t fs Ht (sorted_nodup lo fs Hs)) as (t' & p & a & E & Ht' & He & Ha & El); [lia|].
  destruct (newSRecord_spec (T:=T) t' lab p a Ht' Ha) as (r & Er & Hr & Elab & Ear); [rewrite El; lia|]. rewrite El in Hr.
  exists t', p, a, r. done.
Qed.

Lemma full_over fs fs1 fs2 m1 m2 : full fs1 m1 -> full fs2 m2 -> (forall f, f ∈ fs <-> f ∈ fs1 \/ f ∈ fs2) -> full fs (over m1 m2).
Proof.
  intros H1 H2 He f [Hf|Hf]%He; unfold over.
  - specialize (H1 f Hf). by destruct (m2 f).
  - specialize (H2 f Hf). by destruct (m2 f).
Qed.

Lemma sorted_length l l1 l2 : sorted lo l -> sorted lo l1 -> sorted lo l2 -> (forall x, x ∈ l <-> x ∈ l1 \/ x ∈ l2) -> zlen l <= zlen l1 + zlen l2.
Proof using Hok.
  intros Hs H1 H2 He. unfold zlen. rewrite <- Nat2Z.inj_add, <- length_app. apply Nat2Z.inj_le.
  apply submseteq_length, NoDup_submseteq; [by apply (sorted_nodup lo)|]. intros x [Hx|Hx]%He; apply elem_of_app; tauto.
Qed.

Lemma features_nonempty fs f : f ∈ fs -> 0 < zlen fs.
Proof. destruct fs; [by intros ?%elem_of_nil|]. rewrite zlen_cons. pose proof (zlen_nonneg fs). lia. Qed.

(** The result of a union: sorted, with the features of both. *)
Definition union_of fs fs1 fs2 : Prop := sorted lo fs /\ forall f, f ∈ fs <-> f ∈ fs1 \/ f ∈ fs2.

Lemma adjoin_spec t l h fs1 m1 fs2 m2 :
  table_ok t -> stands t l fs1 m1 -> full fs1 m1 -> features_ok lo fs1 -> stands t h fs2 m2 -> full fs2 m2 -> features_ok lo fs2 ->
  zlen fs1 + zlen fs2 <= 2 ^ 29 ->
  exists t' x fs, oz_adjoin AtomCons t l h = Some (t', x) /\ table_ok t' /\ extends t t' /\ union_of fs fs1 fs2 /\
    denotes AtomCons t' x (label h) fs (over m1 m2).
Proof using Hok.
  intros Ht Hl F1 [S1 N1] Hh F2 [S2 N2] Hn. unfold oz_adjoin. rewrite (getArityList_spec t l fs1 m1 Hl), (getArityList_spec t h fs2 m2 Hh). ored.
  destruct (merge_spec lo fs1 fs2 S1 S2) as (fs & -> & Hs & He). ored. pose proof (sorted_length fs fs1 fs2 Hs S1 S2 He) as Hlen.
  assert (0 < zlen fs) as Hpos.
  { destruct fs1 as [|f fs1]; [change (zlen []) with 0 in N1; lia|]. apply (features_nonempty fs f), He. left. apply list_elem_of_here. }
  destruct (new_record t fs (label h) Ht) as (t' & p & a & r & -> & Ht' & Hx & Ha & El & Er & Hr & Elab & Ear); [split; [done|lia]|].
  ored. rewrite Ha. ored. rewrite Er. ored. pose proof (stands_extend t t' _ _ _ Hx Hl) as Hl'. pose proof (stands_extend t t' _ _ _ Hx Hh) as Hh'.
  rewrite (getWidth_spec t' h fs2 m2 Ht' Hh'). ored.
  assert (forall b : bool, b = match recordArity h with Tuple _ => Arity.isTuple a && (zlen fs2 =? width a)
      | RecordArity q => (bucket p =? bucket q) && (place_in p =? place_in q) end -> b = true -> fs = fs2) as Hover.
  { intros b -> Hb. pose proof (st_features _ _ _ _ Hh') as Hf2. pose proof (to_arity t' Ht' p a Ha) as [(Hw & _ & Htup) _].
    destruct (recordArity h) as [w|q]; cbn [has_features] in Hf2; apply andb_true_iff in Hb as [Hb1 Hb2].
    - destruct Hf2 as [Hw0 ->]. rewrite Hb1 in Htup. apply Z.eqb_eq in Hb2. rewrite tuple_list_length in Hb2 by done. rewrite <- El, Htup. by rewrite Hb2.
    - destruct Hf2 as (b & Hb & _ & <-). apply Z.eqb_eq in Hb1, Hb2. destruct p as [b1 p1], q as [b2 p2]; cbn in Hb1, Hb2. subst. congruence. }
  specialize (Hover _ eq_refl). set (ov := match recordArity h with Tuple _ => _ | RecordArity _ => _ end) in *.
  destruct ov.
  - rewrite (Hover eq_refl) in *. destruct (copySRecord_spec t' h fs2 m2 Ht') as (c & -> & Hc & Elc & Eac); [lia|by apply (sorted_nodup lo)|done|done|]. ored.
    assert (forall f, m2 f = over m1 m2 f) as Em.
    { intros f. unfold over. destruct (m2 f) eqn:E2; [done|]. symmetry. apply (st_others _ _ _ _ Hl'). intros Hf. assert (f ∈ fs2) as Hf2 by (apply He; by left).
      by apply (F2 f Hf2). }
    assert (stands t' c fs2 (over m1 m2)) as Hc' by (by apply (stands_ext t' c fs2 m2)).
    assert (full fs2 (over m1 m2)) as Fc by (intros f Hf; rewrite <- Em; by apply F2).
    destruct (isTuple h).
    + destruct (normalize_record_spec t' c fs2 _ Ht' Hc' Fc) as (x & -> & Hd). ored. exists t', x, fs2. rewrite Elc in Hd. done.
    + exists t', (Rec c), fs2. split; [done|]. split; [done|]. split; [done|]. split; [done|]. split; [done|]. by rewrite Elc.
  - destruct (copyFeatures_spec t' l fs1 m1 fs1 r fs _ Ht' Hl' F1 Hr) as (r1 & -> & Hr1 & El1 & Ea1); [intros f Hf; split; [done|apply He; by left]|]. ored.
    destruct (copyFeatures_spec t' h fs2 m2 fs2 r1 fs _ Ht' Hh' F2 Hr1) as (r2 & -> & Hr2 & El2 & Ea2); [intros f Hf; split; [done|apply He; by right]|]. ored.
    assert (stands t' r2 fs (over m1 m2)) as Hr2'.
    { apply (stands_ext _ _ _ _ _ Hr2). intros f. unfold over. destruct (decide (f ∈ fs2)) as [Hf|Hf].
      - specialize (F2 f Hf). by destruct (m2 f).
      - rewrite (st_others _ _ _ _ Hh f Hf). destruct (decide (f ∈ fs1)) as [Hf1|Hf1]; [done|]. by rewrite (st_others _ _ _ _ Hl f Hf1). }
    destruct (normalize_record_spec t' r2 fs _ Ht' Hr2' (full_over fs fs1 fs2 m1 m2 F1 F2 He)) as (x & -> & Hd). ored. exists t', x, fs.
    rewrite El2, El1, Elab in Hd. done.
Qed.

(** A single feature more or changed. *)
Lemma adjoinAt_spec t r fs m feature value :
  table_ok t -> stands t r fs m -> full fs m -> features_ok lo fs -> window lo feature -> zlen fs < 2 ^ 29 ->
  exists t' x fs', oz_adjoinAt AtomCons t r feature value = Some (t', x) /\ table_ok t' /\ extends t t' /\ union_of fs' [feature] fs /\
    denotes AtomCons t' x (label r) fs' (upd m feature value).
Proof using Hok.
  intros Ht Hr Hfull [Hs Hn] Hw Hlen. unfold oz_adjoinAt. rewrite (getIndex_spec t r fs m feature Ht Hr). ored.
  assert (forall fs', (forall f, f ∈ fs' <-> f ∈ [feature] \/ f ∈ fs) -> full fs' (upd m feature value)) as Hfull'.
  { intros fs' He f Hf. unfold upd. destruct (decide (f = feature)) as [->|Hne]; [done|]. apply Hfull. apply He in Hf as [?%list_elem_of_singleton|]; done. }
  destruct (decide (feature ∈ fs)) as [Hin|Hout].
  - destruct (position_in fs feature Hin) as [Hp _]. destruct (Z.eqb_spec (position fs feature) (-1)); [lia|]. cbn [negb].
    destruct (copySRecord_spec t r fs m Ht) as (c & -> & Hc & El & Ea); [lia|by apply (sorted_nodup lo)|done|done|]. ored.
    pose proof (setFeature_spec t c fs m feature value Ht Hc) as Hset. rewrite decide_True in Hset by done. destruct Hset as (c' & -> & Hc' & El' & Ea'). ored.
    assert (forall f, f ∈ fs <-> f ∈ [feature] \/ f ∈ fs) as He by (intros f; rewrite list_elem_of_singleton; split; [tauto|intros [->|]; done]).
    destruct (normalize_record_spec t c' fs _ Ht Hc' (Hfull' fs He)) as (x & -> & Hd). ored. exists t, x, fs. rewrite El', El in Hd. done.
  - rewrite position_out by done. cbn [negb Z.eqb]. rewrite (getArityList_spec t r fs m Hr). ored.
    destruct (insert_spec lo feature fs Hw Hs) as [Hs' He].
    assert (forall f, f ∈ insert feature fs <-> f ∈ [feature] \/ f ∈ fs) as He' by (intros f; by rewrite He, list_elem_of_singleton).
    assert (sorted lo [feature]) as Hs1 by (apply sorted_cons; split; [done|]; split; [apply sorted_nil|constructor]).
    pose proof (sorted_length _ _ _ Hs' Hs1 Hs He') as Hl. change (zlen [feature]) with 1 in Hl.
    assert (0 < zlen (insert feature fs)) by (apply (features_nonempty _ feature), He; by left).
    destruct (new_record t (insert feature fs) (label r) Ht) as (t' & p & a & c & -> & Ht' & Hx & Ha & El & Er & Hc & Elab & _); [split; [done|lia]|].
    ored. rewrite Er. ored. pose proof (stands_extend t t' _ _ _ Hx Hr) as Hr'.
    destruct (copyFeatures_spec t' r fs m fs c _ _ Ht' Hr' Hfull Hc) as (c1 & -> & Hc1 & El1 & _); [intros f Hf; split; [done|apply He; by right]|]. ored.
    pose proof (setFeature_spec t' c1 _ _ feature value Ht' Hc1) as Hset. rewrite decide_True in Hset by (apply He; by left).
    destruct Hset as (c2 & -> & Hc2 & El2 & _). ored.
    assert (stands t' c2 (insert feature fs) (upd m feature value)) as Hc2'.
    { apply (stands_ext _ _ _ _ _ Hc2). intros f. unfold upd. destruct (decide (f = feature)); [done|]. destruct (decide (f ∈ fs)) as [|Hf]; [done|].
      by rewrite (st_others _ _ _ _ Hr f Hf). }
    destruct (normalize_record_spec t' c2 _ _ Ht' Hc2' (Hfull' _ He')) as (x & -> & Hd). ored. exists t', x, (insert feature fs). rewrite El2, El1, Elab in Hd. done.
Qed.

Lemma setFeatures_spec t r fs m proplist : table_ok t -> stands t r fs m -> (forall p, p ∈ proplist -> fst p ∈ fs) ->
  exists r', setFeatures t r proplist = Some r' /\ stands t r' fs (upds m proplist) /\ label r' = label r.
Proof.
  intros Ht. revert r m. induction proplist as [|[f v] pl IH]; intros r m Hr Hin; cbn [setFeatures]; [by exists r|].
  pose proof (setFeature_spec t r fs m f v Ht Hr) as Hs. rewrite decide_True in Hs by apply (Hin (f, v) (list_elem_of_here _ _)).
  destruct Hs as (r1 & -> & Hr1 & El & _). ored. destruct (IH r1 (upd m f v) Hr1) as (r' & E & Hr' & El').
  { intros p Hp. apply Hin. by apply list_elem_of_further. }
  exists r'. split; [done|]. split; [done|congruence].
Qed.

Lemma upds_some m proplist f : (m f <> None \/ f ∈ fst <$> proplist) -> upds m proplist f <> None.
Proof.
  unfold upds. revert m. induction proplist as [|[g v] pl IH]; intros m H; cbn [fold_left fst snd].
  - destruct H as [H|H]; [done|]. by apply elem_of_nil in H.
  - apply IH. unfold upd. destruct (decide (f = g)) as [->|Hne]; [by left|]. destruct H as [H|H]; [by left|right].
    rewrite fmap_cons in H. apply elem_of_cons in H as [H|H]; [by cbn in H|done].
Qed.

Lemma upds_ext m m' proplist : (forall f, m f = m' f) -> forall f, upds m proplist f = upds m' proplist f.
Proof.
  unfold upds. revert m m'. induction proplist as [|[g v] pl IH]; intros m m' E f; cbn [fold_left fst snd]; [done|].
  apply IH. intros x. unfold upd. by destruct (decide (x = g)).
Qed.

Lemma adjoinList_spec t r fs m arityList proplist :
  table_ok t -> stands t r fs m -> full fs m -> features_ok lo fs -> Forall (window lo) arityList ->
  (forall f, f ∈ arityList <-> f ∈ fst <$> proplist) -> zlen arityList + zlen fs <= 2 ^ 29 ->
  exists t' x fs', oz_adjoinList AtomCons t r arityList proplist = Some (t', x) /\ table_ok t' /\ extends t t' /\ union_of fs' arityList fs /\
    denotes AtomCons t' x (label r) fs' (upds m proplist).
Proof using Hok.
  intros Ht Hr Hfull [Hs Hn] Hw Hkeys Hlen. unfold oz_adjoinList. rewrite (getArityList_spec t r fs m Hr). ored.
  destruct (insertlist_spec lo arityList fs Hw Hs) as [Hs' He]. set (fs' := insertlist arityList fs) in *.
  assert (zlen fs' <= zlen arityList + zlen fs) as Hl.
  { unfold zlen. rewrite <- Nat2Z.inj_add, <- length_app. apply Nat2Z.inj_le.
    apply submseteq_length, NoDup_submseteq; [by apply (sorted_nodup lo)|]. intros x [Hx|Hx]%He; apply elem_of_app; tauto. }
  assert (0 < zlen fs').
  { destruct fs as [|f fs]; [change (zlen []) with 0 in Hn; lia|]. apply (features_nonempty fs' f), He. right. apply list_elem_of_here. }
  destruct (new_record t fs' (label r) Ht) as (t' & p & a & c & -> & Ht' & Hx & Ha & El & Er & Hc & Elab & _); [split; [done|lia]|].
  ored. rewrite Er. ored. pose proof (stands_extend t t' _ _ _ Hx Hr) as Hr'.
  destruct (copyFeatures_spec t' r fs m fs c _ _ Ht' Hr' Hfull Hc) as (c1 & -> & Hc1 & El1 & _); [intros f Hf; split; [done|apply He; by right]|]. ored.
  assert (stands t' c1 fs' m) as Hc1'.
  { apply (stands_ext _ _ _ _ _ Hc1). intros f. destruct (decide (f ∈ fs)) as [|Hf]; [done|]. by rewrite (st_others _ _ _ _ Hr f Hf). }
  destruct (setFeatures_spec t' c1 fs' m proplist Ht' Hc1') as (c2 & -> & Hc2 & El2).
  { intros q Hq. apply He. left. apply Hkeys, list_elem_of_fmap. by exists q. }
  ored. assert (full fs' (upds m proplist)) as Hf2.
  { intros f [Hf|Hf]%He; apply upds_some; [right; by apply Hkeys|left; by apply Hfull]. }
  destruct (normalize_record_spec t' c2 fs' _ Ht' Hc2 Hf2) as (x & -> & Hd). ored. exists t', x, fs'. rewrite El2, El1, Elab in Hd. done.
Qed.

(** The record of a list cell. *)
Lemma makeRecord_spec t x lab fs m : table_ok t -> denotes AtomCons t x lab fs m ->
  exists t' r, makeRecord AtomCons t x = Some (t', r) /\ table_ok t' /\ extends t t' /\ stands t' r fs m /\ label r = lab.
Proof.
  intros Ht. destruct x as [h tl|r]; cbn [denotes makeRecord]; [|intros [Hr El]; by exists t, r]. intros (-> & -> & M1 & M2 & Mo).
  rewrite makeTupleArityList_spec by done. ored. destruct (find_spec t (tuple_list 2) Ht (tuple_list_nodup 2)) as (t' & p & a & -> & Ht' & Hx & Ha & El); [done|].
  ored. destruct (newSRecord_spec (T:=T) t' AtomCons p a Ht' Ha) as (r & -> & Hr & Elab & Ear); [by rewrite El|]. ored. rewrite El in Hr.
  pose proof (st_width _ _ _ _ Hr) as Hw. change (zlen (tuple_list 2)) with 2 in Hw.
  unfold setArg. rewrite aset_Some by lia. ored. cbn [args]. rewrite aset_Some by (rewrite zlen_insert; lia). ored.
  eexists t', _. split; [done|]. split; [done|]. split; [done|]. split; [|done]. split; cbn [recordArity args].
  - apply Hr.
  - by rewrite !zlen_insert.
  - intros f Hf. change (tuple_list 2) with [FSmallInt 1; FSmallInt 2] in Hf. rewrite !elem_of_cons, elem_of_nil in Hf.
    destruct Hf as [->|[->|[]]]; rewrite position_tuple, !aget_insert by (rewrite ?zlen_insert; lia); [by rewrite M1|by rewrite M2].
  - done.
Qed.
End updates.
End RecordUpdates.
