(* ===== verification/RecordTheorems.v ===== *)
(** * Records: the properties of the component

    Arities are found and shared, records behave like maps from features to values, and
    adjunction is the update of maps, as long as the small integers among the features are
    less than 2^27 apart ([window]). *)
From S2P Require Import Prelude Word32 Sort Feature Arity ArityLookup ArityTables SRecord RecordSpec RecordUpdates.
Import Feature Arity ArityLookup ArityTables SRecord RecordSpec RecordUpdates.

(** ** Literals for the examples

    Every address is an atom whose print name spells the address. *)
Fixpoint spell_positive (p : positive) : list Z :=
  match p with
  | xH => [3]
  | xO p => 1 :: spell_positive p
  | xI p => 2 :: spell_positive p
  end.
Definition spell (p : Z) : list Z :=
  match p with
  | Z0 => [4]
  | Zpos p => 5 :: spell_positive p
  | Zneg p => 6 :: spell_positive p
  end.

#[export] Instance example_literals : LitEnv := {|
  lit_isNameAsInt := fun _ => 0; lit_printName := spell; lit_seqNumber := fun _ => 0
|}.

Lemma spell_small p : Forall (fun x => 1 <= x <= 6) (spell p).
Proof.
  assert (forall q, Forall (fun x => 1 <= x <= 6) (spell_positive q)) as Hp by (induction q; cbn; repeat constructor; done || lia).
  destruct p; cbn; repeat constructor; try lia; apply Hp.
Qed.

Lemma strcmp_small s t : Forall (fun x => 1 <= x <= 6) s -> Forall (fun x => 1 <= x <= 6) t -> strcmp s t = 0 -> s = t.
Proof.
  revert t. induction s as [|x s IH]; intros [|y t]; cbn [strcmp]; rewrite ?Forall_cons; try done.
  - intros _ [Hy _]. rewrite Z.mod_small by lia. lia.
  - intros [Hx _] _. rewrite Z.mod_small by lia. lia.
  - intros [Hx Hs] [Hy Ht]. rewrite !Z.mod_small by lia. destruct (Z.eqb_spec x y) as [->|]; [|lia]. intros. f_equal. auto.
Qed.

Lemma spell_inj p q : spell p = spell q -> p = q.
Proof.
  assert (forall a b, spell_positive a = spell_positive b -> a = b) as Hp.
  { induction a as [a IH|a IH|]; intros [b|b|]; cbn; intros [=]; f_equal; auto. }
  destruct p, q; cbn; intros [=]; try done; f_equal; by apply Hp.
Qed.

#[export] Instance example_literals_ok : LitOk example_literals.
Proof.
  split; cbn.
  - by left.
  - intros p. eapply Forall_impl; [apply spell_small|]. intros x Hx. cbn in Hx. rewrite Z.mod_small; lia.
  - lia.
  - intros p q _ Hs _. apply spell_inj, strcmp_small; [apply spell_small..|done].
Qed.

Section properties.
Context {env : LitEnv}.

(** C26: [newArity] ends for every list of up to 2^29 different features, and the hash table it
    fills finds each feature at its position and answers -1 for every other, whatever the
    hash values are. *)
Theorem arity_lookup_correct (l : list Feature) :
  NoDup l -> zlen l <= 2 ^ 29 ->
  exists a, newArity l false = Some a /\ a_list a = l /\ width a = zlen l /\
    (forall i f, l.[i] = Some f -> lookupInternal a f = Some i) /\ (forall f, (f ∉ l) -> lookupInternal a f = Some (-1)).
Proof.
  intros Hd Hl. destruct (newArity_table l Hd Hl) as (a & E & El & Et & Ha). exists a. split; [done|]. split; [done|].
  split; [destruct Ha as (-> & _); by rewrite El|]. split; intros; rewrite lookupInternal_spec, El by done; f_equal.
  - by apply position_unique.
  - by apply position_out.
Qed.

(** C27: [ArityTable::find] returns one pointer for each list: it keeps the invariant of the table
    and all older pointers, the arity it points to has the list, and no other pointer of the table
    does.  Exactly the lists 1, 2, ..., n become arities of tuples. *)
Theorem arity_table_interns (t : ArityTable) (l : list Feature) :
  table_ok t -> NoDup l -> zlen l <= 2 ^ 29 ->
  exists t' p a, find t l = Some (t', p) /\ table_ok t' /\ deref t' p = Some a /\ a_list a = l /\
    (Arity.isTuple a = true <-> l = tuple_list (zlen l)) /\
    (forall q b, deref t q = Some b -> deref t' q = Some b) /\ (forall q b, deref t' q = Some b -> a_list b = l -> q = p).
Proof.
  intros Ht Hd Hl. destruct (find_spec t l Ht Hd Hl) as (t' & p & a & E & Ht' & Hx & Ha & El). exists t', p, a. split_and!; try done.
  - pose proof (to_arity t' Ht' p a Ha) as [_ Eh]. pose proof (hashvalue_tuple t' (a_list a)) as Hh. rewrite Eh, El in Hh. cbn [fst] in Hh.
    rewrite Hh. apply bool_decide_eq_true.
  - intros q b Hq Eb. apply (arities_interned t' q p b a Ht' Hq Ha). by rewrite El.
Qed.

Context {Hok : LitOk env}.

(** C39: The three ways to an arity list agree: sorting a list of features, inserting its elements one
    by one, and merging two sorted lists give the sorted list of the set, which is the same for
    every order and multiplicity of the elements.  This is for at most 2^31 features whose small integers lie within 2^27
    of one another; beyond that the order of features is not one, see [arities_depend_on_order]. *)
Theorem arity_lists_canonical (lo : Z) (l1 l2 : list Feature) :
  Forall (window lo) l1 -> Forall (window lo) l2 -> (forall f, f ∈ l1 <-> f ∈ l2) -> zlen l1 <= 2 ^ 31 -> zlen l2 <= 2 ^ 31 ->
  exists l, packsortlist l1 = Some l /\ packsortlist l2 = Some l /\ isSorted l = true /\ (forall f, f ∈ l <-> f ∈ l1) /\
    insertlist l1 [] = l /\ forall a b, isSorted a = true -> isSorted b = true -> (forall f, f ∈ l1 <-> f ∈ a \/ f ∈ b) -> merge a b = Some l.
Proof using Hok.
  intros W1 W2 E12 N1 N2.
  assert (forall x, Forall (window lo) x -> zlen x <= 2 ^ 31 -> exists y, packsortlist x = Some y /\ sorted lo y /\ forall f, f ∈ y <-> f ∈ x) as Hpack.
  { intros x Hx Hn. unfold packsortlist. destruct x as [|a x]; [exists []; split; [done|]; split; [apply sorted_nil|done]|]. by apply sortlist_spec. }
  destruct (Hpack l1 W1 N1) as (l & P1 & S1 & M1), (Hpack l2 W2 N2) as (l' & P2 & S2 & M2).
  assert (l' = l) as -> by (apply (sorted_unique lo); [done|done|intros f; by rewrite M1, M2, E12]).
  exists l. split; [done|]. split; [done|]. split; [apply (isSorted_spec lo); [by destruct S1|done]|]. split; [done|]. split.
  - destruct (insertlist_spec lo l1 [] W1 (sorted_nil lo)) as [Hs Hm]. apply (sorted_unique lo); [done|done|]. intros f. rewrite Hm, M1, elem_of_nil. tauto.
  - intros a b Ha Hb Hab. assert (Forall (window lo) a /\ Forall (window lo) b) as [Wa Wb].
    { rewrite !Forall_forall in *. split; intros f Hf; apply W1, Hab; tauto. }
    destruct (merge_spec lo a b) as (l' & -> & Hs & Hm); [by apply isSorted_spec..|]. f_equal. apply (sorted_unique lo); [done|done|].
    intros f. by rewrite Hm, M1, Hab.
Qed.

(** A record is a map: [getFeature] reads it and tells the features it has from the others,
    [setFeature] changes it at one feature, and two records of sorted arities agree in
    [compareFunctor], which compares pointers, exactly if they have the same label and the same features. *)
Theorem record_access_correct {T} (lo : Z) (t : ArityTable) (r r' : SRecord T) (fs fs' : list Feature) (m m' : Feature -> option T) (f : Feature) (v : T) :
  table_ok t -> stands t r fs m -> full fs m -> stands t r' fs' m' -> sorted lo fs -> sorted lo fs' ->
  getFeature t r f = Some (m f) /\ getWidth t r = Some (zlen fs) /\ getArityList t r = Some fs /\
  (exists b r1, setFeature t r f v = Some (b, r1) /\ (b = true <-> f ∈ fs) /\ stands t r1 fs (if b then upd m f v else m)) /\
  (compareFunctor r r' = true <-> label r = label r' /\ forall g, g ∈ fs <-> g ∈ fs').
Proof using Hok.
  intros Ht Hr Hfull Hr' Hs Hs'. split_and!.
  - apply (getFeature_spec t r fs); [done|done|apply Hfull].
  - by apply (getWidth_spec t r fs m).
  - by apply (getArityList_spec t r fs m).
  - pose proof (setFeature_spec t r fs m f v Ht Hr) as H. destruct (decide (f ∈ fs)).
    + destruct H as (r1 & E & H1 & _). by exists true, r1.
    + by exists false, r.
  - unfold compareFunctor, compareSortAndArity. rewrite andb_true_iff, Z.eqb_eq, bool_decide_eq_true. split; intros [El H]; (split; [done|]).
    + intros g. assert (fs = fs') as ->; [|done]. pose proof (getArityList_spec t r fs m Hr) as E. pose proof (getArityList_spec t r' fs' m' Hr') as E'.
      unfold getArityList in *. rewrite H in E. congruence.
    + assert (fs = fs') as -> by (by apply (sorted_unique lo)). by apply (arity_canonical t _ _ fs'); [|apply Hr|apply Hr'].
Qed.

(** C25: Adjunction is the update of maps: [oz_adjoin] gives the record of the right label with the
    features of both and the values of the right one where it has any, whether the fast path that
    copies the right record is taken or not; [oz_adjoinAt] changes or adds one feature,
    [oz_adjoinList] those of a list of pairs, of which the last one counts.  The table of arities keeps
    its invariant, so older records keep their meaning.  The conditions: the small integers among all features
    lie within 2^27 of one another, as beyond that [smallIntCmp] overflows ([window]); the two records have
    sorted features, at least one each, and all arguments set; the keys given to [oz_adjoinList] are those of its
    pairs; and there are fewer than 2^29 features and keys in all. *)
Theorem adjunction_correct {T} (lo AtomCons : Z) (t : ArityTable) (l h : SRecord T) (fs1 fs2 : list Feature) (m1 m2 : Feature -> option T)
    (f : Feature) (v : T) (keys : list Feature) (proplist : list (Feature * T)) :
  table_ok t -> stands t l fs1 m1 -> full fs1 m1 -> features_ok lo fs1 -> stands t h fs2 m2 -> full fs2 m2 -> features_ok lo fs2 ->
  window lo f -> Forall (window lo) keys -> (forall g, g ∈ keys <-> g ∈ fst <$> proplist) ->
  zlen fs1 + zlen fs2 + zlen keys < 2 ^ 29 ->
  (exists t' x fs, oz_adjoin AtomCons t l h = Some (t', x) /\ table_ok t' /\ extends t t' /\ union_of lo fs fs1 fs2 /\
     denotes AtomCons t' x (label h) fs (over m1 m2)) /\
  (exists t' x fs, oz_adjoinAt AtomCons t l f v = Some (t', x) /\ table_ok t' /\ extends t t' /\ union_of lo fs [f] fs1 /\
     denotes AtomCons t' x (label l) fs (upd m1 f v)) /\
  (exists t' x fs, oz_adjoinList AtomCons t l keys proplist = Some (t', x) /\ table_ok t' /\ extends t t' /\ union_of lo fs keys fs1 /\
     denotes AtomCons t' x (label l) fs (upds m1 proplist)).
Proof using Hok.
  intros Ht Hl F1 O1 Hh F2 O2 Wf Wk Hk Hn. pose proof (zlen_nonneg keys). pose proof (zlen_nonneg fs2). split_and!.
  - apply (adjoin_spec lo AtomCons t l h fs1 m1 fs2 m2); try done. lia.
  - apply (adjoinAt_spec lo AtomCons t l fs1 m1); try done. lia.
  - apply (adjoinList_spec lo AtomCons t l fs1 m1); try done. lia.
Qed.

(** A tuple of two arguments with the label of lists becomes a list cell, and [makeRecord] gives
    a record of the same meaning back; every other record stays what it is. *)
Theorem list_cells_roundtrip {T} (AtomCons : Z) (t : ArityTable) (r : SRecord T) (fs : list Feature) (m : Feature -> option T) :
  table_ok t -> stands t r fs m -> full fs m ->
  exists x t' r', normalize AtomCons t r = Some x /\ denotes AtomCons t x (label r) fs m /\
    ((exists h tl, x = LTuple h tl) <-> label r = AtomCons /\ fs = tuple_list 2) /\
    makeRecord AtomCons t x = Some (t', r') /\ table_ok t' /\ extends t t' /\ stands t' r' fs m /\ label r' = label r.
Proof.
  intros Ht Hr Hfull. destruct (normalize_record_spec AtomCons t r fs m Ht Hr Hfull) as (x & E & Hd).
  destruct (makeRecord_spec AtomCons t x _ fs m Ht Hd) as (t' & r' & E' & Ht' & Hx & Hr' & El). exists x, t', r'. split_and!; try done.
  destruct x as [h tl|r1]; cbn [denotes] in Hd.
  - destruct Hd as (? & ? & _). split; [done|]. intros _. by exists h, tl.
  - split; [by intros (? & ? & [=])|]. intros [Ec ->]. exfalso. unfold normalize in E. rewrite (getWidth_spec t r _ m Ht Hr) in E. ored in E.
    change (zlen (tuple_list 2)) with 2 in E. rewrite Ec, Z.eqb_refl in E.
    assert (isTuple r = true) as Et.
    { pose proof (arity_canonical t (recordArity r) (Tuple 2) (tuple_list 2) Ht (st_features _ _ _ _ Hr)) as Ea. unfold isTuple. rewrite Ea; done. }
    rewrite Et in E. cbn [andb] in E. change (2 =? 2) with true in E. cbn [andb] in E. unfold getArg in E.
    destruct (args r).[0] as [[?|]|]; ored in E; [|done|done]. destruct (args r).[1] as [[?|]|]; ored in E; done.
Qed.
End properties.

(** The order of small integers subtracts tagged words, so it overflows for integers 2^27 or
    more apart and is not transitive: sorting the same three features given in two orders leads to
    two different arity lists, and so to two different arities for one set of features. *)
Theorem arities_depend_on_order :
  featureLt (FSmallInt 100000000) (FSmallInt (-100000000)) = true /\ featureLt (FSmallInt (-100000000)) (FSmallInt 0) = true /\
  featureLt (FSmallInt 0) (FSmallInt 100000000) = true /\
  exists t l1 l2 t1 p t2 q,
    newArityTable 4 = Some t /\
    packsortlist [FSmallInt 100000000; FSmallInt 0; FSmallInt (-100000000)] = Some l1 /\
    packsortlist [FSmallInt 0; FSmallInt 100000000; FSmallInt (-100000000)] = Some l2 /\
    (forall f, f ∈ l1 <-> f ∈ l2) /\ find t l1 = Some (t1, p) /\ find t1 l2 = Some (t2, q) /\ p <> q.
Proof.
  split; [vm_compute; reflexivity|]. split; [vm_compute; reflexivity|]. split; [vm_compute; reflexivity|].
  do 7 eexists. split; [vm_compute; reflexivity|]. split; [vm_compute; reflexivity|]. split; [vm_compute; reflexivity|]. split.
  - intros f. rewrite !elem_of_cons, elem_of_nil. tauto.
  - split; [vm_compute; reflexivity|]. split; [vm_compute; reflexivity|]. discriminate.
Qed.

(** ** Witnesses *)

Definition example_table : ArityTable := default (AT [] 0) (newArityTable 8).

Lemma example_table_ok : table_ok example_table.
Proof. unfold example_table. by destruct (newArityTable_ok 8 ltac:(lia)) as (t & -> & Ht). Qed.

Definition example_features : list Feature := [FSmallInt 3; FBigInt (2 ^ 40); FLiteral 97; FLiteral 98].

Lemma example_features_nodup : NoDup example_features.
Proof. apply (bool_decide_eq_true _). vm_compute. reflexivity. Qed.

Lemma arity_lookup_witness : exists a, newArity example_features false = Some a /\ lookupInternal a (FLiteral 97) = Some 2 /\ lookupInternal a (FSmallInt 97) = Some (-1).
Proof.
  destruct (arity_lookup_correct example_features) as (a & E & _ & _ & Hin & Hout); [exact example_features_nodup|vm_compute; discriminate|].
  exists a. split; [exact E|]. split; [by apply Hin|]. apply Hout. apply (bool_decide_eq_true _). vm_compute. reflexivity.
Defined.

Lemma arity_table_witness : exists t p a, find example_table example_features = Some (t, p) /\ deref t p = Some a /\ a_list a = example_features.
Proof.
  destruct (arity_table_interns example_table example_features) as (t & p & a & E & _ & Ha & El & _);
    [exact example_table_ok|exact example_features_nodup|vm_compute; discriminate|].
  by exists t, p, a.
Defined.

Lemma example_windows : Forall (window 0) [FLiteral 98; FSmallInt 3; FLiteral 97; FSmallInt 3].
Proof. repeat constructor; cbn; unfold OzMinInt, OzMaxInt; lia. Qed.

Lemma arity_lists_witness : exists l, packsortlist [FLiteral 98; FSmallInt 3; FLiteral 97; FSmallInt 3] = Some l /\
  insertlist [FLiteral 98; FSmallInt 3; FLiteral 97; FSmallInt 3] [] = l /\ l = [FSmallInt 3; FLiteral 98; FLiteral 97].
Proof.
  destruct (arity_lists_canonical 0 _ _ example_windows example_windows) as (l & E & _ & _ & _ & Ei & _); [done|vm_compute; discriminate..|].
  exists l. split; [exact E|]. split; [exact Ei|]. vm_compute in E. injection E as <-. reflexivity.
Defined.

Definition pair_record : SRecord Z := SR (Tuple 2) 124 [Some 10; Some 20].
Definition triple_record : SRecord Z := SR (Tuple 3) 35 [Some 7; Some 8; Some 9].

Lemma pair_stands : stands example_table pair_record (tuple_list 2) (tuple_map [10; 20]).
Proof. exact (tuple_stands example_table 124 [10; 20]). Qed.

Lemma triple_stands : stands example_table triple_record (tuple_list 3) (tuple_map [7; 8; 9]).
Proof. exact (tuple_stands example_table 35 [7; 8; 9]). Qed.

Lemma record_access_witness : getFeature example_table pair_record (FSmallInt 2) = Some (Some 20) /\ compareFunctor pair_record triple_record = false.
Proof.
  destruct (record_access_correct 0 example_table pair_record triple_record (tuple_list 2) (tuple_list 3) (tuple_map [10; 20]) (tuple_map [7; 8; 9]) (FSmallInt 2) 5
    example_table_ok pair_stands (tuple_full [10; 20]) triple_stands (tuple_sorted 2 ltac:(lia)) (tuple_sorted 3 ltac:(lia))) as (E & _).
  split; [exact E|reflexivity].
Defined.

Lemma adjunction_witness : exists t x, oz_adjoinAt 124 example_table pair_record (FLiteral 97) 30 = Some (t, x) /\ table_ok t.
Proof.
  destruct (adjunction_correct 0 124 example_table pair_record triple_record (tuple_list 2) (tuple_list 3) (tuple_map [10; 20]) (tuple_map [7; 8; 9]) (FLiteral 97) 30 [FSmallInt 3] [(FSmallInt 3, 5)]
    example_table_ok pair_stands (tuple_full [10; 20])) as (_ & (t & x & fs & E & Ht & _) & _).
  - split; [apply tuple_sorted; lia|split; vm_compute; congruence].
  - exact triple_stands.
  - exact (tuple_full [7; 8; 9]).
  - split; [apply tuple_sorted; lia|split; vm_compute; congruence].
  - done.
  - repeat constructor; cbn; unfold OzMinInt, OzMaxInt; lia.
  - done.
  - reflexivity.
  - exists t, x. split; [exact E|exact Ht].
Defined.

Lemma list_cells_witness : exists x t r, normalize 124 example_table pair_record = Some x /\ makeRecord 124 example_table x = Some (t, r) /\ label r = 124.
Proof.
  destruct (list_cells_roundtrip 124 example_table pair_record (tuple_list 2) (tuple_map [10; 20]) example_table_ok pair_stands (tuple_full [10; 20])) as (x & t & r & E & _ & _ & Em & _ & _ & _ & El).
  by exists x, t, r.
Defined.
