(* ===== verification/Dictionary.v ===== *)
(** * Dictionaries ([dictionary.hh], [dictionary.cc])

    A dictionary is a hash table of nodes.  A node is empty, holds one pair, or - after a
    collision - a block of pairs.  Blocks are never shared, so they are part of the node.  A value is never the
    word 0, which stands for "nothing found" ([None] here). *)
From S2P Require Import Prelude Word32 Sort Feature Arity SRecord.

Module Dictionary.
Import Feature.

(** [HT_PRIME0] .. [HT_PRIME45] *)
Definition HT_PRIMES : list Z :=
  [1; 3; 5; 11; 23; 41; 71; 127; 191; 293; 461; 769; 1153; 1733; 2633; 4007; 6053; 9109; 13697; 20551; 30829; 46301; 69473;
   104347; 156521; 234781; 352229; 528403; 792881; 1189637; 1784459; 2676727; 4015199; 6022873; 9034357; 13551589; 20327443;
   30491239; 45736963; 68605463; 102908261; 154362469; 231543727; 347315603; 520973503; 781460413].
Definition dictHTSizes : list Z := HT_PRIMES ++ [0].
Definition maxTabSize : Z := 781460413.
Definition GDT_MINFULL : Z := 4.
Definition DictDefaultSize : Z := 5.
Definition DictSafeFlag : Z := 1.

(** [(int) (GDT_MAXENTRIES * tableSize)] with 0.9: no table size is a multiple of 10, so the product
    is not near an integer and is truncated to the quotient. *)
Definition max_entries (tableSize : Z) : Z := 9 * tableSize / 10.

(** [(int) ((double) entries / GDT_IDEALENTRIES)] with 0.7.  The [double] 0.7 is a little smaller, so the
    quotient of a multiple of 7 is not below the integer; the others are not near an integer. *)
Definition ideal_size (entries : Z) : Z := 10 * entries / 7.

Section operations.
Context `{LitEnv} {V : Type}.

Inductive DictNode := NEmpty | NPair (key : Feature) (value : V) | NBlock (l : list (Feature * V)).

Record DictHashTable := DHT {
  table : list DictNode;
  sizeIndex : Z;
  entries : Z;
  maxEntries : Z
}.

Definition hash (sizeIndex m : Z) : Z := match HT_PRIMES.[sizeIndex] with Some p => m mod p | None => m end.

(** The table and the limit of [mkEmpty]; it also sets [entries] to 0. *)
Definition mkEmpty (sizeIndex : Z) : option DictHashTable :=
  tableSize ← dictHTSizes.[sizeIndex];
  Some (DHT (replicate (Z.to_nat tableSize) NEmpty) sizeIndex 0 (max_entries tableSize)).

(** [while (dictHTSizes[sizeIndex] < size) sizeIndex++], over the sizes that are left. *)
Fixpoint init_index (sizes : list Z) (size k : Z) : option Z :=
  match sizes with
  | [] => None
  | s :: sizes => if s <? size then init_index sizes size (k + 1) else Some k
  end.
Definition init (size : Z) : option DictHashTable :=
  if (size <? 0) || (maxTabSize <? size) then None
  else i ← init_index dictHTSizes size 0; mkEmpty i.

(** The search of a block: [do ... while (sptr < eptr)]. *)
Fixpoint block_find (l : list (Feature * V)) (key : Feature) : option V :=
  match l with
  | [] => None
  | (k, v) :: l => if featureEq k key then Some v else block_find l key
  end.

(** [sptr->setValue(value)] at the first node with the key. *)
Fixpoint block_set (l : list (Feature * V)) (key : Feature) (value : V) : list (Feature * V) :=
  match l with
  | [] => []
  | (k, v) :: l => if featureEq k key then (k, value) :: l else (k, v) :: block_set l key value
  end.

Definition slot (d : DictHashTable) (key : Feature) : Z := hash (sizeIndex d) (featureHash key).

Definition node_find (n : DictNode) (key : Feature) : option V :=
  match n with
  | NEmpty => None
  | NPair k v => if featureEq k key then Some v else None
  | NBlock l => block_find l key
  end.

Definition htFind (d : DictHashTable) (key : Feature) : option (option V) :=
  np ← (table d).[slot d key]; Some (node_find np key).

Definition set_node (d : DictHashTable) (i : Z) (n : DictNode) : option DictHashTable :=
  t ← (table d).[i <- n]; Some (DHT t (sizeIndex d) (entries d) (maxEntries d)).

(** A new pair in a node that does not have the key. *)
Definition node_add (n : DictNode) (key : Feature) (value : V) : DictNode :=
  match n with
  | NEmpty => NPair key value
  | NPair k v => NBlock [(k, v); (key, value)]
  | NBlock l => NBlock (l ++ [(key, value)])
  end.

Definition htReAdd (d : DictHashTable) (key : Feature) (value : V) : option DictHashTable :=
  f ← htFind d key;
  match f with
  | Some _ => None
  | None => np ← (table d).[slot d key]; set_node d (slot d key) (node_add np key value)
  end.

Fixpoint readd_block (d : DictHashTable) (l : list (Feature * V)) : option DictHashTable :=
  match l with
  | [] => Some d
  | (k, v) :: l => d ← htReAdd d k v; readd_block d l
  end.

Definition readd_node (d : DictHashTable) (n : DictNode) : option DictHashTable :=
  match n with
  | NEmpty => Some d
  | NPair k v => htReAdd d k v
  | NBlock l => readd_block d l
  end.

(** The nodes of the old table, one after the other. *)
Fixpoint readd_nodes (d : DictHashTable) (old : list DictNode) : option DictHashTable :=
  match old with
  | [] => Some d
  | n :: old => d ← readd_node d n; readd_nodes d old
  end.

Definition set_entries (d : DictHashTable) (e : Z) : DictHashTable := DHT (table d) (sizeIndex d) e (maxEntries d).

(** A new table of the given size with the old nodes. *)
Definition rebuild (d : DictHashTable) (sizeIndex : Z) : option DictHashTable :=
  n ← mkEmpty sizeIndex; readd_nodes (set_entries n (entries d)) (table d).

Definition resize (d : DictHashTable) : option DictHashTable := rebuild d (sizeIndex d + 1).

(** [while (sizeIndex >= 0 && dictHTSizes[sizeIndex] >= tableSize) sizeIndex--] *)
Fixpoint shrink_index (fuel : nat) (i tableSize : Z) : option Z :=
  match fuel with
  | O => None
  | S fuel =>
      if i <? 0 then Some i
      else s ← dictHTSizes.[i]; if tableSize <=? s then shrink_index fuel (i - 1) tableSize else Some i
  end.

Definition compactify (d : DictHashTable) : option DictHashTable :=
  oldSize ← dictHTSizes.[sizeIndex d];
  if oldSize / GDT_MINFULL <=? entries d then Some d
  else
    let tableSize := ideal_size (entries d) in
    if negb (tableSize <? oldSize) then None
    else
      i ← shrink_index (length dictHTSizes) (sizeIndex d - 1) tableSize;
      let i := i + 1 in
      s ← dictHTSizes.[i];
      if negb (s <? oldSize) then None else rebuild d i.

(** One more entry; [resize] when there are too many. *)
Definition count_entry (d : DictHashTable) : option DictHashTable :=
  let d := set_entries d (entries d + 1) in
  if maxEntries d <? entries d then resize d else Some d.

(** [setValue] at the key that was found. *)
Definition node_set (n : DictNode) (key : Feature) (value : V) : DictNode :=
  match n with
  | NEmpty => NEmpty
  | NPair k _ => NPair k value
  | NBlock l => NBlock (block_set l key value)
  end.

(** [htAdd] and [htExchange]: the value found before the change, and the new table. *)
Definition put (d : DictHashTable) (key : Feature) (value : V) (createFlag : bool) : option (option V * DictHashTable) :=
  np ← (table d).[slot d key];
  match node_find np key with
  | Some old =>
      d ← set_node d (slot d key) (node_set np key value);
      Some (Some old, d)
  | None =>
      if createFlag then
        d ← set_node d (slot d key) (node_add np key value);
        d ← count_entry d; Some (None, d)
      else Some (None, d)
  end.
Definition htAdd (d : DictHashTable) (key : Feature) (value : V) : option DictHashTable :=
  '(_, d) ← put d key value true; Some d.
Definition htExchange (d : DictHashTable) (key : Feature) (value : V) (createFlag : bool) : option (option V * DictHashTable) :=
  put d key value createFlag.

(** The block without the first node that has the key. *)
Fixpoint block_del (l : list (Feature * V)) (key : Feature) : list (Feature * V) :=
  match l with
  | [] => []
  | (k, v) :: l => if featureEq k key then l else (k, v) :: block_del l key
  end.

(** Removing from a block of two leaves the other pair in the table. *)
Definition node_del (n : DictNode) (key : Feature) : DictNode :=
  match n with
  | NBlock l =>
      match block_del l key with
      | [(k, v)] => NPair k v
      | l' => NBlock l'
      end
  | _ => NEmpty
  end.

Definition htDel (d : DictHashTable) (key : Feature) : option DictHashTable :=
  np ← (table d).[slot d key];
  match node_find np key with
  | None => Some d
  | Some _ =>
      d ← set_node d (slot d key) (node_del np key);
      let e := entries d - 1 in
      if e <? 0 then None else Some (set_entries d e)
  end.

(** ** Listing *)

(** The pairs of a node, in the order of its block. *)
Definition node_pairs (n : DictNode) : list (Feature * V) :=
  match n with
  | NEmpty => []
  | NPair k v => [(k, v)]
  | NBlock l => l
  end.

(** [for (i = size; i--; ) ...]: the pairs in the order in which every listing visits them. *)
Fixpoint visited (nodes : list DictNode) : list (Feature * V) :=
  match nodes with
  | [] => []
  | n :: nodes => visited nodes ++ node_pairs n
  end.

(** Each pair is put in front of the list. *)
Definition getPairs (d : DictHashTable) : list (Feature * V) := rev (visited (table d)).
Definition getKeys (d : DictHashTable) : list Feature := rev (map fst (visited (table d))).
Definition getItems (d : DictHashTable) : list V := rev (map snd (visited (table d))).

(** The array has [entries] cells. *)
Definition getPairsInArray (d : DictHashTable) : option (list (Feature * V)) :=
  if entries d <=? 0 then None
  else
    let l := visited (table d) in
    if zlen l <=? entries d then Some l else None.

(** The features sorted in a temporary array of [entries] cells. *)
Definition getArityList (d : DictHashTable) (tail : list Feature) : option (list Feature) :=
  if entries d <? 0 then None
  else if 0 <? entries d then
    let arr := map fst (visited (table d)) in
    if negb (zlen arr =? entries d) then None
    else arr ← Sort.fastsort featureLt arr (entries d); Some (arr ++ tail)
  else Some tail.

(** [toRecord]: the label alone, or a record. *)
Inductive record_term := Label (lbl : Z) | Record_ (x : SRecord.term V).

Fixpoint set_pairs (t : Arity.ArityTable) (r : SRecord.SRecord V) (l : list (Feature * V)) : option (SRecord.SRecord V) :=
  match l with
  | [] => Some r
  | (k, v) :: l => '(ok, r) ← SRecord.setFeature t r k v; if ok : bool then set_pairs t r l else None
  end.

Definition toRecord (AtomCons : Z) (t : Arity.ArityTable) (d : DictHashTable) (lbl : Z) : option (Arity.ArityTable * record_term) :=
  if entries d <? 0 then None
  else if entries d =? 0 then Some (t, Label lbl)
  else
    alist ← getArityList d [];
    '(t, arity) ← Arity.find t alist;
    newrec ← SRecord.newSRecord t lbl arity;
    newrec ← set_pairs t newrec (visited (table d));
    x ← SRecord.normalize AtomCons t newrec; Some (t, Record_ x).

(** The nodes are copied, with their blocks, into a new array. *)
Definition copy (d : DictHashTable) : option DictHashTable :=
  tableSize ← dictHTSizes.[sizeIndex d];
  an ← for_down (Z.to_nat tableSize) (fun i an => n ← (table d).[i]; an.[i <- n]) (replicate (Z.to_nat tableSize) NEmpty);
  Some (DHT an (sizeIndex d) (entries d) (maxEntries d)).

(** ** [OzDictionary] *)

(** The home of a [ConstTermWithHome] is a board; boards are compared by identity. *)
Record OzDictionary := OzDict { d_table : DictHashTable; dictFlags : Z; d_home : Z }.

Definition set_table (d : OzDictionary) (t : DictHashTable) : OzDictionary := OzDict t (dictFlags d) (d_home d).

(** [init(sz)] of a dictionary whose home is set; with it [OzDictionary(b, sz)]. *)
Definition oz_init (b sz : Z) : option OzDictionary := t ← init sz; Some (OzDict t 0 b).
Definition getArg (d : OzDictionary) (key : Feature) : option (option V) := htFind (d_table d) key.
Definition member (d : OzDictionary) (key : Feature) : option bool :=
  found ← htFind (d_table d) key; Some (match found with Some _ => true | None => false end).
Definition setArg (d : OzDictionary) (key : Feature) (value : V) : option OzDictionary :=
  t ← htAdd (d_table d) key value; Some (set_table d t).

(** Whether there was an old value, the old value and the new dictionary. *)
Definition exchange (d : OzDictionary) (key : Feature) (new_val : V) (createFlag : bool) : option (bool * option V * OzDictionary) :=
  '(old, t) ← htExchange (d_table d) key new_val createFlag;
  Some (match old with Some _ => true | None => false end, old, set_table d t).
Definition remove (d : OzDictionary) (key : Feature) : option OzDictionary :=
  t ← htDel (d_table d) key; Some (set_table d t).

(** [init] also resets the flags. *)
Definition removeAll (d : OzDictionary) : option OzDictionary := oz_init (d_home d) DictDefaultSize.
Definition isEmpty (d : OzDictionary) : bool := entries (d_table d) =? 0.
Definition clone (d : OzDictionary) (b : Z) : option OzDictionary := t ← copy (d_table d); Some (OzDict t (dictFlags d) b).
Definition isSafeDict (d : OzDictionary) : bool := negb (Z.land (dictFlags d) DictSafeFlag =? 0).
Definition markSafe (d : OzDictionary) : OzDictionary := OzDict (d_table d) (Z.lor (dictFlags d) DictSafeFlag) (d_home d).

(** ** Builtins

    The builtins on a dictionary and a feature of this site, and the operations that the
    protocols of distributed dictionaries call; both may extend the table of arities.  The root board is
    that of the toplevel; a builtin runs in the current board. *)

Inductive answer :=
  | ANone | ABool (b : bool) | AValue (v : V) | AKeys (l : list Feature) | AItems (l : list V) | AEntries (l : list (Feature * V))
  | ADict (d : OzDictionary) | ARecord (x : record_term).

(** [E_KERNEL] exceptions: a feature that is not there, a global object that is to be changed in a space. *)
Inductive exception := EX_dict | EX_globalState.

Inductive outcome := PROCEED (out : answer) (d : OzDictionary) | RAISE (e : exception).

Context (rootBoard : Z).

Section builtins.
Context (currentBoard : Z).

(** [CheckLocalBoard] passes. *)
Definition localBoard (d : OzDictionary) : bool := (currentBoard =? rootBoard) || (currentBoard =? d_home d).

Definition BIdictionaryNew : option OzDictionary := oz_init currentBoard DictDefaultSize.

Definition value_or (o : option V) (deflt : V) : V := match o with Some v => v | None => deflt end.

Definition dictionaryMemberInline (d : OzDictionary) (key : Feature) : option outcome := b ← member d key; Some (PROCEED (ABool b) d).
Definition dictionaryGetInline (d : OzDictionary) (key : Feature) : option outcome :=
  out ← getArg d key; Some (match out with Some v => PROCEED (AValue v) d | None => RAISE EX_dict end).
Definition dictionaryCondGetInline (d : OzDictionary) (key : Feature) (deflt : V) : option outcome :=
  out ← getArg d key; Some (PROCEED (AValue (value_or out deflt)) d).
Definition dictionaryPutInline (d : OzDictionary) (key : Feature) (value : V) : option outcome :=
  if localBoard d then d ← setArg d key value; Some (PROCEED ANone d) else Some (RAISE EX_globalState).
Definition dictionaryExchangeInline (d : OzDictionary) (key : Feature) (value : V) : option outcome :=
  if localBoard d then '(_, old, d) ← exchange d key value false; Some (match old with Some v => PROCEED (AValue v) d | None => RAISE EX_dict end)
  else Some (RAISE EX_globalState).
Definition dictionaryCondExchangeInline (d : OzDictionary) (key : Feature) (deflt value : V) : option outcome :=
  if localBoard d then '(_, old, d) ← exchange d key value true; Some (PROCEED (AValue (value_or old deflt)) d) else Some (RAISE EX_globalState).
Definition dictionaryRemoveInline (d : OzDictionary) (key : Feature) : option outcome :=
  if localBoard d then d ← remove d key; Some (PROCEED ANone d) else Some (RAISE EX_globalState).
Definition BIdictionaryIsEmpty (d : OzDictionary) : option outcome := Some (PROCEED (ABool (isEmpty d)) d).
Definition BIdictionaryRemoveAll (d : OzDictionary) : option outcome := d ← removeAll d; Some (PROCEED ANone d).
Definition BIdictionaryKeys (d : OzDictionary) : option outcome := Some (PROCEED (AKeys (getKeys (d_table d))) d).
Definition BIdictionaryItems (d : OzDictionary) : option outcome := Some (PROCEED (AItems (getItems (d_table d))) d).
Definition BIdictionaryEntries (d : OzDictionary) : option outcome := Some (PROCEED (AEntries (getPairs (d_table d))) d).
Definition BIdictionaryClone (d : OzDictionary) : option outcome := c ← clone d currentBoard; Some (PROCEED (ADict c) d).
Definition BIdictionaryToRecord (AtomCons : Z) (t : Arity.ArityTable) (d : OzDictionary) (lbl : Z) : option (Arity.ArityTable * outcome) :=
  '(t, x) ← toRecord AtomCons t (d_table d) lbl; Some (t, PROCEED (ARecord x) d).

(** [OperationTag] with the arguments in [arg[]]. *)
Inductive request :=
  | OP_MEMBER (key : Feature) | OP_GET (key : Feature) | OP_CONDGET (key : Feature) (deflt : V) | OP_PUT (key : Feature) (value : V)
  | OP_EXCHANGE (key : Feature) (value : V) | OP_CONDEXCHANGE (key : Feature) (value deflt : V) | OP_ISEMPTY | OP_REMOVE (key : Feature)
  | OP_REMOVEALL | OP_KEYS | OP_ITEMS | OP_ENTRIES | OP_CLONE | OP_TORECORD (lbl : Z).

(** The builtin that sends the request when the dictionary is distributed, on a dictionary that is not. *)
Definition local_builtin (AtomCons : Z) (t : Arity.ArityTable) (op : request) (d : OzDictionary) : option (Arity.ArityTable * outcome) :=
  let keep (o : option outcome) := o ← o; Some (t, o) in
  match op with
  | OP_MEMBER key => keep (dictionaryMemberInline d key)
  | OP_GET key => keep (dictionaryGetInline d key)
  | OP_CONDGET key deflt => keep (dictionaryCondGetInline d key deflt)
  | OP_PUT key value => keep (dictionaryPutInline d key value)
  | OP_EXCHANGE key value => keep (dictionaryExchangeInline d key value)
  | OP_CONDEXCHANGE key value deflt => keep (dictionaryCondExchangeInline d key deflt value)
  | OP_ISEMPTY => keep (BIdictionaryIsEmpty d)
  | OP_REMOVE key => keep (dictionaryRemoveInline d key)
  | OP_REMOVEALL => keep (BIdictionaryRemoveAll d)
  | OP_KEYS => keep (BIdictionaryKeys d)
  | OP_ITEMS => keep (BIdictionaryItems d)
  | OP_ENTRIES => keep (BIdictionaryEntries d)
  | OP_CLONE => keep (BIdictionaryClone d)
  | OP_TORECORD lbl => BIdictionaryToRecord AtomCons t d lbl
  end.
End builtins.

Definition dictMember (d : OzDictionary) (key : Feature) : option outcome := b ← member d key; Some (PROCEED (ABool b) d).
Definition dictGet (d : OzDictionary) (key : Feature) : option outcome :=
  res ← getArg d key; Some (match res with Some v => PROCEED (AValue v) d | None => RAISE EX_dict end).
Definition dictCondGet (d : OzDictionary) (key : Feature) (deflt : V) : option outcome :=
  out ← getArg d key; Some (PROCEED (AValue (value_or out deflt)) d).
Definition dictPut (d : OzDictionary) (key : Feature) (value : V) : option outcome := d ← setArg d key value; Some (PROCEED ANone d).
Definition dictExchange (d : OzDictionary) (key : Feature) (value : V) : option outcome :=
  '(_, res, d) ← exchange d key value false; Some (match res with Some v => PROCEED (AValue v) d | None => RAISE EX_dict end).
Definition dictCondExchange (d : OzDictionary) (key : Feature) (value deflt : V) : option outcome :=
  '(_, res, d) ← exchange d key value false; Some (PROCEED (AValue (value_or res deflt)) d).
Definition dictRemove (d : OzDictionary) (key : Feature) : option outcome := d ← remove d key; Some (PROCEED ANone d).
Definition dictRemoveAll (d : OzDictionary) : option outcome := d ← removeAll d; Some (PROCEED ANone d).
Definition dictClone (d : OzDictionary) : option outcome := c ← clone d rootBoard; Some (PROCEED (ADict c) d).
Definition dictToRecord (AtomCons : Z) (t : Arity.ArityTable) (d : OzDictionary) (lbl : Z) : option (Arity.ArityTable * outcome) :=
  '(t, x) ← toRecord AtomCons t (d_table d) lbl; Some (t, PROCEED (ARecord x) d).

(** The table [dict_op] is in the order of the tags. *)
Definition dictionaryOperation (AtomCons : Z) (t : Arity.ArityTable) (op : request) (d : OzDictionary) : option (Arity.ArityTable * outcome) :=
  let keep (o : option outcome) := o ← o; Some (t, o) in
  match op with
  | OP_MEMBER key => keep (dictMember d key)
  | OP_GET key => keep (dictGet d key)
  | OP_CONDGET key deflt => keep (dictCondGet d key deflt)
  | OP_PUT key value => keep (dictPut d key value)
  | OP_EXCHANGE key value => keep (dictExchange d key value)
  | OP_CONDEXCHANGE key value deflt => keep (dictCondExchange d key value deflt)
  | OP_ISEMPTY => keep (Some (PROCEED (ABool (isEmpty d)) d))
  | OP_REMOVE key => keep (dictRemove d key)
  | OP_REMOVEALL => keep (dictRemoveAll d)
  | OP_KEYS => keep (Some (PROCEED (AKeys (getKeys (d_table d))) d))
  | OP_ITEMS => keep (Some (PROCEED (AItems (getItems (d_table d))) d))
  | OP_ENTRIES => keep (Some (PROCEED (AEntries (getPairs (d_table d))) d))
  | OP_CLONE => keep (dictClone d)
  | OP_TORECORD lbl => dictToRecord AtomCons t d lbl
  end.
End operations.
Arguments DictNode : clear implicits.
Arguments DictHashTable : clear implicits.
Arguments OzDictionary : clear implicits.
Arguments record_term : clear implicits.
Arguments answer : clear implicits.
Arguments outcome : clear implicits.
Arguments request : clear implicits.
End Dictionary.
