(* ===== verification/DictionarySpec.v ===== *)
(** * What dictionaries stand for

    [means d M]: the pairs in the table [d] are those of the map [M].  [shaped] is the invariant of
    the table: every pair is in the node its key hashes to, keys are different, blocks
    have at least two pairs. *)
From S2P Require Import Prelude Word32 Sort Feature Arity SRecord Dictionary.

Module DictionarySpec.
Import Feature Dictionary.

Section dictionaries.
Context `{env : LitEnv} {V : Type}.
Implicit Types (d : DictHashTable V) (n : DictNode V) (l : list (Feature * V)) (key : Feature) (value : V) (M : Feature -> option V).

Definition pairs d : list (Feature * V) := visited (table d).
Definition keys_of l : list Feature := map fst l.
Definition means d M : Prop := forall k v, (k, v) ∈ pairs d <-> M k = Some v.
Definition upd M key (o : option V) : Feature -> option V := fun k => if decide (k = key) then o else M k.

Record shaped d : Prop := {
  sh_size : HT_PRIMES.[sizeIndex d] = Some (zlen (table d));
  sh_max : maxEntries d = max_entries (zlen (table d));
  sh_place i n k v : (table d).[i] = Some n -> (k, v) ∈ node_pairs n -> slot d k = i;
  sh_blocks i l : (table d).[i] = Some (NBlock l) -> (2 <= length l)%nat;
  sh_keys : NoDup (keys_of (pairs d))
}.

(** ** Association lists *)

Lemma block_find_spec l key v : NoDup (keys_of l) -> block_find l key = Some v <-> (key, v) ∈ l.
Proof.
  induction l as [|[k w] l IH]; intros Hd; cbn [block_find keys_of map fst] in *; [rewrite elem_of_nil; done|].
  apply NoDup_cons in Hd as [Hk Hd]. rewrite elem_of_cons, featureEq_decides. destruct (decide (k = key)) as [->|Hne].
  - rewrite bool_decide_eq_true_2 by done. split; [intros [= ->]; by left|]. intros [[= ->]|Hin]; [done|]. exfalso. apply Hk.
    apply list_elem_of_In, in_map_iff. exists (key, v). split; [done|]. by apply list_elem_of_In.
  - rewrite bool_decide_eq_false_2 by done. rewrite IH by done. split; [by right|]. intros [[= -> _]|]; done.
Qed.

Lemma block_del_perm l key v : block_find l key = Some v -> l ≡ₚ (key, v) :: block_del l key.
Proof.
  induction l as [|[k w] l IH]; cbn [block_find block_del]; [done|]. rewrite featureEq_decides. destruct (decide (k = key)) as [->|Hne].
  - rewrite bool_decide_eq_true_2 by done. by intros [= ->].
  - rewrite bool_decide_eq_false_2 by done. intros E. rewrite (IH E) at 1. apply Permutation_swap.
Qed.

Lemma block_set_perm l key v w : block_find l key = Some v -> block_set l key w ≡ₚ (key, w) :: block_del l key.
Proof.
  induction l as [|[k x] l IH]; cbn [block_find block_set block_del]; [done|]. rewrite featureEq_decides. destruct (decide (k = key)) as [->|Hne].
  - by rewrite bool_decide_eq_true_2.
  - rewrite bool_decide_eq_false_2 by done. intros E. rewrite (IH E). apply Permutation_swap.
Qed.

Lemma node_find_pairs n key : node_find n key = block_find (node_pairs n) key.
Proof. by destruct n. Qed.

Lemma node_add_pairs n key value : node_pairs (node_add n key value) = node_pairs n ++ [(key, value)].
Proof. by destruct n. Qed.

Lemma node_set_pairs n key value v : node_find n key = Some v -> node_pairs (node_set n key value) = block_set (node_pairs n) key value.
Proof. destruct n as [|k w|l]; cbn [node_find node_set node_pairs block_set]; [done| |done]. by destruct (featureEq k key). Qed.

Lemma node_del_pairs n key v : node_find n key = Some v -> node_pairs (node_del n key) = block_del (node_pairs n) key.
Proof.
  destruct n as [|k w|l]; cbn [node_find node_del node_pairs block_del]; [done|by destruct (featureEq k key)|].
  intros _. by destruct (block_del l key) as [|[? ?] [|? ?]].
Qed.

(** ** The pairs of a table with one node exchanged *)

Lemma visited_split (t : list (DictNode V)) (i : nat) n : t !! i = Some n ->
  exists rest, visited t ≡ₚ node_pairs n ++ rest /\ forall n', visited (<[i:=n']> t) ≡ₚ node_pairs n' ++ rest.
Proof.
  revert i. induction t as [|x t IH]; intros [|i] Hi; [done|done| |].
  - injection Hi as ->. exists (visited t). split; [apply Permutation_app_comm|]. intros n'. apply Permutation_app_comm.
  - destruct (IH i Hi) as (rest & H1 & H2). exists (rest ++ node_pairs x). split; [|intros n']; cbn [visited insert list_insert].
    + rewrite H1. by rewrite app_assoc.
    + change (<[i:=n']> t) with (<[i:=n']> t). rewrite H2. by rewrite app_assoc.
Qed.

Lemma visited_node (t : list (DictNode V)) i n p : t.[i] = Some n -> p ∈ node_pairs n -> p ∈ visited t.
Proof.
  intros Hi Hp. apply aget_lookup in Hi. destruct (visited_split t _ n Hi) as (rest & E & _). rewrite E. apply elem_of_app. by left.
Qed.

Lemma visited_inv (t : list (DictNode V)) p : p ∈ visited t -> exists i n, t.[i] = Some n /\ p ∈ node_pairs n.
Proof.
  induction t as [|x t IH]; cbn [visited]; [by intros ?%elem_of_nil|]. intros [Hp|Hp]%elem_of_app.
  - destruct (IH Hp) as (i & n & Hi & Hn). exists (i + 1), n. pose proof (aget_Some_inv _ _ _ Hi). rewrite aget_cons, Z.add_simpl_r by lia. done.
  - by exists 0, x.
Qed.

(** ** The table *)

Lemma primes_positive i p : HT_PRIMES.[i] = Some p -> 0 < p.
Proof.
  intros H. assert (Forall (fun p => 0 < p) HT_PRIMES) as Hp by (repeat constructor). exact (proj1 (Forall_aget _ _) Hp i p H).
Qed.

Lemma slot_range d key : shaped d -> exists n, (table d).[slot d key] = Some n.
Proof.
  intros Hd. pose proof (sh_size d Hd) as Hs. pose proof (primes_positive _ _ Hs). unfold slot, hash. rewrite Hs. apply aget_Some. by apply Z.mod_pos_bound.
Qed.

Lemma keys_perm l l' : l ≡ₚ l' -> keys_of l ≡ₚ keys_of l'.
Proof. apply Permutation_map. Qed.

Lemma keys_app l l' : keys_of (l ++ l') = keys_of l ++ keys_of l'.
Proof. apply map_app. Qed.

Lemma node_keys d i n : shaped d -> (table d).[i] = Some n -> NoDup (keys_of (node_pairs n)).
Proof.
  intros Hd Hi. apply aget_lookup in Hi. destruct (visited_split _ _ _ Hi) as (rest & E & _). pose proof (sh_keys d Hd) as Hk. unfold pairs in Hk.
  rewrite (keys_perm _ _ E), keys_app in Hk. by apply NoDup_app in Hk as (? & _ & _).
Qed.

Lemma node_find_means d M key n : shaped d -> means d M -> (table d).[slot d key] = Some n -> node_find n key = M key.
Proof.
  intros Hd HM Hn. rewrite node_find_pairs. pose proof (node_keys d _ n Hd Hn) as Hk. destruct (M key) as [v|] eqn:E.
  - apply HM in E. apply visited_inv in E as (i & n' & Hi & Hp). pose proof (sh_place d Hd i n' key v Hi Hp) as <-.
    assert (n' = n) as -> by congruence. by apply block_find_spec.
  - destruct (block_find (node_pairs n) key) as [v|] eqn:E2; [|done]. apply block_find_spec in E2; [|done].
    pose proof (visited_node _ _ _ _ Hn E2) as Hv. apply HM in Hv. congruence.
Qed.

Lemma htFind_spec d M key : shaped d -> means d M -> htFind d key = Some (M key).
Proof.
  intros Hd HM. unfold htFind. destruct (slot_range d key Hd) as [n Hn]. rewrite Hn. ored. by rewrite (node_find_means d M key n).
Qed.

(** Exchanging the node of a key. *)
Lemma set_node_spec d key n n' rest :
  shaped d -> (table d).[slot d key] = Some n ->
  (forall k v, (k, v) ∈ node_pairs n' -> slot d k = slot d key) -> (forall l, n' = NBlock l -> (2 <= length l)%nat) ->
  pairs d ≡ₚ node_pairs n ++ rest -> (forall x, visited (<[Z.to_nat (slot d key):=x]> (table d)) ≡ₚ node_pairs x ++ rest) ->
  NoDup (keys_of (node_pairs n' ++ rest)) ->
  exists d', set_node d (slot d key) n' = Some d' /\ shaped d' /\ pairs d' ≡ₚ node_pairs n' ++ rest /\
    sizeIndex d' = sizeIndex d /\ entries d' = entries d /\ zlen (table d') = zlen (table d).
Proof.
  intros Hd Hn Hplace Hblock E1 E2 Hk. pose proof (aget_Some_inv _ _ _ Hn) as Hr. unfold set_node. rewrite aset_Some by done. ored.
  eexists. split; [done|]. split; [|split; [|split; [done|split; [done|apply zlen_insert]]]].
  2: { unfold pairs. cbn [table]. apply E2. }
  split; cbn [sizeIndex maxEntries table].
  - rewrite zlen_insert. apply Hd.
  - rewrite zlen_insert. apply Hd.
  - intros i x k v. rewrite aget_insert by done. destruct (Z.eqb_spec (slot d key) i) as [<-|Hne].
    + intros [= <-]. apply Hplace.
    + apply (sh_place d Hd).
  - intros i l. rewrite aget_insert by done. destruct (Z.eqb_spec (slot d key) i) as [<-|Hne]; [intros E; injection E as E; by apply Hblock|apply (sh_blocks d Hd)].
  - unfold pairs. cbn [table]. by rewrite (keys_perm _ _ (E2 n')).
Qed.

(** What [means] says under permutations. *)
Lemma means_replace d d' M key v w rest :
  means d M -> NoDup (keys_of (pairs d)) -> pairs d ≡ₚ (key, v) :: rest -> pairs d' ≡ₚ (key, w) :: rest -> means d' (upd M key (Some w)).
Proof.
  intros HM Hk E E' k x. rewrite E', elem_of_cons. unfold upd. rewrite (keys_perm _ _ E) in Hk. apply NoDup_cons in Hk as [Hk _].
  assert (forall y, (key, y) ∉ rest) as Hno.
  { intros y Hy. apply Hk, list_elem_of_In, in_map_iff. exists (key, y). split; [done|]. by apply list_elem_of_In. }
  destruct (decide (k = key)) as [->|Hne].
  - split; [intros [[= ->]|Hin]; [done|exfalso; by apply (Hno x)]|intros [= ->]; by left].
  - rewrite <- (HM k x), E, elem_of_cons. split; (intros [[= ->]|]; [done|by right]).
Qed.

Lemma means_delete d d' M key v :
  means d M -> NoDup (keys_of (pairs d)) -> pairs d ≡ₚ (key, v) :: pairs d' -> means d' (upd M key None).
Proof.
  intros HM Hk E k x. unfold upd. rewrite (keys_perm _ _ E) in Hk. apply NoDup_cons in Hk as [Hk _]. destruct (decide (k = key)) as [->|Hne].
  - split; [|done]. intros Hin. exfalso. apply Hk, list_elem_of_In, in_map_iff. exists (key, x). split; [done|]. by apply list_elem_of_In.
  - rewrite <- (HM k x), E, elem_of_cons. split; [by right|]. intros [[= ->]|]; done.
Qed.

Lemma means_insert d d' M key w :
  means d M -> M key = None -> pairs d' ≡ₚ (key, w) :: pairs d -> means d' (upd M key (Some w)).
Proof.
  intros HM E0 E k x. rewrite E, elem_of_cons, (HM k x). unfold upd. destruct (decide (k = key)) as [->|Hne].
  - rewrite E0. split; [by intros [[= ->]|]|intros [= ->]; by left].
  - split; [intros [[= ->]|]; done|by right].
Qed.

(** The node of a key, and the other pairs. *)
Lemma node_rest d key n : shaped d -> (table d).[slot d key] = Some n ->
  exists rest, pairs d ≡ₚ node_pairs n ++ rest /\ forall x, visited (<[Z.to_nat (slot d key):=x]> (table d)) ≡ₚ node_pairs x ++ rest.
Proof. intros Hd Hn. apply visited_split. by apply aget_lookup. Qed.

Lemma key_absent d M key : means d M -> M key = None -> key ∉ keys_of (pairs d).
Proof.
  intros HM E Hin. apply list_elem_of_In, in_map_iff in Hin as ([k v] & Ek & Hin). cbn in Ek. subst k. apply list_elem_of_In in Hin. apply HM in Hin. congruence.
Qed.

Lemma add_spec d M key value n : shaped d -> means d M -> M key = None -> (table d).[slot d key] = Some n ->
  exists d', set_node d (slot d key) (node_add n key value) = Some d' /\ shaped d' /\ means d' (upd M key (Some value)) /\
    pairs d' ≡ₚ (key, value) :: pairs d /\ sizeIndex d' = sizeIndex d /\ entries d' = entries d /\ zlen (table d') = zlen (table d).
Proof.
  intros Hd HM E Hn. destruct (node_rest d key n Hd Hn) as (rest & E1 & E2).
  assert (node_pairs (node_add n key value) ++ rest ≡ₚ (key, value) :: pairs d) as Ep.
  { rewrite node_add_pairs, E1, <- app_assoc. cbn [app]. symmetry. apply Permutation_middle. }
  destruct (set_node_spec d key n (node_add n key value) rest Hd Hn) as (d' & Es & Hd' & Ep' & Hsame); try done.
  - intros k v. rewrite node_add_pairs, elem_of_app, list_elem_of_singleton. intros [Hin|[= -> ->]]; [by apply (sh_place d Hd (slot d key) n k v)|done].
  - intros l. destruct n as [|k v|l0]; cbn [node_add]; [done|by intros [= <-]|]. intros [= <-]. rewrite length_app. pose proof (sh_blocks d Hd _ _ Hn). lia.
  - rewrite (keys_perm _ _ Ep). apply NoDup_cons. split; [by apply (key_absent d M)|apply Hd].
  - exists d'. rewrite Ep in Ep'. split; [done|]. split; [done|]. split; [by apply (means_insert d)|]. done.
Qed.

Lemma replace_spec d M key value v n : shaped d -> means d M -> M key = Some v -> (table d).[slot d key] = Some n ->
  exists d', set_node d (slot d key) (node_set n key value) = Some d' /\ shaped d' /\ means d' (upd M key (Some value)) /\
    keys_of (pairs d') ≡ₚ keys_of (pairs d) /\ sizeIndex d' = sizeIndex d /\ entries d' = entries d /\ zlen (table d') = zlen (table d).
Proof.
  intros Hd HM E Hn. pose proof (node_find_means d M key n Hd HM Hn) as Hf. rewrite E in Hf. destruct (node_rest d key n Hd Hn) as (rest & E1 & E2).
  pose proof Hf as Hb. rewrite node_find_pairs in Hb. pose proof (block_del_perm _ _ _ Hb) as P1. pose proof (block_set_perm _ _ _ value Hb) as P2.
  assert (pairs d ≡ₚ (key, v) :: block_del (node_pairs n) key ++ rest) as Q1 by (rewrite E1; rewrite P1 at 1; done).
  destruct (set_node_spec d key n (node_set n key value) rest Hd Hn) as (d' & Es & Hd' & Ep' & Hsame); try done.
  - intros k x. rewrite (node_set_pairs n key value v Hf), P2, elem_of_cons. intros [[= -> ->]|Hin]; [done|].
    apply (sh_place d Hd (slot d key) n k x Hn). rewrite P1. by apply list_elem_of_further.
  - intros l. destruct n as [|k w|l0]; cbn [node_set]; [done|done|]. intros [= <-]. cbn [node_pairs] in P1, P2. rewrite (Permutation_length P2).
    pose proof (sh_blocks d Hd _ _ Hn) as Hl. by rewrite (Permutation_length P1) in Hl.
  - rewrite (node_set_pairs n key value v Hf), keys_app, (keys_perm _ _ P2). pose proof (sh_keys d Hd) as Hk. by rewrite (keys_perm _ _ Q1) in Hk; cbn [keys_of map fst] in *; rewrite map_app in Hk.
  - rewrite (node_set_pairs n key value v Hf), P2 in Ep'. exists d'. split; [done|]. split; [done|]. split.
    + apply (means_replace d d' M key v value (block_del (node_pairs n) key ++ rest)); [done|apply Hd|done|done].
    + split; [|done]. rewrite (keys_perm _ _ Ep'), (keys_perm _ _ Q1). done.
Qed.

Lemma delete_spec d M key v n : shaped d -> means d M -> M key = Some v -> (table d).[slot d key] = Some n ->
  exists d', set_node d (slot d key) (node_del n key) = Some d' /\ shaped d' /\ means d' (upd M key None) /\
    pairs d ≡ₚ (key, v) :: pairs d' /\ sizeIndex d' = sizeIndex d /\ entries d' = entries d /\ zlen (table d') = zlen (table d).
Proof.
  intros Hd HM E Hn. pose proof (node_find_means d M key n Hd HM Hn) as Hf. rewrite E in Hf. destruct (node_rest d key n Hd Hn) as (rest & E1 & E2).
  pose proof Hf as Hb. rewrite node_find_pairs in Hb. pose proof (block_del_perm _ _ _ Hb) as P1.
  assert (pairs d ≡ₚ (key, v) :: block_del (node_pairs n) key ++ rest) as Q1 by (rewrite E1; rewrite P1 at 1; done).
  pose proof (sh_keys d Hd) as Hk. rewrite (keys_perm _ _ Q1) in Hk. apply NoDup_cons in Hk as [_ Hk].
  destruct (set_node_spec d key n (node_del n key) rest Hd Hn) as (d' & Es & Hd' & Ep' & Hsame); try done.
  - intros k x. rewrite (node_del_pairs n key v Hf). intros Hin. apply (sh_place d Hd (slot d key) n k x Hn). rewrite P1. by apply list_elem_of_further.
  - intros l. destruct n as [|k w|l0]; cbn [node_del]; [done|done|]. cbn [node_pairs] in P1. pose proof (sh_blocks d Hd _ _ Hn) as Hl.
    rewrite (Permutation_length P1) in Hl. cbn [length] in Hl. destruct (block_del l0 key) as [|[a b] [|y l1]]; cbn [length] in Hl; [lia|done|].
    intros [= <-]. cbn [length]. lia.
  - by rewrite (node_del_pairs n key v Hf).
  - rewrite (node_del_pairs n key v Hf) in Ep'. exists d'. split; [done|]. split; [done|]. rewrite <- Ep' in Q1. split; [|done].
    apply (means_delete d d' M key v); [done|apply Hd|done].
Qed.
End dictionaries.
End DictionarySpec.
