(* ===== verification/DictionaryTables.v ===== *)
(** * The size of dictionaries

    Rebuilding a table keeps its pairs; the limits of the 46 table sizes leave room for one more
    pair after [resize] and [compactify]. *)
From S2P Require Import Prelude Word32 Sort Feature Arity SRecord Dictionary DictionarySpec.

Module DictionaryTables.
Import Feature Dictionary DictionarySpec.

(** The largest number of pairs: the limit of the last table size. *)
Definition capacity : Z := max_entries maxTabSize.

Section dictionaries.
Context `{env : LitEnv} {V : Type}.
Implicit Types (d : DictHashTable V) (n : DictNode V) (l : list (Feature * V)) (key : Feature) (value : V) (M : Feature -> option V).

(** [compactify] leaves one pair in a table of one node, although its limit is 0. *)
Definition fits d : Prop := entries d <= maxEntries d \/ sizeIndex d = 0 /\ entries d = 1.

Record well d : Prop := {
  we_shape : shaped d;
  we_entries : entries d = zlen (pairs d);
  we_fits : fits d
}.

Lemma means_perm d d' M : pairs d' ≡ₚ pairs d -> means d M -> means d' M.
Proof. intros E HM k v. by rewrite E. Qed.

Lemma means_exists d : shaped d -> means d (fun k => block_find (pairs d) k).
Proof. intros Hd k v. symmetry. apply block_find_spec, Hd. Qed.

Lemma absent_find d key : shaped d -> key ∉ keys_of (pairs d) -> block_find (pairs d) key = None.
Proof.
  intros Hd Hk. destruct (block_find (pairs d) key) as [v|] eqn:E; [|done]. apply block_find_spec in E; [|apply Hd].
  exfalso. apply Hk, list_elem_of_In, in_map_iff. exists (key, v). split; [done|]. by apply list_elem_of_In.
Qed.

(** Two tables that differ in their pairs only. *)
Definition same_size d d' : Prop := sizeIndex d' = sizeIndex d /\ entries d' = entries d /\ zlen (table d') = zlen (table d).

Lemma same_size_trans d d1 d2 : same_size d d1 -> same_size d1 d2 -> same_size d d2.
Proof. unfold same_size. intros (? & ? & ?) (? & ? & ?). split_and!; congruence. Qed.

Lemma htReAdd_spec d key value : shaped d -> key ∉ keys_of (pairs d) ->
  exists d', htReAdd d key value = Some d' /\ shaped d' /\ pairs d' ≡ₚ (key, value) :: pairs d /\ same_size d d'.
Proof.
  intros Hd Hk. pose proof (means_exists d Hd) as HM. pose proof (absent_find d key Hd Hk) as Hn.
  unfold htReAdd. rewrite (htFind_spec d _ key Hd HM), Hn. ored. destruct (slot_range d key Hd) as [n En]. rewrite En. ored.
  destruct (add_spec d _ key value n Hd HM Hn En) as (d' & E & Hd' & _ & Hp & Hs). by exists d'.
Qed.

Lemma readd_block_spec l d : shaped d -> NoDup (keys_of (l ++ pairs d)) ->
  exists d', readd_block d l = Some d' /\ shaped d' /\ pairs d' ≡ₚ l ++ pairs d /\ same_size d d'.
Proof.
  revert d. induction l as [|[k v] l IH]; intros d Hd Hk; cbn [readd_block app] in *; [by exists d|].
  apply NoDup_cons in Hk as [Hin Hk]. fold (keys_of (l ++ pairs d)) in *. change (k ∉ keys_of (l ++ pairs d)) in Hin.
  destruct (htReAdd_spec d k v Hd) as (d1 & -> & Hd1 & Hp1 & Hs1); [intros H; apply Hin; rewrite keys_app; apply elem_of_app; by right|]. ored.
  assert (l ++ pairs d1 ≡ₚ (k, v) :: l ++ pairs d) as Ep by (rewrite Hp1; symmetry; apply Permutation_middle).
  destruct (IH d1 Hd1) as (d2 & -> & Hd2 & Hp2 & Hs2).
  - rewrite (keys_perm _ _ Ep). by apply NoDup_cons.
  - exists d2. split; [done|]. split; [done|]. split; [by rewrite Hp2|by apply (same_size_trans d d1)].
Qed.

Lemma readd_node_spec n d : shaped d -> NoDup (keys_of (node_pairs n ++ pairs d)) ->
  exists d', readd_node d n = Some d' /\ shaped d' /\ pairs d' ≡ₚ node_pairs n ++ pairs d /\ same_size d d'.
Proof.
  intros Hd Hk. destruct n as [|k v|l]; cbn [readd_node node_pairs] in *; [by exists d| |by apply readd_block_spec].
  apply htReAdd_spec; [done|]. by apply NoDup_cons in Hk as [? _].
Qed.

Lemma readd_nodes_spec (old : list (DictNode V)) d : shaped d -> NoDup (keys_of (visited old ++ pairs d)) ->
  exists d', readd_nodes d old = Some d' /\ shaped d' /\ pairs d' ≡ₚ visited old ++ pairs d /\ same_size d d'.
Proof.
  revert d. induction old as [|n old IH]; intros d Hd Hk; cbn [readd_nodes visited] in *; [by exists d|].
  rewrite <- app_assoc in Hk. assert (NoDup (keys_of (node_pairs n ++ pairs d))) as Hk1.
  { rewrite keys_app in Hk. by apply NoDup_app in Hk as (_ & _ & ?). }
  destruct (readd_node_spec n d Hd Hk1) as (d1 & -> & Hd1 & Hp1 & Hs1). ored.
  assert (visited old ++ pairs d1 ≡ₚ visited old ++ node_pairs n ++ pairs d) as Ep by (by rewrite Hp1).
  destruct (IH d1 Hd1) as (d2 & -> & Hd2 & Hp2 & Hs2); [by rewrite (keys_perm _ _ Ep)|].
  exists d2. split; [done|]. split; [done|]. split; [by rewrite Hp2, Ep, app_assoc|by apply (same_size_trans d d1)].
Qed.

(** ** New tables *)

Lemma zlen_replicate k (x : DictNode V) : zlen (replicate k x) = Z.of_nat k.
Proof. unfold zlen. by rewrite length_replicate. Qed.

Lemma visited_empty k : visited (replicate k (@NEmpty V)) = [].
Proof. induction k as [|k IH]; [done|]. cbn [replicate visited node_pairs]. by rewrite IH. Qed.

Lemma sizes_primes i p : HT_PRIMES.[i] = Some p -> dictHTSizes.[i] = Some p.
Proof. intros H. pose proof (aget_Some_inv _ _ _ H). unfold dictHTSizes. by rewrite aget_app_l by lia. Qed.

Lemma mkEmpty_spec i p : HT_PRIMES.[i] = Some p ->
  exists d, mkEmpty i = Some d /\ shaped d /\ pairs d = [] /\ sizeIndex d = i /\ entries d = 0 /\ maxEntries d = max_entries p.
Proof.
  intros Hp. pose proof (primes_positive _ _ Hp) as Hpos. unfold mkEmpty. rewrite (sizes_primes _ _ Hp). ored. eexists. split; [done|].
  unfold pairs. cbn [table sizeIndex entries maxEntries]. rewrite visited_empty. split; [|done]. split; cbn [table sizeIndex maxEntries].
  - rewrite zlen_replicate, Z2Nat.id by lia. done.
  - rewrite zlen_replicate, Z2Nat.id by lia. done.
  - intros j n k v Hj Hin. apply aget_lookup, lookup_replicate in Hj as [-> _]. by apply elem_of_nil in Hin.
  - intros j l Hj. apply aget_lookup, lookup_replicate in Hj as [[=] _].
  - unfold pairs. cbn [table]. rewrite visited_empty. constructor.
Qed.

Lemma rebuild_spec d i p : NoDup (keys_of (pairs d)) -> HT_PRIMES.[i] = Some p ->
  exists d', rebuild d i = Some d' /\ shaped d' /\ pairs d' ≡ₚ pairs d /\ sizeIndex d' = i /\ entries d' = entries d /\ maxEntries d' = max_entries p.
Proof.
  intros Hk Hp. destruct (mkEmpty_spec i p Hp) as (n & En & Hn & Epn & Ei & Ee & Em). unfold rebuild. rewrite En. ored.
  assert (pairs (set_entries n (entries d)) = []) as Ep by done.
  assert (shaped (set_entries n (entries d))) as Hn' by (destruct Hn; by split).
  destruct (readd_nodes_spec (table d) _ Hn') as (d' & E & Hd' & Hp' & Hi & He & Hz); [by rewrite Ep, app_nil_r|].
  rewrite Ep, app_nil_r in Hp'. exists d'. split; [done|]. split; [done|]. split; [done|]. split; [by rewrite Hi|]. split; [by rewrite He|].
  rewrite (sh_max d' Hd'), Hz. cbn [set_entries table]. by rewrite <- (sh_max n Hn).
Qed.

(** ** The limits *)

Lemma sizes_grow i p : HT_PRIMES.[i] = Some p -> i < 45 ->
  exists q, HT_PRIMES.[i + 1] = Some q /\ max_entries p + 1 <= max_entries q /\ 10 * (q / 4 - 1) / 7 <= p /\ p < q.
Proof.
  intros Hp Hi. pose proof (aget_Some_inv _ _ _ Hp) as Hr.
  assert (forallb (fun i => match HT_PRIMES.[i], HT_PRIMES.[i + 1] with
            | Some p, Some q => (max_entries p + 1 <=? max_entries q) && (10 * (q / 4 - 1) / 7 <=? p) && (p <? q) | _, _ => false end) (map Z.of_nat (seq 0 45)) = true) as Hall by (vm_compute; reflexivity).
  rewrite forallb_forall in Hall. specialize (Hall i). rewrite Hp in Hall. destruct (HT_PRIMES.[i + 1]) as [q|]; [|exfalso].
  - exists q. split; [done|]. assert (In i (map Z.of_nat (seq 0 45))) as Hin by (apply in_map_iff; exists (Z.to_nat i); rewrite in_seq; lia).
    specialize (Hall Hin). rewrite !andb_true_iff in Hall. lia.
  - assert (In i (map Z.of_nat (seq 0 45))) as Hin by (apply in_map_iff; exists (Z.to_nat i); rewrite in_seq; lia). by specialize (Hall Hin).
Qed.

Lemma last_size i p : HT_PRIMES.[i] = Some p -> ~ i < 45 -> i = 45 /\ max_entries p = capacity.
Proof.
  intros Hp Hi. pose proof (aget_Some_inv _ _ _ Hp) as Hr. change (zlen HT_PRIMES) with 46 in Hr. assert (i = 45) as -> by lia.
  vm_compute in Hp. by injection Hp as <-.
Qed.

(** One more pair. *)
Lemma count_entry_spec d : shaped d -> fits d -> entries d + 1 = zlen (pairs d) -> entries d < capacity ->
  exists d', count_entry d = Some d' /\ well d' /\ pairs d' ≡ₚ pairs d.
Proof.
  intros Hd Hf He Hc. unfold count_entry. cbn [set_entries maxEntries entries]. destruct (Z.ltb_spec (maxEntries d) (entries d + 1)).
  - pose proof (sh_size d Hd) as Hs. pose proof (sh_max d Hd) as Hm. destruct (decide (sizeIndex d < 45)) as [Hi|Hi].
    + destruct (sizes_grow _ _ Hs Hi) as (q & Hq & Hg & _ & _). unfold resize. cbn [sizeIndex].
      destruct (rebuild_spec (set_entries d (entries d + 1)) (sizeIndex d + 1) q) as (d' & E & Hd' & Hp & Hi' & He' & Hm'); [apply Hd|done|].
      exists d'. split; [done|]. assert (pairs d' ≡ₚ pairs d) as Hp' by exact Hp. split; [|done]. split; [done|..].
      * rewrite He'. cbn [set_entries entries]. rewrite He. unfold zlen. by rewrite (Permutation_length Hp').
      * left. rewrite He', Hm'. cbn [set_entries entries]. destruct Hf as [?|[Hi0 ->]]; [lia|].
        rewrite Hi0 in Hq. vm_compute in Hq. injection Hq as <-. by vm_compute.
    + destruct (last_size _ _ Hs Hi) as [_ El]. lia.
  - eexists. split; [done|]. split; [|done]. split; [destruct Hd; by split|done|]. by left.
Qed.
End dictionaries.
End DictionaryTables.
