(* ===== verification/DictionaryOps.v ===== *)
(** * The operations of dictionaries

    Every operation against the map its table stands for: changing, removing, shrinking, copying,
    listing, and the record of a dictionary. *)
From S2P Require Import Prelude Word32 Sort Feature Arity ArityLookup ArityTables SRecord RecordSpec RecordUpdates Dictionary DictionarySpec DictionaryTables.

Module DictionaryOps.
Import Feature Dictionary DictionarySpec DictionaryTables.

Section operations.
Context `{env : LitEnv} {V : Type}.
Implicit Types (d : DictHashTable V) (n : DictNode V) (l : list (Feature * V)) (key : Feature) (value : V) (M : Feature -> option V).

Lemma same_pairs_length d d' : pairs d' ≡ₚ pairs d -> zlen (pairs d') = zlen (pairs d).
Proof. intros E. unfold zlen. by rewrite (Permutation_length E). Qed.

Lemma fits_same d d' : shaped d -> shaped d' -> same_size d d' -> fits d -> fits d'.
Proof. intros Hd Hd' (Hi & He & Hz). unfold fits. by rewrite Hi, He, (sh_max d Hd), (sh_max d' Hd'), Hz. Qed.

(** ** Changing the map *)

Lemma put_spec d M key value createFlag : well d -> means d M -> zlen (pairs d) < capacity ->
  exists d', put d key value createFlag = Some (M key, d') /\ well d' /\
    means d' (match M key with None => if createFlag then upd M key (Some value) else M | Some _ => upd M key (Some value) end).
Proof.
  intros [Hd He Hf] HM Hc. unfold put. destruct (slot_range d key Hd) as [n Hn]. rewrite Hn. ored. rewrite (node_find_means d M key n Hd HM Hn).
  destruct (M key) as [old|] eqn:E.
  - destruct (replace_spec d M key value old n Hd HM E Hn) as (d' & -> & Hd' & HM' & Hp & Hs). ored. exists d'. split; [done|]. split; [|done].
    split; [done| |by apply (fits_same d)]. destruct Hs as (_ & -> & _). rewrite He. unfold zlen. pose proof (Permutation_length Hp) as Hl. unfold keys_of in Hl.
    rewrite !length_map in Hl. by rewrite Hl.
  - destruct createFlag; [|by exists d].
    destruct (add_spec d M key value n Hd HM E Hn) as (d1 & -> & Hd1 & HM1 & Hp & Hs). ored.
    assert (zlen (pairs d1) = zlen (pairs d) + 1) as Hl by (unfold zlen; rewrite (Permutation_length Hp); cbn [length]; lia).
    assert (entries d1 = entries d) as Ee by apply Hs.
    destruct (count_entry_spec d1) as (d' & -> & Hw & Hp'); [done|by apply (fits_same d)|lia|lia|]. ored.
    exists d'. split; [done|]. split; [done|]. by apply (means_perm d1).
Qed.

Lemma htDel_spec d M key : well d -> means d M ->
  exists d', htDel d key = Some d' /\ well d' /\ means d' (upd M key None) /\ entries d' = entries d - (match M key with Some _ => 1 | None => 0 end).
Proof.
  intros [Hd He Hf] HM. unfold htDel. destruct (slot_range d key Hd) as [n Hn]. rewrite Hn. ored. rewrite (node_find_means d M key n Hd HM Hn).
  destruct (M key) as [old|] eqn:E.
  - destruct (delete_spec d M key old n Hd HM E Hn) as (d' & -> & Hd' & HM' & Hp & Hs). ored.
    assert (zlen (pairs d) = zlen (pairs d') + 1) as Hl by (unfold zlen; rewrite (Permutation_length Hp); cbn [length]; lia).
    assert (entries d' = entries d) as Ee by apply Hs. pose proof (zlen_nonneg (pairs d')).
    destruct (Z.ltb_spec (entries d' - 1) 0); [lia|]. eexists. split; [done|]. split; [|split; [done|cbn [set_entries entries]; lia]].
    split; [destruct Hd'; by split| |].
    + change (pairs (set_entries d' (entries d' - 1))) with (pairs d'). cbn [set_entries entries]. lia.
    + pose proof (fits_same d d' Hd Hd' Hs Hf) as [?|[? ?]]; left; cbn [set_entries entries maxEntries]; [lia|].
      assert (0 <= maxEntries d'); [|lia]. rewrite (sh_max d' Hd'). unfold max_entries. pose proof (zlen_nonneg (table d')). Z.div_mod_to_equations. lia.
  - exists d. split; [done|]. split; [done|]. split; [|lia]. intros k v. rewrite (HM k v). unfold upd. destruct (decide (k = key)) as [->|]; [by rewrite E|done].
Qed.

(** ** New tables *)

Lemma init_index_spec (sizes rest : list Z) size k : Exists (fun s => size <= s) sizes ->
  exists i s, init_index (sizes ++ rest) size k = Some i /\ sizes.[i - k] = Some s /\ size <= s.
Proof.
  revert k. induction sizes as [|s sizes IH]; intros k He; [by apply Exists_nil in He|]. cbn [init_index app]. destruct (Z.ltb_spec s size).
  - apply Exists_cons in He as [?|He]; [lia|]. destruct (IH (k + 1) He) as (i & s' & E & Hi & Hs). exists i, s'. split; [done|]. split; [|done].
    pose proof (aget_Some_inv _ _ _ Hi). rewrite aget_cons by lia. by replace (i - k - 1) with (i - (k + 1)) by lia.
  - exists k, s. split; [done|]. by rewrite Z.sub_diag.
Qed.

Lemma init_spec size : 0 <= size <= maxTabSize ->
  exists d : DictHashTable V, init size = Some d /\ well d /\ pairs d = [] /\ entries d = 0 /\ size <= zlen (table d).
Proof.
  intros Hs. unfold init. destruct (Z.ltb_spec size 0), (Z.ltb_spec maxTabSize size); try lia. cbn [orb].
  destruct (init_index_spec HT_PRIMES [0] size 0) as (i & s & E & Hi & Hle).
  { apply Exists_exists. exists maxTabSize. split; [|lia]. apply (bool_decide_eq_true _). by vm_compute. }
  unfold dictHTSizes. rewrite E. ored. rewrite Z.sub_0_r in Hi. destruct (mkEmpty_spec (V := V) i s Hi) as (d & -> & Hd & Hp & Ei & Ee & Em).
  exists d. split; [done|]. pose proof (sh_size d Hd) as Hz. rewrite Ei in Hz. assert (zlen (table d) = s) by congruence.
  split; [|split; [done|split; [done|lia]]]. split; [done|by rewrite Hp|]. left. rewrite Ee, Em. unfold max_entries. pose proof (primes_positive _ _ Hi). Z.div_mod_to_equations. lia.
Qed.

Lemma copy_table d : shaped d -> copy d = Some d.
Proof.
  intros Hd. pose proof (sh_size d Hd) as Hs. pose proof (zlen_nonneg (table d)) as Hz. unfold copy. rewrite (sizes_primes _ _ Hs). ored.
  destruct (for_down_cells (fun i => default NEmpty (table d).[i]) (fun i an => n ← (table d).[i]; an.[i <- n]) (Z.to_nat (zlen (table d)))
    (replicate (Z.to_nat (zlen (table d))) NEmpty)) as (l & -> & Hl & Hj).
  - rewrite zlen_replicate. lia.
  - intros i a Hi _ _. destruct (aget_Some (table d) i) as [n ->]; [lia|]. done.
  - ored. rewrite zlen_replicate in Hl. assert (l = table d) as ->; [|by destruct d]. apply aget_ext; [lia|]. intros i Hi. rewrite Hj.
    destruct (aget_Some (table d) i) as [n ->]; [lia|].
    destruct (Z.leb_spec 0 i), (Z.ltb_spec i (Z.of_nat (Z.to_nat (zlen (table d))))); try lia. done.
Qed.

(** ** Shrinking *)

Lemma sizes_increase i p (k : nat) q : HT_PRIMES.[i] = Some p -> HT_PRIMES.[i + Z.of_nat k] = Some q -> p <= q.
Proof.
  revert i p. induction k as [|k IH]; intros i p Hp Hq; [rewrite Z.add_0_r in Hq; assert (p = q) by congruence; lia|].
  pose proof (aget_Some_inv _ _ _ Hp). pose proof (aget_Some_inv _ _ _ Hq) as Hr. change (zlen HT_PRIMES) with 46 in Hr.
  destruct (sizes_grow i p Hp) as (r & Hr' & _ & _ & Hlt); [lia|]. pose proof (IH (i + 1) r Hr') as Hi.
  replace (i + 1 + Z.of_nat k) with (i + Z.of_nat (S k)) in Hi by lia. specialize (Hi Hq). lia.
Qed.

Lemma shrink_index_spec (fuel : nat) i ts : -1 <= i < 46 -> i + 2 <= Z.of_nat fuel ->
  exists j, shrink_index fuel i ts = Some j /\ -1 <= j <= i /\ (forall k p, j < k <= i -> HT_PRIMES.[k] = Some p -> ts <= p) /\
    (forall p, HT_PRIMES.[j] = Some p -> p < ts).
Proof.
  revert i. induction fuel as [|fuel IH]; intros i Hi Hf; [lia|]. cbn [shrink_index]. destruct (Z.ltb_spec i 0).
  - exists i. split; [done|]. split; [lia|]. split; [lia|]. intros p Hp. pose proof (aget_Some_inv _ _ _ Hp). lia.
  - destruct (aget_Some HT_PRIMES i) as [s Hs]; [change (zlen HT_PRIMES) with 46; lia|]. rewrite (sizes_primes _ _ Hs). ored. destruct (Z.leb_spec ts s).
    + destruct (IH (i - 1)) as (j & -> & Hj & H1 & H2); [lia|lia|]. exists j. split; [done|]. split; [lia|]. split; [|done].
      intros k p Hk Hp. destruct (Z.eq_dec k i) as [->|]; [by assert (p = s) as -> by congruence|]. apply (H1 k p); [lia|done].
    + exists i. split; [done|]. split; [lia|]. split; [lia|]. intros p Hp. assert (p = s) by congruence. lia.
Qed.

(** [compactify] never fails, and afterwards at least a quarter of the nodes could be filled. *)
Lemma compactify_spec d : well d ->
  exists d', compactify d = Some d' /\ well d' /\ pairs d' ≡ₚ pairs d /\ entries d' = entries d /\
    zlen (table d') <= zlen (table d) /\ zlen (table d') / GDT_MINFULL <= entries d'.
Proof.
  intros [Hd He Hf]. pose proof (sh_size d Hd) as Hs. pose proof (zlen_nonneg (pairs d)) as Hp0. unfold compactify. rewrite (sizes_primes _ _ Hs). ored.
  set (old := zlen (table d)) in *. unfold GDT_MINFULL, ideal_size in *. destruct (Z.leb_spec (old / 4) (entries d)) as [Hle|Hlt].
  { exists d. split; [done|]. split; [done|]. split; [done|]. split; [done|]. split; [lia|done]. }
  pose proof (aget_Some_inv _ _ _ Hs) as Hr. change (zlen HT_PRIMES) with 46 in Hr.
  assert (sizeIndex d <> 0) as Hne by (intros E; rewrite E in Hs; injection Hs as Es; rewrite <- Es in Hlt; change (1 / 4) with 0 in Hlt; lia).
  destruct (aget_Some HT_PRIMES (sizeIndex d - 1)) as [p Hp]; [change (zlen HT_PRIMES) with 46; lia|].
  destruct (sizes_grow _ _ Hp) as (q & Hq & _ & Hg & Hpq); [lia|]. rewrite Z.sub_add in Hq. assert (q = old) as -> by congruence.
  assert (10 * entries d / 7 <= p) as Hideal by (clear -Hg Hlt; Z.div_mod_to_equations; lia).
  destruct (Z.ltb_spec (10 * entries d / 7) old); [|lia]. cbn [negb].
  destruct (shrink_index_spec (length dictHTSizes) (sizeIndex d - 1) (10 * entries d / 7)) as (j & Ej & Hj & H1 & H2); [lia|change (length dictHTSizes) with 47%nat; lia|].
  rewrite Ej. ored.
  assert (j < sizeIndex d - 1) as Hj'.
  { destruct (Z.eq_dec j (sizeIndex d - 1)) as [->|]; [|lia]. specialize (H2 p Hp). lia. }
  destruct (aget_Some HT_PRIMES (j + 1)) as [s Hs']; [change (zlen HT_PRIMES) with 46; lia|]. rewrite (sizes_primes _ _ Hs'). ored.
  pose proof (H1 (j + 1) s ltac:(lia) Hs') as Hts.
  assert (s <= p) as Hsp.
  { apply (sizes_increase (j + 1) s (Z.to_nat (sizeIndex d - 1 - (j + 1))) p Hs'). by replace (j + 1 + Z.of_nat (Z.to_nat (sizeIndex d - 1 - (j + 1)))) with (sizeIndex d - 1) by lia. }
  destruct (Z.ltb_spec s old); [|lia]. cbn [negb].
  destruct (rebuild_spec d (j + 1) s) as (d' & -> & Hd' & Hp' & Ei & Ee & Em); [apply Hd|done|]. exists d'. split; [done|].
  pose proof (sh_size d' Hd') as Hz. rewrite Ei in Hz. assert (zlen (table d') = s) as -> by congruence.
  split; [|split; [done|split; [done|split; [lia|]]]].
  - split; [done|rewrite Ee, He; symmetry; by apply same_pairs_length|]. unfold fits. rewrite Ee, Em, Ei. unfold max_entries.
    assert (s <> 2) as H2'.
    { intros ->. assert (Forall (fun p => p <> 2) HT_PRIMES) as Hall by (apply (bool_decide_eq_true _); by vm_compute). exact (proj1 (Forall_aget _ _) Hall _ _ Hs' eq_refl). }
    pose proof (primes_positive _ _ Hs'). destruct (Z.eq_dec (entries d) 1) as [E1|]; [right|left].
    + split; [|done]. rewrite E1 in H2. change (10 * 1 / 7) with 1 in H2. destruct (Z.eq_dec j (-1)) as [->|]; [done|].
      destruct (aget_Some HT_PRIMES j) as [r Hr']; [change (zlen HT_PRIMES) with 46; lia|]. pose proof (H2 r Hr'). pose proof (primes_positive _ _ Hr'). lia.
    + clear -Hts H2' n H3 He Hp0. Z.div_mod_to_equations. lia.
  - rewrite Ee. destruct (Z.eq_dec j (-1)) as [->|]; [injection Hs' as <-; change (1 / 4) with 0; lia|].
    destruct (aget_Some HT_PRIMES j) as [r Hr']; [change (zlen HT_PRIMES) with 46; lia|]. pose proof (H2 r Hr') as Hlt'.
    destruct (sizes_grow _ _ Hr') as (s' & Hs'' & _ & Hg' & _); [lia|]. assert (s' = s) as -> by congruence. clear -Hlt' Hg'. Z.div_mod_to_equations. lia.
Qed.
(** With a key that is found the flag does not count; without the flag a key that is not found changes nothing. *)
Lemma put_found_flag d M key value v : shaped d -> means d M -> M key = Some v -> put d key value true = put d key value false.
Proof. intros Hd HM E. unfold put. destruct (slot_range d key Hd) as [n Hn]. rewrite Hn. ored. by rewrite (node_find_means d M key n Hd HM Hn), E. Qed.

Lemma put_absent_unchanged d M key value : shaped d -> means d M -> M key = None -> put d key value false = Some (None, d).
Proof. intros Hd HM E. unfold put. destruct (slot_range d key Hd) as [n Hn]. rewrite Hn. ored. by rewrite (node_find_means d M key n Hd HM Hn), E. Qed.

(** Nothing can be added to a table without nodes. *)
Lemma readd_nodes_nowhere d (old : list (DictNode V)) : table d = [] -> (forall i l, old.[i] = Some (NBlock l) -> (2 <= length l)%nat) -> visited old <> [] -> readd_nodes d old = None.
Proof.
  intros Ht. assert (forall k v, htReAdd d k v = None) as Hno by (intros k v; unfold htReAdd, htFind; rewrite Ht; unfold aget; by destruct (0 <=? slot d k)).
  induction old as [|n old IH]; intros Hb Hv; [done|]. cbn [readd_nodes visited] in *.
  destruct n as [|k v|[|[k v] l]]; cbn [readd_node readd_block node_pairs] in *.
  - ored. rewrite app_nil_r in Hv. apply IH; [|done]. intros i l Hi. pose proof (aget_Some_inv _ _ _ Hi). apply (Hb (i + 1) l). by rewrite aget_cons, Z.add_simpl_r by lia.
  - by rewrite Hno.
  - specialize (Hb 0 [] eq_refl). cbn [length] in Hb. lia.
  - by rewrite Hno.
Qed.

(** The last table is full. *)
Lemma put_full d M key value : well d -> means d M -> M key = None -> entries d = capacity -> put d key value true = None.
Proof.
  intros [Hd He Hf] HM E Hc. unfold put. destruct (slot_range d key Hd) as [n Hn]. rewrite Hn. ored. rewrite (node_find_means d M key n Hd HM Hn), E.
  destruct (add_spec d M key value n Hd HM E Hn) as (d1 & -> & Hd1 & _ & Hp & Hi & Ee & Hz). ored.
  assert (sizeIndex d = 45 /\ maxEntries d = capacity) as [H45 Hm].
  { pose proof (sh_size d Hd) as Hs. rewrite (sh_max d Hd). destruct (decide (sizeIndex d < 45)) as [Hlt|Hge]; [|by apply last_size].
    exfalso. destruct Hf as [Hf|[_ Hf]]; [|rewrite Hc in Hf; by vm_compute in Hf]. rewrite (sh_max d Hd) in Hf.
    pose proof (aget_Some_inv _ _ _ Hs). assert (HT_PRIMES.[45] = Some maxTabSize) as Hl by by vm_compute.
    destruct (sizes_grow _ _ Hs Hlt) as (q & Hq & Hg & _). assert (q <= maxTabSize) as Hle.
    { apply (sizes_increase (sizeIndex d + 1) q (Z.to_nat (45 - (sizeIndex d + 1)))); [done|]. by replace (sizeIndex d + 1 + Z.of_nat (Z.to_nat (45 - (sizeIndex d + 1)))) with 45 by lia. }
    assert (max_entries q <= capacity) by (unfold capacity, max_entries; apply Z.div_le_mono; lia). lia. }
  unfold count_entry. cbn [set_entries maxEntries entries]. rewrite (sh_max d1 Hd1), Hz, <- (sh_max d Hd), Hm, Ee, Hc.
  destruct (Z.ltb_spec capacity (capacity + 1)); [|lia]. unfold resize, rebuild. cbn [set_entries sizeIndex]. rewrite Hi, H45. change (mkEmpty (45 + 1)) with (Some (DHT (@nil (DictNode V)) 46 0 0)). ored.
  rewrite readd_nodes_nowhere; [done|done|apply (sh_blocks d1 Hd1)|]. cbn [set_entries table]. intros En. change (pairs d1 = []) in En. rewrite En in Hp. by apply Permutation_nil_l in Hp.
Qed.
End operations.
End DictionaryOps.
