(* ===== verification/DictionaryTheorems.v ===== *)
(** * Dictionaries: the listings, the record of a dictionary, and the properties of the component *)
From Stdlib Require Import Sorted.
From S2P Require Import Prelude Word32 Sort Feature Arity ArityLookup ArityTables SRecord RecordSpec RecordUpdates RecordTheorems Dictionary DictionarySpec DictionaryTables DictionaryOps.

(** ** The listings and the record of a dictionary *)

Module DictionaryRecord.
Import Feature Arity ArityLookup ArityTables SRecord RecordSpec RecordUpdates Dictionary DictionarySpec DictionaryTables DictionaryOps.

Section listings.
Context `{env : LitEnv} {V : Type}.
Implicit Types (d : DictHashTable V) (l : list (Feature * V)) (key : Feature) (value : V) (M : Feature -> option V).

Lemma keys_of_means d M key : means d M -> key ∈ keys_of (pairs d) <-> M key <> None.
Proof.
  intros HM. unfold keys_of. rewrite list_elem_of_In, in_map_iff. split.
  - intros ([k v] & <- & Hin). apply list_elem_of_In, HM in Hin. cbn [fst]. by rewrite Hin.
  - intros Hk. destruct (M key) as [v|] eqn:E; [|done]. exists (key, v). split; [done|]. by apply list_elem_of_In, HM.
Qed.

Lemma getPairs_spec d M : shaped d -> means d M ->
  (forall k v, (k, v) ∈ getPairs d <-> M k = Some v) /\ getKeys d = map fst (getPairs d) /\ getItems d = map snd (getPairs d) /\ NoDup (getKeys d).
Proof.
  intros Hd HM. unfold getPairs, getKeys, getItems. split; [|split; [by rewrite map_rev|split; [by rewrite map_rev|]]].
  - intros k v. rewrite <- (HM k v). unfold pairs. rewrite !list_elem_of_In. symmetry. apply in_rev.
  - apply NoDup_ListNoDup, NoDup_rev, NoDup_ListNoDup, (sh_keys d Hd).
Qed.

Lemma getPairsInArray_spec d : well d -> getPairsInArray d = if entries d =? 0 then None else Some (pairs d).
Proof.
  intros [Hd He Hf]. pose proof (zlen_nonneg (pairs d)). unfold getPairsInArray. fold (pairs d).
  destruct (Z.leb_spec (entries d) 0), (Z.eqb_spec (entries d) 0); try lia; [done|]. destruct (Z.leb_spec (zlen (pairs d)) (entries d)); [done|lia].
Qed.
End listings.

Section records.
Context `{env : LitEnv} {Hok : LitOk env} {V : Type} (lo AtomCons : Z).
Implicit Types (d : DictHashTable V) (l : list (Feature * V)) (key : Feature) (value : V) (M : Feature -> option V) (t : ArityTable) (r : SRecord V) (fs : list Feature).

(** A sorted list without duplicates is sorted strictly. *)
Lemma sorted_strictly (r : list Feature) : StronglySorted (fun a b => featureCmp a b <= 0) r -> Forall (window lo) r -> NoDup r -> sorted lo r.
Proof using Hok.
  induction r as [|a r IH]; intros Hs Hw Hd; [apply sorted_nil|]. apply StronglySorted_inv in Hs as [Hs Ha]. apply Forall_cons in Hw as [Wa Wr].
  apply NoDup_cons in Hd as [Hin Hd]. apply sorted_cons. split; [done|]. split; [by apply IH|]. rewrite Forall_forall in *. intros b Hb.
  specialize (Ha b Hb). pose proof (featureCmp_zero lo a b Wa (Wr b Hb)) as Hz. assert (a <> b) by congruence. assert (featureCmp a b <> 0) by tauto. lia.
Qed.

Lemma arity_list_spec d M tail : well d -> means d M -> (forall k, M k <> None -> window lo k) -> entries d <= 2 ^ 31 ->
  exists fs, getArityList d tail = Some (fs ++ tail) /\ sorted lo fs /\ (forall k, k ∈ fs <-> M k <> None) /\ zlen fs = entries d.
Proof using Hok.
  intros [Hd He Hf] HM Hw Hn. pose proof (zlen_nonneg (pairs d)). unfold getArityList. fold (pairs d). destruct (Z.ltb_spec (entries d) 0); [lia|].
  assert (zlen (map fst (pairs d)) = zlen (pairs d)) as Hl by (unfold zlen; by rewrite length_map).
  destruct (Z.ltb_spec 0 (entries d)).
  - rewrite Hl. destruct (Z.eqb_spec (zlen (pairs d)) (entries d)); [|lia]. cbn [negb]. rewrite He, <- Hl.
    assert (Forall (window lo) (map fst (pairs d))) as Hwin by (apply Forall_forall; intros k Hk; apply Hw; by apply (keys_of_means d M)).
    destruct (sort_features lo (map fst (pairs d)) Hwin) as (r & -> & Hp & Hs); [lia|]. ored. exists r. split; [done|]. split.
    + apply sorted_strictly; [done|by rewrite Hp|rewrite Hp; apply (sh_keys d Hd)].
    + split; [intros k; rewrite Hp; by apply (keys_of_means d M)|]. unfold zlen. by rewrite (Permutation_length Hp).
  - exists []. split; [done|]. split; [apply sorted_nil|]. assert (pairs d = []) as E by (apply nil_length_inv; unfold zlen in *; lia).
    split; [intros k; rewrite <- (keys_of_means d M k HM), E; done|]. rewrite zlen_nil. lia.
Qed.

Lemma set_pairs_spec t r fs M l : table_ok t -> stands t r fs M -> (forall p, p ∈ l -> fst p ∈ fs) ->
  exists r', set_pairs t r l = Some r' /\ stands t r' fs (upds M l) /\ label r' = label r.
Proof.
  intros Ht. revert r M. induction l as [|[f v] l IH]; intros r M Hr Hin; cbn [set_pairs]; [by exists r|].
  pose proof (setFeature_spec t r fs M f v Ht Hr) as Hs. rewrite decide_True in Hs by apply (Hin (f, v) (list_elem_of_here _ _)).
  destruct Hs as (r1 & -> & Hr1 & El & _). ored. destruct (IH r1 (RecordSpec.upd M f v) Hr1) as (r' & E & Hr' & El').
  - intros p Hp. apply Hin. by right.
  - exists r'. split; [done|]. split; [done|congruence].
Qed.

Lemma upds_pairs (M0 : Feature -> option V) l f : NoDup (keys_of l) -> upds M0 l f = match block_find l f with Some v => Some v | None => M0 f end.
Proof.
  revert M0. induction l as [|[k v] l IH]; intros M0 Hk; [done|]. apply NoDup_cons in Hk as [Hin Hk]. cbn [upds fold_left block_find fst snd].
  change (fold_left (fun m p => RecordSpec.upd m (fst p) (snd p)) l (RecordSpec.upd M0 k v)) with (upds (RecordSpec.upd M0 k v) l). rewrite IH by done.
  rewrite featureEq_decides. unfold RecordSpec.upd. destruct (decide (f = k)) as [->|Hne].
  - rewrite bool_decide_eq_true_2 by done. destruct (block_find l k) as [w|] eqn:E; [|done]. apply block_find_spec in E; [|done]. exfalso. apply Hin.
    apply list_elem_of_In, in_map_iff. exists (k, w). split; [done|]. by apply list_elem_of_In.
  - by rewrite bool_decide_eq_false_2.
Qed.

Lemma toRecord_spec t d M lbl : table_ok t -> well d -> means d M -> (forall k, M k <> None -> window lo k) -> entries d <= 2 ^ 29 ->
  if entries d =? 0 then toRecord AtomCons t d lbl = Some (t, Label lbl)
  else exists t' x fs, toRecord AtomCons t d lbl = Some (t', Record_ x) /\ table_ok t' /\ extends t t' /\
    sorted lo fs /\ (forall k, k ∈ fs <-> M k <> None) /\ denotes AtomCons t' x lbl fs M.
Proof using Hok.
  intros Ht Hwd HM Hw Hn. pose proof Hwd as [Hd He Hf]. pose proof (zlen_nonneg (pairs d)). unfold toRecord. destruct (Z.ltb_spec (entries d) 0); [lia|].
  destruct (Z.eqb_spec (entries d) 0); [done|]. destruct (arity_list_spec d M [] Hwd HM Hw) as (fs & E & Hs & Hfs & Hl); [lia|]. rewrite app_nil_r in E. rewrite E. ored.
  destruct (ArityTables.find_spec t fs Ht) as (t' & p & a & -> & Ht' & Hx & Ha & Efs); [by apply (sorted_nodup lo)|lia|]. ored.
  destruct (newSRecord_spec (T := V) t' lbl p a Ht' Ha) as (r & -> & Hr & Elab & _); [rewrite Efs; lia|]. ored. rewrite Efs in Hr. fold (pairs d).
  destruct (set_pairs_spec t' r fs _ (pairs d) Ht' Hr) as (r' & -> & Hr' & El').
  { intros [k v] Hin. apply Hfs. apply HM in Hin. cbn [fst]. by rewrite Hin. }
  ored. assert (stands t' r' fs M) as HrM.
  { apply (stands_ext _ _ _ _ _ Hr'). intros f. rewrite upds_pairs by apply Hd. destruct (block_find (pairs d) f) as [v|] eqn:Ef.
    - apply block_find_spec in Ef; [|apply Hd]. symmetry. by apply HM.
    - destruct (M f) as [v|] eqn:Em; [|done]. apply HM in Em. apply (block_find_spec _ _ _ (sh_keys d Hd)) in Em. congruence. }
  assert (full fs M) as Hfull by (intros f; apply Hfs).
  destruct (normalize_record_spec AtomCons t' r' fs M Ht' HrM Hfull) as (x & -> & Hden). ored. exists t', x, fs. rewrite El', Elab in Hden. done.
Qed.
End records.
End DictionaryRecord.

Import Feature Arity ArityTables SRecord RecordUpdates Dictionary DictionarySpec DictionaryTables DictionaryOps DictionaryRecord.

Section properties.
Context {env : LitEnv} {V : Type}.
Implicit Types (d : OzDictionary V) (key : Feature) (value : V) (M : Feature -> option V).

(** [d] stands for the map [M]. *)
Definition holds d M : Prop := well (d_table d) /\ means (d_table d) M.

(** There is room for one more pair. *)
Definition has_room d : Prop := entries (d_table d) < capacity.

Lemma room_pairs d M : holds d M -> has_room d -> zlen (pairs (d_table d)) < capacity.
Proof. intros [[_ He _] _] Hr. unfold has_room in Hr. by rewrite <- He. Qed.

(** C29: A dictionary is a map from features to values: looking up, asking for membership, changing,
    exchanging with and without the creation flag, removing, emptying and cloning do to the hash
    table what the operations on maps do, through every collision, block and growth of the table,
    as long as there are fewer than 703314371 pairs. *)
Theorem dictionary_refines_map d M key value createFlag :
  holds d M -> has_room d ->
  getArg d key = Some (M key) /\ member d key = Some (match M key with Some _ => true | None => false end) /\
  (isEmpty d = true <-> forall k, M k = None) /\
  (exists d', setArg d key value = Some d' /\ holds d' (upd M key (Some value)) /\ dictFlags d' = dictFlags d) /\
  (exists d', exchange d key value createFlag = Some (match M key with Some _ => true | None => false end, M key, d') /\
     holds d' (match M key with None => if createFlag then upd M key (Some value) else M | Some _ => upd M key (Some value) end) /\
     dictFlags d' = dictFlags d) /\
  (exists d', remove d key = Some d' /\ holds d' (upd M key None) /\ dictFlags d' = dictFlags d) /\
  (exists d', removeAll d = Some d' /\ holds d' (fun _ => None) /\ isSafeDict d' = false) /\
  forall b, clone d b = Some (OzDict (d_table d) (dictFlags d) b).
Proof.
  intros Hd Hr. pose proof (room_pairs d M Hd Hr) as Hp. destruct Hd as [Hw HM]. pose proof (we_shape _ Hw) as Hs.
  assert (htFind (d_table d) key = Some (M key)) as Hfind by by apply htFind_spec.
  split; [done|]. split; [unfold member; by rewrite Hfind|]. split; [|split; [|split; [|split; [|split]]]].
  - unfold isEmpty. rewrite (we_entries _ Hw), Z.eqb_eq. split.
    + intros Hz k. destruct (M k) as [v|] eqn:E; [|done]. apply HM in E. assert (pairs (d_table d) = []) as En by (apply nil_length_inv; unfold zlen in *; lia).
      rewrite En in E. by apply elem_of_nil in E.
    + intros Hn. destruct (pairs (d_table d)) as [|[k v] l] eqn:E; [done|]. assert (M k = Some v) as Ek by (apply HM; rewrite E; by left). by rewrite Hn in Ek.
  - unfold setArg, htAdd. destruct (put_spec (d_table d) M key value true Hw HM Hp) as (t & -> & Hw' & HM'). ored. eexists. split; [done|]. split; [|done].
    split; [done|]. by destruct (M key).
  - unfold exchange, htExchange. destruct (put_spec (d_table d) M key value createFlag Hw HM Hp) as (t & -> & Hw' & HM'). ored. eexists. split; [done|]. by split.
  - unfold remove. destruct (htDel_spec (d_table d) M key Hw HM) as (t & -> & Hw' & HM' & _). ored. eexists. split; [done|]. by split.
  - unfold removeAll, oz_init. destruct (init_spec (V := V) DictDefaultSize) as (t & -> & Hw' & Hnil & _); [by vm_compute|]. ored. eexists. split; [done|].
    split; [|done]. split; [done|]. intros k v. cbn [d_table]. rewrite Hnil. split; [by intros ?%elem_of_nil|done].
  - intros b. unfold clone. rewrite copy_table by done. done.
Qed.

(** C30: The table stays well formed under its limits: a new dictionary of any size up to the last
    table size is empty and well formed; [compactify] fails none of its assertions, keeps the pairs
    and leaves a table that it would not shrink again; the table never grows past the last size,
    where one more key runs into a table of size 0. *)
Theorem dictionary_sizes (sz : Z) d M key value :
  0 <= sz <= maxTabSize -> holds d M ->
  (forall b, exists n : OzDictionary V, oz_init b sz = Some n /\ holds n (fun _ => None) /\ isEmpty n = true /\ sz <= zlen (table (d_table n))) /\
  (exists t, compactify (d_table d) = Some t /\ holds (set_table d t) M /\ zlen (table t) <= zlen (table (d_table d)) /\ compactify t = Some t) /\
  (M key = None -> entries (d_table d) = capacity -> setArg d key value = None).
Proof.
  intros Hsz [Hw HM]. split; [|split].
  - intros b. unfold oz_init. destruct (init_spec (V := V) sz Hsz) as (t & -> & Hw' & Hnil & He & Hz). ored. eexists. split; [done|]. cbn [d_table]. split; [|split; [|done]].
    + split; [done|]. intros k v. cbn [d_table]. rewrite Hnil. split; [by intros ?%elem_of_nil|done].
    + unfold isEmpty. cbn [d_table]. by rewrite He.
  - destruct (compactify_spec (d_table d) Hw) as (t & E & Hw' & Hp & _ & Hz & Hq). exists t. split; [done|]. split; [|split; [done|]].
    + split; [done|]. by apply (means_perm (d_table d)).
    + unfold compactify. rewrite (sizes_primes _ _ (sh_size _ (we_shape _ Hw'))). ored. destruct (Z.leb_spec (zlen (table t) / GDT_MINFULL) (entries t)); [done|lia].
  - intros E Hc. unfold setArg, htAdd. by rewrite (put_full (d_table d) M key value Hw HM E Hc).
Qed.

(** The requests whose builtin checks that the dictionary is of the current board. *)
Definition changes_entry (op : request V) : bool :=
  match op with OP_PUT _ _ | OP_EXCHANGE _ _ | OP_CONDEXCHANGE _ _ _ | OP_REMOVE _ => true | _ => false end.

(** C31: The builtins on a dictionary of this site and the operations that distributed dictionaries
    execute do the same, for every request, with three exceptions.  Below the toplevel the builtins that
    put, exchange (also conditionally) or remove raise an exception for a dictionary of another board, which the
    distributed operations never look at.  A conditional exchange at a feature that the dictionary
    does not have stores the new value in the builtin, as its description says, and leaves the
    dictionary as it is in the distributed operation.  The clone is an equal dictionary, but it
    belongs to the current board in the one case and to the root board in the other. *)
Theorem distributed_requests_agree (rootBoard currentBoard AtomCons : Z) (t : ArityTable) (op : request V) d M :
  holds d M -> has_room d ->
  let distributed := dictionaryOperation rootBoard AtomCons t op d in
  let local := local_builtin rootBoard currentBoard AtomCons t op d in
  if changes_entry op && negb (localBoard rootBoard currentBoard d) then local = Some (t, RAISE EX_globalState) /\ exists o, distributed = Some (t, o) /\ o <> RAISE EX_globalState
  else
    match op with
    | OP_CONDEXCHANGE key value deflt =>
        match M key with
        | Some _ => distributed = local
        | None =>
            distributed = Some (t, PROCEED (AValue deflt) d) /\
            exists d', local = Some (t, PROCEED (AValue deflt) d') /\ holds d' (upd M key (Some value))
        end
    | OP_CLONE =>
        distributed = Some (t, PROCEED (ADict (OzDict (d_table d) (dictFlags d) rootBoard)) d) /\
        local = Some (t, PROCEED (ADict (OzDict (d_table d) (dictFlags d) currentBoard)) d)
    | _ => distributed = local
    end.
Proof.
  intros Hd Hr. pose proof (room_pairs d M Hd Hr) as Hp. destruct Hd as [Hw HM]. cbv zeta. destruct (localBoard rootBoard currentBoard d) eqn:El.
  - rewrite andb_false_r. destruct op as [| | |key value|key value|key value deflt| |key| | | | | |]; cbn [dictionaryOperation local_builtin]; try reflexivity;
      unfold dictionaryPutInline, dictionaryExchangeInline, dictionaryCondExchangeInline, dictionaryRemoveInline; rewrite ?El; try reflexivity.
    + unfold dictCondExchange, exchange, htExchange.
      destruct (put_spec (d_table d) M key value true Hw HM Hp) as (t1 & E1 & Hw1 & HM1). destruct (put_spec (d_table d) M key value false Hw HM Hp) as (t2 & E2 & Hw2 & HM2).
      destruct (M key) as [old|] eqn:E.
      * assert (t1 = t2) as ->; [|by rewrite E1, E2].
        pose proof (put_found_flag (d_table d) M key value old (we_shape _ Hw) HM E) as Ef. rewrite E1, E2 in Ef. congruence.
      * rewrite E1, E2. ored. pose proof (put_absent_unchanged (d_table d) M key value (we_shape _ Hw) HM E) as Eu. rewrite E2 in Eu. injection Eu as ->. cbn [value_or].
        split; [by destruct d|]. eexists. split; [done|]. by split.
    + unfold dictClone, BIdictionaryClone, clone. by rewrite copy_table by apply Hw.
  - rewrite andb_true_r. destruct op as [| | |key value|key value|key value deflt| |key| | | | | |]; cbn [changes_entry dictionaryOperation local_builtin]; try reflexivity;
      unfold dictionaryPutInline, dictionaryExchangeInline, dictionaryCondExchangeInline, dictionaryRemoveInline; rewrite ?El.
    + split; [done|]. unfold dictPut, setArg, htAdd. destruct (put_spec (d_table d) M key value true Hw HM Hp) as (t1 & -> & _). ored. by eexists.
    + split; [done|]. unfold dictExchange, exchange, htExchange. destruct (put_spec (d_table d) M key value false Hw HM Hp) as (t1 & -> & _). ored. eexists. split; [done|]. by destruct (M key).
    + split; [done|]. unfold dictCondExchange, exchange, htExchange. destruct (put_spec (d_table d) M key value false Hw HM Hp) as (t1 & -> & _). ored. by eexists.
    + split; [done|]. unfold dictRemove, remove. destruct (htDel_spec (d_table d) M key Hw HM) as (t1 & -> & _). ored. by eexists.
    + unfold dictClone, BIdictionaryClone, clone. by rewrite copy_table by apply Hw.
Qed.
End properties.

Section listings.
Context {env : LitEnv} {Hok : LitOk env} {V : Type}.

(** The listings of a dictionary are those of its map: the entries are exactly its pairs, keys
    and items are theirs in the same order, no key twice; the array for the marshaler has them
    too; and [toRecord] gives the label for the empty map and otherwise the record whose sorted
    features and values are those of the map. *)
Theorem dictionary_listings_correct (lo AtomCons : Z) (t : ArityTable) (d : OzDictionary V) (M : Feature -> option V) (lbl : Z) :
  holds d M -> table_ok t -> (forall k, M k <> None -> window lo k) -> entries (d_table d) <= 2 ^ 29 ->
  (forall k v, (k, v) ∈ getPairs (d_table d) <-> M k = Some v) /\
  getKeys (d_table d) = map fst (getPairs (d_table d)) /\ getItems (d_table d) = map snd (getPairs (d_table d)) /\ NoDup (getKeys (d_table d)) /\
  (isEmpty d = false -> exists l, getPairsInArray (d_table d) = Some l /\ l = rev (getPairs (d_table d))) /\
  (exists fs, getArityList (d_table d) [] = Some fs /\ sorted lo fs /\ forall k, k ∈ fs <-> M k <> None) /\
  (if isEmpty d then toRecord AtomCons t (d_table d) lbl = Some (t, Label lbl)
   else exists t' x fs, toRecord AtomCons t (d_table d) lbl = Some (t', Record_ x) /\ table_ok t' /\ extends t t' /\
     sorted lo fs /\ (forall k, k ∈ fs <-> M k <> None) /\ denotes AtomCons t' x lbl fs M).
Proof using Hok.
  intros [Hw HM] Ht Hwin Hn. destruct (getPairs_spec (d_table d) M (we_shape _ Hw) HM) as (H1 & H2 & H3 & H4).
  split; [done|]. split; [done|]. split; [done|]. split; [done|]. split; [|split].
  - unfold isEmpty. intros E. exists (pairs (d_table d)). rewrite getPairsInArray_spec by done. rewrite E. split; [done|]. unfold getPairs. by rewrite rev_involutive.
  - destruct (arity_list_spec lo (d_table d) M [] Hw HM Hwin) as (fs & E & Hs & Hfs & _); [lia|]. rewrite app_nil_r in E. by exists fs.
  - by apply (toRecord_spec lo AtomCons).
Qed.
End listings.

(** ** Witnesses *)

(** Two keys that meet in one node of the table of five nodes. *)
Definition example_dictionary : OzDictionary Z :=
  default (OzDict (DHT [] 0 0 0) 0 0) (d ← oz_init 0 0; d ← setArg d (FSmallInt 3) 7; d ← setArg d (FSmallInt 7) 8; d ← setArg d (FLiteral 1600) 9; Some d).

Definition example_map : Feature -> option Z := upd (upd (upd (fun _ => None) (FSmallInt 3) (Some 7)) (FSmallInt 7) (Some 8)) (FLiteral 1600) (Some 9).

Lemma setArg_holds (d : OzDictionary Z) M key value : holds d M -> zlen (pairs (d_table d)) < capacity ->
  exists d', setArg d key value = Some d' /\ holds d' (upd M key (Some value)).
Proof.
  intros [Hw HM] Hp. unfold setArg, htAdd. destruct (put_spec (d_table d) M key value true Hw HM Hp) as (t & -> & Hw' & HM'). ored. eexists. split; [done|].
  split; [done|]. by destruct (M key).
Qed.

Lemma example_holds : holds example_dictionary example_map.
Proof.
  unfold example_dictionary. assert (exists d : OzDictionary Z, oz_init 0 0 = Some d /\ holds d (fun _ => None)) as (d0 & E0 & H0).
  { unfold oz_init. destruct (init_spec (V := Z) 0) as (t & -> & Hw & Hnil & _); [by vm_compute|]. ored. eexists. split; [done|]. split; [done|].
    intros k v. cbn [d_table]. rewrite Hnil. split; [by intros ?%elem_of_nil|done]. }
  destruct (setArg_holds d0 _ (FSmallInt 3) 7 H0) as (d1 & E1 & H1); [vm_compute in E0; injection E0 as <-; by vm_compute|].
  destruct (setArg_holds d1 _ (FSmallInt 7) 8 H1) as (d2 & E2 & H2); [vm_compute in E0; injection E0 as <-; vm_compute in E1; injection E1 as <-; by vm_compute|].
  destruct (setArg_holds d2 _ (FLiteral 1600) 9 H2) as (d3 & E3 & H3); [vm_compute in E0; injection E0 as <-; vm_compute in E1; injection E1 as <-; vm_compute in E2; injection E2 as <-; by vm_compute|].
  rewrite E0. ored. rewrite E1. ored. rewrite E2. ored. rewrite E3. ored. exact H3.
Qed.

Lemma dictionary_map_witness : getArg example_dictionary (FSmallInt 7) = Some (Some 8) /\
  exists d', remove example_dictionary (FSmallInt 7) = Some d' /\ getArg d' (FSmallInt 7) = Some None /\ getArg d' (FSmallInt 3) = Some (Some 7).
Proof.
  destruct (dictionary_refines_map example_dictionary example_map (FSmallInt 7) 0 true example_holds ltac:(reflexivity)) as (H & _ & _ & _ & _ & (d' & E & _) & _).
  split; [exact H|]. exists d'. split; [exact E|]. vm_compute in E. injection E as <-. split; vm_compute; reflexivity.
Defined.

Lemma dictionary_sizes_witness : exists n : OzDictionary Z, oz_init 0 100 = Some n /\ isEmpty n = true.
Proof.
  destruct (dictionary_sizes 100 example_dictionary example_map (FSmallInt 1) 0 ltac:(split; vm_compute; discriminate) example_holds) as (Hi & _). destruct (Hi 0) as (n & E & _ & Hn & _).
  exists n. split; [exact E|exact Hn].
Defined.

Lemma distributed_requests_witness (t := AT [] 0) :
  dictionaryOperation 0 0 t (OP_CONDEXCHANGE (FSmallInt 4) 1 2) example_dictionary = Some (t, PROCEED (AValue 2) example_dictionary) /\
  local_builtin 0 5 0 t (OP_REMOVE (FSmallInt 3)) example_dictionary = Some (t, RAISE EX_globalState).
Proof.
  pose proof (distributed_requests_agree 0 0 0 t (OP_CONDEXCHANGE (FSmallInt 4) 1 2) example_dictionary example_map example_holds ltac:(reflexivity)) as H.
  pose proof (distributed_requests_agree 0 5 0 t (OP_REMOVE (FSmallInt 3)) example_dictionary example_map example_holds ltac:(reflexivity)) as H'.
  exact (conj (proj1 H) (proj1 H')).
Defined.

Lemma dictionary_listings_witness : exists t x, toRecord 0 example_table (d_table example_dictionary) 3 = Some (t, Record_ x) /\ table_ok t.
Proof.
  destruct (dictionary_listings_correct 0 0 example_table example_dictionary example_map 3 example_holds example_table_ok) as (_ & _ & _ & _ & _ & _ & H).
  - intros k. unfold example_map, upd. destruct (decide (k = FLiteral 1600)) as [->|]; [done|]. destruct (decide (k = FSmallInt 7)) as [->|]; [intros _; unfold window, feature_ok, OzMinInt, OzMaxInt; lia|].
    destruct (decide (k = FSmallInt 3)) as [->|]; [intros _; unfold window, feature_ok, OzMinInt, OzMaxInt; lia|]. done.
  - vm_compute. discriminate.
  - destruct H as (t & x & fs & E & Ht & _). exists t, x. split; [exact E|exact Ht].
Defined.
