(* ===== verification/Unify.v ===== *)
(** * Unification ([unify.cc], [var_base.cc], [var_simple.cc], [var_readonly.cc])

    The store is a map from addresses to tagged words; the arguments of a list cell or record are
    the cells that follow its address.  [oz_unify] is modelled in one computation space with the
    variables of optimised, simple and read-only type.  A pointer of [oz_unify] is [None] while it
    points at one of its local variables; what it stores there is never read.  The threads woken by
    a binding are left out, as they run later. *)
From stdpp Require Import gmap.
From Stdlib Require Import SpecFloat.
From S2P Require Import Prelude Feature Arity SRecord.

Module Unify.

(** The tagged words; a small integer or literal is given by its word. *)
Inductive TaggedRef :=
  | REF (p : Z) | VAR (v : Z) | LTUPLE (p : Z) | SRECORD (p : Z) | CONST (p : Z) | TOKEN (w : Z).

#[export] Instance TaggedRef_eq_dec : EqDecision TaggedRef.
Proof. solve_decision. Defined.

(** The types of variables that are modelled, with their numbers. *)
Inductive TypeOfVariable := OZ_VAR_READONLY | OZ_VAR_READONLY_QUIET | OZ_VAR_SIMPLE | OZ_VAR_SIMPLE_QUIET | OZ_VAR_OPT.
Definition type_number (t : TypeOfVariable) : Z :=
  match t with
  | OZ_VAR_READONLY => 6 | OZ_VAR_READONLY_QUIET => 7 | OZ_VAR_SIMPLE => 9 | OZ_VAR_SIMPLE_QUIET => 10 | OZ_VAR_OPT => 11
  end.

(** Constants: numbers are compared by value, all others by identity. *)
Inductive ConstTerm := Co_BigInt (n : Z) | Co_Float (x : spec_float) | Co_Other.

Definition bigIntEq (a b : Z) : bool := a =? b.
Definition floatEq (a b : spec_float) : bool := SFeqb a b.

(** What does not change: the arities, the heads of the records, the constants, the variable object
    that all optimised variables share, and whether the space is the top level and no test of
    equality is under way. *)
Record Machine := {
  aritytable : Arity.ArityTable;
  heads : gmap Z (SRecord.SRecord unit);
  constants : gmap Z ConstTerm;
  currentOptVar : Z;
  oz_onToplevel : bool
}.

(** The store, the variable objects and the stacks of [oz_unify]. *)
Record State := ST {
  cells : gmap Z TaggedRef;
  var_type : gmap Z TypeOfVariable;
  nextVar : Z;
  unifyStack : list (Z * Z * Z);
  rebindTrail : list (option Z * TaggedRef);
  suspendTrail : list (TaggedRef * TaggedRef);
  suspendVarList : list Z
}.

Inductive OZ_Return := PROCEED | SUSPEND | FAILED.

Definition oz_isRef (t : TaggedRef) : bool := match t with REF _ => true | _ => false end.
Definition oz_isVarOrRef (t : TaggedRef) : bool := match t with REF _ | VAR _ => true | _ => false end.

Definition set_cells (s : State) (c : gmap Z TaggedRef) : State :=
  ST c (var_type s) (nextVar s) (unifyStack s) (rebindTrail s) (suspendTrail s) (suspendVarList s).
Definition set_types (s : State) (t : gmap Z TypeOfVariable) : State :=
  ST (cells s) t (nextVar s) (unifyStack s) (rebindTrail s) (suspendTrail s) (suspendVarList s).
Definition set_stack (s : State) (k : list (Z * Z * Z)) : State :=
  ST (cells s) (var_type s) (nextVar s) k (rebindTrail s) (suspendTrail s) (suspendVarList s).
Definition set_trail (s : State) (r : list (option Z * TaggedRef)) : State :=
  ST (cells s) (var_type s) (nextVar s) (unifyStack s) r (suspendTrail s) (suspendVarList s).
Definition set_suspended (s : State) (l : list (TaggedRef * TaggedRef)) (v : list Z) : State :=
  ST (cells s) (var_type s) (nextVar s) (unifyStack s) (rebindTrail s) l v.

Definition bind_cell (c : gmap Z TaggedRef) (p : option Z) (t : TaggedRef) : gmap Z TaggedRef :=
  match p with Some a => <[a := t]> c | None => c end.
Definition doBind (s : State) (p : option Z) (t : TaggedRef) : State := set_cells s (bind_cell (cells s) p t).

(** [_DEREF]: one round for every cell; a longer chain is circular and never ends. *)
Fixpoint DEREF_loop (fuel : nat) (c : gmap Z TaggedRef) (term : TaggedRef) (termPtr : option Z) : option (TaggedRef * option Z) :=
  match term with
  | REF p => match fuel with O => None | S fuel => t ← c !! p; DEREF_loop fuel c t (Some p) end
  | _ => Some (term, termPtr)
  end.
Definition DEREF (c : gmap Z TaggedRef) (term : TaggedRef) (termPtr : option Z) : option (TaggedRef * option Z) :=
  DEREF_loop (S (size c)) c term termPtr.

Definition tagged2NonVariable (c : gmap Z TaggedRef) (p : Z) : option TaggedRef :=
  t ← c !! p; Some (match t with VAR _ => REF p | _ => t end).

(** The old word goes to the trail. *)
Definition rebind (s : State) (refPtr : option Z) (old term2 : TaggedRef) : State :=
  doBind (set_trail s ((refPtr, old) :: rebindTrail s)) refPtr term2.

Definition suspendUnify (s : State) (term1 term2 : TaggedRef) : State :=
  set_suspended s ((term1, term2) :: suspendTrail s) (suspendVarList s).

(** ** Variables *)

(** [oz_bindLocalVar]: a variable is bound by a reference to its cell. *)
Definition oz_bindLocalVar (s : State) (varPtr : Z) (term : TaggedRef) : option State :=
  '(t, p) ← DEREF (cells s) term None;
  match t with
  | VAR _ => p ← p; Some (doBind s (Some varPtr) (REF p))
  | _ => Some (doBind s (Some varPtr) term)
  end.

(** [SimpleVar::bind], [OptVar::bind] and [ReadOnly::bind]. *)
Definition oz_var_bindLocal (s : State) (t : TypeOfVariable) (ptr : Z) (val : TaggedRef) : option (OZ_Return * State) :=
  match t with
  | OZ_VAR_OPT | OZ_VAR_SIMPLE_QUIET | OZ_VAR_SIMPLE => s ← oz_bindLocalVar s ptr val; Some (PROCEED, s)
  | OZ_VAR_READONLY_QUIET | OZ_VAR_READONLY => Some (SUSPEND, set_suspended s (suspendTrail s) (ptr :: suspendVarList s))
  end.
Definition oz_var_bind (s : State) (ov : Z) (ptr : Z) (val : TaggedRef) : option (OZ_Return * State) :=
  t ← var_type s !! ov; oz_var_bindLocal s t ptr val.

(** [SimpleVar::unify], [OptVar::unify] and [ReadOnly::unify] bind to a reference. *)
Definition oz_var_unifyLocal (s : State) (t : TypeOfVariable) (ptr val : Z) : option (OZ_Return * State) :=
  oz_var_bindLocal s t ptr (REF val).
Definition oz_var_unify (s : State) (lvar : Z) (lptr rptr : Z) : option (OZ_Return * State) :=
  t ← var_type s !! lvar; oz_var_unifyLocal s t lptr rptr.

(** [oz_getNonOptVar]: an optimised variable becomes a new simple one. *)
Definition oz_getNonOptVar (s : State) (v : Z) : option (Z * State) :=
  w ← cells s !! v;
  match w with
  | VAR ov =>
      t ← var_type s !! ov;
      match t with
      | OZ_VAR_OPT =>
          let n := nextVar s in
          Some (n, ST (<[v := VAR n]> (cells s)) (<[n := OZ_VAR_SIMPLE_QUIET]> (var_type s)) (n + 1) (unifyStack s) (rebindTrail s) (suspendTrail s) (suspendVarList s))
      | _ => Some (ov, s)
      end
  | _ => None
  end.

Definition oz_isNeeded (t : TypeOfVariable) : bool :=
  match t with OZ_VAR_OPT | OZ_VAR_SIMPLE_QUIET | OZ_VAR_READONLY_QUIET => false | _ => true end.

(** [becomeNeeded] changes the type. *)
Definition oz_var_makeNeededLocal (s : State) (v : Z) : option State :=
  '(ov, s) ← oz_getNonOptVar s v;
  t ← var_type s !! ov;
  match t with
  | OZ_VAR_SIMPLE_QUIET => Some (set_types s (<[ov := OZ_VAR_SIMPLE]> (var_type s)))
  | OZ_VAR_READONLY_QUIET => Some (set_types s (<[ov := OZ_VAR_READONLY]> (var_type s)))
  | _ => Some s
  end.
Definition oz_var_makeNeeded (s : State) (v : Z) : option State :=
  w ← cells s !! v;
  match w with
  | VAR ov => t ← var_type s !! ov; if oz_isNeeded t then Some s else oz_var_makeNeededLocal s v
  | _ => None
  end.

(** The rows of the casting table for these types: the variable that is bound to becomes needed. *)
Definition cast_demands (tt ft : TypeOfVariable) : bool :=
  match tt, ft with
  | OZ_VAR_SIMPLE, (OZ_VAR_OPT | OZ_VAR_SIMPLE_QUIET | OZ_VAR_READONLY_QUIET) => true
  | OZ_VAR_READONLY_QUIET, OZ_VAR_READONLY_QUIET => true
  | OZ_VAR_READONLY, (OZ_VAR_OPT | OZ_VAR_SIMPLE_QUIET | OZ_VAR_READONLY_QUIET) => true
  | _, _ => false
  end.
Definition oz_var_cast (s : State) (fp : Z) (fv : Z) (tt : TypeOfVariable) : option State :=
  ft ← var_type s !! fv; if cast_demands tt ft then oz_var_makeNeeded s fp else Some s.

Definition CMPVAR (t1 t2 : TypeOfVariable) : Z := type_number t1 - type_number t2.
Definition heapNewer (p1 p2 : Z) : bool := p1 <? p2.

Section operations.
Context (M : Machine).

(** ** The loop *)

(** Where the control goes: to [loop] with two terms and their pointers, to [next] or to [fail]. *)
Inductive target := LOOP (term1 : TaggedRef) (termPtr1 : option Z) (term2 : TaggedRef) (termPtr2 : option Z) | NEXT | FAIL.

Definition isOptVar (s : State) (v : Z) : bool := match var_type s !! v with Some OZ_VAR_OPT => true | _ => false end.

(** [push] *)
Definition push (s : State) (argSize p1 p2 : Z) : option (target * State) :=
  let s := if 1 <? argSize then set_stack s ((argSize - 1, p1 + 1, p2 + 1) :: unifyStack s) else s in
  term1 ← tagged2NonVariable (cells s) p1;
  term2 ← tagged2NonVariable (cells s) p2;
  Some (LOOP term1 (Some p1) term2 (Some p2), s).

(** [var_nonvar] *)
Definition var_nonvar (s : State) (v1 : Z) (ptr1 : option Z) (term2 : TaggedRef) : option (target * State) :=
  if isOptVar s v1 then Some (NEXT, doBind s ptr1 term2)
  else
    ptr1 ← ptr1;
    '(res, s) ← oz_var_bind s v1 ptr1 term2;
    match res with
    | PROCEED => Some (NEXT, s)
    | SUSPEND => Some (NEXT, suspendUnify s (REF ptr1) term2)
    | FAILED => Some (FAIL, s)
    end.

(** [var_var] *)
Definition var_var (s : State) (v1 : Z) (ptr1 : Z) (v2 : Z) (ptr2 : Z) : option (target * State) :=
  if v1 =? currentOptVar M then
    Some (NEXT, if (v1 =? v2) && heapNewer ptr2 ptr1 then doBind s (Some ptr2) (REF ptr1) else doBind s (Some ptr1) (REF ptr2))
  else if v2 =? currentOptVar M then
    Some (NEXT, if (v1 =? v2) && heapNewer ptr1 ptr2 then doBind s (Some ptr1) (REF ptr2) else doBind s (Some ptr2) (REF ptr1))
  else
    t1 ← var_type s !! v1;
    t2 ← var_type s !! v2;
    let '(v1, ptr1, v2, ptr2, t1) := if CMPVAR t1 t2 <? 0 then (v2, ptr2, v1, ptr1, t2) else (v1, ptr1, v2, ptr2, t1) in
    s ← oz_var_cast s ptr2 v2 t1;
    '(res, s) ← oz_var_unify s v1 ptr1 ptr2;
    match res with
    | PROCEED => Some (NEXT, s)
    | SUSPEND => Some (NEXT, suspendUnify s (REF ptr1) (REF ptr2))
    | FAILED => Some (FAIL, s)
    end.

(** A float is compared with any other constant without a test that it is a float: then the other
    object is read as one, which is undefined. *)
Definition const_unify (c1 c2 : ConstTerm) : option bool :=
  match c1, c2 with
  | Co_BigInt a, Co_BigInt b => Some (bigIntEq a b)
  | Co_Float a, Co_Float b => Some (floatEq a b)
  | Co_Float _, _ => None
  | _, _ => Some false
  end.

(** [nonvar_nonvar] *)
Definition nonvar_nonvar (s : State) (term1 term2 : TaggedRef) (ptr2 : option Z) : option (target * State) :=
  match term1, term2 with
  | LTUPLE a1, LTUPLE a2 => push (rebind s ptr2 term2 term1) 2 a1 a2
  | SRECORD a1, SRECORD a2 =>
      sr1 ← heads M !! a1;
      sr2 ← heads M !! a2;
      if negb (SRecord.compareFunctor sr1 sr2) then Some (FAIL, s)
      else w ← SRecord.getWidth (aritytable M) sr1; push (rebind s ptr2 term2 term1) w a1 a2
  | CONST c1, CONST c2 =>
      k1 ← constants M !! c1;
      k2 ← constants M !! c2;
      b ← const_unify k1 k2; Some (if b : bool then NEXT else FAIL, s)
  | _, _ => Some (FAIL, s)
  end.

Definition identical (term1 : TaggedRef) (ptr1 : option Z) (term2 : TaggedRef) (ptr2 : option Z) : bool :=
  if oz_isVarOrRef term1 then bool_decide (ptr1 = ptr2) else bool_decide (term1 = term2).

(** From [loop] to the next [goto]. *)
Definition loop (s : State) (term1 : TaggedRef) (ptr1 : option Z) (term2 : TaggedRef) (ptr2 : option Z) : option (target * State) :=
  '(term1, ptr1) ← DEREF (cells s) term1 ptr1;
  '(term2, ptr2) ← DEREF (cells s) term2 ptr2;
  if identical term1 ptr1 term2 ptr2 then Some (NEXT, s)
  else
    match term1, term2 with
    | VAR v1, VAR v2 => p1 ← ptr1; p2 ← ptr2; var_var s v1 p1 v2 p2
    | VAR v1, _ => var_nonvar s v1 ptr1 term2
    | _, VAR v2 => var_nonvar s v2 ptr2 term1
    | _, _ => nonvar_nonvar s term1 term2 ptr2
    end.

(** [next]: the arguments on the stack, or the end. *)
Definition next (s : State) : option (target * State) :=
  match unifyStack s with
  | [] => None
  | (argSize, p1, p2) :: k => push (set_stack s k) argSize p1 p2
  end.

(** The rounds until the stack is empty or something fails. *)
Fixpoint rounds (fuel : nat) (g : target) (s : State) : option (OZ_Return * State) :=
  match fuel with
  | O => None
  | S fuel =>
      match g with
      | FAIL => Some (FAILED, s)
      | NEXT => match unifyStack s with [] => Some (PROCEED, s) | _ => '(g, s) ← next s; rounds fuel g s end
      | LOOP term1 ptr1 term2 ptr2 => '(g, s) ← loop s term1 ptr1 term2 ptr2; rounds fuel g s
      end
  end.

Fixpoint undo (trail : list (option Z * TaggedRef)) (c : gmap Z TaggedRef) : gmap Z TaggedRef :=
  match trail with
  | [] => c
  | (refPtr, value) :: trail => undo trail (bind_cell c refPtr value)
  end.

(** What [oz_unify] returns: a result, or the equations it replaces the call by: one, or the
    arguments of two records in this order. *)
Inductive answer := RETURN (res : OZ_Return) | BI_REPLACEBICALL (equations : list (TaggedRef * TaggedRef)).

(** From [fail] and [exit]: the trail is undone unless unification succeeded at the top level. *)
Definition exit (res : OZ_Return) (s : State) : answer * State :=
  let s := match res with PROCEED => s | _ => set_suspended (set_stack s []) [] [] end in
  let keep := match res with PROCEED => oz_onToplevel M && match suspendTrail s with [] => true | _ => false end | _ => false end in
  let s := set_trail (if keep then s else set_cells s (undo (rebindTrail s) (cells s))) [] in
  match suspendTrail s with
  | [] => (RETURN res, s)
  | pending => (BI_REPLACEBICALL (rev pending), set_suspended s [] (suspendVarList s))
  end.

Definition oz_unify (fuel : nat) (s : State) (t1 t2 : TaggedRef) : option (answer * State) :=
  '(res, s) ← rounds fuel (LOOP t1 None t2 None) s; Some (exit res s).
End operations.
End Unify.
