(* ===== verification/UnifySpec.v ===== *)
(** * What unification is to compute

    A solution of a store is an equivalence of words that contains what the cells hold and relates
    structures only if their heads agree and their arguments are related: the equality of the
    (possibly infinite) trees that the words denote under some binding of the variables. *)
From stdpp Require Import gmap relations.
From Stdlib Require Import SpecFloat.
From S2P Require Import Prelude Feature Arity SRecord Unify.

Module UnifySpec.
Import Unify.

(** Neither a variable nor a reference. *)
Definition nonvar (x : TaggedRef) : Prop := oz_isVarOrRef x = false.

(** Not a variable in place: what [tagged2NonVariable] gives. *)
Definition plain (x : TaggedRef) : Prop := match x with VAR _ => False | _ => True end.

Section solutions.
Context (M : Machine).
Implicit Types (c : gmap Z TaggedRef) (F : TaggedRef -> TaggedRef -> Prop) (s : State).

(** The [n] argument cells from [a] and [b] are related. *)
Definition args_related F (n a b : Z) : Prop := forall i, 0 <= i < n -> F (REF (a + i)) (REF (b + i)).

Definition heads_match F (x y : TaggedRef) : Prop :=
  match x, y with
  | LTUPLE a, LTUPLE b => args_related F 2 a b
  | SRECORD a, SRECORD b => exists r1 r2 w, heads M !! a = Some r1 /\ heads M !! b = Some r2 /\ SRecord.compareFunctor r1 r2 = true /\
      SRecord.getWidth (aritytable M) r1 = Some w /\ args_related F w a b
  | CONST a, CONST b => exists k1 k2, constants M !! a = Some k1 /\ constants M !! b = Some k2 /\ const_unify k1 k2 = Some true
  | _, _ => False
  end.

Record solution c F : Prop := {
  so_equiv : Equivalence F;
  so_cell p w : c !! p = Some w -> plain w -> F (REF p) w;
  so_nonvar x y : F x y -> nonvar x -> nonvar y -> x = y \/ heads_match F x y
}.

(** ** Heads *)

Lemma heads_match_impl F F' x y : (forall a b, F a b -> F' a b) -> heads_match F x y -> heads_match F' x y.
Proof.
  intros HF. destruct x, y; cbn [heads_match]; try done.
  - intros H i Hi. by apply HF, H.
  - intros (r1 & r2 & w & H1 & H2 & Hc & Hw & H). exists r1, r2, w. split_and!; try done. intros i Hi. by apply HF, H.
Qed.

Lemma Pcompare_Eq m n : Pos.compare_cont Eq m n = Eq <-> m = n.
Proof. apply Pos.compare_eq_iff. Qed.

Lemma SFeqb_spec x y : SFeqb x y = true <-> (exists u v : bool, x = S754_zero u /\ y = S754_zero v) \/ (x = y /\ x <> S754_nan).
Proof.
  split.
  - unfold SFeqb. destruct x as [u|u| |u m e], y as [v|v| |v n f]; cbn [SFcompare]; try (destruct u); try (destruct v); try done.
    1-4: by (intros _; left; eauto).
    1-2: by (intros _; right).
    all: destruct (e ?= f) eqn:Ee; try done; apply Z.compare_eq in Ee as ->; destruct (Pos.compare_cont Eq m n) eqn:Em; try done.
    all: apply Pcompare_Eq in Em as ->; intros _; by right.
  - unfold SFeqb. intros [(u & v & -> & ->)|[-> Hn]]; [done|]. destruct y as [v|v| |v n f]; cbn [SFcompare]; try done; [by destruct v|].
    rewrite Z.compare_refl. rewrite (proj2 (Pcompare_Eq n n) eq_refl). by destruct v.
Qed.

Lemma const_unify_sym a b : const_unify a b = Some true -> const_unify b a = Some true.
Proof.
  destruct a, b; cbn [const_unify]; try done.
  - unfold bigIntEq. intros [= H]. f_equal. lia.
  - unfold floatEq. intros [= H]. f_equal. apply SFeqb_spec. apply SFeqb_spec in H as [(u & v & -> & ->)|[-> ?]]; [left; by exists v, u|by right].
Qed.

Lemma const_unify_trans a b d : const_unify a b = Some true -> const_unify b d = Some true -> const_unify a d = Some true.
Proof.
  destruct a, b; cbn [const_unify]; try done; destruct d; cbn [const_unify]; try done.
  - unfold bigIntEq. intros [= H] [= H']. f_equal. lia.
  - unfold floatEq. intros [= H] [= H']. f_equal. apply SFeqb_spec. apply SFeqb_spec in H, H'.
    destruct H as [(u & v & -> & ->)|[-> ?]], H' as [(u' & v' & E & ->)|[<- ?]]; [left; by exists u, v'|left; by exists u, v|subst; left; by exists u', v'|by right].
Qed.

Lemma same_functor (r1 r2 : SRecord.SRecord unit) : SRecord.compareFunctor r1 r2 = true ->
  SRecord.compareFunctor r2 r1 = true /\ SRecord.getWidth (aritytable M) r1 = SRecord.getWidth (aritytable M) r2.
Proof.
  unfold SRecord.compareFunctor, SRecord.compareSortAndArity. rewrite !andb_true_iff, !Z.eqb_eq, !bool_decide_eq_true. intros [H1 H2].
  split; [done|]. unfold SRecord.getWidth. by rewrite H2.
Qed.

Lemma functor_trans (r1 r2 r3 : SRecord.SRecord unit) : SRecord.compareFunctor r1 r2 = true -> SRecord.compareFunctor r2 r3 = true -> SRecord.compareFunctor r1 r3 = true.
Proof. unfold SRecord.compareFunctor, SRecord.compareSortAndArity. rewrite !andb_true_iff, !Z.eqb_eq, !bool_decide_eq_true. intros [-> ->]. done. Qed.

Lemma heads_match_sym F x y : Equivalence F -> heads_match F x y -> heads_match F y x.
Proof.
  intros HF. destruct x, y; cbn [heads_match]; try done.
  - intros H i Hi. symmetry. by apply H.
  - intros (r1 & r2 & w & H1 & H2 & Hc & Hw & H). destruct (same_functor r1 r2 Hc) as [Hc' Ew]. exists r2, r1, w. rewrite <- Ew. split_and!; try done.
    intros i Hi. symmetry. by apply H.
  - intros (k1 & k2 & H1 & H2 & H). exists k2, k1. split_and!; try done. by apply const_unify_sym.
Qed.

Lemma heads_match_trans F x y z : Equivalence F -> heads_match F x y -> heads_match F y z -> heads_match F x z.
Proof.
  intros HF. destruct x, y; cbn [heads_match]; try done; destruct z; cbn [heads_match]; try done.
  - intros H H' i Hi. transitivity (REF (p0 + i)); [by apply H|by apply H'].
  - intros (r1 & r2 & w & H1 & H2 & Hc & Hw & H) (r2' & r3 & w' & H2' & H3 & Hc' & Hw' & H'). assert (r2' = r2) as -> by congruence.
    destruct (same_functor r1 r2 Hc) as [_ Ew]. assert (w' = w) as -> by congruence. exists r1, r3, w. split_and!; try done.
    + by apply (functor_trans r1 r2).
    + intros i Hi. transitivity (REF (p0 + i)); [by apply H|by apply H'].
  - intros (k1 & k2 & H1 & H2 & H) (k2' & k3 & H2' & H3 & H'). assert (k2' = k2) as -> by congruence. exists k1, k3. split_and!; try done. by apply (const_unify_trans k1 k2).
Qed.

Lemma heads_match_nonvar F x y : heads_match F x y -> nonvar x /\ nonvar y.
Proof. by destruct x, y. Qed.

(** ** Closures *)

(** What the cells hold. *)
Definition holds_in c (x y : TaggedRef) : Prop := exists p, x = REF p /\ c !! p = Some y /\ plain y.

Lemma rtsc_in (R : TaggedRef -> TaggedRef -> Prop) x y : R x y -> rtsc R x y.
Proof. intros H. by apply rtsc_lr. Qed.

Lemma rtsc_least (R F : TaggedRef -> TaggedRef -> Prop) x y : Equivalence F -> (forall a b, R a b -> F a b) -> rtsc R x y -> F x y.
Proof.
  intros HF HR H. induction H as [|x y z [H|H] _ IH]; [reflexivity| |].
  - transitivity y; [by apply HR|done].
  - transitivity y; [symmetry; by apply HR|done].
Qed.

(** A solution and pairs of structures that agree up to the closure generate a solution of the closure. *)
Lemma closure_solution c F V :
  solution c F -> (forall x y, V x y -> heads_match (rtsc (fun x y => F x y \/ V x y)) x y) ->
  solution c (rtsc (fun x y => F x y \/ V x y)).
Proof.
  intros [HE Hc Hs] HV. set (G := rtsc (fun x y => F x y \/ V x y)) in *. assert (Equivalence G) as HG by apply rtsc_equivalence.
  split; [done|intros p w Hp Hw; apply rtsc_in; left; by apply Hc|].
  assert (forall x y, G x y -> nonvar x -> exists z, F z y /\ nonvar z /\ (x = z \/ heads_match G x z)) as Hpath.
  { intros x y Hxy Hx. revert y Hxy. apply rtc_ind_r.
    - exists x. split; [reflexivity|]. split; [done|by left].
    - intros y1 y2 _ Hstep (z & Hz & Hn & Hm).
      assert (forall y3, (V y1 y3 \/ V y3 y1) -> y3 = y2 -> exists z, F z y2 /\ nonvar z /\ (x = z \/ heads_match G x z)) as HVstep.
      { intros y3 Hv ->. assert (heads_match G y1 y2) as Hm' by (destruct Hv as [Hv|Hv]; [by apply HV|apply heads_match_sym; [done|by apply HV]]).
        destruct (heads_match_nonvar _ _ _ Hm') as [N1 N2]. exists y2. split; [reflexivity|]. split; [done|]. right.
        assert (heads_match G z y2) as Hzm.
        { destruct (Hs z y1 Hz Hn N1) as [->|Hh]; [done|]. apply (heads_match_trans G z y1); [done| |done].
          apply (heads_match_impl F); [|done]. intros a b Hab. apply rtsc_in. by left. }
        destruct Hm as [->|Hm]; [done|]. by apply (heads_match_trans G x z). }
      destruct Hstep as [[Hf|Hv]|[Hf|Hv]].
      + exists z. split; [by transitivity y1|done].
      + apply (HVstep y2); [by left|done].
      + exists z. split; [transitivity y1; [done|by symmetry]|done].
      + apply (HVstep y2); [by right|done]. }
  intros x y Hxy Hx Hy. destruct (Hpath x y Hxy Hx) as (z & Hz & Hn & Hm). destruct (Hs z y Hz Hn Hy) as [->|Hh]; [done|].
  assert (heads_match G z y) as Hh'.
  { apply (heads_match_impl F); [|done]. intros a b Hab. apply rtsc_in. by left. }
  destruct Hm as [->|Hm]; [by right|]. right. by apply (heads_match_trans G x z).
Qed.
End solutions.
End UnifySpec.
