(* ===== verification/UnifySteps.v ===== *)
(** * The steps of unification

    What dereferencing, binding and pushing do to the contents of the cells. *)
From stdpp Require Import gmap relations.
From S2P Require Import Prelude Feature Arity SRecord Unify UnifySpec.

Module UnifySteps.
Import Unify UnifySpec.

Section steps.
Context (M : Machine).
Implicit Types (c : gmap Z TaggedRef) (G : TaggedRef -> TaggedRef -> Prop) (s : State).

Definition isvar c (a : Z) : Prop := exists v, c !! a = Some (VAR v).

(** A pointer that does not point to a local variable points to the term, or the term will be followed. *)
Definition ptr_ok c (t : TaggedRef) (p : option Z) : Prop := forall a, p = Some a -> c !! a = Some t \/ oz_isRef t = true.

Definition target_ok c (g : target) : Prop :=
  match g with
  | LOOP t1 p1 t2 p2 => plain t1 /\ plain t2 /\ ptr_ok c t1 p1 /\ ptr_ok c t2 p2
  | _ => True
  end.

(** What a dereferenced term stands for: the cell of a variable, or itself. *)
Definition reached c (t : TaggedRef) (p : option Z) (x : TaggedRef) : Prop :=
  (exists v a, t = VAR v /\ p = Some a /\ c !! a = Some (VAR v) /\ x = REF a) \/ (nonvar t /\ x = t /\ forall a, p = Some a -> c !! a = Some t).

Lemma DEREF_loop_spec c G (fuel : nat) (t : TaggedRef) (p : option Z) (t' : TaggedRef) (p' : option Z) :
  Equivalence G -> (forall x y, holds_in c x y -> G x y) -> DEREF_loop fuel c t p = Some (t', p') ->
  (oz_isRef t = true \/ exists x, reached c t p x) ->
  exists x, reached c t' p' x /\ forall u, (if oz_isRef t then G u t else forall y, reached c t p y -> G u y) -> G u x.
Proof.
  intros HG Hc. revert t p. induction fuel as [|fuel IH]; intros t p E Ht; destruct t as [q|v|q|q|q|w]; cbn [DEREF_loop oz_isRef] in *; try done.
  all: try (injection E as <- <-; destruct Ht as [[=]|[x Hx]]; exists x; split; [done|]; intros u Hu; by apply Hu).
  destruct (c !! q) as [w|] eqn:Eq; [|done]. ored in E. destruct (oz_isRef w) eqn:Ew.
  - destruct (IH w (Some q) E) as (x & Hx & Hu); [by left|]. exists x. split; [done|]. intros u Hu'. apply Hu. rewrite Ew. transitivity (REF q); [done|].
    apply Hc. exists q. split; [done|]. split; [done|]. by destruct w.
  - assert (exists x, reached c w (Some q) x /\ G (REF q) x) as (x & Hx & Hqx).
    { destruct w as [|v|?|?|?|?]; [done|exists (REF q); split; [left; by exists v, q|reflexivity]|..].
      all: eexists; split; [right; split; [done|]; split; [done|by intros a [= <-]]|]; apply Hc; by exists q. }
    destruct (IH w (Some q) E) as (y & Hy & Hu); [right; by exists x|]. exists y. split; [done|]. intros u Hu'. apply Hu. rewrite Ew. intros z Hz.
    assert (z = x) as ->; [|by transitivity (REF q)]. destruct Hx as [(v & a & -> & [= <-] & _ & ->)|(Hn & -> & _)], Hz as [(v' & a' & ? & [= <-] & _ & ->)|(Hn' & -> & _)]; done || (by subst).
Qed.

(** Dereferencing a term that is not a variable in place. *)
Lemma DEREF_spec c G (t : TaggedRef) (p : option Z) (t' : TaggedRef) (p' : option Z) :
  Equivalence G -> (forall x y, holds_in c x y -> G x y) -> plain t -> ptr_ok c t p -> DEREF c t p = Some (t', p') ->
  exists x, reached c t' p' x /\ G t x.
Proof.
  intros HG Hc Ht Hp E. destruct (DEREF_loop_spec c G _ t p t' p' HG Hc E) as (x & Hx & Hu).
  - destruct (oz_isRef t) eqn:Er; [by left|right]. exists t. right. split; [unfold nonvar; by destruct t|]. split; [done|]. intros a Ha. destruct (Hp a Ha) as [|]; [done|congruence].
  - exists x. split; [done|]. apply Hu. destruct (oz_isRef t) eqn:Er; [reflexivity|]. intros y [(v & a & -> & _)|(_ & -> & _)]; [done|reflexivity].
Qed.

Lemma reached_plain c t p x : reached c t p x -> plain x.
Proof. intros [(v & a & _ & _ & _ & ->)|(Hn & -> & _)]; [done|]. by destruct t. Qed.

(** ** Changing cells *)

Definition same_contents c c' : Prop := forall a, c' !! a = c !! a \/ (isvar c a /\ isvar c' a).

(** The variable in the cell [a] is bound to [w]. *)
Definition binds c c' (a : Z) (w : TaggedRef) : Prop :=
  isvar c a /\ c' !! a = Some w /\ plain w /\ forall b, b <> a -> c' !! b = c !! b \/ (isvar c b /\ isvar c' b).

Lemma same_contents_refl c : same_contents c c.
Proof. intros a. by left. Qed.

Lemma same_holds c c' x y : same_contents c c' -> holds_in c' x y <-> holds_in c x y.
Proof.
  intros Hs. split; intros (p & -> & Hp & Hy); exists p; (split; [done|]); (split; [|done]).
  - destruct (Hs p) as [E|[_ [v E]]]; [congruence|]. rewrite E in Hp. by injection Hp as <-.
  - destruct (Hs p) as [E|[[v E] _]]; [congruence|]. rewrite E in Hp. by injection Hp as <-.
Qed.

Lemma binds_holds c c' a w x y : binds c c' a w -> holds_in c' x y <-> holds_in c x y \/ (x = REF a /\ y = w).
Proof.
  intros ([v Hv] & Ha & Hw & Hb). split.
  - intros (p & -> & Hp & Hy). destruct (decide (p = a)) as [->|Hne]; [right; split; congruence|left]. exists p. split; [done|]. split; [|done].
    destruct (Hb p Hne) as [E|[_ [v' E]]]; [congruence|]. rewrite E in Hp. by injection Hp as <-.
  - intros [(p & -> & Hp & Hy)|[-> ->]]; [|by exists a]. exists p. split; [done|]. split; [|done].
    destruct (decide (p = a)) as [->|Hne]; [rewrite Hv in Hp; by injection Hp as <-|].
    destruct (Hb p Hne) as [E|[[v' E] _]]; [congruence|]. rewrite E in Hp. by injection Hp as <-.
Qed.

Lemma binds_insert c c1 a w : same_contents c c1 -> isvar c a -> plain w -> binds c (<[a:=w]> c1) a w.
Proof.
  intros Hs Ha Hw. split; [done|]. split; [apply lookup_insert_eq|]. split; [done|]. intros b Hb. unfold isvar. rewrite lookup_insert_ne by done. apply Hs.
Qed.

(** Every variable in a cell has an object. *)
Definition types_ok s : Prop := forall a v, cells s !! a = Some (VAR v) -> is_Some (var_type s !! v).

Lemma types_bind s (a : Z) (w : TaggedRef) : plain w -> types_ok s -> types_ok (doBind s (Some a) w).
Proof.
  intros Hw Ht b v. cbn [doBind set_cells bind_cell cells var_type]. destruct (decide (a = b)) as [->|Hne]; [rewrite lookup_insert_eq; intros [= ->]; done|].
  rewrite lookup_insert_ne by done. apply Ht.
Qed.

(** A step on variables: what is bound, or what is put aside. *)
Record var_effect s s' (x y : TaggedRef) : Prop := {
  ve_stack : unifyStack s' = unifyStack s;
  ve_trail : rebindTrail s' = rebindTrail s;
  ve_types : types_ok s -> types_ok s';
  ve_cells : (suspendTrail s' = suspendTrail s /\ exists a w, ((REF a = x /\ w = y) \/ (REF a = y /\ w = x)) /\ binds (cells s) (cells s') a w) \/
    (same_contents (cells s) (cells s') /\ (suspendTrail s' = (x, y) :: suspendTrail s \/ suspendTrail s' = (y, x) :: suspendTrail s))
}.

Lemma var_effect_sym s s' x y : var_effect s s' x y -> var_effect s s' y x.
Proof.
  intros [H1 H2 HT H3]. split; [done|done|done|]. destruct H3 as [(H & a & w & Hx & Hb)|(H & Hx)]; [left; split; [done|]; exists a, w; tauto|right; tauto].
Qed.

Lemma bindLocalVar_ref s a b : isvar (cells s) b -> oz_bindLocalVar s a (REF b) = Some (doBind s (Some a) (REF b)).
Proof. intros [v Hv]. unfold oz_bindLocalVar, DEREF. cbn [DEREF_loop]. rewrite Hv. ored. by destruct (size (cells s)). Qed.

Lemma bindLocalVar_nonvar s a w : nonvar w -> oz_bindLocalVar s a w = Some (doBind s (Some a) w).
Proof. intros Hw. unfold oz_bindLocalVar, DEREF. by destruct w. Qed.

Lemma var_nonvar_spec s v a w r s' : cells s !! a = Some (VAR v) -> nonvar w -> var_nonvar s v (Some a) w = Some (r, s') ->
  r = NEXT /\ var_effect s s' (REF a) w.
Proof.
  intros Ha Hw. assert (isvar (cells s) a) as Hv by by exists v. assert (plain w) as Hp by by destruct w.
  assert (forall s1, s1 = doBind s (Some a) w -> var_effect s s1 (REF a) w) as Hbind.
  { intros s1 ->. split; [done|done|by apply types_bind|]. left. split; [done|]. exists a, w. split; [by left|]. apply binds_insert; [apply same_contents_refl|done|done]. }
  unfold var_nonvar. destruct (isOptVar s v); [intros [= <- <-]; split; [done|by apply Hbind]|]. ored. unfold oz_var_bind.
  destruct (var_type s !! v) as [t|]; [|done]. ored. destruct t; cbn [oz_var_bindLocal]; rewrite ?bindLocalVar_nonvar by done; ored.
  all: intros [= <- <-]; (split; [done|]); try (by apply Hbind).
  all: split; [done|done|done|]; right; split; [apply same_contents_refl|by left].
Qed.

Lemma getNonOptVar_spec s a ov s' : oz_getNonOptVar s a = Some (ov, s') ->
  same_contents (cells s) (cells s') /\ unifyStack s' = unifyStack s /\ rebindTrail s' = rebindTrail s /\ suspendTrail s' = suspendTrail s /\
  (types_ok s -> types_ok s').
Proof.
  unfold oz_getNonOptVar. destruct (cells s !! a) as [w|] eqn:E; [|done]. ored. destruct w as [|v| | | |]; try done. destruct (var_type s !! v) as [t|]; [|done]. ored.
  destruct t; intros [= <- <-]; cbn [cells unifyStack rebindTrail suspendTrail]; (split; [|try done]); try apply same_contents_refl.
  2: { split_and!; try done. intros Ht b u. cbn [cells var_type]. destruct (decide (a = b)) as [->|Hne].
    - rewrite lookup_insert_eq. intros [= <-]. rewrite lookup_insert_eq. by eexists.
    - rewrite lookup_insert_ne by done. intros Hb. destruct (decide (nextVar s = u)) as [->|]; [rewrite lookup_insert_eq; by eexists|rewrite lookup_insert_ne by done; by apply (Ht b)]. }
  intros b. destruct (decide (b = a)) as [->|]; [right|left; by rewrite lookup_insert_ne]. split; [by exists v|]. eexists. apply lookup_insert_eq.
Qed.

Lemma cast_spec s a v t s' : oz_var_cast s a v t = Some s' ->
  same_contents (cells s) (cells s') /\ unifyStack s' = unifyStack s /\ rebindTrail s' = rebindTrail s /\ suspendTrail s' = suspendTrail s /\
  (types_ok s -> types_ok s').
Proof.
  unfold oz_var_cast. destruct (var_type s !! v) as [ft|]; [|done]. ored. destruct (cast_demands t ft); [|intros [= <-]; split; [apply same_contents_refl|done]].
  unfold oz_var_makeNeeded. destruct (cells s !! a) as [w|]; [|done]. ored. destruct w as [|ov| | | |]; try done. destruct (var_type s !! ov) as [t'|]; [|done]. ored.
  destruct (oz_isNeeded t'); [intros [= <-]; split; [apply same_contents_refl|done]|]. unfold oz_var_makeNeededLocal.
  destruct (oz_getNonOptVar s a) as [[ov' s1]|] eqn:E; [|done]. ored. apply getNonOptVar_spec in E. destruct (var_type s1 !! ov') as [t1|]; [|done]. ored.
  destruct E as (H1 & H2 & H3 & H4 & H5). assert (forall t', types_ok s -> types_ok (set_types s1 (<[ov':=t']> (var_type s1)))) as Hset.
  { intros u Ht b w Hb. cbn [set_types var_type]. destruct (decide (ov' = w)) as [->|]; [rewrite lookup_insert_eq; by eexists|rewrite lookup_insert_ne by done; by apply (H5 Ht b)]. }
  destruct t1; intros [= <-]; split_and!; done || apply Hset.
Qed.

Lemma same_isvar c c' a : same_contents c c' -> isvar c a -> isvar c' a.
Proof. intros Hs [v Hv]. destruct (Hs a) as [E|[_ H]]; [exists v; congruence|done]. Qed.

Lemma var_unify_spec s s1 v a b res s' : same_contents (cells s) (cells s1) -> unifyStack s1 = unifyStack s -> rebindTrail s1 = rebindTrail s -> suspendTrail s1 = suspendTrail s ->
  (types_ok s -> types_ok s1) -> isvar (cells s) a -> isvar (cells s) b -> oz_var_unify s1 v a b = Some (res, s') ->
  (res = PROCEED /\ var_effect s s' (REF a) (REF b)) \/ (res = SUSPEND /\ var_effect s (suspendUnify s' (REF a) (REF b)) (REF a) (REF b)).
Proof.
  intros Hs E1 E2 E3 ET Ha Hb. unfold oz_var_unify, oz_var_unifyLocal. destruct (var_type s1 !! v) as [t|]; [|done]. ored.
  pose proof (same_isvar _ _ b Hs Hb) as Hb'. destruct t; cbn [oz_var_bindLocal]; rewrite ?bindLocalVar_ref by done; ored; intros [= <- <-].
  1,2: right; split; [done|]; split; [done|done|done|]; right; split; [done|left; cbn; by rewrite E3].
  all: left; split; [done|]; split; [done|done|intros Ht; apply types_bind; [done|by apply ET]|]; left; split; [done|]; exists a, (REF b); split; [by left|]; by apply binds_insert.
Qed.

Lemma var_var_spec s v1 a v2 b r s' : cells s !! a = Some (VAR v1) -> cells s !! b = Some (VAR v2) -> var_var M s v1 a v2 b = Some (r, s') ->
  r = NEXT /\ var_effect s s' (REF a) (REF b).
Proof.
  intros Ha Hb. assert (isvar (cells s) a) as Va by by exists v1. assert (isvar (cells s) b) as Vb by by exists v2.
  assert (forall a b, isvar (cells s) a -> var_effect s (doBind s (Some a) (REF b)) (REF a) (REF b)) as Hbind.
  { intros x y Hx. split; [done|done|by apply types_bind|]. left. split; [done|]. exists x, (REF y). split; [by left|]. by apply binds_insert; [apply same_contents_refl|..]. }
  unfold var_var. destruct (v1 =? currentOptVar M); [intros [= <- <-]; split; [done|]; destruct (_ && _); [apply var_effect_sym|]; by apply Hbind|].
  destruct (v2 =? currentOptVar M); [intros [= <- <-]; split; [done|]; destruct (_ && _); [|apply var_effect_sym]; by apply Hbind|].
  destruct (var_type s !! v1) as [t1|]; [|done]. ored. destruct (var_type s !! v2) as [t2|]; [|done]. ored.
  assert (forall v x u y t, isvar (cells s) x -> isvar (cells s) y ->
    (s1 ← oz_var_cast s y u t; '(res, s1) ← oz_var_unify s1 v x y;
     match res with PROCEED => Some (NEXT, s1) | SUSPEND => Some (NEXT, suspendUnify s1 (REF x) (REF y)) | FAILED => Some (FAIL, s1) end) = Some (r, s') ->
    r = NEXT /\ var_effect s s' (REF x) (REF y)) as Hgen.
  { intros v x u y t Hx Hy. destruct (oz_var_cast s y u t) as [s1|] eqn:Ec; [|done]. ored. destruct (cast_spec _ _ _ _ _ Ec) as (Hs & Ek & Er & Es & ET).
    destruct (oz_var_unify s1 v x y) as [[res s2]|] eqn:Eu; [|done]. ored. destruct (var_unify_spec s s1 v x y res s2 Hs Ek Er Es ET Hx Hy Eu) as [[-> He]|[-> He]]; by intros [= <- <-]. }
  destruct (CMPVAR t1 t2 <? 0); intros E; [|by apply (Hgen v1 a v2 b t1)]. destruct (Hgen v2 b v1 a t2 Vb Va E) as [-> He]. split; [done|]. by apply var_effect_sym.
Qed.

(** ** Structures *)

Lemma rebind_holds c (p : option Z) (t1 t2 : TaggedRef) x y : (forall a, p = Some a -> c !! a = Some t2) -> plain t1 -> plain t2 ->
  (holds_in c x y -> holds_in (bind_cell c p t1) x y \/ (y = t2 /\ holds_in (bind_cell c p t1) x t1)) /\
  (holds_in (bind_cell c p t1) x y -> holds_in c x y \/ (y = t1 /\ holds_in c x t2)).
Proof.
  intros Hp H1 H2. destruct p as [a|]; [|split; intros; by left]. specialize (Hp a eq_refl). cbn [bind_cell]. split; intros (q & -> & Hq & Hy).
  - destruct (decide (q = a)) as [->|Hne]; [right|left].
    + split; [congruence|]. exists a. rewrite lookup_insert_eq. done.
    + exists q. rewrite lookup_insert_ne by done. done.
  - destruct (decide (q = a)) as [->|Hne]; [right|left].
    + rewrite lookup_insert_eq in Hq. split; [congruence|]. by exists a.
    + rewrite lookup_insert_ne in Hq by done. by exists q.
Qed.

Lemma push_spec s n a b g s' : push s n a b = Some (g, s') ->
  cells s' = cells s /\ suspendTrail s' = suspendTrail s /\ rebindTrail s' = rebindTrail s /\ target_ok (cells s) g /\
  unifyStack s' = (if 1 <? n then (n - 1, a + 1, b + 1) :: unifyStack s else unifyStack s) /\
  exists t1 t2, g = LOOP t1 (Some a) t2 (Some b) /\ tagged2NonVariable (cells s) a = Some t1 /\ tagged2NonVariable (cells s) b = Some t2.
Proof.
  unfold push. assert (cells (if 1 <? n then set_stack s ((n - 1, a + 1, b + 1) :: unifyStack s) else s) = cells s) as Ec by by destruct (1 <? n).
  rewrite !Ec. assert (forall p t, tagged2NonVariable (cells s) p = Some t -> plain t /\ ptr_ok (cells s) t (Some p)) as Hok.
  { intros p t. unfold tagged2NonVariable. destruct (cells s !! p) as [w|] eqn:E; [|done]. ored. intros [= <-]. split; [by destruct w|].
    intros q [= <-]. destruct w; cbn; rewrite E; auto. }
  destruct (tagged2NonVariable (cells s) a) as [t1|] eqn:E1; [|done]. ored. destruct (tagged2NonVariable (cells s) b) as [t2|] eqn:E2; [|done]. ored.
  destruct (Hok a t1 E1), (Hok b t2 E2). intros [= <- <-]. split; [done|]. split; [by destruct (1 <? n)|]. split; [by destruct (1 <? n)|]. split; [done|]. split; [by destruct (1 <? n)|].
  by exists t1, t2.
Qed.

Lemma nonVariable_related c G a t : Equivalence G -> (forall x y, holds_in c x y -> G x y) -> tagged2NonVariable c a = Some t -> G (REF a) t.
Proof.
  intros HG Hc. unfold tagged2NonVariable. destruct (c !! a) as [w|] eqn:E; [|done]. ored. intros [= <-].
  destruct w; try reflexivity; apply Hc; by exists a.
Qed.

(** ** The trail *)

(** A later store has what the earlier one had in its cells, apart from variables. *)
Definition keeps c c' : Prop := forall b w, c !! b = Some w -> plain w -> c' !! b = Some w.

Lemma keeps_refl c : keeps c c.
Proof. by intros b w. Qed.

Lemma keeps_trans c1 c2 c3 : keeps c1 c2 -> keeps c2 c3 -> keeps c1 c3.
Proof. intros H1 H2 b w Hb Hw. apply H2; [by apply H1|done]. Qed.

Lemma keeps_bind c c' (p : option Z) (w : TaggedRef) : keeps c c' -> keeps (bind_cell c p w) (bind_cell c' p w).
Proof.
  intros H. destruct p as [a|]; [|done]. cbn [bind_cell]. intros b x. destruct (decide (a = b)) as [->|Hne].
  - by rewrite !lookup_insert_eq.
  - rewrite !lookup_insert_ne by done. apply H.
Qed.

Lemma undo_keeps tr c c' : keeps c c' -> keeps (undo tr c) (undo tr c').
Proof. revert c c'. induction tr as [|[p w] tr IH]; intros c c' H; cbn [undo]; [done|]. by apply IH, keeps_bind. Qed.

Lemma var_effect_keeps s s' x y : var_effect s s' x y -> keeps (cells s) (cells s').
Proof.
  intros [_ _ _ [(_ & a & t & _ & [v Hv] & _ & _ & Hb)|(Hs & _)]] b w Hw Hp.
  - destruct (decide (b = a)) as [->|Hne]; [rewrite Hv in Hw; by injection Hw as <-|]. destruct (Hb b Hne) as [E|[[u E] _]]; [congruence|]. rewrite E in Hw. by injection Hw as <-.
  - destruct (Hs b) as [E|[[u E] _]]; [congruence|]. rewrite E in Hw. by injection Hw as <-.
Qed.

Lemma rebind_undone c (p : option Z) (x y : TaggedRef) : (forall a, p = Some a -> c !! a = Some y) -> bind_cell (bind_cell c p x) p y = c.
Proof. intros H. destruct p as [a|]; [|done]. cbn [bind_cell]. rewrite insert_insert_eq. by apply insert_id, H. Qed.

(** Every entry of the trail restores a word whose pair with the present one was visited. *)
Fixpoint trail_ok (V : TaggedRef -> TaggedRef -> Prop) (tr : list (option Z * TaggedRef)) c : Prop :=
  match tr with
  | [] => True
  | (p, old) :: tr =>
      (forall a, p = Some a -> exists cur, c !! a = Some cur /\ nonvar cur /\ nonvar old /\ V cur old) /\ trail_ok V tr (bind_cell c p old)
  end.

Lemma trail_mono (V V' : TaggedRef -> TaggedRef -> Prop) tr c : (forall x y, V x y -> V' x y) -> trail_ok V tr c -> trail_ok V' tr c.
Proof.
  intros H. revert c. induction tr as [|[p old] tr IH]; intros c; cbn [trail_ok]; [done|]. intros [Hp Ht]. split; [|by apply IH].
  intros a Ha. destruct (Hp a Ha) as (cur & ? & ? & ? & ?). exists cur. auto.
Qed.

Lemma trail_keeps V tr c c' : keeps c c' -> trail_ok V tr c -> trail_ok V tr c'.
Proof.
  revert c c'. induction tr as [|[p old] tr IH]; intros c c' Hk; cbn [trail_ok]; [done|]. intros [Hp Ht]. split; [|by apply (IH (bind_cell c p old)); [apply keeps_bind|]].
  intros a Ha. destruct (Hp a Ha) as (cur & ? & Hn & ? & ?). exists cur. split; [|done]. apply Hk; [done|by destruct cur].
Qed.

Lemma trail_rebind (V : TaggedRef -> TaggedRef -> Prop) tr c (p : option Z) (x y : TaggedRef) : (forall a, p = Some a -> c !! a = Some y) -> nonvar x -> nonvar y -> V x y ->
  trail_ok V tr c -> trail_ok V ((p, y) :: tr) (bind_cell c p x).
Proof.
  intros Hp Nx Ny Hv Ht. cbn [trail_ok]. rewrite rebind_undone by done. split; [|done]. intros a ->. exists x. cbn [bind_cell]. by rewrite lookup_insert_eq.
Qed.

(** Undoing loses nothing but visited pairs. *)
Lemma undo_holds (V : TaggedRef -> TaggedRef -> Prop) tr c x y : trail_ok V tr c -> holds_in c x y ->
  rtsc (fun x y => holds_in (undo tr c) x y \/ V x y) x y.
Proof.
  revert c x y. induction tr as [|[p old] tr IH]; intros c x y; cbn [trail_ok undo]; [intros _ H; apply rtsc_in; by left|]. intros [Hp Ht] H.
  destruct p as [a|]; [|by apply IH]. destruct (Hp a eq_refl) as (cur & Hcur & Nc & No & Hv). assert (plain old /\ plain cur) as [Po Pc] by (split; [by destruct old|by destruct cur]).
  destruct (rebind_holds c (Some a) old cur x y) as [Hl _]; [by intros ? [= <-]|done|done|]. destruct (Hl H) as [H'|[-> H']]; [by apply IH|].
  transitivity old; [by apply (IH (bind_cell c (Some a) old))|]. symmetry. apply rtsc_in. by right.
Qed.
End steps.
End UnifySteps.
