(* ===== verification/UnifyInv.v ===== *)
(** * The invariants of unification

    [inv] says what is already settled: the closure of the cells, the visited pairs [V], and what is
    still to be done never shrinks, and visited pairs agree up to it.  [finv] says that a solution of
    the original problem stays one. *)
From stdpp Require Import gmap relations.
From S2P Require Import Prelude Feature Arity SRecord Unify UnifySpec UnifySteps.

Module UnifyInv.
Import Unify UnifySpec UnifySteps.

Section invariants.
Context (M : Machine).
Implicit Types (c : gmap Z TaggedRef) (F V : TaggedRef -> TaggedRef -> Prop) (s : State) (g : target).

(** The pairs still to be unified: the two terms of the loop and the arguments on the stack. *)
Definition pending g (k : list (Z * Z * Z)) (x y : TaggedRef) : Prop :=
  match g with LOOP t1 _ t2 _ => x = t1 /\ y = t2 | _ => False end \/
  exists n a b i, (n, a, b) ∈ k /\ 0 <= i < n /\ x = REF (a + i) /\ y = REF (b + i).

Definition base g s V (x y : TaggedRef) : Prop :=
  holds_in (cells s) x y \/ V x y \/ pending g (unifyStack s) x y \/ (x, y) ∈ suspendTrail s.
Definition closed g s V : TaggedRef -> TaggedRef -> Prop := rtsc (base g s V).

Definition inv g s V : Prop := target_ok (cells s) g /\ forall x y, V x y -> heads_match M (closed g s V) x y.

Lemma closed_base g s V x y : base g s V x y -> closed g s V x y.
Proof. apply rtsc_in. Qed.

Lemma closed_mono g s V g' s' V' : (forall x y, base g s V x y -> closed g' s' V' x y) -> forall x y, closed g s V x y -> closed g' s' V' x y.
Proof. intros H x y. apply rtsc_least; [apply _|done]. Qed.

Definition add_pair V (t1 t2 : TaggedRef) : TaggedRef -> TaggedRef -> Prop := fun x y => V x y \/ (x = t1 /\ y = t2).

(** The arguments that [push] puts on the stack, after the cells changed. *)
Lemma push_closed s n a b g s' V : push s n a b = Some (g, s') ->
  target_ok (cells s') g /\ args_related (closed g s' V) n a b /\
  forall x y, (exists m p q i, (m, p, q) ∈ unifyStack s /\ 0 <= i < m /\ x = REF (p + i) /\ y = REF (q + i)) -> closed g s' V x y.
Proof.
  intros E. destruct (push_spec s n a b g s' E) as (Ec & _ & _ & Hok & Ek & t1 & t2 & -> & E1 & E2). split; [by rewrite Ec|].
  assert (forall x y, holds_in (cells s) x y -> closed (LOOP t1 (Some a) t2 (Some b)) s' V x y) as Hh by (intros x y Hxy; apply closed_base; left; by rewrite Ec).
  split.
  - intros i Hi. destruct (decide (i = 0)) as [->|Hne].
    + rewrite !Z.add_0_r. transitivity t1; [by apply (nonVariable_related (cells s) _ a t1); [apply _|..]|].
      transitivity t2; [|symmetry; by apply (nonVariable_related (cells s) _ b t2); [apply _|..]]. apply closed_base. right. right. left. by left.
    + apply closed_base. right. right. left. right. exists (n - 1), (a + 1), (b + 1), (i - 1). rewrite Ek. destruct (Z.ltb_spec 1 n); [|lia].
      split; [by left|]. split; [lia|]. split; f_equal; lia.
  - intros x y (m & p & q & i & Hin & Hr). apply closed_base. right. right. left. right. exists m, p, q, i. split; [|done].
    rewrite Ek. destruct (1 <? n); [by right|done].
Qed.

Lemma next_inv s g' s' V : inv NEXT s V -> next s = Some (g', s') -> inv g' s' V /\ forall x y, closed NEXT s V x y -> closed g' s' V x y.
Proof.
  intros [_ HV]. unfold next. destruct (unifyStack s) as [|[[n a] b] k] eqn:Ek; [done|]. intros E.
  destruct (push_spec _ _ _ _ _ _ E) as (Ec & Es & _). destruct (push_closed _ _ _ _ _ _ V E) as (Hok & Hargs & Hk).
  assert (forall x y, closed NEXT s V x y -> closed g' s' V x y) as Hmono.
  { apply closed_mono. intros x y [Hh|[Hv|[[[]|(m & p & q & i & Hin & Hi & -> & ->)]|Hs]]].
    - apply closed_base. left. by rewrite Ec.
    - apply closed_base. right. by left.
    - rewrite Ek in Hin. apply elem_of_cons in Hin as [[= -> -> ->]|Hin]; [by apply Hargs|]. apply Hk. by exists m, p, q, i.
    - apply closed_base. right. right. right. by rewrite Es. }
  split; [|done]. split; [done|]. intros x y Hxy. apply (heads_match_impl _ (closed NEXT s V)); [done|by apply HV].
Qed.

(** A step that changes nothing but marks the pair of the loop as settled. *)
Lemma settled_inv t1 p1 t2 p2 s s' V V' : inv (LOOP t1 p1 t2 p2) s V -> unifyStack s' = unifyStack s ->
  (forall x y, V x y -> V' x y) -> (forall x y, holds_in (cells s) x y -> closed NEXT s' V' x y) ->
  (forall x y, (x, y) ∈ suspendTrail s -> closed NEXT s' V' x y) -> closed NEXT s' V' t1 t2 ->
  (forall x y, V' x y -> V x y \/ heads_match M (closed NEXT s' V') x y) ->
  inv NEXT s' V' /\ forall x y, closed (LOOP t1 p1 t2 p2) s V x y -> closed NEXT s' V' x y.
Proof.
  intros [_ HV] Ek HV' Hh Hs Ht Hnew. assert (forall x y, closed (LOOP t1 p1 t2 p2) s V x y -> closed NEXT s' V' x y) as Hmono.
  { apply closed_mono. intros x y [H|[H|[[[-> ->]|H]|H]]]; [by apply Hh| |done| |by apply Hs].
    - apply closed_base. right. left. by apply HV'.
    - apply closed_base. right. right. left. right. by rewrite Ek. }
  split; [|done]. split; [done|]. intros x y Hxy. destruct (Hnew x y Hxy) as [H|H]; [|done]. apply (heads_match_impl _ (closed (LOOP t1 p1 t2 p2) s V)); [done|by apply HV].
Qed.

(** The part of the cells' contents that dereferencing uses. *)
Lemma contents_closed g s V s0 x y : (forall x y, holds_in (cells s0) x y -> closed g s V x y) -> rtsc (holds_in (cells s0)) x y -> closed g s V x y.
Proof. intros H. apply rtsc_least; [apply _|done]. Qed.

Lemma var_inv t1 p1 t2 p2 s s' V x y : inv (LOOP t1 p1 t2 p2) s V -> var_effect s s' x y ->
  rtsc (holds_in (cells s)) t1 x -> rtsc (holds_in (cells s)) t2 y ->
  inv NEXT s' V /\ forall x y, closed (LOOP t1 p1 t2 p2) s V x y -> closed NEXT s' V x y.
Proof.
  intros Hinv [Ek _ _ Hc] H1 H2. assert (forall u w, holds_in (cells s) u w -> closed NEXT s' V u w) as Hh.
  { intros u w Huw. apply closed_base. left. destruct Hc as [(_ & a & t & _ & Hb)|[Hs _]]; [by apply (binds_holds _ _ _ _ _ _ Hb); left|by apply (same_holds _ _ _ _ Hs)]. }
  assert (closed NEXT s' V x y) as Hxy.
  { destruct Hc as [(_ & a & t & Hor & Hb)|[_ Hs]].
    - assert (closed NEXT s' V (REF a) t) as Ha by (apply closed_base; left; apply (binds_holds _ _ _ _ _ _ Hb); by right).
      destruct Hor as [[<- ->]|[<- ->]]; [done|by symmetry].
    - destruct Hs as [Hs|Hs]; [|symmetry]; apply closed_base; right; right; right; rewrite Hs; by left. }
  apply settled_inv; try done.
  - intros u w Huw. apply closed_base. right. right. right. destruct Hc as [(E & _)|[_ [E|E]]]; rewrite E; [done|by right..].
  - transitivity x; [by apply (contents_closed NEXT s' V s)|]. transitivity y; [done|]. symmetry. by apply (contents_closed NEXT s' V s).
  - intros u w Huw. by left.
Qed.

(** Two structures with the same head: the cell is redirected and the arguments are pushed. *)
Lemma struct_inv t1 p1 t2 p2 s V x y (p : option Z) n a b g' s' : inv (LOOP t1 p1 t2 p2) s V ->
  rtsc (holds_in (cells s)) t1 x -> rtsc (holds_in (cells s)) t2 y -> nonvar x -> nonvar y -> (forall q, p = Some q -> cells s !! q = Some y) ->
  push (rebind s p y x) n a b = Some (g', s') ->
  (forall G, args_related G n a b -> heads_match M G x y) ->
  inv g' s' (add_pair V x y) /\ forall u w, closed (LOOP t1 p1 t2 p2) s V u w -> closed g' s' (add_pair V x y) u w.
Proof.
  intros [_ HV] H1 H2 Nx Ny Hp E Hheads. set (V' := add_pair V x y).
  destruct (push_spec _ _ _ _ _ _ E) as (Ec & Es & _). destruct (push_closed _ _ _ _ _ _ V' E) as (Hok & Hargs & Hk).
  assert (cells (rebind s p y x) = bind_cell (cells s) p x) as Er by done. assert (plain x /\ plain y) as [Px Py] by (split; [by destruct x|by destruct y]).
  assert (closed g' s' V' x y) as Hxy by (apply closed_base; right; left; by right).
  assert (forall u w, holds_in (cells s) u w -> closed g' s' V' u w) as Hh.
  { intros u w Huw. destruct (rebind_holds (cells s) p x y u w Hp Px Py) as [Hl _]. rewrite <- Er, <- Ec in Hl. destruct (Hl Huw) as [H|[-> H]].
    - apply closed_base. by left.
    - transitivity x; [apply closed_base; by left|done]. }
  assert (forall u w, closed (LOOP t1 p1 t2 p2) s V u w -> closed g' s' V' u w) as Hmono.
  { apply closed_mono. intros u w [H|[H|[[[-> ->]|H]|H]]]; [by apply Hh|apply closed_base; right; left; by left| |by apply Hk|].
    - transitivity x; [by apply (contents_closed g' s' V' s)|]. transitivity y; [done|]. symmetry. by apply (contents_closed g' s' V' s).
    - apply closed_base. right. right. right. by rewrite Es. }
  split; [|done]. split; [done|]. intros u w [H|[-> ->]]; [|by apply Hheads]. apply (heads_match_impl _ (closed (LOOP t1 p1 t2 p2) s V)); [done|by apply HV].
Qed.

Lemma identical_reached c t1 p1 t2 p2 x y : reached c t1 p1 x -> reached c t2 p2 y -> identical t1 p1 t2 p2 = true -> x = y.
Proof.
  unfold identical. intros [(v & a & -> & -> & Ha & ->)|(N1 & -> & H1)] [(u & b & -> & -> & Hb & ->)|(N2 & -> & H2)]; cbn [oz_isVarOrRef].
  - intros H. apply bool_decide_eq_true in H. by injection H as ->.
  - intros H. apply bool_decide_eq_true in H. specialize (H2 a (eq_sym H)). assert (t2 = VAR v) as -> by congruence. done.
  - unfold nonvar in N1. rewrite N1. intros H. apply bool_decide_eq_true in H. by subst.
  - unfold nonvar in N1. rewrite N1. intros H. by apply bool_decide_eq_true in H.
Qed.

(** Every record has an argument. *)
Definition widths_positive : Prop :=
  forall a r w, heads M !! a = Some r -> SRecord.getWidth (aritytable M) r = Some w -> 0 < w.

(** The cases of a step. *)
Inductive case s x y : option (target * State) -> Prop :=
  | case_same r : x = y -> r = Some (NEXT, s) -> case s x y r
  | case_vars r : (forall g' s', r = Some (g', s') -> g' = NEXT /\ var_effect s s' x y) -> case s x y r
  | case_const r : r = Some (NEXT, s) -> (forall G, heads_match M G x y) -> case s x y r
  | case_struct p n a b : nonvar x -> nonvar y -> x <> y -> (widths_positive -> 0 < n) -> (forall q, p = Some q -> cells s !! q = Some y) ->
      (forall G, args_related G n a b <-> heads_match M G x y) -> case s x y (push (rebind s p y x) n a b)
  | case_fail r : nonvar x -> nonvar y -> x <> y -> (forall G, ~ heads_match M G x y) -> r = Some (FAIL, s) -> case s x y r
  | case_undefined : case s x y None.

Lemma nonvar_case s x y p : nonvar x -> nonvar y -> x <> y -> (forall q, p = Some q -> cells s !! q = Some y) -> case s x y (nonvar_nonvar M s x y p).
Proof.
  intros Nx Ny Hne Hp. destruct x as [?|?|a|a|a|a], y as [?|?|b|b|b|b]; try done; cbn [nonvar_nonvar];
    try (by (apply case_fail; [done|done|done|intros G H; exact H|done])).
  - apply case_struct; done || lia.
  - destruct (heads M !! a) as [r1|] eqn:E1; [|apply case_undefined]. destruct (heads M !! b) as [r2|] eqn:E2; [|apply case_undefined]. ored.
    destruct (SRecord.compareFunctor r1 r2) eqn:Ef; cbn [negb].
    + destruct (SRecord.getWidth (aritytable M) r1) as [w|] eqn:Ew; [|apply case_undefined]. ored. apply case_struct; try done; [intros Hw; by apply (Hw a r1)|]. intros G. cbn [heads_match]. split.
      * intros H. by exists r1, r2, w.
      * intros (r1' & r2' & w' & H1 & H2 & _ & Hw & H). assert (r1' = r1) as -> by congruence. assert (w' = w) as -> by congruence. done.
    + apply case_fail; try done. intros G (r1' & r2' & w' & H1 & H2 & H & _). assert (r1' = r1) as -> by congruence. assert (r2' = r2) as -> by congruence. congruence.
  - destruct (constants M !! a) as [k1|] eqn:E1; [|apply case_undefined]. destruct (constants M !! b) as [k2|] eqn:E2; [|apply case_undefined]. ored.
    destruct (const_unify k1 k2) as [[|]|] eqn:Ek; ored; [| |apply case_undefined].
    + apply case_const; [done|]. intros G. by exists k1, k2.
    + apply case_fail; try done. intros G (k1' & k2' & H1 & H2 & H). assert (k1' = k1) as -> by congruence. assert (k2' = k2) as -> by congruence. congruence.
Qed.

(** [loop] after dereferencing. *)
Definition dispatch s (t1 : TaggedRef) (p1 : option Z) (t2 : TaggedRef) (p2 : option Z) : option (target * State) :=
  if identical t1 p1 t2 p2 then Some (NEXT, s)
  else
    match t1, t2 with
    | VAR v1, VAR v2 => p1 ← p1; p2 ← p2; var_var M s v1 p1 v2 p2
    | VAR v1, _ => var_nonvar s v1 p1 t2
    | _, VAR v2 => var_nonvar s v2 p2 t1
    | _, _ => nonvar_nonvar M s t1 t2 p2
    end.

Lemma case_sym_vars s x y r : (forall g' s', r = Some (g', s') -> g' = NEXT /\ var_effect s s' y x) -> case s x y r.
Proof. intros H. apply case_vars. intros g' s' E. destruct (H g' s' E). split; [done|]. by apply var_effect_sym. Qed.

Lemma dispatch_case s t1 p1 t2 p2 x y : reached (cells s) t1 p1 x -> reached (cells s) t2 p2 y -> case s x y (dispatch s t1 p1 t2 p2).
Proof.
  intros R1 R2. unfold dispatch. destruct (identical t1 p1 t2 p2) eqn:Ei.
  { apply case_same; [|done]. by apply (identical_reached (cells s) t1 p1 t2 p2). }
  destruct R1 as [(v & a & -> & -> & Ha & ->)|(N1 & -> & H1)], R2 as [(u & b & -> & -> & Hb & ->)|(N2 & -> & H2)].
  - ored. apply case_vars. intros g' s' E. by apply (var_var_spec M s v a u b).
  - apply case_vars. intros g' s' E. apply (var_nonvar_spec s v a t2); [done|done|]. rewrite <- E. by destruct t2.
  - apply case_sym_vars. intros g' s' E. apply (var_nonvar_spec s u b t1); [done|done|]. rewrite <- E. by destruct t1.
  - assert (t1 <> t2) as Hne. { intros ->. unfold identical in Ei. unfold nonvar in N2. rewrite N2 in Ei. by rewrite bool_decide_eq_true_2 in Ei. }
    pose proof (nonvar_case s t1 t2 p2 N1 N2 Hne H2) as Hc. destruct t1, t2; done.
Qed.

Lemma loop_case s t1 p1 t2 p2 g' s' : target_ok (cells s) (LOOP t1 p1 t2 p2) -> loop M s t1 p1 t2 p2 = Some (g', s') ->
  exists x y, rtsc (holds_in (cells s)) t1 x /\ rtsc (holds_in (cells s)) t2 y /\ case s x y (Some (g', s')).
Proof.
  intros (P1 & P2 & O1 & O2). unfold loop. destruct (DEREF (cells s) t1 p1) as [[d1 q1]|] eqn:E1; [|done]. ored. destruct (DEREF (cells s) t2 p2) as [[d2 q2]|] eqn:E2; [|done]. ored.
  intros E. change (dispatch s d1 q1 d2 q2 = Some (g', s')) in E.
  destruct (DEREF_spec (cells s) (rtsc (holds_in (cells s))) t1 p1 d1 q1) as (x & Rx & Cx); [apply _|by apply rtsc_in|done..|].
  destruct (DEREF_spec (cells s) (rtsc (holds_in (cells s))) t2 p2 d2 q2) as (y & Ry & Cy); [apply _|by apply rtsc_in|done..|].
  exists x, y. split; [done|]. split; [done|]. rewrite <- E. by apply dispatch_case.
Qed.

Lemma loop_inv t1 p1 t2 p2 s g' s' V : inv (LOOP t1 p1 t2 p2) s V -> loop M s t1 p1 t2 p2 = Some (g', s') -> g' <> FAIL ->
  exists V', (forall x y, V x y -> V' x y) /\ (trail_ok V (rebindTrail s) (cells s) -> trail_ok V' (rebindTrail s') (cells s')) /\
    inv g' s' V' /\ forall x y, closed (LOOP t1 p1 t2 p2) s V x y -> closed g' s' V' x y.
Proof.
  intros Hinv E Hg. destruct (loop_case s t1 p1 t2 p2 g' s' (proj1 Hinv) E) as (x & y & C1 & C2 & Hcase). inversion Hcase as [r Exy Er|r Hv Er|r Er Hh|p n a b Nx Ny Hne Hn Hp Hh Er|r Nx Ny Hne Hh Er|]; subst.
  - injection Er as -> ->. exists V. split; [done|]. split; [done|]. apply settled_inv; try done.
    + intros u w H. apply closed_base. by left.
    + intros u w H. apply closed_base. right. right. by right.
    + transitivity y; [apply (contents_closed NEXT s V s); [|done]|symmetry; apply (contents_closed NEXT s V s); [|done]]; intros u w H; apply closed_base; by left.
    + intros u w H. by left.
  - destruct (Hv g' s' eq_refl) as [-> He]. exists V. split; [done|]. split; [rewrite (ve_trail _ _ _ _ He); apply trail_keeps; by apply (var_effect_keeps s s' x y)|]. by apply (var_inv t1 p1 t2 p2 s s' V x y).
  - injection Er as -> ->. exists (add_pair V x y).
    assert (forall u w, holds_in (cells s) u w -> closed NEXT s (add_pair V x y) u w) as Hc by (intros u w H; apply closed_base; by left).
    split; [intros u w H; by left|]. split; [apply trail_mono; intros u w H; by left|]. apply settled_inv; try done.
    + intros u w H. by left.
    + intros u w H. apply closed_base. right. right. by right.
    + transitivity x; [by apply (contents_closed NEXT s _ s)|]. transitivity y; [apply closed_base; right; left; by right|]. symmetry. by apply (contents_closed NEXT s _ s).
    + intros u w [H|[-> ->]]; [by left|by right].
  - exists (add_pair V x y). destruct (struct_inv t1 p1 t2 p2 s V x y p n a b g' s' Hinv C1 C2 Nx Ny Hp Er) as [H1 H2]; [intros G H; by apply Hh|].
    split; [intros u w H; by left|]. split; [|done]. destruct (push_spec _ _ _ _ _ _ Er) as (-> & _ & -> & _). intros Ht.
    apply trail_rebind; [done|done|done|by right|]. apply (trail_mono V); [intros u w H; by left|done].
  - by injection Er as -> ->.
Qed.

(** ** Solutions *)

Definition finv F g s : Prop :=
  solution M (cells s) F /\ (forall n a b, (n, a, b) ∈ unifyStack s -> 0 < n) /\ (forall x y, pending g (unifyStack s) x y -> F x y) /\ (forall x y, (x, y) ∈ suspendTrail s -> F x y) /\ trail_ok F (rebindTrail s) (cells s).

Lemma solution_contents F c x y : solution M c F -> rtsc (holds_in c) x y -> F x y.
Proof. intros HF. apply rtsc_least; [by apply (so_equiv M c)|]. intros u w (p & -> & Hp & Hw). by apply (so_cell M c F HF). Qed.

Lemma solution_cells F c c' : solution M c F -> (forall x y, holds_in c' x y -> F x y) -> solution M c' F.
Proof. intros [HE _ Hs] Hc. split; [done| |done]. intros p w Hp Hw. apply Hc. by exists p. Qed.

Lemma push_finv F s n a b g s' : push s n a b = Some (g, s') -> 0 < n -> solution M (cells s) F -> (forall m p q, (m, p, q) ∈ unifyStack s -> 0 < m) -> args_related F n a b ->
  (forall x y, (exists m p q i, (m, p, q) ∈ unifyStack s /\ 0 <= i < m /\ x = REF (p + i) /\ y = REF (q + i)) -> F x y) ->
  (forall x y, (x, y) ∈ suspendTrail s -> F x y) -> trail_ok F (rebindTrail s) (cells s) -> finv F g s'.
Proof.
  intros E Hn HF Hpos Ha Hk Hs Htr. destruct (push_spec s n a b g s' E) as (Ec & Es & Er & _ & Ek & t1 & t2 & -> & E1 & E2).
  pose proof (so_equiv M _ F HF) as HE. split; [by rewrite Ec|]. split; [|split; [|split; [by rewrite Es|by rewrite Er, Ec]]].
  { rewrite Ek. destruct (Z.ltb_spec 1 n); [|done]. intros m p q [[= -> -> ->]|Hin]%elem_of_cons; [lia|by apply (Hpos m p q)]. }
  intros x y [[-> ->]|(m & p & q & i & Hin & Hr)].
  - assert (forall u t, tagged2NonVariable (cells s) u = Some t -> F (REF u) t) as Hnv.
    { intros u t. apply nonVariable_related; [done|]. intros v w H. apply (solution_contents F (cells s)); [done|by apply rtsc_in]. }
    transitivity (REF a); [symmetry; by apply Hnv|]. transitivity (REF b); [|by apply Hnv]. pose proof (Ha 0 ltac:(lia)) as H0. by rewrite !Z.add_0_r in H0.
  - rewrite Ek in Hin. destruct (Z.ltb_spec 1 n); [|by apply Hk; exists m, p, q, i]. apply elem_of_cons in Hin as [[= -> -> ->]|Hin]; [|by apply Hk; exists m, p, q, i].
    destruct Hr as (Hi & -> & ->). pose proof (Ha (i + 1) ltac:(lia)) as Hx. by replace (a + (i + 1)) with (a + 1 + i) in Hx by lia; replace (b + (i + 1)) with (b + 1 + i) in Hx by lia.
Qed.

Lemma next_finv F s g' s' : finv F NEXT s -> next s = Some (g', s') -> finv F g' s'.
Proof.
  intros (HF & Hn & Hp & Hs & Htr). unfold next. destruct (unifyStack s) as [|[[n a] b] k] eqn:Ek; [done|]. intros E. apply (push_finv F _ n a b _ _ E); try done.
  - apply (Hn n a b). by left.
  - intros m p q Hin. apply (Hn m p q). by right.
  - intros i Hi. apply Hp. right. exists n, a, b, i. split; [by left|done].
  - intros x y (m & p & q & i & Hin & Hr). apply Hp. right. exists m, p, q, i. split; [by right|done].
Qed.

Lemma case_finv F s t1 p1 t2 p2 x y g' s' : widths_positive -> finv F (LOOP t1 p1 t2 p2) s -> F x y -> case s x y (Some (g', s')) -> finv F g' s' /\ g' <> FAIL.
Proof.
  intros Hwid (HF & Hpos & Hp & Hs & Htr) Hxy Hcase. pose proof (so_equiv M _ F HF) as HE.
  assert (forall u w, pending NEXT (unifyStack s) u w -> F u w) as Hk by (intros u w [[]|H]; apply Hp; by right).
  inversion Hcase as [r Exy Er|r Hv Er|r Er Hh|p n a b Nx Ny Hne Hn Hpt Hh Er|r Nx Ny Hne Hh Er|]; subst.
  - by injection Er as -> ->.
  - destruct (Hv g' s' eq_refl) as [-> He]. pose proof (var_effect_keeps _ _ _ _ He) as Hkeep. destruct He as [Ek Er _ Hc].
    split; [|done]. split; [|split; [by rewrite Ek|split; [by rewrite Ek|split; [|rewrite Er; by apply (trail_keeps _ _ (cells s))]]]].
    + apply (solution_cells F (cells s)); [done|]. intros u w Huw. destruct Hc as [(_ & a & t & Hor & Hb)|[Hsame _]].
      * apply (binds_holds _ _ _ _ _ _ Hb) in Huw as [Huw|[-> ->]]; [apply (solution_contents F (cells s)); [done|by apply rtsc_in]|].
        destruct Hor as [[<- ->]|[<- ->]]; [done|by symmetry].
      * apply (same_holds _ _ _ _ Hsame) in Huw. apply (solution_contents F (cells s)); [done|by apply rtsc_in].
    + intros u w Hin. destruct Hc as [(E & _)|[_ [E|E]]]; rewrite E in Hin; [by apply Hs| |]; apply elem_of_cons in Hin as [[= -> ->]|Hin]; [done|by apply Hs|by symmetry|by apply Hs].
  - by injection Er as -> ->.
  - split; [|destruct (push_spec _ _ _ _ _ _ Er) as (_ & _ & _ & _ & _ & u1 & u2 & -> & _); done].
    destruct (so_nonvar M _ F HF x y Hxy Nx Ny) as [?|Hm]; [done|]. apply (push_finv F (rebind s p y x) n a b); try done.
    + by apply Hn.
    + apply (solution_cells F (cells s)); [done|]. intros u w Huw. assert (plain x /\ plain y) as [Px Py] by (split; [by destruct x|by destruct y]).
      assert (forall u w, holds_in (cells s) u w -> F u w) as HFc by (intros u' w' H'; apply (solution_contents F (cells s)); [done|by apply rtsc_in]).
      destruct (rebind_holds (cells s) p x y u w Hpt Px Py) as [_ Hr]. destruct (Hr Huw) as [H|[-> H]]; [by apply HFc|]. transitivity y; [by apply HFc|by symmetry].
    + by apply Hh.
    + intros u w H. apply Hk. by right.
    + by apply trail_rebind.
  - injection Er as -> ->. destruct (so_nonvar M _ F HF x y Hxy Nx Ny) as [?|Hm]; [done|]. by apply Hh in Hm.
Qed.

Lemma loop_finv F t1 p1 t2 p2 s g' s' : widths_positive -> target_ok (cells s) (LOOP t1 p1 t2 p2) -> finv F (LOOP t1 p1 t2 p2) s -> loop M s t1 p1 t2 p2 = Some (g', s') ->
  finv F g' s' /\ g' <> FAIL.
Proof.
  intros Hwid Hok HF E. destruct (loop_case s t1 p1 t2 p2 g' s' Hok E) as (x & y & C1 & C2 & Hcase). apply (case_finv F s t1 p1 t2 p2 x y); [done|done| |done].
  destruct HF as (HF & _ & Hp & _). pose proof (so_equiv M _ F HF) as HE. transitivity t1; [symmetry; by apply (solution_contents F (cells s))|].
  transitivity t2; [apply Hp; by left|by apply (solution_contents F (cells s))].
Qed.

(** ** The whole run *)

Lemma loop_target t1 p1 t2 p2 s g' s' : target_ok (cells s) (LOOP t1 p1 t2 p2) -> loop M s t1 p1 t2 p2 = Some (g', s') -> target_ok (cells s') g'.
Proof.
  intros Hok E. destruct (loop_case s t1 p1 t2 p2 g' s' Hok E) as (x & y & _ & _ & Hcase). inversion Hcase as [r Exy Er|r Hv Er|r Er Hh|p n a b Nx Ny Hne Hn Hp Hh Er|r Nx Ny Hne Hh Er|]; subst.
  - by injection Er as -> ->.
  - by destruct (Hv g' s' eq_refl) as [-> _].
  - by injection Er as -> ->.
  - destruct (push_spec _ _ _ _ _ _ Er) as (Ec & _ & _ & H & _). by rewrite Ec.
  - by injection Er as -> ->.
Qed.

Lemma next_target s g' s' : next s = Some (g', s') -> target_ok (cells s') g'.
Proof.
  unfold next. destruct (unifyStack s) as [|[[n a] b] k]; [done|]. intros E. destruct (push_spec _ _ _ _ _ _ E) as (Ec & _ & _ & H & _). by rewrite Ec.
Qed.

Lemma rounds_result (fuel : nat) g s r s' : rounds M fuel g s = Some (r, s') -> r = PROCEED \/ r = FAILED.
Proof.
  revert g s. induction fuel as [|fuel IH]; intros g s; cbn [rounds]; [done|]. destruct g as [t1 p1 t2 p2| |].
  - destruct (loop M s t1 p1 t2 p2) as [[g' s1]|]; [|done]. ored. apply IH.
  - destruct (unifyStack s); [intros [= <- <-]; by left|]. destruct (next s) as [[g' s1]|]; [|done]. ored. apply IH.
  - intros [= <- <-]. by right.
Qed.

Lemma next_cells s g' s' : next s = Some (g', s') -> cells s' = cells s /\ rebindTrail s' = rebindTrail s /\ suspendTrail s' = suspendTrail s.
Proof.
  unfold next. destruct (unifyStack s) as [|[[n a] b] k]; [done|]. intros E. by destruct (push_spec _ _ _ _ _ _ E) as (Ec & Es & Er & _).
Qed.

Lemma loop_undo t1 p1 t2 p2 s g' s' : target_ok (cells s) (LOOP t1 p1 t2 p2) -> loop M s t1 p1 t2 p2 = Some (g', s') ->
  keeps (undo (rebindTrail s) (cells s)) (undo (rebindTrail s') (cells s')).
Proof.
  intros Hok E. destruct (loop_case s t1 p1 t2 p2 g' s' Hok E) as (x & y & _ & _ & Hcase). inversion Hcase as [r Exy Er|r Hv Er|r Er Hh|p n a b Nx Ny Hne Hn Hp Hh Er|r Nx Ny Hne Hh Er|]; subst.
  - injection Er as -> ->. apply keeps_refl.
  - destruct (Hv g' s' eq_refl) as [-> He]. rewrite (ve_trail _ _ _ _ He). apply undo_keeps. by apply (var_effect_keeps s s' x y).
  - injection Er as -> ->. apply keeps_refl.
  - destruct (push_spec _ _ _ _ _ _ Er) as (-> & _ & -> & _). unfold rebind. cbn [doBind set_trail set_cells rebindTrail cells undo]. rewrite rebind_undone by done. apply keeps_refl.
  - injection Er as -> ->. apply keeps_refl.
Qed.

Lemma rounds_undo (fuel : nat) g s r s' : target_ok (cells s) g -> rounds M fuel g s = Some (r, s') ->
  keeps (undo (rebindTrail s) (cells s)) (undo (rebindTrail s') (cells s')).
Proof.
  revert g s. induction fuel as [|fuel IH]; intros g s Hok; cbn [rounds]; [done|]. destruct g as [t1 p1 t2 p2| |]; [| |intros [= <- <-]; apply keeps_refl].
  - destruct (loop M s t1 p1 t2 p2) as [[g' s1]|] eqn:E; [|done]. ored. intros Hr. apply (keeps_trans _ (undo (rebindTrail s1) (cells s1))).
    + by apply (loop_undo t1 p1 t2 p2 s g').
    + apply (IH g'); [by apply (loop_target t1 p1 t2 p2 s)|done].
  - destruct (unifyStack s); [intros [= <- <-]; apply keeps_refl|]. destruct (next s) as [[g' s1]|] eqn:E; [|done]. ored. intros Hr.
    pose proof (next_cells s g' s1 E) as (Ec & Er & _). rewrite <- Ec, <- Er. apply (IH g'); [by apply (next_target s)|done].
Qed.

(** When all rounds are done, everything is settled except what was put aside. *)
Lemma rounds_inv (fuel : nat) g s s' V : inv g s V -> trail_ok V (rebindTrail s) (cells s) -> rounds M fuel g s = Some (PROCEED, s') ->
  unifyStack s' = [] /\ exists V', (forall x y, V x y -> V' x y) /\ trail_ok V' (rebindTrail s') (cells s') /\ inv NEXT s' V' /\ forall x y, closed g s V x y -> closed NEXT s' V' x y.
Proof.
  revert g s V. induction fuel as [|fuel IH]; intros g s V Hinv Ht; cbn [rounds]; [done|]. destruct g as [t1 p1 t2 p2| |]; [| |done].
  - destruct (loop M s t1 p1 t2 p2) as [[g' s1]|] eqn:E; [|done]. ored. intros Hr. assert (g' <> FAIL) as Hg by (intros ->; by destruct fuel).
    destruct (loop_inv _ _ _ _ _ _ _ V Hinv E Hg) as (V1 & HV1 & Ht1 & Hinv1 & Hm1). destruct (IH g' s1 V1 Hinv1 (Ht1 Ht) Hr) as (Hk & V2 & HV2 & Ht2 & Hinv2 & Hm2).
    split; [done|]. exists V2. split; [auto|]. split; [done|]. split; [done|auto].
  - destruct (unifyStack s) eqn:Ek; [intros [= <-]; split; [done|]; by exists V|]. destruct (next s) as [[g' s1]|] eqn:E; [|done]. ored. intros Hr.
    destruct (next_inv _ _ _ V Hinv E) as (Hinv1 & Hm1). pose proof (next_cells s g' s1 E) as (Ec & Er & _). rewrite <- Ec, <- Er in Ht.
    destruct (IH g' s1 V Hinv1 Ht Hr) as (Hk & V2 & HV2 & Ht2 & Hinv2 & Hm2). split; [done|]. exists V2. split; [done|]. split; [done|]. split; [done|auto].
Qed.

Lemma rounds_finv F (fuel : nat) g s r s' : widths_positive -> target_ok (cells s) g -> g <> FAIL -> finv F g s -> rounds M fuel g s = Some (r, s') ->
  r = PROCEED /\ finv F NEXT s'.
Proof.
  intros Hwid. revert g s. induction fuel as [|fuel IH]; intros g s Hok Hg HF; cbn [rounds]; [done|]. destruct g as [t1 p1 t2 p2| |]; [| |done].
  - destruct (loop M s t1 p1 t2 p2) as [[g' s1]|] eqn:E; [|done]. ored. destruct (loop_finv F _ _ _ _ _ _ _ Hwid Hok HF E) as [HF1 Hg1].
    apply IH; [by apply (loop_target t1 p1 t2 p2 s)|done|done].
  - destruct (unifyStack s) eqn:Ek; [by intros [= <- <-]|]. destruct (next s) as [[g' s1]|] eqn:E; [|done]. ored.
    apply IH; [by apply (next_target s)| |by apply (next_finv F s)]. intros ->. unfold next in E. rewrite Ek in E. destruct p as [[n a] b].
    destruct (push_spec _ _ _ _ _ _ E) as (_ & _ & _ & _ & _ & u1 & u2 & ? & _). done.
Qed.
End invariants.
End UnifyInv.
