(* ===== verification/UnifyTermination.v ===== *)
(** * Termination of unification

    In a store without dangling addresses and circular references every step has a result; if the
    terms have a common solution of finite height, the run ends. *)
From stdpp Require Import gmap relations.
From S2P Require Import Prelude Feature Arity SRecord Unify UnifySpec UnifySteps UnifyInv.

Module UnifyTermination.
Import Unify UnifySpec UnifySteps UnifyInv.

Section termination.
Context (M : Machine).
Implicit Types (c : gmap Z TaggedRef) (s : State) (g : target) (F : TaggedRef -> TaggedRef -> Prop).

(** ** Chains of references *)

(** [w] leads in [n] steps to a word that is not a reference. *)
Inductive chain c : TaggedRef -> nat -> Prop :=
  | chain_end w : oz_isRef w = false -> chain c w 0
  | chain_ref p w n : c !! p = Some w -> chain c w n -> chain c (REF p) (S n).

Lemma chain_unique c w n m : chain c w n -> chain c w m -> n = m.
Proof.
  intros H. revert m. induction H as [w Hw|p w n Hp _ IH]; intros m Hm; inversion Hm as [w' Hw'|p' w' m' Hp' Hc']; subst; try done.
  f_equal. apply IH. by assert (w = w') as -> by congruence.
Qed.

Lemma chain_visits c w n : chain c w n ->
  exists l : list Z, length l = n /\ NoDup l /\ forall p, p ∈ l -> p ∈ dom c /\ exists m, (m <= n)%nat /\ chain c (REF p) m.
Proof.
  intros H. induction H as [w Hw|p w n Hp Hc (l & Hl & Hd & IH)].
  - exists []. split; [done|]. split; [constructor|by intros p ?%elem_of_nil].
  - exists (p :: l). split; [by cbn; rewrite Hl|]. split.
    + constructor; [|done]. intros Hin. destruct (IH p Hin) as (_ & m & Hm & Hcm). pose proof (chain_unique c _ _ _ Hcm (chain_ref c p w n Hp Hc)). lia.
    + intros q [->|Hin]%elem_of_cons.
      * split; [by apply elem_of_dom_2 in Hp|]. exists (S n). split; [done|by apply (chain_ref c p w)].
      * destruct (IH q Hin) as (Hq & m & Hm & Hcm). split; [done|]. exists m. split; [lia|done].
Qed.

Lemma chain_bound c w n : chain c w n -> (n <= size c)%nat.
Proof.
  intros H. destruct (chain_visits c w n H) as (l & <- & Hd & Hin). rewrite <- size_dom. apply submseteq_length. apply NoDup_submseteq; [done|].
  intros p Hp. apply elem_of_elements. by apply Hin.
Qed.

Lemma chain_DEREF_loop c w n (fuel : nat) p : chain c w n -> (n <= fuel)%nat -> is_Some (DEREF_loop fuel c w p).
Proof.
  intros H. revert fuel p. induction H as [w Hw|q w n Hq _ IH]; intros fuel p Hf.
  - exists (w, p). destruct fuel; by destruct w.
  - destruct fuel as [|fuel]; [lia|]. cbn [DEREF_loop]. rewrite Hq. ored. apply IH. lia.
Qed.

Definition has_chain c (w : TaggedRef) : Prop := exists n, chain c w n.

Lemma chain_DEREF c w p : has_chain c w -> exists t q, DEREF c w p = Some (t, q).
Proof.
  intros [n H]. destruct (chain_DEREF_loop c w n (S (size c)) p H) as [[t q] E]; [pose proof (chain_bound c w n H); lia|by exists t, q].
Qed.

(** References stay, and the other cells lead somewhere. *)
Lemma chain_step c c' w : has_chain c w ->
  (forall p w0, c !! p = Some w0 -> if oz_isRef w0 then c' !! p = Some w0 else exists w1, c' !! p = Some w1 /\ has_chain c' w1) -> has_chain c' w.
Proof.
  intros [n H] Hstep. induction H as [w Hw|p w n Hp Hc IH]; [exists 0%nat; by constructor|]. pose proof (Hstep p w Hp) as Hs. destruct (oz_isRef w) eqn:Ew.
  - destruct IH as [m Hm]. exists (S m). by apply (chain_ref c' p w).
  - destruct Hs as (w1 & Hp1 & m & Hm). exists (S m). by apply (chain_ref c' p w1).
Qed.

(** ** Well-formed stores *)

Definition word_ok c (w : TaggedRef) : Prop :=
  match w with
  | REF p => is_Some (c !! p)
  | VAR _ | TOKEN _ => True
  | LTUPLE a => forall i, 0 <= i < 2 -> is_Some (c !! (a + i))
  | SRECORD a => exists r w, heads M !! a = Some r /\ SRecord.getWidth (aritytable M) r = Some w /\ forall i, 0 <= i < w -> is_Some (c !! (a + i))
  | CONST a => is_Some (constants M !! a)
  end.

Record wf s : Prop := {
  wf_types : types_ok s;
  wf_words p w : cells s !! p = Some w -> word_ok (cells s) w;
  wf_chains p w : cells s !! p = Some w -> has_chain (cells s) w
}.

Definition grows c c' : Prop := forall p, is_Some (c !! p) -> is_Some (c' !! p).

Lemma grows_refl c : grows c c.
Proof. by intros p. Qed.
#[local] Hint Resolve grows_refl : core.

Lemma grows_trans c1 c2 c3 : grows c1 c2 -> grows c2 c3 -> grows c1 c3.
Proof. intros H1 H2 p Hp. by apply H2, H1. Qed.

Lemma word_grows c c' w : grows c c' -> word_ok c w -> word_ok c' w.
Proof.
  intros Hg. destruct w; cbn [word_ok]; try done.
  - apply Hg.
  - intros H i Hi. by apply Hg, H.
  - intros (r & w & Hr & Hw & H). exists r, w. split; [done|]. split; [done|]. intros i Hi. by apply Hg, H.
Qed.

Lemma ref_chain s p : wf s -> is_Some (cells s !! p) -> has_chain (cells s) (REF p).
Proof. intros Hw [w Hp]. destruct (wf_chains s Hw p w Hp) as [n Hn]. exists (S n). by apply (chain_ref _ p w). Qed.

Lemma word_chain s w : wf s -> word_ok (cells s) w -> has_chain (cells s) w.
Proof. intros Hw Hok. destruct w as [p|?|?|?|?|?]; [by apply ref_chain|..]; exists 0%nat; by constructor. Qed.

(** A change of cells that are not references to words that lead somewhere keeps the store well formed. *)
Lemma wf_change s s' : wf s -> types_ok s' ->
  (forall p w, cells s !! p = Some w -> if oz_isRef w then cells s' !! p = Some w else exists w1, cells s' !! p = Some w1 /\ word_ok (cells s) w1 /\ has_chain (cells s') w1) ->
  (forall p, is_Some (cells s' !! p) -> is_Some (cells s !! p)) ->
  wf s' /\ grows (cells s) (cells s').
Proof.
  intros Hw Ht Hc Hback. assert (grows (cells s) (cells s')) as Hg.
  { intros p [w Hp]. specialize (Hc p w Hp). destruct (oz_isRef w); [by exists w|]. destruct Hc as (w1 & Hp1 & _). by exists w1. }
  split; [|done]. split; [done| |].
  - intros p w Hp. destruct (Hback p) as [w0 Hp0]; [by exists w|]. specialize (Hc p w0 Hp0). apply (word_grows (cells s)); [done|]. destruct (oz_isRef w0).
    + assert (w = w0) as -> by congruence. by apply (wf_words s Hw p).
    + destruct Hc as (w1 & Hp1 & Hok & _). by assert (w = w1) as -> by congruence.
  - intros p w Hp. destruct (Hback p) as [w0 Hp0]; [by exists w|]. pose proof (Hc p w0 Hp0) as Hc0. destruct (oz_isRef w0).
    + assert (w = w0) as -> by congruence. apply (chain_step (cells s)); [by apply (wf_chains s Hw p)|]. intros q w1 Hq. specialize (Hc q w1 Hq).
      destruct (oz_isRef w1); [done|]. destruct Hc as (w2 & ? & _ & ?). by exists w2.
    + destruct Hc0 as (w1 & Hp1 & _ & Hch). by assert (w = w1) as -> by congruence.
Qed.

(** ** Steps have results and keep the store well formed *)

(** What is reached from a well-formed word. *)
Lemma reached_ok s t p x : reached (cells s) t p x -> (nonvar t -> word_ok (cells s) t) -> word_ok (cells s) x.
Proof. intros [(v & a & _ & _ & Ha & ->)|(Hn & -> & _)] H; [by exists (VAR v)|by apply H]. Qed.

Lemma DEREF_loop_ok s (fuel : nat) t p t' p' : wf s -> word_ok (cells s) t -> DEREF_loop fuel (cells s) t p = Some (t', p') -> word_ok (cells s) t'.
Proof.
  intros Hw. revert t p. induction fuel as [|fuel IH]; intros t p Ht; destruct t as [q|v|q|q|q|w]; cbn [DEREF_loop]; try (by intros [= <- <-]).
  destruct (cells s !! q) as [w|] eqn:E; [|done]. ored. apply IH. by apply (wf_words s Hw q).
Qed.

Lemma var_effect_wf s s' x y : wf s -> var_effect s s' x y -> word_ok (cells s) x -> word_ok (cells s) y -> plain x -> plain y -> x <> y ->
  (forall a, x = REF a -> isvar (cells s) a) -> (forall a, y = REF a -> isvar (cells s) a) -> wf s' /\ grows (cells s) (cells s').
Proof.
  intros Hw [_ _ HT Hc] Hx Hy Px Py Hne Vx Vy. pose proof (HT (wf_types s Hw)) as Ht. apply wf_change; [done|done| |].
  - intros p w Hp. destruct Hc as [(_ & a & u & Hor & [v Hv] & Ha & Hu & Hb)|[Hs _]].
    + destruct (decide (p = a)) as [->|Hpa].
      * assert (w = VAR v) as -> by congruence. cbn [oz_isRef]. exists u. split; [done|]. split; [destruct Hor as [[_ ->]|[_ ->]]; done|].
        assert (forall b, u = REF b -> isvar (cells s) b /\ b <> a) as Hub.
        { intros b Eb. destruct Hor as [[Ea ->]|[Ea ->]]; (split; [by auto|]); intros ->; apply Hne; congruence. }
        destruct u as [b|?|?|?|?|?]; [|done|exists 0%nat; by constructor..]. destruct (Hub b eq_refl) as [[z Hz] Hba]. exists 1%nat.
        destruct (Hb b Hba) as [Eb|[_ [z' Ez]]]; [apply (chain_ref _ b (VAR z)); [congruence|by constructor]|apply (chain_ref _ b (VAR z')); [done|by constructor]].
      * destruct (Hb p Hpa) as [Ep|[[z Hz] [z' Hz']]]; rewrite ?Ep, ?Hz'.
        -- destruct (oz_isRef w) eqn:Ew; [done|]. exists w. split; [done|]. split; [by apply (wf_words s Hw p)|]. exists 0%nat. by constructor.
        -- assert (w = VAR z) as -> by congruence. cbn. exists (VAR z'). split; [done|]. split; [done|]. exists 0%nat. by constructor.
    + destruct (Hs p) as [Ep|[[z Hz] [z' Hz']]]; rewrite ?Ep, ?Hz'.
      * destruct (oz_isRef w) eqn:Ew; [done|]. exists w. split; [done|]. split; [by apply (wf_words s Hw p)|]. exists 0%nat. by constructor.
      * assert (w = VAR z) as -> by congruence. cbn. exists (VAR z'). split; [done|]. split; [done|]. exists 0%nat. by constructor.
  - intros p [w Hp]. destruct Hc as [(_ & a & u & Hor & [v Hv] & Ha & Hu & Hb)|[Hs _]].
    + destruct (decide (p = a)) as [->|Hpa]; [by exists (VAR v)|]. destruct (Hb p Hpa) as [Ep|[[z Hz] _]]; [exists w; congruence|by exists (VAR z)].
    + destruct (Hs p) as [Ep|[[z Hz] _]]; [exists w; congruence|by exists (VAR z)].
Qed.

Lemma rebind_wf s (p : option Z) (x y : TaggedRef) : wf s -> nonvar x -> nonvar y -> word_ok (cells s) x -> (forall q, p = Some q -> cells s !! q = Some y) ->
  wf (rebind s p y x) /\ grows (cells s) (cells (rebind s p y x)).
Proof.
  intros Hw Nx Ny Hx Hp. assert (plain x) as Px by by destruct x. apply wf_change; [done| | |]; destruct p as [a|]; cbn [rebind doBind set_trail set_cells bind_cell cells]; try by destruct Hw.
  - intros b v. cbn [rebind doBind set_trail set_cells bind_cell cells var_type]. destruct (decide (a = b)) as [->|]; [rewrite lookup_insert_eq; intros [= ->]; done|].
    rewrite lookup_insert_ne by done. apply (wf_types s Hw).
  - intros q w Hq. specialize (Hp a eq_refl). destruct (decide (a = q)) as [->|Hne].
    + assert (w = y) as -> by congruence. destruct (oz_isRef y) eqn:Ey; [by destruct y|]. exists x. rewrite lookup_insert_eq. split; [done|]. split; [done|]. exists 0%nat. constructor. by destruct x.
    + rewrite lookup_insert_ne by done. destruct (oz_isRef w) eqn:Ew; [done|]. exists w. split; [done|]. split; [by apply (wf_words s Hw q)|]. exists 0%nat. by constructor.
  - intros q w Hq. destruct (oz_isRef w) eqn:Ew; [done|]. exists w. split; [done|]. split; [by apply (wf_words s Hw q)|]. exists 0%nat. by constructor.
  - intros q [w Hq]. destruct (decide (a = q)) as [->|Hne]; [exists y; by apply Hp|]. rewrite lookup_insert_ne in Hq by done. by exists w.
Qed.

Lemma variable_cast s a v u t : wf s -> cells s !! a = Some (VAR u) -> is_Some (var_type s !! v) -> exists s', oz_var_cast s a v t = Some s'.
Proof.
  intros Hw Ha [ft Hv]. unfold oz_var_cast. rewrite Hv. ored. destruct (cast_demands t ft); [|by eexists]. destruct (wf_types s Hw a u Ha) as [t' Ht'].
  unfold oz_var_makeNeeded. rewrite Ha. ored. rewrite Ht'. ored. destruct (oz_isNeeded t'); [by eexists|]. unfold oz_var_makeNeededLocal, oz_getNonOptVar. rewrite Ha. ored. rewrite Ht'. ored.
  destruct t'; ored; cbn [var_type]; rewrite ?lookup_insert_eq, ?Ht'; ored; by eexists.
Qed.

Lemma cast_types s a v t s' u : oz_var_cast s a v t = Some s' -> is_Some (var_type s !! u) -> is_Some (var_type s' !! u).
Proof.
  assert (forall (m : gmap Z TypeOfVariable) (k : Z) (x : TypeOfVariable), is_Some (m !! u) -> is_Some (<[k := x]> m !! u)) as Hins.
  { intros m k x H. destruct (decide (k = u)) as [->|]; [rewrite lookup_insert_eq; by eexists|by rewrite lookup_insert_ne]. }
  unfold oz_var_cast. destruct (var_type s !! v) as [ft|]; [|done]. ored. destruct (cast_demands t ft); [|by intros [= <-]].
  unfold oz_var_makeNeeded. destruct (cells s !! a) as [w|] eqn:Ea; [|done]. ored. destruct w as [|ov| | | |]; try done. destruct (var_type s !! ov) as [t'|] eqn:Et; [|done]. ored.
  destruct (oz_isNeeded t'); [by intros [= <-]|]. unfold oz_var_makeNeededLocal, oz_getNonOptVar. rewrite Ea. ored. rewrite Et. ored.
  destruct t'; ored; cbn [var_type]; rewrite ?lookup_insert_eq, ?Et; ored; intros [= <-]; cbn [set_types var_type]; auto.
Qed.

Lemma var_unify_total s v a b : isvar (cells s) b -> is_Some (var_type s !! v) -> exists r, oz_var_unify s v a b = Some r.
Proof.
  intros Hb [t Ht]. unfold oz_var_unify, oz_var_unifyLocal. rewrite Ht. ored. destruct t; cbn [oz_var_bindLocal]; rewrite ?bindLocalVar_ref by done; ored; by eexists.
Qed.

Lemma var_var_total s v1 a v2 b : wf s -> cells s !! a = Some (VAR v1) -> cells s !! b = Some (VAR v2) -> exists r, var_var M s v1 a v2 b = Some r.
Proof.
  intros Hw Ha Hb. unfold var_var. destruct (v1 =? currentOptVar M); [by eexists|]. destruct (v2 =? currentOptVar M); [by eexists|].
  pose proof (wf_types s Hw a v1 Ha) as T1. pose proof (wf_types s Hw b v2 Hb) as T2. destruct T1 as [t1 E1], T2 as [t2 E2]. rewrite E1, E2. ored.
  assert (forall v x u y t, cells s !! x = Some (VAR v) -> cells s !! y = Some (VAR u) ->
    exists r, (s1 ← oz_var_cast s y u t; '(res, s1) ← oz_var_unify s1 v x y;
     match res with PROCEED => Some (NEXT, s1) | SUSPEND => Some (NEXT, suspendUnify s1 (REF x) (REF y)) | FAILED => Some (FAIL, s1) end) = Some r) as Hgen.
  { intros v x u y t Hx Hy. destruct (variable_cast s y u u t Hw Hy (wf_types s Hw y u Hy)) as [s1 Ec]. rewrite Ec. ored. destruct (cast_spec _ _ _ _ _ Ec) as (Hs & _).
    destruct (var_unify_total s1 v x y) as [[res s2] Eu]; [apply (same_isvar (cells s)); [done|by exists u]|apply (cast_types s y u t s1 v Ec), (wf_types s Hw x v Hx)|].
    rewrite Eu. ored. destruct res; by eexists. }
  destruct (CMPVAR t1 t2 <? 0); by apply Hgen.
Qed.

Lemma var_nonvar_total s v a w : wf s -> cells s !! a = Some (VAR v) -> nonvar w -> exists r, var_nonvar s v (Some a) w = Some r.
Proof.
  intros Hw Ha Hn. unfold var_nonvar. destruct (isOptVar s v); [by eexists|]. ored. unfold oz_var_bind. destruct (wf_types s Hw a v Ha) as [t ->]. ored.
  destruct t; cbn [oz_var_bindLocal]; rewrite ?bindLocalVar_nonvar by done; ored; by eexists.
Qed.

(** ** Ranks *)

(** The cells of the arguments of a structure. *)
Definition argument (x : TaggedRef) (p : Z) : Prop :=
  match x with
  | LTUPLE a => a <= p < a + 2
  | SRECORD a => exists r w, heads M !! a = Some r /\ SRecord.getWidth (aritytable M) r = Some w /\ a <= p < a + w
  | _ => False
  end.

(** A height of the terms: equal words have the same height, arguments a smaller one. *)
Definition ranked F (h : TaggedRef -> nat) : Prop :=
  (forall x y, F x y -> h x = h y) /\ forall x p, argument x p -> (h (REF p) < h x)%nat.

Context (F : TaggedRef -> TaggedRef -> Prop) (h : TaggedRef -> nat).
Hypothesis Hwid : widths_positive M.
Hypothesis Hrank : ranked F h.

(** The [n] argument cells from [a] and [b] exist, and those from [a] have a rank below [k]. *)
Definition args_below (k : nat) c (n a b : Z) : Prop :=
  forall i, 0 <= i < n -> is_Some (c !! (a + i)) /\ is_Some (c !! (b + i)) /\ (h (REF (a + i)) < k)%nat.

Lemma args_grow k c c' n a b : grows c c' -> args_below k c n a b -> args_below k c' n a b.
Proof. intros Hg H i Hi. destruct (H i Hi) as (? & ? & ?). split; [by apply Hg|]. split; [by apply Hg|done]. Qed.

Lemma args_tail k c n a b : args_below k c n a b -> args_below k c (n - 1) (a + 1) (b + 1).
Proof. intros H i Hi. replace (a + 1 + i) with (a + (i + 1)) by lia. replace (b + 1 + i) with (b + (i + 1)) by lia. apply H. lia. Qed.

(** A step of the loop ends with nothing new to do, or pushes arguments of lower rank. *)
Inductive progress s (k : nat) : option (target * State) -> Prop :=
  | progress_next s' : unifyStack s' = unifyStack s -> wf s' -> grows (cells s) (cells s') -> progress s k (Some (NEXT, s'))
  | progress_push s1 n a b r : unifyStack s1 = unifyStack s -> wf s1 -> grows (cells s) (cells s1) -> 0 < n -> args_below k (cells s1) n a b ->
      push s1 n a b = Some r -> progress s k (Some r).

Lemma push_total s k n a b : 0 < n -> args_below k (cells s) n a b -> exists r, push s n a b = Some r.
Proof.
  intros Hn Ha. destruct (Ha 0 ltac:(lia)) as ([w1 H1] & [w2 H2] & _). rewrite Z.add_0_r in H1, H2. unfold push.
  assert (cells (if 1 <? n then set_stack s ((n - 1, a + 1, b + 1) :: unifyStack s) else s) = cells s) as Ec by by destruct (1 <? n).
  unfold tagged2NonVariable. rewrite !Ec, H1, H2. ored. by eexists.
Qed.

Lemma struct_progress s (p : option Z) x y n a b k : wf s -> word_ok (cells s) x -> (forall q, p = Some q -> cells s !! q = Some y) -> nonvar x -> nonvar y ->
  0 < n -> args_below k (cells s) n a b -> progress s k (push (rebind s p y x) n a b).
Proof.
  intros Hw Hx Hp Nx Ny Hn Ha. destruct (rebind_wf s p x y Hw Nx Ny Hx Hp) as [Hw1 Hg]. pose proof (args_grow _ _ _ _ _ _ Hg Ha) as Ha1.
  destruct (push_total _ k n a b Hn Ha1) as [r Er]. rewrite Er. by apply (progress_push s k (rebind s p y x) n a b r).
Qed.

Lemma nonvar_progress s (p : option Z) x y k : wf s -> word_ok (cells s) x -> word_ok (cells s) y -> (forall q, p = Some q -> cells s !! q = Some y) -> nonvar x -> nonvar y ->
  heads_match M F x y -> h x = k -> progress s k (nonvar_nonvar M s x y p).
Proof.
  intros Hw Hx Hy Hp Nx Ny Hm <-. destruct Hrank as [_ Hr]. destruct x as [?|?|a|a|a|a], y as [?|?|b|b|b|b]; try done; cbn [nonvar_nonvar].
  - apply struct_progress; try done. intros i Hi. split; [by apply Hx|]. split; [by apply Hy|]. apply Hr. cbn. lia.
  - destruct Hm as (r1 & r2 & w & H1 & H2 & Hc & Ew & _). destruct (same_functor M r1 r2 Hc) as [_ Ew2]. rewrite H1, H2. ored. rewrite Hc. cbn [negb]. rewrite Ew. ored.
    destruct Hx as (r1' & w1 & E1 & E1w & Hx), Hy as (r2' & w2 & E2 & E2w & Hy). assert (r1' = r1) as -> by congruence. assert (r2' = r2) as -> by congruence.
    assert (w1 = w) as -> by congruence. assert (w2 = w) as -> by congruence.
    apply struct_progress; try done; [by exists r1, w|by apply (Hwid a r1)|]. intros i Hi. split; [by apply Hx|]. split; [by apply Hy|]. apply Hr. exists r1, w. split; [done|]. split; [done|lia].
  - destruct Hm as (k1 & k2 & H1 & H2 & Hc). rewrite H1, H2. ored. rewrite Hc. ored. by apply progress_next.
Qed.

Lemma reached_identical c t1 p1 t2 p2 x y : reached c t1 p1 x -> reached c t2 p2 y -> x = y -> identical t1 p1 t2 p2 = true.
Proof.
  unfold identical, nonvar. intros [(v & a & -> & -> & Ha & ->)|(N1 & -> & H1)] [(u & b & -> & -> & Hb & ->)|(N2 & -> & H2)]; cbn [oz_isVarOrRef].
  - intros [= ->]. by apply bool_decide_eq_true_2.
  - intros <-. done.
  - intros ->. done.
  - intros ->. rewrite N2. by apply bool_decide_eq_true_2.
Qed.

Lemma reached_var c t p x a : reached c t p x -> x = REF a -> isvar c a.
Proof. intros [(v & b & -> & -> & Hb & ->)|(N & -> & _)]; [intros [= ->]; by exists v|by intros ->]. Qed.

Lemma vars_progress s x y k r t1 p1 t2 p2 : wf s -> reached (cells s) t1 p1 x -> reached (cells s) t2 p2 y -> word_ok (cells s) x -> word_ok (cells s) y -> x <> y ->
  (exists r', r = Some r') -> (forall g' s', r = Some (g', s') -> g' = NEXT /\ var_effect s s' x y) -> progress s k r.
Proof.
  intros Hw R1 R2 Hx Hy Hne [[g' s'] ->] Hv. destruct (Hv g' s' eq_refl) as [-> He].
  destruct (var_effect_wf s s' x y Hw He Hx Hy (reached_plain _ _ _ _ R1) (reached_plain _ _ _ _ R2) Hne) as [Hw' Hg]; [intros a; by apply (reached_var _ t1 p1)|intros a; by apply (reached_var _ t2 p2)|].
  apply progress_next; [by apply (ve_stack _ _ _ _ He)|done|done].
Qed.

Lemma dispatch_progress s t1 p1 t2 p2 x y k : wf s -> solution M (cells s) F -> reached (cells s) t1 p1 x -> reached (cells s) t2 p2 y -> word_ok (cells s) x -> word_ok (cells s) y ->
  F x y -> h x = k -> progress s k (dispatch M s t1 p1 t2 p2).
Proof.
  intros Hw HF R1 R2 Hx Hy Hxy Hk. destruct (decide (x = y)) as [Exy|Hne].
  { unfold dispatch. rewrite (reached_identical (cells s) t1 p1 t2 p2 x y) by done. by apply progress_next. }
  assert (identical t1 p1 t2 p2 = false) as Ei. { apply not_true_is_false. intros H. by apply Hne, (identical_reached (cells s) t1 p1 t2 p2). }
  pose proof R1 as R1'. pose proof R2 as R2'. unfold dispatch. rewrite Ei.
  destruct R1 as [(v & a & -> & -> & Ha & ->)|(N1 & -> & H1)], R2 as [(u & b & -> & -> & Hb & ->)|(N2 & -> & H2)].
  - ored. apply (vars_progress s (REF a) (REF b) k _ (VAR v) (Some a) (VAR u) (Some b)); try done; [by apply var_var_total|]. intros g' s'. by apply var_var_spec.
  - assert (progress s k (var_nonvar s v (Some a) t2)) as H; [|by destruct t2].
    apply (vars_progress s (REF a) t2 k _ (VAR v) (Some a) t2 p2); try done; [by apply var_nonvar_total|]. intros g' s'. by apply var_nonvar_spec.
  - assert (progress s k (var_nonvar s u (Some b) t1)) as H; [|by destruct t1].
    apply (vars_progress s t1 (REF b) k _ t1 p1 (VAR u) (Some b)); try done; [by apply var_nonvar_total|]. intros g' s' E. destruct (var_nonvar_spec s u b t1 g' s' Hb N1 E). split; [done|by apply var_effect_sym].
  - destruct (so_nonvar M _ F HF t1 t2 Hxy N1 N2) as [?|Hm]; [done|].
    pose proof (nonvar_progress s p2 t1 t2 k Hw Hx Hy H2 N1 N2 Hm Hk) as H. by destruct t1, t2.
Qed.

Lemma loop_progress s t1 p1 t2 p2 : wf s -> target_ok (cells s) (LOOP t1 p1 t2 p2) -> finv M F (LOOP t1 p1 t2 p2) s -> word_ok (cells s) t1 -> word_ok (cells s) t2 ->
  progress s (h t1) (loop M s t1 p1 t2 p2).
Proof.
  intros Hw (P1 & P2 & O1 & O2) (HF & _ & Hp & _) W1 W2. unfold loop. pose proof (so_equiv M _ F HF) as HE.
  assert (forall x y, holds_in (cells s) x y -> F x y) as Hh by (intros x y H; apply (solution_contents M F (cells s)); [done|by apply rtsc_in]).
  destruct (chain_DEREF (cells s) t1 p1) as (d1 & q1 & E1); [by apply word_chain|]. destruct (chain_DEREF (cells s) t2 p2) as (d2 & q2 & E2); [by apply word_chain|]. rewrite E1, E2. ored.
  destruct (DEREF_spec (cells s) F t1 p1 d1 q1 HE Hh P1 O1 E1) as (x & Rx & Fx). destruct (DEREF_spec (cells s) F t2 p2 d2 q2 HE Hh P2 O2 E2) as (y & Ry & Fy).
  change (progress s (h t1) (dispatch M s d1 q1 d2 q2)). apply (dispatch_progress s d1 q1 d2 q2 x y); try done.
  - apply (reached_ok s d1 q1 x Rx). intros _. by apply (DEREF_loop_ok s _ t1 p1 d1 q1 Hw W1 E1).
  - apply (reached_ok s d2 q2 y Ry). intros _. by apply (DEREF_loop_ok s _ t2 p2 d2 q2 Hw W2 E2).
  - transitivity t1; [by symmetry|]. transitivity t2; [|done]. apply Hp. by left.
  - symmetry. by apply Hrank.
Qed.

(** ** Runs *)

(** A run from one configuration leads to the other. *)
Definition leads g s g' s' : Prop := exists n, forall fuel, rounds M (n + fuel) g s = rounds M fuel g' s'.

Lemma leads_refl g s : leads g s g s.
Proof. by exists 0%nat. Qed.

Lemma leads_trans g1 s1 g2 s2 g3 s3 : leads g1 s1 g2 s2 -> leads g2 s2 g3 s3 -> leads g1 s1 g3 s3.
Proof. intros [n Hn] [m Hm]. exists (n + m)%nat. intros fuel. by rewrite <- Nat.add_assoc, Hn, Hm. Qed.

Lemma leads_loop s t1 p1 t2 p2 g' s' : loop M s t1 p1 t2 p2 = Some (g', s') -> leads (LOOP t1 p1 t2 p2) s g' s'.
Proof. intros E. exists 1%nat. intros fuel. cbn [rounds Nat.add]. by rewrite E. Qed.

Lemma leads_next s g' s' : next s = Some (g', s') -> leads NEXT s g' s'.
Proof. intros E. exists 1%nat. intros fuel. cbn [rounds Nat.add]. rewrite E. unfold next in E. by destruct (unifyStack s). Qed.

(** What is left of [g] and [s] is done: the run comes to [next] with the stack [k]. *)
Definition done_with g s (k : list (Z * Z * Z)) : Prop :=
  exists s', leads g s NEXT s' /\ unifyStack s' = k /\ wf s' /\ grows (cells s) (cells s') /\ finv M F NEXT s'.

Definition loops_done (k : nat) : Prop := forall s t1 p1 t2 p2, (h t1 < k)%nat ->
  wf s -> target_ok (cells s) (LOOP t1 p1 t2 p2) -> finv M F (LOOP t1 p1 t2 p2) s -> word_ok (cells s) t1 -> word_ok (cells s) t2 ->
  done_with (LOOP t1 p1 t2 p2) s (unifyStack s).

Lemma push_wf s n a b g s' : wf s -> push s n a b = Some (g, s') -> wf s'.
Proof.
  intros Hw E. destruct (push_spec s n a b g s' E) as (Ec & _). assert (var_type s' = var_type s) as Et.
  { revert E. unfold push. assert (var_type (if 1 <? n then set_stack s ((n - 1, a + 1, b + 1) :: unifyStack s) else s) = var_type s) as Et by by destruct (1 <? n).
    destruct (tagged2NonVariable _ a); [|done]. ored. destruct (tagged2NonVariable _ b); [|done]. ored. by intros [= _ <-]. }
  destruct Hw as [H1 H2 H3]. split; unfold types_ok; rewrite ?Ec, ?Et; done.
Qed.

(** All arguments are done if those of smaller rank are. *)
Lemma args_done (k m : nat) s n a b g' s' : loops_done k -> (Z.to_nat n <= m)%nat -> 0 < n -> wf s -> args_below k (cells s) n a b -> push s n a b = Some (g', s') ->
  finv M F g' s' -> done_with g' s' (unifyStack s).
Proof.
  intros Hk. revert s n a b g' s'. induction m as [|m IH]; intros s n a b g' s' Hm Hn Hw Ha E HF; [lia|].
  pose proof (push_wf _ _ _ _ _ _ Hw E) as Hw1. destruct (push_spec s n a b g' s' E) as (Ec & _ & _ & Hok & Ek & u1 & u2 & -> & T1 & T2).
  assert (forall p t, is_Some (cells s !! p) -> tagged2NonVariable (cells s) p = Some t -> word_ok (cells s) t /\ F (REF p) t) as Hnv.
  { intros p t Hp Ht. destruct HF as (HF & _). rewrite Ec in HF. split.
    - unfold tagged2NonVariable in Ht. destruct (cells s !! p) as [w|] eqn:Ep; [|done]. ored in Ht. injection Ht as <-. pose proof (wf_words s Hw p w Ep). destruct w; try done. by eexists.
    - apply (nonVariable_related (cells s)); [by apply (so_equiv M _ F HF)| |done]. intros x y H. apply (solution_contents M F (cells s)); [done|by apply rtsc_in]. }
  destruct (Ha 0 ltac:(lia)) as (Ea & Eb & Hr). rewrite Z.add_0_r in Ea, Eb, Hr. destruct (Hnv a u1 Ea T1) as [W1 F1]. destruct (Hnv b u2 Eb T2) as [W2 _].
  destruct (Hk s' u1 (Some a) u2 (Some b)) as (s2 & L2 & K2 & Hw2 & Hg2 & HF2); try done; rewrite ?Ec; try done.
  { rewrite <- (proj1 Hrank _ _ F1). lia. }
  rewrite Ek in K2. destruct (Z.ltb_spec 1 n); [|by exists s2]. rewrite Ec in Hg2.
  assert (args_below k (cells (set_stack s2 (unifyStack s))) (n - 1) (a + 1) (b + 1)) as Ha2 by by apply (args_grow k (cells s)), args_tail.
  destruct (push_total (set_stack s2 (unifyStack s)) k (n - 1) (a + 1) (b + 1)) as [[g3 s3] E3]; [lia|done|].
  assert (next s2 = Some (g3, s3)) as En by (unfold next; by rewrite K2).
  destruct (IH (set_stack s2 (unifyStack s)) (n - 1) (a + 1) (b + 1) g3 s3) as (s4 & L4 & K4 & Hw4 & Hg4 & HF4); try done; try lia.
  { destruct Hw2 as [X Y Z']. by split. }
  { by apply (next_finv M F s2). }
  exists s4. split; [|split; [done|split; [done|split; [|done]]]].
  - apply (leads_trans _ _ NEXT s2); [done|]. apply (leads_trans _ _ g3 s3); [by apply leads_next|done].
  - destruct (next_cells s2 g3 s3 En) as (Ec3 & _). rewrite Ec3 in Hg4. rewrite Ec. intros p Hp. by apply Hg4, Hg2.
Qed.

Lemma all_loops_done k : loops_done k.
Proof.
  induction k as [|k IH]; intros s t1 p1 t2 p2 Hlt Hw Hok HF W1 W2; [lia|].
  pose proof (loop_progress s t1 p1 t2 p2 Hw Hok HF W1 W2) as Hp. pose proof (fun g' s' => loop_finv M F t1 p1 t2 p2 s g' s' Hwid Hok HF) as Hf.
  inversion Hp as [s' Ek Hw' Hg El|s1 n a b [g' s'] Ek Hw1 Hg Hn Ha Epush El]; symmetry in El.
  - exists s'. split; [by apply leads_loop|]. split; [done|]. split; [done|]. split; [done|]. by apply (Hf NEXT s').
  - destruct (Hf g' s' El) as [HF1 _].
    destruct (args_done k (Z.to_nat n) s1 n a b g' s' IH) as (s2 & L2 & K2 & Hw2 & Hg2 & HF2); try done.
    { intros i Hi. destruct (Ha i Hi) as (? & ? & ?). split; [done|]. split; [done|lia]. }
    exists s2. split; [apply (leads_trans _ _ g' s'); [by apply leads_loop|done]|]. split; [by rewrite K2|]. split; [done|]. split; [|done].
    destruct (push_spec s1 n a b g' s' Epush) as (Ec & _). rewrite Ec in Hg2. intros p H. by apply Hg2, Hg.
Qed.

Lemma rounds_terminate s t1 t2 : wf s -> unifyStack s = [] -> word_ok (cells s) t1 -> word_ok (cells s) t2 -> plain t1 -> plain t2 -> finv M F (LOOP t1 None t2 None) s ->
  exists fuel s', rounds M fuel (LOOP t1 None t2 None) s = Some (PROCEED, s').
Proof.
  intros Hw Hk W1 W2 P1 P2 HF. destruct (all_loops_done (S (h t1)) s t1 None t2 None) as (s' & [n Hn] & Hk' & _); try done; [lia|].
  exists (n + 1)%nat, s'. rewrite Hn. cbn [rounds]. by rewrite Hk', Hk.
Qed.
End termination.
End UnifyTermination.
