(* ===== verification/UnifyTyping.v ===== *)
(** * Well-formed stores under unification

    Every step keeps the store well formed: its words name existing cells, records and variables,
    and no chain of references is circular.  The same holds for what is put on the stacks and when
    the trail is undone. *)
From stdpp Require Import gmap relations.
From S2P Require Import Prelude Feature Arity SRecord Unify UnifySpec UnifySteps UnifyInv UnifyTermination.

Module UnifyTyping.
Import Unify UnifySpec UnifySteps UnifyInv UnifyTermination.

Section typing.
Context (M : Machine).
Implicit Types (c : gmap Z TaggedRef) (s : State) (g : target).

Lemma wf_same s s' : cells s' = cells s -> var_type s' = var_type s -> wf M s -> wf M s'.
Proof. intros Ec Et [H1 H2 H3]. split; unfold types_ok; rewrite ?Ec, ?Et; done. Qed.

(** The pairs of the stack, of the trails and of the target are words of the store. *)
Definition stack_ok c (k : list (Z * Z * Z)) : Prop :=
  forall n a b i, (n, a, b) ∈ k -> 0 <= i < n -> is_Some (c !! (a + i)) /\ is_Some (c !! (b + i)).
Definition pairs_ok c (l : list (TaggedRef * TaggedRef)) : Prop := forall x y, (x, y) ∈ l -> word_ok M c x /\ word_ok M c y.
Definition words_ok c g : Prop := match g with LOOP t1 _ t2 _ => word_ok M c t1 /\ word_ok M c t2 | _ => True end.
Definition restorable c : TaggedRef -> TaggedRef -> Prop := fun _ old => word_ok M c old.

(** [c0] are the cells at the start; none of them disappears. *)
Context (c0 : gmap Z TaggedRef).

Record typed g s : Prop := {
  ty_grows : grows c0 (cells s);
  ty_wf : wf M s;
  ty_target : target_ok (cells s) g;
  ty_words : words_ok (cells s) g;
  ty_stack : stack_ok (cells s) (unifyStack s);
  ty_suspended : pairs_ok (cells s) (suspendTrail s);
  ty_trail : trail_ok (restorable (cells s)) (rebindTrail s) (cells s)
}.

Lemma stack_grows c c' k : grows c c' -> stack_ok c k -> stack_ok c' k.
Proof. intros Hg H n a b i Hin Hi. destruct (H n a b i Hin Hi). split; by apply Hg. Qed.

Lemma pairs_grow c c' l : grows c c' -> pairs_ok c l -> pairs_ok c' l.
Proof. intros Hg H x y Hin. destruct (H x y Hin). split; by apply (word_grows M c c'). Qed.

Lemma trail_grows c c' d tr : grows c c' -> trail_ok (restorable c) tr d -> trail_ok (restorable c') tr d.
Proof. intros Hg. apply trail_mono. intros x y. by apply word_grows. Qed.

Lemma nonVariable_ok s p t : wf M s -> tagged2NonVariable (cells s) p = Some t -> word_ok M (cells s) t.
Proof.
  intros Hw. unfold tagged2NonVariable. destruct (cells s !! p) as [w|] eqn:E; [|done]. ored. intros [= <-]. pose proof (wf_words M s Hw p w E). destruct w; try done. by eexists.
Qed.

Lemma push_types s n a b g s' : push s n a b = Some (g, s') -> var_type s' = var_type s.
Proof.
  unfold push. assert (var_type (if 1 <? n then set_stack s ((n - 1, a + 1, b + 1) :: unifyStack s) else s) = var_type s) as Et by by destruct (1 <? n).
  destruct (tagged2NonVariable _ a); [|done]. ored. destruct (tagged2NonVariable _ b); [|done]. ored. by intros [= _ <-].
Qed.

Lemma push_typed s n a b g s' : typed NEXT s -> (forall i, 0 <= i < n -> is_Some (cells s !! (a + i)) /\ is_Some (cells s !! (b + i))) ->
  push s n a b = Some (g, s') -> typed g s'.
Proof.
  intros [H0 Hw _ _ Hk Hs Ht] Ha E. destruct (push_spec s n a b g s' E) as (Ec & Es & Er & Hok & Ek & u1 & u2 & -> & T1 & T2).
  split; rewrite ?Ec, ?Es, ?Er, ?Ek; try done.
  - apply (wf_same s); [done|by apply (push_types s n a b _ s' E)|done].
  - split; [by apply (nonVariable_ok s a)|by apply (nonVariable_ok s b)].
  - destruct (1 <? n); [|done]. intros m p q i [[= -> -> ->]|Hin]%elem_of_cons Hi; [|by apply (Hk m p q i)].
    replace (a + 1 + i) with (a + (i + 1)) by lia. replace (b + 1 + i) with (b + (i + 1)) by lia. apply Ha. lia.
Qed.

Lemma next_typed s g s' : typed NEXT s -> next s = Some (g, s') -> typed g s'.
Proof.
  intros [H0 Hw _ _ Hk Hs Ht]. unfold next. destruct (unifyStack s) as [|[[n a] b] k] eqn:Ek; [done|]. apply push_typed.
  - split; try done; [by apply (wf_same s)|]. intros m p q i Hin. apply Hk. by right.
  - intros i Hi. apply (Hk n a b i); [by left|done].
Qed.

(** The arguments of two well-formed structures with the same head exist. *)
Lemma heads_exist c x y : word_ok M c x -> word_ok M c y -> heads_match M (fun _ _ => True) x y ->
  heads_match M (fun u v => exists p q, u = REF p /\ v = REF q /\ is_Some (c !! p) /\ is_Some (c !! q)) x y.
Proof.
  intros Hx Hy Hm. destruct x as [?|?|a|a|a|a], y as [?|?|b|b|b|b]; try done; cbn [heads_match] in *.
  - intros i Hi. exists (a + i), (b + i). split_and!; try done; [by apply Hx|by apply Hy].
  - destruct Hm as (r1 & r2 & w & H1 & H2 & Hc & Ew & _). destruct (same_functor M r1 r2 Hc) as [_ Ew2]. exists r1, r2, w. do 4 (split; [done|]).
    destruct Hx as (r1' & w1 & E1 & E1w & Hx), Hy as (r2' & w2 & E2 & E2w & Hy). assert (r1' = r1) as -> by congruence. assert (r2' = r2) as -> by congruence.
    assert (w1 = w) as -> by congruence. assert (w2 = w) as -> by congruence. intros i Hi. exists (a + i), (b + i). split_and!; try done; [by apply Hx|by apply Hy].
Qed.

Lemma var_typed s s' x y : typed NEXT s -> var_effect s s' x y -> word_ok M (cells s) x -> word_ok M (cells s) y -> plain x -> plain y -> x <> y ->
  (forall a, x = REF a -> isvar (cells s) a) -> (forall a, y = REF a -> isvar (cells s) a) -> typed NEXT s'.
Proof.
  intros [H0 Hw _ _ Hk Hs Ht] He Hx Hy Px Py Hne Vx Vy. destruct (var_effect_wf M s s' x y Hw He Hx Hy Px Py Hne Vx Vy) as [Hw' Hg].
  pose proof (var_effect_keeps _ _ _ _ He) as Hkeep. destruct He as [Ek Er _ Hc]. split; try done; [by apply (grows_trans _ (cells s))|..].
  - rewrite Ek. by apply (stack_grows (cells s)).
  - assert (pairs_ok (cells s) (suspendTrail s')) as Hs'; [|by apply (pairs_grow (cells s))].
    destruct Hc as [[E _]|[_ [E|E]]]; rewrite E; [done| |]; intros u w [[= -> ->]|Hin]%elem_of_cons; done || by apply Hs.
  - rewrite Er. apply (trail_keeps _ _ (cells s)); [done|]. by apply (trail_grows (cells s)).
Qed.

Lemma struct_typed s (p : option Z) x y : typed NEXT s -> (forall q, p = Some q -> cells s !! q = Some y) -> nonvar x -> nonvar y -> word_ok M (cells s) x -> word_ok M (cells s) y ->
  typed NEXT (rebind s p y x).
Proof.
  intros [H0 Hw _ _ Hk Hs Ht] Hp Nx Ny Hx Hy. destruct (rebind_wf M s p x y Hw Nx Ny Hx Hp) as [Hw' Hg]. split; try done; [by apply (grows_trans _ (cells s))|..].
  - by apply (stack_grows (cells s)).
  - by apply (pairs_grow (cells s)).
  - apply trail_rebind; [done|done|done|by apply (word_grows M (cells s))|by apply (trail_grows (cells s))].
Qed.

Lemma dispatch_typed s t1 p1 t2 p2 x y g s' : typed NEXT s -> reached (cells s) t1 p1 x -> reached (cells s) t2 p2 y -> word_ok M (cells s) x -> word_ok M (cells s) y ->
  dispatch M s t1 p1 t2 p2 = Some (g, s') -> typed g s'.
Proof.
  intros Hty R1 R2 Hx Hy. destruct (decide (x = y)) as [Exy|Hne].
  { unfold dispatch. rewrite (reached_identical (cells s) t1 p1 t2 p2 x y) by done. by intros [= <- <-]. }
  intros E. pose proof (dispatch_case M s t1 p1 t2 p2 x y R1 R2) as Hc. rewrite E in Hc.
  inversion Hc as [r Exy Er|r Hv Er|r Er Hh|p n a b Nx Ny _ Hn Hp Hh Er|r Nx Ny _ Hh Er|]; subst.
  - by injection Er as -> ->.
  - destruct (Hv g s' eq_refl) as [-> He]. apply (var_typed s s' x y); try done; [by apply (reached_plain _ _ _ _ R1)|by apply (reached_plain _ _ _ _ R2)| |].
    + intros a. by apply (reached_var _ t1 p1).
    + intros a. by apply (reached_var _ t2 p2).
  - by injection Er as -> ->.
  - pose proof (struct_typed s p x y Hty Hp Nx Ny Hx Hy) as Hty1. destruct (rebind_wf M s p x y (ty_wf _ _ Hty) Nx Ny Hx Hp) as [_ Hg].
    apply (push_typed (rebind s p y x) n a b); [done| |done]. pose proof (heads_exist (cells s) x y Hx Hy (proj1 (Hh (fun _ _ => True)) (fun _ _ => I))) as Hm.
    apply Hh in Hm. intros i Hi. destruct (Hm i Hi) as (p' & q' & [= <-] & [= <-] & ? & ?). split; by apply Hg.
  - injection Er as -> ->. by destruct Hty.
Qed.

Lemma loop_typed s t1 p1 t2 p2 g s' : typed (LOOP t1 p1 t2 p2) s -> loop M s t1 p1 t2 p2 = Some (g, s') -> typed g s'.
Proof.
  intros [H0 Hw (P1 & P2 & O1 & O2) [W1 W2] Hk Hs Ht]. unfold loop.
  destruct (DEREF (cells s) t1 p1) as [[d1 q1]|] eqn:E1; [|done]. ored. destruct (DEREF (cells s) t2 p2) as [[d2 q2]|] eqn:E2; [|done]. ored.
  destruct (DEREF_spec (cells s) (rtsc (holds_in (cells s))) t1 p1 d1 q1) as (x & Rx & _); [apply _|by apply rtsc_in|done..|].
  destruct (DEREF_spec (cells s) (rtsc (holds_in (cells s))) t2 p2 d2 q2) as (y & Ry & _); [apply _|by apply rtsc_in|done..|].
  apply (dispatch_typed s d1 q1 d2 q2 x y); try done.
  - apply (reached_ok M s d1 q1 x Rx). intros _. by apply (DEREF_loop_ok M s _ t1 p1 d1 q1 Hw W1 E1).
  - apply (reached_ok M s d2 q2 y Ry). intros _. by apply (DEREF_loop_ok M s _ t2 p2 d2 q2 Hw W2 E2).
Qed.

Lemma rounds_typed (fuel : nat) g s r s' : typed g s -> rounds M fuel g s = Some (r, s') -> typed NEXT s'.
Proof.
  revert g s. induction fuel as [|fuel IH]; intros g s Hty; cbn [rounds]; [done|]. destruct g as [t1 p1 t2 p2| |].
  - destruct (loop M s t1 p1 t2 p2) as [[g' s1]|] eqn:E; [|done]. ored. apply IH. by apply (loop_typed s t1 p1 t2 p2).
  - destruct (unifyStack s); [by intros [= _ <-]|]. destruct (next s) as [[g' s1]|] eqn:E; [|done]. ored. apply IH. by apply (next_typed s).
  - intros [= _ <-]. by destruct Hty.
Qed.

Lemma undo_wf tr s : wf M s -> trail_ok (restorable (cells s)) tr (cells s) -> wf M (set_cells s (undo tr (cells s))) /\ grows (cells s) (undo tr (cells s)).
Proof.
  revert s. induction tr as [|[p old] tr IH]; intros s Hw; cbn [trail_ok undo]; [intros _; split; [by apply (wf_same s)|apply grows_refl]|]. intros [Hp Ht].
  destruct p as [a|]; [|by apply IH]. destruct (Hp a eq_refl) as (cur & Hcur & Nc & No & Hok).
  destruct (rebind_wf M s (Some a) old cur Hw No Nc Hok) as [Hw1 Hg]; [by intros q [= <-]|].
  destruct (IH (set_cells s (bind_cell (cells s) (Some a) old))) as [Hw2 Hg2]; [by apply (wf_same (rebind s (Some a) cur old))|by apply (trail_grows (cells s))|].
  split; [done|]. intros q Hq. by apply Hg2, Hg.
Qed.

Lemma exit_typed s r a s' : r = PROCEED \/ r = FAILED -> typed NEXT s -> exit M r s = (a, s') ->
  wf M s' /\ grows c0 (cells s') /\ forall l, a = BI_REPLACEBICALL l -> pairs_ok (cells s') l.
Proof.
  intros Hr [H0 Hw _ _ Hk Hs Ht] E. assert (cells s' = cells s \/ cells s' = undo (rebindTrail s) (cells s)) as Hc.
  { unfold exit in E. destruct Hr as [-> | ->], (oz_onToplevel M), (suspendTrail s) eqn:Es; cbn [andb set_trail set_cells set_suspended set_stack suspendTrail] in E; rewrite ?Es in E; injection E as <- <-; cbn; auto. }
  assert (var_type s' = var_type s) as Et.
  { unfold exit in E. destruct Hr as [-> | ->], (oz_onToplevel M), (suspendTrail s) eqn:Es; cbn [andb set_trail set_cells set_suspended set_stack suspendTrail] in E; rewrite ?Es in E; by injection E as <- <-. }
  assert (forall l, a = BI_REPLACEBICALL l -> l = rev (suspendTrail s)) as Hl.
  { unfold exit in E. destruct Hr as [-> | ->], (oz_onToplevel M), (suspendTrail s) eqn:Es; cbn [andb set_trail set_cells set_suspended set_stack suspendTrail] in E; rewrite ?Es in E; injection E as <- <-; intros l' [= <-]; done. }
  destruct (undo_wf (rebindTrail s) s Hw Ht) as [Hw2 Hg2]. assert (grows (cells s) (cells s')) as Hg by (destruct Hc as [-> | ->]; [apply grows_refl|done]).
  split; [|split; [by apply (grows_trans _ (cells s))|]].
  - destruct Hc as [Ec|Ec]; [by apply (wf_same s)|by apply (wf_same (set_cells s (undo (rebindTrail s) (cells s))))].
  - intros l El x y Hin. rewrite (Hl l El) in Hin. apply (pairs_grow (cells s)) with (1 := Hg) (2 := Hs). by rewrite list_elem_of_In, in_rev, <- list_elem_of_In.
Qed.
End typing.
End UnifyTyping.
