(* ===== verification/UnifyTheorems.v ===== *)
(** * Unification: concrete stores, and the properties of the component *)
From stdpp Require Import gmap relations.
From S2P Require Import Prelude Feature Arity SRecord Unify UnifySpec UnifySteps UnifyInv UnifyTermination UnifyTyping.

(** ** Unification on concrete stores

    A store with two lists, one of them with a variable, and a store with three cyclic lists on which
    unification does not end, although the lists denote the same tree. *)

Module UnifyExamples.
Import Unify UnifySpec UnifySteps UnifyInv UnifyTermination UnifyTyping.

Definition machine (toplevel : bool) : Machine :=
  {| aritytable := Arity.AT [] 0; heads := ∅; constants := {[50 := Co_BigInt 5; 51 := Co_BigInt 5; 52 := Co_BigInt 6]}; currentOptVar := 0; oz_onToplevel := toplevel |}.

Definition store (l : list (Z * TaggedRef)) (types : list (Z * TypeOfVariable)) : State := ST (list_to_map l) (list_to_map types) 9 [] [] [] [].

Lemma machine_widths b : widths_positive (machine b).
Proof. intros a r w H. cbn in H. by rewrite lookup_empty in H. Qed.

(** Every cell of a store satisfies what all listed ones do. *)
Lemma cells_all l types (P : Z -> TaggedRef -> Prop) p w : Forall (fun '(p, w) => P p w) l -> cells (store l types) !! p = Some w -> P p w.
Proof. intros H Hp. apply elem_of_list_to_map_2 in Hp. rewrite Forall_forall in H. by apply (H (p, w)). Qed.

(** ** Solutions given by a representative of every word *)

Section representatives.
Context (M : Machine) (rep : TaggedRef -> TaggedRef).
Definition same_rep (x y : TaggedRef) : Prop := rep x = rep y.

#[export] Instance same_rep_equiv : Equivalence same_rep.
Proof. split; [by intros x|by intros x y|intros x y z H1 H2; unfold same_rep in *; congruence]. Qed.

(** Only references and the structures of [l] are represented by others, those of [l] all by the same. *)
Lemma rep_solution l types (k : list Z) (a0 : Z) : (forall w, nonvar w -> (exists a, w = LTUPLE a /\ a ∈ k) \/ rep w = w) ->
  (forall w, nonvar w -> rep w = LTUPLE a0 -> exists a, w = LTUPLE a /\ a ∈ k) -> (forall a, a ∈ k -> rep (LTUPLE a) = LTUPLE a0) ->
  Forall (fun a => Forall (fun b => args_related same_rep 2 a b) k) k ->
  Forall (fun '(p, w) => plain w -> same_rep (REF p) w) l -> solution M (cells (store l types)) same_rep.
Proof.
  intros Hrep Hinv Hk Hargs Hl. split; [apply _|intros p w Hp; revert p w Hp; intros p w; by apply (cells_all l types (fun p w => plain w -> same_rep (REF p) w))|].
  intros x y Hxy Nx Ny. unfold same_rep in Hxy. destruct (Hrep x Nx) as [(a & -> & Ha)|Ex].
  - destruct (Hinv y Ny) as (b & -> & Hb); [by rewrite <- Hxy, Hk|]. right. rewrite !Forall_forall in Hargs. specialize (Hargs a Ha). rewrite Forall_forall in Hargs. by apply Hargs.
  - destruct (Hrep y Ny) as [(b & -> & Hb)|Ey]; [|left; congruence]. destruct (Hinv x Nx) as (a & -> & Ha); [by rewrite Hxy, Hk|].
    right. rewrite !Forall_forall in Hargs. specialize (Hargs a Ha). rewrite Forall_forall in Hargs. by apply Hargs.
Qed.
End representatives.

(** Well-formedness is checked cell by cell. *)
Lemma store_wf M l types : Forall (fun '(p, w) => word_ok M (list_to_map l) w /\ has_chain (list_to_map l) w /\ match w with VAR v => is_Some ((list_to_map types : gmap Z TypeOfVariable) !! v) | _ => True end) l ->
  wf M (store l types).
Proof.
  intros H. assert (forall p w, cells (store l types) !! p = Some w -> word_ok M (list_to_map l) w /\ has_chain (list_to_map l) w /\ match w with VAR v => is_Some ((list_to_map types : gmap Z TypeOfVariable) !! v) | _ => True end) as Ha.
  { intros p w Hp. by apply (cells_all l types (fun p w => word_ok M (list_to_map l) w /\ has_chain (list_to_map l) w /\ match w with VAR v => is_Some ((list_to_map types : gmap Z TypeOfVariable) !! v) | _ => True end) p w). }
  split.
  - intros p v Hp. by destruct (Ha p (VAR v) Hp) as (_ & _ & ?).
  - intros p w Hp. by destruct (Ha p w Hp).
  - intros p w Hp. by destruct (Ha p w Hp) as (_ & ? & _).
Qed.

(** ** Two lists *)

(** The list [[X 6]] at 10 and the list [[5 6]] at 20, where [X] is a variable in the cell 0. *)
Definition two_lists : list (Z * TaggedRef) :=
  [(0, VAR 1); (10, REF 0); (11, CONST 52); (20, CONST 50); (21, CONST 52)].
Definition two_store : State := store two_lists [(1, OZ_VAR_SIMPLE)].

Definition two_rep (x : TaggedRef) : TaggedRef :=
  match x with
  | REF p => if decide (p ∈ [0; 10; 20]) then CONST 50 else if decide (p ∈ [11; 21]) then CONST 52 else x
  | LTUPLE p => if decide (p = 20) then LTUPLE 10 else x
  | _ => x
  end.

Definition two_height (x : TaggedRef) : nat := match two_rep x with LTUPLE _ => 1 | _ => 0 end.

Lemma two_solution b : solution (machine b) (cells two_store) (same_rep two_rep).
Proof.
  apply (rep_solution (machine b) two_rep two_lists _ [10; 20] 10).
  - intros w Hn. destruct w as [?|?|p|?|?|?]; try (by right); try done. destruct (decide (p = 20)) as [->|Hne]; [left; exists 20; split; [done|by right; left]|right].
    cbn. by rewrite decide_False.
  - intros w Hn. destruct w as [?|?|p|?|?|?]; try done. cbn. destruct (decide (p = 20)) as [->|Hne]; [intros _; exists 20; split; [done|by right; left]|].
    intros [= ->]. exists 10. split; [done|by left].
  - intros a [->|[->|[]%elem_of_nil]%elem_of_cons]%elem_of_cons; done.
  - repeat constructor; intros i Hi; assert (i = 0 \/ i = 1) as [-> | ->] by lia; done.
  - by repeat constructor.
Qed.

Lemma two_ranked b : ranked (machine b) (same_rep two_rep) two_height.
Proof.
  split; [intros x y Hxy; unfold two_height; by rewrite Hxy|]. intros x p Hp. destruct x as [?|?|a|a|?|?]; try done.
  - unfold two_height. assert (exists a', two_rep (LTUPLE a) = LTUPLE a') as [a' ->] by (cbn; destruct (decide (a = 20)); by eexists).
    cbn. destruct (decide (p ∈ _)); [lia|]. destruct (decide (p ∈ _)); lia.
  - destruct Hp as (r & w & Hr & _). cbn in Hr. by rewrite lookup_empty in Hr.
Qed.

Lemma two_wf b : wf (machine b) two_store.
Proof.
  apply store_wf. repeat constructor; try (by eexists); try (by exists 0%nat; constructor).
  exists 1%nat. by apply (chain_ref _ 0 (VAR 1)); [|constructor].
Qed.

Lemma two_words b : word_ok (machine b) (cells two_store) (LTUPLE 10) /\ word_ok (machine b) (cells two_store) (LTUPLE 20).
Proof. split; intros i Hi; assert (i = 0 \/ i = 1) as [-> | ->] by lia; by eexists. Qed.

(** The list at 20 is now [[5 5]]: unification fails at the second element. *)
Definition unequal_lists : list (Z * TaggedRef) :=
  [(0, VAR 1); (10, REF 0); (11, CONST 52); (20, CONST 50); (21, CONST 50)].
Definition unequal_store : State := store unequal_lists [(1, OZ_VAR_SIMPLE)].

Definition unequal_rep (x : TaggedRef) : TaggedRef :=
  match x with REF p => if decide (p ∈ [0; 10; 20; 21]) then CONST 50 else if decide (p = 11) then CONST 52 else x | _ => x end.

Lemma unequal_solution b : solution (machine b) (cells unequal_store) (same_rep unequal_rep).
Proof.
  apply (rep_solution (machine b) unequal_rep unequal_lists _ [30] 30).
  - intros w Hn. right. by destruct w.
  - intros w Hn. destruct w as [?|?|p|?|?|?]; try done. intros [= ->]. exists 30. split; [done|by left].
  - by intros a [->|[]%elem_of_nil]%elem_of_cons.
  - repeat constructor; intros i Hi; reflexivity.
  - by repeat constructor.
Qed.

(** ** Three cyclic lists *)

(** [X0 = X2|X0], [X1 = X0|X2] and [X2 = X1|X2], the variables in the cells 0, 1 and 2. *)
Definition three_lists (x0 x1 x2 : Z) : list (Z * TaggedRef) :=
  [(0, LTUPLE x0); (1, LTUPLE x1); (2, LTUPLE x2); (10, REF 2); (11, REF 0); (20, REF 0); (21, REF 2); (30, REF 1); (31, REF 2)].

(** What is left after three rounds comes back after every four, with longer stacks. *)
Definition circling (k : list (Z * Z * Z)) (tr : list (option Z * TaggedRef)) : State :=
  ST (list_to_map (three_lists 30 10 30)) ∅ 9 ((1, 31, 11) :: k) tr [] [].

Lemma circle (fuel : nat) k tr : exists tr', 
  rounds (machine true) (4 + fuel) (LOOP (REF 1) (Some 30) (REF 2) (Some 10)) (circling k tr) =
  rounds (machine true) fuel (LOOP (REF 1) (Some 30) (REF 2) (Some 10)) (circling ((1, 31, 11) :: k) tr').
Proof. eexists. vm_compute. reflexivity. Qed.

Lemma circle_forever (fuel : nat) k tr : rounds (machine true) fuel (LOOP (REF 1) (Some 30) (REF 2) (Some 10)) (circling k tr) = None.
Proof.
  revert k tr. induction fuel as [fuel IH] using lt_wf_ind. intros k tr. destruct (decide (fuel < 4)%nat) as [Hlt|Hge].
  - assert (fuel = 0 \/ fuel = 1 \/ fuel = 2 \/ fuel = 3)%nat as [-> |[-> |[-> | ->]]] by lia; vm_compute; reflexivity.
  - destruct (circle (fuel - 4) k tr) as [tr' E]. replace (4 + (fuel - 4))%nat with fuel in E by lia. rewrite E. apply IH. lia.
Qed.

Definition three_store : State := store (three_lists 10 20 30) [].

Lemma three_diverge (fuel : nat) : oz_unify (machine true) fuel three_store (REF 0) (REF 1) = None.
Proof.
  unfold oz_unify. assert (rounds (machine true) fuel (LOOP (REF 0) None (REF 1) None) three_store = None) as ->; [|done].
  destruct fuel as [|[|fuel]]; [vm_compute; reflexivity..|].
  assert (exists tr, rounds (machine true) (S (S fuel)) (LOOP (REF 0) None (REF 1) None) three_store =
    rounds (machine true) fuel (LOOP (REF 1) (Some 30) (REF 2) (Some 10)) (circling [(1, 11, 21)] tr)) as [tr ->] by (eexists; vm_compute; reflexivity).
  apply circle_forever.
Qed.

Definition three_rep (x : TaggedRef) : TaggedRef :=
  match x with
  | REF p => if decide (p ∈ [0; 1; 2; 10; 11; 20; 21; 30; 31]) then LTUPLE 10 else x
  | LTUPLE p => if decide (p ∈ [10; 20; 30]) then LTUPLE 10 else x
  | _ => x
  end.

Lemma three_solution : solution (machine true) (cells three_store) (same_rep three_rep).
Proof.
  apply (rep_solution (machine true) three_rep (three_lists 10 20 30) _ [10; 20; 30] 10).
  - intros w Hn. destruct w as [?|?|p|?|?|?]; try (by right); try done. cbn. destruct (decide (p ∈ _)); [left; by exists p|by right].
  - intros w Hn. destruct w as [?|?|p|?|?|?]; try done. cbn. destruct (decide (p ∈ _)) as [Hin|Hne]; [intros _; by exists p|].
    intros [= ->]. destruct Hne. by left.
  - intros a Ha. cbn. by rewrite decide_True.
  - repeat constructor; intros i Hi; assert (i = 0 \/ i = 1) as [-> | ->] by lia; done.
  - by repeat constructor.
Qed.

Lemma three_wf : wf (machine true) three_store.
Proof.
  assert (forall p a, (list_to_map (three_lists 10 20 30) : gmap Z TaggedRef) !! p = Some (LTUPLE a) -> has_chain (list_to_map (three_lists 10 20 30)) (REF p)) as Hc.
  { intros p a Hp. exists 1%nat. apply (chain_ref _ p (LTUPLE a)); [done|by constructor]. }
  apply store_wf. repeat constructor; try (by eexists); try (by exists 0%nat; constructor);
    try (intros i Hi; assert (i = 0 \/ i = 1) as [-> | ->] by lia; by eexists); eapply Hc; vm_compute; reflexivity.
Qed.
End UnifyExamples.

Import Unify UnifySpec UnifySteps UnifyInv UnifyTermination UnifyTyping UnifyExamples.

Section properties.
Context (M : Machine).
Implicit Types (s : State) (F : TaggedRef -> TaggedRef -> Prop).

(** The stacks are empty when unification starts. *)
Definition fresh s : Prop := unifyStack s = [] /\ rebindTrail s = [] /\ suspendTrail s = [].

(** The equations that remain: none after success, those of the new call when variables were suspended on. *)
Definition remaining (a : answer) : option (list (TaggedRef * TaggedRef)) :=
  match a with RETURN PROCEED => Some [] | BI_REPLACEBICALL l => Some l | RETURN _ => None end.

Lemma undo_solution F tr c : trail_ok F tr c -> solution M c F -> solution M (undo tr c) F.
Proof.
  revert c. induction tr as [|[p old] tr IH]; intros c; cbn [trail_ok undo]; [done|]. intros [Hp Ht] HF. apply IH; [done|].
  destruct p as [a|]; [|done]. destruct (Hp a eq_refl) as (cur & Hcur & Nc & No & Hv). pose proof (so_equiv M c F HF) as HE.
  apply (solution_cells M F c); [done|]. intros x y H. assert (plain old /\ plain cur) as [Po Pc] by (split; [by destruct old|by destruct cur]).
  destruct (rebind_holds c (Some a) old cur x y) as [_ Hr]; [by intros ? [= <-]|done|done|].
  assert (forall x y, holds_in c x y -> F x y) as HFc by (intros u w H'; apply (solution_contents M F c); [done|by apply rtsc_in]).
  destruct (Hr H) as [H'|[-> H']]; [by apply HFc|]. transitivity cur; [by apply HFc|done].
Qed.

(** What [exit] leaves of a run that did not fail. *)
Lemma exit_proceed s a s' : exit M PROCEED s = (a, s') -> remaining a = Some (rev (suspendTrail s)) /\
  (cells s' = cells s \/ cells s' = undo (rebindTrail s) (cells s)).
Proof.
  unfold exit. destruct (oz_onToplevel M), (suspendTrail s) eqn:Es; cbn [andb set_trail set_cells suspendTrail]; rewrite ?Es; intros [= <- <-]; (split; [done|]); cbn; by auto.
Qed.

Lemma start_inv s t1 t2 : plain t1 -> plain t2 -> inv M (LOOP t1 None t2 None) s (fun _ _ => False).
Proof. intros P1 P2. split; [|done]. by split_and!. Qed.

Lemma start_finv F s t1 t2 : fresh s -> solution M (cells s) F -> F t1 t2 -> finv M F (LOOP t1 None t2 None) s.
Proof.
  intros (Hk & Hr & Hs) HF Ht. split; [done|]. rewrite Hk, Hs, Hr. split; [by intros n p q ?%elem_of_nil|]. split; [|split; [by intros x y ?%elem_of_nil|done]].
  intros x y [[-> ->]|(n & p & q & i & Hin & _)]; [done|by apply elem_of_nil in Hin].
Qed.

(** C1: When unification returns success, or replaces the call by the equations it could not decide
    because of read-only variables, the result is equivalent to the original problem.  Every solution of the
    store in which the two terms are equal solves the new store and these equations, so nothing
    more was bound than necessary; and every solution of the new store and the equations
    extends to one of the old store in which the terms are equal, cyclic terms
    included. *)
Theorem unify_correct (fuel : nat) s t1 t2 a s' l :
  widths_positive M -> fresh s -> plain t1 -> plain t2 -> oz_unify M fuel s t1 t2 = Some (a, s') -> remaining a = Some l ->
  (forall F, solution M (cells s) F -> F t1 t2 -> solution M (cells s') F /\ forall x y, (x, y) ∈ l -> F x y) /\
  (forall F, solution M (cells s') F -> (forall x y, (x, y) ∈ l -> F x y) ->
     exists E, (forall x y, F x y -> E x y) /\ solution M (cells s') E /\ solution M (cells s) E /\ E t1 t2).
Proof.
  intros Hwid (Hk & Hr & Hs) P1 P2 Hrun Hl. unfold oz_unify in Hrun. destruct (rounds M fuel (LOOP t1 None t2 None) s) as [[r s1]|] eqn:E; [|done]. ored in Hrun. injection Hrun as Hx.
  pose proof (start_inv s t1 t2 P1 P2) as Hinv. destruct (rounds_result _ _ _ _ _ _ E) as [->| ->]; [|exfalso; unfold exit in Hx; cbn in Hx; by injection Hx as <- <-].
  destruct (exit_proceed s1 a s' Hx) as [Ea Ec]. assert (l = rev (suspendTrail s1)) as -> by congruence.
  assert (forall x y, (x, y) ∈ rev (suspendTrail s1) <-> (x, y) ∈ suspendTrail s1) as Hrev by (intros x y; rewrite !list_elem_of_In; symmetry; apply in_rev).
  split.
  - intros F HF Ht. destruct (rounds_finv M F fuel (LOOP t1 None t2 None) s PROCEED s1) as [_ (HF1 & _ & _ & Hs1 & Htr)]; try done.
    + by apply start_finv.
    + split; [|intros x y Hin; by apply Hs1, Hrev]. destruct Ec as [-> | ->]; [done|by apply undo_solution].
  - intros F HF HFl. destruct (rounds_inv M fuel (LOOP t1 None t2 None) s s1 _ Hinv) as (Hk1 & V & _ & Htr & [_ HV] & Hmono); [by rewrite Hr|done|].
    set (G := rtsc (fun x y => F x y \/ V x y)). assert (forall x y, closed NEXT s1 V x y -> G x y) as HG.
    { intros x y. apply rtsc_least; [apply _|]. intros u w [H|[H|[[[]|(n & p & q & i & Hin & _)]|H]]].
      - assert (rtsc (fun x y => holds_in (cells s') x y \/ V x y) u w) as Hu.
        { destruct Ec as [Ec|Ec]; rewrite Ec; [apply rtsc_in; by left|by apply undo_holds]. }
        revert Hu. apply rtsc_least; [apply _|]. intros u' w' [H'|H']; apply rtsc_in; [left|by right].
        apply (solution_contents M F (cells s')); [done|by apply rtsc_in].
      - apply rtsc_in. by right.
      - rewrite Hk1 in Hin. by apply elem_of_nil in Hin.
      - apply rtsc_in. left. by apply HFl, Hrev. }
    exists G. split; [intros x y H; apply rtsc_in; by left|]. assert (solution M (cells s') G) as HGs.
    { apply closure_solution; [done|]. intros x y H. apply (heads_match_impl M (closed NEXT s1 V)); [done|by apply HV]. }
    split; [done|]. split.
    + apply (solution_cells M G (cells s')); [done|]. intros x y H. apply HG, Hmono, closed_base. by left.
    + apply HG, Hmono, closed_base. right. right. left. by left.
Qed.

(** C2: When unification fails, no solution of the store makes the two terms equal. *)
Theorem unify_failure_sound (fuel : nat) s t1 t2 s' F :
  widths_positive M -> fresh s -> plain t1 -> plain t2 -> oz_unify M fuel s t1 t2 = Some (RETURN FAILED, s') -> solution M (cells s) F -> ~ F t1 t2.
Proof.
  intros Hwid (Hk & Hr & Hs) P1 P2 Hrun HF Ht. unfold oz_unify in Hrun. destruct (rounds M fuel (LOOP t1 None t2 None) s) as [[r s1]|] eqn:E; [|done]. ored in Hrun. injection Hrun as Hx.
  destruct (rounds_finv M F fuel (LOOP t1 None t2 None) s r s1) as [-> _]; try done.
  - by apply start_finv.
  - destruct (exit_proceed s1 _ _ Hx) as [Ea _]. done.
Qed.

(** C4: Unless it succeeds at the top level, unification leaves every cell that held a value or a
    reference as it was; only variables have been bound.  It always leaves its stacks empty. *)
Theorem unify_restores (fuel : nat) s t1 t2 a s' :
  fresh s -> plain t1 -> plain t2 -> oz_unify M fuel s t1 t2 = Some (a, s') ->
  fresh s' /\ (a = RETURN PROCEED \/ keeps (cells s) (cells s')) /\ (oz_onToplevel M = false -> keeps (cells s) (cells s')).
Proof.
  intros (Hk & Hr & Hs) P1 P2 Hrun. unfold oz_unify in Hrun. destruct (rounds M fuel (LOOP t1 None t2 None) s) as [[r s1]|] eqn:E; [|done]. ored in Hrun. injection Hrun as Hx.
  pose proof (rounds_undo M fuel (LOOP t1 None t2 None) s r s1 ltac:(by split_and!) E) as Hu. rewrite Hr in Hu. cbn [undo] in Hu.
  destruct (rounds_result _ _ _ _ _ _ E) as [->| ->].
  - destruct (rounds_inv M fuel (LOOP t1 None t2 None) s s1 _ (start_inv s t1 t2 P1 P2)) as (Hk1 & _); [by rewrite Hr|done|].
    unfold exit in Hx. destruct (oz_onToplevel M), (suspendTrail s1) eqn:Es; cbn [andb set_trail set_cells suspendTrail] in Hx; rewrite ?Es in Hx; injection Hx as <- <-;
      (split; [by split_and!|]); (split; [by auto|by auto]).
  - unfold exit in Hx. cbn in Hx. injection Hx as <- <-. split; [done|]. split; [by right|done].
Qed.

(** C3: Unification keeps the store well formed, whether it succeeds, fails or suspends: every
    address in a cell exists, every variable in a cell has its object, records and constants are
    known, and no chain of references is circular.  No cell disappears, and the equations of a
    replaced call consist of words of the new store. *)
Theorem unify_well_formed (fuel : nat) s t1 t2 a s' :
  fresh s -> wf M s -> plain t1 -> plain t2 -> word_ok M (cells s) t1 -> word_ok M (cells s) t2 -> oz_unify M fuel s t1 t2 = Some (a, s') ->
  wf M s' /\ grows (cells s) (cells s') /\ forall l, a = BI_REPLACEBICALL l -> pairs_ok M (cells s') l.
Proof.
  intros (Hk & Hr & Hs) Hw P1 P2 W1 W2 Hrun. unfold oz_unify in Hrun. destruct (rounds M fuel (LOOP t1 None t2 None) s) as [[r s1]|] eqn:E; [|done]. ored in Hrun. injection Hrun as Hx.
  assert (typed M (cells s) (LOOP t1 None t2 None) s) as Hty.
  { split; rewrite ?Hk, ?Hs, ?Hr; [apply grows_refl|done|by split_and!|done|by intros n p q i ?%elem_of_nil|by intros x y ?%elem_of_nil|done]. }
  destruct (exit_typed M (cells s) s1 r a s') as (Hw' & Hg' & Hl); [by apply (rounds_result M fuel _ _ _ _ E)|by apply (rounds_typed M (cells s) fuel _ _ _ _ Hty E)|done|].
  done.
Qed.

(** C5: Unification returns, with success or with the equations that wait for read-only
    variables, whenever the store is well formed and the two terms have a common solution of finite
    height: the argument cells of a structure rank below it. *)
Theorem unify_terminates s t1 t2 F (h : TaggedRef -> nat) :
  widths_positive M -> fresh s -> wf M s -> plain t1 -> plain t2 -> word_ok M (cells s) t1 -> word_ok M (cells s) t2 ->
  solution M (cells s) F -> F t1 t2 -> ranked M F h ->
  exists fuel a s', oz_unify M fuel s t1 t2 = Some (a, s') /\ exists l, remaining a = Some l.
Proof.
  intros Hwid Hf Hw P1 P2 W1 W2 HF Ht Hrank. pose proof (start_finv F s t1 t2 Hf HF Ht) as Hfinv.
  destruct (rounds_terminate M F h Hwid Hrank s t1 t2 Hw (proj1 Hf) W1 W2 P1 P2 Hfinv) as (fuel & s' & E).
  exists fuel. unfold oz_unify. rewrite E. ored. destruct (exit M PROCEED s') as [a s2] eqn:Ex. exists a, s2. split; [done|].
  destruct (exit_proceed s' a s2 Ex) as [Hl _]. by eexists.
Qed.
End properties.

(** C34: Redirecting cells does not always end unification: on the three cyclic lists
    [X0 = X2|X0], [X1 = X0|X2] and [X2 = X1|X2], which all denote the same infinite tree,
    [X0 = X1] never returns, however many rounds are allowed. *)
Theorem unify_can_diverge :
  wf (machine true) three_store /\ fresh three_store /\
  (exists F, solution (machine true) (cells three_store) F /\ F (REF 0) (REF 1)) /\
  forall fuel, oz_unify (machine true) fuel three_store (REF 0) (REF 1) = None.
Proof.
  split; [apply three_wf|]. split; [done|]. split; [|apply three_diverge].
  exists (same_rep three_rep). split; [apply three_solution|done].
Qed.

(** ** Witnesses *)

Lemma unify_correct_witness : exists a s' l, oz_unify (machine true) 20 two_store (LTUPLE 10) (LTUPLE 20) = Some (a, s') /\ remaining a = Some l /\
  cells s' !! 0 = Some (CONST 50) /\
  forall F, solution (machine true) (cells two_store) F -> F (LTUPLE 10) (LTUPLE 20) -> solution (machine true) (cells s') F /\ forall x y, (x, y) ∈ l -> F x y.
Proof.
  destruct (oz_unify (machine true) 20 two_store (LTUPLE 10) (LTUPLE 20)) as [[a s']|] eqn:E; [|vm_compute in E; discriminate].
  exists a, s', []. split; [reflexivity|]. pose proof E as E'. vm_compute in E'. injection E' as Ea Es. split; [by rewrite <- Ea|]. split; [by rewrite <- Es|].
  refine (proj1 (unify_correct (machine true) 20 two_store (LTUPLE 10) (LTUPLE 20) a s' [] (machine_widths true) _ _ _ E _)); [by split_and!|done|done|by rewrite <- Ea].
Defined.


Lemma unify_failure_witness : exists s', oz_unify (machine true) 20 unequal_store (LTUPLE 10) (LTUPLE 20) = Some (RETURN FAILED, s') /\
  ~ same_rep unequal_rep (LTUPLE 10) (LTUPLE 20).
Proof.
  destruct (oz_unify (machine true) 20 unequal_store (LTUPLE 10) (LTUPLE 20)) as [[a s']|] eqn:E; [|vm_compute in E; discriminate].
  assert (a = RETURN FAILED) as -> by (vm_compute in E; by injection E as <- _). exists s'. split; [reflexivity|].
  refine (unify_failure_sound (machine true) 20 unequal_store (LTUPLE 10) (LTUPLE 20) s' _ (machine_widths true) _ _ _ E (unequal_solution true)); [by split_and!|done|done].
Defined.

Lemma unify_restores_witness : exists a s', oz_unify (machine false) 20 two_store (LTUPLE 10) (LTUPLE 20) = Some (a, s') /\
  fresh s' /\ keeps (cells two_store) (cells s').
Proof.
  destruct (oz_unify (machine false) 20 two_store (LTUPLE 10) (LTUPLE 20)) as [[a s']|] eqn:E; [|vm_compute in E; discriminate].
  exists a, s'. split; [reflexivity|].
  destruct (unify_restores (machine false) 20 two_store (LTUPLE 10) (LTUPLE 20) a s') as (Hf & _ & Hk); [by split_and!|done|done|exact E|].
  split; [exact Hf|exact (Hk eq_refl)].
Defined.

Lemma unify_well_formed_witness : exists a s', oz_unify (machine false) 20 two_store (LTUPLE 10) (LTUPLE 20) = Some (a, s') /\
  wf (machine false) s' /\ grows (cells two_store) (cells s').
Proof.
  destruct (oz_unify (machine false) 20 two_store (LTUPLE 10) (LTUPLE 20)) as [[a s']|] eqn:E; [|vm_compute in E; discriminate].
  exists a, s'. split; [reflexivity|].
  destruct (unify_well_formed (machine false) 20 two_store (LTUPLE 10) (LTUPLE 20) a s') as (Hw & Hg & _);
    [by split_and!|apply two_wf|done|done|apply two_words|apply two_words|exact E|]. split; [exact Hw|exact Hg].
Defined.

Lemma unify_terminates_witness : exists fuel a s', oz_unify (machine true) fuel two_store (LTUPLE 10) (LTUPLE 20) = Some (a, s') /\ exists l, remaining a = Some l.
Proof.
  apply (unify_terminates (machine true) two_store (LTUPLE 10) (LTUPLE 20) (same_rep two_rep) two_height);
    [apply machine_widths|by split_and!|apply two_wf|done|done|apply two_words|apply two_words|apply two_solution|done|apply two_ranked].
Defined.
