(* ===== verification/Migratory.v ===== *)
(** * The migratory state protocol ([protocol_migratory.cc], [protocols.cc])

    A token that carries the state of an entity moves between the proxies of the entity; the manager
    at the home site keeps the chain in which they receive it.  A site is a number.  A handler
    becomes a function to the changed object and the messages it sends; a failed assertion and the use
    of an absent list node have no result.  The coordinator is stationary. *)
From stdpp Require Import gmap.
From S2P Require Import Prelude.

Module Migratory.

Section protocol.
(** The states of the entity, the operations of threads and what they do. *)
Context {E Op : Type} (perform : Op -> E -> E).

(** The messages of both protocols that proxies and managers exchange. *)
Inductive Message :=
  | PROT_REGISTER | PROT_DEREGISTER | PROT_PERMFAIL
  | MIGM_GET (reqid : Z) | MIGM_FORWARD (successor : Z) | MIGM_TOKEN (state : E) | MIGM_TOKEN_HERE | MIGM_NEED_NO_MORE
  | MIGM_CHECK_SUCC (reqid : Z) | MIGM_CHECK_PRED (reqid : Z) | MIGM_FAILED_SUCC | MIGM_FAILED_PRED
  | MIGM_OLD_SUCC (reqid : Z) | MIGM_OLD_PRED (reqid : Z).

(** A message is for the manager or for the proxy of a site. *)
Inductive Envelope := ToManager (m : Message) | ToProxy (m : Message).

Inductive MigratoryToken := MIGT_EMPTY | MIGT_REQUESTED | MIGT_HERE.

Inductive OpRetVal := DSS_PROCEED | DSS_SUSPEND | DSS_RAISE.

#[export] Instance MigratoryToken_eq_dec : EqDecision MigratoryToken.
Proof. solve_decision. Defined.

(** ** The manager *)

Record Manager := MG {
  m_permFail : bool;
  a_proxies : list Z;
  a_chain : list (Z * Z);
  a_last : option Z
}.

(** [ProtocolMigratoryManager(DSite* )] *)
Definition newManager (mysite : Z) : Manager := MG false [] [(mysite, 0)] (Some mysite).

Definition set_proxies (m : Manager) (l : list Z) : Manager := MG (m_permFail m) l (a_chain m) (a_last m).
Definition set_chain (m : Manager) (c : list (Z * Z)) (l : option Z) : Manager := MG (m_permFail m) (a_proxies m) c l.

Definition registerProxy (m : Manager) (s : Z) : Manager := set_proxies m (s :: a_proxies m).

(** [SimpleList::remove]: the first occurrence. *)
Fixpoint remove (s : Z) (l : list Z) : list Z :=
  match l with [] => [] | x :: l => if x =? s then l else x :: remove s l end.
Definition deregisterProxy (m : Manager) (s : Z) : Manager := set_proxies m (remove s (a_proxies m)).

Definition makePermFail (m : Manager) : Manager * list (Z * Envelope) :=
  (MG true [] (a_chain m) (a_last m), map (fun s => (s, ToProxy PROT_PERMFAIL)) (a_proxies m)).

(** The position of the first entry of a site in the chain, as what precedes it, the entry and what follows. *)
Fixpoint find (s : Z) (c : list (Z * Z)) : option (list (Z * Z) * (Z * Z) * list (Z * Z)) :=
  match c with
  | [] => None
  | e :: c => if fst e =? s then Some ([], e, c) else '(before, x, after) ← find s c; Some (e :: before, x, after)
  end.
Definition in_chain (s : Z) (c : list (Z * Z)) : bool := match find s c with Some _ => true | None => false end.

(** [while (a_chain.pop().first != sender) ;] *)
Definition pop_through (s : Z) (c : list (Z * Z)) : option (list (Z * Z)) := '(_, _, after) ← find s c; Some after.

Fixpoint notify_chain (m : Manager) (c : list (Z * Z)) : Manager * list (Z * Envelope) :=
  match c with
  | [] => (m, [])
  | (s, _) :: c => let '(m, out) := notify_chain (deregisterProxy m s) c in (m, (s, ToProxy PROT_PERMFAIL) :: out)
  end.

Definition manager_lostToken (m : Manager) : Manager * list (Z * Envelope) :=
  let '(m, out1) := notify_chain (set_chain m [] None) (a_chain m) in
  let '(m, out2) := makePermFail m in (m, out1 ++ out2).

(** The last entry of a part of the chain whose site has not failed. *)
Fixpoint last_alive (failed : Z -> bool) (c : list (Z * Z)) : option (Z * Z) :=
  match c with
  | [] => None
  | e :: c => match last_alive failed c with Some x => Some x | None => if failed (fst e) then None else Some e end
  end.

(** [inquire]; [failed] are the sites with a permanent fault. *)
Definition inquire (failed : Z -> bool) (m : Manager) (s : Z) : option (Manager * list (Z * Envelope)) :=
  '(before, _, after) ← find s (a_chain m);
  match last_alive failed before with
  | Some (other, reqid) => Some (m, [(other, ToProxy (MIGM_CHECK_SUCC reqid))])
  | None =>
      match last_alive failed after with
      | Some (other, reqid) => Some (m, [(other, ToProxy (MIGM_CHECK_PRED reqid))])
      | None => Some (manager_lostToken (set_chain m [] (a_last m)))
      end
  end.

(** ** The proxies *)

Record Proxy := PX {
  isHomeProxy : bool;
  permFail : bool;
  registered : bool;
  status : MigratoryToken;
  a_successor : option Z;
  a_request : Z;
  a_susps : list Op;
  entity : option E
}.

Definition set_status (p : Proxy) (t : MigratoryToken) : Proxy := PX (isHomeProxy p) (permFail p) (registered p) t (a_successor p) (a_request p) (a_susps p) (entity p).
Definition set_successor (p : Proxy) (s : option Z) : Proxy := PX (isHomeProxy p) (permFail p) (registered p) (status p) s (a_request p) (a_susps p) (entity p).
Definition set_request (p : Proxy) (r : Z) : Proxy := PX (isHomeProxy p) (permFail p) (registered p) (status p) (a_successor p) r (a_susps p) (entity p).
Definition set_susps (p : Proxy) (l : list Op) : Proxy := PX (isHomeProxy p) (permFail p) (registered p) (status p) (a_successor p) (a_request p) l (entity p).
Definition set_entity (p : Proxy) (e : option E) : Proxy := PX (isHomeProxy p) (permFail p) (registered p) (status p) (a_successor p) (a_request p) (a_susps p) e.
Definition set_registered (p : Proxy) (r : bool) : Proxy := PX (isHomeProxy p) (permFail p) r (status p) (a_successor p) (a_request p) (a_susps p) (entity p).

(** [ProtocolMigratoryProxy()] at the home site, and with [m_initRemoteProt] at another one. *)
Definition newProxy (e : E) : Proxy := PX true false false MIGT_HERE None 0 [] (Some e).
Definition initRemoteProt : Proxy := PX false false false MIGT_EMPTY None 0 [] None.

Context (coordinator : Z).
Definition sendToManager (m : Message) : Z * Envelope := (coordinator, ToManager m).

Definition requestToken (p : Proxy) : option (Proxy * list (Z * Envelope)) :=
  match status p with MIGT_EMPTY => Some (set_status p MIGT_REQUESTED, [sendToManager (MIGM_GET (a_request p))]) | _ => None end.

Definition forwardToken (p : Proxy) : option (Proxy * list (Z * Envelope)) :=
  match status p, a_successor p with
  | MIGT_HERE, Some s =>
      e ← entity p;
      Some (set_request (set_successor (set_status (set_entity p None) MIGT_EMPTY) None) (a_request p + 1), [(s, ToProxy (MIGM_TOKEN e))])
  | _, _ => None
  end.

(** [resumeOperations]: every suspended thread performs its operation. *)
Definition resumeOperations (p : Proxy) : option (Proxy * list (Z * Envelope)) :=
  match a_susps p, isHomeProxy p with
  | [], false => None
  | l, _ =>
      e ← entity p;
      let p := set_susps (set_entity p (Some (foldl (fun e op => perform op e) e l))) [] in
      match a_successor p with Some _ => forwardToken p | None => Some (p, [sendToManager MIGM_TOKEN_HERE]) end
  end.

(** [makePermFail] of a proxy with a global fault, and [lostToken]: suspended threads fail. *)
Definition proxy_makePermFail (p : Proxy) : Proxy := PX (isHomeProxy p) true false (status p) (a_successor p) (a_request p) [] (entity p).
Definition lostToken (p : Proxy) : Proxy := set_successor (proxy_makePermFail p) None.

(** [protocol_Access]: a thread that may proceed performs its operation on the spot. *)
Definition protocol_Access (p : Proxy) (id : Op) : option (OpRetVal * Proxy * list (Z * Envelope)) :=
  if permFail p then Some (DSS_RAISE, p, [])
  else
    match status p with
    | MIGT_HERE => Some (DSS_PROCEED, p, [])
    | MIGT_EMPTY => '(p, out) ← requestToken p; Some (DSS_SUSPEND, set_susps p (a_susps p ++ [id]), out)
    | MIGT_REQUESTED => Some (DSS_SUSPEND, set_susps p (a_susps p ++ [id]), [])
    end.

Definition protocol_Register (p : Proxy) : Proxy * list (Z * Envelope) :=
  if registered p then (p, []) else (set_registered p true, [sendToManager PROT_REGISTER]).
Definition protocol_Kill (p : Proxy) : list (Z * Envelope) := if permFail p then [] else [sendToManager PROT_PERMFAIL].

(** [msgReceived] of a proxy. *)
Definition proxy_msgReceived (p : Proxy) (msg : Message) : option (Proxy * list (Z * Envelope)) :=
  if permFail p then Some (p, [])
  else
    match msg with
    | MIGM_FORWARD s =>
        match a_successor p with
        | None => let p := set_successor p (Some s) in match status p with MIGT_HERE => forwardToken p | _ => Some (p, []) end
        | Some _ => None
        end
    | MIGM_TOKEN e => resumeOperations (set_entity (set_status p MIGT_HERE) (Some e))
    | MIGM_CHECK_SUCC reqid =>
        if negb (a_request p =? reqid) then Some (p, [sendToManager (MIGM_OLD_SUCC reqid)])
        else match a_successor p with Some _ => Some (set_successor p None, [sendToManager MIGM_FAILED_SUCC]) | None => Some (p, []) end
    | MIGM_CHECK_PRED reqid =>
        if negb (a_request p =? reqid) then Some (p, [sendToManager (MIGM_OLD_PRED reqid)])
        else match status p with MIGT_HERE => Some (p, [sendToManager MIGM_TOKEN_HERE]) | _ => Some (lostToken p, [sendToManager MIGM_FAILED_PRED]) end
    | PROT_PERMFAIL => Some (lostToken p, [])
    | _ => None
    end.

Definition isWeakRoot (p : Proxy) : bool := negb (permFail p) && match status p with MIGT_EMPTY => false | _ => true end.
Definition clearWeakRoot (p : Proxy) : option (Proxy * list (Z * Envelope)) :=
  if isWeakRoot p then
    match status p with
    | MIGT_HERE => match a_successor p with Some _ => forwardToken p | None => Some (p, [sendToManager MIGM_NEED_NO_MORE]) end
    | _ => Some (p, [])
    end
  else Some (p, []).

(** [siteStateChanged] of a proxy when the site [s] has failed for good. *)
Definition siteStateChanged (p : Proxy) (s : Z) : Proxy * list (Z * Envelope) :=
  if permFail p then (p, [])
  else if coordinator =? s then (lostToken p, [])
  else match a_successor p with
       | Some x => if x =? s then (set_successor p None, [sendToManager MIGM_FAILED_SUCC]) else (p, [])
       | None => (p, [])
       end.

(** A proxy created at a site; [failed] are the sites it knows to have failed. *)
Definition m_initRemoteProxy (failed : Z -> bool) : Proxy :=
  if failed coordinator then fst (siteStateChanged initRemoteProt coordinator) else initRemoteProt.

(** [msgReceived] of the manager, with the proxy of its site. *)
Definition manager_msgReceived (failed : Z -> bool) (m : Manager) (home : Proxy) (msg : Message) (sender : Z) : option (Manager * Proxy * list (Z * Envelope)) :=
  let only (r : Manager * list (Z * Envelope)) := let '(m, out) := r in (m, home, out) in
  match msg with
  | PROT_REGISTER => Some (if m_permFail m then only (m, [(sender, ToProxy PROT_PERMFAIL)]) else only (registerProxy m sender, []))
  | PROT_DEREGISTER => Some (only (deregisterProxy m sender, []))
  | MIGM_GET reqid =>
      if m_permFail m then Some (only (m, [(sender, ToProxy PROT_PERMFAIL)]))
      else
        last ← a_last m;
        if sender =? last then Some (only (m, []))
        else
          c ← (if in_chain sender (a_chain m) then pop_through sender (a_chain m) else Some (a_chain m));
          Some (only (set_chain m (c ++ [(sender, reqid)]) (Some sender), [(last, ToProxy (MIGM_FORWARD sender))]))
  | MIGM_TOKEN_HERE =>
      if m_permFail m then Some (only (m, []))
      else
        match find sender (a_chain m) with
        | Some (_, e, after) => Some (only (set_chain m (e :: after) (a_last m), []))
        | None => Some (only (m, []))
        end
  | MIGM_NEED_NO_MORE =>
      if decide (Some sender = a_last m) then '(home, out) ← requestToken home; Some (m, home, out)
      else Some (only (m, []))
  | MIGM_FAILED_SUCC =>
      if m_permFail m then Some (only (m, []))
      else
        '(before, e, after) ← find sender (a_chain m);
        match after with
        | [] => None
        | _ :: [] => Some (only (set_chain m (before ++ [e]) (Some sender), []))
        | _ :: (next, r) :: rest => Some (only (set_chain m (before ++ e :: (next, r) :: rest) (a_last m), [(sender, ToProxy (MIGM_FORWARD next))]))
        end
  | PROT_PERMFAIL | MIGM_FAILED_PRED => Some (only (if m_permFail m then (m, []) else manager_lostToken m))
  | MIGM_OLD_SUCC reqid =>
      if m_permFail m then Some (only (m, []))
      else
        match find sender (a_chain m) with
        | Some (_, (_, r), after) =>
            if r =? reqid then
              let m := set_chain m after (a_last m) in
              match after with [] => None | (front, _) :: _ => res ← inquire failed m front; Some (only res) end
            else Some (only (m, []))
        | None => Some (only (m, []))
        end
  | MIGM_OLD_PRED reqid =>
      if m_permFail m then Some (only (m, []))
      else
        match find sender (a_chain m) with
        | Some (_, (_, r), after) => Some (only (if r =? reqid then set_chain m after (a_last m) else m, []))
        | None => Some (only (m, []))
        end
  | _ => None
  end.

(** [m_siteStateChange] of the manager when the site [s] has failed for good. *)
Definition manager_siteStateChange (failed : Z -> bool) (m : Manager) (s : Z) : option (Manager * list (Z * Envelope)) :=
  let m := deregisterProxy m s in
  if negb (m_permFail m) && in_chain s (a_chain m) then inquire failed m s else Some (m, []).

(** ** The system *)

(** The coordinator's site has the manager; [net] holds the messages under way, in the order in which
    they were sent; [detected] pairs a site with a failed one it knows of; [history] the operations
    that were performed. *)
Record System := SY {
  manager : Manager;
  proxies : gmap Z Proxy;
  net : list (Z * Z * Envelope);
  crashed : gset Z;
  detected : gset (Z * Z);
  history : list Op
}.

Definition init (e : E) : System := SY (newManager coordinator) {[coordinator := newProxy e]} [] ∅ ∅ [].

(** Messages to a site that is known to have failed are dropped. *)
Definition post (s : System) (from : Z) (out : list (Z * Envelope)) : list (Z * Z * Envelope) :=
  map (fun '(to, env) => (from, to, env)) (filter (fun '(to, _) => (from, to) ∉ detected s) out).

Definition send (s : System) (from : Z) (out : list (Z * Envelope)) : System :=
  SY (manager s) (proxies s) (net s ++ post s from out) (crashed s) (detected s) (history s).
Definition set_manager (s : System) (m : Manager) : System := SY m (proxies s) (net s) (crashed s) (detected s) (history s).
Definition set_proxy (s : System) (a : Z) (p : Proxy) : System := SY (manager s) (<[a := p]> (proxies s)) (net s) (crashed s) (detected s) (history s).
Definition set_net (s : System) (n : list (Z * Z * Envelope)) : System := SY (manager s) (proxies s) n (crashed s) (detected s) (history s).
Definition add_history (s : System) (l : list Op) : System := SY (manager s) (proxies s) (net s) (crashed s) (detected s) (history s ++ l).

(** Connections deliver in order: the first message from one site to another. *)
Fixpoint take_first (a b : Z) (n : list (Z * Z * Envelope)) : option (Envelope * list (Z * Z * Envelope)) :=
  match n with
  | [] => None
  | (x, y, env) :: n => if (x =? a) && (y =? b) then Some (env, n) else '(r, n) ← take_first a b n; Some (r, (x, y, env) :: n)
  end.

(** What the sites do: a thread operates on the entity, the garbage collector wants to be rid of
    a proxy, a proxy is created, monitored or killed, a message arrives, a site crashes, another one
    learns of it. *)
Inductive Event :=
  | Operate (a : Z) (op : Op) | Collect (a : Z) | Create (a : Z) | Monitor (a : Z) | Kill (a : Z)
  | Deliver (a b : Z) | Crash (a : Z) | Detect (a b : Z).

Definition failed_at (s : System) (a : Z) : Z -> bool := fun b => bool_decide ((a, b) ∈ detected s).

Definition fire (s : System) (ev : Event) : option System :=
  match ev with
  | Operate a op =>
      p ← proxies s !! a;
      '(r, p, out) ← protocol_Access p op;
      match r with
      | DSS_PROCEED => e ← entity p; Some (add_history (set_proxy s a (set_entity p (Some (perform op e)))) [op])
      | _ => Some (send (set_proxy s a p) a out)
      end
  | Collect a => p ← proxies s !! a; '(p, out) ← clearWeakRoot p; Some (send (set_proxy s a p) a out)
  | Create a =>
      match proxies s !! a with
      | None => if decide (a ∈ crashed s) then None else Some (set_proxy s a (m_initRemoteProxy (failed_at s a)))
      | Some _ => None
      end
  | Monitor a => p ← proxies s !! a; let '(p, out) := protocol_Register p in Some (send (set_proxy s a p) a out)
  | Kill a => p ← proxies s !! a; Some (send s a (protocol_Kill p))
  | Deliver a b =>
      p ← proxies s !! b;
      '(env, n) ← take_first a b (net s);
      let s := set_net s n in
      match env with
      | ToProxy msg =>
          '(p', out) ← proxy_msgReceived p msg;
          let performed := match msg with MIGM_TOKEN _ => if permFail p then [] else a_susps p | _ => [] end in
          Some (send (add_history (set_proxy s b p') performed) b out)
      | ToManager msg =>
          if b =? coordinator then '(m, p', out) ← manager_msgReceived (failed_at s b) (manager s) p msg a; Some (send (set_manager (set_proxy s b p') m) b out)
          else None
      end
  | Crash a =>
      Some (SY (manager s) (delete a (proxies s)) (net s) ({[a]} ∪ crashed s) (detected s) (history s))
  | Detect a b =>
      p ← proxies s !! a;
      if decide (b ∈ crashed s /\ (a, b) ∉ detected s) then
        let n := filter (fun '(x, y, _) => ~ ((x = a /\ y = b) \/ (x = b /\ y = a))) (net s) in
        let s := SY (manager s) (proxies s) n (crashed s) ({[(a, b)]} ∪ detected s) (history s) in
        let '(p, out) := siteStateChanged p b in
        let s := send (set_proxy s a p) a out in
        if a =? coordinator then '(m, out) ← manager_siteStateChange (failed_at s a) (manager s) b; Some (send (set_manager s m) a out)
        else Some s
      else None
  end.

Fixpoint run (s : System) (l : list Event) : option System :=
  match l with [] => Some s | ev :: l => s ← fire s ev; run s l end.
End protocol.
End Migratory.
