(* ===== verification/MigratorySpec.v ===== *)
(** * The queue of the migratory token

    The abstract behaviour of the protocol is a fair lock: sites ask for it, are put into a queue, and
    the head of the queue passes it on.  [inv] says how the proxies, the manager and the messages
    under way represent the queue while no site fails. *)
From stdpp Require Import gmap.
From S2P Require Import Prelude Migratory.

Module MigratorySpec.
Import Migratory.

(** ** The lock *)

Record Lock := LK { queue : list Z; asking : Z -> bool }.

(** Nothing happens, a site asks, the manager puts it at the end of the queue, the head passes the lock on. *)
Inductive lock_step (l l' : Lock) : Prop :=
  | lock_idle : queue l' = queue l -> (forall p, asking l' p = asking l p) -> lock_step l l'
  | lock_ask a : a ∉ queue l -> asking l a = false -> queue l' = queue l -> (forall p, asking l' p = (a =? p) || asking l p) -> lock_step l l'
  | lock_enqueue a : a ∉ queue l -> asking l a = true -> queue l' = queue l ++ [a] -> (forall p, asking l' p = negb (a =? p) && asking l p) -> lock_step l l'
  | lock_pass a b q : queue l = a :: b :: q -> queue l' = b :: q -> (forall p, asking l' p = asking l p) -> lock_step l l'.

(** Who comes after a site in the queue. *)
Fixpoint next (q : list Z) (p : Z) : option Z :=
  match q with a :: (b :: _) as q' => if a =? p then Some b else next q' p | _ => None end.

Definition b2n (b : bool) : nat := if b then 1 else 0.
Definition some2n {A} (o : option A) : nat := match o with Some _ => 1 | None => 0 end.
Definition inq (q : list Z) (p : Z) : nat := b2n (bool_decide (p ∈ q)).
Definition owner (q : list Z) (p : Z) : nat := match q with a :: _ => b2n (a =? p) | [] => 0 end.

Lemma next_in q p x : next q p = Some x -> p ∈ q /\ x ∈ q.
Proof.
  induction q as [|a [|b q] IH]; cbn [next]; [done|done|]. destruct (Z.eqb_spec a p) as [->|].
  - intros [= <-]. split; [by left|by right; left].
  - intros H. destruct (IH H). split; by right.
Qed.

Lemma next_app q l s p : NoDup q -> last q = Some l -> next (q ++ [s]) p = if p =? l then Some s else next q p.
Proof.
  induction q as [|a [|b q] IH]; intros Hd Hl; [done| |].
  - injection Hl as ->. cbn. rewrite Z.eqb_sym. destruct (p =? l); done.
  - apply NoDup_cons in Hd as [Ha Hd]. change (last (b :: q) = Some l) in Hl. specialize (IH Hd Hl).
    change (next (a :: b :: q ++ [s]) p = if p =? l then Some s else next (a :: b :: q) p). cbn [next]. destruct (Z.eqb_spec a p) as [->|]; [|exact IH].
    destruct (Z.eqb_spec p l) as [Epl|]; [|done]. destruct Ha. apply last_Some in Hl as [l' El]. rewrite El, Epl. apply elem_of_app. right. by left.
Qed.

Lemma next_last q l : NoDup q -> last q = Some l -> next q l = None.
Proof.
  intros Hd Hl. destruct (next q l) as [x|] eqn:E; [|done]. exfalso. revert Hd Hl E. induction q as [|a [|b q] IH]; intros Hd Hl E; [done|done|].
  apply NoDup_cons in Hd as [Ha Hd]. change (last (b :: q) = Some l) in Hl. cbn [next] in E. destruct (Z.eqb_spec a l) as [->|]; [|by apply IH].
  apply Ha. apply last_Some in Hl as [l' El]. rewrite El. apply elem_of_app. right. by left.
Qed.

Lemma next_tail a b q p : NoDup (a :: b :: q) -> next (b :: q) p = if a =? p then None else next (a :: b :: q) p.
Proof.
  intros Hd. cbn [next]. destruct (Z.eqb_spec a p) as [->|]; [|done]. destruct (next (b :: q) p) as [x|] eqn:E; [|done]. change (next (b :: q) p = Some x) in E.
  apply next_in in E as [E _]. by apply NoDup_cons in Hd as [? _].
Qed.

Section counting.
Context {E Op : Type}.
Implicit Types (s : System (E:=E) (Op:=Op)) (n : list (Z * Z * Envelope (E:=E))).

(** ** Counting messages and proxies *)

Definition tally (P : Z * Z * Envelope (E:=E) -> bool) n : nat := foldr (fun x k => b2n (P x) + k)%nat 0%nat n.
#[global] Arguments tally : simpl never.

Lemma tally_app P n n' : tally P (n ++ n') = (tally P n + tally P n')%nat.
Proof. induction n as [|x n IH]; cbn; [done|]. change (tally P (n ++ n')) with (tally P (n ++ n')) in *. unfold tally in *. cbn. lia. Qed.

Lemma tally_in P n x : x ∈ n -> P x = true -> (0 < tally P n)%nat.
Proof. intros Hx HP. induction Hx as [x n|x y n _ IH]; unfold tally in *; cbn; [rewrite HP; cbn; lia|specialize (IH HP); lia]. Qed.

Lemma tally_zero P n x : tally P n = 0%nat -> x ∈ n -> P x = false.
Proof. intros H Hx. destruct (P x) eqn:E'; [|done]. pose proof (tally_in P n x Hx E'). lia. Qed.

Lemma tally_exists P n : (0 < tally P n)%nat -> exists x, x ∈ n /\ P x = true.
Proof.
  induction n as [|x n IH]; unfold tally in *; cbn; [lia|]. destruct (P x) eqn:E'; [intros _; exists x; split; [by left|done]|]. cbn. intros H. destruct (IH H) as (y & ? & ?). exists y. split; [by right|done].
Qed.

Lemma take_first_spec a b n env n' : take_first a b n = Some (env, n') ->
  exists l1 l2, n = l1 ++ (a, b, env) :: l2 /\ n' = l1 ++ l2 /\ forall env', (a, b, env') ∉ l1.
Proof.
  revert n'. induction n as [|[[x y] m] n IH]; intros n'; cbn [take_first]; [done|]. destruct (Z.eqb_spec x a) as [->|Hx]; cbn [andb]; [destruct (Z.eqb_spec y b) as [->|Hy]|].
  - intros [= <- <-]. exists [], n. split; [done|]. split; [done|]. by intros env' ?%elem_of_nil.
  - destruct (take_first a b n) as [[r n1]|]; [|done]. ored. intros [= <- <-]. destruct (IH n1 eq_refl) as (l1 & l2 & -> & -> & Hn). exists ((a, y, m) :: l1), l2. split; [done|]. split; [done|].
    intros env' [[= -> ->]|Hin]%elem_of_cons; [done|by apply (Hn env')].
  - destruct (take_first a b n) as [[r n1]|]; [|done]. ored. intros [= <- <-]. destruct (IH n1 eq_refl) as (l1 & l2 & -> & -> & Hn). exists ((x, y, m) :: l1), l2. split; [done|]. split; [done|].
    intros env' [[= -> -> ->]|Hin]%elem_of_cons; [done|by apply (Hn env')].
Qed.

Lemma taken_tally a b n env n' P : take_first a b n = Some (env, n') -> tally P n = (b2n (P (a, b, env)) + tally P n')%nat.
Proof. intros H. destruct (take_first_spec a b n env n' H) as (l1 & l2 & -> & -> & _). rewrite !tally_app. unfold tally at 2. cbn. unfold tally. lia. Qed.

Lemma taken_in a b n env n' x : take_first a b n = Some (env, n') -> x ∈ n' -> x ∈ n.
Proof. intros H. destruct (take_first_spec a b n env n' H) as (l1 & l2 & -> & -> & _). rewrite !elem_of_app. intros [?|?]; [by left|by right; right]. Qed.

Lemma taken_head a b n env n' : take_first a b n = Some (env, n') -> (a, b, env) ∈ n.
Proof. intros H. destruct (take_first_spec a b n env n' H) as (l1 & l2 & -> & _ & _). rewrite elem_of_app. right. by left. Qed.

Definition weight (f : Proxy (E:=E) (Op:=Op) -> nat) (m : gmap Z (Proxy (E:=E) (Op:=Op))) (p : Z) : nat := match m !! p with Some x => f x | None => 0 end.

Lemma weight_insert f m a x p : weight f (<[a := x]> m) p = if a =? p then f x else weight f m p.
Proof. unfold weight. destruct (Z.eqb_spec a p) as [->|]; [by rewrite lookup_insert_eq|by rewrite lookup_insert_ne]. Qed.

Lemma weight_at f m a x : m !! a = Some x -> weight f m a = f x.
Proof. unfold weight. by intros ->. Qed.

(** The messages and the proxies that count: requests, notices of a successor, tokens. *)
Definition is_get (p : Z) (x : Z * Z * Envelope (E:=E)) : bool := match x with (a, _, ToManager (MIGM_GET _)) => a =? p | _ => false end.
Definition is_forward (p : Z) (x : Z * Z * Envelope (E:=E)) : bool := match x with (_, b, ToProxy (MIGM_FORWARD _)) => b =? p | _ => false end.
Definition is_token (p : Z) (x : Z * Z * Envelope (E:=E)) : bool := match x with (_, b, ToProxy (MIGM_TOKEN _)) => b =? p | _ => false end.

Definition active (x : Proxy (E:=E) (Op:=Op)) : nat := match status x with MIGT_EMPTY => 0 | _ => 1 end.
Definition here (x : Proxy (E:=E) (Op:=Op)) : nat := match status x with MIGT_HERE => 1 | _ => 0 end.
Definition succs (x : Proxy (E:=E) (Op:=Op)) : nat := some2n (a_successor x).

(** ** The invariant *)

Context (coordinator : Z).

(** A proxy by itself. *)
Record proxy_ok (a : Z) (x : Proxy (E:=E) (Op:=Op)) : Prop := {
  po_fail : permFail x = false;
  po_home : isHomeProxy x = (a =? coordinator);
  po_here : status x = MIGT_HERE -> a_successor x = None;
  po_entity : entity x = None <-> status x <> MIGT_HERE;
  po_idle : status x <> MIGT_REQUESTED -> a_susps x = [];
  po_waiting : status x = MIGT_REQUESTED -> isHomeProxy x = false -> a_susps x <> []
}.

(** The messages that are sent while nothing fails. *)
Definition message_ok (q : list Z) (x : Z * Z * Envelope (E:=E)) : Prop :=
  match x with
  | (_, b, ToManager (MIGM_GET _ | MIGM_TOKEN_HERE | MIGM_NEED_NO_MORE | PROT_REGISTER)) => b = coordinator
  | (_, b, ToProxy (MIGM_FORWARD s)) => next q b = Some s
  | (a, b, ToProxy (MIGM_TOKEN _)) => a <> b
  | _ => False
  end.

Record inv s (q : list Z) : Prop := {
  i_manager : m_permFail (manager s) = false;
  i_crashed : crashed s = ∅;
  i_detected : detected s = ∅;
  i_home : is_Some (proxies s !! coordinator);
  i_proxies a x : proxies s !! a = Some x -> proxy_ok a x;
  i_net x : x ∈ net s -> message_ok q x;
  i_nodup : NoDup q;
  i_last : last q = a_last (manager s);
  i_active p : weight active (proxies s) p = (tally (is_get p) (net s) + inq q p)%nat;
  i_owner p : (tally (is_token p) (net s) + weight here (proxies s) p)%nat = owner q p;
  i_links p : (tally (is_forward p) (net s) + weight succs (proxies s) p)%nat = some2n (next q p);
  i_succ a x p : proxies s !! a = Some x -> a_successor x = Some p -> next q a = Some p;
  i_queue : q <> []
}.

(** The lock that a state stands for. *)
Definition lock_of s (q : list Z) : Lock := LK q (fun p => (0 <? tally (is_get p) (net s))%nat).
End counting.
End MigratorySpec.
