(* ===== verification/MigratorySteps.v ===== *)
(** * The steps of the migratory protocol while no site fails

    Every event keeps the invariant and is a step of the lock or none. *)
From stdpp Require Import gmap.
From S2P Require Import Prelude Migratory MigratorySpec.

Module MigratorySteps.
Import Migratory MigratorySpec.

Section steps.
Context {E Op : Type} (perform : Op -> E -> E) (coordinator : Z).
Implicit Types (s : System (E:=E) (Op:=Op)) (x : Proxy (E:=E) (Op:=Op)) (q : list Z).

Lemma tally_one (P : Z * Z * Envelope (E:=E) -> bool) y : tally P [y] = b2n (P y).
Proof. unfold tally. cbn. lia. Qed.

Lemma tally_nil (P : Z * Z * Envelope (E:=E) -> bool) : tally P [] = 0%nat.
Proof. done. Qed.

Lemma post_all s a out : detected s = ∅ -> post s a out = map (fun '(to, env) => (a, to, env)) out.
Proof.
  intros Hd. unfold post. rewrite Hd. f_equal. induction out as [|[to env] out IH]; [done|]. rewrite filter_cons, decide_True by set_solver. by rewrite IH.
Qed.

Lemma inq_in q p : p ∈ q -> inq q p = 1%nat.
Proof. intros H. unfold inq. by rewrite bool_decide_eq_true_2. Qed.

Lemma inq_out q p : p ∉ q -> inq q p = 0%nat.
Proof. intros H. unfold inq. by rewrite bool_decide_eq_false_2. Qed.

Lemma inq_zero q p : inq q p = 0%nat -> p ∉ q.
Proof. unfold inq. destruct (bool_decide (p ∈ q)) eqn:B; [done|]. by apply bool_decide_eq_false in B. Qed.

Lemma inq_app q a p : a ∉ q -> inq (q ++ [a]) p = (inq q p + b2n (a =? p)%Z)%nat.
Proof.
  intros Ha. unfold inq. destruct (Z.eqb_spec a p) as [->|Hne].
  - rewrite bool_decide_eq_true_2 by (apply elem_of_app; right; by left). by rewrite bool_decide_eq_false_2.
  - destruct (decide (p ∈ q)) as [Hp|Hp]; [rewrite !bool_decide_eq_true_2; [done|done|apply elem_of_app; by left]|].
    rewrite !bool_decide_eq_false_2; [done|done|]. intros [?|[->|[]%elem_of_nil]%elem_of_cons]%elem_of_app; done.
Qed.

Lemma inq_cons q a p : a ∉ q -> inq (a :: q) p = (b2n (a =? p)%Z + inq q p)%nat.
Proof.
  intros Ha. unfold inq. destruct (Z.eqb_spec a p) as [->|Hne].
  - rewrite bool_decide_eq_true_2; [|by left]. by rewrite bool_decide_eq_false_2.
  - destruct (decide (p ∈ q)) as [Hp|Hp]; [rewrite !bool_decide_eq_true_2; [done|done|by right]|].
    rewrite !bool_decide_eq_false_2; [done|done|]. intros [->|?]%elem_of_cons; done.
Qed.

Section one.
Context (s : System (E:=E) (Op:=Op)) (q : list Z).
Hypothesis Hinv : inv coordinator s q.

(** Proxies by their status: idle ones are in no queue. *)
Lemma empty_spec a x : proxies s !! a = Some x -> status x = MIGT_EMPTY ->
  tally (is_get a) (net s) = 0%nat /\ (a ∉ q) /\ tally (is_forward a) (net s) = 0%nat /\ a_successor x = None /\ tally (is_token a) (net s) = 0%nat.
Proof.
  intros Hx He. pose proof (i_active _ _ _ Hinv a) as Ha. rewrite (weight_at _ _ _ x Hx) in Ha. unfold active in Ha. rewrite He in Ha.
  assert (a ∉ q) as Hq by (apply inq_zero; lia). pose proof (i_links _ _ _ Hinv a) as Hl. pose proof (i_owner _ _ _ Hinv a) as Ho.
  assert (next q a = None) as Hn. { destruct (next q a) as [y|] eqn:En; [|done]. by apply next_in in En as [? _]. }
  rewrite Hn, (weight_at _ _ _ x Hx) in Hl. cbn in Hl. rewrite (weight_at _ _ _ x Hx) in Ho. unfold succs in Hl.
  assert (owner q a = 0%nat) as Ho'. { destruct q as [|b q']; [done|]. cbn. destruct (Z.eqb_spec b a) as [->|]; [|done]. destruct Hq. by left. }
  split; [lia|]. split; [done|]. split; [lia|]. split; [|lia]. destruct (a_successor x); cbn in Hl; [lia|done].
Qed.

Lemma here_spec a x : proxies s !! a = Some x -> status x = MIGT_HERE ->
  tally (is_get a) (net s) = 0%nat /\ a ∈ q /\ owner q a = 1%nat /\ (forall p, tally (is_token p) (net s) = 0%nat) /\ forall p, weight here (proxies s) p = b2n (a =? p).
Proof.
  intros Hx He. pose proof (i_owner _ _ _ Hinv a) as Ho. rewrite (weight_at _ _ _ x Hx) in Ho. unfold here in Ho. rewrite He in Ho.
  assert (exists q', q = a :: q') as [q' Eq]. { destruct q as [|b q']; cbn in Ho; [lia|]. destruct (Z.eqb_spec b a) as [->|]; [by exists q'|cbn in Ho; lia]. }
  pose proof (i_nodup _ _ _ Hinv) as Hd. rewrite Eq in Hd. apply NoDup_cons in Hd as [Hd _]. pose proof (i_active _ _ _ Hinv a) as Ha.
  rewrite (weight_at _ _ _ x Hx) in Ha. unfold active in Ha. rewrite He, Eq, inq_cons, inq_out, Z.eqb_refl in Ha by done. cbn in Ha.
  split; [lia|]. split; [rewrite Eq; by left|]. assert (owner q a = 1%nat) as Ho1 by (rewrite Eq; cbn; by rewrite Z.eqb_refl). split; [done|].
  assert (forall p, owner q p = b2n (a =? p)) as Hp by by rewrite Eq.
  split; intros p; pose proof (i_owner _ _ _ Hinv p) as Hop; rewrite Hp in Hop; destruct (Z.eqb_spec a p) as [Eap|Eap]; try subst p; cbn in Hop |- *; rewrite ?(weight_at _ _ _ x Hx) in *; unfold here in *; rewrite ?He in *; lia.
Qed.

(** ** A change of one proxy, of the manager and of the net *)

Lemma inv_change q' a x x' m' n' out hist :
  proxies s !! a = Some x -> proxy_ok coordinator a x' -> m_permFail m' = false -> last q' = a_last m' -> NoDup q' -> q' <> [] ->
  (forall y, y ∈ n' -> message_ok coordinator q' y) -> (forall y, y ∈ out -> message_ok coordinator q' y) ->
  (forall p, (if a =? p then active x' else weight active (proxies s) p) = (tally (is_get p) n' + tally (is_get p) out + inq q' p)%nat) ->
  (forall p, (tally (is_token p) n' + tally (is_token p) out + (if (a =? p)%Z then here x' else weight here (proxies s) p))%nat = owner q' p) ->
  (forall p, (tally (is_forward p) n' + tally (is_forward p) out + (if (a =? p)%Z then succs x' else weight succs (proxies s) p))%nat = some2n (next q' p)) ->
  (forall b y p, proxies s !! b = Some y -> b <> a -> a_successor y = Some p -> next q' b = Some p) -> (forall p, a_successor x' = Some p -> next q' a = Some p) ->
  inv coordinator (SY m' (<[a := x']> (proxies s)) (n' ++ out) (crashed s) (detected s) hist) q'.
Proof.
  intros Hx Hok Hm Hl Hd Hqe Hn Ho Ha Hw Hk Hs1 Hs2. destruct Hinv as [_ H2 H3 H4 H5 _ _ _ _ _ _ _ _]. split; try done; cbn [manager proxies net crashed detected history].
  - destruct (decide (a = coordinator)) as [->|]; [rewrite lookup_insert_eq; by eexists|by rewrite lookup_insert_ne].
  - intros b y. destruct (decide (a = b)) as [->|]; [rewrite lookup_insert_eq; by intros [= <-]|rewrite lookup_insert_ne by done; apply H5].
  - intros y [Hy|Hy]%elem_of_app; [by apply Hn|by apply Ho].
  - intros p. rewrite weight_insert, tally_app. apply Ha.
  - intros p. rewrite weight_insert, tally_app. apply Hw.
  - intros p. rewrite weight_insert, tally_app. apply Hk.
  - intros b y p. destruct (decide (a = b)) as [->|Hne]; [rewrite lookup_insert_eq; intros [= <-]; apply Hs2|rewrite lookup_insert_ne by done; intros Hy; by apply (Hs1 b y)].
Qed.

(** The net without a message that does not count. *)
Definition quiet (n' : list (Z * Z * Envelope (E:=E))) : Prop :=
  (forall y, y ∈ n' -> y ∈ net s) /\
  forall p, tally (is_get p) n' = tally (is_get p) (net s) /\ tally (is_forward p) n' = tally (is_forward p) (net s) /\ tally (is_token p) n' = tally (is_token p) (net s).

Lemma quiet_refl : quiet (net s).
Proof. by split. Qed.

Definition uncounted (env : Envelope (E:=E)) : bool :=
  match env with ToManager (MIGM_GET _) | ToProxy (MIGM_FORWARD _ | MIGM_TOKEN _) => false | _ => true end.

Lemma quiet_taken a b env n' : take_first a b (net s) = Some (env, n') -> uncounted env = true -> quiet n'.
Proof.
  intros Ht Hu. split; [intros y; by apply (taken_in a b (net s) env)|]. intros p. rewrite !(taken_tally a b (net s) env n' _ Ht). by destruct env as [[]|[]].
Qed.

(** The proxy changes nothing that counts. *)
Lemma inv_same a x x' m' n' out hist : proxies s !! a = Some x -> proxy_ok coordinator a x' -> status x' = status x -> a_successor x' = a_successor x ->
  m_permFail m' = false -> a_last m' = a_last (manager s) -> quiet n' -> Forall (fun '(_, b, env) => uncounted env = true /\ message_ok coordinator q (a, b, env)) out ->
  inv coordinator (SY m' (<[a := x']> (proxies s)) (n' ++ out) (crashed s) (detected s) hist) q.
Proof.
  intros Hx Hok Es Ek Hm El [Hn Hq] Hout.
  assert (forall p, tally (is_get p) out = 0%nat /\ tally (is_forward p) out = 0%nat /\ tally (is_token p) out = 0%nat) as Hz.
  { intros p. induction out as [|[[b c] env] out IH]; [done|]. apply Forall_cons in Hout as [[Hu _] Hout]. destruct (IH Hout) as (I1 & I2 & I3). unfold tally in *. cbn [foldr]. rewrite I1, I2, I3. by destruct env as [[]|[]]. }
  destruct Hinv as [H1 H2 H3 H4 H5 H6 H7 H8 H9 H10 H11 H12 H13].
  apply (inv_change q a x x'); try done.
  - by rewrite El.
  - intros y Hy. by apply H6, Hn.
  - intros [[b c] env] Hy. rewrite Forall_forall in Hout. destruct (Hout _ Hy) as [Hu Hm']. by destruct env as [[]|[]].
  - intros p. destruct (Hz p) as (-> & _ & _), (Hq p) as (-> & _ & _). rewrite Nat.add_0_r. rewrite <- H9. destruct (Z.eqb_spec a p) as [Eap|Eap]; [subst p|done]. rewrite (weight_at _ _ _ x Hx). unfold active. by rewrite Es.
  - intros p. destruct (Hz p) as (_ & _ & ->), (Hq p) as (_ & _ & ->). rewrite Nat.add_0_r, <- H10. f_equal. destruct (Z.eqb_spec a p) as [Eap|Eap]; [subst p|done]. rewrite (weight_at _ _ _ x Hx). unfold here. by rewrite Es.
  - intros p. destruct (Hz p) as (_ & -> & _), (Hq p) as (_ & -> & _). rewrite Nat.add_0_r, <- H11. f_equal. destruct (Z.eqb_spec a p) as [Eap|Eap]; [subst p|done]. rewrite (weight_at _ _ _ x Hx). unfold succs. by rewrite Ek.
  - intros b y p Hy _. by apply H12.
  - intros p. rewrite Ek. by apply H12.
Qed.

(** ** The steps of the lock *)

(** An idle proxy asks for the token. *)
Lemma inv_ask a x x' m' n' r hist : proxies s !! a = Some x -> status x = MIGT_EMPTY -> proxy_ok coordinator a x' -> status x' = MIGT_REQUESTED -> a_successor x' = a_successor x ->
  m_permFail m' = false -> a_last m' = a_last (manager s) -> quiet n' ->
  inv coordinator (SY m' (<[a := x']> (proxies s)) (n' ++ [(a, coordinator, ToManager (MIGM_GET r))]) (crashed s) (detected s) hist) q.
Proof.
  intros Hx He Hok Es Ek Hm El [Hn Hq]. destruct (empty_spec a x Hx He) as (Tg & Ha & Tf & Ks & Tt). destruct Hinv as [H1 H2 H3 H4 H5 H6 H7 H8 H9 H10 H11 H12 H13].
  apply (inv_change q a x x'); try done.
  - by rewrite El.
  - intros y Hy. by apply H6, Hn.
  - by intros y [->|[]%elem_of_nil]%elem_of_cons.
  - intros p. destruct (Hq p) as (-> & _ & _). rewrite tally_one. cbn [is_get]. pose proof (H9 p) as Hp. destruct (Z.eqb_spec a p) as [Eap|Eap]; [subst p|cbn; lia].
    unfold active. rewrite Es, Tg, inq_out by done. done.
  - intros p. destruct (Hq p) as (_ & _ & ->). rewrite tally_one. cbn. pose proof (H10 p) as Hp. destruct (Z.eqb_spec a p) as [Eap|Eap]; [subst p|lia].
    rewrite (weight_at _ _ _ x Hx) in Hp. unfold here in *. rewrite Es, He in *. lia.
  - intros p. destruct (Hq p) as (_ & -> & _). rewrite tally_one. cbn. pose proof (H11 p) as Hp. destruct (Z.eqb_spec a p) as [Eap|Eap]; [subst p|lia].
    rewrite (weight_at _ _ _ x Hx) in Hp. unfold succs in *. rewrite Ek. lia.
  - intros b y p Hy _. by apply H12.
  - intros p. rewrite Ek, Ks. done.
Qed.

(** The manager puts a site at the end of the queue and tells its predecessor. *)
Lemma inv_enqueue a r c x m' n' l hist : proxies s !! c = Some x -> take_first a c (net s) = Some (ToManager (MIGM_GET r), n') ->
  m_permFail m' = false -> last q = Some l -> a_last m' = Some a ->
  (a ∉ q) /\ a <> l /\ inv coordinator (SY m' (<[c := x]> (proxies s)) (n' ++ [(c, l, ToProxy (MIGM_FORWARD a))]) (crashed s) (detected s) hist) (q ++ [a]).
Proof.
  intros Hx Ht Hm Hl El. assert (forall P, tally P (net s) = (b2n (P (a, c, ToManager (MIGM_GET r))) + tally P n')%nat) as Hc by (intros P; by apply taken_tally). destruct Hinv as [H1 H2 H3 H4 H5 H6 H7 H8 H9 H10 H11 H12 H13].
  assert (a ∉ q) as Ha.
  { apply inq_zero. pose proof (H9 a) as Hp. rewrite Hc in Hp. cbn [is_get] in Hp. rewrite Z.eqb_refl in Hp. cbn in Hp. unfold weight, active in Hp.
    destruct (proxies s !! a) as [y|]; [destruct (status y); lia|lia]. }
  assert (l ∈ q) as Hlq by (apply last_Some in Hl as [l' ->]; apply elem_of_app; right; by left). split; [done|]. split; [by intros ->|].
  assert (forall p, next (q ++ [a]) p = if p =? l then Some a else next q p) as Hnext by (intros p; by apply next_app).
  apply (inv_change (q ++ [a]) c x x); try done.
  - by apply H5.
  - rewrite last_snoc. done.
  - apply NoDup_app. split; [done|]. split; [|apply NoDup_singleton]. intros y Hy [->|[]%elem_of_nil]%elem_of_cons. done.
  - by destruct q.
  - intros y Hy. pose proof (H6 y (taken_in _ _ _ _ _ _ Ht Hy)) as Hy'. destruct y as [[u v] [[]|[]]]; try done. cbn in Hy' |- *. rewrite Hnext. destruct (Z.eqb_spec v l) as [->|]; [|done].
    by rewrite next_last in Hy'.
  - intros y [->|[]%elem_of_nil]%elem_of_cons. cbn. rewrite Hnext, Z.eqb_refl. done.
  - intros p. rewrite tally_one, inq_app by done. pose proof (H9 p) as Hp. rewrite Hc in Hp. cbn [is_get] in Hp |- *. cbn [b2n].
    assert ((if c =? p then active x else weight active (proxies s) p) = weight active (proxies s) p) as -> by (destruct (Z.eqb_spec c p) as [Ecp|]; [subst p; by rewrite (weight_at _ _ _ x Hx)|done]). lia.
  - intros p. rewrite tally_one. pose proof (H10 p) as Hp. rewrite Hc in Hp. cbn [is_token] in Hp |- *. cbn [b2n] in Hp |- *.
    assert ((if (c =? p)%Z then here x else weight here (proxies s) p) = weight here (proxies s) p) as -> by (destruct (Z.eqb_spec c p) as [Ecp|]; [subst p; by rewrite (weight_at _ _ _ x Hx)|done]).
    assert (owner (q ++ [a]) p = owner q p) as -> by (by destruct q). lia.
  - intros p. rewrite tally_one, Hnext. pose proof (H11 p) as Hp. rewrite Hc in Hp. cbn [is_forward] in Hp |- *. cbn [b2n] in Hp |- *.
    assert ((if (c =? p)%Z then succs x else weight succs (proxies s) p) = weight succs (proxies s) p) as -> by (destruct (Z.eqb_spec c p) as [Ecp|]; [subst p; by rewrite (weight_at _ _ _ x Hx)|done]).
    rewrite (Z.eqb_sym p l). destruct (Z.eqb_spec l p) as [Elp|]; [subst p|cbn; lia]. rewrite next_last in Hp by done. cbn in Hp |- *. lia.
  - intros b y p Hy _ Hp. rewrite Hnext. pose proof (H12 b y p Hy Hp) as Hb. destruct (Z.eqb_spec b l) as [->|]; [|done]. by rewrite next_last in Hb.
  - intros p Hp. rewrite Hnext. pose proof (H12 c x p Hx Hp) as Hb. destruct (Z.eqb_spec c l) as [->|]; [|done]. by rewrite next_last in Hb.
Qed.

(** The queue behind a proxy that gets the token or a notice of its successor. *)
Lemma owner_head a p : owner q a = 1%nat -> owner q p = b2n (a =? p) /\ exists r, q = a :: r.
Proof.
  destruct q as [|b r]; cbn; [done|]. destruct (Z.eqb_spec b a) as [->|]; [|done]. intros _. split; [done|by exists r].
Qed.

Lemma token_spec a c e n' : take_first c a (net s) = Some (ToProxy (MIGM_TOKEN e), n') -> is_Some (proxies s !! a) ->
  owner q a = 1%nat /\ (forall p, tally (is_token p) n' = 0%nat /\ weight here (proxies s) p = 0%nat) /\
  exists x, proxies s !! a = Some x /\ status x = MIGT_REQUESTED /\ tally (is_get a) (net s) = 0%nat.
Proof.
  intros Ht [x Hx]. assert (forall P, tally P (net s) = (b2n (P (c, a, ToProxy (MIGM_TOKEN e))) + tally P n')%nat) as Hc by (intros P; by apply taken_tally).
  pose proof (i_owner _ _ _ Hinv a) as Ho. rewrite Hc in Ho. cbn [is_token] in Ho. rewrite Z.eqb_refl in Ho. cbn in Ho.
  assert (owner q a = 1%nat) as Ho1. { revert Ho. destruct q as [|b r]; cbn; [lia|]. destruct (b =? a); cbn; lia. }
  split; [done|]. destruct (owner_head a a Ho1) as [_ [r Eq]]. split.
  - intros p. pose proof (i_owner _ _ _ Hinv p) as Hp. rewrite Hc, (proj1 (owner_head a p Ho1)) in Hp. cbn [is_token] in Hp. destruct (Z.eqb_spec a p); cbn in Hp; lia.
  - exists x. split; [done|]. pose proof (i_active _ _ _ Hinv a) as Ha. rewrite (weight_at _ _ _ x Hx), inq_in in Ha by (rewrite Eq; by left).
    rewrite (weight_at _ _ _ x Hx) in Ho. unfold here in Ho. unfold active in Ha. destruct (status x); [lia|split; [done|lia]|lia].
Qed.

Lemma forward_spec a c b n' : take_first c a (net s) = Some (ToProxy (MIGM_FORWARD b), n') ->
  next q a = Some b /\ tally (is_forward a) n' = 0%nat /\ weight succs (proxies s) a = 0%nat /\ a ∈ q.
Proof.
  intros Ht. pose proof (i_net _ _ _ Hinv _ (taken_head _ _ _ _ _ Ht)) as Hm. cbn in Hm. pose proof (i_links _ _ _ Hinv a) as Hl.
  rewrite (taken_tally c a _ _ n' (is_forward a) Ht), Hm in Hl. cbn [is_forward] in Hl. rewrite Z.eqb_refl in Hl. cbn in Hl. split; [done|]. split; [lia|]. split; [lia|by apply next_in in Hm as [? _]].
Qed.

(** A waiting proxy learns of its successor. *)
Lemma inv_forward a c b x x' m' n' hist : proxies s !! a = Some x -> take_first c a (net s) = Some (ToProxy (MIGM_FORWARD b), n') ->
  proxy_ok coordinator a x' -> status x' = status x -> a_successor x' = Some b -> m_permFail m' = false -> a_last m' = a_last (manager s) ->
  inv coordinator (SY m' (<[a := x']> (proxies s)) (n' ++ []) (crashed s) (detected s) hist) q.
Proof.
  intros Hx Ht Hok Es Ek Hm El. destruct (forward_spec a c b n' Ht) as (Hb & Tf & Ts & Ha).
  assert (forall P, tally P (net s) = (b2n (P (c, a, ToProxy (MIGM_FORWARD b))) + tally P n')%nat) as Hc by (intros P; by apply taken_tally).
  destruct Hinv as [H1 H2 H3 H4 H5 H6 H7 H8 H9 H10 H11 H12 H13]. apply (inv_change q a x x'); try done.
  - by rewrite El.
  - intros y Hy. by apply H6, (taken_in _ _ _ _ _ _ Ht).
  - by intros y ?%elem_of_nil.
  - intros p. pose proof (H9 p) as Hp. rewrite Hc in Hp. cbn [is_get b2n] in Hp. rewrite tally_nil. destruct (Z.eqb_spec a p) as [Eap|Eap]; [subst p|lia].
    rewrite (weight_at _ _ _ x Hx) in Hp. unfold active in *. rewrite Es. lia.
  - intros p. pose proof (H10 p) as Hp. rewrite Hc in Hp. cbn [is_token b2n] in Hp. rewrite tally_nil. destruct (Z.eqb_spec a p) as [Eap|Eap]; [subst p|lia].
    rewrite (weight_at _ _ _ x Hx) in Hp. unfold here in *. rewrite Es. lia.
  - intros p. pose proof (H11 p) as Hp. rewrite Hc in Hp. cbn [is_forward] in Hp. rewrite tally_nil. destruct (Z.eqb_spec a p) as [Eap|Eap]; [subst p|cbn in Hp; lia].
    unfold succs. rewrite Ek, Hb, Tf. done.
  - intros u y p Hy _. by apply H12.
  - intros p. rewrite Ek. by intros [= <-].
Qed.

(** The token arrives at a proxy without a successor. *)
Lemma inv_token a c e x x' m' n' hist : proxies s !! a = Some x -> take_first c a (net s) = Some (ToProxy (MIGM_TOKEN e), n') -> a_successor x = None ->
  proxy_ok coordinator a x' -> status x' = MIGT_HERE -> a_successor x' = None -> m_permFail m' = false -> a_last m' = a_last (manager s) ->
  inv coordinator (SY m' (<[a := x']> (proxies s)) (n' ++ [(a, coordinator, ToManager MIGM_TOKEN_HERE)]) (crashed s) (detected s) hist) q.
Proof.
  intros Hx Ht Kx Hok Es Ek Hm El. destruct (token_spec a c e n' Ht) as (Ho & Hz & x0 & Hx0 & Rx & Tg); [by eexists|]. assert (x0 = x) as -> by congruence.
  assert (forall P, tally P (net s) = (b2n (P (c, a, ToProxy (MIGM_TOKEN e))) + tally P n')%nat) as Hc by (intros P; by apply taken_tally).
  destruct (owner_head a a Ho) as [_ [r Eq]]. assert (forall p, owner q p = b2n (a =? p)) as Hop by (intros p; by apply owner_head).
  destruct Hinv as [H1 H2 H3 H4 H5 H6 H7 H8 H9 H10 H11 H12 H13]. apply (inv_change q a x x'); try done.
  - by rewrite El.
  - intros y Hy. by apply H6, (taken_in _ _ _ _ _ _ Ht).
  - by intros y [->|[]%elem_of_nil]%elem_of_cons.
  - intros p. pose proof (H9 p) as Hp. rewrite Hc in Hp. cbn [is_get b2n] in Hp. rewrite tally_one. cbn [is_get b2n]. destruct (Z.eqb_spec a p) as [Eap|Eap]; [subst p|lia].
    rewrite (weight_at _ _ _ x Hx) in Hp. unfold active in *. rewrite Rx in Hp. rewrite Es. lia.
  - intros p. destruct (Hz p) as [-> Hh]. rewrite tally_one, Hop. cbn [is_token b2n]. unfold here in *. rewrite Es. by destruct (Z.eqb_spec a p) as [Eap|Eap].
  - intros p. pose proof (H11 p) as Hp. rewrite Hc in Hp. cbn [is_forward b2n] in Hp. rewrite tally_one. cbn [is_forward b2n]. destruct (Z.eqb_spec a p) as [Eap|Eap]; [subst p|lia].
    rewrite (weight_at _ _ _ x Hx) in Hp. unfold succs in *. rewrite Kx in Hp. rewrite Ek. lia.
  - intros u y p Hy _. by apply H12.
  - intros p. by rewrite Ek.
Qed.

(** The head passes the token on: at once with the notice of its successor, or as soon as it has it. *)
Lemma inv_pass a b x x' m' n' e hist : proxies s !! a = Some x -> next q a = Some b -> owner q a = 1%nat ->
  (forall y, y ∈ n' -> y ∈ net s) -> (forall p, tally (is_get p) n' = tally (is_get p) (net s)) -> tally (is_get a) (net s) = 0%nat ->
  (forall p, tally (is_token p) n' = 0%nat) -> (forall p, weight here (proxies s) p = if a =? p then here x else 0%nat) ->
  (forall p, tally (is_forward p) n' = if a =? p then 0%nat else tally (is_forward p) (net s)) ->
  proxy_ok coordinator a x' -> status x' = MIGT_EMPTY -> a_successor x' = None -> m_permFail m' = false -> a_last m' = a_last (manager s) ->
  exists r, q = a :: b :: r /\ inv coordinator (SY m' (<[a := x']> (proxies s)) (n' ++ [(a, b, ToProxy (MIGM_TOKEN e))]) (crashed s) (detected s) hist) (b :: r).
Proof.
  intros Hx Hb Ho Hin Hg Ga Ht Hh Hf Hok Es Ek Hm El. destruct (owner_head a a Ho) as [_ [[|b' r] Eq]].
  { rewrite Eq in Hb. done. }
  assert (b' = b) as -> by (rewrite Eq in Hb; cbn in Hb; rewrite Z.eqb_refl in Hb; by injection Hb). exists r. split; [done|].
  destruct Hinv as [H1 H2 H3 H4 H5 H6 H7 H8 H9 H10 H11 H12 H13]. pose proof H7 as Hd. rewrite Eq in Hd.
  assert (forall p, next (b :: r) p = if a =? p then None else next q p) as Hnext by (intros p; rewrite Eq; by apply next_tail).
  assert (a ∉ b :: r) as Ha by by apply NoDup_cons in Hd as [? _]. apply (inv_change (b :: r) a x x'); try done.
  - rewrite El, <- H8, Eq. done.
  - by apply NoDup_cons in Hd as [_ ?].
  - intros y Hy. pose proof (H6 y (Hin y Hy)) as Hy'. destruct y as [[u v] [[]|[]]]; try done. cbn [message_ok] in Hy' |- *. rewrite Hnext. destruct (Z.eqb_spec a v) as [<-|]; [|done].
    pose proof (Hf a) as Hfa. rewrite Z.eqb_refl in Hfa. pose proof (tally_zero _ _ _ Hfa Hy) as Hz. cbn in Hz. by rewrite Z.eqb_refl in Hz.
  - intros y [->|[]%elem_of_nil]%elem_of_cons. intros ->. apply Ha. by left.
  - intros p. rewrite Hg, tally_one. cbn [is_get b2n]. pose proof (H9 p) as Hp. rewrite Eq, inq_cons in Hp by done. destruct (Z.eqb_spec a p) as [Eap|Eap]; [subst p|cbn in Hp; lia].
    unfold active. rewrite Es, Ga, inq_out by done. done.
  - intros p. rewrite Ht, tally_one, Hh. cbn [is_token owner]. destruct (Z.eqb_spec a p) as [Eap|Eap]; [subst p|lia]. unfold here. rewrite Es. lia.
  - intros p. rewrite Hf, tally_one, Hnext. cbn [is_forward b2n]. destruct (Z.eqb_spec a p) as [Eap|Eap]; [unfold succs; by rewrite Ek|]. rewrite <- H11. lia.
  - intros u y p Hy Hne Hs. rewrite Hnext. destruct (Z.eqb_spec a u) as [->|]; [done|]. by apply (H12 u y).
  - intros p. by rewrite Ek.
Qed.
End one.
End steps.
End MigratorySteps.
