(* ===== verification/MigratoryChain.v ===== *)
(** * The chain of the manager while no site fails

    The chain lists sites that had the token and then the queue, each site at most once; the request
    numbers tell the two apart, so that a proxy can answer whether it has passed the token on. *)
From stdpp Require Import gmap.
From S2P Require Import Prelude Migratory MigratorySpec MigratorySteps.

Module MigratoryChain.
Import Migratory MigratorySpec MigratorySteps.

Lemma chain_find_spec a c before e after : find a c = Some (before, e, after) -> c = before ++ e :: after /\ fst e = a /\ a ∉ map fst before.
Proof.
  revert before. induction c as [|x c IH]; intros before; cbn [find]; [done|]. destruct (Z.eqb_spec (fst x) a) as [Ex|Hne].
  - intros [= <- <- <-]. split; [done|]. split; [done|]. by intros ?%elem_of_nil.
  - destruct (find a c) as [[[b1 y] a1]|]; [|done]. ored. intros [= <- <- <-]. destruct (IH b1 eq_refl) as (-> & He & Hn). split; [done|]. split; [done|].
    cbn. intros [Hx|Hin]%elem_of_cons; [by subst|done].
Qed.

Lemma find_none a c : find a c = None -> a ∉ map fst c.
Proof.
  induction c as [|x c IH]; cbn [find map]; [by intros _ ?%elem_of_nil|]. destruct (Z.eqb_spec (fst x) a) as [Ex|Hne]; [done|].
  destruct (find a c) as [[[b1 y] a1]|]; [done|]. intros _ [Hx|Hin]%elem_of_cons; [by subst|by apply IH].
Qed.

Section chain.
Context {E Op : Type} (coordinator : Z).
Implicit Types (s : System (E:=E) (Op:=Op)) (x : Proxy (E:=E) (Op:=Op)) (q : list Z).

Definition sends_get (a : Z) (r : Z) (y : Z * Z * Envelope (E:=E)) : Prop := y = (a, coordinator, ToManager (MIGM_GET r)).
Definition sends_here (a : Z) (y : Z * Z * Envelope (E:=E)) : Prop :=
  y = (a, coordinator, ToManager MIGM_TOKEN_HERE) \/ y = (a, coordinator, ToManager MIGM_NEED_NO_MORE).

(** A site does not say that it has the token, or wants to be rid of it, after it asked for it again. *)
Fixpoint ordered (n : list (Z * Z * Envelope (E:=E))) : Prop :=
  match n with
  | [] => True
  | y :: n => (forall a r, sends_get a r y -> forall z, z ∈ n -> ~ sends_here a z) /\ ordered n
  end.

Record chain_inv s q : Prop := {
  ch_queue : exists old, map fst (a_chain (manager s)) = old ++ q;
  ch_nodup : NoDup (map fst (a_chain (manager s)));
  ch_current p r x : (p, r) ∈ a_chain (manager s) -> proxies s !! p = Some x -> if decide (p ∈ q) then r = a_request x else r < a_request x;
  ch_get a r x y : y ∈ net s -> sends_get a r y -> proxies s !! a = Some x -> r = a_request x;
  ch_here a y : y ∈ net s -> sends_here a y -> a ∈ q -> owner q a = 1%nat;
  ch_ordered : ordered (net s);
  ch_exists p r : (p, r) ∈ a_chain (manager s) -> is_Some (proxies s !! p)
}.

Lemma ordered_one y : ordered [y].
Proof. split; [|done]. by intros a r _ z ?%elem_of_nil. Qed.

Lemma ordered_app n n' : ordered n -> ordered n' -> (forall a r y z, y ∈ n -> sends_get a r y -> z ∈ n' -> ~ sends_here a z) -> ordered (n ++ n').
Proof.
  intros H1 H2 H. induction n as [|y n IH]; cbn; [done|]. destruct H1 as [Hy H1]. split.
  - intros a r Hg z [Hz|Hz]%elem_of_app; [by apply (Hy a r)|]. by apply (H a r y); [left|..].
  - apply IH; [done|]. intros a r w z Hw. apply H. by right.
Qed.

Lemma ordered_sub n n' : n' `sublist_of` n -> ordered n -> ordered n'.
Proof.
  induction 1 as [|y n' n Hs IH|y n' n Hs IH]; cbn; [done| |by intros [_ ?]; apply IH]. intros [Hy Ho]. split; [|by apply IH].
  intros a r Hg z Hz. apply (Hy a r Hg). by apply (elem_of_sublist n' n).
Qed.

Lemma taken_sub a b (n : list (Z * Z * Envelope (E:=E))) env n' : take_first a b n = Some (env, n') -> n' `sublist_of` n.
Proof. intros H. destruct (take_first_spec a b n env n' H) as (l1 & l2 & -> & -> & _). apply sublist_app; [done|]. by apply sublist_cons. Qed.

(** Messages that neither ask for the token nor say where it is. *)
Definition silent (y : Z * Z * Envelope (E:=E)) : Prop := (forall a r, ~ sends_get a r y) /\ forall a, ~ sends_here a y.

Section one.
Context (s : System (E:=E) (Op:=Op)) (q : list Z).
Hypothesis Hinv : inv coordinator s q.
Hypothesis Hch : chain_inv s q.

Lemma insert_exists (m : gmap Z (Proxy (E:=E) (Op:=Op))) a x p : is_Some (m !! p) -> is_Some (<[a := x]> m !! p).
Proof. intros H. destruct (decide (a = p)) as [->|]; [rewrite lookup_insert_eq; by eexists|by rewrite lookup_insert_ne]. Qed.

Lemma no_get a : tally (is_get a) (net s) = 0%nat -> forall r y, y ∈ net s -> ~ sends_get a r y.
Proof. intros Ht r y Hy ->. pose proof (tally_zero _ _ _ Ht Hy) as H. cbn in H. by rewrite Z.eqb_refl in H. Qed.

Lemma sub_in n' y : n' `sublist_of` net s -> y ∈ n' -> y ∈ net s.
Proof. intros Hs Hy. by apply (elem_of_sublist n' (net s)). Qed.

(** Nothing that counts for the chain. *)
Lemma chain_frame a x x' m' n' out hist : proxies s !! a = Some x -> a_request x' = a_request x -> a_chain m' = a_chain (manager s) ->
  n' `sublist_of` net s -> Forall silent out -> chain_inv (SY m' (<[a := x']> (proxies s)) (n' ++ out) (crashed s) (detected s) hist) q.
Proof.
  intros Hx Er Ec Hs Ho. destruct Hch as [C1 C2 C3 C4 C5 C6 C7]. rewrite Forall_forall in Ho.
  assert (forall b y, <[a := x']> (proxies s) !! b = Some y -> exists z, proxies s !! b = Some z /\ a_request z = a_request y) as Hp.
  { intros b y Hy. destruct (decide (a = b)) as [->|]; [rewrite lookup_insert_eq in Hy; injection Hy as <-; by exists x|rewrite lookup_insert_ne in Hy by done; by exists y]. }
  split; cbn [manager proxies net]; rewrite ?Ec; try done.
  - intros p r y Hin Hy. destruct (Hp p y Hy) as (z & Hz & <-). by apply C3.
  - intros b r y w [Hw|Hw]%elem_of_app Hg Hy; [|by destruct (proj1 (Ho w Hw) b r)]. destruct (Hp b y Hy) as (z & Hz & <-). apply (C4 b r z w); [by apply (sub_in n')|done|done].
  - intros b w [Hw|Hw]%elem_of_app Hh Hb; [|by destruct (proj2 (Ho w Hw) b)]. apply (C5 b w); [by apply (sub_in n')|done|done].
  - apply ordered_app; [by apply (ordered_sub (net s))| |intros b r y z _ _ Hz; apply (proj2 (Ho z Hz))].
    clear -Ho. induction out as [|y out IH]; cbn; [done|]. split; [intros a r Hg; by destruct (proj1 (Ho y ltac:(by left)) a r)|]. apply IH. intros z Hz. apply Ho. by right.
  - intros p r Hin. by apply insert_exists, (C7 p r).
Qed.

(** A proxy asks: its request has its present number. *)
Lemma chain_ask a x x' m' n' hist : proxies s !! a = Some x -> a_request x' = a_request x -> a_chain m' = a_chain (manager s) -> n' `sublist_of` net s ->
  chain_inv (SY m' (<[a := x']> (proxies s)) (n' ++ [(a, coordinator, ToManager (MIGM_GET (a_request x)))]) (crashed s) (detected s) hist) q.
Proof.
  intros Hx Er Ec Hs. destruct (chain_frame a x x' m' n' [] hist Hx Er Ec Hs ltac:(constructor)) as [C1 C2 C3 C4 C5 C6 C7]. cbn [manager proxies net] in *. rewrite app_nil_r in *.
  split; cbn [manager proxies net]; try done.
  - intros b r y w [Hw|Hw]%elem_of_app Hg Hy; [by apply (C4 b r y w)|]. apply elem_of_cons in Hw as [Hw|[]%elem_of_nil]. rewrite Hw in Hg. injection Hg as <- <-.
    rewrite lookup_insert_eq in Hy. by injection Hy as <-.
  - intros b w [Hw|Hw]%elem_of_app Hh Hb; [by apply (C5 b w)|]. apply elem_of_cons in Hw as [Hw|[]%elem_of_nil]. rewrite Hw in Hh. by destruct Hh.
  - apply ordered_app; [done|apply ordered_one|]. intros b r y z _ _ [Hz|[]%elem_of_nil]%elem_of_cons Hh. rewrite Hz in Hh. by destruct Hh.
Qed.

(** The token arrives and stays, or its owner wants to be rid of it. *)
Lemma chain_token a x x' m' n' hist msg : msg = MIGM_TOKEN_HERE \/ msg = MIGM_NEED_NO_MORE -> proxies s !! a = Some x -> a_request x' = a_request x -> a_chain m' = a_chain (manager s) -> n' `sublist_of` net s ->
  owner q a = 1%nat -> tally (is_get a) (net s) = 0%nat ->
  chain_inv (SY m' (<[a := x']> (proxies s)) (n' ++ [(a, coordinator, ToManager msg)]) (crashed s) (detected s) hist) q.
Proof.
  intros Hmsg Hx Er Ec Hs Ho Hg0. destruct (chain_frame a x x' m' n' [] hist Hx Er Ec Hs ltac:(constructor)) as [C1 C2 C3 C4 C5 C6 C7]. cbn [manager proxies net] in *. rewrite app_nil_r in *.
  split; cbn [manager proxies net]; try done.
  - intros b r y w [Hw|Hw]%elem_of_app Hg Hy; [by apply (C4 b r y w)|]. apply elem_of_cons in Hw as [Hw|[]%elem_of_nil]. rewrite Hw in Hg. by destruct Hmsg; subst.
  - intros b w [Hw|Hw]%elem_of_app Hh Hb; [by apply (C5 b w)|]. apply elem_of_cons in Hw as [Hw|[]%elem_of_nil]. subst w. assert (a = b) as <-; [|done]. destruct Hh as [Hh|Hh]; by injection Hh.
  - apply ordered_app; [done|apply ordered_one|]. intros b r y z Hy Hgy [Hz|[]%elem_of_nil]%elem_of_cons Hh. subst z.
    assert (a = b) as <- by (destruct Hh as [Hh|Hh]; by injection Hh). apply (no_get a Hg0 r y); [by apply (sub_in n')|done].
Qed.

(** The head passes the token on: its entry becomes an old one. *)
Lemma chain_pass a b rest x x' m' n' e hist : q = a :: b :: rest -> proxies s !! a = Some x -> a_request x' = a_request x + 1 -> a_chain m' = a_chain (manager s) -> n' `sublist_of` net s ->
  tally (is_get a) (net s) = 0%nat ->
  chain_inv (SY m' (<[a := x']> (proxies s)) (n' ++ [(a, b, ToProxy (MIGM_TOKEN e))]) (crashed s) (detected s) hist) (b :: rest).
Proof.
  intros Eq Hx Er Ec Hs Hg0. destruct Hch as [C1 C2 C3 C4 C5 C6 C7]. pose proof (i_nodup _ _ _ Hinv) as Hd. rewrite Eq in Hd. apply NoDup_cons in Hd as [Ha _].
  assert (forall w, w ∈ n' ++ [(a, b, ToProxy (MIGM_TOKEN e))] -> (exists p r, sends_get p r w) \/ (exists p, sends_here p w) -> w ∈ net s) as Hin.
  { intros w [Hw|Hw]%elem_of_app Hor; [by apply (sub_in n')|]. apply elem_of_cons in Hw as [->|[]%elem_of_nil]. destruct Hor as [(? & ? & ?)|(? & [?|?])]; done. }
  split; cbn [manager proxies net]; rewrite ?Ec.
  - destruct C1 as [old C1]. exists (old ++ [a]). rewrite C1, Eq, <- app_assoc. done.
  - done.
  - intros p r y Hp Hy. destruct (decide (a = p)) as [->|Hne].
    + rewrite lookup_insert_eq in Hy. injection Hy as <-. pose proof (C3 p r x Hp Hx) as Hr. rewrite decide_True in Hr by (rewrite Eq; by left). rewrite decide_False by done. lia.
    + rewrite lookup_insert_ne in Hy by done. pose proof (C3 p r y Hp Hy) as Hr. destruct (decide (p ∈ b :: rest)) as [Hin'|Hout].
      * by rewrite decide_True in Hr by (rewrite Eq; by right).
      * rewrite decide_False in Hr; [done|]. rewrite Eq. intros [->|?]%elem_of_cons; done.
  - intros p r y w Hw Hg Hy. assert (w ∈ net s) as Hw' by (apply Hin; [done|left; by exists p, r]). destruct (decide (a = p)) as [->|Hne]; [by destruct (no_get p Hg0 r w)|].
    rewrite lookup_insert_ne in Hy by done. by apply (C4 p r y w).
  - intros p w Hw Hh Hp. assert (w ∈ net s) as Hw' by (apply Hin; [done|right; by exists p]). pose proof (C5 p w Hw' Hh ltac:(rewrite Eq; by right)) as Ho. rewrite Eq in Ho. cbn in Ho.
    destruct (Z.eqb_spec a p) as [->|]; [done|done].
  - apply ordered_app; [by apply (ordered_sub (net s))|apply ordered_one|]. intros p r y z _ _ [Hz|[]%elem_of_nil]%elem_of_cons Hh. rewrite Hz in Hh. by destruct Hh.
  - intros p r Hp. by apply insert_exists, (C7 p r).
Qed.

(** The manager appends a site; an old entry of it goes, with all before it. *)
Lemma chain_enqueue a r c x m' n' l hist : proxies s !! coordinator = Some x -> take_first a coordinator (net s) = Some (ToManager (MIGM_GET r), n') -> a ∉ q -> is_Some (proxies s !! a) ->
  (if in_chain a (a_chain (manager s)) then pop_through a (a_chain (manager s)) else Some (a_chain (manager s))) = Some c -> a_chain m' = c ++ [(a, r)] ->
  chain_inv (SY m' (<[coordinator := x]> (proxies s)) (n' ++ [(coordinator, l, ToProxy (MIGM_FORWARD a))]) (crashed s) (detected s) hist) (q ++ [a]).
Proof.
  intros Hx Ht Ha [xa Hxa] Ec Em. destruct Hch as [C1 C2 C3 C4 C5 C6 C7]. pose proof (taken_sub _ _ _ _ _ Ht) as Hs.
  assert (exists before, a_chain (manager s) = before ++ c /\ a ∉ map fst c) as (before & Eb & Hac).
  { unfold in_chain, pop_through in Ec. destruct (find a (a_chain (manager s))) as [[[before e] after]|] eqn:Ef; ored in Ec; injection Ec as <-.
    - apply chain_find_spec in Ef as (Ef & Ee & Hn). exists (before ++ [e]). split; [by rewrite <- app_assoc|]. rewrite Ef, map_app in C2. cbn in C2. rewrite Ee in C2.
      apply NoDup_app in C2 as (_ & _ & C2). by apply NoDup_cons in C2 as [? _].
    - exists []. split; [done|by apply find_none]. }
  assert (exists old, map fst c = old ++ q) as [old Eo].
  { destruct C1 as [old C1]. rewrite Eb, map_app in C1. unfold in_chain, pop_through in Ec. destruct (find a (a_chain (manager s))) as [[[bf e] after]|] eqn:Ef; ored in Ec; injection Ec as <-.
    - apply chain_find_spec in Ef as (Ef & Ee & Hn). assert (before = bf ++ [e]) as -> by (apply (app_inv_tail after); rewrite <- app_assoc; cbn; congruence).
      rewrite map_app in C1. cbn [map] in C1. rewrite Ee, <- app_assoc in C1. cbn in C1. apply app_eq_inv in C1 as [(k & E1 & E2)|(k & -> & Ek)].
      + destruct Ha. rewrite E2. apply elem_of_app. right. by left.
      + destruct k as [|y k]; cbn in Ek; [|injection Ek as -> Ek; by exists k]. destruct Ha. rewrite <- Ek. by left.
    - apply (f_equal length) in Eb. rewrite length_app in Eb. destruct before as [|? before]; [by exists old|cbn in Eb; lia]. }
  assert (proxies s !! coordinator = <[coordinator := x]> (proxies s) !! coordinator) as _ by by rewrite lookup_insert_eq. rewrite insert_id by done.
  assert (forall y, y ∈ n' -> y ∈ net s) as Hin by (intros y; by apply sub_in).
  assert (forall z, z ∈ n' -> ~ sends_here a z) as Hnh.
  { destruct (take_first_spec _ _ _ _ _ Ht) as (l1 & l2 & En & -> & Hf). intros z [Hz|Hz]%elem_of_app Hh; [by destruct Hh as [Hh|Hh]; rewrite Hh in Hz; [apply (Hf (ToManager MIGM_TOKEN_HERE))|apply (Hf (ToManager MIGM_NEED_NO_MORE))]|].
    rewrite En in C6. clear -C6 Hz Hh. induction l1 as [|y l1 IH]; cbn in C6; [|apply IH; apply C6]. destruct C6 as [C6 _]. by apply (C6 a r eq_refl z). }
  split; cbn [manager proxies net]; rewrite ?Em.
  - exists old. rewrite map_app, Eo. cbn. by rewrite <- app_assoc.
  - rewrite map_app. cbn. rewrite Eb, map_app in C2. apply NoDup_app in C2 as (_ & _ & C2). apply NoDup_app. split; [done|]. split; [|apply NoDup_singleton].
    intros y Hy [->|[]%elem_of_nil]%elem_of_cons. done.
  - intros p r' y [Hp|Hp]%elem_of_app Hy.
    + assert (p <> a) as Hne. { intros ->. apply Hac. apply list_elem_of_In, in_map_iff. exists (a, r'). split; [done|by apply list_elem_of_In]. }
      pose proof (C3 p r' y ltac:(rewrite Eb; apply elem_of_app; by right) Hy) as Hr. destruct (decide (p ∈ q)) as [Hq|Hq].
      * by rewrite decide_True by (apply elem_of_app; by left).
      * rewrite decide_False; [done|]. intros [?|[->|[]%elem_of_nil]%elem_of_cons]%elem_of_app; done.
    + apply elem_of_cons in Hp as [[= -> ->]|[]%elem_of_nil]. rewrite decide_True by (apply elem_of_app; right; by left). apply (C4 a r y _ (taken_head _ _ _ _ _ Ht) eq_refl Hy).
  - intros p r' y w [Hw|Hw]%elem_of_app Hg Hy; [by apply (C4 p r' y w), Hy; [apply Hin|]|]. apply elem_of_cons in Hw as [->|[]%elem_of_nil]. done.
  - intros p w [Hw|Hw]%elem_of_app Hh Hp; [|apply elem_of_cons in Hw as [->|[]%elem_of_nil]; by destruct Hh]. apply elem_of_app in Hp as [Hp|Hp].
    + assert (owner (q ++ [a]) p = owner q p) as -> by (pose proof (i_queue _ _ _ Hinv); by destruct q). apply (C5 p w); [by apply Hin|done|done].
    + apply elem_of_cons in Hp as [->|[]%elem_of_nil]. by destruct (Hnh w Hw).
  - apply ordered_app; [by apply (ordered_sub (net s))|apply ordered_one|]. intros p r' y z _ _ [->|[]%elem_of_nil]%elem_of_cons Hh. by destruct Hh.
  - intros p r' [Hp|Hp]%elem_of_app; [apply (C7 p r'); rewrite Eb; apply elem_of_app; by right|]. apply elem_of_cons in Hp as [[= -> ->]|[]%elem_of_nil]. by eexists.
Qed.

(** The manager learns where the token is and forgets who had it before. *)
Lemma chain_here a before e after x m' n' hist : proxies s !! coordinator = Some x -> take_first a coordinator (net s) = Some (ToManager MIGM_TOKEN_HERE, n') ->
  find a (a_chain (manager s)) = Some (before, e, after) -> a_chain m' = e :: after ->
  chain_inv (SY m' (<[coordinator := x]> (proxies s)) (n' ++ []) (crashed s) (detected s) hist) q.
Proof.
  intros Hx Ht Hf Em. pose proof (chain_frame coordinator x x (manager s) n' [] hist Hx eq_refl eq_refl (taken_sub _ _ _ _ _ Ht) ltac:(constructor)) as [D1 D2 D3 D4 D5 D6 D7].
  destruct Hch as [C1 C2 C3 C4 C5 C6 C7]. apply chain_find_spec in Hf as (Ef & Ee & Hn). cbn [manager proxies net] in *.
  split; cbn [manager proxies net]; rewrite ?Em; try done.
  - destruct C1 as [old C1]. rewrite Ef, map_app in C1. change (map fst (e :: after)) with (fst e :: map fst after) in *. rewrite Ee in *.
    apply app_eq_inv in C1 as [(k & Ek & E2)|(k & -> & Ek)]; [|by exists k]. destruct k as [|y k].
    + exists []. cbn in E2. by rewrite E2.
    + exfalso. pose proof (C5 a _ (taken_head _ _ _ _ _ Ht) (or_introl eq_refl)) as Ho. rewrite E2 in Ho. pose proof (Ho ltac:(apply elem_of_app; right; by left)) as H1. cbn in H1.
      destruct (Z.eqb_spec y a) as [->|]; [|done]. apply Hn. rewrite Ek. apply elem_of_app. right. by left.
  - rewrite Ef, map_app in C2. by apply NoDup_app in C2 as (_ & _ & C2).
  - intros p r y Hp. apply D3. rewrite Ef. apply elem_of_app. by right.
  - intros p r Hp. apply (D7 p r). rewrite Ef. apply elem_of_app. by right.
Qed.

(** A new proxy has no entry and no request yet. *)
Lemma chain_create a x : proxies s !! a = None -> chain_inv (set_proxy s a x) q.
Proof.
  intros Hx. destruct Hch as [C1 C2 C3 C4 C5 C6 C7]. split; cbn [set_proxy manager proxies net]; try done.
  - intros p r y Hp. destruct (decide (a = p)) as [->|]; [destruct (C7 p r Hp) as [z Hz]; congruence|]. rewrite lookup_insert_ne by done. by apply C3.
  - intros p r y w Hw Hg. destruct (decide (a = p)) as [->|]; [|rewrite lookup_insert_ne by done; by apply (C4 p r y w)]. exfalso.
    pose proof (i_active _ _ _ Hinv p) as Hp. unfold weight in Hp. rewrite Hx in Hp. apply (no_get p ltac:(lia) r w Hw Hg).
  - intros p r Hp. by apply insert_exists, (C7 p r).
Qed.
End one.
End chain.
End MigratoryChain.
