(* ===== verification/MigratoryEvents.v ===== *)
(** * The events of the migratory protocol while no site fails

    Every event keeps the invariant and is a step of the lock; every message that can be delivered
    has a handler that returns, with one exception. *)
From stdpp Require Import gmap.
From S2P Require Import Prelude Migratory MigratorySpec MigratorySteps MigratoryChain.

Module MigratoryEvents.
Import Migratory MigratorySpec MigratorySteps MigratoryChain.

Section events.
Context {E Op : Type} (perform : Op -> E -> E) (coordinator : Z).
Implicit Types (s : System (E:=E) (Op:=Op)) (x : Proxy (E:=E) (Op:=Op)) (q : list Z).

(** Threads, the garbage collector and messages, but no failures. *)
Definition regular (ev : Event (Op:=Op)) : bool := match ev with Kill _ | Crash _ | Detect _ _ => false | _ => true end.

Definition advances s q s' : Prop := exists q', inv coordinator s' q' /\ chain_inv coordinator s' q' /\ lock_step (lock_of s q) (lock_of s' q').

Lemma advances_idle s q s' : inv coordinator s' q -> chain_inv coordinator s' q -> (forall p, tally (is_get p) (net s') = tally (is_get p) (net s)) -> advances s q s'.
Proof. intros Hi Hc Hg. exists q. split; [done|]. split; [done|]. apply lock_idle; [done|]. intros p. cbn. by rewrite Hg. Qed.

(** What the messages under way can still cause: every delivery uses up more than it adds. *)
Definition cost (y : Z * Z * Envelope (E:=E)) : nat :=
  match y with
  | (_, _, ToManager MIGM_NEED_NO_MORE) => 7
  | (_, _, ToManager (MIGM_GET _)) => 6
  | (_, _, ToProxy (MIGM_FORWARD _)) => 3
  | (_, _, ToProxy (MIGM_TOKEN _)) => 2
  | _ => 1
  end.
Definition costs (n : list (Z * Z * Envelope (E:=E))) : nat := foldr (fun y k => cost y + k)%nat 0%nat n.
Definition potential s q : nat := (costs (net s) + 2 * length q)%nat.

Lemma costs_app n n' : costs (n ++ n') = (costs n + costs n')%nat.
Proof.
  induction n as [|y n IH]; [done|]. change (costs ((y :: n) ++ n')) with (cost y + costs (n ++ n'))%nat. change (costs (y :: n)) with (cost y + costs n)%nat. lia.
Qed.

Lemma taken_costs a b n env n' : take_first a b n = Some (env, n') -> costs n = (cost (a, b, env) + costs n')%nat.
Proof. intros H. destruct (take_first_spec a b n env n' H) as (l1 & l2 & -> & -> & _). rewrite !costs_app. change (costs ((a, b, env) :: l2)) with (cost (a, b, env) + costs l2)%nat. lia. Qed.

Lemma cost_positive y : (1 <= cost y)%nat.
Proof. destruct y as [[? ?] [[]|[]]]; cbn; lia. Qed.

Definition settles s q s' : Prop := exists q', inv coordinator s' q' /\ chain_inv coordinator s' q' /\ lock_step (lock_of s q) (lock_of s' q') /\ (potential s' q' < potential s q)%nat.

Lemma settles_idle s q s' : inv coordinator s' q -> chain_inv coordinator s' q -> (forall p, tally (is_get p) (net s') = tally (is_get p) (net s)) -> (costs (net s') < costs (net s))%nat -> settles s q s'.
Proof. intros Hi Hch Hg Hc. exists q. split; [done|]. split; [done|]. split; [|unfold potential; lia]. apply lock_idle; [done|]. intros p. cbn. by rewrite Hg. Qed.

Lemma settles_advances s q s' : settles s q s' -> advances s q s'.
Proof. intros (q' & ? & ? & ? & _). by exists q'. Qed.

Section one.
Context (s : System (E:=E) (Op:=Op)) (q : list Z).
Hypothesis Hinv : inv coordinator s q.
Hypothesis Hch : chain_inv coordinator s q.

Lemma send_all (m' : Manager) (ps : gmap Z (Proxy (E:=E) (Op:=Op))) n' hist a out :
  send (SY m' ps n' (crashed s) (detected s) hist) a out = SY m' ps (n' ++ map (fun '(to, env) => (a, to, env)) out) (crashed s) (detected s) hist.
Proof. unfold send. cbn. by rewrite post_all by apply (i_detected _ _ _ Hinv). Qed.

Lemma proxy_ok_at a x : proxies s !! a = Some x -> proxy_ok coordinator a x.
Proof. apply (i_proxies _ _ _ Hinv). Qed.

Lemma operate_advances a op s' : fire perform coordinator s (Operate a op) = Some s' -> advances s q s'.
Proof.
  cbn [fire]. destruct (proxies s !! a) as [x|] eqn:Hx; [|done]. ored. destruct (proxy_ok_at a x Hx) as [Pf Ph Phere Pe Pi Pw].
  unfold protocol_Access. rewrite Pf. destruct (status x) eqn:Es.
  - unfold requestToken. rewrite Es. ored. intros [= <-]. unfold set_proxy. rewrite send_all. cbn [map sendToManager]. exists q. split; [|split; [by apply (chain_ask coordinator s q Hch a x)|]].
    + apply (inv_ask coordinator s q Hinv a x); [done|done| |done|done|apply (i_manager _ _ _ Hinv)|done|apply quiet_refl]. split; try done; cbn; [|intros _ _ H; by destruct (a_susps x)].
      split; [done|]. intros _. by apply Pe.
    + destruct (empty_spec coordinator s q Hinv a x Hx Es) as (Tg & Ha & _). apply (lock_ask _ _ a); cbn; [done|by rewrite Tg|done|].
      intros p. rewrite tally_app, tally_one. cbn [is_get]. destruct (a =? p); cbn [b2n orb]; [by rewrite Nat.add_1_r|by rewrite Nat.add_0_r].
  - ored. intros [= <-]. unfold set_proxy. rewrite send_all. cbn [map]. apply advances_idle; [|apply (chain_frame coordinator s q Hch a x); [done|done|done|reflexivity|constructor]|intros p; cbn; by rewrite app_nil_r]. apply (inv_same coordinator s q Hinv a x); [done| |done|done|apply (i_manager _ _ _ Hinv)|done|apply quiet_refl|constructor].
    split; cbn; rewrite ?Es; try done. intros _ _ H. by destruct (a_susps x).
  - ored. destruct (entity x) as [e|] eqn:Ee; [|done]. ored. intros [= <-]. unfold add_history, set_proxy. cbn [manager proxies net crashed detected history]. rewrite <- (app_nil_r (net s)).
    apply advances_idle; [|apply (chain_frame coordinator s q Hch a x); [done|done|done|reflexivity|constructor]|intros p; cbn; by rewrite app_nil_r].
    apply (inv_same coordinator s q Hinv a x); [done| |done|done|apply (i_manager _ _ _ Hinv)|done|apply quiet_refl|constructor]. split; cbn; rewrite ?Es; try done.
Qed.

Lemma collect_advances a s' : fire perform coordinator s (Collect a) = Some s' -> advances s q s'.
Proof.
  cbn [fire]. destruct (proxies s !! a) as [x|] eqn:Hx; [|done]. ored. pose proof (proxy_ok_at a x Hx) as Hok. destruct Hok as [Pf Ph Phere Pe Pi Pw].
  assert (forall out, Forall (fun '(_, b, env) => uncounted env = true /\ message_ok coordinator q (a, b, env)) (map (fun '(to, env) => (a, to, env)) out) /\ Forall (silent coordinator) (map (fun '(to, env) => (a, to, env)) out) \/
      out = [sendToManager coordinator MIGM_NEED_NO_MORE] /\ status x = MIGT_HERE ->
    advances s q (send (set_proxy s a x) a out)) as Hsame.
  { intros out Hor. assert (Forall (fun '(_, b, env) => uncounted env = true /\ message_ok coordinator q (a, b, env)) (map (fun '(to, env) => (a, to, env)) out)) as Hout
      by (destruct Hor as [[Hout _]|[-> _]]; [done|by repeat constructor]).
    unfold set_proxy. rewrite send_all. apply advances_idle.
    2: { destruct Hor as [[_ Hsi]|[-> Es]]; [by apply (chain_frame coordinator s q Hch a x)|]. destruct (here_spec coordinator s q Hinv a x Hx Es) as (Tg & _ & Ho & _).
      apply (chain_token coordinator s q Hch a x); [by right|done..]. }
    - apply (inv_same coordinator s q Hinv a x); [done|by apply proxy_ok_at|done|done|apply (i_manager _ _ _ Hinv)|done|apply quiet_refl|done].
    - intros p. cbn [net]. rewrite tally_app. rewrite <- Nat.add_0_r. f_equal. clear -Hout. induction out as [|[b env] out IH]; [done|]. apply Forall_cons in Hout as [[Hu _] Hout].
      unfold tally in *. cbn [map foldr]. rewrite (IH Hout). by destruct env as [[]|[]]. }
  unfold clearWeakRoot. destruct (isWeakRoot x); [|intros [= <-]; apply Hsame; left; split; constructor]. destruct (status x) eqn:Es; try (intros [= <-]; apply Hsame; left; split; constructor).
  rewrite Phere by done. intros [= <-]. apply Hsame. by right.
Qed.

Lemma create_advances a s' : fire perform coordinator s (Create a) = Some s' -> advances s q s'.
Proof.
  cbn [fire]. destruct (proxies s !! a) as [x|] eqn:Hx; [done|]. destruct (decide (a ∈ crashed s)); [done|].
  assert (m_initRemoteProxy coordinator (failed_at s a) = initRemoteProt (E:=E) (Op:=Op)) as ->.
  { unfold m_initRemoteProxy, failed_at. rewrite (i_detected _ _ _ Hinv). by rewrite bool_decide_false by set_solver. }
  intros [= <-]. apply advances_idle; [|by apply chain_create|done].
  assert (forall f p, f (initRemoteProt (E:=E) (Op:=Op)) = 0%nat -> weight f (<[a := initRemoteProt]> (proxies s)) p = weight f (proxies s) p) as Hw.
  { intros f p Hf. rewrite weight_insert. destruct (Z.eqb_spec a p) as [Eap|]; [subst p|done]. unfold weight. by rewrite Hx. }
  destruct Hinv as [H1 H2 H3 H4 H5 H6 H7 H8 H9 H10 H11 H12 H13]. split; try done; cbn [set_proxy proxies net manager].
  - destruct (decide (a = coordinator)) as [->|]; [rewrite lookup_insert_eq; by eexists|by rewrite lookup_insert_ne].
  - intros b y. destruct (decide (a = b)) as [->|]; [|rewrite lookup_insert_ne by done; apply H5]. rewrite lookup_insert_eq. intros [= <-]. split; try done; cbn.
    destruct (Z.eqb_spec b coordinator) as [->|]; [|done]. rewrite Hx in H4. by destruct H4.
  - intros p. rewrite Hw by done. apply H9.
  - intros p. rewrite Hw by done. apply H10.
  - intros p. rewrite Hw by done. apply H11.
  - intros b y p. destruct (decide (a = b)) as [->|]; [rewrite lookup_insert_eq; by intros [= <-]|rewrite lookup_insert_ne by done; apply H12].
Qed.

Lemma monitor_advances a s' : fire perform coordinator s (Monitor a) = Some s' -> advances s q s'.
Proof.
  cbn [fire]. destruct (proxies s !! a) as [x|] eqn:Hx; [|done]. ored. destruct (proxy_ok_at a x Hx) as [Pf Ph Phere Pe Pi Pw]. unfold protocol_Register.
  destruct (registered x); intros [= <-]; unfold set_proxy; rewrite send_all; apply advances_idle.
  - apply (inv_same coordinator s q Hinv a x); [done|by split|done|done|apply (i_manager _ _ _ Hinv)|done|apply quiet_refl|constructor].
  - apply (chain_frame coordinator s q Hch a x); [done|done|done|reflexivity|constructor].
  - intros p. cbn [net map]. by rewrite app_nil_r.
  - apply (inv_same coordinator s q Hinv a x); [done|by split|done|done|apply (i_manager _ _ _ Hinv)|done|apply quiet_refl|repeat constructor].
  - apply (chain_frame coordinator s q Hch a x); [done|done|done|reflexivity|constructor; [split; [by intros|by intros ? [?|?]]|constructor]].
  - intros p. cbn [net map]. rewrite tally_app, tally_one. cbn. lia.
Qed.

(** ** Messages *)

Lemma in_queue_exists a : a ∈ q -> exists x, proxies s !! a = Some x /\ status x <> MIGT_EMPTY.
Proof.
  intros Ha. pose proof (i_active _ _ _ Hinv a) as Hp. rewrite inq_in in Hp by done. unfold weight, active in Hp.
  destruct (proxies s !! a) as [x|]; [|lia]. exists x. split; [done|]. intros Hs. rewrite Hs in Hp. lia.
Qed.

(** The result of a delivery to a proxy. *)
Lemma deliver_proxy a b msg n' x r : take_first a b (net s) = Some (ToProxy msg, n') -> proxies s !! b = Some x -> proxy_msgReceived perform coordinator x msg = Some r ->
  fire perform coordinator s (Deliver a b) =
  Some (SY (manager s) (<[b := fst r]> (proxies s)) (n' ++ map (fun '(to, env) => (b, to, env)) (snd r)) (crashed s) (detected s)
          (history s ++ match msg with MIGM_TOKEN _ => a_susps x | _ => [] end)).
Proof.
  intros Ht Hx Hr. cbn [fire]. rewrite Hx. ored. rewrite Ht. ored. rewrite Hr. ored. destruct r as [p out]. unfold add_history, set_proxy, set_net. cbn [manager proxies net crashed detected history].
  rewrite send_all. cbn [fst snd]. by rewrite (po_fail _ _ _ (proxy_ok_at b x Hx)).
Qed.

Lemma forward_settles a b p n' : take_first a b (net s) = Some (ToProxy (MIGM_FORWARD p), n') -> exists s', fire perform coordinator s (Deliver a b) = Some s' /\ settles s q s'.
Proof.
  intros Ht. destruct (forward_spec coordinator s q Hinv b a p n' Ht) as (Hn & Tf & Ts & Hb). destruct (in_queue_exists b Hb) as (x & Hx & Hne).
  pose proof (proxy_ok_at b x Hx) as Hok. assert (a_successor x = None) as Ks. { rewrite (weight_at _ _ _ x Hx) in Ts. unfold succs in Ts. by destruct (a_successor x). }
  assert (forall p', tally (is_get p') n' = tally (is_get p') (net s)) as Hg by (intros p'; by rewrite (taken_tally a b (net s) _ n' _ Ht)).
  destruct Hok as [Pf Ph Phere Pe Pi Pw]. destruct (status x) eqn:Es; [done| |].
  - assert (proxy_msgReceived perform coordinator x (MIGM_FORWARD p) = Some (set_successor x (Some p), [])) as Er by (unfold proxy_msgReceived; rewrite Pf, Ks; cbn; by rewrite Es).
    eexists. split; [by apply (deliver_proxy a b _ n' x _ Ht Hx Er)|]. cbn [fst snd map]. apply settles_idle; [|apply (chain_frame coordinator s q Hch b x); [done|done|done|by apply (taken_sub _ _ _ _ _ Ht)|constructor]|intros p'; cbn [net]; by rewrite app_nil_r|cbn [net]; rewrite app_nil_r, (taken_costs _ _ _ _ _ Ht); cbn; lia].
    apply (inv_forward coordinator s q Hinv b a p x); [done|done| |done|done|apply (i_manager _ _ _ Hinv)|done]. split; cbn; rewrite ?Es; done.
  - destruct (entity x) as [e|] eqn:Ee; [|exfalso; by apply Pe].
    assert (proxy_msgReceived perform coordinator x (MIGM_FORWARD p) = Some (set_request (set_successor (set_status (set_entity (set_successor x (Some p)) None) MIGT_EMPTY) None) (a_request x + 1), [(p, ToProxy (MIGM_TOKEN e))])) as Er.
    { unfold proxy_msgReceived. rewrite Pf, Ks. cbn. rewrite Es. unfold forwardToken. cbn. rewrite Es, Ee. done. }
    eexists. split; [by apply (deliver_proxy a b _ n' x _ Ht Hx Er)|]. cbn [fst snd map].
    destruct (here_spec coordinator s q Hinv b x Hx Es) as (Tg & Hbq & Ho & Tt & Hh).
    destruct (inv_pass coordinator s q Hinv b p x (set_request (set_successor (set_status (set_entity (set_successor x (Some p)) None) MIGT_EMPTY) None) (a_request x + 1)) (manager s) n' e
      (history s ++ [])) as (r & Eq & Hi); try done.
    + intros y. by apply (taken_in _ _ _ _ _ _ Ht).
    + intros p'. pose proof (Tt p') as Hp. rewrite (taken_tally a b (net s) _ n' _ Ht) in Hp. done.
    + intros p'. rewrite Hh. unfold here. rewrite Es. by destruct (b =? p').
    + intros p'. pose proof (taken_tally a b (net s) _ n' (is_forward p') Ht) as Hp. cbn [is_forward] in Hp. destruct (Z.eqb_spec b p') as [Ebp|]; [subst p'; done|]. by rewrite Hp.
    + split; cbn; try done. intros _. by apply Pi.
    + apply (i_manager _ _ _ Hinv).
    + exists (p :: r). split; [done|]. split; [apply (chain_pass coordinator s q Hinv Hch b p r x); [done|done|done|done|by apply (taken_sub _ _ _ _ _ Ht)|done]|]. split; [|unfold potential; cbn [net]; rewrite costs_app, (taken_costs _ _ _ _ _ Ht), Eq; cbn; lia]. apply (lock_pass _ _ b p r); [done|done|]. intros p'. cbn [lock_of asking net]. rewrite tally_app, tally_one, Hg. cbn [is_get b2n]. by rewrite Nat.add_0_r.
Qed.

Lemma token_settles a b e n' : take_first a b (net s) = Some (ToProxy (MIGM_TOKEN e), n') -> exists s', fire perform coordinator s (Deliver a b) = Some s' /\ settles s q s'.
Proof.
  intros Ht. assert (b ∈ q) as Hb.
  { pose proof (i_owner _ _ _ Hinv b) as Ho. rewrite (taken_tally a b (net s) _ n' _ Ht) in Ho. cbn [is_token] in Ho. rewrite Z.eqb_refl in Ho.
    destruct q as [|b' r]; cbn in Ho; [lia|]. destruct (Z.eqb_spec b' b) as [->|]; [by left|cbn in Ho; lia]. }
  destruct (in_queue_exists b Hb) as (x & Hx & _). destruct (token_spec coordinator s q Hinv b a e n' Ht) as (Ho & Hz & x0 & Hx0 & Rx & Tg); [by eexists|].
  assert (x0 = x) as -> by congruence. destruct (proxy_ok_at b x Hx) as [Pf Ph Phere Pe Pi Pw]. rewrite Rx in Phere, Pe, Pi, Pw.
  assert (forall p', tally (is_get p') n' = tally (is_get p') (net s)) as Hg by (intros p'; by rewrite (taken_tally a b (net s) _ n' _ Ht)).
  set (e' := foldl (fun e op => perform op e) e (a_susps x)). assert (a_susps x <> [] \/ isHomeProxy x = true) as Hs by (destruct (isHomeProxy x); [by right|left; by apply Pw]).
  destruct (a_successor x) as [p|] eqn:Ek.
  - assert (proxy_msgReceived perform coordinator x (MIGM_TOKEN e) = Some (set_request (set_successor (set_status (set_entity (set_susps (set_entity (set_entity (set_status x MIGT_HERE) (Some e)) (Some e')) []) None) MIGT_EMPTY) None) (a_request x + 1), [(p, ToProxy (MIGM_TOKEN e'))])) as Er.
    { unfold proxy_msgReceived, resumeOperations. rewrite Pf. unfold e'. cbn. destruct (a_susps x) eqn:El; [destruct (isHomeProxy x) eqn:Eh; [|by destruct Hs]|]; cbn; rewrite ?Ek; unfold forwardToken; cbn; rewrite ?Ek, ?El, ?Eh; done. }
    eexists. split; [by apply (deliver_proxy a b _ n' x _ Ht Hx Er)|]. cbn [fst snd map].
    pose proof (i_succ _ _ _ Hinv b x p Hx Ek) as Hn. pose proof (i_links _ _ _ Hinv b) as Hl. rewrite Hn, (weight_at _ _ _ x Hx) in Hl. unfold succs in Hl. rewrite Ek in Hl. cbn in Hl.
    match goal with |- settles s q (SY _ (<[b := ?y]> _) _ _ _ ?h) => destruct (inv_pass coordinator s q Hinv b p x y (manager s) n' e' h) as (r & Eq & Hi) end; try done.
    + intros y. by apply (taken_in _ _ _ _ _ _ Ht).
    + intros p'. apply Hz.
    + intros p'. rewrite (proj2 (Hz p')). unfold here. rewrite Rx. by destruct (b =? p').
    + intros p'. pose proof (taken_tally a b (net s) _ n' (is_forward p') Ht) as Hp. cbn [is_forward b2n] in Hp. destruct (Z.eqb_spec b p') as [Ebp|]; [subst p'|]; lia.
    + apply (i_manager _ _ _ Hinv).
    + exists (p :: r). split; [done|]. split; [apply (chain_pass coordinator s q Hinv Hch b p r x); [done|done|done|done|by apply (taken_sub _ _ _ _ _ Ht)|done]|]. split; [|unfold potential; cbn [net]; rewrite costs_app, (taken_costs _ _ _ _ _ Ht), Eq; cbn; lia]. apply (lock_pass _ _ b p r); [done|done|]. intros p'. cbn [lock_of asking net]. rewrite tally_app, tally_one, Hg. cbn [is_get b2n]. by rewrite Nat.add_0_r.
  - assert (proxy_msgReceived perform coordinator x (MIGM_TOKEN e) = Some (set_susps (set_entity (set_entity (set_status x MIGT_HERE) (Some e)) (Some e')) [], [sendToManager coordinator MIGM_TOKEN_HERE])) as Er.
    { unfold proxy_msgReceived, resumeOperations. rewrite Pf. unfold e'. cbn. destruct (a_susps x) eqn:El; [destruct (isHomeProxy x) eqn:Eh; [|by destruct Hs]|]; cbn; rewrite ?Ek; unfold forwardToken; cbn; rewrite ?Ek, ?El, ?Eh; done. }
    eexists. split; [by apply (deliver_proxy a b _ n' x _ Ht Hx Er)|]. cbn [fst snd map sendToManager].
    apply settles_idle; [|apply (chain_token coordinator s q Hch b x); [by left|done|done|done|by apply (taken_sub _ _ _ _ _ Ht)|done|done]|intros p'; cbn [net]; rewrite tally_app, tally_one, Hg; cbn; lia|cbn [net]; rewrite costs_app, (taken_costs _ _ _ _ _ Ht); cbn; lia].
    apply (inv_token coordinator s q Hinv b a e x); try done; apply (i_manager _ _ _ Hinv).
Qed.

(** The result of a delivery to the manager. *)
Lemma deliver_manager a msg n' x : take_first a coordinator (net s) = Some (ToManager msg, n') -> proxies s !! coordinator = Some x ->
  fire perform coordinator s (Deliver a coordinator) =
  '(m, p, out) ← manager_msgReceived coordinator (failed_at (set_net s n') coordinator) (manager s) x msg a;
  Some (SY m (<[coordinator := p]> (proxies s)) (n' ++ map (fun '(to, env) => (coordinator, to, env)) out) (crashed s) (detected s) (history s)).
Proof.
  intros Ht Hx. cbn [fire]. rewrite Hx. ored. rewrite Ht. ored. rewrite Z.eqb_refl. cbn [set_net manager].
  destruct (manager_msgReceived _ _ _ _ _ _) as [[[m p] out]|]; [|done]. ored. unfold set_manager, set_proxy, set_net. cbn [manager proxies net crashed detected history]. by rewrite send_all.
Qed.

(** A change of the manager alone, without an answer. *)
Lemma manager_idle msg a n' x m' : take_first a coordinator (net s) = Some (ToManager msg, n') -> proxies s !! coordinator = Some x -> uncounted (E:=E) (ToManager msg) = true ->
  m_permFail m' = false -> a_last m' = a_last (manager s) ->
  a_chain m' = a_chain (manager s) \/ chain_inv coordinator (SY m' (<[coordinator := x]> (proxies s)) (n' ++ []) (crashed s) (detected s) (history s)) q ->
  settles s q (SY m' (<[coordinator := x]> (proxies s)) (n' ++ []) (crashed s) (detected s) (history s)).
Proof.
  intros Ht Hx Hu Hm El Hc. pose proof (quiet_taken s a coordinator _ n' Ht Hu) as Hq. apply settles_idle.
  - apply (inv_same coordinator s q Hinv coordinator x); try done. by apply proxy_ok_at.
  - destruct Hc as [Hc|Hc]; [|done]. apply (chain_frame coordinator s q Hch coordinator x); [done|done|done|by apply (taken_sub _ _ _ _ _ Ht)|constructor].
  - intros p. cbn [net]. rewrite app_nil_r. by apply Hq.
  - cbn [net]. rewrite app_nil_r, (taken_costs _ _ _ _ _ Ht). pose proof (cost_positive (a, coordinator, ToManager msg)). lia.
Qed.

Lemma get_settles a r n' : take_first a coordinator (net s) = Some (ToManager (MIGM_GET r), n') -> exists s', fire perform coordinator s (Deliver a coordinator) = Some s' /\ settles s q s'.
Proof.
  intros Ht. destruct (i_home _ _ _ Hinv) as [x Hx]. pose proof (i_last _ _ _ Hinv) as Hl.
  assert (exists l, last q = Some l) as [l El].
  { destruct (last q) as [l|] eqn:El; [by exists l|]. apply last_None in El. by destruct (i_queue _ _ _ Hinv). }
  rewrite (deliver_manager a _ n' x Ht Hx). unfold manager_msgReceived. rewrite (i_manager _ _ _ Hinv), <- Hl, El. ored.
  set (c := if in_chain a (a_chain (manager s)) then pop_through a (a_chain (manager s)) else Some (a_chain (manager s))).
  assert (exists c', c = Some c') as [c' Ec]. { unfold c, in_chain, pop_through. destruct (find a (a_chain (manager s))) as [[[before e] after]|]; ored; by eexists. }
  destruct (inv_enqueue coordinator s q Hinv a r coordinator x (set_chain (manager s) (c' ++ [(a, r)]) (Some a)) n' l (history s)) as (Ha & Hne & Hi); try done; [apply (i_manager _ _ _ Hinv)|].
  destruct (Z.eqb_spec a l); [done|]. rewrite Ec. ored. eexists. split; [done|]. exists (q ++ [a]). split; [done|]. split.
  { apply (chain_enqueue coordinator s q Hinv Hch a r c' x); [done|done|done| |exact Ec|done]. pose proof (i_active _ _ _ Hinv a) as Hact.
    rewrite (taken_tally a coordinator (net s) _ n' _ Ht) in Hact. cbn [is_get] in Hact. rewrite Z.eqb_refl in Hact. unfold weight in Hact. destruct (proxies s !! a) as [y|]; [by eexists|cbn in Hact; lia]. }
  split; [|unfold potential; cbn [net map]; rewrite costs_app, (taken_costs _ _ _ _ _ Ht), length_app; cbn; lia].
  apply (lock_enqueue _ _ a); cbn [lock_of queue asking net map]; [done| |done|].
  - rewrite (taken_tally a coordinator (net s) _ n' _ Ht). cbn [is_get]. by rewrite Z.eqb_refl.
  - intros p. rewrite tally_app, tally_one, (taken_tally a coordinator (net s) _ n' _ Ht). cbn [is_get b2n]. rewrite Nat.add_0_r. destruct (Z.eqb_spec a p) as [Eap|]; cbn [negb andb b2n]; [subst p|done].
    pose proof (i_active _ _ _ Hi a) as Hact. cbn [proxies net] in Hact. rewrite inq_in in Hact by (apply elem_of_app; right; by left). rewrite tally_app in Hact.
    assert (weight active (<[coordinator:=x]> (proxies s)) a <= 1)%nat as Hw. { unfold weight. destruct (_ !! a) as [y|]; [|lia]. unfold active. destruct (status y); lia. }
    assert (tally (is_get a) n' = 0%nat) as -> by lia. done.
Qed.

(** Only the request on behalf of a proxy that wants to be rid of the token may find the home proxy busy. *)
Definition assertion_fails (a b : Z) : Prop :=
  exists n' x, take_first a b (net s) = Some (ToManager MIGM_NEED_NO_MORE, n') /\ a_last (manager s) = Some a /\ proxies s !! coordinator = Some x /\ status x <> MIGT_EMPTY.

Lemma need_settles a n' : take_first a coordinator (net s) = Some (ToManager MIGM_NEED_NO_MORE, n') ->
  (assertion_fails a coordinator /\ fire perform coordinator s (Deliver a coordinator) = None) \/ exists s', fire perform coordinator s (Deliver a coordinator) = Some s' /\ settles s q s'.
Proof.
  intros Ht. destruct (i_home _ _ _ Hinv) as [x Hx]. rewrite (deliver_manager a _ n' x Ht Hx). unfold manager_msgReceived. destruct (decide (Some a = a_last (manager s))) as [Hl|Hl].
  2: { right. ored. eexists. split; [done|]. apply (manager_idle MIGM_NEED_NO_MORE a n' x (manager s) Ht Hx eq_refl (i_manager _ _ _ Hinv)); [done|by left]. }
  destruct (decide (status x = MIGT_EMPTY)) as [Es|Es].
  - right. unfold requestToken. rewrite Es. ored. eexists. split; [done|]. cbn [map sendToManager]. pose proof (proxy_ok_at coordinator x Hx) as [Pf Ph Phere Pe Pi Pw].
    pose proof (quiet_taken s a coordinator _ n' Ht eq_refl) as Hq. exists q. split; [|split; [by apply (chain_ask coordinator s q Hch coordinator x); [..|apply (taken_sub _ _ _ _ _ Ht)]|split; [|unfold potential; cbn [net]; rewrite costs_app, (taken_costs _ _ _ _ _ Ht); cbn; lia]]].
    + apply (inv_ask coordinator s q Hinv coordinator x); [done|done| |done|done|apply (i_manager _ _ _ Hinv)|done|done]. rewrite Es in *. split; cbn; try done.
      * split; [done|]. intros _. by apply Pe.
      * intros _ Hf. rewrite Ph, Z.eqb_refl in Hf. done.
    + destruct (empty_spec coordinator s q Hinv coordinator x Hx Es) as (Tg & Hc & _). apply (lock_ask _ _ coordinator); cbn [lock_of queue asking net]; [done|by rewrite Tg|done|].
      intros p. rewrite tally_app, tally_one, (proj1 (proj2 Hq p)). cbn [is_get]. destruct (coordinator =? p); cbn [b2n orb]; [by rewrite Nat.add_1_r|by rewrite Nat.add_0_r].
  - left. split; [by exists n', x|]. unfold requestToken. destruct (status x); [done|done|done].
Qed.

Lemma deliver_settles a b env n' : take_first a b (net s) = Some (env, n') ->
  (assertion_fails a b /\ fire perform coordinator s (Deliver a b) = None) \/ exists s', fire perform coordinator s (Deliver a b) = Some s' /\ settles s q s'.
Proof.
  intros Ht. pose proof (i_net _ _ _ Hinv _ (taken_head _ _ _ _ _ Ht)) as Hm. destruct env as [msg|msg]; cbn in Hm.
  - assert (b = coordinator) as -> by by destruct msg. destruct (i_home _ _ _ Hinv) as [x Hx]. destruct msg; try done.
    + right. rewrite (deliver_manager a _ n' x Ht Hx). cbn [manager_msgReceived]. rewrite (i_manager _ _ _ Hinv). ored. eexists. split; [done|]. apply (manager_idle PROT_REGISTER a n' x _ Ht Hx eq_refl); [apply (i_manager _ _ _ Hinv)|done|by left].
    + right. by apply (get_settles a reqid n').
    + right. rewrite (deliver_manager a _ n' x Ht Hx). cbn [manager_msgReceived]. rewrite (i_manager _ _ _ Hinv).
      destruct (find a (a_chain (manager s))) as [[[before e] after]|] eqn:Ef; ored; (eexists; split; [done|]); apply (manager_idle MIGM_TOKEN_HERE a n' x _ Ht Hx eq_refl); try apply (i_manager _ _ _ Hinv); try done.
      * right. by apply (chain_here coordinator s q Hch a before e after).
      * by left.
    + by apply (need_settles a n').
  - right. destruct msg; try done; [by apply (forward_settles a b successor n')|by apply (token_settles a b state n')].
Qed.
End one.

(** Every regular event that fires advances the lock. *)
Lemma fire_advances s q ev s' : inv coordinator s q -> chain_inv coordinator s q -> regular ev = true -> fire perform coordinator s ev = Some s' -> advances s q s'.
Proof.
  intros Hinv Hch Hr Hf. destruct ev as [a op|a|a|a|a|a b|a|a b]; try done.
  - by apply (operate_advances s q Hinv Hch a op).
  - by apply (collect_advances s q Hinv Hch a).
  - by apply (create_advances s q Hinv Hch a).
  - by apply (monitor_advances s q Hinv Hch a).
  - destruct (take_first a b (net s)) as [[env n']|] eqn:Ht.
    + destruct (deliver_settles s q Hinv Hch a b env n' Ht) as [[_ Hn]|(s1 & E1 & Ha)]; [by rewrite Hn in Hf|]. assert (s1 = s') as -> by congruence. by apply settles_advances.
    + cbn [fire] in Hf. destruct (proxies s !! b); [|done]. ored in Hf. by rewrite Ht in Hf.
Qed.

(** At the start the home proxy has the token. *)
Lemma init_inv e : inv coordinator (init coordinator e : System (E:=E) (Op:=Op)) [coordinator].
Proof.
  assert (forall f p, weight f (proxies (init coordinator e)) p = if coordinator =? p then f (newProxy e : Proxy (E:=E) (Op:=Op)) else 0%nat) as Hw.
  { intros f p. cbn [init proxies]. unfold weight. destruct (Z.eqb_spec coordinator p) as [->|]; [by rewrite lookup_singleton_eq|by rewrite lookup_singleton_ne]. }
  split; try done; cbn [init manager net proxies].
  - rewrite lookup_singleton_eq. by eexists.
  - intros a x Hx. apply lookup_singleton_Some in Hx as [<- <-]. split; cbn; try done. by rewrite Z.eqb_refl.
  - by intros x ?%elem_of_nil.
  - apply NoDup_singleton.
  - intros p. pose proof (Hw active p) as Hp. cbn [init proxies] in Hp. rewrite Hp. unfold inq. cbn. destruct (Z.eqb_spec coordinator p) as [->|Hne].
    + by rewrite bool_decide_eq_true_2 by by left.
    + rewrite bool_decide_eq_false_2; [done|]. by intros [->|[]%elem_of_nil]%elem_of_cons.
  - intros p. pose proof (Hw here p) as Hp. cbn [init proxies] in Hp. rewrite Hp. cbn. by destruct (coordinator =? p).
  - intros p. pose proof (Hw succs p) as Hp. cbn [init proxies] in Hp. rewrite Hp. cbn. by destruct (coordinator =? p).
  - intros a x p Hx. apply lookup_singleton_Some in Hx as [<- <-]. done.
Qed.

Lemma init_chain e : chain_inv coordinator (init coordinator e : System (E:=E) (Op:=Op)) [coordinator].
Proof.
  split; cbn [init newManager a_chain manager net proxies map fst]; try done.
  - by exists [].
  - apply NoDup_singleton.
  - intros p r x [[= -> ->]|[]%elem_of_nil]%elem_of_cons Hx. apply lookup_singleton_Some in Hx as [_ <-]. by rewrite decide_True by by left.
  - by intros a r x y ?%elem_of_nil.
  - by intros a y ?%elem_of_nil.
  - intros p r [[= -> ->]|[]%elem_of_nil]%elem_of_cons. rewrite lookup_singleton_eq. by eexists.
Qed.
End events.
End MigratoryEvents.

(** ** Every request is served

    Deliveries run out, and where they stop the token is at rest and no thread waits. *)
Module MigratoryLiveness.
Import Migratory MigratorySpec MigratorySteps MigratoryChain MigratoryEvents.

Section liveness.
Context {E Op : Type} (perform : Op -> E -> E) (coordinator : Z).
Implicit Types (s : System (E:=E) (Op:=Op)) (x : Proxy (E:=E) (Op:=Op)) (q : list Z) (ds : list (Event (Op:=Op))) (m : gmap Z (Proxy (E:=E) (Op:=Op))).

Definition delivery (ev : Event (Op:=Op)) : bool := match ev with Deliver _ _ => true | _ => false end.

(** No message can be delivered. *)
Definition at_rest s : Prop := forall a b, fire perform coordinator s (Deliver a b) = None.

(** One proxy has the token, no other proxy wants it, no thread is suspended, and the manager knows the proxy. *)
Definition settled s : Prop :=
  exists a, a_last (manager s) = Some a /\ (exists x, proxies s !! a = Some x /\ status x = MIGT_HERE /\ is_Some (entity x)) /\
    forall b x, proxies s !! b = Some x -> a_susps x = [] /\ a_successor x = None /\ (b <> a -> status x = MIGT_EMPTY).

(** The operations of the suspended threads of all sites. *)
Definition waiting m : list Op := concat (map (fun ax => a_susps (snd ax)) (map_to_list m)).

Lemma waiting_fresh m a x : m !! a = None -> waiting (<[a := x]> m) ≡ₚ a_susps x ++ waiting m.
Proof. intros Hm. unfold waiting. by rewrite map_to_list_insert. Qed.

Lemma waiting_insert m a x x' : m !! a = Some x -> waiting (<[a := x']> m) ++ a_susps x ≡ₚ waiting m ++ a_susps x'.
Proof.
  intros Hm. rewrite <- (insert_id m a x Hm) at 2. rewrite <- (insert_delete_eq m a x), <- (insert_delete_eq m a x').
  rewrite !waiting_fresh by apply lookup_delete_eq. solve_Permutation.
Qed.

Lemma waiting_empty m : (forall a x, m !! a = Some x -> a_susps x = []) -> waiting m = [].
Proof.
  intros H. unfold waiting. assert (forall ax, ax ∈ map_to_list m -> a_susps (snd ax) = []) as Hl by (intros [a x] Hin; apply elem_of_map_to_list in Hin; by apply (H a)).
  induction (map_to_list m) as [|ax l IH]; [done|]. cbn. rewrite (Hl ax) by by left. apply IH. intros y Hy. apply Hl. by right.
Qed.

(** The manager does not touch the suspended threads of its site. *)
Lemma manager_susps s q b msg n' a x (m' : Manager) x' out : inv coordinator s q -> message_ok coordinator q (a, b, ToManager msg) ->
  manager_msgReceived coordinator (failed_at (set_net s n') b) (manager s) x msg a = Some (m', x', out) -> a_susps x' = a_susps x.
Proof.
  intros Hi Hm. unfold manager_msgReceived. rewrite (i_manager _ _ _ Hi). destruct msg; try done.
  - by intros [= _ <- _].
  - destruct (a_last (manager s)) as [l|]; [|done]. ored. destruct (a =? l); [by intros [= _ <- _]|]. destruct (if in_chain a _ then _ else _); [|done]. ored. by intros [= _ <- _].
  - destruct (find a _) as [[[? ?] ?]|]; by intros [= _ <- _].
  - destruct (decide _); [|by intros [= _ <- _]]. unfold requestToken. destruct (status x); [|done|done]. ored. by intros [= _ <- _].
Qed.

Lemma resume_susps x e r : resumeOperations perform coordinator (set_entity (set_status x MIGT_HERE) (Some e)) = Some r -> a_susps (fst r) = [].
Proof.
  unfold resumeOperations, forwardToken. cbn. destruct (a_susps x); [destruct (isHomeProxy x); [|done]|]; ored; destruct (a_successor x); cbn; by intros [= <-].
Qed.

(** A thread that is suspended stays so or performs its operation: none is lost and none is served twice. *)
Lemma deliver_conserves s q a b s' : inv coordinator s q -> fire perform coordinator s (Deliver a b) = Some s' -> history s' ++ waiting (proxies s') ≡ₚ history s ++ waiting (proxies s).
Proof.
  intros Hi. cbn [fire]. destruct (proxies s !! b) as [x|] eqn:Hx; [|done]. ored. destruct (take_first a b (net s)) as [[env n']|] eqn:Ht; [|done]. ored.
  pose proof (i_net _ _ _ Hi _ (taken_head _ _ _ _ _ Ht)) as Hm. pose proof (po_fail _ _ _ (i_proxies _ _ _ Hi b x Hx)) as Pf.
  assert (forall x' h, a_susps x = h ++ a_susps x' -> (history s ++ h) ++ waiting (<[b := x']> (proxies s)) ≡ₚ history s ++ waiting (proxies s)) as Hsum.
  { intros x' h Eh. rewrite <- app_assoc. f_equiv. pose proof (waiting_insert (proxies s) b x x' Hx) as Hp. rewrite Eh, app_assoc in Hp.
    apply Permutation_app_inv_r in Hp. rewrite <- Hp. apply Permutation_app_comm. }
  destruct env as [msg|msg].
  - destruct (Z.eqb_spec b coordinator) as [->|]; [|done]. destruct (manager_msgReceived _ _ _ _ _ _) as [[[m' x'] out]|] eqn:Er; [|done]. ored. intros [= <-]. cbn [history proxies send set_manager set_proxy set_net].
    rewrite <- (app_nil_r (history s)) at 1. apply Hsum. cbn. symmetry. by apply (manager_susps s q coordinator msg n' a x m' x' out).
  - destruct (proxy_msgReceived perform coordinator x msg) as [[x' out]|] eqn:Er; [|done]. ored. intros [= <-]. cbn [history proxies send add_history set_proxy set_net]. apply Hsum.
    unfold proxy_msgReceived in Er. rewrite Pf in *. destruct msg; try done.
    + destruct (a_successor x); [done|]. cbn in Er. unfold forwardToken in Er. cbn in Er. destruct (status x); [by injection Er as <- _|by injection Er as <- _|]. destruct (entity x); [|done]. ored in Er. by injection Er as <- _.
    + apply resume_susps in Er. cbn in Er. by rewrite Er, app_nil_r.
Qed.

(** ** Where deliveries stop *)

Lemma take_first_some a b env (n : list (Z * Z * Envelope (E:=E))) : (a, b, env) ∈ n -> exists env' n', take_first a b n = Some (env', n').
Proof.
  induction n as [|[[x y] e] n IH]; [by intros ?%elem_of_nil|]. cbn [take_first]. destruct ((x =? a) && (y =? b)) eqn:Ek; [by eexists _, _|].
  intros [[= <- <- <-]|Hin]%elem_of_cons; [by rewrite !Z.eqb_refl in Ek|]. destruct (IH Hin) as (e' & n' & ->). ored. by eexists _, _.
Qed.

(** One site is left in the queue, and neither the token nor a request is under way. *)
Lemma single_settled s a : inv coordinator s [a] -> (forall p, tally (is_get p) (net s) = 0%nat) -> (forall p, tally (is_token p) (net s) = 0%nat) -> settled s.
Proof.
  intros Hi Hg Ht. pose proof (i_owner _ _ _ Hi a) as Ho. rewrite Ht in Ho. cbn in Ho. rewrite Z.eqb_refl in Ho. cbn in Ho.
  assert (exists x, proxies s !! a = Some x /\ status x = MIGT_HERE) as (x & Hx & Es). { unfold weight, here in Ho. destruct (proxies s !! a) as [x|]; [|done]. exists x. by destruct (status x). }
  destruct (i_proxies _ _ _ Hi a x Hx) as [_ _ _ Pe _ _]. exists a. split; [by rewrite <- (i_last _ _ _ Hi)|]. split.
  - exists x. split; [done|]. split; [done|]. destruct (entity x) as [e|] eqn:Ee; [by eexists|]. exfalso. by apply Pe.
  - intros b y Hy. destruct (i_proxies _ _ _ Hi b y Hy) as [_ _ _ _ Pi _]. pose proof (i_active _ _ _ Hi b) as Hb. rewrite (weight_at _ _ _ y Hy), Hg in Hb.
    pose proof (i_links _ _ _ Hi b) as Hlb. rewrite (weight_at _ _ _ y Hy) in Hlb. assert (a_successor y = None) as Ek by (unfold succs in Hlb; cbn in Hlb; destruct (a_successor y); [cbn in Hlb; lia|done]).
    destruct (decide (b = a)) as [->|Hne]; [assert (y = x) as -> by congruence; split; [apply Pi; by rewrite Es|by split]|].
    assert (status y = MIGT_EMPTY) as Ey. { rewrite inq_out in Hb by (intros [->|[]%elem_of_nil]%elem_of_cons; done). unfold active in Hb. by destruct (status y). }
    split; [apply Pi; by rewrite Ey|by split].
Qed.

(** Without messages, the head of the queue has no successor. *)
Lemma quiescent_single s q : inv coordinator s q -> net s = [] -> exists a, q = [a].
Proof.
  intros Hi Hn. pose proof (i_owner _ _ _ Hi) as Ho. pose proof (i_links _ _ _ Hi) as Hl. rewrite Hn in *.
  destruct q as [|a r] eqn:Eq; [by destruct (i_queue _ _ _ Hi)|]. exists a. pose proof (Ho a) as Hoa. cbn in Hoa. rewrite Z.eqb_refl in Hoa. cbn in Hoa.
  assert (exists x, proxies s !! a = Some x /\ status x = MIGT_HERE) as (x & Hx & Es). { unfold weight, here in Hoa. destruct (proxies s !! a) as [x|]; [|done]. exists x. by destruct (status x). }
  pose proof (po_here _ _ _ (i_proxies _ _ _ Hi a x Hx) Es) as Hs. pose proof (Hl a) as Hla. rewrite (weight_at _ _ _ x Hx) in Hla. unfold succs in Hla. rewrite Hs in Hla.
  destruct r as [|b r]; [done|cbn in Hla; by rewrite Z.eqb_refl in Hla].
Qed.

(** At rest every message is from the last site of the queue to the manager, and the first one is the request to be rid of the token. *)
Lemma rest_spec s q : inv coordinator s q -> chain_inv coordinator s q -> at_rest s -> forall a b env, (a, b, env) ∈ net s ->
  b = coordinator /\ a_last (manager s) = Some a /\ (a, coordinator, ToManager MIGM_NEED_NO_MORE) ∈ net s /\ exists x, proxies s !! coordinator = Some x /\ status x <> MIGT_EMPTY.
Proof.
  intros Hi Hc Hr a b env Hin. destruct (take_first_some a b env _ Hin) as (env' & n' & Ht).
  destruct (deliver_settles perform coordinator s q Hi Hc a b env' n' Ht) as [[(n1 & x & Ht' & Hl & Hx & Hs) _]|(s' & Es & _)]; [|by rewrite Hr in Es].
  assert (b = coordinator) as -> by exact (i_net _ _ _ Hi _ (taken_head _ _ _ _ _ Ht')).
  split; [done|]. split; [done|]. split; [by apply (taken_head _ _ _ _ _ Ht')|by exists x].
Qed.

Lemma rest_settled s q : inv coordinator s q -> chain_inv coordinator s q -> at_rest s -> settled s.
Proof.
  intros Hi Hc Hr. pose proof (rest_spec s q Hi Hc Hr) as Hs. destruct (net s) as [|[[a b] env] n] eqn:En.
  { destruct (quiescent_single s q Hi En) as [a ->]. apply (single_settled s a Hi); intros p; by rewrite En. }
  rewrite <- En in Hs. destruct (Hs a b env) as (-> & Hl & Hn & x & Hx & Es); [rewrite En; by left|].
  assert (q = [a]) as ->.
  { rewrite <- (i_last _ _ _ Hi) in Hl. assert (a ∈ q) as Ha by (apply last_Some in Hl as [q' ->]; apply elem_of_app; right; by left).
    pose proof (ch_here _ _ _ Hc a _ Hn (or_intror eq_refl) Ha) as Ho. destruct q as [|c [|c' q]]; [done|by injection Hl as ->|]. cbn in Ho. destruct (Z.eqb_spec c a) as [->|]; [|done].
    exfalso. pose proof (i_nodup _ _ _ Hi) as [Hd _]%NoDup_cons. apply Hd. change (last (c' :: q) = Some a) in Hl. apply last_Some in Hl as [q' ->]. apply elem_of_app. right. by left. }
  assert (forall p, tally (is_get p) (net s) = 0%nat) as Hg.
  { intros p. destruct (tally (is_get p) (net s)) eqn:Et; [done|]. destruct (tally_exists (is_get p) (net s)) as ([[u v] w] & Hin & Hp); [lia|].
    destruct (Hs u v w Hin) as (_ & Hl' & _). assert (u = a) as -> by congruence. assert (p = a) as -> by (destruct w as [[]|]; try done; cbn in Hp; by apply Z.eqb_eq in Hp).
    pose proof (i_active _ _ _ Hi a) as Ha. rewrite Et, inq_in in Ha by by left. unfold weight, active in Ha. destruct (proxies s !! a) as [y|]; [|lia]. destruct (status y); lia. }
  assert (a = coordinator) as ->.
  { pose proof (i_active _ _ _ Hi coordinator) as Ha. rewrite Hg, (weight_at _ _ _ x Hx) in Ha. unfold active in Ha.
    destruct (decide (coordinator ∈ [a])) as [[<-|[]%elem_of_nil]%elem_of_cons|Hq]; [done|]. rewrite inq_out in Ha by done. by destruct (status x). }
  apply (single_settled s coordinator Hi); [done|]. intros p. destruct (tally (is_token p) (net s)) eqn:Et; [done|].
  destruct (tally_exists (is_token p) (net s)) as ([[u v] w] & Hin & Hp); [lia|]. destruct (Hs u v w Hin) as (-> & Hl' & _). assert (u = coordinator) as -> by congruence.
  pose proof (i_net _ _ _ Hi _ Hin) as Hm. destruct w as [|[]]; done.
Qed.

(** ** Deliveries run out *)

Lemma run_potential s q ds s' : inv coordinator s q -> chain_inv coordinator s q -> Forall (fun ev => delivery ev = true) ds -> run perform coordinator s ds = Some s' ->
  exists q', inv coordinator s' q' /\ chain_inv coordinator s' q' /\ (length ds + potential s' q' <= potential s q)%nat /\ history s' ++ waiting (proxies s') ≡ₚ history s ++ waiting (proxies s).
Proof.
  revert s q. induction ds as [|ev ds IH]; intros s q Hi Hc Hr; cbn [run]; [intros [= <-]; by exists q|].
  apply Forall_cons in Hr as [Hev Hr]. destruct (fire perform coordinator s ev) as [s1|] eqn:Ef; [|done]. ored. intros Hrun. destruct ev as [| | | | |a b| |]; try done.
  destruct (take_first a b (net s)) as [[env n']|] eqn:Ht.
  - destruct (deliver_settles perform coordinator s q Hi Hc a b env n' Ht) as [[_ Hn]|(s2 & E2 & q2 & Hi2 & Hc2 & _ & Hp2)]; [congruence|]. assert (s2 = s1) as -> by congruence.
    destruct (IH s1 q2 Hi2 Hc2 Hr Hrun) as (q3 & Hi3 & Hc3 & Hp3 & Hw3). exists q3. split; [done|]. split; [done|]. split; [cbn; lia|].
    rewrite Hw3. by apply (deliver_conserves s q a b).
  - cbn [fire] in Ef. destruct (proxies s !! b); [|done]. ored in Ef. by rewrite Ht in Ef.
Qed.

(** Some message can be delivered, or none. *)
Lemma rest_or_fire s : at_rest s \/ exists a b s', fire perform coordinator s (Deliver a b) = Some s'.
Proof.
  destruct (decide (Exists (fun y => is_Some (fire perform coordinator s (Deliver (fst (fst y)) (snd (fst y))))) (net s))) as [H|H].
  - right. apply Exists_exists in H as ([[a b] env] & _ & [s' Hs]). by exists a, b, s'.
  - left. intros a b. destruct (fire perform coordinator s (Deliver a b)) as [s'|] eqn:Ef; [|done]. exfalso. apply H. apply Exists_exists.
    pose proof Ef as Ef'. cbn [fire] in Ef'. destruct (proxies s !! b); [|done]. ored in Ef'. destruct (take_first a b (net s)) as [[env n']|] eqn:Ht; [|done].
    exists (a, b, env). split; [by apply (taken_head _ _ _ _ _ Ht)|by exists s'].
Qed.

(** Deliveries can go on until the system is at rest. *)
Lemma rest_reachable s q : inv coordinator s q -> chain_inv coordinator s q -> exists ds s', Forall (fun ev => delivery ev = true) ds /\ run perform coordinator s ds = Some s' /\ at_rest s'.
Proof.
  remember (potential s q) as k eqn:Ek. revert s q Ek. induction k as [k IH] using lt_wf_ind. intros s q -> Hi Hc. destruct (rest_or_fire s) as [Hr|(a & b & s1 & Ef)]; [by exists [], s|].
  destruct (run_potential s q [Deliver a b] s1 Hi Hc) as (q1 & Hi1 & Hc1 & Hp & _); [by repeat constructor|cbn [run]; by rewrite Ef|]. cbn [length] in Hp.
  destruct (IH (potential s1 q1) ltac:(lia) s1 q1 eq_refl Hi1 Hc1) as (ds & s' & Hd & Hrun & Hr). exists (Deliver a b :: ds), s'. split; [by constructor|]. split; [|done]. cbn [run]. by rewrite Ef.
Qed.
End liveness.
End MigratoryLiveness.
