(* ===== verification/MigratorySafety.v ===== *)
(** * Safety of the migratory token under failures

    Whatever happens, crashes and failed connections included, there is at most one token, in a message
    or at a proxy, and it carries the result of all operations that were performed, in order. *)
From stdpp Require Import gmap.
From S2P Require Import Prelude Migratory MigratorySpec MigratorySteps.

Module MigratorySafety.
Import Migratory MigratorySpec MigratorySteps.

Section safety.
Context {E Op : Type} (perform : Op -> E -> E) (coordinator : Z) (e0 : E).
Implicit Types (s : System (E:=E) (Op:=Op)) (x : Proxy (E:=E) (Op:=Op)) (out : list (Z * Envelope (E:=E))).

(** The state that the operations performed so far lead to. *)
Definition result (h : list Op) : E := foldl (fun e op => perform op e) e0 h.

Lemma result_app h l : result (h ++ l) = foldl (fun e op => perform op e) (result h) l.
Proof. unfold result. by rewrite foldl_app. Qed.

Definition carries (y : Z * Z * Envelope (E:=E)) : bool := match y with (_, _, ToProxy (MIGM_TOKEN _)) => true | _ => false end.
Definition holds s (a : Z) x : Prop := proxies s !! a = Some x /\ status x = MIGT_HERE.

Record exclusive s : Prop := {
  ex_one : (tally carries (net s) <= 1)%nat;
  ex_away a x : (0 < tally carries (net s))%nat -> ~ holds s a x;
  ex_holder a b x y : holds s a x -> holds s b y -> a = b;
  ex_state a x : holds s a x -> entity x = Some (result (history s));
  ex_token a b e : (a, b, ToProxy (MIGM_TOKEN e)) ∈ net s -> e = result (history s)
}.

(** ** Handlers neither copy the token nor change what it carries *)

Definition tokens out : nat := foldr (fun y k => (match snd y with ToProxy (MIGM_TOKEN _) => 1 | _ => 0 end) + k)%nat 0%nat out.

Lemma tokens_app out out' : tokens (out ++ out') = (tokens out + tokens out')%nat.
Proof. induction out as [|y out IH]; [done|]. cbn [app]. unfold tokens in *. cbn [foldr]. lia. Qed.

Lemma tokens_in out to e : (to, ToProxy (MIGM_TOKEN e)) ∈ out -> (0 < tokens out)%nat.
Proof. intros H. apply list_elem_of_split in H as (l1 & l2 & ->). rewrite tokens_app. cbn. lia. Qed.

Definition conserves x x' out : Prop :=
  (here x' + tokens out <= here x)%nat /\ (status x' = MIGT_HERE -> entity x' = entity x) /\ forall to e, (to, ToProxy (MIGM_TOKEN e)) ∈ out -> entity x = Some e.

Lemma conserves_quiet x x' out : (status x' = MIGT_HERE -> status x = MIGT_HERE) -> entity x' = entity x -> tokens out = 0%nat -> conserves x x' out.
Proof.
  intros Hs He Ho. split; [|split; [done|]].
  - rewrite Ho. unfold here. destruct (status x'); try lia. by rewrite Hs.
  - intros to e H. apply tokens_in in H. lia.
Qed.

Lemma forward_conserves x r : forwardToken x = Some r -> conserves x (fst r) (snd r).
Proof.
  unfold forwardToken. destruct (status x) eqn:Es; try done. destruct (a_successor x) as [p|]; [|done]. destruct (entity x) as [e|] eqn:Ee; [|done]. ored. intros [= <-].
  split; [|split]; cbn; [unfold here; rewrite Es; cbn; lia|done|]. intros to e' [[= -> ->]|[]%elem_of_nil]%elem_of_cons. done.
Qed.

Lemma request_conserves x r : requestToken coordinator x = Some r -> conserves x (fst r) (snd r).
Proof. unfold requestToken. destruct (status x) eqn:Es; try done. intros [= <-]. by apply conserves_quiet. Qed.

Lemma received_conserves x msg r : (forall e, msg <> MIGM_TOKEN e) -> proxy_msgReceived perform coordinator x msg = Some r -> conserves x (fst r) (snd r).
Proof.
  intros Hm. unfold proxy_msgReceived. destruct (permFail x); [intros [= <-]; by apply conserves_quiet|]. destruct msg; try done.
  - intros [= <-]. by apply conserves_quiet.
  - destruct (a_successor x) eqn:Ek; [done|]. cbn [status set_successor]. destruct (status x) eqn:Es; [intros [= <-]; by apply conserves_quiet|intros [= <-]; by apply conserves_quiet|].
    intros H. apply forward_conserves in H as (H1 & H2 & H3). split; [|split; [exact H2|exact H3]]. unfold here in *. cbn [status set_successor] in H1. done.
  - by destruct (Hm state).
  - destruct (negb _); [intros [= <-]; by apply conserves_quiet|]. destruct (a_successor x); intros [= <-]; by apply conserves_quiet.
  - destruct (negb _); [intros [= <-]; by apply conserves_quiet|]. destruct (status x) eqn:Es; intros [= <-]; by apply conserves_quiet.
Qed.

Lemma access_conserves x op r x' out : protocol_Access coordinator x op = Some (r, x', out) -> conserves x x' out.
Proof.
  unfold protocol_Access. destruct (permFail x); [intros [= _ <- <-]; by apply conserves_quiet|]. destruct (status x) eqn:Es.
  - unfold requestToken. rewrite Es. ored. intros [= _ <- <-]. by apply conserves_quiet.
  - intros [= _ <- <-]. by apply conserves_quiet.
  - intros [= _ <- <-]. by apply conserves_quiet.
Qed.

Lemma collect_conserves x r : clearWeakRoot coordinator x = Some r -> conserves x (fst r) (snd r).
Proof.
  unfold clearWeakRoot. destruct (isWeakRoot x); [|intros [= <-]; by apply conserves_quiet]. destruct (status x) eqn:Es; try (intros [= <-]; by apply conserves_quiet).
  destruct (a_successor x) eqn:Ek; [apply forward_conserves|intros [= <-]; by apply conserves_quiet].
Qed.

Lemma changed_conserves x b : let r := siteStateChanged coordinator x b in conserves x (fst r) (snd r).
Proof.
  unfold siteStateChanged. destruct (permFail x); [by apply conserves_quiet|]. destruct (coordinator =? b); [by apply conserves_quiet|].
  destruct (a_successor x) as [p|]; [destruct (p =? b)|]; by apply conserves_quiet.
Qed.

Lemma notify_tokens (c : list (Z * Z)) (m : Manager) : tokens (snd (notify_chain m c)) = 0%nat.
Proof. revert m. induction c as [|[p r] c IH]; intros m; [done|]. cbn [notify_chain]. specialize (IH (deregisterProxy m p)). destruct (notify_chain _ c) as [m' out]. exact IH. Qed.

Lemma permFail_tokens (m : Manager) : tokens (snd (makePermFail m)) = 0%nat.
Proof. unfold makePermFail. cbn [snd]. induction (a_proxies m) as [|p l IH]; [done|]. exact IH. Qed.

Lemma lost_tokens (m : Manager) : tokens (snd (manager_lostToken m)) = 0%nat.
Proof.
  unfold manager_lostToken. pose proof (notify_tokens (a_chain m) (set_chain m [] None)) as H. destruct (notify_chain _ _) as [m1 out1]. pose proof (permFail_tokens m1) as H'. destruct (makePermFail m1) as [m2 out2].
  cbn [snd] in *. rewrite tokens_app. lia.
Qed.

Lemma inquire_tokens failed (m : Manager) p r : inquire failed m p = Some r -> tokens (snd r) = 0%nat.
Proof.
  unfold inquire. destruct (find p (a_chain m)) as [[[before e] after]|]; [|done]. ored. destruct (last_alive failed before) as [[? ?]|]; [by intros [= <-]|].
  destruct (last_alive failed after) as [[? ?]|]; [by intros [= <-]|]. intros [= <-]. apply lost_tokens.
Qed.

Lemma changed_tokens failed (m : Manager) p r : manager_siteStateChange failed m p = Some r -> tokens (snd r) = 0%nat.
Proof. unfold manager_siteStateChange. destruct (_ && _); [apply inquire_tokens|by intros [= <-]]. Qed.

Lemma manager_conserves failed (m : Manager) x msg a m' x' out : manager_msgReceived coordinator failed m x msg a = Some (m', x', out) -> conserves x x' out.
Proof.
  assert (forall out', tokens out' = 0%nat -> conserves x x out') as Hq by (intros out' ?; by apply conserves_quiet).
  assert (forall r : Manager * list (Z * Envelope), tokens (snd r) = 0%nat -> forall m' x' out, (let '(m, out) := r in (m, x, out)) = (m', x', out) -> conserves x x' out) as Hr.
  { intros [m1 out1] Ho m2 x2 out2 [= <- <- <-]. by apply Hq. }
  unfold manager_msgReceived. destruct msg.
  - destruct (m_permFail m); intros [= <- <- <-]; by apply Hq.
  - intros [= <- <- <-]. by apply Hq.
  - destruct (m_permFail m); [intros [= <- <- <-]; by apply Hq|]. intros [= H]. revert H. apply Hr, lost_tokens.
  - destruct (m_permFail m); [intros [= <- <- <-]; by apply Hq|]. destruct (a_last m) as [l|]; [|done]. ored.
    destruct (a =? l); [intros [= <- <- <-]; by apply Hq|]. destruct (if in_chain a (a_chain m) then _ else _); [|done]. ored. intros [= <- <- <-]. by apply Hq.
  - done.
  - done.
  - destruct (m_permFail m); [|destruct (find a (a_chain m)) as [[[? ?] ?]|]]; intros [= <- <- <-]; by apply Hq.
  - destruct (decide (Some a = a_last m)); [|intros [= <- <- <-]; by apply Hq]. destruct (requestToken coordinator x) as [[h o]|] eqn:Eh; [|done]. ored. intros [= <- <- <-].
    by apply (request_conserves x (h, o)).
  - done.
  - done.
  - destruct (m_permFail m); [intros [= <- <- <-]; by apply Hq|]. destruct (find a (a_chain m)) as [[[before e] after]|]; [|done]. ored.
    destruct after as [|? [|[? ?] ?]]; [done| |]; intros [= <- <- <-]; by apply Hq.
  - destruct (m_permFail m); [intros [= <- <- <-]; by apply Hq|]. intros [= H]. revert H. apply Hr, lost_tokens.
  - destruct (m_permFail m); [intros [= <- <- <-]; by apply Hq|]. destruct (find a (a_chain m)) as [[[before [? r]] after]|]; [|intros [= <- <- <-]; by apply Hq].
    destruct (r =? reqid); [|intros [= <- <- <-]; by apply Hq]. destruct after as [|[front ?] after]; [done|]. destruct (inquire failed _ front) as [res|] eqn:Ei; [|done]. ored.
    intros [= H]. revert H. apply Hr. by apply inquire_tokens in Ei.
  - destruct (m_permFail m); [intros [= <- <- <-]; by apply Hq|]. destruct (find a (a_chain m)) as [[[before [? r]] after]|]; [|intros [= <- <- <-]; by apply Hq].
    destruct (r =? reqid); intros [= <- <- <-]; by apply Hq.
Qed.

(** ** The invariant is kept *)

Lemma exclusive_ext s s' : proxies s' = proxies s -> net s' = net s -> history s' = history s -> exclusive s -> exclusive s'.
Proof. intros Ep En Eh [H1 H2 H3 H4 H5]. split; unfold holds; rewrite ?Ep, ?En, ?Eh; done. Qed.

Lemma holds_insert s a x' b y : (<[a := x']> (proxies s) !! b = Some y /\ status y = MIGT_HERE) -> (b = a /\ y = x' /\ status x' = MIGT_HERE) \/ (b <> a /\ holds s b y).
Proof.
  intros [Hy Hs]. destruct (decide (a = b)) as [->|Hne]; [rewrite lookup_insert_eq in Hy; injection Hy as <-; by left|].
  rewrite lookup_insert_ne in Hy by done. right. split; [done|]. by split.
Qed.

Lemma holds_weight s a x : holds s a x -> weight here (proxies s) a = 1%nat.
Proof. intros [Hx Hs]. rewrite (weight_at _ _ _ x Hx). unfold here. by rewrite Hs. Qed.

Lemma weight_holds s a : (0 < weight here (proxies s) a)%nat -> exists x, holds s a x.
Proof. unfold weight, here. destruct (proxies s !! a) as [x|] eqn:Hx; [|lia]. destruct (status x) eqn:Es; try lia. intros _. exists x. by split. Qed.

Lemma exclusive_total s a : exclusive s -> (tally carries (net s) + weight here (proxies s) a <= 1)%nat.
Proof.
  intros Hex. pose proof (ex_one s Hex) as H1. destruct (decide (0 < weight here (proxies s) a)%nat) as [Hw|Hw]; [|lia].
  destruct (weight_holds s a Hw) as [x Hx]. rewrite (holds_weight s a x Hx). destruct (decide (0 < tally carries (net s))%nat) as [Ht|]; [|lia]. by destruct (ex_away s Hex a x Ht).
Qed.

(** The messages that leave a site carry the tokens of the answers of its handler, or fewer. *)
Definition sends posted out : Prop := (tally carries posted <= tokens out)%nat /\ forall from to env, (from, to, env) ∈ posted -> (to, env) ∈ out.

Lemma sends_nil : sends [] [].
Proof. split; [done|]. by intros from to env ?%elem_of_nil. Qed.

Lemma post_sends s a out : sends (post s a out) out.
Proof.
  unfold post. split.
  - induction out as [|[to env] out IH]; [done|]. rewrite filter_cons. unfold tokens in *. cbn [foldr snd]. destruct (decide _); cbn [map]; [|destruct env as [[]|[]]; cbn; lia].
    unfold tally in *. cbn [foldr]. destruct env as [[]|[]]; cbn [carries b2n]; lia.
  - intros from to env H. apply list_elem_of_In, in_map_iff in H as ([to' env'] & [= <- <- <-] & H). apply list_elem_of_In, list_elem_of_filter in H as [_ H]. done.
Qed.

Lemma exclusive_step s a x' m' n' posted out c' d' hist :
  exclusive s -> (forall y, y ∈ n' -> y ∈ net s) -> sends posted out ->
  (tally carries n' + tokens out + here x' <= tally carries (net s) + weight here (proxies s) a)%nat ->
  (status x' = MIGT_HERE -> entity x' = Some (result hist)) -> (forall to e, (to, ToProxy (MIGM_TOKEN e)) ∈ out -> e = result hist) ->
  hist = history s \/ (tally carries n' = 0%nat /\ forall b y, b <> a -> ~ holds s b y) ->
  exclusive (SY m' (<[a := x']> (proxies s)) (n' ++ posted) c' d' hist).
Proof.
  intros Hex Hn [Hp1 Hp2] Hc Hx Ho Hh. pose proof (exclusive_total s a Hex) as Htot.
  assert (status x' = MIGT_HERE -> here x' = 1%nat) as Hone by (intros Es; unfold here; by rewrite Es).
  assert (forall b y, b <> a -> holds s b y -> tally carries (net s) = 0%nat /\ weight here (proxies s) a = 0%nat) as Hother.
  { intros b y Hne Hb. destruct (decide (0 < tally carries (net s))%nat) as [Ht|]; [by destruct (ex_away s Hex b y Ht)|]. split; [lia|].
    destruct (decide (0 < weight here (proxies s) a)%nat) as [Hw|]; [|lia]. destruct (weight_holds s a Hw) as [z Hz]. destruct Hne. by apply (ex_holder s Hex b a y z). }
  split; cbn [net proxies history]; unfold holds; cbn [proxies].
  - rewrite tally_app. lia.
  - intros b y Ht Hy. rewrite tally_app in Ht. apply holds_insert in Hy as [(-> & -> & Es)|[Hne Hy]].
    + rewrite Hone in Hc by done. lia.
    + destruct (Hother b y Hne Hy). lia.
  - intros b c y z Hy Hz. apply holds_insert in Hy as [(-> & -> & Es)|[Hne Hy]], Hz as [(-> & -> & Es')|[Hne' Hz]]; [done| | |by apply (ex_holder s Hex b c y z)].
    + destruct (Hother c z Hne' Hz). rewrite Hone in Hc by done. lia.
    + destruct (Hother b y Hne Hy). rewrite Hone in Hc by done. lia.
  - intros b y Hy. apply holds_insert in Hy as [(-> & -> & Es)|[Hne Hy]]; [by apply Hx|]. destruct Hh as [->|[_ Hh]]; [by apply (ex_state s Hex b)|by destruct (Hh b y)].
  - intros from to e [Hin|Hin]%elem_of_app.
    + destruct Hh as [->|[Hh _]]; [by apply (ex_token s Hex from to), Hn|]. pose proof (tally_zero _ _ _ Hh Hin) as Hz. done.
    + apply (Ho to), (Hp2 from), Hin.
Qed.

(** Steps of a handler that conserves the token. *)
Lemma exclusive_conserve s a x x' m' n' posted out c' d' : exclusive s -> (forall y, y ∈ n' -> y ∈ net s) -> (tally carries n' <= tally carries (net s))%nat -> proxies s !! a = Some x ->
  conserves x x' out -> sends posted out -> exclusive (SY m' (<[a := x']> (proxies s)) (n' ++ posted) c' d' (history s)).
Proof.
  intros Hex Hn Ht Hx (H1 & H2 & H3) Hs. assert (here x = 1%nat -> entity x = Some (result (history s))) as Hst.
  { intros Hh. apply (ex_state s Hex a). split; [done|]. unfold here in Hh. by destruct (status x). }
  apply (exclusive_step s a x' m' n' posted out); try done.
  - rewrite (weight_at _ _ _ x Hx). lia.
  - intros Es. rewrite H2 by done. apply Hst. unfold here in *. rewrite Es in H1. destruct (status x); lia.
  - intros to e Hin. pose proof (tokens_in _ _ _ Hin). assert (Some e = Some (result (history s))) as He; [|by injection He]. rewrite <- (H3 to e Hin). apply Hst. unfold here in *. destruct (status x); lia.
  - by left.
Qed.

Lemma exclusive_send s (m : Manager) a out : exclusive s -> tokens out = 0%nat -> exclusive (send (set_manager s m) a out).
Proof.
  intros [H1 H2 H3 H4 H5] Ho. destruct (post_sends (set_manager s m) a out) as [Hp1 Hp2]. assert (tally carries (net s ++ post (set_manager s m) a out) = tally carries (net s)) as Et by (rewrite tally_app; lia).
  split; cbn [send set_manager net proxies history]; rewrite ?Et; try done. intros from to e [Hin|Hin]%elem_of_app; [by apply (H5 from to)|]. apply Hp2, tokens_in in Hin. lia.
Qed.

Lemma tally_filter (P : Z * Z * Envelope (E:=E) -> bool) (Q : Z * Z * Envelope (E:=E) -> Prop) `{!forall y, Decision (Q y)} n : (tally P (filter Q n) <= tally P n)%nat.
Proof. induction n as [|y n IH]; [done|]. rewrite filter_cons. unfold tally in *. destruct (decide (Q y)); cbn [foldr]; lia. Qed.

(** What a proxy does with the token. *)
Lemma resume_spec x e x' out : resumeOperations perform coordinator (set_entity (set_status x MIGT_HERE) (Some e)) = Some (x', out) ->
  let e' := foldl (fun e op => perform op e) e (a_susps x) in
  (here x' + tokens out = 1)%nat /\ (status x' = MIGT_HERE -> entity x' = Some e') /\ forall to d, (to, ToProxy (MIGM_TOKEN d)) ∈ out -> d = e'.
Proof.
  unfold resumeOperations. cbn [a_susps isHomeProxy set_entity set_status entity a_successor set_susps]. intros H.
  assert ((match a_successor x with
    | Some _ => forwardToken (set_susps (set_entity (set_entity (set_status x MIGT_HERE) (Some e)) (Some (foldl (fun e op => perform op e) e (a_susps x)))) [])
    | None => Some (set_susps (set_entity (set_entity (set_status x MIGT_HERE) (Some e)) (Some (foldl (fun e op => perform op e) e (a_susps x)))) [], [sendToManager coordinator MIGM_TOKEN_HERE])
    end) = Some (x', out)) as H'.
  { destruct (a_susps x); [destruct (isHomeProxy x); [exact H|done]|exact H]. }
  clear H. destruct (a_successor x) as [p|] eqn:Ek.
  - unfold forwardToken in H'. cbn [status set_susps set_entity set_status a_successor entity] in H'. rewrite Ek in H'. ored in H'. injection H' as <- <-. split; [done|]. split; [done|].
    by intros to d [[= _ ->]|[]%elem_of_nil]%elem_of_cons.
  - injection H' as <- <-. split; [done|]. split; [done|]. by intros to d [[=]|[]%elem_of_nil]%elem_of_cons.
Qed.

Lemma taken_spec a b env n n' : take_first a b n = Some (env, n') -> (forall y, y ∈ n' -> y ∈ n) /\ tally carries n = (b2n (carries (a, b, env)) + tally carries n')%nat.
Proof. intros Ht. split; [intros y; by apply (taken_in _ _ _ _ _ _ Ht)|by apply taken_tally]. Qed.

Lemma operate_exclusive s a op s' : exclusive s -> fire perform coordinator s (Operate a op) = Some s' -> exclusive s'.
Proof.
  intros Hex. cbn [fire]. destruct (proxies s !! a) as [x|] eqn:Hx; [|done]. ored. destruct (protocol_Access coordinator x op) as [[[r x'] out]|] eqn:Ea; [|done]. ored.
  pose proof (access_conserves _ _ _ _ _ Ea) as Hc. assert (r = DSS_PROCEED \/ r <> DSS_PROCEED) as [->|Hr] by (destruct r; auto).
  - assert (status x = MIGT_HERE /\ x' = x /\ out = []) as (Es & -> & ->).
    { unfold protocol_Access in Ea. destruct (permFail x); [done|]. destruct (status x); [|done|by injection Ea as <- <-]. destruct (requestToken coordinator x) as [[? ?]|]; done. }
    assert (holds s a x) as Hh by by split. rewrite (ex_state s Hex a x Hh). ored. intros [= <-]. pose proof (exclusive_total s a Hex) as Ht. rewrite (holds_weight s a x Hh) in Ht.
    match goal with |- exclusive (add_history (set_proxy s a ?y) _) => apply (exclusive_ext (SY (manager s) (<[a := y]> (proxies s)) (net s ++ []) (crashed s) (detected s) (history s ++ [op]))) end; try done;
      [cbn; by rewrite app_nil_r|].
    apply (exclusive_step s a _ _ (net s) [] []); [done|done|apply sends_nil|..].
    + rewrite (holds_weight s a x Hh). unfold here. cbn. rewrite Es. lia.
    + intros _. cbn. by rewrite result_app.
    + by intros to e ?%elem_of_nil.
    + right. split; [lia|]. intros b y Hne Hb. destruct Hne. by apply (ex_holder s Hex b a y x).
  - assert (Some (send (set_proxy s a x') a out) = Some s' -> exclusive s') as H; [|by destruct r].
    intros [= <-]. unfold send, set_proxy. cbn [manager proxies net crashed detected history]. apply (exclusive_conserve s a x x' _ (net s) _ out); try done. apply post_sends.
Qed.

Lemma proxy_exclusive s a b msg n' x s' : exclusive s -> proxies s !! b = Some x -> take_first a b (net s) = Some (ToProxy msg, n') ->
  ('(p', out) ← proxy_msgReceived perform coordinator x msg;
   Some (send (add_history (set_proxy (set_net s n') b p') (match msg with MIGM_TOKEN _ => if permFail x then [] else a_susps x | _ => [] end)) b out)) = Some s' -> exclusive s'.
Proof.
  intros Hex Hx Ht. destruct (taken_spec _ _ _ _ _ Ht) as [Hn Hc]. destruct (proxy_msgReceived perform coordinator x msg) as [[x' out]|] eqn:Er; [|done]. ored. intros [= <-].
  unfold send, add_history, set_proxy, set_net. cbn [manager proxies net crashed detected history].
  match goal with |- exclusive (SY _ _ (_ ++ ?post) _ _ _) => set (posted := post) end. assert (sends posted out) as Hs by apply post_sends. clearbody posted.
  assert (forall m : Message, (forall e, m <> MIGM_TOKEN e) -> m = msg -> exclusive (SY (manager s) (<[b:=x']> (proxies s)) (n' ++ posted) (crashed s) (detected s) (history s))) as Hno.
  { intros m Hm ->. apply (exclusive_conserve s b x x' _ n' posted out); try done; [lia|]. by apply (received_conserves x msg (x', out)). }
  destruct msg; try (rewrite app_nil_r; eapply Hno; [|reflexivity]; done).
  pose proof (ex_token s Hex a b state (taken_head _ _ _ _ _ Ht)) as ->. cbn [carries b2n] in Hc. pose proof (exclusive_total s b Hex) as Htot. cbn [proxy_msgReceived] in Er.
  unfold proxy_msgReceived in Er. destruct (permFail x).
  - injection Er as <- <-. rewrite app_nil_r. apply (exclusive_conserve s b x x _ n' posted []); try done; [lia|]. by apply conserves_quiet.
  - destruct (resume_spec x _ x' out Er) as (R1 & R2 & R3). apply (exclusive_step s b x' _ n' posted out); try done.
    + lia.
    + intros Es. rewrite R2 by done. by rewrite result_app.
    + intros to e Hin. rewrite (R3 to e Hin). by rewrite result_app.
    + right. split; [lia|]. intros c y _ Hy. apply (ex_away s Hex c y); [lia|done].
Qed.

Lemma fire_exclusive s ev s' : exclusive s -> fire perform coordinator s ev = Some s' -> exclusive s'.
Proof.
  intros Hex. destruct ev as [a op|a|a|a|a|a b|a|a b].
  - by apply operate_exclusive.
  - cbn [fire]. destruct (proxies s !! a) as [x|] eqn:Hx; [|done]. ored. destruct (clearWeakRoot coordinator x) as [[x' out]|] eqn:Ec; [|done]. ored. intros [= <-].
    unfold send, set_proxy. cbn [manager proxies net crashed detected history]. apply (exclusive_conserve s a x x' _ (net s) _ out); try done; [by apply (collect_conserves x (x', out))|apply post_sends].
  - cbn [fire]. destruct (proxies s !! a) as [x|] eqn:Hx; [done|]. destruct (decide (a ∈ crashed s)); [done|]. intros [= <-].
    assert (status (m_initRemoteProxy (E:=E) (Op:=Op) coordinator (failed_at s a)) = MIGT_EMPTY) as Hs0 by (unfold m_initRemoteProxy, siteStateChanged; destruct (failed_at s a coordinator); cbn; by rewrite ?Z.eqb_refl).
    apply (exclusive_ext (SY (manager s) (<[a := m_initRemoteProxy coordinator (failed_at s a)]> (proxies s)) (net s ++ []) (crashed s) (detected s) (history s))); try done; [cbn; by rewrite app_nil_r|].
    apply (exclusive_step s a _ _ (net s) [] []); [done|done|apply sends_nil|unfold here; rewrite Hs0; cbn; lia|by rewrite Hs0|by intros to e ?%elem_of_nil|by left].
  - cbn [fire]. destruct (proxies s !! a) as [x|] eqn:Hx; [|done]. ored. destruct (protocol_Register coordinator x) as [x' out] eqn:Er. intros [= <-].
    unfold send, set_proxy. cbn [manager proxies net crashed detected history]. apply (exclusive_conserve s a x x' _ (net s) _ out); try done; [|apply post_sends].
    unfold protocol_Register in Er. destruct (registered x); injection Er as <- <-; by apply conserves_quiet.
  - cbn [fire]. destruct (proxies s !! a) as [x|] eqn:Hx; [|done]. ored. intros [= <-]. apply (exclusive_send s (manager s)) with (a := a) (out := protocol_Kill coordinator x) in Hex; [done|].
    unfold protocol_Kill. by destruct (permFail x).
  - cbn [fire]. destruct (proxies s !! b) as [x|] eqn:Hx; [|done]. ored. destruct (take_first a b (net s)) as [[env n']|] eqn:Ht; [|done]. ored. destruct env as [msg|msg].
    + destruct (b =? coordinator); [|done]. cbn [set_net manager]. destruct (manager_msgReceived _ _ _ _ _ _) as [[[m' x'] out]|] eqn:Em; [|done]. ored. intros [= <-].
      unfold send, set_manager, set_proxy, set_net. cbn [manager proxies net crashed detected history]. destruct (taken_spec _ _ _ _ _ Ht) as [Hn Hc].
      apply (exclusive_conserve s b x x' _ n' _ out); try done; [lia|by eapply manager_conserves|apply post_sends].
    + by apply (proxy_exclusive s a b msg n' x).
  - cbn [fire]. intros [= <-]. destruct Hex as [H1 H2 H3 H4 H5]. assert (forall b y, delete a (proxies s) !! b = Some y -> proxies s !! b = Some y) as Hd by (intros b y Hy; by apply lookup_delete_Some in Hy as [_ Hy]).
    split; cbn [net proxies history]; try done; unfold holds; cbn [proxies].
    + intros b y Ht [Hy Hs]. apply (H2 b y Ht). split; [by apply Hd|done].
    + intros b c y z [Hy Hs] [Hz Hs']. apply (H3 b c y z); by split; [apply Hd|].
    + intros b y [Hy Hs]. apply (H4 b). by split; [apply Hd|].
  - cbn [fire]. destruct (proxies s !! a) as [x|] eqn:Hx; [|done]. ored. destruct (decide (b ∈ crashed s /\ (a, b) ∉ detected s)); [|done].
    match goal with |- context[siteStateChanged _ x b] => pose proof (changed_conserves x b) as Hc end. destruct (siteStateChanged coordinator x b) as [x' out]. cbn [fst snd] in Hc.
    match goal with |- context[send (set_proxy ?s0 a x') a out] => assert (exclusive (send (set_proxy s0 a x') a out)) as Hs1 end.
    { unfold send, set_proxy. cbn [manager proxies net crashed detected history]. apply (exclusive_conserve s a x x' _ _ _ out); try done; [|apply tally_filter|apply post_sends].
      intros y Hy. by apply list_elem_of_filter in Hy as [_ Hy]. }
    destruct (a =? coordinator); [|by intros [= <-]]. destruct (manager_siteStateChange _ _ b) as [[m' out']|] eqn:Em; [|done]. ored. intros [= <-]. apply exclusive_send; [done|]. by apply changed_tokens in Em.
Qed.

Lemma run_exclusive s l s' : exclusive s -> run perform coordinator s l = Some s' -> exclusive s'.
Proof.
  revert s. induction l as [|ev l IH]; intros s Hex; cbn [run]; [by intros [= <-]|]. destruct (fire perform coordinator s ev) as [s1|] eqn:Ef; [|done]. ored. apply IH. by apply (fire_exclusive s ev).
Qed.

Lemma init_exclusive : exclusive (init coordinator e0).
Proof.
  split; cbn [init net proxies history]; unfold holds; cbn [init proxies]; try done.
  - unfold tally. cbn. lia.
  - unfold tally. cbn. lia.
  - intros a b x y [Hx _] [Hy _]. apply lookup_singleton_Some in Hx as [<- _], Hy as [<- _]. done.
  - intros a x [Hx _]. by apply lookup_singleton_Some in Hx as [<- <-].
  - by intros a b e ?%elem_of_nil.
Qed.
End safety.
End MigratorySafety.
