(* ===== verification/MigratoryTheorems.v ===== *)
(** * The migratory protocol: the properties of the component *)
From stdpp Require Import gmap relations.
From S2P Require Import Prelude Migratory MigratorySpec MigratorySteps MigratoryChain MigratoryEvents MigratorySafety.
Import Migratory MigratorySpec MigratorySteps MigratoryChain MigratoryEvents MigratorySafety MigratoryLiveness.

Section properties.
Context {E Op : Type} (perform : Op -> E -> E) (coordinator : Z).
Implicit Types (s : System (E:=E) (Op:=Op)) (l : list (Event (Op:=Op))).

Lemma run_advances s q l s' : inv coordinator s q -> chain_inv coordinator s q -> Forall (fun ev => regular ev = true) l -> run perform coordinator s l = Some s' ->
  exists q', inv coordinator s' q' /\ chain_inv coordinator s' q' /\ rtc lock_step (lock_of s q) (lock_of s' q').
Proof.
  revert s q. induction l as [|ev l IH]; intros s q Hi Hc Hr; cbn [run]; [intros [= <-]; exists q; split_and!; [done|done|apply rtc_refl]|].
  apply Forall_cons in Hr as [Hev Hr]. destruct (fire perform coordinator s ev) as [s1|] eqn:Ef; [|done]. ored. intros Hrun.
  destruct (fire_advances perform coordinator s q ev s1 Hi Hc Hev Ef) as (q1 & Hi1 & Hc1 & Hs1). destruct (IH s1 q1 Hi1 Hc1 Hr Hrun) as (q2 & Hi2 & Hc2 & Hs2).
  exists q2. split; [done|]. split; [done|]. by apply (rtc_l _ _ (lock_of s1 q1)).
Qed.

Lemma run_reaches e l s : Forall (fun ev => regular ev = true) l -> run perform coordinator (init coordinator e) l = Some s ->
  exists q, inv coordinator s q /\ chain_inv coordinator s q /\ rtc lock_step (lock_of (init coordinator e : System (E:=E) (Op:=Op)) [coordinator]) (lock_of s q).
Proof. intros Hr Hrun. apply (run_advances (init coordinator e) [coordinator] l s); [apply init_inv|apply init_chain|done|done]. Qed.

(** C6: At most one site has the token of a migratory entity, or one message carries it, and then no
    site has it.  The state that goes with the token is the result of all operations
    performed so far, one after the other.  This holds after any events: threads, garbage
    collection, messages in any order between different sites, crashes, kills and failure reports. *)
Theorem migratory_exclusive e l s : run perform coordinator (init coordinator e) l = Some s -> exclusive perform e s.
Proof. apply run_exclusive, init_exclusive. Qed.

(** C7: While nothing fails, the protocol is a fair lock.  There is a queue whose head has the token or
    is about to get it; sites enter at the end when the manager gets their request and the head leaves
    when it passes the token on.  The proxies, the messages and the manager's chain represent
    the queue: the chain is the queue after some earlier owners, no site is twice in it, its
    last site is the one the manager remembers, and the request numbers tell owners to be from
    earlier ones. *)
Theorem migratory_fair e l s : Forall (fun ev => regular ev = true) l -> run perform coordinator (init coordinator e) l = Some s ->
  exists q, inv coordinator s q /\ chain_inv coordinator s q /\ rtc lock_step (lock_of (init coordinator e : System (E:=E) (Op:=Op)) [coordinator]) (lock_of s q).
Proof. apply run_reaches. Qed.

(** C8: While nothing fails, every message that comes to the front of its connection is handled: no
    assertion of a handler fails, except that the home proxy may be found waiting or in possession
    when the manager requests the token on behalf of a proxy that wants to be rid of it. *)
Theorem migratory_handles e l s a b env n' : Forall (fun ev => regular ev = true) l -> run perform coordinator (init coordinator e) l = Some s -> take_first a b (net s) = Some (env, n') ->
  assertion_fails coordinator s a b \/ exists s', fire perform coordinator s (Deliver a b) = Some s'.
Proof.
  intros Hr Hrun Ht. destruct (run_reaches e l s Hr Hrun) as (q & Hi & Hc & _).
  destruct (deliver_settles perform coordinator s q Hi Hc a b env n' Ht) as [[Ha _]|(s' & Es & _)]; [by left|right; by exists s'].
Qed.

(** C9: While nothing fails, every request is served.  From any state that threads, the garbage
    collector and messages lead to, only a bounded number of deliveries follow, in whatever order;
    deliveries can always go on until none is possible; and where none is possible, which includes that
    the only messages left are such as fail the assertion of C8, one proxy has the token, the
    manager knows which, no other proxy waits for it, no thread at any site is suspended, and the
    operations that were suspended have been performed, each once. *)
Theorem migratory_serves e l s : Forall (fun ev => regular ev = true) l -> run perform coordinator (init coordinator e) l = Some s ->
  exists bound, forall ds s', Forall (fun ev => delivery ev = true) ds -> run perform coordinator s ds = Some s' ->
    (length ds <= bound)%nat /\
    (at_rest perform coordinator s' -> settled s' /\ history s' ≡ₚ history s ++ waiting (proxies s)) /\
    exists ds' s'', Forall (fun ev => delivery ev = true) ds' /\ run perform coordinator s' ds' = Some s'' /\ at_rest perform coordinator s''.
Proof.
  intros Hr Hrun. destruct (run_reaches e l s Hr Hrun) as (q & Hi & Hc & _). exists (potential s q). intros ds s' Hd Hrun'.
  destruct (run_potential perform coordinator s q ds s' Hi Hc Hd Hrun') as (q' & Hi' & Hc' & Hp & Hw). split; [lia|]. split; [|by apply (rest_reachable perform coordinator s' q')].
  intros Hrest. pose proof (rest_settled perform coordinator s' q' Hi' Hc' Hrest) as Hs. split; [done|]. rewrite <- Hw, waiting_empty, app_nil_r; [done|].
  destruct Hs as (a & _ & _ & Ha). intros b x Hx. by apply (Ha b x).
Qed.
End properties.

(** ** Runs of a log: every operation appends to it *)

Definition append (op : Z) (e : list Z) : list Z := e ++ [op].
Definition log_run (l : list (Event (Op:=Z))) : option (System (E:=list Z) (Op:=Z)) := run append 0 (init 0 []) l.

(** Sites 1, 2 and 3 queue up for the token; site 1 passes it to site 2 and crashes, the home site
    notices and asks site 3. *)
Definition false_alarm : list (Event (Op:=Z)) :=
  [Create 1; Create 2; Create 3; Operate 1 11; Deliver 1 0; Deliver 0 0; Deliver 0 1; Deliver 1 0; Operate 2 22; Deliver 2 0; Deliver 0 1;
   Operate 3 33; Deliver 3 0; Deliver 1 2; Crash 1; Detect 0 1; Deliver 0 3; Deliver 3 0].

(** An example of the search for the token after a crash: it asks the last site of the chain instead of
    the one next to the crashed site.  Site 2 has the token and the manager gives up the entity. *)
Theorem token_declared_lost : exists s x, log_run false_alarm = Some s /\
  m_permFail (manager s) = true /\ proxies s !! 2 = Some x /\ status x = MIGT_HERE /\ permFail x = false /\ entity x = Some [11; 22] /\
  (0, 2, ToProxy PROT_PERMFAIL) ∈ net s.
Proof.
  destruct (log_run false_alarm) as [s|] eqn:Es; [|vm_compute in Es; discriminate]. vm_compute in Es. injection Es as <-.
  eexists _, _. split; [reflexivity|]. split; [reflexivity|]. split; [reflexivity|]. repeat (split; [reflexivity|]). cbn. repeat (apply elem_of_cons; first [by left|right]).
Qed.

(** Site 1 has the token and wants to be rid of it while a thread at home asks for it. *)
Definition busy_home : list (Event (Op:=Z)) :=
  [Create 1; Operate 1 11; Deliver 1 0; Deliver 0 0; Deliver 0 1; Deliver 1 0; Collect 1; Operate 0 44].

(** The assertion that the home proxy is idle does fail: the request of the garbage collector at
    another site can arrive while the request of the home proxy itself is still under way. *)
Theorem home_assertion_fails : exists s, Forall (fun ev => regular ev = true) busy_home /\ log_run busy_home = Some s /\ assertion_fails 0 s 1 0.
Proof.
  destruct (log_run busy_home) as [s|] eqn:Es; [|vm_compute in Es; discriminate]. exists s. split; [by repeat constructor|]. split; [done|].
  vm_compute in Es. injection Es as <-. eexists _, _. split; [reflexivity|]. split; [reflexivity|]. split; [reflexivity|done].
Qed.

(** ** Witnesses *)

(** Two sites use the token in turn. *)
Definition turns : list (Event (Op:=Z)) := [Create 1; Create 2; Operate 1 11; Operate 2 22; Deliver 1 0; Deliver 2 0; Deliver 0 0; Deliver 0 1].

Lemma migratory_exclusive_witness : exists s, log_run false_alarm = Some s /\ exclusive append [] s.
Proof.
  destruct (log_run false_alarm) as [s|] eqn:Es; [|vm_compute in Es; discriminate]. exists s. split; [reflexivity|].
  exact (migratory_exclusive append 0 [] false_alarm s Es).
Defined.

Lemma turns_regular : Forall (fun ev : Event (Op:=Z) => regular ev = true) turns.
Proof. by repeat constructor. Qed.

Lemma migratory_fair_witness : exists s q, log_run turns = Some s /\ inv 0 s q /\ chain_inv 0 s q.
Proof.
  destruct (log_run turns) as [s|] eqn:Es; [|vm_compute in Es; discriminate].
  destruct (migratory_fair append 0 [] turns s turns_regular Es) as (q & Hi & Hc & _). exists s, q. split; [reflexivity|]. split; [exact Hi|exact Hc].
Defined.

Lemma migratory_handles_witness : exists s, log_run turns = Some s /\ (assertion_fails 0 s 0 1 \/ exists s', fire append 0 s (Deliver 0 1) = Some s').
Proof.
  destruct (log_run turns) as [s|] eqn:Es; [|vm_compute in Es; discriminate]. exists s. split; [reflexivity|]. pose proof Es as Es'. vm_compute in Es'. injection Es' as Es'.
  refine (migratory_handles append 0 [] turns s 0 1 _ _ turns_regular Es _). rewrite <- Es'. vm_compute. reflexivity.
Defined.

(** The threads of both sites are served. *)
Lemma migratory_serves_witness : exists s ds s', log_run turns = Some s /\ run append 0 s ds = Some s' /\ settled s' /\ history s' ≡ₚ history s ++ waiting (proxies s).
Proof.
  destruct (log_run turns) as [s|] eqn:Es; [|vm_compute in Es; discriminate].
  destruct (migratory_serves append 0 [] turns s turns_regular Es) as [bound H].
  destruct (H [] s (Forall_nil_2 _) eq_refl) as (_ & _ & ds & s' & Hd & Hrun & Hrest). exists s, ds, s'. split; [reflexivity|]. split; [exact Hrun|].
  exact (proj1 (proj2 (H ds s' Hd Hrun)) Hrest).
Defined.
