(* ===== verification/Propagators.v ===== *)
(** * Constraint propagators ([libfd], [mozart_cpi.hh], [cpi_fd.cc])

    The parameters and outcomes of a propagator and the store it works on, then the propagators of
    relations, of truth values and of arithmetic, and the virtual function that runs one. *)
From stdpp Require Import gmap.
From S2P Require Import Prelude Word32 FDBase FDIntervals FDBitVector FiniteDomain.

(** * Constraint propagators: parameters, outcomes, the store they work on
    ([mozart_cpi.hh], [cpi_fd.cc], [fdaux.hh], [std.hh])

    A propagator reads the domains of its parameters, narrows them and says whether it has
    failed, is entailed, is to be run again or is replaced.  A local variable is read as a
    reference to its domain, so two parameters that are the same variable share one domain; the
    store maps a parameter to the domain that is read for it.

    The integer registers hold small integers of Oz, of 28 bits, and elements of domains are below
    [2 ^ 27], so sums of the two do not leave the range of [int]; products may, and are cut off or wrap
    around as the code has it. *)

Import FiniteDomain.

Module PropBase.

(** A parameter: a variable or a small integer. *)
Inductive Term := Var (v : Z) | SmallInt (n : Z).

#[export] Instance Term_eq_dec : EqDecision Term.
Proof. solve_decision. Defined.
#[export] Instance Term_countable : Countable Term.
Proof.
  refine (inj_countable' (fun t => match t with Var v => inl v | SmallInt n => inr n end) (fun x => match x with inl v => Var v | inr n => SmallInt n end) _).
  by intros [].
Defined.

(** The propagators of [rel.hh], [bool.hh] and [arith.hh] with their registers. *)
Inductive Propagator :=
  | NotEqOff (x y : Term) (c : Z) | LessEqOff (x y : Term) (c : Z)
  | Minimum (x y z : Term) | Maximum (x y z : Term) | Intersection (x y z : Term) | Union (x y z : Term) | SubSet (x y : Term)
  | Distinct (l : list Term) | DistinctOffset (l : list (Term * Z))
  | Conjunction (x y z : Term) | Disjunction (x y z : Term) | XDisjunction (x y z : Term) | Implication (x y z : Term) | Equivalence (x y z : Term)
  | Negation (x y : Term)
  | Twice (x y : Term) | Square (x y : Term) | Plus (x y z : Term) | Times (x y z : Term)
  | DivD (x : Term) (y : Z) (z : Term) | DivI (x : Term) (y : Z) (z : Term) | ModD (x : Term) (y : Z) (z : Term) | ModI (x : Term) (y : Z) (z : Term)
  | TwiceD (x y : Term) | SquareD (x y : Term) | PlusD (x y z : Term) | TimesD (x y z : Term).

Section base.
Context `{FDEnv}.

(** What [propagate] returns: [FAILED], [PROCEED] for a propagator that is entailed, [SLEEP] with
    the registers it keeps, or the unification it is replaced by. *)
Inductive Outcome := FAILED | PROCEED (s : gmap Term FiniteDomain) | SLEEP (s : gmap Term FiniteDomain) (p : Propagator) | UNIFY (s : gmap Term FiniteDomain) (a b : Term).

(** [OZ_FDIntVar::read]: an integer is read into a domain of its own. *)
Definition read (s : gmap Term FiniteDomain) (t : Term) : option (gmap Term FiniteDomain) :=
  match t with
  | Var _ => _ ← s !! t; Some s
  | SmallInt n => Some (<[t := initSingleton n]> s)
  end.
Fixpoint reads (s : gmap Term FiniteDomain) (l : list Term) : option (gmap Term FiniteDomain) :=
  match l with [] => Some s | t :: l => s ← read s t; reads s l end.

Definition OZ_isEqualVars (a b : Term) : bool :=
  match a, b with Var v, Var w => v =? w | _, _ => false end.

(** [OZ_hasEqualVars]: some variable occurs twice. *)
Fixpoint OZ_hasEqualVars (l : list Term) : bool :=
  match l with [] => false | t :: l => existsb (OZ_isEqualVars t) l || OZ_hasEqualVars l end.

(** [OZ_findEqualVars] for one parameter: the first position of its variable, [-1] for an integer. *)
Fixpoint first_equal (t : Term) (l : list Term) (i : Z) : Z :=
  match l with [] => -1 | u :: l => if OZ_isEqualVars t u then i else first_equal t l (i + 1) end.
Definition OZ_findEqualVars (l : list Term) : list Z := map (fun t => first_equal t l 0) l.

(** [OZ_FDIntVar::leave]: a parameter that still is a variable. *)
Definition undetermined (s : gmap Term FiniteDomain) (t : Term) : bool :=
  match t, s !! t with Var _, Some d => negb (size d =? 1) | _, _ => false end.

(** [PropagatorController::leave] with the registers the propagator keeps. *)
Definition leave (s : gmap Term FiniteDomain) (l : list Term) (p : Propagator) : option Outcome :=
  Some (if existsb (undetermined s) l then SLEEP s p else PROCEED s).

Definition vanish (s : gmap Term FiniteDomain) : option Outcome := Some (PROCEED s).

(** [FailOnEmpty( *t op ... )] and what follows it. *)
Definition FailOnEmpty (s : gmap Term FiniteDomain) (t : Term) (op : FiniteDomain -> option FiniteDomain) (k : gmap Term FiniteDomain -> option Outcome) : option Outcome :=
  d ← s !! t;
  d ← op d;
  if size d =? 0 then Some FAILED else k (<[t := d]> s).

Definition le (b : Z) (d : FiniteDomain) : option FiniteDomain := op_le d b.
Definition ge (b : Z) (d : FiniteDomain) : option FiniteDomain := op_ge d b.
Definition eqc (b : Z) (d : FiniteDomain) : option FiniteDomain := op_and_int d b.
Definition nec (b : Z) (d : FiniteDomain) : option FiniteDomain := op_minus_int d b.
Definition inter (e d : FiniteDomain) : option FiniteDomain := op_and_eq d e.
Definition without (e d : FiniteDomain) : option FiniteDomain := op_minus d e.

(** [*t == fd_singl] *)
Definition singl (d : FiniteDomain) : bool := size d =? 1.

(** [FiniteDomainIterator]: the elements that [resetToMin] and [nextLarger] go through. *)
Fixpoint visit (d : FiniteDomain) (n : nat) (current : Z) : option (list Z) :=
  if current =? -1 then Some []
  else
    match n with
    | O => Some [current]
    | S n => next ← nextLargerElem d current; l ← visit d n next; Some (current :: l)
    end.
Definition elements (d : FiniteDomain) : option (list Z) := visit d (Z.to_nat (size d - 1)) (min_elem d).

(** The rounding of [fdaux.hh] and [auxcomp.hh].  The [double]s of the code hold integers below
    [2^53] and quotients of such integers, whose rounding does not reach the next integer; [ceil] and
    [floor] of them are those of the exact quotients. *)
Definition INT_MAX : Z := 2147483647.
Definition truncToIntMax (d : Z) : Z := Z.min INT_MAX d.
Definition square (a : Z) : Z := truncToIntMax (a * a).
Definition ceil_div (a b : Z) : Z := - ((- a) / b).

(** The fuel of a loop that narrows a parameter in every round. *)
Definition budget (s : gmap Term FiniteDomain) (l : list Term) : nat :=
  foldr (fun t n => (match s !! t with Some d => Z.to_nat (size d) | None => 0 end + n)%nat) 1%nat l.

End base.

Notation "'FAIL' s ← t | op 'IN' k" := (FailOnEmpty s t op (fun s => k))
  (at level 10, s name, t at level 99, op at level 99, k at level 200, only parsing).
End PropBase.

(** * Propagators of relations ([rel.cc]) *)

Import FiniteDomain PropBase.

Module RelPropagators.
Section rel.
Context `{FDEnv}.
Implicit Types (s : gmap Term FiniteDomain) (x y z t : Term) (mayBeEqualVars : bool).

Definition propagate_NotEqOff mayBeEqualVars s x y (c : Z) : option Outcome :=
  if mayBeEqualVars && OZ_isEqualVars x y then if 0 =? c then Some FAILED else Some (PROCEED s)
  else
    s ← reads s [x; y];
    dx ← s !! x; dy ← s !! y;
    if singl dx then FAIL s ← y | nec (getSingleElem dx - c) IN vanish s
    else if singl dy then FAIL s ← x | nec (getSingleElem dy + c) IN vanish s
    else if (max_elem dx <? min_elem dy + c) || (max_elem dy <? min_elem dx - c) then vanish s
    else leave s [x; y] (NotEqOff x y c).

Definition propagate_LessEqOff mayBeEqualVars s x y (c : Z) : option Outcome :=
  if mayBeEqualVars && OZ_isEqualVars x y then if 0 <=? c then Some (PROCEED s) else Some FAILED
  else
    s ← reads s [x; y];
    dy ← s !! y;
    FAIL s ← x | le (max_elem dy + c) IN
    dx ← s !! x;
    FAIL s ← y | ge (min_elem dx - c) IN
    dx ← s !! x; dy ← s !! y;
    if max_elem dx <=? min_elem dy + c then vanish s
    else if max_elem dy + c <? min_elem dx then Some FAILED
    else leave s [x; y] (LessEqOff x y c).

Definition propagate_SubSet s x y : option Outcome :=
  s ← reads s [x; y];
  if OZ_isEqualVars x y then vanish s
  else dy ← s !! y; FAIL s ← x | inter dy IN leave s [x; y] (SubSet x y).

Definition propagate_Minimum mayBeEqualVars s x y z : option Outcome :=
  if mayBeEqualVars && OZ_isEqualVars x y then Some (UNIFY s x z)
  else if mayBeEqualVars && OZ_isEqualVars x z then propagate_LessEqOff mayBeEqualVars s x y 0
  else if mayBeEqualVars && OZ_isEqualVars y z then propagate_LessEqOff mayBeEqualVars s y x 0
  else
    s ← reads s [x; y; z];
    dx ← s !! x; dy ← s !! y;
    let lower_min := Z.min (min_elem dx) (min_elem dy) in
    let upper_min := Z.min (max_elem dx) (max_elem dy) in
    FAIL s ← z | ge lower_min IN
    FAIL s ← z | le upper_min IN
    dz ← s !! z;
    FAIL s ← x | ge (min_elem dz) IN
    dz ← s !! z;
    FAIL s ← y | ge (min_elem dz) IN
    leave s [x; y; z] (Minimum x y z).

Definition propagate_Maximum mayBeEqualVars s x y z : option Outcome :=
  if mayBeEqualVars && OZ_isEqualVars x y then Some (UNIFY s x z)
  else if mayBeEqualVars && OZ_isEqualVars x z then propagate_LessEqOff mayBeEqualVars s y x 0
  else if mayBeEqualVars && OZ_isEqualVars y z then propagate_LessEqOff mayBeEqualVars s x y 0
  else
    s ← reads s [x; y; z];
    dx ← s !! x; dy ← s !! y;
    let lower_max := Z.max (min_elem dx) (min_elem dy) in
    let upper_max := Z.max (max_elem dx) (max_elem dy) in
    FAIL s ← z | ge lower_max IN
    FAIL s ← z | le upper_max IN
    dz ← s !! z;
    FAIL s ← x | le (max_elem dz) IN
    dz ← s !! z;
    FAIL s ← y | le (max_elem dz) IN
    leave s [x; y; z] (Maximum x y z).

Definition propagate_Intersection mayBeEqualVars s x y z : option Outcome :=
  if mayBeEqualVars && OZ_isEqualVars x y then propagate_SubSet s z x
  else if mayBeEqualVars && OZ_isEqualVars x z then propagate_SubSet s x y
  else if mayBeEqualVars && OZ_isEqualVars y z then propagate_SubSet s y x
  else
    s ← reads s [x; y; z];
    dx ← s !! x; dy ← s !! y;
    d ← op_and dx dy;
    FAIL s ← z | inter d IN
    leave s [x; y; z] (Intersection x y z).

Definition propagate_Union mayBeEqualVars s x y z : option Outcome :=
  if mayBeEqualVars && OZ_isEqualVars x y then propagate_SubSet s z x
  else if mayBeEqualVars && (OZ_isEqualVars x z || OZ_isEqualVars y z) then Some (PROCEED s)
  else
    s ← reads s [x; y; z];
    dx ← s !! x; dy ← s !! y;
    d ← op_or dx dy;
    FAIL s ← z | inter d IN
    leave s [x; y; z] (Union x y z).

(** ** Distinct *)

(** The values of the determined parameters; the outer option is undefined behaviour, the inner one failure. *)
Fixpoint determined_values s (l : list Term) (u : FiniteDomain) : option (option FiniteDomain) :=
  match l with
  | [] => Some (Some u)
  | t :: l =>
      d ← s !! t;
      if singl d then
        found ← isIn u (getSingleElem d);
        if (found : bool) then Some None else u ← op_plus_int u (getSingleElem d); determined_values s l u
      else determined_values s l u
  end.

(** One pass over the parameters; [again] is [goto loop]. *)
Fixpoint distinct_pass (l : list Term) (u : FiniteDomain) s (again : FiniteDomain -> gmap Term FiniteDomain -> option Outcome) (done : gmap Term FiniteDomain -> option Outcome) : option Outcome :=
  match l with
  | [] => done s
  | t :: l =>
      d ← s !! t;
      if singl d then distinct_pass l u s again done
      else
        FAIL s ← t | without u IN
        d ← s !! t;
        if singl d then u ← op_plus_int u (getSingleElem d); again u s
        else distinct_pass l u s again done
  end.

Fixpoint distinct_loop (fuel : nat) (l : list Term) (u : FiniteDomain) s (done : gmap Term FiniteDomain -> option Outcome) : option Outcome :=
  match fuel with
  | O => None
  | S fuel => distinct_pass l u s (fun u s => distinct_loop fuel l u s done) done
  end.

(** The registers that are kept: those of the undetermined parameters. *)
Definition not_singl s t : bool := match s !! t with Some d => negb (singl d) | None => true end.

Definition propagate_Distinct mayBeEqualVars s (l : list Term) : option Outcome :=
  if zlen l <? 2 then Some (PROCEED s)
  else
    s ← reads s (rev l);
    if mayBeEqualVars && OZ_hasEqualVars l then Some FAILED
    else
      u ← determined_values s (rev l) initEmpty;
      match u with
      | None => Some FAILED
      | Some u =>
          distinct_loop (S (length l)) (rev l) u s (fun s => leave s (rev l) (Distinct (List.filter (not_singl s) l)))
      end.

(** Two registers that are the same variable with the same offset; an equal variable is looked for at its first position only. *)
Fixpoint equal_offsets (offsets eq_vars offset : list Z) (i : Z) : option bool :=
  match eq_vars, offset with
  | e :: eq_vars, o :: offset =>
      b ← (if (-1 <? e) && negb (i =? e) then o' ← offsets.[e]; Some (o =? o') else Some false);
      if (b : bool) then Some true else equal_offsets offsets eq_vars offset (i + 1)
  | _, _ => Some false
  end.

(** The inner loop for the determined parameter at [i] whose value and offset add up to [v]. *)
Fixpoint offset_inner (l : list (nat * (Term * Z))) (i : nat) (v : Z) s (again done : gmap Term FiniteDomain -> option Outcome) : option Outcome :=
  match l with
  | [] => done s
  | (j, (t, o)) :: l =>
      if Nat.eqb i j then offset_inner l i v s again done
      else
        d ← s !! t;
        if negb (singl d) then
          let tmp := v - o in
          if 0 <=? tmp then
            FAIL s ← t | nec tmp IN
            d ← s !! t;
            if singl d then again s else offset_inner l i v s again done
          else offset_inner l i v s again done
        else if v =? getSingleElem d + o then Some FAILED
        else offset_inner l i v s again done
  end.

Fixpoint offset_outer (l all : list (nat * (Term * Z))) s (again done : gmap Term FiniteDomain -> option Outcome) : option Outcome :=
  match l with
  | [] => done s
  | (i, (t, o)) :: l =>
      d ← s !! t;
      if singl d then offset_inner all i (o + getSingleElem d) s again (fun s => offset_outer l all s again done)
      else offset_outer l all s again done
  end.

Fixpoint offset_loop (fuel : nat) (all : list (nat * (Term * Z))) s (done : gmap Term FiniteDomain -> option Outcome) : option Outcome :=
  match fuel with
  | O => None
  | S fuel => offset_outer all all s (fun s => offset_loop fuel all s done) done
  end.

Definition propagate_DistinctOffset mayBeEqualVars s (l : list (Term * Z)) : option Outcome :=
  if zlen l =? 0 then Some (PROCEED s)
  else
    clash ← (if (mayBeEqualVars : bool) then equal_offsets (l.*2) (OZ_findEqualVars (l.*1)) (l.*2) 0 else Some false);
    if (clash : bool) then Some FAILED
    else
      s ← reads s (rev (l.*1));
      offset_loop (S (length l)) (rev (imap pair l)) s
        (fun s => leave s (rev (l.*1)) (DistinctOffset (List.filter (fun p => not_singl s p.1) l))).
End rel.
End RelPropagators.

(** * Propagators of truth values ([bool.cc]) *)

Import FiniteDomain PropBase.

Module BoolPropagators.
Section bool.
Context `{FDEnv}.
Implicit Types (s : gmap Term FiniteDomain) (x y z : Term).

Definition propagate_Negation s x y : option Outcome :=
  s ← reads s [x; y];
  dx ← s !! x; dy ← s !! y;
  if singl dx then FAIL s ← y | eqc (1 - getSingleElem dx) IN vanish s
  else if singl dy then FAIL s ← x | eqc (1 - getSingleElem dy) IN vanish s
  else if OZ_isEqualVars x y then Some FAILED
  else leave s [x; y] (Negation x y).

Definition propagate_Conjunction s x y z : option Outcome :=
  s ← reads s [x; y; z];
  dx ← s !! x; dy ← s !! y; dz ← s !! z;
  if singl dx then
    if getSingleElem dx =? 0 then FAIL s ← z | eqc 0 IN vanish s else Some (UNIFY s y z)
  else if singl dy then
    if getSingleElem dy =? 0 then FAIL s ← z | eqc 0 IN vanish s else Some (UNIFY s x z)
  else if singl dz && (getSingleElem dz =? 1) then
    FAIL s ← x | eqc 1 IN FAIL s ← y | eqc 1 IN vanish s
  else if OZ_isEqualVars x y then Some (UNIFY s x z)
  else leave s [x; y; z] (Conjunction x y z).

Definition propagate_Disjunction s x y z : option Outcome :=
  s ← reads s [x; y; z];
  dx ← s !! x; dy ← s !! y; dz ← s !! z;
  if singl dx then
    if getSingleElem dx =? 1 then FAIL s ← z | eqc 1 IN vanish s else Some (UNIFY s y z)
  else if singl dy then
    if getSingleElem dy =? 1 then FAIL s ← z | eqc 1 IN vanish s else Some (UNIFY s x z)
  else if singl dz && (getSingleElem dz =? 0) then
    FAIL s ← x | eqc 0 IN FAIL s ← y | eqc 0 IN vanish s
  else if OZ_isEqualVars x y then Some (UNIFY s x z)
  else leave s [x; y; z] (Disjunction x y z).

Definition propagate_XDisjunction s x y z : option Outcome :=
  s ← reads s [x; y; z];
  dx ← s !! x; dy ← s !! y; dz ← s !! z;
  if singl dx && singl dy then
    FAIL s ← z | eqc (if getSingleElem dx =? getSingleElem dy then 0 else 1) IN vanish s
  else if singl dz then
    if getSingleElem dz =? 1 then propagate_Negation s x y else Some (UNIFY s x y)
  else if OZ_isEqualVars x y then FAIL s ← z | eqc 0 IN vanish s
  else if OZ_isEqualVars x z then FAIL s ← y | eqc 0 IN vanish s
  else if OZ_isEqualVars y z then FAIL s ← x | eqc 0 IN vanish s
  else leave s [x; y; z] (XDisjunction x y z).

Definition propagate_Implication s x y z : option Outcome :=
  s ← reads s [x; y; z];
  dx ← s !! x; dy ← s !! y; dz ← s !! z;
  if singl dx then
    if getSingleElem dx =? 0 then FAIL s ← z | eqc 1 IN vanish s else Some (UNIFY s y z)
  else if singl dy then
    if getSingleElem dy =? 1 then FAIL s ← z | eqc 1 IN vanish s else propagate_Negation s x z
  else if singl dz && (getSingleElem dz =? 0) then
    FAIL s ← x | eqc 1 IN FAIL s ← y | eqc 0 IN vanish s
  else if OZ_isEqualVars x y then FAIL s ← z | eqc 1 IN vanish s
  else leave s [x; y; z] (Implication x y z).

Definition propagate_Equivalence s x y z : option Outcome :=
  s ← reads s [x; y; z];
  dx ← s !! x; dy ← s !! y; dz ← s !! z;
  if singl dx && singl dy then
    FAIL s ← z | eqc (if getSingleElem dx =? getSingleElem dy then 1 else 0) IN vanish s
  else if singl dz then
    if getSingleElem dz =? 0 then propagate_Negation s x y else Some (UNIFY s x y)
  else if OZ_isEqualVars x y then FAIL s ← z | eqc 1 IN vanish s
  else if OZ_isEqualVars x z then FAIL s ← y | eqc 1 IN vanish s
  else if OZ_isEqualVars y z then FAIL s ← x | eqc 1 IN vanish s
  else leave s [x; y; z] (Equivalence x y z).
End bool.
End BoolPropagators.

(** * Propagators of arithmetic ([arith.cc])

    Those with a [D] in their name enumerate the domains, the others work on the bounds.  A loop
    narrows a domain in every round but the last, so the sizes of the domains bound their number. *)

Import FiniteDomain PropBase RelPropagators.

Module ArithPropagators.
Section arith.
Context `{FDEnv}.
Implicit Types (s : gmap Term FiniteDomain) (x y z : Term) (mayBeEqualVars : bool).

(** ** Twice and square *)

(** [f] is the function of the relation, [up] and [down] its inverses, rounded up and down. *)
Fixpoint inverse_loop (f up down : Z -> Z) (fuel : nat) s x y (p : Propagator) : option Outcome :=
  match fuel with
  | O => None
  | S fuel =>
      dy ← s !! y;
      FAIL s ← x | ge (up (min_elem dy)) IN
      dy ← s !! y;
      FAIL s ← x | le (down (max_elem dy)) IN
      dy ← s !! y;
      let ymin := min_elem dy in
      let ymax := max_elem dy in
      dx ← s !! x;
      FAIL s ← y | ge (f (min_elem dx)) IN
      dx ← s !! x;
      FAIL s ← y | le (f (max_elem dx)) IN
      dy ← s !! y;
      if (ymin <? min_elem dy) || (max_elem dy <? ymax) then inverse_loop f up down fuel s x y p
      else leave s [x; y] p
  end.

Definition propagate_Twice s x y : option Outcome :=
  s ← reads s [x; y];
  if OZ_isEqualVars x y then FAIL s ← x | eqc 0 IN vanish s
  else inverse_loop (fun v => 2 * v) (fun v => ceil_div v 2) (fun v => v / 2) (budget s [y]) s x y (Twice x y).

Definition propagate_Square s x y : option Outcome :=
  s ← reads s [x; y];
  if OZ_isEqualVars x y then FAIL s ← x | le 1 IN vanish s
  else inverse_loop square Z.sqrt_up Z.sqrt (budget s [y]) s x y (Square x y).

(** ** Plus *)

Fixpoint plus_loop (fuel : nat) s x y z (txl txu tyl tyu tzl tzu : Z) : option Outcome :=
  match fuel with
  | O => None
  | S fuel =>
      dx ← s !! x; dy ← s !! y; dz ← s !! z;
      if min_elem dx <? txl then
        FAIL s ← x | ge txl IN
        dx ← s !! x; dy ← s !! y; dz ← s !! z;
        plus_loop fuel s x y z txl txu tyl (max_elem dz - min_elem dx) (min_elem dx + min_elem dy) tzu
      else if txu <? max_elem dx then
        FAIL s ← x | le txu IN
        dx ← s !! x; dy ← s !! y; dz ← s !! z;
        plus_loop fuel s x y z txl txu (min_elem dz - max_elem dx) tyu tzl (max_elem dx + max_elem dy)
      else if min_elem dy <? tyl then
        FAIL s ← y | ge tyl IN
        dx ← s !! x; dy ← s !! y; dz ← s !! z;
        plus_loop fuel s x y z txl (max_elem dz - min_elem dy) tyl tyu (min_elem dx + min_elem dy) tzu
      else if tyu <? max_elem dy then
        FAIL s ← y | le tyu IN
        dx ← s !! x; dy ← s !! y; dz ← s !! z;
        plus_loop fuel s x y z (min_elem dz - max_elem dy) txu tyl tyu tzl (max_elem dx + max_elem dy)
      else if min_elem dz <? tzl then
        FAIL s ← z | ge tzl IN
        dx ← s !! x; dy ← s !! y; dz ← s !! z;
        plus_loop fuel s x y z (min_elem dz - max_elem dy) txu (min_elem dz - max_elem dx) tyu tzl tzu
      else if tzu <? max_elem dz then
        FAIL s ← z | le tzu IN
        dx ← s !! x; dy ← s !! y; dz ← s !! z;
        plus_loop fuel s x y z txl (max_elem dz - min_elem dy) tyl (max_elem dz - min_elem dx) tzl tzu
      else leave s [x; y; z] (Plus x y z)
  end.

Definition propagate_Plus mayBeEqualVars s x y z : option Outcome :=
  if mayBeEqualVars && OZ_isEqualVars x y then propagate_Twice s x z
  else if mayBeEqualVars && OZ_isEqualVars x z then Some (UNIFY s y (SmallInt 0))
  else if mayBeEqualVars && OZ_isEqualVars y z then Some (UNIFY s x (SmallInt 0))
  else
    s ← reads s [x; y; z];
    dx ← s !! x; dy ← s !! y; dz ← s !! z;
    if singl dx && eq_int dx 0 then Some (UNIFY s y z)
    else if singl dy && eq_int dy 0 then Some (UNIFY s x z)
    else
      plus_loop (budget s [x; y; z]) s x y z
        (min_elem dz - max_elem dy) (max_elem dz - min_elem dy) (min_elem dz - max_elem dx) (max_elem dz - min_elem dx)
        (min_elem dx + min_elem dy) (max_elem dx + max_elem dy).

(** ** Times *)

Fixpoint times_loop (fuel : nat) s x y z (tzl tzu : Z) : option Outcome :=
  match fuel with
  | O => None
  | S fuel =>
      dx ← s !! x; dy ← s !! y; dz ← s !! z;
      let loopend s := leave s [x; y; z] (Times x y z) in
      if singl dx && singl dy then
        FAIL s ← z | eqc (truncToIntMax (getSingleElem dx * getSingleElem dy)) IN loopend s
      else if singl dx && singl dz && negb (getSingleElem dx =? 0) then
        if negb (Z.rem (getSingleElem dz) (getSingleElem dx) =? 0) then Some FAILED
        else FAIL s ← y | eqc (getSingleElem dz ÷ getSingleElem dx) IN loopend s
      else if singl dy && singl dz && negb (getSingleElem dy =? 0) then
        if negb (Z.rem (getSingleElem dz) (getSingleElem dy) =? 0) then Some FAILED
        else FAIL s ← x | eqc (getSingleElem dz ÷ getSingleElem dy) IN loopend s
      else if min_elem dz <? tzl then FAIL s ← z | ge tzl IN times_loop fuel s x y z tzl tzu
      else if tzu <? max_elem dz then FAIL s ← z | le tzu IN times_loop fuel s x y z tzl tzu
      else if negb (max_elem dy =? 0) && (min_elem dx <? ceil_div (min_elem dz) (max_elem dy)) then
        FAIL s ← x | ge (ceil_div (min_elem dz) (max_elem dy)) IN
        dx ← s !! x; dy ← s !! y;
        times_loop fuel s x y z (truncToIntMax (min_elem dx * min_elem dy)) tzu
      else if negb (min_elem dy =? 0) && (max_elem dz / min_elem dy <? max_elem dx) then
        FAIL s ← x | le (max_elem dz / min_elem dy) IN
        dx ← s !! x; dy ← s !! y;
        times_loop fuel s x y z tzl (truncToIntMax (max_elem dx * max_elem dy))
      else if negb (max_elem dx =? 0) && (min_elem dy <? ceil_div (min_elem dz) (max_elem dx)) then
        FAIL s ← y | ge (ceil_div (min_elem dz) (max_elem dx)) IN
        dx ← s !! x; dy ← s !! y;
        times_loop fuel s x y z (truncToIntMax (min_elem dx * min_elem dy)) tzu
      else if negb (min_elem dx =? 0) && (max_elem dz / min_elem dx <? max_elem dy) then
        FAIL s ← y | le (max_elem dz / min_elem dx) IN
        dx ← s !! x; dy ← s !! y;
        times_loop fuel s x y z (truncToIntMax (min_elem dx * min_elem dy)) tzu
      else loopend s
  end.

Definition propagate_Times mayBeEqualVars s x y z : option Outcome :=
  if mayBeEqualVars && OZ_isEqualVars x y then propagate_Square s x z
  else if mayBeEqualVars && OZ_isEqualVars x z then Some (UNIFY s y (SmallInt 1))
  else if mayBeEqualVars && OZ_isEqualVars y z then Some (UNIFY s x (SmallInt 1))
  else
    s ← reads s [x; y; z];
    dx ← s !! x; dy ← s !! y;
    times_loop (budget s [x; y; z]) s x y z (truncToIntMax (min_elem dx * min_elem dy)) (truncToIntMax (max_elem dx * max_elem dy)).

(** ** Enumeration of domains *)

(** The values [x_v] of [l] whose image is in the domain [dz], and the images. *)
Fixpoint image (f : Z -> Z) (dz : FiniteDomain) (l : list Z) (x_new z_new : FiniteDomain) : option (FiniteDomain * FiniteDomain) :=
  match l with
  | [] => Some (x_new, z_new)
  | v :: l =>
      found ← isIn dz (f v);
      if (found : bool) then x_new ← op_plus_int x_new v; z_new ← op_plus_int z_new (f v); image f dz l x_new z_new
      else image f dz l x_new z_new
  end.

Definition enumerate (f : Z -> Z) s x z (p : Propagator) : option Outcome :=
  dx ← s !! x; dz ← s !! z;
  l ← elements dx;
  '(x_new, z_new) ← image f dz l initEmpty initEmpty;
  FAIL s ← x | inter x_new IN
  FAIL s ← z | inter z_new IN
  leave s [x; z] p.

(** The product of two [int]s. *)
Definition int_mul (a b : Z) : Z := s32 (w32 (a * b)).

Definition propagate_TwiceD s x y : option Outcome :=
  s ← reads s [x; y]; enumerate (fun v => 2 * v) s x y (TwiceD x y).
Definition propagate_SquareD s x y : option Outcome :=
  s ← reads s [x; y]; enumerate (fun v => int_mul v v) s x y (SquareD x y).

Fixpoint image2_row (f : Z -> Z -> Z) (dz : FiniteDomain) (v : Z) (l : list Z) (news : FiniteDomain * FiniteDomain * FiniteDomain) : option (FiniteDomain * FiniteDomain * FiniteDomain) :=
  match l with
  | [] => Some news
  | w :: l =>
      found ← isIn dz (f v w);
      if (found : bool) then
        let '(x_new, y_new, z_new) := news in
        x_new ← op_plus_int x_new v; y_new ← op_plus_int y_new w; z_new ← op_plus_int z_new (f v w);
        image2_row f dz v l (x_new, y_new, z_new)
      else image2_row f dz v l news
  end.
Fixpoint image2 (f : Z -> Z -> Z) (dz : FiniteDomain) (xs ys : list Z) (news : FiniteDomain * FiniteDomain * FiniteDomain) : option (FiniteDomain * FiniteDomain * FiniteDomain) :=
  match xs with [] => Some news | v :: xs => news ← image2_row f dz v ys news; image2 f dz xs ys news end.

Definition enumerate2 (f : Z -> Z -> Z) s x y z (p : Propagator) : option Outcome :=
  dx ← s !! x; dy ← s !! y; dz ← s !! z;
  xs ← elements dx; ys ← elements dy;
  '(x_new, y_new, z_new) ← image2 f dz xs ys (initEmpty, initEmpty, initEmpty);
  FAIL s ← x | inter x_new IN
  FAIL s ← y | inter y_new IN
  FAIL s ← z | inter z_new IN
  leave s [x; y; z] p.

Definition propagate_PlusD mayBeEqualVars s x y z : option Outcome :=
  if mayBeEqualVars && OZ_isEqualVars x y then propagate_TwiceD s x z
  else if mayBeEqualVars && OZ_isEqualVars x z then Some (UNIFY s y (SmallInt 0))
  else if mayBeEqualVars && OZ_isEqualVars y z then Some (UNIFY s x (SmallInt 0))
  else
    s ← reads s [x; y; z];
    dx ← s !! x; dy ← s !! y;
    if singl dx && eq_int dx 0 then Some (UNIFY s y z)
    else if singl dy && eq_int dy 0 then Some (UNIFY s x z)
    else enumerate2 Z.add s x y z (PlusD x y z).

Definition propagate_TimesD mayBeEqualVars s x y z : option Outcome :=
  if mayBeEqualVars && OZ_isEqualVars x y then propagate_SquareD s x z
  else if mayBeEqualVars && OZ_isEqualVars x z then Some (UNIFY s y (SmallInt 1))
  else if mayBeEqualVars && OZ_isEqualVars y z then Some (UNIFY s x (SmallInt 1))
  else s ← reads s [x; y; z]; enumerate2 int_mul s x y z (TimesD x y z).

(** ** Division *)

Definition propagate_DivD mayBeEqualVars s x (y : Z) z : option Outcome :=
  if mayBeEqualVars && OZ_isEqualVars x z then Some (UNIFY s x (SmallInt 1))
  else s ← reads s [x; z]; enumerate (fun v => v ÷ y) s x z (DivD x y z).

(** [at_] is the [while] loop the code is in, of four. *)
Fixpoint divI_loop (fuel : nat) (at_ : nat) s x (y : Z) z (xl xu zl zu : Z) (touched : bool) : option Outcome :=
  match fuel with
  | O => None
  | S fuel =>
      match at_ with
      | 0%nat =>
          if xl <? truncToIntMax (zl * y) then
            FAIL s ← x | ge (truncToIntMax (zl * y)) IN dx ← s !! x; divI_loop fuel 0 s x y z (min_elem dx) xu zl zu touched
          else divI_loop fuel 1 s x y z xl xu zl zu touched
      | 1%nat =>
          if truncToIntMax (zu * y + y - 1) <? xu then
            FAIL s ← x | le (truncToIntMax (zu * y + y - 1)) IN dx ← s !! x; divI_loop fuel 1 s x y z xl (max_elem dx) zl zu touched
          else divI_loop fuel 2 s x y z xl xu zl zu touched
      | 2%nat =>
          if zl <? xl ÷ y then
            FAIL s ← z | ge (xl ÷ y) IN dz ← s !! z; divI_loop fuel 2 s x y z xl xu (min_elem dz) zu true
          else divI_loop fuel 3 s x y z xl xu zl zu touched
      | _ =>
          if xu ÷ y <? zu then
            FAIL s ← z | le (xu ÷ y) IN dz ← s !! z; divI_loop fuel 3 s x y z xl xu zl (max_elem dz) true
          else if touched then divI_loop fuel 0 s x y z xl xu zl zu false
          else leave s [x; z] (DivI x y z)
      end
  end.

(** Every round through the four loops that goes on narrows [z]. *)
Definition propagate_DivI mayBeEqualVars s x (y : Z) z : option Outcome :=
  if mayBeEqualVars && OZ_isEqualVars x z then Some (UNIFY s x (SmallInt 1))
  else
    s ← reads s [x; z];
    dx ← s !! x; dz ← s !! z;
    divI_loop (8 * budget s [x; z]) 0 s x y z (min_elem dx) (max_elem dx) (min_elem dz) (max_elem dz) false.

(** ** Remainder *)

(** The cases that both propagators of the remainder decide first. *)
Definition mod_simple s x (y : Z) z (xu : Z) (rest : option Outcome) : option Outcome :=
  dx ← s !! x; dz ← s !! z;
  if xu <? y then Some (UNIFY s x z)
  else if singl dx && (getSingleElem dx =? y) then Some (UNIFY s z (SmallInt 0))
  else if (xu <=? y) && singl dz && (getSingleElem dz =? 0) then
    u ← op_plus_int initEmpty 0;
    u ← (if xu =? y then op_plus_int u y else Some u);
    FAIL s ← x | inter u IN vanish s
  else rest.

Definition propagate_ModD mayBeEqualVars s x (y : Z) z : option Outcome :=
  if mayBeEqualVars && OZ_isEqualVars x z then propagate_LessEqOff mayBeEqualVars s x (SmallInt y) (-1)
  else
    s ← reads s [x; z];
    dx ← s !! x;
    FAIL s ← z | le (y - 1) IN
    mod_simple s x y z (max_elem dx) (enumerate (fun v => Z.rem v y) s x z (ModD x y z)).

(** [at_] is the test of the loop that the code is at, the last one being that of [while]. *)
Fixpoint modI_loop (fuel : nat) (at_ : nat) s x (y : Z) z (xl xu zl zu : Z) (touched : bool) : option Outcome :=
  match fuel with
  | O => None
  | S fuel =>
      match at_ with
      | 0%nat =>
          let xl_y := Z.rem xl y in
          if (xl_y <? zl) || (zu <? xl_y) then FAIL s ← x | ge (xl + 1) IN dx ← s !! x; modI_loop fuel 1 s x y z (min_elem dx) xu zl zu true
          else modI_loop fuel 1 s x y z xl xu zl zu touched
      | 1%nat =>
          let xu_y := Z.rem xu y in
          if (xu_y <? zl) || (zu <? xu_y) then FAIL s ← x | le (xu - 1) IN dx ← s !! x; modI_loop fuel 2 s x y z xl (max_elem dx) zl zu true
          else modI_loop fuel 2 s x y z xl xu zl zu touched
      | 2%nat =>
          if xu - xl <? y - 1 then
            if (xu - zl) / y <? ceil_div (xl - zl) y then FAIL s ← z | ge (zl + 1) IN dz ← s !! z; modI_loop fuel 3 s x y z xl xu (min_elem dz) zu true
            else modI_loop fuel 3 s x y z xl xu zl zu touched
          else modI_loop fuel 4 s x y z xl xu zl zu touched
      | 3%nat =>
          if (xu - zu) / y <? ceil_div (xl - zu) y then FAIL s ← z | le (zu - 1) IN dz ← s !! z; modI_loop fuel 4 s x y z xl xu zl (max_elem dz) true
          else modI_loop fuel 4 s x y z xl xu zl zu touched
      | _ => if touched then modI_loop fuel 0 s x y z xl xu zl zu false else leave s [x; z] (ModI x y z)
      end
  end.

Definition propagate_ModI mayBeEqualVars s x (y : Z) z : option Outcome :=
  if mayBeEqualVars && OZ_isEqualVars x z then propagate_LessEqOff mayBeEqualVars s x (SmallInt y) (-1)
  else
    s ← reads s [x; z];
    FAIL s ← z | le (y - 1) IN
    dx ← s !! x; dz ← s !! z;
    mod_simple s x y z (max_elem dx) (modI_loop (8 * budget s [x; z]) 0 s x y z (min_elem dx) (max_elem dx) (min_elem dz) (max_elem dz) false).
End arith.
End ArithPropagators.

(** * The propagators of the library *)

Import FiniteDomain PropBase RelPropagators BoolPropagators ArithPropagators.

Module Propagate.
Section propagate.
Context `{FDEnv}.

(** [OZ_Propagator::propagate], the virtual function that all of them define. *)
Definition propagate (mayBeEqualVars : bool) (s : gmap Term FiniteDomain) (p : Propagator) : option Outcome :=
  match p with
  | NotEqOff x y c => propagate_NotEqOff mayBeEqualVars s x y c
  | LessEqOff x y c => propagate_LessEqOff mayBeEqualVars s x y c
  | Minimum x y z => propagate_Minimum mayBeEqualVars s x y z
  | Maximum x y z => propagate_Maximum mayBeEqualVars s x y z
  | Intersection x y z => propagate_Intersection mayBeEqualVars s x y z
  | Union x y z => propagate_Union mayBeEqualVars s x y z
  | SubSet x y => propagate_SubSet s x y
  | Distinct l => propagate_Distinct mayBeEqualVars s l
  | DistinctOffset l => propagate_DistinctOffset mayBeEqualVars s l
  | Conjunction x y z => propagate_Conjunction s x y z
  | Disjunction x y z => propagate_Disjunction s x y z
  | XDisjunction x y z => propagate_XDisjunction s x y z
  | Implication x y z => propagate_Implication s x y z
  | Equivalence x y z => propagate_Equivalence s x y z
  | Negation x y => propagate_Negation s x y
  | Twice x y => propagate_Twice s x y
  | Square x y => propagate_Square s x y
  | Plus x y z => propagate_Plus mayBeEqualVars s x y z
  | Times x y z => propagate_Times mayBeEqualVars s x y z
  | DivD x y z => propagate_DivD mayBeEqualVars s x y z
  | DivI x y z => propagate_DivI mayBeEqualVars s x y z
  | ModD x y z => propagate_ModD mayBeEqualVars s x y z
  | ModI x y z => propagate_ModI mayBeEqualVars s x y z
  | TwiceD x y => propagate_TwiceD s x y
  | SquareD x y => propagate_SquareD s x y
  | PlusD x y z => propagate_PlusD mayBeEqualVars s x y z
  | TimesD x y z => propagate_TimesD mayBeEqualVars s x y z
  end.
End propagate.
End Propagate.
