(* ===== verification/PropSpec.v ===== *)
(** * What propagators promise, and the rules for their steps *)
From stdpp Require Import gmap.
From S2P Require Import Prelude Word32 FDBase FDIntervals FDBitVector FiniteDomain FDRepr FDQueries FDOperators FDSetOperators Propagators.

(** * What propagators promise

    A store stands for the assignments of integers to variables that pick an element of every
    domain.  A propagator is specified by the assignments that satisfy it: [exact] says that running
    it neither loses a solution nor keeps one that the outcome no longer excludes. *)

Import FiniteDomain FDRepr PropBase.

Module PropSpec.

(** ** Assignments and constraints *)

Definition value (α : Z -> Z) (t : Term) : Z := match t with Var v => α v | SmallInt n => n end.

Definition holds (p : Propagator) (α : Z -> Z) : Prop :=
  let v := value α in
  match p with
  | NotEqOff x y c => v x <> v y + c
  | LessEqOff x y c => v x <= v y + c
  | Minimum x y z => v z = Z.min (v x) (v y)
  | Maximum x y z => v z = Z.max (v x) (v y)
  | Intersection x y z => v z = v x /\ v z = v y
  | Union x y z => v z = v x \/ v z = v y
  | SubSet x y => v x = v y
  | Distinct l => NoDup (map v l)
  | DistinctOffset l => NoDup (map (fun p => v p.1 + p.2) l)
  | Conjunction x y z => v z = Z.min (v x) (v y)
  | Disjunction x y z => v z = Z.max (v x) (v y)
  | XDisjunction x y z => v z = if v x =? v y then 0 else 1
  | Implication x y z => v z = if v x <=? v y then 1 else 0
  | Equivalence x y z => v z = if v x =? v y then 1 else 0
  | Negation x y => v y = 1 - v x
  | Twice x y | TwiceD x y => v y = 2 * v x
  | Square x y | SquareD x y => v y = v x * v x
  | Plus x y z | PlusD x y z => v z = v x + v y
  | Times x y z | TimesD x y z => v z = v x * v y
  | DivD x y z | DivI x y z => v z = v x / y
  | ModD x y z | ModI x y z => v z = v x mod y
  end.

Definition params (p : Propagator) : list Term :=
  match p with
  | NotEqOff x y _ | LessEqOff x y _ | SubSet x y | Negation x y | Twice x y | Square x y | TwiceD x y | SquareD x y => [x; y]
  | Minimum x y z | Maximum x y z | Intersection x y z | Union x y z
  | Conjunction x y z | Disjunction x y z | XDisjunction x y z | Implication x y z | Equivalence x y z
  | Plus x y z | Times x y z | PlusD x y z | TimesD x y z => [x; y; z]
  | DivD x _ z | DivI x _ z | ModD x _ z | ModI x _ z => [x; z]
  | Distinct l => l
  | DistinctOffset l => l.*1
  end.

Section spec.
Context `{FDEnv}.
Implicit Types (s : gmap Term FiniteDomain) (t : Term) (d e : FiniteDomain) (α : Z -> Z) (C : (Z -> Z) -> Prop) (o : Outcome).

Definition sol s α : Prop := forall t d, s !! t = Some d -> fd_mem d (value α t) = true.

(** Every domain is well formed and not empty, that of an integer is a singleton. *)
Record wf_domain t d : Prop := {
  wd_wf : wf d;
  wd_size : 0 < size d;
  wd_int : forall n v, t = SmallInt n -> fd_mem d v = (v =? n)
}.
Definition wf_store s : Prop := forall t d, s !! t = Some d -> wf_domain t d.

Definition present s t : Prop := match t with Var _ => is_Some (s !! t) | SmallInt n => 0 <= n <= fd_sup end.

(** A store of narrower domains for the same variables. *)
Record refines s s' : Prop := {
  rf_domain t d : s !! t = Some d -> exists d', s' !! t = Some d' /\ forall v, fd_mem d' v = true -> fd_mem d v = true;
  rf_vars v : is_Some (s' !! Var v) -> is_Some (s !! Var v)
}.

(** The domain of a truth value. *)
Definition is_bool s t : Prop :=
  match t with
  | Var _ => forall d v, s !! t = Some d -> fd_mem d v = true -> v = 0 \/ v = 1
  | SmallInt n => n = 0 \/ n = 1
  end.

(** When a propagator is exact: its parameters are known, truth values are truth values, divisors
    are positive, and the cases of equal variables that the code gets wrong are left out. *)
Definition kind_ok s (p : Propagator) : Prop :=
  match p with
  | Conjunction x y z | Disjunction x y z | XDisjunction x y z | Implication x y z | Equivalence x y z => is_bool s x /\ is_bool s y /\ is_bool s z
  | Negation x y => is_bool s x /\ is_bool s y
  | TwiceD x y | SquareD x y => OZ_isEqualVars x y = false
  | DivD x y z | DivI x y z => OZ_isEqualVars x z = false /\ 0 < y <= fd_sup
  | ModD x y z | ModI x y z => 0 < y <= fd_sup
  | PlusD x y z => OZ_isEqualVars x y && OZ_isEqualVars x z = false
  | Times x y z => OZ_isEqualVars x y = true \/ OZ_isEqualVars x z = false /\ OZ_isEqualVars y z = false
  | TimesD x y z => OZ_isEqualVars x z = false /\ OZ_isEqualVars y z = false
  | _ => True
  end.
Definition admissible s (p : Propagator) : Prop := Forall (present s) (params p) /\ kind_ok s p.

Definition osol o α : Prop :=
  match o with
  | FAILED => False
  | PROCEED s => sol s α
  | SLEEP s p => sol s α /\ holds p α
  | UNIFY s a b => sol s α /\ value α a = value α b
  end.

(** The store of an outcome and what it keeps. *)
Definition good s o : Prop :=
  match o with
  | FAILED => True
  | PROCEED s' => wf_store s' /\ refines s s'
  | SLEEP s' p => wf_store s' /\ refines s s' /\ admissible s' p /\ existsb (undetermined s') (params p) = true
  | UNIFY s' a b => wf_store s' /\ refines s s' /\ present s' a /\ present s' b
  end.

(** [C] is the constraint.  No solution is lost, and what the outcome stands for are solutions; only
    under [K] when the propagator says that it is entailed. *)
Definition proceeds o : bool := match o with PROCEED _ => true | _ => false end.
Definition exact (K : Prop) s C (r : option Outcome) : Prop :=
  exists o, r = Some o /\ good s o /\ forall α, (sol s α -> C α -> osol o α) /\ (osol o α -> sol s α /\ (K \/ proceeds o = false -> C α)).

(** ** Domains *)

(** The bounds of a domain of a store. *)
Record bounds d : Prop := {
  bd_min : fd_mem d (min_elem d) = true;
  bd_max : fd_mem d (max_elem d) = true;
  bd_in v : fd_mem d v = true -> min_elem d <= v <= max_elem d;
  bd_low : 0 <= min_elem d;
  bd_high : max_elem d <= fd_sup;
  bd_le : min_elem d <= max_elem d
}.

Lemma wf_bounds d : wf d -> 0 < size d -> bounds d.
Proof.
  intros Hw Hs. assert (repr d (fd_mem d)) as Hr by by split. destruct (repr_elim d _ Hr Hs) as (H1 & H2 & H3 & H4 & H5 & H6 & _). by split.
Qed.

Lemma wf_repr d : wf d -> repr d (fd_mem d).
Proof. by split. Qed.

Lemma store_bounds s t d : wf_store s -> s !! t = Some d -> bounds d.
Proof. intros Hs Ht. destruct (Hs t d Ht) as [Hw Hz _]. by apply wf_bounds. Qed.

Lemma sol_within s t d α : wf_store s -> s !! t = Some d -> sol s α -> min_elem d <= value α t <= max_elem d.
Proof. intros Hs Ht Ha. apply (bd_in d (store_bounds s t d Hs Ht)), (Ha t d Ht). Qed.

(** Inclusion decreases the size, properly when an element is missing. *)
Lemma size_le d d' : wf d -> wf d' -> (forall v, fd_mem d' v = true -> fd_mem d v = true) -> size d' <= size d.
Proof.
  intros Hw Hw' Hv. rewrite (repr_card d _ (wf_repr d Hw)), (repr_card d' _ (wf_repr d' Hw')).
  assert (card (fd_mem d') + card (fun v => fd_mem d v && negb (fd_mem d' v)) = card (fd_mem d)) as Hc.
  { apply card_split. intros v _. specialize (Hv v). destruct (fd_mem d v), (fd_mem d' v); try done. by destruct Hv. }
  pose proof (card_nonneg (fun v => fd_mem d v && negb (fd_mem d' v))). lia.
Qed.

Lemma size_lt d d' w : wf d -> wf d' -> (forall v, fd_mem d' v = true -> fd_mem d v = true) -> fd_mem d w = true -> fd_mem d' w = false -> size d' < size d.
Proof.
  intros Hw Hw' Hv H1 H2. rewrite (repr_card d _ (wf_repr d Hw)), (repr_card d' _ (wf_repr d' Hw')).
  assert (card (fd_mem d') + card (fun v => fd_mem d v && negb (fd_mem d' v)) = card (fd_mem d)) as Hc.
  { apply card_split. intros v _. specialize (Hv v). destruct (fd_mem d v), (fd_mem d' v); try done. by destruct Hv. }
  assert (0 <= w <= fd_sup) as Hr by by apply (repr_bounds d _ w (wf_repr d Hw)).
  pose proof (card_pos (fun v => fd_mem d v && negb (fd_mem d' v)) w Hr) as Hp. cbn beta in Hp. rewrite H1, H2 in Hp. specialize (Hp eq_refl). lia.
Qed.

Lemma singl_spec d : wf d -> 0 < size d -> singl d = (min_elem d =? max_elem d).
Proof.
  intros Hw Hs. pose proof (wf_bounds d Hw Hs) as [Hmin Hmax Hin Hlow Hhigh Hle]. unfold singl. rewrite (repr_card d _ (wf_repr d Hw)).
  destruct (Z.eqb_spec (min_elem d) (max_elem d)) as [E|E].
  - rewrite (card_range _ (min_elem d) (max_elem d)); [lia|lia|lia|lia|]. intros v. destruct (fd_mem d v) eqn:Ev; [apply Hin in Ev; lia|].
    destruct (Z.eq_dec v (min_elem d)) as [->|]; [congruence|lia].
  - assert (card (fun v => v =? min_elem d) + card (fun v => fd_mem d v && negb (v =? min_elem d)) = card (fd_mem d)) as Hc.
    { apply card_split. intros v _. destruct (Z.eqb_spec v (min_elem d)) as [->|]; [by rewrite Hmin|by destruct (fd_mem d v)]. }
    pose proof (card_pos (fun v => v =? min_elem d) (min_elem d)). pose proof (card_pos (fun v => fd_mem d v && negb (v =? min_elem d)) (max_elem d)) as Hp.
    cbn beta in Hp. rewrite Hmax in Hp. lia.
Qed.

Lemma single_elem d : singl d = true -> getSingleElem d = min_elem d.
Proof. unfold singl, getSingleElem. by destruct (size d =? 1). Qed.

Lemma single_value s t d α : wf_store s -> s !! t = Some d -> singl d = true -> sol s α -> value α t = getSingleElem d.
Proof.
  intros Hs Ht Hd Ha. destruct (Hs t d Ht) as [Hw Hz _]. rewrite (single_elem d Hd). pose proof (sol_within s t d α Hs Ht Ha). rewrite (singl_spec d Hw Hz) in Hd. lia.
Qed.
End spec.
End PropSpec.

(** * Rules for the steps of a propagator *)

Import FiniteDomain FDRepr FDQueries FDOperators FDSetOperators PropBase PropSpec.

Module PropRules.
Section rules.
Context `{FDEnv} (Hg : globals_ok fd_env) {K : Prop}.
Implicit Types (s : gmap Term FiniteDomain) (t : Term) (d e : FiniteDomain) (α : Z -> Z) (C : (Z -> Z) -> Prop) (o : Outcome) (p : Propagator).

(** ** Narrowing a store *)

Lemma refines_refl s : refines s s.
Proof. split; [intros t d Ht; by exists d|done]. Qed.

Lemma refines_trans s1 s2 s3 : refines s1 s2 -> refines s2 s3 -> refines s1 s3.
Proof.
  intros [H1 V1] [H2 V2]. split; [|auto]. intros t d Ht. destruct (H1 t d Ht) as (d2 & Ht2 & Hv2), (H2 t d2 Ht2) as (d3 & Ht3 & Hv3). exists d3. auto.
Qed.

#[export] Instance refines_preorder : PreOrder refines.
Proof. split; [intros s; apply refines_refl|intros s1 s2 s3; apply refines_trans]. Qed.

Lemma refines_sol s s' α : refines s s' -> sol s' α -> sol s α.
Proof. intros [Hr _] Ha t d Ht. destruct (Hr t d Ht) as (d' & Ht' & Hv). by apply Hv, (Ha t d'). Qed.

Lemma refines_present s s' t : refines s s' -> present s t -> present s' t.
Proof. intros [Hr _]. destruct t as [v|n]; cbn; [|done]. intros [d Hd]. destruct (Hr _ d Hd) as (d' & Hd' & _). by exists d'. Qed.

Lemma refines_bool s s' t : refines s s' -> present s t -> is_bool s t -> is_bool s' t.
Proof.
  intros [Hr _]. destruct t as [v|n]; cbn; [|done]. intros [d Hd] Hb d' w Hd' Hw. destruct (Hr _ d Hd) as (d2 & Hd2 & Hv).
  rewrite Hd' in Hd2. injection Hd2 as <-. apply (Hb d w Hd), Hv, Hw.
Qed.

Lemma refines_admissible s s' p : refines s s' -> admissible s p -> admissible s' p.
Proof.
  intros Hr [Hp Hk]. split; [eapply Forall_impl; [exact Hp|]; intros t; by apply refines_present|].
  destruct p; try exact Hk; cbn [kind_ok params] in *; repeat match goal with Hf : Forall _ (_ :: _) |- _ => apply Forall_cons in Hf as [? Hf] end;
    split_and!; apply (refines_bool s s'); tauto.
Qed.

Record narrowed C s s' : Prop := {
  nw_wf : wf_store s';
  nw_refines : refines s s';
  nw_sol α : sol s α -> C α -> sol s' α
}.

Lemma narrowed_refl C s : wf_store s -> narrowed C s s.
Proof. intros Hs. split; [done|apply refines_refl|done]. Qed.

Lemma narrowed_trans C s1 s2 s3 : narrowed C s1 s2 -> narrowed C s2 s3 -> narrowed C s1 s3.
Proof. intros [_ R1 S1] [W2 R2 S2]. split; [done|by apply (refines_trans s1 s2 s3)|auto]. Qed.

Lemma good_refines s s' o : refines s s' -> good s' o -> good s o.
Proof.
  intros Hr. destruct o; cbn; [done|..]; intros Hgo; destruct_and!; split_and?; try done; by apply (refines_trans s s' _).
Qed.

Lemma exact_narrowed C s s' r : narrowed C s s' -> exact K s' C r -> exact K s C r.
Proof.
  intros [Hw Hr Hs] (o & -> & Hgo & Ho). exists o. split; [done|]. split; [by apply (good_refines s s')|].
  intros α. destruct (Ho α) as [H1 H2]. split; [intros Ha HC; apply H1; auto|]. intros Hv. destruct (H2 Hv) as [Ha HC]. split; [by apply (refines_sol s s')|done].
Qed.

Lemma exact_ext s C C' r : (forall α, sol s α -> C α <-> C' α) -> exact K s C r -> exact K s C' r.
Proof.
  intros HC (o & -> & Hgo & Ho). exists o. split; [done|]. split; [done|]. intros α. destruct (Ho α) as [H1 H2].
  split; [intros Ha Hc; apply H1; [done|by apply HC]|]. intros Hv. destruct (H2 Hv) as [Ha Hc]. split; [done|]. intros Hk. by apply HC, Hc.
Qed.

(** ** Operations on a domain *)

Definition narrows (op : FiniteDomain -> option FiniteDomain) d (Q : Z -> bool) : Prop :=
  exists d', op d = Some d' /\ wf d' /\ forall v, fd_mem d' v = fd_mem d v && Q v.

Lemma narrows_repr op d Q : (exists d', op d = Some d' /\ repr d' (fun v => fd_mem d v && Q v)) -> narrows op d Q.
Proof. intros (d' & Ho & Hw & Hv). by exists d'. Qed.

Lemma dom_le_narrows d b : wf d -> 0 < size d -> narrows (le b) d (fun v => v <=? b).
Proof. intros Hw Hz. apply narrows_repr. by apply op_le_repr; [|apply wf_repr|]. Qed.
Lemma dom_ge_narrows d b : wf d -> 0 < size d -> narrows (ge b) d (fun v => b <=? v).
Proof. intros Hw Hz. apply narrows_repr. by apply op_ge_repr; [|apply wf_repr|]. Qed.
Lemma eqc_narrows d b : wf d -> narrows (eqc b) d (fun v => v =? b).
Proof. intros Hw. apply narrows_repr. by apply op_and_int_repr, wf_repr. Qed.
Lemma nec_narrows d b : wf d -> narrows (nec b) d (fun v => negb (v =? b)).
Proof. intros Hw. apply narrows_repr. by apply op_minus_int_repr; [|apply wf_repr]. Qed.
Lemma inter_narrows d e : wf d -> wf e -> narrows (inter e) d (fd_mem e).
Proof. intros Hw He. apply narrows_repr. by apply op_and_eq_repr; [|apply wf_repr|apply wf_repr]. Qed.
Lemma without_narrows d e : wf d -> wf e -> 0 < size d -> narrows (without e) d (fun v => negb (fd_mem e v)).
Proof. intros Hw He Hz. apply narrows_repr. by apply op_minus_repr; [|apply wf_repr|apply wf_repr|]. Qed.

(** ** Steps *)

Lemma size_zero d : wf d -> size d = 0 -> forall v, fd_mem d v = false.
Proof. intros Hw Hz v. unfold fd_mem. by rewrite Hz. Qed.

Lemma insert_narrowed C s t d d' Q : wf_store s -> s !! t = Some d -> wf d' -> 0 < size d' -> (forall v, fd_mem d' v = fd_mem d v && Q v) ->
  (forall α, sol s α -> C α -> Q (value α t) = true) -> narrowed C s (<[t := d']> s).
Proof.
  intros Hs Ht Hw Hz Hv HQ. split.
  - intros u e. destruct (decide (t = u)) as [<-|Hne]; [|rewrite lookup_insert_ne by done; apply Hs]. rewrite lookup_insert_eq. intros [= <-].
    split; [done|done|]. intros n v ->. rewrite Hv. destruct (Hs _ d Ht) as [_ _ Hi]. rewrite (Hi n v eq_refl).
    destruct (Z.eqb_spec v n) as [->|]; [|done]. destruct (wf_bounds d' Hw Hz) as [Hmin _ _ _ _ _]. rewrite Hv, (Hi n _ eq_refl) in Hmin.
    destruct (Z.eqb_spec (min_elem d') n) as [E|]; [by rewrite <- E|done].
  - split.
    + intros u e Hu. destruct (decide (t = u)) as [<-|Hne]; [|rewrite lookup_insert_ne by done; by exists e].
      rewrite lookup_insert_eq. exists d'. split; [done|]. rewrite Ht in Hu. injection Hu as <-. intros v. rewrite Hv. by destruct (fd_mem d v).
    + intros v. destruct (decide (t = Var v)) as [->|]; [by rewrite Ht|by rewrite lookup_insert_ne].
  - intros α Ha HC u e. destruct (decide (t = u)) as [<-|Hne]; [|rewrite lookup_insert_ne by done; apply Ha].
    rewrite lookup_insert_eq. intros [= <-]. rewrite Hv, (Ha t d Ht). by apply HQ.
Qed.

Lemma fail_exact s t op Q C k d : wf_store s -> s !! t = Some d -> narrows op d Q -> (forall α, sol s α -> C α -> Q (value α t) = true) ->
  (forall d', wf_domain t d' -> (forall v, fd_mem d' v = fd_mem d v && Q v) -> narrowed C s (<[t := d']> s) -> exact K (<[t := d']> s) C (k (<[t := d']> s))) ->
  exact K s C (FailOnEmpty s t op k).
Proof.
  intros Hs Ht (d' & Ho & Hw & Hv) HQ Hk. unfold FailOnEmpty. rewrite Ht. ored. rewrite Ho. ored. destruct (Z.eqb_spec (size d') 0) as [Hz|Hz].
  - exists FAILED. split; [done|]. split; [done|]. intros α. split; [|done]. intros Ha HC.
    specialize (HQ α Ha HC). pose proof (size_zero d' Hw Hz (value α t)) as Hf. rewrite Hv, (Ha t d Ht), HQ in Hf. done.
  - assert (0 < size d') as Hz' by (destruct Hw as [? _]; lia). pose proof (insert_narrowed C s t d d' Q Hs Ht Hw Hz' Hv HQ) as Hn.
    apply (exact_narrowed C s (<[t:=d']> s)); [done|]. apply Hk; [|done|done]. apply (nw_wf _ _ _ Hn t). by rewrite lookup_insert_eq.
Qed.

Lemma vanish_exact s C : wf_store s -> (K -> forall α, sol s α -> C α) -> exact K s C (vanish s).
Proof.
  intros Hs HC. exists (PROCEED s). split; [done|]. split; [split; [done|apply refines_refl]|]. intros α. cbn. split; [done|]. intros Ha. split; [done|]. intros [Hk|]; [auto|done].
Qed.

Lemma failed_exact s C : (forall α, sol s α -> ~ C α) -> exact K s C (Some FAILED).
Proof. intros HC. exists FAILED. split; [done|]. split; [done|]. intros α. cbn. split; [|done]. intros Ha Hc. by apply (HC α). Qed.

Lemma unify_exact s C a b : wf_store s -> present s a -> present s b -> (forall α, sol s α -> C α <-> value α a = value α b) -> exact K s C (Some (UNIFY s a b)).
Proof.
  intros Hs Ha Hb HC. exists (UNIFY s a b). split; [done|]. split; [split_and!; try done; apply refines_refl|].
  intros α. cbn. split; [intros Hv Hc; split; [done|]; by apply (HC α Hv)|]. intros [Hv Hc]. split; [done|]. intros _. by apply (HC α Hv).
Qed.

(** A parameter is determined when its domain is a singleton. *)
Definition determined s t : Prop := exists d, s !! t = Some d /\ singl d = true.

Lemma undetermined_spec s t d : wf_store s -> s !! t = Some d -> undetermined s t = false -> singl d = true.
Proof.
  intros Hs Ht. unfold undetermined. destruct t as [v|n]; [rewrite Ht; unfold singl; by destruct (size d =? 1)|]. intros _.
  destruct (Hs _ d Ht) as [Hw Hz Hi]. rewrite (singl_spec d Hw Hz). destruct (wf_bounds d Hw Hz) as [Hmin Hmax _ _ _ _].
  rewrite (Hi n _ eq_refl) in Hmin. rewrite (Hi n _ eq_refl) in Hmax. lia.
Qed.

Lemma leave_exact s C l p : wf_store s -> Forall (fun t => is_Some (s !! t)) l -> admissible s p ->
  (forall α, sol s α -> C α <-> holds p α) -> (forall t, t ∈ l -> undetermined s t = true -> t ∈ params p) ->
  (K -> Forall (determined s) l -> forall α, sol s α -> C α) -> exact K s C (leave s l p).
Proof.
  intros Hs Hl Ha HC Hp Hd. unfold leave. destruct (existsb (undetermined s) l) eqn:Ee.
  - exists (SLEEP s p). split; [done|]. split.
    + split_and!; [done|apply refines_refl|done|]. apply existsb_exists in Ee as (t & Ht & Hu). apply list_elem_of_In in Ht.
      apply existsb_exists. exists t. split; [by apply list_elem_of_In, Hp|done].
    + intros α. cbn. split; [intros Hv Hc; split; [done|]; by apply (HC α Hv)|]. intros [Hv Hc]. split; [done|]. intros _. by apply (HC α Hv).
  - exists (PROCEED s). split; [done|]. split; [split; [done|apply refines_refl]|]. intros α. cbn. split; [done|]. intros Hv. split; [done|]. intros [Hk|]; [|done].
    apply Hd; [done| |done]. apply Forall_forall. intros t Ht. rewrite Forall_forall in Hl. destruct (Hl t Ht) as [d Hd']. exists d. split; [done|].
    apply (undetermined_spec s t d Hs Hd'). destruct (undetermined s t) eqn:Eu; [|done]. exfalso.
    assert (existsb (undetermined s) l = true); [|congruence]. apply existsb_exists. exists t. split; [by apply list_elem_of_In|done].
Qed.

Lemma insert_sol s t d d' Q α : s !! t = Some d -> (forall v, fd_mem d' v = fd_mem d v && Q v) -> sol (<[t := d']> s) α -> sol s α /\ Q (value α t) = true.
Proof.
  intros Ht Hv Ha. pose proof (Ha t d') as Hm. rewrite lookup_insert_eq in Hm. specialize (Hm eq_refl). rewrite Hv in Hm.
  split; [|by destruct (fd_mem d (value α t))]. intros u e Hu. destruct (decide (t = u)) as [<-|Hne].
  - rewrite Ht in Hu. injection Hu as <-. by destruct (fd_mem d (value α t)).
  - apply (Ha u e). by rewrite lookup_insert_ne.
Qed.

(** The last narrowing of a propagator that is then entailed. *)
Lemma fail_vanish s t op Q C d : wf_store s -> s !! t = Some d -> narrows op d Q -> (forall α, sol s α -> C α <-> Q (value α t) = true) ->
  exact K s C (FailOnEmpty s t op vanish).
Proof.
  intros Hs Ht Hn HQ. apply (fail_exact s t op Q C _ d); [done|done|done|by intros α Ha HC; apply HQ|].
  intros d' _ Hv Hnar. apply vanish_exact; [apply Hnar|]. intros _ α Ha. destruct (insert_sol s t d d' Q α Ht Hv Ha) as [Ha' Hq]. by apply HQ.
Qed.

(** A parameter that is not determined keeps the propagator from being entailed. *)
Lemma not_determined s t d l C : s !! t = Some d -> singl d = false -> t ∈ l -> Forall (determined s) l -> forall α, sol s α -> C α.
Proof.
  intros Ht Hd Hin Hall. rewrite Forall_forall in Hall. destruct (Hall t Hin) as (e & He & Es). rewrite Ht in He. injection He as <-. congruence.
Qed.

Lemma bool_value s t d α : is_bool s t -> s !! t = Some d -> sol s α -> value α t = 0 \/ value α t = 1.
Proof. destruct t as [v|n]; cbn; [|done]. intros Hb Ht Ha. apply (Hb d); [done|exact (Ha (Var v) d Ht)]. Qed.

(** ** Reading the parameters *)

Lemma initSingleton_mem n v : 0 <= n <= fd_sup -> fd_mem (initSingleton n) v = (v =? n).
Proof.
  intros Hn. unfold initSingleton. replace ((n <? fd_inf) || (fd_sup <? n)) with false by (unfold fd_inf; lia). unfold fd_mem, dmem. cbn. lia.
Qed.

Lemma initSingleton_domain n : 0 <= n <= fd_sup -> wf_domain (SmallInt n) (initSingleton n).
Proof.
  intros Hn. unfold initSingleton. replace ((n <? fd_inf) || (fd_sup <? n)) with false by (unfold fd_inf; lia).
  assert (repr (FD n n 1 fd_descr) (fun v => v =? n)) as Hr. { replace 1 with (n - n + 1) by lia. apply repr_range; try lia. }
  destruct Hr as [Hw Hv]. split; [done|done|]. intros m v [= <-]. apply Hv.
Qed.

Lemma read_narrowed C s t : wf_store s -> present s t ->
  exists s', read s t = Some s' /\ narrowed C s s' /\ is_Some (s' !! t) /\ (forall v, s' !! Var v = s !! Var v).
Proof.
  intros Hs. destruct t as [v|n]; cbn [present read].
  - intros [d Hd]. rewrite Hd. ored. exists s. split; [done|]. split; [by apply narrowed_refl|]. split; [by exists d|done].
  - intros Hn. exists (<[SmallInt n := initSingleton n]> s). split; [done|]. pose proof (initSingleton_domain n Hn) as Hd. split; [|split; [rewrite lookup_insert_eq; by eexists|intros v; by rewrite lookup_insert_ne]].
    split.
    + intros u e. destruct (decide (SmallInt n = u)) as [<-|]; [rewrite lookup_insert_eq; by intros [= <-]|rewrite lookup_insert_ne by done; apply Hs].
    + split; [|intros v; by rewrite lookup_insert_ne].
      intros u e Hu. destruct (decide (SmallInt n = u)) as [<-|]; [|rewrite lookup_insert_ne by done; by exists e].
      rewrite lookup_insert_eq. eexists. split; [done|]. intros v. rewrite initSingleton_mem by done. intros Hv. by rewrite (wd_int _ _ (Hs _ e Hu) n v eq_refl).
    + intros α Ha _ u e. destruct (decide (SmallInt n = u)) as [<-|]; [|rewrite lookup_insert_ne by done; apply Ha].
      rewrite lookup_insert_eq. intros [= <-]. cbn. rewrite initSingleton_mem by done. lia.
Qed.

Lemma reads_narrowed C s l : wf_store s -> Forall (present s) l ->
  exists s', reads s l = Some s' /\ narrowed C s s' /\ Forall (fun t => is_Some (s' !! t)) l /\ (forall v, s' !! Var v = s !! Var v).
Proof.
  revert s. induction l as [|t l IH]; intros s Hs Hp; cbn [reads]; [exists s; split_and!; [done|by apply narrowed_refl|by constructor|done]|].
  apply Forall_cons in Hp as [Ht Hl]. destruct (read_narrowed C s t Hs Ht) as (s1 & E1 & N1 & P1 & V1). rewrite E1. ored.
  destruct (IH s1) as (s2 & E2 & N2 & P2 & V2); [apply N1|eapply Forall_impl; [exact Hl|]; intros u; apply refines_present, N1|].
  exists s2. split; [done|]. split; [by apply (narrowed_trans C s s1 s2)|]. split; [|intros v; by rewrite V2].
  constructor; [|done]. destruct P1 as [d Hd]. destruct (rf_domain _ _ (nw_refines _ _ _ N2) t d Hd) as (d' & Hd' & _). by exists d'.
Qed.

(** A propagator reads its parameters and goes on. *)
Lemma reads_exact C s l k : wf_store s -> Forall (present s) l ->
  (forall s', narrowed C s s' -> Forall (fun t => is_Some (s' !! t)) l -> (forall v, s' !! Var v = s !! Var v) -> exact K s' C (k s')) ->
  exact K s C (s' ← reads s l; k s').
Proof.
  intros Hs Hp Hk. destruct (reads_narrowed C s l Hs Hp) as (s' & E & N & P & V). rewrite E. ored. apply (exact_narrowed C s s'); [done|]. by apply Hk.
Qed.

(** ** Equal variables *)

Lemma isEqualVars_eq a b : OZ_isEqualVars a b = true -> a = b.
Proof. destruct a, b; try done. cbn. intros E. f_equal. lia. Qed.

(** Narrowing a parameter leaves the domain of another one alone: they are different, or the same integer,
    whose domain cannot change without becoming empty. *)
Lemma lookup_other s t u d d' Q : wf_store s -> s !! t = Some d -> wf_domain t d' -> (forall v, fd_mem d' v = fd_mem d v && Q v) -> OZ_isEqualVars t u = false ->
  forall e', <[t := d']> s !! u = Some e' -> exists e, s !! u = Some e /\ min_elem e' = min_elem e /\ max_elem e' = max_elem e /\ size e' = size e.
Proof.
  intros Hs Ht Hd Hv Hne e'. destruct (decide (t = u)) as [<-|Htu]; [|rewrite lookup_insert_ne by done; intros He; by exists e'].
  rewrite lookup_insert_eq. intros [= <-]. exists d. split; [done|]. destruct t as [v|n]; [cbn in Hne; lia|].
  destruct (Hs _ d Ht) as [Hw Hz Hi], Hd as [Hw' Hz' Hi'].
  assert (forall v, fd_mem d' v = fd_mem d v) as Hsame by (intros v; by rewrite (Hi n v eq_refl), (Hi' n v eq_refl)).
  destruct (wf_bounds d Hw Hz) as [Hmin Hmax _ _ _ _], (wf_bounds d' Hw' Hz') as [Hmin' Hmax' _ _ _ _].
  rewrite (Hi n _ eq_refl) in Hmin. rewrite (Hi n _ eq_refl) in Hmax. rewrite (Hi' n _ eq_refl) in Hmin'. rewrite (Hi' n _ eq_refl) in Hmax'. split; [lia|]. split; [lia|].
  rewrite (repr_card d _ (wf_repr d Hw)), (repr_card d' _ (wf_repr d' Hw')). apply card_ext, Hsame.
Qed.

Lemma same_other s t u d d' e e' : wf_store s -> s !! t = Some d -> wf_domain t d' -> OZ_isEqualVars t u = false ->
  s !! u = Some e -> <[t := d']> s !! u = Some e' -> forall v, fd_mem e' v = fd_mem e v.
Proof.
  intros Hs Ht Hd Hne He. destruct (decide (t = u)) as [<-|Htu]; [|rewrite lookup_insert_ne by done; congruence]. rewrite lookup_insert_eq. intros [= <-] v.
  destruct t as [w|n]; [cbn in Hne; lia|]. by rewrite (wd_int _ _ (Hs _ e He) n v eq_refl), (wd_int _ _ Hd n v eq_refl).
Qed.

(** A narrowing as the rest of the propagator sees it. *)
Record step C s t d Q s' d' : Prop := {
  st_narrowed : narrowed C s s';
  st_lookup : s' !! t = Some d';
  st_mem v : fd_mem d' v = fd_mem d v && Q v;
  st_sol α : sol s' α -> sol s α /\ Q (value α t) = true;
  st_size : size d' <= size d;
  st_frame u : t <> u -> s' !! u = s !! u;
  st_same u e e' : s !! u = Some e -> OZ_isEqualVars t u = false -> s' !! u = Some e' -> forall v, fd_mem e' v = fd_mem e v;
  st_other u e : s !! u = Some e -> OZ_isEqualVars t u = false -> exists e', s' !! u = Some e' /\ min_elem e' = min_elem e /\ max_elem e' = max_elem e /\ size e' = size e
}.

(** A narrowing under any predicate on outcomes: it fails only when there is no solution. *)
Lemma fail_any (Φ : option Outcome -> Prop) s t op Q C k d : wf_store s -> s !! t = Some d -> narrows op d Q -> (forall α, sol s α -> C α -> Q (value α t) = true) ->
  ((forall α, sol s α -> ~ C α) -> Φ (Some FAILED)) -> (forall s' d', step C s t d Q s' d' -> Φ (k s')) -> Φ (FailOnEmpty s t op k).
Proof.
  intros Hs Ht (d' & Ho & Hw & Hv) HQ Hf Hk. unfold FailOnEmpty. rewrite Ht. ored. rewrite Ho. ored. destruct (Z.eqb_spec (size d') 0) as [Hz|Hz].
  - apply Hf. intros α Ha HC. specialize (HQ α Ha HC). pose proof (size_zero d' Hw Hz (value α t)) as Hn. rewrite Hv, (Ha t d Ht), HQ in Hn. done.
  - assert (0 < size d') as Hz' by (destruct Hw as [? _]; lia). pose proof (insert_narrowed C s t d d' Q Hs Ht Hw Hz' Hv HQ) as Hn.
    assert (wf_domain t d') as Hd' by (apply (nw_wf _ _ _ Hn t); by rewrite lookup_insert_eq). apply (Hk _ d'). split; try done.
    + by rewrite lookup_insert_eq.
    + intros α. by apply (insert_sol s t d).
    + apply size_le; [by apply (Hs t)|by apply Hd'|]. intros v. rewrite Hv. by destruct (fd_mem d v).
    + intros u Hne. by apply lookup_insert_ne.
    + intros u e e' Hu Hne Hu'. by apply (same_other s t u d d' e e').
    + intros u e Hu Hne. destruct (rf_domain _ _ (nw_refines _ _ _ Hn) u e Hu) as (e' & Hu' & _). exists e'. split; [done|].
      destruct (lookup_other s t u d d' Q Hs Ht Hd' Hv Hne e' Hu') as (e2 & Hu2 & H1 & H2 & H3). rewrite Hu in Hu2. by injection Hu2 as <-.
Qed.

Lemma fail_step s t op Q C k d : wf_store s -> s !! t = Some d -> narrows op d Q -> (forall α, sol s α -> C α -> Q (value α t) = true) ->
  (forall s' d', step C s t d Q s' d' -> exact K s' C (k s')) -> exact K s C (FailOnEmpty s t op k).
Proof.
  intros Hs Ht Hn HQ Hk. apply (fail_any (exact K s C) s t op Q C k d); try done; [by apply failed_exact|]. intros s' d' St. by apply (exact_narrowed C s s'); [apply St|apply (Hk s' d')].
Qed.

Lemma step_wf C s t d Q s' d' : step C s t d Q s' d' -> wf_store s' /\ wf_domain t d'.
Proof. intros [Hn Ht _ _ _ _ _ _]. split; [apply Hn|]. by apply (nw_wf _ _ _ Hn t). Qed.

Lemma ge_bounds d d' b : bounds d -> bounds d' -> (forall v, fd_mem d' v = fd_mem d v && (b <=? v)) ->
  max_elem d' = max_elem d /\ b <= min_elem d' /\ min_elem d <= min_elem d'.
Proof.
  intros [H1 H2 H3 _ _ _] [H1' H2' H3' _ _ _] Hv. pose proof H1' as Hm. rewrite Hv in Hm. apply andb_true_iff in Hm as [Hm Hb].
  pose proof H2' as Hx. rewrite Hv in Hx. apply andb_true_iff in Hx as [Hx _]. pose proof (H3' (max_elem d)) as Hin. rewrite Hv, H2 in Hin.
  pose proof (H3 _ Hm). pose proof (H3 _ Hx). lia.
Qed.

Lemma le_bounds d d' b : bounds d -> bounds d' -> (forall v, fd_mem d' v = fd_mem d v && (v <=? b)) ->
  min_elem d' = min_elem d /\ max_elem d' <= b /\ max_elem d' <= max_elem d.
Proof.
  intros [H1 H2 H3 _ _ _] [H1' H2' H3' _ _ _] Hv. pose proof H2' as Hm. rewrite Hv in Hm. apply andb_true_iff in Hm as [Hm Hb].
  pose proof H1' as Hx. rewrite Hv in Hx. apply andb_true_iff in Hx as [Hx _]. pose proof (H3' (min_elem d)) as Hin. rewrite Hv, H1 in Hin.
  pose proof (H3 _ Hm). pose proof (H3 _ Hx). lia.
Qed.

Lemma ge_step s t b C k d : wf_store s -> s !! t = Some d -> (forall α, sol s α -> C α -> b <= value α t) ->
  (forall s' d', step C s t d (fun v => b <=? v) s' d' -> bounds d' -> max_elem d' = max_elem d -> b <= min_elem d' -> min_elem d <= min_elem d' -> exact K s' C (k s')) ->
  exact K s C (FailOnEmpty s t (ge b) k).
Proof.
  intros Hs Ht HQ Hk. destruct (Hs t d Ht) as [Hw Hz _]. eapply fail_step; [done|exact Ht|by apply dom_ge_narrows|intros α Ha HC; specialize (HQ α Ha HC); lia|].
  intros s' d' Hst. pose proof (step_wf _ _ _ _ _ _ _ Hst) as [Hs' Hd']. pose proof (store_bounds s' t d' Hs' (st_lookup _ _ _ _ _ _ _ Hst)) as Hb'.
  destruct (ge_bounds d d' b (store_bounds s t d Hs Ht) Hb' (st_mem _ _ _ _ _ _ _ Hst)) as (H1 & H2 & H3). by apply (Hk s' d').
Qed.

Lemma le_step s t b C k d : wf_store s -> s !! t = Some d -> (forall α, sol s α -> C α -> value α t <= b) ->
  (forall s' d', step C s t d (fun v => v <=? b) s' d' -> bounds d' -> min_elem d' = min_elem d -> max_elem d' <= b -> max_elem d' <= max_elem d -> exact K s' C (k s')) ->
  exact K s C (FailOnEmpty s t (le b) k).
Proof.
  intros Hs Ht HQ Hk. destruct (Hs t d Ht) as [Hw Hz _]. eapply fail_step; [done|exact Ht|by apply dom_le_narrows|intros α Ha HC; specialize (HQ α Ha HC); lia|].
  intros s' d' Hst. pose proof (step_wf _ _ _ _ _ _ _ Hst) as [Hs' Hd']. pose proof (store_bounds s' t d' Hs' (st_lookup _ _ _ _ _ _ _ Hst)) as Hb'.
  destruct (le_bounds d d' b (store_bounds s t d Hs Ht) Hb' (st_mem _ _ _ _ _ _ _ Hst)) as (H1 & H2 & H3). by apply (Hk s' d').
Qed.

Lemma eqc_step s t b C k d : wf_store s -> s !! t = Some d -> (forall α, sol s α -> C α -> value α t = b) ->
  (forall s' d', step C s t d (fun v => v =? b) s' d' -> exact K s' C (k s')) -> exact K s C (FailOnEmpty s t (eqc b) k).
Proof.
  intros Hs Ht HQ Hk. destruct (Hs t d Ht) as [Hw Hz _]. eapply fail_step; [done|exact Ht|by apply eqc_narrows|intros α Ha HC; specialize (HQ α Ha HC); lia|done].
Qed.

Lemma inter_step s t e C k d : wf_store s -> s !! t = Some d -> wf e -> (forall α, sol s α -> C α -> fd_mem e (value α t) = true) ->
  (forall s' d', step C s t d (fd_mem e) s' d' -> exact K s' C (k s')) -> exact K s C (FailOnEmpty s t (inter e) k).
Proof. intros Hs Ht He HQ Hk. destruct (Hs t d Ht) as [Hw Hz _]. eapply fail_step; [done|exact Ht|by apply inter_narrows|done|done]. Qed.

(** Parameters that have been read. *)
Record live s (l : list Term) : Prop := {
  lv_wf : wf_store s;
  lv_present : Forall (present s) l;
  lv_some : Forall (fun t => is_Some (s !! t)) l
}.

Lemma narrowed_live C s s' l : narrowed C s s' -> live s l -> live s' l.
Proof.
  intros [Hw Hr _] [_ Hp Hl]. split; [done|eapply Forall_impl; [exact Hp|]; intros t; by apply refines_present|].
  eapply Forall_impl; [exact Hl|]. intros t [d Hd]. destruct (rf_domain _ _ Hr t d Hd) as (d' & Hd' & _). by exists d'.
Qed.

Lemma step_live C s t d Q s' d' l : step C s t d Q s' d' -> live s l -> live s' l.
Proof. intros Hst. by apply (narrowed_live C), Hst. Qed.

Lemma live_lookup s l t : live s l -> t ∈ l -> exists d, s !! t = Some d.
Proof. intros [_ _ Hl] Ht. rewrite Forall_forall in Hl. by apply Hl. Qed.

Lemma reads_live C s l k : wf_store s -> Forall (present s) l ->
  (forall s', narrowed C s s' -> live s' l -> (forall v, s' !! Var v = s !! Var v) -> exact K s' C (k s')) -> exact K s C (s' ← reads s l; k s').
Proof.
  intros Hs Hp Hk. apply reads_exact; [done|done|]. intros s' N P V. apply Hk; [done| |done]. split; [apply N| |done].
  eapply Forall_impl; [exact Hp|]. intros t. apply refines_present, N.
Qed.

(** A propagator goes to sleep with all its registers. *)
Lemma leave_all s C l p : live s l -> kind_ok s p -> params p = l -> (forall α, sol s α -> C α <-> holds p α) ->
  (K -> Forall (determined s) l -> forall α, sol s α -> C α) -> exact K s C (leave s l p).
Proof. intros [Hs Hp Hl] Hk <- HC Hd. by apply leave_exact. Qed.

(** The domains of determined parameters. *)
Lemma determined_at s l t d : Forall (determined s) l -> t ∈ l -> s !! t = Some d -> singl d = true.
Proof. intros Hd Ht Hl. rewrite Forall_forall in Hd. destruct (Hd t Ht) as (e & He & Es). congruence. Qed.
End rules.
End PropRules.
