(* ===== verification/PropRel.v ===== *)
(** * The propagators of truth values and of relations are exact *)
From stdpp Require Import gmap.
From S2P Require Import Prelude Word32 FDBase FDIntervals FDBitVector FiniteDomain FDRepr Propagators PropSpec FDQueries FDOperators FDSetOperators.

(** * The propagators of truth values are exact *)

Import FiniteDomain FDRepr PropBase BoolPropagators PropSpec PropRules.

Module PropBool.

(** What is known of an assignment of a store: truth values, and the values of determined parameters. *)
Ltac known α Ha :=
  repeat match goal with
  | Hb : is_bool ?s ?t, Ht : ?s !! ?t = Some ?d |- _ => lazymatch type of Ha with sol s α => pose proof (bool_value s t d α Hb Ht Ha); clear Hb end
  end;
  repeat match goal with
  | Hs : wf_store ?s, Ht : ?s !! ?t = Some ?d, E : singl ?d = true |- _ => lazymatch type of Ha with sol s α => pose proof (single_value s t d α Hs Ht E Ha); clear E end
  end.

Section bool.
Context `{FDEnv} (Hg : globals_ok fd_env).
Implicit Types (s : gmap Term FiniteDomain) (x y z : Term).

(** The situation after the parameters have been read. *)
Record ready s (l : list Term) : Prop := {
  rd_wf : wf_store s;
  rd_params : Forall (fun t => is_Some (s !! t)) l;
  rd_present : Forall (present s) l;
  rd_bool : Forall (is_bool s) l
}.

Lemma reads_ready C s l k : wf_store s -> Forall (present s) l -> Forall (is_bool s) l -> (forall s, ready s l -> exact True s C (k s)) -> exact True s C (s ← reads s l; k s).
Proof.
  intros Hs Hp Hb Hk. apply reads_exact; [done|done|]. intros s' N P _. apply Hk. split; [apply N|done|..].
  - eapply Forall_impl; [exact Hp|]. intros t. apply refines_present, N.
  - rewrite Forall_forall in Hp, Hb |- *. intros t Ht. apply (refines_bool s s'); [apply N|by apply Hp|by apply Hb].
Qed.

Lemma negation_exact s x y : wf_store s -> Forall (present s) [x; y] -> Forall (is_bool s) [x; y] -> exact True s (holds (Negation x y)) (propagate_Negation s x y).
Proof.
  intros Hs Hp Hb. apply reads_ready; [done..|]. clear s Hs Hp Hb. intros s [Hs HP Hpr HB].
  pose proof HP as HP'. pose proof HB as HB'. apply Forall_cons in HP' as [[dx Hx] HP']. apply Forall_cons in HP' as [[dy Hy] _]. apply Forall_cons in HB' as [Bx HB']. apply Forall_cons in HB' as [By _].
  rewrite Hx, Hy. ored. destruct (singl dx) eqn:Ex; [|destruct (singl dy) eqn:Ey; [|destruct (OZ_isEqualVars x y) eqn:Exy]].
  - eapply fail_vanish; [done|exact Hy|by apply eqc_narrows, (Hs y)|]. intros α Ha. known α Ha. cbn [holds]. lia.
  - eapply fail_vanish; [done|exact Hx|by apply eqc_narrows, (Hs x)|]. intros α Ha. known α Ha. cbn [holds]. lia.
  - apply failed_exact. intros α Ha. apply isEqualVars_eq in Exy as <-. cbn [holds]. lia.
  - apply leave_exact; [done|done|by split_and!|done|done|]. intros _; apply (not_determined s x dx); [done|done|set_solver].
Qed.

Ltac leaf :=
  let α := fresh "α" in let Ha := fresh "Ha" in
  intros α Ha; known α Ha;
  repeat match goal with E : OZ_isEqualVars _ _ = true |- _ => apply isEqualVars_eq in E; subst end;
  cbn [holds];
  repeat match goal with
  | |- context[if ?a =? ?b then _ else _] => destruct (Z.eqb_spec a b)
  | |- context[if ?a <=? ?b then _ else _] => destruct (Z.leb_spec a b)
  end; lia.

(** Each way a propagator of truth values ends. *)
Ltac finish :=
  lazymatch goal with
  | |- exact _ _ _ (FailOnEmpty _ _ _ (fun s => vanish s)) => eapply fail_vanish; [done|eassumption|apply eqc_narrows; match goal with Hs : wf_store _, Ht : _ !! _ = Some ?d |- wf ?d => apply (Hs _ d Ht) end|leaf]
  | |- exact _ _ _ (Some (UNIFY _ _ _)) => apply unify_exact; [done|done|done|leaf]
  | |- exact _ _ _ (propagate_Negation ?s ?x ?y) => apply (exact_ext s (holds (Negation x y))); [leaf|apply negation_exact; [done|by repeat constructor|by repeat constructor]]
  end.

Section ternary.
Context (s0 : gmap Term FiniteDomain) (x y z : Term) (Hs0 : wf_store s0) (Hp0 : Forall (present s0) [x; y; z]) (Hb0 : Forall (is_bool s0) [x; y; z]).

(** The three domains of a propagator of three truth values. *)
Lemma ternary_exact C (k : gmap Term FiniteDomain -> option Outcome) :
  (forall s dx dy dz, wf_store s -> s !! x = Some dx -> s !! y = Some dy -> s !! z = Some dz -> Forall (fun t => is_Some (s !! t)) [x; y; z] ->
     present s x -> present s y -> present s z -> is_bool s x -> is_bool s y -> is_bool s z -> exact True s C (k s)) ->
  exact True s0 C (s ← reads s0 [x; y; z]; k s).
Proof.
  intros Hk. apply reads_ready; [done..|]. intros s [Hs HP Hpr HB]. pose proof HP as HPs.
  apply Forall_cons in HP as [[dx Hx] HP]. apply Forall_cons in HP as [[dy Hy] HP]. apply Forall_cons in HP as [[dz Hz] _].
  apply Forall_cons in Hpr as [? Hpr]. apply Forall_cons in Hpr as [? Hpr]. apply Forall_cons in Hpr as [? _].
  apply Forall_cons in HB as [? HB]. apply Forall_cons in HB as [? HB]. apply Forall_cons in HB as [? _]. by apply (Hk s dx dy dz).
Qed.

Lemma leave3 s C p t d : wf_store s -> Forall (fun t => is_Some (s !! t)) [x; y; z] -> admissible s p -> params p = [x; y; z] -> C = holds p ->
  t ∈ [x; y; z] -> s !! t = Some d -> singl d = false -> exact True s C (leave s [x; y; z] p).
Proof.
  intros Hs Hl Ha Hp -> Hin Ht Hd. apply leave_exact; [done|done|done|done|by rewrite Hp|]. intros _. by apply (not_determined s t d).
Qed.

(** Both parameters are set to the only values that are left. *)
Lemma fail_fail_vanish s C t u dt du a b : wf_store s -> s !! t = Some dt -> s !! u = Some du ->
  (forall α, sol s α -> C α <-> value α t = a /\ value α u = b) ->
  exact True s C (FailOnEmpty s t (eqc a) (fun s => FailOnEmpty s u (eqc b) vanish)).
Proof.
  intros Hs Ht Hu HC. eapply (fail_exact s t _ (fun v => v =? a)); [done|exact Ht|by apply eqc_narrows, (Hs t)|intros α Ha Hc; apply (HC α Ha) in Hc; lia|].
  intros d' Hd' Hv Hn. destruct (rf_domain _ _ (nw_refines _ _ _ Hn) u du Hu) as (eu & Hu' & _).
  eapply fail_vanish; [apply Hn|exact Hu'|apply eqc_narrows; by apply (nw_wf _ _ _ Hn u)|]. intros α Ha.
  destruct (insert_sol s t dt d' _ α Ht Hv Ha) as [Ha' Hq]. rewrite (HC α Ha'). lia.
Qed.

Ltac start := apply ternary_exact; intros s dx dy dz Hs Hx Hy Hz Hall Px Py Pz Bx By Bz; rewrite Hx, Hy, Hz; ored.
Ltac three t := eapply (leave3 _ _ _ t); [done|done|by split; [repeat constructor|split_and!]|done|done|set_solver|eassumption|done].

Lemma conjunction_exact : exact True s0 (holds (Conjunction x y z)) (propagate_Conjunction s0 x y z).
Proof.
  start. destruct (singl dx) eqn:Ex; [destruct (Z.eqb_spec (getSingleElem dx) 0); finish|].
  destruct (singl dy) eqn:Ey; [destruct (Z.eqb_spec (getSingleElem dy) 0); finish|].
  destruct (singl dz && (getSingleElem dz =? 1)) eqn:Ez; [apply andb_true_iff in Ez as [Ez ?]; eapply fail_fail_vanish; try eassumption; leaf|].
  destruct (OZ_isEqualVars x y) eqn:Exy; [finish|]. three x.
Qed.

Lemma disjunction_exact : exact True s0 (holds (Disjunction x y z)) (propagate_Disjunction s0 x y z).
Proof.
  start. destruct (singl dx) eqn:Ex; [destruct (Z.eqb_spec (getSingleElem dx) 1); finish|].
  destruct (singl dy) eqn:Ey; [destruct (Z.eqb_spec (getSingleElem dy) 1); finish|].
  destruct (singl dz && (getSingleElem dz =? 0)) eqn:Ez; [apply andb_true_iff in Ez as [Ez ?]; eapply fail_fail_vanish; try eassumption; leaf|].
  destruct (OZ_isEqualVars x y) eqn:Exy; [finish|]. three x.
Qed.

Lemma xdisjunction_exact : exact True s0 (holds (XDisjunction x y z)) (propagate_XDisjunction s0 x y z).
Proof.
  start. destruct (singl dx && singl dy) eqn:Exy; [apply andb_true_iff in Exy as [Ex Ey]; finish|].
  destruct (singl dz) eqn:Ez; [destruct (Z.eqb_spec (getSingleElem dz) 1); finish|].
  destruct (OZ_isEqualVars x y) eqn:E1; [finish|]. destruct (OZ_isEqualVars x z) eqn:E2; [finish|]. destruct (OZ_isEqualVars y z) eqn:E3; [finish|]. three z.
Qed.

Lemma implication_exact : exact True s0 (holds (Implication x y z)) (propagate_Implication s0 x y z).
Proof.
  start. destruct (singl dx) eqn:Ex; [destruct (Z.eqb_spec (getSingleElem dx) 0); finish|].
  destruct (singl dy) eqn:Ey; [destruct (Z.eqb_spec (getSingleElem dy) 1); finish|].
  destruct (singl dz && (getSingleElem dz =? 0)) eqn:Ez; [apply andb_true_iff in Ez as [Ez ?]; eapply fail_fail_vanish; try eassumption; leaf|].
  destruct (OZ_isEqualVars x y) eqn:Exy; [finish|]. three x.
Qed.

Lemma equivalence_exact : exact True s0 (holds (Equivalence x y z)) (propagate_Equivalence s0 x y z).
Proof.
  start. destruct (singl dx && singl dy) eqn:Exy; [apply andb_true_iff in Exy as [Ex Ey]; finish|].
  destruct (singl dz) eqn:Ez; [destruct (Z.eqb_spec (getSingleElem dz) 0); finish|].
  destruct (OZ_isEqualVars x y) eqn:E1; [finish|]. destruct (OZ_isEqualVars x z) eqn:E2; [finish|]. destruct (OZ_isEqualVars y z) eqn:E3; [finish|]. three z.
Qed.
End ternary.
End bool.
End PropBool.

(** * The propagators of relations are exact *)

Import FiniteDomain FDRepr FDQueries FDOperators FDSetOperators PropBase RelPropagators PropSpec PropRules.

Module PropRel.

(** The values that an assignment can give to the parameters whose domains are at hand. *)
Ltac within α Ha :=
  repeat match goal with
  | Hs : wf_store ?s, Ht : ?s !! ?t = Some ?d |- _ =>
      lazymatch type of Ha with sol s α =>
        lazymatch goal with
        | _ : min_elem d <= value α t <= max_elem d |- _ => fail
        | _ => pose proof (sol_within s t d α Hs Ht Ha)
        end
      end
  end.

(** The parameters of [s] are read. *)
Ltac enter s :=
  apply reads_live; [done|done|];
  let s' := fresh "s" in let L := fresh "L" in intros s' _ L _; clear dependent s; rename s' into s, L into L; pose proof (lv_wf s _ L) as Hs.

Section rel.
Context `{FDEnv} (Hg : globals_ok fd_env) {K : Prop}.
Implicit Types (s : gmap Term FiniteDomain) (x y z t : Term) (m : bool).

Lemma noteq_exact m s x y c : wf_store s -> Forall (present s) [x; y] -> exact K s (holds (NotEqOff x y c)) (propagate_NotEqOff m s x y c).
Proof.
  intros Hs Hp. unfold propagate_NotEqOff. destruct (m && OZ_isEqualVars x y) eqn:Em.
  - apply andb_true_iff in Em as [_ Exy]. apply isEqualVars_eq in Exy as <-. destruct (Z.eqb_spec 0 c) as [<-|].
    + apply failed_exact. intros α _. cbn [holds]. lia.
    + apply vanish_exact; [done|]. intros _ α _. cbn [holds]. lia.
  - enter s.
    destruct (live_lookup s _ x L) as [dx Hx]; [by repeat constructor|]. destruct (live_lookup s _ y L) as [dy Hy]; [by repeat constructor|]. rewrite Hx, Hy. ored.
    destruct (singl dx) eqn:Ex; [|destruct (singl dy) eqn:Ey; [|destruct (_ || _) eqn:Eb]].
    + eapply fail_vanish; [done|exact Hy|by apply nec_narrows, (Hs y)|]. intros α Ha. pose proof (single_value s x dx α Hs Hx Ex Ha). cbn [holds]. lia.
    + eapply fail_vanish; [done|exact Hx|by apply nec_narrows, (Hs x)|]. intros α Ha. pose proof (single_value s y dy α Hs Hy Ey Ha). cbn [holds]. lia.
    + apply vanish_exact; [done|]. intros _ α Ha. within α Ha. cbn [holds]. lia.
    + apply leave_all; [done|done|done|done|]. intros _ Hd. apply (determined_at s _ x dx) in Hd; [congruence|set_solver|done].
Qed.

Lemma lesseq_exact m s x y c : wf_store s -> Forall (present s) [x; y] -> exact K s (holds (LessEqOff x y c)) (propagate_LessEqOff m s x y c).
Proof.
  intros Hs Hp. unfold propagate_LessEqOff. destruct (m && OZ_isEqualVars x y) eqn:Em.
  - apply andb_true_iff in Em as [_ Exy]. apply isEqualVars_eq in Exy as <-. destruct (Z.leb_spec 0 c).
    + apply vanish_exact; [done|]. intros _ α _. cbn [holds]. lia.
    + apply failed_exact. intros α _. cbn [holds]. lia.
  - enter s.
    destruct (live_lookup s _ x L) as [dx Hx]; [by repeat constructor|]. destruct (live_lookup s _ y L) as [dy Hy]; [by repeat constructor|]. rewrite Hy. ored.
    eapply (le_step Hg); [done|exact Hx|intros α Ha; within α Ha; cbn [holds]; lia|]. intros s1 dx1 St1 B1 _ _ _. pose proof (step_live _ _ _ _ _ _ _ _ St1 L) as L1.
    pose proof (lv_wf s1 _ L1) as Hs1. pose proof (st_lookup _ _ _ _ _ _ _ St1) as Hx1. rewrite Hx1. ored.
    destruct (live_lookup s1 _ y L1) as [dy1 Hy1]; [by repeat constructor|].
    eapply (ge_step Hg); [done|exact Hy1|intros α Ha; within α Ha; cbn [holds]; lia|]. intros s2 dy2 St2 B2 _ _ _. pose proof (step_live _ _ _ _ _ _ _ _ St2 L1) as L2.
    pose proof (lv_wf s2 _ L2) as Hs2. pose proof (st_lookup _ _ _ _ _ _ _ St2) as Hy2. destruct (live_lookup s2 _ x L2) as [dx2 Hx2]; [by repeat constructor|]. rewrite Hx2, Hy2. ored.
    destruct (Z.leb_spec (max_elem dx2) (min_elem dy2 + c)); [|destruct (Z.ltb_spec (max_elem dy2 + c) (min_elem dx2))].
    + apply vanish_exact; [done|]. intros _ α Ha. within α Ha. cbn [holds]. lia.
    + apply failed_exact. intros α Ha. within α Ha. cbn [holds]. lia.
    + apply leave_all; [done|done|done|done|]. intros _ Hd α Ha. within α Ha. cbn [holds].
      pose proof (determined_at s2 _ x dx2 Hd ltac:(by repeat constructor) Hx2) as Dx. pose proof (determined_at s2 _ y dy2 Hd ltac:(by repeat constructor) Hy2) as Dy.
      destruct (Hs2 x dx2 Hx2) as [Wx Zx _], (Hs2 y dy2 Hy2) as [Wy Zy _]. rewrite singl_spec in Dx, Dy by done. lia.
Qed.

Lemma alias_pair m l a b : (m = true \/ OZ_hasEqualVars l = false) -> m && OZ_isEqualVars a b = false -> (OZ_hasEqualVars l = false -> OZ_isEqualVars a b = false) -> OZ_isEqualVars a b = false.
Proof. intros [->|Hl] Hm Hi; [done|auto]. Qed.

Lemma isEqualVars_sym a b : OZ_isEqualVars a b = OZ_isEqualVars b a.
Proof. destruct a, b; try done. cbn. apply Z.eqb_sym. Qed.

Lemma subset_exact s x y : wf_store s -> Forall (present s) [x; y] -> exact K s (holds (SubSet x y)) (propagate_SubSet s x y).
Proof.
  intros Hs Hp. enter s. destruct (OZ_isEqualVars x y) eqn:Exy.
  - apply isEqualVars_eq in Exy as <-. by apply vanish_exact.
  - destruct (live_lookup s _ x L) as [dx Hx]; [by repeat constructor|]. destruct (live_lookup s _ y L) as [dy Hy]; [by repeat constructor|]. rewrite Hy. ored.
    eapply (inter_step Hg); [done|exact Hx|by apply (Hs y)|intros α Ha; cbn [holds]; intros ->; by apply (Ha y)|].
    intros s1 dx1 St1. pose proof (step_live _ _ _ _ _ _ _ _ St1 L) as L1. apply leave_all; [done|done|done|done|].
    intros _ Hd α Ha. destruct (st_sol _ _ _ _ _ _ _ St1 α Ha) as [Ha0 Hq]. destruct (st_other _ _ _ _ _ _ _ St1 y dy Hy Exy) as (dy1 & Hy1 & _ & _ & Hz).
    pose proof (determined_at s1 _ y dy1 Hd ltac:(by repeat constructor) Hy1) as Dy. assert (singl dy = true) as Dy0 by (unfold singl in *; by rewrite <- Hz).
    destruct (Hs y dy Hy) as [Wy Zy _]. rewrite singl_spec in Dy0 by done. pose proof (bd_in dy (wf_bounds dy Wy Zy) _ Hq). within α Ha0. cbn [holds]. lia.
Qed.

(** The domain of a variable has no gaps. *)
Definition convex s t : Prop :=
  match t with Var _ => forall d v, s !! t = Some d -> min_elem d <= v <= max_elem d -> fd_mem d v = true | SmallInt _ => True end.

Lemma convex_mem s t d v : wf_store s -> convex s t -> s !! t = Some d -> min_elem d <= v <= max_elem d -> fd_mem d v = true.
Proof.
  intros Hs Hc Ht Hv. destruct t as [w|n]; [by apply (Hc d)|]. destruct (store_bounds s _ d Hs Ht) as [H1 H2 _ _ _ _]. pose proof (wd_int _ _ (Hs _ d Ht) n) as Hi.
  rewrite Hi in H1 by done. rewrite Hi in H2 by done. rewrite Hi by done. lia.
Qed.

Lemma convex_read s s' t : (forall v, s' !! Var v = s !! Var v) -> convex s t -> convex s' t.
Proof. intros HV. destruct t as [v|n]; [|done]. cbn. by rewrite HV. Qed.

Lemma ge_convex C s t b d s' d' : wf_store s -> s !! t = Some d -> convex s t -> step C s t d (fun v => b <=? v) s' d' -> min_elem d' = Z.max b (min_elem d).
Proof.
  intros Hs Ht Hc Hst. destruct (step_wf _ _ _ _ _ _ _ Hst) as [Hs' [Hw Hz _]]. pose proof (wf_bounds d' Hw Hz) as [M1 M2 M3 _ _ _]. pose proof (st_mem _ _ _ _ _ _ _ Hst) as Hv.
  rewrite Hv in M1. rewrite Hv in M2. apply andb_true_iff in M1 as [M1 M1'], M2 as [M2 M2']. pose proof (bd_in d (store_bounds s t d Hs Ht) _ M1). pose proof (bd_in d (store_bounds s t d Hs Ht) _ M2).
  pose proof (M3 (Z.max b (min_elem d))) as Hin. rewrite Hv, (convex_mem s t) in Hin by (done || lia). lia.
Qed.

Lemma le_convex C s t b d s' d' : wf_store s -> s !! t = Some d -> convex s t -> step C s t d (fun v => v <=? b) s' d' -> max_elem d' = Z.min b (max_elem d).
Proof.
  intros Hs Ht Hc Hst. destruct (step_wf _ _ _ _ _ _ _ Hst) as [Hs' [Hw Hz _]]. pose proof (wf_bounds d' Hw Hz) as [M1 M2 M3 _ _ _]. pose proof (st_mem _ _ _ _ _ _ _ Hst) as Hv.
  rewrite Hv in M1. rewrite Hv in M2. apply andb_true_iff in M1 as [M1 M1'], M2 as [M2 M2']. pose proof (bd_in d (store_bounds s t d Hs Ht) _ M1). pose proof (bd_in d (store_bounds s t d Hs Ht) _ M2).
  pose proof (M3 (Z.min b (max_elem d))) as Hin. rewrite Hv, (convex_mem s t) in Hin by (done || lia). lia.
Qed.

(** The domains of other parameters after a narrowing. *)
Lemma step_convex C s t d Q s' d' u : step C s t d Q s' d' -> OZ_isEqualVars t u = false -> convex s u -> convex s' u.
Proof. intros Hst Hne. destruct u as [v|n]; [|done]. cbn. rewrite (st_frame _ _ _ _ _ _ _ Hst); [done|]. intros ->. cbn in Hne. lia. Qed.

(** The value of a parameter that is determined. *)
Lemma determined_value s l t d α : wf_store s -> Forall (determined s) l -> t ∈ l -> s !! t = Some d -> sol s α -> value α t = min_elem d /\ max_elem d = min_elem d.
Proof.
  intros Hs Hd Hin Ht Ha. pose proof (determined_at s l t d Hd Hin Ht) as Es. destruct (Hs t d Ht) as [Hw Hz _]. rewrite singl_spec in Es by done. pose proof (sol_within s t d α Hs Ht Ha). lia.
Qed.

(** No two parameters are the same variable once the propagator has looked for equal ones. *)
Lemma no_alias3 m x y z : (m = true \/ OZ_hasEqualVars [x; y; z] = false) -> m && OZ_isEqualVars x y = false -> m && OZ_isEqualVars x z = false -> m && OZ_isEqualVars y z = false ->
  (OZ_isEqualVars x y = false /\ OZ_isEqualVars y x = false) /\ (OZ_isEqualVars x z = false /\ OZ_isEqualVars z x = false) /\ OZ_isEqualVars y z = false /\ OZ_isEqualVars z y = false.
Proof.
  rewrite (isEqualVars_sym y x), (isEqualVars_sym z x), (isEqualVars_sym z y). intros [->|Hl]; [done|]. intros _ _ _. cbn [OZ_hasEqualVars existsb] in Hl. destruct (OZ_isEqualVars x y), (OZ_isEqualVars x z), (OZ_isEqualVars y z); done.
Qed.

(** The common part of minimum and maximum: how they treat equal variables. *)
Lemma forall3 (P : Term -> Prop) x y z : Forall P [x; y; z] -> P x /\ P y /\ P z.
Proof. intros Hp. by repeat match goal with HF : Forall _ (_ :: _) |- _ => apply Forall_cons in HF as [? HF] end. Qed.

Lemma minimum_exact m s x y z : (m = true \/ OZ_hasEqualVars [x; y; z] = false) -> (K -> convex s x /\ convex s y) -> wf_store s -> Forall (present s) [x; y; z] ->
  exact K s (holds (Minimum x y z)) (propagate_Minimum m s x y z).
Proof.
  intros Hm HK Hs Hp. destruct (forall3 _ x y z Hp) as (Px & Py & Pz).
  unfold propagate_Minimum. destruct (m && OZ_isEqualVars x y) eqn:E1; [|destruct (m && OZ_isEqualVars x z) eqn:E2; [|destruct (m && OZ_isEqualVars y z) eqn:E3]].
  - apply andb_true_iff in E1 as [_ E1]. apply isEqualVars_eq in E1 as <-. apply unify_exact; [done|done|done|]. intros α _. cbn [holds]. lia.
  - apply andb_true_iff in E2 as [_ E2]. apply isEqualVars_eq in E2 as <-. eapply exact_ext; [|by apply lesseq_exact; [|repeat constructor]]. intros α _. cbn [holds]. lia.
  - apply andb_true_iff in E3 as [_ E3]. apply isEqualVars_eq in E3 as <-. eapply exact_ext; [|by apply lesseq_exact; [|repeat constructor]]. intros α _. cbn [holds]. lia.
  - destruct (no_alias3 m x y z Hm E1 E2 E3) as ((Nxy & Nyx) & (Nxz & Nzx) & Nyz & Nzy).
    apply reads_live; [done|done|]. intros s0 _ L V. assert (K -> convex s0 x /\ convex s0 y) as HK0 by (intros k; split; apply (convex_read s); try apply HK; done).
    clear dependent s. pose proof (lv_wf _ _ L) as Hs0.
    destruct (live_lookup s0 _ x L) as [dx Hx]; [by repeat constructor|]. destruct (live_lookup s0 _ y L) as [dy Hy]; [by repeat constructor|]. destruct (live_lookup s0 _ z L) as [dz Hz]; [by repeat constructor|]. rewrite Hx, Hy. ored.
    eapply (ge_step Hg); [done|exact Hz|intros α Ha; within α Ha; cbn [holds]; lia|]. intros s1 dz1 St1 _ _ Mz1 _. pose proof (step_live _ _ _ _ _ _ _ _ St1 L) as L1.
    destruct (st_other _ _ _ _ _ _ _ St1 x dx Hx Nzx) as (dx1 & Hx1 & Ex1 & Fx1 & _). destruct (st_other _ _ _ _ _ _ _ St1 y dy Hy Nzy) as (dy1 & Hy1 & Ey1 & Fy1 & _).
    eapply (le_step Hg); [apply L1|apply St1|intros α Ha; pose proof (lv_wf _ _ L1); within α Ha; cbn [holds]; lia|]. intros s2 dz2 St2 _ Gz2 Mz2 _. pose proof (step_live _ _ _ _ _ _ _ _ St2 L1) as L2.
    destruct (st_other _ _ _ _ _ _ _ St2 x dx1 Hx1 Nzx) as (dx2 & Hx2 & Ex2 & Fx2 & _). destruct (st_other _ _ _ _ _ _ _ St2 y dy1 Hy1 Nzy) as (dy2 & Hy2 & Ey2 & Fy2 & _).
    pose proof (st_lookup _ _ _ _ _ _ _ St2) as Hz2. pose proof (lv_wf _ _ L2) as Hs2. rewrite Hz2. ored.
    eapply (ge_step Hg); [done|exact Hx2|intros α Ha; within α Ha; cbn [holds]; lia|]. intros s3 dx3 St3 _ _ _ _. pose proof (step_live _ _ _ _ _ _ _ _ St3 L2) as L3. pose proof (lv_wf _ _ L3) as Hs3.
    destruct (st_other _ _ _ _ _ _ _ St3 z dz2 Hz2 Nxz) as (dz3 & Hz3 & Ez3 & Fz3 & _). destruct (st_other _ _ _ _ _ _ _ St3 y dy2 Hy2 Nxy) as (dy3 & Hy3 & Ey3 & Fy3 & _). rewrite Hz3. ored.
    eapply (ge_step Hg); [done|exact Hy3|intros α Ha; within α Ha; cbn [holds]; lia|]. intros s4 dy4 St4 _ _ _ _. pose proof (step_live _ _ _ _ _ _ _ _ St4 L3) as L4. pose proof (lv_wf _ _ L4) as Hs4.
    destruct (st_other _ _ _ _ _ _ _ St4 z dz3 Hz3 Nyz) as (dz4 & Hz4 & Ez4 & Fz4 & _). destruct (st_other _ _ _ _ _ _ _ St4 x dx3 (st_lookup _ _ _ _ _ _ _ St3) Nyx) as (dx4 & Hx4 & Ex4 & Fx4 & _).
    apply leave_all; [done|done|done|done|]. intros k Hd α Ha. destruct (HK0 k) as [Cx Cy]. cbn [holds].
    destruct (determined_value s4 _ x dx4 α Hs4 Hd ltac:(by repeat constructor) Hx4 Ha) as [Vx Wx]. destruct (determined_value s4 _ y dy4 α Hs4 Hd ltac:(by repeat constructor) (st_lookup _ _ _ _ _ _ _ St4) Ha) as [Vy Wy].
    destruct (determined_value s4 _ z dz4 α Hs4 Hd ltac:(by repeat constructor) Hz4 Ha) as [Vz Wz].
    pose proof (ge_convex _ _ _ _ _ _ _ Hs2 Hx2 (step_convex _ _ _ _ _ _ _ x St2 Nzx (step_convex _ _ _ _ _ _ _ x St1 Nzx Cx)) St3).
    pose proof (ge_convex _ _ _ _ _ _ _ Hs3 Hy3 (step_convex _ _ _ _ _ _ _ y St3 Nxy (step_convex _ _ _ _ _ _ _ y St2 Nzy (step_convex _ _ _ _ _ _ _ y St1 Nzy Cy))) St4). lia.
Qed.

Lemma maximum_exact m s x y z : (m = true \/ OZ_hasEqualVars [x; y; z] = false) -> (K -> convex s x /\ convex s y) -> wf_store s -> Forall (present s) [x; y; z] ->
  exact K s (holds (Maximum x y z)) (propagate_Maximum m s x y z).
Proof.
  intros Hm HK Hs Hp. destruct (forall3 _ x y z Hp) as (Px & Py & Pz).
  unfold propagate_Maximum. destruct (m && OZ_isEqualVars x y) eqn:E1; [|destruct (m && OZ_isEqualVars x z) eqn:E2; [|destruct (m && OZ_isEqualVars y z) eqn:E3]].
  - apply andb_true_iff in E1 as [_ E1]. apply isEqualVars_eq in E1 as <-. apply unify_exact; [done|done|done|]. intros α _. cbn [holds]. lia.
  - apply andb_true_iff in E2 as [_ E2]. apply isEqualVars_eq in E2 as <-. eapply exact_ext; [|by apply lesseq_exact; [|repeat constructor]]. intros α _. cbn [holds]. lia.
  - apply andb_true_iff in E3 as [_ E3]. apply isEqualVars_eq in E3 as <-. eapply exact_ext; [|by apply lesseq_exact; [|repeat constructor]]. intros α _. cbn [holds]. lia.
  - destruct (no_alias3 m x y z Hm E1 E2 E3) as ((Nxy & Nyx) & (Nxz & Nzx) & Nyz & Nzy).
    apply reads_live; [done|done|]. intros s0 _ L V. assert (K -> convex s0 x /\ convex s0 y) as HK0 by (intros k; split; apply (convex_read s); try apply HK; done).
    clear dependent s. pose proof (lv_wf _ _ L) as Hs0.
    destruct (live_lookup s0 _ x L) as [dx Hx]; [by repeat constructor|]. destruct (live_lookup s0 _ y L) as [dy Hy]; [by repeat constructor|]. destruct (live_lookup s0 _ z L) as [dz Hz]; [by repeat constructor|]. rewrite Hx, Hy. ored.
    eapply (ge_step Hg); [done|exact Hz|intros α Ha; within α Ha; cbn [holds]; lia|]. intros s1 dz1 St1 _ _ Mz1 _. pose proof (step_live _ _ _ _ _ _ _ _ St1 L) as L1.
    destruct (st_other _ _ _ _ _ _ _ St1 x dx Hx Nzx) as (dx1 & Hx1 & Ex1 & Fx1 & _). destruct (st_other _ _ _ _ _ _ _ St1 y dy Hy Nzy) as (dy1 & Hy1 & Ey1 & Fy1 & _).
    eapply (le_step Hg); [apply L1|apply St1|intros α Ha; pose proof (lv_wf _ _ L1); within α Ha; cbn [holds]; lia|]. intros s2 dz2 St2 _ Gz2 Mz2 _. pose proof (step_live _ _ _ _ _ _ _ _ St2 L1) as L2.
    destruct (st_other _ _ _ _ _ _ _ St2 x dx1 Hx1 Nzx) as (dx2 & Hx2 & Ex2 & Fx2 & _). destruct (st_other _ _ _ _ _ _ _ St2 y dy1 Hy1 Nzy) as (dy2 & Hy2 & Ey2 & Fy2 & _).
    pose proof (st_lookup _ _ _ _ _ _ _ St2) as Hz2. pose proof (lv_wf _ _ L2) as Hs2. rewrite Hz2. ored.
    eapply (le_step Hg); [done|exact Hx2|intros α Ha; within α Ha; cbn [holds]; lia|]. intros s3 dx3 St3 _ _ _ _. pose proof (step_live _ _ _ _ _ _ _ _ St3 L2) as L3. pose proof (lv_wf _ _ L3) as Hs3.
    destruct (st_other _ _ _ _ _ _ _ St3 z dz2 Hz2 Nxz) as (dz3 & Hz3 & Ez3 & Fz3 & _). destruct (st_other _ _ _ _ _ _ _ St3 y dy2 Hy2 Nxy) as (dy3 & Hy3 & Ey3 & Fy3 & _). rewrite Hz3. ored.
    eapply (le_step Hg); [done|exact Hy3|intros α Ha; within α Ha; cbn [holds]; lia|]. intros s4 dy4 St4 _ _ _ _. pose proof (step_live _ _ _ _ _ _ _ _ St4 L3) as L4. pose proof (lv_wf _ _ L4) as Hs4.
    destruct (st_other _ _ _ _ _ _ _ St4 z dz3 Hz3 Nyz) as (dz4 & Hz4 & Ez4 & Fz4 & _). destruct (st_other _ _ _ _ _ _ _ St4 x dx3 (st_lookup _ _ _ _ _ _ _ St3) Nyx) as (dx4 & Hx4 & Ex4 & Fx4 & _).
    apply leave_all; [done|done|done|done|]. intros k Hd α Ha. destruct (HK0 k) as [Cx Cy]. cbn [holds].
    destruct (determined_value s4 _ x dx4 α Hs4 Hd ltac:(by repeat constructor) Hx4 Ha) as [Vx Wx]. destruct (determined_value s4 _ y dy4 α Hs4 Hd ltac:(by repeat constructor) (st_lookup _ _ _ _ _ _ _ St4) Ha) as [Vy Wy].
    destruct (determined_value s4 _ z dz4 α Hs4 Hd ltac:(by repeat constructor) Hz4 Ha) as [Vz Wz].
    pose proof (le_convex _ _ _ _ _ _ _ Hs2 Hx2 (step_convex _ _ _ _ _ _ _ x St2 Nzx (step_convex _ _ _ _ _ _ _ x St1 Nzx Cx)) St3).
    pose proof (le_convex _ _ _ _ _ _ _ Hs3 Hy3 (step_convex _ _ _ _ _ _ _ y St3 Nxy (step_convex _ _ _ _ _ _ _ y St2 Nzy (step_convex _ _ _ _ _ _ _ y St1 Nzy Cy))) St4). lia.
Qed.

(** [z] is narrowed to a domain computed from those of [x] and [y]; [R] says which values that leaves. *)
Lemma narrow_by s x y z dx dy op (R : bool -> bool -> bool) C p : live s [x; y; z] -> s !! x = Some dx -> s !! y = Some dy -> OZ_isEqualVars z x = false -> OZ_isEqualVars z y = false ->
  (exists d, op dx dy = Some d /\ repr d (fun v => R (fd_mem dx v) (fd_mem dy v))) -> kind_ok s p -> (forall s', kind_ok s p -> kind_ok s' p) -> params p = [x; y; z] ->
  (forall α, C α <-> holds p α) -> (forall α, C α -> R (value α z =? value α x) (value α z =? value α y) = true) ->
  (forall α, R (value α z =? value α x) (value α z =? value α y) = true -> C α) ->
  (forall a b a' b', R a b = true -> (a = true -> a' = true) -> (b = true -> b' = true) -> R a' b' = true) ->
  exact K s C (d ← op dx dy; FailOnEmpty s z (inter d) (fun s => leave s [x; y; z] p)).
Proof.
  intros L Hx Hy Nzx Nzy (d & Eo & Hw & Hv) Hk Hk' Hp HC HR1 HR2 Hmono. rewrite Eo. ored. pose proof (lv_wf _ _ L) as Hs.
  destruct (live_lookup s _ z L) as [dz Hz]; [by repeat constructor|].
  eapply (inter_step Hg); [done|exact Hz|done|..].
  - intros α Ha Hc. rewrite Hv. apply (Hmono _ _ _ _ (HR1 α Hc)); intros E; apply Z.eqb_eq in E; rewrite E; [apply (Ha x dx Hx)|apply (Ha y dy Hy)].
  - intros s1 dz1 St1. pose proof (step_live _ _ _ _ _ _ _ _ St1 L) as L1. pose proof (lv_wf _ _ L1) as Hs1. apply leave_all; [done|by apply Hk'|done|intros α _; apply HC|].
    intros _ Hd α Ha. apply HR2. destruct (st_sol _ _ _ _ _ _ _ St1 α Ha) as [Ha0 Hq]. rewrite Hv in Hq.
    destruct (st_other _ _ _ _ _ _ _ St1 x dx Hx Nzx) as (dx1 & Hx1 & Ex1 & Fx1 & _). destruct (st_other _ _ _ _ _ _ _ St1 y dy Hy Nzy) as (dy1 & Hy1 & Ey1 & Fy1 & _).
    destruct (determined_value s1 _ x dx1 α Hs1 Hd ltac:(by repeat constructor) Hx1 Ha) as [Vx Wx]. destruct (determined_value s1 _ y dy1 α Hs1 Hd ltac:(by repeat constructor) Hy1 Ha) as [Vy Wy].
    apply (Hmono _ _ _ _ Hq); intros E; [apply (bd_in dx (store_bounds s x dx Hs Hx)) in E|apply (bd_in dy (store_bounds s y dy Hs Hy)) in E]; lia.
Qed.

Lemma intersection_exact m s x y z : (m = true \/ OZ_hasEqualVars [x; y; z] = false) -> wf_store s -> Forall (present s) [x; y; z] ->
  exact K s (holds (Intersection x y z)) (propagate_Intersection m s x y z).
Proof.
  intros Hm Hs Hp. destruct (forall3 _ x y z Hp) as (Px & Py & Pz).
  unfold propagate_Intersection. destruct (m && OZ_isEqualVars x y) eqn:E1; [|destruct (m && OZ_isEqualVars x z) eqn:E2; [|destruct (m && OZ_isEqualVars y z) eqn:E3]].
  - apply andb_true_iff in E1 as [_ E1]. apply isEqualVars_eq in E1 as <-. eapply exact_ext; [|by apply subset_exact; [|repeat constructor]]. intros α _. cbn [holds]. lia.
  - apply andb_true_iff in E2 as [_ E2]. apply isEqualVars_eq in E2 as <-. eapply exact_ext; [|by apply subset_exact; [|repeat constructor]]. intros α _. cbn [holds]. lia.
  - apply andb_true_iff in E3 as [_ E3]. apply isEqualVars_eq in E3 as <-. eapply exact_ext; [|by apply subset_exact; [|repeat constructor]]. intros α _. cbn [holds]. lia.
  - destruct (no_alias3 m x y z Hm E1 E2 E3) as (_ & (_ & Nzx) & _ & Nzy). enter s.
    destruct (live_lookup s _ x L) as [dx Hx]; [by repeat constructor|]. destruct (live_lookup s _ y L) as [dy Hy]; [by repeat constructor|]. rewrite Hx, Hy. ored.
    apply (narrow_by s x y z dx dy op_and andb); try done; [by apply op_and_repr; [..|apply wf_repr, (Hs x)|apply wf_repr, (Hs y)]|cbn [holds]; lia..|].
    intros [] [] [] []; auto.
Qed.

Lemma union_exact m s x y z : (m = true \/ OZ_hasEqualVars [x; y; z] = false) -> wf_store s -> Forall (present s) [x; y; z] ->
  exact K s (holds (Union x y z)) (propagate_Union m s x y z).
Proof.
  intros Hm Hs Hp. destruct (forall3 _ x y z Hp) as (Px & Py & Pz).
  unfold propagate_Union. destruct (m && OZ_isEqualVars x y) eqn:E1; [|destruct (m && (OZ_isEqualVars x z || OZ_isEqualVars y z)) eqn:E2].
  - apply andb_true_iff in E1 as [_ E1]. apply isEqualVars_eq in E1 as <-. eapply exact_ext; [|by apply subset_exact; [|repeat constructor]]. intros α _. cbn [holds]. lia.
  - apply andb_true_iff in E2 as [_ E2]. apply vanish_exact; [done|]. intros _ α _. cbn [holds].
    apply orb_true_iff in E2 as [E2|E2]; apply isEqualVars_eq in E2 as <-; auto.
  - rewrite andb_orb_distrib_r in E2. apply orb_false_iff in E2 as [E2 E3]. destruct (no_alias3 m x y z Hm E1 E2 E3) as (_ & (_ & Nzx) & _ & Nzy). enter s.
    destruct (live_lookup s _ x L) as [dx Hx]; [by repeat constructor|]. destruct (live_lookup s _ y L) as [dy Hy]; [by repeat constructor|]. rewrite Hx, Hy. ored.
    apply (narrow_by s x y z dx dy op_or orb); try done; [by apply op_or_repr; [..|apply wf_repr, (Hs x)|apply wf_repr, (Hs y)]|cbn [holds]; lia..|].
    intros [] [] [] []; auto.
Qed.
End rel.
End PropRel.
