(* ===== verification/PropDistinct.v ===== *)
(** * The propagators for distinct values are exact, without and with offsets *)
From stdpp Require Import gmap.
From S2P Require Import Prelude Word32 FDBase FDIntervals FDBitVector FiniteDomain FDRepr FDQueries FDOperators FDSetOperators Propagators PropSpec PropRel.

(** * The propagators for distinct values are exact *)

Import FiniteDomain FDRepr FDQueries FDOperators FDSetOperators PropBase RelPropagators PropSpec PropRules PropRel.

Module PropDistinct.

(** ** Lists without repetitions *)

Lemma NoDup_map_inj {A} (f : A -> Z) l a b : NoDup (map f l) -> a ∈ l -> b ∈ l -> f a = f b -> a = b.
Proof.
  induction l as [|c l IH]; cbn; [by intros _ ?%elem_of_nil|]. intros [Hc Hl]%NoDup_cons Ha Hb E.
  assert (forall e, e ∈ l -> f e ∈ map f l) as Hin by (intros e He; by apply (list_elem_of_fmap_2 f)).
  apply elem_of_cons in Ha as [->|Ha], Hb as [->|Hb]; [done|destruct Hc; rewrite E; auto|destruct Hc; rewrite <- E; auto|auto].
Qed.

(** Elements at different positions that satisfy [P] have different images. *)
Lemma NoDup_filter_apart {A} (f : A -> Z) (P : A -> bool) l :
  NoDup (map f (List.filter P l)) <-> forall i j a b, i <> j -> l !! i = Some a -> l !! j = Some b -> P a = true -> P b = true -> f a <> f b.
Proof.
  induction l as [|c l IH]; cbn [List.filter map]; [split; [done|constructor]|]. split.
  - intros Hn. assert (NoDup (map f (List.filter P l)) /\ (P c = true -> f c ∉ map f (List.filter P l))) as [Hl Hc].
    { destruct (P c); cbn in Hn; [apply NoDup_cons in Hn as [? ?]; by split|by split]. }
    pose proof (proj1 IH Hl) as Hp. assert (forall j b, l !! j = Some b -> P b = true -> P c = true -> f c <> f b) as Hcb.
    { intros j b Hj Hb HPc E. apply (Hc HPc). rewrite E. apply (list_elem_of_fmap_2 f). apply list_elem_of_In, filter_In. split; [by apply list_elem_of_In, (list_elem_of_lookup_2 _ j)|done]. }
    intros [|i] [|j] a b Hij Ha Hb HPa HPb; cbn in Ha, Hb; [done|injection Ha as <-; by apply (Hcb j)|injection Hb as <-; intros E; by apply (Hcb i a)|apply (Hp i j); auto].
  - intros Hp. assert (NoDup (map f (List.filter P l))) as Hl by (apply IH; intros i j a b Hij Ha Hb; apply (Hp (S i) (S j)); auto).
    destruct (P c) eqn:Ec; [|done]. cbn. apply NoDup_cons. split; [|done]. intros (b & Eb & Hb)%(list_elem_of_fmap f).
    apply list_elem_of_In, filter_In in Hb as [Hb HPb]. apply list_elem_of_In, list_elem_of_lookup in Hb as [j Hj]. by apply (Hp 0%nat (S j) c b).
Qed.

Lemma NoDup_apart {A} (f : A -> Z) l : NoDup (map f l) <-> forall i j a b, i <> j -> l !! i = Some a -> l !! j = Some b -> f a <> f b.
Proof.
  pose proof (NoDup_filter_apart f (fun _ => true) l) as Hf. assert (List.filter (fun _ : A => true) l = l) as El by (clear; induction l as [|a l IH]; cbn; [done|by f_equal]).
  rewrite El in Hf. rewrite Hf. split; intros Hp i j a b; intros; by apply (Hp i j).
Qed.

Lemma hasEqualVars_spec l : OZ_hasEqualVars l = true -> exists i j t, i <> j /\ l !! i = Some t /\ l !! j = Some t.
Proof.
  induction l as [|t l IH]; cbn; [done|]. intros [He|He]%orb_true_iff.
  - apply existsb_exists in He as (u & Hu & E). apply isEqualVars_eq in E as <-. apply list_elem_of_In, list_elem_of_lookup in Hu as [j Hj]. by exists 0%nat, (S j), t.
  - destruct (IH He) as (i & j & u & Hij & Hi & Hj). exists (S i), (S j), u. split; [lia|done].
Qed.

Lemma noEqualVars_NoDup l v : OZ_hasEqualVars l = false -> forall i j, l !! i = Some (Var v) -> l !! j = Some (Var v) -> i = j.
Proof.
  induction l as [|t l IH]; cbn; [done|]. intros [He Hl]%orb_false_iff.
  assert (forall k, l !! k = Some (Var v) -> t <> Var v) as Ht.
  { intros k Hk ->. assert (existsb (OZ_isEqualVars (Var v)) l = true); [|congruence]. apply existsb_exists. exists (Var v). split; [by apply list_elem_of_In, (list_elem_of_lookup_2 _ k)|cbn; lia]. }
  intros [|i] [|j] Hi Hj; cbn in Hi, Hj; [done|injection Hi as ->; by destruct (Ht j)|injection Hj as ->; by destruct (Ht i)|f_equal; by apply IH].
Qed.

Section distinct.
Context `{FDEnv} (Hg : globals_ok fd_env) {K : Prop}.
Implicit Types (s : gmap Term FiniteDomain) (t : Term) (m : bool) (u : FiniteDomain).

(** ** The values of determined parameters *)

Definition single_of s t : option Z := d ← s !! t; if singl d then Some (getSingleElem d) else None.

Lemma single_of_value s t v α : wf_store s -> sol s α -> single_of s t = Some v -> value α t = v.
Proof.
  unfold single_of. intros Hs Ha. destruct (s !! t) as [d|] eqn:Ht; [|done]. ored. destruct (singl d) eqn:Ed; [|done]. intros [= <-]. by apply (single_value s t d).
Qed.

Lemma single_of_None s t d : s !! t = Some d -> single_of s t = None <-> singl d = false.
Proof. intros Ht. unfold single_of. rewrite Ht. ored. by destruct (singl d). Qed.

Lemma single_of_range s t v : wf_store s -> single_of s t = Some v -> 0 <= v <= fd_sup.
Proof.
  unfold single_of. intros Hs. destruct (s !! t) as [d|] eqn:Ht; [|done]. ored. destruct (singl d) eqn:Ed; [|done]. intros [= <-]. rewrite (single_elem d Ed).
  destruct (store_bounds s t d Hs Ht). lia.
Qed.

Lemma single_of_int s n : wf_store s -> is_Some (s !! SmallInt n) -> single_of s (SmallInt n) = Some n.
Proof.
  intros Hs [d Hd]. unfold single_of. rewrite Hd. ored. destruct (Hs _ d Hd) as [Hw Hz Hi]. destruct (wf_bounds d Hw Hz) as [Hmin Hmax _ _ _ _].
  rewrite (Hi n _ eq_refl) in Hmin. rewrite (Hi n _ eq_refl) in Hmax. assert (singl d = true) as E by (rewrite singl_spec by done; lia). rewrite E, (single_elem d E). f_equal. lia.
Qed.

Lemma singles_sublist s l α : wf_store s -> sol s α -> omap (single_of s) l `sublist_of` map (value α) l.
Proof.
  intros Hs Ha. induction l as [|t l IH]; [constructor|]. cbn [omap list_omap map]. destruct (single_of s t) as [v|] eqn:Et; [|by constructor].
  rewrite <- (single_of_value s t v α Hs Ha Et) at 1. by constructor.
Qed.

Lemma singles_cons s t l : omap (single_of s) (t :: l) = match single_of s t with Some v => v :: omap (single_of s) l | None => omap (single_of s) l end.
Proof. done. Qed.

Lemma singles_length s l : (length (omap (single_of s) l) <= length l)%nat.
Proof. induction l as [|t l IH]; [done|]. rewrite singles_cons. destruct (single_of s t); cbn [length]; lia. Qed.

(** A parameter that is not determined changes. *)
Lemma singles_add s s' l t w : NoDup l -> t ∈ l -> single_of s t = None -> single_of s' t = Some w -> (forall x, x <> t -> single_of s' x = single_of s x) ->
  omap (single_of s') l ≡ₚ w :: omap (single_of s) l.
Proof.
  intros Hn Ht E E' Hx. induction Hn as [|x l Hxl Hn IH]; [by apply elem_of_nil in Ht|]. cbn [omap list_omap]. apply elem_of_cons in Ht as [<-|Ht].
  - rewrite E, E'. f_equiv. apply reflexive_eq, list_omap_ext, Forall_Forall2_diag, Forall_forall. intros y Hy. apply Hx. by intros ->.
  - rewrite Hx by (by intros ->). specialize (IH Ht). destruct (single_of s x) as [v|]; [|exact IH].
    transitivity (v :: w :: omap (single_of s) l); [by constructor|by constructor].
Qed.

Lemma determined_values_spec s L u : wf_store s -> wf u -> Forall (fun t => is_Some (s !! t)) L ->
  exists r, determined_values s L u = Some r /\
  match r with
  | None => ~ (NoDup (omap (single_of s) L) /\ forall v, v ∈ omap (single_of s) L -> fd_mem u v = false)
  | Some u' => wf u' /\ (forall v, fd_mem u' v = true <-> fd_mem u v = true \/ v ∈ omap (single_of s) L) /\
      NoDup (omap (single_of s) L) /\ (forall v, v ∈ omap (single_of s) L -> fd_mem u v = false)
  end.
Proof.
  intros Hs. revert u. induction L as [|t L IH]; intros u Hu HL; cbn [determined_values].
  - exists (Some u). split; [done|]. split; [done|]. split; [|split; [constructor|by intros v ?%elem_of_nil]]. intros v. split; [by left|]. intros [?|Hv]; [done|]. by apply elem_of_nil in Hv.
  - apply Forall_cons in HL as [[d Hd] HL].
    rewrite singles_cons.
    rewrite Hd. ored. destruct (singl d) eqn:Es; [|rewrite (proj2 (single_of_None s t d Hd) Es); by apply IH].
    assert (single_of s t = Some (getSingleElem d)) as -> by (unfold single_of; rewrite Hd; ored; by rewrite Es).
    rewrite (isIn_repr u _ (wf_repr u Hu)). ored. destruct (fd_mem u (getSingleElem d)) eqn:Em.
    + exists None. split; [done|]. intros [_ Hv]. rewrite Hv in Em; [done|by left].
    + destruct (op_plus_int_repr Hg u _ (getSingleElem d) (wf_repr u Hu)) as (u1 & E1 & Hu1 & Hv1). rewrite E1. ored.
      assert (forall v, fd_mem u1 v = true <-> fd_mem u v = true \/ v = getSingleElem d) as Hv1'.
      { intros v. rewrite Hv1. assert (0 <= getSingleElem d <= fd_sup) by (apply (single_of_range s t); [done|]; unfold single_of; rewrite Hd; ored; by rewrite Es). destruct (fd_mem u v); lia. }
      destruct (IH u1 Hu1 HL) as (r & Er & Hr). exists r. split; [done|]. destruct r as [u'|].
      * destruct Hr as (Hw & Hm & Hn & Hd'). assert (forall v, v ∈ omap (single_of s) L -> fd_mem u v = false /\ v <> getSingleElem d) as Hsep.
        { intros v Hv. specialize (Hd' v Hv). specialize (Hv1' v). destruct (fd_mem u v), (Z.eq_dec v (getSingleElem d)); intuition congruence. }
        split; [done|]. split; [intros v; rewrite Hm, Hv1', elem_of_cons; tauto|]. split; [apply NoDup_cons; split; [|done]; intros Hin; by destruct (Hsep _ Hin)|].
        intros v [->|Hv]%elem_of_cons; [done|]. by apply Hsep.
      * intros [[Hin Hn]%NoDup_cons Hdis]. apply Hr. split; [done|]. intros v Hv. apply not_true_is_false. intros Hf. apply Hv1' in Hf as [Hf| ->]; [|done].
        rewrite Hdis in Hf; [done|by right].
Qed.

(** ** The loop *)

(** [u] holds the values of the determined parameters, which are different. *)
Record settled L s u : Prop := {
  se_live : live s L;
  se_wf : wf u;
  se_mem v : fd_mem u v = true <-> v ∈ omap (single_of s) L;
  se_nodup : NoDup (omap (single_of s) L)
}.

(** The domain of a parameter that is not determined has none of these values. *)
Definition clean s u t : Prop := forall d v, s !! t = Some d -> singl d = false -> fd_mem d v = true -> fd_mem u v = false.

Lemma step_single_other C s t d Q s' d' x : step C s t d Q s' d' -> x <> t -> single_of s' x = single_of s x.
Proof. intros Hst Hx. unfold single_of. by rewrite (st_frame _ _ _ _ _ _ _ Hst) by done. Qed.

Lemma distinct_pass_exact L u again done_ C suf : NoDup L ->
  (forall α, C α -> NoDup (map (value α) L)) ->
  forall s pre, L = pre ++ suf -> settled L s u -> (forall t, t ∈ pre -> clean s u t) ->
  (forall s' u', settled L s' u' -> (length (omap (single_of s) L) < length (omap (single_of s') L))%nat -> exact K s' C (again u' s')) ->
  (forall s', settled L s' u -> (forall t, t ∈ L -> clean s' u t) -> exact K s' C (done_ s')) ->
  exact K s C (distinct_pass suf u s again done_).
Proof.
  intros Hn HC. induction suf as [|t suf IH]; intros s pre EL Hse Hpre Hagain Hdone; cbn [distinct_pass].
  - apply Hdone; [done|]. intros t. rewrite EL, app_nil_r. apply Hpre.
  - assert (t ∈ L) as Ht by (rewrite EL; set_solver). destruct (live_lookup s L t (se_live _ _ _ Hse) Ht) as [d Hd]. rewrite Hd. ored. pose proof (lv_wf _ _ (se_live _ _ _ Hse)) as Hs.
    destruct (singl d) eqn:Ed.
    + apply (IH s (pre ++ [t])); [by rewrite <- app_assoc|done| |done|done]. intros x [Hx|Hx%list_elem_of_singleton]%elem_of_app; [by apply Hpre|]. subst x. intros e v He. congruence.
    + destruct (Hs t d Hd) as [Hw Hz _]. pose proof (proj2 (single_of_None s t d Hd) Ed) as Eno.
      eapply fail_step; [done|exact Hd|by apply without_narrows; [..|apply Hse|]|..].
      * intros α Ha Hc. pose proof (HC α Hc) as Hnd. apply negb_true_iff, not_true_is_false. intros Hm. apply (se_mem _ _ _ Hse) in Hm. apply list_elem_of_omap in Hm as (x & Hx & Ex).
        pose proof (single_of_value s x _ α Hs Ha Ex) as Ev. pose proof (NoDup_map_inj _ _ x t Hnd Hx Ht Ev). congruence.
      * intros s1 d1 St. pose proof (step_live _ _ _ _ _ _ _ _ St (se_live _ _ _ Hse)) as L1. pose proof (st_lookup _ _ _ _ _ _ _ St) as Hd1. rewrite Hd1. ored.
        assert (forall x, x <> t -> single_of s1 x = single_of s x) as Hother by (intros x; by apply (step_single_other _ _ _ _ _ _ _ _ St)).
        destruct (singl d1) eqn:Ed1.
        -- assert (single_of s1 t = Some (getSingleElem d1)) as E1 by (unfold single_of; rewrite Hd1; ored; by rewrite Ed1).
           pose proof (singles_add s s1 L t _ Hn Ht Eno E1 Hother) as Hperm. set (w := getSingleElem d1) in *.
           assert (fd_mem u w = false) as Hw1.
           { destruct (step_wf _ _ _ _ _ _ _ St) as [_ [W1 Z1 _]]. pose proof (bd_min d1 (wf_bounds d1 W1 Z1)) as Hm. rewrite <- (single_elem d1 Ed1) in Hm. fold w in Hm.
             rewrite (st_mem _ _ _ _ _ _ _ St) in Hm. by destruct (fd_mem d w), (fd_mem u w). }
           destruct (op_plus_int_repr Hg u _ w (wf_repr u (se_wf _ _ _ Hse))) as (u1 & Eu1 & Hu1 & Hv1). rewrite Eu1. ored. apply Hagain; [|rewrite Hperm; cbn [length]; lia].
           split; [done|done| |].
           ++ intros v. rewrite Hperm, elem_of_cons, <- (se_mem _ _ _ Hse v), Hv1. pose proof (single_of_range s1 t w (lv_wf _ _ L1) E1). destruct (fd_mem u v); lia.
           ++ rewrite Hperm. apply NoDup_cons. split; [|apply Hse]. rewrite <- (se_mem _ _ _ Hse w). congruence.
        -- assert (omap (single_of s1) L = omap (single_of s) L) as Esame.
           { apply list_omap_ext, Forall_Forall2_diag, Forall_forall. intros x _. destruct (decide (x = t)) as [->|Hx]; [|by apply Hother]. by rewrite Eno, (proj2 (single_of_None s1 t d1 Hd1) Ed1). }
           apply (IH s1 (pre ++ [t])); [by rewrite <- app_assoc|..|by rewrite Esame|done].
           ++ split; [done|apply Hse|intros v; rewrite Esame; apply Hse|rewrite Esame; apply Hse].
           ++ intros x [Hx|Hx%list_elem_of_singleton]%elem_of_app e v He Hse' Hm.
              ** assert (x <> t) as Hxt. { intros ->. rewrite EL in Hn. apply NoDup_app in Hn as (_ & Hdis & _). apply (Hdis t Hx). by left. }
                 rewrite (st_frame _ _ _ _ _ _ _ St) in He by done. by apply (Hpre x Hx e v).
              ** subst x. rewrite Hd1 in He. injection He as <-. rewrite (st_mem _ _ _ _ _ _ _ St) in Hm. by destruct (fd_mem d v), (fd_mem u v).
Qed.

Lemma distinct_loop_exact L done_ C : NoDup L -> (forall α, C α -> NoDup (map (value α) L)) ->
  (forall s u, settled L s u -> (forall t, t ∈ L -> clean s u t) -> exact K s C (done_ s)) ->
  forall fuel s u, settled L s u -> (length L < fuel + length (omap (single_of s) L))%nat -> exact K s C (distinct_loop fuel L u s done_).
Proof.
  intros Hn HC Hdone. induction fuel as [|fuel IH]; intros s u Hse Hf; cbn [distinct_loop].
  - pose proof (singles_length s L). lia.
  - apply (distinct_pass_exact L u _ _ C L Hn HC s []); [done|done|by intros t ?%elem_of_nil|..].
    + intros s' u' Hse' Hlt. apply IH; [done|lia].
    + intros s' Hse' Hcl. by apply (Hdone s' u).
Qed.

(** The registers that are kept, and the values of the others. *)
Lemma kept_values s l α : wf_store s -> sol s α -> Forall (fun t => is_Some (s !! t)) l -> map (value α) l ≡ₚ map (value α) (List.filter (not_singl s) l) ++ omap (single_of s) l.
Proof.
  intros Hs Ha Hl. induction Hl as [|t l [d Hd] Hl IH]; [done|]. rewrite singles_cons. cbn [map List.filter]. unfold not_singl at 1, single_of at 1. rewrite Hd. ored.
  destruct (singl d) eqn:Ed; cbn [negb map].
  - rewrite (single_value s t d α Hs Hd Ed Ha), IH. apply Permutation_middle.
  - cbn [app]. by rewrite IH.
Qed.

Lemma no_repeat s l : OZ_hasEqualVars l = false -> live s (rev l) -> NoDup (omap (single_of s) (rev l)) -> NoDup (rev l).
Proof.
  intros Hne L Hn. pose proof (lv_wf _ _ L) as Hs. rewrite <- (Permutation_rev l). rewrite NoDup_alt. intros i j t Hi Hj. destruct t as [v|n]; [by apply (noEqualVars_NoDup l v)|].
  assert (NoDup (omap (single_of s) l)) as Hn' by (rewrite <- (Permutation_rev l) in Hn; done). clear Hn Hne.
  assert (single_of s (SmallInt n) = Some n) as En. { apply single_of_int; [done|]. pose proof (lv_some _ _ L) as Hl. rewrite Forall_forall in Hl. apply Hl. apply list_elem_of_In, in_rev. rewrite rev_involutive. by apply list_elem_of_In, (list_elem_of_lookup_2 _ i). }
  clear L. revert i j Hi Hj. induction l as [|t l IH]; [done|]. intros i j Hi Hj. rewrite singles_cons in Hn'.
  assert (forall k, l !! k = Some (SmallInt n) -> n ∈ omap (single_of s) l) as Hin by (intros k Hk; apply list_elem_of_omap; exists (SmallInt n); split; [by apply (list_elem_of_lookup_2 _ k)|done]).
  destruct i as [|i], j as [|j]; cbn in Hi, Hj; [done|injection Hi as ->; rewrite En in Hn'; apply NoDup_cons in Hn' as [Hx _]; destruct Hx; by apply (Hin j)|injection Hj as ->; rewrite En in Hn'; apply NoDup_cons in Hn' as [Hx _]; destruct Hx; by apply (Hin i)|].
  f_equal. apply IH; [|done|done]. destruct (single_of s t); [by apply NoDup_cons in Hn' as [_ ?]|done].
Qed.

Lemma distinct_leave s l u : settled (rev l) s u -> (forall t, t ∈ rev l -> clean s u t) -> exact K s (holds (Distinct l)) (leave s (rev l) (Distinct (List.filter (not_singl s) l))).
Proof.
  intros Hse Hcl. pose proof (se_live _ _ _ Hse) as L. pose proof (lv_wf _ _ L) as Hs.
  assert (Forall (fun t => is_Some (s !! t)) l) as Hl by (rewrite <- (rev_involutive l); apply Forall_rev, L).
  assert (Forall (present s) l) as Hp by (rewrite <- (rev_involutive l); apply Forall_rev, L).
  assert (forall α, sol s α -> holds (Distinct l) α <-> holds (Distinct (List.filter (not_singl s) l)) α) as Heq.
  { intros α Ha. cbn [holds]. rewrite (kept_values s l α Hs Ha Hl). rewrite NoDup_app. split; [tauto|]. intros Hk. split; [done|]. split.
    - intros v (t & -> & Ht)%list_elem_of_fmap Hv. apply list_elem_of_In, filter_In in Ht as [Ht Hns]. rewrite Forall_forall in Hl. apply list_elem_of_In in Ht. destruct (Hl t Ht) as [d Hd].
      unfold not_singl in Hns. rewrite Hd in Hns. rewrite (Permutation_rev l) in Hv. apply (se_mem _ _ _ Hse) in Hv.
      rewrite (Hcl t) with (d := d) in Hv; [done|apply list_elem_of_In, in_rev; rewrite rev_involutive; by apply list_elem_of_In|done|by destruct (singl d)|by apply (Ha t)].
    - rewrite (Permutation_rev l). apply Hse. }
  apply leave_exact; [done|apply L|..].
  - split; [|done]. cbn [params]. rewrite Forall_forall in Hp |- *. intros t Ht. apply list_elem_of_In, filter_In in Ht as [Ht _]. by apply Hp, list_elem_of_In.
  - done.
  - intros t Ht Hun. cbn [params]. apply list_elem_of_In, filter_In. split; [by apply in_rev, list_elem_of_In|]. unfold undetermined in Hun. unfold not_singl, singl. destruct t; [|done]. by destruct (s !! _).
  - intros _ Hd α Ha. apply Heq; [done|]. cbn [holds]. assert (List.filter (not_singl s) l = []) as ->; [|constructor].
    destruct (List.filter (not_singl s) l) as [|t r] eqn:Ef; [done|]. exfalso. assert (In t (List.filter (not_singl s) l)) as Hin by (rewrite Ef; by left). apply filter_In in Hin as [Hin Hns].
    rewrite Forall_forall in Hd. destruct (Hd t) as (d & Hd' & Es); [apply list_elem_of_In, in_rev; by rewrite rev_involutive|]. unfold not_singl in Hns. rewrite Hd', Es in Hns. done.
Qed.

Lemma distinct_exact m s l : (m = true \/ OZ_hasEqualVars l = false) -> wf_store s -> Forall (present s) l -> exact K s (holds (Distinct l)) (propagate_Distinct m s l).
Proof.
  intros Hm Hs Hp. unfold propagate_Distinct. destruct (Z.ltb_spec (zlen l) 2) as [Hl|Hl].
  - apply vanish_exact; [done|]. intros _ α _. cbn [holds]. destruct l as [|a [|b l]]; [constructor|by apply NoDup_singleton|]. rewrite !zlen_cons in Hl. pose proof (zlen_nonneg l). lia.
  - apply reads_live; [done|by apply Forall_rev|]. intros s0 _ L _. clear dependent s. pose proof (lv_wf _ _ L) as Hs.
    destruct (m && OZ_hasEqualVars l) eqn:Em.
    + apply failed_exact. intros α _ HC. apply andb_true_iff in Em as [_ Em]. apply hasEqualVars_spec in Em as (i & j & t & Hij & Hi & Hj). cbn [holds] in HC.
      by apply (proj1 (NoDup_apart (value α) l) HC i j t t Hij Hi Hj).
    + assert (OZ_hasEqualVars l = false) as Hne by (destruct Hm as [->|]; done). clear Hm Em.
      destruct (determined_values_spec s0 (rev l) initEmpty Hs) as (r & Er & Hr); [by apply (repr_initEmpty (fun _ => false))|apply L|]. rewrite Er. ored.
      assert (forall α, holds (Distinct l) α -> NoDup (map (value α) (rev l))) as HC by (intros α HC; rewrite map_rev; by rewrite <- (Permutation_rev (map (value α) l))).
      destruct r as [u|]; [|apply failed_exact; intros α Ha Hc; apply Hr; split; [|done]; by apply (sublist_NoDup _ _ (HC α Hc)), singles_sublist].
      destruct Hr as (Hu & Hv & Hnd & _). assert (settled (rev l) s0 u) as Hse. { split; [done|done| |done]. intros v. rewrite Hv. split; [|by right]. intros [Hf|]; done. }
      apply (distinct_loop_exact (rev l)); [by apply (no_repeat s0 l)|done| |done|rewrite length_rev; lia].
      intros s1 u1 Hse1 Hcl. by apply (distinct_leave s1 l u1).
Qed.
End distinct.
End PropDistinct.

(** * The propagator for distinct values with offsets is exact *)

Import FiniteDomain FDRepr FDQueries FDOperators FDSetOperators PropBase RelPropagators PropSpec PropRules PropRel PropDistinct.

Module PropOffset.
Section offset.
Context `{FDEnv} (Hg : globals_ok fd_env) {K : Prop}.
Implicit Types (s : gmap Term FiniteDomain) (t : Term) (m : bool) (l : list (Term * Z)) (e : nat * (Term * Z)).

(** ** The search for equal registers *)

Lemma first_equal_spec t L i : first_equal t L i = -1 \/ exists k u, first_equal t L i = i + Z.of_nat k /\ L !! k = Some u /\ OZ_isEqualVars t u = true.
Proof.
  revert i. induction L as [|u L IH]; intros i; cbn [first_equal]; [by left|]. destruct (OZ_isEqualVars t u) eqn:E.
  - right. exists 0%nat, u. split; [lia|done].
  - destruct (IH (i + 1)) as [?|(k & w & Ek & Hk & Ew)]; [by left|]. right. exists (S k), w. split; [lia|done].
Qed.

Definition clash l : Prop := exists i j a b, i <> j /\ l !! i = Some a /\ l !! j = Some b /\ a = b.

Lemma equal_offsets_spec l : forall suf pre, l = pre ++ suf ->
  exists b, equal_offsets (l.*2) (map (fun t => first_equal t (l.*1) 0) (suf.*1)) (suf.*2) (zlen pre) = Some b /\ (b = true -> clash l).
Proof.
  induction suf as [|[t o] suf IH]; intros pre El; cbn [fmap list_fmap map equal_offsets]; [by exists false|].
  assert (l !! length pre = Some (t, o)) as Hi by (rewrite El, lookup_app_r, Nat.sub_diag by lia; done).
  destruct (IH (pre ++ [(t, o)])) as (b & Eb & Hb); [by rewrite <- app_assoc|]. rewrite zlen_snoc in Eb.
  destruct (first_equal_spec t (l.*1) 0) as [E|(k & u & E & Hk & Hu)]; cbn [fst snd]; rewrite E.
  - replace ((-1 <? -1) && negb (zlen pre =? -1)) with false by done. ored. exists b. split; [exact Eb|done].
  - rewrite list_lookup_fmap in Hk. destruct (l !! k) as [[u' o']|] eqn:Elk; [|done]. cbn in Hk. injection Hk as ->. apply isEqualVars_eq in Hu as <-.
    destruct ((-1 <? 0 + Z.of_nat k) && negb (zlen pre =? 0 + Z.of_nat k)) eqn:Ec; ored; [|by exists b].
    assert ((l.*2).[0 + Z.of_nat k] = Some o') as ->. { replace (0 + Z.of_nat k) with (Z.of_nat k) by lia. by rewrite aget_nat, list_lookup_fmap, Elk. }
    ored. destruct (Z.eqb_spec o o') as [<-|]; ored; [|by exists b]. exists true. split; [done|]. intros _. exists (length pre), k, (t, o), (t, o). unfold zlen in Ec. split; [lia|done].
Qed.

Lemma clash_unsat l α : clash l -> ~ holds (DistinctOffset l) α.
Proof. intros (i & j & a & b & Hij & Hi & Hj & <-) HC. by apply (proj1 (NoDup_apart (fun p : Term * Z => value α p.1 + p.2) l) HC i j a a Hij Hi Hj). Qed.

(** ** The loops *)

(** A parameter with offset is kept apart from the sum [v]. *)
Definition apart_from s (v : Z) (b : Term * Z) : Prop :=
  forall d, s !! b.1 = Some d -> (singl d = true -> v <> getSingleElem d + b.2) /\ (singl d = false -> fd_mem d (v - b.2) = false).

Definition known_singles s l : nat := length (omap (single_of s) (l.*1)).

(** A narrowing that determines no parameter. *)
Definition quiet s s' : Prop := (forall t, single_of s' t = single_of s t) /\
  forall t d', s' !! t = Some d' -> exists d, s !! t = Some d /\ forall v, fd_mem d' v = true -> fd_mem d v = true.

Lemma quiet_apart s s' v b : quiet s s' -> apart_from s v b -> apart_from s' v b.
Proof.
  intros [Hq Hd] Ha d' Hd'. destruct (Hd _ d' Hd') as (d & Ed & Hv). destruct (Ha d Ed) as [H1 H2]. specialize (Hq b.1). unfold single_of in Hq. rewrite Ed, Hd' in Hq. revert Hq. ored.
  destruct (singl d') eqn:E', (singl d) eqn:E; try done.
  - intros [= ->]. split; [auto|done].
  - intros _. split; [done|]. intros _. apply not_true_is_false. intros Hm. apply Hv in Hm. rewrite H2 in Hm; done.
Qed.

Lemma quiet_same s : quiet s s.
Proof. split; [done|]. intros t d Hd. by exists d. Qed.

Lemma quiet_trans s1 s2 s3 : quiet s1 s2 -> quiet s2 s3 -> quiet s1 s3.
Proof.
  intros [Q1 D1] [Q2 D2]. split; [intros t; by rewrite Q2|]. intros t d3 H3. destruct (D2 t d3 H3) as (d2 & H2 & V2), (D1 t d2 H2) as (d1 & H1 & V1). exists d1. auto.
Qed.

Lemma step_quiet C s t d Q s' d' : s !! t = Some d -> singl d = false -> singl d' = false -> step C s t d Q s' d' -> quiet s s'.
Proof.
  intros Ht E E' St. pose proof (st_lookup _ _ _ _ _ _ _ St) as Ht'. split; intros u.
  - destruct (decide (t = u)) as [<-|Hne]; [unfold single_of; rewrite Ht, Ht'; ored; by rewrite E, E'|unfold single_of; by rewrite (st_frame _ _ _ _ _ _ _ St) by done].
  - intros e He. destruct (decide (t = u)) as [<-|Hne]; [|exists e; by rewrite (st_frame _ _ _ _ _ _ _ St) in He by done].
    rewrite Ht' in He. injection He as <-. exists d. split; [done|]. intros v. rewrite (st_mem _ _ _ _ _ _ _ St). by destruct (fd_mem d v).
Qed.

Lemma step_more_singles C s t d Q s' d' l : s !! t = Some d -> singl d = false -> singl d' = true -> step C s t d Q s' d' -> t ∈ l.*1 -> (known_singles s l < known_singles s' l)%nat.
Proof.
  intros Ht E E' St. assert (single_of s t = None) as N by (unfold single_of; rewrite Ht; ored; by rewrite E).
  assert (exists w, single_of s' t = Some w) as [w W] by (exists (getSingleElem d'); unfold single_of; rewrite (st_lookup _ _ _ _ _ _ _ St); ored; by rewrite E').
  assert (forall u, u <> t -> single_of s' u = single_of s u) as Hu by (intros u Hne; unfold single_of; by rewrite (st_frame _ _ _ _ _ _ _ St) by done).
  unfold known_singles. generalize (l.*1). clear l. intros L.
  assert (forall L, (length (omap (single_of s) L) <= length (omap (single_of s') L))%nat) as Hle.
  { clear L. intros L. induction L as [|u L IH]; [done|]. rewrite !singles_cons. destruct (decide (u = t)) as [->|Hne]; [rewrite N, W; cbn [length]; lia|rewrite Hu by done; destruct (single_of s u); cbn [length]; lia]. }
  induction L as [|u L IH]; [by intros ?%elem_of_nil|]. rewrite !singles_cons. destruct (decide (u = t)) as [->|Hne]; [intros _; rewrite N, W; cbn [length]; specialize (Hle L); lia|].
  intros [?|Hin]%elem_of_cons; [congruence|]. rewrite Hu by done. specialize (IH Hin). destruct (single_of s u); cbn [length]; lia.
Qed.

Lemma quiet_known s s' l : quiet s s' -> known_singles s' l = known_singles s l.
Proof. intros [Hq _]. unfold known_singles. f_equal. apply list_omap_ext, Forall_Forall2_diag, Forall_forall. intros t _. apply Hq. Qed.

(** The registers with their positions; an assignment keeps different positions apart. *)
Definition separated (all : list (nat * (Term * Z))) (α : Z -> Z) : Prop :=
  forall e f, e ∈ all -> f ∈ all -> e.1 <> f.1 -> value α e.2.1 + e.2.2 <> value α f.2.1 + f.2.2.

Definition kept_apart s (all : list (nat * (Term * Z))) e : Prop :=
  forall w, single_of s e.2.1 = Some w -> forall f, f ∈ all -> e.1 <> f.1 -> apart_from s (e.2.2 + w) f.2.

Lemma quiet_kept s s' all e : quiet s s' -> kept_apart s all e -> kept_apart s' all e.
Proof. intros Hq Ha w Hw f Hf Hne. apply (quiet_apart s s'); [done|]. apply Ha; [|done|done]. by rewrite <- (proj1 Hq). Qed.

Lemma offset_inner_exact C all again done_ i t0 o0 w suf : (forall α, C α -> separated all α) -> (i, (t0, o0)) ∈ all ->
  forall s pre, all = pre ++ suf -> live s (all.*2.*1) -> single_of s t0 = Some w -> (forall e, e ∈ pre -> i <> e.1 -> apart_from s (o0 + w) e.2) ->
  (forall s', live s' (all.*2.*1) -> (known_singles s (all.*2) < known_singles s' (all.*2))%nat -> exact K s' C (again s')) ->
  (forall s', live s' (all.*2.*1) -> quiet s s' -> kept_apart s' all (i, (t0, o0)) -> exact K s' C (done_ s')) ->
  exact K s C (offset_inner suf i (o0 + w) s again done_).
Proof.
  intros HC Hi. induction suf as [|[j [t o]] suf IH]; intros s pre El L Hw Hpre Hagain Hdone; cbn [offset_inner].
  - apply Hdone; [done|apply quiet_same|]. intros w' Hw' e He Hne. cbn in Hw', Hne |- *. assert (w' = w) as -> by congruence. apply Hpre; [|done]. by rewrite app_nil_r in El; subst pre.
  - pose proof (lv_wf _ _ L) as Hs. assert ((j, (t, o)) ∈ all) as Hj by (rewrite El; set_solver).
    assert (t ∈ all.*2.*1) as Ht. { apply list_elem_of_fmap. exists (t, o). split; [done|]. apply list_elem_of_fmap. by exists (j, (t, o)). }
    assert (forall s', live s' (all.*2.*1) -> quiet s s' -> (i <> j -> apart_from s' (o0 + w) (t, o)) -> exact K s' C (offset_inner suf i (o0 + w) s' again done_)) as Hgo.
    { intros s' L' Hq Hapart. apply (IH s' (pre ++ [(j, (t, o))])); [by rewrite <- app_assoc|done|by rewrite (proj1 Hq)|..].
      - intros e [He|He%list_elem_of_singleton]%elem_of_app Hne; [apply (quiet_apart s s'); auto|]. subst e. by apply Hapart.
      - intros s2 L2 Hk. apply Hagain; [done|]. by rewrite <- (quiet_known s s' _ Hq).
      - intros s2 L2 Hq2. apply Hdone; [done|]. by apply (quiet_trans s s' s2). }
    destruct (Nat.eqb_spec i j) as [|Hij]; [apply Hgo; [done|apply quiet_same|done]|].
    destruct (live_lookup s _ t L Ht) as [d Hd]. rewrite Hd. ored. destruct (Hs t d Hd) as [Wd Zd _]. destruct (wf_bounds d Wd Zd) as [_ _ Din Dlow _ _]. destruct (singl d) eqn:Ed; cbn [negb].
    + destruct (Z.eqb_spec (o0 + w) (getSingleElem d + o)) as [E|E].
      * apply failed_exact. intros α Ha Hc. apply (HC α Hc _ _ Hi Hj); [done|]. cbn. rewrite (single_of_value s t0 w α Hs Ha Hw), (single_value s t d α Hs Hd Ed Ha). lia.
      * apply Hgo; [done|apply quiet_same|]. intros _ d' Hd'. cbn in Hd'. assert (d' = d) as -> by congruence. split; [intros _; cbn; lia|congruence].
    + destruct (Z.leb_spec 0 (o0 + w - o)) as [H0|H0].
      * eapply fail_step; [done|exact Hd|by apply nec_narrows|..].
        -- intros α Ha Hc. pose proof (HC α Hc _ _ Hi Hj Hij) as Hne. cbn in Hne. rewrite (single_of_value s t0 w α Hs Ha Hw) in Hne. lia.
        -- intros s1 d1 St. pose proof (step_live _ _ _ _ _ _ _ _ St L) as L1. rewrite (st_lookup _ _ _ _ _ _ _ St). ored. destruct (singl d1) eqn:Ed1.
           ++ apply Hagain; [done|]. by apply (step_more_singles _ _ _ _ _ _ _ _ Hd Ed Ed1 St).
           ++ apply Hgo; [done|by apply (step_quiet _ _ _ _ _ _ _ Hd Ed Ed1 St)|]. intros _ d' Hd'. cbn in Hd'. rewrite (st_lookup _ _ _ _ _ _ _ St) in Hd'. injection Hd' as <-.
              split; [congruence|]. intros _. cbn. rewrite (st_mem _ _ _ _ _ _ _ St). rewrite Z.eqb_refl. by destruct (fd_mem d _).
      * apply Hgo; [done|apply quiet_same|]. intros _ d' Hd'. cbn in Hd' |- *. assert (d' = d) as -> by congruence. split; [congruence|]. intros _. apply not_true_is_false. intros Hm. apply Din in Hm. lia.
Qed.

Lemma offset_outer_exact C all again done_ suf : (forall α, C α -> separated all α) ->
  forall s pre, all = pre ++ suf -> live s (all.*2.*1) -> (forall e, e ∈ pre -> kept_apart s all e) ->
  (forall s', live s' (all.*2.*1) -> (known_singles s (all.*2) < known_singles s' (all.*2))%nat -> exact K s' C (again s')) ->
  (forall s', live s' (all.*2.*1) -> (forall e, e ∈ all -> kept_apart s' all e) -> exact K s' C (done_ s')) ->
  exact K s C (offset_outer suf all s again done_).
Proof.
  intros HC. induction suf as [|[i [t o]] suf IH]; intros s pre El L Hpre Hagain Hdone; cbn [offset_outer].
  - apply Hdone; [done|]. rewrite app_nil_r in El. by subst pre.
  - assert ((i, (t, o)) ∈ all) as Hi by (rewrite El; set_solver).
    assert (t ∈ all.*2.*1) as Ht. { apply list_elem_of_fmap. exists (t, o). split; [done|]. apply list_elem_of_fmap. by exists (i, (t, o)). }
    destruct (live_lookup s _ t L Ht) as [d Hd]. rewrite Hd. ored. destruct (singl d) eqn:Ed.
    + apply (offset_inner_exact C all _ _ i t o (getSingleElem d) all HC Hi s []); [done|done|unfold single_of; rewrite Hd; ored; by rewrite Ed|by intros e ?%elem_of_nil|done|].
      intros s' L' Hq Hk. apply (IH s' (pre ++ [(i, (t, o))])); [by rewrite <- app_assoc|done|..|done].
      * intros e [He|He%list_elem_of_singleton]%elem_of_app; [apply (quiet_kept s s'); auto|by subst e].
      * intros s2 L2 Hlt. apply Hagain; [done|]. by rewrite <- (quiet_known s s' _ Hq).
    + apply (IH s (pre ++ [(i, (t, o))])); [by rewrite <- app_assoc|done|..|done|done].
      intros e [He|He%list_elem_of_singleton]%elem_of_app; [auto|]. subst e. intros w Hw. cbn in Hw. by rewrite (proj2 (single_of_None s t d Hd) Ed) in Hw.
Qed.

Lemma offset_loop_exact C all done_ : (forall α, C α -> separated all α) ->
  (forall s, live s (all.*2.*1) -> (forall e, e ∈ all -> kept_apart s all e) -> exact K s C (done_ s)) ->
  forall fuel s, live s (all.*2.*1) -> (length all < fuel + known_singles s (all.*2))%nat -> exact K s C (offset_loop fuel all s done_).
Proof.
  intros HC Hdone. induction fuel as [|fuel IH]; intros s L Hf; cbn [offset_loop].
  - pose proof (singles_length s (all.*2.*1)) as Hl. rewrite !length_fmap in Hl. unfold known_singles in Hf. lia.
  - apply (offset_outer_exact C all _ _ all HC s []); [done|done|by intros e ?%elem_of_nil| |done]. intros s' L' Hlt. apply IH; [done|lia].
Qed.

(** ** The propagator *)

Definition offset_sum (α : Z -> Z) (p : Term * Z) : Z := value α p.1 + p.2.

Lemma numbered l e : e ∈ rev (imap pair l) <-> l !! e.1 = Some e.2.
Proof.
  rewrite list_elem_of_In, <- in_rev, <- list_elem_of_In, list_elem_of_lookup. destruct e as [i p]. cbn. split.
  - intros [k Hk]. rewrite list_lookup_imap in Hk. destruct (l !! k) as [q|] eqn:E; [|done]. cbn in Hk. by injection Hk as <- <-.
  - intros Hi. exists i. by rewrite list_lookup_imap, Hi.
Qed.

Lemma fmap_rev {A B} (f : A -> B) (k : list A) : f <$> rev k = rev (f <$> k).
Proof. induction k as [|a k IH]; [done|]. cbn [rev fmap list_fmap]. by rewrite fmap_app, IH. Qed.

Lemma numbered_params l : (rev (imap pair l)).*2.*1 = rev (l.*1).
Proof.
  rewrite !fmap_rev. f_equal. assert ((imap pair l).*2 = l) as ->; [|done]. apply list_eq. intros i. rewrite list_lookup_fmap, list_lookup_imap. by destruct (l !! i).
Qed.

Lemma offset_separated l α : holds (DistinctOffset l) α -> separated (rev (imap pair l)) α.
Proof. intros HC e f He%numbered Hf%numbered Hne. by apply (proj1 (NoDup_apart (offset_sum α) l) HC e.1 f.1). Qed.

Lemma offset_leave s l : live s (rev (l.*1)) -> (forall e, e ∈ rev (imap pair l) -> kept_apart s (rev (imap pair l)) e) ->
  exact K s (holds (DistinctOffset l)) (leave s (rev (l.*1)) (DistinctOffset (List.filter (fun p => not_singl s p.1) l))).
Proof.
  intros L Hk. pose proof (lv_wf _ _ L) as Hs. set (P := fun p : Term * Z => not_singl s p.1).
  assert (Forall (present s) (l.*1)) as Hp by (rewrite <- (rev_involutive (l.*1)); apply Forall_rev, L).
  assert (forall i a, l !! i = Some a -> exists d, s !! a.1 = Some d) as Hl.
  { intros i a Hi. apply (live_lookup s _ a.1 L), list_elem_of_In, in_rev. rewrite rev_involutive. apply list_elem_of_In, list_elem_of_fmap. exists a. split; [done|]. by apply (list_elem_of_lookup_2 _ i). }
  assert (forall α, sol s α -> forall i j a b, i <> j -> l !! i = Some a -> l !! j = Some b -> P a = false -> offset_sum α a <> offset_sum α b) as Hsep.
  { intros α Ha i j a b Hij Hi Hj HPa. destruct (Hl i a Hi) as [d Hd], (Hl j b Hj) as [e He]. unfold P, not_singl in HPa. rewrite Hd in HPa. apply negb_false_iff in HPa.
    assert (single_of s a.1 = Some (getSingleElem d)) as Ed by (unfold single_of; rewrite Hd; ored; by rewrite HPa).
    destruct (Hk (i, a) (proj2 (numbered l (i, a)) Hi) _ Ed (j, b) (proj2 (numbered l (j, b)) Hj) Hij e He) as [H1 H2]. cbn in H1, H2. unfold offset_sum. rewrite (single_of_value s _ _ α Hs Ha Ed).
    destruct (singl e) eqn:Ee; [rewrite (single_value s b.1 e α Hs He Ee Ha); specialize (H1 eq_refl); lia|]. specialize (H2 eq_refl). intros E. rewrite <- not_true_iff_false in H2. apply H2.
    replace (a.2 + getSingleElem d - b.2) with (value α b.1) by lia. by apply (Ha b.1). }
  assert (forall α, sol s α -> holds (DistinctOffset l) α <-> holds (DistinctOffset (List.filter P l)) α) as Heq.
  { intros α Ha. cbn [holds]. split; intros HC.
    - apply (proj2 (NoDup_filter_apart (offset_sum α) P l)). intros i j a b Hij Hi Hj _ _. by apply (proj1 (NoDup_apart (offset_sum α) l) HC i j).
    - apply (proj2 (NoDup_apart (offset_sum α) l)). intros i j a b Hij Hi Hj. destruct (P a) eqn:Pa; [destruct (P b) eqn:Pb|].
      + by apply (proj1 (NoDup_filter_apart (offset_sum α) P l) HC i j).
      + intros E. symmetry in E. revert E. by apply (Hsep α Ha j i b a).
      + by apply (Hsep α Ha i j). }
  apply leave_exact; [done|apply L|..].
  - split; [|done]. cbn [params]. rewrite Forall_forall in Hp |- *. intros t (p & -> & Ht)%list_elem_of_fmap. apply list_elem_of_In, filter_In in Ht as [Ht _]. apply Hp, list_elem_of_fmap. exists p. split; [done|by apply list_elem_of_In].
  - done.
  - intros t Ht Hun. cbn [params]. apply list_elem_of_In, in_rev, list_elem_of_In, list_elem_of_fmap in Ht as (p & -> & Ht). apply list_elem_of_fmap. exists p. split; [done|].
    apply list_elem_of_In, filter_In. split; [by apply list_elem_of_In|]. unfold undetermined in Hun. unfold P, not_singl, singl. destruct p.1; [|done]. by destruct (s !! _).
  - intros _ Hd α Ha. apply Heq; [done|]. cbn [holds]. assert (List.filter P l = []) as ->; [|constructor].
    destruct (List.filter P l) as [|p r] eqn:Ef; [done|]. exfalso. assert (In p (List.filter P l)) as Hin by (rewrite Ef; by left). apply filter_In in Hin as [Hin Hns].
    rewrite Forall_forall in Hd. destruct (Hd p.1) as (d & Hd' & Es); [apply list_elem_of_In, in_rev; rewrite rev_involutive; apply list_elem_of_In, list_elem_of_fmap; exists p; split; [done|by apply list_elem_of_In]|].
    unfold P, not_singl in Hns. rewrite Hd', Es in Hns. done.
Qed.

Lemma distinct_offset_exact m s l : wf_store s -> Forall (present s) (l.*1) -> exact K s (holds (DistinctOffset l)) (propagate_DistinctOffset m s l).
Proof.
  intros Hs Hp. unfold propagate_DistinctOffset. destruct (Z.eqb_spec (zlen l) 0) as [Hl|Hl].
  - apply vanish_exact; [done|]. intros _ α _. destruct l; [constructor|]. rewrite zlen_cons in Hl. pose proof (zlen_nonneg l). lia.
  - assert (exists b, (if m then equal_offsets (l.*2) (OZ_findEqualVars (l.*1)) (l.*2) 0 else Some false) = Some b /\ (b = true -> clash l)) as (b & Eb & Hb).
    { destruct m; [|by exists false]. by apply (equal_offsets_spec l l []). }
    rewrite Eb. ored. destruct b; [apply failed_exact; intros α _; by apply clash_unsat, Hb|].
    apply reads_live; [done|by apply Forall_rev|]. intros s0 _ L _. clear dependent s. rewrite <- numbered_params in L.
    apply (offset_loop_exact _ _ _ (offset_separated l)); [|done|rewrite length_rev, length_imap; lia]. intros s1 L1 Hk. rewrite numbered_params in L1. by apply offset_leave.
Qed.
End offset.
End PropOffset.
