(* ===== verification/PropEnum.v ===== *)
(** * The propagators that enumerate domains are exact *)
From stdpp Require Import gmap.
From S2P Require Import Prelude Word32 FDBase FDIntervals FDBitVector FiniteDomain FDRepr FDQueries FDOperators FDSetOperators Propagators PropSpec PropRel.
Import FiniteDomain FDRepr FDQueries FDOperators FDSetOperators PropBase RelPropagators ArithPropagators PropSpec PropRules PropRel.

Module PropEnum.
Section enum.
Context `{FDEnv} (Hg : globals_ok fd_env) {K : Prop}.
Implicit Types (s : gmap Term FiniteDomain) (x y z t : Term) (m : bool) (d u : FiniteDomain).

(** ** The iterator goes through all elements *)

Lemma visit_spec d n c : wf d -> 0 < size d -> fd_mem d c = true -> card (fun v => fd_mem d v && (c <? v)) = Z.of_nat n ->
  exists l, visit d n c = Some l /\ forall v, v ∈ l <-> fd_mem d v = true /\ c <= v.
Proof.
  intros Hw Hz. pose proof (wf_repr d Hw) as Hr. revert c. induction n as [|n IH]; intros c Hc Hn; pose proof (bd_in d (wf_bounds d Hw Hz) c Hc); pose proof (bd_low d (wf_bounds d Hw Hz)); pose proof (bd_high d (wf_bounds d Hw Hz));
    cbn [visit]; replace (c =? -1) with false by lia.
  - exists [c]. split; [done|]. intros v. rewrite list_elem_of_singleton. split; [intros ->; split; [done|lia]|]. intros [Hv Hcv]. pose proof (bd_in d (wf_bounds d Hw Hz) v Hv).
    pose proof (card_zero _ v Hn ltac:(lia)) as Hno. cbn beta in Hno. rewrite Hv in Hno. cbn [andb] in Hno. lia.
  - destruct (nextLargerElem_repr d (fd_mem d) Hr c Hz ltac:(lia)) as (r & Er & Hsucc). rewrite Er. ored. destruct Hsucc as [[-> Hmax]|(Hm & Hlt & Hleast)].
    + assert (card (fun v => fd_mem d v && (c <? v)) = 0) as Hno; [|lia]. apply card_empty. intros v. destruct (fd_mem d v) eqn:Ev; [|done]. specialize (Hmax v Ev). cbn [andb]. lia.
    + pose proof (bd_in d (wf_bounds d Hw Hz) r Hm). destruct (IH r Hm) as (l & El & Hl).
      * assert (card (fun v => v =? r) + card (fun v => fd_mem d v && (r <? v)) = card (fun v => fd_mem d v && (c <? v))) as Hs.
        { apply card_split. intros v _. destruct (fd_mem d v) eqn:Ev; cbn [andb]; [|destruct (Z.eqb_spec v r) as [->|]; [congruence|done]]. specialize (Hleast v Ev). destruct (Z.eqb_spec v r), (Z.ltb_spec r v), (Z.ltb_spec c v); cbn; lia. }
        rewrite (card_range _ r r) in Hs by (try lia; intros v; lia). lia.
      * exists (c :: l). rewrite El. split; [done|]. intros v. rewrite elem_of_cons, Hl. split; [intros [->|[? ?]]; split; (done || lia)|]. intros [Hv Hcv].
        destruct (Z.eq_dec v c) as [->|]; [by left|right; split; [done|apply Hleast; [done|lia]]].
Qed.

Lemma elements_spec d : wf d -> 0 < size d -> exists l, PropBase.elements d = Some l /\ forall v, v ∈ l <-> fd_mem d v = true.
Proof.
  intros Hw Hz. destruct (wf_bounds d Hw Hz) as [Hmin Hmax Hin Hlow Hhigh Hle]. destruct (visit_spec d (Z.to_nat (size d - 1)) (min_elem d) Hw Hz Hmin) as (l & El & Hl).
  - rewrite (repr_card d _ (wf_repr d Hw)). assert (card (fun v => v =? min_elem d) + card (fun v => fd_mem d v && (min_elem d <? v)) = card (fd_mem d)) as Hs.
    { apply card_split. intros v _. destruct (fd_mem d v) eqn:Ev; cbn [andb]; [apply Hin in Ev; destruct (Z.eqb_spec v (min_elem d)), (Z.ltb_spec (min_elem d) v); cbn; lia|].
      destruct (Z.eqb_spec v (min_elem d)) as [->|]; [congruence|done]. }
    rewrite (card_range _ (min_elem d) (min_elem d)) in Hs by (try lia; intros v; lia). pose proof (card_nonneg (fun v => fd_mem d v && (min_elem d <? v))). lia.
  - exists l. split; [done|]. intros v. rewrite Hl. split; [tauto|]. intros Hv. apply Hin in Hv as ?. split; [done|lia].
Qed.

(** ** The images of the elements *)

Lemma mem_range d v : wf d -> fd_mem d v = true -> 0 <= v <= fd_sup.
Proof. intros Hw Hv. by apply (repr_bounds d _ v (wf_repr d Hw)). Qed.

Lemma plus_int_mem u i : wf u -> 0 <= i <= fd_sup -> exists u', op_plus_int u i = Some u' /\ wf u' /\ forall v, fd_mem u' v = true <-> fd_mem u v = true \/ v = i.
Proof.
  intros Hw Hi. destruct (op_plus_int_repr Hg u _ i (wf_repr u Hw)) as (u' & Eu & Hu & Hv). exists u'. split; [done|]. split; [done|]. intros v. rewrite Hv. destruct (fd_mem u v); lia.
Qed.

Lemma image_spec f dz l u w : wf dz -> (forall v, v ∈ l -> 0 <= v <= fd_sup) -> wf u -> wf w ->
  exists u' w', image f dz l u w = Some (u', w') /\ wf u' /\ wf w' /\
    (forall v, fd_mem u' v = true <-> fd_mem u v = true \/ v ∈ l /\ fd_mem dz (f v) = true) /\
    (forall b, fd_mem w' b = true <-> fd_mem w b = true \/ exists v, v ∈ l /\ b = f v /\ fd_mem dz b = true).
Proof.
  intros Hz. revert u w. induction l as [|v l IH]; intros u w Hl Hu Hw; cbn [image].
  - exists u, w. split_and!; try done.
    + intros v. split; [by left|]. intros [?|[Hv _]]; [done|]. by apply elem_of_nil in Hv.
    + intros b. split; [by left|]. intros [?|(v & Hv & _)]; [done|]. by apply elem_of_nil in Hv.
  - rewrite (isIn_repr dz _ (wf_repr dz Hz)). ored. assert (forall a, a ∈ l -> 0 <= a <= fd_sup) as Hl' by (intros a Ha; apply Hl; by right).
    destruct (fd_mem dz (f v)) eqn:Ef.
    + destruct (plus_int_mem u v Hu) as (u1 & -> & Hu1 & Mu1); [apply Hl; by left|]. ored. destruct (plus_int_mem w (f v) Hw) as (w1 & -> & Hw1 & Mw1); [by apply (mem_range dz)|]. ored.
      destruct (IH u1 w1 Hl' Hu1 Hw1) as (u' & w' & E & Hu' & Hw' & Mu & Mw). exists u', w'. split_and!; try done.
      * intros a. rewrite Mu, Mu1, elem_of_cons. split; [intros [[?| ->]|[? ?]]; tauto|]. intros [?|[[->|?] ?]]; tauto.
      * intros b. rewrite Mw, Mw1. split; [intros [[?| ->]|(a & Ha & Eb & Hb)]; [by left|right; exists v; split; [by left|done]|right; exists a; split; [by right|done]]|].
        intros [?|(a & [->|Ha]%elem_of_cons & Eb & Hb)]; [tauto|tauto|]. right. by exists a.
    + destruct (IH u w Hl' Hu Hw) as (u' & w' & E & Hu' & Hw' & Mu & Mw). exists u', w'. split_and!; try done.
      * intros a. rewrite Mu, elem_of_cons. split; [tauto|]. intros [?|[[->|?] ?]]; [tauto|congruence|tauto].
      * intros b. rewrite Mw. split; [intros [?|(a & Ha & Eb & Hb)]; [by left|right; exists a; split; [by right|done]]|].
        intros [?|(a & [->|Ha]%elem_of_cons & Eb & Hb)]; [tauto|congruence|]. right. by exists a.
Qed.

(** The domains after the enumeration of [x]. *)
Record enumerated (f : Z -> Z) C s x z s' dx dz dx' dz' : Prop := {
  en_narrowed : narrowed C s s';
  en_live : live s' [x; z];
  en_x : s' !! x = Some dx';
  en_z : s' !! z = Some dz';
  en_mem_x v : fd_mem dx' v = true <-> fd_mem dx v = true /\ fd_mem dz (f v) = true;
  en_mem_z b : fd_mem dz' b = true <-> exists v, fd_mem dx v = true /\ b = f v /\ fd_mem dz b = true;
  en_sol α : sol s' α -> sol s α
}.

Lemma enumerate_any (Φ : option Outcome -> Prop) f C s x z p dx dz : live s [x; z] -> OZ_isEqualVars x z = false -> s !! x = Some dx -> s !! z = Some dz ->
  (forall α, sol s α -> C α -> value α z = f (value α x)) -> ((forall α, sol s α -> ~ C α) -> Φ (Some FAILED)) ->
  (forall s' dx' dz', enumerated f C s x z s' dx dz dx' dz' -> Φ (leave s' [x; z] p)) -> Φ (enumerate f s x z p).
Proof.
  intros L Nxz Hx Hz HC Hfail Hk. pose proof (lv_wf _ _ L) as Hs. destruct (Hs x dx Hx) as [Wx Zx _], (Hs z dz Hz) as [Wz Zz _]. unfold enumerate. rewrite Hx, Hz. ored.
  destruct (elements_spec dx Wx Zx) as (l & El & Hl). rewrite El. ored. destruct (repr_initEmpty (fun _ => false)) as [We Me]; [done|].
  destruct (image_spec f dz l initEmpty initEmpty Wz) as (u & w & Ei & Wu & Ww & Mu & Mw); [intros v Hv%Hl; by apply (mem_range dx)|done|done|]. rewrite Ei. ored.
  apply (fail_any _ s x _ (fd_mem u) C _ dx); [done|done|by apply (inter_narrows Hg)|intros α Ha Hc; apply Mu; right; split; [by apply Hl, (Ha x)|rewrite <- (HC α Ha Hc); by apply (Ha z)]|done|].
  intros s1 dx1 St1. pose proof (step_live _ _ _ _ _ _ _ _ St1 L) as L1. destruct (live_lookup s1 _ z L1) as [dz1 Hz1]; [by repeat constructor|].
  pose proof (st_same _ _ _ _ _ _ _ St1 z dz dz1 Hz Nxz Hz1) as Mz1.
  apply (fail_any _ s1 z _ (fd_mem w) C _ dz1); [apply L1|done|apply (inter_narrows Hg); [apply (lv_wf _ _ L1 z dz1 Hz1)|done]|..].
  { intros α Ha Hc; destruct (st_sol _ _ _ _ _ _ _ St1 α Ha) as [Ha0 _]; apply Mw; right; exists (value α x); split_and!; [by apply Hl, (Ha0 x)|by apply HC|by apply (Ha0 z)]. }
  { intros Hno. apply Hfail. intros α Ha Hc. apply (Hno α); [|done]. by apply (nw_sol _ _ _ (st_narrowed _ _ _ _ _ _ _ St1)). }
  intros s2 dz2 St2. pose proof (step_live _ _ _ _ _ _ _ _ St2 L1) as L2. destruct (live_lookup s2 _ x L2) as [dx2 Hx2]; [by repeat constructor|].
  pose proof (st_same _ _ _ _ _ _ _ St2 x dx1 dx2 (st_lookup _ _ _ _ _ _ _ St1) ltac:(by rewrite isEqualVars_sym) Hx2) as Mx2.
  apply (Hk s2 dx2 dz2). split; [|done|done|by apply St2|..].
  - eapply narrowed_trans; [apply St1|apply St2].
  - intros v. rewrite Mx2, (st_mem _ _ _ _ _ _ _ St1), andb_true_iff, Mu, Hl, Me. split; [intros [? [?|?]]; [done|tauto]|tauto].
  - intros b. rewrite (st_mem _ _ _ _ _ _ _ St2), andb_true_iff, Mz1, Mw, Me. split; [intros [? [?|(v & Hv & Eb & _)]]; [done|exists v; by rewrite <- Hl]|].
    intros (v & Hv & Eb & Hb). split; [done|]. right. exists v. by rewrite Hl.
  - intros α Ha. destruct (st_sol _ _ _ _ _ _ _ St2 α Ha) as [Ha1 _]. by apply (st_sol _ _ _ _ _ _ _ St1 α).
Qed.

Lemma enumerate_exact f F s x z p : live s [x; z] -> OZ_isEqualVars x z = false -> params p = [x; z] -> (forall s', kind_ok s p -> kind_ok s' p) -> kind_ok s p ->
  (forall α, holds p α <-> value α z = F (value α x)) -> (forall v, 0 <= v <= fd_sup -> 0 <= F v <= fd_sup -> f v = F v) ->
  (K -> forall d v, s !! x = Some d -> fd_mem d v = true -> f v = F v) ->
  exact K s (holds p) (enumerate f s x z p).
Proof.
  intros L Nxz Hp Hko Hk Hh HfF HK. pose proof (lv_wf _ _ L) as Hs. destruct (live_lookup s _ x L) as [dx Hx]; [by repeat constructor|]. destruct (live_lookup s _ z L) as [dz Hz]; [by repeat constructor|].
  apply (enumerate_any (exact K s (holds p)) f (holds p) s x z p dx dz); try done; [|by apply failed_exact|].
  - intros α Ha Hc. apply Hh in Hc. rewrite Hc. symmetry. apply HfF; [apply (mem_range dx); [by apply (Hs x)|by apply (Ha x)]|]. rewrite <- Hc. apply (mem_range dz); [by apply (Hs z)|by apply (Ha z)].
  - intros s' dx' dz' [N L' Hx' Hz' Mx Mz Hsol]. apply (exact_narrowed _ s s'); [done|]. apply leave_all; [done|by apply Hko|done|done|]. intros k Hd α Ha. apply Hh.
    pose proof (lv_wf _ _ L') as Hs'. destruct (determined_value s' _ z dz' α Hs' Hd ltac:(by repeat constructor) Hz' Ha) as [Vz Uz].
    assert (fd_mem dx (value α x) = true /\ fd_mem dz (f (value α x)) = true) as [Mx' Mf] by (by apply Mx, (Ha x)).
    rewrite <- (HK k dx (value α x) Hx Mx'). assert (fd_mem dz' (f (value α x)) = true) as Mf' by (apply Mz; by exists (value α x)).
    pose proof (bd_in dz' (store_bounds s' z dz' Hs' Hz') _ Mf'). lia.
Qed.

(** ** The images of pairs of elements *)

(** The domains after the pairs of [R] are added. *)
Definition extended (f : Z -> Z -> Z) dz (R : Z -> Z -> Prop) (news news' : FiniteDomain * FiniteDomain * FiniteDomain) : Prop :=
  let '(x0, y0, z0) := news in let '(x1, y1, z1) := news' in
  (wf x1 /\ wf y1 /\ wf z1) /\
  (forall a, fd_mem x1 a = true <-> fd_mem x0 a = true \/ exists b, R a b /\ fd_mem dz (f a b) = true) /\
  (forall b, fd_mem y1 b = true <-> fd_mem y0 b = true \/ exists a, R a b /\ fd_mem dz (f a b) = true) /\
  (forall c, fd_mem z1 c = true <-> fd_mem z0 c = true \/ fd_mem dz c = true /\ exists a b, R a b /\ c = f a b).

Definition wf3 (news : FiniteDomain * FiniteDomain * FiniteDomain) : Prop := let '(x0, y0, z0) := news in wf x0 /\ wf y0 /\ wf z0.

Lemma extended_wf f dz R news news' : extended f dz R news news' -> wf3 news'.
Proof. destruct news as [[? ?] ?], news' as [[? ?] ?]. by intros [? _]. Qed.

Lemma extended_none f dz R news : wf3 news -> (forall a b, R a b -> fd_mem dz (f a b) = false) -> extended f dz R news news.
Proof.
  destruct news as [[x0 y0] z0]. intros Hw Hf. split; [done|].
  split_and!; intros v; (split; [by left|]); intros [?|Hv]; try done; exfalso.
  - destruct Hv as (b & HR%Hf & Hd). congruence.
  - destruct Hv as (b & HR%Hf & Hd). congruence.
  - destruct Hv as (Hd & a & b & HR%Hf & ->). congruence.
Qed.

Lemma extended_more f dz (R1 R2 R : Z -> Z -> Prop) n1 n2 n3 : (forall a b, R a b <-> R1 a b \/ R2 a b) -> extended f dz R1 n1 n2 -> extended f dz R2 n2 n3 -> extended f dz R n1 n3.
Proof.
  destruct n1 as [[x1 y1] z1], n2 as [[x2 y2] z2], n3 as [[x3 y3] z3]. intros HR (W2 & X2 & Y2 & Z2) (W3 & X3 & Y3 & Z3). split; [done|].
  split_and!; intros c; [rewrite X3, X2; clear - HR|rewrite Y3, Y2; clear - HR|rewrite Z3, Z2; clear - HR].
  - split; [intros [[?|(b & Hb & ?)]|(b & Hb & ?)]|intros [?|(b & Hb & ?)]]; [tauto|right; exists b; rewrite HR; tauto|right; exists b; rewrite HR; tauto|tauto|].
    apply HR in Hb as [Hb|Hb]; [left; right; by exists b|right; by exists b].
  - split; [intros [[?|(b & Hb & ?)]|(b & Hb & ?)]|intros [?|(b & Hb & ?)]]; [tauto|right; exists b; rewrite HR; tauto|right; exists b; rewrite HR; tauto|tauto|].
    apply HR in Hb as [Hb|Hb]; [left; right; by exists b|right; by exists b].
  - split; [intros [[?|(? & a & b & Hb & ?)]|(? & a & b & Hb & ?)]|intros [?|(? & a & b & Hb & ?)]]; [tauto|right; split; [done|]; exists a, b; rewrite HR; tauto|right; split; [done|]; exists a, b; rewrite HR; tauto|tauto|].
    apply HR in Hb as [Hb|Hb]; [left; right; split; [done|by exists a, b]|right; split; [done|by exists a, b]].
Qed.

Lemma extended_pair f dz v b news : wf dz -> 0 <= v <= fd_sup -> 0 <= b <= fd_sup -> wf3 news -> fd_mem dz (f v b) = true ->
  exists x1 y1 z1 : FiniteDomain, op_plus_int news.1.1 v = Some x1 /\ op_plus_int news.1.2 b = Some y1 /\ op_plus_int news.2 (f v b) = Some z1 /\ extended f dz (fun a c => a = v /\ c = b) news (x1, y1, z1).
Proof.
  destruct news as [[x0 y0] z0]. intros Hz Hv Hb (Wx & Wy & Wz) Hf. destruct (plus_int_mem x0 v Wx Hv) as (x1 & Ex & Wx1 & Mx), (plus_int_mem y0 b Wy Hb) as (y1 & Ey & Wy1 & My), (plus_int_mem z0 (f v b) Wz) as (z1 & Ez & Wz1 & Mz); [by apply (mem_range dz)|].
  exists x1, y1, z1. split_and!; try done. split; [done|]. split_and!; intros c; [rewrite Mx|rewrite My|rewrite Mz].
  - split; [intros [?| ->]; [by left|right; by exists b]|]. intros [?|(? & [-> ->] & _)]; tauto.
  - split; [intros [?| ->]; [by left|right; by exists v]|]. intros [?|(? & [-> ->] & _)]; tauto.
  - split; [intros [?| ->]; [by left|right; split; [done|by exists v, b]]|]. intros [?|(_ & ? & ? & [-> ->] & ->)]; tauto.
Qed.

Lemma image2_row_spec f dz v l news : wf dz -> 0 <= v <= fd_sup -> (forall b, b ∈ l -> 0 <= b <= fd_sup) -> wf3 news ->
  exists news', image2_row f dz v l news = Some news' /\ extended f dz (fun a b => a = v /\ b ∈ l) news news'.
Proof.
  intros Hz Hv. revert news. induction l as [|b l IH]; intros news Hl Hw; cbn [image2_row]; [exists news; split; [done|apply extended_none; [done|by intros a b [_ ?%elem_of_nil]]]|].
  assert (forall a, a ∈ l -> 0 <= a <= fd_sup) as Hl' by (intros a Ha; apply Hl; by right). rewrite (isIn_repr dz _ (wf_repr dz Hz)). ored. destruct (fd_mem dz (f v b)) eqn:Ef.
  - destruct (extended_pair f dz v b news Hz Hv) as (x1 & y1 & z1 & Ex & Ey & Ez & H1); [apply Hl; by left|done|done|]. destruct news as [[x0 y0] z0]. cbn in Ex, Ey, Ez. rewrite Ex. ored. rewrite Ey. ored. rewrite Ez. ored.
    destruct (IH (x1, y1, z1) Hl') as (n & En & Hn); [by apply (extended_wf _ _ _ _ _ H1)|]. exists n. split; [done|]. eapply extended_more; [|exact H1|exact Hn]. intros a c. rewrite elem_of_cons. tauto.
  - destruct (IH news Hl' Hw) as (n & En & Hn). exists n. split; [done|]. eapply (extended_more f dz (fun a c => a = v /\ c = b)); [|apply extended_none; [done|by intros a c [-> ->]]|exact Hn].
    intros a c. cbn. rewrite elem_of_cons. tauto.
Qed.

Lemma image2_spec f dz xs ys news : wf dz -> (forall a, a ∈ xs -> 0 <= a <= fd_sup) -> (forall b, b ∈ ys -> 0 <= b <= fd_sup) -> wf3 news ->
  exists news', image2 f dz xs ys news = Some news' /\ extended f dz (fun a b => a ∈ xs /\ b ∈ ys) news news'.
Proof.
  intros Hz Hx Hy. revert news Hx. induction xs as [|v xs IH]; intros news Hx Hw; cbn [image2]; [exists news; split; [done|apply extended_none; [done|by intros a b [?%elem_of_nil _]]]|].
  destruct (image2_row_spec f dz v ys news Hz) as (n1 & -> & H1); [apply Hx; by left|done|done|]. ored.
  destruct (IH n1) as (n & En & Hn); [intros a Ha; apply Hx; by right|by apply (extended_wf _ _ _ _ _ H1)|]. exists n. split; [done|]. eapply extended_more; [|exact H1|exact Hn].
  intros a b. cbn. rewrite elem_of_cons. tauto.
Qed.

Record enumerated2 (f : Z -> Z -> Z) C s x y z s' dx dy dz dx' dy' dz' : Prop := {
  en2_narrowed : narrowed C s s';
  en2_live : live s' [x; y; z];
  en2_x : s' !! x = Some dx';
  en2_y : s' !! y = Some dy';
  en2_z : s' !! z = Some dz';
  en2_mem_x v : fd_mem dx' v = true <-> fd_mem dx v = true /\ exists w, fd_mem dy w = true /\ fd_mem dz (f v w) = true;
  en2_mem_y w : fd_mem dy' w = true <-> fd_mem dy w = true /\ exists v, fd_mem dx v = true /\ fd_mem dz (f v w) = true;
  en2_mem_z b : fd_mem dz' b = true <-> fd_mem dz b = true /\ exists v w, fd_mem dx v = true /\ fd_mem dy w = true /\ b = f v w;
  en2_sol α : sol s' α -> sol s α
}.

Lemma enumerate2_any (Φ : option Outcome -> Prop) f C s x y z p dx dy dz : live s [x; y; z] -> OZ_isEqualVars x y = false -> OZ_isEqualVars x z = false -> OZ_isEqualVars y z = false ->
  s !! x = Some dx -> s !! y = Some dy -> s !! z = Some dz ->
  (forall α, sol s α -> C α -> value α z = f (value α x) (value α y)) -> ((forall α, sol s α -> ~ C α) -> Φ (Some FAILED)) ->
  (forall s' dx' dy' dz', enumerated2 f C s x y z s' dx dy dz dx' dy' dz' -> Φ (leave s' [x; y; z] p)) -> Φ (enumerate2 f s x y z p).
Proof.
  intros L Nxy Nxz Nyz Hx Hy Hz HC Hfail Hk. pose proof (lv_wf _ _ L) as Hs. destruct (Hs x dx Hx) as [Wx Zx _], (Hs y dy Hy) as [Wy Zy _], (Hs z dz Hz) as [Wz Zz _]. unfold enumerate2. rewrite Hx, Hy, Hz. ored.
  destruct (elements_spec dx Wx Zx) as (xs & Ex & Hxs). rewrite Ex. ored. destruct (elements_spec dy Wy Zy) as (ys & Ey & Hys). rewrite Ey. ored. destruct (repr_initEmpty (fun _ => false)) as [We Me]; [done|].
  destruct (image2_spec f dz xs ys (initEmpty, initEmpty, initEmpty) Wz) as ([[u v] w] & Ei & (Wu & Wv & Ww) & Mu & Mv & Mw); [intros a Ha%Hxs; by apply (mem_range dx)|intros a Ha%Hys; by apply (mem_range dy)|done|]. rewrite Ei. ored.
  assert (forall a, fd_mem u a = true <-> fd_mem dx a = true /\ exists b, fd_mem dy b = true /\ fd_mem dz (f a b) = true) as Qu.
  { intros a. rewrite Mu, Me. split; [intros [?|(b & [Ha Hb] & ?)]; [done|apply Hxs in Ha; apply Hys in Hb; eauto]|]. intros (Ha & b & Hb & ?). right. exists b. by rewrite Hxs, Hys. }
  assert (forall b, fd_mem v b = true <-> fd_mem dy b = true /\ exists a, fd_mem dx a = true /\ fd_mem dz (f a b) = true) as Qv.
  { intros b. rewrite Mv, Me. split; [intros [?|(a & [Ha Hb] & ?)]; [done|apply Hxs in Ha; apply Hys in Hb; eauto]|]. intros (Hb & a & Ha & ?). right. exists a. by rewrite Hxs, Hys. }
  assert (forall c, fd_mem w c = true <-> fd_mem dz c = true /\ exists a b, fd_mem dx a = true /\ fd_mem dy b = true /\ c = f a b) as Qw.
  { intros c. rewrite Mw, Me. split; [intros [?|(? & a & b & [Ha Hb] & ?)]; [done|apply Hxs in Ha; apply Hys in Hb; eauto 6]|]. intros (? & a & b & Ha & Hb & ?). right. split; [done|]. exists a, b. by rewrite Hxs, Hys. }
  clear Mu Mv Mw Hxs Hys Ex Ey Ei xs ys.
  assert (forall α, sol s α -> C α -> fd_mem dx (value α x) = true /\ fd_mem dy (value α y) = true /\ fd_mem dz (f (value α x) (value α y)) = true /\ value α z = f (value α x) (value α y)) as HCs.
  { intros α Ha Hc. pose proof (HC α Ha Hc) as E. rewrite <- E. by split_and!; [apply (Ha x)|apply (Ha y)|apply (Ha z)|]. }
  apply (fail_any _ s x _ (fd_mem u) C _ dx); [done|done|by apply (inter_narrows Hg)|intros α Ha Hc; destruct (HCs α Ha Hc) as (H1 & H2 & H3 & _); apply Qu; eauto|done|].
  intros s1 dx1 St1. pose proof (step_live _ _ _ _ _ _ _ _ St1 L) as L1. destruct (live_lookup s1 _ y L1) as [dy1 Hy1]; [by repeat constructor|]. destruct (live_lookup s1 _ z L1) as [dz1 Hz1]; [by repeat constructor|].
  pose proof (st_same _ _ _ _ _ _ _ St1 y dy dy1 Hy Nxy Hy1) as My1. pose proof (st_same _ _ _ _ _ _ _ St1 z dz dz1 Hz Nxz Hz1) as Mz1.
  apply (fail_any _ s1 y _ (fd_mem v) C _ dy1); [apply L1|done|apply (inter_narrows Hg); [apply (lv_wf _ _ L1 y dy1 Hy1)|done]|..].
  { intros α Ha1 Hc; destruct (st_sol _ _ _ _ _ _ _ St1 α Ha1) as [Ha _]; destruct (HCs α Ha Hc) as (H1 & H2 & H3 & _); apply Qv; eauto. }
  { intros Hno. apply Hfail. intros α Ha Hc. apply (Hno α); [|done]. by apply (nw_sol _ _ _ (st_narrowed _ _ _ _ _ _ _ St1)). }
  intros s2 dy2 St2. pose proof (step_live _ _ _ _ _ _ _ _ St2 L1) as L2. destruct (live_lookup s2 _ x L2) as [dx2 Hx2]; [by repeat constructor|]. destruct (live_lookup s2 _ z L2) as [dz2 Hz2]; [by repeat constructor|].
  pose proof (st_same _ _ _ _ _ _ _ St2 x dx1 dx2 (st_lookup _ _ _ _ _ _ _ St1) ltac:(by rewrite isEqualVars_sym) Hx2) as Mx2. pose proof (st_same _ _ _ _ _ _ _ St2 z dz1 dz2 Hz1 Nyz Hz2) as Mz2.
  assert (narrowed C s s2) as N2 by (eapply narrowed_trans; [apply St1|apply St2]).
  assert (forall α, sol s2 α -> sol s α) as Hsol2 by (intros α Ha; by apply (st_sol _ _ _ _ _ _ _ St1 α), (st_sol _ _ _ _ _ _ _ St2 α)).
  apply (fail_any _ s2 z _ (fd_mem w) C _ dz2); [apply L2|done|apply (inter_narrows Hg); [apply (lv_wf _ _ L2 z dz2 Hz2)|done]|..].
  { intros α Ha2%Hsol2 Hc; destruct (HCs α Ha2 Hc) as (H1 & H2 & H3 & H4); apply Qw; split; [by rewrite H4|]; eauto 6. }
  { intros Hno. apply Hfail. intros α Ha Hc. apply (Hno α); [|done]. by apply (nw_sol _ _ _ N2). }
  intros s3 dz3 St3. pose proof (step_live _ _ _ _ _ _ _ _ St3 L2) as L3. destruct (live_lookup s3 _ x L3) as [dx3 Hx3]; [by repeat constructor|]. destruct (live_lookup s3 _ y L3) as [dy3 Hy3]; [by repeat constructor|].
  pose proof (st_same _ _ _ _ _ _ _ St3 x dx2 dx3 Hx2 ltac:(by rewrite isEqualVars_sym) Hx3) as Mx3. pose proof (st_same _ _ _ _ _ _ _ St3 y dy2 dy3 (st_lookup _ _ _ _ _ _ _ St2) ltac:(by rewrite isEqualVars_sym) Hy3) as My3.
  apply (Hk s3 dx3 dy3 dz3). split; [|done|done|done|by apply St3|..].
  - eapply narrowed_trans; [exact N2|apply St3].
  - intros a. rewrite Mx3, Mx2, (st_mem _ _ _ _ _ _ _ St1), andb_true_iff, Qu. tauto.
  - intros b. rewrite My3, (st_mem _ _ _ _ _ _ _ St2), andb_true_iff, My1, Qv. tauto.
  - intros c. rewrite (st_mem _ _ _ _ _ _ _ St3), andb_true_iff, Mz2, Mz1, Qw. tauto.
  - intros α Ha. by apply Hsol2, (st_sol _ _ _ _ _ _ _ St3 α).
Qed.

Lemma enumerate2_exact f F s x y z p : live s [x; y; z] -> OZ_isEqualVars x y = false -> OZ_isEqualVars x z = false -> OZ_isEqualVars y z = false -> params p = [x; y; z] ->
  (forall s', kind_ok s p -> kind_ok s' p) -> kind_ok s p ->
  (forall α, holds p α <-> value α z = F (value α x) (value α y)) -> (forall v w, 0 <= v <= fd_sup -> 0 <= w <= fd_sup -> 0 <= F v w <= fd_sup -> f v w = F v w) ->
  (K -> forall d e v w, s !! x = Some d -> s !! y = Some e -> fd_mem d v = true -> fd_mem e w = true -> f v w = F v w) ->
  exact K s (holds p) (enumerate2 f s x y z p).
Proof.
  intros L Nxy Nxz Nyz Hp Hko Hk Hh HfF HK. pose proof (lv_wf _ _ L) as Hs.
  destruct (live_lookup s _ x L) as [dx Hx]; [by repeat constructor|]. destruct (live_lookup s _ y L) as [dy Hy]; [by repeat constructor|]. destruct (live_lookup s _ z L) as [dz Hz]; [by repeat constructor|].
  apply (enumerate2_any (exact K s (holds p)) f (holds p) s x y z p dx dy dz); try done; [|by apply failed_exact|].
  - intros α Ha Hc%Hh. rewrite Hc. symmetry. apply HfF; [apply (mem_range dx); [by apply (Hs x)|by apply (Ha x)]|apply (mem_range dy); [by apply (Hs y)|by apply (Ha y)]|]. rewrite <- Hc. apply (mem_range dz); [by apply (Hs z)|by apply (Ha z)].
  - intros s' dx' dy' dz' [N L' Hx' Hy' Hz' Mx My Mz Hsol]. apply (exact_narrowed _ s s'); [done|]. apply leave_all; [done|by apply Hko|done|done|]. intros k Hd α Ha. apply Hh. pose proof (lv_wf _ _ L') as Hs'.
    destruct (proj1 (Mz (value α z)) (Ha z dz' Hz')) as (Md & v & w & Hv & Hw & E).
    assert (fd_mem dx' v = true) as Mv by (apply Mx; split; [done|]; exists w; by rewrite <- E). assert (fd_mem dy' w = true) as Mw by (apply My; split; [done|]; exists v; by rewrite <- E).
    destruct (determined_value s' _ x dx' α Hs' Hd ltac:(by repeat constructor) Hx' Ha) as [Vx Ux], (determined_value s' _ y dy' α Hs' Hd ltac:(by repeat constructor) Hy' Ha) as [Vy Uy].
    pose proof (bd_in dx' (store_bounds s' x dx' Hs' Hx') _ Mv). pose proof (bd_in dy' (store_bounds s' y dy' Hs' Hy') _ Mw).
    rewrite E, (HK k dx dy v w Hx Hy Hv Hw). f_equal; lia.
Qed.
End enum.
End PropEnum.
