(* ===== verification/PropArith.v ===== *)
(** * The propagators of arithmetic on bounds: twice, square, plus *)
From stdpp Require Import gmap.
From S2P Require Import Prelude Word32 FDBase FDIntervals FDBitVector FiniteDomain FDRepr FDQueries FDOperators FDSetOperators Propagators PropSpec PropRel PropEnum.

(** * The bounds of the parameters of a propagator

    What a loop on the bounds sees of its parameters, and how a narrowing changes it. *)

Import FiniteDomain FDRepr FDQueries FDOperators FDSetOperators PropBase RelPropagators PropSpec PropRules PropRel.

Module PropBox.
Section box.
Context `{FDEnv} (Hg : globals_ok fd_env) {K : Prop}.
Implicit Types (s : gmap Term FiniteDomain) (x y z t u : Term) (m : bool) (l : list Term) (lo hi n b : Z) (p : Propagator) (α : Z -> Z).

(** ** The bounds of a parameter *)

Definition box s t lo hi n : Prop := exists d, s !! t = Some d /\ min_elem d = lo /\ max_elem d = hi /\ size d = n.

Lemma box_of s t d : s !! t = Some d -> box s t (min_elem d) (max_elem d) (size d).
Proof. intros Hd. by exists d. Qed.

Lemma box_facts l s t lo hi n : live s l -> box s t lo hi n -> (0 < n /\ 0 <= lo <= hi /\ hi <= fd_sup) /\ forall α, sol s α -> lo <= value α t <= hi.
Proof.
  intros L (d & Hd & <- & <- & <-). pose proof (lv_wf _ _ L) as Hs. destruct (Hs t d Hd) as [Wd Zd _]. destruct (wf_bounds d Wd Zd) as [_ _ _ ? ? ?]. split; [lia|]. intros α Ha. by apply (sol_within s t d).
Qed.

Lemma box_singl s t d lo hi n : wf_store s -> s !! t = Some d -> box s t lo hi n -> singl d = (lo =? hi) /\ (lo = hi -> getSingleElem d = lo) /\ min_elem d = lo /\ max_elem d = hi.
Proof.
  intros Hs Hd (d' & Hd' & <- & <- & <-). assert (d' = d) as -> by congruence. destruct (Hs t d Hd) as [Wd Zd _]. pose proof (singl_spec d Wd Zd) as Es. split_and!; [done| |done|done].
  intros E. apply single_elem. rewrite Es. lia.
Qed.

Lemma box_determined s l t lo hi n : wf_store s -> Forall (determined s) l -> t ∈ l -> box s t lo hi n -> lo = hi.
Proof.
  intros Hs Hd Hin Hb. rewrite Forall_forall in Hd. destruct (Hd t Hin) as (d & Hd' & Es). destruct (box_singl s t d lo hi n Hs Hd' Hb) as (E & _). rewrite E in Es. lia.
Qed.

(** What a narrowing leaves alone. *)
Definition others s s' t : Prop := forall u lo hi n, OZ_isEqualVars t u = false -> box s u lo hi n -> box s' u lo hi n.

Lemma step_others C s t d Q s' d' : step C s t d Q s' d' -> others s s' t.
Proof. intros St u lo hi n Hne (e & He & <- & <- & <-). destruct (st_other _ _ _ _ _ _ _ St u e He Hne) as (e' & He' & E1 & E2 & E3). by exists e'. Qed.

Lemma ge_box l s t lo hi n b C k : live s l -> box s t lo hi n -> (forall α, sol s α -> C α -> b <= value α t) ->
  (forall s' lo' n', live s' l -> (forall α, sol s' α -> sol s α) -> box s' t lo' hi n' -> b <= lo' -> lo <= lo' -> n' <= n -> (lo < lo' -> n' < n) -> others s s' t -> exact K s' C (k s')) ->
  exact K s C (FailOnEmpty s t (ge b) k).
Proof.
  intros L (d & Hd & <- & <- & <-) HC Hk. pose proof (lv_wf _ _ L) as Hs. destruct (Hs t d Hd) as [Wd Zd _].
  eapply (ge_step Hg); [done|exact Hd|done|]. intros s' d' St B' Emax Hb Hmin. pose proof (step_live _ _ _ _ _ _ _ _ St L) as L'. destruct (step_wf _ _ _ _ _ _ _ St) as [_ [W' Z' _]].
  apply (Hk s' (min_elem d') (size d')); [done|intros α Ha; by apply (st_sol _ _ _ _ _ _ _ St α)|exists d'; split; [apply St|done]|done|done|apply St| |by apply (step_others _ _ _ _ _ _ _ St)].
  intros Hlt. apply (size_lt d d' (min_elem d) Wd W'); [intros v; rewrite (st_mem _ _ _ _ _ _ _ St); by destruct (fd_mem d v)|apply (wf_bounds d Wd Zd)|]. apply not_true_is_false. intros Hm. pose proof (bd_in d' B' _ Hm). lia.
Qed.

Lemma le_box l s t lo hi n b C k : live s l -> box s t lo hi n -> (forall α, sol s α -> C α -> value α t <= b) ->
  (forall s' hi' n', live s' l -> (forall α, sol s' α -> sol s α) -> box s' t lo hi' n' -> hi' <= b -> hi' <= hi -> n' <= n -> (hi' < hi -> n' < n) -> others s s' t -> exact K s' C (k s')) ->
  exact K s C (FailOnEmpty s t (le b) k).
Proof.
  intros L (d & Hd & <- & <- & <-) HC Hk. pose proof (lv_wf _ _ L) as Hs. destruct (Hs t d Hd) as [Wd Zd _].
  eapply (le_step Hg); [done|exact Hd|done|]. intros s' d' St B' Emin Hb Hmax. pose proof (step_live _ _ _ _ _ _ _ _ St L) as L'. destruct (step_wf _ _ _ _ _ _ _ St) as [_ [W' Z' _]].
  apply (Hk s' (max_elem d') (size d')); [done|intros α Ha; by apply (st_sol _ _ _ _ _ _ _ St α)|exists d'; split; [apply St|done]|done|done|apply St| |by apply (step_others _ _ _ _ _ _ _ St)].
  intros Hlt. apply (size_lt d d' (max_elem d) Wd W'); [intros v; rewrite (st_mem _ _ _ _ _ _ _ St); by destruct (fd_mem d v)|apply (wf_bounds d Wd Zd)|]. apply not_true_is_false. intros Hm. pose proof (bd_in d' B' _ Hm). lia.
Qed.

(** ** Three parameters *)

(** The bounds and the size of a domain. *)
Record range := Range { lowest : Z; highest : Z; count : Z }.
Implicit Types A B D : range.

(** Three parameters of which no two are the same variable, with their ranges. *)
Record trio l s x y z A B D : Prop := {
  tr_live : live s l;
  tr_x : box s x (lowest A) (highest A) (count A);
  tr_y : box s y (lowest B) (highest B) (count B);
  tr_z : box s z (lowest D) (highest D) (count D)
}.

Record apart3 x y z : Prop := {
  ap_xy : OZ_isEqualVars x y = false; ap_yx : OZ_isEqualVars y x = false;
  ap_xz : OZ_isEqualVars x z = false; ap_zx : OZ_isEqualVars z x = false;
  ap_yz : OZ_isEqualVars y z = false; ap_zy : OZ_isEqualVars z y = false
}.

Lemma apart3_no_alias m x y z : (m = true \/ OZ_hasEqualVars [x; y; z] = false) -> m && OZ_isEqualVars x y = false -> m && OZ_isEqualVars x z = false -> m && OZ_isEqualVars y z = false -> apart3 x y z.
Proof. intros Hm E1 E2 E3. destruct (no_alias3 m x y z Hm E1 E2 E3) as ((? & ?) & (? & ?) & ? & ?). by split. Qed.

Lemma trio_facts l s x y z A B D : trio l s x y z A B D ->
  (0 < count A /\ 0 <= lowest A <= highest A /\ highest A <= fd_sup) /\ (0 < count B /\ 0 <= lowest B <= highest B /\ highest B <= fd_sup) /\ (0 < count D /\ 0 <= lowest D <= highest D /\ highest D <= fd_sup).
Proof. intros [L Bx By Bz]. pose proof (proj1 (box_facts _ _ _ _ _ _ L Bx)). pose proof (proj1 (box_facts _ _ _ _ _ _ L By)). pose proof (proj1 (box_facts _ _ _ _ _ _ L Bz)). tauto. Qed.

Lemma trio_sol l s x y z A B D α : trio l s x y z A B D -> sol s α -> lowest A <= value α x <= highest A /\ lowest B <= value α y <= highest B /\ lowest D <= value α z <= highest D.
Proof. intros [L Bx By Bz] Ha. split; [|split]; [by apply (box_facts _ _ _ _ _ _ L Bx)|by apply (box_facts _ _ _ _ _ _ L By)|by apply (box_facts _ _ _ _ _ _ L Bz)]. Qed.

(** What a propagator sees of a range. *)
Definition seen d A : Prop := min_elem d = lowest A /\ max_elem d = highest A /\ singl d = (lowest A =? highest A) /\ (lowest A = highest A -> getSingleElem d = lowest A).

Lemma trio_lookup l s x y z A B D : trio l s x y z A B D -> exists dx dy dz, (s !! x = Some dx /\ s !! y = Some dy /\ s !! z = Some dz) /\ seen dx A /\ seen dy B /\ seen dz D.
Proof.
  intros [L Bx By Bz]. pose proof (lv_wf _ _ L) as Hs. pose proof Bx as (dx & Hx & _). pose proof By as (dy & Hy & _). pose proof Bz as (dz & Hz & _). exists dx, dy, dz. split; [done|].
  destruct (box_singl s x dx _ _ _ Hs Hx Bx) as (? & ? & ? & ?), (box_singl s y dy _ _ _ Hs Hy By) as (? & ? & ? & ?), (box_singl s z dz _ _ _ Hs Hz Bz) as (? & ? & ? & ?). by split_and!.
Qed.

Lemma trio_of s x y z : live s [x; y; z] -> exists A B D, trio [x; y; z] s x y z A B D /\ budget s [x; y; z] = Z.to_nat (count A + count B + count D + 1).
Proof.
  intros L. destruct (live_lookup s _ x L) as [dx Hx]; [by repeat constructor|]. destruct (live_lookup s _ y L) as [dy Hy]; [by repeat constructor|]. destruct (live_lookup s _ z L) as [dz Hz]; [by repeat constructor|].
  exists (Range (min_elem dx) (max_elem dx) (size dx)), (Range (min_elem dy) (max_elem dy) (size dy)), (Range (min_elem dz) (max_elem dz) (size dz)). split; [split; [done|by apply box_of..]|].
  pose proof (lv_wf _ _ L) as Hs. cbn [budget foldr count]. rewrite Hx, Hy, Hz. pose proof (wd_size _ _ (Hs x dx Hx)). pose proof (wd_size _ _ (Hs y dy Hy)). pose proof (wd_size _ _ (Hs z dz Hz)). lia.
Qed.

Lemma trio_determined l s x y z A B D : trio l s x y z A B D -> x ∈ l -> y ∈ l -> z ∈ l -> Forall (determined s) l -> lowest A = highest A /\ lowest B = highest B /\ lowest D = highest D.
Proof. intros [L Bx By Bz] Hx Hy Hz Hd. pose proof (lv_wf _ _ L) as Hs. split_and!; [by apply (box_determined s l x _ _ (count A))|by apply (box_determined s l y _ _ (count B))|by apply (box_determined s l z _ _ (count D))]. Qed.

Lemma trio_yxz l s x y z A B D : trio l s x y z A B D -> trio l s y x z B A D.
Proof. by intros []. Qed.
Lemma trio_zyx l s x y z A B D : trio l s x y z A B D -> trio l s z y x D B A.
Proof. by intros []. Qed.

(** Narrowing a parameter from below or above. *)
Lemma trio_ge C l s x y z A B D b k : trio l s x y z A B D -> apart3 x y z -> lowest A < b -> (forall α, sol s α -> C α -> b <= value α x) ->
  (forall s' lo n, trio l s' x y z (Range lo (highest A) n) B D -> (forall α, sol s' α -> sol s α) -> n < count A -> exact K s' C (k s')) -> exact K s C (FailOnEmpty s x (ge b) k).
Proof.
  intros [L Bx By Bz] [? ? ? ? ? ?] Hlt HC Hk. eapply ge_box; [exact L|exact Bx|exact HC|]. intros s' lo' n' L' Hs' B' H1 H2 _ Hn O. apply (Hk s' lo' n'); [split; auto|done|lia].
Qed.

Lemma trio_le C l s x y z A B D b k : trio l s x y z A B D -> apart3 x y z -> b < highest A -> (forall α, sol s α -> C α -> value α x <= b) ->
  (forall s' hi n, trio l s' x y z (Range (lowest A) hi n) B D -> (forall α, sol s' α -> sol s α) -> n < count A -> exact K s' C (k s')) -> exact K s C (FailOnEmpty s x (le b) k).
Proof.
  intros [L Bx By Bz] [? ? ? ? ? ?] Hlt HC Hk. eapply le_box; [exact L|exact Bx|exact HC|]. intros s' lo' n' L' Hs' B' H1 H2 _ Hn O. apply (Hk s' lo' n'); [split; auto|done|lia].
Qed.

Lemma apart3_yxz x y z : apart3 x y z -> apart3 y x z.
Proof. by intros []. Qed.
Lemma apart3_zyx x y z : apart3 x y z -> apart3 z y x.
Proof. by intros []. Qed.

Definition total3 A B D : nat := Z.to_nat (count A + count B + count D).
End box.

(** Looks the three parameters up. *)
Ltac look T :=
  let dx := fresh "dx" in let dy := fresh "dy" in let dz := fresh "dz" in let Hx := fresh in let Hy := fresh in let Hz := fresh in
  let a1 := fresh in let a2 := fresh in let a3 := fresh in let b1 := fresh in let b2 := fresh in let b3 := fresh in let c1 := fresh in let c2 := fresh in let c3 := fresh in
  let a4 := fresh "Gx" in let b4 := fresh "Gy" in let c4 := fresh "Gz" in
  destruct (trio_lookup _ _ _ _ _ _ _ _ T) as (dx & dy & dz & (Hx & Hy & Hz) & (a1 & a2 & a3 & a4) & (b1 & b2 & b3 & b4) & (c1 & c2 & c3 & c4));
  rewrite ?Hx, ?Hy, ?Hz; ored; rewrite ?a1, ?a2, ?a3, ?b1, ?b2, ?b3, ?c1, ?c2, ?c3; cbn [lowest highest] in *; clear Hx Hy Hz a1 a2 a3 b1 b2 b3 c1 c2 c3.
End PropBox.

(** * The propagators of arithmetic are exact *)

Import FiniteDomain FDRepr FDQueries FDOperators FDSetOperators PropBase RelPropagators ArithPropagators PropSpec PropRules PropRel PropEnum PropBox.

Module PropArith.
Section arith.
Context `{FDEnv} (Hg : globals_ok fd_env) {K : Prop}.
Implicit Types (s : gmap Term FiniteDomain) (x y z t u : Term) (m : bool) (l : list Term) (p : Propagator) (α : Z -> Z).

Implicit Types A B D : range.

(** ** Twice and square *)

Record inverse (f F up down : Z -> Z) : Prop := {
  iv_up v b : 0 <= v -> 0 <= b -> b <= F v -> up b <= v;
  iv_down v b : 0 <= v -> 0 <= b -> F v <= b -> v <= down b;
  iv_low v w : 0 <= v <= w -> f v <= F w;
  iv_high v w : 0 <= v <= w -> F v <= fd_sup -> F v <= f w;
  iv_eq v : 0 <= v -> f v <= fd_sup -> F v = f v
}.

Lemma inverse_loop_exact f F up down x y p : inverse f F up down -> OZ_isEqualVars x y = false -> params p = [x; y] -> (forall s, kind_ok s p) -> (forall α, holds p α <-> value α y = F (value α x)) ->
  forall fuel s lo hi n, live s [x; y] -> box s y lo hi n -> (Z.to_nat n < fuel)%nat -> exact K s (holds p) (inverse_loop f up down fuel s x y p).
Proof.
  intros [Hup Hdown Hlow Hhigh Heq] Hne Hp Hko Hh. assert (OZ_isEqualVars y x = false) as Hne' by by rewrite isEqualVars_sym.
  induction fuel as [|fuel IH]; intros s lo hi n L By Hn; [lia|]. cbn [inverse_loop]. destruct (live_lookup s _ x L) as [dx Hx]; [by repeat constructor|]. pose proof (box_of s x dx Hx) as Bx.
  destruct (box_facts _ _ _ _ _ _ L Bx) as [Fx Vx], (box_facts _ _ _ _ _ _ L By) as [Fy Vy]. destruct By as (dy & Hy & <- & <- & <-). pose proof (box_of s y dy Hy) as By. rewrite Hy. ored.
  eapply (ge_box Hg); [exact L|exact Bx|intros α Ha Hc%Hh; specialize (Vx α Ha); specialize (Vy α Ha); apply Hup; lia|]. intros s1 xl nx L1 S1 Bx1 _ Hxl _ _ O1.
  pose proof (O1 _ _ _ _ Hne By) as By1. destruct By1 as (dy1 & Hy1 & E1 & E2 & E3). rewrite Hy1. ored. pose proof (box_of s1 y dy1 Hy1) as By1. rewrite E1, E2, E3 in By1.
  eapply (le_box Hg); [exact L1|exact Bx1|intros α Ha Hc%Hh; specialize (Vx α (S1 α Ha)); specialize (Vy α (S1 α Ha)); rewrite E2; apply Hdown; lia|]. intros s2 xu nx2 L2 S2 Bx2 _ _ _ _ O2.
  pose proof (O2 _ _ _ _ Hne By1) as By2. destruct (box_facts _ _ _ _ _ _ L2 Bx2) as [Fx2 Vx2], (box_facts _ _ _ _ _ _ L2 By2) as [Fy2 Vy2].
  pose proof By2 as (dy2 & Hy2 & E4 & E5 & _). rewrite Hy2. ored. pose proof Bx2 as (dx2 & Hx2 & E6 & _). rewrite Hx2. ored. rewrite E4, E5, E6.
  eapply (ge_box Hg); [exact L2|exact By2|intros α Ha Hc%Hh; rewrite Hc; specialize (Vx2 α Ha); apply Hlow; lia|]. intros s3 yl ny3 L3 S3 By3 Hyl _ Hn3 Hn3' O3.
  pose proof (O3 _ _ _ _ Hne' Bx2) as Bx3. pose proof Bx3 as (dx3 & Hx3 & _ & E7 & _). rewrite Hx3. ored. rewrite E7.
  eapply (le_box Hg); [exact L3|exact By3|intros α Ha Hc%Hh; rewrite Hc; specialize (Vx2 α (S3 α Ha)); apply Hhigh; [lia|]; specialize (Vy2 α (S3 α Ha)); lia|]. intros s4 yu ny4 L4 S4 By4 Hyu Hyu' Hn4 Hn4' O4.
  pose proof (O4 _ _ _ _ Hne' Bx3) as Bx4. pose proof By4 as (dy4 & Hy4 & E8 & E9 & _). rewrite Hy4. ored. rewrite E8, E9. destruct (box_facts _ _ _ _ _ _ L4 Bx4) as [Fx4 Vx4], (box_facts _ _ _ _ _ _ L4 By4) as [Fy4 Vy4].
  destruct (_ || _) eqn:Et; [apply (IH s4 yl yu ny4); [done|done|lia]|]. apply leave_all; [done|done|done|done|]. intros _ Hd α Ha. apply Hh.
  pose proof (box_determined s4 _ x _ _ _ (lv_wf _ _ L4) Hd ltac:(by repeat constructor) Bx4) as Ex. pose proof (box_determined s4 _ y _ _ _ (lv_wf _ _ L4) Hd ltac:(by repeat constructor) By4).
  specialize (Vx4 α Ha). specialize (Vy4 α Ha). assert (value α x = xu) as -> by lia. rewrite Ex in Hyl. rewrite Heq; lia.
Qed.

Lemma twice_inverse : inverse (fun v => 2 * v) (fun v => 2 * v) (fun v => ceil_div v 2) (fun v => v / 2).
Proof. split; unfold ceil_div; intros; try lia; Z.div_mod_to_equations; lia. Qed.

Lemma square_inverse : inverse square (fun v => v * v) Z.sqrt_up Z.sqrt.
Proof.
  split; unfold square, truncToIntMax, INT_MAX, fd_sup; intros.
  - apply Z.sqrt_up_le_square; lia.
  - apply Z.sqrt_le_square; lia.
  - nia.
  - nia.
  - lia.
Qed.

Lemma twice_exact s x y : wf_store s -> Forall (present s) [x; y] -> exact K s (holds (Twice x y)) (propagate_Twice s x y).
Proof.
  intros Hs Hp. unfold propagate_Twice. enter s. destruct (OZ_isEqualVars x y) eqn:Exy.
  - apply isEqualVars_eq in Exy as <-. destruct (live_lookup s _ x L) as [dx Hx]; [by repeat constructor|].
    eapply fail_vanish; [done|exact Hx|by apply eqc_narrows, (Hs x)|]. intros α Ha. cbn [holds]. lia.
  - destruct (live_lookup s _ y L) as [dy Hy]; [by repeat constructor|]. apply (inverse_loop_exact _ _ _ _ x y (Twice x y) twice_inverse Exy eq_refl (fun _ => I) (fun _ => iff_refl _) _ s _ _ _ L (box_of s y dy Hy)).
    cbn [budget foldr]. rewrite Hy. lia.
Qed.

Lemma square_exact s x y : wf_store s -> Forall (present s) [x; y] -> exact K s (holds (Square x y)) (propagate_Square s x y).
Proof.
  intros Hs Hp. unfold propagate_Square. enter s. destruct (OZ_isEqualVars x y) eqn:Exy.
  - apply isEqualVars_eq in Exy as <-. destruct (live_lookup s _ x L) as [dx Hx]; [by repeat constructor|].
    eapply fail_vanish; [done|exact Hx|apply (dom_le_narrows Hg); apply (Hs x dx Hx)|]. intros α Ha. destruct (store_bounds s x dx Hs Hx). pose proof (sol_within s x dx α Hs Hx Ha). cbn [holds]. nia.
  - destruct (live_lookup s _ y L) as [dy Hy]; [by repeat constructor|]. apply (inverse_loop_exact _ _ _ _ x y (Square x y) square_inverse Exy eq_refl (fun _ => I) (fun _ => iff_refl _) _ s _ _ _ L (box_of s y dy Hy)).
    cbn [budget foldr]. rewrite Hy. lia.
Qed.

(** ** Plus *)

Lemma plus_loop_exact l x y z : l = [x; y; z] -> apart3 x y z -> forall fuel s A B D, trio l s x y z A B D -> (total3 A B D < fuel)%nat ->
  exact K s (holds (Plus x y z)) (plus_loop fuel s x y z (lowest D - highest B) (highest D - lowest B) (lowest D - highest A) (highest D - lowest A) (lowest A + lowest B) (highest A + highest B)).
Proof.
  intros El Hap. induction fuel as [|fuel IH]; intros s A B D T Hf; [lia|]. cbn [plus_loop]. pose proof (trio_facts _ _ _ _ _ _ _ _ T) as F. unfold total3 in Hf. look T.
  destruct (Z.ltb_spec (lowest A) (lowest D - highest B)).
  { eapply (trio_ge Hg); [exact T|done|done|intros α Ha; cbn [holds]; pose proof (trio_sol _ _ _ _ _ _ _ _ α T Ha); lia|]. intros s1 lo n T1 _ Hn. look T1. apply (IH s1 _ B D T1). unfold total3. cbn. lia. }
  destruct (Z.ltb_spec (highest D - lowest B) (highest A)).
  { eapply (trio_le Hg); [exact T|done|done|intros α Ha; cbn [holds]; pose proof (trio_sol _ _ _ _ _ _ _ _ α T Ha); lia|]. intros s1 hi n T1 _ Hn. look T1. apply (IH s1 _ B D T1). unfold total3. cbn. lia. }
  destruct (Z.ltb_spec (lowest B) (lowest D - highest A)).
  { eapply (trio_ge Hg); [exact (trio_yxz _ _ _ _ _ _ _ _ T)|by apply apart3_yxz|done|intros α Ha; cbn [holds]; pose proof (trio_sol _ _ _ _ _ _ _ _ α T Ha); lia|].
    intros s1 lo n T1%trio_yxz _ Hn. look T1. apply (IH s1 A _ D T1). unfold total3. cbn. lia. }
  destruct (Z.ltb_spec (highest D - lowest A) (highest B)).
  { eapply (trio_le Hg); [exact (trio_yxz _ _ _ _ _ _ _ _ T)|by apply apart3_yxz|done|intros α Ha; cbn [holds]; pose proof (trio_sol _ _ _ _ _ _ _ _ α T Ha); lia|].
    intros s1 hi n T1%trio_yxz _ Hn. look T1. apply (IH s1 A _ D T1). unfold total3. cbn. lia. }
  destruct (Z.ltb_spec (lowest D) (lowest A + lowest B)).
  { eapply (trio_ge Hg); [exact (trio_zyx _ _ _ _ _ _ _ _ T)|by apply apart3_zyx|done|intros α Ha; cbn [holds]; pose proof (trio_sol _ _ _ _ _ _ _ _ α T Ha); lia|].
    intros s1 lo n T1%trio_zyx _ Hn. look T1. apply (IH s1 A B _ T1). unfold total3. cbn. lia. }
  destruct (Z.ltb_spec (highest A + highest B) (highest D)).
  { eapply (trio_le Hg); [exact (trio_zyx _ _ _ _ _ _ _ _ T)|by apply apart3_zyx|done|intros α Ha; cbn [holds]; pose proof (trio_sol _ _ _ _ _ _ _ _ α T Ha); lia|].
    intros s1 hi n T1%trio_zyx _ Hn. look T1. apply (IH s1 A B _ T1). unfold total3. cbn. lia. }
  subst l. apply leave_all; [apply T|done|done|done|]. intros _ Hd α Ha. pose proof (trio_sol _ _ _ _ _ _ _ _ α T Ha).
  destruct (trio_determined _ _ _ _ _ _ _ _ T) as (? & ? & ?); [by repeat constructor..|done|]. cbn [holds]. lia.
Qed.

Lemma plus_exact m s x y z : (m = true \/ OZ_hasEqualVars [x; y; z] = false) -> wf_store s -> Forall (present s) [x; y; z] -> exact K s (holds (Plus x y z)) (propagate_Plus m s x y z).
Proof.
  intros Hm Hs Hp. destruct (forall3 _ x y z Hp) as (Px & Py & Pz). assert (present s (SmallInt 0)) as P0 by (cbn; unfold fd_sup; lia). unfold propagate_Plus.
  destruct (m && OZ_isEqualVars x y) eqn:E1; [|destruct (m && OZ_isEqualVars x z) eqn:E2; [|destruct (m && OZ_isEqualVars y z) eqn:E3]].
  - apply andb_true_iff in E1 as [_ E1]. apply isEqualVars_eq in E1 as <-. eapply exact_ext; [|by apply twice_exact; [|repeat constructor]]. intros α _. cbn [holds]. lia.
  - apply andb_true_iff in E2 as [_ E2]. apply isEqualVars_eq in E2 as <-. apply unify_exact; [done..|]. intros α _. cbn [holds value]. lia.
  - apply andb_true_iff in E3 as [_ E3]. apply isEqualVars_eq in E3 as <-. apply unify_exact; [done..|]. intros α _. cbn [holds value]. lia.
  - pose proof (apart3_no_alias m x y z Hm E1 E2 E3) as Hap. enter s. destruct (forall3 _ x y z (lv_present _ _ L)) as (Qx & Qy & Qz). destruct (trio_of s x y z L) as (A & B & D & T & Hb).
    assert (forall t d, s !! t = Some d -> singl d && eq_int d 0 = true -> forall α, sol s α -> value α t = 0) as Hzero.
    { intros t d Hd Hz α Ha. apply andb_true_iff in Hz as [Hz He]. rewrite (single_value s t d α Hs Hd Hz Ha), (single_elem d Hz). unfold eq_int in He. lia. }
    destruct (trio_lookup _ _ _ _ _ _ _ _ T) as (dx & dy & dz & (Hx & Hy & Hz) & (X1 & X2 & _) & (Y1 & Y2 & _) & (Z1 & Z2 & _)).
    rewrite Hx, Hy, Hz. ored. destruct (singl dx && eq_int dx 0) eqn:Zx; [|destruct (singl dy && eq_int dy 0) eqn:Zy].
    + apply unify_exact; [done..|]. intros α Ha. cbn [holds]. rewrite (Hzero x dx Hx Zx α Ha). lia.
    + apply unify_exact; [done..|]. intros α Ha. cbn [holds]. rewrite (Hzero y dy Hy Zy α Ha). lia.
    + rewrite X1, X2, Y1, Y2, Z1, Z2. apply (plus_loop_exact [x; y; z]); [done|done|done|]. rewrite Hb. pose proof (trio_facts _ _ _ _ _ _ _ _ T). unfold total3. lia.
Qed.
End arith.
End PropArith.
