(* ===== verification/PropTimes.v ===== *)
(** * The propagators of products, quotients and remainders are exact *)
From stdpp Require Import gmap.
From S2P Require Import Prelude Word32 FDBase FDIntervals FDBitVector FiniteDomain FDRepr FDQueries FDOperators FDSetOperators Propagators PropSpec PropRel PropEnum PropArith.
Import FiniteDomain FDRepr FDQueries FDOperators FDSetOperators PropBase RelPropagators ArithPropagators PropSpec PropRules PropRel PropEnum PropBox PropArith.

Module PropTimes.

Lemma ceil_div_le a b c : 0 < b -> a <= c * b -> ceil_div a b <= c.
Proof. intros Hb Ha. unfold ceil_div. pose proof (Z.mul_div_le (- a) b Hb). assert (- c <= (- a) / b) by (apply Z.div_le_lower_bound; lia). lia. Qed.

Lemma div_ge a b c : 0 < b -> c * b <= a -> c <= a / b.
Proof. intros Hb Ha. apply Z.div_le_lower_bound; lia. Qed.

Lemma product_low v w yu d : 0 <= v -> w <= yu -> d <= v * w -> 0 < yu -> ceil_div d yu <= v.
Proof. intros Hv Hw Hd Hy. apply ceil_div_le; [done|]. nia. Qed.

Lemma product_high v w yl d : 0 <= v -> yl <= w -> v * w <= d -> 0 < yl -> v <= d / yl.
Proof. intros Hv Hw Hd Hy. apply div_ge; [done|]. nia. Qed.

Lemma product_bounds v w xl xu yl yu : 0 <= xl -> xl <= v <= xu -> 0 <= yl -> yl <= w <= yu -> v * w <= fd_sup -> truncToIntMax (xl * yl) <= v * w <= truncToIntMax (xu * yu).
Proof. unfold truncToIntMax, INT_MAX, fd_sup. intros. nia. Qed.

Section times.
Context `{FDEnv} (Hg : globals_ok fd_env) {K : Prop}.
Implicit Types (s : gmap Term FiniteDomain) (x y z t u : Term) (m : bool) (l : list Term) (p : Propagator) (α : Z -> Z) (A B D : range).

Lemma eqc_box C l s t lo hi n b k : live s l -> box s t lo hi n -> (forall α, sol s α -> C α -> value α t = b) ->
  (forall s', live s' l -> (forall α, sol s' α -> sol s α /\ value α t = b) -> others s s' t -> exact K s' C (k s')) -> exact K s C (FailOnEmpty s t (eqc b) k).
Proof.
  intros L (d & Hd & _) HC Hk. eapply eqc_step; [apply L|exact Hd|done|]. intros s' d' St. apply Hk; [by apply (step_live _ _ _ _ _ _ _ _ St)| |by apply (step_others _ _ _ _ _ _ _ St)].
  intros α Ha. destruct (st_sol _ _ _ _ _ _ _ St α Ha). split; [done|lia].
Qed.

(** A determined pair of parameters determines the third. *)
Lemma times_kind s x y z : apart3 x y z -> kind_ok s (Times x y z).
Proof. intros []. by right. Qed.

Lemma times_end s s' x y z t C b : apart3 x y z -> live s' [x; y; z] -> C = holds (Times x y z) -> (forall α, sol s' α -> sol s α /\ value α t = b) ->
  (forall α, sol s α -> value α t = b -> C α) -> exact K s' C (leave s' [x; y; z] (Times x y z)).
Proof. intros Hap L -> Hs' HC. apply leave_all; [done|by apply times_kind|done|done|]. intros _ _ α Ha. destruct (Hs' α Ha). by apply HC. Qed.

Lemma quot_exact a b : 0 <= a -> 0 < b -> Z.rem a b = 0 -> a = b * (a ÷ b).
Proof. intros Ha Hb Hr. pose proof (Z.quot_rem' a b). lia. Qed.

Lemma quot_unique a b q : 0 <= q -> 0 < b -> a = b * q -> Z.rem a b = 0 /\ a ÷ b = q.
Proof. intros Hq Hb ->. rewrite Z.rem_mod_nonneg, Z.quot_div_nonneg by nia. rewrite (Z.mul_comm b q), Z.mod_mul, Z.div_mul by lia. done. Qed.

Lemma times_loop_exact x y z : apart3 x y z -> forall fuel s tzl tzu A B D, trio [x; y; z] s x y z A B D -> (total3 A B D < fuel)%nat ->
  (forall α, sol s α -> holds (Times x y z) α -> tzl <= value α z <= tzu) -> exact K s (holds (Times x y z)) (times_loop fuel s x y z tzl tzu).
Proof.
  intros Hap. induction fuel as [|fuel IH]; intros s tzl tzu A B D T Hf Htz; [lia|]. cbn [times_loop]. pose proof (trio_facts _ _ _ _ _ _ _ _ T) as (FA & FB & FD). unfold total3 in Hf.
  pose proof (fun α => trio_sol _ _ _ _ _ _ _ _ α T) as Hsol. look T.
  destruct ((lowest A =? highest A) && (lowest B =? highest B)) eqn:E1.
  { rewrite Gx, Gy by lia. eapply eqc_box; [apply T|apply (tr_z _ _ _ _ _ _ _ _ T)|..].
    - intros α Ha. specialize (Hsol α Ha). cbn [holds]. unfold truncToIntMax, INT_MAX, fd_sup in *. replace (value α x) with (lowest A) by lia. replace (value α y) with (lowest B) by lia. lia.
    - intros s1 L1 S1 _. eapply (times_end s s1 x y z z); [done|done|done|exact S1|]. intros α Ha. specialize (Hsol α Ha). cbn [holds]. intros Ez. unfold truncToIntMax, INT_MAX, fd_sup in *.
      replace (value α x) with (lowest A) by lia. replace (value α y) with (lowest B) by lia. lia. }
  destruct ((lowest A =? highest A) && (lowest D =? highest D) && _) eqn:E2.
  { rewrite Gx, Gz in * by lia. destruct (Z.eqb_spec (Z.rem (lowest D) (lowest A)) 0) as [Er|Er]; cbn [negb].
    - eapply eqc_box; [apply T|apply (tr_y _ _ _ _ _ _ _ _ T)|..].
      + intros α Ha Hc. specialize (Hsol α Ha). cbn [holds] in Hc. symmetry. apply quot_unique; [lia|lia|]. replace (lowest A) with (value α x) by lia. lia.
      + intros s1 L1 S1 _. eapply (times_end s s1 x y z y); [done|done|done|exact S1|]. intros α Ha Ey. specialize (Hsol α Ha). cbn [holds]. rewrite Ey. replace (value α x) with (lowest A) by lia.
        rewrite <- quot_exact by lia. lia.
    - apply failed_exact. intros α Ha Hc. specialize (Hsol α Ha). cbn [holds] in Hc. apply Er. apply (quot_unique _ _ (value α y)); [lia|lia|]. replace (lowest A) with (value α x) by lia. lia. }
  destruct ((lowest B =? highest B) && (lowest D =? highest D) && _) eqn:E3.
  { rewrite Gy, Gz in * by lia. destruct (Z.eqb_spec (Z.rem (lowest D) (lowest B)) 0) as [Er|Er]; cbn [negb].
    - eapply eqc_box; [apply T|apply (tr_x _ _ _ _ _ _ _ _ T)|..].
      + intros α Ha Hc. specialize (Hsol α Ha). cbn [holds] in Hc. symmetry. apply quot_unique; [lia|lia|]. replace (lowest B) with (value α y) by lia. lia.
      + intros s1 L1 S1 _. eapply (times_end s s1 x y z x); [done|done|done|exact S1|]. intros α Ha Ex. specialize (Hsol α Ha). cbn [holds]. rewrite Ex. replace (value α y) with (lowest B) by lia.
        rewrite Z.mul_comm, <- quot_exact by lia. lia.
    - apply failed_exact. intros α Ha Hc. specialize (Hsol α Ha). cbn [holds] in Hc. apply Er. apply (quot_unique _ _ (value α x)); [lia|lia|]. replace (lowest B) with (value α y) by lia. lia. }
  destruct (Z.ltb_spec (lowest D) tzl).
  { eapply (trio_ge Hg); [exact (trio_zyx _ _ _ _ _ _ _ _ T)|by apply apart3_zyx|done|intros α Ha Hc; specialize (Htz α Ha Hc); lia|].
    intros s1 lo n T1%trio_zyx S1 Hn. apply (IH s1 _ _ A B _ T1); [unfold total3; cbn [count]; clear - Hf Hn FA FB FD; lia|]. intros α Ha. by apply Htz, S1. }
  destruct (Z.ltb_spec tzu (highest D)).
  { eapply (trio_le Hg); [exact (trio_zyx _ _ _ _ _ _ _ _ T)|by apply apart3_zyx|done|intros α Ha Hc; specialize (Htz α Ha Hc); lia|].
    intros s1 lo n T1%trio_zyx S1 Hn. apply (IH s1 _ _ A B _ T1); [unfold total3; cbn [count]; clear - Hf Hn FA FB FD; lia|]. intros α Ha. by apply Htz, S1. }
  assert (forall s1 A1 B1 D1, trio [x; y; z] s1 x y z A1 B1 D1 -> forall α, sol s1 α -> holds (Times x y z) α -> truncToIntMax (lowest A1 * lowest B1) <= value α z <= truncToIntMax (highest A1 * highest B1)) as Hnew.
  { intros s1 A1 B1 D1 T1 α Ha Hc. pose proof (trio_facts _ _ _ _ _ _ _ _ T1) as (GA & GB & GD). pose proof (trio_sol _ _ _ _ _ _ _ _ α T1 Ha). cbn [holds] in Hc. rewrite Hc. apply product_bounds; lia. }
  destruct (negb (highest B =? 0) && _) eqn:E4.
  { eapply (trio_ge Hg); [exact T|done|lia|intros α Ha Hc; specialize (Hsol α Ha); cbn [holds] in Hc; eapply product_low; [| |rewrite <- Hc|]; lia|].
    intros s1 lo n T1 S1 Hn. look T1. apply (IH s1 _ _ (Range lo (highest A) n) B D T1); [unfold total3; cbn [count]; clear - Hf Hn FA FB FD; lia|]. intros α Ha Hc. split; [by apply (Hnew s1 _ _ _ T1)|by apply Htz; [apply S1|]]. }
  destruct (negb (lowest B =? 0) && _) eqn:E5.
  { eapply (trio_le Hg); [exact T|done|lia|intros α Ha Hc; specialize (Hsol α Ha); cbn [holds] in Hc; eapply product_high; [| |rewrite <- Hc|]; lia|].
    intros s1 lo n T1 S1 Hn. look T1. apply (IH s1 _ _ (Range (lowest A) lo n) B D T1); [unfold total3; cbn [count]; clear - Hf Hn FA FB FD; lia|]. intros α Ha Hc. split; [by apply Htz; [apply S1|]|by apply (Hnew s1 _ _ _ T1)]. }
  destruct (negb (highest A =? 0) && _) eqn:E6.
  { eapply (trio_ge Hg); [exact (trio_yxz _ _ _ _ _ _ _ _ T)|by apply apart3_yxz|lia|intros α Ha Hc; specialize (Hsol α Ha); cbn [holds] in Hc; eapply product_low; [| |rewrite (Z.mul_comm (value α y)), <- Hc|]; lia|].
    intros s1 lo n T1%trio_yxz S1 Hn. look T1. apply (IH s1 _ _ A _ D T1); [unfold total3; cbn [count]; clear - Hf Hn FA FB FD; lia|]. intros α Ha Hc. split; [by apply (Hnew s1 _ _ _ T1)|by apply Htz; [apply S1|]]. }
  destruct (negb (lowest A =? 0) && _) eqn:E7.
  { eapply (trio_le Hg); [exact (trio_yxz _ _ _ _ _ _ _ _ T)|by apply apart3_yxz|lia|intros α Ha Hc; specialize (Hsol α Ha); cbn [holds] in Hc; eapply product_high; [| |rewrite (Z.mul_comm (value α y)), <- Hc|]; lia|].
    intros s1 lo n T1%trio_yxz S1 Hn. look T1. apply (IH s1 _ _ A _ D T1); [unfold total3; cbn [count]; clear - Hf Hn FA FB FD; lia|]. intros α Ha Hc. split; [by apply (Hnew s1 _ _ _ T1)|by apply Htz; [apply S1|]]. }
  apply leave_all; [apply T|by apply times_kind|done|done|]. intros _ Hd. destruct (trio_determined _ _ _ _ _ _ _ _ T) as (? & ? & _); [by repeat constructor..|done|]. lia.
Qed.

Lemma times_exact m s x y z : (m = true \/ OZ_hasEqualVars [x; y; z] = false) -> kind_ok s (Times x y z) -> wf_store s -> Forall (present s) [x; y; z] -> exact K s (holds (Times x y z)) (propagate_Times m s x y z).
Proof.
  intros Hm Hk Hs Hp. destruct (forall3 _ x y z Hp) as (Px & Py & Pz). unfold propagate_Times. cbn [kind_ok] in Hk. destruct (m && OZ_isEqualVars x y) eqn:E1.
  - apply andb_true_iff in E1 as [_ E1]. apply isEqualVars_eq in E1 as <-. by apply (square_exact Hg); [|repeat constructor].
  - assert (m && OZ_isEqualVars x z = false /\ m && OZ_isEqualVars y z = false) as [E2 E3].
    { destruct Hk as [Hk|[-> ->]]; [|by destruct m]. rewrite Hk in E1. destruct m; [done|]. done. }
    rewrite E2, E3. pose proof (apart3_no_alias m x y z Hm E1 E2 E3) as Hap. enter s. destruct (trio_of s x y z L) as (A & B & D & T & Hb). pose proof (trio_facts _ _ _ _ _ _ _ _ T) as (FA & FB & FD).
    look T. apply (times_loop_exact x y z Hap _ s _ _ A B D T); [rewrite Hb; unfold total3; lia|]. intros α Ha Hc. pose proof (trio_sol _ _ _ _ _ _ _ _ α T Ha). cbn [holds] in Hc. rewrite Hc. apply product_bounds; lia.
Qed.

(** ** Division on the bounds *)

Lemma div_low (v y zl : Z) : 0 < y -> zl <= v / y -> truncToIntMax (zl * y) <= v.
Proof. intros Hy Hz. unfold truncToIntMax. pose proof (Z.mul_div_le v y Hy). nia. Qed.

Lemma div_high (v y zu : Z) : 0 < y -> v <= fd_sup -> v / y <= zu -> v <= truncToIntMax (zu * y + y - 1).
Proof. intros Hy Hv Hz. unfold truncToIntMax, INT_MAX, fd_sup in *. pose proof (Z.mod_pos_bound v y Hy). pose proof (Z.div_mod v y ltac:(lia)). nia. Qed.

Lemma divI_loop_exact x (y : Z) z : OZ_isEqualVars x z = false -> 0 < y <= fd_sup -> forall fuel at_ s xl xu zl zu n k touched,
  live s [x; z] -> box s x xl xu n -> box s z zl zu k -> ((3 <= at_)%nat -> xl ÷ y <= zl) ->
  (Z.to_nat (8 * (n + k)) + (if touched : bool then 4 else 0) + (3 - at_) < fuel)%nat -> exact K s (holds (DivI x y z)) (divI_loop fuel at_ s x y z xl xu zl zu touched).
Proof.
  intros Hne Hy. assert (OZ_isEqualVars z x = false) as Hne' by by rewrite isEqualVars_sym. induction fuel as [|fuel IH]; intros at_ s xl xu zl zu n k touched L Bx Bz H3 Hf; [lia|]. cbn [divI_loop].
  destruct (box_facts _ _ _ _ _ _ L Bx) as [Fx Vx], (box_facts _ _ _ _ _ _ L Bz) as [Fz Vz].
  destruct at_ as [|[|[|at_]]].
  - destruct (Z.ltb_spec xl (truncToIntMax (zl * y))); [|apply (IH 1%nat s xl xu zl zu n k); [done..|lia|destruct touched; lia]].
    eapply (ge_box Hg); [exact L|exact Bx|intros α Ha Hc; cbn [holds] in Hc; specialize (Vz α Ha); apply div_low; lia|].
    intros s1 xl' n' L1 _ Bx1 Hb _ _ Hn O. pose proof Bx1 as (dx & Hx & E & _). rewrite Hx. ored. rewrite E. apply (IH 0%nat s1 xl' xu zl zu n' k); [done|done|by apply O|lia|destruct touched; lia].
  - destruct (Z.ltb_spec (truncToIntMax (zu * y + y - 1)) xu); [|apply (IH 2%nat s xl xu zl zu n k); [done..|lia|destruct touched; lia]].
    eapply (le_box Hg); [exact L|exact Bx|intros α Ha Hc; cbn [holds] in Hc; specialize (Vz α Ha); specialize (Vx α Ha); apply div_high; lia|].
    intros s1 xu' n' L1 _ Bx1 Hb _ _ Hn O. pose proof Bx1 as (dx & Hx & _ & E & _). rewrite Hx. ored. rewrite E. apply (IH 1%nat s1 xl xu' zl zu n' k); [done|done|by apply O|lia|destruct touched; lia].
  - rewrite Z.quot_div_nonneg by lia. destruct (Z.ltb_spec zl (xl / y)); [|apply (IH 3%nat s xl xu zl zu n k); [done..|intros _; rewrite Z.quot_div_nonneg; lia|destruct touched; lia]].
    eapply (ge_box Hg); [exact L|exact Bz|intros α Ha Hc; cbn [holds] in Hc; specialize (Vx α Ha); rewrite Hc; apply Z.div_le_mono; lia|].
    intros s1 zl' k' L1 _ Bz1 Hb _ _ Hk O. pose proof Bz1 as (dz & Hz & E & _). rewrite Hz. ored. rewrite E. apply (IH 2%nat s1 xl xu zl' zu n k'); [done|by apply O|done|lia|destruct touched; lia].
  - specialize (H3 ltac:(lia)). rewrite Z.quot_div_nonneg in H3 |- * by lia. destruct (Z.ltb_spec (xu / y) zu).
    + eapply (le_box Hg); [exact L|exact Bz|intros α Ha Hc; cbn [holds] in Hc; specialize (Vx α Ha); rewrite Hc; apply Z.div_le_mono; lia|].
      intros s1 zu' k' L1 _ Bz1 Hb _ _ Hk O. pose proof Bz1 as (dz & Hz & _ & E & _). rewrite Hz. ored. rewrite E. apply (IH 3%nat s1 xl xu zl zu' n k'); [done|by apply O|done|intros _; rewrite Z.quot_div_nonneg; lia|destruct touched; lia].
    + destruct touched; [apply (IH 0%nat s xl xu zl zu n k); [done..|lia|lia]|]. apply leave_all; [done|by split|done|done|]. intros _ Hd α Ha. cbn [holds].
      pose proof (box_determined s _ x _ _ _ (lv_wf _ _ L) Hd ltac:(by repeat constructor) Bx). pose proof (box_determined s _ z _ _ _ (lv_wf _ _ L) Hd ltac:(by repeat constructor) Bz).
      specialize (Vx α Ha). specialize (Vz α Ha). replace (value α x) with xu by lia. subst xl. lia.
Qed.

Lemma box2 s x z : live s [x; z] -> exists dx dz, (s !! x = Some dx /\ s !! z = Some dz) /\ budget s [x; z] = Z.to_nat (size dx + size dz + 1) /\ 0 < size dx /\ 0 < size dz.
Proof.
  intros L. destruct (live_lookup s _ x L) as [dx Hx]; [by repeat constructor|]. destruct (live_lookup s _ z L) as [dz Hz]; [by repeat constructor|]. exists dx, dz. split; [done|].
  pose proof (wd_size _ _ (lv_wf _ _ L x dx Hx)). pose proof (wd_size _ _ (lv_wf _ _ L z dz Hz)). cbn [budget foldr]. rewrite Hx, Hz. split; [lia|done].
Qed.

Lemma divI_exact m s x (y : Z) z : kind_ok s (DivI x y z) -> wf_store s -> Forall (present s) [x; z] -> exact K s (holds (DivI x y z)) (propagate_DivI m s x y z).
Proof.
  intros [Hne Hy] Hs Hp. unfold propagate_DivI. rewrite Hne, andb_false_r. enter s. destruct (box2 s x z L) as (dx & dz & (Hx & Hz) & Hb & Zx & Zz). rewrite Hx, Hz. ored.
  apply (divI_loop_exact x y z Hne Hy _ _ s _ _ _ _ (size dx) (size dz)); [done|by apply box_of|by apply box_of|lia|]. rewrite Hb. lia.
Qed.

(** ** Remainder on the bounds *)

Lemma residue_low (v y zl xl xu : Z) : 0 < y -> xl <= v <= xu -> v mod y = zl -> ceil_div (xl - zl) y <= (xu - zl) / y.
Proof.
  intros Hy Hv Hm. pose proof (Z.div_mod v y ltac:(lia)). transitivity (v / y); [apply ceil_div_le; [done|]; nia|apply div_ge; [done|]; nia].
Qed.

Lemma modI_loop_exact x (y : Z) z : OZ_isEqualVars x z = false -> 0 < y <= fd_sup -> forall fuel at_ s xl xu zl zu n k touched,
  live s [x; z] -> box s x xl xu n -> box s z zl zu k -> ((1 <= at_)%nat -> touched = false -> zl <= xl mod y <= zu) ->
  (Z.to_nat (8 * (n + k)) + (if touched : bool then 5 else 0) + (4 - at_) < fuel)%nat -> exact K s (holds (ModI x y z)) (modI_loop fuel at_ s x y z xl xu zl zu touched).
Proof.
  intros Hne Hy. assert (OZ_isEqualVars z x = false) as Hne' by by rewrite isEqualVars_sym. induction fuel as [|fuel IH]; intros at_ s xl xu zl zu n k touched L Bx Bz Hm Hf; [lia|]. cbn [modI_loop].
  destruct (box_facts _ _ _ _ _ _ L Bx) as [Fx Vx], (box_facts _ _ _ _ _ _ L Bz) as [Fz Vz].
  destruct at_ as [|[|[|[|at_]]]].
  - cbv zeta. rewrite Z.rem_mod_nonneg by lia. destruct (_ || _) eqn:Et; [|apply (IH 1%nat s xl xu zl zu n k); [done..|lia|destruct touched; lia]].
    eapply (ge_box Hg); [exact L|exact Bx|intros α Ha Hc; cbn [holds] in Hc; specialize (Vz α Ha); specialize (Vx α Ha); destruct (Z.eq_dec (value α x) xl) as [Ev|]; [rewrite Ev in Hc; lia|lia]|].
    intros s1 xl' n' L1 _ Bx1 Hb _ _ Hn O. pose proof Bx1 as (dx & Hx & E & _). rewrite Hx. ored. rewrite E. apply (IH 1%nat s1 xl' xu zl zu n' k); [done|done|by apply O|done|destruct touched; lia].
  - specialize (Hm ltac:(lia)). cbv zeta. rewrite Z.rem_mod_nonneg by lia. destruct (_ || _) eqn:Et; [|apply (IH 2%nat s xl xu zl zu n k); [done..|destruct touched; lia]].
    eapply (le_box Hg); [exact L|exact Bx|intros α Ha Hc; cbn [holds] in Hc; specialize (Vz α Ha); specialize (Vx α Ha); destruct (Z.eq_dec (value α x) xu) as [Ev|]; [rewrite Ev in Hc; lia|lia]|].
    intros s1 xu' n' L1 _ Bx1 Hb _ _ Hn O. pose proof Bx1 as (dx & Hx & _ & E & _). rewrite Hx. ored. rewrite E. apply (IH 2%nat s1 xl xu' zl zu n' k); [done|done|by apply O|done|destruct touched; lia].
  - specialize (Hm ltac:(lia)). destruct (Z.ltb_spec (xu - xl) (y - 1)); [|apply (IH 4%nat s xl xu zl zu n k); [done..|destruct touched; lia]].
    destruct (Z.ltb_spec ((xu - zl) / y) (ceil_div (xl - zl) y)); [|apply (IH 3%nat s xl xu zl zu n k); [done..|destruct touched; lia]].
    eapply (ge_box Hg); [exact L|exact Bz|intros α Ha Hc; cbn [holds] in Hc; specialize (Vz α Ha); specialize (Vx α Ha); pose proof (residue_low (value α x) y zl xl xu); lia|].
    intros s1 zl' k' L1 _ Bz1 Hb _ _ Hk O. pose proof Bz1 as (dz & Hz & E & _). rewrite Hz. ored. rewrite E. apply (IH 3%nat s1 xl xu zl' zu n k'); [done|by apply O|done|done|destruct touched; lia].
  - specialize (Hm ltac:(lia)). destruct (Z.ltb_spec ((xu - zu) / y) (ceil_div (xl - zu) y)); [|apply (IH 4%nat s xl xu zl zu n k); [done..|destruct touched; lia]].
    eapply (le_box Hg); [exact L|exact Bz|intros α Ha Hc; cbn [holds] in Hc; specialize (Vz α Ha); specialize (Vx α Ha); pose proof (residue_low (value α x) y zu xl xu); lia|].
    intros s1 zu' k' L1 _ Bz1 Hb _ _ Hk O. pose proof Bz1 as (dz & Hz & _ & E & _). rewrite Hz. ored. rewrite E. apply (IH 4%nat s1 xl xu zl zu' n k'); [done|by apply O|done|done|destruct touched; lia].
  - specialize (Hm ltac:(lia)). destruct touched; [apply (IH 0%nat s xl xu zl zu n k); [done..|lia|lia]|]. apply leave_all; [done|done|done|done|]. intros _ Hd α Ha. cbn [holds].
    pose proof (box_determined s _ x _ _ _ (lv_wf _ _ L) Hd ltac:(by repeat constructor) Bx). pose proof (box_determined s _ z _ _ _ (lv_wf _ _ L) Hd ltac:(by repeat constructor) Bz).
    specialize (Vx α Ha). specialize (Vz α Ha). specialize (Hm eq_refl). replace (value α x) with xl by lia. lia.
Qed.

(** The cases that both remainders decide first. *)
Lemma mod_simple_exact s x (y : Z) z xu n rest p : live s [x; z] -> 0 < y <= fd_sup -> p = ModD x y z \/ p = ModI x y z -> (exists xl, box s x xl xu n) ->
  exact K s (holds p) rest -> exact K s (holds p) (mod_simple s x y z xu rest).
Proof.
  intros L Hy Hp (xl & Bx) Hr. assert (forall α, holds p α <-> value α z = value α x mod y) as Hh by (by destruct Hp as [-> | ->]). pose proof (lv_wf _ _ L) as Hs.
  destruct (box_facts _ _ _ _ _ _ L Bx) as [Fx Vx]. pose proof Bx as (dx & Hx & E1 & E2 & _). destruct (live_lookup s _ z L) as [dz Hz]; [by repeat constructor|]. pose proof (lv_present _ _ L) as Hpr.
  apply Forall_cons in Hpr as [Px Hpr]. apply Forall_cons in Hpr as [Pz _]. unfold mod_simple. rewrite Hx, Hz. ored. destruct (Z.ltb_spec xu y); [|destruct (singl dx && _) eqn:Es; [|destruct ((xu <=? y) && _ && _) eqn:Ez; [|done]]].
  - apply unify_exact; [done..|]. intros α Ha. rewrite Hh. specialize (Vx α Ha). rewrite Z.mod_small by lia. done.
  - apply andb_true_iff in Es as [Es Ev]. apply unify_exact; [done|done|cbn; lia|]. intros α Ha. rewrite Hh. rewrite (single_value s x dx α Hs Hx Es Ha). replace (getSingleElem dx) with y by lia. cbn [value]. by rewrite Z.mod_same by lia.
  - apply andb_true_iff in Ez as [Ez Ev]. apply andb_true_iff in Ez as [Ez Ed]. assert (xu = y) as -> by lia. rewrite Z.eqb_refl. destruct (repr_initEmpty (fun _ => false)) as [We Me]; [done|].
    destruct (plus_int_mem Hg initEmpty 0 We) as (u & -> & Wu & Mu); [unfold fd_sup; lia|]. ored. destruct (plus_int_mem Hg u y Wu) as (u2 & -> & Wu2 & Mu2); [lia|]. ored.
    eapply fail_vanish; [done|exact Hx|by apply (inter_narrows Hg); [apply (Hs x)|]|]. intros α Ha. rewrite Hh, (single_value s z dz α Hs Hz Ed Ha). replace (getSingleElem dz) with 0 by lia.
    rewrite Mu2, Mu, Me. specialize (Vx α Ha). split.
    + intros E. destruct (Z.eq_dec (value α x) y) as [->|]; [by right|]. rewrite Z.mod_small in E by lia. left. by right.
    + intros [[?| ->]| ->]; [done|by rewrite Z.mod_0_l by lia|by rewrite Z.mod_same by lia].
Qed.

Lemma mod_alias s x (y : Z) m p : wf_store s -> present s x -> 0 < y <= fd_sup -> (forall α, holds p α <-> value α x = value α x mod y) -> exact K s (holds p) (propagate_LessEqOff m s x (SmallInt y) (-1)).
Proof.
  intros Hs Px Hy Hh. eapply exact_ext; [|apply (lesseq_exact Hg); [done|constructor; [done|constructor; [cbn; lia|constructor]]]]. intros α Ha. rewrite Hh. cbn [holds value]. split.
  - intros Hle. rewrite Z.mod_small; [done|]. destruct x as [v|n]; cbn in *; [destruct Px as [d Hd]; pose proof (sol_within s (Var v) d α Hs Hd Ha); destruct (store_bounds s _ d Hs Hd); cbn in *; lia|lia].
  - intros E. pose proof (Z.mod_pos_bound (value α x) y ltac:(lia)). lia.
Qed.

Lemma modI_exact m s x (y : Z) z : (m = true \/ OZ_hasEqualVars [x; z] = false) -> kind_ok s (ModI x y z) -> wf_store s -> Forall (present s) [x; z] -> exact K s (holds (ModI x y z)) (propagate_ModI m s x y z).
Proof.
  intros Hm Hy Hs Hp. unfold propagate_ModI. cbn [kind_ok] in Hy. destruct (m && OZ_isEqualVars x z) eqn:E.
  - apply andb_true_iff in E as [_ E]. apply isEqualVars_eq in E as <-. apply Forall_cons in Hp as [Px _]. by apply mod_alias.
  - assert (OZ_isEqualVars x z = false) as Hne by (destruct Hm as [->|Hm]; [done|]; cbn in Hm; by destruct (OZ_isEqualVars x z)). assert (OZ_isEqualVars z x = false) as Hne' by by rewrite isEqualVars_sym.
    enter s. destruct (live_lookup s _ x L) as [dx0 Hx0]; [by repeat constructor|]. destruct (live_lookup s _ z L) as [dz0 Hz0]; [by repeat constructor|].
    eapply (le_box Hg); [exact L|by apply box_of|intros α Ha Hc; cbn [holds] in Hc; pose proof (Z.mod_pos_bound (value α x) y ltac:(lia)); lia|].
    intros s1 hi n L1 _ Bz _ _ _ _ O. destruct (box2 s1 x z L1) as (dx & dz & (Hx & Hz) & Hb & Zx & Zz). rewrite Hx, Hz. ored.
    apply (mod_simple_exact s1 x y z _ (size dx)); [done|done|by right|eexists; by apply box_of|].
    apply (modI_loop_exact x y z Hne Hy _ _ s1 _ _ _ _ (size dx) (size dz)); [done|by apply box_of|by apply box_of|lia|]. rewrite Hb. lia.
Qed.
End times.
End PropTimes.
