(* ===== verification/PropMain.v ===== *)
(** * The propagators of arithmetic on domains, and all propagators *)
From stdpp Require Import gmap.
From S2P Require Import Prelude Word32 FDBase FDIntervals FDBitVector FiniteDomain FDRepr FDQueries FDOperators FDSetOperators Propagators PropSpec PropRel PropEnum PropArith PropTimes PropDistinct.

(** * The propagators of arithmetic that enumerate domains are exact *)

Import FiniteDomain FDRepr FDQueries FDOperators FDSetOperators PropBase RelPropagators ArithPropagators PropSpec PropRules PropRel PropEnum PropBox PropTimes.

Module PropDomain.
Section domain.
Context `{FDEnv} (Hg : globals_ok fd_env) {K : Prop}.
Implicit Types (s : gmap Term FiniteDomain) (x y z t : Term) (m : bool).

(** A value that a parameter can have. *)
Definition possible s t (v : Z) : Prop := match t with Var _ => exists d, s !! t = Some d /\ fd_mem d v = true | SmallInt n => v = n end.

(** No product of values of the parameters leaves the range of [int]. *)
Definition small_products s x y : Prop := forall v w, possible s x v -> possible s y w -> v * w < 2 ^ 31.

Lemma possible_read s s' t d v : (forall i, s' !! Var i = s !! Var i) -> wf_store s' -> s' !! t = Some d -> fd_mem d v = true -> possible s t v.
Proof.
  intros HV Hs Hd Hv. destruct t as [i|n]; cbn; [exists d; by rewrite <- HV|]. rewrite (wd_int _ _ (Hs _ d Hd) n v eq_refl) in Hv. lia.
Qed.

Lemma int_mul_small v w : 0 <= v * w < 2 ^ 31 -> int_mul v w = v * w.
Proof. intros Hp. unfold int_mul, w32, s32. rewrite Z.mod_small by lia. destruct (Z.ltb_spec (v * w) (2 ^ 31)); lia. Qed.

Lemma int_mul_fits v w : 0 <= v <= fd_sup -> 0 <= w <= fd_sup -> 0 <= v * w <= fd_sup -> int_mul v w = v * w.
Proof. intros Hv Hw Hp. apply int_mul_small. unfold fd_sup in *. lia. Qed.

Lemma no_alias2 m x z : (m = true \/ OZ_hasEqualVars [x; z] = false) -> m && OZ_isEqualVars x z = false -> OZ_isEqualVars x z = false.
Proof. intros [->|Hm]; [done|]. cbn in Hm. by destruct (OZ_isEqualVars x z). Qed.

Lemma twiceD_exact s x y : kind_ok s (TwiceD x y) -> wf_store s -> Forall (present s) [x; y] -> exact K s (holds (TwiceD x y)) (propagate_TwiceD s x y).
Proof. cbn [kind_ok]. intros Hk Hs Hp. unfold propagate_TwiceD. enter s. by apply (enumerate_exact Hg _ (fun v => 2 * v)). Qed.

Lemma squareD_exact s x y : (K -> small_products s x x) -> kind_ok s (SquareD x y) -> wf_store s -> Forall (present s) [x; y] -> exact K s (holds (SquareD x y)) (propagate_SquareD s x y).
Proof.
  intros HK Hk Hs Hp. unfold propagate_SquareD. apply reads_live; [done|done|]. intros s' _ L V. apply (enumerate_exact Hg _ (fun v => v * v)); try done.
  - intros v Hv Hvv. by apply int_mul_fits.
  - intros k d v Hd Hv. apply int_mul_small. assert (possible s x v) as Hpv by (apply (possible_read s s' x d); try done; apply L). specialize (HK k v v Hpv Hpv).
    pose proof (mem_range d v (wd_wf _ _ (lv_wf _ _ L x d Hd)) Hv). nia.
Qed.

Lemma divD_exact m s x (y : Z) z : kind_ok s (DivD x y z) -> wf_store s -> Forall (present s) [x; z] -> exact K s (holds (DivD x y z)) (propagate_DivD m s x y z).
Proof.
  intros [Hne Hy] Hs Hp. unfold propagate_DivD. rewrite Hne, andb_false_r. enter s. apply (enumerate_exact Hg _ (fun v => v / y)); try done.
  - intros v Hv _. apply Z.quot_div_nonneg; lia.
  - intros _ d v Hd Hv. pose proof (mem_range d v (wd_wf _ _ (Hs x d Hd)) Hv). apply Z.quot_div_nonneg; lia.
Qed.

Lemma modD_exact m s x (y : Z) z : (m = true \/ OZ_hasEqualVars [x; z] = false) -> kind_ok s (ModD x y z) -> wf_store s -> Forall (present s) [x; z] -> exact K s (holds (ModD x y z)) (propagate_ModD m s x y z).
Proof.
  intros Hm Hy Hs Hp. unfold propagate_ModD. cbn [kind_ok] in Hy. destruct (m && OZ_isEqualVars x z) eqn:E.
  - apply andb_true_iff in E as [_ E]. apply isEqualVars_eq in E as <-. apply Forall_cons in Hp as [Px _]. by apply (mod_alias Hg).
  - pose proof (no_alias2 m x z Hm E) as Hne. assert (OZ_isEqualVars z x = false) as Hne' by by rewrite isEqualVars_sym.
    enter s. destruct (live_lookup s _ x L) as [dx Hx]; [by repeat constructor|]. destruct (live_lookup s _ z L) as [dz0 Hz0]; [by repeat constructor|]. rewrite Hx. ored.
    eapply (le_box Hg); [exact L|by apply box_of|intros α Ha Hc; cbn [holds] in Hc; pose proof (Z.mod_pos_bound (value α x) y ltac:(lia)); lia|].
    intros s1 hi n L1 _ Bz _ _ _ _ O. apply (mod_simple_exact Hg s1 x y z _ (size dx)); [done|done|by left|exists (min_elem dx); by apply O, box_of|].
    apply (enumerate_exact Hg _ (fun v => v mod y)); try done.
    + intros v Hv _. apply Z.rem_mod_nonneg; lia.
    + intros _ d v Hd Hv. pose proof (mem_range d v (wd_wf _ _ (lv_wf _ _ L1 x d Hd)) Hv). apply Z.rem_mod_nonneg; lia.
Qed.

Lemma plusD_exact m s x y z : (m = true \/ OZ_hasEqualVars [x; y; z] = false) -> kind_ok s (PlusD x y z) -> wf_store s -> Forall (present s) [x; y; z] -> exact K s (holds (PlusD x y z)) (propagate_PlusD m s x y z).
Proof.
  intros Hm Hk Hs Hp. destruct (forall3 _ x y z Hp) as (Px & Py & Pz). assert (present s (SmallInt 0)) as P0 by (cbn; unfold fd_sup; lia). unfold propagate_PlusD. cbn [kind_ok] in Hk.
  destruct (m && OZ_isEqualVars x y) eqn:E1; [|destruct (m && OZ_isEqualVars x z) eqn:E2; [|destruct (m && OZ_isEqualVars y z) eqn:E3]].
  - apply andb_true_iff in E1 as [_ E1]. rewrite E1 in Hk. apply isEqualVars_eq in E1 as <-. eapply exact_ext; [|by apply twiceD_exact; [|done|repeat constructor]]. intros α _. cbn [holds]. lia.
  - apply andb_true_iff in E2 as [_ E2]. apply isEqualVars_eq in E2 as <-. apply unify_exact; [done..|]. intros α _. cbn [holds value]. lia.
  - apply andb_true_iff in E3 as [_ E3]. apply isEqualVars_eq in E3 as <-. apply unify_exact; [done..|]. intros α _. cbn [holds value]. lia.
  - pose proof (apart3_no_alias m x y z Hm E1 E2 E3) as [Nxy _ Nxz _ Nyz _]. enter s. destruct (forall3 _ x y z (lv_present _ _ L)) as (Qx & Qy & Qz).
    assert (forall t d, s !! t = Some d -> singl d && eq_int d 0 = true -> forall α, sol s α -> value α t = 0) as Hzero.
    { intros t d Hd Hz α Ha. apply andb_true_iff in Hz as [Hz He]. rewrite (single_value s t d α Hs Hd Hz Ha), (single_elem d Hz). unfold eq_int in He. lia. }
    destruct (live_lookup s _ x L) as [dx Hx]; [by repeat constructor|]. destruct (live_lookup s _ y L) as [dy Hy]; [by repeat constructor|].
    rewrite Hx, Hy. ored. destruct (singl dx && eq_int dx 0) eqn:Zx; [|destruct (singl dy && eq_int dy 0) eqn:Zy].
    + apply unify_exact; [done..|]. intros α Ha. cbn [holds]. rewrite (Hzero x dx Hx Zx α Ha). lia.
    + apply unify_exact; [done..|]. intros α Ha. cbn [holds]. rewrite (Hzero y dy Hy Zy α Ha). lia.
    + apply (enumerate2_exact Hg _ Z.add); try done.
Qed.

Lemma timesD_exact m s x y z : (m = true \/ OZ_hasEqualVars [x; y; z] = false) -> (K -> small_products s x y) -> kind_ok s (TimesD x y z) -> wf_store s -> Forall (present s) [x; y; z] -> exact K s (holds (TimesD x y z)) (propagate_TimesD m s x y z).
Proof.
  intros Hm HK Hk Hs Hp. destruct (forall3 _ x y z Hp) as (Px & Py & Pz). destruct Hk as [Nxz Nyz]. unfold propagate_TimesD. rewrite Nxz, Nyz, !andb_false_r. destruct (m && OZ_isEqualVars x y) eqn:E1.
  - apply andb_true_iff in E1 as [_ E1]. apply isEqualVars_eq in E1 as <-. by apply squareD_exact; [..|repeat constructor].
  - assert (OZ_isEqualVars x y = false) as Nxy. { destruct Hm as [->|Hm]; [done|]. cbn in Hm. by destruct (OZ_isEqualVars x y). }
    apply reads_live; [done|done|]. intros s' _ L V. apply (enumerate2_exact Hg _ Z.mul); try done.
    + intros v w Hv Hw Hvw. by apply int_mul_fits.
    + intros k d e v w Hd He Hv Hw. apply int_mul_small. pose proof (lv_wf _ _ L) as Hs'.
      pose proof (HK k v w (possible_read s s' x d v V Hs' Hd Hv) (possible_read s s' y e w V Hs' He Hw)).
      pose proof (mem_range d v (wd_wf _ _ (Hs' x d Hd)) Hv). pose proof (mem_range e w (wd_wf _ _ (Hs' y e He)) Hw). nia.
Qed.
End domain.
End PropDomain.

(** * How much the propagators narrow

    A domain is consistent with a constraint when every value that a parameter has left belongs to an
    assignment that satisfies it. *)

Import FiniteDomain FDRepr FDQueries FDOperators FDSetOperators PropBase RelPropagators ArithPropagators PropSpec PropRules PropRel PropEnum PropBox PropTimes PropDomain.

Module PropStrength.
Section strength.
Context `{FDEnv} (Hg : globals_ok fd_env).
Implicit Types (s : gmap Term FiniteDomain) (x y z t : Term) (m : bool) (p : Propagator).

Definition supported s p : Prop := forall t d v, t ∈ params p -> s !! t = Some d -> fd_mem d v = true -> exists α, sol s α /\ holds p α /\ value α t = v.

(** A propagator that goes to sleep leaves consistent domains. *)
Definition consistent (r : option Outcome) : Prop := match r with Some (SLEEP s p) => supported s p | Some _ => True | None => False end.

(** ** Assignments with given values *)

Definition least s (i : Z) : Z := match s !! Var i with Some d => min_elem d | None => 0 end.

Lemma int_value s n d v : wf_store s -> s !! SmallInt n = Some d -> fd_mem d v = true -> v = n.
Proof. intros Hs Hd Hv. rewrite (wd_int _ _ (Hs _ d Hd) n v eq_refl) in Hv. lia. Qed.

Lemma least_sol s : wf_store s -> sol s (least s).
Proof.
  intros Hs t d Hd. pose proof (bd_min d (store_bounds s t d Hs Hd)) as Hm. destruct t as [i|n]; cbn; [unfold least; by rewrite Hd|]. by rewrite <- (int_value s n d _ Hs Hd Hm).
Qed.

Definition assign (α : Z -> Z) t (v : Z) : Z -> Z := match t with Var i => fun j => if j =? i then v else α j | SmallInt _ => α end.

Lemma assign_sol s α t v d : wf_store s -> sol s α -> s !! t = Some d -> fd_mem d v = true -> sol s (assign α t v) /\ value (assign α t v) t = v /\ forall u, OZ_isEqualVars t u = false -> value (assign α t v) u = value α u.
Proof.
  intros Hs Ha Hd Hv. destruct t as [i|n]; cbn [assign].
  - split; [|split; [cbn; by rewrite Z.eqb_refl|]].
    + intros u e He. destruct u as [j|k]; cbn; [|by apply (Ha (SmallInt k) e)]. destruct (Z.eqb_spec j i) as [->|]; [congruence|by apply (Ha (Var j) e)].
    + intros [j|k] Hne; cbn in *; [|done]. destruct (Z.eqb_spec j i); [lia|done].
  - split; [done|]. split; [cbn; symmetry; by apply (int_value s n d)|done].
Qed.

Lemma two_values s x z dx dz v w : wf_store s -> OZ_isEqualVars x z = false -> s !! x = Some dx -> s !! z = Some dz -> fd_mem dx v = true -> fd_mem dz w = true ->
  exists α, sol s α /\ value α x = v /\ value α z = w.
Proof.
  intros Hs Hne Hx Hz Hv Hw. destruct (assign_sol s _ x v dx Hs (least_sol s Hs) Hx Hv) as (S1 & V1 & _). destruct (assign_sol s _ z w dz Hs S1 Hz Hw) as (S2 & V2 & O2).
  eexists. split; [exact S2|]. split; [|done]. rewrite O2; [done|]. by rewrite isEqualVars_sym.
Qed.

Lemma three_values s x y z dx dy dz v w u : wf_store s -> apart3 x y z -> s !! x = Some dx -> s !! y = Some dy -> s !! z = Some dz -> fd_mem dx v = true -> fd_mem dy w = true -> fd_mem dz u = true ->
  exists α, sol s α /\ value α x = v /\ value α y = w /\ value α z = u.
Proof.
  intros Hs [? ? ? ? ? ?] Hx Hy Hz Hv Hw Hu. destruct (assign_sol s _ x v dx Hs (least_sol s Hs) Hx Hv) as (S1 & V1 & _).
  destruct (assign_sol s _ y w dy Hs S1 Hy Hw) as (S2 & V2 & O2). destruct (assign_sol s _ z u dz Hs S2 Hz Hu) as (S3 & V3 & O3).
  eexists. split; [exact S3|]. split_and!; [rewrite O3, O2 by done; done|rewrite O3 by done; done|done].
Qed.

(** ** The domains after an enumeration *)

Lemma leave_consistent s l p : (wf_store s -> supported s p) -> wf_store s -> consistent (leave s l p).
Proof. intros Hp Hs. unfold leave. destruct (existsb _ _); [by apply Hp|done]. Qed.

Lemma enumerate_consistent f s x z p : live s [x; z] -> OZ_isEqualVars x z = false -> params p = [x; z] ->
  (forall d α, s !! x = Some d -> fd_mem d (value α x) = true -> value α z = f (value α x) -> holds p α) -> consistent (enumerate f s x z p).
Proof.
  intros L Hne Hp Hh. pose proof (lv_wf _ _ L) as Hs. destruct (live_lookup s _ x L) as [dx Hx]; [by repeat constructor|]. destruct (live_lookup s _ z L) as [dz Hz]; [by repeat constructor|].
  apply (enumerate_any Hg consistent f (fun _ => False) s x z p dx dz); try done. intros s' dx' dz' [N L' Hx' Hz' Mx Mz Hsol]. apply leave_consistent; [|apply L']. intros Hs' t d v Ht Hd Hv.
  rewrite Hp in Ht. assert (exists a, fd_mem dx' a = true /\ fd_mem dz' (f a) = true /\ (t = x /\ v = a \/ t = z /\ v = f a)) as (a & Ma & Mf & Et).
  { apply elem_of_cons in Ht as [->|Ht%list_elem_of_singleton]; [|subst t].
    - assert (d = dx') as -> by congruence. exists v. apply Mx in Hv as Hv'. split_and!; [done| |by left]. apply Mz. exists v. tauto.
    - assert (d = dz') as -> by congruence. apply Mz in Hv as Hv'. destruct Hv' as (a & Ma & -> & Mb). exists a. split_and!; [by apply Mx|done|by right]. }
  destruct (two_values s' x z dx' dz' a (f a) Hs' Hne Hx' Hz' Ma Mf) as (α & Ha & Vx & Vz). exists α. split; [done|]. split; [|by destruct Et as [[-> ->]|[-> ->]]].
  apply (Hh dx); [done| |by rewrite Vx]. rewrite Vx. by apply Mx.
Qed.

Lemma enumerate2_consistent f s x y z p : live s [x; y; z] -> apart3 x y z -> params p = [x; y; z] ->
  (forall d e α, s !! x = Some d -> s !! y = Some e -> fd_mem d (value α x) = true -> fd_mem e (value α y) = true -> value α z = f (value α x) (value α y) -> holds p α) -> consistent (enumerate2 f s x y z p).
Proof.
  intros L Hap Hp Hh. pose proof Hap as [Nxy _ Nxz _ Nyz _]. pose proof (lv_wf _ _ L) as Hs.
  destruct (live_lookup s _ x L) as [dx Hx]; [by repeat constructor|]. destruct (live_lookup s _ y L) as [dy Hy]; [by repeat constructor|]. destruct (live_lookup s _ z L) as [dz Hz]; [by repeat constructor|].
  apply (enumerate2_any Hg consistent f (fun _ => False) s x y z p dx dy dz); try done. intros s' dx' dy' dz' [N L' Hx' Hy' Hz' Mx My Mz Hsol]. apply leave_consistent; [|apply L']. intros Hs' t d v Ht Hd Hv. rewrite Hp in Ht.
  assert (exists a b, fd_mem dx' a = true /\ fd_mem dy' b = true /\ fd_mem dz' (f a b) = true /\ (t = x /\ v = a \/ t = y /\ v = b \/ t = z /\ v = f a b)) as (a & b & Ma & Mb & Mf & Et).
  { assert (forall a b, fd_mem dx a = true -> fd_mem dy b = true -> fd_mem dz (f a b) = true -> fd_mem dx' a = true /\ fd_mem dy' b = true /\ fd_mem dz' (f a b) = true) as Hall.
    { intros a b Ha Hb Hf. split_and!; [apply Mx; eauto|apply My; eauto|apply Mz; eauto 8]. }
    apply elem_of_cons in Ht as [->|[->|Ht%list_elem_of_singleton]%elem_of_cons]; [| |subst t].
    - assert (d = dx') as -> by congruence. apply Mx in Hv as (Ha & b & Hb & Hf). destruct (Hall v b Ha Hb Hf) as (? & ? & ?). exists v, b. tauto.
    - assert (d = dy') as -> by congruence. apply My in Hv as (Hb & a & Ha & Hf). destruct (Hall a v Ha Hb Hf) as (? & ? & ?). exists a, v. tauto.
    - assert (d = dz') as -> by congruence. apply Mz in Hv as (Hf & a & b & Ha & Hb & ->). destruct (Hall a b Ha Hb Hf) as (? & ? & ?). exists a, b. tauto. }
  destruct (three_values s' x y z dx' dy' dz' a b (f a b) Hs' Hap Hx' Hy' Hz' Ma Mb Mf) as (α & Ha & Vx & Vy & Vz). exists α. split; [done|]. split; [|by destruct Et as [[-> ->]|[[-> ->]|[-> ->]]]].
  apply (Hh dx dy); [done|done|rewrite Vx; by apply Mx|rewrite Vy; by apply My|by rewrite Vx, Vy].
Qed.

(** ** Order *)

Lemma reads_consistent s l k : wf_store s -> Forall (present s) l -> (forall s', live s' l -> (forall v, s' !! Var v = s !! Var v) -> consistent (k s')) -> consistent (s' ← reads s l; k s').
Proof.
  intros Hs Hp Hk. destruct (reads_narrowed (fun _ => False) s l Hs Hp) as (s' & E & N & P & V). rewrite E. ored. apply Hk; [|done]. split; [apply N| |done].
  eapply Forall_impl; [exact Hp|]. intros t. apply refines_present, N.
Qed.

Lemma lesseq_consistent m s x y c : wf_store s -> Forall (present s) [x; y] -> OZ_isEqualVars x y = false -> consistent (propagate_LessEqOff m s x y c).
Proof.
  intros Hs Hp Hne. unfold propagate_LessEqOff. rewrite Hne, andb_false_r. assert (OZ_isEqualVars y x = false) as Hne' by by rewrite isEqualVars_sym. apply reads_consistent; [done|done|]. intros s' L _. clear dependent s. rename s' into s. pose proof (lv_wf _ _ L) as Hs.
  destruct (live_lookup s _ x L) as [dx Hx]; [by repeat constructor|]. destruct (live_lookup s _ y L) as [dy Hy]; [by repeat constructor|]. rewrite Hy. ored.
  apply (fail_any consistent s x _ (fun v => v <=? max_elem dy + c) (fun _ => False) _ dx); [done|done|apply (dom_le_narrows Hg); apply (Hs x dx Hx)|done|done|]. intros s1 dx1 St1. pose proof (step_live _ _ _ _ _ _ _ _ St1 L) as L1.
  pose proof (lv_wf _ _ L1) as Hs1. pose proof (st_lookup _ _ _ _ _ _ _ St1) as Hx1. rewrite Hx1. ored. destruct (live_lookup s1 _ y L1) as [dy1 Hy1]; [by repeat constructor|].
  apply (fail_any consistent s1 y _ (fun v => min_elem dx1 - c <=? v) (fun _ => False) _ dy1); [done|done|apply (dom_ge_narrows Hg); apply (Hs1 y dy1 Hy1)|done|done|]. intros s2 dy2 St2. pose proof (step_live _ _ _ _ _ _ _ _ St2 L1) as L2.
  pose proof (lv_wf _ _ L2) as Hs2. pose proof (st_lookup _ _ _ _ _ _ _ St2) as Hy2. destruct (live_lookup s2 _ x L2) as [dx2 Hx2]; [by repeat constructor|]. rewrite Hx2, Hy2. ored.
  destruct (max_elem dx2 <=? _); [done|]. destruct (max_elem dy2 + c <? _); [done|]. apply leave_consistent; [|done]. intros _ t d v Ht Hd Hv. cbn [params] in Ht. cbn [holds].
  pose proof (store_bounds s2 x dx2 Hs2 Hx2) as Bx. pose proof (store_bounds s2 y dy2 Hs2 Hy2) as By.
  pose proof (st_same _ _ _ _ _ _ _ St1 y dy dy1 Hy Hne Hy1) as My1. pose proof (st_same _ _ _ _ _ _ _ St2 x dx1 dx2 Hx1 Hne' Hx2) as Mx2.
  assert (forall w, fd_mem dx2 w = true -> w <= max_elem dy + c) as Hxs. { intros w Hw. rewrite Mx2, (st_mem _ _ _ _ _ _ _ St1) in Hw. lia. }
  assert (forall w, fd_mem dy2 w = true -> min_elem dx2 <= w + c) as Hys.
  { intros w Hw. rewrite (st_mem _ _ _ _ _ _ _ St2) in Hw. pose proof (bd_in dx2 Bx (min_elem dx1)) as Hb. rewrite Mx2 in Hb. specialize (Hb (bd_min dx1 (store_bounds s1 x dx1 Hs1 Hx1))). lia. }
  assert (max_elem dy <= max_elem dy2) as Hmax.
  { pose proof (store_bounds s y dy Hs Hy) as B0. pose proof (bd_min dy2 By) as Hm. rewrite (st_mem _ _ _ _ _ _ _ St2), My1 in Hm. pose proof (bd_in dy B0 (min_elem dy2)) as Hin.
    assert (fd_mem dy2 (max_elem dy) = true) as Hin2; [|by apply (bd_in dy2 By)]. rewrite (st_mem _ _ _ _ _ _ _ St2), My1, (bd_max dy B0). destruct (fd_mem dy (min_elem dy2)); [specialize (Hin eq_refl); lia|done]. }
  assert (exists a b, fd_mem dx2 a = true /\ fd_mem dy2 b = true /\ a <= b + c /\ (t = x /\ v = a \/ t = y /\ v = b)) as (a & b & Ma & Mb & Hab & Et).
  { apply elem_of_cons in Ht as [->|Ht%list_elem_of_singleton]; [|subst t].
    - assert (d = dx2) as -> by congruence. exists v, (max_elem dy2). split_and!; [done|apply By|specialize (Hxs v Hv); lia|by left].
    - assert (d = dy2) as -> by congruence. exists (min_elem dx2), v. split_and!; [apply Bx|done|by apply Hys|by right]. }
  destruct (two_values s2 x y dx2 dy2 a b Hs2 Hne Hx2 Hy2 Ma Mb) as (α & Ha & Vx & Vy). exists α. split; [done|]. split; [lia|by destruct Et as [[-> ->]|[-> ->]]].
Qed.

(** ** The propagators of domain consistency *)

Lemma twiceD_consistent s x y : wf_store s -> Forall (present s) [x; y] -> OZ_isEqualVars x y = false -> consistent (propagate_TwiceD s x y).
Proof. intros Hs Hp Hne. apply reads_consistent; [done|done|]. intros s' L V. apply enumerate_consistent; [done|done|done|]. intros d α _ _ E. exact E. Qed.

Lemma squareD_consistent s x y : wf_store s -> Forall (present s) [x; y] -> OZ_isEqualVars x y = false -> small_products s x x -> consistent (propagate_SquareD s x y).
Proof.
  intros Hs Hp Hne Hsm. apply reads_consistent; [done|done|]. intros s' L V. apply enumerate_consistent; [done|done|done|]. intros d α Hd Hv E. cbn [holds]. rewrite E. apply int_mul_small.
  pose proof (possible_read s s' x d _ V (lv_wf _ _ L) Hd Hv) as Hpv. specialize (Hsm _ _ Hpv Hpv). pose proof (mem_range d _ (wd_wf _ _ (lv_wf _ _ L x d Hd)) Hv). nia.
Qed.

Lemma divD_consistent m s x (y : Z) z : wf_store s -> Forall (present s) [x; z] -> 0 < y -> OZ_isEqualVars x z = false -> consistent (propagate_DivD m s x y z).
Proof.
  intros Hs Hp Hy Hne. unfold propagate_DivD. rewrite Hne, andb_false_r. apply reads_consistent; [done|done|]. intros s' L V. apply enumerate_consistent; [done|done|done|]. intros d α Hd Hv E. cbn [holds]. rewrite E. apply Z.quot_div_nonneg; [|done].
  apply (mem_range d _ (wd_wf _ _ (lv_wf _ _ L x d Hd)) Hv).
Qed.

Lemma timesD_consistent m s x y z : wf_store s -> Forall (present s) [x; y; z] -> apart3 x y z -> small_products s x y -> consistent (propagate_TimesD m s x y z).
Proof.
  intros Hs Hp Hap Hsm. unfold propagate_TimesD. pose proof Hap as [-> _ -> _ -> _]. rewrite !andb_false_r. apply reads_consistent; [done|done|]. intros s' L V. apply enumerate2_consistent; [done|done|done|].
  intros d e α Hd He Hv Hw E. cbn [holds]. rewrite E. apply int_mul_small. pose proof (lv_wf _ _ L) as Hs'.
  pose proof (Hsm _ _ (possible_read s s' x d _ V Hs' Hd Hv) (possible_read s s' y e _ V Hs' He Hw)). pose proof (mem_range d _ (wd_wf _ _ (Hs' x d Hd)) Hv). pose proof (mem_range e _ (wd_wf _ _ (Hs' y e He)) Hw). nia.
Qed.

Lemma plusD_consistent m s x y z : wf_store s -> Forall (present s) [x; y; z] -> apart3 x y z -> consistent (propagate_PlusD m s x y z).
Proof.
  intros Hs Hp Hap. unfold propagate_PlusD. pose proof Hap as [-> _ -> _ -> _]. rewrite !andb_false_r. apply reads_consistent; [done|done|]. intros s' L V.
  destruct (live_lookup s' _ x L) as [dx Hx]; [by repeat constructor|]. destruct (live_lookup s' _ y L) as [dy Hy]; [by repeat constructor|]. rewrite Hx, Hy. ored.
  destruct (singl dx && _); [done|]. destruct (singl dy && _); [done|]. apply enumerate2_consistent; [done|done|done|]. intros d e α _ _ _ _ E. exact E.
Qed.
End strength.
End PropStrength.

(** * Every propagator is exact *)

Import FiniteDomain FDRepr PropBase RelPropagators BoolPropagators ArithPropagators Propagate PropSpec PropRules PropBool PropRel PropDistinct PropOffset PropArith PropTimes PropDomain.

Module PropMain.
Section main.
Context `{FDEnv} (Hg : globals_ok fd_env).
Implicit Types (s : gmap Term FiniteDomain) (m : bool) (p : Propagator).

(** The propagator knows whether parameters of it can be the same variable. *)
Definition aliases_known m p : Prop := m = true \/ OZ_hasEqualVars (params p) = false.

(** When [PROCEED] means that the constraint holds: the domains that minimum and maximum bound have
    no gaps, and no product that is enumerated leaves the range of [int]. *)
Definition faithful s p : Prop :=
  match p with
  | Minimum x y _ | Maximum x y _ => convex s x /\ convex s y
  | SquareD x _ => small_products s x x
  | TimesD x y _ => small_products s x y
  | _ => True
  end.

Lemma exact_weaken (K : Prop) s C r : exact True s C r -> exact K s C r.
Proof.
  intros (o & -> & Hgo & Ho). exists o. split; [done|]. split; [done|]. intros α. destruct (Ho α) as [H1 H2]. split; [done|]. intros Ha. destruct (H2 Ha) as [Hs Hc]. split; [done|]. intros _. apply Hc. by left.
Qed.

Lemma all_bool2 s x y : is_bool s x /\ is_bool s y -> Forall (is_bool s) [x; y].
Proof. intros [? ?]. by repeat constructor. Qed.
Lemma all_bool3 s x y z : is_bool s x /\ is_bool s y /\ is_bool s z -> Forall (is_bool s) [x; y; z].
Proof. intros (? & ? & ?). by repeat constructor. Qed.

Lemma propagate_exact m s p : wf_store s -> admissible s p -> aliases_known m p -> exact (faithful s p) s (holds p) (propagate m s p).
Proof.
  intros Hs [Hp Hk] Ha. destruct p; cbn [propagate params] in *; unfold aliases_known in Ha; cbn [params] in Ha.
  - by apply noteq_exact.
  - by apply (lesseq_exact Hg).
  - by apply (minimum_exact Hg).
  - by apply (maximum_exact Hg).
  - by apply (intersection_exact Hg).
  - by apply (union_exact Hg).
  - by apply (subset_exact Hg).
  - by apply (distinct_exact Hg).
  - by apply distinct_offset_exact.
  - by apply exact_weaken, conjunction_exact; [..|apply all_bool3].
  - by apply exact_weaken, disjunction_exact; [..|apply all_bool3].
  - by apply exact_weaken, xdisjunction_exact; [..|apply all_bool3].
  - by apply exact_weaken, implication_exact; [..|apply all_bool3].
  - by apply exact_weaken, equivalence_exact; [..|apply all_bool3].
  - by apply exact_weaken, negation_exact; [..|apply all_bool2].
  - by apply (twice_exact Hg).
  - by apply (square_exact Hg).
  - by apply (plus_exact Hg).
  - by apply (times_exact Hg).
  - by apply (divD_exact Hg).
  - by apply (divI_exact Hg).
  - by apply (modD_exact Hg).
  - by apply (modI_exact Hg).
  - by apply (twiceD_exact Hg).
  - by apply (squareD_exact Hg).
  - by apply (plusD_exact Hg).
  - by apply (timesD_exact Hg).
Qed.
End main.
End PropMain.
