(* ===== verification/PropTheorems.v ===== *)
(** * Constraint propagators: the properties of the component *)
From stdpp Require Import gmap.
From S2P Require Import Prelude Word32 FDBase FDIntervals FDBitVector FiniteDomain FDRepr FDQueries FDOperators FDSetOperators FDDescr FDTheorems Propagators PropSpec PropRel PropArith PropMain.
Import FiniteDomain FDRepr FDQueries FDOperators FDSetOperators FDDescr PropBase RelPropagators ArithPropagators Propagate PropSpec PropRules PropRel PropBox PropDomain PropStrength PropMain.

(** Solutions of a store by computation. *)
Definition solb `{FDEnv} (s : gmap Term FiniteDomain) (α : Z -> Z) : bool := forallb (fun '(t, d) => fd_mem d (value α t)) (map_to_list s).

Lemma solb_sol `{FDEnv} s α : solb s α = true -> sol s α.
Proof.
  intros Hb t d Hd. unfold solb in Hb. rewrite forallb_forall in Hb. apply (Hb (t, d)), list_elem_of_In. by apply elem_of_map_to_list.
Qed.

(** A store of domains that are ranges or pairs. *)
#[local] Existing Instance default_env.

Definition span (a b : Z) : FiniteDomain := initRange initEmpty a b.
Definition either (a b : Z) : FiniteDomain := default initEmpty (u ← op_plus_int initEmpty a; op_plus_int u b).

Lemma span_domain i a b : 0 <= a <= b -> b <= fd_sup -> wf_domain (Var i) (span a b).
Proof.
  intros Ha Hb. assert (repr (span a b) (fun v => (a <=? v) && (v <=? b))) as Hr by (apply initRange_repr; intros v; lia). split; [apply Hr| |done].
  rewrite (repr_card _ _ Hr). apply (card_pos _ a); lia.
Qed.

Lemma wf_insert `{FDEnv} s t d : wf_store s -> wf_domain t d -> wf_store (<[t := d]> s).
Proof. intros Hs Hd u e. destruct (decide (t = u)) as [<-|]; [rewrite lookup_insert_eq; by intros [= <-]|rewrite lookup_insert_ne by done; apply Hs]. Qed.

Definition vx : Term := Var 0.
Definition vy : Term := Var 1.
Definition vz : Term := Var 2.

Definition example_store : gmap Term FiniteDomain := <[vx := span 0 9]> (<[vy := span 2 5]> (<[vz := span 4 30]> ∅)).

Lemma example_store_wf : wf_store example_store.
Proof. repeat apply wf_insert; [by intros t d Ht|..]; apply span_domain; unfold fd_sup; lia. Qed.

Section properties.
Context (env : FDEnv).
Implicit Types (s : gmap Term FiniteDomain) (p : Propagator) (α : Z -> Z).

(** C10: A propagator run on a well-formed store that has its parameters always comes back (its loops end).  The outcome is a well-formed store that only narrows domains, with a parameter
    undetermined if the propagator sleeps.  No solution of the constraint in the
    store is lost (by narrowing, the constraint kept, the unification
    that replaces it, failure), and every assignment the outcome admits was admitted by the store
    and satisfies the constraint, except that minimum and maximum on domains with gaps and enumerated
    products beyond the range of [int] may be taken for entailed.
    Conditions: Boolean parameters have Boolean domains; divisors of DivD, DivI, ModD and ModI
    are in 1..[fd_sup]; the variables of TwiceD and SquareD differ, as do dividend and
    quotient of DivD and DivI; the product of TimesD is neither factor, nor is that of Times unless
    the factors are the same; the variables of PlusD are not all the same; a
    propagator with two equal variables is told that this may be so. *)
Theorem propagators_exact (m : bool) s p : globals_ok fd_env -> wf_store s -> admissible s p -> aliases_known m p ->
  exists o, propagate m s p = Some o /\ good s o /\
    forall α, (sol s α -> holds p α -> osol o α) /\ (osol o α -> sol s α /\ (faithful s p \/ proceeds o = false -> holds p α)).
Proof. intros Hg Hs Ha Hm. by apply propagate_exact. Qed.

(** C11: When LessEqOff, TwiceD, SquareD, DivD, PlusD or TimesD goes to sleep, the domains it leaves are
    consistent: every value that a parameter has left belongs to an assignment of the store that satisfies
    the constraint.  This is so for variables that are different from one another, for a positive divisor of DivD, and for
    domains whose products, in SquareD and TimesD, stay in the range of [int].  (ModD enumerates too and is not among them.) *)
Theorem domains_consistent (m : bool) s p : globals_ok fd_env -> wf_store s -> Forall (present s) (params p) -> faithful s p ->
  match p with
  | LessEqOff x y _ | TwiceD x y | SquareD x y => OZ_isEqualVars x y = false
  | DivD x y z => OZ_isEqualVars x z = false /\ 0 < y
  | PlusD x y z | TimesD x y z => apart3 x y z
  | _ => False
  end -> match propagate m s p with
         | Some (SLEEP s' p') => forall t d v, t ∈ params p' -> s' !! t = Some d -> fd_mem d v = true -> exists α, sol s' α /\ holds p' α /\ value α t = v
         | Some _ => True
         | None => False
         end.
Proof.
  intros Hg Hs Hp Hf Hk. change (consistent (propagate m s p)). destruct p; try done; cbn [propagate params faithful] in *.
  - by apply lesseq_consistent.
  - destruct Hk. by apply divD_consistent.
  - by apply twiceD_consistent.
  - by apply squareD_consistent.
  - by apply plusD_consistent.
  - by apply timesD_consistent.
Qed.
End properties.

(** Propagators are taken for entailed although their constraint does not hold: minimum and maximum
    of domains with a gap, whose bounds are narrowed after the one of the result; and the square
    that is computed in [int]. *)
Theorem entailed_wrongly :
  let wrong s p := exists s' α, propagate true s p = Some (PROCEED s') /\ sol s' α /\ ~ holds p α in
  wrong (<[vx := either 0 5]> (<[vy := either 0 5]> ∅)) (Minimum vx vy (SmallInt 3)) /\
  wrong (<[vx := either 0 5]> (<[vy := either 0 5]> ∅)) (Maximum vx vy (SmallInt 3)) /\
  wrong (<[vx := either 5 65536]> (<[vz := either 0 1]> ∅)) (SquareD vx vz).
Proof.
  cbv zeta. split_and!.
  - eexists _, (fun _ => 5). split; [vm_compute; reflexivity|]. split; [apply solb_sol; vm_compute; reflexivity|cbn; lia].
  - eexists _, (fun _ => 0). split; [vm_compute; reflexivity|]. split; [apply solb_sol; vm_compute; reflexivity|cbn; lia].
  - eexists _, (fun i => if i =? 0 then 65536 else 0). split; [vm_compute; reflexivity|]. split; [apply solb_sol; vm_compute; reflexivity|cbn; lia].
Qed.

(** Examples of what the conditions on equal variables exclude.  A product that is one of its factors
    makes the other factor greater than 0 and loses the solution 0; a quotient that is the dividend loses it, too; and
    the double of a variable that is the variable itself keeps a value other than 0. *)
Theorem equal_variables_wrong :
  let lost s p := exists o α, propagate true s p = Some o /\ sol s α /\ holds p α /\ ~ osol o α in
  lost (<[vx := span 0 9]> (<[vy := span 2 5]> ∅)) (Times vx vy vx) /\
  lost (<[vx := span 0 9]> (<[vy := span 2 5]> ∅)) (TimesD vx vy vx) /\
  lost (<[vx := span 0 9]> ∅) (DivD vx 2 vx) /\ lost (<[vx := span 0 9]> ∅) (DivI vx 2 vx) /\
  exists s' α, propagate true (<[vx := default initEmpty (u ← op_plus_int (either 1 2) 4; Some u)]> ∅) (PlusD vx vx vx) = Some (PROCEED s') /\ sol s' α /\ ~ holds (PlusD vx vx vx) α.
Proof.
  cbv zeta. split_and!.
  - eexists _, (fun i => if i =? 0 then 0 else 2). split; [vm_compute; reflexivity|]. split; [apply solb_sol; vm_compute; reflexivity|]. split; [done|]. intros [_ Hv]. done.
  - eexists _, (fun i => if i =? 0 then 0 else 2). split; [vm_compute; reflexivity|]. split; [apply solb_sol; vm_compute; reflexivity|]. split; [done|]. intros [_ Hv]. done.
  - eexists _, (fun _ => 0). split; [vm_compute; reflexivity|]. split; [apply solb_sol; vm_compute; reflexivity|]. split; [done|]. intros [_ Hv]. done.
  - eexists _, (fun _ => 0). split; [vm_compute; reflexivity|]. split; [apply solb_sol; vm_compute; reflexivity|]. split; [done|]. intros [_ Hv]. done.
  - eexists _, (fun _ => 2). split; [vm_compute; reflexivity|]. split; [apply solb_sol; vm_compute; reflexivity|cbn; lia].
Qed.

(** ** Witnesses *)

Lemma example_admissible : admissible example_store (Plus vx vy vz).
Proof. split; [|done]. repeat constructor; by eexists. Qed.

Lemma propagators_exact_witness :
  exists o, propagate false example_store (Plus vx vy vz) = Some o /\ good example_store o /\
    forall α, (sol example_store α -> holds (Plus vx vy vz) α -> osol o α) /\ (osol o α -> sol example_store α /\ (faithful example_store (Plus vx vy vz) \/ proceeds o = false -> holds (Plus vx vy vz) α)).
Proof. apply (propagators_exact default_env false example_store (Plus vx vy vz)); [apply default_env_ok|apply example_store_wf|apply example_admissible|by right]. Defined.

Lemma domains_consistent_witness :
  match propagate false example_store (PlusD vx vy vz) with
  | Some (SLEEP s' p') => forall t d v, t ∈ params p' -> s' !! t = Some d -> fd_mem d v = true -> exists α, sol s' α /\ holds p' α /\ value α t = v
  | Some _ => True
  | None => False
  end.
Proof. apply (domains_consistent default_env false example_store (PlusD vx vy vz)); [apply default_env_ok|apply example_store_wf|apply example_admissible|exact I|by split]. Defined.
