(* ===== verification/Board.v ===== *)
(** * Computation spaces: the propagators of a board ([board.cc], [suspendable.cc], [var_fd.cc], [cpi_expect.cc])

    The constrained variables of a space with the propagators that are suspended on them, telling
    and unifying variables, and the stack of runnable propagators that the scheduler serves. *)
From stdpp Require Import gmap.
From S2P Require Import Prelude Word32 FDBase FDIntervals FDBitVector FiniteDomain Propagators PropSpec.
Import FiniteDomain PropBase Propagate PropSpec.

(** * Suspended propagators *)

Module Suspension.

Inductive PropCaller := pc_propagator | pc_std_unif | pc_cv_unif | pc_all.
Inductive OZ_FDPropState := fd_prop_singl | fd_prop_bounds | fd_prop_any.

(** [if (calledBy)] *)
Definition is_called (c : PropCaller) : bool := match c with pc_propagator => false | _ => true end.

(** A [Propagator], the suspension that has the [OZ_Propagator] and the flags. *)
Record Suspendable := Susp { propagator : Propagator; dead : bool; runnable : bool; unify : bool }.

(** The words of the heap that variables of finite domains are: bound to another variable or to an
    integer, an [OzFDVariable] with its domain, [fdSuspList] and [suspList], an [OzBoolVariable]. *)
Inductive Cell := CRef (w : Z) | CInt (n : Z) | CFD (d : FiniteDomain) (singl bounds any : list nat) | CBool (any : list nat).

(** A [Board]: its variables by their addresses, its propagators by their indices, the
    suspensions it counts, its stack of runnable propagators, whether the
    scheduler is serving it, and the calls of [BI_PROP_LPQ] that have been injected. *)
Record Board := Brd { cells : gmap Z Cell; susps : list Suspendable; suspCount : Z; lpq : list nat; board_served : bool; servers : nat }.

Definition setCells (m : gmap Z Cell) (b : Board) : Board := Brd m (susps b) (suspCount b) (lpq b) (board_served b) (servers b).
Definition setCell (v : Z) (c : Cell) (b : Board) : Board := setCells (<[v := c]> (cells b)) b.
Definition setSusp (i : nat) (f : Suspendable -> Suspendable) (b : Board) : Board := Brd (cells b) (alter f i (susps b)) (suspCount b) (lpq b) (board_served b) (servers b).

Definition setDead (s : Suspendable) : Suspendable := Susp (propagator s) true (runnable s) (unify s).
Definition setRunnable (s : Suspendable) : Suspendable := Susp (propagator s) (dead s) true (unify s).
Definition setUnify (s : Suspendable) : Suspendable := Susp (propagator s) (dead s) (runnable s) true.
Definition unsetRunnableUnify (s : Suspendable) : Suspendable := Susp (propagator s) (dead s) false false.
Definition setPropagator (p : Propagator) (s : Suspendable) : Suspendable := Susp p (dead s) (runnable s) (unify s).

(** [Board::addToLPQ], with [wakeServeLPQ] when the stack is empty and [SuspStack::enqueue]. *)
Definition addToLPQ (i : nat) (b : Board) : Board :=
  let n := match lpq b with [] => if board_served b then servers b else S (servers b) | _ => servers b end in
  Brd (cells b) (susps b) (suspCount b) (i :: lpq b) (board_served b) n.

(** [Suspendable::_wakeup] for a propagator of the current board: whether its entry can go away. *)
Definition wakeup (calledBy : PropCaller) (i : nat) (b : Board) : bool * Board :=
  match susps b !! i with
  | None => (true, b)
  | Some s =>
      if dead s then (true, b)
      else if runnable s then (false, if is_called calledBy && negb (unify s) then setSusp i setUnify b else b)
      else
        let b := if is_called calledBy then setSusp i setUnify b else b in
        (false, addToLPQ i (setSusp i setRunnable b))
  end.

(** [Suspendable::_wakeupLocal]. *)
Definition wakeupLocal (calledBy : PropCaller) (i : nat) (b : Board) : bool * Board :=
  match susps b !! i with
  | None => (true, b)
  | Some s =>
      if dead s then (true, b)
      else
        let b := if is_called calledBy then setSusp i setUnify b else b in
        (false, if negb (runnable s) then addToLPQ i (setSusp i setRunnable b) else b)
  end.

(** The loops of [oz_checkAnySuspensionList] and [oz_checkLocalSuspensionList], which leave out the
    entries that can go away. *)
Fixpoint checkSuspensionList (wake : nat -> Board -> bool * Board) (l : list nat) (b : Board) : list nat * Board :=
  match l with
  | [] => ([], b)
  | i :: l =>
      let '(go, b) := wake i b in
      let '(l, b) := checkSuspensionList wake l b in
      (if go then l else i :: l, b)
  end.
Definition oz_checkAnySuspensionList (l : list nat) (calledBy : PropCaller) (b : Board) : list nat * Board := checkSuspensionList (wakeup calledBy) l b.
Definition oz_checkLocalSuspensionList (l : list nat) (calledBy : PropCaller) (b : Board) : list nat * Board := checkSuspensionList (wakeupLocal calledBy) l b.

(** [SuspList::appendToAndUnlink]: no suspension is entered twice. *)
Definition appendTo (l to_list : list nat) : list nat := l ++ filter (fun i => i ∉ l) to_list.

(** Dereferencing.  A variable is bound to one of a greater address, so there are no more references to follow than cells. *)
Fixpoint deref_fuel (fuel : nat) (m : gmap Z Cell) (t : Term) : Term :=
  match t with
  | SmallInt n => SmallInt n
  | Var v =>
      match m !! v, fuel with
      | Some (CRef w), S fuel => deref_fuel fuel m (Var w)
      | Some (CInt n), _ => SmallInt n
      | _, _ => Var v
      end
  end.
Definition deref (m : gmap Z Cell) (t : Term) : Term := deref_fuel (base.size m) m t.

(** [newPropagator]: it counts, and it is runnable with variables that may be equal. *)
Definition oz_newPropagator (p : Propagator) (b : Board) : nat * Board :=
  (length (susps b), Brd (cells b) (susps b ++ [Susp p false true true]) (suspCount b + 1) (lpq b) (board_served b) (servers b)).
Definition oz_closeDonePropagator (i : nat) (b : Board) : Board :=
  let b := setSusp i setDead b in Brd (cells b) (susps b) (suspCount b - 1) (lpq b) (board_served b) (servers b).
Definition oz_sleepPropagator (i : nat) (b : Board) : Board := setSusp i unsetRunnableUnify b.
End Suspension.

(** * Constrained variables of a space *)

Import Suspension.

Module FDVar.
Section vars.
Context `{FDEnv}.

Definition is_state (d : FiniteDomain) (s : OZ_FDState) : bool := default false (eq_state d s).

(** [OzFDVariable::propagate] *)
Definition OzFDVariable_propagate (v : Z) (state : OZ_FDPropState) (calledBy : PropCaller) (b : Board) : Board :=
  match cells b !! v with
  | Some (CFD d ls lb la) =>
      let '(ls, b) := if is_called calledBy || match state with fd_prop_singl => true | _ => false end then oz_checkLocalSuspensionList ls calledBy b else (ls, b) in
      let '(lb, b) := if is_called calledBy || match state with fd_prop_any => false | _ => true end then oz_checkLocalSuspensionList lb calledBy b else (lb, b) in
      let '(la, b) := oz_checkAnySuspensionList la calledBy b in
      setCell v (CFD d ls lb la) b
  | _ => b
  end.

(** [OzBoolVariable::propagate] *)
Definition OzBoolVariable_propagate (v : Z) (calledBy : PropCaller) (b : Board) : Board :=
  match cells b !! v with
  | Some (CBool la) => let '(la, b) := oz_checkAnySuspensionList la calledBy b in setCell v (CBool la) b
  | _ => b
  end.

(** [propagateUnify] of either class. *)
Definition propagateUnify (v : Z) (b : Board) : Board :=
  match cells b !! v with
  | Some (CFD _ _ _ _) => OzFDVariable_propagate v fd_prop_singl pc_cv_unif b
  | Some (CBool _) => OzBoolVariable_propagate v pc_cv_unif b
  | _ => b
  end.

Definition setDom (v : Z) (d : FiniteDomain) (b : Board) : Board :=
  match cells b !! v with Some (CFD _ ls lb la) => setCell v (CFD d ls lb la) b | _ => b end.

(** [OzFDVariable::becomesBool], with [relinkSuspListToItself]. *)
Definition becomesBool (v : Z) (b : Board) : Board :=
  match cells b !! v with Some (CFD _ ls lb la) => setCell v (CBool (appendTo lb (appendTo ls la))) b | _ => b end.

Definition becomesBoolVarAndPropagate (v : Z) (b : Board) : Board := becomesBool v (OzFDVariable_propagate v fd_prop_bounds pc_propagator b).

(** [becomesSmallIntAndPropagate] of either class. *)
Definition becomesSmallIntAndPropagate (v n : Z) (b : Board) : Board :=
  setCell v (CInt n)
    (match cells b !! v with
     | Some (CFD _ _ _ _) => OzFDVariable_propagate v fd_prop_singl pc_propagator b
     | _ => OzBoolVariable_propagate v pc_propagator b
     end).

(** [relinkSuspListTo] of either class; the variable it is called on is bound next. *)
Definition relinkSuspListTo (from to : Z) (b : Board) : Board :=
  match cells b !! from, cells b !! to with
  | Some (CFD _ ls lb la), Some (CFD d ls' lb' la') => setCell to (CFD d (appendTo ls ls') (appendTo lb lb') (appendTo la la')) b
  | Some (CFD _ ls lb la), Some (CBool la') => setCell to (CBool (appendTo lb (appendTo ls (appendTo la la')))) b
  | Some (CBool la), Some (CBool la') => setCell to (CBool (appendTo la la')) b
  | _, _ => b
  end.

(** ** Unification *)

Definition heapNewer (v w : Z) : bool := v <? w.

Definition bindLocalVar (v w : Z) (b : Board) : Board := setCell v (CRef w) b.
Definition bindLocalVarToValue (v n : Z) (b : Board) : Board := setCell v (CInt n) b.

(** The branches of [OzFDVariable::unify] in which [from] is bound to [to]. *)
Definition bind_fd (from to : Z) (intersection : FiniteDomain) (b : Board) : Board :=
  let b := if is_state intersection fd_bool then becomesBool to b else setDom to intersection b in
  bindLocalVar from to (relinkSuspListTo from to (propagateUnify to (propagateUnify from b))).

(** [OzFDVariable::unify] of two local variables: [None] for undefined behaviour, [Some None] for failure. *)
Definition OzFDVariable_unify (left right : Z) (b : Board) : option (option Board) :=
  match cells b !! left, cells b !! right with
  | Some (CFD dl _ _ _), Some (CFD dr _ _ _) =>
      intersection ← op_and dl dr;
      if is_state intersection fd_empty then Some None
      else if is_state intersection fd_singl then
        let n := getSingleElem intersection in
        Some (Some (bindLocalVarToValue right n (bindLocalVarToValue left n (propagateUnify left (propagateUnify right b)))))
      else if heapNewer left right then Some (Some (bind_fd left right intersection b))
      else Some (Some (bind_fd right left intersection b))
  | _, _ => None
  end.

(** [OzBoolVariable::unify] of local variables. *)
Definition OzBoolVariable_unify (left right : Z) (b : Board) : option (option Board) :=
  match cells b !! right with
  | Some (CBool _) =>
      if heapNewer left right then Some (Some (bindLocalVar left right (relinkSuspListTo left right (propagateUnify right (propagateUnify left b)))))
      else Some (Some (bindLocalVar right left (relinkSuspListTo right left (propagateUnify left (propagateUnify right b)))))
  | Some (CFD d _ _ _) =>
      intersection ← intersectWithBool d;
      if intersection =? -2 then Some None
      else if negb (intersection =? -1) then
        Some (Some (bindLocalVarToValue right intersection (bindLocalVarToValue left intersection
          (propagateUnify left (OzFDVariable_propagate right fd_prop_singl pc_cv_unif b)))))
      else if heapNewer left right then
        Some (Some (bindLocalVar left right (relinkSuspListTo left right (becomesBool right
          (OzFDVariable_propagate right fd_prop_bounds pc_cv_unif (propagateUnify left b))))))
      else
        Some (Some (bindLocalVar right left (relinkSuspListTo right left
          (propagateUnify left (OzFDVariable_propagate right fd_prop_bounds pc_cv_unif b)))))
  | _ => None
  end.

(** [OzFDVariable::bind] and [OzBoolVariable::bind] to a small integer. *)
Definition oz_var_bind (v n : Z) (b : Board) : option (option Board) :=
  match cells b !! v with
  | Some (CFD d _ _ _) =>
      found ← isIn d n;
      if negb found then Some None else Some (Some (bindLocalVarToValue v n (OzFDVariable_propagate v fd_prop_singl pc_propagator b)))
  | Some (CBool _) =>
      if (n <? 0) || (1 <? n) then Some None else Some (Some (bindLocalVarToValue v n (OzBoolVariable_propagate v pc_propagator b)))
  | _ => None
  end.

(** [oz_unify] of variables of this kind and integers; an [OzBoolVariable] goes to the left. *)
Definition oz_unify (t1 t2 : Term) (b : Board) : option (option Board) :=
  match deref (cells b) t1, deref (cells b) t2 with
  | Var v, Var w =>
      if v =? w then Some (Some b)
      else
        match cells b !! v, cells b !! w with
        | Some (CFD _ _ _ _), Some (CFD _ _ _ _) => OzFDVariable_unify v w b
        | Some (CBool _), _ => OzBoolVariable_unify v w b
        | _, Some (CBool _) => OzBoolVariable_unify w v b
        | _, _ => None
        end
  | Var v, SmallInt n | SmallInt n, Var v => oz_var_bind v n b
  | SmallInt n, SmallInt k => Some (if n =? k then Some b else None)
  end.

(** ** Telling a domain *)

(** [OZ_FDIntVar::tell] for a local parameter that was read from [v] and whose domain is [d] now. *)
Definition tell (v : Z) (d : FiniteDomain) (b : Board) : Board :=
  match cells b !! v with
  | Some (CFD e ls lb la) =>
      let b := setCell v (CFD d ls lb la) b in
      if negb (size d <? size e) then b
      else if is_state d fd_singl then becomesSmallIntAndPropagate v (getSingleElem d) b
      else if is_state d fd_bool then becomesBoolVarAndPropagate v b
      else OzFDVariable_propagate v (if max_elem d - min_elem d <? max_elem e - min_elem e then fd_prop_bounds else fd_prop_any) pc_propagator b
  | Some (CBool _) => if negb (size d <? 2) then b else becomesSmallIntAndPropagate v (getSingleElem d) b
  | _ => b
  end.

(** [tellBasicConstraint] for local variables.  One that has no cell yet is unconstrained; the variable that
    it is bound to is put at its own address, where the code allocates another one. *)
Definition tellBasicConstraint (t : Term) (fd : FiniteDomain) (b : Board) : option (option Board) :=
  if is_state fd fd_empty then Some None
  else
    match deref (cells b) t with
    | Var v =>
        match cells b !! v with
        | None =>
            if size fd =? 1 then Some (Some (bindLocalVarToValue v (getSingleElem fd) b))
            else Some (Some (setCell v (if is_state fd fd_bool then CBool [] else CFD fd [] [] []) b))
        | Some (CFD e ls lb la) =>
            dom ← op_and e fd;
            if is_state dom fd_empty then Some None
            else if size dom =? size e then Some (Some b)
            else if is_state dom fd_singl then Some (Some (becomesSmallIntAndPropagate v (getSingleElem dom) (setCell v (CFD dom ls lb la) b)))
            else if is_state dom fd_bool then Some (Some (becomesBoolVarAndPropagate v b))
            else Some (Some (setDom v dom (OzFDVariable_propagate v fd_prop_bounds pc_propagator b)))
        | Some (CBool _) =>
            dom ← intersectWithBool fd;
            if dom =? -2 then Some None
            else if dom =? -1 then Some (Some b)
            else Some (Some (becomesSmallIntAndPropagate v dom b))
        | _ => None
        end
    | SmallInt n => found ← isIn fd n; Some (if (found : bool) then Some b else None)
    end.
End vars.
End FDVar.

(** * Running propagators *)

Import FDVar.

(** The order in which the parameters of a propagator leave: C++ does not fix the order of the operands
    of [|], which the classes [PropagatorController] use. *)
Class LeaveOrder := {
  leave_order : Propagator -> list Term;
  leave_order_params p t : t ∈ leave_order p <-> t ∈ params p
}.

#[export] Instance left_to_right : LeaveOrder := {| leave_order := params; leave_order_params p t := iff_refl _ |}.

Module Scheduler.
Section scheduler.
Context `{FDEnv} `{LeaveOrder}.

(** The results of running a propagator and of the scheduler. *)
Inductive OZ_Return := OZ_FAILED | OZ_ENTAILED | OZ_SLEEP | RAISE | BI_REPLACEBICALL.

(** The registers of a propagator with their references followed. *)
Definition map_params (f : Term -> Term) (p : Propagator) : Propagator :=
  match p with
  | NotEqOff x y c => NotEqOff (f x) (f y) c
  | LessEqOff x y c => LessEqOff (f x) (f y) c
  | Minimum x y z => Minimum (f x) (f y) (f z)
  | Maximum x y z => Maximum (f x) (f y) (f z)
  | Intersection x y z => Intersection (f x) (f y) (f z)
  | Union x y z => Union (f x) (f y) (f z)
  | SubSet x y => SubSet (f x) (f y)
  | Distinct l => Distinct (map f l)
  | DistinctOffset l => DistinctOffset (map (fun q => (f q.1, q.2)) l)
  | Conjunction x y z => Conjunction (f x) (f y) (f z)
  | Disjunction x y z => Disjunction (f x) (f y) (f z)
  | XDisjunction x y z => XDisjunction (f x) (f y) (f z)
  | Implication x y z => Implication (f x) (f y) (f z)
  | Equivalence x y z => Equivalence (f x) (f y) (f z)
  | Negation x y => Negation (f x) (f y)
  | Twice x y => Twice (f x) (f y)
  | Square x y => Square (f x) (f y)
  | Plus x y z => Plus (f x) (f y) (f z)
  | Times x y z => Times (f x) (f y) (f z)
  | DivD x y z => DivD (f x) y (f z)
  | DivI x y z => DivI (f x) y (f z)
  | ModD x y z => ModD (f x) y (f z)
  | ModI x y z => ModI (f x) y (f z)
  | TwiceD x y => TwiceD (f x) (f y)
  | SquareD x y => SquareD (f x) (f y)
  | PlusD x y z => PlusD (f x) (f y) (f z)
  | TimesD x y z => TimesD (f x) (f y) (f z)
  end.

(** The domain that [OZ_FDIntVar::read] finds in the cell of a variable. *)
Definition cell_domain (c : Cell) : option FiniteDomain :=
  match c with CFD d _ _ _ => Some d | CBool _ => Some initBool | _ => None end.
Definition domain_of (m : gmap Z Cell) (t : Term) : option FiniteDomain :=
  match t with Var v => m !! v ≫= cell_domain | SmallInt _ => None end.

(** The domains of the parameters of a propagator. *)
Fixpoint view (m : gmap Z Cell) (l : list Term) : gmap Term FiniteDomain :=
  match l with
  | [] => ∅
  | t :: l => match domain_of m t with Some d => <[t := d]> (view m l) | None => view m l end
  end.

(** [tell] for every parameter. *)
Fixpoint tells (l : list Term) (s : gmap Term FiniteDomain) (b : Board) : Board :=
  match l with
  | [] => b
  | t :: l => tells l s (match t, s !! t with Var v, Some d => tell v d b | _, _ => b end)
  end.

(** [oz_runPropagator], with what [propagate] does to the variables. *)
Definition oz_runPropagator (i : nat) (b : Board) : option (OZ_Return * Board) :=
  s ← susps b !! i;
  let p := map_params (deref (cells b)) (propagator s) in
  o ← propagate (unify s) (view (cells b) (params p)) p;
  match o with
  | FAILED => Some (OZ_FAILED, b)
  | PROCEED d => Some (OZ_ENTAILED, tells (leave_order p) d b)
  | SLEEP d p' => Some (OZ_SLEEP, setSusp i (setPropagator p') (tells (leave_order p) d b))
  | UNIFY d x y =>
      r ← oz_unify x y (tells (leave_order p) d b);
      Some (match r with Some b => (OZ_ENTAILED, b) | None => (OZ_FAILED, b) end)
  end.

(** [killServeLPQ] *)
Definition killServeLPQ (b : Board) : Board := Brd (cells b) (susps b) (suspCount b) [] false (servers b).

Definition setServed (s : bool) (b : Board) : Board := Brd (cells b) (susps b) (suspCount b) (lpq b) s (servers b).
Definition setLPQ (q : list nat) (b : Board) : Board := Brd (cells b) (susps b) (suspCount b) q (board_served b) (servers b).

(** The scheduler is to be called again. *)
Definition preempt (b : Board) : Board := Brd (cells b) (susps b) (suspCount b) (lpq b) false (S (servers b)).

(** The loop of [Board::scheduleLPQ].  [sflag k] is whether a status flag of the machine is set when there
    are [k] rounds of fuel left; [raise] whether failure is raised as an exception, at the top level or
    in a thread that catches. *)
Fixpoint schedule_loop (fuel : nat) (sflag : nat -> bool) (raise : bool) (b : Board) : option (OZ_Return * Board) :=
  match lpq b with
  | [] => Some (OZ_ENTAILED, killServeLPQ b)
  | i :: q =>
      if sflag fuel then Some (BI_REPLACEBICALL, preempt b)
      else
        match fuel with
        | O => None
        | S fuel =>
            s ← susps b !! i;
            let b := setLPQ q b in
            if dead s then schedule_loop fuel sflag raise b
            else
              '(ret, b) ← oz_runPropagator i b;
              match ret with
              | OZ_SLEEP => schedule_loop fuel sflag raise (oz_sleepPropagator i b)
              | OZ_ENTAILED => schedule_loop fuel sflag raise (oz_closeDonePropagator i b)
              | _ => Some (if raise then RAISE else OZ_FAILED, killServeLPQ (oz_closeDonePropagator i b))
              end
        end
  end.
(** [Board::scheduleLPQ]; it asserts that no board is being served. *)
Definition scheduleLPQ (fuel : nat) (sflag : nat -> bool) (raise : bool) (b : Board) : option (OZ_Return * Board) :=
  if board_served b then None else schedule_loop fuel sflag raise (setServed true b).

(** [BI_PROP_LPQ], run by an injected call. *)
Definition BI_prop_lpq (fuel : nat) (sflag : nat -> bool) (raise : bool) (b : Board) : option (OZ_Return * Board) :=
  scheduleLPQ fuel sflag raise (Brd (cells b) (susps b) (suspCount b) (lpq b) (board_served b) (pred (servers b))).

(** ** Imposing a propagator *)

(** [addSuspFDVar], [addSuspBoolVar]. *)
Definition addSusp (v : Z) (i : nat) (state : OZ_FDPropState) (b : Board) : Board :=
  match cells b !! v with
  | Some (CFD d ls lb la) =>
      setCell v (match state with
                 | fd_prop_singl => CFD d (i :: ls) lb la
                 | fd_prop_bounds => CFD d ls (i :: lb) la
                 | fd_prop_any => CFD d ls lb (i :: la)
                 end) b
  | Some (CBool la) => setCell v (CBool (i :: la)) b
  | _ => b
  end.

(** The loop over [staticSpawnVars], from the last one to the first. *)
Fixpoint add_spawn (i : nat) (spawn : list (Term * OZ_FDPropState)) (b : Board) : Board :=
  match spawn with
  | [] => b
  | (t, state) :: spawn =>
      let b := add_spawn i spawn b in
      match deref (cells b) t with Var v => addSusp v i state b | SmallInt _ => b end
  end.

(** [OZ_Expect::impose] of an active monotonic propagator. *)
Definition impose (p : Propagator) (spawn : list (Term * OZ_FDPropState)) (b : Board) : option (OZ_Return * Board) :=
  let '(i, b) := oz_newPropagator p b in
  '(ret, b) ← oz_runPropagator i b;
  match ret with
  | OZ_SLEEP => Some (OZ_ENTAILED, add_spawn i spawn (oz_sleepPropagator i b))
  | OZ_ENTAILED => Some (OZ_ENTAILED, oz_closeDonePropagator i b)
  | r => Some (r, oz_closeDonePropagator i b)
  end.
End scheduler.
End Scheduler.
