(* ===== verification/BoardInv.v ===== *)
(** * Computation spaces: waking, the stack of propagators, references, the invariant *)
From stdpp Require Import gmap.
From S2P Require Import Prelude Word32 FDBase FDIntervals FDBitVector FiniteDomain FDRepr Propagators PropSpec Board.
Import FiniteDomain PropBase PropSpec Suspension FDVar Scheduler.

Module Wake.

(** ** What waking changes *)

(** A suspension that is left as it is but for flags that are set. *)
Record kept (s s' : Suspendable) : Prop := {
  kp_prop : propagator s' = propagator s;
  kp_dead : dead s' = dead s;
  kp_runnable : runnable s = true -> runnable s' = true;
  kp_unify : unify s = true -> unify s' = true
}.

#[export] Instance kept_preorder : PreOrder kept.
Proof. split; [by intros s|]. intros s1 s2 s3 [P D R U] [P' D' R' U']. split; [congruence|congruence|auto|auto]. Qed.

(** The suspensions of [b] in [b']; the variables are left out. *)
Record evolves (b b' : Board) : Prop := {
  ev_length : length (susps b') = length (susps b);
  ev_count : suspCount b' = suspCount b;
  ev_served : board_served b' = board_served b;
  ev_susp i s : susps b !! i = Some s -> exists s', susps b' !! i = Some s' /\ kept s s'
}.

#[export] Instance evolves_preorder : PreOrder evolves.
Proof.
  split; [intros b; split; [done|done|done|by intros i s Hs; exists s]|]. intros b1 b2 b3 [L1 C1 V1 S1] [L2 C2 V2 S2]. split; [congruence|congruence|congruence|].
  intros i s Hs. destruct (S1 i s Hs) as (s2 & Hs2 & K1), (S2 i s2 Hs2) as (s3 & Hs3 & K2). exists s3. split; [done|by transitivity s2].
Qed.

Lemma evolves_back b b' i s' : evolves b b' -> susps b' !! i = Some s' -> exists s, susps b !! i = Some s /\ kept s s'.
Proof.
  intros [L _ _ S] Hs'. assert (is_Some (susps b !! i)) as [s Hs]. { apply lookup_lt_is_Some. rewrite <- L. by eapply lookup_lt_Some. }
  destruct (S i s Hs) as (s2 & Hs2 & Hk). exists s. split; [done|]. congruence.
Qed.

(** ** The stack *)

(** The propagators in the stack are the runnable ones but for [r], the one that is running; a stack with
    propagators is served, or a call to serve it has been injected. *)
Record queue_ok (r : option nat) (b : Board) : Prop := {
  qu_nodup : NoDup (lpq b);
  qu_in i : i ∈ lpq b -> exists s, susps b !! i = Some s /\ runnable s = true /\ r <> Some i;
  qu_all i s : susps b !! i = Some s -> dead s = false -> runnable s = true -> i ∈ lpq b \/ r = Some i;
  qu_cur i : r = Some i -> exists s, susps b !! i = Some s /\ runnable s = true /\ dead s = false;
  qu_served : lpq b <> [] -> board_served b = true \/ (0 < servers b)%nat
}.

Lemma queue_length r b : queue_ok r b -> (length (lpq b) <= length (susps b))%nat.
Proof.
  intros [N I _ _ _]. rewrite <- (length_seq (length (susps b)) 0). apply submseteq_length, NoDup_submseteq; [done|]. intros i Hi. destruct (I i Hi) as (s & Hs & _).
  apply elem_of_seq. apply lookup_lt_Some in Hs. lia.
Qed.

Lemma setSusp_evolves i f b : (forall s, susps b !! i = Some s -> kept s (f s)) -> evolves b (setSusp i f b).
Proof.
  intros Hf. split; [apply length_alter|done|done|]. intros j s Hs. destruct (decide (i = j)) as [<-|Hne].
  - exists (f s). split; [|by apply Hf]. cbn. by rewrite list_lookup_alter_eq, Hs.
  - exists s. split; [|reflexivity]. cbn. by rewrite list_lookup_alter_ne.
Qed.

Lemma addToLPQ_evolves i b : evolves b (addToLPQ i b).
Proof. split; [done|done|done|]. intros j s Hs. by exists s. Qed.

Lemma setUnify_ok r i b : queue_ok r b -> queue_ok r (setSusp i setUnify b).
Proof.
  intros [N I A C S]. split; [done|..]; cbn; [| | |done].
  - intros j Hj. destruct (I j Hj) as (s & Hs & Hr & Hne). destruct (decide (i = j)) as [<-|Hij]; [exists (setUnify s)|exists s];
      [rewrite list_lookup_alter_eq, Hs|rewrite list_lookup_alter_ne by done]; done.
  - intros j s'. destruct (decide (i = j)) as [<-|Hij]; [|rewrite list_lookup_alter_ne by done; apply A].
    rewrite list_lookup_alter_eq. destruct (susps b !! i) as [s|] eqn:Es; [|done]. intros [= <-]. cbn. by apply A.
  - intros j Hj. destruct (C j Hj) as (s & Hs & Hr & Hd). destruct (decide (i = j)) as [<-|Hij]; [exists (setUnify s)|exists s];
      [rewrite list_lookup_alter_eq, Hs|rewrite list_lookup_alter_ne by done]; done.
Qed.

Lemma enqueue_ok r i b s : queue_ok r b -> susps b !! i = Some s -> runnable s = false -> queue_ok r (addToLPQ i (setSusp i setRunnable b)).
Proof.
  intros [N I A C S] Hs Hr. assert (i ∉ lpq b) as Hi by (intros Hin; destruct (I i Hin) as (s2 & ? & ? & _); congruence).
  assert (r <> Some i) as Hcur by (intros E; destruct (C i E) as (s2 & ? & ? & _); congruence).
  split; cbn.
  - by constructor.
  - intros j Hj. apply elem_of_cons in Hj as [->|Hj]; [exists (setRunnable s); by rewrite list_lookup_alter_eq, Hs|].
    destruct (I j Hj) as (s2 & Hs2 & Hr2 & Hne). exists s2. rewrite list_lookup_alter_ne by (intros ->; done). done.
  - intros j s'. destruct (decide (i = j)) as [<-|Hij]; [intros _ _ _; left; by constructor|rewrite list_lookup_alter_ne by done].
    intros Hs' Hd Hr'. destruct (A j s' Hs' Hd Hr') as [Hin|E]; [left; by constructor|by right].
  - intros j Hj. destruct (C j Hj) as (s2 & Hs2 & H2). exists s2. rewrite list_lookup_alter_ne by (intros ->; done). done.
  - intros _. destruct (lpq b); [destruct (board_served b); [by left|right; lia]|by apply S].
Qed.

(** ** Waking *)

Lemma wakeupLocal_wakeup c i b : wakeupLocal c i b = wakeup c i b.
Proof.
  unfold wakeupLocal, wakeup. destruct (susps b !! i) as [s|] eqn:Es; [|done]. destruct (dead s); [done|]. destruct (runnable s); cbn; [|done].
  destruct (is_called c); cbn; [|done]. destruct (unify s) eqn:Eu; cbn; [|done]. f_equal. unfold setSusp. destruct b as [m l n q sv k]. cbn in *. f_equal.
  apply list_eq. intros j. destruct (decide (i = j)) as [<-|]; [rewrite list_lookup_alter_eq, Es; cbn; f_equal; destruct s; cbn in *; by subst|by rewrite list_lookup_alter_ne].
Qed.

(** A propagator that an event of kind [c] has woken. *)
Definition awake (c : PropCaller) (b : Board) (i : nat) : Prop :=
  forall s, susps b !! i = Some s -> dead s = false -> runnable s = true /\ (is_called c = true -> unify s = true).
Definition alive (b : Board) (i : nat) : Prop := exists s, susps b !! i = Some s /\ dead s = false.

Lemma awake_evolves c b b' i : evolves b b' -> awake c b i -> awake c b' i.
Proof.
  intros He Ha s' Hs' Hd. destruct (evolves_back b b' i s' He Hs') as (s & Hs & [_ Hdd Hr Hu]). rewrite Hdd in Hd.
  destruct (Ha s Hs Hd) as [H1 H2]. auto.
Qed.

Lemma alive_evolves b b' i : evolves b b' -> alive b' i <-> alive b i.
Proof.
  intros He. split.
  - intros (s' & Hs' & Hd). destruct (evolves_back b b' i s' He Hs') as (s & Hs & [_ Hdd _ _]). exists s. split; congruence.
  - intros (s & Hs & Hd). destruct (ev_susp _ _ He i s Hs) as (s' & Hs' & [_ Hdd _ _]). exists s'. split; congruence.
Qed.

Lemma wakeup_spec r c i b : queue_ok r b ->
  evolves b (wakeup c i b).2 /\ queue_ok r (wakeup c i b).2 /\ cells (wakeup c i b).2 = cells b /\ awake c (wakeup c i b).2 i /\ ((wakeup c i b).1 = false <-> alive b i).
Proof.
  intros Hq. unfold wakeup, awake, alive. destruct (susps b !! i) as [s|] eqn:Es; cbn; [|split_and!; try done; [congruence|split; [done|intros (? & ? & _); done]]].
  destruct (dead s) eqn:Ed; cbn; [split_and!; try done; [congruence|split; [done|intros (? & [= <-] & ?); congruence]]|].
  assert (false = false <-> exists s0, Some s = Some s0 /\ dead s0 = false) as Hal by (split; [by exists s|done]).
  assert (kept s (setUnify s)) as Ku by done. assert (kept s (setRunnable s)) as Kr by done.
  destruct (runnable s) eqn:Er; cbn.
  - destruct (is_called c && negb (unify s)) eqn:Eu; cbn; split_and!; try done.
    + apply setSusp_evolves. intros ?. rewrite Es. by intros [= <-].
    + by apply setUnify_ok.
    + rewrite list_lookup_alter_eq, Es. by intros s' [= <-].
    + intros s'. rewrite Es. intros [= <-] _. split; [done|]. intros E. rewrite E in Eu. by destruct (unify s).
  - destruct (is_called c) eqn:Ec; cbn; split_and!; try done.
    + transitivity (setSusp i setUnify b); [apply setSusp_evolves; intros ?; rewrite Es; by intros [= <-]|].
      transitivity (setSusp i setRunnable (setSusp i setUnify b)); [|apply addToLPQ_evolves].
      apply setSusp_evolves. cbn. intros ?. rewrite list_lookup_alter_eq, Es. by intros [= <-].
    + apply (enqueue_ok r i (setSusp i setUnify b) (setUnify s)); [by apply setUnify_ok|cbn; by rewrite list_lookup_alter_eq, Es|done].
    + rewrite !list_lookup_alter_eq, Es. by intros s' [= <-].
    + transitivity (setSusp i setRunnable b); [|apply addToLPQ_evolves]. apply setSusp_evolves. intros ?. rewrite Es. by intros [= <-].
    + by apply (enqueue_ok r i b s).
    + rewrite list_lookup_alter_eq, Es. by intros s' [= <-].
Qed.

(** Going through a suspension list, by either function. *)
Lemma check_spec r c wake l b : (forall i b, wake i b = wakeup c i b) -> queue_ok r b ->
  let '(l', b') := checkSuspensionList wake l b in
  evolves b b' /\ queue_ok r b' /\ cells b' = cells b /\ (forall i, i ∈ l -> awake c b' i) /\ (forall i, i ∈ l' <-> i ∈ l /\ alive b i).
Proof.
  intros Hw. revert b. induction l as [|i l IH]; intros b Hq; cbn.
  - split_and!; try done; [by intros i ?%elem_of_nil|]. intros i. rewrite elem_of_nil. tauto.
  - rewrite Hw. destruct (wakeup_spec r c i b Hq) as (E1 & Q1 & C1 & A1 & G1). destruct (wakeup c i b) as [go b1]. cbn in *.
    specialize (IH b1 Q1). destruct (checkSuspensionList wake l b1) as [l' b2]. destruct IH as (E2 & Q2 & C2 & A2 & G2).
    split_and!; [by transitivity b1|done|congruence|..].
    + intros j Hj. apply elem_of_cons in Hj as [->|Hj]; [by apply (awake_evolves c b1)|by apply A2].
    + intros j. pose proof (alive_evolves b b1 j E1) as Hal. destruct go; rewrite !elem_of_cons, G2, Hal.
      * split; [intros [? ?]; auto|]. intros [[->|?] Ha]; [|done]. by apply G1 in Ha.
      * split; [intros [->|[? ?]]; [split; [by left|by apply G1]|auto]|]. intros [[->|?] ?]; auto.
Qed.
End Wake.

(** * References and what the cells stand for *)

Import FDRepr.

Module Refs.
Section refs.
Context `{FDEnv}.
Implicit Types (m : gmap Z Cell) (v w : Z) (t u : Term) (c : Cell) (β : Z -> Z).

(** ** Well-formed cells *)

Definition cell_ok m v c : Prop :=
  match c with
  | CRef w => v < w /\ is_Some (m !! w)
  | CInt n => 0 <= n <= fd_sup
  | CFD d _ _ _ => wf d /\ 1 < size d /\ is_state d fd_bool = false
  | CBool _ => True
  end.
Definition cells_ok m : Prop := forall v c, m !! v = Some c -> cell_ok m v c.

(** A term that the code can get hold of, and one that dereferencing can end in. *)
Definition known m t : Prop := match t with Var v => is_Some (m !! v) | SmallInt n => 0 <= n <= fd_sup end.
Definition free_cell c : bool := match c with CFD _ _ _ _ | CBool _ => true | _ => false end.
Definition root m t : Prop := match t with Var v => exists c, m !! v = Some c /\ free_cell c = true | SmallInt n => 0 <= n <= fd_sup end.

Lemma cells_ok_insert m v c : cells_ok m -> cell_ok m v c -> cells_ok (<[v := c]> m).
Proof.
  intros Hm Hc x e He. assert (forall w, is_Some (m !! w) -> is_Some (<[v := c]> m !! w)) as Hmono.
  { intros w Hw. destruct (decide (v = w)) as [->|]; [rewrite lookup_insert_eq; by eexists|by rewrite lookup_insert_ne]. }
  assert (forall y e, cell_ok m y e -> cell_ok (<[v := c]> m) y e) as Hk by (intros y []; cbn; [intros [? ?]; auto|done..]).
  apply Hk. destruct (decide (v = x)) as [->|]; [rewrite lookup_insert_eq in He; by injection He as <-|rewrite lookup_insert_ne in He by done; by apply Hm].
Qed.

Lemma known_insert m v c t : known m t -> known (<[v := c]> m) t.
Proof. destruct t as [x|]; cbn; [|done]. intros Hx. destruct (decide (v = x)) as [->|]; [rewrite lookup_insert_eq; by eexists|by rewrite lookup_insert_ne]. Qed.

Lemma root_known m t : root m t -> known m t.
Proof. destruct t; [|done]. intros (c & Hc & _). by exists c. Qed.

(** ** Dereferencing *)

(** The cells of greater addresses. *)
Definition rank m v : nat := base.size (filter (fun k => v < k) (dom m : gset Z)).

Lemma rank_size m v : (rank m v <= base.size m)%nat.
Proof. rewrite <- (size_dom (D := gset Z)). apply subseteq_size. intros k Hk. apply elem_of_filter in Hk as [_ Hk]. done. Qed.

Lemma rank_ref m v w : cells_ok m -> m !! v = Some (CRef w) -> (rank m w < rank m v)%nat.
Proof.
  intros Hm Hv. destruct (Hm v _ Hv) as [Hlt Hw]. apply subset_size. split.
  - intros k Hk. apply elem_of_filter in Hk as [? Hk]. apply elem_of_filter. split; [lia|done].
  - intros Hsub. assert (w ∈ filter (fun k => w < k) (dom m : gset Z)) as Hin by (apply Hsub, elem_of_filter; split; [done|by apply elem_of_dom]).
    apply elem_of_filter in Hin as [? _]. lia.
Qed.

(** Induction along references. *)
Lemma refs_ind m (P : Z -> Prop) : cells_ok m ->
  (forall v c, m !! v = Some c -> (forall w, c = CRef w -> P w) -> P v) -> forall v, is_Some (m !! v) -> P v.
Proof.
  intros Hm HP. assert (forall n v, (rank m v < n)%nat -> is_Some (m !! v) -> P v) as Hn.
  { induction n as [|n IH]; [lia|]. intros v Hr [c Hc]. apply (HP v c Hc). intros w ->. destruct (Hm v _ Hc) as [_ Hw].
    apply IH; [|done]. pose proof (rank_ref m v w Hm Hc). lia. }
  intros v. apply (Hn (S (rank m v))). lia.
Qed.

Lemma deref_fuel_enough m v : cells_ok m -> is_Some (m !! v) -> forall n n', (rank m v <= n)%nat -> (rank m v <= n')%nat -> deref_fuel n m (Var v) = deref_fuel n' m (Var v).
Proof.
  intros Hm. revert v. apply (refs_ind m (fun v => forall n n', (rank m v <= n)%nat -> (rank m v <= n')%nat -> deref_fuel n m (Var v) = deref_fuel n' m (Var v))); [done|].
  intros v c Hc IH n n' Hn Hn'. destruct c as [w|k|d ls lb la|la]; [|destruct n, n'; cbn; by rewrite Hc..].
  pose proof (rank_ref m v w Hm Hc). destruct n as [|n]; [lia|]. destruct n' as [|n']; [lia|]. cbn. rewrite Hc. apply (IH w); [done|lia|lia].
Qed.

Lemma deref_ref m v w : cells_ok m -> m !! v = Some (CRef w) -> deref m (Var v) = deref m (Var w).
Proof.
  intros Hm Hv. unfold deref. pose proof (rank_ref m v w Hm Hv). pose proof (rank_size m v). destruct (base.size m) as [|n] eqn:En; [lia|].
  transitivity (deref_fuel n m (Var w)); [cbn; by rewrite Hv|]. apply deref_fuel_enough; [done|by destruct (Hm v _ Hv)|lia|lia].
Qed.
Lemma deref_int m v n : m !! v = Some (CInt n) -> deref m (Var v) = SmallInt n.
Proof. intros Hv. unfold deref. destruct (base.size m); cbn; by rewrite Hv. Qed.
Lemma deref_free m v c : m !! v = Some c -> free_cell c = true -> deref m (Var v) = Var v.
Proof. intros Hv Hc. unfold deref. destruct (base.size m); cbn; rewrite Hv; by destruct c. Qed.
Lemma deref_small m n : deref m (SmallInt n) = SmallInt n.
Proof. unfold deref. by destruct (base.size m). Qed.

Lemma deref_root m t : cells_ok m -> known m t -> root m (deref m t).
Proof.
  intros Hm. destruct t as [v|n]; [|by rewrite deref_small]. revert v. apply (refs_ind m (fun v => root m (deref m (Var v)))); [done|]. intros v c Hc IH.
  destruct c as [w|k|d ls lb la|la]; [rewrite (deref_ref m v w Hm Hc); by apply IH|rewrite (deref_int m v k Hc); apply (Hm v _ Hc)|..];
    (rewrite (deref_free m v _ Hc eq_refl); by eexists).
Qed.

Lemma deref_idem m t : root m t -> deref m t = t.
Proof. destruct t as [v|n]; [|intros _; apply deref_small]. intros (c & Hc & Hf). by apply (deref_free m v c). Qed.

(** ** Solutions *)

Definition cell_sat β v c : Prop :=
  match c with
  | CRef w => β v = β w
  | CInt n => β v = n
  | CFD d _ _ _ => fd_mem d (β v) = true
  | CBool _ => β v = 0 \/ β v = 1
  end.
Definition cells_sol m β : Prop := forall v c, m !! v = Some c -> cell_sat β v c.

Lemma deref_value m β t : cells_ok m -> cells_sol m β -> known m t -> value β (deref m t) = value β t.
Proof.
  intros Hm Hs. destruct t as [v|n]; [|by rewrite deref_small]. revert v. apply (refs_ind m (fun v => value β (deref m (Var v)) = value β (Var v))); [done|].
  intros v c Hc IH. pose proof (Hs v c Hc) as Hsat. destruct c as [w|k|d ls lb la|la]; cbn in Hsat.
  - rewrite (deref_ref m v w Hm Hc), (IH w eq_refl). cbn. congruence.
  - by rewrite (deref_int m v k Hc).
  - by rewrite (deref_free m v _ Hc eq_refl).
  - by rewrite (deref_free m v _ Hc eq_refl).
Qed.

(** ** Changing the cell of a variable that is not bound *)

Definition target v c : Term := match c with CRef w => Var w | CInt n => SmallInt n | _ => Var v end.
Definition retarget v c t : Term := if decide (t = Var v) then target v c else t.

Lemma deref_insert m v c e t : cells_ok m -> cells_ok (<[v := c]> m) -> m !! v = Some e -> free_cell e = true -> root m (target v c) -> known m t ->
  deref (<[v := c]> m) t = retarget v c (deref m t).
Proof.
  intros Hm Hm' Hv Hfree Hc. unfold retarget. destruct t as [x|n]; [|by rewrite !deref_small]. revert x.
  apply (refs_ind m (fun x => deref (<[v := c]> m) (Var x) = if decide (deref m (Var x) = Var v) then target v c else deref m (Var x))); [done|].
  intros x b Hb IH. destruct (decide (v = x)) as [<-|Hne].
  - rewrite Hv in Hb. injection Hb as <-. rewrite (deref_free m v e Hv Hfree), decide_True by done.
    assert (<[v := c]> m !! v = Some c) as Hx by apply lookup_insert_eq. destruct c as [w|k|d ls lb la|la]; cbn in Hc |- *.
    + rewrite (deref_ref _ v w Hm' Hx). destruct Hc as (cw & Hw & Hfw). destruct (Hm' v _ Hx) as [Hlt _]. apply (deref_free _ w cw); [by rewrite lookup_insert_ne by lia|done].
    + by apply deref_int.
    + by apply (deref_free _ v _ Hx).
    + by apply (deref_free _ v _ Hx).
  - assert (<[v := c]> m !! x = Some b) as Hx by (by rewrite lookup_insert_ne). destruct b as [w|k|d ls lb la|la].
    + rewrite (deref_ref _ x w Hm' Hx), (deref_ref m x w Hm Hb). by apply IH.
    + by rewrite (deref_int _ x k Hx), (deref_int m x k Hb).
    + rewrite (deref_free _ x _ Hx eq_refl), (deref_free m x _ Hb eq_refl), decide_False; [done|congruence].
    + rewrite (deref_free _ x _ Hx eq_refl), (deref_free m x _ Hb eq_refl), decide_False; [done|congruence].
Qed.

Lemma cells_sol_insert m v c e β : m !! v = Some e -> (cell_sat β v c -> cell_sat β v e) -> cells_sol (<[v := c]> m) β <-> cells_sol m β /\ cell_sat β v c.
Proof.
  intros Hv Himp. split.
  - intros Hs. assert (cell_sat β v c) as Hc by (apply Hs, lookup_insert_eq). split; [|done]. intros x b Hb. destruct (decide (v = x)) as [<-|Hne]; [|apply Hs; by rewrite lookup_insert_ne].
    rewrite Hv in Hb. injection Hb as <-. by apply Himp.
  - intros [Hs Hc] x b. destruct (decide (v = x)) as [<-|Hne]; [rewrite lookup_insert_eq; by intros [= <-]|rewrite lookup_insert_ne by done; apply Hs].
Qed.
End refs.
End Refs.

(** * The invariant of a space *)

Import PropRules Wake Refs.

Module Space.
Section space.
Context `{FDEnv}.
Implicit Types (m : gmap Z Cell) (v w : Z) (t u : Term) (c : Cell) (β : Z -> Z) (p : Propagator) (s : Suspendable) (r : option nat) (g f : Term -> Term).

(** ** Registers under a map *)

Lemma params_map f p : params (map_params f p) = map f (params p).
Proof. destruct p; cbn; try done. unfold fmap. rewrite !map_map. done. Qed.

Lemma map_params_ext f g p : (forall t, t ∈ params p -> f t = g t) -> map_params f p = map_params g p.
Proof.
  intros Hfg. destruct p; cbn in *; try (f_equal; apply Hfg; set_solver).
  - f_equal. apply map_ext_in. intros t Ht. apply Hfg. by apply list_elem_of_In.
  - f_equal. apply map_ext_in. intros q Hq. f_equal. apply Hfg, list_elem_of_fmap. exists q. split; [done|by apply list_elem_of_In].
Qed.

Lemma map_params_map f g p : map_params g (map_params f p) = map_params (fun t => g (f t)) p.
Proof. destruct p; cbn; try done; by rewrite map_map. Qed.

Lemma holds_map f p β : (forall t, t ∈ params p -> value β (f t) = value β t) -> holds (map_params f p) β <-> holds p β.
Proof.
  intros Hf. destruct p; cbn in *; try (rewrite !Hf by set_solver; done).
  - rewrite map_map. enough (map (fun t => value β (f t)) l = map (value β) l) as -> by done. apply map_ext_in. intros t Ht. apply Hf. by apply list_elem_of_In.
  - rewrite map_map. cbn. enough (map (fun q : Term * Z => value β (f q.1) + q.2) l = map (fun q => value β q.1 + q.2) l) as -> by done.
    apply map_ext_in. intros q Hq. f_equal. apply Hf, list_elem_of_fmap. exists q. split; [done|by apply list_elem_of_In].
Qed.

(** ** The propagators that stay exact when variables are unified *)

Definition robust p : bool :=
  match p with
  | Times _ _ _ | TimesD _ _ _ | DivD _ _ _ | DivI _ _ _ | TwiceD _ _ | SquareD _ _ | PlusD _ _ _ => false
  | _ => true
  end.

(** The propagators that do not ask whether variables are equal, or are exact without. *)
Definition heedless p : bool :=
  match p with
  | SubSet _ _ | DistinctOffset _ | Conjunction _ _ _ | Disjunction _ _ _ | XDisjunction _ _ _ | Implication _ _ _ | Equivalence _ _ _ | Negation _ _
  | Twice _ _ | Square _ _ => true
  | _ => false
  end.
Definition alias_safe p : Prop := heedless p = true \/ OZ_hasEqualVars (params p) = false.

Lemma robust_map f p : robust (map_params f p) = robust p.
Proof. by destruct p. Qed.
Lemma heedless_map f p : heedless (map_params f p) = heedless p.
Proof. by destruct p. Qed.

(** Variables that become integers do not become equal. *)
Lemma equal_vars_map g l : (forall t, t ∈ l -> match t, g t with Var v, Var w => v = w | SmallInt n, u => u = SmallInt n | Var _, SmallInt _ => True end) ->
  OZ_hasEqualVars l = false -> OZ_hasEqualVars (map g l) = false.
Proof.
  induction l as [|t l IH]; cbn; [done|]. intros Hg He. apply orb_false_iff in He as [H1 H2]. apply orb_false_iff. split; [|apply IH; [set_solver|done]].
  assert (forall u, u ∈ l -> OZ_isEqualVars t u = false) as Ht.
  { intros u Hu. destruct (OZ_isEqualVars t u) eqn:E; [|done]. enough (existsb (OZ_isEqualVars t) l = true) by congruence. apply existsb_exists. exists u. split; [by apply list_elem_of_In|done]. }
  destruct (existsb (OZ_isEqualVars (g t)) (map g l)) eqn:Ex; [|done]. apply existsb_exists in Ex as (x & Hx & Ex). apply in_map_iff in Hx as (u & <- & Hu).
  apply list_elem_of_In in Hu. pose proof (Hg t ltac:(set_solver)) as Gt. pose proof (Hg u ltac:(set_solver)) as Gu. specialize (Ht u Hu).
  destruct t as [v|n], u as [w|k]; destruct (g _) as [a|a] in Gt, Ex |- *; try done; destruct (g _) as [b|b] in Gu, Ex |- *; try done; cbn in *; subst; congruence.
Qed.

(** ** Views *)

Lemma view_lookup m l t d : view m l !! t = Some d <-> t ∈ l /\ domain_of m t = Some d.
Proof.
  induction l as [|u l IH]; cbn; [rewrite lookup_empty, elem_of_nil; split; [done|by intros [? _]]|]. rewrite elem_of_cons.
  destruct (domain_of m u) as [e|] eqn:Eu.
  - destruct (decide (u = t)) as [<-|Hne]; [rewrite lookup_insert_eq, Eu; naive_solver|rewrite lookup_insert_ne by done]. rewrite IH. naive_solver.
  - rewrite IH. split; [naive_solver|]. intros [[->|?] ?]; [congruence|done].
Qed.

Lemma root_domain m v : root m (Var v) -> exists d, domain_of m (Var v) = Some d.
Proof. intros (c & Hc & Hf). cbn. rewrite Hc. cbn. destruct c; try done; by eexists. Qed.

Lemma domain_root m t d : domain_of m t = Some d -> root m t.
Proof. destruct t as [v|]; cbn; [|done]. destruct (m !! v) as [c|]; [|done]. cbn. intros Hd. exists c. split; [done|]. by destruct c. Qed.

(** ** The invariant of a space *)

Definition cell_lists c : list nat := match c with CFD _ ls lb la => ls ++ lb ++ la | CBool la => la | _ => [] end.

(** A propagator is suspended on all its variables. *)
Definition registered m i p : Prop := forall t v, t ∈ params p -> deref m t = Var v -> exists c, m !! v = Some c /\ i ∈ cell_lists c.

(** The propagator as it is when it is run. *)
Definition current m s : Propagator := map_params (deref m) (propagator s).

Record susp_ok m s : Prop := {
  so_known : Forall (known m) (params (propagator s));
  so_robust : robust (propagator s) = true;
  so_kind : kind_ok (view m (params (current m s))) (current m s);
  so_alias : unify s = true \/ alias_safe (current m s);
  so_open : runnable s = false -> exists v, Var v ∈ params (current m s)
}.

Definition living (l : list Suspendable) : Z := zlen (List.filter (fun s => negb (dead s)) l).

(** [r] is the propagator that is running, if one is. *)
Record inv r (b : Board) : Prop := {
  in_cells : cells_ok (cells b);
  in_queue : queue_ok r b;
  in_susp i s : susps b !! i = Some s -> dead s = false -> r <> Some i -> susp_ok (cells b) s;
  in_registered i s : susps b !! i = Some s -> dead s = false -> r <> Some i -> registered (cells b) i (propagator s);
  in_count : suspCount b = living (susps b)
}.

(** ** Changes of the variables *)

(** [g] is what the change does to a term that dereferencing ends in. *)
Record change r (b b' : Board) g : Prop := {
  ch_evolves : evolves b b';
  ch_queue : queue_ok r b';
  ch_cells : cells_ok (cells b');
  ch_known t : known (cells b) t -> known (cells b') t;
  ch_deref t : known (cells b) t -> deref (cells b') t = g (deref (cells b) t);
  ch_int n : g (SmallInt n) = SmallInt n;
  ch_var v w d d' x : domain_of (cells b) (Var v) = Some d -> g (Var v) = Var w -> domain_of (cells b') (Var w) = Some d' -> fd_mem d' x = true -> fd_mem d x = true;
  ch_val v n d : domain_of (cells b) (Var v) = Some d -> g (Var v) = SmallInt n -> fd_mem d n = true;
  ch_lists v c w i : cells b !! v = Some c -> free_cell c = true -> g (Var v) = Var w -> i ∈ cell_lists c -> alive b i -> exists c', cells b' !! w = Some c' /\ i ∈ cell_lists c';
  ch_wake v c i : cells b !! v = Some c -> free_cell c = true -> g (Var v) <> Var v -> i ∈ cell_lists c -> exists e, awake e b' i /\ (is_called e = true \/ exists n, g (Var v) = SmallInt n)
}.

(** What holds between the states before and after some changes. *)
Record leads r (b b' : Board) : Prop := {
  ld_inv : inv r b';
  ld_evolves : evolves b b';
  ld_known t : known (cells b) t -> known (cells b') t;
  ld_deref t : known (cells b) t -> deref (cells b') t = deref (cells b') (deref (cells b) t);
  ld_registered i p : alive b i -> Forall (known (cells b)) (params p) -> registered (cells b) i p -> registered (cells b') i p
}.

Lemma leads_same r b : inv r b -> leads r b b.
Proof. intros Hb. split; try done. intros t Ht. symmetry. apply deref_idem, deref_root; [apply Hb|done]. Qed.

Lemma leads_then r b1 b2 b3 : inv r b1 -> leads r b1 b2 -> leads r b2 b3 -> leads r b1 b3.
Proof.
  intros Hi [I1 E1 K1 D1 R1] [I2 E2 K2 D2 R2]. split; [done|by transitivity b2|auto|..].
  - intros t Ht. assert (known (cells b1) (deref (cells b1) t)) as Hk by (apply root_known, deref_root; [apply Hi|done]).
    rewrite (D2 t (K1 t Ht)), (D1 t Ht). symmetry. by apply D2, K1.
  - intros i p Ha Hk Hr. apply R2; [by apply (alive_evolves b1)|eapply Forall_impl; [exact Hk|exact K1]|by apply R1].
Qed.

Lemma living_evolves b b' : evolves b b' -> living (susps b') = living (susps b).
Proof.
  intros He. assert (map dead (susps b') = map dead (susps b)) as Hd.
  { apply list_eq. intros i. rewrite !list_lookup_fmap. destruct (susps b' !! i) as [s'|] eqn:Es'.
    - destruct (evolves_back b b' i s' He Es') as (s & -> & Hk). cbn. f_equal. apply Hk.
    - apply lookup_ge_None in Es'. rewrite (ev_length _ _ He) in Es'. by rewrite (proj2 (lookup_ge_None _ _) Es'). }
  assert (forall l, living l = zlen (List.filter negb (map dead l))) as Hl.
  { intros l. unfold living, zlen. f_equal. induction l as [|s l IH]; cbn; [done|]. destruct (dead s); cbn; lia. }
  by rewrite !Hl, Hd.
Qed.

Lemma kind_ok_map g p st st' : robust p = true -> (forall t, t ∈ params p -> is_bool st t -> is_bool st' (g t)) -> kind_ok st p -> kind_ok st' (map_params g p).
Proof. destruct p; cbn; try done; intros _ Hg Hk; destruct_and?; split_and?; apply Hg; try done; set_solver. Qed.

Lemma change_susp r b b' g i s s' : cells_ok (cells b) -> change r b b' g -> susps b' !! i = Some s' -> dead s' = false -> kept s s' ->
  susp_ok (cells b) s -> registered (cells b) i (propagator s) -> susp_ok (cells b') s'.
Proof.
  intros Hm Hc Hs' Hd [Kp Kd Kr Ku] [Sk Sr Sb Sa So] Hreg. unfold current in *. rewrite Forall_forall in Sk.
  assert (map_params (deref (cells b')) (propagator s') = map_params g (map_params (deref (cells b)) (propagator s))) as Hcur.
  { rewrite Kp, map_params_map. apply map_params_ext. intros t Ht. apply Hc. by apply Sk. }
  set (q := map_params (deref (cells b)) (propagator s)) in *.
  assert (forall t, t ∈ params q -> root (cells b) t /\ forall v, t = Var v -> exists c, cells b !! v = Some c /\ free_cell c = true /\ i ∈ cell_lists c) as Hq.
  { intros t. unfold q. rewrite params_map. intros (u & -> & Hu)%list_elem_of_fmap. split; [by apply deref_root, Sk|]. intros v Hv.
    destruct (Hreg u v Hu Hv) as (c & Hcv & Hin). pose proof (deref_root (cells b) u Hm (Sk u Hu)) as Hroot. rewrite Hv in Hroot.
    destruct Hroot as (c' & Hc' & Hf). exists c. split; [done|]. split; [congruence|done]. }
  assert (forall t, t ∈ params q -> g t <> t -> exists e, awake e b' i /\ (is_called e = true \/ exists n, g t = SmallInt n)) as Hmoved.
  { intros t Ht Hne. destruct (Hq t Ht) as [_ Hv]. destruct t as [v|n]; [|by rewrite (ch_int _ _ _ _ Hc) in Hne]. destruct (Hv v eq_refl) as (c & Hcv & Hf & Hin).
    by apply (ch_wake _ _ _ _ Hc v c). }
  split; unfold current; rewrite ?Hcur.
  - rewrite Kp. apply Forall_forall. intros t Ht. by apply Hc, Sk.
  - by rewrite Kp.
  - apply (kind_ok_map g q (view (cells b) (params q))); [unfold q; by rewrite robust_map| |done]. intros t Ht Hbool. destruct (Hq t Ht) as [Hroot _].
    destruct t as [v|n]; [|by rewrite (ch_int _ _ _ _ Hc)]. destruct (root_domain _ v Hroot) as [d Hdom]. cbn in Hbool.
    assert (forall x, fd_mem d x = true -> x = 0 \/ x = 1) as Hx by (intros x; apply Hbool, view_lookup; done). destruct (g (Var v)) as [w|n] eqn:Eg; cbn.
    + intros d' x Hd' Hm'. apply view_lookup in Hd' as [_ Hd']. by apply Hx, (ch_var _ _ _ _ Hc v w d d').
    + by apply Hx, (ch_val _ _ _ _ Hc v).
  - destruct Sa as [Hu|Hs]; [left; auto|]. destruct (unify s') eqn:Eu; [by left|right].
    destruct Hs as [Hs|Hs]; [left; by rewrite heedless_map|right]. rewrite params_map. apply equal_vars_map; [|done].
    intros t Ht. destruct t as [v|n]; [|apply Hc]. destruct (g (Var v)) as [w|] eqn:Eg; [|done]. destruct (decide (v = w)) as [|Hne]; [done|].
    destruct (Hmoved (Var v) Ht) as (e & Ha & He); [congruence|]. destruct (Ha s' Hs' Hd) as [_ Hu]. destruct He as [He|[n He]]; [|congruence]. rewrite (Hu He) in Eu. done.
  - intros Hr'. assert (runnable s = false) as Hr by (destruct (runnable s); [by rewrite Kr in Hr'|done]). destruct (So Hr) as [v Hv].
    destruct (g (Var v)) as [w|n] eqn:Eg; [exists w; rewrite params_map; apply list_elem_of_fmap; by exists (Var v)|].
    destruct (Hmoved (Var v) Hv) as (e & Ha & _); [congruence|]. destruct (Ha s' Hs' Hd) as [Hrun _]. congruence.
Qed.

Lemma change_registered r b b' g i p : cells_ok (cells b) -> change r b b' g -> alive b i -> Forall (known (cells b)) (params p) ->
  registered (cells b) i p -> registered (cells b') i p.
Proof.
  intros Hm Hc Ha Hk Hr t w Ht. rewrite Forall_forall in Hk. rewrite (ch_deref _ _ _ _ Hc t (Hk t Ht)). pose proof (deref_root _ t Hm (Hk t Ht)) as Hroot.
  destruct (deref (cells b) t) as [v|n] eqn:Ev; [|by rewrite (ch_int _ _ _ _ Hc)]. intros Hg. destruct (Hr t v Ht Ev) as (c & Hcv & Hin).
  destruct Hroot as (c' & Hc' & Hf). rewrite Hcv in Hc'. injection Hc' as <-. by apply (ch_lists _ _ _ _ Hc v c).
Qed.

Lemma change_leads r b b' g : inv r b -> change r b b' g -> leads r b b'.
Proof.
  intros [Ic Iq Is Ir In] Hc. pose proof (ch_evolves _ _ _ _ Hc) as He. split; [|done|apply Hc|..].
  - split; [apply Hc|apply Hc|..].
    + intros i s' Hs' Hd Hne. destruct (evolves_back b b' i s' He Hs') as (s & Hs & K). assert (dead s = false) as Hds by (rewrite <- (kp_dead _ _ K); done).
      by apply (change_susp r b b' g i s); [..|apply Is with i|apply (Ir i s)].
    + intros i s' Hs' Hd Hne. destruct (evolves_back b b' i s' He Hs') as (s & Hs & K). assert (dead s = false) as Hds by (rewrite <- (kp_dead _ _ K); done).
      rewrite (kp_prop _ _ K). apply (change_registered r b b' g); [done|done|by exists s|by apply (Is i s)|by apply Ir].
    + rewrite (ev_count _ _ He), In. symmetry. by apply living_evolves.
  - intros t Ht. assert (root (cells b) (deref (cells b) t)) as Hr by (by apply deref_root). rewrite !(ch_deref _ _ _ _ Hc) by (try done; by apply root_known).
    by rewrite (deref_idem _ (deref _ t)).
  - intros i p. by apply (change_registered r b b' g).
Qed.
End space.
End Space.

(** * Replacing the cell of a variable *)

Import Space.

Module Replace.
Section replace.
Context `{FDEnv}.
Implicit Types (m : gmap Z Cell) (v w : Z) (c : Cell) (β : Z -> Z) (r : option nat).

Lemma initBool_mem x : fd_mem initBool x = true <-> x = 0 \/ x = 1.
Proof. unfold fd_mem, dmem, initBool. cbn. lia. Qed.

Lemma cell_sat_domain β v c d : cell_domain c = Some d -> cell_sat β v c <-> fd_mem d (β v) = true.
Proof. destruct c; try done; cbn; intros [= <-]; [done|]. symmetry. apply initBool_mem. Qed.

Lemma free_domain c : free_cell c = true -> exists d, cell_domain c = Some d.
Proof. destruct c; try done; intros _; by eexists. Qed.

(** The domain of [c'] is within that of [c]. *)
Definition narrower c c' : Prop := forall d d' x, cell_domain c = Some d -> cell_domain c' = Some d' -> fd_mem d' x = true -> fd_mem d x = true.
(** The suspensions of [c] are those of [c']. *)
Definition keeps (b : Board) c c' : Prop := forall i, i ∈ cell_lists c -> alive b i -> i ∈ cell_lists c'.
Definition all_awake (e : PropCaller) (b : Board) c : Prop := forall i, i ∈ cell_lists c -> awake e b i.

(** [c] can become [c'], between [b] and [b']. *)
Definition replaces (b b' : Board) v c c' : Prop :=
  match c' with
  | CRef w => exists cw e, v < w /\ cells b !! w = Some cw /\ free_cell cw = true /\ narrower c cw /\ keeps b c cw /\ is_called e = true /\ all_awake e b' c
  | CInt n => 0 <= n <= fd_sup /\ (forall d, cell_domain c = Some d -> fd_mem d n = true) /\ exists e, all_awake e b' c
  | _ => cell_ok (cells b) v c' /\ narrower c c' /\ keeps b c c'
  end.

Lemma replace_change r b b' v c c' : inv r b -> cells b !! v = Some c -> free_cell c = true -> evolves b b' -> queue_ok r b' -> cells b' = <[v := c']> (cells b) ->
  replaces b b' v c c' -> change r b b' (retarget v c').
Proof.
  intros Hi Hv Hf He Hq Hb' Hr. pose proof (in_cells _ _ Hi) as Hm.
  assert (cell_ok (cells b) v c') as Hok. { destruct c'; cbn in Hr |- *; try apply Hr. destruct Hr as (cw & e & ? & ? & _). split; [done|by eexists]. }
  assert (cells_ok (<[v := c']> (cells b))) as Hm' by (by apply cells_ok_insert).
  assert (root (cells b) (target v c')) as Hroot.
  { destruct c'; cbn in Hr |- *; try (by exists c); [|apply Hr]. destruct Hr as (cw & e & _ & Hw & Hfw & _). by exists cw. }
  assert (forall x, x <> v -> retarget v c' (Var x) = Var x) as Hother by (intros x Hx; unfold retarget; rewrite decide_False; congruence).
  assert (retarget v c' (Var v) = target v c') as Hself by (unfold retarget; by rewrite decide_True).
  split; rewrite ?Hb'; try done.
  - intros t. apply known_insert.
  - intros t Ht. by apply (deref_insert (cells b) v c' c).
  - intros x w d d' y Hd Hg Hd' Hy. destruct (decide (x = v)) as [->|Hne].
    + rewrite Hself in Hg. cbn in Hd, Hd'. rewrite Hv in Hd. cbn in Hd. destruct c' as [z|n|e ls lb la|la]; cbn in Hg, Hr; simplify_eq.
      * destruct Hr as (cw & e & Hlt & Hw & Hfw & Hn & _). rewrite lookup_insert_ne, Hw in Hd' by lia. by apply (Hn d d').
      * destruct Hr as (_ & Hn & _). rewrite lookup_insert_eq in Hd'. by apply (Hn d d').
      * destruct Hr as (_ & Hn & _). rewrite lookup_insert_eq in Hd'. by apply (Hn d d').
    + rewrite (Hother x Hne) in Hg. injection Hg as <-. cbn in Hd, Hd'. rewrite lookup_insert_ne in Hd' by done. congruence.
  - intros x n d Hd Hg. destruct (decide (x = v)) as [->|Hne]; [|by rewrite (Hother x Hne) in Hg]. rewrite Hself in Hg. cbn in Hd. rewrite Hv in Hd. cbn in Hd.
    destruct c'; cbn in Hg, Hr; simplify_eq. by apply Hr.
  - intros x cx w i Hx Hfx Hg Hin Ha. destruct (decide (x = v)) as [->|Hne].
    + rewrite Hself in Hg. assert (cx = c) as -> by congruence. destruct c' as [z|n|e ls lb la|la]; cbn in Hg, Hr; simplify_eq.
      * destruct Hr as (cw & e & Hlt & Hw & Hfw & _ & Hk & _). exists cw. rewrite lookup_insert_ne by lia. split; [done|by apply Hk].
      * eexists. rewrite lookup_insert_eq. split; [done|by apply Hr].
      * eexists. rewrite lookup_insert_eq. split; [done|by apply Hr].
    + rewrite (Hother x Hne) in Hg. injection Hg as <-. exists cx. by rewrite lookup_insert_ne.
  - intros x cx i Hx Hfx Hg Hin. destruct (decide (x = v)) as [->|Hne]; [|by rewrite (Hother x Hne) in Hg]. rewrite Hself in Hg |- *. assert (cx = c) as -> by congruence.
    destruct c' as [z|n|e ls lb la|la]; cbn in Hg, Hr |- *; [| |done..].
    + destruct Hr as (cw & e & _ & _ & _ & _ & _ & Hc & Ha). exists e. split; [by apply Ha|by left].
    + destruct Hr as (_ & _ & e & Ha). exists e. split; [by apply Ha|right; by exists n].
Qed.

Lemma replace_leads r b b' v c c' : inv r b -> cells b !! v = Some c -> free_cell c = true -> evolves b b' -> queue_ok r b' -> cells b' = <[v := c']> (cells b) ->
  replaces b b' v c c' -> leads r b b' /\ forall β, cells_sol (cells b') β <-> cells_sol (cells b) β /\ cell_sat β v c'.
Proof.
  intros Hi Hv Hf He Hq Hb' Hr. split; [by apply (change_leads r b b' (retarget v c')), (replace_change r b b' v c c')|]. intros β. rewrite Hb'.
  destruct (free_domain c Hf) as [d Hd]. destruct c' as [w|n|e ls lb la|la]; cbn in Hr.
  - destruct Hr as (cw & e & Hlt & Hw & Hfw & Hn & _). destruct (free_domain cw Hfw) as [d' Hd']. split.
    + intros Hs. assert (cell_sat β v (CRef w)) as Hsat by (apply Hs, lookup_insert_eq). split; [|done]. intros x k Hx. destruct (decide (v = x)) as [<-|Hne]; [|apply Hs; by rewrite lookup_insert_ne].
      rewrite Hv in Hx. injection Hx as <-. apply (cell_sat_domain β v c d Hd). apply (Hn d d' _ Hd Hd'). cbn in Hsat. rewrite Hsat. apply (cell_sat_domain β w cw d' Hd'). apply Hs. rewrite lookup_insert_ne by lia. done.
    + intros [Hs Hc] x k. destruct (decide (v = x)) as [<-|Hne]; [rewrite lookup_insert_eq; by intros [= <-]|rewrite lookup_insert_ne by done; apply Hs].
  - apply (cells_sol_insert _ v _ c); [done|]. intros Hn. apply (cell_sat_domain β v c d Hd). cbn in Hn. rewrite Hn. by apply Hr.
  - apply (cells_sol_insert _ v _ c); [done|]. intros Hs. apply (cell_sat_domain β v c d Hd). destruct Hr as (_ & Hn & _). by apply (Hn d e).
  - apply (cells_sol_insert _ v _ c); [done|]. intros Hs. apply (cell_sat_domain β v c d Hd). destruct Hr as (_ & Hn & _). apply (Hn d initBool); [done|done|]. by apply initBool_mem.
Qed.
End replace.
End Replace.
