(* ===== verification/BoardVars.v ===== *)
(** * Computation spaces: telling and unifying variables *)
From stdpp Require Import gmap.
From S2P Require Import Prelude Word32 FDBase FDIntervals FDBitVector FiniteDomain FDRepr FDQueries FDOperators FDSetOperators Propagators PropSpec Board BoardInv.
Import FiniteDomain FDRepr FDQueries FDOperators FDSetOperators PropBase PropSpec PropRules Suspension FDVar Scheduler Wake Refs Space Replace.

Module Vars.
Section vars.
Context `{FDEnv}.
Implicit Types (m : gmap Z Cell) (v w : Z) (c : Cell) (β : Z -> Z) (r : option nat) (e : PropCaller).

(** ** Potential: how much the variables can still be narrowed *)

Definition weight c : nat := match c with CFD d _ _ _ => Z.to_nat (size d) | CBool _ => 2 | _ => 0 end.
Definition potential m : nat := map_fold (fun _ c n => (weight c + n)%nat) 0%nat m.

Lemma potential_insert m v c c' : m !! v = Some c -> (potential (<[v := c']> m) + weight c = potential m + weight c')%nat.
Proof.
  intros Hv. unfold potential. rewrite <- (insert_delete_eq m v c').
  rewrite map_fold_insert_L; [|intros; lia|by rewrite lookup_delete_eq]. rewrite (map_fold_delete_L _ _ v c m); [lia|intros; lia|done].
Qed.

(** ** Waking the propagators of a variable *)

Definition same_kind c c' : Prop :=
  match c, c' with CFD d _ _ _, CFD d' _ _ _ => d = d' | CBool _, CBool _ => True | _, _ => False end.

Record woke r v c c' (b b' : Board) : Prop := {
  wk_cells : cells b' = <[v := c']> (cells b);
  wk_evolves : evolves b b';
  wk_queue : queue_ok r b';
  wk_kind : same_kind c c';
  wk_keeps : keeps b c c';
  wk_sub i : i ∈ cell_lists c' -> i ∈ cell_lists c
}.

Lemma setCell_evolves v c b : evolves b (setCell v c b).
Proof. split; [done|done|done|]. intros i s Hs. by exists s. Qed.
Lemma setCell_queue r v c b : queue_ok r b -> queue_ok r (setCell v c b).
Proof. by intros []. Qed.
Lemma setCell_awake e v c b i : awake e (setCell v c b) i <-> awake e b i.
Proof. done. Qed.

Lemma maybe_check r e (x : bool) wake l b : (forall i b, wake i b = wakeup e i b) -> queue_ok r b ->
  let '(l', b') := if x then checkSuspensionList wake l b else (l, b) in
  evolves b b' /\ queue_ok r b' /\ cells b' = cells b /\ (x = true -> forall i, i ∈ l -> awake e b' i) /\ (forall i, i ∈ l' -> i ∈ l) /\ (forall i, i ∈ l -> alive b i -> i ∈ l').
Proof.
  intros Hw Hq. destruct x; [|by split_and!]. pose proof (check_spec r e wake l b Hw Hq) as Hc. destruct (checkSuspensionList wake l b) as [l' b'].
  destruct Hc as (E & Q & C & A & I). split_and!; try done; intros i; rewrite I; tauto.
Qed.

Lemma fd_propagate_spec r v st e b d ls lb la : queue_ok r b -> cells b !! v = Some (CFD d ls lb la) ->
  exists c', woke r v (CFD d ls lb la) c' b (OzFDVariable_propagate v st e b) /\
    (st = fd_prop_singl \/ is_called e = true -> all_awake e (OzFDVariable_propagate v st e b) (CFD d ls lb la)).
Proof.
  intros Hq Hv. unfold OzFDVariable_propagate. rewrite Hv. unfold oz_checkLocalSuspensionList, oz_checkAnySuspensionList.
  set (x1 := is_called e || _). set (x2 := is_called e || match st with fd_prop_any => false | _ => true end).
  pose proof (maybe_check r e x1 (wakeupLocal e) ls b (wakeupLocal_wakeup e) Hq) as H1. destruct (if x1 then _ else _) as [ls' b1]. destruct H1 as (E1 & Q1 & C1 & A1 & S1 & K1).
  pose proof (maybe_check r e x2 (wakeupLocal e) lb b1 (wakeupLocal_wakeup e) Q1) as H2. destruct (if x2 then _ else _) as [lb' b2]. destruct H2 as (E2 & Q2 & C2 & A2 & S2 & K2).
  pose proof (maybe_check r e true (wakeup e) la b2 (fun _ _ => eq_refl) Q2) as H3. cbn [negb] in H3. destruct (checkSuspensionList (wakeup e) la b2) as [la' b3]. destruct H3 as (E3 & Q3 & C3 & A3 & S3 & K3).
  exists (CFD d ls' lb' la'). assert (evolves b b3) as E by (transitivity b1; [done|by transitivity b2]). split.
  - split; [cbn; congruence|transitivity b3; [done|apply setCell_evolves]|by apply setCell_queue|done|..].
    + intros i. cbn. rewrite !elem_of_app. intros Hi Ha. pose proof (alive_evolves b b1 i E1). pose proof (alive_evolves b1 b2 i E2). naive_solver.
    + intros i. cbn. rewrite !elem_of_app. naive_solver.
  - intros Hall. assert (x1 = true /\ x2 = true) as [T1 T2] by (unfold x1, x2; destruct Hall as [->| ->]; cbn; rewrite ?orb_true_r; done).
    intros i. cbn [cell_lists]. rewrite !elem_of_app. intros Hi. apply setCell_awake. destruct Hi as [Hi|[Hi|Hi]].
    + apply (awake_evolves e b1); [by transitivity b2|by apply A1].
    + apply (awake_evolves e b2); [done|by apply A2].
    + by apply A3.
Qed.

Lemma bool_propagate_spec r v e b la : queue_ok r b -> cells b !! v = Some (CBool la) ->
  exists c', woke r v (CBool la) c' b (OzBoolVariable_propagate v e b) /\ all_awake e (OzBoolVariable_propagate v e b) (CBool la).
Proof.
  intros Hq Hv. unfold OzBoolVariable_propagate. rewrite Hv. unfold oz_checkAnySuspensionList.
  pose proof (maybe_check r e true (wakeup e) la b (fun _ _ => eq_refl) Hq) as H1. cbn [negb] in H1. destruct (checkSuspensionList (wakeup e) la b) as [la' b1]. destruct H1 as (E1 & Q1 & C1 & A1 & S1 & K1).
  exists (CBool la'). split; [|intros i Hi; by apply A1]. split; [cbn; congruence|transitivity b1; [done|apply setCell_evolves]|by apply setCell_queue|done|exact K1|exact S1].
Qed.

Lemma propagateUnify_spec r v b c : queue_ok r b -> cells b !! v = Some c -> free_cell c = true ->
  exists c', woke r v c c' b (propagateUnify v b) /\ all_awake pc_cv_unif (propagateUnify v b) c.
Proof.
  intros Hq Hv Hf. unfold propagateUnify. rewrite Hv. destruct c as [| |d ls lb la|la]; try done; [|by apply bool_propagate_spec].
  destruct (fd_propagate_spec r v fd_prop_singl pc_cv_unif b d ls lb la Hq Hv) as (c' & Hw & Ha). exists c'. auto.
Qed.

Lemma same_kind_free c c' : same_kind c c' -> free_cell c' = true /\ cell_domain c' = cell_domain c /\ weight c' = weight c.
Proof. destruct c, c'; try done; cbn; by intros ->. Qed.

Lemma woke_leads r v c c' b b' : inv r b -> cells b !! v = Some c -> woke r v c c' b b' ->
  leads r b b' /\ (forall β, cells_sol (cells b') β <-> cells_sol (cells b) β) /\ potential (cells b') = potential (cells b).
Proof.
  intros Hi Hv [Wc We Wq Wk Wp _]. destruct (same_kind_free c c' Wk) as (Hf' & Hd & Hw). assert (free_cell c = true) as Hf by (destruct c, c'; done).
  assert (replaces b b' v c c') as Hrep.
  { pose proof (in_cells _ _ Hi v c Hv) as Hok. destruct c, c'; try done; cbn in Wk |- *; subst; (split; [done|]; split; [|done]); by intros d1 d2 x [= <-] [= <-]. }
  destruct (replace_leads r b b' v c c' Hi Hv Hf We Wq Wc Hrep) as [Hl Hs]. split; [done|]. split.
  - intros β. rewrite Hs. split; [tauto|]. intros Hb. split; [done|]. specialize (Hb v c Hv). by destruct c, c'; try done; cbn in *; subst.
  - rewrite Wc. pose proof (potential_insert (cells b) v c c' Hv). lia.
Qed.

(** ** Replacing a cell after waking *)

(** The constraint [X] is added by what leads from [b] to [b']. *)
Record adds r (b b' : Board) (X : (Z -> Z) -> Prop) : Prop := {
  ad_leads : leads r b b';
  ad_sol β : cells_sol (cells b') β <-> cells_sol (cells b) β /\ X β;
  ad_potential : (potential (cells b') <= potential (cells b))%nat
}.

Lemma adds_refl r b (X : (Z -> Z) -> Prop) : inv r b -> (forall β, cells_sol (cells b) β -> X β) -> adds r b b X.
Proof. intros Hi HX. split; [by apply leads_same| |done]. intros β. split; [intros Hs; auto|tauto]. Qed.

Lemma adds_trans r b1 b2 b3 (X Y Z : (Z -> Z) -> Prop) : inv r b1 -> adds r b1 b2 X -> adds r b2 b3 Y -> (forall β, cells_sol (cells b1) β -> X β /\ Y β <-> Z β) -> adds r b1 b3 Z.
Proof.
  intros Hi [L1 S1 P1] [L2 S2 P2] HZ. split; [by apply (leads_then r b1 b2)| |lia]. intros β. rewrite S2, S1. specialize (HZ β). tauto.
Qed.

Lemma woke_adds r v c c' b b' : inv r b -> cells b !! v = Some c -> woke r v c c' b b' -> adds r b b' (fun _ => True).
Proof. intros Hi Hv Hw. destruct (woke_leads r v c c' b b' Hi Hv Hw) as (Hl & Hs & Hp). split; [done| |lia]. intros β. rewrite Hs. tauto. Qed.

Lemma insert_lookup m v c : <[v := c]> m !! v = Some c.
Proof. apply lookup_insert_eq. Qed.

(** [v] is given the cell [c'] at last; in between, its cell has changed to [x]. *)
Lemma commit r b b2 v c x c' : inv r b -> cells b !! v = Some c -> free_cell c = true -> evolves b b2 -> queue_ok r b2 -> cells b2 = <[v := x]> (cells b) ->
  replaces b b2 v c c' -> (weight c' <= weight c)%nat ->
  adds r b (setCell v c' b2) (fun β => cell_sat β v c') /\ (potential (cells (setCell v c' b2)) + weight c = potential (cells b) + weight c')%nat /\ cells (setCell v c' b2) = <[v := c']> (cells b).
Proof.
  intros Hi Hv Hf He Hq Hx Hr Hw. assert (cells (setCell v c' b2) = <[v := c']> (cells b)) as Hc by (cbn; by rewrite Hx, insert_insert_eq).
  assert (replaces b (setCell v c' b2) v c c') as Hr' by (destruct c'; done).
  destruct (replace_leads r b (setCell v c' b2) v c c' Hi Hv Hf) as [Hl Hs]; [transitivity b2; [done|apply setCell_evolves]|by apply setCell_queue|done|done|].
  pose proof (potential_insert (cells b) v c c' Hv) as Hp. rewrite <- Hc in Hp. split; [|done]. split; [done|done|lia].
Qed.

Lemma same_cells b v c : cells b !! v = Some c -> cells b = <[v := c]> (cells b).
Proof. intros Hv. by rewrite insert_id. Qed.

Lemma weight_free r b v c : inv r b -> cells b !! v = Some c -> free_cell c = true -> (2 <= weight c)%nat.
Proof. intros Hi Hv Hf. pose proof (in_cells _ _ Hi v c Hv) as Hok. destruct c; try done. destruct Hok as (_ & ? & _). cbn. lia. Qed.

Lemma domain_range r b v c d n : inv r b -> cells b !! v = Some c -> cell_domain c = Some d -> fd_mem d n = true -> 0 <= n <= fd_sup.
Proof.
  intros Hi Hv Hd Hn. pose proof (in_cells _ _ Hi v c Hv) as Hok. destruct c; try done; cbn in *; injection Hd as <-.
  - destruct Hok as (Hw & _). by apply (repr_bounds _ _ n (wf_repr _ Hw)).
  - apply initBool_mem in Hn. unfold fd_sup. lia.
Qed.

(** [v] becomes an integer, after all its propagators have been woken. *)
Lemma commit_int r b b2 v c x n e : inv r b -> cells b !! v = Some c -> free_cell c = true -> evolves b b2 -> queue_ok r b2 -> cells b2 = <[v := x]> (cells b) ->
  (forall d, cell_domain c = Some d -> fd_mem d n = true) -> all_awake e b2 c ->
  adds r b (setCell v (CInt n) b2) (fun β => β v = n) /\ (potential (cells (setCell v (CInt n) b2)) < potential (cells b))%nat /\ cells (setCell v (CInt n) b2) = <[v := CInt n]> (cells b).
Proof.
  intros Hi Hv Hf He Hq Hx Hn Ha. destruct (free_domain c Hf) as [d Hd]. pose proof (domain_range r b v c d n Hi Hv Hd (Hn d Hd)) as Hr.
  destruct (commit r b b2 v c x (CInt n) Hi Hv Hf He Hq Hx) as (Had & Hp & Hc); [split; [done|]; split; [done|by exists e]|cbn; lia|].
  split; [done|]. split; [|done]. pose proof (weight_free r b v c Hi Hv Hf). change (weight (CInt n)) with 0%nat in Hp. lia.
Qed.

Lemma small_int_spec r v n b c : inv r b -> cells b !! v = Some c -> free_cell c = true -> (forall d, cell_domain c = Some d -> fd_mem d n = true) ->
  adds r b (becomesSmallIntAndPropagate v n b) (fun β => β v = n) /\ (potential (cells (becomesSmallIntAndPropagate v n b)) < potential (cells b))%nat /\
  cells (becomesSmallIntAndPropagate v n b) = <[v := CInt n]> (cells b).
Proof.
  intros Hi Hv Hf Hn. pose proof (in_queue _ _ Hi) as Hq. unfold becomesSmallIntAndPropagate. rewrite Hv. destruct c as [| |d ls lb la|la]; try done.
  - destruct (fd_propagate_spec r v fd_prop_singl pc_propagator b d ls lb la Hq Hv) as (c' & [Wc We Wq _ _ _] & Ha).
    by apply (commit_int r b _ v (CFD d ls lb la) c' n pc_propagator); auto.
  - destruct (bool_propagate_spec r v pc_propagator b la Hq Hv) as (c' & [Wc We Wq _ _ _] & Ha).
    by apply (commit_int r b _ v (CBool la) c' n pc_propagator).
Qed.

Context (Hg : globals_ok fd_env).

Lemma bind_spec r v n b c : inv r b -> cells b !! v = Some c -> free_cell c = true ->
  match oz_var_bind v n b with
  | Some (Some b') => adds r b b' (fun β => β v = n) /\ (potential (cells b') < potential (cells b))%nat
  | Some None => forall β, cells_sol (cells b) β -> β v <> n
  | None => False
  end.
Proof using Hg.
  intros Hi Hv Hf. pose proof (in_queue _ _ Hi) as Hq. unfold oz_var_bind. rewrite Hv. pose proof (in_cells _ _ Hi v c Hv) as Hok. destruct c as [| |d ls lb la|la]; try done.
  - destruct Hok as (Hw & _). rewrite (isIn_repr d _ (wf_repr d Hw) n). ored. destruct (fd_mem d n) eqn:En; cbn.
    + destruct (fd_propagate_spec r v fd_prop_singl pc_propagator b d ls lb la Hq Hv) as (c' & [Wc We Wq _ _ _] & Ha).
      destruct (commit_int r b (OzFDVariable_propagate v fd_prop_singl pc_propagator b) v (CFD d ls lb la) c' n pc_propagator) as (? & ? & _); auto.
      by intros d' [= <-].
    + intros β Hs E. pose proof (Hs v _ Hv) as Hsat. cbn in Hsat. congruence.
  - destruct ((n <? 0) || (1 <? n)) eqn:En.
    + intros β Hs E. pose proof (Hs v _ Hv) as Hsat. cbn in Hsat. lia.
    + destruct (bool_propagate_spec r v pc_propagator b la Hq Hv) as (c' & [Wc We Wq _ _ _] & Ha).
      destruct (commit_int r b (OzBoolVariable_propagate v pc_propagator b) v (CBool la) c' n pc_propagator) as (? & ? & _); auto.
      intros d' [= <-]. apply initBool_mem. lia.
Qed.

(** ** Telling a domain *)

Lemma appendTo_elem l l' i : i ∈ appendTo l l' <-> i ∈ l \/ i ∈ l'.
Proof. unfold appendTo. rewrite elem_of_app, list_elem_of_filter. destruct (decide (i ∈ l)); tauto. Qed.

Lemma same_members d d' : wf d -> wf d' -> 0 < size d -> 0 < size d' -> (forall x, fd_mem d' x = fd_mem d x) -> size d' = size d /\ min_elem d' = min_elem d /\ max_elem d' = max_elem d.
Proof.
  intros Hw Hw' Hs Hs' Hx. split; [rewrite (repr_card d' _ (wf_repr d' Hw')), (repr_card d _ (wf_repr d Hw)); by apply card_ext|].
  destruct (wf_bounds d Hw Hs) as [B1 B2 B3 _ _ _], (wf_bounds d' Hw' Hs') as [C1 C2 C3 _ _ _].
  rewrite Hx in C1, C2. rewrite <- Hx in B1, B2. apply B3 in C1, C2. apply C3 in B1, B2. lia.
Qed.

Lemma singl_mem d x : wf d -> size d = 1 -> fd_mem d x = (x =? getSingleElem d).
Proof.
  intros Hw Hs. assert (singl d = true) as Hsg by (unfold singl; lia). rewrite (single_elem d Hsg). destruct (wf_bounds d Hw ltac:(lia)) as [B1 B2 B3 _ _ _].
  pose proof (singl_spec d Hw ltac:(lia)) as Hsp. rewrite Hsg in Hsp. symmetry in Hsp. apply Z.eqb_eq in Hsp. destruct (Z.eqb_spec x (min_elem d)) as [->|Hne]; [done|].
  destruct (fd_mem d x) eqn:E; [apply B3 in E; lia|done].
Qed.

Lemma initBool_wf : wf initBool.
Proof.
  assert (repr (FD 0 1 (1 - 0 + 1) fd_descr) (fun v => (0 <=? v) && (v <=? 1))) as Hr by (apply repr_range; unfold fd_sup; lia). apply Hr.
Qed.

Lemma sub_full d d' : wf d -> wf d' -> (forall x, fd_mem d' x = true -> fd_mem d x = true) -> size d <= size d' -> forall x, fd_mem d' x = fd_mem d x.
Proof.
  intros Hw Hw' Hsub Hle x. apply Bool.eq_iff_eq_true. split; [apply Hsub|]. intros Hx. destruct (fd_mem d' x) eqn:E; [done|]. pose proof (size_lt d d' x Hw Hw' Hsub Hx E). lia.
Qed.

Lemma is_singl d : is_state d fd_singl = (size d =? 1).
Proof. done. Qed.
Lemma is_empty d : is_state d fd_empty = (size d =? 0).
Proof. done. Qed.

Lemma bool_mem d x : wf d -> is_state d fd_bool = true -> fd_mem d x = true <-> x = 0 \/ x = 1.
Proof.
  intros Hw Hb. unfold is_state in Hb. cbn in Hb. apply andb_true_iff in Hb as [[H1 H2]%andb_true_iff H3]. destruct (wf_bounds d Hw ltac:(lia)) as [B1 B2 B3 _ _ _].
  split; [intros Hx%B3; lia|]. intros [->| ->]; [by replace 0 with (min_elem d) by lia|by replace 1 with (max_elem d) by lia].
Qed.

Lemma mem_pos d x : wf d -> fd_mem d x = true -> 0 < size d.
Proof. intros Hw Hx. by apply (repr_bounds d _ x (wf_repr d Hw)). Qed.

(** The domain of the cell of [v] is [d]. *)
Definition told m v d : Prop :=
  exists c, m !! v = Some c /\
  match c with CInt n => forall x, fd_mem d x = (x =? n) | _ => exists d', cell_domain c = Some d' /\ forall x, fd_mem d' x = fd_mem d x end.

(** Nothing has been woken. *)
Definition quiet (b b' : Board) : Prop := lpq b' = lpq b /\ susps b' = susps b /\ potential (cells b') = potential (cells b).

Lemma small_int_after r v n b d (e' : FiniteDomain) ls lb la : inv r b -> cells b !! v = Some (CFD e' ls lb la) -> fd_mem e' n = true ->
  let b' := becomesSmallIntAndPropagate v n (setCell v (CFD d ls lb la) b) in
  adds r b b' (fun β => β v = n) /\ (potential (cells b') < potential (cells b))%nat /\ cells b' = <[v := CInt n]> (cells b).
Proof.
  intros Hi Hv Hn. pose proof (in_queue _ _ Hi) as Hq. cbv zeta. set (b1 := setCell v (CFD d ls lb la) b). unfold becomesSmallIntAndPropagate.
  assert (cells b1 !! v = Some (CFD d ls lb la)) as Hv1 by apply insert_lookup. rewrite Hv1.
  destruct (fd_propagate_spec r v fd_prop_singl pc_propagator b1 d ls lb la (setCell_queue r v _ b Hq) Hv1) as (c' & [Wc We Wq _ _ _] & Ha).
  apply (commit_int r b _ v (CFD e' ls lb la) c' n pc_propagator Hi Hv eq_refl); [transitivity b1; [apply setCell_evolves|done]|done|by rewrite Wc; cbn; rewrite insert_insert_eq| |by apply Ha; left].
  by intros ? [= <-].
Qed.

Lemma commit_dom r v b b' d (e' : FiniteDomain) ls lb la ls' lb' la' : inv r b -> cells b !! v = Some (CFD e' ls lb la) -> evolves b b' -> queue_ok r b' ->
  cells b' = <[v := CFD d ls' lb' la']> (cells b) -> wf d -> 1 < size d -> is_state d fd_bool = false -> (forall x, fd_mem d x = true -> fd_mem e' x = true) ->
  keeps b (CFD e' ls lb la) (CFD d ls' lb' la') ->
  adds r b b' (fun β => fd_mem d (β v) = true) /\ (potential (cells b') + Z.to_nat (size e') = potential (cells b) + Z.to_nat (size d))%nat.
Proof.
  intros Hi Hv He Hq Hc Hw Hs Hb Hsub Hk. pose proof (in_cells _ _ Hi v _ Hv) as (Hwe & Hse & _). pose proof (size_le e' d Hwe Hw Hsub).
  assert (replaces b b' v (CFD e' ls lb la) (CFD d ls' lb' la')) as Hrep by (split; [done|split; [by intros ? ? x [= <-] [= <-]; apply Hsub|done]]).
  destruct (replace_leads r b b' v _ _ Hi Hv eq_refl He Hq Hc Hrep) as [L S]. pose proof (potential_insert (cells b) v _ (CFD d ls' lb' la') Hv) as P.
  rewrite <- Hc in P. cbn [weight] in P. split; [|done]. split; [done|done|lia].
Qed.

Lemma commit_bool r v b b2 d (e' : FiniteDomain) ls lb la ls' lb' la' : inv r b -> cells b !! v = Some (CFD e' ls lb la) -> evolves b b2 -> queue_ok r b2 ->
  cells b2 = <[v := CFD d ls' lb' la']> (cells b) -> (forall x, x = 0 \/ x = 1 -> fd_mem e' x = true) -> keeps b (CFD e' ls lb la) (CFD d ls' lb' la') ->
  adds r b (becomesBool v b2) (fun β => β v = 0 \/ β v = 1) /\ (potential (cells (becomesBool v b2)) + Z.to_nat (size e') = potential (cells b) + 2)%nat /\
  exists l, cells (becomesBool v b2) = <[v := CBool l]> (cells b).
Proof.
  intros Hi Hv He Hq Hc Hsub Hk. pose proof (in_cells _ _ Hi v _ Hv) as (Hwe & Hse & _). unfold becomesBool. rewrite Hc, insert_lookup.
  set (l := appendTo lb' (appendTo ls' la')).
  destruct (commit r b b2 v (CFD e' ls lb la) (CFD d ls' lb' la') (CBool l) Hi Hv eq_refl He Hq Hc) as (A & P & C); [|cbn; lia|split; [done|split; [done|by exists l]]].
  split; [done|]. split; [intros ? ? x [= <-] [= <-] Hx; by apply Hsub, initBool_mem|].
  intros i Hin Ha. specialize (Hk i Hin Ha). cbn in Hk |- *. unfold l. rewrite !appendTo_elem. rewrite !elem_of_app in Hk. tauto.
Qed.

(** A domain that is told leaves [b'], with the cell of [v] alone changed. *)
Definition tells_domain r v d (b b' : Board) : Prop :=
  adds r b b' (fun β => fd_mem d (β v) = true) /\ told (cells b') v d /\ (exists c', cells b' = <[v := c']> (cells b)) /\
  (quiet b b' \/ (potential (cells b') < potential (cells b))%nat).

Lemma tells_int r v d b b' : wf d -> size d = 1 -> adds r b b' (fun β => β v = getSingleElem d) -> (potential (cells b') < potential (cells b))%nat ->
  cells b' = <[v := CInt (getSingleElem d)]> (cells b) -> tells_domain r v d b b'.
Proof.
  intros Hw E1 [L S P] Q Hc. split_and!; [|exists (CInt (getSingleElem d)); rewrite Hc; split; [apply insert_lookup|intros x; by apply singl_mem]|by exists (CInt (getSingleElem d))|by right].
  split; [done| |done]. intros β. by rewrite S, (singl_mem d _ Hw E1), Z.eqb_eq.
Qed.

(** A touched domain of several elements. *)
Lemma tell_narrower r v d b (e' : FiniteDomain) ls lb la st : inv r b -> cells b !! v = Some (CFD e' ls lb la) -> wf d -> 1 < size d -> (forall x, fd_mem d x = true -> fd_mem e' x = true) ->
  size d < size e' ->
  tells_domain r v d b (if is_state d fd_bool then becomesBoolVarAndPropagate v (setCell v (CFD d ls lb la) b) else OzFDVariable_propagate v st pc_propagator (setCell v (CFD d ls lb la) b)).
Proof.
  intros Hi Hv Hw Hs Hsub Hlt. pose proof (in_queue _ _ Hi) as Hq. set (b1 := setCell v (CFD d ls lb la) b).
  assert (cells b1 !! v = Some (CFD d ls lb la)) as Hv1 by apply insert_lookup. unfold becomesBoolVarAndPropagate.
  set (st' := if is_state d fd_bool then fd_prop_bounds else st).
  destruct (fd_propagate_spec r v st' pc_propagator b1 d ls lb la (setCell_queue r v _ b Hq) Hv1) as (c' & [Wc We Wq Wk Wp _] & _). unfold st' in *. clear st'.
  destruct c' as [| |d' ls' lb' la'|]; cbn in Wk; try done. subst d'. assert (cells b1 = <[v := CFD d ls lb la]> (cells b)) as Hc1 by done.
  rewrite Hc1, insert_insert_eq in Wc. destruct (is_state d fd_bool) eqn:Eb; (set (b2 := OzFDVariable_propagate v _ pc_propagator b1) in *);
    assert (evolves b b2) as He2 by (transitivity b1; [apply setCell_evolves|done]).
  - assert (size d = 2) as Hs2 by (unfold is_state in Eb; cbn in Eb; lia).
    destruct (commit_bool r v b b2 d e' ls lb la ls' lb' la' Hi Hv He2 Wq Wc) as ([L S P] & Q & l & C); [intros x Hx; by apply Hsub, (bool_mem d x Hw Eb)|exact Wp|].
    split_and!; [|exists (CBool l); rewrite C; split; [apply insert_lookup|]|by exists (CBool l)|right; lia].
    + split; [done| |done]. intros β. by rewrite S, (bool_mem d _ Hw Eb).
    + exists initBool. split; [done|]. intros x. apply Bool.eq_iff_eq_true. by rewrite initBool_mem, (bool_mem d x Hw Eb).
  - destruct (commit_dom r v b b2 d e' ls lb la ls' lb' la' Hi Hv He2 Wq Wc Hw Hs Eb Hsub Wp) as [A P].
    split_and!; [done|exists (CFD d ls' lb' la'); rewrite Wc; split; [apply insert_lookup|by exists d]|by eexists|right; lia].
Qed.

Lemma tell_spec r v d b c (e : FiniteDomain) : inv r b -> cells b !! v = Some c -> cell_domain c = Some e -> wf d -> 0 < size d -> (forall x, fd_mem d x = true -> fd_mem e x = true) ->
  tells_domain r v d b (tell v d b).
Proof.
  intros Hi Hv Hd Hw Hs Hsub. pose proof (in_queue _ _ Hi) as Hq. pose proof (in_cells _ _ Hi v c Hv) as Hok. unfold tell. rewrite Hv.
  destruct c as [| |e' ls lb la|la]; try done; cbn in Hd; injection Hd as <-.
  - destruct Hok as (Hwe & Hse & Hbe). destruct (Z.ltb_spec (size d) (size e')) as [Hlt|Hge]; cbn [negb].
    + rewrite is_singl. destruct (Z.eqb_spec (size d) 1) as [E1|E1]; [|apply (tell_narrower r v d b e'); try done; lia].
      destruct (small_int_after r v (getSingleElem d) b d e' ls lb la Hi Hv) as (A & P & C); [apply Hsub; by rewrite singl_mem, Z.eqb_refl|by apply tells_int].
    + pose proof (sub_full e' d Hwe Hw Hsub ltac:(lia)) as Hx. destruct (same_members e' d Hwe Hw ltac:(lia) Hs Hx) as (S1 & S2 & S3).
      destruct (commit_dom r v b (setCell v (CFD d ls lb la) b) d e' ls lb la ls lb la Hi Hv) as [A P];
        [apply setCell_evolves|by apply setCell_queue|done|done|lia|unfold is_state in Hbe |- *; cbn in Hbe |- *; by rewrite S1, S2, S3|done|by intros i|].
      split_and!; [done|exists (CFD d ls lb la); split; [apply insert_lookup|by exists d]|by eexists|left; split_and!; [done|done|lia]].
  - pose proof (size_le initBool d initBool_wf Hw Hsub) as Hle. destruct (Z.ltb_spec (size d) 2) as [Hlt|Hge]; cbn [negb].
    + destruct (small_int_spec r v (getSingleElem d) b (CBool la) Hi Hv eq_refl) as (A & P & C).
      { intros ? [= <-]. apply Hsub. rewrite singl_mem, Z.eqb_refl; [done|done|lia]. }
      apply tells_int; [done|lia|done..].
    + pose proof (sub_full initBool d initBool_wf Hw Hsub) as Hx. change (size initBool) with 2 in Hx. specialize (Hx ltac:(lia)). split_and!.
      * apply adds_refl; [done|]. intros β Hb. specialize (Hb v _ Hv). cbn in Hb. rewrite Hx. by apply initBool_mem.
      * exists (CBool la). split; [done|]. exists initBool. split; [done|]. intros x. by rewrite Hx.
      * exists (CBool la). by apply same_cells.
      * by left.
Qed.

(** ** Unification *)

(** All propagators of [v] have been woken by a unification. *)
Record stirred r v c (b b' : Board) : Prop := {
  sd_adds : adds r b b' (fun _ => True);
  sd_potential : potential (cells b') = potential (cells b);
  sd_cell : exists c', cells b' = <[v := c']> (cells b) /\ same_kind c c' /\ all_awake pc_cv_unif b' c'
}.

Lemma woke_stirred r v c c' b b' : inv r b -> cells b !! v = Some c -> woke r v c c' b b' -> all_awake pc_cv_unif b' c -> stirred r v c b b'.
Proof.
  intros Hi Hv Hw Ha. split; [by apply (woke_adds r v c c')|by apply (woke_leads r v c c' b b' Hi Hv Hw)|]. exists c'. destruct Hw as [Wc _ _ Wk _ Ws].
  split; [done|]. split; [done|]. intros i Hin. by apply Ha, Ws.
Qed.

Lemma stir r v b c : inv r b -> cells b !! v = Some c -> free_cell c = true -> stirred r v c b (propagateUnify v b).
Proof. intros Hi Hv Hf. destruct (propagateUnify_spec r v b c (in_queue _ _ Hi) Hv Hf) as (c' & Hw & Ha). by apply (woke_stirred r v c c'). Qed.

Lemma stir_fd r v st b d ls lb la : inv r b -> cells b !! v = Some (CFD d ls lb la) -> stirred r v (CFD d ls lb la) b (OzFDVariable_propagate v st pc_cv_unif b).
Proof.
  intros Hi Hv. destruct (fd_propagate_spec r v st pc_cv_unif b d ls lb la (in_queue _ _ Hi) Hv) as (c' & Hw & Ha).
  apply (woke_stirred r v _ c'); [done|done|done|]. apply Ha. by right.
Qed.

Lemma all_awake_evolves e b b' c : evolves b b' -> all_awake e b c -> all_awake e b' c.
Proof. intros He Ha i Hi. apply (awake_evolves e b); [done|by apply Ha]. Qed.

(** A cell of the same kind with at least the suspensions. *)
Lemma grow r v c c' b : inv r b -> cells b !! v = Some c -> same_kind c c' -> keeps b c c' ->
  adds r b (setCell v c' b) (fun _ => True) /\ potential (cells (setCell v c' b)) = potential (cells b).
Proof.
  intros Hi Hv Hk Hkeep. destruct (same_kind_free c c' Hk) as (Hf' & Hd & Hw). assert (free_cell c = true) as Hf by (destruct c, c'; done).
  assert (replaces b b v c c') as Hrep.
  { pose proof (in_cells _ _ Hi v c Hv) as Hok. destruct c, c'; try done; cbn in Hk |- *; subst; (split; [done|]; split; [|done]); by intros d1 d2 x [= <-] [= <-]. }
  destruct (commit r b b v c c c' Hi Hv Hf) as ([L S P] & Q & C); [done|apply Hi|by apply same_cells|done|lia|]. split; [|lia]. split; [done| |done].
  intros β. rewrite S. split; [tauto|]. intros [Hb _]. split; [done|]. specialize (Hb v c Hv). by destruct c, c'; try done; cbn in *; subst.
Qed.

Definition relinkable c c' : bool := match c, c' with CBool _, CFD _ _ _ _ => false | _, _ => true end.

Lemma relink_spec r from to cf ct b : inv r b -> cells b !! from = Some cf -> cells b !! to = Some ct -> free_cell cf = true -> free_cell ct = true -> relinkable cf ct = true ->
  exists ct', relinkSuspListTo from to b = setCell to ct' b /\ same_kind ct ct' /\ (forall i, i ∈ cell_lists cf \/ i ∈ cell_lists ct -> i ∈ cell_lists ct').
Proof.
  intros Hi Hf Ht Ff Ft Hr. unfold relinkSuspListTo. rewrite Hf, Ht. destruct cf as [| |d ls lb la|la], ct as [| |d' ls' lb' la'|la']; try done; eexists; (split; [done|]; split; [done|]);
    intros i; cbn; rewrite ?elem_of_app, ?appendTo_elem; tauto.
Qed.

(** [from] is bound to [to], whose domain is within its own. *)
Lemma relink_bind_spec r from to cf ct b : inv r b -> cells b !! from = Some cf -> cells b !! to = Some ct -> free_cell cf = true -> free_cell ct = true -> relinkable cf ct = true ->
  from < to -> narrower cf ct -> all_awake pc_cv_unif b cf ->
  adds r b (bindLocalVar from to (relinkSuspListTo from to b)) (fun β => β from = β to) /\
  (potential (cells (bindLocalVar from to (relinkSuspListTo from to b))) < potential (cells b))%nat.
Proof.
  intros Hi Hf Ht Ff Ft Hr Hlt Hn Ha. destruct (relink_spec r from to cf ct b Hi Hf Ht Ff Ft Hr) as (ct' & -> & Hk & Hl). set (b1 := setCell to ct' b).
  destruct (grow r to ct ct' b Hi Ht Hk) as [A1 P1]; [by intros i Hin _; apply Hl; right|]. pose proof (ld_inv _ _ _ (ad_leads _ _ _ _ A1)) as Hi1.
  destruct (same_kind_free ct ct' Hk) as (Ft' & Hd & _).
  assert (cells b1 !! from = Some cf) as Hf1 by (cbn; rewrite lookup_insert_ne by lia; done).
  destruct (commit r b1 b1 from cf cf (CRef to) Hi1 Hf1 Ff) as (A2 & P2 & _); [done|apply Hi1|by apply same_cells| |cbn; lia|].
  { exists ct', pc_cv_unif. split; [done|]. split; [apply insert_lookup|]. split; [done|]. split; [unfold narrower; by rewrite Hd|].
    split; [by intros i Hin _; apply Hl; left|]. split; [done|exact Ha]. }
  pose proof (weight_free r b from cf Hi Hf Ff). change (weight (CRef to)) with 0%nat in P2. change (cells b1) with (<[to := ct']> (cells b)) in P2. cbn in P1. fold b1 in A1.
  split; [|unfold bindLocalVar, b1; cbn; cbn in P2; lia].
  apply (adds_trans r b b1 _ (fun _ => True) (fun β => β from = β to)); [done|done|done|tauto].
Qed.

(** Both variables become [n]. *)
Lemma both_int r v w n cv cw b : inv r b -> v <> w -> cells b !! v = Some cv -> cells b !! w = Some cw -> free_cell cv = true -> free_cell cw = true ->
  (forall d, cell_domain cv = Some d -> fd_mem d n = true) -> (forall d, cell_domain cw = Some d -> fd_mem d n = true) -> all_awake pc_cv_unif b cv -> all_awake pc_cv_unif b cw ->
  adds r b (bindLocalVarToValue w n (bindLocalVarToValue v n b)) (fun β => β v = n /\ β w = n) /\
  (potential (cells (bindLocalVarToValue w n (bindLocalVarToValue v n b))) < potential (cells b))%nat.
Proof.
  intros Hi Hne Hv Hw Fv Fw Nv Nw Av Aw. unfold bindLocalVarToValue.
  destruct (commit_int r b b v cv cv n pc_cv_unif Hi Hv Fv) as (A1 & P1 & C1); [done|apply Hi|by apply same_cells|done|done|]. set (b1 := setCell v (CInt n) b) in *.
  pose proof (ld_inv _ _ _ (ad_leads _ _ _ _ A1)) as Hi1. assert (cells b1 !! w = Some cw) as Hw1 by (rewrite C1, lookup_insert_ne; done).
  destruct (commit_int r b1 b1 w cw cw n pc_cv_unif Hi1 Hw1 Fw) as (A2 & P2 & _); [done|apply Hi1|by apply same_cells|done|done|].
  split; [|lia]. apply (adds_trans r b b1 _ (fun β => β v = n) (fun β => β w = n)); done.
Qed.

(** After both variables have been woken, in either order. *)
Lemma stir_both r v w cv cw b b1 b2 : inv r b -> v <> w -> cells b !! w = Some cw -> stirred r v cv b b1 -> stirred r w cw b1 b2 ->
  adds r b b2 (fun _ => True) /\ potential (cells b2) = potential (cells b) /\
  exists cv' cw', cells b2 !! v = Some cv' /\ cells b2 !! w = Some cw' /\ same_kind cv cv' /\ same_kind cw cw' /\ all_awake pc_cv_unif b2 cv' /\ all_awake pc_cv_unif b2 cw'.
Proof.
  intros Hi Hne Hw [A1 P1 (cv' & C1 & K1 & W1)] [A2 P2 (cw' & C2 & K2 & W2)]. split; [by apply (adds_trans r b b1 b2 (fun _ => True) (fun _ => True))|]. split; [congruence|].
  exists cv', cw'. rewrite C2, C1. split; [rewrite lookup_insert_ne by done; apply insert_lookup|]. split; [apply insert_lookup|]. split_and!; try done.
  apply (all_awake_evolves _ b1); [apply A2|done].
Qed.

(** What a unification promises. *)
Definition unifies r v w (b : Board) (o : option (option Board)) : Prop :=
  match o with
  | Some (Some b') => adds r b b' (fun β => β v = β w) /\ (potential (cells b') < potential (cells b))%nat
  | Some None => forall β, cells_sol (cells b) β -> β v <> β w
  | None => False
  end.

Lemma unifies_sym r v w b o : unifies r v w b o -> unifies r w v b o.
Proof.
  destruct o as [[b'|]|]; cbn; [|intros Hs β Hb E; by apply (Hs β Hb)|done]. intros [[L S P] Q]. split; [|done]. split; [done| |done].
  intros β. rewrite S. split; intros [? E]; by rewrite E.
Qed.

Lemma inter_mem d d' : wf d -> wf d' -> exists i, op_and d d' = Some i /\ wf i /\ forall x, fd_mem i x = fd_mem d x && fd_mem d' x.
Proof using Hg. intros Hw Hw'. destruct (op_and_repr Hg d d' _ _ (wf_repr d Hw) (wf_repr d' Hw')) as (i & Hi & Hwi & Hmi). by exists i. Qed.

(** The domain of [to] is cut down before it is bound to. *)
Lemma cut_domain r to d (e : FiniteDomain) ls lb la b : inv r b -> cells b !! to = Some (CFD e ls lb la) -> wf d -> 1 < size d -> (forall x, fd_mem d x = true -> fd_mem e x = true) ->
  let b' := if is_state d fd_bool then becomesBool to b else setDom to d b in
  adds r b b' (fun β => fd_mem d (β to) = true) /\ exists c, cells b' = <[to := c]> (cells b) /\ free_cell c = true /\ forall d' x, cell_domain c = Some d' -> fd_mem d' x = fd_mem d x.
Proof using Hg.
  intros Hi Hv Hw Hs Hsub. cbv zeta. destruct (is_state d fd_bool) eqn:Eb.
  - destruct (commit_bool r to b b e e ls lb la ls lb la Hi Hv) as ([L S P] & _ & l & C); [done|apply Hi|by apply same_cells|intros x Hx; by apply Hsub, (bool_mem d x Hw Eb)|by intros i|].
    split; [split; [done| |done]|exists (CBool l); split; [done|split; [done|]]].
    + intros β. by rewrite S, (bool_mem d _ Hw Eb).
    + intros d' x [= <-]. apply Bool.eq_iff_eq_true. by rewrite initBool_mem, (bool_mem d x Hw Eb).
  - unfold setDom. rewrite Hv. destruct (commit_dom r to b (setCell to (CFD d ls lb la) b) d e ls lb la ls lb la Hi Hv) as [A _];
      [apply setCell_evolves|apply setCell_queue, Hi|done|done|done|done|done|by intros i|].
    split; [done|]. exists (CFD d ls lb la). split; [done|]. split; [done|]. by intros d' x [= <-].
Qed.

Lemma bind_fd_spec r from to d df lsf lbf laf dt lst lbt lat b : inv r b -> from < to -> cells b !! from = Some (CFD df lsf lbf laf) -> cells b !! to = Some (CFD dt lst lbt lat) ->
  wf d -> 1 < size d -> (forall x, fd_mem d x = fd_mem df x && fd_mem dt x) -> unifies r from to b (Some (Some (bind_fd from to d b))).
Proof using Hg.
  intros Hi Hlt Hf Ht Hw Hs Hd. unfold bind_fd.
  destruct (cut_domain r to d dt lst lbt lat b Hi Ht Hw Hs) as (A1 & c & C1 & Fc & Hc); [intros x; rewrite Hd; by destruct (fd_mem df x)|].
  set (b1 := if is_state d fd_bool then becomesBool to b else setDom to d b) in *. pose proof (ld_inv _ _ _ (ad_leads _ _ _ _ A1)) as Hi1.
  assert (cells b1 !! from = Some (CFD df lsf lbf laf)) as Hf1 by (rewrite C1, lookup_insert_ne by lia; done).
  assert (cells b1 !! to = Some c) as Ht1 by (rewrite C1; apply insert_lookup).
  pose proof (stir r from b1 _ Hi1 Hf1 eq_refl) as S1. pose proof (ld_inv _ _ _ (ad_leads _ _ _ _ (sd_adds _ _ _ _ _ S1))) as Hi2.
  assert (cells (propagateUnify from b1) !! to = Some c) as Ht2 by (destruct S1 as [_ _ (c' & -> & _)]; rewrite lookup_insert_ne by lia; done).
  pose proof (stir r to _ c Hi2 Ht2 Fc) as S2. destruct (stir_both r from to _ c b1 _ _ Hi1 ltac:(lia) Ht1 S1 S2) as (A3 & P3 & cf & ct & Hf3 & Ht3 & Kf & Kt & Wf & Wt).
  pose proof (ld_inv _ _ _ (ad_leads _ _ _ _ A3)) as Hi3. destruct (same_kind_free _ _ Kf) as (Ff & Df & _), (same_kind_free _ _ Kt) as (Ft & Dt & _).
  destruct (relink_bind_spec r from to cf ct _ Hi3 Hf3 Ht3 Ff Ft) as [A4 P4]; [by destruct cf|done| |done|].
  { intros d1 d2 x. rewrite Df, Dt. intros [= <-] Hd2. rewrite (Hc d2 x Hd2), Hd. by destruct (fd_mem df x). }
  split; [|pose proof (ad_potential _ _ _ _ A1); lia].
  apply (adds_trans r b b1 _ (fun β => fd_mem d (β to) = true) (fun β => β from = β to)); [done|done|apply (adds_trans r b1 _ _ (fun _ => True) (fun β => β from = β to) _ Hi1 A3 A4); tauto|].
  intros β Hb. split; [tauto|]. intros E. split; [|done]. pose proof (Hb from _ Hf) as Sf. pose proof (Hb to _ Ht) as St. cbn in Sf, St. rewrite Hd, St, <- E, Sf. done.
Qed.

Lemma fd_unify_spec r left right dl lsl lbl lal dr lsr lbr lar b : inv r b -> left <> right -> cells b !! left = Some (CFD dl lsl lbl lal) -> cells b !! right = Some (CFD dr lsr lbr lar) ->
  unifies r left right b (OzFDVariable_unify left right b).
Proof using Hg.
  intros Hi Hne Hl Hr. unfold OzFDVariable_unify. rewrite Hl, Hr. destruct (in_cells _ _ Hi left _ Hl) as (Wl & _ & _), (in_cells _ _ Hi right _ Hr) as (Wr & _ & _).
  destruct (inter_mem dl dr Wl Wr) as (d & -> & Hw & Hd). ored. rewrite is_empty, is_singl. destruct (Z.eqb_spec (size d) 0) as [E0|E0].
  - intros β Hb E. pose proof (Hb left _ Hl) as Sl. pose proof (Hb right _ Hr) as Sr. cbn in Sl, Sr. pose proof (size_zero d Hw E0 (β right)) as Hz. by rewrite Hd, Sr, <- E, Sl in Hz.
  - assert (0 < size d) as Hpos by (destruct Hw as [? _]; lia). destruct (Z.eqb_spec (size d) 1) as [E1|E1].
    + pose proof (singl_mem d (getSingleElem d) Hw E1) as Hn. rewrite Z.eqb_refl, Hd in Hn. apply andb_true_iff in Hn as [Nl Nr].
      pose proof (stir r right b _ Hi Hr eq_refl) as S1. pose proof (ld_inv _ _ _ (ad_leads _ _ _ _ (sd_adds _ _ _ _ _ S1))) as Hi1.
      assert (cells (propagateUnify right b) !! left = Some (CFD dl lsl lbl lal)) as Hl1 by (destruct S1 as [_ _ (c' & -> & _)]; rewrite lookup_insert_ne by done; done).
      pose proof (stir r left _ _ Hi1 Hl1 eq_refl) as S2. destruct (stir_both r right left _ _ b _ _ Hi ltac:(done) Hl S1 S2) as (A3 & P3 & cr & cl & Hr3 & Hl3 & Kr & Kl & Wr3 & Wl3).
      pose proof (ld_inv _ _ _ (ad_leads _ _ _ _ A3)) as Hi3. destruct (same_kind_free _ _ Kr) as (Fr & Dr & _), (same_kind_free _ _ Kl) as (Fl & Dl & _).
      destruct (both_int r left right (getSingleElem d) cl cr _ Hi3 Hne Hl3 Hr3 Fl Fr) as [A4 P4]; [by rewrite Dl; intros ? [= <-]|by rewrite Dr; intros ? [= <-]|done|done|].
      split; [|lia]. apply (adds_trans r b _ _ (fun _ => True) (fun β => β left = getSingleElem d /\ β right = getSingleElem d) _ Hi A3 A4).
      intros β Hb. split; [intros (_ & -> & ->); done|]. intros E. split; [done|]. pose proof (Hb left _ Hl) as Sl. pose proof (Hb right _ Hr) as Sr. cbn in Sl, Sr.
      assert (fd_mem d (β left) = true) as Hm by (rewrite Hd, Sl, E, Sr; done). rewrite (singl_mem d _ Hw E1) in Hm. lia.
    + unfold heapNewer. destruct (Z.ltb_spec left right) as [Hlt|Hge].
      * eapply bind_fd_spec; try done. lia.
      * apply unifies_sym. eapply bind_fd_spec; try done; [lia|lia|]. intros x. rewrite Hd. apply andb_comm.
Qed.

Lemma inv_of r b b' X : adds r b b' X -> inv r b'.
Proof. intros A. apply A. Qed.

Lemma adds_after r b1 b2 b3 X : inv r b1 -> adds r b1 b2 (fun _ => True) -> adds r b2 b3 X -> adds r b1 b3 X.
Proof. intros Hi A1 A2. apply (adds_trans r b1 b2 b3 (fun _ => True) X X Hi A1 A2). tauto. Qed.

Lemma stirred_other r v c b b' w cw : stirred r v c b b' -> v <> w -> cells b !! w = Some cw -> cells b' !! w = Some cw.
Proof. intros [_ _ (c' & -> & _)] Hne Hw. by rewrite lookup_insert_ne. Qed.

Lemma bool_bool_spec r left right la la' b : inv r b -> left <> right -> cells b !! left = Some (CBool la) -> cells b !! right = Some (CBool la') ->
  unifies r left right b (OzBoolVariable_unify left right b).
Proof using Hg.
  intros Hi Hne Hl Hr. unfold OzBoolVariable_unify, heapNewer. rewrite Hr.
  assert (forall v w lv lw, v < w -> cells b !! v = Some (CBool lv) -> cells b !! w = Some (CBool lw) ->
    unifies r v w b (Some (Some (bindLocalVar v w (relinkSuspListTo v w (propagateUnify w (propagateUnify v b))))))) as Hgen.
  { intros v w lv lw Hlt Hv Hw. pose proof (stir r v b _ Hi Hv eq_refl) as S1. pose proof (inv_of _ _ _ _ (sd_adds _ _ _ _ _ S1)) as Hi1.
    pose proof (stirred_other _ _ _ _ _ w _ S1 ltac:(lia) Hw) as Hw1. pose proof (stir r w _ _ Hi1 Hw1 eq_refl) as S2.
    destruct (stir_both r v w _ _ b _ _ Hi ltac:(lia) Hw S1 S2) as (A3 & P3 & cv & cw & Hv3 & Hw3 & Kv & Kw & Wv & _).
    destruct cv as [| | |lv3], cw as [| | |lw3]; cbn in Kv, Kw; try done.
    destruct (relink_bind_spec r v w (CBool lv3) (CBool lw3) _ (inv_of _ _ _ _ A3) Hv3 Hw3) as [A4 P4]; [done..|by intros ? ? x [= <-] [= <-]|done|].
    split; [|lia]. by apply (adds_after r b _ _ _ Hi A3 A4). }
  destruct (Z.ltb_spec left right) as [Hlt|Hge]; [by apply (Hgen left right la la')|]. apply unifies_sym, (Hgen right left la' la); [lia|done|done].
Qed.

Lemma bool_fd_int r left right la d ls lb la' b n : inv r b -> left <> right -> cells b !! left = Some (CBool la) -> cells b !! right = Some (CFD d ls lb la') ->
  (forall x, fd_mem d x = true -> x = 0 \/ x = 1 -> x = n) -> fd_mem d n = true -> n = 0 \/ n = 1 ->
  unifies r left right b (Some (Some (bindLocalVarToValue right n (bindLocalVarToValue left n (propagateUnify left (OzFDVariable_propagate right fd_prop_singl pc_cv_unif b)))))).
Proof using Hg.
  intros Hi Hne Hl Hr Hn Hd Hb. pose proof (stir_fd r right fd_prop_singl b d ls lb la' Hi Hr) as S1. pose proof (inv_of _ _ _ _ (sd_adds _ _ _ _ _ S1)) as Hi1.
  pose proof (stirred_other _ _ _ _ _ left _ S1 ltac:(done) Hl) as Hl1. pose proof (stir r left _ _ Hi1 Hl1 eq_refl) as S2.
  destruct (stir_both r right left _ _ b _ _ Hi ltac:(done) Hl S1 S2) as (A3 & P3 & cr & cl & Hr3 & Hl3 & Kr & Kl & Wr & Wl).
  destruct (same_kind_free _ _ Kr) as (Fr & Dr & _), (same_kind_free _ _ Kl) as (Fl & Dl & _).
  destruct (both_int r left right n cl cr _ (inv_of _ _ _ _ A3) Hne Hl3 Hr3 Fl Fr) as [A4 P4]; [rewrite Dl; intros ? [= <-]; by apply initBool_mem|by rewrite Dr; intros ? [= <-]|done|done|].
  split; [|lia]. apply (adds_trans r b _ _ (fun _ => True) (fun β => β left = n /\ β right = n) _ Hi A3 A4).
  intros β Hs. split; [intros (_ & -> & ->); done|]. intros E. split; [done|]. pose proof (Hs left _ Hl) as Sl. pose proof (Hs right _ Hr) as Sr. cbn in Sl, Sr.
  rewrite <- E in Sr |- *. split; by apply Hn.
Qed.

Lemma bool_to_fd r left right la d ls lb la' b : inv r b -> left < right -> cells b !! left = Some (CBool la) -> cells b !! right = Some (CFD d ls lb la') ->
  fd_mem d 0 = true -> fd_mem d 1 = true ->
  unifies r left right b (Some (Some (bindLocalVar left right (relinkSuspListTo left right (becomesBool right (OzFDVariable_propagate right fd_prop_bounds pc_cv_unif (propagateUnify left b))))))).
Proof using Hg.
  intros Hi Hlt Hl Hr H0 H1. pose proof (stir r left b _ Hi Hl eq_refl) as S1. pose proof (inv_of _ _ _ _ (sd_adds _ _ _ _ _ S1)) as Hi1.
  pose proof (stirred_other _ _ _ _ _ right _ S1 ltac:(lia) Hr) as Hr1. pose proof (stir_fd r right fd_prop_bounds _ d ls lb la' Hi1 Hr1) as S2.
  destruct (stir_both r left right _ _ b _ _ Hi ltac:(lia) Hr S1 S2) as (A3 & P3 & cl & cr & Hl3 & Hr3 & Kl & Kr & Wl & _).
  set (b3 := OzFDVariable_propagate right fd_prop_bounds pc_cv_unif (propagateUnify left b)) in *. pose proof (inv_of _ _ _ _ A3) as Hi3.
  destruct cl as [| | |l3], cr as [| |d3 ls3 lb3 la3|]; cbn in Kl, Kr; try done. subst d3.
  destruct (commit_bool r right b3 b3 d d ls3 lb3 la3 ls3 lb3 la3 Hi3 Hr3) as (A4 & P4 & l4 & C4); [done|apply Hi3|by apply same_cells|by intros x [->| ->]|by intros i|].
  assert (cells (becomesBool right b3) !! left = Some (CBool l3)) as Hl4 by (rewrite C4, lookup_insert_ne; [done|lia]).
  assert (cells (becomesBool right b3) !! right = Some (CBool l4)) as Hr4 by (rewrite C4; apply insert_lookup).
  destruct (relink_bind_spec r left right (CBool l3) (CBool l4) _ (inv_of _ _ _ _ A4) Hl4 Hr4) as [A5 P5]; [done..|by intros ? ? x [= <-] [= <-]|apply (all_awake_evolves _ b3); [apply A4|done]|].
  split; [|pose proof (ad_potential _ _ _ _ A4); lia].
  apply (adds_after r b b3 _ _ Hi A3).
  apply (adds_trans r b3 _ _ (fun β => β right = 0 \/ β right = 1) (fun β => β left = β right) _ Hi3 A4 A5).
  intros β Hs. split; [tauto|]. intros E. split; [|done]. rewrite <- E. apply (Hs left _ Hl3).
Qed.

Lemma fd_to_bool r left right la d ls lb la' b : inv r b -> right < left -> cells b !! left = Some (CBool la) -> cells b !! right = Some (CFD d ls lb la') ->
  fd_mem d 0 = true -> fd_mem d 1 = true ->
  unifies r left right b (Some (Some (bindLocalVar right left (relinkSuspListTo right left (propagateUnify left (OzFDVariable_propagate right fd_prop_bounds pc_cv_unif b)))))).
Proof using Hg.
  intros Hi Hlt Hl Hr H0 H1. pose proof (stir_fd r right fd_prop_bounds b d ls lb la' Hi Hr) as S1. pose proof (inv_of _ _ _ _ (sd_adds _ _ _ _ _ S1)) as Hi1.
  pose proof (stirred_other _ _ _ _ _ left _ S1 ltac:(lia) Hl) as Hl1. pose proof (stir r left _ _ Hi1 Hl1 eq_refl) as S2.
  destruct (stir_both r right left _ _ b _ _ Hi ltac:(lia) Hl S1 S2) as (A3 & P3 & cr & cl & Hr3 & Hl3 & Kr & Kl & Wr & _).
  destruct cl as [| | |l3], cr as [| |d3 ls3 lb3 la3|]; cbn in Kl, Kr; try done. subst d3.
  destruct (relink_bind_spec r right left (CFD d ls3 lb3 la3) (CBool l3) _ (inv_of _ _ _ _ A3) Hr3 Hl3) as [A4 P4]; [done..| |done|].
  { intros ? ? x [= <-] [= <-] [->| ->]%initBool_mem; done. }
  apply unifies_sym. split; [|lia]. by apply (adds_after r b _ _ _ Hi A3 A4).
Qed.

Lemma bool_unify_spec r left right la c b : inv r b -> left <> right -> cells b !! left = Some (CBool la) -> cells b !! right = Some c -> free_cell c = true ->
  unifies r left right b (OzBoolVariable_unify left right b).
Proof using Hg.
  intros Hi Hne Hl Hr Hf. destruct c as [| |d ls lb la'|la']; try done; [|by apply (bool_bool_spec r left right la la')].
  destruct (in_cells _ _ Hi right _ Hr) as (Hw & _ & _). unfold OzBoolVariable_unify, heapNewer. rewrite Hr, (intersectWithBool_repr d _ (wf_repr d Hw)). ored.
  destruct (fd_mem d 0) eqn:E0, (fd_mem d 1) eqn:E1; cbn [Z.eqb negb Z.opp Pos.eqb].
  - destruct (Z.ltb_spec left right) as [Hlt|Hge]; [by apply (bool_to_fd r left right la d ls lb la')|]. apply (fd_to_bool r left right la d ls lb la'); try done. lia.
  - apply (bool_fd_int r left right la d ls lb la'); try done; [|by left]. intros x Hx [->| ->]; congruence.
  - apply (bool_fd_int r left right la d ls lb la'); try done; [|by right]. intros x Hx [->| ->]; congruence.
  - intros β Hs E. pose proof (Hs left _ Hl) as Sl. pose proof (Hs right _ Hr) as Sr. cbn in Sl, Sr. rewrite <- E in Sr. destruct Sl as [Sl|Sl]; rewrite Sl in Sr; congruence.
Qed.

Lemma unify_spec r t1 t2 b : inv r b -> known (cells b) t1 -> known (cells b) t2 ->
  match oz_unify t1 t2 b with
  | Some (Some b') => adds r b b' (fun β => value β t1 = value β t2) /\ (b' = b \/ (potential (cells b') < potential (cells b))%nat)
  | Some None => forall β, cells_sol (cells b) β -> value β t1 <> value β t2
  | None => False
  end.
Proof using Hg.
  intros Hi H1 H2. pose proof (in_cells _ _ Hi) as Hm. pose proof (deref_root _ t1 Hm H1) as R1. pose proof (deref_root _ t2 Hm H2) as R2.
  assert (forall β, cells_sol (cells b) β -> value β (deref (cells b) t1) = value β t1 /\ value β (deref (cells b) t2) = value β t2) as Hval by (intros β Hs; split; by apply deref_value).
  unfold oz_unify. destruct (deref (cells b) t1) as [v|n], (deref (cells b) t2) as [w|k]; cbn in Hval.
  - destruct (Z.eqb_spec v w) as [->|Hne].
    + split; [|by left]. apply adds_refl; [done|]. intros β Hs. destruct (Hval β Hs). congruence.
    + destruct R1 as (cv & Hv & Fv), R2 as (cw & Hw & Fw). rewrite Hv, Hw.
      assert (forall o, unifies r v w b o -> match o with
        | Some (Some b') => adds r b b' (fun β => value β t1 = value β t2) /\ (b' = b \/ (potential (cells b') < potential (cells b))%nat)
        | Some None => forall β, cells_sol (cells b) β -> value β t1 <> value β t2
        | None => False end) as Hgen.
      { intros [[b'|]|]; cbn; [|intros Hu β Hs E; apply (Hu β Hs); destruct (Hval β Hs); congruence|done]. intros [[L S P] Q]. split; [|by right]. split; [done| |done].
        intros β. rewrite S. split; intros [Hs E]; (split; [done|]); destruct (Hval β Hs); congruence. }
      apply Hgen. destruct cv as [| |dv ? ? ?|], cw as [| |dw ? ? ?|]; try done.
      * by eapply fd_unify_spec.
      * apply unifies_sym. by eapply bool_unify_spec.
      * by eapply bool_unify_spec.
      * by eapply bool_unify_spec.
  - destruct R1 as (c & Hv & Fv). pose proof (bind_spec r v k b c Hi Hv Fv) as Hb. destruct (oz_var_bind v k b) as [[b'|]|]; [|intros β Hs E; apply (Hb β Hs); destruct (Hval β Hs); congruence|done].
    destruct Hb as [[L S P] Q]. split; [|by right]. split; [done| |done]. intros β. rewrite S. split; intros [Hs E]; (split; [done|]); destruct (Hval β Hs); congruence.
  - destruct R2 as (c & Hw & Fw). pose proof (bind_spec r w n b c Hi Hw Fw) as Hb. destruct (oz_var_bind w n b) as [[b'|]|]; [|intros β Hs E; apply (Hb β Hs); destruct (Hval β Hs); congruence|done].
    destruct Hb as [[L S P] Q]. split; [|by right]. split; [done| |done]. intros β. rewrite S. split; intros [Hs E]; (split; [done|]); destruct (Hval β Hs); congruence.
  - destruct (Z.eqb_spec n k) as [->|Hne]; [|intros β Hs E; destruct (Hval β Hs); congruence]. split; [|by left]. apply adds_refl; [done|]. intros β Hs. destruct (Hval β Hs). congruence.
Qed.

(** ** A variable that is constrained from outside *)

Lemma deref_fresh m v c t : cells_ok m -> cells_ok (<[v := c]> m) -> m !! v = None -> known m t -> deref (<[v := c]> m) t = deref m t.
Proof.
  intros Hm Hm' Hv. destruct t as [x|n]; [|by rewrite !deref_small]. revert x. apply (refs_ind m (fun x => deref (<[v := c]> m) (Var x) = deref m (Var x))); [done|].
  intros x k Hx IH. assert (<[v := c]> m !! x = Some k) as Hx' by (rewrite lookup_insert_ne; [done|congruence]). destruct k as [w|n|d ls lb la|la].
  - rewrite (deref_ref _ x w Hm' Hx'), (deref_ref m x w Hm Hx). by apply IH.
  - by rewrite (deref_int _ x n Hx'), (deref_int m x n Hx).
  - by rewrite (deref_free _ x _ Hx' eq_refl), (deref_free m x _ Hx eq_refl).
  - by rewrite (deref_free _ x _ Hx' eq_refl), (deref_free m x _ Hx eq_refl).
Qed.

Lemma deref_unknown m v : m !! v = None -> deref m (Var v) = Var v.
Proof. intros Hv. unfold deref. destruct (base.size m); cbn; by rewrite Hv. Qed.

(** The cell of a new variable. *)
Lemma fresh_leads r v c b : inv r b -> cells b !! v = None -> cell_ok (cells b) v c -> (forall w, c <> CRef w) ->
  leads r b (setCell v c b) /\ forall β, cells_sol (cells (setCell v c b)) β <-> cells_sol (cells b) β /\ cell_sat β v c.
Proof.
  intros Hi Hv Hc Href. pose proof (in_cells _ _ Hi) as Hm. pose proof (cells_ok_insert _ v c Hm Hc) as Hm'.
  assert (forall w k, cells b !! w = Some k -> <[v := c]> (cells b) !! w = Some k) as Hold by (intros w k Hw; rewrite lookup_insert_ne; [done|congruence]).
  split.
  - apply (change_leads r b _ (fun t => t)); [done|]. split; try done; [apply setCell_evolves|apply setCell_queue, Hi|..].
    + intros t. apply known_insert.
    + intros t. by apply deref_fresh.
    + intros x w d d' y Hd [= <-] Hd'. cbn in Hd, Hd'. destruct (cells b !! x) as [k|] eqn:Ex; [|done]. rewrite (Hold x k Ex) in Hd'. congruence.
    + intros x k w i Hx _ [= <-] Hin _. exists k. split; [by apply Hold|done].
  - intros β. split.
    + intros Hs. split; [|apply Hs, insert_lookup]. intros w k Hw. by apply Hs, Hold.
    + intros [Hs Hsat] w k. destruct (decide (v = w)) as [<-|Hne]; [cbn; rewrite lookup_insert_eq; by intros [= <-]|cbn; rewrite lookup_insert_ne by done; apply Hs].
Qed.

(** What telling [t] a domain promises. *)
Definition constrains r t d (b : Board) (o : option (option Board)) : Prop :=
  match o with
  | Some (Some b') => leads r b b' /\ (forall β, cells_sol (cells b') β <-> cells_sol (cells b) β /\ fd_mem d (value β t) = true) /\ (forall v, t = Var v -> is_Some (cells b' !! v))
  | Some None => forall β, cells_sol (cells b) β -> fd_mem d (value β t) = false
  | None => False
  end.

Lemma constrain_fresh r v d b : inv r b -> cells b !! v = None -> wf d -> 0 < size d ->
  constrains r (Var v) d b (if size d =? 1 then Some (Some (bindLocalVarToValue v (getSingleElem d) b))
                            else Some (Some (setCell v (if is_state d fd_bool then CBool [] else CFD d [] [] []) b))).
Proof.
  intros Hi Hv Hw Hs. destruct (Z.eqb_spec (size d) 1) as [E1|E1].
  - assert (fd_mem d (getSingleElem d) = true) as Hn by (by rewrite singl_mem, Z.eqb_refl).
    destruct (fresh_leads r v (CInt (getSingleElem d)) b Hi Hv) as [L S]; [by apply (repr_bounds _ _ _ (wf_repr d Hw))|done|]. split; [done|]. split.
    + intros β. unfold bindLocalVarToValue. rewrite S. cbn [cell_sat value]. by rewrite (singl_mem d _ Hw E1), Z.eqb_eq.
    + intros x [= <-]. cbn. rewrite lookup_insert_eq. by eexists.
  - set (c := if is_state d fd_bool then _ else _). destruct (fresh_leads r v c b Hi Hv) as [L S].
    { unfold c. destruct (is_state d fd_bool) eqn:Eb; cbn; [done|]. split; [done|]. split; [lia|done]. }
    { unfold c. by destruct (is_state d fd_bool). }
    split; [done|]. split.
    + intros β. rewrite S. unfold c. destruct (is_state d fd_bool) eqn:Eb; cbn [cell_sat value]; [by rewrite (bool_mem d _ Hw Eb)|done].
    + intros x [= <-]. cbn. rewrite lookup_insert_eq. by eexists.
Qed.

(** The outcomes for a variable that already has a domain. *)
Lemma constrain_fd r v d b dom (e : FiniteDomain) ls lb la : inv r b -> cells b !! v = Some (CFD e ls lb la) -> wf dom -> (forall x, fd_mem dom x = fd_mem e x && fd_mem d x) ->
  constrains r (Var v) d b
    (if is_state dom fd_empty then Some None
     else if size dom =? size e then Some (Some b)
     else if is_state dom fd_singl then Some (Some (becomesSmallIntAndPropagate v (getSingleElem dom) (setCell v (CFD dom ls lb la) b)))
     else if is_state dom fd_bool then Some (Some (becomesBoolVarAndPropagate v b))
     else Some (Some (setDom v dom (OzFDVariable_propagate v fd_prop_bounds pc_propagator b)))).
Proof using Hg.
  intros Hi Hv Hw Hdom. pose proof (in_queue _ _ Hi) as Hq. destruct (in_cells _ _ Hi v _ Hv) as (Hwe & Hse & _). rewrite is_empty, is_singl.
  assert (forall x, fd_mem dom x = true -> fd_mem e x = true) as Hsub by (intros x; rewrite Hdom; by destruct (fd_mem e x)).
  assert (forall β, cells_sol (cells b) β -> fd_mem dom (β v) = fd_mem d (β v)) as Hval by (intros β Hb; specialize (Hb v _ Hv); cbn in Hb; by rewrite Hdom, Hb).
  assert (forall b', adds r b b' (fun β => fd_mem dom (β v) = true) -> constrains r (Var v) d b (Some (Some b'))) as Hgen.
  { intros b' [L S P]. split; [done|]. split; [|intros x [= <-]; by apply (ld_known _ _ _ L (Var v)); eexists].
    intros β. rewrite S. cbn [value]. split; intros [Hb Hx]; (split; [done|]); specialize (Hval β Hb); congruence. }
  destruct (Z.eqb_spec (size dom) 0) as [E0|E0]; [intros β Hb; cbn [value]; by rewrite <- Hval, (size_zero dom Hw E0)|].
  assert (0 < size dom) as Hpos by (destruct Hw as [? _]; lia). pose proof (size_le e dom Hwe Hw Hsub) as Hle.
  destruct (Z.eqb_spec (size dom) (size e)) as [Ee|Ee].
  - apply Hgen, adds_refl; [done|]. intros β Hb. specialize (Hb v _ Hv). cbn in Hb. by rewrite (sub_full e dom Hwe Hw Hsub ltac:(lia)).
  - destruct (Z.eqb_spec (size dom) 1) as [E1|E1].
    + destruct (small_int_after r v (getSingleElem dom) b dom e ls lb la Hi Hv) as ([L S P] & _ & _); [apply Hsub; by rewrite singl_mem, Z.eqb_refl|].
      apply Hgen. split; [done| |done]. intros β. by rewrite S, (singl_mem dom _ Hw E1), Z.eqb_eq.
    + destruct (fd_propagate_spec r v fd_prop_bounds pc_propagator b e ls lb la Hq Hv) as (c' & [Wc We Wq Wk Wp _] & _).
      destruct c' as [| |d' ls' lb' la'|]; cbn in Wk; try done. subst d'. destruct (is_state dom fd_bool) eqn:Eb; apply Hgen.
      * destruct (commit_bool r v b _ e e ls lb la ls' lb' la' Hi Hv We Wq Wc) as ([L S P] & _); [intros x Hx; by apply Hsub, (bool_mem dom x Hw Eb)|exact Wp|].
        split; [done| |done]. intros β. unfold becomesBoolVarAndPropagate. by rewrite S, (bool_mem dom _ Hw Eb).
      * unfold setDom. rewrite Wc, insert_lookup. set (b2 := OzFDVariable_propagate v fd_prop_bounds pc_propagator b) in *.
        apply (commit_dom r v b (setCell v (CFD dom ls' lb' la') b2) dom e ls lb la ls' lb' la' Hi Hv);
          [transitivity b2; [done|apply setCell_evolves]|by apply setCell_queue|cbn; by rewrite Wc, insert_insert_eq|done|lia|done|done|exact Wp].
Qed.

Lemma tellBasic_spec r t d b : inv r b -> wf d -> constrains r t d b (tellBasicConstraint t d b).
Proof using Hg.
  intros Hi Hw. pose proof (in_cells _ _ Hi) as Hm. unfold tellBasicConstraint. rewrite is_empty. destruct (Z.eqb_spec (size d) 0) as [E0|E0]; [intros β _; by apply size_zero|].
  assert (0 < size d) as Hpos by (destruct Hw as [? _]; lia).
  destruct t as [v|n].
  - destruct (cells b !! v) as [k|] eqn:Ek; [|rewrite (deref_unknown _ _ Ek), Ek; by apply constrain_fresh].
    assert (known (cells b) (Var v)) as Hk by by eexists. pose proof (deref_root _ _ Hm Hk) as Hr.
    assert (forall β, cells_sol (cells b) β -> value β (deref (cells b) (Var v)) = β v) as Hval by (intros β Hb; by apply deref_value).
    assert (forall o, constrains r (deref (cells b) (Var v)) d b o -> constrains r (Var v) d b o) as Hgen.
    { intros [[b'|]|]; cbn [constrains value]; [intros (L & S & K); split; [done|]; split|intros Hn β Hb; rewrite <- (Hval β Hb); by apply Hn|done].
      - intros β. rewrite S. split; intros [Hb Hx]; (split; [done|]); specialize (Hval β Hb); congruence.
      - intros x [= <-]. by apply (ld_known _ _ _ L (Var v)). }
    apply Hgen. clear Hgen Hval. destruct (deref (cells b) (Var v)) as [w|n].
    + destruct Hr as (c & Hc & Hf). rewrite Hc. destruct c as [| |e ls lb la|la]; try done.
      * destruct (in_cells _ _ Hi w _ Hc) as (Hwe & _). destruct (inter_mem e d Hwe Hw) as (dom & -> & Hwd & Hdom). ored. by apply (constrain_fd r w d b dom e).
      * rewrite (intersectWithBool_repr d _ (wf_repr d Hw)). ored.
        assert (forall n, n = 0 \/ n = 1 -> fd_mem d n = true -> (forall x, x = 0 \/ x = 1 -> fd_mem d x = true -> x = n) -> constrains r (Var w) d b (Some (Some (becomesSmallIntAndPropagate w n b)))) as Hint.
        { intros n Hn Hdn Huniq. destruct (small_int_spec r w n b (CBool la) Hi Hc eq_refl) as ([L S P] & _ & C); [intros ? [= <-]; by apply initBool_mem|].
          split; [done|]. split; [|intros x [= <-]; rewrite C, lookup_insert_eq; by eexists]. intros β. rewrite S. cbn [value]. split; [intros [Hb ->]; done|].
          intros [Hb Hx]. split; [done|]. apply Huniq; [|done]. apply (Hb w _ Hc). }
        destruct (fd_mem d 0) eqn:D0, (fd_mem d 1) eqn:D1; cbn [Z.eqb Z.opp Pos.eqb].
        -- split; [by apply leads_same|]. split; [|intros x [= <-]; by eexists]. intros β. cbn [value]. split; [|tauto]. intros Hb. split; [done|]. destruct (Hb w _ Hc) as [E|E]; by rewrite E.
        -- apply Hint; [by left|done|]. intros x [->| ->]; congruence.
        -- apply Hint; [by right|done|]. intros x [->| ->]; congruence.
        -- intros β Hb. cbn [value]. destruct (Hb w _ Hc) as [E|E]; by rewrite E.
    + rewrite (isIn_repr d _ (wf_repr d Hw) n). ored. destruct (fd_mem d n) eqn:En; cbn; [|done]. split; [by apply leads_same|]. split; [|done]. intros β. rewrite En. tauto.
  - rewrite deref_small, (isIn_repr d _ (wf_repr d Hw) n). ored. destruct (fd_mem d n) eqn:En; cbn; [|done]. split; [by apply leads_same|]. split; [|done]. intros β. rewrite En. tauto.
Qed.
End vars.
End Vars.
