(* ===== verification/BoardRun.v ===== *)
(** * Computation spaces: running, scheduling and imposing propagators *)
From stdpp Require Import gmap.
From S2P Require Import Prelude Word32 FDBase FDIntervals FDBitVector FiniteDomain FDRepr FDQueries FDOperators FDSetOperators Propagators PropSpec PropRel PropDistinct PropMain Board BoardInv BoardVars.
Import FiniteDomain FDRepr PropBase RelPropagators BoolPropagators ArithPropagators Propagate PropSpec PropRules PropDomain PropOffset PropMain Suspension FDVar Scheduler Wake Refs Space Replace Vars.

(** * What a propagator that goes to sleep keeps *)

Module Sleep.
Section sleep.
Context `{FDEnv}.
Implicit Types (s : gmap Term FiniteDomain) (m : bool) (p : Propagator).

(** Minimum and maximum may be taken for entailed wrongly. *)
Definition sharp p : bool := match p with Minimum _ _ _ | Maximum _ _ _ => false | _ => true end.

(** [p'] goes to sleep in place of [p]. *)
Definition heir p p' : Prop := robust p' = true /\ alias_safe p' /\ (sharp p = true -> sharp p' = true).

Definition sleeps (P : Propagator -> Prop) (r : option Outcome) : Prop := forall s p, r = Some (SLEEP s p) -> P p.

Section rules.
Context (P : Propagator -> Prop).

Lemma sleeps_fail s t op k : (forall s', sleeps P (k s')) -> sleeps P (FailOnEmpty s t op k).
Proof. intros Hk s' p'. unfold FailOnEmpty. destruct (s !! t) as [d|]; [|done]. cbn. destruct (op d) as [d'|]; [|done]. cbn. destruct (size d' =? 0); [done|apply Hk]. Qed.
Lemma sleeps_bind {A} (o : option A) k : (forall x, sleeps P (k x)) -> sleeps P (x ← o; k x).
Proof. intros Hk s' p'. destruct o as [x|]; [apply Hk|done]. Qed.
Lemma sleeps_leave s l p : P p -> sleeps P (leave s l p).
Proof. intros Hp s' p'. unfold leave. destruct (existsb _ _); [by intros [= <- <-]|done]. Qed.
Lemma sleeps_if (c : bool) r1 r2 : (c = true -> sleeps P r1) -> (c = false -> sleeps P r2) -> sleeps P (if c then r1 else r2).
Proof. destruct c; auto. Qed.
Lemma sleeps_done r : (forall s p, r <> Some (SLEEP s p)) -> sleeps P r.
Proof. intros Hr s p E. by destruct (Hr s p). Qed.
End rules.

Ltac sleeping :=
  repeat lazymatch goal with
  | |- sleeps _ (FailOnEmpty _ _ _ _) => apply sleeps_fail; intros ?
  | |- sleeps _ (option_bind _ _) => apply sleeps_bind; intros ?
  | |- sleeps _ (mbind _ _) => apply sleeps_bind; intros ?
  | |- sleeps _ (if _ then _ else _) => apply sleeps_if; intros ?
  | |- sleeps _ (leave _ _ _) => apply sleeps_leave
  | |- sleeps _ (vanish _) => by apply sleeps_done
  | |- sleeps _ (Some FAILED) => by apply sleeps_done
  | |- sleeps _ (Some (PROCEED _)) => by apply sleeps_done
  | |- sleeps _ (Some (UNIFY _ _ _)) => by apply sleeps_done
  | |- sleeps _ None => by apply sleeps_done
  | |- sleeps _ (let '(_, _) := ?x in _) => destruct x
  end.

Lemma no_equal2 x y : OZ_hasEqualVars [x; y] = OZ_isEqualVars x y.
Proof. cbn. by rewrite !orb_false_r. Qed.
Lemma no_equal3 x y z : OZ_hasEqualVars [x; y; z] = OZ_isEqualVars x y || OZ_isEqualVars x z || OZ_isEqualVars y z.
Proof. cbn. rewrite !orb_false_r. done. Qed.

(** The propagators that may be told of equal variables have none when they go to sleep. *)
Ltac heirs :=
  split; [done|]; split; [|done]; right; cbn [params]; rewrite ?no_equal2, ?no_equal3;
  match goal with Hk : ?m = true \/ alias_safe _ |- _ =>
    destruct Hk as [->|[Hk|Hk]]; [|discriminate Hk|cbn [params] in Hk; by rewrite ?no_equal2, ?no_equal3 in Hk]
  end;
  repeat match goal with Hb : true && _ = false |- _ => rewrite andb_true_l in Hb end;
  repeat match goal with Hb : _ || _ = false |- _ => apply orb_false_iff in Hb as [? ?] end;
  repeat (apply orb_false_iff; split); assumption.

Ltac heedless_heirs := split; [done|split; [by left|done]].

Lemma sleeps_LessEqOff m s x y c p : robust p = true -> m = true \/ OZ_isEqualVars x y = false -> sleeps (heir p) (propagate_LessEqOff m s x y c).
Proof.
  intros Hp Hk. unfold propagate_LessEqOff. sleeping. split; [done|split; [right; cbn [params]; rewrite no_equal2|done]]. by destruct Hk as [->|Hk].
Qed.

Lemma sleeps_SubSet s x y p : sleeps (heir p) (propagate_SubSet s x y).
Proof. unfold propagate_SubSet. sleeping. heedless_heirs. Qed.
Lemma sleeps_Negation s x y p : sleeps (heir p) (propagate_Negation s x y).
Proof. unfold propagate_Negation. sleeping. heedless_heirs. Qed.

Lemma sleeps_inverse f up down fuel s x y p q : heir p q -> sleeps (heir p) (inverse_loop f up down fuel s x y q).
Proof. intros Hq. revert s. induction fuel as [|fuel IH]; intros s; cbn [inverse_loop]; [by apply sleeps_done|]. cbv zeta. sleeping; [apply IH|done]. Qed.

Lemma sleeps_Twice s x y p : sleeps (heir p) (propagate_Twice s x y).
Proof. unfold propagate_Twice. sleeping. apply sleeps_inverse. heedless_heirs. Qed.
Lemma sleeps_Square s x y p : sleeps (heir p) (propagate_Square s x y).
Proof. unfold propagate_Square. sleeping. apply sleeps_inverse. heedless_heirs. Qed.

Lemma sleeps_plus_loop p fuel s x y z a b c d e f : heir p (Plus x y z) -> sleeps (heir p) (plus_loop fuel s x y z a b c d e f).
Proof.
  intros Hp. revert s a b c d e f. induction fuel as [|fuel IH]; intros s a b c d e f; cbn [plus_loop]; [by apply sleeps_done|]. sleeping; first [exact Hp|apply IH].
Qed.

Lemma sleeps_modI_loop p fuel k s x y z a b c d t : heir p (ModI x y z) -> sleeps (heir p) (modI_loop fuel k s x y z a b c d t).
Proof.
  intros Hp. revert k s a b c d t. induction fuel as [|fuel IH]; intros k s a b c d t; cbn [modI_loop]; [by apply sleeps_done|]. cbv zeta.
  destruct k as [|[|[|[|k]]]]; sleeping; first [exact Hp|apply IH].
Qed.

Lemma sleeps_mod_simple p s x y z xu r : sleeps (heir p) r -> sleeps (heir p) (mod_simple s x y z xu r).
Proof. intros Hr. unfold mod_simple. by sleeping. Qed.

Lemma sleeps_distinct_pass P l u s again done_ : (forall u s, sleeps P (again u s)) -> (forall s, sleeps P (done_ s)) -> sleeps P (distinct_pass l u s again done_).
Proof. intros Ha Hd. revert s. induction l as [|t l IH]; intros s; cbn [distinct_pass]; [apply Hd|]. sleeping; auto. Qed.
Lemma sleeps_distinct_loop P fuel l u s done_ : (forall s, sleeps P (done_ s)) -> sleeps P (distinct_loop fuel l u s done_).
Proof. intros Hd. revert u s. induction fuel as [|fuel IH]; intros u s; cbn [distinct_loop]; [by apply sleeps_done|]. by apply sleeps_distinct_pass. Qed.

Lemma sleeps_offset_inner P l i v s again done_ : (forall s, sleeps P (again s)) -> (forall s, sleeps P (done_ s)) -> sleeps P (offset_inner l i v s again done_).
Proof.
  intros Ha Hd. revert s. induction l as [|[j [t o]] l IH]; intros s; cbn [offset_inner]; [apply Hd|]. cbv zeta. sleeping; auto.
Qed.
Lemma sleeps_offset_outer P l all s again done_ : (forall s, sleeps P (again s)) -> (forall s, sleeps P (done_ s)) -> sleeps P (offset_outer l all s again done_).
Proof.
  intros Ha Hd. revert s. induction l as [|[j [t o]] l IH]; intros s; cbn [offset_outer]; [apply Hd|]. sleeping; auto. by apply sleeps_offset_inner.
Qed.
Lemma sleeps_offset_loop P fuel all s done_ : (forall s, sleeps P (done_ s)) -> sleeps P (offset_loop fuel all s done_).
Proof. intros Hd. revert s. induction fuel as [|fuel IH]; intros s; cbn [offset_loop]; [by apply sleeps_done|]. by apply sleeps_offset_outer. Qed.

Lemma equal_vars_filter f l : OZ_hasEqualVars l = false -> OZ_hasEqualVars (List.filter f l) = false.
Proof.
  induction l as [|t l IH]; cbn; [done|]. intros [H1 H2]%orb_false_iff. destruct (f t); cbn; [|by apply IH]. apply orb_false_iff. split; [|by apply IH].
  destruct (existsb _ (List.filter f l)) eqn:E; [|done]. apply existsb_exists in E as (u & [Hu _]%filter_In & E). rewrite <- H1. symmetry. apply existsb_exists. by exists u.
Qed.

Lemma propagate_sleeps m s p : robust p = true -> m = true \/ alias_safe p -> sleeps (heir p) (propagate m s p).
Proof.
  intros Hr Hk. destruct p; try discriminate Hr; cbn [propagate].
  - unfold propagate_NotEqOff. sleeping. heirs.
  - apply sleeps_LessEqOff; [done|]. destruct Hk as [->|[Hk|Hk]]; [by left|done|right; cbn [params] in Hk; by rewrite no_equal2 in Hk].
  - unfold propagate_Minimum. sleeping; try (apply sleeps_LessEqOff; [done|left; by destruct m]). heirs.
  - unfold propagate_Maximum. sleeping; try (apply sleeps_LessEqOff; [done|left; by destruct m]). heirs.
  - unfold propagate_Intersection. sleeping; try apply sleeps_SubSet. heirs.
  - unfold propagate_Union. sleeping; try apply sleeps_SubSet. heirs.
  - apply sleeps_SubSet.
  - unfold propagate_Distinct. sleeping. match goal with |- sleeps _ (match ?o with _ => _ end) => destruct o as [u|] end; [|by apply sleeps_done]. apply sleeps_distinct_loop. intros s'. sleeping.
    split; [done|split; [right; cbn [params]; apply equal_vars_filter|done]]. destruct Hk as [->|[?|?]]; [by destruct (OZ_hasEqualVars l)|done|done].
  - unfold propagate_DistinctOffset. sleeping; try (destruct m; by sleeping). apply sleeps_offset_loop. intros s'. sleeping. heedless_heirs.
  - unfold propagate_Conjunction. sleeping. heedless_heirs.
  - unfold propagate_Disjunction. sleeping. heedless_heirs.
  - unfold propagate_XDisjunction. sleeping; try apply sleeps_Negation. heedless_heirs.
  - unfold propagate_Implication. sleeping; try apply sleeps_Negation. heedless_heirs.
  - unfold propagate_Equivalence. sleeping; try apply sleeps_Negation. heedless_heirs.
  - apply sleeps_Negation.
  - apply sleeps_Twice.
  - apply sleeps_Square.
  - unfold propagate_Plus. sleeping; try apply sleeps_Twice. apply sleeps_plus_loop. heirs.
  - unfold propagate_ModD. sleeping; [apply sleeps_LessEqOff; [done|right; by destruct x]|]. apply sleeps_mod_simple. unfold enumerate. sleeping. heirs.
  - unfold propagate_ModI. sleeping; [apply sleeps_LessEqOff; [done|right; by destruct x]|]. apply sleeps_mod_simple, sleeps_modI_loop. heirs.
Qed.

(** ** Running is exact *)

Lemma heedless_flag m s p : heedless p = true -> (forall l, p <> DistinctOffset l) -> propagate m s p = propagate true s p.
Proof. destruct p; try done. intros _ Hne. by destruct (Hne l). Qed.

Lemma sharp_faithful s p : robust p = true -> sharp p = true -> faithful s p.
Proof. by destruct p. Qed.

Lemma robust_exact (Hg : globals_ok fd_env) m s p : wf_store s -> admissible s p -> robust p = true -> m = true \/ alias_safe p -> exact (sharp p = true) s (holds p) (propagate m s p).
Proof.
  intros Hs Ha Hr Hk. assert (exact (faithful s p) s (holds p) (propagate m s p) -> exact (sharp p = true) s (holds p) (propagate m s p)) as Hweak.
  { intros (o & Ho & Hgo & He). exists o. split; [done|]. split; [done|]. intros α. destruct (He α) as [H1 H2]. split; [done|]. intros Hoa. destruct (H2 Hoa) as [Hsa Hh].
    split; [done|]. intros [Hsh|Hp]; apply Hh; [left; by apply sharp_faithful|by right]. }
  apply Hweak. destruct Hk as [->|[Hk|Hk]]; [apply (propagate_exact Hg); try done; by left| |apply (propagate_exact Hg); try done; by right].
  destruct p as [| | | | | | | |l| | | | | | | | | | | | | | | | | |]; try discriminate Hk;
    try (rewrite heedless_flag by done; apply (propagate_exact Hg); try done; by left).
  destruct Ha as [Ha _]. by apply distinct_offset_exact.
Qed.
End sleep.
End Sleep.

(** * Running a propagator *)

Import Sleep.

Module Run.
Section run.
Context `{FDEnv} (Hg : globals_ok fd_env).
Implicit Types (m : gmap Z Cell) (v w : Z) (t u : Term) (β : Z -> Z) (p : Propagator) (s : Suspendable) (r : option nat) (d : gmap Term FiniteDomain).

(** ** The view of the running propagator *)

Lemma domain_wf m t e : cells_ok m -> domain_of m t = Some e -> wf_domain t e.
Proof using Hg.
  intros Hm. destruct t as [v|]; [|done]. cbn. destruct (m !! v) as [c|] eqn:Ec; [|done]. cbn. intros Hc. pose proof (Hm v c Ec) as Hok.
  destruct c as [| |e' ls lb la|la]; try done; cbn in Hc, Hok; injection Hc as <-; [destruct Hok as (Hw & Hs & _); split; [done|lia|done]|split; [apply initBool_wf|done|done]].
Qed.

Lemma view_wf m l : cells_ok m -> wf_store (view m l).
Proof using Hg. intros Hm t e [_ Ht]%view_lookup. by apply (domain_wf m). Qed.

Lemma view_sol m l β : cells_sol m β -> sol (view m l) β.
Proof using Hg.
  intros Hs t e [_ Ht]%view_lookup. destruct t as [v|]; [|done]. cbn in Ht. destruct (m !! v) as [c|] eqn:Ec; [|done]. cbn in Ht.
  by apply (cell_sat_domain β v c e Ht), Hs.
Qed.

Lemma current_root m s t : cells_ok m -> susp_ok m s -> t ∈ params (current m s) -> root m t.
Proof.
  intros Hm [Hk _ _ _ _]. unfold current. rewrite params_map. intros (u & -> & Hu)%list_elem_of_fmap. rewrite Forall_forall in Hk. by apply deref_root, Hk.
Qed.

Lemma current_admissible m s : cells_ok m -> susp_ok m s -> admissible (view m (params (current m s))) (current m s).
Proof using Hg.
  intros Hm Hs. split; [|apply Hs]. apply Forall_forall. intros t Ht. pose proof (current_root m s t Hm Hs Ht) as Hr. destruct t as [v|n]; [|done].
  destruct (root_domain m v Hr) as [e He]. exists e. by apply view_lookup.
Qed.

Lemma current_holds m s β : cells_ok m -> cells_sol m β -> susp_ok m s -> holds (current m s) β <-> holds (propagator s) β.
Proof using Hg.
  intros Hm Hb [Hk _ _ _ _]. apply holds_map. intros t Ht. rewrite Forall_forall in Hk. by apply deref_value; [..|apply Hk].
Qed.

(** ** Telling all parameters *)

(** The domain that [d] has for [v] can be told. *)
Definition tellable m v (e : FiniteDomain) : Prop :=
  exists c, m !! v = Some c /\ ((exists e', cell_domain c = Some e' /\ forall x, fd_mem e x = true -> fd_mem e' x = true) \/ (exists n, c = CInt n /\ forall x, fd_mem e x = (x =? n))).

Lemma told_tellable m v e : told m v e -> tellable m v e.
Proof.
  intros (c & Hc & Ht). exists c. split; [done|]. destruct c as [w|n|e' ls lb la|la]; [by destruct Ht as (? & ? & _)|right; by exists n|left|left];
    destruct Ht as (e2 & He & Hx); exists e2; (split; [done|]); intros x; by rewrite Hx.
Qed.

Lemma tell_tellable r v e b : inv r b -> tellable (cells b) v e -> wf_domain (Var v) e -> tells_domain r v e b (tell v e b).
Proof using Hg.
  intros Hi (c & Hc & Ht) [Hw Hs _]. destruct Ht as [(e' & He & Hsub)|(n & -> & Hx)]; [by apply (tell_spec r v e b c e')|].
  assert (tell v e b = b) as -> by (unfold tell; by rewrite Hc). split_and!; [|exists (CInt n); split; [done|exact Hx]|exists (CInt n); by apply same_cells|by left].
  apply adds_refl; [done|]. intros β Hb. specialize (Hb v _ Hc). cbn in Hb. rewrite Hx. lia.
Qed.

(** The domains of the variables of [l] in [d]. *)
Definition within d (l : list Term) β : Prop := forall v e, Var v ∈ l -> d !! Var v = Some e -> fd_mem e (β v) = true.

Lemma tells_spec r l d b : wf_store d -> inv r b -> (forall v e, Var v ∈ l -> d !! Var v = Some e -> tellable (cells b) v e) ->
  adds r b (tells l d b) (within d l) /\ (forall v e, Var v ∈ l -> d !! Var v = Some e -> told (cells (tells l d b)) v e) /\
  (forall v, Var v ∉ l -> cells (tells l d b) !! v = cells b !! v) /\ (quiet b (tells l d b) \/ (potential (cells (tells l d b)) < potential (cells b))%nat).
Proof using Hg.
  intros Hd. revert b. induction l as [|t l IH]; intros b Hi Ht; cbn [tells].
  { split_and!; [|by intros v e ?%elem_of_nil|done|by left]. apply adds_refl; [done|]. by intros β _ v e ?%elem_of_nil. }
  match goal with |- context [tells l d ?x] => set (b1 := x) end.
  assert (exists X, adds r b b1 X /\ (quiet b b1 \/ (potential (cells b1) < potential (cells b))%nat) /\
    (forall β, X β <-> forall v e, t = Var v -> d !! Var v = Some e -> fd_mem e (β v) = true) /\ (forall v, t <> Var v -> cells b1 !! v = cells b !! v) /\
    (forall v e, t = Var v -> d !! Var v = Some e -> told (cells b1) v e)) as (X & A1 & Q1 & HX & C1 & T1).
  { unfold b1. destruct t as [v|n]; [|exists (fun _ => True); split_and!; try done; [by apply adds_refl|by left]].
    destruct (d !! Var v) as [e|] eqn:Ee.
    2: { exists (fun _ => True). split_and!; try done; [by apply adds_refl|by left|intros β; split; [intros _ w e [= <-]; congruence|done]|intros w e [= <-]; congruence]. }
    assert (tellable (cells b) v e) as Htell by (apply Ht; [by constructor|done]).
    destruct (tell_tellable r v e b Hi Htell (Hd _ _ Ee)) as (A & T & (c' & C) & Q). exists (fun β => fd_mem e (β v) = true). split_and!; try done.
    - intros β. split; [intros Hb w e' [= <-] He'; by assert (e' = e) as -> by congruence|]. intros Hb. by apply (Hb v e).
    - intros w Hw. rewrite C, lookup_insert_ne; [done|congruence].
    - intros w e' [= <-] He'. by assert (e' = e) as -> by congruence. }
  destruct (IH b1 (inv_of _ _ _ _ A1)) as (A2 & T2 & C2 & Q2).
  { intros v e Hv He. destruct (decide (t = Var v)) as [Htv|Hne]; [by apply told_tellable, T1|]. specialize (Ht v e ltac:(by constructor) He). unfold tellable. by rewrite (C1 v Hne). }
  split_and!.
  - apply (adds_trans r b b1 _ X (within d l) _ Hi A1 A2). intros β _. rewrite HX. unfold within. split.
    + intros [H1 H2] v e [Hv|Hv]%elem_of_cons He; [by apply H1|by apply H2].
    + intros Hall. split; intros v e Hv He; apply (Hall v e); try done; apply elem_of_cons; auto.
  - intros v e Hv He. destruct (decide (Var v ∈ l)) as [Hin|Hn]; [by apply T2|]. apply elem_of_cons in Hv as [Hv|]; [|done].
    specialize (T1 v e (eq_sym Hv) He). unfold told. by rewrite (C2 v Hn).
  - intros v Hv. apply not_elem_of_cons in Hv as [Hne Hn]. rewrite (C2 v Hn). by apply C1.
  - pose proof (ad_potential _ _ _ _ A2) as P2. pose proof (ad_potential _ _ _ _ A1) as P1. destruct Q1 as [(L1 & S1 & E1)|Q1]; [|right; lia].
    destruct Q2 as [(L2 & S2 & E2)|Q2]; [|right; lia]. left. split_and!; congruence.
Qed.

(** ** What the outcome says about the variables *)

Lemma sharp_map f p : sharp (map_params f p) = sharp p.
Proof. by destruct p. Qed.

(** The view after a run has the variables of the propagator and no others. *)
Lemma view_keys m p d v : refines (view m (params p)) d -> is_Some (d !! Var v) <-> is_Some (view m (params p) !! Var v).
Proof. intros Hr. split; [apply Hr|]. intros [e He]. destruct (rf_domain _ _ Hr _ e He) as (e' & He' & _). by exists e'. Qed.

Context `{LeaveOrder}.

(** The propagator [s] of the space [b] has been run with the store [d] as the result. *)
Record ran r b s d (b' : Board) : Prop := {
  rn_adds : adds r b b' (within d (params (current (cells b) s)));
  rn_told v e : d !! Var v = Some e -> told (cells b') v e /\ Var v ∈ params (current (cells b) s);
  rn_quiet : quiet b b' \/ (potential (cells b') < potential (cells b))%nat
}.

Lemma run_tells r b s d : inv r b -> susp_ok (cells b) s -> wf_store d -> refines (view (cells b) (params (current (cells b) s))) d ->
  ran r b s d (tells (leave_order (current (cells b) s)) d b).
Proof using Hg.
  intros Hi Hs Hd Hr. set (p := current (cells b) s) in *. pose proof (in_cells _ _ Hi) as Hm.
  assert (forall v e, d !! Var v = Some e -> Var v ∈ params p /\ tellable (cells b) v e) as Hkeys.
  { intros v e He. assert (is_Some (view (cells b) (params p) !! Var v)) as [e0 He0] by (apply (view_keys _ _ d); [done|by eexists]).
    destruct (rf_domain _ _ Hr _ e0 He0) as (e1 & He1 & Hsub). rewrite He in He1. injection He1 as <-. apply view_lookup in He0 as [Hin He0]. split; [done|].
    cbn in He0. destruct (cells b !! v) as [c|] eqn:Ec; [|done]. exists c. split; [done|]. left. by exists e0. }
  destruct (tells_spec r (leave_order p) d b Hd Hi) as ([L S P] & T & _ & Q); [intros v e _ He; by apply Hkeys|].
  split; [|intros v e He; split; [apply T; [apply leave_order_params; by apply (Hkeys v e)|done]|by apply (Hkeys v e)]|done].
  split; [done| |done]. intros β. rewrite S. unfold within. by setoid_rewrite leave_order_params.
Qed.

(** An assignment is a solution of the store exactly when it is within the domains told. *)
Lemma within_sol r b s d b' β : inv r b -> wf_store d -> ran r b s d b' -> sol d β <-> within d (params (current (cells b) s)) β.
Proof using Hg.
  intros Hi Hd [_ Ht _]. split.
  - intros Hs v e _ He. apply (Hs (Var v) e He).
  - intros Hw t e He. destruct t as [v|n]; [apply (Hw v e); [by apply (Ht v e)|done]|]. cbn. rewrite (wd_int _ _ (Hd _ e He) n n eq_refl). lia.
Qed.

Lemma ran_present r b s d b' t : inv r b -> susp_ok (cells b) s -> ran r b s d b' -> present d t -> known (cells b') t.
Proof using Hg.
  intros Hi Hs [A Ht _] Hp. destruct t as [v|n]; [|done]. destruct Hp as [e He]. apply (ld_known _ _ _ (ad_leads _ _ _ _ A)), root_known.
  apply (current_root (cells b) s); [apply Hi|done|by apply (Ht v e)].
Qed.

(** Where a parameter leads after the run. *)
Lemma ran_deref r b s d b' v e : inv r b -> ran r b s d b' -> d !! Var v = Some e ->
  (deref (cells b') (Var v) = Var v /\ exists e', domain_of (cells b') (Var v) = Some e' /\ forall x, fd_mem e' x = fd_mem e x) \/
  (exists n, deref (cells b') (Var v) = SmallInt n /\ forall x, fd_mem e x = (x =? n)).
Proof using Hg.
  intros Hi [A Ht _] He. destruct (Ht v e He) as [(c & Hc & Htold) _]. destruct c as [w|n|e0 ls lb la|la].
  - by destruct Htold as (? & ? & _).
  - right. exists n. by rewrite (deref_int _ v n Hc).
  - left. rewrite (deref_free _ v _ Hc eq_refl). split; [done|]. destruct Htold as (e' & He' & Hx). exists e'. cbn. by rewrite Hc.
  - left. rewrite (deref_free _ v _ Hc eq_refl). split; [done|]. destruct Htold as (e' & He' & Hx). exists e'. cbn. by rewrite Hc.
Qed.

(** ** A propagator that goes to sleep *)

Lemma sleeper_ok r b s d b' p' : inv r b -> susp_ok (cells b) s -> ran r b s d b' -> wf_store d -> admissible d p' -> existsb (undetermined d) (params p') = true ->
  robust p' = true -> alias_safe p' -> susp_ok (cells b') (Susp p' false false false).
Proof using Hg.
  intros Hi Hs Hran Hd [Hp Hk] Hopen Hr Ha. rewrite Forall_forall in Hp.
  assert (forall v, Var v ∈ params p' -> exists e, d !! Var v = Some e) as Hkey by (intros v Hv; by apply (Hp (Var v))).
  split; cbn [propagator runnable unify]; unfold current; cbn [propagator].
  - apply Forall_forall. intros t Ht. by apply (ran_present r b s d), Hp.
  - done.
  - apply (kind_ok_map _ p' d); [done| |done]. intros t Ht Hb. destruct t as [v|n]; [|by rewrite deref_small]. destruct (Hkey v Ht) as [e He].
    destruct (ran_deref r b s d b' v e Hi Hran He) as [(-> & e' & He' & Hx)|(n & -> & Hx)].
    + intros e2 x [_ He2]%view_lookup Hm. rewrite He' in He2. injection He2 as <-. apply (Hb e); [done|by rewrite <- Hx].
    + apply (Hb e n He). rewrite Hx. lia.
  - right. destruct Ha as [Ha|Ha]; [left; by rewrite heedless_map|right]. rewrite params_map. apply equal_vars_map; [|done]. intros t Ht. destruct t as [v|n]; [|apply deref_small].
    destruct (Hkey v Ht) as [e He]. by destruct (ran_deref r b s d b' v e Hi Hran He) as [(-> & _)|(n & -> & _)].
  - intros _. apply existsb_exists in Hopen as (t & Ht%list_elem_of_In & Hu). destruct t as [v|n]; [|by destruct (d !! SmallInt n)]. destruct (Hkey v Ht) as [e He].
    unfold undetermined in Hu. rewrite He in Hu. exists v. rewrite params_map. apply list_elem_of_fmap. exists (Var v). split; [|done].
    destruct (ran_deref r b s d b' v e Hi Hran He) as [(-> & _)|(n & _ & Hx)]; [done|]. exfalso.
    destruct (Hd _ _ He) as [Hw Hs0 _]. assert (singl e = true) as Hsg.
    { rewrite (singl_spec e Hw Hs0). destruct (wf_bounds e Hw Hs0) as [B1 B2 _ _ _ _]. rewrite Hx in B1, B2. lia. }
    unfold singl in Hsg. rewrite Hsg in Hu. done.
Qed.

(** [p'] has no variables but those of [p]. *)
Definition covers m p p' : Prop := forall t v, t ∈ params p' -> deref m t = Var v -> exists u, u ∈ params p /\ deref m u = Var v.

Lemma covers_registered m i p p' : covers m p p' -> registered m i p -> registered m i p'.
Proof. intros Hc Hr t v Ht Hv. destruct (Hc t v Ht Hv) as (u & Hu & Huv). by apply (Hr u v). Qed.

Lemma sleeper_covered r b s d b' p' : inv r b -> susp_ok (cells b) s -> ran r b s d b' -> Forall (present d) (params p') -> covers (cells b') (propagator s) p'.
Proof using Hg.
  intros Hi Hs Hran Hp t w Ht Hw. rewrite Forall_forall in Hp. specialize (Hp t Ht). destruct t as [v|n]; [|by rewrite deref_small in Hw].
  destruct Hp as [e He]. destruct (ran_deref r b s d b' v e Hi Hran He) as [(E & _)|(n & E & _)]; [|congruence]. assert (v = w) as <- by congruence.
  destruct (rn_told _ _ _ _ _ Hran v e He) as [_ Hv]. unfold current in Hv. rewrite params_map in Hv. apply list_elem_of_fmap in Hv as (u & Hu & Hin).
  exists u. split; [done|]. destruct (rn_adds _ _ _ _ _ Hran) as [L _ _]. pose proof (so_known _ _ Hs) as Hk. rewrite Forall_forall in Hk.
  by rewrite (ld_deref _ _ _ L u (Hk u Hin)), <- Hu.
Qed.

(** ** Running *)

(** What a run of the [i]-th propagator has done. *)
Definition run_ok i s b (o : option (OZ_Return * Board)) : Prop :=
  match o with
  | Some (OZ_FAILED, _) => forall β, cells_sol (cells b) β -> ~ holds (propagator s) β
  | Some (OZ_ENTAILED, b') =>
      leads (Some i) b b' /\ (forall β, cells_sol (cells b) β -> holds (propagator s) β -> cells_sol (cells b') β) /\
      (forall β, cells_sol (cells b') β -> cells_sol (cells b) β /\ (sharp (propagator s) = true -> holds (propagator s) β)) /\
      (quiet b b' \/ (potential (cells b') < potential (cells b))%nat)
  | Some (OZ_SLEEP, b') =>
      exists p' b1, b' = setSusp i (setPropagator p') b1 /\ leads (Some i) b b1 /\
      (forall β, cells_sol (cells b) β /\ holds (propagator s) β <-> cells_sol (cells b1) β /\ holds p' β) /\ (forall β, cells_sol (cells b1) β -> cells_sol (cells b) β) /\
      (sharp (propagator s) = true -> sharp p' = true) /\ susp_ok (cells b1) (Susp p' false false false) /\
      covers (cells b1) (propagator s) p' /\ (quiet b b1 \/ (potential (cells b1) < potential (cells b))%nat)
  | _ => False
  end.

Lemma running_spec i b s : inv (Some i) b -> susps b !! i = Some s -> susp_ok (cells b) s -> run_ok i s b (oz_runPropagator i b).
Proof using Hg.
  intros Hi Hsi Hs. pose proof (in_cells _ _ Hi) as Hm. assert (alive b i) as Hal by (destruct (qu_cur _ _ (in_queue _ _ Hi) i eq_refl) as (s2 & ? & _ & ?); by exists s2).
  unfold oz_runPropagator. rewrite Hsi. ored. change (map_params (deref (cells b)) (propagator s)) with (current (cells b) s).
  pose proof (view_wf _ (params (current (cells b) s)) Hm) as Hv. pose proof (current_admissible _ s Hm Hs) as Hadm.
  assert (robust (current (cells b) s) = true) as Hrob by (unfold current; rewrite robust_map; apply Hs).
  assert (unify s = true \/ alias_safe (current (cells b) s)) as Hal2 by apply Hs.
  destruct (robust_exact Hg (unify s) _ _ Hv Hadm Hrob Hal2) as (o & Ho & Hgo & He). rewrite Ho. ored.
  pose proof (propagate_sleeps (unify s) (view (cells b) (params (current (cells b) s))) _ Hrob Hal2) as Hsl.
  assert (forall β, cells_sol (cells b) β -> holds (propagator s) β -> osol o β) as Hloss.
  { intros β Hb Hh. apply (He β); [by apply view_sol|by apply current_holds]. }
  assert (forall β, cells_sol (cells b) β -> osol o β -> sharp (propagator s) = true \/ proceeds o = false -> holds (propagator s) β) as Hgain.
  { intros β Hb Hos Hsh. apply (current_holds _ s β Hm Hb Hs). apply (He β); [done|]. unfold current. by rewrite sharp_map. }
  destruct o as [|d|d p'|d x y]; cbn in Hgo.
  - intros β Hb Hh. by destruct (Hloss β Hb Hh).
  - destruct Hgo as [Hd Hr]. pose proof (run_tells _ _ s d Hi Hs Hd Hr) as Hran. pose proof (fun β => within_sol _ _ s d _ β Hi Hd Hran) as Hws.
    pose proof (rn_adds _ _ _ _ _ Hran) as [L S P]. split; [done|]. split; [|split; [|apply Hran]].
    + intros β Hb Hh. apply S. split; [done|]. apply (Hws β). by apply Hloss.
    + intros β Hb'. apply S in Hb' as [Hb Hw]. split; [done|]. intros Hsh. apply Hgain; [done| |by left]. by apply (Hws β).
  - destruct Hgo as (Hd & Hr & Hadm' & Hopen). pose proof (run_tells _ _ s d Hi Hs Hd Hr) as Hran. pose proof (fun β => within_sol _ _ s d _ β Hi Hd Hran) as Hws.
    pose proof (rn_adds _ _ _ _ _ Hran) as [L S P]. destruct (Hsl d p' Ho) as (Hr' & Ha' & Hsh'). exists p'. eexists. split; [done|]. split; [done|].
    split_and!; [|by intros β [Hb _]%S| |by apply (sleeper_ok (Some i) b s d)|apply (sleeper_covered (Some i) b s d); try done; apply Hadm'|apply Hran].
    + intros β. rewrite S. split.
      * intros [Hb Hh]. destruct (Hloss β Hb Hh) as [H1 H2]. split; [|done]. split; [done|]. by apply (Hws β).
      * intros [[Hb Hw] Hh]. split; [done|]. apply Hgain; [done| |by right]. split; [|done]. by apply (Hws β).
    + intros Hsh. apply Hsh'. unfold current. by rewrite sharp_map.
  - destruct Hgo as (Hd & Hr & Hx & Hy). pose proof (run_tells _ _ s d Hi Hs Hd Hr) as Hran. pose proof (fun β => within_sol _ _ s d _ β Hi Hd Hran) as Hws.
    pose proof (rn_adds _ _ _ _ _ Hran) as A. set (b1 := tells (leave_order (current (cells b) s)) d b) in *.
    pose proof (ran_present _ _ _ _ _ x Hi Hs Hran Hx) as Kx. pose proof (ran_present _ _ _ _ _ y Hi Hs Hran Hy) as Ky.
    pose proof (unify_spec Hg (Some i) x y b1 (inv_of _ _ _ _ A) Kx Ky) as Hu. destruct A as [L S P]. destruct (oz_unify x y b1) as [[b2|]|]; [| |done]; ored.
    + destruct Hu as [[L2 S2 P2] Q2]. split; [by apply (leads_then _ b b1 b2)|]. split; [|split].
      * intros β Hb Hh. destruct (Hloss β Hb Hh) as [H1 H2]. apply S2. split; [|done]. apply S. split; [done|]. by apply (Hws β).
      * intros β Hb2. apply S2 in Hb2 as [Hb1 Exy]. apply S in Hb1 as [Hb Hw]. split; [done|]. intros _. apply Hgain; [done| |by right]. split; [|done]. by apply (Hws β).
      * destruct Q2 as [->|Q2]; [apply Hran|]. right. lia.
    + intros β Hb Hh. destruct (Hloss β Hb Hh) as [H1 H2]. apply (Hu β); [|done]. apply S. split; [done|]. by apply (Hws β).
Qed.
End run.
End Run.

(** * The scheduler *)

Import Run.

Module Schedule.
Section schedule.
Context `{FDEnv} (Hg : globals_ok fd_env) `{LeaveOrder}.
Implicit Types (β : Z -> Z) (m : gmap Z Cell) (t : Term) (c : Cell) (p : Propagator) (s : Suspendable) (r : option nat) (b : Board) (i : nat).

(** ** What a space stands for *)

(** The assignments that are within the domains, respect the bindings and satisfy the propagators that are alive. *)
Definition solution b β : Prop := cells_sol (cells b) β /\ forall i s, susps b !! i = Some s -> dead s = false -> holds (propagator s) β.

(** No propagator that may be taken for entailed wrongly is alive. *)
Definition sharp_space b : Prop := forall i s, susps b !! i = Some s -> dead s = false -> sharp (propagator s) = true.

(** [b'] has the solutions of [b]. *)
Record same_solutions b b' : Prop := {
  ss_kept β : solution b β -> solution b' β;
  ss_sharp : sharp_space b -> sharp_space b';
  ss_new β : sharp_space b -> solution b' β -> solution b β;
  ss_cells β : cells_sol (cells b') β -> cells_sol (cells b) β
}.

#[export] Instance same_solutions_preorder : PreOrder same_solutions.
Proof. split; [by intros b|]. intros b1 b2 b3 [K1 S1 N1 C1] [K2 S2 N2 C2]. split; auto. Qed.

(** ** Taking a propagator from the stack *)

Lemma dequeue_inv b i q s : inv None b -> lpq b = i :: q -> susps b !! i = Some s -> dead s = false -> inv (Some i) (setLPQ q b).
Proof.
  intros [Ic [N I A C S] Is Ir In] Hq Hs Hd. rewrite Hq in N, I, A. apply NoDup_cons in N as [Hi N].
  destruct (I i ltac:(by constructor)) as (s2 & Hs2 & Hr & _). assert (s2 = s) as -> by congruence. split; [done| |intros j s' Hj Hdj _; by apply (Is j)|intros j s' Hj Hdj _; by apply Ir|done].
  split; cbn; [done|..].
  - intros j Hj. destruct (I j ltac:(by constructor)) as (s' & Hs' & Hr' & _). exists s'. split; [done|]. split; [done|]. intros [= ->]. done.
  - intros j s' Hs' Hdj Hrj. destruct (A j s' Hs' Hdj Hrj) as [Hj|Hj]; [|done]. apply elem_of_cons in Hj as [->|Hj]; [by right|by left].
  - intros j [= <-]. by exists s.
  - intros _. apply S. by rewrite Hq.
Qed.

Lemma dequeue_dead b i q s : inv None b -> lpq b = i :: q -> susps b !! i = Some s -> dead s = true -> inv None (setLPQ q b).
Proof.
  intros [Ic [N I A C S] Is Ir In] Hq Hs Hd. rewrite Hq in N, I, A. apply NoDup_cons in N as [Hi N]. split; try done. split; cbn; [done|..].
  - intros j Hj. apply I. by constructor.
  - intros j s' Hs' Hdj Hrj. destruct (A j s' Hs' Hdj Hrj) as [Hj|Hj]; [|done]. apply elem_of_cons in Hj as [->|Hj]; [congruence|by left].
  - done.
  - intros _. apply S. by rewrite Hq.
Qed.

(** ** The end of a run *)

Lemma alter_lookup f i (l : list Suspendable) j s' : alter f i l !! j = Some s' -> (j = i /\ exists s, l !! i = Some s /\ s' = f s) \/ (j <> i /\ l !! j = Some s').
Proof.
  destruct (decide (j = i)) as [->|Hne]; [|rewrite list_lookup_alter_ne by done; auto]. rewrite list_lookup_alter_eq. destruct (l !! i) as [s|]; [|done]. intros [= <-]. left. eauto.
Qed.

Lemma living_alter f i l s : l !! i = Some s -> living (alter f i l) + (if dead s then 0 else 1) = living l + (if dead (f s) then 0 else 1).
Proof.
  revert i. induction l as [|t l IH]; intros i; [done|]. destruct i as [|i]; cbn [lookup list_lookup].
  - intros [= ->]. unfold living. cbn. destruct (dead s), (dead (f s)); cbn; unfold zlen; cbn; lia.
  - intros Hs. specialize (IH i Hs). unfold living in *. cbn. destruct (dead t); cbn; [done|]. unfold zlen in *. cbn. lia.
Qed.

(** The running propagator goes to sleep or dies. *)
Lemma finish_inv b i f s : inv (Some i) b -> susps b !! i = Some s -> (dead (f s) = false -> runnable (f s) = false /\ susp_ok (cells b) (f s) /\ registered (cells b) i (propagator (f s))) ->
  inv None (Brd (cells b) (alter f i (susps b)) (suspCount b - if dead (f s) then 1 else 0) (lpq b) (board_served b) (servers b)).
Proof.
  intros [Ic [N I A C S] Is Ir In] Hs Hf. destruct (C i eq_refl) as (s2 & Hs2 & Hr & Hd). assert (s2 = s) as -> by congruence.
  split; cbn; [done|split; cbn; [done| | |done|done]|..].
  - intros j Hj. destruct (I j Hj) as (s' & Hs' & Hr' & Hne). exists s'. rewrite list_lookup_alter_ne by congruence. done.
  - intros j s' [(-> & s0 & Hs0 & ->)|[Hne Hs']]%alter_lookup Hdj Hrj; [assert (s0 = s) as -> by congruence; destruct (Hf Hdj) as (Hrun & _); congruence|].
    destruct (A j s' Hs' Hdj Hrj) as [Hj|Hj]; [by left|congruence].
  - intros j s' [(-> & s0 & Hs0 & ->)|[Hne Hs']]%alter_lookup Hdj _; [assert (s0 = s) as -> by congruence; by apply Hf|apply (Is j); [done|done|congruence]].
  - intros j s' [(-> & s0 & Hs0 & ->)|[Hne Hs']]%alter_lookup Hdj _; [assert (s0 = s) as -> by congruence; by apply Hf|apply Ir; [done|done|congruence]].
  - pose proof (living_alter f i (susps b) s Hs) as Hl. rewrite Hd in Hl. rewrite In. destruct (dead (f s)); lia.
Qed.

Lemma close_inv b i s : inv (Some i) b -> susps b !! i = Some s -> inv None (oz_closeDonePropagator i b).
Proof. intros Hi Hs. apply (finish_inv b i setDead s Hi Hs). done. Qed.

Lemma alter_alter (f g : Suspendable -> Suspendable) i (l : list Suspendable) : alter f i (alter g i l) = alter (fun s => f (g s)) i l.
Proof. apply list_eq. intros j. destruct (decide (i = j)) as [<-|Hne]; [rewrite !list_lookup_alter_eq; by destruct (l !! i)|by rewrite !list_lookup_alter_ne]. Qed.

Lemma sleep_inv b i s p' : inv (Some i) b -> susps b !! i = Some s -> susp_ok (cells b) (Susp p' false false false) -> registered (cells b) i p' ->
  inv None (oz_sleepPropagator i (setSusp i (setPropagator p') b)).
Proof.
  intros Hi Hs Hok Hreg. destruct (qu_cur _ _ (in_queue _ _ Hi) i eq_refl) as (s2 & Hs2 & _ & Hd). assert (s2 = s) as -> by congruence.
  pose proof (finish_inv b i (fun s => unsetRunnableUnify (setPropagator p' s)) s Hi Hs) as Hf. unfold oz_sleepPropagator, setSusp. cbn. rewrite alter_alter.
  cbn in Hf. rewrite Hd, Z.sub_0_r in Hf.
  assert (unsetRunnableUnify (setPropagator p' s) = Susp p' false false false) as E by (unfold unsetRunnableUnify; cbn; by rewrite Hd). rewrite E in Hf. by apply Hf.
Qed.

(** ** A round of the scheduler *)

Definition measure b : nat := (potential (cells b) * S (length (susps b)) + length (lpq b))%nat.

Lemma measure_run b b' i q n : lpq b = i :: q -> length (susps b) = n -> length (susps b') = n -> (length (lpq b') <= n)%nat ->
  (lpq b' = q /\ potential (cells b') = potential (cells b)) \/ (potential (cells b') < potential (cells b))%nat -> (measure b' < measure b)%nat.
Proof.
  intros Hq Hn Hn' Hl Hm. unfold measure. rewrite Hn, Hn', Hq. cbn [length]. destruct Hm as [[E1 E2]|Hlt].
  - rewrite E1, E2. lia.
  - nia.
Qed.

Lemma same_run b b1 i f s : inv (Some i) b -> susps b !! i = Some s -> dead s = false -> evolves b b1 ->
  (forall β, cells_sol (cells b) β -> holds (propagator s) β -> cells_sol (cells b1) β /\ (forall s1, susps b1 !! i = Some s1 -> dead (f s1) = false -> holds (propagator (f s1)) β)) ->
  (forall β, cells_sol (cells b1) β -> cells_sol (cells b) β) ->
  (sharp (propagator s) = true -> forall s1, susps b1 !! i = Some s1 -> dead (f s1) = false -> sharp (propagator (f s1)) = true) ->
  (sharp (propagator s) = true -> forall β, cells_sol (cells b1) β -> (forall s1, susps b1 !! i = Some s1 -> dead (f s1) = false -> holds (propagator (f s1)) β) -> holds (propagator s) β) ->
  forall b', (forall β, cells_sol (cells b') β <-> cells_sol (cells b1) β) -> susps b' = alter f i (susps b1) -> same_solutions b b'.
Proof.
  intros Hi Hs Hd He Hkeep Hback Hsh Hnew b' Hc Hl. split.
  - intros β [Hb Hall]. destruct (Hkeep β Hb (Hall i s Hs Hd)) as [Hb1 Hi1]. split; [by apply Hc|]. rewrite Hl.
    intros j s' [(-> & s0 & Hs0 & ->)|[Hne Hs']]%alter_lookup Hdj; [by apply Hi1|]. destruct (evolves_back b b1 j s' He Hs') as (s2 & Hs2 & [Kp Kd _ _]).
    rewrite Kp. apply (Hall j); [done|by rewrite <- Kd].
  - intros Hsp j s'. rewrite Hl. intros [(-> & s0 & Hs0 & ->)|[Hne Hs']]%alter_lookup Hdj; [by apply Hsh; [apply (Hsp i)|..]|].
    destruct (evolves_back b b1 j s' He Hs') as (s2 & Hs2 & [Kp Kd _ _]). rewrite Kp. apply (Hsp j); [done|by rewrite <- Kd].
  - intros β Hsp [Hb1 Hall]. apply Hc in Hb1. rewrite Hl in Hall. split; [by apply Hback|]. intros j s' Hs' Hdj. destruct (decide (j = i)) as [->|Hne].
    + assert (s' = s) as -> by congruence. apply Hnew; [by apply (Hsp i)|done|]. intros s1 Hs1 Hd1. apply (Hall i); [|done]. by rewrite list_lookup_alter_eq, Hs1.
    + destruct (ev_susp _ _ He j s' Hs') as (s2 & Hs2 & [Kp Kd _ _]). rewrite <- Kp. apply (Hall j); [by rewrite list_lookup_alter_ne|congruence].
  - intros β Hb1. by apply Hback, Hc.
Qed.

(** What the rest of the loop sees. *)
Record round b b' : Prop := {
  rd_inv : inv None b';
  rd_same : same_solutions b b';
  rd_length : length (susps b') = length (susps b);
  rd_measure : (measure b' < measure b)%nat
}.

Lemma round_run b i q s : inv None b -> lpq b = i :: q -> susps b !! i = Some s -> dead s = false ->
  match oz_runPropagator i (setLPQ q b) with
  | Some (OZ_FAILED, _) => forall β, ~ solution b β
  | Some (OZ_ENTAILED, b') => round b (oz_closeDonePropagator i b')
  | Some (OZ_SLEEP, b') => round b (oz_sleepPropagator i b')
  | _ => False
  end.
Proof using Hg.
  intros Hi Hq Hs Hd. pose proof (dequeue_inv b i q s Hi Hq Hs Hd) as Hi1. set (b1 := setLPQ q b) in *.
  assert (susp_ok (cells b1) s) as Hok by (apply (in_susp _ _ Hi i); done). assert (registered (cells b1) i (propagator s)) as Hreg by (apply (in_registered _ _ Hi i); done).
  pose proof (running_spec Hg i b1 s Hi1 Hs Hok) as Hrun. destruct (oz_runPropagator i b1) as [[ret b2]|]; [|done].
  assert (forall b3, evolves b1 b3 -> exists s3, susps b3 !! i = Some s3 /\ kept s s3) as Hs3 by (intros b3 He; by apply (ev_susp _ _ He)).
  assert (same_solutions b b1) as H01 by (split; done).
  assert (forall b' b3, inv (Some i) b3 -> evolves b1 b3 -> quiet b1 b3 \/ (potential (cells b3) < potential (cells b1))%nat -> cells b' = cells b3 -> lpq b' = lpq b3 ->
    length (susps b') = length (susps b3) -> (measure b' < measure b)%nat) as Hmeas.
  { intros b' b3 Hi3 He Hm Hc Hl Hn. pose proof (ev_length _ _ He) as Hlen. pose proof (queue_length _ _ (in_queue _ _ Hi3)) as Hql.
    apply (measure_run b b' i q (length (susps b)) Hq eq_refl); [by rewrite Hn, Hlen|rewrite Hl; change (length (susps b1)) with (length (susps b)) in Hlen; lia|]. rewrite Hc, Hl. destruct Hm as [(E1 & _ & E2)|Hm]; [by left|by right]. } destruct ret; try done; cbn in Hrun.
  - intros β [Hb Hall]. apply (Hrun β Hb). by apply (Hall i).
  - destruct Hrun as ([Hi2 He _ _ _] & Hk & Hn & Hm). destruct (Hs3 b2 He) as (s3 & Hs3' & K). split.
    + by apply (close_inv b2 i s3).
    + transitivity b1; [done|]. apply (same_run b1 b2 i setDead s Hi1 Hs Hd He); try done.
      * intros β Hb Hh. split; [by apply Hk|done].
      * intros β Hb. by apply Hn.
      * intros Hsh β Hb _. by apply Hn.
    + cbn. rewrite length_alter. apply He.
    + by apply (Hmeas (oz_closeDonePropagator i b2) b2); [..|cbn; apply length_alter].
  - destruct Hrun as (p' & b3 & -> & [Hi2 He _ _ Hkr] & Hiff & Hback & Hsh & Hok' & Hcov & Hm). destruct (Hs3 b3 He) as (s3 & Hs3' & K). split.
    + apply (sleep_inv b3 i s3); try done. apply (covers_registered _ i (propagator s)); [done|]. apply Hkr; [by exists s|apply Hok|done].
    + transitivity b1; [done|]. apply (same_run b1 b3 i (fun s => unsetRunnableUnify (setPropagator p' s)) s Hi1 Hs Hd He); try done.
      * intros β Hb Hh. destruct (proj1 (Hiff β) (conj Hb Hh)) as [Hb3 Hh']. done.
      * intros Hs0 s1 _ _. by apply Hsh.
      * intros Hs0 β Hb Hh'. apply Hiff. split; [done|]. apply (Hh' s3 Hs3'). cbn. by rewrite (kp_dead _ _ K).
      * apply alter_alter.
    + cbn. rewrite !length_alter. apply He.
    + apply (Hmeas (oz_sleepPropagator i (setSusp i (setPropagator p') b3)) b3); try done. cbn. by rewrite !length_alter.
Qed.

(** ** The loop *)

(** What the scheduler promises. *)
Definition scheduled (raise : bool) b (o : option (OZ_Return * Board)) : Prop :=
  match o with
  | Some (OZ_ENTAILED, b') => inv None b' /\ same_solutions b b' /\ lpq b' = [] /\ board_served b' = false
  | Some (BI_REPLACEBICALL, b') => inv None b' /\ same_solutions b b' /\ (0 < servers b')%nat /\ board_served b' = false
  | Some (OZ_FAILED, _) => raise = false /\ forall β, ~ solution b β
  | Some (RAISE, _) => raise = true /\ forall β, ~ solution b β
  | _ => False
  end.

Lemma scheduled_same raise b b1 o : same_solutions b b1 -> scheduled raise b1 o -> scheduled raise b o.
Proof.
  intros Hs. destruct o as [[[] b']|]; cbn; try done.
  - intros [-> Hn]. split; [done|]. intros β Hb. by apply (Hn β), Hs.
  - intros (? & ? & ?). split; [done|]. split; [by transitivity b1|done].
  - intros [-> Hn]. split; [done|]. intros β Hb. by apply (Hn β), Hs.
  - intros (? & ? & ?). split; [done|]. split; [by transitivity b1|done].
Qed.

Lemma served_inv r b x k : inv r b -> (x = true \/ (0 < k)%nat \/ lpq b = []) -> inv r (Brd (cells b) (susps b) (suspCount b) (lpq b) x k).
Proof. intros [Ic [N I A C S] Is Ir In] Hx. split; try done. split; try done. cbn. intros Hne. destruct Hx as [?|[?|?]]; [by left|by right|done]. Qed.

Lemma kill_inv r b : inv r b -> lpq b = [] -> inv r (killServeLPQ b).
Proof. intros Hi Hq. unfold killServeLPQ. rewrite <- Hq. apply served_inv; [done|by right; right]. Qed.

Lemma schedule_loop_spec fuel sflag raise b : inv None b -> (measure b <= fuel)%nat -> scheduled raise b (schedule_loop fuel sflag raise b).
Proof using Hg.
  revert b. induction fuel as [|fuel IH]; intros b Hi Hm; cbn [schedule_loop]; (destruct (lpq b) as [|i q] eqn:Eq;
    [cbn; split; [by apply kill_inv|by split]|]).
  - unfold measure in Hm. rewrite Eq in Hm. cbn in Hm. lia.
  - destruct (sflag (S fuel)); [cbn; split; [apply served_inv; [done|right; left; lia]|split; [by split|split; [lia|done]]]|].
    destruct (qu_in _ _ (in_queue _ _ Hi) i) as (s & Hs & _); [rewrite Eq; constructor|]. rewrite Hs. ored. destruct (dead s) eqn:Ed.
    + apply (scheduled_same raise b (setLPQ q b)); [by split|]. apply IH; [by apply (dequeue_dead b i q s)|]. unfold measure in *. rewrite Eq in Hm. cbn in Hm |- *. lia.
    + pose proof (round_run b i q s Hi Eq Hs Ed) as Hr. destruct (oz_runPropagator i (setLPQ q b)) as [[ret b']|]; [|done]. ored. destruct ret; try done.
      * by destruct raise.
      * destruct Hr as [Hi' Hsame _ Hlt]. apply (scheduled_same raise b _ _ Hsame), IH; [done|lia].
      * destruct Hr as [Hi' Hsame _ Hlt]. apply (scheduled_same raise b _ _ Hsame), IH; [done|lia].
Qed.

Lemma prop_lpq_spec fuel sflag raise b : inv None b -> board_served b = false -> (measure b <= fuel)%nat -> scheduled raise b (BI_prop_lpq fuel sflag raise b).
Proof using Hg.
  intros Hi Hv Hm. apply (scheduled_same raise b (Brd (cells b) (susps b) (suspCount b) (lpq b) true (pred (servers b)))); [by split|].
  unfold BI_prop_lpq, scheduleLPQ. cbn [board_served]. rewrite Hv. apply schedule_loop_spec; [|exact Hm]. apply (served_inv None b); [done|by left].
Qed.

(** ** Imposing a propagator *)

Lemma new_inv p b : inv None b -> let '(i, b1) := oz_newPropagator p b in inv (Some i) b1 /\ susps b1 !! i = Some (Susp p false true true) /\ cells b1 = cells b.
Proof.
  intros [Ic [N I A C S] Is Ir In]. cbn. set (i := length (susps b)). set (s0 := Susp p false true true).
  assert ((susps b ++ [s0]) !! i = Some s0) as Hnew by (by apply list_lookup_middle).
  assert (forall j s, (susps b ++ [s0]) !! j = Some s -> Some i <> Some j -> susps b !! j = Some s) as Hold.
  { intros j s Hj Hne. apply lookup_app_Some in Hj as [Hj|[Hj Hj']]; [done|]. exfalso. apply list_lookup_singleton_Some in Hj' as [Hj' _]. apply Hne. unfold i. f_equal. lia. }
  split; [|done]. split; cbn; [done|split; cbn; [done|..]| | |].
  - intros j Hj. destruct (I j Hj) as (s & Hs & Hr & _). exists s. pose proof (lookup_lt_Some _ _ _ Hs). rewrite lookup_app_l by done. split; [done|]. split; [done|]. intros [= E]. unfold i in E. lia.
  - intros j s Hj Hd Hr. destruct (decide (i = j)) as [->|Hne]; [by right|left]. destruct (A j s) as [?|?]; [apply Hold; congruence|done|done|done|done].
  - intros j [= <-]. by exists s0.
  - done.
  - intros j s Hj Hd Hne. apply (Is j); auto.
  - intros j s Hj Hd Hne. apply Ir; auto.
  - rewrite In. unfold living. rewrite List.filter_app. unfold zlen. rewrite length_app. cbn. lia.
Qed.

Lemma addSusp_spec r i v st b c : inv r b -> cells b !! v = Some c -> free_cell c = true ->
  exists c', addSusp v i st b = setCell v c' b /\ same_kind c c' /\ (forall j, j ∈ cell_lists c \/ j = i -> j ∈ cell_lists c').
Proof.
  intros Hi Hv Hf. unfold addSusp. rewrite Hv. destruct c as [| |d ls lb la|la]; try done; [destruct st|]; eexists; (split; [done|]; split; [done|]);
    intros j; cbn; repeat rewrite ?elem_of_app, ?elem_of_cons; tauto.
Qed.

(** Only the suspensions of the cells differ. *)
Definition alike m m' : Prop := forall v, match m !! v, m' !! v with
  | Some c, Some c' => if free_cell c then same_kind c c' /\ (forall i, i ∈ cell_lists c -> i ∈ cell_lists c') else c' = c
  | None, None => True | _, _ => False end.

Lemma alike_deref m m' t : cells_ok m -> cells_ok m' -> alike m m' -> known m t -> deref m' t = deref m t.
Proof.
  intros Hm Hm' Ha. destruct t as [v|n]; [|by rewrite !deref_small]. revert v. apply (refs_ind m (fun v => deref m' (Var v) = deref m (Var v))); [done|].
  intros v c Hc IH. pose proof (Ha v) as Hv. rewrite Hc in Hv. destruct (m' !! v) as [c'|] eqn:Hc'; [|done]. destruct (free_cell c) eqn:Ef.
  - destruct Hv as [Hk _]. destruct (same_kind_free c c' Hk) as (Hf' & _). by rewrite (deref_free m v c Hc Ef), (deref_free m' v c' Hc' Hf').
  - subst c'. destruct c as [w|k| |]; try done; [|by rewrite (deref_int m v k Hc), (deref_int m' v k Hc')].
    rewrite (deref_ref m v w Hm Hc), (deref_ref m' v w Hm' Hc'). by apply IH.
Qed.

Lemma same_kind_trans c1 c2 c3 : same_kind c1 c2 -> same_kind c2 c3 -> same_kind c1 c3.
Proof. destruct c1, c2, c3; try done; cbn; congruence. Qed.

Lemma alike_insert m m' v c c' : alike m m' -> m' !! v = Some c -> free_cell c = true -> same_kind c c' -> (forall i, i ∈ cell_lists c -> i ∈ cell_lists c') -> alike m (<[v := c']> m').
Proof.
  intros Ha Hv Hf Hk Hl w. specialize (Ha w). destruct (decide (v = w)) as [<-|Hne]; [|by rewrite lookup_insert_ne]. rewrite lookup_insert_eq. rewrite Hv in Ha.
  destruct (m !! v) as [c0|]; [|done]. destruct (free_cell c0) eqn:E0; [|subst; congruence]. destruct Ha as [Hk0 Hl0]. split; [by apply (same_kind_trans c0 c)|auto].
Qed.

Lemma add_spawn_spec r i spawn b : inv r b -> Forall (fun q => known (cells b) q.1) spawn ->
  inv r (add_spawn i spawn b) /\ alike (cells b) (cells (add_spawn i spawn b)) /\ susps (add_spawn i spawn b) = susps b /\ (forall β, cells_sol (cells (add_spawn i spawn b)) β <-> cells_sol (cells b) β) /\
  forall t st v, (t, st) ∈ spawn -> deref (cells b) t = Var v -> exists c, cells (add_spawn i spawn b) !! v = Some c /\ i ∈ cell_lists c.
Proof.
  intros Hi. induction spawn as [|[t st] spawn IH]; cbn [add_spawn].
  { intros _. split_and!; try done; [|by intros ? ? ? ?%elem_of_nil]. intros v. destruct (cells b !! v) as [c|]; [|done]. destruct (free_cell c) eqn:Ef; [|done]. split; [by destruct c|done]. }
  intros [Ht Hk]%Forall_cons. destruct (IH Hk) as (I1 & A1 & S1 & B1 & R1). set (b1 := add_spawn i spawn b) in *. cbn in Ht.
  assert (deref (cells b1) t = deref (cells b) t) as Hdt by (apply alike_deref; [apply Hi|apply I1|done|done]). rewrite Hdt.
  destruct (deref (cells b) t) as [v|n] eqn:Ed.
  - pose proof (deref_root _ t (in_cells _ _ Hi) Ht) as Hroot. rewrite Ed in Hroot. destruct Hroot as (c0 & Hc0 & Hf0).
    pose proof (A1 v) as Hv. rewrite Hc0, Hf0 in Hv. destruct (cells b1 !! v) as [c|] eqn:Hc; [|done]. destruct Hv as [Hk0 _]. destruct (same_kind_free _ _ Hk0) as (Hf & _).
    destruct (addSusp_spec r i v st b1 c I1 Hc Hf) as (c' & -> & Hk' & Hl'). destruct (grow r v c c' b1 I1 Hc Hk') as [[L S _] _]; [by intros j Hj _; apply Hl'; left|].
    split_and!; [apply L|apply (alike_insert _ _ v c); try done; intros j Hj; apply Hl'; by left|done|intros β; rewrite S, B1; tauto|].
    intros u st' w [[= -> ->]|Hin]%elem_of_cons Hu.
    + assert (v = w) as <- by congruence. exists c'. cbn. rewrite lookup_insert_eq. split; [done|]. apply Hl'. by right.
    + destruct (R1 u st' w Hin Hu) as (cw & Hcw & Hiw). cbn. destruct (decide (v = w)) as [<-|Hne]; [|exists cw; by rewrite lookup_insert_ne].
      exists c'. rewrite lookup_insert_eq. split; [done|]. apply Hl'. left. congruence.
  - split_and!; try done. intros u st' w [[= -> ->]|Hin]%elem_of_cons Hu; [congruence|by apply (R1 u st' w)].
Qed.

Lemma alike_view m m' l : alike m m' -> view m' l = view m l.
Proof.
  intros Ha. assert (forall t, domain_of m' t = domain_of m t) as Hd.
  { intros [v|n]; [|done]. cbn. specialize (Ha v). destruct (m !! v) as [c|], (m' !! v) as [c'|]; try done. cbn. destruct (free_cell c); [|by subst]. by apply same_kind_free, Ha. }
  induction l as [|t l IH]; cbn; [done|]. by rewrite Hd, IH.
Qed.

Lemma alike_susp m m' s : cells_ok m -> cells_ok m' -> alike m m' -> susp_ok m s -> susp_ok m' s.
Proof.
  intros Hm Hm' Ha [Sk Sr Sb Sa So]. assert (current m' s = current m s) as Hcur.
  { apply map_params_ext. intros t Ht. rewrite Forall_forall in Sk. apply alike_deref; auto. }
  split; rewrite ?Hcur, ?(alike_view m m'); try done. eapply Forall_impl; [exact Sk|]. intros [v|n]; [|done]. cbn. intros [c Hc]. specialize (Ha v). rewrite Hc in Ha. by destruct (m' !! v) as [c'|].
Qed.

Lemma addSusp_setSusp v i st j f b : addSusp v i st (setSusp j f b) = setSusp j f (addSusp v i st b).
Proof. unfold addSusp. cbn. by destruct (cells b !! v) as [[]|]. Qed.

Lemma add_spawn_setSusp i spawn j f b : add_spawn i spawn (setSusp j f b) = setSusp j f (add_spawn i spawn b).
Proof.
  induction spawn as [|[t st] spawn IH]; cbn [add_spawn]; [done|]. rewrite IH. cbn. destruct (deref _ t); [apply addSusp_setSusp|done].
Qed.

Lemma add_spawn_served i spawn b : board_served (add_spawn i spawn b) = board_served b.
Proof.
  induction spawn as [|[t st] spawn IH]; cbn [add_spawn]; [done|]. rewrite <- IH. destruct (deref _ t); [|done]. unfold addSusp. destruct (cells _ !! v) as [[]|]; done.
Qed.

(** What imposing [p] promises. *)
Definition imposed p b (o : option (OZ_Return * Board)) : Prop :=
  match o with
  | Some (OZ_FAILED, _) => forall β, solution b β -> ~ holds p β
  | Some (OZ_ENTAILED, b') =>
      inv None b' /\ board_served b' = board_served b /\ (forall β, solution b β -> holds p β -> solution b' β) /\ (forall t, known (cells b) t -> known (cells b') t) /\
      (sharp_space b -> sharp p = true -> sharp_space b' /\ forall β, solution b' β -> solution b β /\ holds p β)
  | _ => False
  end.

(** A propagator that can be imposed on [b], with the parameters that it is suspended on. *)
Record imposable p (spawn : list (Term * OZ_FDPropState)) b : Prop := {
  im_known : Forall (known (cells b)) (params p);
  im_robust : robust p = true;
  im_kind : kind_ok (view (cells b) (params (map_params (deref (cells b)) p))) (map_params (deref (cells b)) p);
  im_spawn t : t ∈ params p -> exists st, (t, st) ∈ spawn;
  im_spawn_known : Forall (fun q => known (cells b) q.1) spawn
}.

Lemma impose_spec p spawn b : inv None b -> imposable p spawn b -> imposed p b (impose p spawn b).
Proof using Hg.
  intros Hi [Hk Hr Hkind Hsp Hspk]. pose proof (new_inv p b Hi) as Hnew. unfold impose. destruct (oz_newPropagator p b) as [i b1] eqn:Enew. destruct Hnew as (Hi1 & Hs1 & Hc1).
  set (s0 := Susp p false true true) in *. assert (susp_ok (cells b1) s0) as Hok by (rewrite Hc1; split; try done; by left).
  assert (susps b1 = susps b ++ [s0]) as Hl1 by (by injection Enew as <- <-). assert (i = length (susps b)) as Hlen by (by injection Enew as <- <-).
  assert (forall β, solution b1 β <-> solution b β /\ holds p β) as Hsol.
  { intros β. unfold solution. rewrite Hc1, Hl1. split.
    - intros [Hb Hall]. split; [split; [done|]|].
      + intros j s Hj Hd. apply (Hall j); [|done]. rewrite lookup_app_l; [done|by eapply lookup_lt_Some].
      + apply (Hall i s0); [|done]. rewrite Hlen. by apply list_lookup_middle.
    - intros [[Hb Hall] Hh]. split; [done|]. intros j s Hj Hd. apply lookup_app_Some in Hj as [Hj|[_ Hj]]; [by apply (Hall j)|]. apply list_lookup_singleton_Some in Hj as [_ <-]. done. }
  assert (sharp_space b -> sharp p = true -> sharp_space b1) as Hsharp.
  { intros Hb Hp j s Hj Hd. rewrite Hl1 in Hj. apply lookup_app_Some in Hj as [Hj|[_ Hj]]; [by apply (Hb j)|]. apply list_lookup_singleton_Some in Hj as [_ <-]. done. }
  assert (board_served b1 = board_served b) as Hv1 by (by injection Enew as <- <-).
  assert (forall b' , inv None b' -> board_served b' = board_served b1 -> same_solutions b1 b' -> (forall t, known (cells b1) t -> known (cells b') t) -> imposed p b (Some (OZ_ENTAILED, b'))) as Hdone.
  { intros b' Hi' Hv' [K1 S1 N1 _] Hkn. split; [done|]. split; [congruence|]. split; [intros β Hb Hh; by apply K1, Hsol|]. split; [intros t; rewrite <- Hc1; apply Hkn|].
    intros Hb Hp. split; [apply S1; auto|]. intros β Hb'. apply Hsol, N1; auto. }
  pose proof (running_spec Hg i b1 s0 Hi1 Hs1 Hok) as Hrun. destruct (oz_runPropagator i b1) as [[ret b2]|]; [|done]. ored. destruct ret; try done; cbn in Hrun.
  - intros β [Hb _] Hh. apply (Hrun β); [by rewrite Hc1|done].
  - destruct Hrun as ([Hi2 He Hkn _ _] & Hkeep & Hn & _). destruct (ev_susp _ _ He i s0 Hs1) as (s3 & Hs3 & K). apply Hdone; [by apply (close_inv b2 i s3)|apply He| |exact Hkn].
    apply (same_run b1 b2 i setDead s0 Hi1 Hs1 eq_refl He); try done; [by intros β Hb Hh; split; [apply Hkeep|]|by intros β Hb; apply Hn|by intros Hsh β Hb _; apply Hn].
  - destruct Hrun as (p' & b3 & -> & [Hi3 He Hkn Hder Hkr] & Hiff & Hback & Hsh & Hok' & Hcov & _). destruct (ev_susp _ _ He i s0 Hs1) as (s3 & Hs3 & K).
    assert (Forall (fun q => known (cells b3) q.1) spawn) as Hspk3 by (eapply Forall_impl; [exact Hspk|]; intros q; rewrite <- Hc1; apply Hkn).
    destruct (add_spawn_spec (Some i) i spawn b3 Hi3 Hspk3) as (Hi4 & Hal & Hs4 & Hcs & Hreg). unfold oz_sleepPropagator. rewrite !add_spawn_setSusp. set (b4 := add_spawn i spawn b3) in *.
    assert (susps b4 !! i = Some s3) as Hs5 by (by rewrite Hs4).
    assert (forall t, known (cells b3) t -> deref (cells b4) t = deref (cells b3) t) as Hd4 by (intros t; apply alike_deref; [apply Hi3|apply Hi4|done]).
    assert (board_served b4 = board_served b1) as Hv4 by (unfold b4; rewrite add_spawn_served; apply He).
    assert (registered (cells b4) i p') as Hreg4.
    { intros t v Ht Hv. pose proof (so_known _ _ Hok') as Hk'. rewrite Forall_forall in Hk'. rewrite (Hd4 t (Hk' t Ht)) in Hv. destruct (Hcov t v Ht Hv) as (u & Hu & Huv).
      destruct (Hsp u Hu) as [st Hst]. by apply (Hreg u st v). }
    apply Hdone; [|exact Hv4|..].
    + apply (sleep_inv b4 i s3); try done. apply (alike_susp (cells b3)); [apply Hi3|apply Hi4|done|done].
    + apply (same_run b1 b3 i (fun s => unsetRunnableUnify (setPropagator p' s)) s0 Hi1 Hs1 eq_refl He); try done.
      * intros β Hb Hh. by destruct (proj1 (Hiff β) (conj Hb Hh)) as [Hb3 Hh'].
      * intros Hs0 s1 _ _. by apply Hsh.
      * intros Hs0 β Hb Hh'. apply Hiff. split; [done|]. apply (Hh' s3 Hs3). cbn. by rewrite (kp_dead _ _ K).
      * cbn. rewrite alter_alter. by rewrite Hs4.
    + intros t Ht. apply Hkn in Ht. destruct t as [v|n]; [|done]. destruct Ht as [c Hc]. specialize (Hal v). rewrite Hc in Hal. cbn. by destruct (cells b4 !! v) as [c'|].
Qed.
End schedule.
End Schedule.
