(* ===== verification/BoardTheorems.v ===== *)
(** * Computation spaces: the properties of the component *)
From stdpp Require Import gmap.
From S2P Require Import Prelude Word32 FDBase FDIntervals FDBitVector FiniteDomain FDRepr FDTheorems Propagators PropSpec PropTheorems Board BoardInv BoardVars BoardRun.
Import FiniteDomain FDRepr PropBase PropSpec Suspension FDVar Scheduler Wake Refs Space Vars Sleep Schedule.

(** ** What a program does with a space *)

Module Session.

(** Telling a domain, unifying, imposing a propagator, and running the propagators that are runnable. *)
Inductive Command := Tell (t : Term) (d : FiniteDomain) | Unify (t1 t2 : Term) | Impose (p : Propagator) (spawn : list (Term * OZ_FDPropState)) | Propagate (fuel : nat) (sflag : nat -> bool).

Section session.
Context `{FDEnv} `{LeaveOrder}.
Implicit Types (β : Z -> Z) (b : Board) (c : Command) (cs : list Command).

(** [Some None] is failure. *)
Definition exec c b : option (option Board) :=
  match c with
  | Tell t d => tellBasicConstraint t d b
  | Unify t1 t2 => oz_unify t1 t2 b
  | Impose p spawn => match impose p spawn b with Some (OZ_ENTAILED, b) => Some (Some b) | Some (OZ_FAILED, _) => Some None | _ => None end
  | Propagate fuel sflag =>
      match BI_prop_lpq fuel sflag false b with Some (OZ_ENTAILED, b) | Some (BI_REPLACEBICALL, b) => Some (Some b) | Some (OZ_FAILED, _) => Some None | _ => None end
  end.
Fixpoint session cs b : option (option Board) :=
  match cs with
  | [] => Some (Some b)
  | c :: cs => match exec c b with Some (Some b) => session cs b | r => r end
  end.

(** The constraint that a command adds. *)
Definition means c β : Prop :=
  match c with
  | Tell t d => fd_mem d (value β t) = true
  | Unify t1 t2 => value β t1 = value β t2
  | Impose p _ => holds p β
  | Propagate _ _ => True
  end.
Definition sharp_command c : Prop := match c with Impose p _ => sharp p = true | _ => True end.

(** The preconditions of a command. *)
Definition allowed c b : Prop :=
  match c with
  | Tell _ d => wf d
  | Unify t1 t2 => known (cells b) t1 /\ known (cells b) t2
  | Impose p spawn => imposable p spawn b
  | Propagate fuel _ => (measure b <= fuel)%nat
  end.
Fixpoint posed cs b : Prop :=
  match cs with
  | [] => True
  | c :: cs => allowed c b /\ match exec c b with Some (Some b) => posed cs b | _ => True end
  end.

Definition empty_board : Board := Brd ∅ [] 0 [] false 0.

Lemma empty_inv : inv None empty_board.
Proof. split; try done. split; cbn; try done; [constructor|by intros i ?%elem_of_nil]. Qed.

Lemma empty_solution β : solution empty_board β.
Proof. by split. Qed.

Lemma empty_sharp : sharp_space empty_board.
Proof. by intros i s. Qed.

(** The effect of a command on the solutions. *)
Definition effect (sh : Prop) (X : (Z -> Z) -> Prop) b (o : option (option Board)) : Prop :=
  match o with
  | Some (Some b') => inv None b' /\ board_served b' = false /\ (forall β, solution b β -> X β -> solution b' β) /\ (sh -> sharp_space b -> sharp_space b' /\ forall β, solution b' β -> solution b β /\ X β)
  | Some None => forall β, solution b β -> ~ X β
  | None => False
  end.

(** The propagators after a change of the variables. *)
Lemma evolves_solution b b' X : evolves b b' -> (forall β, cells_sol (cells b') β <-> cells_sol (cells b) β /\ X β) ->
  (forall β, solution b' β <-> solution b β /\ X β) /\ (sharp_space b -> sharp_space b').
Proof.
  intros He Hc. split.
  - intros β. unfold solution. rewrite Hc. split.
    + intros [[Hb Hx] Hall]. split; [|done]. split; [done|]. intros i s Hs Hd. destruct (ev_susp _ _ He i s Hs) as (s' & Hs' & [Kp Kd _ _]). rewrite <- Kp. apply (Hall i); congruence.
    + intros [[Hb Hall] Hx]. split; [done|]. intros i s' Hs' Hd. destruct (evolves_back b b' i s' He Hs') as (s & Hs & [Kp Kd _ _]). rewrite Kp. apply (Hall i); congruence.
  - intros Hsh i s' Hs' Hd. destruct (evolves_back b b' i s' He Hs') as (s & Hs & [Kp Kd _ _]). rewrite Kp. apply (Hsh i); congruence.
Qed.

Lemma leads_effect sh b b' X : board_served b = false -> leads None b b' -> (forall β, cells_sol (cells b') β <-> cells_sol (cells b) β /\ X β) -> effect sh X b (Some (Some b')).
Proof.
  intros Hv [Hi He _ _ _] Hc. destruct (evolves_solution b b' X He Hc) as [Hs Hsh]. split; [done|]. split; [by rewrite (ev_served _ _ He)|]. split; [intros β Hb Hx; by apply Hs|]. intros _ Hb. split; [by apply Hsh|]. intros β. apply Hs.
Qed.

Lemma exec_effect (Hg : globals_ok fd_env) c b : inv None b -> board_served b = false -> allowed c b -> effect (sharp_command c) (means c) b (exec c b).
Proof.
  intros Hi Hv Ha. destruct c as [t d|t1 t2|p spawn|fuel sflag]; cbn [exec means allowed sharp_command] in *.
  - pose proof (tellBasic_spec Hg None t d b Hi Ha) as Ht. destruct (tellBasicConstraint t d b) as [[b'|]|]; [|intros β [Hb _] Hx; pose proof (Ht β Hb); congruence|done].
    destruct Ht as (Hl & Hs & _). by apply leads_effect.
  - destruct Ha as [H1 H2]. pose proof (unify_spec Hg None t1 t2 b Hi H1 H2) as Hu. destruct (oz_unify t1 t2 b) as [[b'|]|]; [|intros β [Hb _]; by apply Hu|done].
    destruct Hu as [[Hl Hs _] _]. by apply leads_effect.
  - pose proof (impose_spec Hg p spawn b Hi Ha) as Hp. destruct (impose p spawn b) as [[[] b']|]; try done. cbn in Hp. destruct Hp as (Hi' & Hv' & Hk & _ & Hn).
    split; [done|]. split; [congruence|]. split; [done|]. intros Hsh Hb. by apply Hn.
  - pose proof (prop_lpq_spec Hg fuel sflag false b Hi Hv Ha) as Hp. destruct (BI_prop_lpq fuel sflag false b) as [[[] b']|]; try done; cbn in Hp.
    + intros β Hb. by destruct (proj2 Hp β).
    + destruct Hp as (Hi' & [K S N _] & _ & Hv'). split; [done|]. split; [done|]. split; [auto|]. intros _ Hb. split; [auto|]. intros β Hb'. split; [auto|done].
    + by destruct Hp.
    + destruct Hp as (Hi' & [K S N _] & _ & Hv'). split; [done|]. split; [done|]. split; [auto|]. intros _ Hb. split; [auto|]. intros β Hb'. split; [auto|done].
Qed.

Lemma session_effect (Hg : globals_ok fd_env) cs b : inv None b -> board_served b = false -> posed cs b -> effect (Forall sharp_command cs) (fun β => Forall (fun c => means c β) cs) b (session cs b).
Proof.
  revert b. induction cs as [|c cs IH]; intros b Hi Hv; cbn [posed session].
  - intros _. split; [done|]. split; [done|]. split; [done|]. intros _ Hb. split; [done|]. intros β Hs. split; [done|constructor].
  - intros [Ha Hp]. pose proof (exec_effect Hg c b Hi Hv Ha) as He. destruct (exec c b) as [[b1|]|]; [|intros β Hb [Hc _]%Forall_cons; by apply (He β)|done].
    destruct He as (Hi1 & Hv1 & K1 & N1). specialize (IH b1 Hi1 Hv1 Hp). destruct (session cs b1) as [[b2|]|]; [|intros β Hb [Hc Hcs]%Forall_cons; by apply (IH β); [apply K1|]|done].
    destruct IH as (Hi2 & Hv2 & K2 & N2). split; [done|]. split; [done|]. split.
    + intros β Hb [Hc Hcs]%Forall_cons. by apply K2; [apply K1|].
    + intros [Sc Scs]%Forall_cons Hb. destruct (N1 Sc Hb) as [Hb1 B1]. destruct (N2 Scs Hb1) as [Hb2 B2]. split; [done|]. intros β Hs. destruct (B2 β Hs) as [Hs1 Hcs]. destruct (B1 β Hs1) as [Hs0 Hc].
      split; [done|by constructor].
Qed.
End session.
End Session.

Import Session.

#[local] Existing Instance default_env.

(** ** A space to try things on *)

Definition vu : Term := Var 3.
Definition never : nat -> bool := fun _ => false.
Definition on (st : OZ_FDPropState) (l : list Term) : list (Term * OZ_FDPropState) := map (fun t => (t, st)) l.

Definition example_commands : list Command :=
  [Tell vx (span 0 9); Tell vy (span 0 5); Tell vz (span 0 1); Impose (LessEqOff vx vy (-1)) (on fd_prop_bounds [vx; vy]); Impose (Distinct [vx; vy]) (on fd_prop_singl [vx; vy]);
   Tell vy (span 0 2); Unify vx vz].
Definition example_board : Board := match session example_commands empty_board with Some (Some b) => b | _ => empty_board end.

Lemma wf_span a b : 0 <= a <= b -> b <= fd_sup -> wf (span a b).
Proof. intros Ha Hb. by apply (span_domain 0 a b). Qed.

Lemma example_posed : posed example_commands empty_board.
Proof.
  unfold example_commands. repeat (cbn [posed allowed]; split; [first [apply wf_span; unfold fd_sup; lia|split; by eexists|
    split; [repeat constructor; eexists; vm_compute; reflexivity|done|done|cbn; intros t Ht; repeat (apply elem_of_cons in Ht as [->|Ht]; [eexists; repeat (first [by constructor|apply list_elem_of_further])|]); by apply elem_of_nil in Ht|repeat constructor; eexists; vm_compute; reflexivity]]|];
    match goal with |- match ?e with _ => _ end => let r := eval vm_compute in e in change e with r; cbv iota end).
  done.
Qed.

Lemma example_board_inv : inv None example_board /\ board_served example_board = false.
Proof.
  pose proof (session_effect default_env_ok example_commands empty_board empty_inv eq_refl example_posed) as He. unfold example_board. destruct (session example_commands empty_board) as [[b|]|]; [split; apply He|by split; [apply empty_inv|]..].
Qed.

Lemma living_zero l : living l = 0 <-> forall i s, l !! i = Some s -> dead s = true.
Proof.
  unfold living, zlen. induction l as [|s l IH]; cbn; [split; [done|done]|]. split.
  - intros Hz. destruct (dead s) eqn:Ed; cbn in Hz; [|lia]. intros [|i] s' Hs'; [cbn in Hs'; congruence|]. by apply (proj1 IH Hz i).
  - intros Hall. rewrite (Hall 0%nat s eq_refl). cbn. apply IH. intros i s' Hs'. by apply (Hall (S i)).
Qed.

(** With an empty stack, what is alive sleeps on a variable. *)
Lemma sleepers_wait `{FDEnv} b : inv None b -> lpq b = [] -> forall i s, susps b !! i = Some s -> dead s = false ->
  runnable s = false /\ exists t v c, t ∈ params (propagator s) /\ deref (cells b) t = Var v /\ cells b !! v = Some c /\ free_cell c = true /\ i ∈ cell_lists c.
Proof.
  intros Hi Hq i s Hs Hd. assert (runnable s = false) as Er.
  { destruct (runnable s) eqn:Er; [|done]. destruct (qu_all _ _ (in_queue _ _ Hi) i s Hs Hd Er) as [Hin|]; [|done]. rewrite Hq in Hin. by apply elem_of_nil in Hin. }
  split; [done|]. pose proof (in_susp _ _ Hi i s Hs Hd ltac:(done)) as Hok. destruct (so_open _ _ Hok Er) as [v Hv].
  destruct (Run.current_root (cells b) s (Var v) (in_cells _ _ Hi) Hok Hv) as (c & Hc & Hf). unfold current in Hv. rewrite params_map in Hv.
  apply list_elem_of_fmap in Hv as (t & Ht & Hin). destruct (in_registered _ _ Hi i s Hs Hd ltac:(done) t v Hin (eq_sym Ht)) as (c' & Hc' & Hl).
  assert (c' = c) as -> by congruence. by exists t, v, c.
Qed.

(** ** A propagator that is marked as runnable and is not in the stack *)

Module Forgotten.
Create HintDb forgot.

Section forgotten.
Context `{FDEnv} `{LeaveOrder} (i : nat) (p : Propagator).
Implicit Types (b : Board) (c : PropCaller) (cs : list Command).

Definition forgotten b : Prop := exists s, susps b !! i = Some s /\ propagator s = p /\ dead s = false /\ runnable s = true /\ i ∉ lpq b.

Lemma forgotten_same b b' : susps b' = susps b -> lpq b' = lpq b -> forgotten b -> forgotten b'.
Proof. intros Es Eq. unfold forgotten. by rewrite Es, Eq. Qed.

Lemma forgotten_setCell v (c : Cell) b : forgotten b -> forgotten (setCell v c b).
Proof. by apply forgotten_same. Qed.

Lemma forgotten_other j f b : j <> i -> forgotten b -> forgotten (setSusp j f b).
Proof. intros Hne (s & Hs & Hr). exists s. split; [|done]. cbn. by rewrite list_lookup_alter_ne. Qed.

Lemma forgotten_unify j b : forgotten b -> forgotten (setSusp j setUnify b).
Proof.
  destruct (decide (j = i)) as [->|Hne]; [|by apply forgotten_other]. intros (s & Hs & Hp & Hd & Hr & Hq). exists (setUnify s). cbn. by rewrite list_lookup_alter_eq, Hs.
Qed.

Lemma forgotten_push j b : j <> i -> forgotten b -> forgotten (addToLPQ j b).
Proof. intros Hne (s & Hs & Hp & Hd & Hr & Hq). exists s. split_and!; try done. cbn. intros [->|?]%elem_of_cons; done. Qed.

Lemma forgotten_wakeup c j b : forgotten b -> forgotten (wakeup c j b).2.
Proof.
  intros Hb. pose proof Hb as (s & Hs & _ & Hd & Hr & _). unfold wakeup. destruct (susps b !! j) as [s'|] eqn:Es; [|done]. destruct (dead s'); [done|].
  destruct (runnable s') eqn:Er.
  - cbn. destruct (_ && _); [by apply forgotten_unify|done].
  - assert (j <> i) as Hne by (intros ->; congruence). cbn. apply forgotten_push; [done|]. apply forgotten_other; [done|]. destruct (is_called c); [by apply forgotten_unify|done].
Qed.

Lemma forgotten_check wake l b : (forall j b, forgotten b -> forgotten (wake j b).2) -> forgotten b -> forgotten (checkSuspensionList wake l b).2.
Proof.
  intros Hw. revert b. induction l as [|j l IH]; intros b Hb; cbn; [done|]. pose proof (Hw j b Hb) as H1. destruct (wake j b) as [go b1]. cbn in H1.
  pose proof (IH b1 H1) as H2. by destruct (checkSuspensionList wake l b1).
Qed.

Lemma forgotten_any l c b : forgotten b -> forgotten (oz_checkAnySuspensionList l c b).2.
Proof. apply forgotten_check. intros j b'. apply forgotten_wakeup. Qed.
Lemma forgotten_local l c b : forgotten b -> forgotten (oz_checkLocalSuspensionList l c b).2.
Proof. apply forgotten_check. intros j b'. rewrite wakeupLocal_wakeup. apply forgotten_wakeup. Qed.

Lemma forgotten_fd v st c b : forgotten b -> forgotten (OzFDVariable_propagate v st c b).
Proof.
  intros Hb. unfold OzFDVariable_propagate. destruct (cells b !! v) as [[| |d ls lb la|]|]; try done.
  assert (forall (x : bool) l b, forgotten b -> forgotten (if x then oz_checkLocalSuspensionList l c b else (l, b)).2) as Hl by (intros [] l b' ?; [by apply forgotten_local|done]).
  pose proof (Hl (is_called c || match st with fd_prop_singl => true | _ => false end) ls b Hb) as H1. destruct (if is_called c || match st with fd_prop_singl => true | _ => false end then _ else (ls, b)) as [ls' b1]. cbn in H1.
  pose proof (Hl (is_called c || match st with fd_prop_any => false | _ => true end) lb b1 H1) as H2. destruct (if is_called c || match st with fd_prop_any => false | _ => true end then _ else (lb, b1)) as [lb' b2]. cbn in H2.
  pose proof (forgotten_any la c b2 H2) as H3. destruct (oz_checkAnySuspensionList la c b2) as [la' b3]. by apply forgotten_setCell.
Qed.

Lemma forgotten_bool v c b : forgotten b -> forgotten (OzBoolVariable_propagate v c b).
Proof.
  intros Hb. unfold OzBoolVariable_propagate. destruct (cells b !! v) as [[| | |la]|]; try done. pose proof (forgotten_any la c b Hb) as H3.
  destruct (oz_checkAnySuspensionList la c b) as [la' b3]. by apply forgotten_setCell.
Qed.

Lemma forgotten_stir v b : forgotten b -> forgotten (propagateUnify v b).
Proof. intros Hb. unfold propagateUnify. destruct (cells b !! v) as [[]|]; try done; [by apply forgotten_fd|by apply forgotten_bool]. Qed.

Lemma forgotten_relink v w b : forgotten b -> forgotten (relinkSuspListTo v w b).
Proof. intros Hb. unfold relinkSuspListTo. destruct (cells b !! v) as [[]|], (cells b !! w) as [[]|]; try done; by apply forgotten_setCell. Qed.

Lemma forgotten_setDom v d b : forgotten b -> forgotten (setDom v d b).
Proof. intros Hb. unfold setDom. destruct (cells b !! v) as [[]|]; try done; by apply forgotten_setCell. Qed.

Lemma forgotten_becomesBool v b : forgotten b -> forgotten (becomesBool v b).
Proof. intros Hb. unfold becomesBool. destruct (cells b !! v) as [[]|]; try done; by apply forgotten_setCell. Qed.

Lemma forgotten_becomesInt v n b : forgotten b -> forgotten (becomesSmallIntAndPropagate v n b).
Proof. intros Hb. unfold becomesSmallIntAndPropagate. apply forgotten_setCell. destruct (cells b !! v) as [[]|]; try done; by (apply forgotten_fd || apply forgotten_bool). Qed.

(** The results of operations that can fail. *)
Definition forgotten_by (o : option (option Board)) : Prop := match o with Some (Some b) => forgotten b | _ => True end.

#[local] Hint Resolve forgotten_setCell forgotten_fd forgotten_bool forgotten_stir forgotten_relink forgotten_setDom forgotten_becomesBool forgotten_becomesInt : forgot.

Lemma forgotten_bind_fd v w d b : forgotten b -> forgotten (bind_fd v w d b).
Proof. intros Hb. unfold bind_fd, bindLocalVar. destruct (is_state d fd_bool); auto 8 with forgot. Qed.
#[local] Hint Resolve forgotten_bind_fd : forgot.

Lemma forgotten_fd_unify v w b : forgotten b -> forgotten_by (OzFDVariable_unify v w b).
Proof.
  intros Hb. unfold OzFDVariable_unify. destruct (cells b !! v) as [[| |dl ? ? ?|]|], (cells b !! w) as [[| |dr ? ? ?|]|]; try done. destruct (op_and dl dr) as [d|]; [|done]. ored.
  unfold bindLocalVarToValue. ifs; cbn; auto 8 with forgot.
Qed.

Lemma forgotten_bool_unify v w b : forgotten b -> forgotten_by (OzBoolVariable_unify v w b).
Proof.
  intros Hb. unfold OzBoolVariable_unify, bindLocalVar, bindLocalVarToValue. destruct (cells b !! w) as [[| |d ? ? ?|]|]; try done; [destruct (intersectWithBool d); [|done]; ored|]; ifs; cbn; auto 10 with forgot.
Qed.

Lemma forgotten_var_bind v n b : forgotten b -> forgotten_by (oz_var_bind v n b).
Proof.
  intros Hb. unfold oz_var_bind, bindLocalVarToValue. destruct (cells b !! v) as [[| |d ? ? ?|]|]; try done; [destruct (isIn d n) as [[]|]; try done; ored|]; ifs; cbn; auto with forgot.
Qed.

Lemma forgotten_oz_unify t u b : forgotten b -> forgotten_by (oz_unify t u b).
Proof.
  intros Hb. unfold oz_unify. destruct (deref _ t) as [v|n], (deref _ u) as [w|k]; try by apply forgotten_var_bind.
  - destruct (v =? w); [done|]. destruct (cells b !! v) as [[]|], (cells b !! w) as [[]|]; try done; by (apply forgotten_fd_unify || apply forgotten_bool_unify).
  - by destruct (n =? k).
Qed.

Lemma forgotten_tell v d b : forgotten b -> forgotten (tell v d b).
Proof.
  intros Hb. unfold tell, becomesBoolVarAndPropagate. destruct (cells b !! v) as [[| |e ? ? ?|]|]; try done; ifs; auto 6 with forgot.
Qed.

Lemma forgotten_tellBasic t d b : forgotten b -> forgotten_by (tellBasicConstraint t d b).
Proof.
  intros Hb. unfold tellBasicConstraint, becomesBoolVarAndPropagate, bindLocalVarToValue. destruct (is_state d fd_empty); [done|]. destruct (deref _ t) as [v|n]; [|destruct (isIn d n) as [[]|]; done].
  destruct (cells b !! v) as [[| |e ? ? ?|]|]; try done.
  - destruct (op_and e d); [|done]. ored. ifs; cbn; auto 6 with forgot.
  - destruct (intersectWithBool d); [|done]. ored. ifs; cbn; auto with forgot.
  - ifs; cbn; auto with forgot.
Qed.

Lemma forgotten_tells l d b : forgotten b -> forgotten (tells l d b).
Proof.
  revert b. induction l as [|t l IH]; intros b Hb; cbn; [done|]. apply IH. destruct t as [v|]; [|done]. destruct (d !! Var v); [by apply forgotten_tell|done].
Qed.

Lemma forgotten_run j b r b' : j <> i -> forgotten b -> oz_runPropagator j b = Some (r, b') -> forgotten b'.
Proof.
  intros Hne Hb. unfold oz_runPropagator. destruct (susps b !! j) as [s|]; [|done]. ored. destruct (Propagate.propagate _ _ _) as [[|d|d p'|d x y]|]; [| | | |done]; ored.
  - by intros [= _ <-].
  - intros [= _ <-]. by apply forgotten_tells.
  - intros [= _ <-]. apply forgotten_other; [done|by apply forgotten_tells].
  - pose proof (forgotten_oz_unify x y _ (forgotten_tells (leave_order (map_params (deref (cells b)) (propagator s))) d b Hb)) as Hu.
    destruct (oz_unify x y _) as [[b2|]|]; [| |done]; ored; [by intros [= _ <-]|]. intros [= _ <-]. done.
Qed.

Lemma forgotten_loop fuel sflag raise b r b' : forgotten b -> schedule_loop fuel sflag raise b = Some (r, b') -> forgotten b'.
Proof.
  assert (forall b, forgotten b -> forgotten (killServeLPQ b)) as Hkill by (intros b0 (s & Hs & Hp & Hd & Hr & Hq); exists s; split_and!; try done; by apply not_elem_of_nil).
  revert b. induction fuel as [|fuel IH]; intros b Hb; cbn [schedule_loop]; (destruct (lpq b) as [|j q] eqn:Eq; [intros [= _ <-]; by apply Hkill|]);
    (destruct (sflag _); [intros [= _ <-]; by apply (forgotten_same b)|]); [done|]. destruct (susps b !! j) as [s|] eqn:Es; [|done]. ored.
  pose proof Hb as (s0 & Hs0 & Hp & Hd & Hr & Hq). assert (j <> i) as Hne by (intros ->; apply Hq; rewrite Eq; by left).
  assert (forgotten (setLPQ q b)) as Hb1 by (exists s0; split_and!; try done; intros Hin; apply Hq; rewrite Eq; by right).
  destruct (dead s); [by apply IH|]. destruct (oz_runPropagator j (setLPQ q b)) as [[ret b2]|] eqn:Er; [|done]. ored. pose proof (forgotten_run j _ _ _ Hne Hb1 Er) as Hb2.
  assert (forgotten (oz_closeDonePropagator j b2)) as Hc by (apply (forgotten_same (setSusp j setDead b2)); [done|done|by apply forgotten_other]).
  destruct ret; try (intros [= _ <-]; by apply Hkill); apply IH; [done|by apply forgotten_other].
Qed.

Lemma forgotten_impose q spawn b r b' : forgotten b -> impose q spawn b = Some (r, b') -> forgotten b'.
Proof.
  intros Hb. unfold impose, oz_newPropagator. set (j := length (susps b)). pose proof Hb as (s & Hs & Hp & Hd & Hr & Hq).
  assert (j <> i) as Hne by (apply lookup_lt_Some in Hs; unfold j; lia).
  match goal with |- context [oz_runPropagator j ?b1] => set (b1' := b1); assert (forgotten b1') as Hb1 end.
  { exists s. split_and!; try done. cbn. rewrite lookup_app_l; [done|by eapply lookup_lt_Some]. }
  destruct (oz_runPropagator j b1') as [[ret b2]|] eqn:Er; [|done]. ored. pose proof (forgotten_run j _ _ _ Hne Hb1 Er) as Hb2.
  assert (forgotten (oz_closeDonePropagator j b2)) as Hc by (apply (forgotten_same (setSusp j setDead b2)); [done|done|by apply forgotten_other]).
  assert (forall b, forgotten b -> forgotten (add_spawn j spawn b)) as Hadd.
  { clear -Hne. intros b0 Hb0. induction spawn as [|[t st] spawn IH]; cbn [add_spawn]; [done|]. destruct (deref _ t) as [v|]; [|done]. unfold addSusp.
    destruct (cells _ !! v) as [[]|]; try done; by apply forgotten_setCell. }
  destruct ret; intros [= _ <-]; try done. by apply Hadd, forgotten_other.
Qed.

Lemma session_forgotten cs b b' : forgotten b -> session cs b = Some (Some b') -> forgotten b'.
Proof.
  revert b. induction cs as [|c cs IH]; intros b Hb; cbn [session]; [by intros [= <-]|]. destruct (exec c b) as [[b1|]|] eqn:Ec; [|done|done]. apply IH.
  destruct c as [t d|t u|q spawn|fuel sflag]; cbn [exec] in Ec.
  - pose proof (forgotten_tellBasic t d b Hb) as H1. by rewrite Ec in H1.
  - pose proof (forgotten_oz_unify t u b Hb) as H1. by rewrite Ec in H1.
  - destruct (impose q spawn b) as [[r b2]|] eqn:Ei; [|done]. pose proof (forgotten_impose q spawn b r b2 Hb Ei). destruct r; try done. by injection Ec as <-.
  - destruct (BI_prop_lpq fuel sflag false b) as [[r b2]|] eqn:Ei; [|done]. unfold BI_prop_lpq, scheduleLPQ in Ei. destruct (board_served _); [done|].
    apply forgotten_loop in Ei; [|by apply (forgotten_same b)]. destruct r; try done; by injection Ec as <-.
Qed.
End forgotten.

(** An exception comes with an empty stack. *)
Lemma raise_empties `{FDEnv} `{LeaveOrder} fuel sflag b b' : BI_prop_lpq fuel sflag true b = Some (RAISE, b') -> lpq b' = [].
Proof.
  unfold BI_prop_lpq, scheduleLPQ. destruct (board_served _); [done|]. match goal with |- schedule_loop _ _ _ ?b0 = _ -> _ => generalize b0 end. clear b.
  induction fuel as [|fuel IH]; intros b; cbn [schedule_loop]; (destruct (lpq b) as [|j q]; [done|]); (destruct (sflag _); [done|]); [done|].
  destruct (susps b !! j) as [s|]; [|done]. ored. destruct (dead s); [apply IH|]. destruct (oz_runPropagator j (setLPQ q b)) as [[ret b2]|]; [|done]. ored.
  destruct ret; try apply IH; by intros [= <-].
Qed.
End Forgotten.

Import Forgotten.

Section properties.
Context (env : FDEnv) (ord : LeaveOrder).
Implicit Types (b : Board) (β : Z -> Z) (cs : list Command).

(** C12: The scheduler comes back within as many rounds as its measure: the sizes of the domains times the number of
    propagators, plus the stack.  If it returns that it is done, the stack is empty and the space
    has all its solutions, and no new ones unless a minimum or maximum was alive; if it is
    interrupted by a status flag, the same holds of the space and another call is pending; it fails,
    or raises failure as an exception, only when the space has no solution.  This is for spaces that satisfy the
    invariant and that are not being served: in particular none of the propagators that are alive is a Times, TimesD, DivD,
    DivI, TwiceD, SquareD or PlusD, which lose solutions when variables become equal, and the divisors of the
    others are positive and their Boolean parameters Boolean. *)
Theorem scheduler_exact fuel sflag (raise : bool) b : globals_ok fd_env -> inv None b -> board_served b = false -> (measure b <= fuel)%nat ->
  match BI_prop_lpq fuel sflag raise b with
  | Some (OZ_ENTAILED, b') => inv None b' /\ lpq b' = [] /\ (forall β, solution b β -> solution b' β) /\ (sharp_space b -> forall β, solution b' β -> solution b β)
  | Some (BI_REPLACEBICALL, b') => inv None b' /\ (0 < servers b')%nat /\ (forall β, solution b β -> solution b' β) /\ (sharp_space b -> forall β, solution b' β -> solution b β)
  | Some (OZ_FAILED, _) => raise = false /\ forall β, ~ solution b β
  | Some (RAISE, _) => raise = true /\ forall β, ~ solution b β
  | _ => False
  end.
Proof.
  intros Hg Hi Hv Hm. pose proof (prop_lpq_spec Hg fuel sflag raise b Hi Hv Hm) as Hs. destruct (BI_prop_lpq fuel sflag raise b) as [[[] b']|]; try done; cbn in Hs.
  - destruct Hs as (Hi' & [K S N _] & Hq & _). auto.
  - destruct Hs as (Hi' & [K S N _] & Hq & _). auto.
Qed.

(** C13: A program that tells domains, unifies, imposes propagators and runs the scheduler, in any order, ends in a space
    whose solutions are the assignments that satisfy all it has said, or in failure when there are
    none.  The operations keep the invariant: domains of variables have two or more elements,
    references lead to greater addresses, a propagator is in the stack exactly while it is runnable,
    a sleeping one has a variable left and is suspended on all it has, and none that must
    know of equal variables has any without its flag.  This is for the propagators that stay exact when
    variables become equal; of minimum and maximum it is only known that no solution is lost. *)
Theorem session_exact cs : globals_ok fd_env -> posed cs empty_board ->
  match session cs empty_board with
  | Some (Some b) => inv None b /\ (forall β, Forall (fun c => means c β) cs -> solution b β) /\ (Forall sharp_command cs -> forall β, solution b β -> Forall (fun c => means c β) cs)
  | Some None => forall β, ~ Forall (fun c => means c β) cs
  | None => False
  end.
Proof.
  intros Hg Hp. pose proof (session_effect Hg cs empty_board empty_inv eq_refl Hp) as He. destruct (session cs empty_board) as [[b|]|]; [|intros β; apply He, empty_solution|done].
  destruct He as (Hi & _ & K & N). split; [done|]. split; [intros β; apply K, empty_solution|]. intros Hs β Hb. by apply (N Hs empty_sharp).
Qed.

(** C14: When the scheduler, with enough fuel, comes back done after a program of a new space, the space is stable.  Every propagator that is
    alive sleeps, and it is suspended on a variable of its that is not determined; the suspensions that the
    space counts are the propagators that are alive.  So when all variables are determined it
    counts none; and when it counts none, every assignment within the domains satisfies all that the
    program has said, if no minimum or maximum was imposed.  No assignment that does is ever excluded.  The
    programs are those of [session_exact]: [posed], with propagators that stay exact. *)
Theorem stable_solved cs fuel sflag (raise : bool) b b' : globals_ok fd_env -> posed cs empty_board -> session cs empty_board = Some (Some b) -> (measure b <= fuel)%nat ->
  BI_prop_lpq fuel sflag raise b = Some (OZ_ENTAILED, b') ->
  (forall i s, susps b' !! i = Some s -> dead s = false ->
     runnable s = false /\ exists t v c, t ∈ params (propagator s) /\ deref (cells b') t = Var v /\ cells b' !! v = Some c /\ free_cell c = true /\ i ∈ cell_lists c) /\
  suspCount b' = zlen (List.filter (fun s => negb (dead s)) (susps b')) /\
  ((forall v c, cells b' !! v = Some c -> free_cell c = false) -> suspCount b' = 0) /\
  (Forall sharp_command cs -> suspCount b' = 0 -> forall β, cells_sol (cells b') β -> Forall (fun c => means c β) cs) /\
  (forall β, Forall (fun c => means c β) cs -> cells_sol (cells b') β).
Proof.
  intros Hg Hp Hses Hm Hrun. pose proof (session_effect Hg cs empty_board empty_inv eq_refl Hp) as He. rewrite Hses in He. destruct He as (Hi & Hv & K & N).
  pose proof (prop_lpq_spec Hg fuel sflag raise b Hi Hv Hm) as Hs. rewrite Hrun in Hs. destruct Hs as (Hi' & [K' S' N' _] & Hq & _).
  pose proof (sleepers_wait b' Hi' Hq) as Hopen. split; [done|]. split; [apply (in_count _ _ Hi')|]. rewrite (in_count _ _ Hi'), living_zero. split; [|split].
  - intros Hdet i s Hs. destruct (dead s) eqn:Ed; [done|]. destruct (Hopen i s Hs Ed) as (_ & t & v & c & _ & _ & Hc & Hf & _). by rewrite (Hdet v c Hc) in Hf.
  - intros Hsh Hdead β Hb. destruct (N Hsh empty_sharp) as [Hsp Hback]. apply Hback, N'; [done|]. split; [done|]. intros i s Hs Hd. by rewrite (Hdead i s Hs) in Hd.
  - intros β Hall. by apply K', K; [apply empty_solution|].
Qed.

(** C33: A failure that is raised as an exception empties the stack, and a propagator that is alive and still marked as
    runnable then, as those that waited in the stack are (see the witness), is never run again.  Whatever commands the
    program goes on with, as long as they succeed, it stays alive as it is and is not put into the stack, and so the
    constraint that it stands for is not enforced any more. *)
Theorem raise_forgets fuel sflag b b1 i s cs b2 :
  BI_prop_lpq fuel sflag true b = Some (RAISE, b1) -> susps b1 !! i = Some s -> dead s = false -> runnable s = true -> session cs b1 = Some (Some b2) ->
  lpq b1 = [] /\ exists s', susps b2 !! i = Some s' /\ propagator s' = propagator s /\ dead s' = false /\ runnable s' = true /\ i ∉ lpq b2.
Proof.
  intros Hr Hs Hd Hrun Hses. assert (lpq b1 = []) as Hq by by apply (raise_empties fuel sflag b). split; [done|].
  destruct (session_forgotten i (propagator s) cs b1 b2) as (s' & ? & ? & ? & ? & ?); [|done|by exists s'].
  exists s. rewrite Hq. split_and!; try done. by apply not_elem_of_nil.
Qed.
End properties.

(** ** Witnesses *)

Lemma scheduler_exact_witness :
  match BI_prop_lpq 100 never false example_board with
  | Some (OZ_ENTAILED, b') => inv None b' /\ lpq b' = [] /\ (forall β, solution example_board β -> solution b' β) /\ (sharp_space example_board -> forall β, solution b' β -> solution example_board β)
  | Some (BI_REPLACEBICALL, b') => inv None b' /\ (0 < servers b')%nat /\ (forall β, solution example_board β -> solution b' β) /\ (sharp_space example_board -> forall β, solution b' β -> solution example_board β)
  | Some (OZ_FAILED, _) => false = false /\ forall β, ~ solution example_board β
  | Some (RAISE, _) => false = true /\ forall β, ~ solution example_board β
  | _ => False
  end.
Proof. apply (scheduler_exact default_env left_to_right 100 never false example_board); [apply default_env_ok|apply example_board_inv|apply example_board_inv|apply Nat.leb_le; vm_compute; reflexivity]. Defined.

Lemma session_exact_witness :
  match session example_commands empty_board with
  | Some (Some b) => inv None b /\ (forall β, Forall (fun c => means c β) example_commands -> solution b β) /\ (Forall sharp_command example_commands -> forall β, solution b β -> Forall (fun c => means c β) example_commands)
  | Some None => forall β, ~ Forall (fun c => means c β) example_commands
  | None => False
  end.
Proof. apply (session_exact default_env left_to_right example_commands); [apply default_env_ok|apply example_posed]. Defined.


(** The example is stable after its propagators have been run. *)
Lemma stable_solved_witness : exists b b', session example_commands empty_board = Some (Some b) /\ BI_prop_lpq 100 never false b = Some (OZ_ENTAILED, b') /\
  suspCount b' = zlen (List.filter (fun s => negb (dead s)) (susps b')).
Proof.
  destruct (session example_commands empty_board) as [[b|]|] eqn:Eb; [|vm_compute in Eb; discriminate..]. pose proof Eb as Eb'. vm_compute in Eb'. injection Eb' as Eb'.
  destruct (BI_prop_lpq 100 never false b) as [[r b']|] eqn:Er; [|rewrite <- Eb' in Er; vm_compute in Er; discriminate].
  assert (r = OZ_ENTAILED) as Hr by (rewrite <- Eb' in Er; vm_compute in Er; injection Er as <- _; reflexivity). rewrite Hr in Er. exists b, b'. split; [reflexivity|]. split; [exact Er|].
  refine (proj1 (proj2 (stable_solved default_env left_to_right example_commands 100 never false b b' default_env_ok example_posed Eb _ Er))).
  apply Nat.leb_le. rewrite <- Eb'. vm_compute. reflexivity.
Defined.

(** A disequation is imposed and waits in the stack behind a constraint that fails. *)
Definition failing_commands : list Command :=
  [Tell vx (span 0 1); Tell vz (span 0 1); Tell vu (span 0 1); Tell vy (span 0 5); Impose (Distinct [vx; vz; vu]) (on fd_prop_singl [vx; vz; vu]);
   Impose (NotEqOff vx vy 0) (on fd_prop_singl [vx; vy]); Tell vx (span 1 1)].

(** Afterwards the two variables of the disequation become equal integers. *)
Lemma raise_forgets_witness : exists b b1 b2, session failing_commands empty_board = Some (Some b) /\ BI_prop_lpq 100 never true b = Some (RAISE, b1) /\
  session [Tell vy (span 1 1); Propagate 100 never] b1 = Some (Some b2) /\ deref (cells b2) vx = SmallInt 1 /\ deref (cells b2) vy = SmallInt 1 /\
  exists s', susps b2 !! 1%nat = Some s' /\ propagator s' = NotEqOff vx vy 0 /\ dead s' = false.
Proof.
  destruct (session failing_commands empty_board) as [[b|]|] eqn:Eb; [|vm_compute in Eb; discriminate..]. exists b. vm_compute in Eb. injection Eb as Eb.
  destruct (BI_prop_lpq 100 never true b) as [[r b1]|] eqn:Er; [|rewrite <- Eb in Er; vm_compute in Er; discriminate]. exists b1.
  assert (r = RAISE) as Hr by (rewrite <- Eb in Er; vm_compute in Er; injection Er as <- _; reflexivity). rewrite Hr in Er. pose proof Er as Er'. rewrite <- Eb in Er'. vm_compute in Er'. injection Er' as Eb1.
  destruct (session [Tell vy (span 1 1); Propagate 100 never] b1) as [[b2|]|] eqn:E2; [|rewrite <- Eb1 in E2; vm_compute in E2; discriminate..]. exists b2.
  destruct (susps b1 !! 1%nat) as [s|] eqn:Es; [|rewrite <- Eb1 in Es; vm_compute in Es; discriminate].
  assert (propagator s = NotEqOff vx vy 0 /\ dead s = false /\ runnable s = true) as (Hp & Hd & Hrun) by (rewrite <- Eb1 in Es; vm_compute in Es; injection Es as <-; repeat split).
  destruct (raise_forgets default_env left_to_right 100 never b b1 1 s _ b2 Er Es Hd Hrun E2) as (_ & s' & Hs' & Hp' & Hd' & _).
  split; [reflexivity|]. split; [rewrite Hr; reflexivity|]. split; [reflexivity|]. rewrite <- Eb1 in E2. vm_compute in E2. injection E2 as E2. split; [rewrite <- E2; vm_compute; reflexivity|].
  split; [rewrite <- E2; vm_compute; reflexivity|]. exists s'. split; [exact Hs'|]. split; [rewrite Hp'; exact Hp|exact Hd'].
Defined.
