(* ===== verification/ByteData.v ===== *)
(** * Bit strings, byte strings and their marshaling ([bytedata.cc], [bytedata.hh], [marshalerBase.hh], [byteBuffer.hh])

    The encodings of numbers, strings and floats in pickles and messages; the classes behind the
    language modules BitString and ByteString with their builtins; and their transfer to other sites, in
    fragments that fit the buffers.  A byte is a number from 0 to 255. *)
From S2P Require Import Prelude Word32 BitArray.

(** * Encodings *)

Module Marshaler.

(** Conversion to [BYTE]. *)
Definition BYTE (x : Z) : Z := x mod 256.

Definition SBit : Z := 128.
Definition DIFMaxSize : Z := 1.
Definition MNumberMaxSize : Z := 5.
Definition DIF_SMALLINT : Z := 1.
Definition DIF_FLOAT : Z := 3.
Definition DIF_EXT_CONT : Z := 50.

(** A [ByteBuffer] that is written to: the bytes from [buf] to [posMB], and [endMB - posMB].  The test
    of [put] lets one byte more pass than there is space, and [putNext] is an error. *)
Record ByteBuffer := BB { written : list Z; availableSpace : Z }.

Definition put (b : Z) (bs : ByteBuffer) : option ByteBuffer :=
  if availableSpace bs <? 0 then None else Some (BB (written bs ++ [BYTE b]) (availableSpace bs - 1)).

(** One that is read from, as the bytes that are left. *)
Definition get (l : list Z) : option (Z * list Z) := match l with [] => None | b :: l => Some (b, l) end.

Definition marshalDIF (tag : Z) : ByteBuffer -> option ByteBuffer := put tag.
Definition marshalByte (c : Z) : ByteBuffer -> option ByteBuffer := put c.

(** [while (s < end) marshalByte(bs, *s++)] *)
Fixpoint marshalBytes (s : list Z) (bs : ByteBuffer) : option ByteBuffer :=
  match s with [] => Some bs | c :: s => bs ← marshalByte c bs; marshalBytes s bs end.

(** Seven bits of an [unsigned int] per round: five rounds. *)
Fixpoint marshalNumber_loop (fuel : nat) (i : Z) (bs : ByteBuffer) : option ByteBuffer :=
  match fuel with
  | O => None
  | S fuel =>
      if SBit <=? i then bs ← put (Z.lor (i mod SBit) SBit) bs; marshalNumber_loop fuel (i / SBit) bs
      else put i bs
  end.
Definition marshalNumber (i : Z) (bs : ByteBuffer) : option ByteBuffer := marshalNumber_loop 5 (w32 i) bs.

(** Shifting by the width of the word or more is undefined. *)
Fixpoint unmarshalNumber_loop (l : list Z) (ret shft : Z) : option (Z * list Z) :=
  match l with
  | [] => None
  | c :: l =>
      if negb (shft <? 32) then None
      else if SBit <=? c then unmarshalNumber_loop l (w32 (ret + shl32 (c - SBit) shft)) (shft + 7)
      else Some (Z.lor ret (shl32 c shft), l)
  end.
Definition unmarshalNumber (l : list Z) : option (Z * list Z) := unmarshalNumber_loop l 0 0.

Fixpoint skipNumber (l : list Z) : option (list Z) :=
  match l with [] => None | c :: l => if SBit <=? c then skipNumber l else Some l end.

(** A C string is the list of its bytes, without the NUL. *)
Definition marshalString (s : list Z) (bs : ByteBuffer) : option ByteBuffer :=
  bs ← marshalNumber (zlen s) bs; marshalBytes s bs.

Fixpoint getString (n : nat) (l : list Z) : option (list Z * list Z) :=
  match n with
  | O => Some ([], l)
  | S n => '(c, l) ← get l; '(s, l) ← getString n l; Some (c :: s, l)
  end.
Definition unmarshalString (l : list Z) : option (list Z * list Z) :=
  '(i, l) ← unmarshalNumber l; getString (Z.to_nat i) l.

(** A small integer is converted to [unsigned int] and back. *)
Definition marshalSmallInt (i : Z) (bs : ByteBuffer) : option ByteBuffer :=
  bs ← marshalDIF DIF_SMALLINT bs; marshalNumber i bs.

(** A [double] as its two words, the lower one first. *)
Definition marshalFloat (d : Z * Z) (bs : ByteBuffer) : option ByteBuffer :=
  bs ← marshalDIF DIF_FLOAT bs; bs ← marshalNumber d.1 bs; marshalNumber d.2 bs.
Definition unmarshalFloat (l : list Z) : option (Z * Z * list Z) :=
  '(i0, l) ← unmarshalNumber l; '(i1, l) ← unmarshalNumber l; Some (i0, i1, l).

(** The cases of the unmarshaler for these. *)
Inductive Number := SmallInt (i : Z) | Float (d : Z * Z).
Definition unmarshal (l : list Z) : option (Number * list Z) :=
  '(tag, l) ← get l;
  if tag =? DIF_SMALLINT then '(i, l) ← unmarshalNumber l; Some (SmallInt (s32 i), l)
  else if tag =? DIF_FLOAT then '(d, l) ← unmarshalFloat l; Some (Float d, l)
  else None.
End Marshaler.

Import Marshaler.
Import BitArray (oz_elem(..), oz_list(..), oz_bool(..)).

(** The outcomes of the builtins. *)
Inductive oz_exn := widthMismatch | indexOutOfBound | TypeError (pos : Z).
Inductive oz_outcome (A : Type) := Proceed (a : A) | Raise (e : oz_exn) | Suspend.
#[global] Arguments Proceed {A}.
#[global] Arguments Raise {A}.
#[global] Arguments Suspend {A}.

(** [OZ_isList]: the spine of an argument is walked first. *)
Fixpoint OZ_isList (l : oz_list) : oz_outcome unit :=
  match l with
  | LCons _ l => OZ_isList l
  | LNil => Proceed tt
  | LVar => Suspend
  | LOther => Raise (TypeError 1)
  end.
Fixpoint spine_length (l : oz_list) : Z := match l with LCons _ l => spine_length l + 1 | _ => 0 end.
Definition OZ_length (l : oz_list) : Z := match OZ_isList l with Proceed _ => spine_length l | _ => -1 end.

(** * Bit strings *)

Module BitStrings.

Definition BITS_PER_BYTE : Z := 8.

Record BitString := BS { width : Z; data : list Z }.

Definition getSize (w : Z) : Z := Z.quot w BITS_PER_BYTE + (if Z.rem w BITS_PER_BYTE =? 0 then 0 else 1).

(** An allocation of a negative size has no result. *)
Definition newBitString (w : Z) : option BitString :=
  if getSize w <? 0 then None else Some (BS w (replicate (Z.to_nat (getSize w)) 0)).

Definition checkIndex (b : BitString) (i : Z) : bool := (0 <=? i) && (i <? width b).

Fixpoint equal_loop (n : nat) (i : Z) (d e : list Z) : option bool :=
  match n with
  | O => Some true
  | S n => x ← d.[i]; y ← e.[i]; if x =? y then equal_loop n (i + 1) d e else Some false
  end.
Definition equal (b s : BitString) : option bool :=
  if negb (width b =? width s) then Some false else equal_loop (Z.to_nat (getSize (width b))) 0 (data b) (data s).

Definition get (b : BitString) (i : Z) : option Z :=
  if checkIndex b i then x ← (data b).[i / BITS_PER_BYTE]; Some (Z.land x (Z.shiftl 1 (i mod BITS_PER_BYTE))) else None.

Definition put (b : BitString) (i : Z) (on : bool) : option BitString :=
  if checkIndex b i then
    x ← (data b).[i / BITS_PER_BYTE];
    let m := Z.shiftl 1 (i mod BITS_PER_BYTE) in
    d ← (data b).[i / BITS_PER_BYTE <- if on then Z.lor x m else Z.land x (Z.lnot m)];
    Some (BS (width b) d)
  else None.

Definition ZERO_LEFT_OVER (w : Z) (d : list Z) : option (list Z) :=
  let spill := Z.rem w BITS_PER_BYTE in
  if spill =? 0 then Some d
  else x ← d.[getSize w - 1]; d.[getSize w - 1 <- Z.land x (Z.lnot (Z.shiftl 255 spill))].

(** The loops over two bit strings of one width. *)
Definition combine (f : Z -> Z -> Z) (b s : BitString) : option (list Z) :=
  if width b =? width s then
    for_up 0 (Z.to_nat (getSize (width b))) (fun i d => x ← d.[i]; y ← (data s).[i]; d.[i <- f x y]) (data b)
  else None.
Definition conj (b s : BitString) : option BitString := d ← combine Z.land b s; Some (BS (width b) d).
Definition disj (b s : BitString) : option BitString := d ← combine Z.lor b s; Some (BS (width b) d).
Definition nimpl (b s : BitString) : option BitString :=
  d ← combine (fun x y => Z.land x (Z.lnot y)) b s; d ← ZERO_LEFT_OVER (width b) d; Some (BS (width b) d).
Definition nega (b : BitString) : option BitString :=
  d ← for_up 0 (Z.to_nat (getSize (width b))) (fun i d => x ← d.[i]; d.[i <- BYTE (Z.lnot x)]) (data b);
  d ← ZERO_LEFT_OVER (width b) d;
  Some (BS (width b) d).

Fixpoint disjoint_loop (n : nat) (i : Z) (d e : list Z) : option bool :=
  match n with
  | O => Some true
  | S n => x ← d.[i]; y ← e.[i]; if negb (Z.land x y =? 0) then Some false else disjoint_loop n (i + 1) d e
  end.
Definition disjoint (b s : BitString) : option bool :=
  if width b =? width s then disjoint_loop (Z.to_nat (getSize (width b))) 0 (data b) (data s) else None.

(** A byte has eight bits to shift out. *)
Fixpoint card_byte (fuel : nat) (x n : Z) : option Z :=
  if x =? 0 then Some n
  else match fuel with O => None | S fuel => card_byte fuel (Z.shiftr x 1) (if Z.land x 1 =? 0 then n else n + 1) end.
Definition card (b : BitString) : option Z :=
  for_up 0 (Z.to_nat (getSize (width b))) (fun i n => x ← (data b).[i]; card_byte 8 x n) 0.

(** ** The builtins.  [clone] copies the object, so that the arguments stay as they are. *)

Fixpoint make_loop (w : Z) (l : oz_list) (b : BitString) : option (oz_outcome BitString) :=
  match l with
  | LNil => Some (Proceed b)
  | LCons (EInt i) l => if (i <? 0) || (w <=? i) then Some (Raise (TypeError 1)) else b ← put b i true; make_loop w l b
  | LCons _ _ => Some (Raise (TypeError 1))
  | _ => None
  end.
Definition BIBitString_make (w : Z) (l : oz_list) : option (oz_outcome BitString) :=
  if w <? 0 then Some (Raise (TypeError 0))
  else
    match OZ_isList l with
    | Proceed _ => b ← newBitString w; make_loop w l b
    | Raise e => Some (Raise e)
    | Suspend => Some Suspend
    end.

Definition binop (op : BitString -> BitString -> option BitString) (b1 b2 : BitString) : option (oz_outcome BitString) :=
  if negb (width b1 =? width b2) then Some (Raise widthMismatch) else b3 ← op b1 b2; Some (Proceed b3).
Definition BIBitString_conj := binop conj.
Definition BIBitString_disj := binop disj.
Definition BIBitString_nega (b1 : BitString) : option (oz_outcome BitString) := b3 ← nega b1; Some (Proceed b3).

Definition BIBitString_get (b1 : BitString) (i : Z) : option (oz_outcome bool) :=
  if negb (checkIndex b1 i) then Some (Raise indexOutOfBound) else x ← get b1 i; Some (Proceed (negb (x =? 0))).

Definition BIBitString_put (b1 : BitString) (i : Z) (on : oz_bool) : option (oz_outcome BitString) :=
  match on with
  | BVar => Some Suspend
  | BOther => Some (Raise (TypeError 2))
  | BTrue | BFalse =>
      if negb (checkIndex b1 i) then Some (Raise indexOutOfBound)
      else b3 ← put b1 i (match on with BTrue => true | _ => false end); Some (Proceed b3)
  end.

Definition BIBitString_width (b : BitString) : Z := width b.
Definition BIBitString_toList (b : BitString) : option oz_list :=
  for_down (Z.to_nat (width b)) (fun i l => x ← get b i; Some (if x =? 0 then l else LCons (EInt i) l)) LNil.

(** ** Pickling *)

Definition pickleV (b : BitString) (mb : ByteBuffer) : option ByteBuffer :=
  mb ← marshalNumber (width b) mb;
  for_up 0 (Z.to_nat (getSize (width b))) (fun i mb => x ← (data b).[i]; marshalByte x mb) mb.

Definition unmarshalBitString (l : list Z) : option (BitString * list Z) :=
  '(w, l) ← unmarshalNumber l;
  s ← newBitString (s32 w);
  '(d, l) ← for_up 0 (Z.to_nat (getSize (width s))) (fun i '(d, l) => '(x, l) ← Marshaler.get l; d ← d.[i <- x]; Some (d, l)) (data s, l);
  Some (BS (width s) d, l).
End BitStrings.

(** * Byte strings *)

Module ByteStrings.

Record ByteString := BS { width : Z; data : list Z }.

Definition newByteString (w : Z) : option ByteString := if w <? 0 then None else Some (BS w (replicate (Z.to_nat w) 0)).
Definition checkIndex (b : ByteString) (i : Z) : bool := (0 <=? i) && (i <? width b).

Definition equal (b s : ByteString) : option bool :=
  if negb (width b =? width s) then Some false else BitStrings.equal_loop (Z.to_nat (width b)) 0 (data b) (data s).
Definition get (b : ByteString) (i : Z) : option Z := if checkIndex b i then (data b).[i] else None.
Definition put (b : ByteString) (i x : Z) : option ByteString :=
  if checkIndex b i then d ← (data b).[i <- x]; Some (BS (width b) d) else None.

(** [memcpy] from [src + from] to [dst + offset]. *)
Definition memcpy (dst : list Z) (offset : Z) (src : list Z) (from n : Z) : option (list Z) :=
  if (0 <=? offset) && (0 <=? from) && (0 <=? n) && (offset + n <=? zlen dst) && (from + n <=? zlen src) then
    Some (take (Z.to_nat offset) dst ++ take (Z.to_nat n) (drop (Z.to_nat from) src) ++ drop (Z.to_nat (offset + n)) dst)
  else None.
Definition copy (b other : ByteString) (offset : Z) : option ByteString :=
  d ← memcpy (data b) offset (data other) 0 (width other); Some (BS (width b) d).
Definition slice (b other : ByteString) (from to : Z) : option ByteString :=
  d ← memcpy (data b) 0 (data other) from (to - from); Some (BS (width b) d).

(** ** The builtins *)

Fixpoint make_loop (i : Z) (l : oz_list) (b : ByteString) : option (oz_outcome ByteString) :=
  match l with
  | LNil => Some (Proceed b)
  | LCons (EInt c) l => if (c <? 0) || (255 <? c) then Some (Raise (TypeError 0)) else b ← put b i c; make_loop (i + 1) l b
  | LCons _ _ => Some (Raise (TypeError 0))
  | _ => None
  end.
Definition BIByteString_make (l : oz_list) : option (oz_outcome ByteString) :=
  match OZ_isList l with
  | Proceed _ => b ← newByteString (OZ_length l); make_loop 0 l b
  | Raise e => Some (Raise e)
  | Suspend => Some Suspend
  end.

Definition BIByteString_get (b1 : ByteString) (i : Z) : option (oz_outcome Z) :=
  if negb (checkIndex b1 i) then Some (Raise indexOutOfBound) else x ← get b1 i; Some (Proceed x).

(** The sum of the widths is not wrapped: two strings of 2^31 bytes together would overflow the [int] in the code. *)
Definition BIByteString_append (b1 b2 : ByteString) : option (oz_outcome ByteString) :=
  b3 ← newByteString (width b1 + width b2);
  b3 ← copy b3 b1 0;
  b3 ← copy b3 b2 (width b1);
  Some (Proceed b3).

Definition BIByteString_slice (b1 : ByteString) (from to : Z) : option (oz_outcome ByteString) :=
  let w := width b1 in
  if (from <? 0) || (to <? 0) || (w <? from) || (w <? to) || (to <? from) then Some (Raise indexOutOfBound)
  else b3 ← newByteString (to - from); b3 ← slice b3 b1 from to; Some (Proceed b3).

Definition BIByteString_width (b : ByteString) : Z := width b.
Definition BIByteString_toStringWithTail (b1 : ByteString) (l : oz_list) : option oz_list :=
  for_down (Z.to_nat (width b1)) (fun i l => x ← get b1 i; Some (LCons (EInt x) l)) l.
Definition BIByteString_toString (b1 : ByteString) : option oz_list := BIByteString_toStringWithTail b1 LNil.

Fixpoint find_char (n : nat) (d : list Z) (s c : Z) : option (option Z) :=
  match n with
  | O => Some None
  | S n => x ← d.[s]; if x =? c then Some (Some s) else find_char n d (s + 1) c
  end.
Definition BIByteString_strchr (bs : ByteString) (OFF c : Z) : option (oz_outcome (option Z)) :=
  let n := width bs in
  if (OFF <? 0) || (n <=? OFF) then Some (Raise indexOutOfBound)
  else if (c <? 0) || (255 <? c) then Some (Raise (TypeError 2))
  else r ← find_char (Z.to_nat (n - OFF)) (data bs) OFF c; Some (Proceed r).

(** A [char] is signed. *)
Definition char (x : Z) : Z := if x <? 128 then x else x - 256.
Fixpoint cmp_loop (n : nat) (i : Z) (d1 d2 : list Z) : option Z :=
  match n with
  | O => Some 0
  | S n =>
      x1 ← d1.[i]; x2 ← d2.[i];
      let c1 := char x1 in
      let c2 := char x2 in
      if c1 <? c2 then Some (-1) else if c2 <? c1 then Some 1 else cmp_loop n (i + 1) d1 d2
  end.
Definition BIByteString_cmp (bs1 bs2 : ByteString) : option Z :=
  let n1 := width bs1 in
  let n2 := width bs2 in
  r ← cmp_loop (Z.to_nat (if n1 <? n2 then n1 else n2)) 0 (data bs1) (data bs2);
  Some (if r =? 0 then (if n1 <? n2 then -1 else if n2 <? n1 then 1 else 0) else r).

(** ** Pickling *)

Definition pickleV (b : ByteString) (mb : ByteBuffer) : option ByteBuffer :=
  mb ← marshalNumber (width b) mb;
  for_up 0 (Z.to_nat (width b)) (fun i mb => x ← (data b).[i]; marshalByte x mb) mb.

Definition unmarshalByteString (l : list Z) : option (ByteString * list Z) :=
  '(w, l) ← unmarshalNumber l;
  s ← newByteString (s32 w);
  '(d, l) ← for_up 0 (Z.to_nat (width s)) (fun i '(d, l) => '(x, l) ← Marshaler.get l; d ← d.[i <- x]; Some (d, l)) (data s, l);
  Some (BS (width s) d, l).
End ByteStrings.

(** * Transfer in fragments *)

Module Transfer.

(** The classes [DPMBitStringDesc] and [DPMByteStringDesc]. *)
Inductive Kind := BitStringDesc | ByteStringDesc.
Definition getExtID (k : Kind) : Z := match k with BitStringDesc => 2 | ByteStringDesc => 3 end.

(** A [DPMExtDesc], with the bytes of its object. *)
Record DPMExtDesc := Desc { kind : Kind; bytes : list Z; index : Z; totalSize : Z; currentSize : Z }.

Definition newDesc (k : Kind) (d : list Z) : DPMExtDesc := Desc k d 0 0 0.
Definition setTotalSize (n : Z) (d : DPMExtDesc) : option DPMExtDesc :=
  if totalSize d =? 0 then Some (Desc (kind d) (bytes d) (index d) n (currentSize d)) else None.
Definition setCurrentSize (n : Z) (d : DPMExtDesc) : option DPMExtDesc :=
  if currentSize d =? 0 then Some (Desc (kind d) (bytes d) (index d) (totalSize d) n) else None.
Definition incCurrentSize (n : Z) (d : DPMExtDesc) : option DPMExtDesc :=
  if (0 <=? currentSize d) && (currentSize d + n <=? totalSize d) then
    Some (Desc (kind d) (bytes d) (index d) (totalSize d) (currentSize d + n))
  else None.
Definition decCurrentSize (n : Z) (d : DPMExtDesc) : option DPMExtDesc :=
  if (currentSize d <=? totalSize d) && (0 <=? currentSize d - n) then
    Some (Desc (kind d) (bytes d) (index d) (totalSize d) (currentSize d - n))
  else None.

(** [setData], by the distance from the start of the data. *)
Definition setData (i : Z) (d : DPMExtDesc) : option DPMExtDesc :=
  if (0 <=? i) && (match kind d with BitStringDesc => i <? zlen (bytes d) | ByteStringDesc => i <=? zlen (bytes d) end) then
    Some (Desc (kind d) (bytes d) i (totalSize d) (currentSize d))
  else None.
Definition setBytes (l : list Z) (d : DPMExtDesc) : DPMExtDesc := Desc (kind d) l (index d) (totalSize d) (currentSize d).

(** ** The sender *)

(** The descriptor is returned when the traverser is suspended with it. *)
Definition marshalByteArray (mb : ByteBuffer) (desc : DPMExtDesc) : option (ByteBuffer * option DPMExtDesc) :=
  let size := currentSize desc in
  if negb (MNumberMaxSize <? availableSpace mb) then None
  else
    let availSpace := availableSpace mb - MNumberMaxSize in
    let ms := Z.min availSpace size in
    desc ← decCurrentSize ms desc;
    mb ← marshalNumber ms mb;
    mb ← for_up (index desc) (Z.to_nat ms) (fun i mb => x ← (bytes desc).[i]; marshalByte x mb) mb;
    desc ← setData (index desc + ms) desc;
    Some (mb, if availSpace <? size then Some desc else None).

Definition dpMarshalByteArrayCont (bs : ByteBuffer) (desc : DPMExtDesc) : option (ByteBuffer * option DPMExtDesc) :=
  if negb (DIFMaxSize + 2 * MNumberMaxSize <? availableSpace bs) then None
  else bs ← marshalDIF DIF_EXT_CONT bs; bs ← marshalNumber (getExtID (kind desc)) bs; marshalByteArray bs desc.

(** The size of the data of an object. *)
Definition dataSize (k : Kind) (w : Z) : Z := match k with BitStringDesc => BitStrings.getSize w | ByteStringDesc => w end.

Definition marshalSuspV (k : Kind) (w : Z) (d : list Z) (bs : ByteBuffer) : option (ByteBuffer * option DPMExtDesc) :=
  if negb (2 * MNumberMaxSize <? availableSpace bs) then None
  else
    bs ← marshalNumber w bs;
    desc ← setTotalSize (dataSize k w) (newDesc k d);
    desc ← setCurrentSize (dataSize k w) desc;
    marshalByteArray bs desc.

(** The fragments of an object in buffers of the given sizes, with the suspended descriptor if
    there were not enough buffers. *)
Fixpoint send_rest (spaces : list Z) (o : option DPMExtDesc) : option (list (list Z) * option DPMExtDesc) :=
  match o, spaces with
  | Some desc, s :: spaces =>
      '(bs, o) ← dpMarshalByteArrayCont (BB [] s) desc;
      '(fs, o) ← send_rest spaces o;
      Some (written bs :: fs, o)
  | _, _ => Some ([], o)
  end.
Definition send (k : Kind) (w : Z) (d : list Z) (spaces : list Z) : option (list (list Z) * option DPMExtDesc) :=
  match spaces with
  | [] => None
  | s :: spaces => '(bs, o) ← marshalSuspV k w d (BB [] s); '(fs, o) ← send_rest spaces o; Some (written bs :: fs, o)
  end.

(** ** The receiver *)

(** Whether the object is complete; otherwise the result is [UnmarshalEXT_Susp]. *)
Definition unmarshalByteArray (l : list Z) (desc : DPMExtDesc) : option (list Z * DPMExtDesc * bool) :=
  '(n, l) ← unmarshalNumber l;
  let cWidth := s32 n in
  if negb ((0 <=? cWidth) && (cWidth + currentSize desc <=? totalSize desc)) then None
  else
    desc ← incCurrentSize cWidth desc;
    '(d, l) ← for_up (index desc) (Z.to_nat cWidth) (fun i '(d, l) => '(x, l) ← Marshaler.get l; d ← d.[i <- x]; Some (d, l)) (bytes desc, l);
    desc ← setData (index desc + cWidth) (setBytes d desc);
    Some (l, desc, currentSize desc =? totalSize desc).

(** [suspUnmarshalBitString], [suspUnmarshalByteString]. *)
Definition suspUnmarshal (k : Kind) (l : list Z) : option (list Z * DPMExtDesc * bool) :=
  '(w, l) ← unmarshalNumber l;
  let width := s32 w in
  if dataSize k width <? 0 then None
  else
    desc ← setTotalSize (dataSize k width) (newDesc k (replicate (Z.to_nat (dataSize k width)) 0));
    unmarshalByteArray l desc.

(** The case of the continuation in the unmarshaler, with [unmarshalBitStringCont] or [unmarshalByteStringCont]. *)
Definition unmarshalCont (l : list Z) (desc : DPMExtDesc) : option (list Z * DPMExtDesc * bool) :=
  '(tag, l) ← Marshaler.get l;
  if negb (tag =? DIF_EXT_CONT) then None
  else
    '(type, l) ← unmarshalNumber l;
    if negb (type =? getExtID (kind desc)) then None else unmarshalByteArray l desc.

(** The complete object, or the suspended descriptor.  A fragment ends its frame. *)
Fixpoint receive_rest (frames : list (list Z)) (r : list Z * DPMExtDesc * bool) : option (list Z + DPMExtDesc) :=
  match r with
  | ([], desc, complete) =>
      match frames with
      | [] => Some (if (complete : bool) then inl (bytes desc) else inr desc)
      | f :: frames => if complete then None else r ← unmarshalCont f desc; receive_rest frames r
      end
  | _ => None
  end.
Definition receive (k : Kind) (frames : list (list Z)) : option (list Z + DPMExtDesc) :=
  match frames with
  | [] => None
  | f :: frames => r ← suspUnmarshal k f; receive_rest frames r
  end.
End Transfer.
