(* ===== verification/ByteDataOps.v ===== *)
(** * Bit strings, byte strings and their marshaling: the operations *)
From S2P Require Import Prelude Word32 BitArray ByteData.
Import Marshaler.
Import BitArray (oz_elem(..), oz_list(..), oz_bool(..)).

(** ** Bytes *)

Definition is_byte (x : Z) : Prop := 0 <= x < 256.

Lemma BYTE_id x : is_byte x -> BYTE x = x.
Proof. apply Z.mod_small. Qed.

Lemma is_byte_bits x : 0 <= x -> is_byte x <-> forall j, 8 <= j -> Z.testbit x j = false.
Proof.
  intros Hx. split.
  - intros [_ H] j Hj. destruct (Z.eq_dec x 0) as [->|]; [apply Z.bits_0|]. apply Z.bits_above_log2; [done|].
    apply Z.lt_le_trans with 8; [apply Z.log2_lt_pow2; lia|done].
  - intros H. split; [done|]. destruct (Z.lt_ge_cases x 256) as [|Hge]; [done|]. exfalso.
    assert (8 <= Z.log2 x) by (apply Z.log2_le_pow2; lia). specialize (H (Z.log2 x) ltac:(done)). rewrite Z.bit_log2 in H; [done|lia].
Qed.

Lemma byte_ext x y : is_byte x -> is_byte y -> (forall j, 0 <= j < 8 -> Z.testbit x j = Z.testbit y j) -> x = y.
Proof.
  intros Hx Hy H. apply Z.bits_inj'. intros j Hj. destruct (Z.lt_ge_cases j 8); [by apply H|].
  by rewrite (proj1 (is_byte_bits x (proj1 Hx)) Hx j), (proj1 (is_byte_bits y (proj1 Hy)) Hy j).
Qed.

Lemma is_byte_at l i : Forall is_byte l -> is_byte (word_at l i).
Proof. intros H. unfold word_at. destruct (l.[i]) eqn:E; [by apply (proj1 (Forall_aget _ _) H i)|done]. Qed.

(** ** Writing *)

Definition appends (bs : ByteBuffer) (l : list Z) : ByteBuffer := BB (written bs ++ l) (availableSpace bs - zlen l).

Lemma appends_nil bs : appends bs [] = bs.
Proof. destruct bs. unfold appends. cbn. by rewrite app_nil_r, Z.sub_0_r. Qed.

Lemma appends_app bs l k : appends (appends bs l) k = appends bs (l ++ k).
Proof. unfold appends. cbn. rewrite app_assoc, zlen_app. f_equal. lia. Qed.

Lemma put_appends b bs : is_byte b -> 0 <= availableSpace bs -> put b bs = Some (appends bs [b]).
Proof. intros Hb Hs. unfold put, appends. rewrite (proj2 (Z.ltb_ge _ _)), BYTE_id by done. done. Qed.

(** A loop that writes the bytes of an array. *)
Lemma write_loop d lo n bs : Forall is_byte d -> 0 <= lo -> lo + Z.of_nat n <= zlen d -> Z.of_nat n <= availableSpace bs ->
  for_up lo n (fun i mb => x ← d.[i]; marshalByte x mb) bs = Some (appends bs (take n (drop (Z.to_nat lo) d))).
Proof.
  intros Hd. revert lo bs. induction n as [|n IH]; intros lo bs Hlo Hn Hs; cbn [for_up]; [by rewrite take_0, appends_nil|].
  destruct (aget_Some d lo) as [x Hx]; [lia|]. rewrite Hx. ored. unfold marshalByte.
  rewrite put_appends by (try lia; by apply (proj1 (Forall_aget _ _) Hd lo)). ored.
  rewrite IH by (cbn; rewrite ?zlen_cons, ?zlen_nil; lia). rewrite appends_app. do 2 f_equal.
  apply aget_lookup in Hx. rewrite (drop_S _ _ _ Hx). cbn. by replace (Z.to_nat (lo + 1)) with (S (Z.to_nat lo)) by lia.
Qed.

(** ** Numbers *)

Fixpoint encoding (fuel : nat) (i : Z) : list Z :=
  match fuel with
  | O => []
  | S fuel => if SBit <=? i then (i mod SBit + SBit) :: encoding fuel (i / SBit) else [i]
  end.

Lemma lor_SBit x : 0 <= x < SBit -> Z.lor x SBit = x + SBit.
Proof. unfold SBit. intros Hx. symmetry. apply Z.add_nocarry_lor. apply Z.bits_inj'. intros j Hj. rewrite Z.land_spec, Z.bits_0.
  destruct (Z.eq_dec j 7) as [->|]; [|replace (Z.testbit 128 j) with false by (symmetry; apply (Z.pow2_bits_false 7); lia); apply andb_false_r].
  destruct (Z.eq_dec x 0) as [->|]; [done|]. rewrite (Z.bits_above_log2 x 7); [done|lia|]. apply Z.log2_lt_pow2; lia.
Qed.

Lemma zlen_encoding fuel i : zlen (encoding fuel i) <= Z.of_nat fuel.
Proof. revert i. induction fuel as [|fuel IH]; intros i; cbn [encoding]; [done|]. ifs; rewrite zlen_cons, ?zlen_nil; [specialize (IH (i / SBit)); lia|lia]. Qed.

Lemma encoding_bytes fuel i : 0 <= i -> Forall is_byte (encoding fuel i).
Proof.
  revert i. induction fuel as [|fuel IH]; intros i Hi; cbn [encoding]; [constructor|]. unfold SBit in *. ifs; constructor.
  - unfold is_byte. pose proof (Z.mod_pos_bound i 128). lia.
  - apply IH. apply Z.div_pos; lia.
  - unfold is_byte. lia.
  - constructor.
Qed.

Lemma marshalNumber_loop_spec fuel i bs : 0 <= i < 128 ^ Z.of_nat fuel -> (0 < fuel)%nat -> Z.of_nat fuel <= availableSpace bs ->
  marshalNumber_loop fuel i bs = Some (appends bs (encoding fuel i)).
Proof.
  revert i bs. induction fuel as [|fuel IH]; intros i bs Hi Hf Hs; [lia|]. cbn [marshalNumber_loop encoding].
  destruct (Z.leb_spec SBit i) as [Hge|Hlt]; [|apply put_appends; unfold is_byte, SBit in *; lia].
  pose proof (Z.mod_pos_bound i SBit ltac:(done)) as Hm. rewrite lor_SBit by done. rewrite put_appends by (unfold is_byte, SBit in *; lia). ored.
  rewrite Nat2Z.inj_succ, Z.pow_succ_r in Hi by lia. destruct fuel as [|fuel]; [unfold SBit in *; cbn in Hi; lia|].
  rewrite IH; [by rewrite appends_app| |lia|cbn; rewrite zlen_cons, zlen_nil; lia].
  unfold SBit in *. split; [apply Z.div_pos; lia|]. apply Z.div_lt_upper_bound; lia.
Qed.

Lemma marshalNumber_spec i bs : MNumberMaxSize <= availableSpace bs -> marshalNumber i bs = Some (appends bs (encoding 5 (w32 i))).
Proof.
  intros Hs. unfold marshalNumber. apply marshalNumber_loop_spec; [|lia|done].
  pose proof (is_word_w32 i) as [? ?]. change (128 ^ Z.of_nat 5) with (2 ^ 35). lia.
Qed.

Lemma unmarshalNumber_loop_spec fuel i ret shft rest : 0 <= i < 128 ^ Z.of_nat fuel -> (0 < fuel)%nat -> 0 <= shft < 32 -> i * 2 ^ shft < 2 ^ 32 -> 0 <= ret < 2 ^ shft ->
  unmarshalNumber_loop (encoding fuel i ++ rest) ret shft = Some (ret + i * 2 ^ shft, rest).
Proof.
  revert i ret shft. induction fuel as [|fuel IH]; intros i ret shft Hi Hf Hs Hb Hr; [lia|]. cbn [encoding].
  assert (0 < 2 ^ shft) as Hp by lia.
  destruct (Z.leb_spec SBit i) as [Hge|Hlt]; cbn [app unmarshalNumber_loop]; rewrite (proj2 (Z.ltb_lt shft 32)) by lia; cbn [negb].
  - pose proof (Z.mod_pos_bound i SBit ltac:(done)) as Hm. pose proof (Z.div_mod i SBit ltac:(done)) as Hdm.
    rewrite (proj2 (Z.leb_le _ _)) by lia. replace (i mod SBit + SBit - SBit) with (i mod SBit) by lia.
    rewrite Nat2Z.inj_succ, Z.pow_succ_r in Hi by lia. unfold SBit in *.
    assert (1 <= i / 128) by (apply Z.div_le_lower_bound; lia).
    assert (2 ^ (shft + 7) = 128 * 2 ^ shft) as Epow by (rewrite Z.pow_add_r by lia; lia).
    assert (i mod 128 * 2 ^ shft <= 127 * 2 ^ shft) by (apply Z.mul_le_mono_nonneg_r; lia).
    assert (shft + 7 < 32) by (destruct (Z.lt_ge_cases (shft + 7) 32) as [|Hge']; [done|]; pose proof (Z.pow_le_mono_r 2 32 (shft + 7) ltac:(done) Hge'); nia).
    assert (shl32 (i mod 128) shft = i mod 128 * 2 ^ shft) as -> by (unfold shl32, w32; rewrite Z.shiftl_mul_pow2 by lia; apply Z.mod_small; nia).
    unfold w32. rewrite (Z.mod_small (ret + _)) by nia. destruct fuel as [|fuel]; [cbn in Hi; lia|]. rewrite IH.
    + rewrite Epow. do 2 f_equal. rewrite Hdm at 3. lia.
    + split; [lia|]. apply Z.div_lt_upper_bound; lia.
    + lia.
    + lia.
    + rewrite Epow. nia.
    + rewrite Epow. nia.
  - rewrite (proj2 (Z.leb_gt _ _)) by done. do 2 f_equal.
    assert (shl32 i shft = i * 2 ^ shft) as -> by (unfold shl32, w32; rewrite Z.shiftl_mul_pow2 by lia; apply Z.mod_small; nia).
    symmetry. apply Z.add_nocarry_lor, Z.bits_inj'. intros j Hj. rewrite Z.land_spec, Z.bits_0. destruct (Z.lt_ge_cases j shft).
    + rewrite (Z.mul_pow2_bits_low i shft j) by done. apply andb_false_r.
    + destruct (Z.eq_dec ret 0) as [->|]; [by rewrite Z.bits_0|]. rewrite (Z.bits_above_log2 ret j); [done|lia|]. apply Z.lt_le_trans with shft; [apply Z.log2_lt_pow2; lia|done].
Qed.

Lemma unmarshalNumber_spec i rest : is_word i -> unmarshalNumber (encoding 5 i ++ rest) = Some (i, rest).
Proof.
  intros [H1 H2]. unfold unmarshalNumber. rewrite unmarshalNumber_loop_spec; [do 2 f_equal; lia| |lia|lia|lia|lia].
  change (128 ^ Z.of_nat 5) with (2 ^ 35). lia.
Qed.

Lemma skipNumber_spec fuel i rest : 0 <= i < 128 ^ Z.of_nat fuel -> (0 < fuel)%nat -> skipNumber (encoding fuel i ++ rest) = Some rest.
Proof.
  revert i. induction fuel as [|fuel IH]; intros i Hi Hf; [lia|]. cbn [encoding]. destruct (Z.leb_spec SBit i) as [Hge|Hlt]; cbn [app skipNumber].
  - pose proof (Z.mod_pos_bound i SBit ltac:(done)). rewrite (proj2 (Z.leb_le _ _)) by lia. rewrite Nat2Z.inj_succ, Z.pow_succ_r in Hi by lia. unfold SBit in *.
    destruct fuel as [|fuel]; [cbn in Hi; lia|]. apply IH; [|lia]. split; [apply Z.div_pos; lia|apply Z.div_lt_upper_bound; lia].
  - by rewrite (proj2 (Z.leb_gt _ _)).
Qed.

Lemma zlen_encoding_pos fuel i : (0 < fuel)%nat -> 1 <= zlen (encoding fuel i).
Proof. destruct fuel; [lia|]. intros _. cbn [encoding]. ifs; rewrite zlen_cons; pose proof (zlen_nonneg (encoding fuel (i / SBit))); rewrite ?zlen_nil; lia. Qed.

(** ** Strings *)

Lemma marshalBytes_spec s bs : Forall is_byte s -> zlen s <= availableSpace bs -> marshalBytes s bs = Some (appends bs s).
Proof.
  intros Hs. revert bs. induction Hs as [|c s Hc Hs IH]; intros bs Hb; cbn [marshalBytes]; [by rewrite appends_nil|]. rewrite zlen_cons in Hb. pose proof (zlen_nonneg s).
  unfold marshalByte. rewrite put_appends by (done || lia). ored. rewrite IH by (cbn; rewrite zlen_cons, zlen_nil; lia). by rewrite appends_app.
Qed.

Lemma getString_spec s rest : getString (length s) (s ++ rest) = Some (s, rest).
Proof. induction s as [|c s IH]; cbn; [done|]. by rewrite IH. Qed.

(** A loop that reads into the cells of an array. *)
Lemma read_loop s d lo rest : 0 <= lo -> lo + zlen s <= zlen d ->
  for_up lo (length s) (fun i '(d, l) => '(x, l) ← Marshaler.get l; d ← d.[i <- x]; Some (d, l)) (d, s ++ rest) =
  Some (take (Z.to_nat lo) d ++ s ++ drop (Z.to_nat (lo + zlen s)) d, rest).
Proof.
  revert d lo. induction s as [|x s IH]; intros d lo Hlo Hn; cbn [for_up length app Marshaler.get].
  - rewrite zlen_nil, Z.add_0_r. by rewrite take_drop.
  - rewrite zlen_cons in Hn. pose proof (zlen_nonneg s). ored. rewrite aset_Some by lia. ored. rewrite IH by (rewrite ?zlen_insert; lia). do 2 f_equal. unfold zlen in *.
    cbn [length]. rewrite (drop_insert_lt d) by lia. replace (lo + 1 + Z.of_nat (length s)) with (lo + Z.of_nat (S (length s))) by lia.
    replace (Z.to_nat (lo + 1)) with (S (Z.to_nat lo)) by lia.
    rewrite (take_S_r _ _ x) by (apply list_lookup_insert_eq; lia). rewrite take_insert_ge by lia. by rewrite <- app_assoc.
Qed.

(** * Bit strings *)

Import BitStrings.

Definition bit (d : list Z) (i : Z) : bool := (0 <=? i) && Z.testbit (word_at d (i / 8)) (i mod 8).

(** The bits past the width are clear. *)
Definition wf (b : BitString) : Prop :=
  0 <= width b /\ zlen (data b) = getSize (width b) /\ Forall is_byte (data b) /\ forall i, bit (data b) i = true -> i < width b.

Lemma size_bounds w : 0 <= w -> 0 <= getSize w /\ 8 * (getSize w - 1) < w <= 8 * getSize w.
Proof.
  intros Hw. unfold getSize, BITS_PER_BYTE. rewrite Z.quot_div_nonneg, Z.rem_mod_nonneg by lia.
  destruct (Z.eqb_spec (w mod 8) 0); Z.div_mod_to_equations; lia.
Qed.

Lemma bit_out d i : 8 * zlen d <= i -> bit d i = false.
Proof. intros Hi. unfold bit. rewrite word_at_out by (right; apply Z.div_le_lower_bound; lia). rewrite Z.bits_0. apply andb_false_r. Qed.

Lemma bit_neg d i : i < 0 -> bit d i = false.
Proof. intros Hi. unfold bit. by rewrite (proj2 (Z.leb_gt _ _)). Qed.

Lemma bit_at d k j : 0 <= k -> 0 <= j < 8 -> bit d (8 * k + j) = Z.testbit (word_at d k) j.
Proof.
  intros Hk Hj. unfold bit. rewrite (proj2 (Z.leb_le _ _)) by lia. replace ((8 * k + j) / 8) with k by (Z.div_mod_to_equations; lia). by replace ((8 * k + j) mod 8) with j by (Z.div_mod_to_equations; lia).
Qed.

Lemma bits_ext d e : zlen d = zlen e -> Forall is_byte d -> Forall is_byte e -> (forall i, bit d i = bit e i) -> d = e.
Proof.
  intros Hl Hd He H. apply aget_ext; [done|]. intros k Hk. rewrite !aget_word_at by lia. f_equal. apply byte_ext; [by apply is_byte_at..|].
  intros j Hj. specialize (H (8 * k + j)). rewrite !bit_at in H by lia. done.
Qed.

Lemma wf_ext b c : wf b -> wf c -> width b = width c -> (forall i, bit (data b) i = bit (data c) i) -> b = c.
Proof.
  intros (H1 & H2 & H3 & _) (K1 & K2 & K3 & _) Hw Hb. destruct b as [w d], c as [v e]. cbn in *. subst v. f_equal. apply bits_ext; [congruence|done..].
Qed.

(** A loop that writes [h k] into byte [k]. *)
Lemma bit_cells d d' n h : zlen d = n -> (forall j, d'.[j] = if (0 <=? j) && (j <? 0 + n) then Some (h j) else d.[j]) ->
  (forall k, 0 <= k < n -> is_byte (h k)) ->
  Forall is_byte d' /\ forall i, bit d' i = (0 <=? i) && (i <? 8 * n) && Z.testbit (h (i / 8)) (i mod 8).
Proof.
  intros Hn Hd Hh. split.
  - apply Forall_aget. intros j x Hx. rewrite Hd in Hx. destruct (_ && _) eqn:E; [|apply aget_Some_inv in Hx; lia]. injection Hx as [= <-]. apply Hh. lia.
  - intros i. unfold bit. destruct (Z.leb_spec 0 i); [|done]. cbn [andb]. unfold word_at. rewrite Hd.
    destruct (Z.ltb_spec i (8 * n)) as [Hi|Hi]; cbn [andb].
    + rewrite (proj2 (Z.leb_le 0 _)), (proj2 (Z.ltb_lt _ (0 + n))) by (Z.div_mod_to_equations; lia). done.
    + rewrite (proj2 (Z.ltb_ge _ (0 + n))) by (Z.div_mod_to_equations; lia). rewrite andb_false_r. rewrite aget_None by (right; Z.div_mod_to_equations; lia). apply Z.bits_0.
Qed.

Lemma newBitString_spec w : 0 <= w -> exists b, newBitString w = Some b /\ wf b /\ width b = w /\ forall i, bit (data b) i = false.
Proof.
  intros Hw. pose proof (size_bounds w Hw) as [Hs _]. unfold newBitString. rewrite (proj2 (Z.ltb_ge _ _)) by done.
  assert (forall i, bit (replicate (Z.to_nat (getSize w)) 0) i = false) as Hb.
  { intros i. unfold bit, word_at, aget. destruct (0 <=? i / 8); [|by rewrite Z.bits_0, andb_false_r].
    destruct (_ !! _) as [x|] eqn:E; [apply lookup_replicate in E as [-> _]|]; cbn; by rewrite Z.bits_0, andb_false_r. }
  eexists. split; [done|]. unfold wf. cbn. split_and!; try done.
  - unfold zlen. rewrite length_replicate. lia.
  - by apply Forall_replicate.
  - intros i Hi. by rewrite Hb in Hi.
Qed.

Lemma ZERO_LEFT_OVER_spec w d : 0 <= w -> zlen d = getSize w -> Forall is_byte d ->
  exists d', ZERO_LEFT_OVER w d = Some d' /\ zlen d' = zlen d /\ Forall is_byte d' /\ forall i, bit d' i = bit d i && (i <? w).
Proof.
  intros Hw Hl Hd. pose proof (size_bounds w Hw) as [Hs Hb]. unfold ZERO_LEFT_OVER, BITS_PER_BYTE. rewrite Z.rem_mod_nonneg by lia.
  assert (w mod 8 <> 0 -> w = 8 * (getSize w - 1) + w mod 8) as Hspill by (Z.div_mod_to_equations; lia).
  destruct (Z.eqb_spec (w mod 8) 0) as [E|E].
  - exists d. split_and!; try done. intros i. destruct (Z.ltb_spec i w); [by rewrite andb_true_r|]. rewrite andb_false_r. apply bit_out. Z.div_mod_to_equations; lia.
  - specialize (Hspill E). pose proof (Z.mod_pos_bound w 8 ltac:(done)) as Hm. set (k := getSize w - 1) in *. set (m := w mod 8) in *.
    rewrite aget_word_at by lia. ored. rewrite aset_Some by lia. eexists. split; [done|]. rewrite zlen_insert. split; [done|].
    set (y := Z.land (word_at d k) (Z.lnot (Z.shiftl 255 m))).
    assert (forall j, Z.testbit y j = Z.testbit (word_at d k) j && negb ((m <=? j) && (j <? m + 8))) as Hy.
    { intros j. destruct (Z.lt_ge_cases j 0); [by rewrite !Z.testbit_neg_r|]. unfold y. rewrite Z.land_spec, Z.lnot_spec, Z.shiftl_spec by done. do 2 f_equal.
      change 255 with (Z.ones 8). rewrite Z.testbit_ones by done. lia. }
    assert (is_byte y) as By.
    { apply is_byte_bits; [unfold y; apply Z.land_nonneg; left; by apply is_byte_at|]. intros j Hj. rewrite Hy. by rewrite (proj1 (is_byte_bits _ (proj1 (is_byte_at d k Hd))) (is_byte_at d k Hd) j). }
    split; [by apply Forall_insert|]. intros i. unfold bit. destruct (Z.leb_spec 0 i); [|done]. cbn [andb]. unfold word_at at 1. rewrite aget_insert by lia.
    destruct (Z.eqb_spec k (i / 8)) as [Ek|Ek].
    + cbn [default]. unfold id. rewrite Hy, <- Ek. f_equal. Z.div_mod_to_equations; lia.
    + change (default 0 (d.[i / 8])) with (word_at d (i / 8)). destruct (Z.ltb_spec i w); [by rewrite andb_true_r|]. rewrite andb_false_r.
      rewrite word_at_out; [apply Z.bits_0|]. right. Z.div_mod_to_equations; lia.
Qed.

(** ** The loops over bytes *)

Lemma loop_combine f g b s : wf b -> wf s -> width b = width s ->
  (forall x y, is_byte x -> is_byte y -> is_byte (f x y)) -> (forall x y j, 0 <= j -> Z.testbit (f x y) j = g (Z.testbit x j) (Z.testbit y j)) -> g false false = false ->
  exists d, combine f b s = Some d /\ zlen d = zlen (data b) /\ Forall is_byte d /\ forall i, bit d i = g (bit (data b) i) (bit (data s) i).
Proof.
  intros (H1 & H2 & H3 & _) (_ & K2 & K3 & _) Hw Hf Hg H0. unfold combine. rewrite (proj2 (Z.eqb_eq _ _) Hw). pose proof (size_bounds _ H1) as [Hs _].
  destruct (for_up_cells (fun i => f (word_at (data b) i) (word_at (data s) i)) (fun i d => x ← d.[i]; y ← (data s).[i]; d.[i <- f x y]) 0 (Z.to_nat (getSize (width b))) (data b)) as (d & -> & Hl & Hc); [done|lia| |].
  { intros i a Hi _ Ha. rewrite Ha, !aget_word_at by (rewrite ?K2, <- ?Hw; lia). done. }
  exists d. split; [done|]. split; [done|]. rewrite Z2Nat.id in Hc by done. destruct (bit_cells (data b) d _ _ H2 Hc) as [Hb Hi]; [intros k _; apply Hf; by apply is_byte_at|].
  split; [done|]. intros i. rewrite Hi. unfold bit. destruct (Z.leb_spec 0 i); [|done]. cbn [andb]. destruct (Z.ltb_spec i (8 * getSize (width b))); cbn [andb].
  - apply Hg. apply Z.mod_pos_bound. done.
  - rewrite !word_at_out by (right; rewrite ?H2, ?K2, <- ?Hw; Z.div_mod_to_equations; lia). by rewrite Z.bits_0, H0.
Qed.

Lemma byte_land x y : is_byte x -> is_byte (Z.land x y).
Proof.
  intros Hx. assert (0 <= Z.land x y) by (apply Z.land_nonneg; left; apply Hx). apply is_byte_bits; [done|]. intros j Hj. rewrite Z.land_spec. by rewrite (proj1 (is_byte_bits _ (proj1 Hx)) Hx j).
Qed.

Lemma byte_lor x y : is_byte x -> is_byte y -> is_byte (Z.lor x y).
Proof.
  intros Hx Hy. apply is_byte_bits; [apply Z.lor_nonneg; split; [apply Hx|apply Hy]|]. intros j Hj. rewrite Z.lor_spec.
  by rewrite (proj1 (is_byte_bits _ (proj1 Hx)) Hx j), (proj1 (is_byte_bits _ (proj1 Hy)) Hy j).
Qed.

(** A result with the bits of [P], which are within the width. *)
Definition holds (b : BitString) (w : Z) (P : Z -> bool) : Prop := wf b /\ width b = w /\ forall i, bit (data b) i = P i.

Lemma bit_range b i : wf b -> bit (data b) i = true -> 0 <= i < width b.
Proof. intros (_ & _ & _ & H4) Hi. split; [|by apply H4]. unfold bit in Hi. lia. Qed.

Lemma holds_data w d P : 0 <= w -> zlen d = getSize w -> Forall is_byte d -> (forall i, bit d i = P i) -> (forall i, P i = true -> i < w) -> holds (BitStrings.BS w d) w P.
Proof. intros Hw Hl Hd Hb Hp. split; [|done]. split; [done|]. split; [done|]. split; [done|]. cbn. intros i. rewrite Hb. apply Hp. Qed.

Section two.
Context (b s : BitString) (Hb : wf b) (Hs : wf s) (Hw : width b = width s).

Lemma conj_spec : exists r, conj b s = Some r /\ holds r (width b) (fun i => bit (data b) i && bit (data s) i).
Proof using Hb Hs Hw.
  destruct (loop_combine Z.land andb b s Hb Hs Hw) as (d & E & Hl & Hd & Hi); [intros x y Hx _; by apply byte_land|intros; apply Z.land_spec|done|].
  unfold conj. rewrite E. ored. eexists. split; [done|]. pose proof Hb as (H1 & H2 & _). apply holds_data; [done|congruence|done|done|]. intros i [Hi1 _]%andb_true_iff. by apply (bit_range b).
Qed.

Lemma disj_spec : exists r, disj b s = Some r /\ holds r (width b) (fun i => bit (data b) i || bit (data s) i).
Proof using Hb Hs Hw.
  destruct (loop_combine Z.lor orb b s Hb Hs Hw) as (d & E & Hl & Hd & Hi); [intros x y; apply byte_lor|intros; apply Z.lor_spec|done|].
  unfold disj. rewrite E. ored. eexists. split; [done|]. pose proof Hb as (H1 & H2 & _). apply holds_data; [done|congruence|done|done|].
  intros i [Hi1|Hi1]%orb_true_iff; [by apply (bit_range b)|rewrite Hw; by apply (bit_range s)].
Qed.

Lemma nimpl_spec : exists r, nimpl b s = Some r /\ holds r (width b) (fun i => bit (data b) i && negb (bit (data s) i)).
Proof using Hb Hs Hw.
  destruct (loop_combine (fun x y => Z.land x (Z.lnot y)) (fun p q => p && negb q) b s Hb Hs Hw) as (d & E & Hl & Hd & Hi); [intros x y Hx _; by apply byte_land|intros x y j Hj; by rewrite Z.land_spec, Z.lnot_spec|done|].
  pose proof Hb as (H1 & H2 & _). unfold nimpl. rewrite E. ored. destruct (ZERO_LEFT_OVER_spec (width b) d) as (d' & -> & Hl' & Hd' & Hi'); [done|congruence|done|]. ored.
  eexists. split; [done|]. apply holds_data; [done|congruence|done| |].
  - intros i. rewrite Hi', Hi. destruct (bit (data b) i) eqn:Eb; [|done]. rewrite (proj2 (Z.ltb_lt _ _)) by (by apply (bit_range b)). by rewrite andb_true_r.
  - intros i [Hi1 _]%andb_true_iff. by apply (bit_range b).
Qed.

Lemma bytes_loop (n : nat) k (t : Z -> Z -> bool) (run : nat -> Z -> list Z -> list Z -> option bool) :
  (forall i d e, run O i d e = Some true) ->
  (forall n i d e, run (S n) i d e = x ← d.[i]; y ← e.[i]; if t x y then run n (i + 1) d e else Some false) ->
  0 <= k -> k + Z.of_nat n <= zlen (data b) -> k + Z.of_nat n <= zlen (data s) ->
  exists r, run n k (data b) (data s) = Some r /\ (r = true <-> forall j, k <= j < k + Z.of_nat n -> t (word_at (data b) j) (word_at (data s) j) = true).
Proof using.
  intros R0 RS. revert k. induction n as [|n IH]; intros k Hk H1 H2; [rewrite R0; exists true; split; [done|split; [lia|done]]|].
  rewrite RS, !aget_word_at by lia. ored. destruct (t _ _) eqn:Et.
  - destruct (IH (k + 1)) as (r & -> & Hr); [lia..|]. exists r. split; [done|]. rewrite Hr. split; intros H j Hj; [|apply H; lia]. destruct (Z.eq_dec j k) as [->|]; [done|apply H; lia].
  - exists false. split; [done|]. split; [done|]. intros H. specialize (H k ltac:(lia)). congruence.
Qed.

Lemma bits_disjoint : exists r, disjoint b s = Some r /\ (r = true <-> forall i, bit (data b) i && bit (data s) i = false).
Proof using Hb Hs Hw.
  pose proof Hb as (H1 & H2 & H3 & _). pose proof Hs as (_ & K2 & K3 & _). pose proof (size_bounds _ H1) as [Hsz _]. unfold disjoint. rewrite (proj2 (Z.eqb_eq _ _) Hw).
  destruct (bytes_loop (Z.to_nat (getSize (width b))) 0 (fun x y => Z.land x y =? 0) disjoint_loop) as (r & -> & Hr); [done|intros; cbn [disjoint_loop]; destruct (_.[_]); [|done]; ored; destruct (_.[_]); [|done]; ored; by destruct (_ =? 0)|done|rewrite H2; lia|rewrite K2, <- Hw; lia|].
  exists r. split; [done|]. rewrite Hr, Z2Nat.id by done. split.
  - intros H i. unfold bit. destruct (Z.leb_spec 0 i); [|done]. cbn [andb]. rewrite <- Z.land_spec. destruct (Z.lt_ge_cases i (8 * getSize (width b))).
    + specialize (H (i / 8) ltac:(Z.div_mod_to_equations; lia)). apply Z.eqb_eq in H. by rewrite H, Z.bits_0.
    + rewrite (word_at_out (data b)) by (right; Z.div_mod_to_equations; lia). by rewrite Z.land_0_l, Z.bits_0.
  - intros H j Hj. apply Z.eqb_eq. apply byte_ext; [apply byte_land; by apply is_byte_at|done|]. intros k Hk. rewrite Z.land_spec, Z.bits_0. specialize (H (8 * j + k)). by rewrite !bit_at in H by lia.
Qed.

Lemma equal_spec : exists r, equal b s = Some r /\ (r = true <-> b = s).
Proof using Hb Hs Hw.
  pose proof Hb as (H1 & H2 & H3 & _). pose proof Hs as (_ & K2 & K3 & _). pose proof (size_bounds _ H1) as [Hsz _]. unfold equal. rewrite (proj2 (Z.eqb_eq _ _) Hw). cbn [negb].
  destruct (bytes_loop (Z.to_nat (getSize (width b))) 0 (fun x y => x =? y) equal_loop) as (r & -> & Hr); [done|done|done|rewrite H2; lia|rewrite K2, <- Hw; lia|].
  exists r. split; [done|]. rewrite Hr, Z2Nat.id by done. split; [|by intros -> j _; apply Z.eqb_refl]. intros H. destruct b as [w d], s as [v e]. cbn in *. subst v. f_equal.
  apply aget_ext; [congruence|]. intros j Hj. rewrite !aget_word_at by congruence || lia. f_equal. apply Z.eqb_eq, H. lia.
Qed.
End two.

Lemma testbit_shiftl1 m j : 0 <= m -> 0 <= j -> Z.testbit (Z.shiftl 1 m) j = (j =? m).
Proof. intros Hm Hj. rewrite Z.shiftl_1_l. destruct (Z.eqb_spec j m) as [->|]; [by apply Z.pow2_bits_true|by apply Z.pow2_bits_false; lia]. Qed.

Section one.
Context (b : BitString) (Hb : wf b).

Lemma index_spec i : checkIndex b i = true -> 0 <= i / 8 < zlen (data b) /\ 0 <= i mod 8 < 8 /\ i = 8 * (i / 8) + i mod 8.
Proof using Hb. destruct Hb as (H1 & -> & _). intros Hi. unfold checkIndex in Hi. pose proof (size_bounds _ H1). Z.div_mod_to_equations. lia. Qed.

Lemma get_spec i : checkIndex b i = true -> exists x, get b i = Some x /\ (x =? 0) = negb (bit (data b) i).
Proof using Hb.
  intros Hi. destruct (index_spec i Hi) as (Hk & Hm & _). unfold get, BITS_PER_BYTE. rewrite Hi, aget_word_at by done. ored. eexists. split; [done|]. destruct Hb as (_ & _ & H3 & _).
  unfold bit. rewrite (proj2 (Z.leb_le 0 i)) by (unfold checkIndex in Hi; lia). cbn [andb]. set (m := i mod 8) in *. pose proof (byte_land (word_at (data b) (i / 8)) (Z.shiftl 1 m) (is_byte_at _ _ H3)) as Hy.
  destruct (Z.testbit (word_at (data b) (i / 8)) m) eqn:E; cbn [negb].
  - apply Z.eqb_neq. intros E0. assert (Z.testbit (Z.land (word_at (data b) (i / 8)) (Z.shiftl 1 m)) m = true) as E1 by (rewrite Z.land_spec, E, testbit_shiftl1 by lia; by rewrite Z.eqb_refl). rewrite E0 in E1. by rewrite Z.bits_0 in E1.
  - apply Z.eqb_eq. apply byte_ext; [done|done|]. intros j Hj. rewrite Z.land_spec, Z.bits_0, testbit_shiftl1 by lia. destruct (Z.eqb_spec j m) as [->|]; [by rewrite E|apply andb_false_r].
Qed.

Lemma bits_put i on : checkIndex b i = true -> exists r, put b i on = Some r /\ holds r (width b) (fun j => if j =? i then on else bit (data b) j).
Proof using Hb.
  intros Hi. destruct (index_spec i Hi) as (Hk & Hm & Ei). pose proof Hb as (H1 & H2 & H3 & H4). unfold put, BITS_PER_BYTE. rewrite Hi, aget_word_at by done. ored.
  rewrite aset_Some by done. ored. eexists. split; [done|]. set (m := i mod 8) in *. set (k := i / 8) in *. set (x := word_at (data b) k).
  set (y := if on then Z.lor x (Z.shiftl 1 m) else Z.land x (Z.lnot (Z.shiftl 1 m))).
  assert (forall j, 0 <= j -> Z.testbit y j = if j =? m then on else Z.testbit x j) as Hy.
  { intros j Hj. unfold y. destruct on; [rewrite Z.lor_spec|rewrite Z.land_spec, Z.lnot_spec by done]; rewrite testbit_shiftl1 by lia; destruct (j =? m); by rewrite ?orb_true_r, ?orb_false_r, ?andb_false_r, ?andb_true_r. }
  assert (is_byte y) as By.
  { assert (is_byte x) as Hx by by apply is_byte_at. unfold y. destruct on; [|by apply byte_land]. apply byte_lor; [done|]. rewrite Z.shiftl_1_l. pose proof (Z.pow_lt_mono_r 2 m 8 ltac:(lia) ltac:(lia) ltac:(lia)). unfold is_byte. lia. }
  apply holds_data; [done|by rewrite zlen_insert|by apply Forall_insert| |].
  - intros j. unfold bit at 1. destruct (Z.leb_spec 0 j) as [Hj|Hj]; cbn [andb]; [|destruct (Z.eqb_spec j i); [lia|by rewrite bit_neg]].
    unfold word_at. rewrite aget_insert by done. destruct (Z.eqb_spec k (j / 8)) as [E|E]; cbn [default].
    + unfold id. pose proof (Z.div_mod j 8 ltac:(done)) as Ej. pose proof (Z.mod_pos_bound j 8 ltac:(done)) as Hmj. rewrite Hy by lia. destruct (Z.eqb_spec (j mod 8) m), (Z.eqb_spec j i); [done|lia|subst j; lia|]. unfold bit. rewrite (proj2 (Z.leb_le 0 j)) by done. by rewrite <- E.
    + destruct (Z.eqb_spec j i) as [->|]; [by destruct E|]. unfold bit. by rewrite (proj2 (Z.leb_le 0 j)).
  - intros j. destruct (Z.eqb_spec j i) as [->|]; [intros _; unfold checkIndex in Hi; lia|apply H4].
Qed.

Lemma nega_spec : exists r, nega b = Some r /\ holds r (width b) (fun i => checkIndex b i && negb (bit (data b) i)).
Proof using Hb.
  pose proof Hb as (H1 & H2 & H3 & _). pose proof (size_bounds _ H1) as [Hs Hsz]. unfold nega.
  destruct (for_up_cells (fun i => BYTE (Z.lnot (word_at (data b) i))) (fun i d => x ← d.[i]; d.[i <- BYTE (Z.lnot x)]) 0 (Z.to_nat (getSize (width b))) (data b)) as (d & -> & Hl & Hc); [done|lia| |].
  { intros i a Hi _ Ha. rewrite Ha, aget_word_at by lia. done. }
  ored. rewrite Z2Nat.id in Hc by done. destruct (bit_cells (data b) d _ _ H2 Hc) as [Hd Hi]; [intros k _; apply Z.mod_pos_bound; done|].
  destruct (ZERO_LEFT_OVER_spec (width b) d) as (d' & -> & Hl' & Hd' & Hi'); [done|congruence|done|]. ored. eexists. split; [done|]. apply holds_data; [done|congruence|done| |].
  - intros i. rewrite Hi', Hi. unfold checkIndex. destruct (Z.leb_spec 0 i); [|done]. cbn [andb]. destruct (Z.ltb_spec i (width b)); [|by rewrite andb_false_r]. rewrite (proj2 (Z.ltb_lt _ _)) by lia. rewrite andb_true_r. cbn [andb].
    unfold BYTE. change 256 with (2 ^ 8). rewrite Z.mod_pow2_bits_low by (Z.div_mod_to_equations; lia). rewrite Z.lnot_spec by (Z.div_mod_to_equations; lia). unfold bit. by rewrite (proj2 (Z.leb_le 0 i)).
  - intros i. unfold checkIndex. lia.
Qed.

Lemma card_byte_spec fuel x n : 0 <= x < 2 ^ Z.of_nat fuel -> card_byte fuel x n = Some (n + count_range (Z.testbit x) 0 fuel).
Proof using.
  revert x n. induction fuel as [|fuel IH]; intros x n Hx; cbn [card_byte].
  - cbn in Hx. replace x with 0 by lia. cbn. f_equal. lia.
  - destruct (Z.eqb_spec x 0) as [->|].
    + rewrite count_range_none; [f_equal; lia|intros; apply Z.bits_0].
    + rewrite IH by (rewrite Nat2Z.inj_succ, Z.pow_succ_r in Hx by lia; rewrite Z.shiftr_div_pow2 by done; change (2 ^ 1) with 2; Z.div_mod_to_equations; lia).
      cbn [count_range]. f_equal. change (0 + 1) with (0 + 1). rewrite count_range_shift. rewrite (count_range_ext (fun i => Z.testbit x (i + 1)) (Z.testbit (Z.shiftr x 1))) by (intros i Hi; by rewrite Z.shiftr_spec by lia).
      assert ((Z.land x 1 =? 0) = negb (Z.testbit x 0)) as ->; [|destruct (Z.testbit x 0); cbn [negb Z.b2z]; lia].
      change 1 with (Z.ones 1) at 1. rewrite Z.land_ones by done. change (2 ^ 1) with 2. rewrite Zmod_odd, Z.bit0_odd. by destruct (Z.odd x).
Qed.

Lemma bits_card : card b = Some (count_range (bit (data b)) 0 (Z.to_nat (width b))).
Proof using Hb.
  pose proof Hb as (H1 & H2 & H3 & H4). pose proof (size_bounds _ H1) as [Hs Hsz]. unfold card.
  destruct (for_up_inv (fun i n => n = count_range (bit (data b)) 0 (Z.to_nat (8 * i))) 0 (Z.to_nat (getSize (width b))) (fun i n => x ← (data b).[i]; card_byte 8 x n) 0) as (n & -> & ->); [done| |].
  - intros i n Hi ->. rewrite aget_word_at by lia. ored. rewrite card_byte_spec by (change (2 ^ Z.of_nat 8) with 256; by apply is_byte_at). eexists. split; [done|].
    replace (Z.to_nat (8 * (i + 1))) with (Z.to_nat (8 * i) + 8)%nat by lia. rewrite count_range_app. f_equal. rewrite Z.add_0_l, Z2Nat.id by lia. rewrite <- (Z.add_0_l (8 * i)), count_range_shift. apply count_range_ext.
    intros j Hj. rewrite (Z.add_comm j), bit_at by lia. done.
  - f_equal. replace (Z.to_nat (8 * (0 + Z.of_nat (Z.to_nat (getSize (width b)))))) with (Z.to_nat (width b) + Z.to_nat (8 * getSize (width b) - width b))%nat by lia.
    rewrite count_range_app, (count_range_none _ (0 + _)); [lia|]. intros i Hi. destruct (bit (data b) i) eqn:E; [apply H4 in E; lia|done].
Qed.

(** A list of small integers. *)
Definition of_ints (l : list Z) : oz_list := foldr (fun i l => LCons (EInt i) l) LNil l.

Lemma bits_toList : BIBitString_toList b = Some (of_ints (filter (fun i => bit (data b) i = true) (seqZ 0 (width b)))).
Proof using Hb.
  unfold BIBitString_toList. pose proof Hb as (H1 & _). rewrite <- (Z2Nat.id (width b)) at 2 by done.
  assert (forall n t, Z.of_nat n <= width b -> for_down n (fun i l => x ← get b i; Some (if x =? 0 then l else LCons (EInt i) l)) t =
    Some (foldr (fun i l => LCons (EInt i) l) t (filter (fun i => bit (data b) i = true) (seqZ 0 (Z.of_nat n))))) as H; [|rewrite H by lia; done].
  induction n as [|n IH]; intros t Hn; cbn [for_down]; [done|]. destruct (get_spec (Z.of_nat n)) as (x & -> & Ex); [unfold checkIndex; lia|]. ored. rewrite IH by lia. f_equal.
  rewrite Nat2Z.inj_succ, <- Z.add_1_r, seqZ_app by lia. rewrite filter_app, foldr_app. f_equal. replace (seqZ (0 + Z.of_nat n) 1) with [Z.of_nat n] by done. rewrite filter_cons, Ex.
  destruct (bit (data b) (Z.of_nat n)) eqn:E; cbn; [done|]. done.
Qed.
End one.

(** ** Construction from lists *)

Definition of_elems (l : list oz_elem) : oz_list := foldr LCons LNil l.

Lemma isList_spec l : (exists es, l = of_elems es /\ OZ_isList l = Proceed tt) \/ OZ_isList l = Suspend \/ OZ_isList l = Raise (TypeError 1).
Proof.
  induction l as [e l [(es & -> & IH)|[IH|IH]]| | |]; cbn [OZ_isList]; auto; [left; by exists (e :: es)|left; by exists []].
Qed.

Lemma isList_elems es : OZ_isList (of_elems es) = Proceed tt.
Proof. by induction es. Qed.

Lemma length_elems es : OZ_length (of_elems es) = zlen es.
Proof. unfold OZ_length. rewrite isList_elems. induction es as [|e es IH]; [done|]. cbn. rewrite zlen_cons. fold (of_elems es). by rewrite IH. Qed.

Lemma of_ints_elems l : of_ints l = of_elems (EInt <$> l).
Proof. induction l as [|i l IH]; [done|]. cbn. by f_equal. Qed.

Definition is_index (w : Z) (e : oz_elem) : bool := match e with EInt i => (0 <=? i) && (i <? w) | _ => false end.
Definition is_elem (es : list oz_elem) (j : Z) : bool := existsb (fun e => match e with EInt i => j =? i | _ => false end) es.

Lemma make_loop_spec es b : wf b ->
  if forallb (is_index (width b)) es then exists r, make_loop (width b) (of_elems es) b = Some (Proceed r) /\ holds r (width b) (fun j => is_elem es j || bit (data b) j)
  else make_loop (width b) (of_elems es) b = Some (Raise (TypeError 1)).
Proof.
  revert b. induction es as [|e es IH]; intros b Hb; cbn [forallb of_elems foldr make_loop]; [exists b; done|].
  destruct e as [i| |]; cbn [is_index andb]; [|done..]. destruct (_ && (i <? width b)) eqn:Hi; cbn [andb].
  - assert ((i <? 0) || (width b <=? i) = false) as -> by lia. destruct (bits_put b Hb i true Hi) as (r & -> & Hr & Hw & Hbits). ored. specialize (IH r Hr). rewrite Hw in IH. fold (of_elems es).
    destruct (forallb _ es); [|done]. destruct IH as (r' & -> & Hr' & Hw' & Hbits'). exists r'. split; [done|]. split; [done|]. split; [done|]. intros j. rewrite Hbits', Hbits. cbn [is_elem existsb]. fold (is_elem es j).
    destruct (j =? i), (is_elem es j); by rewrite ?orb_true_r, ?orb_false_r.
  - assert ((i <? 0) || (width b <=? i) = true) as -> by lia. done.
Qed.

(** * Byte strings *)

Module B := ByteStrings.

Definition bytes_wf (b : B.ByteString) : Prop := B.width b = zlen (B.data b) /\ Forall is_byte (B.data b).

Lemma newByteString_spec w : 0 <= w -> exists b, B.newByteString w = Some b /\ B.width b = w /\ B.data b = replicate (Z.to_nat w) 0.
Proof. intros Hw. unfold B.newByteString. rewrite (proj2 (Z.ltb_ge _ _)) by done. by eexists. Qed.

Lemma bytes_ext b c : bytes_wf b -> bytes_wf c -> B.data b = B.data c -> b = c.
Proof. intros [H1 _] [K1 _] E. destruct b as [w d], c as [v e]. cbn in *. congruence. Qed.

Section byte_strings.
Context (b : B.ByteString) (Hb : bytes_wf b).

Lemma bytes_get i : B.checkIndex b i = true -> exists x, B.get b i = Some x /\ (B.data b).[i] = Some x /\ is_byte x.
Proof using Hb.
  intros Hi. unfold B.get. rewrite Hi. destruct Hb as [H1 H2]. destruct (aget_Some (B.data b) i) as [x Hx]; [unfold B.checkIndex in Hi; lia|]. exists x. split; [done|]. split; [done|].
  by apply (proj1 (Forall_aget _ _) H2 i).
Qed.

Lemma toString_spec t : B.BIByteString_toStringWithTail b t = Some (foldr (fun i l => LCons (EInt i) l) t (B.data b)).
Proof using Hb.
  unfold B.BIByteString_toStringWithTail. destruct Hb as [H1 H2]. rewrite H1. unfold zlen. rewrite Nat2Z.id.
  assert (forall n t, (n <= length (B.data b))%nat -> for_down n (fun i l => x ← B.get b i; Some (LCons (EInt x) l)) t = Some (foldr (fun i l => LCons (EInt i) l) t (take n (B.data b)))) as H; [|rewrite H by done; by rewrite firstn_all].
  induction n as [|n IH]; intros u Hn; cbn [for_down]; [done|]. destruct (bytes_get (Z.of_nat n)) as (x & -> & Hx & _); [unfold B.checkIndex, zlen in *; lia|]. ored. rewrite IH by lia.
  rewrite aget_nat in Hx. by rewrite (take_S_r _ _ _ Hx), foldr_app.
Qed.

Lemma find_char_spec n s c : 0 <= s -> s + Z.of_nat n = zlen (B.data b) ->
  exists r, B.find_char n (B.data b) s c = Some r /\
    match r with Some i => s <= i < zlen (B.data b) /\ (B.data b).[i] = Some c /\ forall j, s <= j < i -> (B.data b).[j] <> Some c | None => forall j, s <= j -> (B.data b).[j] <> Some c end.
Proof using.
  revert s. induction n as [|n IH]; intros s Hs Hn; cbn [B.find_char].
  - exists None. split; [done|]. intros j Hj. by rewrite aget_None by lia.
  - destruct (aget_Some (B.data b) s) as [x Hx]; [lia|]. rewrite Hx. ored. destruct (Z.eqb_spec x c) as [->|Hne].
    + exists (Some s). split; [done|]. split; [lia|]. split; [done|]. lia.
    + destruct (IH (s + 1)) as (r & -> & Hr); [lia..|]. exists r. split; [done|]. destruct r as [i|].
      * destruct Hr as (Hi & Hc & Hf). split; [lia|]. split; [done|]. intros j Hj. destruct (Z.eq_dec j s) as [->|]; [congruence|apply Hf; lia].
      * intros j Hj. destruct (Z.eq_dec j s) as [->|]; [congruence|apply Hr; lia].
Qed.
End byte_strings.

Lemma memcpy_spec dst offset src from n : 0 <= offset -> 0 <= from -> 0 <= n -> offset + n <= zlen dst -> from + n <= zlen src ->
  B.memcpy dst offset src from n = Some (take (Z.to_nat offset) dst ++ take (Z.to_nat n) (drop (Z.to_nat from) src) ++ drop (Z.to_nat (offset + n)) dst).
Proof. intros. unfold B.memcpy. repeat rewrite (proj2 (Z.leb_le _ _)) by done. done. Qed.

Lemma bytes_append b1 b2 : bytes_wf b1 -> bytes_wf b2 -> exists r, B.BIByteString_append b1 b2 = Some (Proceed r) /\ bytes_wf r /\ B.data r = B.data b1 ++ B.data b2.
Proof.
  intros [H1 H2] [K1 K2]. pose proof (zlen_nonneg (B.data b1)). pose proof (zlen_nonneg (B.data b2)). unfold B.BIByteString_append. destruct (newByteString_spec (B.width b1 + B.width b2)) as (b3 & -> & W3 & D3); [lia|]. ored.
  assert (zlen (B.data b3) = B.width b1 + B.width b2) as Z3 by (rewrite D3; unfold zlen; rewrite length_replicate; lia).
  unfold B.copy. rewrite memcpy_spec by lia. ored. cbn [B.data B.width]. set (d := take _ _ ++ _).
  assert (d = B.data b1 ++ replicate (Z.to_nat (B.width b2)) 0) as ->.
  { unfold d. cbn [Z.to_nat]. rewrite take_0, drop_0, H1, take_zlen, D3, drop_replicate. cbn [app]. do 2 f_equal. lia. }
  rewrite memcpy_spec; [|lia|lia|lia|rewrite zlen_app; unfold zlen; rewrite length_replicate; fold (zlen (B.data b1)); lia|lia]. ored. eexists. split; [done|].
  cbn [B.data B.width]. cbn [Z.to_nat]. rewrite drop_0, K1, take_zlen, H1. rewrite take_app_length' by (unfold zlen; lia). rewrite (drop_ge (_ ++ _)) by (rewrite length_app, length_replicate; unfold zlen; lia). rewrite app_nil_r.
  split; [|done]. split; cbn; [rewrite W3, zlen_app; lia|by apply Forall_app].
Qed.

Lemma slice_spec b1 from to : bytes_wf b1 -> 0 <= from -> from <= to -> to <= B.width b1 ->
  exists r, B.BIByteString_slice b1 from to = Some (Proceed r) /\ bytes_wf r /\ B.data r = take (Z.to_nat (to - from)) (drop (Z.to_nat from) (B.data b1)).
Proof.
  intros [H1 H2] Hf Ht Hw. unfold B.BIByteString_slice. cbv zeta. rewrite (proj2 (Z.ltb_ge from 0)), (proj2 (Z.ltb_ge to 0)), (proj2 (Z.ltb_ge _ from)), (proj2 (Z.ltb_ge _ to)), (proj2 (Z.ltb_ge to from)) by lia. cbn [orb].
  destruct (newByteString_spec (to - from)) as (b3 & -> & W3 & D3); [lia|]. ored. assert (zlen (B.data b3) = to - from) as Z3 by (rewrite D3; unfold zlen; rewrite length_replicate; lia).
  unfold B.slice. rewrite memcpy_spec by lia. ored. eexists. split; [done|]. cbn [B.data B.width]. cbn [Z.to_nat]. rewrite take_0, Z.add_0_l. rewrite (drop_ge (B.data b3)) by (unfold zlen in Z3; lia). rewrite app_nil_r. cbn [app].
  split; [|done]. split; cbn [B.data B.width]; [rewrite W3, zlen_take; [done|unfold zlen in *; rewrite length_drop; lia]|by apply Forall_take, Forall_drop].
Qed.

Definition is_byte_elem (e : oz_elem) : bool := match e with EInt c => (0 <=? c) && (c <=? 255) | _ => false end.

(** The elements that the loop has not yet reached are written after the first [i] bytes. *)
Lemma bytes_make_loop es : forall i b, 0 <= i -> i + zlen es = B.width b -> B.width b = zlen (B.data b) ->
  if forallb is_byte_elem es then exists l, es = EInt <$> l /\ Forall is_byte l /\ B.make_loop i (of_elems es) b = Some (Proceed (B.BS (B.width b) (take (Z.to_nat i) (B.data b) ++ l)))
  else B.make_loop i (of_elems es) b = Some (Raise (TypeError 0)).
Proof.
  induction es as [|e es IH]; intros i b Hi Hn Hw; cbn [forallb of_elems foldr B.make_loop].
  - rewrite zlen_nil in Hn. exists []. split; [done|]. split; [constructor|]. rewrite app_nil_r. replace i with (zlen (B.data b)) by lia. rewrite take_zlen. by destruct b.
  - rewrite zlen_cons in Hn. pose proof (zlen_nonneg es). destruct e as [c| |]; cbn [is_byte_elem andb]; [|done..]. destruct (_ && (c <=? 255)) eqn:Hc; cbn [andb].
    + assert ((c <? 0) || (255 <? c) = false) as -> by lia. unfold B.put, B.checkIndex. rewrite (proj2 (Z.leb_le _ _)), (proj2 (Z.ltb_lt _ _)) by lia. cbn [andb]. rewrite aset_Some by lia. ored.
      specialize (IH (i + 1) (B.BS (B.width b) (<[Z.to_nat i:=c]> (B.data b)))). cbn [B.width B.data] in IH. rewrite zlen_insert in IH. specialize (IH ltac:(lia) ltac:(lia) Hw). fold (of_elems es).
      destruct (forallb _ es); [|done]. destruct IH as (l & -> & Hl & ->). exists (c :: l). split; [done|]. split; [constructor; [unfold is_byte; lia|done]|]. do 3 f_equal.
      replace (Z.to_nat (i + 1)) with (S (Z.to_nat i)) by lia. unfold zlen in *. rewrite (take_S_r _ _ c) by (apply list_lookup_insert_eq; lia). rewrite take_insert_ge by lia. by rewrite <- app_assoc.
    + assert ((c <? 0) || (255 <? c) = true) as -> by lia. done.
Qed.

Lemma bytes_make_spec es :
  if forallb is_byte_elem es then exists r, B.BIByteString_make (of_elems es) = Some (Proceed r) /\ bytes_wf r /\ es = EInt <$> B.data r
  else B.BIByteString_make (of_elems es) = Some (Raise (TypeError 0)).
Proof.
  unfold B.BIByteString_make. rewrite isList_elems, length_elems. destruct (newByteString_spec (zlen es)) as (b & -> & Hw & Hd); [done|]. ored.
  pose proof (bytes_make_loop es 0 b) as H. assert (B.width b = zlen (B.data b)) as Hz by (rewrite Hw, Hd; unfold zlen; rewrite length_replicate; lia).
  specialize (H ltac:(lia) ltac:(lia) Hz). destruct (forallb _ es); [|done]. destruct H as (l & -> & Hl & ->). eexists. split; [done|]. cbn. split; [|done]. split; [cbn; rewrite Hw; unfold zlen; by rewrite length_fmap|done].
Qed.
