(* ===== verification/ByteDataTheorems.v ===== *)
(** * Bit strings, byte strings and their marshaling: transfer and properties *)
From S2P Require Import Prelude Word32 BitArray ByteData ByteDataOps.
Import Marshaler Transfer.
Import BitArray (oz_elem(..), oz_list(..), oz_bool(..)).

Lemma s32_small i : 0 <= i < 2 ^ 31 -> s32 i = i.
Proof. intros Hi. unfold s32. by rewrite (proj2 (Z.ltb_lt _ _)) by lia. Qed.

Lemma w32_word i : 0 <= i < 2 ^ 32 -> w32 i = i.
Proof. apply Z.mod_small. Qed.

Lemma s32_w32 i : - 2 ^ 31 <= i < 2 ^ 31 -> s32 (w32 i) = i.
Proof.
  intros Hi. unfold s32, w32. destruct (Z.lt_ge_cases i 0).
  - replace (i mod 2 ^ 32) with (i + 2 ^ 32) by (rewrite <- (Z.mod_add i 1) by done; rewrite Z.mod_small; lia). rewrite (proj2 (Z.ltb_ge _ _)) by lia. lia.
  - rewrite Z.mod_small by lia. by rewrite (proj2 (Z.ltb_lt _ _)) by lia.
Qed.

(** ** Encodings *)

(** At most [n] bytes that are written into any buffer with space for them, and read back whatever follows. *)
Definition encodes {A} (w : ByteBuffer -> option ByteBuffer) (r : list Z -> option (A * list Z)) (x : A) (n : Z) : Prop :=
  exists l, zlen l <= n /\ (forall bs, n <= availableSpace bs -> w bs = Some (appends bs l)) /\ forall rest, r (l ++ rest) = Some (x, rest).

Lemma number_encodes i : is_word i -> encodes (marshalNumber i) unmarshalNumber i MNumberMaxSize.
Proof.
  intros Hi. exists (encoding 5 i). split; [apply (zlen_encoding 5)|]. split; [|intros rest; by apply unmarshalNumber_spec].
  intros bs Hs. rewrite marshalNumber_spec by done. by rewrite w32_word.
Qed.

(** A number and then some bytes. *)
Lemma counted_bytes {A} n s (w : ByteBuffer -> option ByteBuffer) (r : list Z -> option (A * list Z)) x : 0 <= n < 2 ^ 32 ->
  (forall bs, zlen s <= availableSpace bs -> w bs = Some (appends bs s)) -> (forall rest, r (encoding 5 n ++ s ++ rest) = Some (x, rest)) ->
  encodes (fun bs => bs ← marshalNumber n bs; w bs) r x (MNumberMaxSize + zlen s).
Proof.
  intros Hn Hw Hr. exists (encoding 5 n ++ s). pose proof (zlen_encoding 5 n) as Hl. unfold MNumberMaxSize. split; [rewrite zlen_app; lia|]. split; [|intros rest; rewrite <- app_assoc; apply Hr].
  intros bs Hs. pose proof (zlen_nonneg s). rewrite marshalNumber_spec by (unfold MNumberMaxSize; lia). rewrite w32_word by done. ored. rewrite Hw by (cbn [appends availableSpace]; lia). by rewrite appends_app.
Qed.

Lemma string_encodes s : Forall is_byte s -> zlen s < 2 ^ 32 -> encodes (marshalString s) unmarshalString s (MNumberMaxSize + zlen s).
Proof.
  intros Hs Hl. apply (counted_bytes (zlen s) s (marshalBytes s) unmarshalString s); [done|intros; by apply marshalBytes_spec|].
  intros rest. unfold unmarshalString. rewrite unmarshalNumber_spec by done. ored. unfold zlen. rewrite Nat2Z.id. apply getString_spec.
Qed.

Lemma smallInt_encodes i : - 2 ^ 31 <= i < 2 ^ 31 -> encodes (marshalSmallInt i) unmarshal (SmallInt i) (DIFMaxSize + MNumberMaxSize).
Proof.
  intros Hi. exists (DIF_SMALLINT :: encoding 5 (w32 i)). pose proof (zlen_encoding 5 (w32 i)). unfold DIFMaxSize, MNumberMaxSize. split; [rewrite zlen_cons; lia|]. split.
  - intros bs Hs. unfold marshalSmallInt, marshalDIF. rewrite put_appends by (done || lia). ored. rewrite marshalNumber_spec by (cbn [appends availableSpace]; rewrite zlen_cons, zlen_nil; unfold MNumberMaxSize; lia). by rewrite appends_app.
  - intros rest. cbn [app unmarshal Marshaler.get]. unfold unmarshal. ored. cbn [Marshaler.get]. ored. rewrite unmarshalNumber_spec by apply is_word_w32. ored. by rewrite s32_w32.
Qed.

Lemma float_encodes d : is_word d.1 -> is_word d.2 -> encodes (marshalFloat d) unmarshal (Float d) (DIFMaxSize + 2 * MNumberMaxSize).
Proof.
  destruct d as [i0 i1]. cbn [fst snd]. intros H0 H1. exists (DIF_FLOAT :: encoding 5 i0 ++ encoding 5 i1). pose proof (zlen_encoding 5 i0). pose proof (zlen_encoding 5 i1). unfold DIFMaxSize, MNumberMaxSize.
  split; [rewrite zlen_cons, zlen_app; lia|]. split.
  - intros bs Hs. unfold marshalFloat, marshalDIF. cbn [fst snd]. rewrite put_appends by (done || lia). ored. rewrite marshalNumber_spec by (cbn [appends availableSpace]; rewrite zlen_cons, zlen_nil; unfold MNumberMaxSize; lia). ored.
    rewrite w32_word by done. rewrite marshalNumber_spec by (cbn [appends availableSpace]; rewrite zlen_cons, zlen_nil; unfold MNumberMaxSize; lia). rewrite w32_word by done. by rewrite !appends_app.
  - intros rest. unfold unmarshal. cbn [app Marshaler.get]. ored. cbn [Z.eqb DIF_FLOAT DIF_SMALLINT Pos.eqb]. unfold unmarshalFloat. rewrite <- app_assoc, unmarshalNumber_spec by done. ored. by rewrite unmarshalNumber_spec.
Qed.

Lemma to_nat_zlen {A} (l : list A) : Z.to_nat (zlen l) = length l.
Proof. unfold zlen. lia. Qed.

Lemma write_all d bs : Forall is_byte d -> zlen d <= availableSpace bs -> for_up 0 (length d) (fun i mb => x ← d.[i]; marshalByte x mb) bs = Some (appends bs d).
Proof. intros Hd Hs. rewrite write_loop by (done || unfold zlen in *; lia). cbn [Z.to_nat]. by rewrite drop_0, firstn_all. Qed.

Lemma read_all s d rest : zlen s = zlen d ->
  for_up 0 (length s) (fun i '(d, l) => '(x, l) ← Marshaler.get l; d ← d.[i <- x]; Some (d, l)) (d, s ++ rest) = Some (s, rest).
Proof. intros Hl. rewrite read_loop by lia. cbn [Z.to_nat]. rewrite take_0, Z.add_0_l, Hl, drop_ge by (unfold zlen; lia). by rewrite app_nil_r. Qed.

Lemma bitString_encodes b : wf b -> BitStrings.width b < 2 ^ 31 -> encodes (BitStrings.pickleV b) BitStrings.unmarshalBitString b (MNumberMaxSize + zlen (BitStrings.data b)).
Proof.
  intros (H1 & H2 & H3 & _) Hw. apply (counted_bytes (BitStrings.width b) (BitStrings.data b)); [lia| |].
  - intros bs Hs. rewrite <- H2. rewrite to_nat_zlen. by apply write_all.
  - intros rest. unfold BitStrings.unmarshalBitString. rewrite unmarshalNumber_spec by (unfold is_word; lia). ored. rewrite s32_small by lia.
    destruct (newBitString_spec (BitStrings.width b)) as (s & -> & (_ & S2 & _) & Sw & _); [done|]. ored. rewrite Sw, <- H2. rewrite to_nat_zlen, read_all by (rewrite S2, Sw; done). ored. by destruct b.
Qed.

Lemma byteString_encodes b : bytes_wf b -> B.width b < 2 ^ 31 -> encodes (B.pickleV b) B.unmarshalByteString b (MNumberMaxSize + zlen (B.data b)).
Proof.
  intros [H1 H2] Hw. pose proof (zlen_nonneg (B.data b)). apply (counted_bytes (B.width b) (B.data b)); [lia| |].
  - intros bs Hs. rewrite H1. rewrite to_nat_zlen. by apply write_all.
  - intros rest. unfold B.unmarshalByteString. rewrite unmarshalNumber_spec by (unfold is_word; lia). ored. rewrite s32_small by lia.
    destruct (newByteString_spec (B.width b)) as (s & -> & Sw & Sd); [lia|]. ored. rewrite Sw, H1. rewrite to_nat_zlen, read_all by (rewrite Sd; unfold zlen in *; rewrite length_replicate; lia). ored. rewrite <- H1. by destruct b.
Qed.

(** ** Fragments *)

Section transfer.
Context (d : list Z) (Hd : Forall is_byte d) (Hlen : zlen d < 2 ^ 31).

(** The descriptors of the sender and of the receiver when the first [i] bytes have been transferred. *)
Definition sender (k : Kind) (i : Z) : DPMExtDesc := Desc k d i (zlen d) (zlen d - i).
Definition receiver (k : Kind) (i : Z) : DPMExtDesc := Desc k (take (Z.to_nat i) d ++ replicate (Z.to_nat (zlen d - i)) 0) i (zlen d) i.

(** The assertion of [setData] on the position after a fragment. *)
Definition position_ok (k : Kind) (i : Z) : bool := match k with BitStringDesc => i <? zlen d | ByteStringDesc => i <=? zlen d end.

Definition fragment (i n : Z) : list Z := encoding 5 n ++ take (Z.to_nat n) (drop (Z.to_nat i) d).

Lemma zlen_fragment i n : 0 <= i -> 0 <= n -> i + n <= zlen d -> zlen (fragment i n) <= MNumberMaxSize + n.
Proof using. intros. unfold fragment, MNumberMaxSize. rewrite zlen_app, zlen_take by (unfold zlen in *; rewrite length_drop; lia). pose proof (zlen_encoding 5 n). lia. Qed.

Lemma marshalByteArray_spec k i bs : 0 <= i <= zlen d -> MNumberMaxSize < availableSpace bs ->
  let n := Z.min (availableSpace bs - MNumberMaxSize) (zlen d - i) in
  marshalByteArray bs (sender k i) =
    if position_ok k (i + n) then Some (appends bs (fragment i n), if availableSpace bs - MNumberMaxSize <? zlen d - i then Some (sender k (i + n)) else None) else None.
Proof using Hd Hlen.
  intros Hi Hs n. unfold MNumberMaxSize in *. unfold marshalByteArray, MNumberMaxSize. rewrite (proj2 (Z.ltb_lt _ _) Hs). cbn [negb sender currentSize]. fold n. assert (0 <= n <= zlen d - i) as Hn by lia.
  unfold decCurrentSize. cbn [sender currentSize totalSize kind bytes index]. rewrite (proj2 (Z.leb_le _ _)), (proj2 (Z.leb_le 0 _)) by lia. cbn [andb]. ored. rewrite marshalNumber_spec by (unfold MNumberMaxSize; lia). ored. cbn [index bytes].
  rewrite w32_word by lia. pose proof (zlen_encoding 5 n). rewrite write_loop; [|done|lia|lia|cbn [appends availableSpace]; lia]. ored. rewrite appends_app. unfold setData. cbn [index bytes kind totalSize currentSize].
  rewrite (proj2 (Z.leb_le 0 (i + n))) by lia. cbn [andb]. fold (position_ok k (i + n)). unfold fragment. destruct (position_ok k (i + n)); ored; [|done]. unfold sender. by replace (zlen d - i - n) with (zlen d - (i + n)) by lia.
Qed.

Lemma unmarshalByteArray_spec k i n : 0 <= i -> 0 <= n -> i + n <= zlen d -> position_ok k (i + n) = true ->
  unmarshalByteArray (fragment i n) (receiver k i) = Some ([], receiver k (i + n), i + n =? zlen d).
Proof using Hlen.
  intros Hi Hn Hin Hp. unfold unmarshalByteArray, fragment. rewrite unmarshalNumber_spec by (unfold is_word; lia). ored. rewrite s32_small by lia. cbn [receiver currentSize totalSize].
  rewrite (proj2 (Z.leb_le 0 n)), (proj2 (Z.leb_le (n + i) _)) by lia. cbn [andb negb]. unfold incCurrentSize. cbn [receiver currentSize totalSize kind bytes index]. rewrite (proj2 (Z.leb_le 0 i)), (proj2 (Z.leb_le _ _)) by lia. cbn [andb]. ored. cbn [index bytes].
  set (s := take (Z.to_nat n) (drop (Z.to_nat i) d)). assert (zlen s = n) as Hs by (unfold s; rewrite zlen_take; [done|unfold zlen in *; rewrite length_drop; lia]).
  replace (Z.to_nat n) with (length s) by (unfold zlen in Hs; lia). rewrite <- (app_nil_r s) at 2. rewrite read_loop; [|done|].
  2:{ rewrite Hs, zlen_app. unfold zlen in *. rewrite length_take, length_replicate. lia. }
  ored. unfold setData, setBytes. cbn [kind bytes index totalSize currentSize]. rewrite (proj2 (Z.leb_le 0 (i + n))) by lia. cbn [andb].
  assert (take (Z.to_nat i) (take (Z.to_nat i) d ++ replicate (Z.to_nat (zlen d - i)) 0) ++ s ++ drop (Z.to_nat (i + zlen s)) (take (Z.to_nat i) d ++ replicate (Z.to_nat (zlen d - i)) 0) = take (Z.to_nat (i + n)) d ++ replicate (Z.to_nat (zlen d - (i + n))) 0) as ->.
  { unfold zlen in *. rewrite take_app_length' by (rewrite length_take; lia). rewrite drop_app_ge by (rewrite length_take; lia). rewrite drop_replicate, length_take, app_assoc. f_equal; [|f_equal; lia].
    replace (Z.to_nat (i + n)) with (Z.to_nat i + Z.to_nat n)%nat by lia. unfold s. by rewrite take_take_drop. }
  assert (zlen (take (Z.to_nat (i + n)) d ++ replicate (Z.to_nat (zlen d - (i + n))) 0) = zlen d) as -> by (rewrite zlen_app; unfold zlen in *; rewrite length_take, length_replicate; lia).
  fold (position_ok k (i + n)). rewrite Hp. ored. done.
Qed.

Lemma cont_spec k i s : 0 <= i <= zlen d -> DIFMaxSize + 2 * MNumberMaxSize < s -> exists n f, 0 <= n <= zlen d - i /\ (i < zlen d -> 0 < n) /\ zlen f <= s /\
  dpMarshalByteArrayCont (BB [] s) (sender k i) = (if position_ok k (i + n) then Some (BB f (s - zlen f), if i + n <? zlen d then Some (sender k (i + n)) else None) else None) /\
  (position_ok k (i + n) = true -> unmarshalCont f (receiver k i) = Some ([], receiver k (i + n), i + n =? zlen d)).
Proof using Hd Hlen.
  intros Hi Hs. unfold DIFMaxSize, MNumberMaxSize in Hs. unfold dpMarshalByteArrayCont, DIFMaxSize, MNumberMaxSize. cbn [availableSpace]. rewrite (proj2 (Z.ltb_lt _ _)) by lia. cbn [negb]. unfold marshalDIF. rewrite put_appends by (done || cbn; lia). ored.
  rewrite marshalNumber_spec by (cbn; unfold MNumberMaxSize; rewrite ?zlen_cons, ?zlen_nil; lia). ored. rewrite appends_app. cbn [sender kind].
  assert (encoding 5 (w32 (getExtID k)) = [getExtID k]) as -> by by destruct k. set (h := [DIF_EXT_CONT] ++ [getExtID k]). assert (zlen h = 2) as Hh by done.
  set (n := Z.min (s - 2 - 5) (zlen d - i)). rewrite marshalByteArray_spec; [|done|unfold MNumberMaxSize; cbn [appends availableSpace]; rewrite Hh; lia]. cbn [appends availableSpace]. rewrite Hh. unfold MNumberMaxSize. fold n.
  exists n, (h ++ fragment i n). pose proof (zlen_fragment i n ltac:(lia) ltac:(lia) ltac:(lia)) as Hf. unfold MNumberMaxSize in Hf. split; [lia|]. split; [lia|]. split; [rewrite zlen_app; lia|]. split.
  - destruct (position_ok k (i + n)); [|done]. do 2 f_equal.
    + unfold appends. cbn [written availableSpace app]. f_equal. rewrite zlen_app. lia.
    + assert ((s - 2 - 5 <? zlen d - i) = (i + n <? zlen d)) as ->; [|done]. destruct (Z.ltb_spec (s - 2 - 5) (zlen d - i)), (Z.ltb_spec (i + n) (zlen d)); lia.
  - intros Hp. unfold unmarshalCont, h. cbn [app Marshaler.get]. ored. cbn [Z.eqb DIF_EXT_CONT Pos.eqb negb].
    assert (unmarshalNumber (getExtID k :: fragment i n) = Some (getExtID k, fragment i n)) as E by (destruct k; [apply (unmarshalNumber_spec 2 (fragment i n))|apply (unmarshalNumber_spec 3 (fragment i n))]; done).
    cbn [app]. rewrite E. ored. cbn [receiver kind]. rewrite Z.eqb_refl. cbn [negb]. apply unmarshalByteArray_spec; [lia|lia|lia|done].
Qed.

(** What the receiver makes of the frames, when the sender is left with [o]. *)
Definition agrees k i (spaces : list Z) (frames : list (list Z)) (o : option DPMExtDesc) (r : option (list Z + DPMExtDesc)) : Prop :=
  Forall2 (fun f s => zlen f <= s) frames (take (length frames) spaces) /\
  match o with
  | None => r = Some (inl d)
  | Some desc => exists j, desc = sender k j /\ i + zlen spaces <= j < zlen d /\ length frames = length spaces /\ r = Some (inr (receiver k j))
  end.

Lemma receiver_complete k : bytes (receiver k (zlen d)) = d.
Proof using. unfold receiver. cbn [bytes]. by rewrite take_zlen, Z.sub_diag, app_nil_r. Qed.

Lemma send_rest_bytes spaces i : 0 <= i < zlen d -> Forall (fun s => DIFMaxSize + 2 * MNumberMaxSize < s) spaces ->
  exists frames o, send_rest spaces (Some (sender ByteStringDesc i)) = Some (frames, o) /\
    agrees ByteStringDesc i spaces frames o (receive_rest frames ([], receiver ByteStringDesc i, false)).
Proof using Hd Hlen.
  intros Hi Hsp. revert i Hi. induction Hsp as [|s spaces Hs _ IH]; intros i Hi; cbn [send_rest].
  - exists [], (Some (sender ByteStringDesc i)). split; [done|]. split; [constructor|]. exists i. rewrite zlen_nil. split_and!; [done|lia|lia|done|done].
  - destruct (cont_spec ByteStringDesc i s) as (n & f & Hn & Hpos & Hf & E & R); [lia|done|]. rewrite E. assert (position_ok ByteStringDesc (i + n) = true) as Hp by (unfold position_ok; lia).
    rewrite Hp. ored. specialize (R Hp). destruct (Z.ltb_spec (i + n) (zlen d)) as [Hlt|Hge].
    + destruct (IH (i + n)) as (frames & o & -> & HF & Ho); [lia|]. ored. exists (f :: frames), o. split; [done|]. cbn [written receive_rest length take]. split; [by constructor|]. rewrite R. ored. rewrite (proj2 (Z.eqb_neq _ _)) by lia.
      destruct o as [desc|]; [|done]. destruct Ho as (j & -> & Hj & Hl & Hr). exists j. rewrite zlen_cons. split_and!; [done|lia|lia|cbn [length]; by rewrite Hl|done].
    + assert (send_rest spaces None = Some ([], None)) as -> by by destruct spaces. ored. exists [f], None. split; [done|]. cbn [written receive_rest length take]. split; [by repeat constructor|]. rewrite R. ored. rewrite (proj2 (Z.eqb_eq _ _)) by lia.
      replace (i + n) with (zlen d) by lia. by rewrite receiver_complete.
Qed.

Lemma send_rest_bits spaces i : 0 <= i < zlen d -> Forall (fun s => DIFMaxSize + 2 * MNumberMaxSize < s) spaces -> zlen d - i <= zlen spaces -> send_rest spaces (Some (sender BitStringDesc i)) = None.
Proof using Hd Hlen.
  intros Hi Hsp. revert i Hi. induction Hsp as [|s spaces Hs _ IH]; intros i Hi Hz; [rewrite zlen_nil in Hz; lia|]. cbn [send_rest]. rewrite zlen_cons in Hz.
  destruct (cont_spec BitStringDesc i s) as (n & f & Hn & Hpos & Hf & -> & _); [lia|done|]. destruct (position_ok BitStringDesc (i + n)) eqn:Hp; [|done]. ored. cbn [position_ok] in Hp. rewrite Hp. rewrite IH by lia. done.
Qed.

(** The first fragment, behind the width. *)
Lemma first_spec k w s : 0 <= w < 2 ^ 31 -> dataSize k w = zlen d -> 2 * MNumberMaxSize < s -> exists n f, 0 <= n <= zlen d /\ (0 < zlen d -> 0 < n) /\ zlen f <= s /\
  marshalSuspV k w d (BB [] s) = (if position_ok k n then Some (BB f (s - zlen f), if n <? zlen d then Some (sender k n) else None) else None) /\
  (position_ok k n = true -> suspUnmarshal k f = Some ([], receiver k n, n =? zlen d)).
Proof using Hd Hlen.
  intros Hw Hk Hs. unfold MNumberMaxSize in Hs. pose proof (zlen_nonneg d). pose proof (zlen_encoding 5 w) as H5. pose proof (zlen_encoding_pos 5 w ltac:(lia)). unfold marshalSuspV, MNumberMaxSize. cbn [availableSpace]. rewrite (proj2 (Z.ltb_lt _ _)) by lia. cbn [negb].
  rewrite marshalNumber_spec by (cbn [availableSpace]; unfold MNumberMaxSize; lia). rewrite w32_word by lia. ored. cbn [setTotalSize newDesc totalSize Z.eqb setCurrentSize currentSize kind bytes index]. ored. rewrite Hk. unfold setCurrentSize. cbn [totalSize Z.eqb currentSize kind bytes index]. ored.
  set (c := zlen (encoding 5 w)) in *. set (n := Z.min (s - c - 5) (zlen d)). assert (Desc k d 0 (zlen d) (zlen d) = sender k 0) as -> by (unfold sender; by rewrite Z.sub_0_r).
  rewrite marshalByteArray_spec; [|lia|cbn [appends availableSpace]; fold c; unfold MNumberMaxSize; lia]. cbn [appends availableSpace]. fold c. unfold MNumberMaxSize. rewrite Z.sub_0_r, Z.add_0_l. fold n.
  exists n, (encoding 5 w ++ fragment 0 n). pose proof (zlen_fragment 0 n ltac:(lia) ltac:(lia) ltac:(lia)) as Hf. unfold MNumberMaxSize in Hf. split; [lia|]. split; [lia|]. split; [rewrite zlen_app; fold c; lia|]. split.
  - destruct (position_ok k n); [|done]. do 2 f_equal.
    + unfold appends. cbn [written availableSpace app]. f_equal. rewrite zlen_app. fold c. lia.
    + assert ((s - c - 5 <? zlen d) = (n <? zlen d)) as ->; [|done]. destruct (Z.ltb_spec (s - c - 5) (zlen d)), (Z.ltb_spec n (zlen d)); lia.
  - intros Hp. unfold suspUnmarshal. rewrite unmarshalNumber_spec by (unfold is_word; lia). ored. rewrite s32_small by lia. rewrite Hk, (proj2 (Z.ltb_ge _ _)) by lia. cbn [setTotalSize newDesc totalSize Z.eqb kind bytes index currentSize]. ored.
    assert (Desc k (replicate (Z.to_nat (zlen d)) 0) 0 (zlen d) 0 = receiver k 0) as -> by (unfold receiver; cbn [Z.to_nat]; by rewrite take_0, Z.sub_0_r). apply (unmarshalByteArray_spec k 0 n); [lia|lia|lia|done].
Qed.
End transfer.

(** ** References *)

(** The order of lists of signed characters. *)
Fixpoint lex (l k : list Z) : Z :=
  match l, k with
  | [], [] => 0
  | [], _ => -1
  | _, [] => 1
  | x :: l, y :: k => if B.char x <? B.char y then -1 else if B.char y <? B.char x then 1 else lex l k
  end.

Lemma cmp_loop_spec n i d e : 0 <= i -> i + Z.of_nat n = Z.min (zlen d) (zlen e) ->
  exists r, B.cmp_loop n i d e = Some r /\
    lex (drop (Z.to_nat i) d) (drop (Z.to_nat i) e) = (if r =? 0 then (if zlen d <? zlen e then -1 else if zlen e <? zlen d then 1 else 0) else r).
Proof.
  revert i. induction n as [|n IH]; intros i Hi Hn; cbn [B.cmp_loop].
  - exists 0. split; [done|]. cbn [Z.eqb]. destruct (Z.ltb_spec (zlen d) (zlen e)).
    + rewrite (drop_ge d) by (unfold zlen in *; lia). assert (zlen (drop (Z.to_nat i) e) <> 0) by (unfold zlen in *; rewrite length_drop; lia). by destruct (drop (Z.to_nat i) e).
    + rewrite (drop_ge e) by (unfold zlen in *; lia). assert (zlen (drop (Z.to_nat i) d) = zlen d - zlen e) by (unfold zlen in *; rewrite length_drop; lia).
      destruct (Z.ltb_spec (zlen e) (zlen d)), (drop (Z.to_nat i) d); rewrite ?zlen_nil, ?zlen_cons in *; try done; [lia|pose proof (zlen_nonneg l); lia].
  - destruct (aget_Some d i) as [x Hx]; [lia|]. destruct (aget_Some e i) as [y Hy]; [lia|]. rewrite Hx, Hy. ored. rewrite (drop_S d x _ (aget_lookup _ _ _ Hx)), (drop_S e y _ (aget_lookup _ _ _ Hy)). cbn [lex].
    destruct (B.char x <? B.char y); [by exists (-1)|]. destruct (B.char y <? B.char x); [by exists 1|]. destruct (IH (i + 1)) as (r & -> & Hr); [lia..|]. exists r. split; [done|]. rewrite <- Hr.
    by replace (Z.to_nat (i + 1)) with (S (Z.to_nat i)) by lia.
Qed.

Lemma cmp_spec b1 b2 : bytes_wf b1 -> bytes_wf b2 -> B.BIByteString_cmp b1 b2 = Some (lex (B.data b1) (B.data b2)).
Proof.
  intros [H1 _] [K1 _]. unfold B.BIByteString_cmp. cbv zeta. destruct (cmp_loop_spec (Z.to_nat (if B.width b1 <? B.width b2 then B.width b1 else B.width b2)) 0 (B.data b1) (B.data b2)) as (r & -> & Hr); [done| |].
  - pose proof (zlen_nonneg (B.data b1)). pose proof (zlen_nonneg (B.data b2)). destruct (Z.ltb_spec (B.width b1) (B.width b2)); lia.
  - ored. cbn [Z.to_nat] in Hr. rewrite !drop_0 in Hr. by rewrite Hr, H1, K1.
Qed.

Lemma bytes_equal_spec b1 b2 : bytes_wf b1 -> bytes_wf b2 -> exists r, B.equal b1 b2 = Some r /\ (r = true <-> b1 = b2).
Proof.
  intros [H1 _] [K1 _]. unfold B.equal. destruct (Z.eqb_spec (B.width b1) (B.width b2)) as [Hw|Hw]; cbn [negb]; [|exists false; split; [done|split; [done|congruence]]].
  destruct (bytes_loop (BitStrings.BS 0 (B.data b1)) (BitStrings.BS 0 (B.data b2)) (Z.to_nat (B.width b1)) 0 (fun x y => x =? y) BitStrings.equal_loop) as (r & E & Hr); [done|done|done|cbn [BitStrings.data]; pose proof (zlen_nonneg (B.data b1)); lia|cbn [BitStrings.data]; pose proof (zlen_nonneg (B.data b1)); lia|]. cbn [BitStrings.data] in E, Hr. rewrite E.
  exists r. split; [done|]. rewrite Hr. split; [|by intros -> j _; apply Z.eqb_refl]. intros H. destruct b1 as [v d], b2 as [w e]. cbn in *. subst v w. f_equal; [done|].
  apply aget_ext; [done|]. intros j Hj. rewrite !aget_word_at by lia. f_equal. apply Z.eqb_eq, H. lia.
Qed.

Lemma bytes_make_toString b : bytes_wf b -> B.BIByteString_make (of_ints (B.data b)) = Some (Proceed b).
Proof.
  intros Hb. rewrite of_ints_elems. pose proof (bytes_make_spec (EInt <$> B.data b)) as Hm. assert (forallb is_byte_elem (EInt <$> B.data b) = true) as E.
  { apply forallb_forall. intros e (c & -> & Hc)%list_elem_of_In%list_elem_of_fmap. destruct Hb as [_ Hb]. rewrite Forall_forall in Hb. specialize (Hb c Hc). unfold is_byte in Hb. cbn. lia. }
  rewrite E in Hm. destruct Hm as (r & -> & Hr & Er). do 2 f_equal. apply bytes_ext; [done|done|]. symmetry in Er. apply list_fmap_eq_inj in Er; [done|by intros x y [=]].
Qed.

(** A builtin returns a well-formed bit string of width [w] with the bits of [P]. *)
Definition yields (o : option (oz_outcome BitStrings.BitString)) (w : Z) (P : Z -> bool) : Prop :=
  exists r, o = Some (Proceed r) /\ holds r w P.
Definition bits (b : BitStrings.BitString) : Z -> bool := bit (BitStrings.data b).

Lemma make_elems w es : 0 <= w ->
  if forallb (is_index w) es then yields (BitStrings.BIBitString_make w (of_elems es)) w (is_elem es) else BitStrings.BIBitString_make w (of_elems es) = Some (Raise (TypeError 1)).
Proof.
  intros Hw. unfold BitStrings.BIBitString_make. rewrite (proj2 (Z.ltb_ge _ _)) by done. rewrite isList_elems. destruct (newBitString_spec w Hw) as (b & -> & Hb & Wb & Bb). ored. pose proof (make_loop_spec es b Hb) as Hm. rewrite Wb in Hm.
  destruct (forallb _ es); [|done]. destruct Hm as (r & -> & Hr & Wr & Br). exists r. split; [done|]. split; [done|]. split; [done|]. intros j. by rewrite Br, Bb, orb_false_r.
Qed.

Lemma make_toList b : wf b -> BitStrings.BIBitString_make (BitStrings.width b) (of_ints (filter (fun j => bits b j = true) (seqZ 0 (BitStrings.width b)))) = Some (Proceed b).
Proof.
  intros Hb. set (l := filter _ _). pose proof Hb as (W1 & _). rewrite of_ints_elems. pose proof (make_elems (BitStrings.width b) (EInt <$> l) W1) as Hm.
  assert (forall j, j ∈ l <-> bits b j = true) as Hl by (intros j; unfold l; rewrite list_elem_of_filter, elem_of_seqZ; split; [tauto|]; intros Hj; pose proof (bit_range b j Hb Hj); split; [done|lia]).
  assert (forallb (is_index (BitStrings.width b)) (EInt <$> l) = true) as E.
  { apply forallb_forall. intros e (j & -> & Hj%Hl)%list_elem_of_In%list_elem_of_fmap. pose proof (bit_range b j Hb Hj). cbn. lia. }
  rewrite E in Hm. destruct Hm as (r & -> & Hr & Wr & Br). do 2 f_equal. apply wf_ext; [done|done|done|]. intros j. rewrite Br. apply eq_true_iff_eq. unfold is_elem. rewrite existsb_exists. fold (bits b j). rewrite <- (Hl j). split.
  - intros (e & (x & -> & Hx)%list_elem_of_In%list_elem_of_fmap & Ej). apply Z.eqb_eq in Ej. by subst.
  - intros Hj. exists (EInt j). split; [|apply Z.eqb_refl]. apply list_elem_of_In, list_elem_of_fmap. by exists j.
Qed.

(** One returns a well-formed byte string with the bytes of [l]. *)
Definition gives (o : option (oz_outcome B.ByteString)) (l : list Z) : Prop :=
  exists r, o = Some (Proceed r) /\ bytes_wf r /\ B.data r = l.

(** * Properties *)

Section properties.
Import BitStrings.

(** C21: What is written into a buffer is read back, with nothing more consumed, whatever follows: numbers of 32 bits
    in at most five bytes, strings, small integers with their sign, floats, bit strings and byte strings.  No more
    space is used than the constants of the suspendable marshaler say. *)
Theorem pickling_roundtrip i s j (f : Z * Z) b c :
  is_word i -> Forall is_byte s -> zlen s < 2 ^ 32 -> - 2 ^ 31 <= j < 2 ^ 31 -> is_word f.1 -> is_word f.2 -> wf b -> width b < 2 ^ 31 -> bytes_wf c -> B.width c < 2 ^ 31 ->
  encodes (marshalNumber i) unmarshalNumber i MNumberMaxSize /\
  encodes (marshalString s) unmarshalString s (MNumberMaxSize + zlen s) /\
  encodes (marshalSmallInt j) unmarshal (SmallInt j) (DIFMaxSize + MNumberMaxSize) /\
  encodes (marshalFloat f) unmarshal (Float f) (DIFMaxSize + 2 * MNumberMaxSize) /\
  encodes (pickleV b) unmarshalBitString b (MNumberMaxSize + zlen (data b)) /\
  encodes (B.pickleV c) B.unmarshalByteString c (MNumberMaxSize + zlen (B.data c)).
Proof. intros. split_and!; [by apply number_encodes|by apply string_encodes|by apply smallInt_encodes|by apply float_encodes|by apply bitString_encodes|by apply byteString_encodes]. Qed.

(** C19: The builtins of bit strings are the operations of sets of indices below the width: no operation sets a
    bit behind the width, indices and widths that do not fit raise the errors of the code, and so do elements of
    a list that are no indices; [make] of [toList] is the bit string again; equality, disjointness and
    cardinality are those of the sets. *)
Theorem bitstrings_refine_sets b1 b2 i : wf b1 -> wf b2 ->
  BIBitString_get b1 i = Some (if checkIndex b1 i then Proceed (bits b1 i) else Raise indexOutOfBound) /\
  (if checkIndex b1 i then yields (BIBitString_put b1 i BTrue) (width b1) (fun j => (j =? i) || bits b1 j) /\ yields (BIBitString_put b1 i BFalse) (width b1) (fun j => negb (j =? i) && bits b1 j)
   else BIBitString_put b1 i BTrue = Some (Raise indexOutOfBound) /\ BIBitString_put b1 i BFalse = Some (Raise indexOutOfBound)) /\
  (if width b1 =? width b2 then
     yields (BIBitString_conj b1 b2) (width b1) (fun j => bits b1 j && bits b2 j) /\ yields (BIBitString_disj b1 b2) (width b1) (fun j => bits b1 j || bits b2 j) /\
     (exists r, nimpl b1 b2 = Some r /\ holds r (width b1) (fun j => bits b1 j && negb (bits b2 j))) /\ (exists r, disjoint b1 b2 = Some r /\ (r = true <-> forall j, bits b1 j && bits b2 j = false))
   else BIBitString_conj b1 b2 = Some (Raise widthMismatch) /\ BIBitString_disj b1 b2 = Some (Raise widthMismatch)) /\
  yields (BIBitString_nega b1) (width b1) (fun j => checkIndex b1 j && negb (bits b1 j)) /\
  (exists r, equal b1 b2 = Some r /\ (r = true <-> b1 = b2)) /\
  card b1 = Some (count_range (bits b1) 0 (Z.to_nat (width b1))) /\
  (exists l, BIBitString_toList b1 = Some (of_ints l) /\ l = filter (fun j => bits b1 j = true) (seqZ 0 (width b1)) /\ BIBitString_make (width b1) (of_ints l) = Some (Proceed b1)) /\
  (forall w l, if w <? 0 then BIBitString_make w l = Some (Raise (TypeError 0))
     else match OZ_isList l with
          | Proceed _ => exists es, l = of_elems es /\ if forallb (is_index w) es then yields (BIBitString_make w l) w (is_elem es) else BIBitString_make w l = Some (Raise (TypeError 1))
          | Raise e => BIBitString_make w l = Some (Raise e)
          | Suspend => BIBitString_make w l = Some Suspend
          end).
Proof.
  intros H1 H2.
  split_and!.
  - unfold BIBitString_get. destruct (checkIndex b1 i) eqn:Hi; cbn [negb]; [|done]. destruct (get_spec b1 H1 i Hi) as (x & -> & Ex). ored. by rewrite Ex, negb_involutive.
  - unfold BIBitString_put. destruct (checkIndex b1 i) eqn:Hi; cbn [negb]; [|done].
    split; [destruct (bits_put b1 H1 i true Hi) as (r & -> & Hr & Wr & Br)|destruct (bits_put b1 H1 i false Hi) as (r & -> & Hr & Wr & Br)]; ored; exists r; (split; [done|]); (split; [done|]); (split; [done|]); intros j; rewrite Br; by destruct (j =? i).
  - unfold BIBitString_conj, BIBitString_disj, binop. destruct (Z.eqb_spec (width b1) (width b2)) as [Hw|]; cbn [negb]; [|done].
    destruct (conj_spec b1 b2 H1 H2 Hw) as (r1 & -> & R1). destruct (disj_spec b1 b2 H1 H2 Hw) as (r2 & -> & R2). ored. split; [by exists r1|]. split; [by exists r2|]. split; [by apply nimpl_spec|by apply bits_disjoint].
  - unfold BIBitString_nega. destruct (nega_spec b1 H1) as (r & -> & Hr). ored. by exists r.
  - destruct (Z.eq_dec (width b1) (width b2)) as [Hw|Hw]; [by apply equal_spec|]. unfold equal. rewrite (proj2 (Z.eqb_neq _ _)) by done. exists false. split; [done|]. split; [done|congruence].
  - by apply bits_card.
  - eexists. split; [by apply bits_toList|]. split; [done|by apply make_toList].
  - intros w l. destruct (Z.ltb_spec w 0) as [Hw|Hw]; [unfold BIBitString_make; by rewrite (proj2 (Z.ltb_lt _ _))|].
    destruct (isList_spec l) as [(es & -> & E)|[E|E]]; rewrite E; [exists es; split; [done|by apply make_elems]|unfold BIBitString_make; by rewrite (proj2 (Z.ltb_ge _ _)), E by done..].
Qed.

(** C20: The builtins of byte strings are the operations of lists of bytes: indexing, concatenation, slices, conversion
    to and from lists, the first occurrence of a byte from an offset, equality, and a comparison that is
    lexicographic for signed characters.  Indices and elements out of range raise the errors of the code;
    no access is outside an array.  (Two strings that are concatenated are taken to have fewer than 2^31 bytes together.) *)
Theorem bytestrings_refine_lists b1 b2 i k : bytes_wf b1 -> bytes_wf b2 ->
  B.BIByteString_get b1 i = Some (default (Raise indexOutOfBound) (Proceed <$> (B.data b1).[i])) /\
  gives (B.BIByteString_append b1 b2) (B.data b1 ++ B.data b2) /\
  (if (0 <=? i) && (i <=? k) && (k <=? B.width b1) then gives (B.BIByteString_slice b1 i k) (take (Z.to_nat (k - i)) (drop (Z.to_nat i) (B.data b1)))
   else B.BIByteString_slice b1 i k = Some (Raise indexOutOfBound)) /\
  B.BIByteString_toString b1 = Some (of_ints (B.data b1)) /\
  B.BIByteString_make (of_ints (B.data b1)) = Some (Proceed b1) /\
  (if B.checkIndex b1 i && (0 <=? k) && (k <=? 255) then
     exists r, B.BIByteString_strchr b1 i k = Some (Proceed r) /\
       match r with Some j => i <= j /\ (B.data b1).[j] = Some k /\ forall h, i <= h < j -> (B.data b1).[h] <> Some k | None => forall h, i <= h -> (B.data b1).[h] <> Some k end
   else exists e, B.BIByteString_strchr b1 i k = Some (Raise e)) /\
  (exists r, B.equal b1 b2 = Some r /\ (r = true <-> b1 = b2)) /\
  B.BIByteString_cmp b1 b2 = Some (lex (B.data b1) (B.data b2)) /\
  (forall l, match OZ_isList l with
        | Proceed _ => (exists d, gives (B.BIByteString_make l) d /\ l = of_ints d) \/ B.BIByteString_make l = Some (Raise (TypeError 0))
        | Raise e => B.BIByteString_make l = Some (Raise e)
        | Suspend => B.BIByteString_make l = Some Suspend
        end).
Proof.
  intros H1 H2. pose proof H1 as [W1 D1]. split_and!.
  - unfold B.BIByteString_get. destruct (B.checkIndex b1 i) eqn:Hi; cbn [negb]; [destruct (bytes_get b1 H1 i Hi) as (x & -> & -> & _); done|].
    rewrite aget_None; [done|]. unfold B.checkIndex in Hi. lia.
  - by apply bytes_append.
  - destruct (_ && (k <=? B.width b1)) eqn:E; [apply slice_spec; [done|lia..]|]. unfold B.BIByteString_slice. cbv zeta.
    assert ((i <? 0) || (k <? 0) || (B.width b1 <? i) || (B.width b1 <? k) || (k <? i) = true) as -> by lia. done.
  - by apply toString_spec.
  - by apply bytes_make_toString.
  - unfold B.BIByteString_strchr. cbv zeta. unfold B.checkIndex. destruct ((i <? 0) || (B.width b1 <=? i)) eqn:Ei.
    + assert ((0 <=? i) && (i <? B.width b1) && (0 <=? k) && (k <=? 255) = false) as -> by lia. by eexists.
    + destruct ((k <? 0) || (255 <? k)) eqn:Ek; [assert ((0 <=? i) && (i <? B.width b1) && (0 <=? k) && (k <=? 255) = false) as -> by lia; by eexists|].
      assert ((0 <=? i) && (i <? B.width b1) && (0 <=? k) && (k <=? 255) = true) as -> by lia. destruct (find_char_spec b1 (Z.to_nat (B.width b1 - i)) i k) as (r & -> & Hr); [lia|lia|]. ored. exists r. split; [done|]. destruct r as [j|]; [|done].
      destruct Hr as (Hj & Hc & Hf). by split_and!; [lia|..].
  - by apply bytes_equal_spec.
  - by apply cmp_spec.
  - intros l. destruct (isList_spec l) as [(es & -> & E)|[E|E]]; rewrite E; [|unfold B.BIByteString_make; by rewrite E..]. pose proof (bytes_make_spec es) as Hm. destruct (forallb _ es); [left|by right].
    destruct Hm as (r & -> & Hr & ->). exists (B.data r). split; [by exists r|]. by rewrite of_ints_elems.
Qed.

(** C18: A byte string is transferred through buffers of any sizes above eleven bytes.  No fragment overruns its buffer;
    each takes at least one byte along, so that one more buffer than there are bytes is enough; and at any point
    the receiver has exactly the bytes that the sender is done with: the whole string when the sender is done,
    and a suspended descriptor otherwise.  No assertion fails. *)
Theorem transfer_exact d spaces : Forall is_byte d -> zlen d < 2 ^ 31 -> spaces <> [] -> Forall (fun s => DIFMaxSize + 2 * MNumberMaxSize < s) spaces ->
  exists frames o, send ByteStringDesc (zlen d) d spaces = Some (frames, o) /\
    Forall2 (fun f s => zlen f <= s) frames (take (length frames) spaces) /\
    (zlen d < zlen spaces -> o = None) /\
    match o with
    | None => receive ByteStringDesc frames = Some (inl d)
    | Some desc => exists desc', receive ByteStringDesc frames = Some (inr desc') /\
        index desc' = index desc /\ zlen spaces <= index desc < zlen d /\ take (Z.to_nat (index desc)) (bytes desc') = take (Z.to_nat (index desc)) d
    end.
Proof.
  intros Hd Hl Hne Hs. destruct Hs as [|s spaces Hs Hsp]; [done|]. pose proof (zlen_nonneg d). cbn [send]. rewrite zlen_cons.
  destruct (first_spec d Hd Hl ByteStringDesc (zlen d) s) as (n & f & Hn & Hpos & Hf & -> & R); [lia|done|unfold DIFMaxSize, MNumberMaxSize in *; lia|].
  assert (position_ok d ByteStringDesc n = true) as Hp by (unfold position_ok; lia). rewrite Hp. ored. specialize (R Hp). destruct (Z.ltb_spec n (zlen d)) as [Hlt|Hge].
  - destruct (send_rest_bytes d Hd Hl spaces n) as (frames & o & -> & HF & Ho); [lia|done|]. ored. exists (f :: frames), o. split; [done|]. cbn [written length take]. split; [by constructor|]. unfold receive. rewrite R. ored. rewrite (proj2 (Z.eqb_neq _ _)) by lia.
    destruct o as [desc|]; [|done]. destruct Ho as (j & -> & Hj & _ & ->). cbn [sender index]. split; [pose proof (zlen_nonneg spaces); lia|]. exists (receiver d ByteStringDesc j). split; [done|]. split; [done|]. split; [lia|].
    cbn [receiver bytes]. by rewrite take_app_length' by (unfold zlen in *; rewrite length_take; lia).
  - assert (send_rest spaces None = Some ([], None)) as -> by by destruct spaces. ored. exists [f], None. split; [done|]. cbn [written length take]. split; [by repeat constructor|]. split; [done|]. unfold receive. rewrite R. ored. cbn [receive_rest].
    rewrite (proj2 (Z.eqb_eq _ _)) by lia. replace n with (zlen d) by lia. by rewrite receiver_complete.
Qed.

(** C32: The transfer of a bit string cannot be completed: whatever its width and whatever buffers there are, the fragment
    that would be the last one ends in the assertion of [setData], which does not allow the position behind the
    last byte, as the one for byte strings does. *)
Theorem bitstring_transfer_fails w d spaces : 0 <= w < 2 ^ 31 -> Forall is_byte d -> zlen d = getSize w -> Forall (fun s => DIFMaxSize + 2 * MNumberMaxSize < s) spaces -> zlen d < zlen spaces ->
  send BitStringDesc w d spaces = None.
Proof.
  intros Hw Hd Hl Hs Hz. pose proof (size_bounds w ltac:(lia)). pose proof (zlen_nonneg d). destruct Hs as [|s spaces Hs Hsp]; [done|]. cbn [send]. rewrite zlen_cons in Hz.
  destruct (first_spec d Hd ltac:(lia) BitStringDesc w s) as (n & f & Hn & Hpos & Hf & -> & _); [lia|by rewrite Hl|unfold DIFMaxSize, MNumberMaxSize in *; lia|].
  destruct (position_ok d BitStringDesc n) eqn:Hp; [|done]. ored. cbn [position_ok] in Hp. rewrite Hp. rewrite (send_rest_bits d Hd ltac:(lia)) by (done || lia). done.
Qed.
End properties.

(** ** Witnesses *)

Definition bits_1101 : BitStrings.BitString := BitStrings.BS 11 [13; 4].
Definition bits_0110 : BitStrings.BitString := BitStrings.BS 11 [6; 4].
Definition bytes_abc : B.ByteString := B.BS 4 [97; 98; 200; 98].
Definition bytes_ab : B.ByteString := B.BS 2 [97; 98].

Lemma wf_two x y : is_byte x -> is_byte y -> y < 8 -> wf (BitStrings.BS 11 [x; y]).
Proof.
  intros Hx Hy H8. split; [done|]. split; [done|]. split; [by apply Forall_cons_2; [|apply Forall_cons_2; [|constructor]]|]. intros i Hi. cbn [BitStrings.width BitStrings.data] in *. destruct (Z.lt_ge_cases i 11) as [|Hge]; [done|]. exfalso.
  destruct (Z.lt_ge_cases i 16); [|by rewrite bit_out in Hi by (unfold zlen; cbn; lia)]. revert Hi. rewrite <- (Z.sub_add 8 i), (Z.add_comm _ 8). change (bit [x; y] (8 * 1 + (i - 8)) = true -> False). rewrite bit_at by lia. change (word_at [x; y] 1) with y.
  destruct (Z.eq_dec y 0) as [->|]; [by rewrite Z.bits_0|]. rewrite Z.bits_above_log2; [done|apply Hy|]. apply Z.lt_le_trans with 3; [apply Z.log2_lt_pow2; [unfold is_byte in Hy; lia|done]|lia].
Qed.

Lemma bits_1101_wf : wf bits_1101.
Proof. by apply wf_two. Qed.
Lemma bits_0110_wf : wf bits_0110.
Proof. by apply wf_two. Qed.
Lemma bytes_abc_wf : bytes_wf bytes_abc.
Proof. split; [done|]. by repeat (apply Forall_cons_2; [done|]). Qed.
Lemma bytes_ab_wf : bytes_wf bytes_ab.
Proof. split; [done|]. by repeat (apply Forall_cons_2; [done|]). Qed.

Lemma pickling_roundtrip_witness :
  encodes (marshalNumber 300) unmarshalNumber 300 MNumberMaxSize /\
  encodes (marshalString [97; 98]) unmarshalString [97; 98] (MNumberMaxSize + zlen [97; 98]) /\
  encodes (marshalSmallInt (-1)) unmarshal (SmallInt (-1)) (DIFMaxSize + MNumberMaxSize) /\
  encodes (marshalFloat (0, 1072693248)) unmarshal (Float (0, 1072693248)) (DIFMaxSize + 2 * MNumberMaxSize) /\
  encodes (BitStrings.pickleV bits_1101) BitStrings.unmarshalBitString bits_1101 (MNumberMaxSize + zlen (BitStrings.data bits_1101)) /\
  encodes (B.pickleV bytes_abc) B.unmarshalByteString bytes_abc (MNumberMaxSize + zlen (B.data bytes_abc)).
Proof.
  apply (pickling_roundtrip 300 [97; 98] (-1) (0, 1072693248) bits_1101 bytes_abc);
    first [apply bits_1101_wf|apply bytes_abc_wf|by repeat (apply Forall_cons_2; [done|])|done].
Defined.

Lemma bitstrings_refine_sets_witness :
  BitStrings.BIBitString_get bits_1101 2 = Some (Proceed (bits bits_1101 2)) /\
  yields (BitStrings.BIBitString_conj bits_1101 bits_0110) 11 (fun j => bits bits_1101 j && bits bits_0110 j).
Proof.
  destruct (bitstrings_refine_sets bits_1101 bits_0110 2 bits_1101_wf bits_0110_wf) as (H1 & _ & [H3 _] & _). split; [exact H1|exact H3].
Defined.

Lemma bytestrings_refine_lists_witness :
  gives (B.BIByteString_append bytes_abc bytes_ab) [97; 98; 200; 98; 97; 98] /\ gives (B.BIByteString_slice bytes_abc 1 3) [98; 200] /\ B.BIByteString_cmp bytes_abc bytes_ab = Some 1.
Proof.
  destruct (bytestrings_refine_lists bytes_abc bytes_ab 1 3 bytes_abc_wf bytes_ab_wf) as (_ & H2 & H3 & _ & _ & _ & _ & H8 & _). split; [exact H2|]. split; [exact H3|exact H8].
Defined.

Lemma transfer_exact_witness :
  exists frames o, send ByteStringDesc 12 (seqZ 1 12) [12; 13; 12; 14] = Some (frames, o) /\
    Forall2 (fun f s => zlen f <= s) frames (take (length frames) [12; 13; 12; 14]) /\ (zlen (seqZ 1 12) < zlen [12; 13; 12; 14] -> o = None) /\
    match o with
    | None => receive ByteStringDesc frames = Some (inl (seqZ 1 12))
    | Some desc => exists desc', receive ByteStringDesc frames = Some (inr desc') /\
        index desc' = index desc /\ zlen [12; 13; 12; 14] <= index desc < zlen (seqZ 1 12) /\ take (Z.to_nat (index desc)) (bytes desc') = take (Z.to_nat (index desc)) (seqZ 1 12)
    end.
Proof.
  apply (transfer_exact (seqZ 1 12) [12; 13; 12; 14]); [|done|done|by repeat (apply Forall_cons_2; [done|])].
  apply Forall_forall. intros x Hx%elem_of_seqZ. unfold is_byte. lia.
Defined.

Lemma bitstring_transfer_fails_witness : send BitStringDesc 11 [13; 4] [20; 20; 20] = None.
Proof.
  apply (bitstring_transfer_fails 11 [13; 4] [20; 20; 20]); [lia|by repeat (apply Forall_cons_2; [done|])|done|by repeat (apply Forall_cons_2; [done|])|done].
Defined.
